(* ===== verification/_CoqProject ===== *)
-Q . S2P
Prelude.v
Digits.v
GoLib.v
Kernels.v
Indices.v
Timestamps.v
Compress.v
DictSection.v
DictLayout.v
Postings.v
Bloom.v
Group.v
GroupSafe.v
GroupLayout.v
Bitset.v
Select.v
Reader.v
ReaderSafe.v
ReaderOk.v
Table.v
Writer.v
Ingest.v
Recompact.v
Batches.v
Manifest.v
ManifestOk.v
Store.v
StoreOk.v
StoreRuns.v
Text.v
Filter.v
FilterOk.v
Engine.v
EngineOk.v
TimeFilter.v
Scan.v
ScanOk.v
PagesOk.v
KeySort.v
NewestOk.v
Aggregate.v
AggregateOk.v
StatsOk.v
Lifecycle.v
Budget.v
Findings.v
Witnesses.v
QueryWitnesses.v
Rows.v
StatsPipe.v
Pipes.v
PipesOk.v
LogsQL.v
LogsQLOk.v
LogsQLText.v
LogsQLTrip.v
Lower.v
Records.v
Jsonl.v
JsonlOk.v
TextLines.v
Batching.v
Queried.v
Pipeline.v
StatsScanOk.v
Distributed.v
Wire.v
Cluster.v
DistributedOk.v
Rfc3339.v
WireOk.v
ClusterOk.v
PipeWitnesses.v
IngestWitnesses.v
LangWitnesses.v
QueriedWitness.v
Backup.v
BackupOk.v
RestoreOk.v
RestoreWitness.v
