(* ===== verification/Prelude.v ===== *)
(** * simdlogs: a verification development

    simdlogs is a log store in Go. Bodies of lines (JSON, logfmt, syslog) are parsed
    into records, large ones in shards that run at once. Records arrive at a [Writer], which spreads
    their fields over column buffers; a flush hands the buffered rows to a pool
    of workers, which build a column group, marshal it to a blob and store it.
    A blob is parsed into a [Reader], whose accessors give row values, equality
    through posting lists, counts and time windows. Background work rewrites
    groups (recompaction) and merges them (compaction). The text of a query is parsed to a
    filter and pipes. A query leases the groups
    of its window in a snapshot, prunes them by their footers, evaluates its
    filter to a row set per group and materializes, counts or buckets the rows,
    one group after the other or fanned out over workers; the rows then run
    through the pipes of the query. The groups of a directory are the ones its
    manifest, a log of commits, names. In a cluster a coordinator splits a query,
    sends its head to every shard, merges the rows that come back and runs the
    rest. This library models that path, from [src/internal/ingest] over
    [src/internal/storage] and [src/internal/query] to the plan and the merge of
    [src/internal/api], as executable functions over lists of integers, and
    proves that it loses, invents and reorders nothing, across crashes too. What
    threads share (the writer's batches, a group's mapping, the fan-outs, the
    admission counters, the store's lock) is modelled at the grain of its atomic
    operations and critical sections, and the theorems hold in every interleaving.

    ** Conventions

    A Go integer is a [Z]; every operation that can wrap at its width says so
    ([u8], [u16], [u32], [u64], [i64] of Digits). [int] is 64 bits wide and the
    quantities it holds are lengths and offsets, which do not reach that bound;
    they are not wrapped. A [[]byte] or [string] is the list of its bytes, a
    [float32] its bits. Code that can panic (an index or slice out of range, a
    division by zero, an explicit [panic]) returns [outcome], with [Panic] as a
    value; parsing returns [checked], with the error named. Loops are structural
    or run on fuel that is the length of what they consume; a loop's theorem
    says that it returns, so fuel that ran out would refute it. A buffer that Go
    code reuses is an argument, and the theorems quantify over what it held.

    Code outside the repository is a class of operations with a class of the
    laws its documentation states: the kernels of the simd package and DEFLATE
    (Kernels), the byte-wise kernels (Bitset, Select), the iteration order of a Go
    map (Writer), text functions such as regular expressions and float parsing
    (Filter), calendar parsing (TimeFilter), JSON, regular expressions and float
    formatting of the pipes (Rows), Unicode case folding (LogsQL), the JSON decoder
    of ingest (Jsonl), the JSON of a backup's manifest (Backup), [float32] parsing and the growth of slices (Records). Those with laws have a
    reference instance with its laws proved, and the witnesses evaluate on those.
    The clock, cancellation and the schedule of the workers are arguments.

    ** Files

    - Prelude, Digits, GoLib: outcomes, slices, digits and little-endian words,
      varints, CRC-32C and string order: what the source uses of Go.
    - Kernels: the interfaces named above.
    - Indices, Timestamps (column.go): interning, bit-packed indices, checkpointed
      timestamps. Round trips of every decoder, exactness of the block-skipping
      time filter, coverage of the window span.
    - Compress (compress.go): the LZ4 writer against the block format, guarded
      decompression.
    - DictSection, DictLayout (dict.go): the sorted dictionary in compressed
      blocks. DictSection holds the code and what is true of arbitrary bytes
      (all reads agree, none panics); DictLayout the round trip.
    - Postings (postings.go): posting lists: the round trip, and safety on
      arbitrary bytes. Bloom (footer.go): no false negative.
    - Group (group.go, group_read.go): the blob, [Marshal] and [ReadGroup].
      GroupSafe: parsing arbitrary bytes is safe and establishes [reader_wf], the
      invariant the accessors run on; no changed byte goes unnoticed.
      GroupLayout: a marshalled group is accepted, every column at its place.
    - Bitset (query/bitset.go), Select (engine.go): row sets, and the masks of the
      kernels packed into them.
    - Reader (footer.go, vector.go): the accessors and the caches. ReaderSafe: on
      any accepted blob none panics, and caches never change an answer.
      ReaderOk: on a marshalled group each answers from the group. Table states
      that as an abstract table and proves the refinement.
    - Writer (ingest/writer.go): a record becomes a row of the column buffers;
      the buffers refine a list of rows, whatever the map order. Ingest composes
      writer, worker, [Marshal], [ReadGroup] and the accessors.
    - Recompact (recompact.go, compact_groups.go): rewriting and merging groups
      keeps the table.
    - Batches (ingest/writer.go, writeerr.go): the lock sections of the writer and
      the atomic operations of the workers as a step relation; what a flush may
      report in any interleaving.
    - Manifest (manifest.go, atomicfile.go): a file and its directory entry under
      system calls that fail and crashes that lose what was not synced; the log's
      records, replay, commit with rollback, compaction and bootstrap. ManifestOk:
      a commit is atomic, its answer is the truth, and a history of commits
      refines a set of ids.
    - Store (store.go, receipts.go, retention.go, cold.go, health.go,
      compact_groups.go): the directory of group files and the store above it,
      its actions as interleaved calls, its open after a crash. StoreOk: what was
      answered as stored survives, once; StoreRuns: runs and witnesses.
    - Filter (filter.go, pipes.go, engine.go): the filter language, its evaluator
      over a group and its evaluator over one row. FilterOk: the first computes
      the rows a tree accepts, its prune is sound, and the two agree.
    - Engine (engine.go): selection and materialization of one group. EngineOk:
      [query_sem] says which rows a query selects of a table; [matchBitset] and
      [appendMatches] implement it on every decode path.
    - TimeFilter (time_filter.go): [_time] filters, saturating arithmetic, and the
      resolution of relative bounds against the clock.
    - Scan (engine.go, parallel.go, order.go, snapshot.go): a query over the leased
      groups: [Run], [Count], [ScanPage] and the fan-outs as step functions of
      their workers. ScanOk: one invariant of a fan-out whose workers drain a
      channel, its termination under any schedule that keeps running the
      workers, and [Run] and [Count] against the matching rows. PagesOk: a walk
      by cursor. KeySort: stable sorts by a key. NewestOk: the newest rows.
    - Aggregate (engine.go, parallel.go, introspect.go): [Histogram], [Hits],
      [StatsByField], [FieldValues]. AggregateOk, StatsOk: their counts are those
      of the matching rows.
    - Lifecycle (snapshot.go): who may hold a group's mapping, and when it goes.
    - Budget (query/budget.go): the worker budget and per-tenant admission.
    - Text, Rows (pipes.go, pipes_more.go, pipes_vlparity.go, math.go): the text
      functions of the standard library and every pipe that rewrites one row.
      StatsPipe (pipes.go, hll.go): aggregates by key. Pipes: the pipes as a type
      and what each does to rows ([apply]). Pipeline (pipes.go, fastpipes.go,
      pipes_introspect.go, subquery.go): [RunPipeline] with its fast paths,
      budgets and subqueries. PipesOk: [stats], [uniq] and [top] answer per
      distinct key; StatsScanOk: aggregating while scanning answers the same.
    - LogsQL (logsql.go, math.go): the lexer and the recursive descent from a text to
      its filter tree and its pipes, as parsers over the tokens that are left.
      LogsQLOk: a calculus of parsers, and every text is parsed or refused.
      LogsQLText: a printer of filters, whose text lexes to its tokens; LogsQLTrip:
      which parse back to the filter. Lower (subquery.go): the query that runs, its
      subqueries resolved, and any text that parses selects the rows on which it
      holds, a subquery holding where its field has the value of one of its rows.
    - Records (time.go, value.go, options.go, result.go): what the ingest formats
      share; a record handed over is a call of [addVec]; no time wraps.
      Jsonl (jsonline.go): JSON lines in one pass, with the scratch slice of the
      embeddings and the arrays behind it, and over shards. JsonlOk: what a line does
      without the slices, and the shards answer what one pass does. TextLines
      (logfmt.go, syslog.go): logfmt is read back.
    - Batching: a run of the writer hands over every row once, in jobs that fit the
      format because of the thresholds of [addVec]. Queried: the layers from
      [IngestLogfmtOpts] to [Run] composed; the records answered are those on which
      the filter of the text holds. QueriedWitness: one such run, evaluated.
    - Backup (backup.go, backup_manifest.go, restore.go): the archive of a store, the
      reader that checks one against its manifest, and the staged restore as system
      calls that may fail, with every state between two of them kept. BackupOk: what
      the reader accepts is what the manifest says, and a backup is read back, no part
      of it. RestoreOk: the destination has the whole archive or none of it, and a
      killed restore can be run again. RestoreWitness: both, evaluated.
    - Distributed (distributed.go, cluster_plan.go, pipes.go): which pipes run on a
      shard, the plan and [ApplyPipes]; DistributedOk: the plan answers what the
      whole pipeline would over the merged rows.
    - Wire (server.go, cluster_rowscan.go): a row's line and the scanner that reads
      it; Rfc3339, WireOk: both are read back exactly. Cluster (cluster.go): the
      merge of the shards' lines; ClusterOk: it is one order, by time, whatever shard
      finished first.
    - Findings, and parts of PipeWitnesses, IngestWitnesses, LangWitnesses and
      RestoreOk: inputs and interleavings on which the code does not do what it means to.
    - Witnesses, QueryWitnesses, StoreRuns, PipeWitnesses, IngestWitnesses,
      LangWitnesses: closed instances of the theorems that have hypotheses.

    ** Bounds

    A group of the theorems has at most 2^24 rows (2^22 where its dictionaries are
    built from rows), 2^16 columns and names of 2^16 bytes, and a column's values
    stay below 1 GiB: what the format's 32-bit offsets and the reader's ceilings
    allow. A blob of 4 GiB or more cannot be addressed by its own footer, so the
    read side is stated for shorter ones.

    A fan-out returns once its schedule contains, in rounds that each run every
    worker, as many rounds as [enough] asks: eight per group and one per worker,
    the number of steps a worker takes on a group and to quit. The queries of the
    theorems have a group in service, [in_service]: it answers for a table with at
    least one row and a [_time] column, which [Marshal_ReadGroup_answers] gives.

    A manifest record holds at most [limit] (2097100) groups, which is what its
    16 MiB ceiling admits; [StoreOk] keeps runs within it and below the last id of
    64 bits ([room]). Replay, and the loops over a logfmt line and over the text of
    a JSON object, run on the length of what is left, of which every round takes
    at least a byte; so do the loops over a body of lines and over the text of a
    query. The descent of the parser runs on the number of tokens, of which what a
    parenthesis nests has fewer. A body that is split has at most 2^31 bytes
    ([sharded_exact]), so a record's position fits [int32]. A count of rows fits
    [int64] ([top_exact]).

    A sort whose comparison is not a strict weak order ([sort] descending by equal
    numbers, see PipeWitnesses) is modelled by the stable insertion sort, one of the
    orders the library may produce; the theorems about sorted rows are about
    comparisons that are.

    ** Not modelled

    The anti-entropy digests; the format of tar, whose archives are lists of entries;
    in a restore the umask, other processes at the same paths, the states inside one
    [RemoveAll] (a step that leaves nothing or, failing, any part) and the temporary
    file of [writeFileAtomic], which is the success of its calls; HTTP, authentication
    and the cluster's transport, write path and repair; OTLP, Loki, journald and Datadog,
    whose decoders are outside the repository; configuration; the translation of SQL
    to the query language; streaming scans and [streams]; the texts of errors and
    warnings, which are values that name them; in Batches the refusal of a vector
    column by a worker, which [worker_group_spec] shows never happens;
    in Reader the floating-point [Cosine] and [Norm]; in Postings the scratch
    pools; in Scan the compilation cache of regular expressions and the number of
    workers the budget grants, which the theorems take as any positive number.

    ** Plan

    Next: a printer for pipes and their round trip; SQL; the remaining ingest formats;
    the streaming scan; the merges of the cluster's other endpoints. *)

From stdpp Require Export base list numbers option tactics.
From Stdlib Require Export ZArith Lia.

Local Open Scope Z_scope.

(** ** Notation and automation *)

(** A Go [[]byte], [string] or [[]uintN]: the list of its element values. *)
Abbreviation bytes := (list Z).

(** Go's [len]. *)
Definition len {A} (l : list A) : Z := Z.of_nat (length l).

Arguments len : simpl never.

Create HintDb simdlogs.
Create Rewrite HintDb simdlogs.

Lemma len_cons {A} (x : A) l : len (x :: l) = 1 + len l.
Proof. unfold len. simpl length. lia. Qed.
Lemma len_app {A} (l1 l2 : list A) : len (l1 ++ l2) = len l1 + len l2.
Proof. unfold len. rewrite length_app. lia. Qed.
Lemma len_nonneg {A} (l : list A) : 0 ≤ len l.
Proof. unfold len. lia. Qed.
Lemma len_replicate {A} n (x : A) : len (replicate n x) = Z.of_nat n.
Proof. unfold len. by rewrite length_replicate. Qed.
Lemma len_fmap {A B} (f : A → B) l : len (f <$> l) = len l.
Proof. unfold len. by rewrite length_fmap. Qed.
Lemma len_insert {A} (l : list A) i x : len (<[i:=x]> l) = len l.
Proof. unfold len. by rewrite length_insert. Qed.
Lemma len_take {A} n (l : list A) : len (take n l) = Z.min (Z.of_nat n) (len l).
Proof. unfold len. rewrite length_take. lia. Qed.
Lemma len_drop {A} n (l : list A) : len (drop n l) = Z.max 0 (len l - Z.of_nat n).
Proof. unfold len. rewrite length_drop. lia. Qed.

#[export] Hint Rewrite @len_cons @len_app @len_replicate @len_fmap
  @len_insert @len_take @len_drop : simdlogs.
#[export] Hint Resolve len_nonneg : simdlogs.

(** Make every [0 <= len l] of the context and goal visible to [lia]. *)
Ltac len_facts :=
  repeat match goal with
  | |- context [len ?l] =>
      lazymatch goal with H : 0 ≤ len l |- _ => fail | _ => pose proof (len_nonneg l) end
  | H : context [len ?l] |- _ =>
      lazymatch goal with H : 0 ≤ len l |- _ => fail | _ => pose proof (len_nonneg l) end
  end.
(** [len []] reduces to [0], so [rewrite] finds it anywhere: replace it by
    conversion instead. *)
Ltac len_nil :=
  repeat match goal with
  | |- context [@len ?A nil] => change (@len A nil) with 0
  | H : context [@len ?A nil] |- _ => change (@len A nil) with 0 in H
  end.
Ltac len_lia := len_nil; autorewrite with simdlogs in *; len_nil; len_facts; lia.

(** ** Outcomes: Go code either returns or panics *)

Inductive outcome (A : Type) : Type :=
| Ok (a : A)
| Panic.
Arguments Ok {A} a.
Arguments Panic {A}.

#[export] Instance outcome_ret : MRet outcome := @Ok.
#[export] Instance outcome_bind : MBind outcome :=
  λ A B f m, match m with Ok a => f a | Panic => Panic end.

Lemma bind_Ok {A B} (f : A → outcome B) a : mbind f (Ok a) = f a.
Proof. done. Qed.
#[export] Hint Rewrite @bind_Ok : simdlogs.

(** [Ok_or_panic m] holds when [m] does not panic. *)
Definition returns {A} (m : outcome A) : Prop := ∃ a, m = Ok a.

Lemma returns_Ok {A} (a : A) : returns (Ok a).
Proof. by eexists. Qed.
Lemma returns_bind {A B} (m : outcome A) (f : A → outcome B) :
  returns m → (∀ a, m = Ok a → returns (f a)) → returns (mbind f m).
Proof. intros [a ->] H. apply H. done. Qed.
#[export] Hint Resolve returns_Ok : simdlogs.

(** A counted loop [for i := lo; i < lo+n; i++ { s = f(i, s) }] whose body may
    panic. *)
Fixpoint forM {S} (n : nat) (lo : Z) (f : Z → S → outcome S) (s : S) : outcome S :=
  match n with
  | O => Ok s
  | Datatypes.S n' => s' ← f lo s; forM n' (lo + 1) f s'
  end.

Lemma forM_inv {S} (P : Z → S → Prop) n : ∀ lo f s,
  P lo s →
  (∀ i s, lo ≤ i < lo + Z.of_nat n → P i s → ∃ s', f i s = Ok s' ∧ P (i + 1) s') →
  ∃ s', forM n lo f s = Ok s' ∧ P (lo + Z.of_nat n) s'.
Proof.
  induction n as [|n IH]; intros lo f s H0 Hstep; simpl.
  - exists s. split; [done|]. by replace (lo + Z.of_nat 0) with lo by lia.
  - destruct (Hstep lo s) as (s1 & -> & H1); [lia|done|]. simpl.
    destruct (IH (lo + 1) f s1 H1) as (s2 & H2 & H3).
    { intros i s' Hi. apply Hstep. lia. }
    exists s2. split; [done|]. by replace (lo + Z.of_nat (Datatypes.S n)) with (lo + 1 + Z.of_nat n) by lia.
Qed.

(** ** Slices *)

(** [b[lo:hi]]. Go admits [hi] up to the capacity; the model asks for
    [hi <= len b], so a slice that is [Ok] here is the same slice in Go. *)
Definition slice {A} (b : list A) (lo hi : Z) : outcome (list A) :=
  if bool_decide (0 ≤ lo ∧ lo ≤ hi ∧ hi ≤ len b)
  then Ok (take (Z.to_nat (hi - lo)) (drop (Z.to_nat lo) b))
  else Panic.

(** [b[lo:]] *)
Definition slice_from {A} (b : list A) (lo : Z) : outcome (list A) := slice b lo (len b).

(** [b[i]] *)
Definition index {A} (b : list A) (i : Z) : outcome A :=
  if bool_decide (0 ≤ i) then
    match b !! Z.to_nat i with Some x => Ok x | None => Panic end
  else Panic.

(** [b[i] = x] *)
Definition store {A} (b : list A) (i : Z) (x : A) : outcome (list A) :=
  if bool_decide (0 ≤ i ∧ i < len b) then Ok (<[Z.to_nat i := x]> b) else Panic.

Lemma omap_length_le {A B} (f : A → option B) l : (length (omap f l) ≤ length l)%nat.
Proof. induction l as [|x l IH]; [done|]. cbn [omap list_omap length]. destruct (f x); cbn [length]; unfold omap in *; lia. Qed.

Lemma slice_Ok {A} (b : list A) lo hi :
  0 ≤ lo → lo ≤ hi → hi ≤ len b →
  slice b lo hi = Ok (take (Z.to_nat (hi - lo)) (drop (Z.to_nat lo) b)).
Proof. intros. unfold slice. by rewrite bool_decide_eq_true_2. Qed.

Lemma slice_len {A} (b c : list A) lo hi :
  slice b lo hi = Ok c → len c = hi - lo ∧ 0 ≤ lo ≤ hi ∧ hi ≤ len b.
Proof.
  unfold slice. case_bool_decide as H; [|done]. intros [= <-].
  destruct H as (?&?&?). len_lia.
Qed.

Lemma slice_returns {A} (b : list A) lo hi :
  0 ≤ lo → lo ≤ hi → hi ≤ len b → ∃ c, slice b lo hi = Ok c ∧ len c = hi - lo.
Proof.
  intros. eexists. split; [by apply slice_Ok|]. len_lia.
Qed.

Lemma slice_from_Ok {A} (b : list A) lo :
  0 ≤ lo → lo ≤ len b → slice_from b lo = Ok (drop (Z.to_nat lo) b).
Proof.
  intros. unfold slice_from. rewrite slice_Ok by lia. f_equal.
  apply take_ge. rewrite length_drop. unfold len in *. lia.
Qed.

Lemma index_Ok {A} (b : list A) i x :
  0 ≤ i → b !! Z.to_nat i = Some x → index b i = Ok x.
Proof. intros. unfold index. rewrite bool_decide_eq_true_2 by done. by simplify_option_eq. Qed.

Lemma index_returns {A} (b : list A) i : 0 ≤ i → i < len b → ∃ x, index b i = Ok x.
Proof.
  intros. destruct (lookup_lt_is_Some_2 b (Z.to_nat i)) as [x Hx]; [unfold len in *; lia|].
  exists x. by apply index_Ok.
Qed.

Lemma store_Ok {A} (b : list A) i x :
  0 ≤ i → i < len b → store b i x = Ok (<[Z.to_nat i := x]> b).
Proof. intros. unfold store. by rewrite bool_decide_eq_true_2. Qed.

(** *** Sub-slices at an offset: the layout predicate *)

(** [at_off b off s]: the bytes [s] lie in [b] at offset [off]. Encoders are
    concatenations, so their layout is read off with the lemmas below. *)
Definition at_off {A} (b : list A) (off : Z) (s : list A) : Prop :=
  ∃ pre post, b = pre ++ s ++ post ∧ off = len pre.

Lemma at_off_refl {A} (b : list A) : at_off b 0 b.
Proof. exists [], []. by rewrite app_nil_r. Qed.
Lemma at_off_app {A} (b : list A) off s1 s2 :
  at_off b off (s1 ++ s2) → at_off b off s1 ∧ at_off b (off + len s1) s2.
Proof.
  intros (pre & post & -> & ->). split.
  - exists pre, (s2 ++ post). by rewrite <- app_assoc.
  - exists (pre ++ s1), post. rewrite <- !app_assoc. split; [done|]. len_lia.
Qed.
Lemma at_off_trans {A} (b s t : list A) o1 o2 :
  at_off b o1 s → at_off s o2 t → at_off b (o1 + o2) t.
Proof.
  intros (p1 & q1 & -> & ->) (p2 & q2 & -> & ->).
  exists (p1 ++ p2), (q2 ++ q1). rewrite <- !app_assoc. split; [done|]. len_lia.
Qed.
Lemma at_off_bound {A} (b s : list A) off : at_off b off s → 0 ≤ off ∧ off + len s ≤ len b.
Proof. intros (p & q & -> & ->). len_lia. Qed.
Lemma at_off_app_l {A} (a b s : list A) off : at_off a off s → at_off (a ++ b) off s.
Proof. intros (p & q & -> & ->). exists p, (q ++ b). by rewrite <- !app_assoc. Qed.
Lemma at_off_app_r {A} (a b s : list A) off : at_off b off s → at_off (a ++ b) (len a + off) s.
Proof.
  intros (p & q & -> & ->). exists (a ++ p), q. rewrite <- !app_assoc. split; [done|]. len_lia.
Qed.
Lemma at_off_slice {A} (b s : list A) off hi :
  at_off b off s → hi = off + len s → slice b off hi = Ok s.
Proof.
  intros H ->. pose proof (at_off_bound _ _ _ H).
  rewrite slice_Ok by len_lia. destruct H as (p & q & -> & ->). f_equal.
  unfold len. rewrite Nat2Z.id, drop_app_length.
  replace (Z.to_nat _) with (length s) by lia. by rewrite take_app_length.
Qed.
Lemma at_off_drop {A} (b s : list A) off :
  at_off b off s → ∃ post, drop (Z.to_nat off) b = s ++ post.
Proof.
  intros (p & q & -> & ->). exists q. unfold len. by rewrite Nat2Z.id, drop_app_length.
Qed.
Lemma at_off_lookup {A} (b s : list A) off i x :
  at_off b off s → s !! i = Some x → b !! Z.to_nat (off + Z.of_nat i) = Some x.
Proof.
  intros (p & q & -> & ->) Hi. unfold len.
  replace (Z.to_nat _) with (length p + i)%nat by lia.
  rewrite lookup_app_r by lia. replace (length p + i - length p)%nat with i by lia.
  apply lookup_app_l_Some. done.
Qed.

(** *** Totals over a list: counters kept as the sum of the threads' shares *)

Definition zsum {A} (f : A → Z) (l : list A) : Z := foldr (λ a n, f a + n) 0 l.
(** The share of a thread in state [t] is one, of any other none. *)
Definition is_at {A} `{EqDecision A} (t u : A) : Z := if bool_decide (u = t) then 1 else 0.

Lemma zsum_cons {A} (f : A → Z) a l : zsum f (a :: l) = f a + zsum f l.
Proof. done. Qed.
Lemma zsum_app {A} (f : A → Z) l1 l2 : zsum f (l1 ++ l2) = zsum f l1 + zsum f l2.
Proof. induction l1 as [|a l1 IH]; [done|]. cbn [app]. rewrite !zsum_cons, IH. lia. Qed.
Lemma zsum_insert {A} (f : A → Z) l i a b : l !! i = Some a → zsum f (<[i := b]> l) = zsum f l - f a + f b.
Proof.
  revert i. induction l as [|c l IH]; intros [|i] E; try done.
  - injection E as ->. change (<[0%nat := b]> (a :: l)) with (b :: l). rewrite !zsum_cons. lia.
  - change (<[S i := b]> (c :: l)) with (c :: <[i := b]> l). rewrite !zsum_cons, (IH i E). lia.
Qed.
Lemma zsum_le {A} (f g : A → Z) l : (∀ a, a ∈ l → f a ≤ g a) → zsum f l ≤ zsum g l.
Proof.
  induction l as [|a l IH]; intros H; [done|]. rewrite !zsum_cons. pose proof (H a (list_elem_of_here _ _)).
  assert (zsum f l ≤ zsum g l) by (apply IH; intros; by apply H, list_elem_of_further). lia.
Qed.
Lemma zsum_nonneg {A} (f : A → Z) l : (∀ a, 0 ≤ f a) → 0 ≤ zsum f l.
Proof. intros H. induction l as [|a l IH]; [done|]. rewrite zsum_cons. specialize (H a). lia. Qed.
Lemma zsum_lookup {A} (f : A → Z) l i a : (∀ a, 0 ≤ f a) → l !! i = Some a → f a ≤ zsum f l.
Proof.
  intros H. revert i. induction l as [|b l IH]; intros [|i] E; try done; rewrite zsum_cons.
  - injection E as ->. pose proof (zsum_nonneg f l H). lia.
  - specialize (IH i E). specialize (H b). lia.
Qed.
Lemma zsum_zero {A} (f : A → Z) l : Forall (λ a, f a = 0) l → zsum f l = 0.
Proof. induction 1 as [|a l H _ IH]; [done|]. rewrite zsum_cons. lia. Qed.
Lemma is_at_nonneg {A} `{EqDecision A} (t u : A) : 0 ≤ is_at t u.
Proof. unfold is_at. case_bool_decide; lia. Qed.
Lemma is_at_here {A} `{EqDecision A} (t : A) : is_at t t = 1.
Proof. unfold is_at. by rewrite bool_decide_eq_true_2. Qed.
