(* ===== verification/Digits.v ===== *)
(** * Little-endian digit lists and machine words

    A list of [k]-bit digits denotes the integer [undigits k l]; every fixed
    layout of the storage format (little-endian words, bit-packed index
    streams, packed words read back as bytes) is such a list, so one set of
    lemmas serves all of them. The wrap-around of Go's fixed-width integers is
    written out with [u8], [u32], [u64] and [i64]. *)

From S2P Require Import Prelude.
Local Open Scope Z_scope.

(** ** Fixed-width integers *)

Definition u8 (z : Z) : Z := z mod 2 ^ 8.
Definition u16 (z : Z) : Z := z mod 2 ^ 16.
Definition u32 (z : Z) : Z := z mod 2 ^ 32.
Definition u64 (z : Z) : Z := z mod 2 ^ 64.
(** Two's complement reading of the low 64 bits. *)
Definition i64 (z : Z) : Z := (z + 2 ^ 63) mod 2 ^ 64 - 2 ^ 63.

Definition is_digit (k x : Z) : Prop := 0 ≤ x < 2 ^ k.
Abbreviation is_byte := (is_digit 8).
Abbreviation is_u32 := (is_digit 32).
Abbreviation is_u64 := (is_digit 64).
Definition is_i64 (x : Z) : Prop := - 2 ^ 63 ≤ x < 2 ^ 63.
Definition is_bytes (b : bytes) : Prop := Forall is_byte b.

#[export] Instance is_digit_dec k x : Decision (is_digit k x).
Proof. unfold is_digit. apply _. Defined.
#[export] Instance is_i64_dec x : Decision (is_i64 x).
Proof. unfold is_i64. apply _. Defined.

Lemma pow2_pos k : 0 ≤ k → 0 < 2 ^ k.
Proof. intros. apply Z.pow_pos_nonneg; lia. Qed.
#[export] Hint Resolve pow2_pos : simdlogs.

Lemma u32_small z : is_u32 z → u32 z = z.
Proof. apply Z.mod_small. Qed.
Lemma u64_small z : is_u64 z → u64 z = z.
Proof. apply Z.mod_small. Qed.
Lemma i64_small z : is_i64 z → i64 z = z.
Proof. unfold is_i64, i64. intros. rewrite Z.mod_small; lia. Qed.
Lemma i64_range z : is_i64 (i64 z).
Proof. unfold is_i64, i64. pose proof (Z.mod_pos_bound (z + 2 ^ 63) (2 ^ 64)). lia. Qed.
Lemma u32_range z : is_u32 (u32 z).
Proof. apply Z.mod_pos_bound. lia. Qed.
Lemma u64_range z : is_u64 (u64 z).
Proof. apply Z.mod_pos_bound. lia. Qed.
Lemma i64_u64 z : i64 (u64 z) = i64 z.
Proof. unfold i64, u64. by rewrite Zplus_mod_idemp_l. Qed.
Lemma u64_i64 z : u64 (i64 z) = u64 z.
Proof.
  unfold i64, u64. rewrite Zminus_mod_idemp_l. f_equal. lia.
Qed.
Lemma i64_add_l a b : i64 (i64 a + b) = i64 (a + b).
Proof.
  rewrite <- (i64_u64 (i64 a + b)), <- (i64_u64 (a + b)). f_equal.
  unfold u64. rewrite <- Zplus_mod_idemp_l. change (i64 a mod 2 ^ 64) with (u64 (i64 a)).
  rewrite u64_i64. unfold u64. by rewrite Zplus_mod_idemp_l.
Qed.
#[export] Hint Resolve i64_range u32_range u64_range : simdlogs.

(** ** Digits *)

Fixpoint undigits (k : Z) (l : list Z) : Z :=
  match l with
  | [] => 0
  | x :: l' => x + 2 ^ k * undigits k l'
  end.

Fixpoint digits (n : nat) (k z : Z) : list Z :=
  match n with
  | O => []
  | S n' => z mod 2 ^ k :: digits n' k (z / 2 ^ k)
  end.

Lemma length_digits n k z : length (digits n k z) = n.
Proof. revert z. induction n as [|n IH]; intros z; simpl; [done|]. by rewrite IH. Qed.
Lemma len_digits n k z : len (digits n k z) = Z.of_nat n.
Proof. unfold len. by rewrite length_digits. Qed.
#[export] Hint Rewrite len_digits : simdlogs.

Lemma digits_range n k z : 0 ≤ k → Forall (is_digit k) (digits n k z).
Proof.
  intros Hk. revert z. induction n as [|n IH]; intros z; simpl; constructor; [|apply IH].
  apply Z.mod_pos_bound. auto with simdlogs.
Qed.

Lemma pow_len_cons k {A} (x : A) l : 0 ≤ k → 2 ^ (k * len (x :: l)) = 2 ^ k * 2 ^ (k * len l).
Proof. intros. rewrite len_cons, Z.mul_add_distr_l, Z.mul_1_r, Z.pow_add_r; [done|lia|len_lia]. Qed.

Lemma undigits_bound k l :
  0 ≤ k → Forall (is_digit k) l → 0 ≤ undigits k l < 2 ^ (k * len l).
Proof.
  intros Hk. induction 1 as [|x l Hx Hl IH]; simpl.
  - len_nil; rewrite Z.mul_0_r. lia.
  - rewrite pow_len_cons by done. unfold is_digit in Hx. nia.
Qed.

Lemma undigits_app k l1 l2 :
  0 ≤ k → undigits k (l1 ++ l2) = undigits k l1 + 2 ^ (k * len l1) * undigits k l2.
Proof.
  intros Hk. induction l1 as [|x l1 IH].
  - len_nil; rewrite Z.mul_0_r. simpl. lia.
  - rewrite pow_len_cons by done. simpl. rewrite IH. ring.
Qed.

Lemma undigits_digits n k z : 0 ≤ k → undigits k (digits n k z) = z mod 2 ^ (k * Z.of_nat n).
Proof.
  intros Hk. revert z. induction n as [|n IH]; intros z; simpl.
  - rewrite Z.mul_0_r. simpl. by rewrite Z.mod_1_r.
  - rewrite IH. replace (k * Z.of_nat (S n)) with (k + k * Z.of_nat n) by lia.
    rewrite Z.pow_add_r, Z.rem_mul_r by (try lia; apply Z.pow_nonzero; lia). done.
Qed.

Lemma digits_undigits k l :
  0 ≤ k → Forall (is_digit k) l → digits (length l) k (undigits k l) = l.
Proof.
  intros Hk. induction 1 as [|x l Hx Hl IH]; simpl; [done|].
  pose proof (pow2_pos k Hk). unfold is_digit in Hx.
  rewrite (Z.mul_comm (2 ^ k)), Z_mod_plus_full, Z.div_add by lia.
  rewrite Z.mod_small, Z.div_small by lia. by rewrite Z.add_0_l, IH.
Qed.

Lemma digits_lookup n k z i :
  0 ≤ k → (i < n)%nat → digits n k z !! i = Some ((z / 2 ^ (k * Z.of_nat i)) mod 2 ^ k).
Proof.
  intros Hk. revert z i. induction n as [|n IH]; intros z i Hi; [lia|].
  destruct i as [|i]; simpl.
  - rewrite Z.mul_0_r. by rewrite Z.div_1_r.
  - rewrite IH by lia. replace (k * Z.of_nat (S i)) with (k + k * Z.of_nat i) by lia.
    rewrite Z.pow_add_r, Zdiv.Zdiv_Zdiv by (try lia; apply Z.pow_nonneg; lia). done.
Qed.

Lemma undigits_lookup k l i x :
  0 ≤ k → Forall (is_digit k) l → l !! i = Some x →
  (undigits k l / 2 ^ (k * Z.of_nat i)) mod 2 ^ k = x.
Proof.
  intros Hk Hl Hi. pose proof (lookup_lt_Some _ _ _ Hi).
  rewrite <- (digits_undigits k l), digits_lookup in Hi by done. by simplify_eq.
Qed.

Lemma digits_mod n k z m :
  0 ≤ k → k * Z.of_nat n ≤ m → digits n k (z mod 2 ^ m) = digits n k z.
Proof.
  intros Hk. revert z m. induction n as [|n IH]; intros z m Hm; simpl; [done|].
  assert (m = k + (m - k)) as Em by lia.
  assert (2 ^ m = 2 ^ k * 2 ^ (m - k)) as Ep by (rewrite Em at 1; apply Z.pow_add_r; nia).
  pose proof (pow2_pos k Hk). pose proof (pow2_pos (m - k)).
  rewrite Ep, Z.rem_mul_r by nia.
  rewrite (Z.mul_comm (2 ^ k)), Z_mod_plus_full, Z.div_add by lia.
  rewrite Z.mod_mod, (Z.div_small (z mod 2 ^ k)) by (try apply Z.mod_pos_bound; lia).
  rewrite Z.add_0_l, IH by nia. done.
Qed.

Lemma digits_app n m k z :
  0 ≤ k → digits (n + m) k z = digits n k z ++ digits m k (z / 2 ^ (k * Z.of_nat n)).
Proof.
  intros Hk. revert z. induction n as [|n IH]; intros z; simpl.
  - by rewrite Z.mul_0_r, Z.div_1_r.
  - rewrite IH. do 3 f_equal. replace (k * Z.of_nat (S n)) with (k + k * Z.of_nat n) by lia.
    rewrite Z.pow_add_r by lia. apply Zdiv.Zdiv_Zdiv; apply Z.pow_nonneg; lia.
Qed.

Lemma undigits_drop k l n :
  0 ≤ k → Forall (is_digit k) l →
  undigits k (drop n l) = undigits k l / 2 ^ (k * Z.of_nat n).
Proof.
  intros Hk Hl. destruct (decide (n ≤ length l)%nat) as [Hn|Hn].
  - rewrite <- (take_drop n l) at 2. rewrite undigits_app by done.
    rewrite len_take, Z.min_l by (unfold len; lia).
    pose proof (pow2_pos (k * Z.of_nat n)).
    rewrite (Z.mul_comm (2 ^ _)), Z.div_add by nia.
    rewrite Z.div_small; [lia|].
    pose proof (undigits_bound k (take n l) Hk (Forall_take _ _ _ Hl)) as B.
    rewrite len_take, Z.min_l in B by (unfold len; lia). done.
  - rewrite drop_ge by lia. simpl. symmetry. apply Z.div_small.
    pose proof (undigits_bound k l Hk Hl). split; [lia|].
    eapply Z.lt_le_trans; [apply H|]. apply Z.pow_le_mono_r; unfold len; nia.
Qed.

Lemma undigits_take k l n :
  0 ≤ k → Forall (is_digit k) l →
  undigits k (take n l) = undigits k l mod 2 ^ (k * Z.of_nat n).
Proof.
  intros Hk Hl. destruct (decide (n ≤ length l)%nat) as [Hn|Hn].
  - rewrite <- (take_drop n l) at 2. rewrite undigits_app by done.
    rewrite len_take, Z.min_l by (unfold len; lia).
    rewrite (Z.mul_comm (2 ^ _)), Z_mod_plus_full. symmetry. apply Z.mod_small.
    pose proof (undigits_bound k (take n l) Hk (Forall_take _ _ _ Hl)) as B.
    rewrite len_take, Z.min_l in B by (unfold len; lia). done.
  - rewrite take_ge by lia. symmetry. apply Z.mod_small.
    pose proof (undigits_bound k l Hk Hl). split; [lia|].
    eapply Z.lt_le_trans; [apply H|]. apply Z.pow_le_mono_r; unfold len; nia.
Qed.

(** Splitting every [k*m]-bit digit into [m] digits of [k] bits does not change
    the denoted integer: packed words read back as bytes. *)
Lemma undigits_flat k m ws :
  0 ≤ k → Forall (is_digit (k * Z.of_nat m)) ws →
  undigits k (List.flat_map (digits m k) ws) = undigits (k * Z.of_nat m) ws.
Proof.
  intros Hk. induction 1 as [|w ws Hw Hws IH]; simpl; [done|].
  rewrite undigits_app, len_digits, undigits_digits, IH by done.
  by rewrite Z.mod_small by apply Hw.
Qed.

Lemma undigits_replicate_0 k n : undigits k (replicate n 0) = 0.
Proof. induction n as [|n IH]; simpl; [done|]. rewrite IH. lia. Qed.

(** ** Little-endian words: [encoding/binary] *)

(** [binary.LittleEndian.PutUint32], [.AppendUint16], [.AppendUint64] *)
Definition le16 (v : Z) : bytes := digits 2 8 v.
Definition le32 (v : Z) : bytes := digits 4 8 v.
Definition le64 (v : Z) : bytes := digits 8 8 v.

(** [binary.LittleEndian.Uint32(b[at:])]: panics when fewer than four bytes
    remain. *)
Definition get_le (n : nat) (b : bytes) (at_ : Z) : outcome Z :=
  s ← slice b at_ (at_ + Z.of_nat n); Ok (undigits 8 s).
Abbreviation get32 := (get_le 4).
Abbreviation get64 := (get_le 8).

Lemma len_le32 v : len (le32 v) = 4.
Proof. apply len_digits. Qed.
Lemma len_le64 v : len (le64 v) = 8.
Proof. apply len_digits. Qed.
Lemma len_le16 v : len (le16 v) = 2.
Proof. apply len_digits. Qed.
#[export] Hint Rewrite len_le16 len_le32 len_le64 : simdlogs.

Lemma le32_bytes v : is_bytes (le32 v).
Proof. by apply digits_range. Qed.
Lemma le64_bytes v : is_bytes (le64 v).
Proof. by apply digits_range. Qed.
Lemma le16_bytes v : is_bytes (le16 v).
Proof. by apply digits_range. Qed.
#[export] Hint Resolve le16_bytes le32_bytes le64_bytes : simdlogs.

(** A concatenation of byte strings is a byte string. *)
Ltac bytes_tac :=
  repeat match goal with
  | |- is_bytes (_ ++ _) => apply Forall_app_2
  | |- Forall is_byte (_ ++ _) => apply Forall_app_2
  end;
  try first [done | apply le16_bytes | apply le32_bytes | apply le64_bytes | apply Forall_nil_2].

Lemma get32_at b off v : at_off b off (le32 v) → get32 b off = Ok (u32 v).
Proof.
  intros H. unfold get_le. rewrite (at_off_slice _ _ _ _ H) by len_lia. rewrite bind_Ok.
  unfold le32. by rewrite undigits_digits.
Qed.
Lemma get64_at b off v : at_off b off (le64 v) → get64 b off = Ok (u64 v).
Proof.
  intros H. unfold get_le. rewrite (at_off_slice _ _ _ _ H) by len_lia. rewrite bind_Ok.
  unfold le64. by rewrite undigits_digits.
Qed.

Lemma get_le_returns n b off :
  is_bytes b → 0 ≤ off → off + Z.of_nat n ≤ len b →
  ∃ v, get_le n b off = Ok v ∧ 0 ≤ v < 2 ^ (8 * Z.of_nat n).
Proof.
  intros Hb H0 H1. unfold get_le. rewrite slice_Ok by lia. eexists. split; [done|].
  set (s := take _ _). assert (len s = Z.of_nat n) as E by (subst s; len_lia).
  rewrite <- E. apply undigits_bound; [lia|]. by apply Forall_take, Forall_drop.
Qed.
Lemma get32_returns b off :
  is_bytes b → 0 ≤ off → off + 4 ≤ len b → ∃ v, get32 b off = Ok v ∧ is_u32 v.
Proof. apply (get_le_returns 4). Qed.
Lemma get64_returns b off :
  is_bytes b → 0 ≤ off → off + 8 ≤ len b → ∃ v, get64 b off = Ok v ∧ is_u64 v.
Proof. apply (get_le_returns 8). Qed.

Lemma slice_bytes b c lo hi : is_bytes b → slice b lo hi = Ok c → is_bytes c.
Proof.
  unfold slice. intros H. case_bool_decide; [|done]. intros [= <-].
  by apply Forall_take, Forall_drop.
Qed.
