(* ===== verification/GoLib.v ===== *)
(** * The parts of Go's standard library the storage code calls

    [encoding/binary]'s unsigned varints, [hash/crc32] with the Castagnoli
    polynomial, [math/bits.Len32], the byte-wise order on strings and
    [sort.Strings]. Each is written from the library's own definition, so that
    it evaluates. *)

From S2P Require Import Prelude Digits.
From stdpp Require Import sorting.
Local Open Scope Z_scope.

(** ** Bit-level facts *)

Lemma lor_shiftl_add x b s : 0 ≤ s → 0 ≤ x < 2 ^ s → 0 ≤ b → Z.lor x (Z.shiftl b s) = x + b * 2 ^ s.
Proof.
  intros Hs Hx Hb. rewrite <- Z.add_lor_land, <- (Z.shiftl_mul_pow2 b s) by done.
  enough (Z.land x (Z.shiftl b s) = 0) by lia.
  apply Z.bits_inj'. intros i Hi. rewrite Z.land_spec, Z.bits_0.
  destruct (decide (i < s)).
  - rewrite (Z.shiftl_spec_low b s i) by lia. apply andb_false_r.
  - rewrite <- (Z.mod_small x (2 ^ s)), Z.mod_pow2_bits_high by lia. done.
Qed.

Lemma land_ones_mod x w : 0 ≤ w → Z.land x (2 ^ w - 1) = x mod 2 ^ w.
Proof. intros. rewrite <- Z.land_ones by lia. by rewrite Z.ones_equiv, Z.sub_1_r. Qed.

Lemma is_byte_lt x : is_byte x ↔ 0 ≤ x < 256.
Proof. done. Qed.

(** ** [binary.AppendUvarint] and [binary.Uvarint] *)

(** The bytes [AppendUvarint(nil, x)] appends; ten rounds cover 64 bits. *)
Fixpoint uvarint_loop (fuel : nat) (x : Z) : bytes :=
  match fuel with
  | O => []
  | S f => if bool_decide (128 ≤ x) then Z.lor (u8 x) 128 :: uvarint_loop f (Z.shiftr x 7)
           else [u8 x]
  end.
Definition put_uvarint (x : Z) : bytes := uvarint_loop 10 x.

(** [Uvarint(buf)]: the value and the bytes read; a count of [0] for a short
    buffer and a negative one for an overlong encoding. *)
Fixpoint Uvarint_loop (buf : bytes) (i s x : Z) : Z * Z :=
  match buf with
  | [] => (0, 0)
  | b :: buf' =>
      if bool_decide (i = 10) then (0, - (i + 1))
      else if bool_decide (b < 128) then
        if bool_decide (i = 9 ∧ 1 < b) then (0, - (i + 1))
        else (Z.lor x (u64 (Z.shiftl b s)), i + 1)
      else Uvarint_loop buf' (i + 1) (s + 7) (Z.lor x (u64 (Z.shiftl (Z.land b 127) s)))
  end.
Definition Uvarint (buf : bytes) : Z * Z := Uvarint_loop buf 0 0 0.

Lemma Uvarint_loop_count buf : ∀ i s x v n,
  0 ≤ i → Uvarint_loop buf i s x = (v, n) → n ≤ 0 ∨ i < n ≤ i + len buf.
Proof.
  induction buf as [|b buf IH]; simpl; intros i s x v n Hi E; [by simplify_eq; left|].
  repeat case_bool_decide; simplify_eq; [left; lia|left; lia|right; len_lia|].
  apply IH in E; [|lia]. len_lia.
Qed.
Lemma Uvarint_count buf v n : Uvarint buf = (v, n) → n ≤ 0 ∨ 0 < n ≤ len buf.
Proof. intros E%Uvarint_loop_count; lia. Qed.

Lemma Uvarint_loop_value buf : ∀ i s x v n,
  is_u64 x → Uvarint_loop buf i s x = (v, n) → is_u64 v.
Proof.
  assert (∀ x y, is_u64 x → is_u64 (Z.lor x (u64 y))) as Hlor.
  { intros x y Hx. pose proof (u64_range y) as Hy. unfold is_digit in *.
    assert (0 ≤ Z.lor x (u64 y)) by (apply Z.lor_nonneg; lia). split; [done|].
    destruct (decide (Z.lor x (u64 y) = 0)) as [->|Hne]; [lia|].
    apply Z.log2_lt_pow2; [lia|]. rewrite Z.log2_lor by lia.
    apply Z.max_lub_lt.
    - destruct (decide (x = 0)) as [->|]; [by compute|]. apply Z.log2_lt_pow2; lia.
    - destruct (decide (u64 y = 0)) as [->|]; [by compute|]. apply Z.log2_lt_pow2; lia. }
  assert (is_u64 0) as H0 by (unfold is_digit; lia).
  induction buf as [|b buf IH]; simpl; intros i s x v n Hx E; [by simplify_eq|].
  repeat case_bool_decide; simplify_eq; auto. eapply IH; [|done]. auto.
Qed.
Lemma Uvarint_value buf v n : Uvarint buf = (v, n) → is_u64 v.
Proof. apply Uvarint_loop_value. unfold is_digit. lia. Qed.

Lemma lor_128 x : Z.lor (u8 x) 128 = x mod 128 + 128 ∧ Z.land (Z.lor (u8 x) 128) 127 = x mod 128.
Proof.
  assert (Z.lor (u8 x) 128 = x mod 128 + 128) as E.
  { unfold u8. change (2 ^ 8) with (128 * 2). rewrite (Z.rem_mul_r x 128 2) by lia.
    pose proof (Z.mod_pos_bound x 128). pose proof (Z.mod_pos_bound (x / 128) 2).
    assert ((x / 128) mod 2 = 0 ∨ (x / 128) mod 2 = 1) as [->| ->] by lia.
    - rewrite Z.mul_0_r, Z.add_0_r. change 128 with (Z.shiftl 1 7) at 2.
      rewrite lor_shiftl_add; lia.
    - rewrite Z.mul_1_r. rewrite <- (lor_shiftl_add (x mod 128) 1 7) at 1 by lia.
      change (Z.shiftl 1 7) with 128. rewrite <- Z.lor_assoc. change (Z.lor 128 128) with (Z.shiftl 1 7).
      rewrite lor_shiftl_add; lia. }
  split; [done|]. rewrite E. change 127 with (2 ^ 7 - 1). rewrite land_ones_mod by lia.
  change (2 ^ 7) with 128. pose proof (Z.mod_pos_bound x 128).
  replace (x mod 128 + 128) with (x mod 128 + 1 * 128) by lia.
  rewrite Z_mod_plus_full. by rewrite Z.mod_mod.
Qed.

Lemma Uvarint_loop_put fuel : ∀ x acc i rest,
  0 ≤ x → 0 ≤ i → i + Z.of_nat fuel = 10 → 0 ≤ acc < 2 ^ (7 * i) →
  x * 2 ^ (7 * i) < 2 ^ 64 → (0 < fuel)%nat →
  Uvarint_loop (uvarint_loop fuel x ++ rest) i (7 * i) acc =
    (acc + x * 2 ^ (7 * i), i + len (uvarint_loop fuel x)).
Proof.
  induction fuel as [|f IH]; intros x acc i rest Hx Hi Hf Hacc Hb Hpos; [lia|]. simpl.
  pose proof (pow2_pos (7 * i)) as Hp.
  case_bool_decide as H128; simpl.
  - rewrite (bool_decide_eq_false_2 (i = 10)) by lia.
    destruct (lor_128 x) as [E1 E2]. pose proof (Z.mod_pos_bound x 128).
    rewrite (bool_decide_eq_false_2 (_ < 128)) by lia. rewrite E2.
    pose proof (Z_div_mod_eq_full x 128).
    rewrite (u64_small (Z.shiftl _ _)) by (rewrite Z.shiftl_mul_pow2 by lia; unfold is_digit; nia).
    rewrite lor_shiftl_add by lia.
    replace (7 * i + 7) with (7 * (i + 1)) by lia.
    assert (2 ^ (7 * (i + 1)) = 128 * 2 ^ (7 * i)) as Ep.
    { replace (7 * (i + 1)) with (7 + 7 * i) by lia. rewrite Z.pow_add_r by lia. lia. }
    assert ((0 < f)%nat).
    { destruct f; [|lia]. assert (i = 9) as -> by lia. change (2 ^ (7 * 9)) with (2 ^ 63) in *. lia. }
    rewrite Z.shiftr_div_pow2 by lia. change (2 ^ 7) with 128.
    rewrite IH by (rewrite ?Ep; nia). f_equal; [rewrite Ep; nia|len_lia].
  - rewrite (bool_decide_eq_false_2 (i = 10)) by lia.
    unfold u8. rewrite (Z.mod_small x) by lia.
    rewrite (bool_decide_eq_true_2 (x < 128)) by lia.
    rewrite bool_decide_eq_false_2.
    2:{ intros [-> ?]. change (2 ^ (7 * 9)) with (2 ^ 63) in *. lia. }
    rewrite u64_small by (rewrite Z.shiftl_mul_pow2 by lia; unfold is_digit; nia).
    rewrite lor_shiftl_add by lia. done.
Qed.

Lemma Uvarint_put x rest :
  is_u64 x → Uvarint (put_uvarint x ++ rest) = (x, len (put_uvarint x)).
Proof.
  intros Hx. unfold Uvarint, put_uvarint.
  pose proof (Uvarint_loop_put 10 x 0 0 rest) as E. change (7 * 0) with 0 in E.
  unfold is_digit in Hx. rewrite E by lia. f_equal; lia.
Qed.

Lemma put_uvarint_pos x : 0 < len (put_uvarint x).
Proof. unfold put_uvarint. generalize 9%nat. intros f. simpl. case_bool_decide; len_lia. Qed.

Lemma put_uvarint_bytes x : 0 ≤ x → is_bytes (put_uvarint x).
Proof.
  unfold put_uvarint. generalize 10%nat as f. intros f. revert x.
  induction f as [|f IH]; intros x Hx; simpl; [constructor|].
  case_bool_decide; repeat constructor; try apply IH.
  - rewrite (proj1 (lor_128 x)). pose proof (Z.mod_pos_bound x 128). lia.
  - rewrite (proj1 (lor_128 x)). pose proof (Z.mod_pos_bound x 128). lia.
  - by apply Z.shiftr_nonneg.
  - by apply Z.mod_pos_bound.
  - by apply Z.mod_pos_bound.
Qed.

(** ** [bits.Len32] *)

Definition Len32 (x : Z) : Z := if bool_decide (x = 0) then 0 else Z.log2 x + 1.

Lemma Len32_spec x : 0 ≤ x → x < 2 ^ Len32 x.
Proof.
  intros. unfold Len32. case_bool_decide; [by subst|].
  rewrite Z.add_1_r. apply Z.log2_spec. lia.
Qed.

(** ** [crc32.Checksum] with the Castagnoli polynomial *)

Definition castagnoli : Z := 0x82f63b78.
Definition crc_bit (c : Z) : Z :=
  if Z.odd c then Z.lxor (Z.shiftr c 1) castagnoli else Z.shiftr c 1.
Definition crc_byte (c b : Z) : Z := Nat.iter 8 crc_bit (Z.lxor c b).
Definition crc_update (c : Z) (b : bytes) : Z := fold_left crc_byte b c.
Definition Checksum (b : bytes) : Z := Z.lxor (crc_update 0xffffffff b) 0xffffffff.

Lemma lxor_digit k x y : 0 ≤ k → is_digit k x → is_digit k y → is_digit k (Z.lxor x y).
Proof.
  intros Hk Hx Hy. unfold is_digit in *.
  rewrite <- (Z.mod_small x (2 ^ k)), <- (Z.mod_small y (2 ^ k)) by done.
  rewrite <- !Z.land_ones by done.
  replace (Z.lxor (Z.land x (Z.ones k)) (Z.land y (Z.ones k))) with (Z.land (Z.lxor x y) (Z.ones k)).
  { rewrite Z.land_ones by done. apply Z.mod_pos_bound. auto with simdlogs. }
  apply Z.bits_inj'. intros i _. rewrite !Z.land_spec, !Z.lxor_spec, !Z.land_spec.
  by destruct (Z.testbit x i), (Z.testbit y i), (Z.testbit (Z.ones k) i).
Qed.

Lemma shiftr1_odd_inj x y : Z.odd x = Z.odd y → Z.shiftr x 1 = Z.shiftr y 1 → x = y.
Proof.
  rewrite !Z.shiftr_div_pow2 by lia. change (2 ^ 1) with 2. intros Ho Hd.
  rewrite (Z.div_mod x 2), (Z.div_mod y 2), Hd, !Zmod_odd by lia. by rewrite Ho.
Qed.

Lemma crc_bit_u32 c : is_u32 c → is_u32 (crc_bit c).
Proof.
  intros Hc. unfold crc_bit.
  assert (is_u32 (Z.shiftr c 1)) as Hs.
  { rewrite Z.shiftr_div_pow2 by lia. unfold is_digit in *. change (2 ^ 1) with 2.
    split; [apply Z.div_pos; lia|apply Z.div_lt_upper_bound; lia]. }
  destruct (Z.odd c); [|done]. apply lxor_digit; (done || unfold is_digit, castagnoli; lia).
Qed.

Lemma crc_bit_odd c : is_u32 c → Z.testbit (crc_bit c) 31 = Z.odd c.
Proof.
  intros Hc. unfold crc_bit.
  assert (Z.testbit (Z.shiftr c 1) 31 = false) as Hs.
  { rewrite Z.shiftr_spec, <- (Z.mod_small c (2 ^ 32)), Z.mod_pow2_bits_high by (done || lia). done. }
  destruct (Z.odd c); [|done]. rewrite Z.lxor_spec, Hs. done.
Qed.

Lemma crc_bit_inj c d : is_u32 c → is_u32 d → crc_bit c = crc_bit d → c = d.
Proof.
  intros Hc Hd E. assert (Z.odd c = Z.odd d) as Ho by (rewrite <- !crc_bit_odd by done; by rewrite E).
  unfold crc_bit in E. apply shiftr1_odd_inj; [done|]. rewrite Ho in E.
  destruct (Z.odd d); [|done].
  apply (f_equal (λ z, Z.lxor z castagnoli)) in E.
  by rewrite !Z.lxor_assoc, Z.lxor_nilpotent, !Z.lxor_0_r in E.
Qed.

Lemma lxor_inj_l x y z : Z.lxor x y = Z.lxor x z → y = z.
Proof.
  intros E%(f_equal (Z.lxor x)). by rewrite <- !Z.lxor_assoc, Z.lxor_nilpotent, !Z.lxor_0_l in E.
Qed.

Lemma byte_u32 b : is_byte b → is_u32 b.
Proof. unfold is_digit. lia. Qed.

Lemma iter_crc_bit_u32 n c : is_u32 c → is_u32 (Nat.iter n crc_bit c).
Proof. induction n; intros Hc; simpl; [done|]. by apply crc_bit_u32, IHn. Qed.
Lemma iter_crc_bit_inj n c d :
  is_u32 c → is_u32 d → Nat.iter n crc_bit c = Nat.iter n crc_bit d → c = d.
Proof.
  revert c d. induction n as [|n IH]; intros c d Hc Hd E; [done|].
  rewrite !Nat.iter_succ_r in E. apply IH in E; [|by apply crc_bit_u32..].
  by apply crc_bit_inj.
Qed.

Lemma crc_byte_u32 c b : is_u32 c → is_byte b → is_u32 (crc_byte c b).
Proof.
  intros. apply iter_crc_bit_u32, lxor_digit; [lia|done|by apply byte_u32].
Qed.
Lemma crc_byte_inj c d b e :
  is_u32 c → is_u32 d → is_byte b → is_byte e → crc_byte c b = crc_byte d e →
  Z.lxor c b = Z.lxor d e.
Proof.
  intros ?? Hb%byte_u32 He%byte_u32 E. eapply iter_crc_bit_inj; [..|exact E];
    apply lxor_digit; (lia || done).
Qed.

Lemma crc_update_u32 c b : is_u32 c → is_bytes b → is_u32 (crc_update c b).
Proof.
  intros Hc Hb. revert c Hc. induction Hb as [|x b Hx Hb IH]; intros c Hc; simpl; [done|].
  by apply IH, crc_byte_u32.
Qed.
Lemma crc_update_inj c d b :
  is_u32 c → is_u32 d → is_bytes b → crc_update c b = crc_update d b → c = d.
Proof.
  intros Hc Hd Hb. revert c d Hc Hd. induction Hb as [|x b Hx Hb IH]; intros c d Hc Hd E; [done|].
  simpl in E. apply IH in E; [|by apply crc_byte_u32..].
  apply crc_byte_inj in E; [|done..]. rewrite (Z.lxor_comm c), (Z.lxor_comm d) in E.
  by apply lxor_inj_l in E.
Qed.

Lemma Checksum_u32 b : is_bytes b → is_u32 (Checksum b).
Proof. intros. apply lxor_digit; [lia|apply crc_update_u32|]; (done || unfold is_digit; lia). Qed.

(** Replacing one byte of the input always changes the checksum. *)
Lemma Checksum_one_byte pre x y post :
  is_bytes pre → is_byte x → is_byte y → is_bytes post → x ≠ y →
  Checksum (pre ++ x :: post) ≠ Checksum (pre ++ y :: post).
Proof.
  intros Hpre Hx Hy Hpost Hne E. apply Hne. unfold Checksum in E.
  rewrite !(Z.lxor_comm _ 0xffffffff) in E. apply lxor_inj_l in E.
  unfold crc_update in E. rewrite !fold_left_app in E. simpl in E.
  assert (is_u32 (fold_left crc_byte pre 0xffffffff)) as Hc by (apply crc_update_u32; (done || unfold is_digit; lia)).
  apply crc_update_inj in E; [|by apply crc_byte_u32..|done].
  apply crc_byte_inj in E; [|done..]. by apply lxor_inj_l in E.
Qed.

Example crc32c_check : Checksum [49;50;51;52;53;54;55;56;57] = 0xE3069283.
Proof. reflexivity. Qed.

(** ** Strings: the byte-wise order and [sort.Strings] *)

(** Go's [a < b] on strings. *)
Fixpoint str_ltb (a b : bytes) : bool :=
  match a, b with
  | _, [] => false
  | [], _ :: _ => true
  | x :: a', y :: b' =>
      if bool_decide (x < y) then true else if bool_decide (y < x) then false else str_ltb a' b'
  end.
Definition str_lt (a b : bytes) : Prop := str_ltb a b = true.
(** Go's [a <= b] is [!(b < a)]. *)
Definition str_leb (a b : bytes) : bool := negb (str_ltb b a).
Definition str_le (a b : bytes) : Prop := str_leb a b = true.
Definition str_eqb (a b : bytes) : bool := bool_decide (a = b).

#[export] Instance str_lt_dec a b : Decision (str_lt a b).
Proof. unfold str_lt. apply _. Defined.
#[export] Instance str_le_dec a b : Decision (str_le a b).
Proof. unfold str_le. apply _. Defined.

Lemma str_lt_irrefl a : ¬ str_lt a a.
Proof.
  unfold str_lt. induction a as [|x a IH]; simpl; [done|].
  by rewrite !(bool_decide_eq_false_2 (x < x)) by lia.
Qed.
Lemma str_lt_trans a b c : str_lt a b → str_lt b c → str_lt a c.
Proof.
  unfold str_lt. revert b c. induction a as [|x a IH]; intros [|y b] [|z c]; simpl; try done.
  repeat case_bool_decide; try done; try lia. apply IH.
Qed.
Lemma str_trichotomy a b : str_lt a b ∨ a = b ∨ str_lt b a.
Proof.
  unfold str_lt. revert b. induction a as [|x a IH]; intros [|y b]; simpl; auto.
  repeat case_bool_decide; auto; try lia.
  assert (x = y) as -> by lia. destruct (IH b) as [?|[-> |?]]; auto.
Qed.
Lemma str_le_lt a b : str_le a b ↔ ¬ str_lt b a.
Proof. unfold str_le, str_leb, str_lt. destruct (str_ltb b a); naive_solver. Qed.
Lemma str_le_cases a b : str_le a b ↔ str_lt a b ∨ a = b.
Proof.
  rewrite str_le_lt. split.
  - intros. destruct (str_trichotomy a b) as [?|[?|?]]; naive_solver.
  - intros [Hl| ->] H; [|by eapply str_lt_irrefl].
    eapply str_lt_irrefl. by eapply str_lt_trans.
Qed.
Lemma str_lt_le_trans a b c : str_lt a b → str_le b c → str_lt a c.
Proof. rewrite str_le_cases. intros ? [?| ->]; [by eapply str_lt_trans|done]. Qed.
Lemma str_le_lt_trans a b c : str_le a b → str_lt b c → str_lt a c.
Proof. rewrite str_le_cases. intros [?| ->] ?; [by eapply str_lt_trans|done]. Qed.

#[export] Instance str_le_total : Total str_le.
Proof. intros a b. rewrite !str_le_cases. destruct (str_trichotomy a b) as [?|[-> |?]]; auto. Qed.
#[export] Instance str_le_trans : Transitive str_le.
Proof.
  intros a b c. rewrite (str_le_cases a c), (str_le_cases b c).
  intros Hab [H| <-]; [|by apply str_le_cases].
  left. by eapply str_le_lt_trans.
Qed.
#[export] Instance str_lt_transitive : Transitive str_lt.
Proof. intros a b c. apply str_lt_trans. Qed.

Definition sort_Strings (l : list bytes) : list bytes := merge_sort str_le l.
