(* ===== verification/Kernels.v ===== *)
(** * Interfaces to code outside the repository

    The storage code runs on the kernels of [github.com/sebishogun/simd] and on
    the standard library's DEFLATE. Both are parameters of the model: a class
    of operations and a class of the laws their documentation states and this
    code relies on. [ref_simd] and [ref_flate] are executable instances of the
    two interfaces with their laws proved, so the laws are consistent and every
    theorem below can be evaluated. *)

From S2P Require Import Prelude Digits GoLib.
Local Open Scope Z_scope.

(** ** The LZ4 block format *)

(** One LZ4 sequence: literals, then a match of [mlen >= 4] bytes copied from
    [offset] bytes back. *)
Record lz4_seq := Lz4Seq { lits : bytes; offset : Z; mlen : Z }.

(** Extension bytes of a length whose nibble is saturated at 15. *)
Definition lz4_ext (r : Z) : bytes := replicate (Z.to_nat (r / 255)) 255 ++ [r mod 255].
Definition lz4_nibble (n : Z) : Z := Z.min n 15.
Definition lz4_len_ext (n : Z) : bytes := if bool_decide (15 ≤ n) then lz4_ext (n - 15) else [].

Definition lz4_seq_bytes (s : lz4_seq) : bytes :=
  (lz4_nibble (len (lits s)) * 16 + lz4_nibble (mlen s - 4)) ::
  lz4_len_ext (len (lits s)) ++ lits s ++ le16 (offset s) ++ lz4_len_ext (mlen s - 4).
Definition lz4_last_bytes (l : bytes) : bytes :=
  lz4_nibble (len l) * 16 :: lz4_len_ext (len l) ++ l.
Definition lz4_block (ss : list lz4_seq) (last : bytes) : bytes :=
  List.flat_map lz4_seq_bytes ss ++ lz4_last_bytes last.

(** Byte-by-byte copy of [n] bytes from [off] bytes back; source and
    destination may overlap. *)
Fixpoint lz4_copy (n : nat) (off : Z) (out : bytes) : bytes :=
  match n with
  | O => out
  | S n' => lz4_copy n' off (out ++ [List.nth (Z.to_nat (len out - off)) out 0])
  end.
Definition lz4_apply (out : bytes) (s : lz4_seq) : bytes :=
  lz4_copy (Z.to_nat (mlen s)) (offset s) (out ++ lits s).

(** A sequence the format allows after [out]. *)
Definition lz4_seq_ok (out : bytes) (s : lz4_seq) : Prop :=
  4 ≤ mlen s ∧ 1 ≤ offset s ≤ 65535 ∧ offset s ≤ len (out ++ lits s).
Fixpoint lz4_seqs_ok (out : bytes) (ss : list lz4_seq) : Prop :=
  match ss with
  | [] => True
  | s :: ss' => lz4_seq_ok out s ∧ lz4_seqs_ok (lz4_apply out s) ss'
  end.
(** What a block decodes to. *)
Definition lz4_denotes (ss : list lz4_seq) (last : bytes) : bytes :=
  fold_left lz4_apply ss [] ++ last.

(** ** Hexadecimal digits *)

Definition hex_digit (v : Z) : Z := if bool_decide (v < 10) then 48 + v else 97 + (v - 10).
Definition hex_pair (b : Z) : bytes := [hex_digit (b / 16); hex_digit (b mod 16)].

(** ** The kernel interface *)

Class Simd := {
  (** [BitPackInto(dst, src, width)], by the length of [dst]; the packed words *)
  BitPackInto : nat → list Z → Z → list Z;
  (** [BitUnpackInto(dst, packed, width)], by the length of [dst] *)
  BitUnpackInto : nat → list Z → Z → outcome (list Z);
  (** [VarintDecode(dst, src)], by the length of [dst]; the values decoded *)
  VarintDecode : nat → bytes → list Z;
  (** [HexEncode(dst, src)] *)
  HexEncode : bytes → bytes;
  (** [HashUint64(dst, keys, seed)] *)
  HashUint64 : list Z → Z → list Z;
  (** [LZ4BlockDecode(dst, block)], by the length of [dst]: the bytes written
      and the buffer *)
  LZ4BlockDecode : Z → bytes → Z * bytes;
}.

Class SimdLaws (K : Simd) : Prop := {
  (** the packed layout is linear and LSB-first *)
  pack_layout words src w :
    1 ≤ w ≤ 32 → Forall (is_digit w) src → w * len src ≤ 32 * Z.of_nat words →
    length (BitPackInto words src w) = words ∧
    Forall is_u32 (BitPackInto words src w) ∧
    undigits 32 (BitPackInto words src w) mod 2 ^ (w * len src) = undigits w src;
  (** whole 32-value blocks come back from the same layout *)
  unpack_layout n packed w :
    1 ≤ w ≤ 32 → Z.of_nat n mod 32 = 0 → Forall is_u32 packed →
    w * Z.of_nat n ≤ 32 * len packed →
    BitUnpackInto n packed w = Ok (digits n w (undigits 32 packed));
  (** at most [len(dst)] values, each a [uint64], and exactly the values of a
      stream of encoded varints *)
  varint_count n b : (length (VarintDecode n b) ≤ n)%nat;
  varint_stream vs :
    Forall is_u64 vs → VarintDecode (length vs) (List.flat_map put_uvarint vs) = vs;
  (** two lower-case characters per byte, high nibble first *)
  hex_encode b : is_bytes b → HexEncode b = List.flat_map hex_pair b;
  (** hashing is element-wise, one [uint64] per key *)
  hash_one k seed : ∃ h, HashUint64 [k] seed = [h] ∧ is_u64 h;
  hash_pointwise ks seed : HashUint64 ks seed = List.flat_map (λ k, HashUint64 [k] seed) ks;
  (** the decoder implements the LZ4 block format *)
  lz4_decode ss last :
    lz4_seqs_ok [] ss → Forall (λ s, is_bytes (lits s)) ss → is_bytes last →
    let out := lz4_denotes ss last in
    LZ4BlockDecode (len out) (lz4_block ss last) = (len out, out);
  lz4_decode_len n b : 0 ≤ n → len (snd (LZ4BlockDecode n b)) = n;
  lz4_decode_bytes n b : is_bytes b → is_bytes (snd (LZ4BlockDecode n b));
}.

(** ** DEFLATE *)

Class Flate := {
  (** the bytes [flate.NewWriter(&buf, BestCompression)] leaves in [buf] *)
  deflate : bytes → bytes;
  (** the bytes [io.ReadFull(flate.NewReader(src), out)] reads, by [len(out)] *)
  inflate : bytes → Z → bytes;
}.

Class FlateLaws (F : Flate) : Prop := {
  inflate_len b n : 0 ≤ n → len (inflate b n) ≤ n;
  inflate_bytes b n : is_bytes b → is_bytes (inflate b n);
  deflate_bytes b : is_bytes b → is_bytes (deflate b);
  inflate_deflate b : is_bytes b → inflate (deflate b) (len b) = b;
  (** the format's widest expansion: 258 bytes from a match of two bits *)
  deflate_ratio b : len b ≤ 1032 * len (deflate b) + 16;
}.

(** ** Reference instances *)

Fixpoint ref_varints (n : nat) (b : bytes) : list Z :=
  match n with
  | O => []
  | S n' => match Uvarint b with
            | (v, w) => if bool_decide (w ≤ 0) then []
                        else v :: ref_varints n' (drop (Z.to_nat w) b)
            end
  end.

(** A length field: the nibble, extended by the bytes that follow when it is
    saturated. *)
Fixpoint ref_ext (b : bytes) (acc : Z) : Z * bytes :=
  match b with
  | [] => (acc, [])
  | x :: b' => if bool_decide (x = 255) then ref_ext b' (acc + 255) else (acc + x, b')
  end.
Definition ref_len (nib : Z) (b : bytes) : Z * bytes :=
  if bool_decide (nib = 15) then ref_ext b 15 else (nib, b).

Fixpoint ref_lz4 (fuel : nat) (b out : bytes) : bytes :=
  match fuel, b with
  | S f, tok :: b1 =>
      let '(ll, b2) := ref_len (tok / 16) b1 in
      let out1 := out ++ take (Z.to_nat ll) b2 in
      match drop (Z.to_nat ll) b2 with
      | o0 :: o1 :: b3 =>
          let '(ml, b4) := ref_len (tok mod 16) b3 in
          ref_lz4 f b4 (lz4_copy (Z.to_nat (ml + 4)) (undigits 8 [o0; o1]) out1)
      | _ => out1
      end
  | _, _ => out
  end.

Definition fit (n : Z) (b : bytes) : bytes :=
  take (Z.to_nat n) b ++ replicate (Z.to_nat n - length b) 0.

#[export] Instance ref_simd : Simd := {
  BitPackInto words src w := digits words 32 (undigits w src);
  BitUnpackInto n packed w :=
    if bool_decide (w * Z.of_nat n ≤ 32 * len packed)
    then Ok (digits n w (undigits 32 packed)) else Panic;
  VarintDecode := ref_varints;
  HexEncode b := List.flat_map hex_pair b;
  HashUint64 ks seed := (λ k, u64 (Z.lxor (u64 k) seed * 0x9e3779b97f4a7c15)) <$> ks;
  LZ4BlockDecode n b :=
    let out := ref_lz4 (length b) b [] in (Z.min n (len out), u8 <$> fit n out);
}.

#[export] Instance ref_flate : Flate := {
  deflate b := b;
  inflate b n := take (Z.to_nat n) b;
}.

#[export] Instance ref_flate_laws : FlateLaws ref_flate.
Proof.
  constructor; simpl; intros; try done.
  - len_lia.
  - by apply Forall_take.
  - unfold len. by rewrite Nat2Z.id, take_ge.
  - len_lia.
Qed.

Lemma ref_varints_length n b : (length (ref_varints n b) ≤ n)%nat.
Proof.
  revert b. induction n as [|n IH]; intros b; simpl; [lia|].
  destruct (Uvarint b) as [v w]. case_bool_decide; simpl; [lia|]. specialize (IH (drop (Z.to_nat w) b)). lia.
Qed.
Lemma ref_varints_put vs :
  Forall is_u64 vs → ref_varints (length vs) (List.flat_map put_uvarint vs) = vs.
Proof.
  induction 1 as [|v vs Hv Hvs IH]; [done|]. cbn [length List.flat_map ref_varints].
  rewrite Uvarint_put by done. pose proof (put_uvarint_pos v).
  rewrite bool_decide_eq_false_2 by lia. f_equal.
  unfold len. by rewrite Nat2Z.id, drop_app_length, IH.
Qed.

Lemma ref_ext_ext r acc b : 0 ≤ r → ref_ext (lz4_ext r ++ b) acc = (acc + r, b).
Proof.
  intros Hr. unfold lz4_ext. pose proof (Z_div_mod_eq_full r 255). pose proof (Z.mod_pos_bound r 255).
  assert (0 ≤ r / 255) by (apply Z.div_pos; lia).
  replace (acc + r) with (acc + 255 * Z.of_nat (Z.to_nat (r / 255)) + r mod 255) by lia.
  generalize (Z.to_nat (r / 255)) as k. intros k. revert acc.
  induction k as [|k IH]; intros acc; simpl.
  - rewrite bool_decide_eq_false_2 by lia. f_equal. lia.
  - rewrite IH. f_equal. lia.
Qed.
Lemma ref_len_ext n b : 0 ≤ n → ref_len (lz4_nibble n) (lz4_len_ext n ++ b) = (n, b).
Proof.
  intros Hn. unfold ref_len, lz4_nibble, lz4_len_ext.
  destruct (decide (15 ≤ n)).
  - rewrite Z.min_r, (bool_decide_eq_true_2 (15 ≤ n)) by lia. simpl.
    rewrite ref_ext_ext by lia. f_equal; lia.
  - rewrite Z.min_l, (bool_decide_eq_false_2 (15 ≤ n)) by lia.
    by rewrite bool_decide_eq_false_2 by lia.
Qed.

Lemma take_len_app {A} (l k : list A) : take (Z.to_nat (len l)) (l ++ k) = l.
Proof. unfold len. by rewrite Nat2Z.id, take_app_length. Qed.
Lemma drop_len_app {A} (l k : list A) : drop (Z.to_nat (len l)) (l ++ k) = k.
Proof. unfold len. by rewrite Nat2Z.id, drop_app_length. Qed.

Lemma lz4_token a b : 0 ≤ a → 0 ≤ b →
  (lz4_nibble a * 16 + lz4_nibble b) / 16 = lz4_nibble a ∧
  (lz4_nibble a * 16 + lz4_nibble b) mod 16 = lz4_nibble b.
Proof.
  intros. unfold lz4_nibble. rewrite (Z.add_comm (_ * 16)), Z.div_add, Z_mod_plus_full by lia.
  rewrite Z.div_small, Z.mod_small by lia. lia.
Qed.

Lemma le16_cons o : le16 o = [o mod 256; (o / 256) mod 256].
Proof. done. Qed.

Lemma ref_lz4_block ss : ∀ last out fuel,
  lz4_seqs_ok out ss → (length ss < fuel)%nat →
  ref_lz4 fuel (lz4_block ss last) out = fold_left lz4_apply ss out ++ last.
Proof.
  induction ss as [|s ss IH]; intros last out [|fuel] Hok Hf; simpl in Hf; try lia.
  - unfold lz4_block. cbn [List.flat_map app ref_lz4 fold_left lz4_last_bytes].
    destruct (lz4_token (len last) 0) as [E _]; [len_lia|lia|].
    change (lz4_nibble 0) with 0 in E. rewrite Z.add_0_r in E. unfold lz4_last_bytes. rewrite E.
    rewrite <- (app_nil_r last) at 3. rewrite ref_len_ext by len_lia.
    by rewrite take_len_app, drop_len_app.
  - destruct Hok as [(H4 & Ho & Ho2) Hok]. unfold lz4_block. cbn [List.flat_map].
    unfold lz4_seq_bytes at 1. rewrite <- app_assoc. cbn [app ref_lz4].
    destruct (lz4_token (len (lits s)) (mlen s - 4)) as [-> ->]; [len_lia|lia|].
    rewrite <- !app_assoc, ref_len_ext by len_lia. rewrite drop_len_app, take_len_app.
    rewrite le16_cons. cbn [app]. rewrite ref_len_ext by lia.
    replace (undigits 8 _) with (offset s).
    2:{ simpl. rewrite (Z.mod_small (offset s / 256)).
        - rewrite (Z_div_mod_eq_full (offset s) 256) at 1. lia.
        - split; [apply Z.div_pos; lia|apply Z.div_lt_upper_bound; lia]. }
    replace (mlen s - 4 + 4) with (mlen s) by lia.
    change (lz4_copy _ _ _) with (lz4_apply out s). apply IH; [done|lia].
Qed.

Lemma fit_len n b : 0 ≤ n → len (fit n b) = n.
Proof. intros. unfold fit, len. rewrite length_app, length_take, length_replicate. lia. Qed.
Lemma fit_self b : fit (len b) b = b.
Proof.
  unfold fit, len. rewrite Nat2Z.id, take_ge, Nat.sub_diag by lia. apply app_nil_r.
Qed.

Lemma lz4_copy_bytes n off out : is_bytes out → is_bytes (lz4_copy n off out).
Proof.
  revert out. induction n as [|n IH]; intros out H; simpl; [done|].
  apply IH. apply Forall_app. split; [done|]. constructor; [|constructor].
  destruct (List.nth_in_or_default (Z.to_nat (len out - off)) out 0) as [Hin| ->].
  - unfold is_bytes in H. rewrite Forall_forall in H. apply H. first [done | by apply list_elem_of_In].
  - unfold is_digit. lia.
Qed.
Lemma lz4_denotes_bytes ss last :
  Forall (λ s, is_bytes (lits s)) ss → is_bytes last → is_bytes (lz4_denotes ss last).
Proof.
  intros Hss Hl. apply Forall_app. split; [|done].
  assert (is_bytes []) as H by constructor. revert H. generalize (@nil Z) as out.
  induction Hss as [|s ss Hs Hss IH]; intros out H; simpl; [done|].
  apply IH, lz4_copy_bytes, Forall_app. done.
Qed.
Lemma lz4_block_length ss last : (length ss < length (lz4_block ss last))%nat.
Proof.
  assert (0 < length (lz4_last_bytes last))%nat by (simpl; lia).
  unfold lz4_block. rewrite length_app. induction ss as [|s ss IH]; [simpl length; lia|].
  cbn [List.flat_map length]. rewrite length_app.
  assert (0 < length (lz4_seq_bytes s))%nat by (simpl; lia). lia.
Qed.
Lemma u8_bytes b : is_bytes b → u8 <$> b = b.
Proof. induction 1 as [|x b Hx Hb IH]; [done|]. rewrite fmap_cons, IH. f_equal. by apply Z.mod_small. Qed.

Lemma ref_pack_layout words src w :
  1 ≤ w ≤ 32 → Forall (is_digit w) src → w * len src ≤ 32 * Z.of_nat words →
  undigits 32 (digits words 32 (undigits w src)) mod 2 ^ (w * len src) = undigits w src.
Proof.
  intros Hw Hs Hn. rewrite undigits_digits by lia.
  pose proof (undigits_bound w src ltac:(lia) Hs).
  assert (2 ^ (w * len src) ≤ 2 ^ (32 * Z.of_nat words)) by (apply Z.pow_le_mono_r; lia).
  rewrite (Z.mod_small (undigits w src)) by lia. by apply Z.mod_small.
Qed.

#[export] Instance ref_simd_laws : SimdLaws ref_simd.
Proof.
  constructor; cbn [BitPackInto BitUnpackInto VarintDecode HexEncode HashUint64 LZ4BlockDecode ref_simd].
  - intros. split_and!; [apply length_digits|apply digits_range; lia|by apply ref_pack_layout].
  - intros. by rewrite bool_decide_eq_true_2.
  - apply ref_varints_length.
  - apply ref_varints_put.
  - done.
  - intros. eexists. split; [done|]. apply u64_range.
  - intros ks seed. induction ks as [|k ks IH]; [done|].
    cbn [List.flat_map app]. rewrite fmap_cons. simpl. by f_equal.
  - intros ss last Hok Hss Hl.
    rewrite (ref_lz4_block ss last []) by (done || apply lz4_block_length).
    fold (lz4_denotes ss last). rewrite Z.min_id, fit_self.
    f_equal. apply u8_bytes. by apply lz4_denotes_bytes.
  - intros n b Hn. simpl. rewrite len_fmap. by apply fit_len.
  - intros n b _. simpl. apply Forall_fmap. apply Forall_true. intros x. apply Z.mod_pos_bound. lia.
Qed.
