(* ===== verification/Indices.v ===== *)
(** * Bit-packed index columns and dictionary building

    [internal/storage/column.go]: [BuildDict], [bitWidth], [encodeIndices],
    [decodeIndices]; [internal/storage/postings.go]: [extractCountBits]. The
    packed stream of [n] values of [w] bits denotes one integer, and each reader
    is shown to return the [w]-bit digit it addresses. *)

From S2P Require Import Prelude Digits GoLib Kernels.
From stdpp Require Import gmap sorting.
Local Open Scope Z_scope.

(** ** Definitions *)

(** [bitWidth]: the bits needed to hold the largest of [n] indices. *)
Definition bitWidth (n : Z) : Z := if bool_decide (n ≤ 1) then 1 else Len32 (u32 (n - 1)).

(** The loop [for k := 0; k < 8 && at+k < len(b); k++ { v |= uint64(b[at+k]) << (8*k) }]
    shared by every O(1) bit read. *)
Fixpoint load8_loop (n : nat) (k : Z) (b : bytes) (at_ v : Z) : outcome Z :=
  match n with
  | O => Ok v
  | S n' =>
      if bool_decide (at_ + k < len b) then
        x ← index b (at_ + k);
        load8_loop n' (k + 1) b at_ (Z.lor v (u64 (Z.shiftl x (8 * k))))
      else Ok v
  end.
Definition load8 (b : bytes) (at_ : Z) : outcome Z := load8_loop 8 0 b at_ 0.

(** [uint32(1)<<uint(width) - 1] *)
Definition mask32 (w : Z) : Z := u32 (u32 (Z.shiftl 1 w) - 1).

(** [uint32(v>>uint(bit%8)) & mask] after the 8-byte load at [bit/8]. *)
Definition read_bits (b : bytes) (bit w : Z) : outcome Z :=
  v ← load8 b (bit / 8);
  Ok (Z.land (u32 (Z.shiftr v (bit mod 8))) (mask32 w)).

Definition extractCountBits (b : bytes) (index width : Z) : outcome Z :=
  if bool_decide (width = 0) then Ok 0 else read_bits b (index * width) width.

(** [for i := range words { words[i] = Uint32(b[i*4:]) }] *)
Fixpoint read_words (n : nat) (b : bytes) (at_ : Z) : outcome (list Z) :=
  match n with
  | O => Ok []
  | S n' => w ← get32 b at_; ws ← read_words n' b (at_ + 4); Ok (w :: ws)
  end.

Section codec.
Context {K : Simd}.

Definition encodeIndices (idx : list Z) (width : Z) : bytes :=
  match idx with
  | [] => []
  | _ =>
      let words := (len idx * width + 31) / 32 + 1 in
      let packed := BitPackInto (Z.to_nat words) idx width in
      List.flat_map le32 packed
  end.

(** The scalar tail of [decodeIndices]: rows [j, j+n). *)
Fixpoint decode_tail (n : nat) (b : bytes) (j width : Z) : outcome (list Z) :=
  match n with
  | O => Ok []
  | S n' =>
      v ← read_bits b (j * width) width;
      vs ← decode_tail n' b (j + 1) width;
      Ok (v :: vs)
  end.

Definition decodeIndices (b : bytes) (n width : Z) : outcome (list Z) :=
  if bool_decide (n = 0) then Ok []
  else if bool_decide (n < 0) then Panic (* make([]uint32, n) *)
  else
    packed ← read_words (Z.to_nat (len b / 4)) b 0;
    let blocks := n / 32 in
    head ← (if bool_decide (0 < blocks)
            then BitUnpackInto (Z.to_nat (blocks * 32)) packed width else Ok []);
    tail ← decode_tail (Z.to_nat (n - blocks * 32)) b (blocks * 32) width;
    Ok (head ++ tail).
End codec.

(** *** [BuildDict] *)

Record DictColumn := MkDict { Dict : list bytes; Indices : list Z }.

(** First pass: provisional first-seen ids. *)
Record intern_state := Intern {
  in_id : gmap bytes Z; in_dict : list bytes; in_prov : list Z }.
Definition intern_step (s : intern_state) (v : bytes) : intern_state :=
  match in_id s !! v with
  | Some x => Intern (in_id s) (in_dict s) (in_prov s ++ [x])
  | None =>
      let x := u32 (len (in_dict s)) in
      Intern (<[v := x]> (in_id s)) (in_dict s ++ [v]) (in_prov s ++ [x])
  end.
Definition intern (values : list bytes) : intern_state :=
  fold_left intern_step values (Intern ∅ [] []).

(** [for newID, v := range sorted { remap[id[v]] = uint32(newID) }] *)
Fixpoint remap_loop (id : gmap bytes Z) (sorted : list bytes) (newID : Z) (remap : list Z)
  : outcome (list Z) :=
  match sorted with
  | [] => Ok remap
  | v :: sorted' =>
      remap' ← store remap (default 0 (id !! v)) (u32 newID);
      remap_loop id sorted' (newID + 1) remap'
  end.
(** [for i, p := range prov { idx[i] = remap[p] }] *)
Fixpoint reindex (remap prov : list Z) : outcome (list Z) :=
  match prov with
  | [] => Ok []
  | p :: prov' => x ← index remap p; xs ← reindex remap prov'; Ok (x :: xs)
  end.

Definition BuildDict (values : list bytes) : outcome DictColumn :=
  let s := intern values in
  let sorted := sort_Strings (in_dict s) in
  remap ← remap_loop (in_id s) sorted 0 (replicate (length (in_dict s)) 0);
  idx ← reindex remap (in_prov s);
  Ok (MkDict sorted idx).

(** ** Bit reads *)

Lemma div_mod_low z a w m :
  0 ≤ a → 0 ≤ w → a + w ≤ m → (z mod 2 ^ m / 2 ^ a) mod 2 ^ w = (z / 2 ^ a) mod 2 ^ w.
Proof.
  intros Ha Hw Hm. apply Z.bits_inj'. intros i Hi.
  destruct (decide (i < w)).
  - rewrite !Z.mod_pow2_bits_low, !Z.div_pow2_bits, Z.mod_pow2_bits_low by lia. done.
  - by rewrite !Z.mod_pow2_bits_high by lia.
Qed.

Lemma load8_loop_spec n : ∀ k b at_ v,
  is_bytes b → 0 ≤ at_ → 0 ≤ k → k + Z.of_nat n = 8 → at_ + k ≤ len b → 0 ≤ v < 2 ^ (8 * k) →
  load8_loop n k b at_ v =
    Ok (v + 2 ^ (8 * k) * undigits 8 (take n (drop (Z.to_nat (at_ + k)) b))).
Proof.
  induction n as [|n IH]; intros k b at_ v Hb Ha Hk Hn Hl Hv; simpl.
  - f_equal. lia.
  - case_bool_decide as Hin.
    + destruct (lookup_lt_is_Some_2 b (Z.to_nat (at_ + k))) as [x Hx]; [unfold len in *; lia|].
      rewrite (index_Ok _ _ x) by (done || lia). rewrite bind_Ok.
      assert (is_byte x) as Hxb by (by eapply Forall_lookup in Hx; [|exact Hb]).
      unfold is_digit in Hxb.
      assert (2 ^ (8 * (k + 1)) = 256 * 2 ^ (8 * k)) as Ep.
      { replace (8 * (k + 1)) with (8 + 8 * k) by lia. rewrite Z.pow_add_r by lia. done. }
      assert (2 ^ (8 * (k + 1)) ≤ 2 ^ 64) by (apply Z.pow_le_mono_r; lia).
      rewrite u64_small by (rewrite Z.shiftl_mul_pow2 by lia; unfold is_digit; nia).
      rewrite lor_shiftl_add by lia. rewrite IH by (done || nia).
      rewrite (drop_S _ x (Z.to_nat (at_ + k))) by done. rewrite firstn_cons. cbn [undigits]. rewrite Ep.
      replace (Z.to_nat (at_ + (k + 1))) with (S (Z.to_nat (at_ + k))) by lia. f_equal.
      change (2 ^ 8) with 256. ring.
    + rewrite drop_ge by (unfold len in *; lia). simpl. f_equal. lia.
Qed.

Lemma load8_spec b at_ :
  is_bytes b → 0 ≤ at_ → load8 b at_ = Ok ((undigits 8 b / 2 ^ (8 * at_)) mod 2 ^ 64).
Proof.
  intros Hb Ha. unfold load8. destruct (decide (at_ ≤ len b)).
  - rewrite load8_loop_spec by (done || lia). f_equal.
    rewrite undigits_take, undigits_drop by (lia || done || by apply Forall_drop).
    rewrite Z.add_0_r, Z2Nat.id by lia. change (8 * Z.of_nat 8) with 64. lia.
  - cbn [load8_loop]. rewrite bool_decide_eq_false_2 by lia. f_equal.
    rewrite Z.div_small; [done|]. pose proof (undigits_bound 8 b ltac:(lia) Hb).
    split; [lia|]. eapply Z.lt_le_trans; [apply H|]. apply Z.pow_le_mono_r; lia.
Qed.

Lemma mask32_ones w : 0 ≤ w ≤ 32 → mask32 w = 2 ^ w - 1.
Proof.
  intros Hw. unfold mask32. rewrite Z.shiftl_mul_pow2, Z.mul_1_l by lia.
  destruct (decide (w = 32)) as [->|]; [done|].
  assert (0 < 2 ^ w < 2 ^ 32) by (split; [apply pow2_pos; lia|apply Z.pow_lt_mono_r; lia]).
  unfold u32. rewrite !Z.mod_small by (try rewrite Z.mod_small; lia). done.
Qed.

(** A bit read returns the addressed digit of the integer the bytes denote. *)
Lemma read_bits_spec b bit w :
  is_bytes b → 0 ≤ bit → 0 ≤ w ≤ 32 →
  read_bits b bit w = Ok ((undigits 8 b / 2 ^ bit) mod 2 ^ w).
Proof.
  intros Hb Hbit Hw. unfold read_bits.
  assert (0 ≤ bit / 8) by (apply Z.div_pos; lia). pose proof (Z.mod_pos_bound bit 8).
  rewrite load8_spec by done. rewrite bind_Ok, mask32_ones, land_ones_mod by lia. f_equal.
  rewrite Z.shiftr_div_pow2 by lia. unfold u32.
  rewrite <- (Z.div_1_r (_ mod 2 ^ 32)). change 1 with (2 ^ 0) at 1.
  rewrite div_mod_low by lia. rewrite Z.div_1_r, div_mod_low by lia.
  rewrite Zdiv.Zdiv_Zdiv by (apply Z.pow_nonneg; lia). rewrite <- Z.pow_add_r by lia.
  by rewrite <- Z_div_mod_eq_full.
Qed.

Lemma extract_spec b i w :
  is_bytes b → 0 ≤ i → 0 ≤ w ≤ 32 →
  extractCountBits b i w = Ok ((undigits 8 b / 2 ^ (w * i)) mod 2 ^ w).
Proof.
  intros Hb Hi Hw. unfold extractCountBits. case_bool_decide as E.
  - subst w. simpl. by rewrite Z.mod_1_r.
  - rewrite read_bits_spec by (done || nia). by rewrite (Z.mul_comm i).
Qed.

Lemma decode_tail_spec n : ∀ b j w,
  is_bytes b → 0 ≤ j → 0 ≤ w ≤ 32 →
  decode_tail n b j w = Ok (digits n w (undigits 8 b / 2 ^ (w * j))).
Proof.
  induction n as [|n IH]; intros b j w Hb Hj Hw; cbn [decode_tail digits]; [done|].
  rewrite read_bits_spec by (done || nia). rewrite bind_Ok, IH, bind_Ok by (done || lia).
  rewrite (Z.mul_comm j w). do 3 f_equal.
  replace (w * (j + 1)) with (w * j + w) by lia.
  rewrite Z.pow_add_r, <- Zdiv.Zdiv_Zdiv by (try apply Z.pow_nonneg; nia). done.
Qed.

Lemma read_words_spec n : ∀ b at_,
  is_bytes b → 0 ≤ at_ → at_ + 4 * Z.of_nat n ≤ len b →
  ∃ ws, read_words n b at_ = Ok ws ∧ length ws = n ∧ Forall is_u32 ws ∧
        undigits 32 ws = undigits 8 (take (4 * n) (drop (Z.to_nat at_) b)).
Proof.
  induction n as [|n IH]; intros b at_ Hb Ha Hl; cbn [read_words].
  { eexists. split_and!; [done..|]. by rewrite Nat.mul_0_r, take_0. }
  unfold get_le. rewrite slice_Ok by lia. rewrite !bind_Ok.
  replace (Z.to_nat _) with 4%nat by lia.
  destruct (IH b (at_ + 4)) as (ws & -> & Hlen & Hu & Hv); [done|lia..|].
  set (d := drop (Z.to_nat at_) b). assert (is_bytes d) as Hd by (by apply Forall_drop).
  assert (4 ≤ length d)%nat as Hld by (subst d; rewrite length_drop; unfold len in *; lia).
  assert (len (take 4 d) = 4) as E4 by (unfold len; rewrite length_take; lia).
  eexists. split_and!; [done|by rewrite <- Hlen|constructor; [|done]|].
  - pose proof (undigits_bound 8 (take 4 d) ltac:(lia) (Forall_take _ _ _ Hd)) as B.
    rewrite E4 in B. done.
  - cbn [undigits]. rewrite Hv. replace (4 * S n)%nat with (4 + 4 * n)%nat by lia.
    rewrite <- take_take_drop, undigits_app, E4 by lia. change (8 * 4) with 32.
    subst d. rewrite drop_drop. do 5 f_equal. lia.
Qed.

(** ** The packed stream *)

Section codec_proofs.
Context {K : Simd} {KL : SimdLaws K}.

Lemma flat_le32 ws : is_bytes (List.flat_map le32 ws) ∧ len (List.flat_map le32 ws) = 4 * len ws.
Proof.
  induction ws as [|w ws [IH1 IH2]]; cbn [List.flat_map]; [split; [constructor|done]|].
  split; [apply Forall_app; split; [apply le32_bytes|done]|len_lia].
Qed.

Lemma encodeIndices_len idx w :
  1 ≤ w ≤ 32 → Forall (is_digit w) idx → idx ≠ [] →
  len (encodeIndices idx w) = ((len idx * w + 31) / 32 + 1) * 4.
Proof.
  intros Hw Hi Hne. destruct idx as [|x idx]; [done|]. unfold encodeIndices.
  rewrite (proj2 (flat_le32 _)). set (l := x :: idx) in *.
  assert (0 ≤ (len l * w + 31) / 32) by (apply Z.div_pos; len_facts; nia).
  destruct (pack_layout (Z.to_nat ((len l * w + 31) / 32 + 1)) l w) as (E & _ & _); try done.
  - pose proof (Z_div_mod_eq_full (len l * w + 31) 32). pose proof (Z.mod_pos_bound (len l * w + 31) 32). nia.
  - unfold len at 1. rewrite E. lia.
Qed.

Lemma encodeIndices_stream idx w :
  1 ≤ w ≤ 32 → Forall (is_digit w) idx →
  is_bytes (encodeIndices idx w) ∧
  undigits 8 (encodeIndices idx w) mod 2 ^ (w * len idx) = undigits w idx.
Proof.
  intros Hw Hi. destruct idx as [|x idx].
  { split; [apply Forall_nil_2|]. simpl undigits. len_nil. by rewrite Z.mul_0_r. }
  unfold encodeIndices. set (l := x :: idx) in *. split; [apply flat_le32|].
  assert (0 ≤ (len l * w + 31) / 32) by (apply Z.div_pos; len_facts; nia).
  destruct (pack_layout (Z.to_nat ((len l * w + 31) / 32 + 1)) l w) as (E & Hu & Hv); try done.
  - pose proof (Z_div_mod_eq_full (len l * w + 31) 32). pose proof (Z.mod_pos_bound (len l * w + 31) 32). nia.
  - unfold le32. by rewrite (undigits_flat 8 4) by done.
Qed.

(** Every digit of the packed stream is the index packed there. *)
Lemma encodeIndices_digit idx w i x :
  1 ≤ w ≤ 32 → Forall (is_digit w) idx → idx !! i = Some x →
  (undigits 8 (encodeIndices idx w) / 2 ^ (w * Z.of_nat i)) mod 2 ^ w = x.
Proof.
  intros Hw Hi Hx. destruct (encodeIndices_stream idx w Hw Hi) as [_ E].
  pose proof (lookup_lt_Some _ _ _ Hx).
  rewrite <- (div_mod_low _ _ _ (w * len idx)) by (unfold len; nia).
  rewrite E. apply undigits_lookup; (lia || done).
Qed.

(** An O(1) bit read out of a packed stream, with any bytes behind it. *)
Lemma extract_encode idx w i x rest :
  1 ≤ w ≤ 32 → Forall (is_digit w) idx → idx !! i = Some x → is_bytes rest →
  read_bits (encodeIndices idx w ++ rest) (Z.of_nat i * w) w = Ok x.
Proof.
  intros Hw Hi Hx Hr. destruct (encodeIndices_stream idx w Hw Hi) as [Hb _].
  rewrite read_bits_spec by (try apply Forall_app; (done || nia)). f_equal.
  pose proof (lookup_lt_Some _ _ _ Hx) as Hlt.
  rewrite <- (encodeIndices_digit idx w i x) by done. rewrite (Z.mul_comm (Z.of_nat i)).
  assert (w * Z.of_nat i + w ≤ 8 * len (encodeIndices idx w)).
  { rewrite encodeIndices_len by (done || by intros ->).
    assert (Z.of_nat i + 1 ≤ len idx) by (unfold len; lia).
    pose proof (Z_div_mod_eq_full (len idx * w + 31) 32).
    pose proof (Z.mod_pos_bound (len idx * w + 31) 32). nia. }
  rewrite <- (div_mod_low (undigits 8 (_ ++ _)) _ _ (8 * len (encodeIndices idx w))) by nia.
  rewrite undigits_app by lia. rewrite (Z.mul_comm (2 ^ _)), Z_mod_plus_full.
  rewrite div_mod_low by nia. done.
Qed.

Lemma extractCountBits_encode idx w i x :
  1 ≤ w ≤ 32 → Forall (is_digit w) idx → idx !! i = Some x →
  extractCountBits (encodeIndices idx w) (Z.of_nat i) w = Ok x.
Proof.
  intros Hw Hi Hx. unfold extractCountBits. rewrite bool_decide_eq_false_2 by lia.
  rewrite <- (app_nil_r (encodeIndices idx w)). apply extract_encode; [done..|constructor].
Qed.

Lemma digits_of_stream idx w z :
  1 ≤ w ≤ 32 → Forall (is_digit w) idx → z mod 2 ^ (w * len idx) = undigits w idx →
  digits (length idx) w z = idx.
Proof.
  intros Hw Hi Hz. rewrite <- (digits_mod _ _ _ (w * len idx)) by (unfold len; lia).
  rewrite Hz. apply digits_undigits; (lia || done).
Qed.

Lemma decode_encode_indices idx w :
  1 ≤ w ≤ 32 → Forall (is_digit w) idx →
  decodeIndices (encodeIndices idx w) (len idx) w = Ok idx.
Proof.
  intros Hw Hi. unfold decodeIndices. case_bool_decide as E0.
  { destruct idx; [done|]. len_lia. }
  rewrite bool_decide_eq_false_2 by len_lia.
  assert (idx ≠ []) as Hne by (by intros ->).
  destruct (encodeIndices_stream idx w Hw Hi) as [Hb Hs].
  pose proof (encodeIndices_len idx w Hw Hi Hne) as Hl.
  set (b := encodeIndices idx w) in *. set (n := len idx) in *.
  set (words := (n * w + 31) / 32 + 1) in *.
  assert (n * w ≤ 32 * words) as Hwords.
  { subst words. pose proof (Z_div_mod_eq_full (n * w + 31) 32).
    pose proof (Z.mod_pos_bound (n * w + 31) 32). nia. }
  assert (len b / 4 = words) as -> by (rewrite Hl; by apply Z.div_mul).
  assert (0 ≤ n) by (subst n; len_lia). assert (0 ≤ words) by nia.
  destruct (read_words_spec (Z.to_nat words) b 0) as (ws & -> & Hlw & Hu & Hv); [done|lia..|].
  rewrite bind_Ok. pose proof (Z_div_mod_eq_full n 32). pose proof (Z.mod_pos_bound n 32).
  assert (0 ≤ n / 32) by (apply Z.div_pos; lia).
  assert (undigits 32 ws = undigits 8 b) as Hws.
  { rewrite Hv, drop_0, take_ge; [done|]. unfold len in Hl. lia. }
  assert (∃ head, (if bool_decide (0 < n / 32)
      then BitUnpackInto (Z.to_nat (n / 32 * 32)) ws w else Ok []) = Ok head ∧
      head = digits (Z.to_nat (n / 32 * 32)) w (undigits 8 b)) as (head & -> & ->).
  { case_bool_decide as Hb0.
    - eexists. rewrite unpack_layout; [by rewrite Hws|done| |done|unfold len; rewrite Hlw; nia].
      rewrite Z2Nat.id by lia. apply Z_mod_mult.
    - eexists. split; [done|]. by replace (Z.to_nat (n / 32 * 32)) with 0%nat by lia. }
  rewrite bind_Ok, decode_tail_spec by (done || lia). rewrite bind_Ok. f_equal.
  transitivity (digits (length idx) w (undigits 8 b)); [|by apply digits_of_stream].
  replace (length idx) with (Z.to_nat (n / 32 * 32) + Z.to_nat (n - n / 32 * 32))%nat
    by (unfold n, len in *; lia).
  rewrite digits_app by lia. by rewrite Z2Nat.id by lia.
Qed.

(** Decoding a bit-packed index column returns the indices that were
    packed, through the whole-block kernel and the scalar tail alike. *)
Theorem decodeIndices_encodeIndices idx w :
  1 ≤ w ≤ 32 → Forall (is_digit w) idx →
  decodeIndices (encodeIndices idx w) (len idx) w = Ok idx.
Proof. apply decode_encode_indices. Qed.
End codec_proofs.

(** The natural width holds every index below the dictionary's length. *)
Lemma bitWidth_spec n i : 0 ≤ i < n → n ≤ 2 ^ 32 → is_digit (bitWidth n) i.
Proof.
  intros Hi Hn. unfold bitWidth, is_digit. case_bool_decide; [lia|].
  unfold u32. rewrite Z.mod_small by lia. pose proof (Len32_spec (n - 1)). lia.
Qed.
Lemma bitWidth_range n : n ≤ 2 ^ 32 → 1 ≤ bitWidth n ≤ 32.
Proof.
  intros Hn. unfold bitWidth. case_bool_decide; [lia|]. unfold Len32, u32.
  rewrite Z.mod_small by lia. rewrite bool_decide_eq_false_2 by lia.
  assert (Z.log2 (n - 1) < 32) by (apply Z.log2_lt_pow2; lia).
  pose proof (Z.log2_nonneg (n - 1)). lia.
Qed.

(** ** [BuildDict] *)

(** [id] and [dict] are inverse to each other, and [prov] names each value. *)
Record intern_ok (values : list bytes) (s : intern_state) : Prop := {
  iok_nodup : NoDup (in_dict s);
  iok_id v x : in_id s !! v = Some x ↔ 0 ≤ x ∧ in_dict s !! Z.to_nat x = Some v;
  iok_prov : Forall2 (λ p v, 0 ≤ p ∧ in_dict s !! Z.to_nat p = Some v) (in_prov s) values;
  iok_mem v : v ∈ in_dict s ↔ v ∈ values;
  iok_len : len (in_dict s) ≤ len values }.

Lemma intern_step_ok values s v :
  len values < 2 ^ 32 → intern_ok values s → intern_ok (values ++ [v]) (intern_step s v).
Proof.
  intros Hn [Hnd Hid Hp Hmem Hlen]. unfold intern_step.
  destruct (in_id s !! v) as [x|] eqn:Ev.
  - apply Hid in Ev as Hx. constructor; simpl; try done.
    + apply Forall2_app; [done|]. by constructor.
    + intros u. rewrite elem_of_app, Hmem, list_elem_of_singleton.
      split; [auto|]. intros [?| ->]; [done|]. apply Hmem, list_elem_of_lookup. by eexists; apply Hx.
    + len_lia.
  - assert (v ∉ in_dict s) as Hv.
    { intros [i Hi]%list_elem_of_lookup. enough (in_id s !! v = Some (Z.of_nat i)) by congruence.
      apply Hid. rewrite Nat2Z.id. split; [lia|done]. }
    rewrite u32_small by (unfold is_digit; len_facts; lia).
    constructor; simpl.
    + apply NoDup_app. split_and!; [done| |apply NoDup_singleton].
      intros u Hu ->%list_elem_of_singleton. done.
    + intros u x. rewrite lookup_insert. case_decide as E.
      * subst u. split.
        -- intros [= <-]. split; [len_lia|]. unfold len. rewrite Nat2Z.id.
           by rewrite lookup_app_r, Nat.sub_diag by lia.
        -- intros [Hx Hl]. apply lookup_app_Some in Hl as [Hl|[Hl1 Hl2]].
           { exfalso. apply Hv, list_elem_of_lookup. by eexists. }
           apply list_lookup_singleton_Some in Hl2 as [Hl2 _]. f_equal. unfold len. lia.
      * rewrite Hid. split; intros [Hx Hl]; (split; [done|]).
        -- by apply lookup_app_l_Some.
        -- apply lookup_app_Some in Hl as [Hl|[Hl1 Hl2]]; [done|].
           by apply list_lookup_singleton_Some in Hl2 as [_ ->].
    + apply Forall2_app.
      * eapply Forall2_impl; [done|]. intros p u [? ?]. split; [done|]. by apply lookup_app_l_Some.
      * constructor; [|constructor]. split; [len_lia|]. unfold len. rewrite Nat2Z.id.
        by rewrite lookup_app_r, Nat.sub_diag by lia.
    + intros u. rewrite !elem_of_app, Hmem. done.
    + len_lia.
Qed.

Lemma intern_correct values : len values < 2 ^ 32 → intern_ok values (intern values).
Proof.
  unfold intern. induction values as [|v values IH] using rev_ind; intros Hn.
  - constructor; simpl; [constructor| |constructor|done|done].
    intros v x. rewrite lookup_empty, lookup_nil. split; [done|intros [_ ?]; done].
  - rewrite fold_left_app. simpl. apply intern_step_ok; [|apply IH]; len_lia.
Qed.

(** The second loop: [remap] sends the provisional id of [sorted[k]] to [k]. *)
Lemma remap_loop_correct id dict sorted : ∀ k remap,
  (∀ v x, id !! v = Some x ↔ 0 ≤ x ∧ dict !! Z.to_nat x = Some v) →
  NoDup sorted → (∀ v, v ∈ sorted → v ∈ dict) → length remap = length dict →
  0 ≤ k → k + len sorted ≤ 2 ^ 32 →
  ∃ remap', remap_loop id sorted k remap = Ok remap' ∧ length remap' = length dict ∧
    (∀ j v x, sorted !! j = Some v → dict !! x = Some v → remap' !! x = Some (k + Z.of_nat j)) ∧
    (∀ v x, v ∉ sorted → dict !! x = Some v → remap' !! x = remap !! x).
Proof.
  induction sorted as [|v sorted IH]; intros k remap Hid Hnd Hsub Hlen Hk Hb; cbn [remap_loop].
  { eexists. split_and!; [done..| |done]. intros j v x. by rewrite lookup_nil. }
  apply NoDup_cons in Hnd as [Hv Hnd]. rewrite len_cons in Hb.
  destruct (proj1 (list_elem_of_lookup dict v) ltac:(apply Hsub; left)) as [x Hx].
  assert (id !! v = Some (Z.of_nat x)) as Ex by (apply Hid; rewrite Nat2Z.id; split; [lia|done]).
  assert (x < length dict)%nat by (by eapply lookup_lt_Some).
  rewrite Ex. cbn [default]. rewrite store_Ok by (unfold len; simpl; lia). rewrite bind_Ok. simpl.
  rewrite Nat2Z.id, u32_small by (unfold is_digit; len_facts; lia).
  assert (∀ u y, dict !! y = Some u → u ≠ v → y ≠ x) as Hinj by (intros; congruence).
  destruct (IH (k + 1) (<[x:=k]> remap)) as (remap' & E & Hl & Hin & Hout); try done.
  { intros u Hu. apply Hsub. by right. } { by rewrite length_insert. } { lia. } { lia. }
  exists remap'. split_and!; [done..| |].
  - intros [|j] u y Hj Hy; simpl in Hj; simplify_eq.
    + rewrite (Hout u y Hv Hy).
      assert (id !! u = Some (Z.of_nat y)) as Ey by (apply Hid; rewrite Nat2Z.id; split; [lia|done]).
      assert (y = x) as -> by (rewrite Ex in Ey; simplify_eq; lia).
      rewrite list_lookup_insert_eq by lia. f_equal. lia.
    + rewrite (Hin j u y Hj Hy). f_equal. lia.
  - intros u y [Hne Hu]%not_elem_of_cons Hy. rewrite (Hout u y Hu Hy).
    apply list_lookup_insert_ne. intros <-. by eapply Hinj.
Qed.

Lemma reindex_correct remap prov (P : Z → Z → Prop) :
  (∀ p, p ∈ prov → ∃ x, index remap p = Ok x ∧ P p x) →
  ∃ idx, reindex remap prov = Ok idx ∧ Forall2 P prov idx.
Proof.
  induction prov as [|p prov IH]; intros H; cbn [reindex]; [by eexists|].
  destruct (H p) as (x & -> & Hx); [left|]. rewrite bind_Ok.
  destruct IH as (idx & -> & Hi); [intros q Hq; apply H; by right|]. rewrite bind_Ok.
  eexists. split; [done|]. by constructor.
Qed.

Lemma sort_Strings_perm l : sort_Strings l ≡ₚ l.
Proof. apply merge_sort_Permutation. Qed.

Lemma sort_Strings_strict l : NoDup l → StronglySorted str_lt (sort_Strings l).
Proof.
  intros Hnd. assert (NoDup (sort_Strings l)) as Hnd' by (by rewrite sort_Strings_perm).
  assert (StronglySorted str_le (sort_Strings l)) as Hs by apply (StronglySorted_merge_sort _ _).
  clear Hnd. revert Hnd' Hs. generalize (sort_Strings l). intros s Hnd' Hs.
  induction Hs as [|x s Hs IH Hx]; constructor.
  - apply IH. by apply NoDup_cons in Hnd' as [_ ?].
  - apply NoDup_cons in Hnd' as [Hnx _]. rewrite Forall_forall in Hx |- *. intros y Hy.
    destruct (proj1 (str_le_cases x y) (Hx y Hy)) as [?| ->]; [done|]. done.
Qed.

(** What [BuildDict] promises: a strictly sorted dictionary of exactly the
    values, and one index per row that names the row's value. *)
Record dict_of (values : list bytes) (c : DictColumn) : Prop := {
  dict_sorted : StronglySorted str_lt (Dict c);
  dict_members v : v ∈ Dict c ↔ v ∈ values;
  dict_rows : Forall2 (λ v i, 0 ≤ i ∧ Dict c !! Z.to_nat i = Some v) values (Indices c) }.

Lemma BuildDict_spec values :
  len values < 2 ^ 32 → ∃ c, BuildDict values = Ok c ∧ dict_of values c.
Proof.
  intros Hn. pose proof (intern_correct values Hn) as [Hnd Hid Hp Hmem Hlen]. unfold BuildDict.
  set (s := intern values) in *. pose proof (sort_Strings_perm (in_dict s)) as Hperm.
  assert (length (sort_Strings (in_dict s)) = length (in_dict s)) as Hsl by (by rewrite Hperm).
  destruct (remap_loop_correct (in_id s) (in_dict s) (sort_Strings (in_dict s)) 0
              (replicate (length (in_dict s)) 0)) as (remap & -> & Hrl & Hin & _);
    try done.
  { by rewrite Hperm. } { intros v. by rewrite Hperm. } { by rewrite length_replicate. }
  { unfold len in *. lia. }
  rewrite bind_Ok.
  destruct (reindex_correct remap (in_prov s)
    (λ p i, 0 ≤ i ∧ sort_Strings (in_dict s) !! Z.to_nat i = in_dict s !! Z.to_nat p))
    as (idx & -> & Hidx).
  { intros p [i Hi]%list_elem_of_lookup. destruct (Forall2_lookup_l _ _ _ _ _ Hp Hi) as (v & _ & H0 & Hv).
    assert (v ∈ sort_Strings (in_dict s)) as [j Hj]%list_elem_of_lookup
      by (rewrite Hperm; apply list_elem_of_lookup; by eexists).
    pose proof (Hin j v _ Hj Hv) as Hr. exists (0 + Z.of_nat j).
    split; [by apply index_Ok|]. split; [lia|]. rewrite Hv. by replace (Z.to_nat _) with j by lia. }
  rewrite bind_Ok. eexists. split; [done|]. constructor; simpl.
  - by apply sort_Strings_strict.
  - intros v. by rewrite Hperm.
  - apply Forall2_same_length_lookup. split.
    { apply Forall2_length in Hp, Hidx. lia. }
    intros i v x Hv Hx. destruct (Forall2_lookup_r _ _ _ _ _ Hidx Hx) as (p & Hpi & H0 & E).
    destruct (Forall2_lookup_l _ _ _ _ _ Hp Hpi) as (v' & Hv' & _ & Hd). split; [done|]. congruence.
Qed.

(** [BuildDict] interns any column of fewer than 2^32 values into a
    strictly sorted dictionary of exactly those values and one index per row
    naming that row's value; it never panics. *)
Theorem BuildDict_correct values :
  len values < 2 ^ 32 → ∃ c, BuildDict values = Ok c ∧ dict_of values c.
Proof. apply BuildDict_spec. Qed.
