(* ===== verification/Timestamps.v ===== *)
(** * Timestamp columns

    [internal/storage/column.go]: zig-zag varint deltas behind a checkpoint
    header, the full decode, the point and range reads that seek through the
    checkpoints, and the two window filters. *)

From S2P Require Import Prelude Digits GoLib Kernels.
Local Open Scope Z_scope.

(** ** Definitions *)

Definition tsBlock : Z := 512.
Definition tsHdrStride : Z := 28.

(** [uint64(v<<1) ^ uint64(v>>63)] *)
Definition zigzag (v : Z) : Z := Z.lxor (u64 (Z.shiftl v 1)) (u64 (Z.shiftr v 63)).
(** [int64(u>>1) ^ -int64(u&1)] *)
Definition unzigzag (u : Z) : Z := Z.lxor (i64 (Z.shiftr u 1)) (i64 (- Z.land u 1)).

(** Integer division; Go panics on a zero divisor. *)
Definition go_div (a b : Z) : outcome Z := if bool_decide (b = 0) then Panic else Ok (Z.quot a b).

(** *** The encoder *)

Record ts_enc := TsEnc {
  e_offs : list Z; e_bases : list Z; e_mins : list Z; e_maxs : list Z;
  e_stream : bytes; e_prev : Z }.

(** One iteration of [for i, t := range ts]. *)
Definition ts_step (i t : Z) (s : ts_enc) : outcome ts_enc :=
  let b := i / tsBlock in
  s1 ← (if bool_decide (i mod tsBlock = 0) then
          offs ← store (e_offs s) b (u32 (len (e_stream s)));
          bases ← store (e_bases s) b (e_prev s);
          mins ← store (e_mins s) b t;
          maxs ← store (e_maxs s) b t;
          Ok (TsEnc offs bases mins maxs (e_stream s) (e_prev s))
        else Ok s);
  mn ← index (e_mins s1) b;
  mins ← (if bool_decide (t < mn) then store (e_mins s1) b t else Ok (e_mins s1));
  mx ← index (e_maxs s1) b;
  maxs ← (if bool_decide (mx < t) then store (e_maxs s1) b t else Ok (e_maxs s1));
  let d := if bool_decide (0 < i) then i64 (t - e_prev s1) else t in
  Ok (TsEnc (e_offs s1) (e_bases s1) mins maxs (e_stream s1 ++ put_uvarint (zigzag d)) t).

Fixpoint ts_loop (ts : list Z) (i : Z) (s : ts_enc) : outcome ts_enc :=
  match ts with
  | [] => Ok s
  | t :: ts' => s' ← ts_step i t s; ts_loop ts' (i + 1) s'
  end.

(** [for k := 0; k < numBlocks; k++ { off, base, min, max }] *)
Fixpoint ts_headers (n : nat) (k : Z) (s : ts_enc) : outcome bytes :=
  match n with
  | O => Ok []
  | S n' =>
      off ← index (e_offs s) k;
      base ← index (e_bases s) k;
      mn ← index (e_mins s) k;
      mx ← index (e_maxs s) k;
      rest ← ts_headers n' (k + 1) s;
      Ok (le32 off ++ le64 base ++ le64 mn ++ le64 mx ++ rest)
  end.

Definition encodeTimestamps (ts : list Z) : outcome bytes :=
  let n := len ts in
  if bool_decide (n = 0) then Ok []
  else
    let numBlocks := (n + tsBlock - 1) / tsBlock in
    let zeros := replicate (Z.to_nat numBlocks) 0 in
    s ← ts_loop ts 0 (TsEnc zeros zeros zeros zeros [] 0);
    hdr ← ts_headers (Z.to_nat numBlocks) 0 s;
    Ok (le32 numBlocks ++ le32 tsBlock ++ hdr ++ e_stream s).

(** *** The decoders *)

Definition tsHeaderLen (b : bytes) : outcome Z :=
  nb ← get32 b 0; Ok (8 + nb * tsHdrStride).

Definition tsStream (b : bytes) : outcome bytes :=
  if bool_decide (len b < 8) then Ok []
  else h ← tsHeaderLen b; slice_from b h.

Definition geti64 (b : bytes) (at_ : Z) : outcome Z := v ← get64 b at_; Ok (i64 v).

(** One iteration of [timeWindowSpan]'s loop over the blocks. *)
Definition span_step (b : bytes) (n bs from to k : Z) (s : Z * Z) : outcome (Z * Z) :=
  let '(lo, hi) := s in
  let hdr := 8 + k * tsHdrStride in
  mn ← geti64 b (hdr + 12);
  mx ← geti64 b (hdr + 20);
  if bool_decide (mx < from ∨ to ≤ mn) then Ok s
  else
    let bl := k * bs in
    let bh := Z.min (bl + bs) n in
    Ok (if bool_decide (bl < lo) then bl else lo, if bool_decide (hi < bh) then bh else hi).

Definition timeWindowSpan (b : bytes) (n from to : Z) : outcome (Z * Z) :=
  if bool_decide (len b < 8) then Ok (0, n)
  else
    numBlocks ← get32 b 0;
    bs ← get32 b 4;
    s ← forM (Z.to_nat numBlocks) 0 (span_step b n bs from to) (n, 0);
    let '(lo, hi) := s in
    Ok (if bool_decide (hi ≤ lo) then (0, 0) else (lo, hi)).

(** The body every scalar decoder shares: stop at the end of the stream or at a
    varint that does not decode, otherwise advance and add the delta. *)
Definition ts_next (stream : bytes) (pos prev : Z) : outcome (option (Z * Z)) :=
  if bool_decide (len stream ≤ pos) then Ok None
  else
    s ← slice_from stream pos;
    let '(d, w) := Uvarint s in
    Ok (if bool_decide (w ≤ 0) then None else Some (pos + w, i64 (prev + unzigzag d))).

(** [for i := lo; i < hi; i++] over one boundary block. *)
Fixpoint mask_loop (n : nat) (i : Z) (stream : bytes) (pos prev from to : Z) (out : list bool)
  : outcome (list bool) :=
  match n with
  | O => Ok out
  | S n' =>
      r ← ts_next stream pos prev;
      match r with
      | None => Ok out
      | Some (pos', prev') =>
          out' ← store out i (bool_decide (from ≤ prev' ∧ prev' < to));
          mask_loop n' (i + 1) stream pos' prev' from to out'
      end
  end.

(** [for i := lo; i < hi; i++ { out[i] = true }] *)
Fixpoint fill_loop (n : nat) (i : Z) (out : list bool) : outcome (list bool) :=
  match n with
  | O => Ok out
  | S n' => out' ← store out i true; fill_loop n' (i + 1) out'
  end.

Definition range_step (b stream : bytes) (n bs from to k : Z) (out : list bool) : outcome (list bool) :=
  let hdr := 8 + k * tsHdrStride in
  mn ← geti64 b (hdr + 12);
  mx ← geti64 b (hdr + 20);
  if bool_decide (mx < from ∨ to ≤ mn) then Ok out
  else
    let lo := k * bs in
    let hi := Z.min (lo + bs) n in
    if bool_decide (from ≤ mn ∧ mx < to) then fill_loop (Z.to_nat (hi - lo)) lo out
    else
      prev ← geti64 b (hdr + 4);
      pos ← get32 b hdr;
      mask_loop (Z.to_nat (hi - lo)) lo stream pos prev from to out.

(** [out] is the backing array of the caller's buffer: reused and cleared when
    it is large enough. *)
Definition decodeTimeRangeInto (b : bytes) (n from to : Z) (out : list bool) : outcome (list bool) :=
  let out0 := if bool_decide (len out < n) then replicate (Z.to_nat n) false
              else (λ _, false) <$> take (Z.to_nat n) out in
  if bool_decide (len b < 8) then Ok out0
  else
    numBlocks ← get32 b 0;
    bs ← get32 b 4;
    stream ← slice_from b (8 + numBlocks * tsHdrStride);
    forM (Z.to_nat numBlocks) 0 (range_step b stream n bs from to) out0.

(** The running sum of [decodeInto]. *)
Fixpoint prefix_sum (prev : Z) (raw : list Z) : list Z :=
  match raw with
  | [] => []
  | u :: raw' => let p := i64 (prev + unzigzag u) in p :: prefix_sum p raw'
  end.

Section full.
Context {K : Simd}.
(** [decodeInto], by the length [n] of its buffers; the first [got] entries of
    [out]. *)
Definition decodeInto (b : bytes) (n : Z) : outcome (list Z) :=
  stream ← tsStream b;
  Ok (prefix_sum 0 (VarintDecode (Z.to_nat n) stream)).

Definition decodeTimestamps (b : bytes) (n : Z) : outcome (list Z) :=
  if bool_decide (n = 0) then Ok [] else decodeInto b n.
End full.

(** The loop of [decodeTsRangeInto] from row [i]: the buffer and the row it
    stopped at. *)
Fixpoint ts_range_loop (n : nat) (i lo : Z) (stream : bytes) (pos prev : Z) (out : list Z)
  : outcome (Z * list Z) :=
  match n with
  | O => Ok (i, out)
  | S n' =>
      r ← ts_next stream pos prev;
      match r with
      | None => Ok (i, out)
      | Some (pos', prev') =>
          out' ← (if bool_decide (lo ≤ i) then store out (i - lo) prev' else Ok out);
          ts_range_loop n' (i + 1) lo stream pos' prev' out'
      end
  end.

(** [clear(out[j:])] *)
Definition clear_from (out : list Z) (j : Z) : list Z :=
  take (Z.to_nat j) out ++ replicate (length out - Z.to_nat j) 0.

(** [dst] is the backing array of the caller's buffer: reused when it is large
    enough, with whatever it held. [nil] is the empty array. *)
Definition decodeTsRangeInto (dst : list Z) (b : bytes) (lo hi : Z) : outcome (list Z) :=
  if bool_decide (hi ≤ lo ∨ len b < 8) then Ok []
  else
    numBlocks ← get32 b 0;
    bs ← get32 b 4;
    stream ← slice_from b (8 + numBlocks * tsHdrStride);
    k ← go_div lo bs;
    let hdr := 8 + k * tsHdrStride in
    prev ← geti64 b (hdr + 4);
    pos ← get32 b hdr;
    let out := if bool_decide (len dst < hi - lo) then replicate (Z.to_nat (hi - lo)) 0
               else take (Z.to_nat (hi - lo)) dst in
    s ← ts_range_loop (Z.to_nat (hi - k * bs)) (k * bs) lo stream pos prev out;
    let '(i, out') := s in
    Ok (if bool_decide (i < hi) then clear_from out' (Z.max 0 (i - lo)) else out').

Definition decodeTsRange (b : bytes) (lo hi : Z) : outcome (list Z) := decodeTsRangeInto [] b lo hi.

(** [for i := k*bs; i <= row; i++]: the running timestamp where it stopped. *)
Fixpoint ts_at_loop (n : nat) (stream : bytes) (pos prev : Z) : outcome Z :=
  match n with
  | O => Ok prev
  | S n' =>
      r ← ts_next stream pos prev;
      match r with
      | None => Ok prev
      | Some (pos', prev') => ts_at_loop n' stream pos' prev'
      end
  end.

Definition decodeTsAt (b : bytes) (row : Z) : outcome Z :=
  numBlocks ← get32 b 0;
  bs ← get32 b 4;
  k ← go_div row bs;
  if bool_decide (numBlocks ≤ k) then Ok 0
  else
    let hdr := 8 + k * tsHdrStride in
    off ← get32 b hdr;
    prev ← geti64 b (hdr + 4);
    stream ← slice_from b (8 + numBlocks * tsHdrStride);
    ts_at_loop (Z.to_nat (row - k * bs + 1)) stream off prev.

(** ** Zig-zag *)

Lemma lxor_ones a k : 0 ≤ k → 0 ≤ a < 2 ^ k → Z.lxor a (2 ^ k - 1) = 2 ^ k - 1 - a.
Proof.
  intros Hk Ha. rewrite Z.sub_1_r, <- Z.ones_equiv.
  rewrite Z.sub_nocarry_ldiff.
  - apply Z.bits_inj'. intros i Hi. rewrite Z.lxor_spec, Z.ldiff_spec, Z.testbit_ones_nonneg by lia.
    destruct (Z.ltb_spec i k) as [?|?]; simpl; [by destruct (Z.testbit a i)|].
    by rewrite <- (Z.mod_small a (2 ^ k)), Z.mod_pow2_bits_high by lia.
  - rewrite Z.ldiff_ones_r, Z.shiftr_div_pow2, Z.div_small by lia. apply Z.shiftl_0_l.
Qed.

Lemma zigzag_spec v : is_i64 v → zigzag v = if bool_decide (0 ≤ v) then 2 * v else - 2 * v - 1.
Proof.
  unfold is_i64, zigzag. intros Hv. rewrite Z.shiftl_mul_pow2, Z.shiftr_div_pow2 by lia.
  change (2 ^ 1) with 2. case_bool_decide.
  - rewrite (Z.div_small v) by lia. change (u64 0) with 0. rewrite Z.lxor_0_r.
    rewrite u64_small by (unfold is_digit; lia). lia.
  - replace (v / 2 ^ 63) with (-1).
    2:{ apply Z.div_unique with (v + 2 ^ 63); lia. }
    change (u64 (-1)) with (2 ^ 64 - 1).
    replace (u64 (v * 2)) with (v * 2 + 2 ^ 64).
    2:{ unfold u64. apply Z.mod_unique with (-1); lia. }
    rewrite lxor_ones by lia. lia.
Qed.

Lemma unzigzag_zigzag v : is_i64 v → unzigzag (zigzag v) = v.
Proof.
  intros Hv. rewrite zigzag_spec by done. unfold unzigzag, is_i64 in *.
  rewrite Z.shiftr_div_pow2 by lia. change (2 ^ 1) with 2.
  rewrite (land_ones_mod _ 1) by lia. change (2 ^ 1) with 2.
  case_bool_decide.
  - rewrite (Z.mul_comm 2), Z.div_mul, Z_mod_mult by lia. change (i64 (-0)) with 0.
    rewrite Z.lxor_0_r. apply i64_small. unfold is_i64. lia.
  - replace (-2 * v - 1) with (1 + (- v - 1) * 2) by lia.
    rewrite Z.div_add, Z_mod_plus_full by lia. change (1 / 2) with 0. change (1 mod 2) with 1.
    change (i64 (-1)) with (-1). rewrite Z.lxor_m1_r, i64_small by (unfold is_i64; lia).
    unfold Z.lnot. lia.
Qed.
Lemma zigzag_u64 v : is_i64 v → is_u64 (zigzag v).
Proof. intros Hv. rewrite zigzag_spec by done. unfold is_i64, is_digit in *. case_bool_decide; lia. Qed.

(** ** The delta stream *)

(** The timestamp before the next row: [prev] after encoding [ts]. *)
Fixpoint last_ts (prev : Z) (ts : list Z) : Z :=
  match ts with [] => prev | t :: ts' => last_ts t ts' end.

Fixpoint ts_stream (prev : Z) (ts : list Z) : bytes :=
  match ts with
  | [] => []
  | t :: ts' => put_uvarint (zigzag (i64 (t - prev))) ++ ts_stream t ts'
  end.

Lemma last_ts_snoc prev ts t : last_ts prev (ts ++ [t]) = t.
Proof. revert prev. by induction ts as [|x ts IH]; intros prev; simpl. Qed.

Lemma ts_stream_app prev a b :
  ts_stream prev (a ++ b) = ts_stream prev a ++ ts_stream (last_ts prev a) b.
Proof.
  revert prev. induction a as [|t a IH]; intros prev; cbn [app ts_stream]; [done|].
  by rewrite IH, <- app_assoc.
Qed.

Lemma ts_stream_bytes prev ts : is_bytes (ts_stream prev ts).
Proof.
  revert prev. induction ts as [|t ts IH]; intros prev; cbn [ts_stream]; [constructor|].
  apply Forall_app. split; [|apply IH]. apply put_uvarint_bytes.
  pose proof (zigzag_u64 (i64 (t - prev)) (i64_range _)) as [? ?]. done.
Qed.

Lemma uvarint_loop_len f x : (length (uvarint_loop f x) ≤ f)%nat.
Proof.
  revert x. induction f as [|f IH]; intros x; simpl; [lia|].
  case_bool_decide; simpl; [specialize (IH (Z.shiftr x 7))|]; lia.
Qed.
Lemma ts_stream_len prev ts : len (ts_stream prev ts) ≤ 10 * len ts.
Proof.
  revert prev. induction ts as [|t ts IH]; intros prev; cbn [ts_stream]; [len_lia|].
  specialize (IH t). pose proof (uvarint_loop_len 10 (zigzag (i64 (t - prev)))) as H.
  rewrite len_app, len_cons. unfold put_uvarint, len at 1. lia.
Qed.

(** One scalar decode step at the position of row [t]. *)
Lemma ts_next_spec stream pos pre t post :
  is_i64 t → stream = ts_stream 0 (pre ++ t :: post) → pos = len (ts_stream 0 pre) →
  ts_next stream pos (last_ts 0 pre) = Ok (Some (len (ts_stream 0 (pre ++ [t])), t)).
Proof.
  intros Ht -> ->. rewrite !ts_stream_app. cbn [ts_stream]. rewrite app_nil_r.
  set (p := last_ts 0 pre). set (z := put_uvarint _). unfold ts_next.
  pose proof (put_uvarint_pos (zigzag (i64 (t - p)))) as Hz.
  rewrite bool_decide_eq_false_2 by (subst z; len_lia).
  rewrite slice_from_Ok by len_lia. rewrite bind_Ok, drop_len_app. subst z.
  rewrite Uvarint_put by (apply zigzag_u64, i64_range).
  rewrite bool_decide_eq_false_2 by lia. rewrite unzigzag_zigzag by apply i64_range.
  rewrite (Z.add_comm p), i64_add_l. replace (t - p + p) with t by lia. rewrite (i64_small t) by done.
  do 3 f_equal. len_lia.
Qed.

(** ** The encoder's invariant *)

(** The rows before block [k]. *)
Definition before (k : Z) (ts : list Z) : list Z := take (Z.to_nat (tsBlock * k)) ts.

(** Checkpoint [k] of [s] describes block [k] of the rows [p]. *)
Definition checkpoint_ok (p : list Z) (k : Z) (s : ts_enc) : Prop :=
  ∃ mn mx,
    e_offs s !! Z.to_nat k = Some (len (ts_stream 0 (before k p))) ∧
    e_bases s !! Z.to_nat k = Some (last_ts 0 (before k p)) ∧
    e_mins s !! Z.to_nat k = Some mn ∧ e_maxs s !! Z.to_nat k = Some mx ∧
    is_i64 mn ∧ is_i64 mx ∧
    ∀ i t, p !! i = Some t → Z.of_nat i / tsBlock = k → mn ≤ t ≤ mx.

Record enc_inv (nb : Z) (p : list Z) (bound : Z) (s : ts_enc) : Prop := {
  inv_offs : len (e_offs s) = nb; inv_bases : len (e_bases s) = nb;
  inv_mins : len (e_mins s) = nb; inv_maxs : len (e_maxs s) = nb;
  inv_check k : 0 ≤ k → tsBlock * k < bound → checkpoint_ok p k s }.

Lemma before_snoc k p t : tsBlock * k ≤ len p → before k (p ++ [t]) = before k p.
Proof. intros. unfold before. rewrite take_app_le; [done|]. unfold len in *. lia. Qed.

Lemma div_block i k : 0 ≤ i → i / tsBlock = k ↔ tsBlock * k ≤ i < tsBlock * k + tsBlock.
Proof.
  intros. unfold tsBlock. pose proof (Z_div_mod_eq_full i 512). pose proof (Z.mod_pos_bound i 512). lia.
Qed.

(** Storing into one slot of an array leaves the others. *)
Lemma store_slot {A} (l : list A) i x nb :
  len l = nb → 0 ≤ i < nb →
  ∃ l', store l i x = Ok l' ∧ len l' = nb ∧ l' !! Z.to_nat i = Some x ∧
        ∀ k, 0 ≤ k → k ≠ i → l' !! Z.to_nat k = l !! Z.to_nat k.
Proof.
  intros Hl Hi. eexists. split; [apply store_Ok; lia|]. split_and!.
  - by rewrite len_insert.
  - apply list_lookup_insert_eq. unfold len in *. lia.
  - intros k Hk Hne. apply list_lookup_insert_ne. lia.
Qed.

(** Opening a block at a multiple of [tsBlock]. *)
Lemma ts_open nb p s t :
  enc_inv nb p (len p) s → e_stream s = ts_stream 0 p → e_prev s = last_ts 0 p →
  len (ts_stream 0 p) < 2 ^ 32 → len p < tsBlock * nb → is_i64 t → Forall is_i64 p →
  ∃ s1,
    (if bool_decide (len p mod tsBlock = 0) then
      offs ← store (e_offs s) (len p / tsBlock) (u32 (len (e_stream s)));
      bases ← store (e_bases s) (len p / tsBlock) (e_prev s);
      mins ← store (e_mins s) (len p / tsBlock) t;
      maxs ← store (e_maxs s) (len p / tsBlock) t;
      Ok (TsEnc offs bases mins maxs (e_stream s) (e_prev s))
    else Ok s) = Ok s1 ∧
    enc_inv nb p (len p + 1) s1 ∧ e_stream s1 = ts_stream 0 p ∧ e_prev s1 = last_ts 0 p.
Proof.
  intros [Ho Hb Hmi Hma Hc] Hst Hpv Hlen Hnb Ht Hp.
  set (b := len p / tsBlock). assert (0 ≤ len p) by len_lia.
  pose proof (proj1 (div_block (len p) b ltac:(done)) eq_refl) as Hbb.
  case_bool_decide as Hm.
  - assert (tsBlock * b = len p) as Hbp.
    { subst b. pose proof (Z_div_mod_eq_full (len p) tsBlock). unfold tsBlock in *. lia. }
    assert (0 ≤ b < nb) as Hrange by (unfold tsBlock in *; lia).
    assert (u32 (len (e_stream s)) = len (ts_stream 0 p)) as Eu
      by (rewrite Hst; apply u32_small; unfold is_digit; len_facts; lia).
    destruct (store_slot (e_offs s) b (u32 (len (e_stream s))) nb) as (o' & -> & Lo & So & Uo); [done..|].
    destruct (store_slot (e_bases s) b (e_prev s) nb) as (ba' & Eb & Lb & Sb & Ub); [done..|].
    destruct (store_slot (e_mins s) b t nb) as (mi' & Emi & Lmi & Smi & Umi); [done..|].
    destruct (store_slot (e_maxs s) b t nb) as (ma' & Ema & Lma & Sma & Uma); [done..|].
    rewrite bind_Ok, Eb, bind_Ok, Emi, bind_Ok, Ema, bind_Ok. eexists. split; [done|].
    split; [|done]. constructor; simpl; try done. intros k Hk Hkb.
    destruct (decide (k = b)) as [->|Hne].
    + assert (before b p = p) as Ebf.
      { unfold before. rewrite Hbp. apply take_ge. unfold len. lia. }
      exists t, t. simpl. rewrite So, Sb, Smi, Sma, Eu, Hpv, Ebf. split_and!; try done.
      intros i u Hi Ei. apply lookup_lt_Some in Hi. apply div_block in Ei; [|lia]. unfold len in *. lia.
    + destruct (Hc k) as (mn & mx & C); [done|unfold tsBlock in *; lia|].
      exists mn, mx. simpl. by rewrite Uo, Ub, Umi, Uma.
  - exists s. split; [done|]. split; [|done]. constructor; try done.
    intros k Hk Hkb. apply Hc; [done|].
    destruct (decide (tsBlock * k = len p)) as [E|]; [|lia]. exfalso. apply Hm.
    rewrite <- E, Z.mul_comm. apply Z_mod_mult.
Qed.

Lemma ts_step_inv nb p s t :
  enc_inv nb p (len p) s → e_stream s = ts_stream 0 p → e_prev s = last_ts 0 p →
  len (ts_stream 0 p) < 2 ^ 32 → len p < tsBlock * nb → is_i64 t → Forall is_i64 p →
  ∃ s', ts_step (len p) t s = Ok s' ∧ enc_inv nb (p ++ [t]) (len (p ++ [t])) s' ∧
        e_stream s' = ts_stream 0 (p ++ [t]) ∧ e_prev s' = last_ts 0 (p ++ [t]).
Proof.
  intros Hinv Hst Hpv Hlen Hnb Ht Hp. unfold ts_step.
  destruct (ts_open nb p s t) as (s1 & -> & [Ho Hb Hmi Hma Hc] & Hst1 & Hpv1); [done..|].
  rewrite bind_Ok. set (b := len p / tsBlock). assert (0 ≤ len p) by len_lia.
  pose proof (proj1 (div_block (len p) b ltac:(done)) eq_refl) as Hbb.
  assert (0 ≤ b < nb) as Hrange by (unfold tsBlock in *; lia).
  destruct (Hc b) as (mn & mx & C1 & C2 & C3 & C4 & C5 & C6 & C7); [lia|lia|].
  rewrite (index_Ok (e_mins s1) b mn), bind_Ok by (done || lia).
  assert (∃ mins, (if bool_decide (t < mn) then store (e_mins s1) b t else Ok (e_mins s1)) = Ok mins ∧
    len mins = nb ∧ mins !! Z.to_nat b = Some (Z.min mn t) ∧
    ∀ k, 0 ≤ k → k ≠ b → mins !! Z.to_nat k = e_mins s1 !! Z.to_nat k) as (mins & -> & Lmi & Smi & Umi).
  { case_bool_decide; [rewrite Z.min_r by lia; by apply store_slot|rewrite Z.min_l by lia; by eexists]. }
  rewrite bind_Ok, (index_Ok (e_maxs s1) b mx), bind_Ok by (done || lia).
  assert (∃ maxs, (if bool_decide (mx < t) then store (e_maxs s1) b t else Ok (e_maxs s1)) = Ok maxs ∧
    len maxs = nb ∧ maxs !! Z.to_nat b = Some (Z.max mx t) ∧
    ∀ k, 0 ≤ k → k ≠ b → maxs !! Z.to_nat k = e_maxs s1 !! Z.to_nat k) as (maxs & -> & Lma & Sma & Uma).
  { case_bool_decide; [rewrite Z.max_r by lia; by apply store_slot|rewrite Z.max_l by lia; by eexists]. }
  rewrite bind_Ok. eexists. split; [done|]. cbn [e_stream e_prev]. split_and!.
  - constructor; cbn [e_offs e_bases e_mins e_maxs]; try done. intros k Hk Hkb.
    rewrite len_app, len_cons in Hkb. change (len []) with 0 in Hkb.
    assert (before k (p ++ [t]) = before k p) as Ebf by (apply before_snoc; lia).
    destruct (decide (k = b)) as [->|Hne].
    + exists (Z.min mn t), (Z.max mx t). cbn [e_offs e_bases e_mins e_maxs]. rewrite Ebf.
      unfold is_i64 in *. split_and!; try done; try lia.
      intros i u Hi Ei. apply lookup_app_Some in Hi as [Hi|[Hi1 Hi]].
      * specialize (C7 i u Hi Ei). lia.
      * apply list_lookup_singleton_Some in Hi as [_ ->]. lia.
    + destruct (Hc k) as (mn' & mx' & D1 & D2 & D3 & D4 & D5 & D6 & D7); [done|lia|].
      exists mn', mx'. cbn [e_offs e_bases e_mins e_maxs]. rewrite Ebf, Umi, Uma by done.
      split_and!; try done. intros i u Hi Ei. apply lookup_app_Some in Hi as [Hi|[Hi1 Hi]]; [by eapply D7|].
      apply list_lookup_singleton_Some in Hi as [Hi _]. exfalso. apply Hne. subst b. rewrite <- Ei.
      f_equal. unfold len. lia.
  - rewrite ts_stream_app, Hst1. cbn [ts_stream]. rewrite app_nil_r, Hpv1. do 3 f_equal.
    case_bool_decide as Hpos; [done|].
    assert (p = []) as -> by (destruct p; [done|]; rewrite len_cons in Hpos; len_facts; lia). cbn [last_ts]. rewrite i64_small, Z.sub_0_r; [done|].
    by rewrite Z.sub_0_r.
  - by rewrite last_ts_snoc.
Qed.

Lemma ts_loop_inv nb ts : ∀ p s,
  enc_inv nb p (len p) s → e_stream s = ts_stream 0 p → e_prev s = last_ts 0 p →
  10 * len (p ++ ts) < 2 ^ 32 → len (p ++ ts) ≤ tsBlock * nb → Forall is_i64 (p ++ ts) →
  ∃ s', ts_loop ts (len p) s = Ok s' ∧ enc_inv nb (p ++ ts) (len (p ++ ts)) s' ∧
        e_stream s' = ts_stream 0 (p ++ ts).
Proof.
  induction ts as [|t ts IH]; intros p s Hinv Hst Hpv Hn Hnb Hi; cbn [ts_loop].
  { exists s. by rewrite app_nil_r. }
  apply Forall_app in Hi as Hi'. destruct Hi' as [Hp Hts]. apply Forall_cons_1 in Hts as [Ht _].
  rewrite len_app, len_cons in Hn, Hnb. pose proof (ts_stream_len 0 p). pose proof (len_nonneg ts).
  destruct (ts_step_inv nb p s t) as (s' & -> & H1 & H2 & H3); try done; [lia|lia|].
  rewrite bind_Ok. replace (p ++ t :: ts) with ((p ++ [t]) ++ ts) in * by by rewrite <- app_assoc.
  replace (len p + 1) with (len (p ++ [t])) by len_lia. apply IH; try done.
  all: rewrite !len_app, len_cons; len_nil; lia.
Qed.

(** ** The layout of an encoded column *)

Definition num_blocks (ts : list Z) : Z := (len ts + tsBlock - 1) / tsBlock.

Lemma num_blocks_spec ts k :
  ts ≠ [] → 0 ≤ k → tsBlock * k < len ts ↔ k < num_blocks ts.
Proof.
  intros _ Hk. unfold num_blocks, tsBlock. pose proof (Z_div_mod_eq_full (len ts + 512 - 1) 512).
  pose proof (Z.mod_pos_bound (len ts + 512 - 1) 512). lia.
Qed.

(** One checkpoint as the decoders read it. *)
Definition checkpoint_at (b : bytes) (ts : list Z) (k : Z) : Prop :=
  ∃ mn mx, let hdr := 8 + k * tsHdrStride in
    get32 b hdr = Ok (len (ts_stream 0 (before k ts))) ∧
    geti64 b (hdr + 4) = Ok (last_ts 0 (before k ts)) ∧
    geti64 b (hdr + 12) = Ok mn ∧ geti64 b (hdr + 20) = Ok mx ∧
    ∀ i t, ts !! i = Some t → Z.of_nat i / tsBlock = k → mn ≤ t ≤ mx.

Record ts_layout (b : bytes) (ts : list Z) : Prop := {
  tl_bytes : is_bytes b;
  tl_len : len b = 8 + num_blocks ts * tsHdrStride + len (ts_stream 0 ts);
  tl_nb : get32 b 0 = Ok (num_blocks ts);
  tl_bs : get32 b 4 = Ok tsBlock;
  tl_stream : slice_from b (8 + num_blocks ts * tsHdrStride) = Ok (ts_stream 0 ts);
  tl_check k : 0 ≤ k < num_blocks ts → checkpoint_at b ts k }.

Definition hdr_bytes (off base mn mx : Z) : bytes := le32 off ++ le64 base ++ le64 mn ++ le64 mx.
Lemma len_hdr_bytes off base mn mx : len (hdr_bytes off base mn mx) = tsHdrStride.
Proof. unfold hdr_bytes, tsHdrStride. len_lia. Qed.

Lemma ts_headers_spec n : ∀ k s p,
  0 ≤ k → (∀ j, k ≤ j < k + Z.of_nat n → checkpoint_ok p j s) →
  ∃ hdr, ts_headers n k s = Ok hdr ∧ len hdr = tsHdrStride * Z.of_nat n ∧ is_bytes hdr ∧
    ∀ j, k ≤ j < k + Z.of_nat n → ∃ off base mn mx,
      e_offs s !! Z.to_nat j = Some off ∧ e_bases s !! Z.to_nat j = Some base ∧
      e_mins s !! Z.to_nat j = Some mn ∧ e_maxs s !! Z.to_nat j = Some mx ∧
      at_off hdr ((j - k) * tsHdrStride) (hdr_bytes off base mn mx).
Proof.
  induction n as [|n IH]; intros k s p Hk Hc; cbn [ts_headers].
  { exists []. split_and!; [done|done|constructor|lia]. }
  destruct (Hc k) as (mn & mx & C1 & C2 & C3 & C4 & _); [lia|].
  rewrite (index_Ok (e_offs s) k _ Hk C1), bind_Ok, (index_Ok (e_bases s) k _ Hk C2), bind_Ok.
  rewrite (index_Ok (e_mins s) k _ Hk C3), bind_Ok, (index_Ok (e_maxs s) k _ Hk C4), bind_Ok.
  destruct (IH (k + 1) s p) as (hdr & -> & Hlen & Hby & Hat); [lia|intros; apply Hc; lia|].
  rewrite bind_Ok. set (h := hdr_bytes (len (ts_stream 0 (before k p))) (last_ts 0 (before k p)) mn mx).
  exists (h ++ hdr). pose proof (len_hdr_bytes (len (ts_stream 0 (before k p))) (last_ts 0 (before k p)) mn mx) as Eh.
  fold h in Eh. split_and!.
  - done.
  - rewrite len_app, Eh, Hlen. lia.
  - unfold h, hdr_bytes. bytes_tac.
  - intros j Hj. destruct (decide (j = k)) as [->|].
    + do 4 eexists. split_and!; [done..|]. rewrite Z.sub_diag. exists [], hdr. done.
    + destruct (Hat j) as (o & ba & m1 & m2 & A1 & A2 & A3 & A4 & A5); [lia|].
      do 4 eexists. split_and!; [done..|].
      replace ((j - k) * tsHdrStride) with (len h + (j - (k + 1)) * tsHdrStride) by (rewrite Eh; lia).
      by apply at_off_app_r.
Qed.

Lemma geti64_at b off v : is_i64 v → at_off b off (le64 v) → geti64 b off = Ok v.
Proof.
  intros Hv Ha. unfold geti64. rewrite (get64_at _ _ v) by done. rewrite bind_Ok, i64_u64.
  by rewrite i64_small.
Qed.

Lemma last_ts_i64 prev ts : is_i64 prev → Forall is_i64 ts → is_i64 (last_ts prev ts).
Proof. intros Hp H. revert prev Hp. by induction H; intros; simpl; auto. Qed.

Lemma hdr_reads b off o ba mn mx :
  is_i64 ba → is_i64 mn → is_i64 mx → is_u32 o → at_off b off (hdr_bytes o ba mn mx) →
  get32 b off = Ok o ∧ geti64 b (off + 4) = Ok ba ∧ geti64 b (off + 12) = Ok mn ∧
  geti64 b (off + 20) = Ok mx.
Proof.
  intros H1 H2 H3 Ho Ha. unfold hdr_bytes in Ha.
  apply at_off_app in Ha as [A1 Ha]. apply at_off_app in Ha as [A2 Ha].
  apply at_off_app in Ha as [A3 A4]. rewrite !len_le32, ?len_le64 in *.
  replace (off + 4 + 8) with (off + 12) in * by lia. replace (off + 12 + 8) with (off + 20) in * by lia.
  split_and!; [|by apply geti64_at..]. rewrite (get32_at _ _ o) by done. by rewrite u32_small.
Qed.

(** Encoding never panics, and the column it writes has the layout the decoders
    read. The row bound keeps the stream's offsets inside 32 bits; a group has at
    most [MaxRows] = 2^17 rows. *)
Lemma encodeTimestamps_layout ts :
  ts ≠ [] → len ts ≤ 2 ^ 28 → Forall is_i64 ts →
  ∃ b, encodeTimestamps ts = Ok b ∧ ts_layout b ts.
Proof.
  intros Hne Hn Hi. unfold encodeTimestamps.
  assert (0 < len ts) by (destruct ts; [done|]; rewrite len_cons; len_facts; lia).
  rewrite bool_decide_eq_false_2 by lia. fold (num_blocks ts). set (nb := num_blocks ts).
  assert (0 < nb) as Hnb0 by (apply num_blocks_spec; (done || lia)).
  assert (len ts ≤ tsBlock * nb) as Hnb.
  { destruct (decide (tsBlock * nb < len ts)) as [Hlt|]; [|lia].
    apply num_blocks_spec in Hlt; [|done|lia]. subst nb. lia. }
  assert (nb ≤ 2 ^ 28) by (subst nb; unfold num_blocks, tsBlock; apply Z.div_le_upper_bound; lia).
  pose proof (ts_stream_len 0 ts) as Hsl.
  set (zeros := replicate (Z.to_nat nb) 0).
  assert (len zeros = nb) as Hz by (subst zeros; rewrite len_replicate; lia).
  destruct (ts_loop_inv nb ts [] (TsEnc zeros zeros zeros zeros [] 0)) as (s & Es & Hinv & Hst);
    [|done|done|simpl app; lia|simpl app; lia|done|].
  { constructor; try done. intros k Hk Hlt. change (len []) with 0 in Hlt. unfold tsBlock in Hlt. lia. }
  simpl app in Hinv, Hst. change (len []) with 0 in Es. rewrite Es, bind_Ok. clear Es.
  assert (∀ j, 0 ≤ j < 0 + Z.of_nat (Z.to_nat nb) → checkpoint_ok ts j s) as Hck.
  { intros j Hj. apply Hinv; [lia|]. apply num_blocks_spec; [done|lia|subst nb; lia]. }
  destruct (ts_headers_spec (Z.to_nat nb) 0 s ts) as (hdr & -> & Hhl & Hhb & Hat); [lia|done|].
  rewrite bind_Ok, Hst. eexists. split; [done|]. rewrite Z2Nat.id in * by lia.
  set (str := ts_stream 0 ts). set (b := le32 nb ++ le32 tsBlock ++ hdr ++ str).
  pose proof (at_off_refl b) as A. unfold b at 2 in A.
  apply at_off_app in A as [A1 A]. apply at_off_app in A as [A2 A]. apply at_off_app in A as [A3 A4].
  rewrite !len_le32 in *. rewrite Hhl in A4. change (0 + 4 + 4) with 8 in *.
  constructor.
  - unfold b. bytes_tac. apply ts_stream_bytes.
  - unfold b. rewrite !len_app, !len_le32, Hhl. fold nb. unfold tsHdrStride, str. lia.
  - fold nb. rewrite (get32_at _ _ nb) by done. rewrite u32_small; [done|unfold is_digit; lia].
  - rewrite (get32_at _ _ tsBlock) by done. done.
  - fold nb. unfold slice_from. apply at_off_slice.
    + by replace (8 + nb * tsHdrStride) with (8 + tsHdrStride * nb) by lia.
    + unfold b. rewrite !len_app, !len_le32, Hhl. fold nb. unfold tsHdrStride, str. lia.
  - intros k Hk. fold nb in Hk. destruct (Hck k) as (mn & mx & C1 & C2 & C3 & C4 & C5 & C6 & C7); [lia|].
    destruct (Hat k) as (o & ba & m1 & m2 & D1 & D2 & D3 & D4 & D5); [lia|].
    rewrite D1 in C1. rewrite D2 in C2. rewrite D3 in C3. rewrite D4 in C4. simplify_eq.
    pose proof (at_off_trans _ _ _ _ _ A3 D5) as D6. rewrite Z.sub_0_r in D6.
    assert (Forall is_i64 (before k ts)) as Hbi by (by apply Forall_take).
    pose proof (ts_stream_len 0 (before k ts)) as Hbl.
    assert (len (before k ts) ≤ len ts) by (unfold before; rewrite len_take; lia).
    apply hdr_reads in D6 as (R1 & R2 & R3 & R4); [|by apply last_ts_i64|done|done|
      unfold is_digit; len_facts; lia].
    exists mn, mx. done.
Qed.

(** ** Reading a column back *)

Lemma take_S_snoc {A} (l : list A) i x : l !! i = Some x → take (S i) l = take i l ++ [x].
Proof. apply take_S_r. Qed.

(** The decoder's position and running timestamp before row [i]. *)
Definition ts_pos (ts : list Z) (i : nat) : Z := len (ts_stream 0 (take i ts)).
Definition ts_prev (ts : list Z) (i : nat) : Z := last_ts 0 (take i ts).

Lemma ts_next_row ts i t :
  Forall is_i64 ts → ts !! i = Some t →
  ts_next (ts_stream 0 ts) (ts_pos ts i) (ts_prev ts i) = Ok (Some (ts_pos ts (S i), t)) ∧
  ts_prev ts (S i) = t.
Proof.
  intros Hi Ht. unfold ts_pos, ts_prev. rewrite (take_S_snoc _ _ t) by done.
  split; [|apply last_ts_snoc]. eapply ts_next_spec; [| |done].
  - by eapply Forall_lookup_1.
  - f_equal. symmetry. by apply take_drop_middle.
Qed.

Lemma ts_at_loop_spec ts : ∀ n i,
  Forall is_i64 ts → (i + n ≤ length ts)%nat →
  ts_at_loop n (ts_stream 0 ts) (ts_pos ts i) (ts_prev ts i) = Ok (ts_prev ts (i + n)).
Proof.
  induction n as [|n IH]; intros i Hi Hn; cbn [ts_at_loop]; [by rewrite Nat.add_0_r|].
  destruct (lookup_lt_is_Some_2 ts i) as [t Ht]; [lia|].
  destruct (ts_next_row ts i t Hi Ht) as [-> Ep]. rewrite bind_Ok.
  rewrite <- Ep at 1. rewrite IH by (done || lia). do 2 f_equal. lia.
Qed.

Lemma go_div_block i : 0 ≤ i → go_div i tsBlock = Ok (i / tsBlock).
Proof. intros. unfold go_div. rewrite bool_decide_eq_false_2 by done. f_equal. by apply Z.quot_div_nonneg. Qed.

Lemma ts_block_of ts row :
  0 ≤ row < len ts → ts ≠ [] →
  0 ≤ row / tsBlock < num_blocks ts ∧ tsBlock * (row / tsBlock) ≤ row.
Proof.
  intros Hr Hne. pose proof (proj1 (div_block row _ ltac:(lia)) eq_refl) as Hb.
  assert (0 ≤ row / tsBlock) by (apply Z.div_pos; unfold tsBlock; lia).
  split; [split; [done|]|lia]. apply num_blocks_spec; (done || lia).
Qed.

Lemma decodeTsAt_spec ts row t :
  len ts ≤ 2 ^ 28 → Forall is_i64 ts → ts !! row = Some t →
  ∃ b, encodeTimestamps ts = Ok b ∧ decodeTsAt b (Z.of_nat row) = Ok t.
Proof.
  intros Hn Hi Ht. pose proof (lookup_lt_Some _ _ _ Ht) as Hlt.
  assert (ts ≠ []) as Hne by (by intros ->).
  destruct (encodeTimestamps_layout ts) as (b & E & L); [done..|].
  exists b. split; [done|]. unfold decodeTsAt.
  rewrite (tl_nb _ _ L), bind_Ok, (tl_bs _ _ L), bind_Ok, go_div_block, bind_Ok by lia.
  set (k := Z.of_nat row / tsBlock). destruct (ts_block_of ts (Z.of_nat row)) as [Hk Hkr];
    [unfold len; lia|done|]. fold k in Hk, Hkr.
  rewrite bool_decide_eq_false_2 by lia.
  destruct (tl_check _ _ L k Hk) as (mn & mx & C1 & C2 & _).
  rewrite C1, bind_Ok, C2, bind_Ok, (tl_stream _ _ L), bind_Ok.
  pose proof (ts_at_loop_spec ts (Z.to_nat (Z.of_nat row - k * tsBlock + 1)) (Z.to_nat (tsBlock * k)) Hi) as H.
  unfold ts_pos in H. change (ts_prev ts (Z.to_nat (tsBlock * k))) with (last_ts 0 (before k ts)) in H.
  fold (before k ts) in H. rewrite H by (unfold tsBlock in *; lia).
  replace (Z.to_nat _ + Z.to_nat _)%nat with (S row) by (unfold tsBlock in *; lia).
  f_equal. by apply ts_next_row.
Qed.

(** A point read seeks to the row's checkpoint and returns that row's
    timestamp. *)
Theorem decodeTsAt_encode ts row t :
  len ts ≤ 2 ^ 28 → Forall is_i64 ts → ts !! row = Some t →
  ∃ b, encodeTimestamps ts = Ok b ∧ decodeTsAt b (Z.of_nat row) = Ok t.
Proof. apply decodeTsAt_spec. Qed.

(** Rows written by the range loop. *)
Lemma ts_range_loop_spec ts lo : ∀ n i out,
  Forall is_i64 ts → (i + n ≤ length ts)%nat → len out + Z.of_nat lo = Z.of_nat (i + n) →
  ∃ out', ts_range_loop n (Z.of_nat i) (Z.of_nat lo) (ts_stream 0 ts) (ts_pos ts i) (ts_prev ts i) out
          = Ok (Z.of_nat (i + n), out') ∧ length out' = length out ∧
    (∀ j, (i ≤ lo + j)%nat → (j < length out)%nat → out' !! j = ts !! (lo + j)%nat) ∧
    (∀ j, (lo + j < i)%nat → out' !! j = out !! j).
Proof.
  induction n as [|n IH]; intros i out Hi Hn Hl; cbn [ts_range_loop].
  { exists out. rewrite Nat.add_0_r in *. split_and!; try done. unfold len in Hl. intros. lia. }
  destruct (lookup_lt_is_Some_2 ts i) as [t Ht]; [lia|].
  destruct (ts_next_row ts i t Hi Ht) as [-> Ep]. rewrite bind_Ok.
  set (out1 := if decide (lo ≤ i)%nat then <[(i - lo)%nat := t]> out else out).
  assert ((if bool_decide (Z.of_nat lo ≤ Z.of_nat i) then store out (Z.of_nat i - Z.of_nat lo) t else Ok out)
          = Ok out1) as ->.
  { subst out1. case_decide; [rewrite bool_decide_eq_true_2 by lia|by rewrite bool_decide_eq_false_2 by lia].
    rewrite store_Ok by lia. do 2 f_equal. lia. }
  rewrite bind_Ok. assert (length out1 = length out) as El by (subst out1; case_decide; by rewrite ?length_insert).
  replace (Z.of_nat i + 1) with (Z.of_nat (S i)) by lia.
  destruct (IH (S i) out1) as (out' & E' & Hl' & Hin & Hout); [done|lia|unfold len in *; lia|].
  rewrite Ep in E'. exists out'. rewrite E'. split_and!.
  - do 2 f_equal. lia.
  - congruence.
  - intros j Hj1 Hj2. destruct (decide (S i ≤ lo + j)%nat); [apply Hin; lia|].
    rewrite Hout by lia. replace (lo + j)%nat with i by lia. rewrite Ht. subst out1.
    rewrite decide_True by lia. replace j with (i - lo)%nat by lia. apply list_lookup_insert_eq. lia.
  - intros j Hj. rewrite Hout by lia. subst out1. case_decide; [|done]. apply list_lookup_insert_ne. lia.
Qed.

Lemma decodeTsRangeInto_spec ts lo hi dst :
  len ts ≤ 2 ^ 28 → Forall is_i64 ts → (lo < hi ≤ length ts)%nat →
  ∃ b, encodeTimestamps ts = Ok b ∧
       decodeTsRangeInto dst b (Z.of_nat lo) (Z.of_nat hi) = Ok (take (hi - lo) (drop lo ts)).
Proof.
  intros Hn Hi Hr. assert (ts ≠ []) as Hne by (intros ->; simpl in *; lia).
  destruct (encodeTimestamps_layout ts) as (b & E & L); [done..|].
  exists b. split; [done|]. unfold decodeTsRangeInto.
  assert (0 < num_blocks ts) by (apply num_blocks_spec; [done..|unfold len; lia]).
  rewrite bool_decide_eq_false_2.
  2:{ rewrite (tl_len _ _ L). unfold tsHdrStride. len_facts. lia. }
  rewrite (tl_nb _ _ L), bind_Ok, (tl_bs _ _ L), bind_Ok, (tl_stream _ _ L), bind_Ok.
  rewrite go_div_block, bind_Ok by lia.
  set (k := Z.of_nat lo / tsBlock). destruct (ts_block_of ts (Z.of_nat lo)) as [Hk Hkr];
    [unfold len; lia|done|]. fold k in Hk, Hkr.
  destruct (tl_check _ _ L k Hk) as (mn & mx & C1 & C2 & _). rewrite C2, bind_Ok, C1, bind_Ok.
  set (out := if bool_decide _ then _ else _).
  assert (length out = hi - lo)%nat as Hol.
  { subst out. case_bool_decide; [rewrite length_replicate|rewrite length_take; unfold len in *]; lia. }
  assert (tsBlock * k ≤ Z.of_nat lo) by lia. set (i0 := Z.to_nat (tsBlock * k)).
  assert (Z.of_nat i0 = tsBlock * k) as Hi0 by (unfold i0, tsBlock in *; lia).
  destruct (ts_range_loop_spec ts lo (hi - i0) i0 out) as (out' & Eo & Hl & Hin & _);
    [done|lia|unfold len; lia|].
  rewrite (Z.mul_comm k tsBlock).
  replace (Z.to_nat (Z.of_nat hi - tsBlock * k)) with (hi - i0)%nat by lia.
  rewrite <- Hi0. unfold ts_pos, ts_prev in Eo. unfold before. fold i0. rewrite Eo, bind_Ok.
  rewrite bool_decide_eq_false_2 by lia. f_equal. apply list_eq_same_length with (hi - lo)%nat.
  - rewrite length_take, length_drop. lia.
  - lia.
  - intros j x y Hj Hx Hy. rewrite (Hin j) in Hx by lia.
    rewrite lookup_take_lt, lookup_drop in Hy by lia. congruence.
Qed.

(** a range read returns rows [lo, hi) of the column, whatever the caller's
    buffer held. *)
Theorem decodeTsRangeInto_encode ts lo hi dst :
  len ts ≤ 2 ^ 28 → Forall is_i64 ts → (lo < hi ≤ length ts)%nat →
  ∃ b, encodeTimestamps ts = Ok b ∧
       decodeTsRangeInto dst b (Z.of_nat lo) (Z.of_nat hi) = Ok (take (hi - lo) (drop lo ts)).
Proof. apply decodeTsRangeInto_spec. Qed.

(** *** The full decode *)

Fixpoint deltas (prev : Z) (ts : list Z) : list Z :=
  match ts with [] => [] | t :: ts' => zigzag (i64 (t - prev)) :: deltas t ts' end.

Lemma ts_stream_deltas prev ts : ts_stream prev ts = List.flat_map put_uvarint (deltas prev ts).
Proof. revert prev. induction ts as [|t ts IH]; intros prev; simpl; [done|]. by rewrite IH. Qed.
Lemma deltas_u64 prev ts : Forall is_u64 (deltas prev ts).
Proof.
  revert prev. induction ts as [|t ts IH]; intros prev; simpl; constructor; [|apply IH].
  apply zigzag_u64, i64_range.
Qed.
Lemma length_deltas prev ts : length (deltas prev ts) = length ts.
Proof. revert prev. induction ts as [|t ts IH]; intros prev; simpl; [done|]. by rewrite IH. Qed.
Lemma prefix_sum_deltas prev ts : Forall is_i64 ts → prefix_sum prev (deltas prev ts) = ts.
Proof.
  intros H. revert prev. induction H as [|t ts Ht Hts IH]; intros prev; cbn [deltas prefix_sum]; [done|].
  rewrite unzigzag_zigzag by apply i64_range. rewrite (Z.add_comm prev), i64_add_l.
  replace (t - prev + prev) with t by lia. rewrite (i64_small t) by done. by rewrite IH.
Qed.

Section full_proofs.
Context {K : Simd} {KL : SimdLaws K}.
Lemma decodeTimestamps_spec ts :
  len ts ≤ 2 ^ 28 → Forall is_i64 ts →
  ∃ b, encodeTimestamps ts = Ok b ∧ decodeTimestamps b (len ts) = Ok ts.
Proof.
  intros Hn Hi. destruct (decide (ts = [])) as [->|Hne]; [by exists []|].
  destruct (encodeTimestamps_layout ts) as (b & E & L); [done..|]. exists b. split; [done|].
  assert (0 < len ts) by (destruct ts; [done|]; rewrite len_cons; len_facts; lia).
  assert (0 < num_blocks ts) by (apply num_blocks_spec; (done || lia)).
  unfold decodeTimestamps, decodeInto, tsStream, tsHeaderLen.
  rewrite bool_decide_eq_false_2 by lia. rewrite bool_decide_eq_false_2.
  2:{ rewrite (tl_len _ _ L). unfold tsHdrStride. len_facts. lia. }
  rewrite (tl_nb _ _ L), bind_Ok, bind_Ok, (tl_stream _ _ L), bind_Ok. f_equal.
  unfold len. rewrite Nat2Z.id, ts_stream_deltas, <- (length_deltas 0 ts).
  rewrite varint_stream by apply deltas_u64. by apply prefix_sum_deltas.
Qed.

(** Decoding a whole timestamp column returns the timestamps that were
    encoded, for every int64 sequence, deltas that wrap included. *)
Theorem decodeTimestamps_encode ts :
  len ts ≤ 2 ^ 28 → Forall is_i64 ts →
  ∃ b, encodeTimestamps ts = Ok b ∧ decodeTimestamps b (len ts) = Ok ts.
Proof. apply decodeTimestamps_spec. Qed.
End full_proofs.

(** *** The window filters *)

Definition in_window (from to t : Z) : bool := bool_decide (from ≤ t ∧ t < to).

(** Rows [< j] hold [f ts], the rest still [false]. *)
Definition mask_upto (f : Z → bool) (ts : list Z) (j : nat) (out : list bool) : Prop :=
  length out = length ts ∧
  ∀ i t, ts !! i = Some t → out !! i = Some (if decide (i < j)%nat then f t else false).

Lemma mask_upto_store f ts j t out :
  ts !! j = Some t → mask_upto f ts j out →
  ∃ out', store out (Z.of_nat j) (f t) = Ok out' ∧ mask_upto f ts (S j) out'.
Proof.
  intros Ht [Hl Hm]. pose proof (lookup_lt_Some _ _ _ Ht). eexists.
  split; [apply store_Ok; unfold len; lia|]. rewrite Nat2Z.id. split; [by rewrite length_insert|].
  intros i u Hu. destruct (decide (i = j)) as [->|].
  - rewrite list_lookup_insert_eq by lia. rewrite decide_True by lia. congruence.
  - rewrite list_lookup_insert_ne by done. rewrite (Hm i u Hu). f_equal.
    destruct (decide (i < j)%nat), (decide (i < S j)%nat); (done || lia).
Qed.

Lemma mask_loop_spec ts from to : ∀ n i out,
  Forall is_i64 ts → (i + n ≤ length ts)%nat → mask_upto (in_window from to) ts i out →
  ∃ out', mask_loop n (Z.of_nat i) (ts_stream 0 ts) (ts_pos ts i) (ts_prev ts i) from to out = Ok out' ∧
          mask_upto (in_window from to) ts (i + n) out'.
Proof.
  induction n as [|n IH]; intros i out Hi Hn Hm; cbn [mask_loop].
  { exists out. by rewrite Nat.add_0_r. }
  destruct (lookup_lt_is_Some_2 ts i) as [t Ht]; [lia|].
  destruct (ts_next_row ts i t Hi Ht) as [-> Ep]. rewrite bind_Ok.
  destruct (mask_upto_store _ _ _ _ _ Ht Hm) as (out1 & E1 & Hm1). unfold in_window in E1.
  rewrite E1, bind_Ok. replace (Z.of_nat i + 1) with (Z.of_nat (S i)) by lia.
  destruct (IH (S i) out1) as (out' & E' & Hm'); [done|lia|done|]. rewrite Ep in E'.
  exists out'. split; [done|]. by replace (i + S n)%nat with (S i + n)%nat by lia.
Qed.

Lemma fill_loop_spec ts f : ∀ n i out,
  (i + n ≤ length ts)%nat → (∀ j t, (i ≤ j < i + n)%nat → ts !! j = Some t → f t = true) →
  mask_upto f ts i out →
  ∃ out', fill_loop n (Z.of_nat i) out = Ok out' ∧ mask_upto f ts (i + n) out'.
Proof.
  induction n as [|n IH]; intros i out Hn Hf Hm; cbn [fill_loop].
  { exists out. by rewrite Nat.add_0_r. }
  destruct (lookup_lt_is_Some_2 ts i) as [t Ht]; [lia|].
  destruct (mask_upto_store _ _ _ _ _ Ht Hm) as (out1 & E1 & Hm1). rewrite (Hf i t) in E1 by (done || lia).
  rewrite E1, bind_Ok. replace (Z.of_nat i + 1) with (Z.of_nat (S i)) by lia.
  destruct (IH (S i) out1) as (out' & E' & Hm'); [lia|intros j u Hj; apply Hf; lia|done|].
  exists out'. split; [done|]. by replace (i + S n)%nat with (S i + n)%nat by lia.
Qed.

(** A block whose rows all miss the window is already right. *)
Lemma mask_skip ts f i j out :
  (i ≤ j)%nat → (∀ k t, (i ≤ k < j)%nat → ts !! k = Some t → f t = false) →
  mask_upto f ts i out → mask_upto f ts j out.
Proof.
  intros Hij Hf [Hl Hm]. split; [done|]. intros k t Ht. rewrite (Hm k t Ht). f_equal.
  destruct (decide (k < i)%nat), (decide (k < j)%nat); try (done || lia). symmetry. apply (Hf k); (done || lia).
Qed.

Lemma range_step_spec b ts from to k out :
  ts_layout b ts → Forall is_i64 ts → 0 ≤ k < num_blocks ts → ts ≠ [] →
  mask_upto (in_window from to) ts (Z.to_nat (Z.min (tsBlock * k) (len ts))) out →
  ∃ out', range_step b (ts_stream 0 ts) (len ts) tsBlock from to k out = Ok out' ∧
          mask_upto (in_window from to) ts (Z.to_nat (Z.min (tsBlock * (k + 1)) (len ts))) out'.
Proof.
  intros L Hi Hk Hne Hm. unfold range_step.
  destruct (tl_check _ _ L k Hk) as (mn & mx & C1 & C2 & C3 & C4 & Cb).
  rewrite C3, bind_Ok, C4, bind_Ok.
  assert (tsBlock * k < len ts) as Hlt by (apply num_blocks_spec; (done || lia)).
  rewrite Z.min_l in Hm by lia. set (lo := Z.to_nat (tsBlock * k)) in *.
  assert (Z.of_nat lo = tsBlock * k) as Hlo by (unfold lo, tsBlock in *; lia).
  replace (tsBlock * (k + 1)) with (k * tsBlock + tsBlock) by lia.
  set (hi := Z.min (k * tsBlock + tsBlock) (len ts)).
  assert (∀ j t, (lo ≤ j < Z.to_nat hi)%nat → ts !! j = Some t → mn ≤ t ≤ mx) as Hb.
  { intros j t Hj Ht. apply (Cb j t Ht). apply div_block; [lia|]. unfold hi in Hj. lia. }
  case_bool_decide as Hskip.
  { exists out. split; [done|]. eapply mask_skip; [|  |done].
    - unfold hi, tsBlock in *. lia.
    - intros j t Hj Ht. specialize (Hb j t Hj Ht). unfold in_window. apply bool_decide_eq_false_2. lia. }
  rewrite (Z.mul_comm k tsBlock), <- Hlo.
  replace (Z.to_nat (hi - Z.of_nat lo)) with (Z.to_nat hi - lo)%nat by lia.
  assert (lo + (Z.to_nat hi - lo) = Z.to_nat hi)%nat as Eh by (unfold hi, tsBlock in *; lia).
  assert (Z.to_nat hi ≤ length ts)%nat by (unfold hi, len; lia).
  case_bool_decide as Hin.
  - destruct (fill_loop_spec ts (in_window from to) (Z.to_nat hi - lo) lo out) as (out' & E & Hm'); [lia| |done|].
    { intros j t Hj Ht. specialize (Hb j t ltac:(lia) Ht). unfold in_window. apply bool_decide_eq_true_2. lia. }
    rewrite Eh in Hm'. by exists out'.
  - rewrite C2, bind_Ok, C1, bind_Ok.
    destruct (mask_loop_spec ts from to (Z.to_nat hi - lo) lo out) as (out' & E & Hm'); [done|lia|done|].
    rewrite Eh in Hm'. by exists out'.
Qed.

Lemma decodeTimeRangeInto_spec ts from to buf :
  ts ≠ [] → len ts ≤ 2 ^ 28 → Forall is_i64 ts →
  ∃ b, encodeTimestamps ts = Ok b ∧
       decodeTimeRangeInto b (len ts) from to buf = Ok (in_window from to <$> ts).
Proof.
  intros Hne Hn Hi. destruct (encodeTimestamps_layout ts) as (b & E & L); [done..|].
  exists b. split; [done|]. unfold decodeTimeRangeInto.
  assert (0 < len ts) by (destruct ts; [done|]; rewrite len_cons; len_facts; lia).
  assert (0 < num_blocks ts) by (apply num_blocks_spec; (done || lia)).
  rewrite (bool_decide_eq_false_2 (len b < 8)).
  2:{ rewrite (tl_len _ _ L). unfold tsHdrStride. len_facts. lia. }
  rewrite (tl_nb _ _ L), bind_Ok, (tl_bs _ _ L), bind_Ok, (tl_stream _ _ L), bind_Ok.
  set (out0 := if bool_decide _ then _ else _).
  assert (out0 = replicate (length ts) false) as ->.
  { subst out0. case_bool_decide; [unfold len; by rewrite Nat2Z.id|].
    rewrite (const_fmap _ _ false) by done. f_equal. rewrite length_take. unfold len in *. lia. }
  destruct (forM_inv (λ k out, mask_upto (in_window from to) ts
      (Z.to_nat (Z.min (tsBlock * k) (len ts))) out)
    (Z.to_nat (num_blocks ts)) 0 (range_step b (ts_stream 0 ts) (len ts) tsBlock from to)
    (replicate (length ts) false)) as (out' & -> & [Hl Hm]).
  - split; [by rewrite length_replicate|]. intros i t Ht. rewrite lookup_replicate_2 by (by eapply lookup_lt_Some).
    by rewrite decide_False by lia.
  - intros k out Hk. apply range_step_spec; (done || lia).
  - f_equal. apply list_eq_same_length with (length ts); [by rewrite length_fmap|done|].
    intros i x y Hii Hx Hy. rewrite list_lookup_fmap in Hy.
    destruct (ts !! i) as [t|] eqn:Ht; [|done]. rewrite (Hm i t Ht) in Hx.
    assert (len ts ≤ tsBlock * num_blocks ts) as Hnb.
    { destruct (decide (tsBlock * num_blocks ts < len ts)) as [Hlt|]; [|lia].
      apply num_blocks_spec in Hlt; [|done|lia]. lia. }
    rewrite decide_True in Hx; [simpl in Hy; congruence|].
    rewrite Z2Nat.id, Z.add_0_l, Z.min_r by lia. unfold len. lia.
Qed.

(** The block-skipping time filter marks exactly the rows whose timestamp
    lies in [from, to), whatever the caller's buffer held. *)
Theorem decodeTimeRangeInto_encode ts from to buf :
  ts ≠ [] → len ts ≤ 2 ^ 28 → Forall is_i64 ts →
  ∃ b, encodeTimestamps ts = Ok b ∧
       decodeTimeRangeInto b (len ts) from to buf = Ok (in_window from to <$> ts).
Proof. apply decodeTimeRangeInto_spec. Qed.

(** Every row of a block [< k] that meets the window lies in the span. *)
Definition span_ok (from to : Z) (ts : list Z) (k : Z) (s : Z * Z) : Prop :=
  0 ≤ s.1 ∧ 0 ≤ s.2 ≤ len ts ∧
  ∀ i t, ts !! i = Some t → Z.of_nat i / tsBlock < k → from ≤ t < to → s.1 ≤ Z.of_nat i < s.2.

Lemma span_step_spec b ts from to k s :
  ts_layout b ts → 0 ≤ k < num_blocks ts → ts ≠ [] → span_ok from to ts k s →
  ∃ s', span_step b (len ts) tsBlock from to k s = Ok s' ∧ span_ok from to ts (k + 1) s'.
Proof.
  intros L Hk Hne. destruct s as [lo hi]. intros (Hlo & Hhi & Hs). simpl in Hlo, Hhi, Hs. unfold span_step.
  destruct (tl_check _ _ L k Hk) as (mn & mx & C1 & C2 & C3 & C4 & Cb). rewrite C3, bind_Ok, C4, bind_Ok.
  assert (∀ i t, ts !! i = Some t → Z.of_nat i / tsBlock < k + 1 →
    Z.of_nat i / tsBlock < k ∨ (k * tsBlock ≤ Z.of_nat i < Z.min (k * tsBlock + tsBlock) (len ts) ∧ mn ≤ t ≤ mx)) as Hc.
  { intros i t Ht Hi. destruct (decide (Z.of_nat i / tsBlock = k)) as [E|]; [right|left; lia].
    split; [|by eapply Cb]. apply div_block in E; [|lia]. apply lookup_lt_Some in Ht. unfold len. lia. }
  case_bool_decide as Hskip; (eexists; split; [done|]).
  - unfold span_ok; simpl. split_and!; try lia. intros i t Ht Hi Hw. destruct (Hc i t Ht Hi) as [?|[_ ?]]; [by apply (Hs i t)|lia].
  - assert (0 ≤ k * tsBlock) by (unfold tsBlock; lia).
    unfold span_ok; simpl. split_and!; [case_bool_decide; lia|case_bool_decide; lia|
      case_bool_decide; lia|].
    intros i t Ht Hi Hw. destruct (Hc i t Ht Hi) as [Hl|[Hl _]].
    + specialize (Hs i t Ht Hl Hw). repeat case_bool_decide; lia.
    + repeat case_bool_decide; lia.
Qed.

Lemma timeWindowSpan_spec ts from to :
  ts ≠ [] → len ts ≤ 2 ^ 28 → Forall is_i64 ts →
  ∃ b lo hi, encodeTimestamps ts = Ok b ∧ timeWindowSpan b (len ts) from to = Ok (lo, hi) ∧
    0 ≤ lo ≤ hi ∧ hi ≤ len ts ∧
    ∀ i t, ts !! i = Some t → from ≤ t < to → lo ≤ Z.of_nat i < hi.
Proof.
  intros Hne Hn Hi. destruct (encodeTimestamps_layout ts) as (b & E & L); [done..|].
  exists b. unfold timeWindowSpan.
  assert (0 < len ts) by (destruct ts; [done|]; rewrite len_cons; len_facts; lia).
  assert (0 < num_blocks ts) by (apply num_blocks_spec; (done || lia)).
  rewrite bool_decide_eq_false_2.
  2:{ rewrite (tl_len _ _ L). unfold tsHdrStride. len_facts. lia. }
  rewrite (tl_nb _ _ L), bind_Ok, (tl_bs _ _ L), bind_Ok.
  destruct (forM_inv (span_ok from to ts) (Z.to_nat (num_blocks ts)) 0
    (span_step b (len ts) tsBlock from to) (len ts, 0)) as ([lo hi] & -> & (Hlo & Hhi & Hs)).
  - unfold span_ok; simpl. split_and!; try lia. intros i t _ Hneg. pose proof (Z.div_pos (Z.of_nat i) tsBlock).
    unfold tsBlock in *. lia.
  - intros k s Hk. apply span_step_spec; (done || lia).
  - simpl in Hlo, Hhi, Hs. rewrite bind_Ok. rewrite Z2Nat.id, Z.add_0_l in Hs by lia.
    assert (∀ i t, ts !! i = Some t → from ≤ t < to → lo ≤ Z.of_nat i < hi) as Hc.
    { intros i t Ht Hw. eapply Hs; [done| |done]. apply lookup_lt_Some in Ht.
      apply ts_block_of; [unfold len; lia|done]. }
    case_bool_decide; do 2 eexists; (split; [done|]; split; [done|]); split_and!; try lia; [|done].
    intros i t Ht Hw. specialize (Hc i t Ht Hw). lia.
Qed.

(** The window span read from the checkpoint header covers every row whose
    timestamp lies in [from, to), so a query restricted to it loses nothing. *)
Theorem timeWindowSpan_covers ts from to :
  ts ≠ [] → len ts ≤ 2 ^ 28 → Forall is_i64 ts →
  ∃ b lo hi, encodeTimestamps ts = Ok b ∧ timeWindowSpan b (len ts) from to = Ok (lo, hi) ∧
    0 ≤ lo ≤ hi ∧ hi ≤ len ts ∧
    ∀ i t, ts !! i = Some t → from ≤ t < to → lo ≤ Z.of_nat i < hi.
Proof. apply timeWindowSpan_spec. Qed.

(** ** Columns that were only validated *)

(** The facts [ReadGroup] establishes about a timestamp span before any decoder
    runs on it; the bytes are otherwise arbitrary. *)
Record ts_valid (b : bytes) (rows : Z) : Prop := {
  tv_bytes : is_bytes b;
  tv_rows : 0 < rows;
  tv_len : 8 ≤ len b;
  tv_hdr : ∃ nb bs, get32 b 0 = Ok nb ∧ get32 b 4 = Ok bs ∧ 0 ≤ nb ∧ 0 < bs ∧
             nb = (rows + bs - 1) / bs ∧ 8 + nb * tsHdrStride ≤ len b }.

Lemma ts_next_returns stream pos prev :
  0 ≤ pos → ∃ r, ts_next stream pos prev = Ok r ∧ ∀ p q, r = Some (p, q) → 0 ≤ p.
Proof.
  intros Hp. unfold ts_next. case_bool_decide; [by eexists|].
  rewrite slice_from_Ok by lia. rewrite bind_Ok. destruct (Uvarint _) as [d w] eqn:E.
  eexists. split; [done|]. case_bool_decide; [done|]. intros p q [= <- _]. lia.
Qed.

Lemma ts_at_loop_returns n : ∀ stream pos prev, 0 ≤ pos → returns (ts_at_loop n stream pos prev).
Proof.
  induction n as [|n IH]; intros stream pos prev Hp; cbn [ts_at_loop]; [by eexists|].
  destruct (ts_next_returns stream pos prev Hp) as (r & -> & Hr). rewrite bind_Ok.
  destruct r as [[p q]|]; [|by eexists]. apply IH. by eapply Hr.
Qed.

Lemma mask_loop_returns n : ∀ i stream pos prev from to out,
  0 ≤ pos → 0 ≤ i → i + Z.of_nat n ≤ len out →
  ∃ out', mask_loop n i stream pos prev from to out = Ok out' ∧ len out' = len out.
Proof.
  induction n as [|n IH]; intros i stream pos prev from to out Hp Hi Hn; cbn [mask_loop]; [by eexists|].
  destruct (ts_next_returns stream pos prev Hp) as (r & -> & Hr). rewrite bind_Ok.
  destruct r as [[p q]|]; [|by eexists]. rewrite store_Ok by lia. rewrite bind_Ok.
  rewrite <- (len_insert out (Z.to_nat i) (bool_decide (from ≤ q ∧ q < to))).
  apply IH; [by eapply Hr|lia|rewrite len_insert; lia].
Qed.
Lemma fill_loop_returns n : ∀ i out,
  0 ≤ i → i + Z.of_nat n ≤ len out → ∃ out', fill_loop n i out = Ok out' ∧ len out' = len out.
Proof.
  induction n as [|n IH]; intros i out Hi Hn; cbn [fill_loop]; [by eexists|].
  rewrite store_Ok by lia. rewrite bind_Ok. rewrite <- (len_insert out (Z.to_nat i) true).
  apply IH; [lia|rewrite len_insert; lia].
Qed.
Lemma ts_range_loop_returns n : ∀ i lo stream pos prev out,
  0 ≤ pos → i + Z.of_nat n ≤ lo + len out → returns (ts_range_loop n i lo stream pos prev out).
Proof.
  induction n as [|n IH]; intros i lo stream pos prev out Hp Hn; cbn [ts_range_loop]; [by eexists|].
  destruct (ts_next_returns stream pos prev Hp) as (r & -> & Hr). rewrite bind_Ok.
  destruct r as [[p q]|]; [|by eexists]. specialize (Hr p q eq_refl). case_bool_decide.
  - rewrite store_Ok by lia. rewrite bind_Ok. apply IH; [done|]. rewrite len_insert. lia.
  - rewrite bind_Ok. apply IH; [done|lia].
Qed.

(** A row of a validated column addresses an existing checkpoint. *)
Lemma ts_valid_block rows bs nb row :
  0 < bs → nb = (rows + bs - 1) / bs → 0 ≤ row < rows →
  0 ≤ row / bs < nb ∧ 0 ≤ row / bs * bs ≤ row.
Proof.
  intros Hbs -> Hr. pose proof (Z_div_mod_eq_full row bs). pose proof (Z.mod_pos_bound row bs).
  assert (0 ≤ row / bs) by (apply Z.div_pos; lia).
  assert (row / bs + 1 ≤ (rows + bs - 1) / bs) by (apply Z.div_le_lower_bound; nia).
  nia.
Qed.

Lemma geti64_returns b off : is_bytes b → 0 ≤ off → off + 8 ≤ len b → returns (geti64 b off).
Proof.
  intros. unfold geti64. destruct (get64_returns b off) as (v & -> & _); [done..|]. by eexists.
Qed.

Lemma checkpoint_returns b nb k :
  is_bytes b → 0 ≤ k < nb → 8 + nb * tsHdrStride ≤ len b →
  (∃ v, get32 b (8 + k * tsHdrStride) = Ok v ∧ is_u32 v) ∧
  returns (geti64 b (8 + k * tsHdrStride + 4)) ∧ returns (geti64 b (8 + k * tsHdrStride + 12)) ∧
  returns (geti64 b (8 + k * tsHdrStride + 20)).
Proof.
  intros Hb Hk Hl. unfold tsHdrStride in *.
  split_and!; [apply get32_returns|apply geti64_returns..]; (done || lia).
Qed.

Lemma go_div_pos a b : 0 ≤ a → 0 < b → go_div a b = Ok (a / b).
Proof. intros. unfold go_div. rewrite bool_decide_eq_false_2 by lia. f_equal. by apply Z.quot_div_nonneg. Qed.

Lemma decodeTsAt_returns b rows row : ts_valid b rows → 0 ≤ row < rows → returns (decodeTsAt b row).
Proof.
  intros [Hb Hr Hl (nb & bs & E1 & E2 & Hnb & Hbs & Eq & Hh)] Hrow. unfold decodeTsAt.
  rewrite E1, bind_Ok, E2, bind_Ok, go_div_pos, bind_Ok by lia.
  destruct (ts_valid_block rows bs nb row) as [Hk _]; [done..|].
  rewrite bool_decide_eq_false_2 by lia.
  destruct (checkpoint_returns b nb (row / bs)) as ((o & -> & Ho) & [p ->] & _); [done..|].
  rewrite !bind_Ok, slice_from_Ok by (unfold tsHdrStride in *; lia). rewrite bind_Ok.
  apply ts_at_loop_returns. apply Ho.
Qed.

Lemma decodeTsRange_returns b rows lo hi dst :
  ts_valid b rows → 0 ≤ lo → hi ≤ rows → returns (decodeTsRangeInto dst b lo hi).
Proof.
  intros [Hb Hr Hl (nb & bs & E1 & E2 & Hnb & Hbs & Eq & Hh)] Hlo Hhi. unfold decodeTsRangeInto.
  case_bool_decide as Hc; [by eexists|].
  rewrite E1, bind_Ok, E2, bind_Ok, slice_from_Ok, bind_Ok by (unfold tsHdrStride in *; lia).
  rewrite go_div_pos, bind_Ok by lia.
  destruct (ts_valid_block rows bs nb lo) as [Hk Hk2]; [done..|lia|].
  destruct (checkpoint_returns b nb (lo / bs)) as ((o & -> & Ho) & [p ->] & _); [done..|].
  rewrite !bind_Ok. set (out := if bool_decide _ then _ else _).
  assert (len out = hi - lo) as Hol.
  { subst out. case_bool_decide; [rewrite len_replicate|rewrite len_take]; lia. }
  destruct (ts_range_loop_returns (Z.to_nat (hi - lo / bs * bs)) (lo / bs * bs) lo
    (drop (Z.to_nat (8 + nb * tsHdrStride)) b) o p out) as [[i out'] ->]; [apply Ho|lia|].
  rewrite bind_Ok. by eexists.
Qed.

Lemma timeWindowSpan_returns b rows from to :
  ts_valid b rows → returns (timeWindowSpan b rows from to).
Proof.
  intros [Hb Hr Hl (nb & bs & E1 & E2 & Hnb & Hbs & Eq & Hh)]. unfold timeWindowSpan.
  rewrite bool_decide_eq_false_2 by lia. rewrite E1, bind_Ok, E2, bind_Ok.
  destruct (forM_inv (λ _ _, True) (Z.to_nat nb) 0 (span_step b rows bs from to) (rows, 0)) as ([lo hi] & -> & _);
    [done| |rewrite bind_Ok; by eexists].
  intros k [lo hi] Hk _. unfold span_step.
  destruct (checkpoint_returns b nb k) as (_ & _ & [mn ->] & [mx ->]); [done|lia|done|].
  rewrite !bind_Ok. case_bool_decide; by eexists.
Qed.

Lemma decodeTimeRange_returns b rows from to buf :
  ts_valid b rows → ∃ out, decodeTimeRangeInto b rows from to buf = Ok out ∧ len out = rows.
Proof.
  intros [Hb Hr Hl (nb & bs & E1 & E2 & Hnb & Hbs & Eq & Hh)]. unfold decodeTimeRangeInto.
  set (out0 := if bool_decide (len buf < rows) then _ else _).
  assert (len out0 = rows) as Hout.
  { subst out0. case_bool_decide; [rewrite len_replicate|rewrite len_fmap, len_take]; lia. }
  rewrite bool_decide_eq_false_2 by lia.
  rewrite E1, bind_Ok, E2, bind_Ok, slice_from_Ok, bind_Ok by (unfold tsHdrStride in *; lia).
  destruct (forM_inv (λ _ out, len out = rows) (Z.to_nat nb) 0
    (range_step b (drop (Z.to_nat (8 + nb * tsHdrStride)) b) rows bs from to) out0)
    as (out & E & H); [done| |by exists out].
  intros k out Hk Hlen. unfold range_step.
  destruct (checkpoint_returns b nb k) as ((o & Eo & Ho) & [p Ep] & [mn ->] & [mx ->]); [done|lia|done|].
  rewrite !bind_Ok. case_bool_decide; [by eexists|].
  assert (0 ≤ k * bs < rows) as Hkb.
  { assert (k < (rows + bs - 1) / bs) as Hlt by lia.
    pose proof (Z_div_mod_eq_full (rows + bs - 1) bs). pose proof (Z.mod_pos_bound (rows + bs - 1) bs). nia. }
  case_bool_decide.
  - destruct (fill_loop_returns (Z.to_nat (Z.min (k * bs + bs) rows - k * bs)) (k * bs) out) as (o' & -> & E');
      [lia|lia|]. exists o'. split; [done|lia].
  - rewrite Ep, bind_Ok, Eo, bind_Ok.
    destruct (mask_loop_returns (Z.to_nat (Z.min (k * bs + bs) rows - k * bs)) (k * bs)
      (drop (Z.to_nat (8 + nb * tsHdrStride)) b) o p from to out) as (o' & -> & E'); [apply Ho|lia|lia|].
    exists o'. split; [done|lia].
Qed.

(** *** The reused buffer never shows *)

Definition agree (m : Z) (o1 o2 : list Z) : Prop :=
  length o1 = length o2 ∧ ∀ j, Z.of_nat j < m → o1 !! j = o2 !! j.

Lemma agree_store m i x o1 o2 o1' :
  agree m o1 o2 → i = m → store o1 i x = Ok o1' →
  ∃ o2', store o2 i x = Ok o2' ∧ agree (m + 1) o1' o2'.
Proof.
  intros [Hl Ha] ->. unfold store, len. rewrite Hl. case_bool_decide as Hm; [|done]. intros [= <-].
  eexists. split; [done|]. split; [by rewrite !length_insert|]. intros j Hj.
  destruct (decide (j = Z.to_nat m)) as [->|].
  - rewrite !list_lookup_insert_eq by lia. done.
  - rewrite !list_lookup_insert_ne by done. apply Ha. lia.
Qed.

Lemma ts_range_loop_agree n : ∀ i lo stream pos prev o1 o2,
  agree (i - lo) o1 o2 →
  match ts_range_loop n i lo stream pos prev o1, ts_range_loop n i lo stream pos prev o2 with
  | Ok (i1, o1'), Ok (i2, o2') => i1 = i2 ∧ agree (i1 - lo) o1' o2' ∧ i ≤ i1 ≤ i + Z.of_nat n
  | Panic, Panic => True
  | _, _ => False
  end.
Proof.
  induction n as [|n IH]; intros i lo stream pos prev o1 o2 Ha; cbn [ts_range_loop]; [split_and!; (done || lia)|].
  destruct (ts_next stream pos prev) as [r|]; [|done]. rewrite !bind_Ok.
  destruct r as [[p q]|]; [|split_and!; (done || lia)].
  case_bool_decide as Hlo; rewrite ?bind_Ok.
  - destruct (store o1 (i - lo) q) as [o1'|] eqn:E1.
    + destruct (agree_store _ _ _ _ _ _ Ha eq_refl E1) as (o2' & -> & Ha'). rewrite !bind_Ok.
      replace (i - lo + 1) with (i + 1 - lo) in Ha' by lia. specialize (IH (i + 1) lo stream p q _ _ Ha').
      destruct (ts_range_loop n (i + 1) lo stream p q o1') as [[]|], (ts_range_loop n (i + 1) lo stream p q o2') as [[]|];
        try done. intuition lia.
    + unfold store, len in E1 |- *. destruct Ha as [<- _]. case_bool_decide; done.
  - assert (agree (i + 1 - lo) o1 o2) as Ha' by (split; [apply Ha|]; intros; lia).
    specialize (IH (i + 1) lo stream p q _ _ Ha').
    destruct (ts_range_loop n (i + 1) lo stream p q o1) as [[]|], (ts_range_loop n (i + 1) lo stream p q o2) as [[]|];
      try done. intuition lia.
Qed.

Lemma ts_range_loop_len n : ∀ i lo stream pos prev out i' out',
  ts_range_loop n i lo stream pos prev out = Ok (i', out') → length out' = length out.
Proof.
  induction n as [|n IH]; intros i lo stream pos prev out i' out'; cbn [ts_range_loop]; [by intros [= _ ->]|].
  destruct (ts_next stream pos prev) as [[[p q]|]|]; rewrite ?bind_Ok; [|by intros [= _ ->]|done].
  case_bool_decide; [|rewrite bind_Ok; apply IH].
  unfold store. case_bool_decide; [|done]. rewrite bind_Ok. intros E%IH. by rewrite length_insert in E.
Qed.

(** On arbitrary bytes, corrupt streams included, a range read into a
    reused buffer answers exactly what a fresh allocation answers: no value of
    the buffer's previous user survives. *)
Theorem decodeTsRangeInto_fresh dst b lo hi :
  is_bytes b → 0 ≤ lo → decodeTsRangeInto dst b lo hi = decodeTsRange b lo hi.
Proof.
  intros Hb Hlo. unfold decodeTsRange, decodeTsRangeInto. case_bool_decide as Hc; [done|].
  destruct (get32 b 0) as [nb|]; [|done]. rewrite !bind_Ok.
  destruct (get32_returns b 4) as (bs & -> & Hbs); [done|lia..|]. rewrite !bind_Ok.
  destruct (slice_from b _) as [stream|]; [|done]. rewrite !bind_Ok.
  destruct (go_div lo bs) as [k|] eqn:Ek; [|done]. rewrite !bind_Ok. unfold is_digit in Hbs.
  assert (k * bs ≤ lo) as Hk.
  { unfold go_div in Ek. case_bool_decide; simplify_eq. rewrite Z.quot_div_nonneg by lia.
    pose proof (Z_div_mod_eq_full lo bs). pose proof (Z.mod_pos_bound lo bs). lia. }
  destruct (geti64 b _) as [prev|]; [|done]. rewrite !bind_Ok.
  destruct (get32 b (8 + k * tsHdrStride)) as [pos|]; [|done]. rewrite !bind_Ok.
  set (o1 := if bool_decide (len dst < hi - lo) then _ else _). set (o2 := if bool_decide (len [] < hi - lo) then _ else _).
  assert (length o1 = Z.to_nat (hi - lo)) as L1
    by (subst o1; case_bool_decide; [apply length_replicate|rewrite length_take; unfold len in *; lia]).
  assert (length o2 = Z.to_nat (hi - lo)) as L2
    by (subst o2; case_bool_decide; [apply length_replicate|rewrite length_take; unfold len in *; simpl in *; lia]).
  pose proof (ts_range_loop_agree (Z.to_nat (hi - k * bs)) (k * bs) lo stream pos prev o1 o2
    ltac:(split; [congruence|intros; lia])) as H.
  pose proof (ts_range_loop_len (Z.to_nat (hi - k * bs)) (k * bs) lo stream pos prev o1) as R1.
  destruct (ts_range_loop _ _ _ _ _ _ o1) as [[i o1']|], (ts_range_loop _ _ _ _ _ _ o2) as [[i2 o2']|]; try done.
  destruct H as (<- & [Hl Ha] & Hi). rewrite !bind_Ok. f_equal. specialize (R1 _ _ eq_refl).
  case_bool_decide.
  - unfold clear_from. rewrite Hl. f_equal. apply list_eq. intros j.
    destruct (decide (j < Z.to_nat (Z.max 0 (i - lo)))%nat); [rewrite !lookup_take_lt by done; apply Ha; lia|].
    by rewrite !lookup_take_ge by lia.
  - apply list_eq. intros j. destruct (decide (Z.of_nat j < i - lo)); [by apply Ha|].
    rewrite !lookup_ge_None_2 by lia. done.
Qed.
