(* ===== verification/Compress.v ===== *)
(** * Block compression

    [internal/storage/compress.go]: the greedy LZ4 compressor, the bounded LZ4
    and DEFLATE decompressors and the length-prefixed dictionary blob;
    [fitBuf] of [internal/storage/dict.go]. *)

From S2P Require Import Prelude Digits GoLib Kernels.
Local Open Scope Z_scope.

(** ** Definitions *)

Definition i32 (z : Z) : Z := (z + 2 ^ 31) mod 2 ^ 32 - 2 ^ 31.

(** [fitBuf(buf, n)]: [buf] is the backing array of the caller's buffer. *)
Definition fitBuf (buf : bytes) (n : Z) : bytes :=
  if bool_decide (len buf < n) then replicate (Z.to_nat n) 0 else take (Z.to_nat n) buf.

(** [for ; r >= 255; r -= 255 { append 255 }; append byte(r)]; every round
    lowers [r], so [Z.to_nat r] rounds suffice. *)
Fixpoint ext_loop (fuel : nat) (r : Z) : bytes :=
  match fuel with
  | O => [u8 r]
  | S f => if bool_decide (255 ≤ r) then 255 :: ext_loop f (r - 255) else [u8 r]
  end.

(** The closure [emit]: the bytes it appends to [out]. *)
Definition emit (src : bytes) (lit litEnd matchLen off : Z) : outcome bytes :=
  let ll := litEnd - lit in
  let mt := if bool_decide (0 < matchLen) then matchLen - 4 else 0 in
  let tok0 := if bool_decide (15 ≤ ll) then u8 (Z.shiftl 15 4) else u8 (Z.shiftl (u8 ll) 4) in
  let tok := if bool_decide (0 < matchLen) then
               if bool_decide (15 ≤ mt) then Z.lor tok0 15 else Z.lor tok0 (u8 mt)
             else tok0 in
  let llext := if bool_decide (15 ≤ ll) then ext_loop (Z.to_nat (ll - 15)) (ll - 15) else [] in
  literals ← slice src lit litEnd;
  let tail := if bool_decide (0 < matchLen) then
                le16 (u16 off) ++
                (if bool_decide (15 ≤ mt) then ext_loop (Z.to_nat (mt - 15)) (mt - 15) else [])
              else [] in
  Ok (tok :: llext ++ literals ++ tail).

(** [for i+ml < len(src) && src[cand+ml] == src[i+ml] { ml++ }] *)
Fixpoint match_loop (fuel : nat) (src : bytes) (cand i ml : Z) : outcome Z :=
  match fuel with
  | O => Ok ml
  | S f =>
      if bool_decide (i + ml < len src) then
        x ← index src (cand + ml);
        y ← index src (i + ml);
        if bool_decide (x = y) then match_loop f src cand i (ml + 1) else Ok ml
      else Ok ml
  end.

(** The main loop; [i] grows in every round, so [length src] rounds suffice
    and the exhausted case is never reached. *)
Fixpoint lz4_loop (fuel : nat) (src : bytes) (table : list Z) (i lit : Z) (out : bytes) : outcome bytes :=
  if bool_decide (i + 4 ≤ len src) then
    match fuel with
    | O => Panic
    | S f =>
        w ← get32 src i;
        let h := Z.shiftr (u32 (w * 2654435761)) 20 in
        cand ← index table h;
        table' ← store table h (i32 i);
        hit ← (if bool_decide (0 ≤ cand ∧ i - cand ≤ 65535)
               then c ← get32 src cand; Ok (bool_decide (c = w)) else Ok false);
        if (hit : bool) then
          ml ← match_loop (length src) src cand i 4;
          e ← emit src lit i ml (i - cand);
          lz4_loop f src table' (i + ml) (i + ml) (out ++ e)
        else lz4_loop f src table' (i + 1) lit out
    end
  else
    e ← emit src lit (len src) 0 0;
    Ok (out ++ e).

Definition lz4Compress (src : bytes) : outcome bytes :=
  lz4_loop (length src) src (replicate 4096 (-1)) 0 0 [].

Section codecs.
Context {K : Simd} {F : Flate}.

(** [nil] is the empty slice. *)
Definition lz4DecompressInto (buf block : bytes) (origLen : Z) : bytes :=
  if bool_decide (origLen < 0 ∨ 255 * len block + 16 < origLen) then []
  else
    let dst := fitBuf buf origLen in
    let '(n, dst') := LZ4BlockDecode (len dst) block in
    if bool_decide (n ≠ origLen) then [] else dst'.
Definition lz4Decompress (block : bytes) (origLen : Z) : bytes := lz4DecompressInto [] block origLen.

Definition flateCompress (src : bytes) : bytes := deflate src.

Definition flateDecompressInto (buf src : bytes) (rawLen : Z) : bytes :=
  if bool_decide (rawLen < 0 ∨ 1032 * len src + 16 < rawLen) then []
  else
    let out := fitBuf buf rawLen in
    let got := inflate src rawLen in
    let out := got ++ drop (length got) out in
    if bool_decide (len got < len out) then got ++ replicate (length out - length got) 0 else out.
Definition flateDecompress (src : bytes) (rawLen : Z) : bytes := flateDecompressInto [] src rawLen.
End codecs.

Definition marshalDictBlob (dict : list bytes) : bytes :=
  List.flat_map (λ s, le32 (u32 (len s)) ++ s) dict.

(** [for i := 0; i < n && p+4 <= len(b); i++] from offset [p]. *)
Fixpoint unmarshal_loop (n : nat) (b : bytes) (p : Z) : outcome (list bytes) :=
  match n with
  | O => Ok []
  | S n' =>
      if bool_decide (p + 4 ≤ len b) then
        l ← get32 b p;
        if bool_decide (l < 0 ∨ len b < p + 4 + l) then Ok []
        else
          s ← slice b (p + 4) (p + 4 + l);
          rest ← unmarshal_loop n' b (p + 4 + l);
          Ok (s :: rest)
      else Ok []
  end.
Definition unmarshalDictBlob (b : bytes) (n : Z) : outcome (list bytes) :=
  if bool_decide (n < 0) then Panic (* make([]string, 0, n) *) else unmarshal_loop (Z.to_nat n) b 0.

(** ** Buffers *)

Lemma fitBuf_len buf n : 0 ≤ n → len (fitBuf buf n) = n.
Proof. intros. unfold fitBuf. case_bool_decide; [rewrite len_replicate|rewrite len_take]; lia. Qed.

(** ** Compression is correct *)

Lemma ext_loop_spec f r : 0 ≤ r ≤ Z.of_nat f → ext_loop f r = lz4_ext r.
Proof.
  revert r. induction f as [|f IH]; intros r Hr; cbn [ext_loop].
  - assert (r = 0) as -> by lia. done.
  - case_bool_decide.
    + rewrite IH by lia. unfold lz4_ext.
      assert (r / 255 = (r - 255) / 255 + 1) as ->.
      { rewrite <- Z.div_add by lia. f_equal. lia. }
      assert (r mod 255 = (r - 255) mod 255) as ->.
      { replace r with ((r - 255) + 1 * 255) at 1 by lia. by rewrite Z_mod_plus_full. }
      assert (0 ≤ (r - 255) / 255) by (apply Z.div_pos; lia).
      by replace (Z.to_nat ((r - 255) / 255 + 1)) with (S (Z.to_nat ((r - 255) / 255))) by lia.
    + unfold lz4_ext, u8. rewrite Z.div_small, !Z.mod_small by lia. done.
Qed.

Lemma len_ext_loop n : 0 ≤ n →
  (if bool_decide (15 ≤ n) then ext_loop (Z.to_nat (n - 15)) (n - 15) else []) = lz4_len_ext n.
Proof.
  intros. unfold lz4_len_ext. case_bool_decide; [|done]. apply ext_loop_spec. lia.
Qed.

Lemma token_hi ll : 0 ≤ ll →
  (if bool_decide (15 ≤ ll) then u8 (Z.shiftl 15 4) else u8 (Z.shiftl (u8 ll) 4)) = lz4_nibble ll * 16.
Proof.
  intros. unfold lz4_nibble. case_bool_decide.
  - by rewrite Z.min_r by lia.
  - rewrite Z.min_l, Z.shiftl_mul_pow2 by lia. change (2 ^ 4) with 16. unfold u8.
    by rewrite (Z.mod_small ll), Z.mod_small by lia.
Qed.
Lemma lor_nibbles a b : 0 ≤ b < 16 → 0 ≤ a → Z.lor (a * 16) b = a * 16 + b.
Proof.
  intros. rewrite Z.lor_comm. change 16 with (2 ^ 4) at 1. rewrite <- Z.shiftl_mul_pow2 by lia.
  rewrite lor_shiftl_add by lia. lia.
Qed.

Lemma emit_seq src lit litEnd ml off :
  0 ≤ lit ≤ litEnd → litEnd ≤ len src → 4 ≤ ml → 0 ≤ off ≤ 65535 →
  ∃ l, slice src lit litEnd = Ok l ∧ emit src lit litEnd ml off = Ok (lz4_seq_bytes (Lz4Seq l off ml)).
Proof.
  intros H1 H2 H3 H4. destruct (slice_returns src lit litEnd) as (l & E & Hl); [lia..|].
  exists l. split; [done|]. unfold emit. rewrite E, bind_Ok.
  rewrite (bool_decide_eq_true_2 (0 < ml)) by lia. rewrite token_hi, !len_ext_loop by lia.
  unfold lz4_seq_bytes. cbn [lits offset mlen]. rewrite Hl.
  unfold u16. rewrite (Z.mod_small off) by lia. do 2 f_equal. unfold u8.
  case_bool_decide.
  - rewrite lor_nibbles by (unfold lz4_nibble; lia). f_equal. unfold lz4_nibble. lia.
  - rewrite (Z.mod_small (ml - 4)) by lia. rewrite lor_nibbles by (unfold lz4_nibble; lia).
    f_equal. unfold lz4_nibble. lia.
Qed.

Lemma emit_last src lit :
  0 ≤ lit ≤ len src →
  emit src lit (len src) 0 0 = Ok (lz4_last_bytes (drop (Z.to_nat lit) src)).
Proof.
  intros H. unfold emit. change (slice src lit (len src)) with (slice_from src lit).
  rewrite slice_from_Ok, bind_Ok by lia. rewrite !(bool_decide_eq_false_2 (0 < 0)) by lia.
  rewrite token_hi, len_ext_loop by lia. rewrite app_nil_r. unfold lz4_last_bytes.
  rewrite len_drop. replace (Z.max 0 (len src - Z.of_nat (Z.to_nat lit))) with (len src - lit) by lia. done.
Qed.

(** The match the loop extends: [ml >= 4] bytes at [i] repeat those at [cand]. *)
Lemma match_loop_spec src cand i : ∀ fuel ml,
  0 ≤ cand < i → 4 ≤ ml → i + ml ≤ len src →
  (∀ j, 0 ≤ j < ml → src !! Z.to_nat (cand + j) = src !! Z.to_nat (i + j)) →
  ∃ ml', match_loop fuel src cand i ml = Ok ml' ∧ ml ≤ ml' ∧ i + ml' ≤ len src ∧
    ∀ j, 0 ≤ j < ml' → src !! Z.to_nat (cand + j) = src !! Z.to_nat (i + j).
Proof.
  induction fuel as [|f IH]; intros ml Hc Hml Hl Hm; cbn [match_loop]; [exists ml; split_and!; (done || lia)|].
  case_bool_decide; [|exists ml; split_and!; (done || lia)].
  destruct (index_returns src (cand + ml)) as [x Ex]; [lia..|].
  destruct (index_returns src (i + ml)) as [y Ey]; [lia..|].
  rewrite Ex, bind_Ok, Ey, bind_Ok. case_bool_decide; [|exists ml; split_and!; (done || lia)]. subst y.
  destruct (IH (ml + 1)) as (ml' & -> & H1 & H2 & H3); [lia..| |exists ml'; split_and!; (done || lia)].
  intros j Hj. destruct (decide (j = ml)) as [->|]; [|apply Hm; lia].
  unfold index in Ex, Ey. rewrite bool_decide_eq_true_2 in Ex, Ey by lia.
  repeat case_match; congruence.
Qed.

Lemma lz4_copy_match src cand i : ∀ n,
  (cand < i)%nat → (i + n ≤ length src)%nat →
  (∀ j, (j < n)%nat → src !! (cand + j)%nat = src !! (i + j)%nat) →
  lz4_copy n (Z.of_nat i - Z.of_nat cand) (take i src) = take (i + n) src.
Proof.
  intros n. revert cand i. induction n as [|n IH]; intros cand i Hc Hl Hm; cbn [lz4_copy].
  { by rewrite Nat.add_0_r. }
  destruct (lookup_lt_is_Some_2 src i) as [x Hx]; [lia|].
  replace (List.nth _ _ 0) with x.
  - rewrite <- take_S_r by done. replace (i + S n)%nat with (S i + n)%nat by lia.
    rewrite <- (IH (S cand) (S i)); [f_equal; lia|lia|lia|].
    intros j Hj. replace (S cand + j)%nat with (cand + S j)%nat by lia.
    replace (S i + j)%nat with (i + S j)%nat by lia. apply Hm. lia.
  - symmetry. apply nth_lookup_Some. rewrite len_take. unfold len.
    replace (Z.to_nat _) with cand by lia. rewrite lookup_take_lt by lia.
    specialize (Hm 0%nat ltac:(lia)). rewrite !Nat.add_0_r in Hm. congruence.
Qed.

Lemma get32_same src a b w :
  is_bytes src → 0 ≤ a → 0 ≤ b → get32 src a = Ok w → get32 src b = Ok w →
  a + 4 ≤ len src ∧ b + 4 ≤ len src ∧
  ∀ j, 0 ≤ j < 4 → src !! Z.to_nat (a + j) = src !! Z.to_nat (b + j).
Proof.
  intros Hs Ha Hb. unfold get_le, slice. case_bool_decide as H1; [|done].
  case_bool_decide as H2; [|done]. rewrite !bind_Ok. intros [= Ea] [= Eb].
  split_and!; [lia..|]. intros j Hj.
  replace (Z.to_nat (a + Z.of_nat 4 - a)) with 4%nat in Ea by lia.
  replace (Z.to_nat (b + Z.of_nat 4 - b)) with 4%nat in Eb by lia.
  assert (∀ c, 0 ≤ c → c + 4 ≤ len src →
    take 4 (drop (Z.to_nat c) src) = digits 4 8 (undigits 8 (take 4 (drop (Z.to_nat c) src)))) as Hd.
  { intros c Hc Hl. rewrite <- (digits_undigits 8 (take 4 _)) at 1; [|lia|by apply Forall_take, Forall_drop].
    f_equal. rewrite length_take, length_drop. unfold len in Hl. lia. }
  assert (take 4 (drop (Z.to_nat a) src) = take 4 (drop (Z.to_nat b) src)) as E
    by (rewrite (Hd a), (Hd b), Ea, Eb by lia; done).
  apply (f_equal (λ l, l !! Z.to_nat j)) in E. rewrite !lookup_take_lt, !lookup_drop in E by lia.
  rewrite !Z2Nat.inj_add by lia. done.
Qed.

(** The compressor's invariant: what was emitted denotes the source up to
    [lit]. *)
Record lz4_inv (src : bytes) (table : list Z) (i lit : Z) (out : bytes) (ss : list lz4_seq) : Prop := {
  li_lit : 0 ≤ lit ≤ i;
  li_i : i ≤ len src;
  li_table : length table = 4096%nat;
  li_cand x : x ∈ table → x < i;
  li_out : out = List.flat_map lz4_seq_bytes ss;
  li_ok : lz4_seqs_ok [] ss;
  li_lits : Forall (λ s, is_bytes (lits s)) ss;
  li_den : fold_left lz4_apply ss [] = take (Z.to_nat lit) src }.

Lemma lz4_seqs_ok_snoc ss : ∀ out s,
  lz4_seqs_ok out ss → lz4_seq_ok (fold_left lz4_apply ss out) s → lz4_seqs_ok out (ss ++ [s]).
Proof.
  induction ss as [|s' ss IH]; intros out s; simpl; [by auto|]. intros [H1 H2] H3. split; [done|by apply IH].
Qed.

Lemma table_store (table : list Z) h x i :
  length table = 4096%nat → 0 ≤ h < 4096 → (∀ y, y ∈ table → y < i) → x < i + 1 →
  ∃ cand table', index table h = Ok cand ∧ cand < i ∧ store table h x = Ok table' ∧
    length table' = 4096%nat ∧ ∀ y, y ∈ table' → y < i + 1.
Proof.
  intros Hl Hh Hc Hx. destruct (lookup_lt_is_Some_2 table (Z.to_nat h)) as [c Ec]; [lia|].
  exists c, (<[Z.to_nat h := x]> table). split_and!.
  - apply index_Ok; [lia|done].
  - apply Hc, list_elem_of_lookup. by eexists.
  - apply store_Ok; unfold len; lia.
  - by rewrite length_insert.
  - intros y [j Hj]%list_elem_of_lookup. destruct (decide (j = Z.to_nat h)) as [->|].
    + rewrite list_lookup_insert_eq in Hj by lia. simplify_eq. lia.
    + rewrite list_lookup_insert_ne in Hj by done.
      assert (y < i) by (apply Hc, list_elem_of_lookup; by eexists). lia.
Qed.

Lemma hash_range w : 0 ≤ Z.shiftr (u32 (w * 2654435761)) 20 < 4096.
Proof.
  rewrite Z.shiftr_div_pow2 by lia. pose proof (u32_range (w * 2654435761)) as H. unfold is_digit in H.
  split; [apply Z.div_pos; lia|apply Z.div_lt_upper_bound; lia].
Qed.

Lemma i32_small i : 0 ≤ i < 2 ^ 31 → i32 i = i.
Proof. intros. unfold i32. rewrite Z.mod_small; lia. Qed.

(** Emitting a verified match extends the denotation to [i + ml]. *)
Lemma lz4_emit_match src table table' i lit out ss cand ml :
  is_bytes src → lz4_inv src table i lit out ss → 0 ≤ cand < i → i - cand ≤ 65535 → 4 ≤ ml → i + ml ≤ len src →
  (∀ j, 0 ≤ j < ml → src !! Z.to_nat (cand + j) = src !! Z.to_nat (i + j)) →
  length table' = 4096%nat → (∀ y, y ∈ table' → y < i + 1) →
  ∃ e s, emit src lit i ml (i - cand) = Ok e ∧ lz4_inv src table' (i + ml) (i + ml) (out ++ e) (ss ++ [s]).
Proof.
  intros Hs [H1 H2 H3 H4 H5 H6 H7 H8] Hc Ho Hml Hl Hm Ht Hy.
  destruct (emit_seq src lit i ml (i - cand)) as (l & El & Ee); [lia..|].
  exists (lz4_seq_bytes (Lz4Seq l (i - cand) ml)), (Lz4Seq l (i - cand) ml). split; [done|].
  assert (take (Z.to_nat lit) src ++ l = take (Z.to_nat i) src) as Et.
  { rewrite slice_Ok in El by lia. injection El as <-. rewrite take_take_drop. f_equal. lia. }
  constructor; try lia; try done.
  - intros y Hin. specialize (Hy y Hin). lia.
  - rewrite H5. rewrite List.flat_map_app. simpl. by rewrite app_nil_r.
  - apply lz4_seqs_ok_snoc; [done|]. rewrite H8. unfold lz4_seq_ok. cbn [lits offset mlen].
    rewrite Et, len_take. lia.
  - apply Forall_app. split; [done|]. constructor; [|constructor]. cbn [lits].
    by eapply slice_bytes.
  - rewrite fold_left_app. simpl. rewrite H8. unfold lz4_apply. cbn [lits offset mlen]. rewrite Et.
    pose proof (lz4_copy_match src (Z.to_nat cand) (Z.to_nat i) (Z.to_nat ml)) as Hcp.
    rewrite !Z2Nat.id in Hcp by lia. rewrite Hcp; [f_equal; lia|lia|unfold len in *; lia|].
    intros j Hj. specialize (Hm (Z.of_nat j) ltac:(lia)).
    by replace (Z.to_nat (cand + Z.of_nat j)) with (Z.to_nat cand + j)%nat in Hm by lia;
      replace (Z.to_nat (i + Z.of_nat j)) with (Z.to_nat i + j)%nat in Hm by lia.
Qed.

Lemma lz4_loop_spec src : ∀ fuel table i lit out ss,
  is_bytes src → len src < 2 ^ 31 → lz4_inv src table i lit out ss → len src - i ≤ Z.of_nat fuel →
  ∃ ss' last, lz4_loop fuel src table i lit out = Ok (lz4_block ss' last) ∧
    lz4_seqs_ok [] ss' ∧ Forall (λ s, is_bytes (lits s)) ss' ∧ is_bytes last ∧ lz4_denotes ss' last = src.
Proof.
  intros fuel. induction fuel as [|f IH]; intros table i lit out ss Hs Hn Hinv Hf;
    pose proof Hinv as [H1 H2 H3 H4 H5 H6 H7 H8]; cbn [lz4_loop];
    (case_bool_decide as Hi;
     [|rewrite emit_last, bind_Ok by lia; exists ss, (drop (Z.to_nat lit) src); split_and!;
       [by rewrite H5|done|done|by apply Forall_drop|unfold lz4_denotes; by rewrite H8, take_drop]]).
  - lia.
  - destruct (get32_returns src i) as (w & Ew & Hw); [done|lia|lia|]. rewrite Ew, bind_Ok.
    rewrite i32_small by lia.
    destruct (table_store table (Z.shiftr (u32 (w * 2654435761)) 20) i i) as (cand & table' & -> & Hcand & Est & Hlt & Hy);
      [done|apply hash_range|done|lia|]. rewrite bind_Ok, Est, bind_Ok.
    assert (∀ hit : bool, (hit = true → 0 ≤ cand ∧ i - cand ≤ 65535 ∧ get32 src cand = Ok w) →
      ∃ ss' last, (if hit then
          ml ← match_loop (length src) src cand i 4; e ← emit src lit i ml (i - cand);
          lz4_loop f src table' (i + ml) (i + ml) (out ++ e)
        else lz4_loop f src table' (i + 1) lit out) = Ok (lz4_block ss' last) ∧
      lz4_seqs_ok [] ss' ∧ Forall (λ s, is_bytes (lits s)) ss' ∧ is_bytes last ∧ lz4_denotes ss' last = src) as Hgo.
    { intros [] Hhit.
      - destruct (Hhit eq_refl) as (Hc0 & Hc1 & Hc2).
        destruct (get32_same src cand i w) as (_ & _ & Hm); [done|lia|lia|done|done|].
        destruct (match_loop_spec src cand i (length src) 4) as (ml & -> & Hml & Hml2 & Hm2); [lia..|done|].
        rewrite bind_Ok.
        destruct (lz4_emit_match src table table' i lit out ss cand ml) as (e & s & -> & Hinv');
          try done; try lia. rewrite bind_Ok. eapply IH; [done..|lia].
      - eapply IH; [done..| |lia]. constructor; try done; lia. }
    case_bool_decide as Hcd; [|rewrite bind_Ok; by apply (Hgo false)].
    destruct (get32_returns src cand) as (c & Ec & _); [done|lia|lia|]. rewrite Ec, !bind_Ok.
    apply Hgo. intros ->%bool_decide_eq_true. destruct Hcd. by split_and!.
Qed.

(** The format cannot expand by more than 255 to one. *)
Lemma lz4_ext_len r : 0 ≤ r → r ≤ 255 * len (lz4_ext r).
Proof.
  intros. unfold lz4_ext. assert (0 ≤ r / 255) by (apply Z.div_pos; lia).
  rewrite len_app, len_replicate. pose proof (Z_div_mod_eq_full r 255). pose proof (Z.mod_pos_bound r 255).
  rewrite len_cons. len_nil. lia.
Qed.
Lemma lz4_len_ext_len n : 0 ≤ n → n ≤ 15 + 255 * len (lz4_len_ext n).
Proof.
  intros. unfold lz4_len_ext. case_bool_decide; [pose proof (lz4_ext_len (n - 15))|len_nil]; lia.
Qed.
Lemma lz4_copy_len n off out : len (lz4_copy n off out) = len out + Z.of_nat n.
Proof. revert out. induction n as [|n IH]; intros out; simpl; [lia|]. rewrite IH. len_lia. Qed.

Lemma lz4_apply_len out s : 0 ≤ mlen s → len (lz4_apply out s) = len out + len (lits s) + mlen s.
Proof. intros. unfold lz4_apply. rewrite lz4_copy_len, len_app. lia. Qed.

Lemma lz4_ratio ss : ∀ out last,
  lz4_seqs_ok out ss →
  len (fold_left lz4_apply ss out ++ last) ≤ len out + 255 * len (lz4_block ss last).
Proof.
  induction ss as [|s ss IH]; intros out last Hok; unfold lz4_block; cbn [List.flat_map fold_left].
  - unfold lz4_last_bytes. pose proof (lz4_len_ext_len (len last)). len_lia.
  - destruct Hok as [(H4 & _ & _) Hok]. specialize (IH (lz4_apply out s) last Hok).
    unfold lz4_block in IH. rewrite <- app_assoc, !len_app. rewrite !len_app in IH.
    rewrite lz4_apply_len in IH by lia.
    unfold lz4_seq_bytes at 1. rewrite !len_cons, !len_app, len_le16.
    pose proof (lz4_len_ext_len (mlen s - 4) ltac:(lia)). len_facts. lia.
Qed.

Section codec_proofs.
Context {K : Simd} {KL : SimdLaws K}.

Lemma lz4Compress_spec src :
  is_bytes src → len src < 2 ^ 31 →
  ∃ ss last, lz4Compress src = Ok (lz4_block ss last) ∧
    lz4_seqs_ok [] ss ∧ Forall (λ s, is_bytes (lits s)) ss ∧ is_bytes last ∧ lz4_denotes ss last = src.
Proof.
  intros Hs Hn. eapply (lz4_loop_spec src (length src) _ 0 0 [] []); [done..| |unfold len; lia].
  constructor; try done; try lia; [len_facts; lia|].
  intros x Hx. apply elem_of_replicate in Hx as [-> _]. lia.
Qed.

Lemma lz4_nibble_range n : 0 ≤ n → 0 ≤ lz4_nibble n ≤ 15.
Proof. unfold lz4_nibble. lia. Qed.
Lemma lz4_len_ext_bytes n : is_bytes (lz4_len_ext n).
Proof.
  unfold lz4_len_ext, lz4_ext. case_bool_decide; [|constructor]. apply Forall_app_2.
  - apply Forall_replicate. unfold is_digit. lia.
  - constructor; [|constructor]. pose proof (Z.mod_pos_bound (n - 15) 255). unfold is_digit. lia.
Qed.
Lemma lz4_block_bytes ss last :
  Forall (λ s, is_bytes (lits s) ∧ 4 ≤ mlen s) ss → is_bytes last → is_bytes (lz4_block ss last).
Proof.
  intros Hss Hl. unfold lz4_block. apply Forall_app_2.
  - induction Hss as [|s ss [Hs Hm] Hss IH]; cbn [List.flat_map]; [constructor|].
    apply Forall_app_2; [|done]. unfold lz4_seq_bytes. constructor.
    + pose proof (lz4_nibble_range (len (lits s))). pose proof (lz4_nibble_range (mlen s - 4)).
      len_facts. unfold is_digit. lia.
    + bytes_tac; apply lz4_len_ext_bytes.
  - constructor; [|bytes_tac; apply lz4_len_ext_bytes].
    pose proof (lz4_nibble_range (len last)). len_facts. unfold is_digit. lia.
Qed.
Lemma lz4_seqs_ok_mlen ss : ∀ out, lz4_seqs_ok out ss → Forall (λ s, 4 ≤ mlen s) ss.
Proof.
  induction ss as [|s ss IH]; intros out H; constructor; [apply H|]. by eapply IH, H.
Qed.

Lemma lz4_block_spec src :
  is_bytes src → len src < 2 ^ 31 →
  ∃ block, lz4Compress src = Ok block ∧ is_bytes block ∧
           ∀ buf, lz4DecompressInto buf block (len src) = src.
Proof.
  intros Hs Hn. destruct (lz4Compress_spec src Hs Hn) as (ss & last & -> & Hok & Hl & Hlast & Hden).
  eexists. split; [done|]. split.
  { apply lz4_block_bytes; [|done]. apply Forall_and; [done|by eapply lz4_seqs_ok_mlen]. }
  intros buf. unfold lz4DecompressInto. pose proof (lz4_ratio ss [] last Hok) as Hr.
  fold (lz4_denotes ss last) in Hr. rewrite Hden in Hr. change (len []) with 0 in Hr.
  rewrite bool_decide_eq_false_2 by (len_facts; lia). rewrite fitBuf_len by len_lia.
  pose proof (lz4_decode ss last Hok Hl Hlast) as E. cbv zeta in E. rewrite Hden in E.
  rewrite E. by rewrite bool_decide_eq_false_2 by (intros H; by apply H).
Qed.

(** compressing any byte string below 2 GiB and inflating the block to the
    recorded length returns the string; the expansion bound that protects the
    decoder never rejects a block the compressor wrote, and the caller's buffer
    never shows. *)
Theorem lz4_roundtrip src :
  is_bytes src → len src < 2 ^ 31 →
  ∃ block, lz4Compress src = Ok block ∧ is_bytes block ∧
           ∀ buf, lz4DecompressInto buf block (len src) = src.
Proof. apply lz4_block_spec. Qed.

Lemma lz4Decompress_bytes buf block n :
  is_bytes block → is_bytes (lz4DecompressInto buf block n).
Proof.
  intros Hb. unfold lz4DecompressInto. case_bool_decide; [constructor|].
  pose proof (lz4_decode_bytes (len (fitBuf buf n)) block Hb) as H1.
  destruct (LZ4BlockDecode _ block) as [m d]. case_bool_decide; [constructor|done].
Qed.
Lemma lz4Decompress_fresh buf block n : lz4DecompressInto buf block n = lz4Decompress block n.
Proof.
  unfold lz4Decompress, lz4DecompressInto. case_bool_decide as H; [done|].
  by rewrite !fitBuf_len by lia.
Qed.
End codec_proofs.

Section flate_proofs.
Context {F : Flate} {FL : FlateLaws F}.

(** The inflated bytes are the stream's, zero-filled to the length: nothing of
    a reused buffer shows. *)
Lemma flateDecompress_spec buf src n :
  0 ≤ n ≤ 1032 * len src + 16 →
  flateDecompressInto buf src n =
    inflate src n ++ replicate (Z.to_nat n - length (inflate src n)) 0.
Proof.
  intros Hn. unfold flateDecompressInto. rewrite bool_decide_eq_false_2 by lia.
  pose proof (fitBuf_len buf n ltac:(lia)) as Hf. pose proof (inflate_len src n ltac:(lia)) as Hi.
  set (got := inflate src n) in *. set (o := fitBuf buf n) in *.
  assert (length (got ++ drop (length got) o) = Z.to_nat n) as El
    by (rewrite length_app, length_drop; unfold len in *; lia).
  rewrite El. case_bool_decide as Hc; [done|].
  unfold len in *. rewrite El in Hc. rewrite (drop_ge o) by lia.
  by replace (Z.to_nat n - length got)%nat with 0%nat by lia.
Qed.
Lemma flateDecompress_fresh buf src n : flateDecompressInto buf src n = flateDecompress src n.
Proof.
  unfold flateDecompress. destruct (decide (0 ≤ n ≤ 1032 * len src + 16)).
  - by rewrite !flateDecompress_spec.
  - unfold flateDecompressInto. by rewrite !bool_decide_eq_true_2 by lia.
Qed.
Lemma flate_roundtrip buf src :
  is_bytes src → flateDecompressInto buf (flateCompress src) (len src) = src.
Proof.
  intros Hs. unfold flateCompress. pose proof (deflate_ratio src).
  rewrite flateDecompress_spec by (len_facts; lia). rewrite inflate_deflate by done.
  unfold len. rewrite Nat2Z.id, Nat.sub_diag. apply app_nil_r.
Qed.
Lemma flateDecompress_bytes buf src n : is_bytes src → is_bytes (flateDecompressInto buf src n).
Proof.
  intros Hs. destruct (decide (0 ≤ n ≤ 1032 * len src + 16)).
  - rewrite flateDecompress_spec by done. apply Forall_app_2; [by apply inflate_bytes|].
    apply Forall_replicate. unfold is_digit. lia.
  - unfold flateDecompressInto. rewrite bool_decide_eq_true_2 by lia. constructor.
Qed.
End flate_proofs.

(** ** The dictionary blob *)

Lemma unmarshal_loop_spec dict : ∀ pre,
  Forall (λ s, len s < 2 ^ 32) dict →
  unmarshal_loop (length dict) (pre ++ marshalDictBlob dict) (len pre) = Ok dict.
Proof.
  induction dict as [|s dict IH]; intros pre Hd; [done|].
  apply Forall_cons_1 in Hd as [Hs Hd]. cbn [length unmarshal_loop].
  unfold marshalDictBlob. cbn [List.flat_map]. fold (marshalDictBlob dict).
  rewrite u32_small by (unfold is_digit; len_facts; lia).
  set (b := pre ++ _).
  assert (at_off b (len pre) (le32 (len s) ++ s)) as A
    by (exists pre, (marshalDictBlob dict); split; [subst b; by rewrite <- !app_assoc|done]).
  pose proof (at_off_bound _ _ _ A) as B. rewrite len_app, len_le32 in B.
  apply at_off_app in A as [A1 A2]. rewrite len_le32 in A2.
  rewrite bool_decide_eq_true_2 by (len_facts; lia).
  rewrite (get32_at _ _ (len s)), bind_Ok, u32_small by (done || unfold is_digit; len_facts; lia).
  rewrite bool_decide_eq_false_2 by (len_facts; lia).
  rewrite (at_off_slice _ s), bind_Ok by done.
  specialize (IH (pre ++ le32 (len s) ++ s) Hd).
  replace (len (pre ++ le32 (len s) ++ s)) with (len pre + 4 + len s) in IH by len_lia.
  replace ((pre ++ le32 (len s) ++ s) ++ marshalDictBlob dict) with b in IH
    by (subst b; by rewrite <- !app_assoc).
  by rewrite IH.
Qed.

(** Splitting a dictionary blob returns the strings it was built from. *)
Theorem unmarshal_marshalDictBlob dict :
  Forall (λ s, len s < 2 ^ 32) dict →
  unmarshalDictBlob (marshalDictBlob dict) (len dict) = Ok dict.
Proof.
  intros Hd. unfold unmarshalDictBlob. rewrite bool_decide_eq_false_2 by len_lia.
  unfold len. rewrite Nat2Z.id. apply (unmarshal_loop_spec dict []). done.
Qed.
