(* ===== verification/DictSection.v ===== *)
(** * The random-access dictionary section

    [internal/storage/dict.go]: the block-compressed dictionary, its parser, the
    point, search, subset and whole-dictionary reads, and the streaming walk. *)

From S2P Require Import Prelude Digits GoLib Kernels Compress.
Local Open Scope Z_scope.

(** ** Definitions *)

Definition dictBlock : Z := 64.
Definition dictCodecFlate : Z := 2 ^ 31.
Definition dictCodecHex : Z := 2 ^ 30.

(** The [k+1] offsets of [marshalRawBlock], from running offset [off]. *)
Fixpoint raw_offsets (off : Z) (vals : list bytes) : bytes :=
  match vals with
  | [] => le32 off
  | s :: vals' => le32 off ++ raw_offsets (u32 (off + u32 (len s))) vals'
  end.
Definition marshalRawBlock (vals : list bytes) : bytes := raw_offsets 0 vals ++ concat vals.

Definition isLowerHexByte (c : Z) : bool :=
  bool_decide (48 ≤ c ∧ c ≤ 57) || bool_decide (97 ≤ c ∧ c ≤ 102).

Fixpoint allLowerHex_loop (vals : list bytes) (total : Z) : bool :=
  match vals with
  | [] => bool_decide (0 < total)
  | s :: vals' =>
      if bool_decide (s = []) then false
      else if forallb isLowerHexByte s then allLowerHex_loop vals' (total + len s) else false
  end.
Definition allLowerHex (vals : list bytes) : bool := allLowerHex_loop vals 0.

Definition hexNibble (c : Z) : Z := if bool_decide (c ≤ 57) then u8 (c - 48) else u8 (c - 97 + 10).
Definition hexChar (v : Z) : Z := if bool_decide (v < 10) then u8 (48 + v) else u8 (97 + v - 10).

(** [for i := 0; i < total; i += 2 { packed[i>>1] = hi | lo }] *)
Fixpoint hex_pack (strs : bytes) : bytes :=
  match strs with
  | [] => []
  | [c] => [Z.lor (u8 (Z.shiftl (hexNibble c) 4)) 0]
  | c :: d :: strs' => Z.lor (u8 (Z.shiftl (hexNibble c) 4)) (hexNibble d) :: hex_pack strs'
  end.
Definition hexPackBlock (raw : bytes) (count : Z) : outcome bytes :=
  let strBase := 4 * (count + 1) in
  strs ← slice_from raw strBase;
  offs ← slice raw 0 strBase;
  Ok (le32 (u32 count) ++ offs ++ hex_pack strs).

(** [copy(l[pos:], s)] and other writes of [s] at [pos]. *)
Definition overlay (l : bytes) (pos : Z) (s : bytes) : bytes :=
  take (Z.to_nat pos) l ++ s ++ drop (Z.to_nat pos + length s) l.

Record bi := Bi { compOff : Z; compLen : Z; rawLen : Z }.

(** State of [marshalDictSection]'s block loop. *)
Record sec_state := Sec { s_fvStr : bytes; s_fvOff : list Z; s_idx : list bi; s_comp : bytes }.

(** [dictSec]: a parsed section; the zero value is the failure signal. *)
Record dictSec := MkDictSec { numBlocks : Z; fvOff : bytes; fvStr : bytes; idx : bytes; comp : bytes }.
Definition no_dictSec : dictSec := MkDictSec 0 [] [] [] [].

(** [need] of [parseDictSec] at cursor [p]. *)
Definition sec_need (sec : bytes) (p n : Z) : bool := bool_decide (0 ≤ n ∧ n ≤ len sec - p).

Definition parseDictSec (sec : bytes) : outcome dictSec :=
  if bool_decide (len sec < 8) then Ok no_dictSec else
  nb ← get32 sec 0;
  if bool_decide (nb < 0 ∨ (len sec - 8) / 16 < nb) then Ok no_dictSec else
  let p := 8 in
  if negb (sec_need sec p (4 * (nb + 1))) then Ok no_dictSec else
  fvo ← slice sec p (p + 4 * (nb + 1));
  let p := p + 4 * (nb + 1) in
  if negb (sec_need sec p 4) then Ok no_dictSec else
  fvLen ← get32 sec p;
  let p := p + 4 in
  if negb (sec_need sec p fvLen) then Ok no_dictSec else
  fvs ← slice sec p (p + fvLen);
  let p := p + fvLen in
  if negb (sec_need sec p (nb * 12)) then Ok no_dictSec else
  ix ← slice sec p (p + nb * 12);
  let p := p + nb * 12 in
  if negb (sec_need sec p 4) then Ok no_dictSec else
  cl ← get32 sec p;
  let p := p + 4 in
  if negb (sec_need sec p cl) then Ok no_dictSec else
  cm ← slice sec p (p + cl);
  Ok (MkDictSec nb fvo fvs ix cm).

(** [""] is the empty string. *)
Definition firstVal (d : dictSec) (k : Z) : outcome bytes :=
  if bool_decide (k < 0 ∨ len (fvOff d) < 4 * (k + 1) + 4) then Ok []
  else
    o0 ← get32 (fvOff d) (4 * k);
    o1 ← get32 (fvOff d) (4 * (k + 1));
    if bool_decide (o0 < 0 ∨ o1 < o0 ∨ len (fvStr d) < o1) then Ok []
    else slice (fvStr d) o0 o1.

Definition blockValAt (raw : bytes) (count i : Z) : outcome bytes :=
  if bool_decide (i < 0 ∨ count < 0 ∨ len raw < 4 * (i + 1) + 4 ∨ count ≤ i) then Ok []
  else
    let base := 4 * (count + 1) in
    o0 ← get32 raw (4 * i);
    o1 ← get32 raw (4 * (i + 1));
    if bool_decide (o0 < 0 ∨ o1 < o0 ∨ base < 0 ∨ len raw < base + o1) then Ok []
    else slice raw (base + o0) (base + o1).

Definition blockCount (k n : Z) : Z := Z.min (n - k * dictBlock) dictBlock.

(** [for lo < hi { mid := int(uint(lo+hi) >> 1); if test(mid) { lo = mid+1 } else { hi = mid } }];
    every round shrinks [hi - lo], so [Z.to_nat (hi - lo)] rounds suffice. *)
Fixpoint bsearch (fuel : nat) (lo hi : Z) (test : Z → outcome bool) : outcome Z :=
  if bool_decide (lo < hi) then
    match fuel with
    | O => Panic
    | S f =>
        let mid := Z.shiftr (lo + hi) 1 in
        b ← test mid;
        if (b : bool) then bsearch f (mid + 1) hi test else bsearch f lo mid test
    end
  else Ok lo.

(** *** Whole blocks *)

(** [blockArena]: [split] false when the offset table runs past the block. *)
Record blockArena := Arena { a_raw : bytes; a_vals : bytes; a_cnt : Z; a_split : bool }.
Definition newBlockArena (raw : bytes) (cnt : Z) : outcome blockArena :=
  let base := 4 * (cnt + 1) in
  if bool_decide (cnt < 0 ∨ len raw < base) then Ok (Arena raw [] cnt false)
  else vals ← slice_from raw base; Ok (Arena raw vals cnt true).
(** [(a *blockArena) at] *)
Definition arena_at (a : blockArena) (i : Z) : outcome bytes :=
  if negb (a_split a) then blockValAt (a_raw a) (a_cnt a) i
  else if bool_decide (i < 0 ∨ a_cnt a ≤ i) then Ok []
  else
    o0 ← get32 (a_raw a) (4 * i);
    o1 ← get32 (a_raw a) (4 * (i + 1));
    if bool_decide (o0 < 0 ∨ o1 < o0 ∨ len (a_vals a) < o1) then Ok []
    else slice (a_vals a) o0 o1.

(** [for i := 0; i < cnt; i++ { out = append(out, at(i)) }] from [i]. *)
Fixpoint collect (n : nat) (i : Z) (f : Z → outcome bytes) : outcome (list bytes) :=
  match n with
  | O => Ok []
  | S n' => v ← f i; vs ← collect n' (i + 1) f; Ok (v :: vs)
  end.
Definition appendBlockVals (out : list bytes) (raw : bytes) (cnt : Z) : outcome (list bytes) :=
  a ← newBlockArena raw cnt;
  vs ← collect (Z.to_nat cnt) 0 (arena_at a);
  Ok (out ++ vs).

Section section.
Context {K : Simd} {F : Flate}.

Definition hexUnpackBlockInto (buf packed : bytes) : outcome bytes :=
  if bool_decide (len packed < 4) then Ok [] else
  count ← get32 packed 0;
  if bool_decide (count < 0 ∨ (len packed - 4) / 4 < count) then Ok [] else
  let strBase := 4 * (count + 1) in
  if bool_decide (len packed < 4 + strBase) then Ok [] else
  total ← get32 packed (4 + 4 * count);
  let nb := (total + 1) / 2 in
  let nibBase := 4 + strBase in
  if bool_decide (total < 0 ∨ len packed - nibBase < nb) then Ok [] else
  let raw := fitBuf buf (strBase + 2 * nb) in
  offs ← slice packed 4 (4 + strBase);
  nibs ← slice packed nibBase (nibBase + nb);
  Ok (overlay (overlay raw 0 offs) strBase (HexEncode nibs)).
Definition hexUnpackBlock (packed : bytes) : outcome bytes := hexUnpackBlockInto [] packed.

(** One round of [marshalDictSection]'s loop over the blocks. *)
Definition section_step (dict : list bytes) (compact : bool) (k : Z) (s : sec_state) : outcome sec_state :=
  let lo := k * dictBlock in
  let hi := Z.min (lo + dictBlock) (len dict) in
  first ← index dict lo;
  vals ← slice dict lo hi;
  let raw := marshalRawBlock vals in
  let rl := u32 (len raw) in
  r ← (if allLowerHex vals then c ← hexPackBlock raw (hi - lo); Ok (c, Z.lor rl dictCodecHex)
       else if compact then Ok (flateCompress raw, Z.lor rl dictCodecFlate)
       else c ← lz4Compress raw; Ok (c, rl));
  let '(c, rl') := r in
  Ok (Sec (s_fvStr s ++ first) (s_fvOff s ++ [u32 (len (s_fvStr s))])
          (s_idx s ++ [Bi (u32 (len (s_comp s))) (u32 (len c)) rl']) (s_comp s ++ c)).

Definition bi_bytes (e : bi) : bytes := le32 (compOff e) ++ le32 (compLen e) ++ le32 (rawLen e).

Definition marshalDictSection (dict : list bytes) (compact : bool) : outcome bytes :=
  let n := len dict in
  let nb := if bool_decide (0 < n) then (n + dictBlock - 1) / dictBlock else 0 in
  s ← forM (Z.to_nat nb) 0 (section_step dict compact) (Sec [] [] [] []);
  let fvo := s_fvOff s ++ [u32 (len (s_fvStr s))] in
  Ok (le32 (u32 nb) ++ le32 dictBlock ++ List.flat_map le32 fvo ++
      le32 (u32 (len (s_fvStr s))) ++ s_fvStr s ++ List.flat_map bi_bytes (s_idx s) ++
      le32 (u32 (len (s_comp s))) ++ s_comp s).

(** [reuse] is the package variable [blockReuse]; production sets it. *)
Definition blockInto (reuse : bool) (d : dictSec) (k : Z) (buf : bytes) : outcome bytes :=
  if bool_decide (k < 0 ∨ len (idx d) < k * 12 + 12) then Ok [] else
  co ← get32 (idx d) (k * 12);
  cl ← get32 (idx d) (k * 12 + 4);
  rawField ← get32 (idx d) (k * 12 + 8);
  let rl := Z.ldiff rawField (Z.lor dictCodecFlate dictCodecHex) in
  if bool_decide (co < 0 ∨ cl < 0 ∨ len (comp d) < co ∨ len (comp d) - co < cl) then Ok [] else
  let buf := if reuse then buf else [] in
  c ← slice (comp d) co (co + cl);
  if bool_decide (Z.land rawField dictCodecHex ≠ 0) then hexUnpackBlockInto buf c
  else if bool_decide (Z.land rawField dictCodecFlate ≠ 0) then Ok (flateDecompressInto buf c rl)
  else Ok (lz4DecompressInto buf c rl).
(** [(d dictSec) block] *)
Definition block (d : dictSec) (k : Z) : outcome bytes := blockInto true d k [].

Definition dictSectionSearch (sec : bytes) (n : Z) (value : bytes) : outcome Z :=
  d ← parseDictSec sec;
  if bool_decide (numBlocks d = 0) then Ok (-1) else
  lo ← bsearch (Z.to_nat (numBlocks d)) 0 (numBlocks d)
         (λ mid, v ← firstVal d mid; Ok (str_leb v value));
  let k := lo - 1 in
  if bool_decide (k < 0) then Ok (-1) else
  raw ← block d k;
  let cnt := blockCount k n in
  blo ← bsearch (Z.to_nat cnt) 0 cnt (λ mid, v ← blockValAt raw cnt mid; Ok (str_ltb v value));
  hit ← (if bool_decide (blo < cnt) then v ← blockValAt raw cnt blo; Ok (str_eqb v value) else Ok false);
  Ok (if (hit : bool) then k * dictBlock + blo else -1).

Definition dictSectionAt (sec : bytes) (n i : Z) : outcome bytes :=
  d ← parseDictSec sec;
  let k := Z.quot i dictBlock in
  if bool_decide (numBlocks d ≤ k) then Ok [] else
  raw ← block d k;
  blockValAt raw (blockCount k n) (Z.rem i dictBlock).

(** The first inner loop of [dictSectionSome]: is any value of the block wanted? *)
Fixpoint any_wanted (m : nat) (i base : Z) (want : list bool) : outcome bool :=
  match m with
  | O => Ok false
  | S m' => w ← index want (base + i); if (w : bool) then Ok true else any_wanted m' (i + 1) base want
  end.
Definition some_step (raw : bytes) (cnt base : Z) (want : list bool) (i : Z) (out : list bytes)
  : outcome (list bytes) :=
  w ← index want (base + i);
  if (w : bool) then v ← blockValAt raw cnt i; store out (base + i) v else Ok out.
Definition some_block (d : dictSec) (n : Z) (want : list bool) (k : Z) (out : list bytes)
  : outcome (list bytes) :=
  let base := k * dictBlock in
  let cnt := blockCount k n in
  any ← any_wanted (Z.to_nat cnt) 0 base want;
  if negb any then Ok out
  else raw ← block d k; forM (Z.to_nat cnt) 0 (some_step raw cnt base want) out.
Definition dictSectionSome (sec : bytes) (n : Z) (want : list bool) : outcome (list bytes) :=
  d ← parseDictSec sec;
  if bool_decide (n < 0) then Panic (* make([]string, n) *)
  else forM (Z.to_nat (numBlocks d)) 0 (some_block d n want) (replicate (Z.to_nat n) []).

(** One block of [dictSectionAll]; the state is [out] and the reused buffer.
    [arena] is the package variable [dictArena]; production sets it. *)
Definition all_block (arena reuse : bool) (d : dictSec) (n k : Z) (s : list bytes * bytes)
  : outcome (list bytes * bytes) :=
  let '(out, buf) := s in
  let cnt := blockCount k n in
  if arena then
    raw ← blockInto reuse d k buf;
    out' ← appendBlockVals out raw cnt;
    Ok (out', raw)
  else
    raw ← block d k;
    vs ← collect (Z.to_nat cnt) 0 (blockValAt raw cnt);
    Ok (out ++ vs, buf).
Definition dictSectionAll (arena reuse : bool) (sec : bytes) (n : Z) : outcome (list bytes) :=
  d ← parseDictSec sec;
  if bool_decide (n < 0) then Panic (* make([]string, 0, n) *)
  else s ← forM (Z.to_nat (numBlocks d)) 0 (all_block arena reuse d n) ([], []); Ok s.1.

(** *** The streaming walk *)

Record dictWalk := Walk { w_d : dictSec; w_n : Z; w_k : Z; w_i : Z; w_a : blockArena }.
Definition newDictWalk (sec : bytes) (n : Z) : outcome dictWalk :=
  d ← parseDictSec sec; Ok (Walk d n 0 0 (Arena [] [] 0 false)).

(** [for w.i >= w.a.cnt]: load blocks until one has a value left; [false] when
    the section is exhausted. Each round takes one block. *)
Fixpoint walk_fill (fuel : nat) (reuse : bool) (w : dictWalk) : outcome (dictWalk * bool) :=
  if bool_decide (a_cnt (w_a w) ≤ w_i w) then
    if bool_decide (numBlocks (w_d w) ≤ w_k w) then Ok (w, false)
    else
      match fuel with
      | O => Panic
      | S f =>
          raw ← blockInto reuse (w_d w) (w_k w) (a_raw (w_a w));
          a ← newBlockArena raw (blockCount (w_k w) (w_n w));
          walk_fill f reuse (Walk (w_d w) (w_n w) (w_k w + 1) 0 a)
      end
  else Ok (w, true).

(** [(w *dictWalk) next] *)
Definition walk_next (reuse : bool) (w : dictWalk) : outcome (dictWalk * option bytes) :=
  r ← walk_fill (Z.to_nat (numBlocks (w_d w) - w_k w)) reuse w;
  let '(w', ok) := r in
  if (ok : bool) then
    v ← arena_at (w_a w') (w_i w');
    Ok (Walk (w_d w') (w_n w') (w_k w') (w_i w' + 1) (w_a w'), Some v)
  else Ok (w', None).
End section.

(** ** Arbitrary bytes: no panic, no stale buffer *)

Record dictSec_wf (d : dictSec) : Prop := {
  wf_nb : 0 ≤ numBlocks d;
  wf_fvOff : is_bytes (fvOff d);
  wf_fvStr : is_bytes (fvStr d);
  wf_idx : is_bytes (idx d);
  wf_comp : is_bytes (comp d) }.

Lemma no_dictSec_wf : dictSec_wf no_dictSec.
Proof. constructor; simpl; [lia|constructor..]. Qed.

(** The parser never reads outside the section. *)
Lemma parseDictSec_returns sec :
  is_bytes sec → ∃ d, parseDictSec sec = Ok d ∧ dictSec_wf d ∧ numBlocks d ≤ len sec / 16.
Proof.
  intros Hs. pose proof no_dictSec_wf as Hno.
  assert (0 ≤ len sec / 16) as H16 by (apply Z.div_pos; len_lia).
  assert (∃ d, Ok no_dictSec = Ok d ∧ dictSec_wf d ∧ numBlocks d ≤ len sec / 16) as Hfail by (by eexists).
  unfold parseDictSec. case_bool_decide; [done|].
  destruct (get32_returns sec 0) as (nb & -> & Hnb); [done|lia..|]. rewrite bind_Ok.
  case_bool_decide as Hb; [done|]. unfold sec_need.
  case_bool_decide as N1; [|done]. cbn [negb].
  destruct (slice_returns sec 8 (8 + 4 * (nb + 1))) as (fvo & E1 & L1); [lia..|].
  rewrite E1, bind_Ok. case_bool_decide as N2; [|done]. cbn [negb].
  destruct (get32_returns sec (8 + 4 * (nb + 1))) as (fl & -> & Hfl); [done|lia..|]. rewrite bind_Ok.
  case_bool_decide as N3; [|done]. cbn [negb].
  destruct (slice_returns sec (8 + 4 * (nb + 1) + 4) (8 + 4 * (nb + 1) + 4 + fl)) as (fvs & E2 & L2); [lia..|].
  rewrite E2, bind_Ok. case_bool_decide as N4; [|done]. cbn [negb].
  set (p := 8 + 4 * (nb + 1) + 4 + fl) in *.
  destruct (slice_returns sec p (p + nb * 12)) as (ix & E3 & L3); [unfold is_digit in *; lia..|].
  rewrite E3, bind_Ok. case_bool_decide as N5; [|done]. cbn [negb].
  destruct (get32_returns sec (p + nb * 12)) as (cl & -> & Hcl); [done|unfold is_digit in *; lia..|]. rewrite bind_Ok.
  case_bool_decide as N6; [|done]. cbn [negb].
  destruct (slice_returns sec (p + nb * 12 + 4) (p + nb * 12 + 4 + cl)) as (cm & E4 & L4); [unfold is_digit in *; lia..|].
  rewrite E4, bind_Ok. eexists. split; [done|]. split.
  - constructor; simpl; [lia|by eapply slice_bytes..].
  - simpl. etransitivity; [|apply Z.div_le_mono; [lia|apply (Z.le_sub_nonneg _ 8); lia]].
    replace (len sec - (len sec - (len sec - 8))) with (len sec - 8) by lia. lia.
Qed.

Lemma firstVal_returns d k : dictSec_wf d → returns (firstVal d k).
Proof.
  intros [_ Ho _ _ _]. unfold firstVal. case_bool_decide; [by eexists|].
  destruct (get32_returns (fvOff d) (4 * k)) as (o0 & -> & H0); [done|lia..|].
  destruct (get32_returns (fvOff d) (4 * (k + 1))) as (o1 & -> & H1); [done|lia..|].
  rewrite !bind_Ok. case_bool_decide; [by eexists|]. rewrite slice_Ok by lia. by eexists.
Qed.

Lemma blockValAt_returns raw count i : is_bytes raw → returns (blockValAt raw count i).
Proof.
  intros Hr. unfold blockValAt. case_bool_decide; [by eexists|].
  destruct (get32_returns raw (4 * i)) as (o0 & -> & H0); [done|lia..|].
  destruct (get32_returns raw (4 * (i + 1))) as (o1 & -> & H1); [done|lia..|].
  rewrite !bind_Ok. case_bool_decide; [by eexists|]. rewrite slice_Ok by lia. by eexists.
Qed.

Lemma newBlockArena_returns raw cnt :
  ∃ a, newBlockArena raw cnt = Ok a ∧ a_raw a = raw ∧ a_cnt a = cnt ∧
    (a_split a = true → 0 ≤ cnt ∧ 4 * (cnt + 1) ≤ len raw ∧ a_vals a = drop (Z.to_nat (4 * (cnt + 1))) raw).
Proof.
  unfold newBlockArena. case_bool_decide; [by eexists|].
  rewrite slice_from_Ok by lia. rewrite bind_Ok. eexists. split_and!; [done..|]. simpl. intros _. split_and!; (done || lia).
Qed.

(** Slicing a value out of a block's shared string answers exactly what
    reading that value on its own answers, for every block and every index,
    corrupt offset tables included. *)
Lemma arena_at_blockValAt raw cnt i :
  is_bytes raw → (a ← newBlockArena raw cnt; arena_at a i) = blockValAt raw cnt i.
Proof.
  intros Hr. destruct (newBlockArena_returns raw cnt) as (a & -> & Ea & Ec & Hs).
  rewrite bind_Ok. unfold arena_at. destruct (a_split a); simpl; [|by rewrite Ea, Ec].
  destruct (Hs eq_refl) as (Hc & Hb & Ev). rewrite Ea, Ec, Ev. unfold blockValAt.
  destruct (decide (i < 0 ∨ cnt ≤ i)).
  { rewrite !bool_decide_eq_true_2 by lia. done. }
  rewrite !bool_decide_eq_false_2 by lia.
  destruct (get32_returns raw (4 * i)) as (o0 & -> & H0); [done|lia..|].
  destruct (get32_returns raw (4 * (i + 1))) as (o1 & -> & H1); [done|lia..|].
  rewrite !bind_Ok. rewrite len_drop. unfold is_digit in *.
  destruct (decide (o1 < o0 ∨ len raw < 4 * (cnt + 1) + o1)).
  { rewrite !bool_decide_eq_true_2 by lia. done. }
  rewrite !bool_decide_eq_false_2 by lia. rewrite !slice_Ok by (rewrite ?len_drop; lia).
  rewrite drop_drop. do 2 f_equal; [lia|]. f_equal. lia.
Qed.

Lemma collect_ext n i f g : (∀ j, f j = g j) → collect n i f = collect n i g.
Proof.
  intros H. revert i. induction n as [|n IH]; intros i; cbn [collect]; [done|]. rewrite H.
  destruct (g i); [|done]. rewrite !bind_Ok. by rewrite IH.
Qed.

(** Converting a block at once is reading its values one by one. *)
Lemma appendBlockVals_collect out raw cnt :
  is_bytes raw →
  appendBlockVals out raw cnt = (vs ← collect (Z.to_nat cnt) 0 (blockValAt raw cnt); Ok (out ++ vs)).
Proof.
  intros Hr. unfold appendBlockVals. destruct (newBlockArena_returns raw cnt) as (a & Ea & _).
  rewrite Ea, bind_Ok. erewrite collect_ext; [done|]. intros j.
  rewrite <- (arena_at_blockValAt raw cnt j Hr). by rewrite Ea.
Qed.

Lemma collect_returns n i f :
  (∀ j, returns (f j)) → ∃ vs, collect n i f = Ok vs ∧ length vs = n ∧
    ∀ j v, vs !! j = Some v → f (i + Z.of_nat j) = Ok v.
Proof.
  intros H. revert i. induction n as [|n IH]; intros i; cbn [collect]; [by eexists; split_and!|].
  destruct (H i) as [v Ev]. rewrite Ev, bind_Ok. destruct (IH (i + 1)) as (vs & -> & Hl & Hv).
  rewrite bind_Ok. eexists. split_and!; [done|simpl; congruence|].
  intros [|j] u Hu; simpl in Hu; simplify_eq; [by rewrite Z.add_0_r|].
  rewrite <- (Hv j u Hu). f_equal. lia.
Qed.

(** The search keeps its bounds and, on a test that is monotone, finds the
    boundary. *)
Lemma bsearch_spec test (P : Z → bool) : ∀ fuel lo hi,
  lo ≤ hi → hi - lo ≤ Z.of_nat fuel → (∀ m, lo ≤ m < hi → test m = Ok (P m)) →
  ∃ r, bsearch fuel lo hi test = Ok r ∧ lo ≤ r ≤ hi ∧
    ((∀ a b, lo ≤ a ≤ b → b < hi → P b = true → P a = true) →
     (∀ m, lo ≤ m < r → P m = true) ∧ (∀ m, r ≤ m < hi → P m = false)).
Proof.
  induction fuel as [|f IH]; intros lo hi Hle Hf Ht; cbn [bsearch]; case_bool_decide as Hlt.
  - lia.
  - exists lo. split_and!; [done|lia..|]. intros _. split; intros; lia.
  - rewrite Z.shiftr_div_pow2 by lia. change (2 ^ 1) with 2. set (mid := (lo + hi) / 2).
    assert (lo ≤ mid < hi) as Hmid.
    { subst mid. pose proof (Z_div_mod_eq_full (lo + hi) 2). pose proof (Z.mod_pos_bound (lo + hi) 2). lia. }
    rewrite (Ht mid Hmid), bind_Ok. destruct (P mid) eqn:EP.
    + destruct (IH (mid + 1) hi) as (r & -> & Hr & Hs); [lia|lia|intros; apply Ht; lia|].
      exists r. split; [done|]. split; [lia|]. intros Hmono.
      destruct Hs as [S1 S2]; [intros a b ? ? ?; apply (Hmono a b); (done || lia)|].
      split; [|done]. intros m Hm. destruct (decide (m ≤ mid)); [apply (Hmono m mid); (done || lia)|].
      apply S1. lia.
    + destruct (IH lo mid) as (r & -> & Hr & Hs); [lia|lia|intros; apply Ht; lia|].
      exists r. split; [done|]. split; [lia|]. intros Hmono.
      destruct Hs as [S1 S2]; [intros a b ? ? ?; apply (Hmono a b); (done || lia)|].
      split; [done|]. intros m Hm. destruct (decide (m < mid)); [apply S2; lia|].
      destruct (P m) eqn:Em; [|done]. rewrite (Hmono mid m) in EP; (done || lia).
  - exists lo. split_and!; [done|lia..|]. intros _. split; intros; lia.
Qed.

Lemma bsearch_returns test fuel lo hi :
  lo ≤ hi → hi - lo ≤ Z.of_nat fuel → (∀ m, returns (test m)) →
  ∃ r, bsearch fuel lo hi test = Ok r ∧ lo ≤ r ≤ hi.
Proof.
  intros Hle Hf Ht.
  destruct (bsearch_spec test (λ m, match test m with Ok b => b | Panic => false end) fuel lo hi)
    as (r & E & Hr & _); [done..| |by exists r].
  intros m _. by destruct (Ht m) as [b ->].
Qed.

(** Writing [a] and then [b] behind it over a buffer of their joint length
    leaves nothing of the buffer. *)
Lemma overlay_fill raw a b : len raw = len a + len b → overlay (overlay raw 0 a) (len a) b = a ++ b.
Proof.
  intros Hl. unfold overlay. change (Z.to_nat 0) with 0%nat. rewrite take_0, Nat.add_0_l. simpl app.
  rewrite take_len_app. f_equal. rewrite drop_ge; [apply app_nil_r|].
  rewrite length_app, length_drop. unfold len in *. lia.
Qed.

Section robust.
Context {K : Simd} {KL : SimdLaws K} {F : Flate} {FL : FlateLaws F}.

Lemma flat_hex_len b : len (List.flat_map hex_pair b) = 2 * len b.
Proof. induction b as [|x b IH]; [done|]. cbn [List.flat_map]. rewrite len_app, IH, len_cons. change (len (hex_pair x)) with 2. lia. Qed.
Lemma flat_hex_bytes b : is_bytes b → is_bytes (List.flat_map hex_pair b).
Proof.
  induction 1 as [|x b Hx Hb IH]; cbn [List.flat_map]; [apply Forall_nil_2|]. apply Forall_app_2; [|done].
  assert (∀ v, 0 ≤ v < 16 → is_byte (hex_digit v)) as Hd.
  { intros v Hv. unfold hex_digit, is_digit. case_bool_decide; lia. }
  unfold is_digit in Hx. apply Forall_cons_2; [|apply Forall_cons_2; [|apply Forall_nil_2]]; apply Hd;
    [split; [apply Z.div_pos; lia|apply Z.div_lt_upper_bound; lia]|apply Z.mod_pos_bound; lia].
Qed.

(** Unpacking reads inside the packed block and never shows the buffer. *)
Lemma hexUnpack_returns packed buf1 buf2 :
  is_bytes packed →
  ∃ raw, hexUnpackBlockInto buf1 packed = Ok raw ∧ hexUnpackBlockInto buf2 packed = Ok raw ∧ is_bytes raw.
Proof.
  intros Hp. unfold hexUnpackBlockInto.
  assert (∃ raw, Ok [] = Ok raw ∧ Ok [] = Ok raw ∧ is_bytes raw) as Hnil by (exists []; split_and!; [done..|apply Forall_nil_2]).
  case_bool_decide as H4; [done|].
  destruct (get32_returns packed 0) as (count & -> & Hc); [done|lia..|]. rewrite !bind_Ok.
  case_bool_decide as Hcb; [done|]. case_bool_decide as Hs; [done|].
  destruct (get32_returns packed (4 + 4 * count)) as (total & -> & Ht); [done|lia..|]. rewrite !bind_Ok.
  unfold is_digit in *. assert (0 ≤ (total + 1) / 2) by (apply Z.div_pos; lia).
  case_bool_decide as Hn; [done|].
  destruct (slice_returns packed 4 (4 + 4 * (count + 1))) as (offs & E1 & L1); [lia..|].
  destruct (slice_returns packed (4 + 4 * (count + 1)) (4 + 4 * (count + 1) + (total + 1) / 2)) as (nibs & E2 & L2); [lia..|].
  rewrite E1, E2, !bind_Ok. pose proof (slice_bytes _ _ _ _ Hp E1). pose proof (slice_bytes _ _ _ _ Hp E2) as Hnib.
  replace (4 * (count + 1)) with (len offs) by lia.
  rewrite hex_encode by done. pose proof (flat_hex_len nibs) as Lh.
  exists (offs ++ List.flat_map hex_pair nibs).
  split_and!; [f_equal; apply overlay_fill; rewrite fitBuf_len; lia..|].
  apply Forall_app_2; [done|by apply flat_hex_bytes].
Qed.

Lemma blockInto_returns reuse d k buf :
  dictSec_wf d → ∃ raw, blockInto reuse d k buf = Ok raw ∧ block d k = Ok raw ∧ is_bytes raw.
Proof.
  intros Hd. unfold block, blockInto.
  assert (∃ raw, Ok [] = Ok raw ∧ Ok [] = Ok raw ∧ is_bytes raw) as Hnil by (exists []; split_and!; [done..|apply Forall_nil_2]).
  case_bool_decide; [done|]. pose proof (wf_idx d Hd) as Hi.
  destruct (get32_returns (idx d) (k * 12)) as (co & -> & Hco); [done|lia..|].
  destruct (get32_returns (idx d) (k * 12 + 4)) as (cl & -> & Hcl); [done|lia..|].
  destruct (get32_returns (idx d) (k * 12 + 8)) as (rf & -> & Hrf); [done|lia..|]. rewrite !bind_Ok.
  case_bool_decide as Hb; [done|].
  destruct (slice_returns (comp d) co (co + cl)) as (c & E & L); [unfold is_digit in *; lia..|].
  rewrite E, !bind_Ok. pose proof (slice_bytes _ _ _ _ (wf_comp d Hd) E) as Hc.
  case_bool_decide; [by apply hexUnpack_returns|]. case_bool_decide; eexists.
  - split_and!; [done|by rewrite (flateDecompress_fresh (if reuse then buf else []))|by apply flateDecompress_bytes].
  - split_and!; [done|by rewrite (lz4Decompress_fresh (if reuse then buf else []))|by apply lz4Decompress_bytes].
Qed.

(** Inflating a block into a reused buffer yields exactly what inflating it
    into a fresh one yields: no stale byte of another block shows. *)
Lemma blockInto_fresh reuse d k buf : dictSec_wf d → blockInto reuse d k buf = block d k.
Proof. intros Hd. by destruct (blockInto_returns reuse d k buf Hd) as (raw & -> & -> & _). Qed.


Lemma blockCount_le k n : 0 ≤ k → blockCount k n ≤ 64 ∧ blockCount k n ≤ n.
Proof. unfold blockCount, dictBlock. lia. Qed.

Lemma dictSectionSearch_returns sec n value :
  is_bytes sec → ∃ r, dictSectionSearch sec n value = Ok r ∧ -1 ≤ r ∧ (-1 < r → r < n).
Proof.
  intros Hs. destruct (parseDictSec_returns sec Hs) as (d & E & Hd & _). pose proof (wf_nb d Hd).
  unfold dictSectionSearch. rewrite E, bind_Ok. case_bool_decide; [by eexists; split_and!|].
  destruct (bsearch_returns (λ mid, v ← firstVal d mid; Ok (str_leb v value)) (Z.to_nat (numBlocks d)) 0 (numBlocks d))
    as (lo & -> & Hlo); [lia..| |].
  { intros m. destruct (firstVal_returns d m Hd) as [v ->]. by eexists. }
  rewrite bind_Ok. case_bool_decide; [by eexists; split_and!|].
  destruct (blockInto_returns true d (lo - 1) [] Hd) as (raw & _ & -> & Hr). rewrite bind_Ok.
  set (cnt := blockCount (lo - 1) n).
  destruct (decide (0 ≤ cnt)) as [Hc|Hc].
  2:{ replace (Z.to_nat cnt) with 0%nat by lia. cbn [bsearch].
      rewrite bool_decide_eq_false_2, bind_Ok by lia. rewrite bool_decide_eq_false_2, bind_Ok by lia.
      by eexists; split_and!. }
  destruct (bsearch_returns (λ mid, v ← blockValAt raw cnt mid; Ok (str_ltb v value)) (Z.to_nat cnt) 0 cnt)
    as (blo & -> & Hblo); [lia..| |].
  { intros m. destruct (blockValAt_returns raw cnt m Hr) as [v ->]. by eexists. }
  rewrite bind_Ok. case_bool_decide as Hlt; [|by eexists; split_and!].
  destruct (blockValAt_returns raw cnt blo Hr) as [v ->]. rewrite !bind_Ok.
  eexists. split; [done|]. destruct (str_eqb v value); [|lia].
  subst cnt. unfold blockCount, dictBlock in *. lia.
Qed.

Lemma dictSectionAt_returns sec n i : is_bytes sec → returns (dictSectionAt sec n i).
Proof.
  intros Hs. destruct (parseDictSec_returns sec Hs) as (d & E & Hd & _).
  unfold dictSectionAt. rewrite E, bind_Ok. case_bool_decide; [by eexists|].
  destruct (blockInto_returns true d (Z.quot i dictBlock) [] Hd) as (raw & _ & -> & Hr).
  rewrite bind_Ok. by apply blockValAt_returns.
Qed.

(** *** Whole-dictionary reads *)

(** The values of block [k], read one by one out of a freshly inflated block. *)
Definition block_vals (d : dictSec) (n k : Z) : list bytes :=
  match (raw ← block d k; collect (Z.to_nat (blockCount k n)) 0 (blockValAt raw (blockCount k n))) with
  | Ok vs => vs
  | Panic => []
  end.
Definition blocks_from (d : dictSec) (n k : Z) (m : nat) : list bytes :=
  concat ((λ j, block_vals d n (k + Z.of_nat j)) <$> seq 0 m).

Lemma blocks_from_S d n k m : blocks_from d n k (S m) = block_vals d n k ++ blocks_from d n (k + 1) m.
Proof.
  unfold blocks_from. cbn [seq fmap list_fmap concat]. rewrite Z.add_0_r. f_equal.
  rewrite <- fmap_S_seq, <- list_fmap_compose. f_equal. apply list_fmap_ext. intros i x _. simpl. f_equal. lia.
Qed.

Lemma block_vals_spec d n k :
  dictSec_wf d → ∃ raw, (∀ reuse buf, blockInto reuse d k buf = Ok raw) ∧ block d k = Ok raw ∧ is_bytes raw ∧
    collect (Z.to_nat (blockCount k n)) 0 (blockValAt raw (blockCount k n)) = Ok (block_vals d n k) ∧
    length (block_vals d n k) = Z.to_nat (blockCount k n).
Proof.
  intros Hd. destruct (blockInto_returns true d k [] Hd) as (raw & _ & Eb & Hr). exists raw.
  destruct (collect_returns (Z.to_nat (blockCount k n)) 0 (blockValAt raw (blockCount k n))) as (vs & Ec & Hl & _).
  { intros j. by apply blockValAt_returns. }
  unfold block_vals. rewrite Eb, bind_Ok, Ec. split_and!; try done.
  intros reuse buf. by rewrite blockInto_fresh.
Qed.

Lemma all_block_spec arena reuse d n k out buf :
  dictSec_wf d → ∃ buf', all_block arena reuse d n k (out, buf) = Ok (out ++ block_vals d n k, buf').
Proof.
  intros Hd. destruct (block_vals_spec d n k Hd) as (raw & Ei & Eb & Hr & Ec & _).
  unfold all_block. destruct arena.
  - rewrite Ei, bind_Ok, appendBlockVals_collect, Ec, !bind_Ok by done. by eexists.
  - rewrite Eb, bind_Ok, Ec, !bind_Ok. by eexists.
Qed.
Lemma all_blocks_spec arena reuse d n : dictSec_wf d → ∀ m k out buf,
  ∃ buf', forM m k (all_block arena reuse d n) (out, buf) = Ok (out ++ blocks_from d n k m, buf').
Proof.
  intros Hd. induction m as [|m IH]; intros k out buf; cbn [forM].
  { exists buf. unfold blocks_from. by rewrite app_nil_r. }
  rewrite blocks_from_S, app_assoc. destruct (all_block_spec arena reuse d n k out buf Hd) as [buf1 ->].
  rewrite bind_Ok. apply IH.
Qed.

(** What a whole read answers, whichever arm produced it. *)
Lemma dictSectionAll_spec arena reuse sec n d :
  parseDictSec sec = Ok d → dictSec_wf d → 0 ≤ n →
  dictSectionAll arena reuse sec n = Ok (blocks_from d n 0 (Z.to_nat (numBlocks d))).
Proof.
  intros E Hd Hn. unfold dictSectionAll. rewrite E, bind_Ok, bool_decide_eq_false_2 by lia.
  by destruct (all_blocks_spec arena reuse d n Hd (Z.to_nat (numBlocks d)) 0 [] []) as [buf' ->].
Qed.

(** On every section, corrupt ones included, reading the whole dictionary
    returns, and the arena and buffer-reusing arms answer what one string per
    value and a fresh buffer per block answer. *)
Theorem dictSectionAll_arms arena reuse sec n :
  is_bytes sec → 0 ≤ n →
  ∃ vs, dictSectionAll false false sec n = Ok vs ∧ dictSectionAll arena reuse sec n = Ok vs.
Proof.
  intros Hs Hn. destruct (parseDictSec_returns sec Hs) as (d & E & Hd & _).
  eexists. split; by apply dictSectionAll_spec.
Qed.

(** *** The walk *)

(** The values still to come, and what holds between two calls of [next]. *)
Definition walk_rest (w : dictWalk) (cur : list bytes) : list bytes :=
  drop (Z.to_nat (w_i w)) cur ++
  blocks_from (w_d w) (w_n w) (w_k w) (Z.to_nat (numBlocks (w_d w) - w_k w)).
Record walk_inv (w : dictWalk) (cur : list bytes) : Prop := {
  wi_wf : dictSec_wf (w_d w);
  wi_i : 0 ≤ w_i w;
  wi_cnt : length cur = Z.to_nat (a_cnt (w_a w));
  wi_cur j v : cur !! j = Some v → arena_at (w_a w) (Z.of_nat j) = Ok v }.

Lemma walk_fill_spec reuse : ∀ fuel w cur,
  walk_inv w cur → (Z.to_nat (numBlocks (w_d w) - w_k w) ≤ fuel)%nat →
  ∃ w' cur' ok, walk_fill fuel reuse w = Ok (w', ok) ∧ walk_inv w' cur' ∧
    walk_rest w' cur' = walk_rest w cur ∧
    (if ok then w_i w' < a_cnt (w_a w') else walk_rest w cur = []).
Proof.
  induction fuel as [|f IH]; intros w cur Hw Hf; pose proof Hw as [H1 H2 H3 H4]; cbn [walk_fill];
    (case_bool_decide as Hc; [|exists w, cur, true; split_and!; (done || lia)]);
    (assert (drop (Z.to_nat (w_i w)) cur = []) as Ed by (apply drop_ge; lia));
    (case_bool_decide as Hk;
      [exists w, cur, false; split_and!; [done..|]; unfold walk_rest;
       replace (Z.to_nat (numBlocks (w_d w) - w_k w)) with 0%nat by lia; by rewrite Ed|]); [lia|].
  destruct (block_vals_spec (w_d w) (w_n w) (w_k w) H1) as (raw & Ei & _ & Hr & Ec & Hl).
  rewrite Ei, bind_Ok. destruct (newBlockArena_returns raw (blockCount (w_k w) (w_n w))) as (a & Ea & _ & Ea2 & _).
  rewrite Ea, bind_Ok.
  destruct (IH (Walk (w_d w) (w_n w) (w_k w + 1) 0 a) (block_vals (w_d w) (w_n w) (w_k w)))
    as (w' & cur' & ok & E & Hw' & Er & Hok); simpl in *; [|lia|].
  - constructor; simpl; [done|lia|congruence|]. intros j v Hj.
    destruct (collect_returns (Z.to_nat (blockCount (w_k w) (w_n w))) 0 (blockValAt raw (blockCount (w_k w) (w_n w))))
      as (vs & Ec' & _ & Hv); [intros; by apply blockValAt_returns|].
    rewrite Ec in Ec'. simplify_eq. apply Hv in Hj. rewrite Z.add_0_l in Hj. rewrite <- Hj.
    rewrite <- (arena_at_blockValAt raw (blockCount (w_k w) (w_n w)) _ Hr). by rewrite Ea, bind_Ok.
  - assert (walk_rest (Walk (w_d w) (w_n w) (w_k w + 1) 0 a) (block_vals (w_d w) (w_n w) (w_k w)) = walk_rest w cur) as Es.
    { unfold walk_rest. simpl. rewrite Ed, app_nil_l, drop_0.
      replace (Z.to_nat (numBlocks (w_d w) - w_k w)) with (S (Z.to_nat (numBlocks (w_d w) - (w_k w + 1)))) by lia.
      by rewrite blocks_from_S. }
    exists w', cur', ok. rewrite <- Es. done.
Qed.

Lemma walk_next_spec reuse w cur :
  walk_inv w cur →
  ∃ w' cur' r, walk_next reuse w = Ok (w', r) ∧ walk_inv w' cur' ∧
    match r with
    | Some v => walk_rest w cur = v :: walk_rest w' cur'
    | None => walk_rest w cur = []
    end.
Proof.
  intros Hw. destruct (walk_fill_spec reuse _ w cur Hw (Nat.le_refl _)) as (w1 & cur1 & ok & E & H1 & Er & Hok).
  unfold walk_next. rewrite E, bind_Ok. destruct ok; [|by exists w1, cur1, None].
  pose proof H1 as [G1 G2 G3 G4].
  destruct (lookup_lt_is_Some_2 cur1 (Z.to_nat (w_i w1))) as [v Hv]; [lia|].
  pose proof (G4 _ _ Hv) as Ev. rewrite Z2Nat.id in Ev by lia. rewrite Ev, bind_Ok.
  eexists _, cur1, (Some v). split; [done|]. split; [constructor; simpl; (done || lia)|].
  rewrite <- Er. unfold walk_rest. simpl. rewrite (drop_S _ _ _ Hv). simpl.
  by replace (Z.to_nat (w_i w1 + 1)) with (S (Z.to_nat (w_i w1))) by lia.
Qed.

(** Every value [next] answers until it answers [false]. *)
Fixpoint walk_all (fuel : nat) (reuse : bool) (w : dictWalk) : outcome (list bytes) :=
  match fuel with
  | O => Panic
  | S f =>
      r ← walk_next reuse w;
      match r with
      | (w', Some v) => vs ← walk_all f reuse w'; Ok (v :: vs)
      | (_, None) => Ok []
      end
  end.

Lemma walk_all_spec reuse : ∀ fuel w cur,
  walk_inv w cur → (length (walk_rest w cur) < fuel)%nat → walk_all fuel reuse w = Ok (walk_rest w cur).
Proof.
  induction fuel as [|f IH]; intros w cur Hw Hf; [lia|]. cbn [walk_all].
  destruct (walk_next_spec reuse w cur Hw) as (w' & cur' & [v|] & -> & Hw' & Er); rewrite bind_Ok; [|by rewrite Er].
  rewrite Er in Hf |- *. simpl in Hf. rewrite (IH w' cur') by (done || lia). done.
Qed.

(** The streaming walk of a section, corrupt ones included, yields exactly
    the values the whole read yields, in the same order, and then reports its
    end; it never panics. *)
Theorem dictWalk_all reuse sec n :
  is_bytes sec → 0 ≤ n →
  ∃ w vs, newDictWalk sec n = Ok w ∧ dictSectionAll true true sec n = Ok vs ∧
    walk_all (S (length vs)) reuse w = Ok vs.
Proof.
  intros Hs Hn. destruct (parseDictSec_returns sec Hs) as (d & E & Hd & _).
  unfold newDictWalk. rewrite E, bind_Ok. do 2 eexists. split; [done|].
  split; [by apply dictSectionAll_spec|].
  rewrite (walk_all_spec reuse _ _ []).
  - unfold walk_rest. simpl. by rewrite ?drop_nil, Z.sub_0_r.
  - constructor; simpl; [done|lia|done|]. intros j v. by rewrite lookup_nil.
  - unfold walk_rest. simpl. rewrite ?drop_nil, Z.sub_0_r. simpl. lia.
Qed.
End robust.
