(* ===== verification/DictLayout.v ===== *)
(** * The dictionary section read back

    [marshalDictSection] (internal/storage/dict.go) writes a section from which
    every read returns the dictionary: by id, by value, in whole and in part. *)

From stdpp Require Import sorting.
From S2P Require Import Prelude Digits GoLib Kernels Compress DictSection.
Local Open Scope Z_scope.

(** ** The raw block *)

Lemma len_raw_offsets vals : ∀ off, len (raw_offsets off vals) = 4 * (len vals + 1).
Proof. induction vals as [|s vals IH]; intros off; cbn [raw_offsets]; [len_lia|]. rewrite len_app, IH. len_lia. Qed.
Lemma raw_offsets_bytes vals : ∀ off, is_bytes (raw_offsets off vals).
Proof. induction vals as [|s vals IH]; intros off; cbn [raw_offsets]; [apply le32_bytes|]. apply Forall_app_2; [apply le32_bytes|apply IH]. Qed.

(** Offset [i] of the table is the length of the values before value [i]. *)
Lemma raw_offsets_at vals : ∀ off i,
  0 ≤ off → off + len (concat vals) < 2 ^ 32 → (i ≤ length vals)%nat →
  at_off (raw_offsets off vals) (4 * Z.of_nat i) (le32 (off + len (concat (take i vals)))).
Proof.
  induction vals as [|s vals IH]; intros off i Ho Hl Hi; simpl in Hi.
  - assert (i = 0%nat) as -> by lia. cbn [take concat raw_offsets]. len_nil. rewrite Z.add_0_r. apply at_off_refl.
  - cbn [raw_offsets concat] in *. rewrite len_app in Hl. len_facts. destruct i as [|i].
    + cbn [take concat]. len_nil. rewrite Z.add_0_r. apply at_off_app_l, at_off_refl.
    + cbn [take concat]. rewrite (u32_small (len s)), u32_small by (unfold is_digit; lia).
      replace (4 * Z.of_nat (S i)) with (len (le32 off) + 4 * Z.of_nat i) by len_lia.
      apply at_off_app_r. rewrite len_app, Z.add_assoc. apply IH; lia.
Qed.

Lemma concat_at (vals : list bytes) i v :
  vals !! i = Some v → at_off (concat vals) (len (concat (take i vals))) v.
Proof.
  intros Hi. exists (concat (take i vals)), (concat (drop (S i) vals)). split; [|done].
  rewrite <- (take_drop_middle vals i v Hi) at 1. by rewrite concat_app.
Qed.

(** Value [i] of a raw block, whatever follows the block. *)
Lemma blockValAt_raw vals pad i v :
  len (concat vals) < 2 ^ 32 → vals !! i = Some v →
  blockValAt (marshalRawBlock vals ++ pad) (len vals) (Z.of_nat i) = Ok v.
Proof.
  intros Hl Hi. pose proof (lookup_lt_Some _ _ _ Hi) as Hlt. pose proof (concat_at vals i v Hi) as Hv.
  pose proof (at_off_bound _ _ _ Hv) as Hvb. unfold blockValAt, marshalRawBlock. rewrite <- app_assoc.
  assert (len vals = Z.of_nat (length vals)) as El by done.
  rewrite bool_decide_eq_false_2 by (rewrite len_app, len_raw_offsets; len_lia).
  assert (len (concat (take (S i) vals)) = len (concat (take i vals)) + len v) as E1.
  { rewrite (take_S_r vals i v Hi), concat_app, len_app. cbn [concat]. by rewrite app_nil_r. }
  rewrite (get32_at _ (4 * Z.of_nat i) (0 + len (concat (take i vals)))) by (apply at_off_app_l, raw_offsets_at; lia).
  rewrite bind_Ok. replace (4 * (Z.of_nat i + 1)) with (4 * Z.of_nat (S i)) by lia.
  rewrite (get32_at _ (4 * Z.of_nat (S i)) (0 + len (concat (take (S i) vals)))) by (apply at_off_app_l, raw_offsets_at; lia).
  rewrite bind_Ok, !Z.add_0_l. len_facts. rewrite !u32_small by (unfold is_digit; lia).
  rewrite bool_decide_eq_false_2 by (rewrite !len_app, len_raw_offsets; len_lia).
  apply at_off_slice; [|lia]. replace (4 * (len vals + 1)) with (len (raw_offsets 0 vals)) by apply len_raw_offsets.
  by apply at_off_app_r, at_off_app_l.
Qed.

Lemma marshalRawBlock_len vals : len (marshalRawBlock vals) = 4 * (len vals + 1) + len (concat vals).
Proof. unfold marshalRawBlock. by rewrite len_app, len_raw_offsets. Qed.
Lemma concat_bytes (vals : list bytes) : Forall is_bytes vals → is_bytes (concat vals).
Proof. induction 1; cbn [concat]; [apply Forall_nil_2|by apply Forall_app_2]. Qed.
Lemma marshalRawBlock_bytes vals : Forall is_bytes vals → is_bytes (marshalRawBlock vals).
Proof. intros. apply Forall_app_2; [apply raw_offsets_bytes|by apply concat_bytes]. Qed.

(** ** Hex packing *)

Lemma allLowerHex_loop_spec vals : ∀ total,
  0 ≤ total → allLowerHex_loop vals total = true → Forall (λ c, isLowerHexByte c = true) (concat vals).
Proof.
  induction vals as [|s vals IH]; intros total Ht; cbn [allLowerHex_loop concat]; [by intros; apply Forall_nil_2|].
  case_bool_decide; [done|]. destruct (forallb isLowerHexByte s) eqn:E; [|done]. intros Hr.
  apply Forall_app_2; [|apply (IH (total + len s)); [len_lia|done]].
  rewrite List.forallb_forall in E. apply Forall_forall. intros x Hx. apply E. first [done | by apply list_elem_of_In].
Qed.

Lemma hexNibble_spec c : isLowerHexByte c = true → 0 ≤ hexNibble c < 16 ∧ hex_digit (hexNibble c) = c.
Proof.
  unfold isLowerHexByte, hexNibble, hex_digit, u8. intros H. change (2 ^ 8) with 256.
  destruct (orb_prop _ _ H) as [E%bool_decide_eq_true|E%bool_decide_eq_true].
  - rewrite (bool_decide_eq_true_2 (c ≤ 57)) by lia. rewrite Z.mod_small by lia.
    rewrite bool_decide_eq_true_2 by lia. lia.
  - rewrite (bool_decide_eq_false_2 (c ≤ 57)) by lia. rewrite Z.mod_small by lia.
    rewrite bool_decide_eq_false_2 by lia. lia.
Qed.

Lemma hex_pair_nibbles h l :
  0 ≤ h < 16 → 0 ≤ l < 16 →
  let b := Z.lor (u8 (Z.shiftl h 4)) l in is_byte b ∧ hex_pair b = [hex_digit h; hex_digit l].
Proof.
  intros Hh Hl. cbv zeta. rewrite Z.shiftl_mul_pow2 by lia. change (2 ^ 4) with 16.
  unfold u8. change (2 ^ 8) with 256. rewrite Z.mod_small, lor_nibbles by lia.
  split; [unfold is_digit; lia|]. unfold hex_pair.
  rewrite (Z.add_comm (h * 16)), Z.div_add, Z_mod_plus_full, Z.div_small, Z.mod_small by lia. done.
Qed.

(** Induction two elements at a time, as [hex_pack] recurses. *)
Lemma list_ind2 {A} (P : list A → Prop) :
  P [] → (∀ x, P [x]) → (∀ x y l, P l → P (x :: y :: l)) → ∀ l, P l.
Proof.
  intros H0 H1 H2 l. enough (P l ∧ ∀ x, P (x :: l)) by tauto.
  induction l as [|y l [IH1 IH2]]; split; auto.
Qed.

Lemma hex_pack_spec strs :
  Forall (λ c, isLowerHexByte c = true) strs →
  is_bytes (hex_pack strs) ∧ len (hex_pack strs) = (len strs + 1) / 2 ∧
  ∃ pad, List.flat_map hex_pair (hex_pack strs) = strs ++ pad.
Proof.
  induction strs as [|c|c d strs IH] using list_ind2; intros H.
  - split_and!; [apply Forall_nil_2|done|by exists []].
  - apply Forall_cons_1 in H as [Hc _]. destruct (hexNibble_spec c Hc) as [R E].
    destruct (hex_pair_nibbles (hexNibble c) 0 R ltac:(lia)) as [Hb Ep].
    cbn [hex_pack]. split_and!; [by apply Forall_cons_2; [|apply Forall_nil_2]|done|].
    exists [hex_digit 0]. cbn [List.flat_map]. by rewrite Ep, E.
  - apply Forall_cons_1 in H as [Hc H]. apply Forall_cons_1 in H as [Hd H].
    destruct (hexNibble_spec c Hc) as [R E]. destruct (hexNibble_spec d Hd) as [R' E'].
    destruct (hex_pair_nibbles _ _ R R') as [Hb Ep]. destruct (IH H) as (Hbs & Hl & pad & Epad).
    cbn [hex_pack]. split_and!.
    + by apply Forall_cons_2.
    + rewrite !len_cons, Hl. replace (1 + (1 + len strs) + 1) with (len strs + 1 + 1 * 2) by lia.
      rewrite Z.div_add by lia. lia.
    + exists pad. cbn [List.flat_map]. by rewrite Ep, E, E', Epad.
Qed.

(** ** The codec flags of an index entry *)

Lemma testbit_small x k i : 0 ≤ x < 2 ^ k → k ≤ i → Z.testbit x i = false.
Proof. intros Hx Hi. destruct (decide (k < 0)) as [Hk|Hk]; [rewrite Z.pow_neg_r in Hx by lia; lia|].
  rewrite <- (Z.mod_small x (2 ^ k)) by done. apply Z.mod_pow2_bits_high. lia. Qed.
Lemma land_pow2_small x k : 0 ≤ x < 2 ^ k → 0 ≤ k → Z.land x (2 ^ k) = 0.
Proof.
  intros Hx Hk. apply Z.bits_inj'. intros i Hi. rewrite Z.land_spec, Z.bits_0, Z.pow2_bits_eqb by done.
  destruct (Z.eqb_spec k i); [|apply andb_false_r]. rewrite (testbit_small x k) by (done || lia). done.
Qed.

Lemma codec_flags rl f :
  0 ≤ rl < 2 ^ 30 → f = 0 ∨ f = dictCodecHex ∨ f = dictCodecFlate →
  Z.land (Z.lor rl f) dictCodecHex = Z.land f dictCodecHex ∧
  Z.land (Z.lor rl f) dictCodecFlate = Z.land f dictCodecFlate ∧
  Z.ldiff (Z.lor rl f) (Z.lor dictCodecFlate dictCodecHex) = rl ∧ is_u32 (Z.lor rl f).
Proof.
  intros Hr Hf.
  assert (Z.land rl dictCodecHex = 0) as E1 by (apply land_pow2_small; lia).
  assert (Z.land rl dictCodecFlate = 0) as E2 by (apply land_pow2_small; lia).
  split_and!; [by rewrite Z.land_lor_distr_l, E1|by rewrite Z.land_lor_distr_l, E2| |].
  - apply Z.bits_inj'. intros i Hi. rewrite Z.ldiff_spec, !Z.lor_spec.
    unfold dictCodecFlate, dictCodecHex in *. rewrite !Z.pow2_bits_eqb by lia.
    destruct (Z.eqb_spec 31 i) as [<-|H31]; [rewrite (testbit_small rl 30) by lia; apply andb_false_r|].
    destruct (Z.eqb_spec 30 i) as [<-|H30]; [rewrite (testbit_small rl 30) by lia; apply andb_false_r|].
    rewrite andb_true_r. destruct Hf as [-> |[-> | ->]].
    + by rewrite Z.bits_0, orb_false_r.
    + rewrite Z.pow2_bits_eqb by lia. destruct (Z.eqb_spec 30 i); [done|by rewrite orb_false_r].
    + rewrite Z.pow2_bits_eqb by lia. destruct (Z.eqb_spec 31 i); [done|by rewrite orb_false_r].
  - unfold dictCodecHex, dictCodecFlate in *. destruct Hf as [-> |[-> | ->]].
    + rewrite Z.lor_0_r. unfold is_digit. lia.
    + change (2 ^ 30) with (Z.shiftl 1 30). rewrite lor_shiftl_add by lia. unfold is_digit. lia.
    + change (2 ^ 31) with (Z.shiftl 1 31). rewrite lor_shiftl_add by lia. unfold is_digit. lia.
Qed.

Section layout.
Context {K : Simd} {KL : SimdLaws K} {F : Flate} {FL : FlateLaws F}.

(** A compressed block [c] with raw-length field [rf] inflates to the raw block
    of [vals], padded by at most one character. *)
Definition encodes (c : bytes) (rf : Z) (vals : list bytes) : Prop :=
  is_bytes c ∧ is_u32 rf ∧ ∃ pad,
    (if bool_decide (Z.land rf dictCodecHex ≠ 0) then hexUnpackBlock c
     else if bool_decide (Z.land rf dictCodecFlate ≠ 0)
       then Ok (flateDecompress c (Z.ldiff rf (Z.lor dictCodecFlate dictCodecHex)))
     else Ok (lz4Decompress c (Z.ldiff rf (Z.lor dictCodecFlate dictCodecHex)))) =
    Ok (marshalRawBlock vals ++ pad).

(** Unpacking a packed block: its raw form, padded to a whole byte. *)
Lemma hexUnpack_pack vals :
  Forall is_bytes vals → allLowerHex vals = true → 4 * (len vals + 1) + len (concat vals) < 2 ^ 30 →
  ∃ c pad, hexPackBlock (marshalRawBlock vals) (len vals) = Ok c ∧ is_bytes c ∧
    hexUnpackBlock c = Ok (marshalRawBlock vals ++ pad).
Proof.
  intros Hb Hx Hl. len_facts. pose proof (len_raw_offsets vals 0) as Lo.
  destruct (hex_pack_spec (concat vals)) as (Pb & Pl & pad & Ep); [by apply (allLowerHex_loop_spec vals 0)|].
  unfold hexPackBlock. rewrite slice_from_Ok by (rewrite ?marshalRawBlock_len; lia). rewrite bind_Ok.
  unfold marshalRawBlock. rewrite <- Lo, drop_len_app. set (offs := raw_offsets 0 vals) in *.
  rewrite (at_off_slice _ offs) by (lia || apply at_off_app_l, at_off_refl). rewrite bind_Ok.
  rewrite u32_small by (unfold is_digit; lia).
  eexists _, pad. split; [done|]. split; [by repeat apply Forall_app_2; try apply le32_bytes; try apply raw_offsets_bytes|].
  unfold hexUnpackBlock, hexUnpackBlockInto. set (P := hex_pack (concat vals)) in *.
  set (c := le32 (len vals) ++ offs ++ P).
  assert (len c = 4 + len offs + len P) as Lc by (subst c; len_lia). len_facts.
  pose proof (at_off_refl c) as A0. unfold c in A0 at 2.
  apply at_off_app in A0 as [A0 A1]. apply at_off_app in A1 as [A1 A2].
  rewrite len_le32, Z.add_0_l in A1, A2.
  rewrite bool_decide_eq_false_2 by lia.
  rewrite (get32_at c 0 (len vals)) by done.
  rewrite bind_Ok, u32_small by (unfold is_digit; lia).
  rewrite bool_decide_eq_false_2.
  2:{ assert (len vals ≤ (len c - 4) / 4); [apply Z.div_le_lower_bound; lia|lia]. }
  rewrite bool_decide_eq_false_2 by lia.
  rewrite (get32_at c (4 + 4 * len vals) (0 + len (concat (take (length vals) vals)))).
  2:{ eapply at_off_trans; [exact A1|]. apply raw_offsets_at; lia. }
  rewrite bind_Ok, firstn_all, Z.add_0_l, u32_small by (unfold is_digit; lia).
  rewrite <- Lo. fold offs. rewrite <- Pl. rewrite bool_decide_eq_false_2 by lia.
  rewrite (at_off_slice c offs _ _ A1) by done. rewrite bind_Ok.
  rewrite (at_off_slice c P _ _ A2) by done. rewrite bind_Ok, hex_encode by done. f_equal.
  rewrite <- app_assoc, <- Ep. apply overlay_fill. rewrite fitBuf_len, flat_hex_len; lia.
Qed.

Lemma block_encodes vals (compact : bool) :
  Forall is_bytes vals → 4 * (len vals + 1) + len (concat vals) < 2 ^ 30 →
  ∃ c rf,
    (let raw := marshalRawBlock vals in let rl := u32 (len raw) in
     if allLowerHex vals then c ← hexPackBlock raw (len vals); Ok (c, Z.lor rl dictCodecHex)
     else if compact then Ok (flateCompress raw, Z.lor rl dictCodecFlate)
     else c ← lz4Compress raw; Ok (c, rl)) = Ok (c, rf) ∧ encodes c rf vals.
Proof.
  intros Hb Hl. cbv zeta. pose proof (marshalRawBlock_bytes vals Hb) as Hraw. len_facts.
  assert (u32 (len (marshalRawBlock vals)) = len (marshalRawBlock vals)) as -> by
    (apply u32_small; unfold is_digit; rewrite marshalRawBlock_len; lia).
  rewrite <- marshalRawBlock_len in Hl. set (raw := marshalRawBlock vals) in *. len_facts.
  destruct (allLowerHex vals) eqn:Ex; [|destruct compact].
  - destruct (hexUnpack_pack vals) as (c & pad & Ec & Hc & Hu); [done..|by rewrite <- marshalRawBlock_len|].
    fold raw in Ec, Hu. rewrite Ec, bind_Ok. do 2 eexists. split; [done|].
    destruct (codec_flags (len raw) dictCodecHex) as (F1 & F2 & F3 & F4); [lia|auto|].
    split_and!; [done..|]. exists pad. by rewrite F1.
  - do 2 eexists. split; [done|].
    destruct (codec_flags (len raw) dictCodecFlate) as (F1 & F2 & F3 & F4); [lia|auto|].
    split_and!; [by apply deflate_bytes|done|]. exists []. rewrite F1, F2, F3. cbn.
    unfold flateDecompress. rewrite flate_roundtrip by done. by rewrite app_nil_r.
  - destruct (lz4_block_spec raw) as (c & -> & Hc & Hd); [done|lia|]. rewrite bind_Ok.
    do 2 eexists. split; [done|].
    destruct (codec_flags (len raw) 0) as (F1 & F2 & F3 & F4); [lia|auto|]. rewrite Z.lor_0_r in *.
    split_and!; [done..|]. exists []. rewrite F1, F2, F3. cbn. unfold lz4Decompress. rewrite Hd. by rewrite app_nil_r.
Qed.

(** ** Tables of fixed-stride entries *)

Lemma flat_map_at {A} (f : A → bytes) n (l : list A) i x :
  (∀ y, len (f y) = n) → l !! i = Some x → at_off (List.flat_map f l) (n * Z.of_nat i) (f x).
Proof.
  intros Hf. revert i. induction l as [|y l IH]; intros [|i] Hi; simpl in Hi; simplify_eq; cbn [List.flat_map].
  - rewrite Z.mul_0_r. apply at_off_app_l, at_off_refl.
  - replace (n * Z.of_nat (S i)) with (len (f y) + n * Z.of_nat i) by (rewrite Hf; lia).
    by apply at_off_app_r, IH.
Qed.
Lemma flat_map_len {A} (f : A → bytes) n (l : list A) :
  (∀ y, len (f y) = n) → len (List.flat_map f l) = n * len l.
Proof. intros Hf. induction l as [|y l IH]; cbn [List.flat_map]; [len_nil; lia|]. rewrite len_app, len_cons, IH, Hf. lia. Qed.
Lemma flat_map_bytes {A} (f : A → bytes) (l : list A) :
  (∀ y, is_bytes (f y)) → is_bytes (List.flat_map f l).
Proof. intros Hf. induction l as [|y l IH]; cbn [List.flat_map]; [apply Forall_nil_2|apply Forall_app_2; [apply Hf|done]]. Qed.

(** The start of each piece of a concatenation. *)
Definition offs_of (l : list bytes) : list Z := (λ j, u32 (len (concat (take j l)))) <$> seq 0 (length l).
Lemma offs_of_snoc l x : offs_of (l ++ [x]) = offs_of l ++ [u32 (len (concat l))].
Proof.
  unfold offs_of. rewrite length_app, Nat.add_1_r, seq_S, fmap_app. f_equal.
  - apply list_fmap_ext. intros i j Hj. apply lookup_seq in Hj as [-> Hj]. simpl. by rewrite take_app_le by lia.
  - simpl. by rewrite take_app_length.
Qed.
Lemma offs_of_length l : length (offs_of l) = length l.
Proof. unfold offs_of. by rewrite length_fmap, length_seq. Qed.
Lemma offs_of_lookup l i : (i < length l)%nat → offs_of l !! i = Some (u32 (len (concat (take i l)))).
Proof. intros Hi. unfold offs_of. by rewrite list_lookup_fmap, lookup_seq_lt by done. Qed.
Lemma offs_of_end l i :
  (i ≤ length l)%nat → (offs_of l ++ [u32 (len (concat l))]) !! i = Some (u32 (len (concat (take i l)))).
Proof.
  intros Hi. destruct (decide (i < length l)%nat).
  - rewrite lookup_app_l by (by rewrite offs_of_length). by apply offs_of_lookup.
  - assert (i = length l) as -> by lia. rewrite lookup_app_r by (by rewrite offs_of_length).
    by rewrite offs_of_length, Nat.sub_diag, firstn_all.
Qed.

(** ** The section *)

(** Block [k]'s values. *)
Definition chunk (dict : list bytes) (k : nat) : list bytes := take 64 (drop (64 * k) dict).
Definition num_blocks (dict : list bytes) : Z := (len dict + 63) / 64.

(** What the block loop has written after blocks with first values [fv] and
    compressed blocks [cs]. *)
Definition sec_of (fv : list bytes) (cs : list (bytes * Z)) : sec_state :=
  Sec (concat fv) (offs_of fv)
      (zip_with (λ o p, Bi o (u32 (len p.1)) p.2) (offs_of cs.*1) cs) (concat cs.*1).
Record blocks_done (dict : list bytes) (i : nat) (fv : list bytes) (cs : list (bytes * Z)) : Prop := {
  bd_fv : length fv = i;
  bd_cs : length cs = i;
  bd_first j : (j < i)%nat → fv !! j = dict !! (64 * j)%nat;
  bd_enc j c rf : cs !! j = Some (c, rf) → encodes c rf (chunk dict j) }.

Lemma concat_take_le (l : list bytes) n : len (concat (take n l)) ≤ len (concat l).
Proof. rewrite <- (take_drop n l) at 2. rewrite concat_app. len_lia. Qed.
Lemma concat_drop_le (l : list bytes) n : len (concat (drop n l)) ≤ len (concat l).
Proof. rewrite <- (take_drop n l) at 2. rewrite concat_app. len_lia. Qed.

Lemma num_blocks_bounds dict k : 0 ≤ k < num_blocks dict → k * 64 < len dict.
Proof. unfold num_blocks. intros Hk. pose proof (Z_div_mod_eq_full (len dict + 63) 64). pose proof (Z.mod_pos_bound (len dict + 63) 64). lia. Qed.
Lemma num_blocks_cover dict i : 0 ≤ i < len dict → i / 64 < num_blocks dict.
Proof. intros. unfold num_blocks. apply Z.lt_le_trans with (i / 64 + 1); [lia|]. apply Z.div_le_lower_bound; [lia|]. pose proof (Z_div_mod_eq_full i 64). pose proof (Z.mod_pos_bound i 64). lia. Qed.

Lemma section_step_spec dict compact k fv cs :
  Forall is_bytes dict → len (concat dict) < 2 ^ 30 - 260 → 0 ≤ k < num_blocks dict →
  blocks_done dict (Z.to_nat k) fv cs →
  ∃ fv' cs', section_step dict compact k (sec_of fv cs) = Ok (sec_of fv' cs') ∧
    blocks_done dict (S (Z.to_nat k)) fv' cs'.
Proof.
  intros Hb Hl Hk [D1 D2 D3 D4]. pose proof (num_blocks_bounds dict k Hk) as Hk2.
  destruct (lookup_lt_is_Some_2 dict (64 * Z.to_nat k)) as [first Ef]; [unfold len in *; lia|].
  unfold section_step, dictBlock. rewrite (index_Ok dict (k * 64) first), bind_Ok;
    [|lia|rewrite <- Ef; f_equal; lia].
  set (hi := Z.min (k * 64 + 64) (len dict)).
  assert (slice dict (k * 64) hi = Ok (chunk dict (Z.to_nat k))) as ->.
  { rewrite slice_Ok by lia. unfold chunk. replace (Z.to_nat (k * 64)) with (64 * Z.to_nat k)%nat by lia. f_equal.
    destruct (decide (k * 64 + 64 ≤ len dict)); [f_equal; lia|].
    rewrite !take_ge; [done|rewrite length_drop; unfold len in *; lia..]. }
  rewrite bind_Ok. assert (hi - k * 64 = len (chunk dict (Z.to_nat k))) as ->.
  { unfold chunk. rewrite len_take, len_drop. lia. }
  destruct (block_encodes (chunk dict (Z.to_nat k)) compact) as (c & rf & E & He).
  { by apply Forall_take, Forall_drop. }
  { assert (len (chunk dict (Z.to_nat k)) ≤ 64) by (unfold chunk; rewrite len_take; lia).
    pose proof (concat_take_le (drop (64 * Z.to_nat k) dict) 64).
    pose proof (concat_drop_le dict (64 * Z.to_nat k)). unfold chunk in *. lia. }
  cbv zeta in E. cbv zeta. rewrite E, bind_Ok. exists (fv ++ [first]), (cs ++ [(c, rf)]).
  assert (length cs = length (offs_of cs.*1)) as El by (by rewrite offs_of_length, length_fmap).
  split.
  - f_equal. unfold sec_of. simpl. rewrite fmap_app. simpl.
    rewrite !concat_app, !offs_of_snoc, zip_with_app by done. cbn [concat zip_with]. by rewrite !app_nil_r.
  - constructor; [rewrite length_app; simpl; lia..| |].
    + intros j Hj. destruct (decide (j = Z.to_nat k)) as [-> |].
      * rewrite lookup_app_r, D1, Nat.sub_diag by lia. by rewrite Ef.
      * rewrite lookup_app_l by lia. apply D3. lia.
    + intros j c' rf' Hj. destruct (decide (j = Z.to_nat k)) as [-> |].
      * rewrite lookup_app_r, D2, Nat.sub_diag in Hj by lia. simpl in Hj. by simplify_eq.
      * pose proof (lookup_lt_Some _ _ _ Hj) as Hlt. rewrite length_app in Hlt. simpl in Hlt.
        rewrite lookup_app_l in Hj by lia. by apply D4 in Hj.
Qed.

Lemma sec_needs sec p n : 0 ≤ n → p + n ≤ len sec → sec_need sec p n = true.
Proof. intros. unfold sec_need. apply bool_decide_eq_true_2. lia. Qed.

(** Parsing a well-formed section recovers its five parts. *)
Lemma parseDictSec_parts nb A B C D :
  0 ≤ nb → len A = 4 * (nb + 1) → len C = nb * 12 →
  let sec := le32 nb ++ le32 dictBlock ++ A ++ le32 (len B) ++ B ++ C ++ le32 (len D) ++ D in
  len sec < 2 ^ 32 → parseDictSec sec = Ok (MkDictSec nb A B C D).
Proof.
  intros Hnb HA HC sec Hs. pose proof (at_off_refl sec) as H0. unfold sec in H0 at 2.
  assert (len sec = 16 + len A + len B + len C + len D) as Ls by (subst sec; len_lia). len_facts.
  apply at_off_app in H0 as [P0 H0]. apply at_off_app in H0 as [_ H0]. apply at_off_app in H0 as [PA H0].
  apply at_off_app in H0 as [PBl H0]. apply at_off_app in H0 as [PB H0]. apply at_off_app in H0 as [PC H0].
  apply at_off_app in H0 as [PDl PD]. rewrite !len_le32 in *. rewrite HA, HC in *.
  change (0 + 4 + 4) with 8 in *.
  unfold parseDictSec. rewrite bool_decide_eq_false_2 by lia.
  rewrite (get32_at sec 0 nb), bind_Ok by done. rewrite u32_small by (unfold is_digit; lia).
  rewrite bool_decide_eq_false_2.
  2:{ assert (nb ≤ (len sec - 8) / 16) by (apply Z.div_le_lower_bound; lia). lia. }
  cbv zeta. rewrite sec_needs by lia. cbn [negb].
  rewrite (at_off_slice sec A _ _ PA), bind_Ok by (done || lia). rewrite sec_needs by lia. cbn [negb].
  rewrite (get32_at sec _ (len B) PBl), bind_Ok, u32_small by (unfold is_digit; lia).
  rewrite sec_needs by lia. cbn [negb].
  rewrite (at_off_slice sec B _ _ PB), bind_Ok by (done || lia). rewrite sec_needs by lia. cbn [negb].
  rewrite (at_off_slice sec C _ _ PC), bind_Ok by (done || lia). rewrite sec_needs by lia. cbn [negb].
  rewrite (get32_at sec _ (len D) PDl), bind_Ok, u32_small by (unfold is_digit; lia).
  rewrite sec_needs by lia. cbn [negb].
  by rewrite (at_off_slice sec D _ _ PD), bind_Ok by (done || lia).
Qed.

(** What a section promises its readers: how it parses, the first value of each
    block, and the contents of each block. *)
Record dict_layout (sec : bytes) (dict : list bytes) : Prop := {
  dl_bytes : is_bytes sec;
  dl_parse : ∃ d, parseDictSec sec = Ok d ∧ dictSec_wf d ∧ numBlocks d = num_blocks dict ∧
    ∀ k, (Z.of_nat k < num_blocks dict) →
      (∀ v, dict !! (64 * k)%nat = Some v → firstVal d (Z.of_nat k) = Ok v) ∧
      ∃ pad, block d (Z.of_nat k) = Ok (marshalRawBlock (chunk dict k) ++ pad);
  dl_size : len (concat dict) < 2 ^ 32 }.

Lemma len_bi_bytes e : len (bi_bytes e) = 12.
Proof. unfold bi_bytes. len_lia. Qed.
Lemma bi_bytes_bytes e : is_bytes (bi_bytes e).
Proof. unfold bi_bytes. repeat apply Forall_app_2; apply le32_bytes. Qed.

Lemma firstVal_table nb fv B C k v :
  len (concat fv) < 2 ^ 32 → fv !! k = Some v →
  firstVal (MkDictSec nb (List.flat_map le32 (offs_of fv ++ [u32 (len (concat fv))])) (concat fv) B C)
    (Z.of_nat k) = Ok v.
Proof.
  intros Hl Hk. pose proof (lookup_lt_Some _ _ _ Hk) as Hlt. unfold firstVal. cbn [fvOff fvStr].
  pose proof (concat_at fv k v Hk) as Hv. pose proof (at_off_bound _ _ _ Hv).
  assert (len (concat (take (S k) fv)) = len (concat (take k fv)) + len v) as E1.
  { rewrite (take_S_r fv k v Hk), concat_app, len_app. cbn [concat]. by rewrite app_nil_r. }
  set (T := List.flat_map le32 _).
  assert (len T = 4 * (Z.of_nat (length fv) + 1)) as LT.
  { unfold T. rewrite (flat_map_len le32 4) by apply len_le32. unfold len. rewrite length_app, offs_of_length. simpl. lia. }
  rewrite bool_decide_eq_false_2 by lia. len_facts.
  assert (∀ j, (j ≤ length fv)%nat → get32 T (4 * Z.of_nat j) = Ok (len (concat (take j fv)))) as Hg.
  { intros j Hj. pose proof (concat_take_le fv j). len_facts.
    rewrite (get32_at T _ (u32 (len (concat (take j fv))))) by (by apply (flat_map_at le32); [apply len_le32|apply offs_of_end]).
    f_equal. rewrite (u32_small (len _)), u32_small by (unfold is_digit; lia). done. }
  rewrite Hg, bind_Ok by lia. replace (Z.of_nat k + 1) with (Z.of_nat (S k)) by lia.
  rewrite Hg, bind_Ok by lia. rewrite bool_decide_eq_false_2 by lia. apply at_off_slice; [done|lia].
Qed.

Lemma block_table nb A B cs k c rf vals :
  len (concat cs.*1) < 2 ^ 32 → cs !! k = Some (c, rf) → encodes c rf vals →
  ∃ pad, block (MkDictSec nb A B
                 (List.flat_map bi_bytes (zip_with (λ o p, Bi o (u32 (len p.1)) p.2) (offs_of cs.*1) cs))
                 (concat cs.*1)) (Z.of_nat k) = Ok (marshalRawBlock vals ++ pad).
Proof.
  intros Hl Hk (Hc & Hrf & pad & Hd). exists pad. unfold block, blockInto. cbn [idx comp].
  assert (cs.*1 !! k = Some c) as Hk1 by (by rewrite list_lookup_fmap, Hk).
  pose proof (lookup_lt_Some _ _ _ Hk1) as Hlt.
  pose proof (concat_at cs.*1 k c Hk1) as Hv. pose proof (at_off_bound _ _ _ Hv). len_facts.
  set (o := len (concat (take k cs.*1))) in *. set (T := List.flat_map bi_bytes _).
  assert (at_off T (12 * Z.of_nat k) (bi_bytes (Bi (u32 o) (u32 (len c)) rf))) as HT.
  { apply flat_map_at; [apply len_bi_bytes|]. rewrite lookup_zip_with, offs_of_lookup by done.
    by rewrite Hk. }
  pose proof (at_off_bound _ _ _ HT) as BT. rewrite len_bi_bytes in BT.
  unfold bi_bytes in HT. cbn [compOff compLen rawLen] in HT.
  apply at_off_app in HT as [T1 HT]. apply at_off_app in HT as [T2 T3]. rewrite !len_le32 in *.
  rewrite bool_decide_eq_false_2 by lia. replace (Z.of_nat k * 12) with (12 * Z.of_nat k) by lia.
  rewrite (get32_at _ _ _ T1), bind_Ok, (get32_at _ _ _ T2), bind_Ok.
  replace (12 * Z.of_nat k + 8) with (12 * Z.of_nat k + 4 + 4) by lia.
  rewrite (get32_at _ _ _ T3), bind_Ok.
  rewrite (u32_small o), (u32_small (len c)), (u32_small rf), !u32_small by (done || unfold is_digit; lia).
  rewrite bool_decide_eq_false_2 by lia. cbv zeta. rewrite (at_off_slice _ c), bind_Ok by done. done.
Qed.

Lemma concat_firsts_le (dict fv : list bytes) : ∀ n,
  length fv = n → (∀ j, (j < n)%nat → fv !! j = dict !! (64 * j)%nat) → len (concat fv) ≤ len (concat dict).
Proof.
  intros n. revert dict fv. induction n as [|n IH]; intros dict fv Hn Hj.
  - destruct fv; [|done]. cbn [concat]. len_lia.
  - destruct fv as [|v fv]; [done|]. simpl in Hn. pose proof (Hj 0%nat ltac:(lia)) as H0. simpl in H0.
    destruct dict as [|w dict]; [done|]. simpl in H0. simplify_eq. cbn [concat]. rewrite !len_app.
    transitivity (len w + len (concat (drop 63 dict))); [|pose proof (concat_drop_le dict 63); lia].
    apply Z.add_le_mono_l. apply (IH (drop 63 dict) fv); [done|]. intros j Hlt.
    rewrite lookup_drop. pose proof (Hj (S j) ltac:(lia)) as Hs. change ((w :: fv) !! S j) with (fv !! j) in Hs. rewrite Hs.
    replace (64 * S j)%nat with (S (63 + 64 * j)) by lia. done.
Qed.

(** The section of a dictionary that fits has the promised layout. *)
Lemma marshalDictSection_layout dict compact :
  Forall is_bytes dict → len (concat dict) < 2 ^ 30 - 260 →
  ∃ sec, marshalDictSection dict compact = Ok sec ∧ (len sec < 2 ^ 32 → dict_layout sec dict).
Proof.
  intros Hb Hl. assert (0 ≤ num_blocks dict) as Hnb by (apply Z.div_pos; len_lia).
  unfold marshalDictSection.
  assert ((if bool_decide (0 < len dict) then (len dict + dictBlock - 1) / dictBlock else 0) = num_blocks dict) as ->.
  { unfold num_blocks, dictBlock. case_bool_decide; [f_equal; lia|]. assert (len dict = 0) as -> by len_lia. done. }
  destruct (forM_inv (λ i s, ∃ fv cs, s = sec_of fv cs ∧ blocks_done dict (Z.to_nat i) fv cs)
              (Z.to_nat (num_blocks dict)) 0 (section_step dict compact) (Sec [] [] [] []))
    as (s & -> & fv & cs & -> & D).
  { exists [], []. split; [done|]. constructor; simpl; [done..|intros; lia|done]. }
  { intros i s Hi (fv & cs & -> & D). rewrite Z2Nat.id in Hi by done. rewrite Z.add_0_l in Hi.
    destruct (section_step_spec dict compact i fv cs Hb Hl Hi D) as (fv' & cs' & E & D').
    eexists. split; [exact E|]. exists fv', cs'. split; [done|].
    by replace (Z.to_nat (i + 1)) with (S (Z.to_nat i)) by lia. }
  rewrite Z.add_0_l, Z2Nat.id in D by done. destruct D as [D1 D2 D3 D4].
  rewrite bind_Ok. cbn [s_fvStr s_fvOff s_idx s_comp sec_of]. eexists. split; [done|]. intros Hs.
  pose proof (concat_firsts_le dict fv _ D1 D3) as Hfv.
  set (T := zip_with _ _ cs) in *. set (A := List.flat_map le32 _) in *. set (C := List.flat_map bi_bytes T) in *.
  assert (len A = 4 * (num_blocks dict + 1)) as LA.
  { unfold A. rewrite (flat_map_len le32 4) by apply len_le32. unfold len. rewrite length_app, offs_of_length. simpl. lia. }
  assert (len C = num_blocks dict * 12) as LC.
  { unfold C. rewrite (flat_map_len bi_bytes 12) by apply len_bi_bytes. unfold len, T.
    rewrite length_zip_with, offs_of_length, length_fmap. lia. }
  assert (len (concat cs.*1) < 2 ^ 32) as Lcs by len_lia.
  assert (num_blocks dict < 2 ^ 32) by len_lia. len_facts.
  rewrite !u32_small in * by (unfold is_digit; lia).
  assert (∀ j c rf, cs !! j = Some (c, rf) → is_bytes c) as Hcs by (intros j c rf Hj; apply (D4 j c rf Hj)).
  assert (is_bytes (concat cs.*1)) as HD.
  { apply concat_bytes, Forall_fmap, Forall_lookup. intros j [c rf] Hj. by apply (Hcs j c rf). }
  assert (is_bytes (concat fv)) as HB.
  { apply concat_bytes, Forall_lookup. intros j v Hj. rewrite D3 in Hj by (apply lookup_lt_Some in Hj; lia).
    rewrite Forall_lookup in Hb. by apply Hb in Hj. }
  assert (is_bytes A) as HA by (apply flat_map_bytes, le32_bytes).
  assert (is_bytes C) as HC by (apply flat_map_bytes, bi_bytes_bytes).
  split; [by repeat apply Forall_app_2; try apply le32_bytes| |lia].
  exists (MkDictSec (num_blocks dict) A (concat fv) C (concat cs.*1)).
  split; [by apply parseDictSec_parts|]. split; [by constructor|]. split; [done|]. intros k Hk. split.
  - intros v Hv. unfold A.
    apply firstVal_table; [lia|]. rewrite D3 by lia. done.
  - destruct (lookup_lt_is_Some_2 cs k) as [[c rf] Ek]; [lia|].
    eapply block_table; [done|exact Ek|]. by apply D4.
Qed.

(** ** Reads of a section with the promised layout *)

Lemma chunk_len dict k : 0 ≤ k < num_blocks dict → len (chunk dict (Z.to_nat k)) = blockCount k (len dict).
Proof.
  intros Hk. pose proof (num_blocks_bounds dict k Hk). unfold chunk, blockCount, dictBlock.
  rewrite len_take, len_drop. lia.
Qed.
Lemma chunk_lookup dict k j : (j < 64)%nat → chunk dict k !! j = dict !! (64 * k + j)%nat.
Proof. intros Hj. unfold chunk. by rewrite lookup_take_lt, lookup_drop by done. Qed.
Lemma chunk_concat_le dict k : len (concat (chunk dict k)) ≤ len (concat dict).
Proof. unfold chunk. etransitivity; [apply concat_take_le|apply concat_drop_le]. Qed.

(** The value at position [j] of block [k], read from the inflated block. *)
Lemma layout_block sec dict :
  dict_layout sec dict → ∃ d, parseDictSec sec = Ok d ∧ dictSec_wf d ∧ numBlocks d = num_blocks dict ∧
    ∀ k, 0 ≤ k < num_blocks dict →
      (∀ v, dict !! Z.to_nat (64 * k) = Some v → firstVal d k = Ok v) ∧
      ∃ raw, block d k = Ok raw ∧ ∀ j v, 0 ≤ j < 64 → dict !! Z.to_nat (64 * k + j) = Some v →
        blockValAt raw (blockCount k (len dict)) j = Ok v.
Proof.
  intros [Hb (d & E & Hd & Hn & Hk) Hs]. exists d. split_and!; [done..|]. intros k Hr.
  destruct (Hk (Z.to_nat k)) as [Hf [pad Hp]]; [lia|]. rewrite Z2Nat.id in Hf, Hp by lia. split.
  - intros v Hv. apply Hf. rewrite <- Hv. f_equal. lia.
  - eexists. split; [exact Hp|]. intros j v Hj Hv. rewrite <- chunk_len by done.
    replace j with (Z.of_nat (Z.to_nat j)) by lia. apply blockValAt_raw.
    + pose proof (chunk_concat_le dict (Z.to_nat k)). lia.
    + rewrite chunk_lookup by lia. rewrite <- Hv. f_equal. lia.
Qed.

Lemma dictSectionAt_layout sec dict i v :
  dict_layout sec dict → dict !! Z.to_nat i = Some v → 0 ≤ i → dictSectionAt sec (len dict) i = Ok v.
Proof.
  intros HL Hi H0. destruct (layout_block sec dict HL) as (d & E & Hd & Hn & Hk).
  pose proof (lookup_lt_Some _ _ _ Hi) as Hlt. pose proof (num_blocks_cover dict i ltac:(unfold len; lia)) as Hc.
  pose proof (Z_div_mod_eq_full i 64). pose proof (Z.mod_pos_bound i 64 ltac:(lia)).
  unfold dictSectionAt, dictBlock. rewrite E, bind_Ok, Z.quot_div_nonneg, Z.rem_mod_nonneg by lia.
  rewrite bool_decide_eq_false_2 by lia.
  destruct (Hk (i / 64)) as [_ (raw & -> & Hv)]; [lia|]. rewrite bind_Ok. apply Hv; [lia|].
  rewrite <- Hi. f_equal. lia.
Qed.

Lemma block_vals_chunk d dict k raw :
  0 ≤ k < num_blocks dict → block d k = Ok raw →
  (∀ j v, 0 ≤ j < 64 → dict !! Z.to_nat (64 * k + j) = Some v → blockValAt raw (blockCount k (len dict)) j = Ok v) →
  block_vals d (len dict) k = chunk dict (Z.to_nat k).
Proof.
  intros Hk Hb Hv. unfold block_vals. rewrite Hb, bind_Ok.
  assert (Z.to_nat (blockCount k (len dict)) = length (chunk dict (Z.to_nat k))) as El.
  { rewrite <- chunk_len by done. unfold len. lia. }
  assert (∀ n i, (n + i = length (chunk dict (Z.to_nat k)))%nat →
    collect n (Z.of_nat i) (blockValAt raw (blockCount k (len dict))) = Ok (drop i (chunk dict (Z.to_nat k)))) as Hc.
  { assert (length (chunk dict (Z.to_nat k)) ≤ 64)%nat by (unfold chunk; rewrite length_take; lia).
    induction n as [|n IH]; intros i Hi; cbn [collect]; [by rewrite drop_ge by lia|].
    destruct (lookup_lt_is_Some_2 (chunk dict (Z.to_nat k)) i) as [v Ev]; [lia|].
    rewrite (Hv (Z.of_nat i) v); [|lia|].
    2:{ rewrite chunk_lookup in Ev by lia. rewrite <- Ev. f_equal. lia. }
    rewrite bind_Ok. replace (Z.of_nat i + 1) with (Z.of_nat (S i)) by lia. rewrite IH, bind_Ok by lia.
    by rewrite (drop_S _ _ _ Ev). }
  rewrite El. change 0 with (Z.of_nat 0). rewrite Hc by lia. by rewrite drop_0.
Qed.

Lemma dictSectionAll_layout arena reuse sec dict :
  dict_layout sec dict → dictSectionAll arena reuse sec (len dict) = Ok dict.
Proof.
  intros HL. destruct (layout_block sec dict HL) as (d & E & Hd & Hn & Hk).
  rewrite (dictSectionAll_spec arena reuse sec (len dict) d) by (done || len_lia). f_equal. rewrite Hn.
  assert (∀ m k, 0 ≤ k → k + Z.of_nat m = num_blocks dict →
            blocks_from d (len dict) k m = drop (Z.to_nat (64 * k)) dict) as Hf.
  { induction m as [|m IH]; intros k H0 Hm.
    - unfold blocks_from. simpl. rewrite drop_ge; [done|].
      unfold num_blocks in Hm. pose proof (Z_div_mod_eq_full (len dict + 63) 64).
      pose proof (Z.mod_pos_bound (len dict + 63) 64). unfold len in *. lia.
    - rewrite blocks_from_S, IH by lia. destruct (Hk k) as [_ (raw & Hb & Hv)]; [lia|].
      rewrite (block_vals_chunk d dict k raw) by (done || lia). unfold chunk.
      replace (Z.to_nat (64 * k)) with (64 * Z.to_nat k)%nat by lia.
      replace (Z.to_nat (64 * (k + 1))) with (64 * Z.to_nat k + 64)%nat by lia.
      by rewrite <- drop_drop, take_drop. }
  assert (0 ≤ num_blocks dict) by (apply Z.div_pos; len_lia). rewrite Hf by lia. done.
Qed.

(** *** Search *)

Lemma sorted_lt dict i j a b :
  StronglySorted str_lt dict → (i < j)%nat → dict !! i = Some a → dict !! j = Some b → str_lt a b.
Proof.
  intros Hs. revert i j. induction Hs as [|x dict Hs IH Hx]; intros i j Hij Ha Hb; [by rewrite lookup_nil in Ha|].
  destruct j as [|j]; [lia|]. simpl in Hb. destruct i as [|i]; simpl in Ha.
  - simplify_eq. rewrite Forall_lookup in Hx. by apply Hx in Hb.
  - apply (IH i j); (done || lia).
Qed.
Lemma sorted_le dict i j a b :
  StronglySorted str_lt dict → (i ≤ j)%nat → dict !! i = Some a → dict !! j = Some b → str_le a b.
Proof.
  intros Hs Hij Ha Hb. apply str_le_cases. destruct (decide (i = j)) as [-> |]; [right; congruence|].
  left. apply (sorted_lt dict i j); (done || lia).
Qed.

(** The value at position [i], [""] past the end: what the tests of the two
    binary searches compare. *)
Definition val_at (dict : list bytes) (i : Z) : bytes := default [] (dict !! Z.to_nat i).
Lemma val_at_lookup dict i : 0 ≤ i < len dict → dict !! Z.to_nat i = Some (val_at dict i).
Proof.
  intros Hi. unfold val_at. destruct (lookup_lt_is_Some_2 dict (Z.to_nat i)) as [v ->]; [unfold len in *; lia|done].
Qed.
Lemma val_at_mono dict i j :
  StronglySorted str_lt dict → 0 ≤ i ≤ j → j < len dict → str_le (val_at dict i) (val_at dict j).
Proof. intros Hs Hi Hj. apply (sorted_le dict (Z.to_nat i) (Z.to_nat j)); [done|lia|apply val_at_lookup; lia..]. Qed.
Lemma val_at_lt dict i j :
  StronglySorted str_lt dict → 0 ≤ i < j → j < len dict → str_lt (val_at dict i) (val_at dict j).
Proof. intros Hs Hi Hj. apply (sorted_lt dict (Z.to_nat i) (Z.to_nat j)); [done|lia|apply val_at_lookup; lia..]. Qed.

(** The outer search: the last block whose first value does not exceed the
    value is the only block that can hold it. *)
Lemma block_boundary dict value lo p :
  StronglySorted str_lt dict → 0 ≤ lo ≤ num_blocks dict →
  (∀ m, 0 ≤ m < lo → str_leb (val_at dict (64 * m)) value = true) →
  (∀ m, lo ≤ m < num_blocks dict → str_leb (val_at dict (64 * m)) value = false) →
  0 ≤ p < len dict → val_at dict p = value → lo - 1 = p / 64.
Proof.
  intros Hs Hlo H1 H2 Hp Ev. pose proof (num_blocks_cover dict p Hp).
  pose proof (Z_div_mod_eq_full p 64). pose proof (Z.mod_pos_bound p 64 ltac:(lia)).
  assert (0 ≤ p / 64) by (apply Z.div_pos; lia).
  assert (p / 64 < lo).
  { destruct (decide (p / 64 < lo)); [done|]. pose proof (H2 (p / 64) ltac:(lia)) as Hf.
    pose proof (val_at_mono dict (64 * (p / 64)) p Hs ltac:(lia) ltac:(lia)) as Hm. rewrite Ev in Hm.
    unfold str_le in Hm. congruence. }
  destruct (decide (lo ≤ p / 64 + 1)); [lia|].
  pose proof (num_blocks_bounds dict (p / 64 + 1) ltac:(lia)).
  pose proof (H1 (p / 64 + 1) ltac:(lia)) as Hf. change (str_le (val_at dict (64 * (p / 64 + 1))) value) in Hf.
  apply str_le_lt in Hf. destruct Hf. rewrite <- Ev. apply val_at_lt; (done || lia).
Qed.

(** The inner search: a value of block [k] is found at its id. *)
Lemma block_search dict k raw value :
  StronglySorted str_lt dict → 0 ≤ k < num_blocks dict →
  (∀ j v, 0 ≤ j < 64 → dict !! Z.to_nat (64 * k + j) = Some v → blockValAt raw (blockCount k (len dict)) j = Ok v) →
  let cnt := blockCount k (len dict) in
  ∃ r,
    (blo ← bsearch (Z.to_nat cnt) 0 cnt (λ mid, v ← blockValAt raw cnt mid; Ok (str_ltb v value));
     hit ← (if bool_decide (blo < cnt) then v ← blockValAt raw cnt blo; Ok (str_eqb v value) else Ok false);
     Ok (if (hit : bool) then k * dictBlock + blo else -1)) = Ok r ∧
    (0 ≤ r ∧ dict !! Z.to_nat r = Some value ∨
     r = -1 ∧ ∀ p, 0 ≤ p < len dict → p / 64 = k → val_at dict p ≠ value).
Proof.
  intros Hs Hk Hv cnt. pose proof (num_blocks_bounds dict k Hk) as Hkn.
  assert (0 ≤ cnt ≤ 64 ∧ 64 * k + cnt ≤ len dict ∧ (cnt = 64 ∨ 64 * k + cnt = len dict)) as Hcnt
    by (subst cnt; unfold blockCount, dictBlock; lia).
  assert (∀ m, 0 ≤ m < cnt → blockValAt raw cnt m = Ok (val_at dict (64 * k + m))) as Hval.
  { intros m Hm. apply Hv; [lia|]. apply val_at_lookup. lia. }
  destruct (bsearch_spec (λ mid, v ← blockValAt raw cnt mid; Ok (str_ltb v value))
              (λ m, str_ltb (val_at dict (64 * k + m)) value) (Z.to_nat cnt) 0 cnt)
    as (blo & -> & Hblo & Hb); [lia..|intros m Hm; by rewrite Hval|].
  destruct Hb as [C1 C2].
  { intros a b Hab Hb Hlt. eapply str_le_lt_trans; [|exact Hlt]. apply val_at_mono; (done || lia). }
  rewrite bind_Ok.
  assert (∀ p, 0 ≤ p < len dict → p / 64 = k → val_at dict p = value → p = 64 * k + blo ∧ blo < cnt) as Hpos.
  { intros p Hp Ek Ev. pose proof (Z_div_mod_eq_full p 64). pose proof (Z.mod_pos_bound p 64 ltac:(lia)).
    assert (blo ≤ p mod 64).
    { destruct (decide (blo ≤ p mod 64)); [done|]. pose proof (C1 (p mod 64) ltac:(lia)) as Hlt.
      simpl in Hlt. replace (64 * k + p mod 64) with p in Hlt by lia. rewrite Ev in Hlt.
      by apply str_lt_irrefl in Hlt. }
    destruct (decide (blo = p mod 64)); [lia|]. pose proof (C2 blo ltac:(lia)) as Hge. simpl in Hge.
    assert (str_lt (val_at dict (64 * k + blo)) (val_at dict p)) as Hlt by (apply val_at_lt; (done || lia)).
    rewrite Ev in Hlt. unfold str_lt in Hlt. congruence. }
  case_bool_decide as Hlt.
  - rewrite Hval, !bind_Ok by lia. unfold str_eqb. eexists. split; [done|]. case_bool_decide as Eq.
    + left. unfold dictBlock. split; [lia|]. rewrite <- Eq. replace (k * 64 + blo) with (64 * k + blo) by lia.
      apply val_at_lookup. lia.
    + right. split; [done|]. intros p Hp Ek Ev. destruct (Hpos p Hp Ek Ev) as [-> _]. done.
  - exists (-1). split; [done|]. right. split; [done|]. intros p Hp Ek Ev.
    destruct (Hpos p Hp Ek Ev) as [_ ?]. lia.
Qed.

Lemma elem_of_val_at dict value : value ∈ dict → ∃ p, 0 ≤ p < len dict ∧ val_at dict p = value.
Proof.
  intros [p Hp]%list_elem_of_lookup. pose proof (lookup_lt_Some _ _ _ Hp). exists (Z.of_nat p).
  split; [unfold len; lia|]. unfold val_at. rewrite Nat2Z.id. by rewrite Hp.
Qed.

Lemma dictSectionSearch_layout sec dict value :
  dict_layout sec dict → StronglySorted str_lt dict →
  ∃ r, dictSectionSearch sec (len dict) value = Ok r ∧
    (0 ≤ r ∧ dict !! Z.to_nat r = Some value ∨ r = -1 ∧ value ∉ dict).
Proof.
  intros HL Hs. destruct (layout_block sec dict HL) as (d & E & Hd & Hn & Hk).
  assert (0 ≤ num_blocks dict) as Hnb by (apply Z.div_pos; len_lia).
  unfold dictSectionSearch. rewrite E, bind_Ok, Hn. case_bool_decide as Hz.
  { exists (-1). split; [done|]. right. split; [done|]. intros (p & Hp & _)%elem_of_val_at.
    pose proof (num_blocks_cover dict p Hp). assert (0 ≤ p / 64) by (apply Z.div_pos; lia). lia. }
  destruct (bsearch_spec (λ mid, v ← firstVal d mid; Ok (str_leb v value))
              (λ m, str_leb (val_at dict (64 * m)) value) (Z.to_nat (num_blocks dict)) 0 (num_blocks dict))
    as (lo & -> & Hlo & Hb); [lia..| |].
  { intros m Hm. destruct (Hk m Hm) as [Hf _]. pose proof (num_blocks_bounds dict m Hm).
    rewrite (Hf (val_at dict (64 * m))); [done|]. apply val_at_lookup. lia. }
  destruct Hb as [B1 B2].
  { intros a b Hab Hb Ha. pose proof (num_blocks_bounds dict b ltac:(lia)).
    change (str_le (val_at dict (64 * a)) value). etransitivity; [|exact Ha].
    apply val_at_mono; (done || lia). }
  pose proof (block_boundary dict value lo) as Hbound. rewrite bind_Ok. case_bool_decide as Hneg.
  { exists (-1). split; [done|]. right. split; [done|]. intros (p & Hp & Ev)%elem_of_val_at.
    rewrite (Hbound p) in Hneg by (done || lia). assert (0 ≤ p / 64) by (apply Z.div_pos; lia). lia. }
  destruct (Hk (lo - 1)) as [_ (raw & -> & Hv)]; [lia|]. rewrite bind_Ok.
  destruct (block_search dict (lo - 1) raw value Hs ltac:(lia) Hv) as (r & -> & Hr).
  exists r. split; [done|]. destruct Hr as [?|[-> Hr]]; [by left|right]. split; [done|].
  intros (p & Hp & Ev)%elem_of_val_at. apply (Hr p Hp); [|done]. symmetry. by apply Hbound.
Qed.

(** *** Subset reads *)

Lemma any_wanted_spec want base m : ∀ i,
  0 ≤ base + i → base + i + Z.of_nat m ≤ len want →
  ∃ b, any_wanted m i base want = Ok b ∧
    (b = false → ∀ j, i ≤ j < i + Z.of_nat m → want !! Z.to_nat (base + j) = Some false).
Proof.
  induction m as [|m IH]; intros i H0 Hl; cbn [any_wanted].
  - exists false. split; [done|]. intros; lia.
  - destruct (lookup_lt_is_Some_2 want (Z.to_nat (base + i))) as [w Hw]; [unfold len in *; lia|].
    rewrite (index_Ok _ _ w), bind_Ok by done. destruct w; [by exists true|].
    destruct (IH (i + 1)) as (b & -> & Hb); [lia..|]. exists b. split; [done|]. intros -> j Hj.
    destruct (decide (j = i)) as [-> |]; [done|]. apply Hb; [done|lia].
Qed.

(** The values asked for so far, [""] elsewhere. *)
Definition some_of (dict : list bytes) (want : list bool) (upto : nat) : list bytes :=
  imap (λ i v, if bool_decide (i < upto)%nat && default false (want !! i) then v else []) dict.

Lemma some_of_length dict want m : length (some_of dict want m) = length dict.
Proof. apply length_imap. Qed.
Lemma some_of_skip dict want m m' :
  (m ≤ m')%nat → (∀ i, (m ≤ i < m')%nat → want !! i = Some false) → some_of dict want m' = some_of dict want m.
Proof.
  intros Hm H. unfold some_of. apply imap_ext. intros i v _.
  destruct (decide (i < m')%nat); [destruct (decide (i < m)%nat)|].
  - by rewrite !bool_decide_eq_true_2 by lia.
  - rewrite H by lia. by rewrite !andb_false_r.
  - by rewrite !bool_decide_eq_false_2 by lia.
Qed.
Lemma some_of_take dict want m v :
  dict !! m = Some v → want !! m = Some true →
  some_of dict want (S m) = <[m := v]> (some_of dict want m).
Proof.
  intros Hv Hw. apply list_eq. intros i. unfold some_of.
  destruct (decide (i = m)) as [-> |Hi].
  - rewrite list_lookup_insert_eq by (rewrite length_imap; by eapply lookup_lt_Some).
    rewrite list_lookup_imap, Hv. simpl. by rewrite bool_decide_eq_true_2, Hw by lia.
  - rewrite list_lookup_insert_ne by done. rewrite !list_lookup_imap. destruct (dict !! i); [|done]. simpl.
    by rewrite (bool_decide_ext (i < S m)%nat (i < m)%nat) by lia.
Qed.

Lemma some_block_layout sec dict d want k :
  dict_layout sec dict → parseDictSec sec = Ok d → len want = len dict → 0 ≤ k < num_blocks dict →
  some_block d (len dict) want k (some_of dict want (Z.to_nat (64 * k))) =
    Ok (some_of dict want (Z.to_nat (64 * k + blockCount k (len dict)))).
Proof.
  intros HL Ed Hw Hk. destruct (layout_block sec dict HL) as (d' & E' & _ & _ & Hblk). rewrite Ed in E'. simplify_eq.
  destruct (Hblk k Hk) as [_ (raw & Hb & Hv)]. pose proof (num_blocks_bounds dict k Hk).
  unfold some_block. set (cnt := blockCount k (len dict)) in *.
  assert (0 ≤ cnt ≤ 64 ∧ 64 * k + cnt ≤ len dict) as Hc by (subst cnt; unfold blockCount, dictBlock; lia).
  unfold dictBlock. destruct (any_wanted_spec want (k * 64) (Z.to_nat cnt) 0) as (b & -> & Hany); [lia..|].
  rewrite bind_Ok. destruct b; cbn [negb].
  - rewrite Hb, bind_Ok.
    destruct (forM_inv (λ i out, out = some_of dict want (Z.to_nat (64 * k + i))) (Z.to_nat cnt) 0
                (some_step raw cnt (k * 64) want) (some_of dict want (Z.to_nat (64 * k)))) as (out & -> & ->).
    + f_equal. lia.
    + intros i out Hi ->. unfold some_step.
      destruct (lookup_lt_is_Some_2 want (Z.to_nat (64 * k + i))) as [w Ew]; [unfold len in *; lia|].
      rewrite (index_Ok want _ w), bind_Ok by (lia || (rewrite <- Ew; f_equal; lia)).
      replace (Z.to_nat (64 * k + (i + 1))) with (S (Z.to_nat (64 * k + i))) by lia. destruct w.
      * pose proof (val_at_lookup dict (64 * k + i) ltac:(lia)) as Ev.
        rewrite (Hv i (val_at dict (64 * k + i))), bind_Ok by (done || lia).
        replace (k * 64 + i) with (64 * k + i) by lia. eexists. split; [|done].
        rewrite store_Ok by (try lia; unfold len; rewrite some_of_length; unfold len in *; lia).
        f_equal. by rewrite (some_of_take dict want _ (val_at dict (64 * k + i))).
      * eexists. split; [done|]. symmetry. apply some_of_skip; [lia|].
        intros j Hj. assert (j = Z.to_nat (64 * k + i)) as -> by lia. done.
    + do 2 f_equal. lia.
  - f_equal. symmetry. apply some_of_skip; [lia|]. intros i Hi. rewrite <- (Hany eq_refl (Z.of_nat i - 64 * k)) by lia.
    f_equal. lia.
Qed.

Lemma dictSectionSome_layout sec dict want :
  dict_layout sec dict → len want = len dict →
  dictSectionSome sec (len dict) want = Ok (some_of dict want (length dict)).
Proof.
  intros HL Hw. destruct (layout_block sec dict HL) as (d & E & Hd & Hn & _).
  assert (0 ≤ num_blocks dict) as Hnb by (apply Z.div_pos; len_lia).
  unfold dictSectionSome. rewrite E, bind_Ok, bool_decide_eq_false_2 by len_lia. rewrite Hn.
  destruct (forM_inv (λ k out, out = some_of dict want (Z.to_nat (Z.min (64 * k) (len dict))))
              (Z.to_nat (num_blocks dict)) 0 (some_block d (len dict) want)
              (replicate (Z.to_nat (len dict)) [])) as (out & -> & ->).
  - rewrite Z.mul_0_r, Z.min_l by len_lia. unfold some_of, len. rewrite Nat2Z.id. clear.
    apply list_eq. intros i. rewrite list_lookup_imap. destruct (decide (i < length dict)%nat).
    + rewrite lookup_replicate_2 by done. destruct (lookup_lt_is_Some_2 dict i) as [v ->]; done.
    + rewrite (proj2 (lookup_ge_None dict i)) by lia. apply lookup_ge_None. rewrite length_replicate. lia.
  - intros k out Hk ->. rewrite Z2Nat.id, Z.add_0_l in Hk by done. pose proof (num_blocks_bounds dict k Hk).
    rewrite Z.min_l by lia. eexists. split; [by eapply some_block_layout|].
    do 2 f_equal. unfold blockCount, dictBlock. lia.
  - do 2 f_equal. rewrite Z.add_0_l, Z2Nat.id by done. unfold num_blocks.
    pose proof (Z_div_mod_eq_full (len dict + 63) 64). pose proof (Z.mod_pos_bound (len dict + 63) 64). unfold len in *. lia.
Qed.

(** ** The section is the dictionary *)

(** the section of any strictly sorted dictionary that fits the format is
    written without a panic, and every read of it answers from the dictionary:
    [dictSectionAt] the value of an id, [dictSectionSearch] the id of a present
    value and -1 of an absent one, [dictSectionAll] the whole dictionary under
    either arm, [dictSectionSome] exactly the wanted values. Hexadecimal,
    DEFLATE and LZ4 blocks are all covered. *)
Theorem marshalDictSection_reads dict compact :
  Forall is_bytes dict → StronglySorted str_lt dict → len (concat dict) < 2 ^ 30 - 260 →
  ∃ sec, marshalDictSection dict compact = Ok sec ∧
    (len sec < 2 ^ 32 →
     (∀ i v, 0 ≤ i → dict !! Z.to_nat i = Some v → dictSectionAt sec (len dict) i = Ok v) ∧
     (∀ value, ∃ r, dictSectionSearch sec (len dict) value = Ok r ∧
        (0 ≤ r ∧ dict !! Z.to_nat r = Some value ∨ r = -1 ∧ value ∉ dict)) ∧
     (∀ arena reuse, dictSectionAll arena reuse sec (len dict) = Ok dict) ∧
     (∀ want, len want = len dict →
        dictSectionSome sec (len dict) want = Ok (some_of dict want (length dict)))).
Proof.
  intros Hb Hs Hl. destruct (marshalDictSection_layout dict compact Hb Hl) as (sec & E & HL).
  exists sec. split; [done|]. intros Hsz. specialize (HL Hsz). split_and!.
  - intros. by apply dictSectionAt_layout.
  - intros. by apply dictSectionSearch_layout.
  - intros. by apply dictSectionAll_layout.
  - intros. by apply dictSectionSome_layout.
Qed.
End layout.
