(* ===== verification/Postings.v ===== *)
(** * Postings: the per-column inverted index

    [internal/storage/postings.go]: building the row lists of every dictionary
    id, the frame-of-reference blob they are stored in, and the readers of that
    blob and of the two superseded forms. *)

From S2P Require Import Prelude Digits GoLib Kernels Indices Compress DictSection DictLayout.
From stdpp Require Import sorting.
Local Open Scope Z_scope.

(** ** Definitions *)

Definition postV8Magic : Z := 0xFFFFFFFF.
Definition postV8ForMagic : Z := 0xFFFFFFFE.
Definition maxCountWidth : Z := 25.
Definition maxPostingRun : Z := Z.shiftl 1 24.
Definition postBlock : Z := 64.
Definition forBulkThreshold : Z := 256.

Record postings := MkPostings { rowOffsets : list Z; dgaps : list Z }.

(** *** Building *)

(** [for _, id := range indices { counts[id]++ }] *)
Fixpoint count_ids (indices counts : list Z) : outcome (list Z) :=
  match indices with
  | [] => Ok counts
  | id :: rest =>
      c ← index counts id;
      counts' ← store counts id (u32 (c + 1));
      count_ids rest counts'
  end.
(** [rowOffsets[i+1] = rowOffsets[i] + counts[i]] from running offset [off]. *)
Fixpoint offsets_from (off : Z) (counts : list Z) : list Z :=
  match counts with
  | [] => [off]
  | c :: counts' => off :: offsets_from (u32 (off + c)) counts'
  end.

Record gap_state := Gaps { g_dgaps : list Z; g_last : list Z; g_pos : list Z }.
(** [for row, id := range indices { ... }] from row [row]. *)
Fixpoint gap_loop (indices : list Z) (row : Z) (s : gap_state) : outcome gap_state :=
  match indices with
  | [] => Ok s
  | id :: rest =>
      p ← index (g_pos s) id;
      l ← index (g_last s) id;
      dg ← store (g_dgaps s) p (u32 (u32 row - l));
      la ← store (g_last s) id (u32 row);
      po ← store (g_pos s) id (u32 (p + 1));
      gap_loop rest (row + 1) (Gaps dg la po)
  end.

Definition buildPostings (indices : list Z) (dictLen : Z) : outcome postings :=
  if bool_decide (dictLen < 0) then Panic (* make([]uint32, dictLen) *) else
  let zeros := replicate (Z.to_nat dictLen) 0 in
  counts ← count_ids indices zeros;
  let ro := offsets_from 0 counts in
  s ← gap_loop indices 0 (Gaps (replicate (length indices) 0) zeros (take (Z.to_nat dictLen) ro));
  Ok (MkPostings ro (g_dgaps s)).

(** *** Marshalling *)

(** [counts[i] = p.rowOffsets[i+1] - p.rowOffsets[i]] *)
Fixpoint deltas (ro : list Z) : list Z :=
  match ro with
  | a :: (b :: _) as ro' => u32 (b - a) :: deltas ro'
  | _ => []
  end.
(** [var max uint32; for _, d := range dg { if d > max { max = d } }] *)
Definition max_loop (l : list Z) : Z := fold_left (λ m d, if bool_decide (m < d) then d else m) l 0.

Definition forBlockWidth (dg : list Z) : Z := bitWidth (max_loop dg + 1).

Record fidx := Fidx { byteOff : Z; width : Z }.
Definition fidx_bytes (e : fidx) : bytes := le32 (byteOff e) ++ le32 (width e).

Section codec.
Context {K : Simd}.

(** The block [appendForBlock] appends to [dst]. *)
Definition appendForBlock (dst : bytes) (dg : list Z) (w : Z) : bytes :=
  if bool_decide (len dg = 0) then dst
  else
    let r := len dg mod 32 in
    let padded := if bool_decide (r ≠ 0) then dg ++ replicate (Z.to_nat (32 - r)) 0 else dg in
    dst ++ encodeIndices padded w.

(** One round of [marshal]'s block loop; the state is [idx] and [packed]. *)
Definition marshal_block (p : postings) (dictLen k : Z) (s : list fidx * bytes) : outcome (list fidx * bytes) :=
  let '(ix, packed) := s in
  let lo := k * postBlock in
  let hi := Z.min (lo + postBlock) dictLen in
  a ← index (rowOffsets p) lo;
  b ← index (rowOffsets p) hi;
  dg ← slice (dgaps p) a b;
  let w := forBlockWidth dg in
  Ok (ix ++ [Fidx (u32 (len packed)) (u32 w)], appendForBlock packed dg w).

Definition marshal (p : postings) (b : bytes) : outcome bytes :=
  let dictLen := len (rowOffsets p) - 1 in
  let counts := deltas (rowOffsets p) in
  let cw := bitWidth (max_loop counts + 1) in
  let packedCounts := encodeIndices counts cw in
  let numBlocks := if bool_decide (0 < dictLen) then (dictLen + postBlock - 1) / postBlock else 0 in
  r ← forM (Z.to_nat numBlocks) 0 (marshal_block p dictLen) ([], []);
  let '(ix, packed) := r in
  Ok (b ++ le32 postV8ForMagic ++ le32 (u32 dictLen) ++ le32 (u32 cw) ++
      le32 (u32 (len packedCounts)) ++ packedCounts ++
      le32 (u32 numBlocks) ++ le32 postBlock ++ List.flat_map fidx_bytes ix ++
      le32 (u32 (len packed)) ++ packed).
End codec.

(** *** Reading *)

Record v8_header := V8 { h_dictLen : Z; h_cw : Z; h_counts : bytes; h_blocks : bytes; h_for : bool }.

(** [None] is [ok == false]: a v7 blob. *)
Definition postV8Header (blob : bytes) : outcome (option v8_header) :=
  if bool_decide (len blob < 16) then Ok None else
  w ← get32 blob 0;
  if bool_decide (w ≠ postV8Magic ∧ w ≠ postV8ForMagic) then Ok None else
  dictLen ← get32 blob 4;
  cw ← get32 blob 8;
  clen ← get32 blob 12;
  if bool_decide (clen < 0 ∨ len blob < 16 + clen ∨ cw < 0 ∨ maxCountWidth < cw) then Ok None else
  cs ← slice blob 16 (16 + clen);
  blocks ← slice_from blob (16 + clen);
  Ok (Some (V8 dictLen cw cs blocks (bool_decide (w = postV8ForMagic)))).

Definition postCount (blob : bytes) (id : Z) : outcome Z :=
  h ← postV8Header blob;
  match h with
  | Some h =>
      if bool_decide (id < 0 ∨ h_dictLen h ≤ id) then Ok 0 else extractCountBits (h_counts h) id (h_cw h)
  | None =>
      if bool_decide (len blob < 4) then Ok 0 else
      no ← get32 blob 0;
      if bool_decide (id < 0 ∨ no ≤ id + 1 ∨ len blob < 4 + (id + 2) * 4) then Ok 0 else
      b ← get32 blob (4 + (id + 1) * 4);
      a ← get32 blob (4 + id * 4);
      Ok (u32 (b - a))
  end.

Definition inGroup (row : Z) (out : list Z) (maxRow : Z) : bool :=
  if bool_decide (0 < maxRow ∧ maxRow ≤ row) then false
  else match last out with None => true | Some l => bool_decide (l < row) end.

(** [for i := lo; i < lo+n; i++ { acc += get(i); if !inGroup { break }; out = append(out, acc) }] *)
Fixpoint run_loop (n : nat) (i : Z) (get : Z → outcome Z) (acc : Z) (out : list Z) (maxRow : Z)
  : outcome (list Z) :=
  match n with
  | O => Ok out
  | S n' =>
      g ← get i;
      let acc := u32 (acc + g) in
      if inGroup acc out maxRow then run_loop n' (i + 1) get acc (out ++ [acc]) maxRow else Ok out
  end.

(** The varint loop of [decodePostingBlock]: [i] entries read, [pos] bytes in. *)
Fixpoint varint_rows (n : nat) (i pos prev : Z) (data : bytes) (out : list Z) (maxRow : Z)
  : outcome (list Z) :=
  match n with
  | O => Ok out
  | S n' =>
      if bool_decide (len data ≤ pos) then Ok out else
      rest ← slice_from data pos;
      let '(d, m) := Uvarint rest in
      if bool_decide (m ≤ 0) then Ok out else
      let prev := if bool_decide (i = 0) then u32 d else u32 (prev + u32 d) in
      if inGroup prev out maxRow then varint_rows n' (i + 1) (pos + m) prev data (out ++ [prev]) maxRow
      else Ok out
  end.

(** [for x := k * bs; x < id; x++ { lo += extractCountBits(countStream, x, cw) }] *)
Fixpoint sum_counts (n : nat) (x : Z) (cs : bytes) (cw lo : Z) : outcome Z :=
  match n with
  | O => Ok lo
  | S n' => c ← extractCountBits cs x cw; sum_counts n' (x + 1) cs cw (lo + c)
  end.

Section readers.
Context {K : Simd}.

Definition decodeForRun (blk : bytes) (w lo cnt maxRow : Z) : outcome (list Z) :=
  if bool_decide (w ≤ 0 ∨ 32 < w ∨ lo < 0 ∨ cnt < 0) then Ok [] else
  if bool_decide (forBulkThreshold ≤ cnt) then
    words ← read_words (Z.to_nat (len blk / 4)) blk 0;
    let startBlk := lo / 32 in
    let startVal := lo mod 32 in
    let nBlk := (startVal + cnt + 31) / 32 in
    if bool_decide (len words < startBlk * w ∨ len words < (startBlk + nBlk) * w) then Ok [] else
    ws ← slice_from words (startBlk * w);
    scratch ← BitUnpackInto (Z.to_nat (nBlk * 32)) ws w;
    run_loop (Z.to_nat cnt) startVal (index scratch) 0 [] maxRow
  else run_loop (Z.to_nat cnt) lo (λ i, v ← extractCountBits blk i w; Ok (u32 v)) 0 [] maxRow.

Definition decodeForBlock (blocks countStream : bytes) (cw id count maxRow : Z) : outcome (list Z) :=
  if bool_decide (len blocks < 8) then Ok [] else
  numBlocks ← get32 blocks 0;
  bs ← get32 blocks 4;
  if bool_decide (numBlocks ≤ 0 ∨ bs ≤ 0) then Ok [] else
  let idxBase := 8 in
  let packedLenPos := idxBase + numBlocks * 8 in
  if bool_decide (packedLenPos < idxBase ∨ len blocks < packedLenPos + 4) then Ok [] else
  packedLen ← get32 blocks packedLenPos;
  if bool_decide (packedLen < 0 ∨ len blocks < packedLenPos + 4 + packedLen) then Ok [] else
  packed ← slice blocks (packedLenPos + 4) (packedLenPos + 4 + packedLen);
  let k := Z.quot id bs in
  if bool_decide (numBlocks ≤ k) then Ok [] else
  let e := idxBase + k * 8 in
  off ← get32 blocks e;
  w ← get32 blocks (e + 4);
  if bool_decide (w < 0 ∨ 32 < w) then Ok [] else
  end_ ← (if bool_decide (k + 1 < numBlocks) then get32 blocks (idxBase + (k + 1) * 8) else Ok packedLen);
  if bool_decide (off < 0 ∨ end_ < off ∨ packedLen < end_) then Ok [] else
  blk ← slice packed off end_;
  lo ← sum_counts (Z.to_nat (id - k * bs)) (k * bs) countStream cw 0;
  decodeForRun blk w lo count maxRow.

Definition decodePostingBlock (blocks : bytes) (id count dictLen maxRow : Z) : outcome (list Z) :=
  if bool_decide (len blocks < 8) then Ok [] else
  numBlocks ← get32 blocks 0;
  bs ← get32 blocks 4;
  if bool_decide (numBlocks ≤ 0 ∨ bs ≤ 0) then Ok [] else
  let idxBase := 8 in
  let compLenPos := idxBase + numBlocks * 12 in
  if bool_decide (compLenPos < idxBase ∨ len blocks < compLenPos + 4) then Ok [] else
  compTotal ← get32 blocks compLenPos;
  if bool_decide (compTotal < 0 ∨ len blocks < compLenPos + 4 + compTotal) then Ok [] else
  cm ← slice blocks (compLenPos + 4) (compLenPos + 4 + compTotal);
  let k := Z.quot id bs in
  if bool_decide (numBlocks ≤ k) then Ok [] else
  let e := idxBase + k * 12 in
  co ← get32 blocks e;
  cl ← get32 blocks (e + 4);
  rl ← get32 blocks (e + 8);
  if bool_decide (co < 0 ∨ cl < 0 ∨ len cm < co + cl) then Ok [] else
  c ← slice cm co (co + cl);
  let raw := lz4Decompress c rl in
  let lo := k * bs in
  let hi := Z.min (lo + bs) dictLen in
  let cnt := hi - lo in
  let j := id - lo in
  if bool_decide (j < 0 ∨ len raw < 4 * (j + 1) + 4) then Ok [] else
  off0 ← get32 raw (4 * j);
  off1 ← get32 raw (4 * (j + 1));
  if bool_decide (off1 < off0) then Ok [] else
  let listBase := 4 * (cnt + 1) in
  let lo0 := listBase + off0 in
  let hi0 := listBase + off1 in
  if bool_decide (cnt < 0 ∨ lo0 < listBase ∨ hi0 < lo0 ∨ len raw < hi0) then Ok [] else
  data ← slice raw lo0 hi0;
  if bool_decide (count < 0) then Panic (* make([]uint32, 0, count) *)
  else varint_rows (Z.to_nat count) 0 0 0 data [] maxRow.

Definition postingRows (blob : bytes) (id maxRow : Z) : outcome (list Z) :=
  h ← postV8Header blob;
  match h with
  | Some h =>
      if bool_decide (id < 0 ∨ h_dictLen h ≤ id) then Ok [] else
      count ← extractCountBits (h_counts h) id (h_cw h);
      if bool_decide (count ≤ 0 ∨ maxPostingRun < count ∨ 0 < maxRow ∧ maxRow < count) then Ok [] else
      if h_for h then decodeForBlock (h_blocks h) (h_counts h) (h_cw h) id count maxRow
      else decodePostingBlock (h_blocks h) id count (h_dictLen h) maxRow
  | None =>
      if bool_decide (len blob < 4) then Ok [] else
      no ← get32 blob 0;
      if bool_decide (id < 0 ∨ no ≤ id + 1 ∨ len blob < 4 + (id + 2) * 4 ∨ len blob < 4 + no * 4) then Ok [] else
      b ← get32 blob (4 + (id + 1) * 4);
      a ← get32 blob (4 + id * 4);
      let count := u32 (b - a) in
      if bool_decide (count ≤ 0 ∨ maxPostingRun < count ∨ 0 < maxRow ∧ maxRow < count) then Ok [] else
      blocks ← slice_from blob (4 + no * 4);
      decodePostingBlock blocks id count (no - 1) maxRow
  end.
End readers.

(** ** Arbitrary bytes: a short list, never a wrong row *)

(** A legal posting list of a group of [maxRow] rows. *)
Record row_list (maxRow : Z) (out : list Z) : Prop := {
  rl_sorted : StronglySorted Z.lt out;
  rl_range : Forall (λ r, is_u32 r ∧ (0 < maxRow → r < maxRow)) out }.

Lemma row_list_nil maxRow : row_list maxRow [].
Proof. split; constructor. Qed.

Lemma sorted_snoc_lt (l : list Z) x :
  StronglySorted Z.lt l → (∀ y, last l = Some y → y < x) → StronglySorted Z.lt (l ++ [x]).
Proof.
  intros Hs Hx. induction Hs as [|y l Hs IH Hy]; simpl; [repeat constructor|].
  constructor.
  - apply IH. intros z Hz. apply Hx. by rewrite last_cons, Hz.
  - apply Forall_app_2; [done|]. constructor; [|constructor].
    destruct (last l) as [z|] eqn:Ez.
    + apply Z.lt_trans with z; [|apply Hx; by rewrite last_cons, Ez].
      rewrite Forall_forall in Hy. apply Hy. by apply last_Some_elem_of.
    + apply Hx. by rewrite last_cons, Ez.
Qed.

Lemma inGroup_ok maxRow out row :
  row_list maxRow out → is_u32 row → inGroup row out maxRow = true → row_list maxRow (out ++ [row]).
Proof.
  intros [Hs Hr] Hu. unfold inGroup. case_bool_decide as Hm; [done|]. intros Hl. split.
  - apply sorted_snoc_lt; [done|]. intros y Hy. rewrite Hy in Hl. by apply bool_decide_eq_true in Hl.
  - apply Forall_app_2; [done|]. constructor; [|constructor]. split; [done|]. lia.
Qed.

Lemma run_loop_good get maxRow n : ∀ i acc out,
  (∀ j, i ≤ j < i + Z.of_nat n → returns (get j)) → row_list maxRow out →
  ∃ out', run_loop n i get acc out maxRow = Ok out' ∧ row_list maxRow out' ∧ len out' ≤ len out + Z.of_nat n.
Proof.
  induction n as [|n IH]; intros i acc out Hg Ho; cbn [run_loop]; [by exists out; split_and!; [..|lia]|].
  destruct (Hg i ltac:(lia)) as [g ->]. rewrite bind_Ok. cbv zeta.
  destruct (inGroup (u32 (acc + g)) out maxRow) eqn:E; [|exists out; split_and!; [done..|lia]].
  destruct (IH (i + 1) (u32 (acc + g)) (out ++ [u32 (acc + g)])) as (out' & E' & G & L);
    [intros; apply Hg; lia|apply inGroup_ok; [done|apply u32_range|done]|].
  exists out'. split_and!; [done..|]. len_lia.
Qed.

Lemma varint_rows_good maxRow data n : ∀ i pos prev out,
  0 ≤ pos → row_list maxRow out →
  ∃ out', varint_rows n i pos prev data out maxRow = Ok out' ∧ row_list maxRow out' ∧
          len out' ≤ len out + Z.of_nat n.
Proof.
  induction n as [|n IH]; intros i pos prev out Hp Ho; cbn [varint_rows]; [by exists out; split_and!; [..|lia]|].
  assert (∃ out', Ok out = Ok out' ∧ row_list maxRow out' ∧ len out' ≤ len out + Z.of_nat (S n)) as Hout
    by (exists out; split_and!; [done..|lia]).
  case_bool_decide; [done|]. rewrite slice_from_Ok, bind_Ok by lia.
  destruct (Uvarint _) as [d m]. case_bool_decide; [done|]. cbv zeta. set (row := if bool_decide (i = 0) then _ else _).
  destruct (inGroup row out maxRow) eqn:E; [|done].
  destruct (IH (i + 1) (pos + m) row (out ++ [row])) as (out' & E' & G & L); [lia| |].
  { apply inGroup_ok; [done|subst row; case_bool_decide; apply u32_range|done]. }
  exists out'. split_and!; [done..|]. len_lia.
Qed.

Lemma extract_returns b i w :
  is_bytes b → 0 ≤ i → 0 ≤ w ≤ 32 → ∃ v, extractCountBits b i w = Ok v ∧ 0 ≤ v < 2 ^ w.
Proof.
  intros. rewrite extract_spec by done. eexists. split; [done|]. apply Z.mod_pos_bound, pow2_pos. lia.
Qed.

Lemma sum_counts_returns cs cw n : ∀ x lo,
  is_bytes cs → 0 ≤ cw ≤ 32 → 0 ≤ x → 0 ≤ lo → ∃ v, sum_counts n x cs cw lo = Ok v ∧ 0 ≤ v.
Proof.
  induction n as [|n IH]; intros x lo Hc Hw Hx Hl; cbn [sum_counts]; [by exists lo|].
  destruct (extract_returns cs x cw Hc Hx Hw) as (v & -> & Hv). rewrite bind_Ok. apply IH; (done || lia).
Qed.

Lemma postV8Header_returns blob :
  is_bytes blob → ∃ o, postV8Header blob = Ok o ∧
    ∀ h, o = Some h → 0 ≤ h_cw h ≤ 25 ∧ is_bytes (h_counts h) ∧ is_bytes (h_blocks h).
Proof.
  intros Hb. assert (∃ o : option v8_header, Ok None = Ok o ∧ ∀ h, o = Some h →
    0 ≤ h_cw h ≤ 25 ∧ is_bytes (h_counts h) ∧ is_bytes (h_blocks h)) as Hnone by (by exists None).
  unfold postV8Header. case_bool_decide; [done|].
  destruct (get32_returns blob 0) as (w & -> & _); [done|lia..|]. rewrite bind_Ok. case_bool_decide; [done|].
  destruct (get32_returns blob 4) as (dl & -> & _); [done|lia..|]. rewrite bind_Ok.
  destruct (get32_returns blob 8) as (cw & -> & Hcw); [done|lia..|]. rewrite bind_Ok.
  destruct (get32_returns blob 12) as (cl & -> & Hcl); [done|lia..|]. rewrite bind_Ok.
  unfold maxCountWidth. case_bool_decide; [done|].
  destruct (slice_returns blob 16 (16 + cl)) as (cs & E & _); [lia..|]. rewrite E, bind_Ok.
  rewrite slice_from_Ok, bind_Ok by lia. eexists. split; [done|]. intros h [= <-]. cbn.
  split_and!; [lia..|by eapply slice_bytes|by apply Forall_drop].
Qed.

Section robust.
Context {K : Simd} {KL : SimdLaws K}.

Lemma run_loop_ext get get' maxRow n : ∀ i i' acc out,
  (∀ j, 0 ≤ j < Z.of_nat n → get (i + j) = get' (i' + j)) →
  run_loop n i get acc out maxRow = run_loop n i' get' acc out maxRow.
Proof.
  induction n as [|n IH]; intros i i' acc out H; cbn [run_loop]; [done|].
  pose proof (H 0 ltac:(lia)) as H0. rewrite !Z.add_0_r in H0. rewrite H0.
  destruct (get' i'); [|done]. rewrite !bind_Ok. cbv zeta. destruct (inGroup _ _ _); [|done]. apply IH.
  intros j Hj. replace (i + 1 + j) with (i + (j + 1)) by lia. rewrite H by lia. f_equal. lia.
Qed.

(** Value [i] of a block's stream. *)
Definition gap_at (blk : bytes) (w i : Z) : Z := (undigits 8 blk / 2 ^ (w * i)) mod 2 ^ w.

(** The unpacked 32-value blocks hold the stream's values. *)
Lemma bulk_values blk words w sb nb i :
  is_bytes blk → 1 ≤ w ≤ 32 → 0 ≤ sb → 0 ≤ i < nb * 32 →
  undigits 32 words = undigits 8 (take (4 * length words) blk) → Forall is_u32 words →
  (sb + nb) * w ≤ len words →
  ∃ scratch, BitUnpackInto (Z.to_nat (nb * 32)) (drop (Z.to_nat (sb * w)) words) w = Ok scratch ∧
    index scratch i = Ok (gap_at blk w (32 * sb + i)).
Proof.
  intros Hb Hw Hsb Hi Hu Hws Hn. eexists. split.
  - apply unpack_layout; [done| |by apply Forall_drop|rewrite len_drop; nia].
    rewrite Z2Nat.id by lia. apply Z.mod_mul. lia.
  - apply index_Ok; [lia|]. rewrite digits_lookup by lia. f_equal. rewrite !Z2Nat.id by lia. unfold gap_at.
    rewrite undigits_drop by (lia || done). rewrite Z2Nat.id by nia.
    rewrite Zdiv.Zdiv_Zdiv by (apply Z.pow_nonneg; lia). rewrite <- Z.pow_add_r by nia.
    rewrite Hu, undigits_take by (lia || done).
    replace (32 * (sb * w) + w * i) with (w * (32 * sb + i)) by lia.
    apply div_mod_low; [nia|lia|]. unfold len in Hn. nia.
Qed.

(** Both arms of [decodeForRun] read the values [lo], [lo+1], ... of the block's
    stream: the bulk arm is the scalar one, or gives up on a block too short. *)
Lemma decodeForRun_arms blk w lo cnt maxRow :
  is_bytes blk → 1 ≤ w ≤ 32 → 0 ≤ lo → 0 ≤ cnt →
  decodeForRun blk w lo cnt maxRow =
    if bool_decide (forBulkThreshold ≤ cnt ∧ len blk / 4 < (lo / 32 + (lo mod 32 + cnt + 31) / 32) * w) then Ok []
    else run_loop (Z.to_nat cnt) lo (λ i, Ok (gap_at blk w i)) 0 [] maxRow.
Proof.
  intros Hb Hw Hlo Hc. unfold decodeForRun. rewrite (bool_decide_eq_false_2 (w ≤ 0 ∨ _)) by lia.
  destruct (decide (forBulkThreshold ≤ cnt)) as [Ht|Ht].
  2:{ rewrite (bool_decide_eq_false_2 (_ ≤ cnt)) by done. rewrite bool_decide_eq_false_2 by tauto.
      apply run_loop_ext. intros j Hj. rewrite extract_spec by (done || lia). rewrite bind_Ok. f_equal.
      apply u32_small. destruct (Z.mod_pos_bound (undigits 8 blk / 2 ^ (w * (lo + j))) (2 ^ w)); [apply pow2_pos; lia|].
      split; [done|]. eapply Z.lt_le_trans; [done|]. apply Z.pow_le_mono_r; lia. }
  rewrite (bool_decide_eq_true_2 (_ ≤ cnt)) by done.
  assert (0 ≤ len blk / 4) by (apply Z.div_pos; len_lia).
  pose proof (Z_div_mod_eq_full (len blk) 4). pose proof (Z.mod_pos_bound (len blk) 4).
  destruct (read_words_spec (Z.to_nat (len blk / 4)) blk 0) as (words & -> & Lw & Hws & Hu); [done|lia|lia|].
  rewrite bind_Ok. rewrite drop_0, <- Lw in Hu.
  assert (len words = len blk / 4) as Elw by (unfold len at 1; lia). rewrite Elw. cbv zeta.
  set (sb := lo / 32) in *. set (nb := (lo mod 32 + cnt + 31) / 32) in *.
  pose proof (Z_div_mod_eq_full lo 32). pose proof (Z.mod_pos_bound lo 32).
  pose proof (Z_div_mod_eq_full (lo mod 32 + cnt + 31) 32). pose proof (Z.mod_pos_bound (lo mod 32 + cnt + 31) 32).
  assert (0 ≤ sb) as Hsb by (apply Z.div_pos; lia). unfold forBulkThreshold in *.
  destruct (decide (len blk / 4 < (sb + nb) * w)).
  { rewrite !bool_decide_eq_true_2 by tauto. done. }
  rewrite !bool_decide_eq_false_2 by nia.
  rewrite slice_from_Ok, bind_Ok by (rewrite ?Elw; nia).
  assert ((sb + nb) * w ≤ len words) as Hfit by (rewrite Elw; lia).
  pose proof (λ i Hi, bulk_values blk words w sb nb i Hb Hw Hsb Hi Hu Hws Hfit) as Hbv.
  destruct (Hbv (lo mod 32) ltac:(lia)) as (scratch & Es & _). rewrite Es, bind_Ok. apply run_loop_ext.
  intros j Hj. destruct (Hbv (lo mod 32 + j) ltac:(lia)) as (scratch' & Es' & Ei). rewrite Es in Es'. simplify_eq.
  rewrite Ei. do 2 f_equal. lia.
Qed.

Lemma decodeForRun_good blk w lo cnt maxRow :
  is_bytes blk → ∃ out, decodeForRun blk w lo cnt maxRow = Ok out ∧ row_list maxRow out ∧ len out ≤ Z.max 0 cnt.
Proof.
  intros Hb. assert (∃ out, Ok [] = Ok out ∧ row_list maxRow out ∧ len out ≤ Z.max 0 cnt) as Hnil
    by (exists []; split_and!; [done|apply row_list_nil|len_lia]).
  destruct (decide (w ≤ 0 ∨ 32 < w ∨ lo < 0 ∨ cnt < 0)).
  { unfold decodeForRun. by rewrite bool_decide_eq_true_2. }
  rewrite decodeForRun_arms by (done || lia). case_bool_decide; [done|].
  destruct (run_loop_good (λ i, Ok (gap_at blk w i)) maxRow (Z.to_nat cnt) lo 0 []) as (out & -> & G & L);
    [by eexists|apply row_list_nil|]. exists out. split_and!; [done..|]. len_lia.
Qed.

Lemma decodeForBlock_good blocks cs cw id count maxRow :
  is_bytes blocks → is_bytes cs → 0 ≤ cw ≤ 32 → 0 ≤ id → 0 ≤ count →
  ∃ out, decodeForBlock blocks cs cw id count maxRow = Ok out ∧ row_list maxRow out ∧ len out ≤ count.
Proof.
  intros Hb Hcs Hcw Hid Hc.
  assert (∃ out, Ok [] = Ok out ∧ row_list maxRow out ∧ len out ≤ count) as Hnil
    by (exists []; split_and!; [done|apply row_list_nil|len_lia]).
  unfold decodeForBlock. case_bool_decide; [done|].
  destruct (get32_returns blocks 0) as (nb & -> & Hnb); [done|lia..|]. rewrite bind_Ok.
  destruct (get32_returns blocks 4) as (bs & -> & Hbs); [done|lia..|]. rewrite bind_Ok.
  case_bool_decide; [done|]. cbv zeta. case_bool_decide; [done|].
  destruct (get32_returns blocks (8 + nb * 8)) as (pl & -> & Hpl); [done|lia..|]. rewrite bind_Ok.
  case_bool_decide; [done|].
  destruct (slice_returns blocks (8 + nb * 8 + 4) (8 + nb * 8 + 4 + pl)) as (packed & Ep & Lp); [lia..|].
  rewrite Ep, bind_Ok. rewrite Z.quot_div_nonneg by lia. set (k := id / bs).
  assert (0 ≤ k ∧ k * bs ≤ id) as Hk
    by (subst k; pose proof (Z_div_mod_eq_full id bs); pose proof (Z.mod_pos_bound id bs); split; [apply Z.div_pos; lia|lia]).
  case_bool_decide; [done|].
  destruct (get32_returns blocks (8 + k * 8)) as (off & -> & Hoff); [done|lia..|]. rewrite bind_Ok.
  destruct (get32_returns blocks (8 + k * 8 + 4)) as (w & -> & Hw); [done|lia..|]. rewrite bind_Ok.
  case_bool_decide; [done|].
  assert (∃ e, (if bool_decide (k + 1 < nb) then get32 blocks (8 + (k + 1) * 8) else Ok pl) = Ok e) as [e ->].
  { case_bool_decide; [|by eexists]. destruct (get32_returns blocks (8 + (k + 1) * 8)) as (e & -> & _); [done|lia..|]. by eexists. }
  rewrite bind_Ok. case_bool_decide; [done|].
  destruct (slice_returns packed off e) as (blk & Eb & Lb); [lia..|]. rewrite Eb, bind_Ok.
  destruct (sum_counts_returns cs cw (Z.to_nat (id - k * bs)) (k * bs) 0) as (lo & -> & Hlo); [done..|nia|lia|].
  rewrite bind_Ok.
  destruct (decodeForRun_good blk w lo count maxRow) as (out & -> & G & L).
  { eapply slice_bytes; [|exact Eb]. by eapply slice_bytes; [|exact Ep]. }
  exists out. split_and!; [done..|lia].
Qed.

Lemma decodePostingBlock_good blocks id count dictLen maxRow :
  is_bytes blocks → 0 ≤ id → 0 ≤ count →
  ∃ out, decodePostingBlock blocks id count dictLen maxRow = Ok out ∧ row_list maxRow out ∧ len out ≤ count.
Proof.
  intros Hb Hid Hc.
  assert (∃ out, Ok [] = Ok out ∧ row_list maxRow out ∧ len out ≤ count) as Hnil
    by (exists []; split_and!; [done|apply row_list_nil|len_lia]).
  unfold decodePostingBlock. case_bool_decide; [done|].
  destruct (get32_returns blocks 0) as (nb & -> & Hnb); [done|lia..|]. rewrite bind_Ok.
  destruct (get32_returns blocks 4) as (bs & -> & Hbs); [done|lia..|]. rewrite bind_Ok.
  case_bool_decide; [done|]. cbv zeta. case_bool_decide; [done|].
  destruct (get32_returns blocks (8 + nb * 12)) as (ct & -> & Hct); [done|lia..|]. rewrite bind_Ok.
  case_bool_decide; [done|].
  destruct (slice_returns blocks (8 + nb * 12 + 4) (8 + nb * 12 + 4 + ct)) as (cm & Ec & Lc); [lia..|].
  rewrite Ec, bind_Ok. rewrite Z.quot_div_nonneg by lia. set (k := id / bs).
  assert (0 ≤ k) by (apply Z.div_pos; lia). case_bool_decide; [done|].
  destruct (get32_returns blocks (8 + k * 12)) as (co & -> & Hco); [done|lia..|]. rewrite bind_Ok.
  destruct (get32_returns blocks (8 + k * 12 + 4)) as (cl & -> & Hcl); [done|lia..|]. rewrite bind_Ok.
  destruct (get32_returns blocks (8 + k * 12 + 8)) as (rl & -> & Hrl); [done|lia..|]. rewrite bind_Ok.
  case_bool_decide; [done|].
  destruct (slice_returns cm co (co + cl)) as (c & E & _); [lia..|]. rewrite E, bind_Ok.
  assert (is_bytes (lz4Decompress c rl)) as Hraw.
  { apply lz4Decompress_bytes. eapply slice_bytes; [|exact E]. by eapply slice_bytes; [|exact Ec]. }
  set (raw := lz4Decompress c rl) in *. case_bool_decide; [done|].
  destruct (get32_returns raw (4 * (id - k * bs))) as (o0 & -> & Ho0); [done|lia..|]. rewrite bind_Ok.
  destruct (get32_returns raw (4 * (id - k * bs + 1))) as (o1 & -> & Ho1); [done|lia..|]. rewrite bind_Ok.
  case_bool_decide; [done|]. unfold is_digit in *. case_bool_decide; [done|].
  match goal with |- context [slice raw ?a ?b] => destruct (slice_returns raw a b) as (data & -> & _); [lia..|] end.
  rewrite bind_Ok, bool_decide_eq_false_2 by lia.
  destruct (varint_rows_good maxRow data (Z.to_nat count) 0 0 0 []) as (out & -> & G & L);
    [lia|apply row_list_nil|]. exists out. split_and!; [done..|]. len_lia.
Qed.

Lemma postingRows_good blob id maxRow :
  is_bytes blob →
  ∃ out, postingRows blob id maxRow = Ok out ∧ row_list maxRow out ∧ len out ≤ maxPostingRun.
Proof.
  intros Hb. assert (0 ≤ maxPostingRun) as Hm by done.
  assert (∃ out, Ok [] = Ok out ∧ row_list maxRow out ∧ len out ≤ maxPostingRun) as Hnil
    by (exists []; split_and!; [done|apply row_list_nil|len_lia]).
  unfold postingRows. destruct (postV8Header_returns blob Hb) as ([h|] & -> & Hh); rewrite bind_Ok.
  - destruct (Hh h eq_refl) as (Hcw & Hcs & Hbl). case_bool_decide; [done|].
    destruct (extract_returns (h_counts h) id (h_cw h)) as (count & -> & Hcount); [done|lia..|].
    rewrite bind_Ok. case_bool_decide; [done|]. destruct (h_for h).
    + destruct (decodeForBlock_good (h_blocks h) (h_counts h) (h_cw h) id count maxRow) as (out & -> & G & L); [done..|lia|lia|lia|].
      exists out. split_and!; [done..|lia].
    + destruct (decodePostingBlock_good (h_blocks h) id count (h_dictLen h) maxRow) as (out & -> & G & L); [done|lia|lia|].
      exists out. split_and!; [done..|lia].
  - case_bool_decide; [done|].
    destruct (get32_returns blob 0) as (no & -> & Hno); [done|lia..|]. rewrite bind_Ok. case_bool_decide; [done|].
    destruct (get32_returns blob (4 + (id + 1) * 4)) as (b & -> & _); [done|lia..|]. rewrite bind_Ok.
    destruct (get32_returns blob (4 + id * 4)) as (a & -> & _); [done|lia..|]. rewrite bind_Ok. cbv zeta.
    case_bool_decide; [done|]. unfold is_digit in *. rewrite slice_from_Ok, bind_Ok by lia.
    destruct (decodePostingBlock_good (drop (Z.to_nat (4 + no * 4)) blob) id (u32 (b - a)) (no - 1) maxRow)
      as (out & -> & G & L); [by apply Forall_drop|lia|lia|]. exists out. split_and!; [done..|lia].
Qed.

(** whatever bytes a postings blob holds, reading a row list never panics
    and never answers a row outside the group: the list is strictly ascending,
    every entry is below the group's row count, and it is no longer than the
    bound on a run. *)
Theorem postingRows_safe blob id maxRow :
  is_bytes blob →
  ∃ out, postingRows blob id maxRow = Ok out ∧ row_list maxRow out ∧ len out ≤ maxPostingRun.
Proof. apply postingRows_good. Qed.

Lemma postCount_returns blob id : is_bytes blob → ∃ c, postCount blob id = Ok c ∧ is_u32 c.
Proof.
  intros Hb. assert (∃ c, Ok 0 = Ok c ∧ is_u32 c) as H0 by (by exists 0; split; [|unfold is_digit; lia]).
  unfold postCount. destruct (postV8Header_returns blob Hb) as ([h|] & -> & Hh); rewrite bind_Ok.
  - destruct (Hh h eq_refl) as (Hcw & Hcs & _). case_bool_decide; [done|].
    destruct (extract_returns (h_counts h) id (h_cw h)) as (c & -> & Hc); [done|lia..|]. exists c. split; [done|].
    assert (2 ^ h_cw h ≤ 2 ^ 32) by (apply Z.pow_le_mono_r; lia). unfold is_digit. lia.
  - case_bool_decide; [done|].
    destruct (get32_returns blob 0) as (no & -> & Hno); [done|lia..|]. rewrite bind_Ok. case_bool_decide; [done|].
    destruct (get32_returns blob (4 + (id + 1) * 4)) as (b & -> & _); [done|lia..|]. rewrite bind_Ok.
    destruct (get32_returns blob (4 + id * 4)) as (a & -> & _); [done|lia..|]. rewrite bind_Ok.
    eexists. split; [done|apply u32_range].
Qed.
End robust.

(** ** Building: the inversion is right *)

(** The rows, from row [row], whose id is [id]: the specification of a posting
    list. *)
Fixpoint rows_from (row : Z) (indices : list Z) (id : Z) : list Z :=
  match indices with
  | [] => []
  | x :: rest => if bool_decide (x = id) then row :: rows_from (row + 1) rest id else rows_from (row + 1) rest id
  end.
Definition rows_of (indices : list Z) (id : Z) : list Z := rows_from 0 indices id.

Fixpoint gaps_of (prev : Z) (rows : list Z) : list Z :=
  match rows with
  | [] => []
  | r :: rows' => (r - prev) :: gaps_of r rows'
  end.

(** The d-gap runs of every id, in id order. *)
Definition runs (indices : list Z) (dictLen : nat) : list (list Z) :=
  (λ j, gaps_of 0 (rows_of indices (Z.of_nat j))) <$> seq 0 dictLen.
Definition start (indices : list Z) (dictLen id : nat) : nat := length (concat (take id (runs indices dictLen))).

Lemma length_gaps_of rows : ∀ prev, length (gaps_of prev rows) = length rows.
Proof. induction rows as [|r rows IH]; intros prev; simpl; [done|]. by rewrite IH. Qed.
Lemma gaps_of_snoc rows r : ∀ prev, gaps_of prev (rows ++ [r]) = gaps_of prev rows ++ [r - default prev (last rows)].
Proof.
  induction rows as [|x rows IH]; intros prev; cbn [gaps_of app]; [done|].
  rewrite IH, last_cons. by destruct (last rows).
Qed.

Lemma rows_from_app pre rest id : ∀ row,
  rows_from row (pre ++ rest) id = rows_from row pre id ++ rows_from (row + len pre) rest id.
Proof.
  induction pre as [|x pre IH]; intros row; simpl; [len_nil; by rewrite Z.add_0_r|].
  rewrite IH, len_cons. replace (row + (1 + len pre)) with (row + 1 + len pre) by lia. by case_bool_decide.
Qed.
Lemma rows_from_range indices id : ∀ row, Forall (λ r, row ≤ r < row + len indices) (rows_from row indices id).
Proof.
  induction indices as [|x rest IH]; intros row; simpl; [constructor|].
  assert (Forall (λ r, row ≤ r < row + len (x :: rest)) (rows_from (row + 1) rest id)) as Ht.
  { eapply Forall_impl; [apply IH|]. intros r Hr. rewrite len_cons. simpl in Hr. lia. }
  case_bool_decide; [constructor; [len_lia|done]|done].
Qed.
Lemma rows_from_sorted indices id : ∀ row, StronglySorted Z.lt (rows_from row indices id).
Proof.
  induction indices as [|x rest IH]; intros row; simpl; [constructor|]. case_bool_decide; [|done].
  constructor; [done|]. eapply Forall_impl; [apply rows_from_range|]. intros r Hr. simpl in Hr. lia.
Qed.
Lemma rows_from_elem indices id r : ∀ row,
  r ∈ rows_from row indices id ↔ row ≤ r ∧ indices !! Z.to_nat (r - row) = Some id.
Proof.
  induction indices as [|x rest IH]; intros row; simpl.
  - rewrite elem_of_nil, lookup_nil. by split; [|intros [_ ?]].
  - assert (row + 1 ≤ r ∧ rest !! Z.to_nat (r - (row + 1)) = Some id ↔
            row + 1 ≤ r ∧ (x :: rest) !! Z.to_nat (r - row) = Some id) as E.
    { split; intros [Hr H]; (split; [done|]).
      - by replace (Z.to_nat (r - row)) with (S (Z.to_nat (r - (row + 1)))) by lia.
      - by replace (Z.to_nat (r - row)) with (S (Z.to_nat (r - (row + 1)))) in H by lia. }
    assert (r = row → (x :: rest) !! Z.to_nat (r - row) = Some x) as E0 by (intros ->; by rewrite Z.sub_diag).
    case_bool_decide as Hx.
    + subst x. rewrite elem_of_cons, IH, E. split; [intros [-> |[? ?]]; split; (lia || auto)|].
      intros [Hr H]. destruct (decide (r = row)); [by left|right; split; [lia|done]].
    + rewrite IH, E. split; [intros [? ?]; split; (lia || done)|]. intros [Hr H].
      destruct (decide (r = row)) as [-> |]; [rewrite E0 in H by done; congruence|split; [lia|done]].
Qed.

(** The runs partition the rows. *)
Lemma sum_indicator n x : ∀ k,
  sum_list ((λ j, if bool_decide (x = j) then 1%nat else 0%nat) <$> seq k n) =
  if bool_decide (k ≤ x < k + n)%nat then 1%nat else 0%nat.
Proof.
  induction n as [|n IH]; intros k; simpl; [by rewrite bool_decide_eq_false_2 by lia|].
  rewrite IH. repeat case_bool_decide; lia.
Qed.
Lemma sum_fmap_add {A} (f g : A → nat) l :
  sum_list ((λ a, f a + g a)%nat <$> l) = (sum_list (f <$> l) + sum_list (g <$> l))%nat.
Proof.
  induction l as [|a l IH]; [done|]. rewrite !fmap_cons. cbn [sum_list_with]. unfold id at 1 3 5. rewrite IH. lia.
Qed.
Lemma length_runs_from indices n : ∀ row,
  Forall (λ x, 0 ≤ x < Z.of_nat n) indices →
  sum_list ((λ j, length (rows_from row indices (Z.of_nat j))) <$> seq 0 n) = length indices.
Proof.
  induction indices as [|x rest IH]; intros row Hi; simpl.
  - induction (seq 0 n) as [|j l IHl]; [done|]. rewrite fmap_cons. cbn [sum_list_with]. by rewrite IHl.
  - apply Forall_cons_1 in Hi as [Hx Hi].
    transitivity (sum_list ((λ j, (if bool_decide (Z.to_nat x = j) then 1 else 0) + length (rows_from (row + 1) rest (Z.of_nat j)))%nat <$> seq 0 n)).
    + f_equal. apply list_fmap_ext. intros i j _. destruct (decide (x = Z.of_nat j)) as [-> |].
      * rewrite !bool_decide_eq_true_2 by lia. done.
      * rewrite !bool_decide_eq_false_2 by lia. done.
    + rewrite sum_fmap_add, sum_indicator, IH by done. by rewrite bool_decide_eq_true_2 by lia.
Qed.
Lemma length_concat_runs indices n :
  Forall (λ x, 0 ≤ x < Z.of_nat n) indices → length (concat (runs indices n)) = length indices.
Proof.
  intros Hi. rewrite length_concat, <- (length_runs_from indices n 0 Hi). unfold runs.
  rewrite <- list_fmap_compose. f_equal. apply list_fmap_ext. intros i j _. simpl. apply length_gaps_of.
Qed.

(** *** Tables indexed by id *)

Definition table {A} (f : nat → A) (n : nat) : list A := f <$> seq 0 n.
Lemma table_lookup {A} (f : nat → A) n i : (i < n)%nat → table f n !! i = Some (f i).
Proof. intros. unfold table. by rewrite list_lookup_fmap, lookup_seq_lt. Qed.
Lemma table_length {A} (f : nat → A) n : length (table f n) = n.
Proof. unfold table. by rewrite length_fmap, length_seq. Qed.
Lemma table_ext {A} (f g : nat → A) n : (∀ i, (i < n)%nat → f i = g i) → table f n = table g n.
Proof. intros H. apply list_fmap_ext. intros i j Hj. apply lookup_seq in Hj as [-> Hj]. by apply H. Qed.
Lemma table_update {A} (f f' : nat → A) n i v :
  (i < n)%nat → f' i = v → (∀ j, j ≠ i → f' j = f j) → <[i := v]> (table f n) = table f' n.
Proof.
  intros Hi Hv Hj. apply list_eq. intros j. destruct (decide (j < n)%nat).
  - rewrite table_lookup by done. destruct (decide (j = i)) as [-> |].
    + rewrite list_lookup_insert_eq by (by rewrite table_length). by rewrite Hv.
    + rewrite list_lookup_insert_ne, table_lookup by done. by rewrite Hj.
  - rewrite !(proj2 (lookup_ge_None _ _)); rewrite ?length_insert, ?table_length; (done || lia).
Qed.
Lemma table_const {A} (x : A) n : replicate n x = table (λ _, x) n.
Proof. apply list_eq. intros i. destruct (decide (i < n)%nat).
  - by rewrite lookup_replicate_2, table_lookup.
  - rewrite !(proj2 (lookup_ge_None _ _)); rewrite ?length_replicate, ?table_length; (done || lia).
Qed.

Lemma rows_of_snoc pre x id :
  rows_of (pre ++ [x]) id = rows_of pre id ++ (if bool_decide (x = id) then [len pre] else []).
Proof. unfold rows_of. rewrite rows_from_app. cbn [rows_from]. rewrite Z.add_0_l. by case_bool_decide. Qed.
Lemma rows_of_prefix pre rest id : len (rows_of pre id) ≤ len (rows_of (pre ++ rest) id).
Proof. unfold rows_of. rewrite rows_from_app. len_lia. Qed.
Lemma rows_of_len indices id : len (rows_of indices id) ≤ len indices.
Proof.
  unfold rows_of. generalize 0 as row. induction indices as [|x rest IH]; intros row; cbn [rows_from]; [done|].
  specialize (IH (row + 1)). case_bool_decide; len_lia.
Qed.

Section build.
Context (n : nat).

Lemma count_ids_spec rest : ∀ pre,
  Forall (λ x, 0 ≤ x < Z.of_nat n) rest → len (pre ++ rest) < 2 ^ 32 →
  count_ids rest (table (λ j, len (rows_of pre (Z.of_nat j))) n) =
    Ok (table (λ j, len (rows_of (pre ++ rest) (Z.of_nat j))) n).
Proof.
  induction rest as [|x rest IH]; intros pre Hr Hl; cbn [count_ids]; [by rewrite app_nil_r|].
  apply Forall_cons_1 in Hr as [Hx Hr].
  rewrite (index_Ok _ x (len (rows_of pre x))), bind_Ok by
    (try lia; rewrite table_lookup by lia; do 3 f_equal; lia).
  rewrite store_Ok, bind_Ok by (try lia; unfold len; rewrite table_length; lia).
  pose proof (rows_of_len pre x). rewrite len_app, len_cons in Hl. len_facts.
  rewrite (table_update _ (λ j, len (rows_of (pre ++ [x]) (Z.of_nat j)))).
  - rewrite IH by (try done; rewrite !len_app, len_cons; len_lia). by rewrite <- app_assoc.
  - lia.
  - rewrite rows_of_snoc, Z2Nat.id, bool_decide_eq_true_2 by lia. rewrite len_app, len_cons. len_nil.
    rewrite u32_small; [lia|unfold is_digit; lia].
  - intros j Hj. rewrite rows_of_snoc, bool_decide_eq_false_2 by lia. by rewrite app_nil_r.
Qed.

(** The offset table holds the start of each run. *)
Lemma offsets_from_spec (L : list (list Z)) : ∀ off i,
  0 ≤ off → off + len (concat L) < 2 ^ 32 → (i ≤ length L)%nat →
  offsets_from off (len <$> L) !! i = Some (off + len (concat (take i L))).
Proof.
  induction L as [|l L IH]; intros off i Ho Hl Hi; simpl in Hi.
  - assert (i = 0%nat) as -> by lia. simpl. len_nil. by rewrite Z.add_0_r.
  - rewrite fmap_cons. cbn [offsets_from concat] in *. rewrite len_app in Hl. len_facts. destruct i as [|i].
    + cbn. len_nil. by rewrite Z.add_0_r.
    + cbn [lookup list_lookup take concat]. rewrite u32_small by (unfold is_digit; lia).
      change (list_lookup i ?l) with (l !! i). rewrite IH by lia. f_equal. rewrite len_app. lia.
Qed.
Lemma offsets_from_length counts : ∀ off, length (offsets_from off counts) = S (length counts).
Proof. induction counts as [|c counts IH]; intros off; simpl; [done|]. by rewrite IH. Qed.

Context (indices : list Z) (Hidx : Forall (λ x, 0 ≤ x < Z.of_nat n) indices) (Hlen : len indices < 2 ^ 32).

Lemma runs_lookup id : (id < n)%nat → runs indices n !! id = Some (gaps_of 0 (rows_of indices (Z.of_nat id))).
Proof. intros. by apply (table_lookup (λ j, gaps_of 0 (rows_of indices (Z.of_nat j)))). Qed.
Lemma runs_length : length (runs indices n) = n.
Proof. apply (table_length (λ j, gaps_of 0 (rows_of indices (Z.of_nat j)))). Qed.
Lemma start_S id : (id < n)%nat → start indices n (S id) = (start indices n id + length (rows_of indices (Z.of_nat id)))%nat.
Proof.
  intros Hid. unfold start. rewrite (take_S_r _ _ _ (runs_lookup id Hid)), concat_app, length_app.
  simpl. by rewrite app_nil_r, length_gaps_of.
Qed.
Lemma start_mono i j : (i ≤ j)%nat → (start indices n i ≤ start indices n j)%nat.
Proof.
  intros Hij. unfold start. replace (take i (runs indices n)) with (take i (take j (runs indices n)))
    by (rewrite take_take; f_equal; lia).
  generalize (take j (runs indices n)). intros l. rewrite <- (take_drop i l) at 2. rewrite concat_app, length_app. lia.
Qed.
Lemma start_n : start indices n n = length indices.
Proof. unfold start. rewrite take_ge by (rewrite runs_length; lia). by apply length_concat_runs. Qed.

(** Between two rows: what is written, what is next. *)
Record gap_inv (pre : list Z) (s : gap_state) : Prop := {
  gi_pos : g_pos s = table (λ j, Z.of_nat (start indices n j) + len (rows_of pre (Z.of_nat j))) n;
  gi_last : g_last s = table (λ j, default 0 (last (rows_of pre (Z.of_nat j)))) n;
  gi_len : length (g_dgaps s) = length indices;
  gi_gaps id j g : (id < n)%nat → gaps_of 0 (rows_of pre (Z.of_nat id)) !! j = Some g →
    g_dgaps s !! (start indices n id + j)%nat = Some g }.

Lemma last_rows_range pre id : 0 ≤ default 0 (last (rows_of pre id)) ≤ len pre.
Proof.
  destruct (last (rows_of pre id)) as [r|] eqn:E; simpl; [|len_lia].
  apply last_Some_elem_of in E. pose proof (rows_from_range pre id 0) as Hr. rewrite Forall_forall in Hr.
  apply Hr in E. lia.
Qed.

Lemma gap_step_dgaps pre rest x s :
  indices = pre ++ x :: rest → 0 ≤ x < Z.of_nat n → gap_inv pre s →
  let at_ := (start indices n (Z.to_nat x) + length (rows_of pre x))%nat in
  (at_ < length indices)%nat ∧
  ∀ id j g, (id < n)%nat → gaps_of 0 (rows_of (pre ++ [x]) (Z.of_nat id)) !! j = Some g →
    <[at_ := len pre - default 0 (last (rows_of pre x))]> (g_dgaps s) !! (start indices n id + j)%nat = Some g.
Proof.
  intros Hi Hx [_ _ Hgl Hg] at_.
  assert (∀ id, (id < n)%nat → (length (rows_of (pre ++ [x]) (Z.of_nat id)) ≤ length (rows_of indices (Z.of_nat id)))%nat) as Hp.
  { intros id _. pose proof (rows_of_prefix (pre ++ [x]) rest (Z.of_nat id)) as H. rewrite <- app_assoc in H.
    change (([x] ++ rest)) with (x :: rest) in H. rewrite <- Hi in H. unfold len in H. lia. }
  assert (start indices n (Z.to_nat x) + length (rows_of pre x) < start indices n (S (Z.to_nat x)))%nat as Hat.
  { rewrite start_S by lia. pose proof (Hp (Z.to_nat x) ltac:(lia)) as H.
    rewrite rows_of_snoc, Z2Nat.id, bool_decide_eq_true_2, length_app in H by lia. rewrite Z2Nat.id by lia. simpl in H. lia. }
  assert (at_ < length indices)%nat as Hlt.
  { pose proof (start_mono (S (Z.to_nat x)) n ltac:(lia)). rewrite start_n in *. lia. }
  split; [done|]. intros id j g Hid Hj. rewrite rows_of_snoc in Hj.
  destruct (decide (x = Z.of_nat id)) as [E|E].
  - subst x. rewrite bool_decide_eq_true_2, gaps_of_snoc in Hj by done.
    apply lookup_app_Some in Hj as [Hj|[Hj1 Hj2]].
    + rewrite list_lookup_insert_ne; [by apply Hg|]. apply lookup_lt_Some in Hj. rewrite length_gaps_of in Hj.
      subst at_. rewrite Nat2Z.id. lia.
    + rewrite length_gaps_of in Hj1, Hj2. apply list_lookup_singleton_Some in Hj2 as [Hz ->].
      replace (start indices n id + j)%nat with at_ by (subst at_; rewrite Nat2Z.id; lia).
      apply list_lookup_insert_eq. lia.
  - rewrite bool_decide_eq_false_2, app_nil_r in Hj by done. rewrite list_lookup_insert_ne; [by apply Hg|].
    apply lookup_lt_Some in Hj. rewrite length_gaps_of in Hj. subst at_.
    pose proof (Hp id Hid) as H. rewrite rows_of_snoc, length_app in H.
    pose proof (start_S id Hid). pose proof (start_mono (S id) (Z.to_nat x)). pose proof (start_mono (S (Z.to_nat x)) id). lia.
Qed.

Lemma gap_loop_spec rest : ∀ pre s,
  indices = pre ++ rest → gap_inv pre s → ∃ s', gap_loop rest (len pre) s = Ok s' ∧ gap_inv indices s'.
Proof.
  induction rest as [|x rest IH]; intros pre s Hi Hs; cbn [gap_loop].
  { exists s. split; [done|]. by rewrite Hi, app_nil_r. }
  assert (0 ≤ x < Z.of_nat n) as Hx.
  { rewrite Forall_forall in Hidx. apply Hidx. rewrite Hi. apply elem_of_app. right. apply elem_of_cons. by left. }
  destruct (gap_step_dgaps pre rest x s Hi Hx Hs) as [Hat Hg]. pose proof Hs as [Hp Hl Hdl _].
  assert (len pre < len indices) as Hpl by (rewrite Hi, len_app, len_cons; len_lia).
  pose proof (last_rows_range pre x) as Hr. len_facts.
  assert (index (g_pos s) x = Ok (Z.of_nat (start indices n (Z.to_nat x)) + len (rows_of pre x))) as ->
    by (rewrite Hp; apply index_Ok; [lia|rewrite table_lookup by lia; by rewrite Z2Nat.id by lia]).
  assert (index (g_last s) x = Ok (default 0 (last (rows_of pre x)))) as ->
    by (rewrite Hl; apply index_Ok; [lia|rewrite table_lookup by lia; by rewrite Z2Nat.id by lia]).
  rewrite !bind_Ok, Hp, Hl.
  assert (len indices = Z.of_nat (length indices)) as El by done.
  rewrite (u32_small (len pre)) by (unfold is_digit; lia). rewrite (u32_small (len pre - _)) by (unfold is_digit; lia).
  rewrite (store_Ok (g_dgaps s)), bind_Ok by (unfold len in *; lia).
  rewrite !store_Ok by (try lia; unfold len; rewrite table_length; lia). rewrite !bind_Ok.
  replace (len pre + 1) with (len (pre ++ [x])) by len_lia.
  apply IH; [by rewrite <- app_assoc|]. constructor; cbn [g_pos g_last g_dgaps].
  - apply table_update; [lia| |].
    + rewrite Z2Nat.id, rows_of_snoc, bool_decide_eq_true_2, len_app, len_cons by lia. len_nil.
      rewrite u32_small; [lia|]. unfold is_digit, len in *. lia.
    + intros j Hj. rewrite rows_of_snoc, bool_decide_eq_false_2 by lia. by rewrite app_nil_r.
  - apply table_update; [lia| |].
    + rewrite Z2Nat.id, rows_of_snoc, bool_decide_eq_true_2 by lia. by rewrite last_snoc.
    + intros j Hj. rewrite rows_of_snoc, bool_decide_eq_false_2 by lia. by rewrite app_nil_r.
  - by rewrite length_insert.
  - intros id j g Hid Hj. rewrite <- (Hg id j g Hid Hj). f_equal. f_equal. unfold len. lia.
Qed.

(** A list that holds each piece at its place is the concatenation. *)
Lemma concat_pieces {A} (L : list (list A)) : ∀ l,
  length l = length (concat L) →
  (∀ i g j x, L !! i = Some g → g !! j = Some x → l !! (length (concat (take i L)) + j)%nat = Some x) → l = concat L.
Proof.
  induction L as [|g L IH]; intros l Hl H; cbn [concat] in *; [by destruct l|].
  rewrite length_app in Hl. rewrite <- (take_drop (length g) l). f_equal.
  - apply list_eq. intros j. destruct (decide (j < length g)%nat).
    + rewrite lookup_take_lt by done. destruct (lookup_lt_is_Some_2 g j) as [x Hx]; [done|].
      rewrite Hx. by apply (H 0%nat g j x).
    + rewrite !(proj2 (lookup_ge_None _ _)); rewrite ?length_take; (done || lia).
  - apply IH; [rewrite length_drop; lia|]. intros i g' j x Hg Hx. rewrite lookup_drop.
    rewrite <- (H (S i) g' j x Hg Hx). f_equal. cbn [take concat]. rewrite length_app. lia.
Qed.

Lemma buildPostings_spec :
  ∃ p, buildPostings indices (Z.of_nat n) = Ok p ∧ dgaps p = concat (runs indices n) ∧
    length (rowOffsets p) = S n ∧
    ∀ i, (i ≤ n)%nat → rowOffsets p !! i = Some (Z.of_nat (start indices n i)).
Proof.
  unfold buildPostings. rewrite bool_decide_eq_false_2, Nat2Z.id by lia. cbv zeta. rewrite (table_const 0 n).
  pose proof (count_ids_spec indices [] Hidx Hlen) as Hcount.
  change (table (λ j, len (rows_of [] (Z.of_nat j))) n) with (table (λ _, 0) n) in Hcount.
  rewrite Hcount, bind_Ok. cbn [app].
  set (counts := table _ n). assert (counts = len <$> runs indices n) as Ec.
  { unfold counts, runs. rewrite <- list_fmap_compose. apply list_fmap_ext. intros i j _. simpl.
    unfold len. by rewrite length_gaps_of. }
  pose proof (length_concat_runs indices n Hidx) as Hc.
  assert (∀ i, (i ≤ n)%nat → offsets_from 0 counts !! i = Some (Z.of_nat (start indices n i))) as Ho.
  { intros i Hi. rewrite Ec, offsets_from_spec; [done|lia|unfold len in *; lia|by rewrite runs_length]. }
  assert (length (offsets_from 0 counts) = S n) as Hol
    by (rewrite offsets_from_length; unfold counts; by rewrite table_length).
  destruct (gap_loop_spec indices [] (Gaps (replicate (length indices) 0) (table (λ _, 0) n) (take n (offsets_from 0 counts))))
    as (s & Es & [Hp Hl Hgl Hg]); [done| |].
  { constructor; cbn [g_pos g_last g_dgaps].
    - apply list_eq. intros i. destruct (decide (i < n)%nat).
      + rewrite lookup_take_lt, Ho, table_lookup by lia. change (rows_of [] (Z.of_nat i)) with (@nil Z). len_nil. f_equal. lia.
      + rewrite !(proj2 (lookup_ge_None _ _)); rewrite ?length_take, ?table_length; (done || lia).
    - done.
    - apply length_replicate.
    - intros id j g _. simpl. by rewrite lookup_nil. }
  change (len []) with 0 in Es. rewrite Es, bind_Ok. eexists. split; [done|]. cbn [dgaps rowOffsets]. split_and!; [|done|done].
  apply concat_pieces; [congruence|]. intros i g j x Hi Hx.
  pose proof (lookup_lt_Some _ _ _ Hi) as Hlt. rewrite runs_length in Hlt. rewrite runs_lookup in Hi by done.
  simplify_eq. by apply Hg.
Qed.
End build.

(** ** The blob *)

Lemma deltas_length ro : length (deltas ro) = (length ro - 1)%nat.
Proof. induction ro as [|a [|b ro] IH]; [done..|]. cbn [deltas length] in *. rewrite IH. lia. Qed.
Lemma deltas_lookup ro : ∀ i a b, ro !! i = Some a → ro !! S i = Some b → deltas ro !! i = Some (u32 (b - a)).
Proof.
  induction ro as [|x [|y ro] IH]; intros i a b Ha Hb; [by rewrite lookup_nil in Ha|by destruct i|].
  destruct i as [|i]; [simpl in Ha, Hb; by simplify_eq|]. change (deltas (y :: ro) !! i = Some (u32 (b - a))).
  by apply IH.
Qed.

Lemma max_loop_spec l B : Forall (λ x, 0 ≤ x ≤ B) l → 0 ≤ B → 0 ≤ max_loop l ≤ B ∧ Forall (λ x, x ≤ max_loop l) l.
Proof.
  intros Hl HB. unfold max_loop. assert (∀ l m, Forall (λ x, 0 ≤ x ≤ B) l → 0 ≤ m ≤ B →
    let r := fold_left (λ m d, if bool_decide (m < d) then d else m) l m in
    m ≤ r ≤ B ∧ Forall (λ x, x ≤ r) l) as H.
  { clear l Hl. induction l as [|x l IH]; intros m Hl Hm; cbn [fold_left]; [split; [lia|constructor]|].
    apply Forall_cons_1 in Hl as [Hx Hl].
    destruct (IH (if bool_decide (m < x) then x else m) Hl) as [H1 H2]; [case_bool_decide; lia|].
    split; [case_bool_decide; lia|]. constructor; [case_bool_decide; lia|done]. }
  destruct (H l 0 Hl ltac:(lia)) as [H1 H2]. done.
Qed.

Lemma bitWidth_le n w : 1 ≤ w → n ≤ 2 ^ w → n ≤ 2 ^ 32 → bitWidth n ≤ w.
Proof.
  intros Hw Hn H32. unfold bitWidth. case_bool_decide; [done|]. unfold u32. rewrite Z.mod_small by lia.
  unfold Len32. rewrite bool_decide_eq_false_2 by lia. assert (Z.log2 (n - 1) < w) by (apply Z.log2_lt_pow2; lia). lia.
Qed.

(** The width chosen for values up to [B] holds them all. *)
Lemma width_fits l B :
  Forall (λ x, 0 ≤ x ≤ B) l → 0 ≤ B ≤ 2 ^ 24 →
  1 ≤ bitWidth (max_loop l + 1) ≤ 25 ∧ Forall (is_digit (bitWidth (max_loop l + 1))) l.
Proof.
  intros Hl HB. destruct (max_loop_spec l B Hl ltac:(lia)) as [H1 H2].
  split; [split; [apply bitWidth_range; lia|apply bitWidth_le; lia]|].
  rewrite Forall_forall in Hl, H2 |- *. intros x Hx. apply bitWidth_spec; [|lia].
  specialize (Hl x Hx). specialize (H2 x Hx). simpl in *. lia.
Qed.

(** The rows come back from their gaps. *)
Lemma run_loop_rows get maxRow rows : ∀ i prev out,
  StronglySorted Z.lt rows → Forall (λ r, prev ≤ r < 2 ^ 32 ∧ (0 < maxRow → r < maxRow)) rows → 0 ≤ prev →
  (∀ r l, r ∈ rows → last out = Some l → l < r) →
  (∀ j g, gaps_of prev rows !! j = Some g → get (i + Z.of_nat j) = Ok g) →
  run_loop (length rows) i get prev out maxRow = Ok (out ++ rows).
Proof.
  induction rows as [|r rows IH]; intros i prev out Hs Hr Hp Hl Hg; cbn [length run_loop]; [by rewrite app_nil_r|].
  apply StronglySorted_inv in Hs as [Hs Hlt]. apply Forall_cons_1 in Hr as [[Hr1 Hr2] Hr].
  pose proof (Hg 0%nat (r - prev) eq_refl) as G0. rewrite Z.add_0_r in G0. rewrite G0, bind_Ok.
  rewrite u32_small by (unfold is_digit; lia). replace (prev + (r - prev)) with r by lia.
  assert (inGroup r out maxRow = true) as ->.
  { unfold inGroup. rewrite bool_decide_eq_false_2 by lia. destruct (last out) as [l|] eqn:E; [|done].
    apply bool_decide_eq_true_2, Hl; [apply elem_of_cons; by left|done]. }
  rewrite IH; [by rewrite <- app_assoc|done| |lia| |].
  - rewrite Forall_forall in Hr, Hlt |- *. intros x Hx. specialize (Hr x Hx). specialize (Hlt x Hx). simpl in *. lia.
  - intros x l Hx. rewrite last_snoc. intros [= <-]. rewrite Forall_forall in Hlt. by apply Hlt.
  - intros j g Hj. rewrite <- (Hg (S j) g Hj). f_equal. lia.
Qed.

Section blob.
Context {K : Simd} {KL : SimdLaws K}.

Definition pad32 (dg : list Z) : list Z :=
  if bool_decide (len dg mod 32 ≠ 0) then dg ++ replicate (Z.to_nat (32 - len dg mod 32)) 0 else dg.
Definition forBlock (dg : list Z) : bytes := appendForBlock [] dg (forBlockWidth dg).

Lemma appendForBlock_app dst dg w : appendForBlock dst dg w = dst ++ appendForBlock [] dg w.
Proof. unfold appendForBlock. case_bool_decide; [by rewrite app_nil_r|done]. Qed.

Lemma pad32_spec dg : ∃ m, 0 ≤ m ∧ len (pad32 dg) = 32 * m ∧ len dg ≤ 32 * m ∧ ∃ z, pad32 dg = dg ++ replicate z 0.
Proof.
  unfold pad32. pose proof (Z_div_mod_eq_full (len dg) 32). pose proof (Z.mod_pos_bound (len dg) 32).
  assert (0 ≤ len dg / 32) by (apply Z.div_pos; len_lia). case_bool_decide.
  - exists (len dg / 32 + 1). split_and!; [lia|rewrite len_app, len_replicate; lia|lia|by eexists].
  - exists (len dg / 32). split_and!; [lia..|]. exists 0%nat. by rewrite app_nil_r.
Qed.

(** A run of a packed block decodes to its rows, whichever arm reads it. *)
Lemma decodeForRun_block dg w lo rows maxRow :
  1 ≤ w ≤ 32 → Forall (is_digit w) dg → at_off dg lo (gaps_of 0 rows) → rows ≠ [] →
  StronglySorted Z.lt rows → Forall (λ r, 0 ≤ r < 2 ^ 32 ∧ (0 < maxRow → r < maxRow)) rows →
  decodeForRun (appendForBlock [] dg w) w lo (len rows) maxRow = Ok rows.
Proof.
  intros Hw Hd Hat Hne Hs Hr. pose proof (at_off_bound _ _ _ Hat) as Hb.
  assert (len (gaps_of 0 rows) = len rows) as Lg by (unfold len; by rewrite length_gaps_of).
  assert (0 < len rows) as Hpos by (destruct rows; [done|len_lia]).
  unfold appendForBlock. rewrite bool_decide_eq_false_2 by lia. cbv zeta. fold (pad32 dg). cbn [app].
  destruct (pad32_spec dg) as (m & Hm & Lp & Hdm & z & Ez).
  assert (Forall (is_digit w) (pad32 dg)) as Hpd.
  { rewrite Ez. apply Forall_app_2; [done|]. apply Forall_replicate. split; [done|]. apply pow2_pos. lia. }
  assert (pad32 dg ≠ []) as Hpne by (intros E; rewrite E in Lp; len_nil; lia).
  pose proof (encodeIndices_len (pad32 dg) w Hw Hpd Hpne) as Lb.
  destruct (encodeIndices_stream (pad32 dg) w Hw Hpd) as [Hbb _].
  rewrite decodeForRun_arms by (done || lia). rewrite bool_decide_eq_false_2.
  2:{ intros [_ Hlt]. rewrite Lb, Z.div_mul, Lp in Hlt by lia.
      replace (32 * m * w + 31) with (31 + (m * w) * 32) in Hlt by lia. rewrite Z.div_add in Hlt by lia.
      change (31 / 32) with 0 in Hlt.
      assert (lo / 32 + (lo mod 32 + len rows + 31) / 32 ≤ m); [|nia].
      rewrite <- Z.div_add_l by lia. replace (lo / 32 * 32 + (lo mod 32 + len rows + 31)) with (lo + len rows + 31)
        by (pose proof (Z_div_mod_eq_full lo 32); lia).
      apply Z.lt_succ_r. apply Z.div_lt_upper_bound; lia. }
  change (Ok rows) with (Ok ([] ++ rows)). replace (Z.to_nat (len rows)) with (length rows) by (unfold len; lia).
  apply run_loop_rows; [done|done|lia|by intros|].
  intros j g Hj. f_equal. unfold gap_at.
  destruct Hat as (pre & post & E & ->). replace (len pre + Z.of_nat j) with (Z.of_nat (length pre + j)) by (unfold len; lia).
  apply encodeIndices_digit; [done..|]. rewrite Ez. apply lookup_app_l_Some. rewrite E, lookup_app_r by lia.
  replace (length pre + j - length pre)%nat with j by lia. by apply lookup_app_l_Some.
Qed.

(** *** Writing *)

Context (n : nat) (indices : list Z) (Hidx : Forall (λ x, 0 ≤ x < Z.of_nat n) indices)
        (Hn : Z.of_nat n < 2 ^ 32) (Hlen : len indices ≤ 2 ^ 24).

Definition block_gaps (k : nat) : list Z := concat (chunk (runs indices n) k).
Definition block_list (m : nat) : list bytes := table (λ k, forBlock (block_gaps k)) m.
Definition entries (m : nat) : list fidx :=
  table (λ k, Fidx (u32 (len (concat (block_list k)))) (u32 (forBlockWidth (block_gaps k)))) m.

Lemma table_S {A} (f : nat → A) m : table f (S m) = table f m ++ [f m].
Proof. unfold table. by rewrite seq_S, fmap_app. Qed.
Lemma table_take {A} (f : nat → A) m k : (k ≤ m)%nat → take k (table f m) = table f k.
Proof.
  intros Hk. apply list_eq. intros i. destruct (decide (i < k)%nat).
  - by rewrite lookup_take_lt, !table_lookup by lia.
  - rewrite !(proj2 (lookup_ge_None _ _)); rewrite ?length_take, ?table_length; (done || lia).
Qed.

Lemma block_list_take m k : (k ≤ m)%nat → take k (block_list m) = block_list k.
Proof. apply table_take. Qed.

Lemma run_values id : Forall (λ g, 0 ≤ g ≤ 2 ^ 24) (gaps_of 0 (rows_of indices id)).
Proof.
  assert (∀ rows prev, StronglySorted Z.lt rows → Forall (λ r, prev ≤ r ≤ 2 ^ 24) rows → 0 ≤ prev →
    Forall (λ g, 0 ≤ g ≤ 2 ^ 24) (gaps_of prev rows)) as H.
  { induction rows as [|r rows IH]; intros prev Hs Hr Hp; cbn [gaps_of]; constructor;
      apply Forall_cons_1 in Hr as [Hr1 Hr]; [lia|]. apply StronglySorted_inv in Hs as [Hs Hlt]. apply IH; [done| |lia].
    rewrite Forall_forall in Hr, Hlt |- *. intros x Hx. specialize (Hr x Hx). specialize (Hlt x Hx). simpl in *. lia. }
  apply H; [apply rows_from_sorted| |lia].
  eapply Forall_impl; [apply rows_from_range|]. intros r Hr. simpl in Hr. lia.
Qed.
Lemma Forall_concat {A} (P : A → Prop) (L : list (list A)) : Forall (Forall P) L → Forall P (concat L).
Proof. induction 1; cbn [concat]; [constructor|by apply Forall_app_2]. Qed.
Lemma runs_values : Forall (Forall (λ g, 0 ≤ g ≤ 2 ^ 24)) (runs indices n).
Proof. unfold runs. apply Forall_fmap, Forall_true. intros j. apply run_values. Qed.
Lemma block_gaps_fit k :
  1 ≤ forBlockWidth (block_gaps k) ≤ 25 ∧ Forall (is_digit (forBlockWidth (block_gaps k))) (block_gaps k).
Proof.
  apply (width_fits _ (2 ^ 24)); [|lia]. apply Forall_concat. unfold chunk. apply Forall_take, Forall_drop, runs_values.
Qed.

Definition post_blocks : Z := (Z.of_nat n + 63) / 64.
Lemma post_blocks_bounds k : 0 ≤ k < post_blocks → k * 64 < Z.of_nat n.
Proof. unfold post_blocks. intros. pose proof (Z_div_mod_eq_full (Z.of_nat n + 63) 64). pose proof (Z.mod_pos_bound (Z.of_nat n + 63) 64). lia. Qed.

Lemma concat_take_drop_len (L : list (list Z)) a b :
  (a ≤ b)%nat → len (concat (take b L)) = len (concat (take a L)) + len (concat (take (b - a) (drop a L))).
Proof.
  intros Hab. replace (take b L) with (take a L ++ take (b - a) (drop a L)).
  - rewrite concat_app. len_lia.
  - rewrite <- (take_drop a L) at 3. rewrite take_app. rewrite length_take.
    destruct (decide (a ≤ length L)%nat).
    + rewrite (take_ge (take a L)) by (rewrite length_take; lia). f_equal. f_equal. lia.
    + rewrite (drop_ge L a) by lia. rewrite !take_nil, !app_nil_r, take_take. f_equal. lia.
Qed.

(** Block [k] of the gaps, as [marshal] slices it. *)
Lemma block_slice k p :
  0 ≤ k < post_blocks → dgaps p = concat (runs indices n) →
  (∀ i, (i ≤ n)%nat → rowOffsets p !! i = Some (Z.of_nat (start indices n i))) →
  ∃ a b, index (rowOffsets p) (k * postBlock) = Ok a ∧
         index (rowOffsets p) (Z.min (k * postBlock + postBlock) (Z.of_nat n)) = Ok b ∧
         slice (dgaps p) a b = Ok (block_gaps (Z.to_nat k)).
Proof.
  intros Hk Hd Hro. pose proof (post_blocks_bounds k Hk) as Hb. unfold postBlock.
  set (a := (64 * Z.to_nat k)%nat). set (b := (Nat.min (a + 64) n)).
  exists (Z.of_nat (start indices n a)), (Z.of_nat (start indices n b)).
  split_and!; [apply index_Ok; [lia|]; rewrite <- Hro by lia; f_equal; lia..|].
  rewrite Hd. apply at_off_slice.
  - exists (concat (take a (runs indices n))), (concat (drop 64 (drop a (runs indices n)))).
    split; [|done]. unfold block_gaps, chunk. fold a. by rewrite <- !concat_app, !take_drop.
  - unfold start, block_gaps, chunk. fold a.
    change (Z.of_nat (length ?l)) with (len l). rewrite (concat_take_drop_len _ a b) by lia. do 3 f_equal.
    destruct (decide (a + 64 ≤ n)%nat); [f_equal; lia|].
    pose proof (runs_length n indices). rewrite !take_ge; [done|rewrite length_drop; lia..].
Qed.

(** The bytes [marshal] writes. *)
Definition counts_list : list Z := len <$> runs indices n.
Definition counts_width : Z := bitWidth (max_loop counts_list + 1).
Definition counts_bytes : bytes := encodeIndices counts_list counts_width.
Definition blocks_bytes : bytes :=
  let m := Z.to_nat post_blocks in
  le32 post_blocks ++ le32 postBlock ++ List.flat_map fidx_bytes (entries m) ++
  le32 (u32 (len (concat (block_list m)))) ++ concat (block_list m).
Definition blob_bytes : bytes :=
  le32 postV8ForMagic ++ le32 (Z.of_nat n) ++ le32 counts_width ++ le32 (u32 (len counts_bytes)) ++
  counts_bytes ++ blocks_bytes.

Lemma counts_list_lookup id : (id < n)%nat → counts_list !! id = Some (len (rows_of indices (Z.of_nat id))).
Proof.
  intros. unfold counts_list. rewrite list_lookup_fmap, runs_lookup by done. simpl. unfold len. by rewrite length_gaps_of.
Qed.
Lemma counts_fit : 1 ≤ counts_width ≤ 25 ∧ Forall (is_digit counts_width) counts_list.
Proof.
  apply (width_fits _ (2 ^ 24)); [|lia]. unfold counts_list, runs. apply Forall_fmap, Forall_fmap, Forall_true.
  intros j. simpl. unfold len. rewrite length_gaps_of. fold (len (rows_of indices (Z.of_nat j))).
  pose proof (rows_of_len indices (Z.of_nat j)). unfold len in *. lia.
Qed.

Lemma marshal_spec p b :
  dgaps p = concat (runs indices n) → length (rowOffsets p) = S n →
  (∀ i, (i ≤ n)%nat → rowOffsets p !! i = Some (Z.of_nat (start indices n i))) →
  marshal p b = Ok (b ++ blob_bytes).
Proof.
  intros Hd Hl Hro. unfold marshal.
  assert (len (rowOffsets p) - 1 = Z.of_nat n) as -> by (unfold len; lia).
  assert (deltas (rowOffsets p) = counts_list) as ->.
  { apply list_eq. intros i. destruct (decide (i < n)%nat).
    - rewrite (deltas_lookup _ i (Z.of_nat (start indices n i)) (Z.of_nat (start indices n (S i)))) by (apply Hro; lia).
      rewrite start_S, counts_list_lookup by done. f_equal. pose proof (rows_of_len indices (Z.of_nat i)).
      unfold len in *. rewrite u32_small; [lia|unfold is_digit; lia].
    - rewrite !(proj2 (lookup_ge_None _ _)); [done|unfold counts_list; rewrite length_fmap, runs_length; lia|
        rewrite deltas_length; lia]. }
  fold counts_width. fold counts_bytes.
  assert (0 ≤ post_blocks) as Hpb by (apply Z.div_pos; lia).
  assert ((if bool_decide (0 < Z.of_nat n) then (Z.of_nat n + postBlock - 1) / postBlock else 0) = post_blocks) as ->.
  { unfold post_blocks, postBlock. case_bool_decide; [f_equal; lia|]. by assert (Z.of_nat n = 0) as -> by lia. }
  destruct (forM_inv (λ k s, s = (entries (Z.to_nat k), concat (block_list (Z.to_nat k)))) (Z.to_nat post_blocks) 0
              (marshal_block p (Z.of_nat n)) ([], [])) as (s & -> & ->).
  - done.
  - intros k s Hk ->. rewrite Z2Nat.id, Z.add_0_l in Hk by done.
    destruct (block_slice k p Hk Hd Hro) as (a & b' & Ea & Eb & Es).
    eexists. split; [|done]. unfold marshal_block. rewrite Ea, Eb, !bind_Ok, Es, bind_Ok.
    replace (Z.to_nat (k + 1)) with (S (Z.to_nat k)) by lia. unfold entries, block_list. rewrite !table_S.
    f_equal. f_equal. rewrite concat_app. cbn [concat]. rewrite app_nil_r. apply appendForBlock_app.
  - rewrite bind_Ok. unfold blob_bytes, blocks_bytes. rewrite Z.add_0_l, !Z2Nat.id by done.
    destruct counts_fit as [Hcw _].
    assert (post_blocks ≤ Z.of_nat n + 1).
    { unfold post_blocks. apply Z.lt_succ_r. apply Z.div_lt_upper_bound; lia. }
    rewrite (u32_small (Z.of_nat n)), (u32_small counts_width) by (unfold is_digit; lia).
    rewrite (u32_small post_blocks); [done|]. unfold is_digit, post_blocks in *.
    split; [lia|]. apply Z.div_lt_upper_bound; lia.
Qed.

(** *** Reading back *)

Context (Hsize : len blob_bytes < 2 ^ 32).

Lemma blob_sizes : len counts_bytes < 2 ^ 32 ∧ len blocks_bytes < 2 ^ 32.
Proof using Hsize. unfold blob_bytes in Hsize. rewrite !len_app in Hsize. len_lia. Qed.

Lemma postV8Header_blob :
  postV8Header blob_bytes = Ok (Some (V8 (Z.of_nat n) counts_width counts_bytes blocks_bytes true)).
Proof using Hsize Hn Hlen.
  destruct blob_sizes as [Hc _]. destruct counts_fit as [Hw _]. len_facts.
  pose proof (at_off_refl blob_bytes) as HB0. unfold blob_bytes in HB0 at 2. rewrite (u32_small (len _)) in HB0 by (unfold is_digit; lia).
  apply at_off_app in HB0 as [P0 HB0]. apply at_off_app in HB0 as [P1 HB0]. apply at_off_app in HB0 as [P2 HB0].
  apply at_off_app in HB0 as [P3 HB0]. apply at_off_app in HB0 as [P4 P5]. rewrite !len_le32 in *.
  pose proof (at_off_bound _ _ _ P5) as B5. len_facts. change (0 + 4 + 4 + 4 + 4) with 16 in *.
  change (0 + 4 + 4 + 4) with 12 in *. change (0 + 4 + 4) with 8 in *. change (0 + 4) with 4 in *.
  unfold postV8Header. rewrite bool_decide_eq_false_2 by lia.
  rewrite (get32_at _ _ _ P0), bind_Ok. rewrite bool_decide_eq_false_2 by (intros [_ Hm]; done).
  rewrite (get32_at _ _ _ P1), bind_Ok, (get32_at _ _ _ P2), bind_Ok, (get32_at _ _ _ P3), bind_Ok.
  rewrite !u32_small by (unfold is_digit; lia). unfold maxCountWidth. rewrite bool_decide_eq_false_2 by lia.
  rewrite (at_off_slice _ _ _ _ P4), bind_Ok by done. unfold slice_from.
  rewrite (at_off_slice _ _ _ _ P5), bind_Ok; [done|].
  unfold blob_bytes. rewrite !len_app, !len_le32. lia.
Qed.

Lemma extract_count id : (id < n)%nat →
  extractCountBits counts_bytes (Z.of_nat id) counts_width = Ok (len (rows_of indices (Z.of_nat id))).
Proof using Hlen KL.
  intros Hid. destruct counts_fit as [Hw Hd]. apply extractCountBits_encode; [lia|done|by apply counts_list_lookup].
Qed.

(** The sum of the counts of ids [x, x+m) is the length of their runs. *)
Lemma sum_counts_spec m : ∀ x lo,
  (x + m ≤ n)%nat →
  sum_counts m (Z.of_nat x) counts_bytes counts_width lo =
    Ok (lo + len (concat (take m (drop x (runs indices n))))).
Proof using Hlen KL.
  induction m as [|m IH]; intros x lo Hm; cbn [sum_counts]; [simpl; len_nil; f_equal; lia|].
  rewrite extract_count, bind_Ok by lia. replace (Z.of_nat x + 1) with (Z.of_nat (S x)) by lia.
  rewrite IH by lia. f_equal. rewrite (drop_S _ _ _ (runs_lookup n indices x ltac:(lia))).
  cbn [take concat]. rewrite len_app. unfold len at 3. rewrite length_gaps_of. unfold len. lia.
Qed.

Lemma run_in_block id : (id < n)%nat →
  let k := (id / 64)%nat in
  at_off (block_gaps k) (len (concat (take (id - 64 * k) (drop (64 * k) (runs indices n)))))
         (gaps_of 0 (rows_of indices (Z.of_nat id))).
Proof.
  intros Hid k. pose proof (Nat.div_mod id 64 ltac:(lia)) as E. pose proof (Nat.mod_upper_bound id 64 ltac:(lia)).
  fold k in E.
  assert (chunk (runs indices n) k !! (id - 64 * k)%nat = Some (gaps_of 0 (rows_of indices (Z.of_nat id)))) as Hc.
  { rewrite chunk_lookup by lia. rewrite <- (runs_lookup n indices id Hid). f_equal. lia. }
  pose proof (concat_at _ _ _ Hc) as Hat. unfold chunk in Hat at 2. rewrite take_take in Hat.
  by replace (Nat.min (id - 64 * k) 64) with (id - 64 * k)%nat in Hat by lia.
Qed.

Lemma fidx_len e : len (fidx_bytes e) = 8.
Proof. unfold fidx_bytes. len_lia. Qed.

Lemma decodeForBlock_blob id count maxRow : (id < n)%nat →
  decodeForBlock blocks_bytes counts_bytes counts_width (Z.of_nat id) count maxRow =
    let k := (id / 64)%nat in
    decodeForRun (forBlock (block_gaps k)) (forBlockWidth (block_gaps k))
      (len (concat (take (id - 64 * k) (drop (64 * k) (runs indices n))))) count maxRow.
Proof using Hsize Hlen KL.
  intros Hid. cbv zeta. set (k := (id / 64)%nat). pose proof (Nat.div_mod id 64 ltac:(lia)) as E. pose proof (Nat.mod_upper_bound id 64 ltac:(lia)).
  fold k in E. destruct blob_sizes as [_ Hb].
  assert (0 ≤ post_blocks) as Hpb by (apply Z.div_pos; lia).
  set (m := Z.to_nat post_blocks) in *.
  assert (k < m)%nat as Hkm.
  { subst m. unfold post_blocks. pose proof (Z_div_mod_eq_full (Z.of_nat n + 63) 64).
    pose proof (Z.mod_pos_bound (Z.of_nat n + 63) 64). lia. }
  pose proof (at_off_refl blocks_bytes) as HB0. unfold blocks_bytes in HB0 at 2. cbv zeta in HB0. fold m in HB0.
  set (T := List.flat_map fidx_bytes (entries m)) in *. set (P := concat (block_list m)) in *.
  assert (len T = 8 * Z.of_nat m) as LT.
  { unfold T. rewrite (flat_map_len fidx_bytes 8) by apply fidx_len. unfold len, entries. by rewrite table_length. }
  assert (len P < 2 ^ 32 ∧ len blocks_bytes = 12 + len T + len P) as [HP LB].
  { unfold blocks_bytes in Hb |- *. fold m in Hb |- *. fold T in Hb |- *. fold P in Hb |- *. len_lia. }
  len_facts. rewrite (u32_small (len P)) in HB0 by (unfold is_digit; lia).
  apply at_off_app in HB0 as [P0 HB0]. apply at_off_app in HB0 as [P1 HB0]. apply at_off_app in HB0 as [P2 HB0].
  apply at_off_app in HB0 as [P3 P4]. rewrite !len_le32, LT in *. change (0 + 4) with 4 in *. change (4 + 4) with 8 in *.
  assert (∀ j, (j < m)%nat → get32 blocks_bytes (8 + Z.of_nat j * 8) = Ok (len (concat (block_list j))) ∧
     get32 blocks_bytes (8 + Z.of_nat j * 8 + 4) = Ok (forBlockWidth (block_gaps j))) as Hent.
  { intros j Hj. assert (entries m !! j = Some (Fidx (u32 (len (concat (block_list j)))) (u32 (forBlockWidth (block_gaps j)))))
      as Ej by (unfold entries; by rewrite table_lookup by done).
    pose proof (at_off_trans _ _ _ _ _ P2 (flat_map_at fidx_bytes 8 (entries m) j _ fidx_len Ej)) as Hat.
    apply at_off_app in Hat as [A1 A2]. rewrite len_le32 in A2.
    replace (8 + Z.of_nat j * 8) with (8 + 8 * Z.of_nat j) by lia.
    rewrite (get32_at _ _ _ A1), (get32_at _ _ _ A2). cbn [byteOff width].
    destruct (block_gaps_fit j) as [Hw _].
    assert (len (concat (block_list j)) ≤ len P).
    { unfold P. rewrite <- (block_list_take m j) by lia. apply concat_take_le. }
    len_facts. by rewrite (u32_small (len _)), (u32_small (forBlockWidth _)), !u32_small by (unfold is_digit; lia). }
  assert (Z.of_nat m = post_blocks) as Em by (subst m; lia).
  unfold decodeForBlock. rewrite bool_decide_eq_false_2 by lia.
  rewrite (get32_at _ _ _ P0), bind_Ok, (get32_at _ _ _ P1), bind_Ok.
  rewrite (u32_small post_blocks) by (unfold is_digit; lia). change (u32 postBlock) with 64.
  rewrite bool_decide_eq_false_2 by lia. cbv zeta. rewrite bool_decide_eq_false_2 by lia.
  replace (8 + post_blocks * 8) with (8 + 8 * Z.of_nat m) by lia.
  rewrite (get32_at _ _ _ P3), bind_Ok, u32_small by (unfold is_digit; lia).
  rewrite bool_decide_eq_false_2 by lia. rewrite (at_off_slice _ _ _ _ P4), bind_Ok by done.
  rewrite Z.quot_div_nonneg by lia. replace (Z.of_nat id / 64) with (Z.of_nat k) by (subst k; by rewrite Nat2Z.inj_div).
  rewrite bool_decide_eq_false_2 by lia. destruct (Hent k Hkm) as [-> ->]. rewrite !bind_Ok.
  destruct (block_gaps_fit k) as [Hw _]. rewrite bool_decide_eq_false_2 by lia.
  assert (block_list m !! k = Some (forBlock (block_gaps k))) as Hblk by (unfold block_list; by rewrite table_lookup by done).
  pose proof (concat_at _ _ _ Hblk) as Hat. rewrite (block_list_take m k) in Hat by lia.
  pose proof (at_off_bound _ _ _ Hat) as Bat.
  assert (len (concat (block_list (S k))) = len (concat (block_list k)) + len (forBlock (block_gaps k))) as ES.
  { unfold block_list. rewrite table_S, concat_app, len_app. cbn [concat]. by rewrite app_nil_r. }
  assert ((if bool_decide (Z.of_nat k + 1 < post_blocks) then get32 blocks_bytes (8 + (Z.of_nat k + 1) * 8) else Ok (len P))
            = Ok (len (concat (block_list k)) + len (forBlock (block_gaps k)))) as ->.
  { rewrite <- ES. case_bool_decide.
    - replace (Z.of_nat k + 1) with (Z.of_nat (S k)) by lia. apply Hent. lia.
    - unfold P. by replace m with (S k) by lia. }
  rewrite bind_Ok. fold P in Bat, Hat. len_facts. rewrite bool_decide_eq_false_2 by lia.
  rewrite (at_off_slice _ _ _ _ Hat), bind_Ok by done.
  replace (Z.of_nat k * 64) with (Z.of_nat (64 * k)) by lia.
  replace (Z.to_nat (Z.of_nat id - Z.of_nat (64 * k))) with (id - 64 * k)%nat by lia.
  by rewrite sum_counts_spec, bind_Ok by lia.
Qed.

Lemma postingRows_blob id : (id < n)%nat →
  postingRows blob_bytes (Z.of_nat id) (len indices) = Ok (rows_of indices (Z.of_nat id)) ∧
  postCount blob_bytes (Z.of_nat id) = Ok (len (rows_of indices (Z.of_nat id))).
Proof using Hsize Hlen Hn KL.
  intros Hid. unfold postingRows, postCount. rewrite postV8Header_blob, !bind_Ok. cbn [h_dictLen h_cw h_counts h_blocks h_for].
  rewrite !(bool_decide_eq_false_2 (Z.of_nat id < 0 ∨ _)) by lia. rewrite extract_count by done. split; [|done].
  rewrite bind_Ok. pose proof (rows_of_len indices (Z.of_nat id)). len_facts.
  destruct (decide (rows_of indices (Z.of_nat id) = [])) as [En|En].
  { rewrite En. len_nil. by rewrite bool_decide_eq_true_2 by lia. }
  assert (0 < len (rows_of indices (Z.of_nat id))) by (destruct (rows_of indices (Z.of_nat id)); [done|len_lia]).
  change maxPostingRun with (2 ^ 24). rewrite bool_decide_eq_false_2 by lia.
  rewrite decodeForBlock_blob by done. cbv zeta. destruct (block_gaps_fit (id / 64)) as [Hw Hd].
  apply decodeForRun_block; [lia|done|by apply run_in_block|done|apply rows_from_sorted|].
  eapply Forall_impl; [apply rows_from_range|]. intros r Hr. simpl in Hr. lia.
Qed.
End blob.

(** For any column of at most 2^24 rows, the postings built from its
    indices, marshalled into a blob and read back, give for every dictionary id
    exactly the ascending list of the rows that hold it, and its length as the
    count: the scalar and the bulk arm alike. *)
Theorem postings_roundtrip {K : Simd} {KL : SimdLaws K} (indices : list Z) (dictLen : nat) :
  Forall (λ x, 0 ≤ x < Z.of_nat dictLen) indices → Z.of_nat dictLen < 2 ^ 32 → len indices ≤ 2 ^ 24 →
  ∃ p blob, buildPostings indices (Z.of_nat dictLen) = Ok p ∧ marshal p [] = Ok blob ∧
    (len blob < 2 ^ 32 → ∀ id, (id < dictLen)%nat →
      postingRows blob (Z.of_nat id) (len indices) = Ok (rows_of indices (Z.of_nat id)) ∧
      postCount blob (Z.of_nat id) = Ok (len (rows_of indices (Z.of_nat id)))).
Proof.
  intros Hi Hn Hl. destruct (buildPostings_spec dictLen indices Hi ltac:(lia)) as (p & Ep & Hd & Hr & Hro).
  exists p, (blob_bytes dictLen indices). split; [done|]. split; [by apply (marshal_spec dictLen indices Hn Hl p [])|].
  intros Hs id Hid. by apply postingRows_blob.
Qed.
