(* ===== verification/Bloom.v ===== *)
(** * The dictionary bloom filter

    [internal/storage/footer.go]: the per-column bloom over the dictionary's
    values. [set] and [test] walk the same seven bit positions, so a value of
    the dictionary is never rejected. *)

From S2P Require Import Prelude Digits GoLib Kernels.
Local Open Scope Z_scope.

(** ** Definitions *)

Definition bloomBits : Z := 10.
Definition bloomK : nat := 7.
Definition bloomMinWords : Z := 4.
Definition bloomSeed : Z := 0x9e3779b97f4a7c15.

Definition bloomWordsFor (n : Z) : Z :=
  if bool_decide (n < 1) then bloomMinWords
  else
    let words := (n * bloomBits + 63) / 64 in
    if bool_decide (words < bloomMinWords) then bloomMinWords else words.

(** [fold]: FNV-1a over the bytes of the string. *)
Definition fold (s : bytes) : Z :=
  fold_left (λ h c, u64 (Z.lxor h c * 1099511628211)) s 1469598103934665603.

(** Double hashing: [h1 += h2] with [h2 = (h>>32)|1]. *)
Definition step2 (h : Z) : Z := Z.lor (Z.shiftr h 32) 1.

(** The rounds left of [set]'s loop; [h1 % nbits] panics when [nbits] is 0. *)
Fixpoint set_loop (k : nat) (nbits h1 h2 : Z) (bloom : list Z) : outcome (list Z) :=
  match k with
  | O => Ok bloom
  | S k' =>
      if bool_decide (nbits = 0) then Panic else
      let b := h1 mod nbits in
      w ← index bloom (Z.shiftr b 6);
      bloom' ← store bloom (Z.shiftr b 6) (Z.lor w (u64 (Z.shiftl 1 (Z.land b 63))));
      set_loop k' nbits (u64 (h1 + h2)) h2 bloom'
  end.
Definition set (bloom : list Z) (h : Z) : outcome (list Z) :=
  set_loop bloomK (u64 (len bloom * 64)) h (step2 h) bloom.

Fixpoint test_loop (k : nat) (nbits h1 h2 : Z) (bloom : list Z) : outcome bool :=
  match k with
  | O => Ok true
  | S k' =>
      if bool_decide (nbits = 0) then Panic else
      let b := h1 mod nbits in
      w ← index bloom (Z.shiftr b 6);
      if bool_decide (Z.land w (u64 (Z.shiftl 1 (Z.land b 63))) = 0) then Ok false
      else test_loop k' nbits (u64 (h1 + h2)) h2 bloom
  end.
Definition test (bloom : list Z) (h : Z) : outcome bool :=
  test_loop bloomK (u64 (len bloom * 64)) h (step2 h) bloom.

(** [for _, h := range keys { set(bloom, h) }] *)
Fixpoint set_all (keys : list Z) (bloom : list Z) : outcome (list Z) :=
  match keys with
  | [] => Ok bloom
  | h :: keys' => bloom' ← set bloom h; set_all keys' bloom'
  end.

Section bloom.
Context {K : Simd}.

Definition hashStrings (ss : list bytes) : list Z := HashUint64 (fold <$> ss) bloomSeed.
Definition hashOne (s : bytes) : outcome Z := index (HashUint64 [fold s] bloomSeed) 0.

Definition buildDictBloom (dict : list bytes) : outcome (list Z) :=
  let bloom := replicate (Z.to_nat (bloomWordsFor (len dict))) 0 in
  set_all (hashStrings dict) bloom.

Definition bloomMaybe (bloom : list Z) (value : bytes) : outcome bool :=
  if bool_decide (len bloom = 0) then Ok true
  else h ← hashOne value; test bloom h.
End bloom.

(** ** Bits *)

(** Bit [b] of the filter. *)
Definition has_bit (bloom : list Z) (b : Z) : Prop :=
  ∃ w, bloom !! Z.to_nat (b / 64) = Some w ∧ Z.testbit w (b mod 64) = true.

Lemma bit_index b : 0 ≤ b → Z.shiftr b 6 = b / 64 ∧ Z.land b 63 = b mod 64.
Proof.
  intros. rewrite Z.shiftr_div_pow2 by lia. change (2 ^ 6) with 64. split; [done|].
  change 63 with (2 ^ 6 - 1). by rewrite land_ones_mod by lia.
Qed.
Lemma bit_mask i : 0 ≤ i < 64 → u64 (Z.shiftl 1 i) = 2 ^ i.
Proof.
  intros. rewrite Z.shiftl_mul_pow2, Z.mul_1_l by lia. apply u64_small. split; [apply Z.pow_nonneg; lia|].
  apply Z.pow_lt_mono_r; lia.
Qed.
Lemma land_pow2_testbit w i : 0 ≤ i → Z.land w (2 ^ i) = 0 ↔ Z.testbit w i = false.
Proof.
  intros Hi. split; intros H.
  - assert (Z.testbit (Z.land w (2 ^ i)) i = false) as E by (rewrite H; apply Z.bits_0).
    rewrite Z.land_spec, Z.pow2_bits_true, andb_true_r in E by done. done.
  - apply Z.bits_inj'. intros j Hj. rewrite Z.land_spec, Z.bits_0, Z.pow2_bits_eqb by done.
    destruct (Z.eqb_spec i j) as [<- |]; [by rewrite H|apply andb_false_r].
Qed.

(** The positions [set] and [test] visit. *)
Fixpoint positions (k : nat) (nbits h1 h2 : Z) : list Z :=
  match k with
  | O => []
  | S k' => h1 mod nbits :: positions k' nbits (u64 (h1 + h2)) h2
  end.

Lemma set_loop_spec nbits h2 k : ∀ h1 bloom,
  nbits = 64 * len bloom → 0 < nbits →
  ∃ bloom', set_loop k nbits h1 h2 bloom = Ok bloom' ∧ length bloom' = length bloom ∧
    (Forall is_u64 bloom → Forall is_u64 bloom') ∧
    (∀ b, has_bit bloom b → has_bit bloom' b) ∧
    (∀ b, b ∈ positions k nbits h1 h2 → has_bit bloom' b).
Proof.
  induction k as [|k IH]; intros h1 bloom Hn Hp; cbn [set_loop positions].
  { exists bloom. split_and!; try done. intros b Hb. by apply elem_of_nil in Hb. }
  rewrite bool_decide_eq_false_2 by lia. set (b := h1 mod nbits).
  pose proof (Z.mod_pos_bound h1 nbits Hp) as Hb. fold b in Hb.
  destruct (bit_index b ltac:(lia)) as [-> ->]. pose proof (Z.mod_pos_bound b 64 ltac:(lia)) as Hm.
  pose proof (Z_div_mod_eq_full b 64) as Hdm.
  assert (0 ≤ b / 64 < len bloom) as Hq by (split; [apply Z.div_pos; lia|apply Z.div_lt_upper_bound; lia]).
  destruct (lookup_lt_is_Some_2 bloom (Z.to_nat (b / 64))) as [w Ew]; [unfold len in *; lia|].
  rewrite (index_Ok bloom (b / 64) w), bind_Ok by (done || lia). rewrite bit_mask by done.
  rewrite store_Ok, bind_Ok by lia. set (bloom1 := <[_ := _]> bloom).
  destruct (IH (u64 (h1 + h2)) bloom1) as (bloom' & -> & Hl & Hu & Hmono & Hset);
    [unfold bloom1; rewrite len_insert; done|done|].
  assert (∀ c, has_bit bloom c → has_bit bloom1 c) as M1.
  { intros c (v & Ev & Hv). unfold bloom1, has_bit. destruct (decide (Z.to_nat (c / 64) = Z.to_nat (b / 64))) as [E|E].
    - rewrite E, Ew in Ev. injection Ev as ->. rewrite E, list_lookup_insert_eq by (by eapply lookup_lt_Some).
      eexists. split; [done|]. by rewrite Z.lor_spec, Hv.
    - rewrite list_lookup_insert_ne by done. by exists v. }
  assert (has_bit bloom1 b) as Sb.
  { exists (Z.lor w (2 ^ (b mod 64))). unfold bloom1. rewrite list_lookup_insert_eq by (by eapply lookup_lt_Some).
    split; [done|]. rewrite Z.lor_spec, Z.pow2_bits_true by lia. apply orb_true_r. }
  exists bloom'. split_and!; [done|unfold bloom1 in Hl; by rewrite length_insert in Hl| |auto|].
  - intros Hf. apply Hu. apply Forall_insert; [done|]. rewrite Forall_lookup in Hf. apply Hf in Ew as [? ?].
    assert (0 ≤ 2 ^ (b mod 64) < 2 ^ 64) by (split; [apply Z.pow_nonneg; lia|apply Z.pow_lt_mono_r; lia]).
    split; [apply Z.lor_nonneg; lia|].
    destruct (decide (Z.lor w (2 ^ (b mod 64)) = 0)) as [-> |]; [lia|].
    apply Z.log2_lt_pow2; [pose proof (Z.lor_nonneg w (2 ^ (b mod 64))); lia|].
    rewrite Z.log2_lor by lia. apply Z.max_lub_lt.
    + destruct (decide (w = 0)) as [-> |]; [done|]. apply Z.log2_lt_pow2; lia.
    + rewrite Z.log2_pow2 by lia. lia.
  - intros c [-> |Hc]%elem_of_cons; [by apply Hmono|by apply Hset].
Qed.

Lemma test_loop_spec nbits h2 bloom k : ∀ h1,
  nbits = 64 * len bloom → 0 < nbits →
  ∃ r, test_loop k nbits h1 h2 bloom = Ok r ∧ (r = true ↔ ∀ b, b ∈ positions k nbits h1 h2 → has_bit bloom b).
Proof.
  induction k as [|k IH]; intros h1 Hn Hp; cbn [test_loop positions].
  { exists true. split; [done|]. split; [|done]. intros _ b Hb. by apply elem_of_nil in Hb. }
  rewrite bool_decide_eq_false_2 by lia. set (b := h1 mod nbits).
  pose proof (Z.mod_pos_bound h1 nbits Hp) as Hb. fold b in Hb.
  destruct (bit_index b ltac:(lia)) as [-> ->]. pose proof (Z.mod_pos_bound b 64 ltac:(lia)) as Hm.
  assert (0 ≤ b / 64 < len bloom) as Hq by (split; [apply Z.div_pos; lia|apply Z.div_lt_upper_bound; lia]).
  destruct (lookup_lt_is_Some_2 bloom (Z.to_nat (b / 64))) as [w Ew]; [unfold len in *; lia|].
  rewrite (index_Ok bloom (b / 64) w), bind_Ok by (done || lia). rewrite bit_mask by done.
  case_bool_decide as Ez.
  - exists false. split; [done|]. split; [done|]. intros H. destruct (H b) as (w' & Ew' & Ht); [apply elem_of_cons; by left|].
    rewrite Ew in Ew'. injection Ew' as <-. apply land_pow2_testbit in Ez; [congruence|lia].
  - destruct (IH (u64 (h1 + h2)) Hn Hp) as (r & -> & Hr). exists r. split; [done|]. rewrite Hr.
    assert (has_bit bloom b) as Sb.
    { exists w. split; [done|]. destruct (Z.testbit w (b mod 64)) eqn:E; [done|]. apply land_pow2_testbit in E; [done|lia]. }
    split; [intros H c [-> |Hc]%elem_of_cons; [done|by apply H]|]. intros H c Hc. apply H. apply elem_of_cons. by right.
Qed.

(** ** No false negatives *)

Section bloom_ok.
Context {K : Simd} {KL : SimdLaws K}.

(** The hash of a value, batched or alone. *)
Definition hash_of (s : bytes) : Z := List.nth 0 (HashUint64 [fold s] bloomSeed) 0.
Lemma hashOne_ok s : hashOne s = Ok (hash_of s) ∧ is_u64 (hash_of s).
Proof. unfold hashOne, hash_of. destruct (hash_one (fold s) bloomSeed) as (h & -> & Hh). done. Qed.
Lemma hashStrings_ok ss : hashStrings ss = hash_of <$> ss.
Proof.
  unfold hashStrings. rewrite hash_pointwise. induction ss as [|s ss IH]; [done|].
  rewrite !fmap_cons. cbn [List.flat_map]. rewrite IH. unfold hash_of at 2.
  by destruct (hash_one (fold s) bloomSeed) as (h & -> & _).
Qed.

Lemma u64_bits (bloom : list Z) : len bloom < 2 ^ 58 → u64 (len bloom * 64) = 64 * len bloom.
Proof. intros. rewrite u64_small; [lia|unfold is_digit; len_lia]. Qed.

Lemma set_all_spec hs : ∀ bloom,
  0 < len bloom < 2 ^ 58 → Forall is_u64 bloom →
  ∃ bloom', set_all hs bloom = Ok bloom' ∧ length bloom' = length bloom ∧ Forall is_u64 bloom' ∧
    (∀ b, has_bit bloom b → has_bit bloom' b) ∧
    (∀ h b, h ∈ hs → b ∈ positions bloomK (64 * len bloom) h (step2 h) → has_bit bloom' b).
Proof.
  induction hs as [|h hs IH]; intros bloom Hl Hf; cbn [set_all].
  { exists bloom. split_and!; try done. intros h b Hh. by apply elem_of_nil in Hh. }
  unfold set. rewrite u64_bits by lia.
  destruct (set_loop_spec (64 * len bloom) (step2 h) bloomK h bloom) as (b1 & -> & L1 & F1 & M1 & S1); [done|lia|].
  rewrite bind_Ok. assert (len b1 = len bloom) as Lb by (unfold len; lia).
  destruct (IH b1) as (b2 & -> & L2 & F2 & M2 & S2); [lia|auto|]. rewrite Lb in S2.
  exists b2. split_and!; [done|lia|done|auto|].
  intros h' b [-> |Hh]%elem_of_cons Hb; [by apply M2, S1|by apply (S2 h' b)].
Qed.

Lemma bloomWordsFor_range n : 0 ≤ n < 2 ^ 32 → 4 ≤ bloomWordsFor n < 2 ^ 58 ∧ bloomWordsFor n ≤ n + 5.
Proof.
  intros Hn. unfold bloomWordsFor, bloomMinWords, bloomBits. case_bool_decide; [lia|]. cbv zeta.
  assert ((n * 10 + 63) / 64 < 2 ^ 58) by (apply Z.div_lt_upper_bound; lia).
  assert ((n * 10 + 63) / 64 ≤ n + 1) by (apply Z.lt_succ_r, Z.div_lt_upper_bound; lia).
  case_bool_decide; lia.
Qed.

Lemma buildDictBloom_spec dict :
  len dict < 2 ^ 32 →
  ∃ bloom, buildDictBloom dict = Ok bloom ∧ len bloom = bloomWordsFor (len dict) ∧ Forall is_u64 bloom ∧
    ∀ v, v ∈ dict → bloomMaybe bloom v = Ok true.
Proof.
  intros Hd. destruct (bloomWordsFor_range (len dict)) as [Hw _]; [len_lia|]. unfold buildDictBloom.
  set (b0 := replicate _ 0). assert (len b0 = bloomWordsFor (len dict)) as L0 by (unfold b0; rewrite len_replicate; lia).
  destruct (set_all_spec (hashStrings dict) b0) as (bl & -> & Hl & Hf & _ & Hs).
  { lia. } { apply Forall_replicate. unfold is_digit. lia. }
  assert (len bl = len b0) as El by (unfold len; lia).
  exists bl. split_and!; [done|lia|done|]. intros v Hv. unfold bloomMaybe. rewrite bool_decide_eq_false_2 by lia.
  destruct (hashOne_ok v) as [-> _]. rewrite bind_Ok. unfold test. rewrite u64_bits by lia.
  destruct (test_loop_spec (64 * len bl) (step2 (hash_of v)) bl bloomK (hash_of v)) as (r & -> & Hr); [done|lia|].
  f_equal. apply Hr. intros b Hb. rewrite El in Hb. apply (Hs (hash_of v) b); [|done].
  rewrite hashStrings_ok. apply list_elem_of_fmap. by exists v.
Qed.

(** Probing any bloom returns. *)
Lemma bloomMaybe_returns bloom v : len bloom < 2 ^ 58 → returns (bloomMaybe bloom v).
Proof.
  intros Hl. unfold bloomMaybe. case_bool_decide; [by eexists|]. destruct (hashOne_ok v) as [-> _].
  rewrite bind_Ok. unfold test. rewrite u64_bits by done.
  destruct (test_loop_spec (64 * len bloom) (step2 (hash_of v)) bloom bloomK (hash_of v)) as (r & -> & _);
    [done|len_lia|by eexists].
Qed.

(** the bloom built for a dictionary never rejects one of its values: a
    probe for any value of the dictionary answers "maybe". *)
Theorem bloom_no_false_negative dict v :
  len dict < 2 ^ 32 → v ∈ dict →
  ∃ bloom, buildDictBloom dict = Ok bloom ∧ bloomMaybe bloom v = Ok true.
Proof. intros Hd Hv. destruct (buildDictBloom_spec dict Hd) as (bl & E & _ & _ & H). exists bl. auto. Qed.
End bloom_ok.
