(* ===== verification/Group.v ===== *)
(** * Row groups: the on-disk blob

    [internal/storage/group.go] writes a group ([Marshal]) and
    [internal/storage/group_read.go] parses it back ([ReadGroup]), validating
    every length before it is used. A rejected blob is a value of [corrupt]. *)

From S2P Require Import Prelude Digits GoLib Kernels Indices Timestamps Compress DictSection DictLayout Postings Bloom.
Local Open Scope Z_scope.

(** ** Definitions *)

Definition magic : Z := 0x736C6F67.
Definition versionV7 : Z := 7.
Definition versionV8 : Z := 8.
Definition MaxRows : Z := 128 * 1024.
Definition maxGroupRows : Z := Z.shiftl 1 30.
Definition maxGroupColumns : Z := Z.shiftl 1 16.
Definition maxBloomWords : Z := Z.shiftl 1 20.
Definition maxNameBytes : Z := Z.shiftl 1 16.

(** [ColumnType] is a [uint8]; a reader may meet any of its 256 values. *)
Definition ColDict : Z := 0.
Definition ColTimestamp : Z := 1.
Definition ColVector : Z := 2.

(** [Vec] holds the IEEE bits of each [float32]. *)
Record Column := MkColumn {
  c_Name : bytes; c_Type : Z; c_Dict : option DictColumn; c_Ts : list Z; c_Vec : list Z; c_Dim : Z }.
Record Group := MkGroup { g_Rows : Z; g_Columns : list Column; g_Compact : bool; g_NoPostings : bool }.

Record colMeta := MkMeta {
  Name : bytes; Type_ : Z; Width : Z; DictLen : Z; MinIdx : Z; MaxIdx : Z; Bloom : list Z;
  DataOff : Z; DataLen : Z; PostOff : Z; PostLen : Z; DictOff : Z; DictLen2 : Z }.

(** *** Writing *)

Definition encodeVectors (vec : list Z) (dim : Z) : bytes := le32 (u32 dim) ++ List.flat_map le32 vec.

Definition appStr (s : bytes) : bytes := le32 (u32 (len s)) ++ s.

(** The guard loop at the head of [Marshal]: [false] is its panic. *)
Definition col_complete (rows : Z) (c : Column) : bool :=
  if bool_decide (c_Type c = ColTimestamp) then bool_decide (len (c_Ts c) = rows)
  else if bool_decide (c_Type c = ColDict) then
    match c_Dict c with None => false | Some d => bool_decide (len (Indices d) = rows) end
  else true.

(** [for i, ix := range Indices { ... }]: the running minimum and maximum. *)
Fixpoint min_max (i : Z) (l : list Z) (mn mx : Z) : Z * Z :=
  match l with
  | [] => (mn, mx)
  | ix :: l' =>
      min_max (i + 1) l' (if bool_decide (i = 0 ∨ ix < mn) then ix else mn)
                         (if bool_decide (i = 0 ∨ mx < ix) then ix else mx)
  end.
(** [for _, t := range c.Ts { ... }] *)
Definition time_bounds (ts : list Z) (tmin tmax : Z) : Z * Z :=
  fold_left (λ s t, (if bool_decide (t < s.1) then t else s.1, if bool_decide (s.2 < t) then t else s.2)) ts (tmin, tmax).

Record marshal_state := MState { ms_b : bytes; ms_metas : list colMeta; ms_min : Z; ms_max : Z }.

Section marshal.
Context {K : Simd} {F : Flate}.

(** One round of [Marshal]'s column loop. *)
Definition marshal_col (g : Group) (s : marshal_state) (c : Column) : outcome marshal_state :=
  let b := ms_b s in
  if bool_decide (c_Type c = ColDict) then
    match c_Dict c with
    | None => Panic
    | Some d =>
        let w := bitWidth (len (Dict d)) in
        let b1 := b ++ encodeIndices (Indices d) w in
        let '(mn, mx) := min_max 0 (Indices d) 0 0 in
        bloom ← buildDictBloom (Dict d);
        b2 ← (if g_NoPostings g then Ok b1
              else p ← buildPostings (Indices d) (len (Dict d)); marshal p b1);
        sec ← marshalDictSection (Dict d) (g_Compact g);
        let b3 := b2 ++ sec in
        Ok (MState b3
             (ms_metas s ++ [MkMeta (c_Name c) (c_Type c) w (len (Dict d)) mn mx bloom
                               (len b) (len b3 - len b) (len b1) (len b2 - len b1) (len b2) (len b3 - len b2)])
             (ms_min s) (ms_max s))
    end
  else if bool_decide (c_Type c = ColTimestamp) then
    data ← encodeTimestamps (c_Ts c);
    let '(tmin, tmax) := time_bounds (c_Ts c) (ms_min s) (ms_max s) in
    Ok (MState (b ++ data)
         (ms_metas s ++ [MkMeta (c_Name c) (c_Type c) 0 0 0 0 [] (len b) (len data) 0 0 0 0]) tmin tmax)
  else
    let '(w, data) := if bool_decide (c_Type c = ColVector)
                      then (c_Dim c, encodeVectors (c_Vec c) (c_Dim c)) else (0, []) in
    Ok (MState (b ++ data)
         (ms_metas s ++ [MkMeta (c_Name c) (c_Type c) w 0 0 0 [] (len b) (len data) 0 0 0 0])
         (ms_min s) (ms_max s)).

Fixpoint marshal_cols (g : Group) (cs : list Column) (s : marshal_state) : outcome marshal_state :=
  match cs with
  | [] => Ok s
  | c :: cs' => s' ← marshal_col g s c; marshal_cols g cs' s'
  end.

Definition meta_bytes (m : colMeta) : bytes :=
  appStr (Name m) ++ [u8 (Type_ m)] ++ le32 (u32 (Width m)) ++ le32 (u32 (DictLen m)) ++
  le32 (MinIdx m) ++ le32 (MaxIdx m) ++ le32 (u32 (DataOff m)) ++ le32 (u32 (DataLen m)) ++
  le32 (u32 (PostOff m)) ++ le32 (u32 (PostLen m)) ++ le32 (u32 (len (Bloom m))) ++
  List.flat_map le64 (Bloom m) ++ le32 (u32 (DictOff m)) ++ le32 (u32 (DictLen2 m)).

Definition Marshal (g : Group) : outcome bytes :=
  if negb (forallb (col_complete (g_Rows g)) (g_Columns g)) then Panic else
  let b0 := le32 magic ++ le32 versionV8 ++ le32 (u32 (g_Rows g)) ++ le32 (u32 (len (g_Columns g))) in
  s ← marshal_cols g (g_Columns g) (MState b0 [] (2 ^ 63 - 1) (- 2 ^ 63));
  let '(tmin, tmax) := if bool_decide (g_Rows g = 0) then (0, 0) else (ms_min s, ms_max s) in
  let footer := le64 (u64 tmin) ++ le64 (u64 tmax) ++ List.flat_map meta_bytes (ms_metas s) in
  let b := ms_b s ++ footer in
  let b := b ++ le32 (u32 (len b - len (ms_b s))) in
  Ok (b ++ le32 (Checksum b)).
End marshal.

(** *** Errors *)

Inductive span_kind := SpanData | SpanPostings | SpanDict.

(** Why a blob was rejected: one constructor per [corruptf] call. *)
Inductive corrupt :=
| TooShort (n : Z)
| BadMagic (got : Z)
| BadVersion (v : Z)
| TooShortV8 (n : Z)
| BadChecksum (got want : Z)
| BadRowCount (rows : Z)
| BadColumnCount (ncol : Z)
| BadFooterLength (flen : Z)
| CursorNeed (n at_ len_ : Z)
| NameTooLong (n : Z)
| BloomTooBig (col nb : Z)
| SpanNegative (col : Z) (what : span_kind)
| SpanOutside (col : Z) (what : span_kind)
| BadWidth (col w : Z)
| DictTooLong (col : Z)
| BadDictLen (col n : Z)
| TsTooShort (col : Z)
| TsHeaderOutside (col : Z)
| TsBlockCount (col nb : Z)
| TsBlocksDontFit (col nb : Z)
| TsBlockSize (col bs : Z)
| TsBlocksMismatch (col nb bs : Z)
| TsNoBlocks (col : Z)
| TsHeadersExceed (col : Z)
| TsCheckpointOutside (col k : Z)
| TsBlockStart (col k off : Z)
| TsRowsUnencodable (col : Z)
| RowsWidthOverflow (col : Z)
| DataTooShort (col : Z)
| RowsNotBacked (rows : Z).

(** What a parse does: a value, an error, or a panic. *)
Inductive checked (A : Type) : Type :=
| Good (a : A)
| Corrupt (e : corrupt)
| Crash.
Arguments Good {A} a.
Arguments Corrupt {A} e.
Arguments Crash {A}.
#[export] Instance checked_bind : MBind checked :=
  λ A B f m, match m with Good a => f a | Corrupt e => Corrupt e | Crash => Crash end.
Definition lift {A} (m : outcome A) : checked A := match m with Ok a => Good a | Panic => Crash end.

(** *** The cursor *)

Record cursor := Cursor { cu_b : bytes; cu_at : Z; cu_err : option corrupt }.

(** [fail] keeps the first error. *)
Definition fail (c : cursor) (e : corrupt) : cursor :=
  match cu_err c with None => Cursor (cu_b c) (cu_at c) (Some e) | Some _ => c end.
Definition need (c : cursor) (n : Z) : bool * cursor :=
  match cu_err c with
  | Some _ => (false, c)
  | None =>
      if bool_decide (n < 0 ∨ cu_at c < 0 ∨ len (cu_b c) - cu_at c < n)
      then (false, fail c (CursorNeed n (cu_at c) (len (cu_b c)))) else (true, c)
  end.
Definition advance (c : cursor) (n : Z) : cursor := Cursor (cu_b c) (cu_at c + n) (cu_err c).

(** [(c *cursor) u32], [u64], [byte], [str] *)
Definition cur_u32 (c : cursor) : outcome (Z * cursor) :=
  let '(ok, c) := need c 4 in
  if ok then v ← get32 (cu_b c) (cu_at c); Ok (v, advance c 4) else Ok (0, c).
Definition cur_u64 (c : cursor) : outcome (Z * cursor) :=
  let '(ok, c) := need c 8 in
  if ok then v ← get64 (cu_b c) (cu_at c); Ok (v, advance c 8) else Ok (0, c).
Definition cur_byte (c : cursor) : outcome (Z * cursor) :=
  let '(ok, c) := need c 1 in
  if ok then v ← index (cu_b c) (cu_at c); Ok (v, advance c 1) else Ok (0, c).
Definition cur_str (c : cursor) : outcome (bytes * cursor) :=
  r ← cur_u32 c;
  let '(n, c) := r in
  match cu_err c with
  | Some _ => Ok ([], c)
  | None =>
      if bool_decide (n < 0 ∨ maxNameBytes < n) then Ok ([], fail c (NameTooLong n)) else
      let '(ok, c) := need c n in
      if ok then s ← slice (cu_b c) (cu_at c) (cu_at c + n); Ok (s, advance c n) else Ok ([], c)
  end.

(** [for j := 0; j < nb; j++ { m.Bloom[j] = c.u64() }] *)
Fixpoint cur_words (n : nat) (c : cursor) : outcome (list Z * cursor) :=
  match n with
  | O => Ok ([], c)
  | S n' =>
      r ← cur_u64 c; let '(w, c) := r in
      rs ← cur_words n' c; let '(ws, c) := rs in Ok (w :: ws, c)
  end.

(** [return nil, c.err]: a nil error here would hand the caller a nil reader. *)
Definition return_err {A} (c : cursor) : checked A :=
  match cu_err c with Some e => Corrupt e | None => Crash end.

(** *** Parsing *)

Record Reader := MkReader {
  r_blob : bytes; r_Rows : Z; r_TimeMin : Z; r_TimeMax : Z; r_cols : list colMeta }.

Definition checkSpan (col : Z) (what : span_kind) (off length limit : Z) : checked unit :=
  if bool_decide (off < 0 ∨ length < 0) then Corrupt (SpanNegative col what)
  else if bool_decide (limit < off ∨ limit - off < length) then Corrupt (SpanOutside col what)
  else Good tt.

(** The fixed fields of one footer entry, up to the bloom's word count. *)
Definition read_fields (c : cursor) : outcome (colMeta * Z * cursor) :=
  r ← cur_str c; let '(nm, c) := r in
  r ← cur_byte c; let '(ty, c) := r in
  r ← cur_u32 c; let '(w, c) := r in
  r ← cur_u32 c; let '(dl, c) := r in
  r ← cur_u32 c; let '(mn, c) := r in
  r ← cur_u32 c; let '(mx, c) := r in
  r ← cur_u32 c; let '(dof, c) := r in
  r ← cur_u32 c; let '(dlen, c) := r in
  r ← cur_u32 c; let '(po, c) := r in
  r ← cur_u32 c; let '(pl, c) := r in
  r ← cur_u32 c; let '(nb, c) := r in
  Ok (MkMeta nm ty w dl mn mx [] dof dlen po pl 0 0, nb, c).

(** The footer entry of column [i]. *)
Definition read_meta (i : Z) (c : cursor) : checked (colMeta * cursor) :=
  r ← lift (read_fields c);
  let '(m, nb, c) := r in
  match cu_err c with
  | Some e => Corrupt e
  | None =>
      if bool_decide (nb < 0 ∨ maxBloomWords < nb) then Corrupt (BloomTooBig i nb) else
      let '(ok, c) := need c (nb * 8) in
      if negb ok then return_err c else
      r ← lift (cur_words (Z.to_nat nb) c); let '(bl, c) := r in
      r ← lift (cur_u32 c); let '(dof, c) := r in
      r ← lift (cur_u32 c); let '(dl2, c) := r in
      match cu_err c with
      | Some e => Corrupt e
      | None =>
          Good (MkMeta (Name m) (Type_ m) (Width m) (DictLen m) (MinIdx m) (MaxIdx m) bl
                  (DataOff m) (DataLen m) (PostOff m) (PostLen m) dof dl2, c)
      end
  end.

(** [for k := 0; k < nb; k++ { ... }]: every checkpoint's offset is inside the stream. *)
Fixpoint check_checkpoints (n : nat) (k : Z) (b : bytes) (i dataOff streamLen : Z) : checked unit :=
  match n with
  | O => Good tt
  | S n' =>
      let at_ := dataOff + 8 + k * tsHdrStride in
      if bool_decide (len b < at_ + 4) then Corrupt (TsCheckpointOutside i k) else
      off ← lift (get32 b at_);
      if bool_decide (off < 0 ∨ streamLen < off) then Corrupt (TsBlockStart i k off)
      else check_checkpoints n' (k + 1) b i dataOff streamLen
  end.

(** The checks of a timestamp column's header. *)
Definition check_ts (b : bytes) (rows i : Z) (m : colMeta) : checked unit :=
  if bool_decide (DataLen m < 8) then
    if bool_decide (0 < rows) then Corrupt (TsTooShort i) else Good tt
  else if bool_decide (len b < DataOff m + 8) then Corrupt (TsHeaderOutside i) else
  nb ← lift (get32 b (DataOff m));
  bs ← lift (get32 b (DataOff m + 4));
  if bool_decide (nb < 0 ∨ maxGroupRows < nb) then Corrupt (TsBlockCount i nb) else
  if bool_decide (Z.quot (DataLen m - 8) tsHdrStride < nb) then Corrupt (TsBlocksDontFit i nb) else
  if bool_decide (0 < nb ∧ bs ≤ 0) then Corrupt (TsBlockSize i bs) else
  mismatch ← (if bool_decide (0 < nb ∧ 0 < rows) then
                want ← lift (go_div (rows + bs - 1) bs); Good (bool_decide (nb ≠ want)) else Good false);
  if (mismatch : bool) then Corrupt (TsBlocksMismatch i nb bs) else
  if bool_decide (0 < rows ∧ nb = 0) then Corrupt (TsNoBlocks i) else
  let hdrEnd := 8 + nb * tsHdrStride in
  let streamLen := DataLen m - hdrEnd in
  if bool_decide (streamLen < 0) then Corrupt (TsHeadersExceed i) else
  _ ← check_checkpoints (Z.to_nat nb) 0 b i (DataOff m) streamLen;
  if bool_decide (streamLen * 8 + 8 < rows) then Corrupt (TsRowsUnencodable i) else Good tt.

(** Everything [readGroup] demands of column [i] once its entry is read. *)
Definition check_col (b : bytes) (rows dataEnd i : Z) (m : colMeta) : checked unit :=
  _ ← checkSpan i SpanData (DataOff m) (DataLen m) dataEnd;
  _ ← checkSpan i SpanPostings (PostOff m) (PostLen m) dataEnd;
  _ ← checkSpan i SpanDict (DictOff m) (DictLen2 m) dataEnd;
  if bool_decide (Width m < 0 ∨ 32 < Width m) then Corrupt (BadWidth i (Width m)) else
  toolong ← (if bool_decide (0 < DictLen m ∧ 0 < DictLen2 m) then
               sec ← lift (slice b (DictOff m) (DictOff m + DictLen2 m));
               d ← lift (parseDictSec sec);
               Good (bool_decide (numBlocks d * dictBlock < DictLen m))
             else Good false);
  if (toolong : bool) then Corrupt (DictTooLong i) else
  if bool_decide (DictLen m < 0 ∨ maxGroupRows < DictLen m) then Corrupt (BadDictLen i (DictLen m)) else
  _ ← (if bool_decide (Type_ m = ColTimestamp) then check_ts b rows i m else Good tt);
  if bool_decide (Type_ m = ColDict ∧ 0 < Width m) then
    if bool_decide (Z.quot maxGroupRows (Width m) < rows) then Corrupt (RowsWidthOverflow i) else
    let bits := rows * Width m in
    let need := Z.quot (bits + 31) 32 * 4 + 4 in
    if bool_decide (DataLen m < need) then Corrupt (DataTooShort i) else Good tt
  else Good tt.

Definition backs_rows (m : colMeta) : bool :=
  bool_decide (Type_ m = ColTimestamp ∨ Type_ m = ColDict ∧ 0 < Width m).

(** [for i := 0; i < ncol; i++] from column [i]. *)
Fixpoint read_cols (n : nat) (i : Z) (b : bytes) (rows dataEnd : Z) (c : cursor) : checked (list colMeta) :=
  match n with
  | O => Good []
  | S n' =>
      r ← read_meta i c; let '(m, c) := r in
      _ ← check_col b rows dataEnd i m;
      ms ← read_cols n' (i + 1) b rows dataEnd c;
      Good (m :: ms)
  end.

Definition readGroup (b flenWord : bytes) (hasCRC : bool) : checked Reader :=
  let trailer := if hasCRC then 8 else 4 in
  rows ← lift (get32 b 8);
  ncol ← lift (get32 b 12);
  if bool_decide (rows < 0 ∨ maxGroupRows < rows) then Corrupt (BadRowCount rows) else
  if bool_decide (ncol < 0 ∨ maxGroupColumns < ncol) then Corrupt (BadColumnCount ncol) else
  flen ← lift (get32 flenWord 0);
  if bool_decide (flen < 16 ∨ len b - trailer - 16 < flen) then Corrupt (BadFooterLength flen) else
  let fEnd := len b - trailer in
  f ← lift (slice b (fEnd - flen) fEnd);
  let c := Cursor f 0 None in
  r ← lift (cur_u64 c); let '(tmin, c) := r in
  r ← lift (cur_u64 c); let '(tmax, c) := r in
  let dataEnd := fEnd - flen in
  ms ← read_cols (Z.to_nat ncol) 0 b rows dataEnd c;
  if bool_decide (0 < rows) && negb (existsb backs_rows ms) then Corrupt (RowsNotBacked rows)
  else Good (MkReader b rows (i64 tmin) (i64 tmax) ms).

Definition readGroupV8 (b : bytes) : checked Reader :=
  if bool_decide (len b < 24) then Corrupt (TooShortV8 (len b)) else
  body ← lift (slice b 0 (len b - 4));
  want ← lift (get32 b (len b - 4));
  let got := Checksum body in
  if bool_decide (got ≠ want) then Corrupt (BadChecksum got want) else
  flenWord ← lift (slice_from body (len body - 4));
  readGroup b flenWord true.

Definition ReadGroup (b : bytes) : checked Reader :=
  if bool_decide (len b < 20) then Corrupt (TooShort (len b)) else
  got ← lift (get32 b 0);
  if bool_decide (got ≠ magic) then Corrupt (BadMagic got) else
  v ← lift (get32 b 4);
  if bool_decide (v = versionV7) then flenWord ← lift (slice_from b (len b - 4)); readGroup b flenWord false
  else if bool_decide (v = versionV8) then readGroupV8 b
  else Corrupt (BadVersion v).
