(* ===== verification/GroupSafe.v ===== *)
(** * Parsing arbitrary bytes

    [ReadGroup] on any byte string: it never panics, and a blob it accepts has
    every span inside the blob, so that no decoder that follows can read past
    it. A v8 blob with one byte changed is rejected. *)

From S2P Require Import Prelude Digits GoLib Kernels Indices Timestamps DictSection Postings Bloom Group.
Local Open Scope Z_scope.

(** ** Reasoning about checked code *)

(** [m] does not panic, and every value it returns satisfies [P]. *)
Definition safe {A} (P : A → Prop) (m : checked A) : Prop :=
  match m with Good a => P a | Corrupt _ => True | Crash => False end.

Lemma safe_bind {A B} (P : A → Prop) (Q : B → Prop) m f :
  safe P m → (∀ a, P a → safe Q (f a)) → safe Q (mbind f m).
Proof. destruct m; simpl; auto. Qed.
Lemma safe_lift {A} (P : A → Prop) m : (∃ a, m = Ok a ∧ P a) → safe P (lift m).
Proof. by intros (a & -> & Ha). Qed.
Lemma safe_lift_bind {A B} (P : A → Prop) (Q : B → Prop) m f :
  (∃ a, m = Ok a ∧ P a) → (∀ a, P a → safe Q (f a)) → safe Q (mbind f (lift m)).
Proof. intros (a & -> & Ha) H. by apply H. Qed.

(** [Forall P] of an explicit list. *)
Ltac forall_list := repeat (apply Forall_cons_2; [done|]); apply Forall_nil_2.

(** Reads through a sub-slice. *)
Lemma get_le_slice n b s lo hi o :
  slice b lo hi = Ok s → 0 ≤ o → o + Z.of_nat n ≤ hi - lo → get_le n s o = get_le n b (lo + o).
Proof.
  intros E Ho Hn. pose proof (slice_len _ _ _ _ E) as (Ls & Hlo & Hhi). unfold get_le.
  rewrite !slice_Ok by lia. rewrite !bind_Ok. do 2 f_equal.
  unfold slice in E. rewrite bool_decide_eq_true_2 in E by lia. injection E as <-.
  replace (Z.to_nat (hi - lo)) with (Z.to_nat o + Z.to_nat (hi - lo - o))%nat by lia.
  rewrite <- take_drop_commute, take_take, drop_drop. f_equal; [lia|]. f_equal. lia.
Qed.

(** ** The cursor *)

Record cur_ok (c : cursor) : Prop := { co_bytes : is_bytes (cu_b c); co_at : 0 ≤ cu_at c }.

Lemma need_ok c n ok c' :
  cur_ok c → need c n = (ok, c') →
  cur_ok c' ∧ cu_b c' = cu_b c ∧
  (if ok then c' = c ∧ cu_err c = None ∧ 0 ≤ n ∧ cu_at c + n ≤ len (cu_b c) else ∃ e, cu_err c' = Some e).
Proof.
  intros Hc. unfold need, fail. destruct (cu_err c) as [e|] eqn:E; [intros [= <- <-]; naive_solver|].
  case_bool_decide; intros [= <- <-]; [|split_and!; (done || lia)].
  split_and!; [by destruct Hc|done|by eexists].
Qed.
Lemma advance_ok c n : cur_ok c → 0 ≤ n → cur_ok (advance c n).
Proof. intros [Hb Ha] Hn. split; simpl; [done|lia]. Qed.

Lemma cur_u32_ok c : cur_ok c → ∃ r, cur_u32 c = Ok r ∧ (is_u32 r.1 ∧ cur_ok r.2).
Proof.
  intros Hc. unfold cur_u32. destruct (need c 4) as [ok c'] eqn:E. pose proof (need_ok _ _ _ _ Hc E) as (Hc' & _ & H).
  destruct ok.
  - destruct H as (-> & _ & _ & Hl). destruct (get32_returns (cu_b c) (cu_at c)) as (v & -> & Hv); [apply Hc|apply Hc|lia|].
    rewrite bind_Ok. eexists. split; [done|]. split; [done|]. by apply advance_ok.
  - eexists. split; [done|]. split; [simpl; unfold is_digit; lia|done].
Qed.
Lemma cur_u64_ok c : cur_ok c → ∃ r, cur_u64 c = Ok r ∧ (is_u64 r.1 ∧ cur_ok r.2).
Proof.
  intros Hc. unfold cur_u64. destruct (need c 8) as [ok c'] eqn:E. pose proof (need_ok _ _ _ _ Hc E) as (Hc' & _ & H).
  destruct ok.
  - destruct H as (-> & _ & _ & Hl). destruct (get64_returns (cu_b c) (cu_at c)) as (v & -> & Hv); [apply Hc|apply Hc|lia|].
    rewrite bind_Ok. eexists. split; [done|]. split; [done|]. by apply advance_ok.
  - eexists. split; [done|]. split; [simpl; unfold is_digit; lia|done].
Qed.
Lemma cur_byte_ok c : cur_ok c → ∃ r, cur_byte c = Ok r ∧ cur_ok r.2.
Proof.
  intros Hc. unfold cur_byte. destruct (need c 1) as [ok c'] eqn:E. pose proof (need_ok _ _ _ _ Hc E) as (Hc' & _ & H).
  destruct ok; [|by eexists]. destruct H as (-> & _ & _ & Hl).
  destruct (index_returns (cu_b c) (cu_at c)) as (v & ->); [apply Hc|lia|].
  rewrite bind_Ok. eexists. split; [done|]. by apply advance_ok.
Qed.
Lemma cur_str_ok c : cur_ok c → ∃ r, cur_str c = Ok r ∧ cur_ok r.2.
Proof.
  intros Hc. unfold cur_str. destruct (cur_u32_ok c Hc) as ([n c1] & -> & Hn & Hc1). rewrite bind_Ok. simpl in *.
  destruct (cu_err c1) eqn:Ee; [by eexists|]. case_bool_decide.
  { eexists. split; [done|]. unfold fail. rewrite Ee. simpl. by destruct Hc1. }
  destruct (need c1 n) as [ok c2] eqn:E. pose proof (need_ok _ _ _ _ Hc1 E) as (Hc2 & _ & H').
  destruct ok; [|by eexists]. destruct H' as (-> & _ & ? & ?). pose proof (co_at _ Hc1).
  rewrite slice_Ok, bind_Ok by lia. eexists. split; [done|]. apply advance_ok; (done || lia).
Qed.
Lemma cur_words_ok n : ∀ c, cur_ok c → ∃ r, cur_words n c = Ok r ∧ (length r.1 = n ∧ Forall is_u64 r.1 ∧ cur_ok r.2).
Proof.
  induction n as [|n IH]; intros c Hc; cbn [cur_words]; [eexists; split_and!; [done|done|constructor|done]|].
  destruct (cur_u64_ok c Hc) as ([w c1] & -> & Hw & Hc1). rewrite bind_Ok.
  destruct (IH c1 Hc1) as ([ws c2] & -> & Hl & Hws & Hc2). rewrite bind_Ok. simpl in *.
  eexists. split_and!; [done|simpl; lia|by constructor|done].
Qed.

(** A footer entry: every integer field is a [uint32]. *)
Record meta_ok (m : colMeta) : Prop := {
  mo_u32 : Forall is_u32 [Width m; DictLen m; MinIdx m; MaxIdx m; DataOff m; DataLen m; PostOff m; PostLen m; DictOff m; DictLen2 m];
  mo_bloom : len (Bloom m) ≤ maxBloomWords;
  mo_words : Forall is_u64 (Bloom m) }.

Lemma read_fields_ok c : cur_ok c → ∃ r, read_fields c = Ok r ∧
  (Forall is_u32 [Width r.1.1; DictLen r.1.1; MinIdx r.1.1; MaxIdx r.1.1; DataOff r.1.1; DataLen r.1.1; PostOff r.1.1; PostLen r.1.1] ∧
   is_u32 r.1.2 ∧ cur_ok r.2).
Proof.
  intros Hc. unfold read_fields. destruct (cur_str_ok c Hc) as ([nm c0] & -> & H0). rewrite bind_Ok.
  destruct (cur_byte_ok c0 H0) as ([ty c1] & -> & H1). rewrite bind_Ok.
  destruct (cur_u32_ok c1 H1) as ([f1 c2] & -> & U1 & H2). rewrite bind_Ok.
  destruct (cur_u32_ok c2 H2) as ([f2 c3] & -> & U2 & H3). rewrite bind_Ok.
  destruct (cur_u32_ok c3 H3) as ([f3 c4] & -> & U3 & H4). rewrite bind_Ok.
  destruct (cur_u32_ok c4 H4) as ([f4 c5] & -> & U4 & H5). rewrite bind_Ok.
  destruct (cur_u32_ok c5 H5) as ([f5 c6] & -> & U5 & H6). rewrite bind_Ok.
  destruct (cur_u32_ok c6 H6) as ([f6 c7] & -> & U6 & H7). rewrite bind_Ok.
  destruct (cur_u32_ok c7 H7) as ([f7 c8] & -> & U7 & H8). rewrite bind_Ok.
  destruct (cur_u32_ok c8 H8) as ([f8 c9] & -> & U8 & H9). rewrite bind_Ok.
  destruct (cur_u32_ok c9 H9) as ([f9 c10] & -> & U9 & H10). rewrite bind_Ok.
  eexists. split; [done|]. simpl in *. split_and!; [forall_list|done..].
Qed.

Lemma read_meta_ok i c : cur_ok c → safe (λ r, meta_ok r.1 ∧ cur_ok r.2) (read_meta i c).
Proof.
  intros Hc. unfold read_meta. eapply safe_lift_bind; [by apply read_fields_ok|].
  intros [[m nb] c1] (Hm & Hnb & Hc1). simpl in *. destruct (cu_err c1) eqn:Ee; [done|].
  case_bool_decide as Hb; [done|]. destruct (need c1 (nb * 8)) as [ok c2] eqn:E.
  pose proof (need_ok _ _ _ _ Hc1 E) as (Hc2 & _ & H). destruct ok; simpl.
  2:{ destruct H as [e He]. unfold return_err. by rewrite He. }
  eapply safe_lift_bind; [by apply (cur_words_ok (Z.to_nat nb) c2)|]. intros [bl c3] (Hl & Hw & Hc3). simpl in *.
  eapply safe_lift_bind; [by apply (cur_u32_ok c3)|]. intros [dof c4] (U1 & Hc4). simpl in *.
  eapply safe_lift_bind; [by apply (cur_u32_ok c4)|]. intros [dl2 c5] (U2 & Hc5). simpl in *.
  destruct (cu_err c5); [done|]. simpl. split; [|done]. constructor; simpl.
  - repeat (apply Forall_cons_1 in Hm as [? Hm]). forall_list.
  - unfold len. lia.
  - done.
Qed.

(** ** What acceptance establishes *)

(** Column [m] of an accepted blob [b] of [rows] rows. *)
Record col_wf (b : bytes) (rows : Z) (m : colMeta) : Prop := {
  cw_meta : meta_ok m;
  cw_data : DataOff m + DataLen m ≤ len b;
  cw_post : PostOff m + PostLen m ≤ len b;
  cw_dict : DictOff m + DictLen2 m ≤ len b;
  cw_width : 0 ≤ Width m ≤ 32;
  cw_dictlen : 0 ≤ DictLen m ≤ maxGroupRows;
  cw_blocks : 0 < DictLen m → 0 < DictLen2 m →
    ∃ sec d, slice b (DictOff m) (DictOff m + DictLen2 m) = Ok sec ∧ parseDictSec sec = Ok d ∧ DictLen m ≤ numBlocks d * 64;
  cw_ts : Type_ m = ColTimestamp → 0 < rows →
    ∃ data, slice b (DataOff m) (DataOff m + DataLen m) = Ok data ∧ ts_valid data rows;
  cw_idx : Type_ m = ColDict → 0 < Width m →
    rows * Width m ≤ maxGroupRows ∧ (rows * Width m + 31) / 32 * 4 + 4 ≤ DataLen m }.

Record reader_wf (r : Reader) : Prop := {
  rw_bytes : is_bytes (r_blob r);
  rw_rows : 0 ≤ r_Rows r ≤ maxGroupRows;
  rw_times : is_i64 (r_TimeMin r) ∧ is_i64 (r_TimeMax r);
  rw_cols : Forall (col_wf (r_blob r) (r_Rows r)) (r_cols r);
  rw_backed : 0 < r_Rows r → Exists (λ m, Type_ m = ColTimestamp ∨ Type_ m = ColDict ∧ 0 < Width m) (r_cols r) }.

Lemma checkSpan_safe i what off n limit :
  safe (λ _, 0 ≤ off ∧ 0 ≤ n ∧ off + n ≤ limit) (checkSpan i what off n limit).
Proof. unfold checkSpan. case_bool_decide; [done|]. case_bool_decide; [done|]. simpl. lia. Qed.

Lemma check_checkpoints_safe b i off sl n : ∀ k,
  is_bytes b → 0 ≤ off → 0 ≤ k → safe (λ _, True) (check_checkpoints n k b i off sl).
Proof.
  induction n as [|n IH]; intros k Hb Ho Hk; cbn [check_checkpoints]; [done|]. cbv zeta. case_bool_decide; [done|].
  eapply safe_lift_bind; [apply get32_returns; (done || unfold tsHdrStride in *; lia)|]. intros o _.
  case_bool_decide; [done|]. apply IH; (done || lia).
Qed.

Lemma check_ts_safe b rows i m data :
  is_bytes b → meta_ok m → 0 ≤ rows → slice b (DataOff m) (DataOff m + DataLen m) = Ok data →
  safe (λ _, 0 < rows → ts_valid data rows) (check_ts b rows i m).
Proof.
  intros Hb Hm Hr Hd. pose proof (slice_len _ _ _ _ Hd) as (Ld & Hoff & Hend).
  unfold check_ts. case_bool_decide; [case_bool_decide; [done|simpl; lia]|]. case_bool_decide; [done|].
  destruct (get32_returns b (DataOff m)) as (nb & E1 & Hnb); [done|lia..|]. rewrite E1.
  destruct (get32_returns b (DataOff m + 4)) as (bs & E2 & Hbs); [done|lia..|]. rewrite E2. cbn [lift mbind checked_bind].
  case_bool_decide; [done|]. case_bool_decide as Hfit; [done|]. case_bool_decide; [done|].
  apply (safe_bind (λ mis : bool, mis = false → 0 < nb → 0 < rows → nb = (rows + bs - 1) / bs)).
  { case_bool_decide; [|simpl; lia]. rewrite go_div_pos by lia. simpl. intros E _ _. by apply bool_decide_eq_false in E; lia. }
  intros mis Hmis. destruct mis; [done|]. case_bool_decide; [done|]. cbv zeta. case_bool_decide as Hsl; [done|].
  eapply safe_bind; [apply check_checkpoints_safe; (done || lia)|]. intros _ _. case_bool_decide; [done|]. simpl.
  intros Hrows. constructor; [by eapply slice_bytes|done|lia|]. exists nb, bs.
  rewrite (get_le_slice 4 b data _ _ 0 Hd), (get_le_slice 4 b data _ _ 4 Hd), Z.add_0_r by lia.
  unfold is_digit in *. split_and!; [done|done|lia|lia|apply Hmis; (done || lia)|lia].
Qed.

Lemma check_col_safe b rows dataEnd i m :
  is_bytes b → meta_ok m → 0 ≤ rows → dataEnd ≤ len b →
  safe (λ _, col_wf b rows m) (check_col b rows dataEnd i m).
Proof.
  intros Hb Hm Hr He. unfold check_col.
  eapply safe_bind; [apply checkSpan_safe|]. intros _ (D1 & D2 & D3).
  eapply safe_bind; [apply checkSpan_safe|]. intros _ (P1 & P2 & P3).
  eapply safe_bind; [apply checkSpan_safe|]. intros _ (X1 & X2 & X3).
  case_bool_decide; [done|].
  apply (safe_bind (λ long : bool, long = false → 0 < DictLen m → 0 < DictLen2 m →
    ∃ sec d, slice b (DictOff m) (DictOff m + DictLen2 m) = Ok sec ∧ parseDictSec sec = Ok d ∧ DictLen m ≤ numBlocks d * 64)).
  { case_bool_decide; [|simpl; lia].
    destruct (slice_returns b (DictOff m) (DictOff m + DictLen2 m)) as (sec & E & _); [lia..|]. rewrite E.
    destruct (parseDictSec_returns sec) as (d & E' & _); [by eapply slice_bytes|]. cbn [lift mbind checked_bind]. rewrite E'.
    simpl. intros Hlong%bool_decide_eq_false _ _. exists sec, d. split_and!; [done..|]. unfold dictBlock in *. lia. }
  intros long Hlong. destruct long; [done|]. specialize (Hlong eq_refl). case_bool_decide; [done|].
  destruct (slice_returns b (DataOff m) (DataOff m + DataLen m)) as (data & Ed & _); [lia..|].
  apply (safe_bind (λ _, Type_ m = ColTimestamp → 0 < rows → ts_valid data rows)).
  { case_bool_decide; [|done]. pose proof (check_ts_safe b rows i m data Hb Hm Hr Ed) as Hs.
    destruct (check_ts b rows i m); simpl in *; auto. }
  intros _ Hts.
  assert ((Type_ m = ColDict → 0 < Width m →
    rows * Width m ≤ maxGroupRows ∧ (rows * Width m + 31) / 32 * 4 + 4 ≤ DataLen m) → col_wf b rows m) as Hdone.
  { intros Hix. constructor; try done; try lia. intros Ht Hp. exists data. auto. }
  case_bool_decide as Hdict; [|simpl; apply Hdone; tauto].
  case_bool_decide as Hov; [done|]. cbv zeta. case_bool_decide as Hneed; [done|]. simpl. apply Hdone. intros _ Hw.
  rewrite Z.quot_div_nonneg in Hov, Hneed by (unfold maxGroupRows in *; cbn; nia).
  split; [|lia]. assert (rows ≤ maxGroupRows / Width m) as Hle by lia.
  pose proof (Z.mul_div_le maxGroupRows (Width m) Hw). nia.
Qed.

Lemma read_cols_safe b rows dataEnd n : ∀ i c,
  is_bytes b → 0 ≤ rows → dataEnd ≤ len b → cur_ok c →
  safe (λ ms, Forall (col_wf b rows) ms ∧ length ms = n) (read_cols n i b rows dataEnd c).
Proof.
  induction n as [|n IH]; intros i c Hb Hr He Hc; cbn [read_cols]; [by split; [constructor|]|].
  eapply safe_bind; [by apply read_meta_ok|]. intros [m c1] [Hm Hc1].
  eapply safe_bind; [by apply check_col_safe|]. intros ? Hw. simpl in Hw.
  eapply safe_bind; [by apply IH|]. intros ms [Hms Hl]. simpl. split; [by constructor|lia].
Qed.

Lemma readGroup_safe b flenWord hasCRC :
  is_bytes b → is_bytes flenWord → 20 ≤ len b → 4 ≤ len flenWord →
  safe (λ r, reader_wf r ∧ r_blob r = b) (readGroup b flenWord hasCRC).
Proof.
  intros Hb Hf Hl Hfl. unfold readGroup. cbv zeta.
  eapply safe_lift_bind; [apply get32_returns; (done || lia)|]. intros rows Hrows.
  eapply safe_lift_bind; [apply get32_returns; (done || lia)|]. intros ncol Hncol.
  case_bool_decide; [done|]. case_bool_decide; [done|].
  eapply safe_lift_bind; [apply get32_returns; (done || lia)|]. intros flen Hflen.
  case_bool_decide as Hfit; [done|]. set (trailer := if hasCRC then 8 else 4) in *.
  assert (4 ≤ trailer ≤ 8) by (subst trailer; destruct hasCRC; lia).
  destruct (slice_returns b (len b - trailer - flen) (len b - trailer)) as (f & Ef & _); [lia..|]. rewrite Ef.
  cbn [lift]. cbn [mbind checked_bind].
  eapply safe_lift_bind; [apply cur_u64_ok; split; [by eapply slice_bytes; [exact Hb|exact Ef]|done]|]. intros [tmin c1] [_ Hc1].
  eapply safe_lift_bind; [by apply (cur_u64_ok c1)|]. intros [tmax c2] [_ Hc2]. simpl in Hc2.
  eapply safe_bind; [apply read_cols_safe; (done || lia)|]. intros ms [Hms _].
  destruct (bool_decide (0 < rows) && negb (existsb backs_rows ms)) eqn:Eb; [done|]. simpl. split; [|done].
  constructor; cbn [r_blob r_Rows r_TimeMin r_TimeMax r_cols]; [done|lia|split; apply i64_range|done|].
  intros Hp. rewrite bool_decide_eq_true_2 in Eb by done. simpl in Eb. apply negb_false_iff in Eb.
  apply existsb_exists in Eb as (m & Hin & Hm). apply Exists_exists. exists m.
  split; [first [done|by apply list_elem_of_In]|]. by apply bool_decide_eq_true in Hm.
Qed.

Lemma ReadGroup_safe_spec b :
  is_bytes b → safe (λ r, reader_wf r ∧ r_blob r = b) (ReadGroup b).
Proof.
  intros Hb. unfold ReadGroup. case_bool_decide; [done|].
  eapply safe_lift_bind; [apply get32_returns; (done || lia)|]. intros got _. case_bool_decide; [done|].
  eapply safe_lift_bind; [apply get32_returns; (done || lia)|]. intros v _. case_bool_decide.
  - rewrite slice_from_Ok by lia. apply readGroup_safe; [done|by apply Forall_drop|lia|rewrite len_drop; lia].
  - case_bool_decide; [|done]. unfold readGroupV8. case_bool_decide; [done|].
    destruct (slice_returns b 0 (len b - 4)) as (body & Eb & Lb); [lia..|]. rewrite Eb. cbn [lift]. cbn [mbind checked_bind].
    eapply safe_lift_bind; [apply get32_returns; (done || lia)|]. intros want _. cbv zeta. case_bool_decide; [done|].
    rewrite slice_from_Ok by lia. apply readGroup_safe; [done| |lia|rewrite len_drop; lia].
    apply Forall_drop. by eapply slice_bytes.
Qed.

(** C29: parsing any byte string never panics: it answers an error or a reader,
    and a reader it answers has every data, postings and dictionary span inside
    the blob, a row count its columns can hold, and timestamp headers that the
    decoders can follow. *)
Theorem ReadGroup_safe b :
  is_bytes b → safe (λ r, reader_wf r ∧ r_blob r = b) (ReadGroup b).
Proof. apply ReadGroup_safe_spec. Qed.

(** ** A changed byte *)

Lemma undigits_inj k l1 l2 :
  0 ≤ k → Forall (is_digit k) l1 → Forall (is_digit k) l2 → length l1 = length l2 →
  undigits k l1 = undigits k l2 → l1 = l2.
Proof.
  intros Hk H1 H2 Hl E. rewrite <- (digits_undigits k l1), <- (digits_undigits k l2) by done. by rewrite Hl, E.
Qed.

(** A word of the blob after one byte of it changed: equal when the byte lies
    outside the word, different when inside. *)
Lemma get_le_insert_out n b p y off v :
  get_le n b off = Ok v → Z.of_nat p < off ∨ off + Z.of_nat n ≤ Z.of_nat p → get_le n (<[p := y]> b) off = Ok v.
Proof.
  unfold get_le, slice. intros E Hp. rewrite len_insert.
  case_bool_decide as Hb; [|done]. rewrite bind_Ok in E |- *. rewrite <- E. do 2 f_equal.
  destruct Hp as [Hp|Hp].
  - by rewrite drop_insert_lt by lia.
  - by rewrite drop_insert_ge, take_insert_ge by lia.
Qed.
Lemma get_le_insert_in n b p x y off v v' :
  is_bytes b → is_byte y → b !! p = Some x → x ≠ y → off ≤ Z.of_nat p < off + Z.of_nat n → 0 ≤ off →
  get_le n b off = Ok v → get_le n (<[p := y]> b) off = Ok v' → v ≠ v'.
Proof.
  unfold get_le, slice. intros Hb Hy Hx Hne Hp H0. rewrite len_insert. case_bool_decide as Hs; [|done].
  rewrite !bind_Ok. intros [= <-] [= <-] E.
  assert (is_bytes (<[p := y]> b)) as Hb' by (by apply Forall_insert).
  apply undigits_inj in E; [|lia|by apply Forall_take, Forall_drop..|rewrite !length_take, !length_drop, length_insert; done].
  assert (take (Z.to_nat (off + Z.of_nat n - off)) (drop (Z.to_nat off) b) !! (p - Z.to_nat off)%nat = Some x) as L1.
  { rewrite lookup_take_lt, lookup_drop by lia. rewrite <- Hx. f_equal. lia. }
  rewrite E, lookup_take_lt, lookup_drop in L1 by lia.
  replace (Z.to_nat off + (p - Z.to_nat off))%nat with p in L1 by lia.
  rewrite list_lookup_insert_eq in L1 by (by eapply lookup_lt_Some). congruence.
Qed.

Lemma Checksum_changed b p x y :
  is_bytes b → is_byte y → b !! p = Some x → x ≠ y → Checksum (<[p := y]> b) ≠ Checksum b.
Proof.
  intros Hb Hy Hx Hne E. pose proof (take_drop_middle b p x Hx) as Eb.
  rewrite insert_take_drop in E by (by eapply lookup_lt_Some). rewrite <- Eb in E at 3.
  assert (is_byte x) by (unfold is_bytes in Hb; rewrite Forall_lookup in Hb; by apply Hb in Hx).
  apply (Checksum_one_byte (take p b) y x (drop (S p) b)) in E; [done|by apply Forall_take|done..|by apply Forall_drop|done].
Qed.

(** What a v8 blob that was accepted looks like. *)
Lemma accepted_v8 b r :
  is_bytes b → get32 b 4 = Ok versionV8 → ReadGroup b = Good r →
  24 ≤ len b ∧ get32 b 0 = Ok magic ∧ get32 b (len b - 4) = Ok (Checksum (take (Z.to_nat (len b - 4)) b)).
Proof.
  intros Hb Hv. unfold ReadGroup. case_bool_decide; [done|].
  destruct (get32_returns b 0) as (got & -> & _); [done|lia..|]. cbn [lift]. cbn [mbind checked_bind].
  case_bool_decide as Hm; [done|]. subst got. rewrite Hv. cbn [lift]. cbn [mbind checked_bind].
  rewrite bool_decide_eq_false_2, bool_decide_eq_true_2 by done. unfold readGroupV8. case_bool_decide; [done|].
  rewrite slice_Ok by lia. cbn [lift]. cbn [mbind checked_bind].
  destruct (get32_returns b (len b - 4)) as (want & -> & _); [done|lia..|]. cbn [lift]. cbn [mbind checked_bind].
  case_bool_decide as Hc; [done|]. intros _. split_and!; [lia|done|].
  f_equal. symmetry. rewrite <- Hc. f_equal. by rewrite Z.sub_0_r.
Qed.

(** The version word of a v8 blob after a change inside it: neither version,
    unless the change turns the 8 into a 7. *)
Lemma version_changed b p x y v :
  is_bytes b → is_byte y → b !! p = Some x → x ≠ y → (4 ≤ p < 8)%nat → ¬ (p = 4%nat ∧ y = 7) →
  get32 b 4 = Ok versionV8 → get32 (<[p := y]> b) 4 = Ok v → v ≠ versionV7 ∧ v ≠ versionV8.
Proof.
  intros Hb Hy Hx Hne Hp Hn7 Hv Hv'.
  split; [|intros ->; by eapply (get_le_insert_in 4 b p x y 4); try done; lia].
  unfold get_le, slice in Hv, Hv'. rewrite len_insert in Hv'. case_bool_decide as Hl; [|done].
  rewrite bind_Ok in Hv, Hv'. injection Hv as Hv. injection Hv' as Hv'. intros ->.
  change (Z.to_nat (4 + Z.of_nat 4 - 4)) with 4%nat in *. change (Z.to_nat 4) with 4%nat in *.
  assert (is_bytes (<[p := y]> b)) as Hb' by (by apply Forall_insert).
  assert (length b ≥ 8)%nat as Hlen by (unfold len in *; lia).
  assert (take 4 (drop 4 b) = [8; 0; 0; 0]) as E.
  { apply (undigits_inj 8); [lia|by apply Forall_take, Forall_drop|by repeat (apply Forall_cons_2; [split; lia|]); apply Forall_nil_2| |done].
    rewrite length_take, length_drop. cbn [length]. lia. }
  assert (take 4 (drop 4 (<[p := y]> b)) = [7; 0; 0; 0]) as E'.
  { apply (undigits_inj 8); [lia|by apply Forall_take, Forall_drop|by repeat (apply Forall_cons_2; [split; lia|]); apply Forall_nil_2| |done].
    rewrite length_take, length_drop, length_insert. cbn [length]. lia. }
  assert ((<[p := y]> b) !! 4%nat = Some 7) as L4.
  { assert (take 4 (drop 4 (<[p := y]> b)) !! 0%nat = Some 7) as L by (by rewrite E').
    by rewrite lookup_take_lt, lookup_drop in L by lia. }
  assert (b !! 4%nat = Some 8) as K4.
  { assert (take 4 (drop 4 b) !! 0%nat = Some 8) as L by (by rewrite E). by rewrite lookup_take_lt, lookup_drop in L by lia. }
  destruct (decide (p = 4%nat)) as [-> |Hp4].
  - rewrite list_lookup_insert_eq in L4 by lia. injection L4 as ->. by apply Hn7.
  - rewrite list_lookup_insert_ne in L4 by done. congruence.
Qed.

(** C30: Changing any single byte of an accepted v8 group makes it unreadable, except
    for rewriting the version byte from 8 to 7, which asks for the format without a
    checksum and which no single flipped bit does: the header, the data, the footer
    and the checksum itself are all covered. *)
Theorem ReadGroup_byte_changed b p x y r :
  is_bytes b → get32 b 4 = Ok versionV8 → ReadGroup b = Good r →
  b !! p = Some x → is_byte y → x ≠ y → ¬ (p = 4%nat ∧ y = 7) →
  ∃ e, ReadGroup (<[p := y]> b) = Corrupt e.
Proof.
  intros Hb Hv Hr Hx Hy Hne Hn7. destruct (accepted_v8 b r Hb Hv Hr) as (Hl & Hm & Hc).
  pose proof (lookup_lt_Some _ _ _ Hx) as Hp. assert (len b = Z.of_nat (length b)) as Ll by done.
  assert (is_bytes (<[p := y]> b)) as Hb' by (by apply Forall_insert).
  set (b' := <[p := y]> b) in *. assert (len b' = len b) as Lb by apply len_insert.
  unfold ReadGroup. rewrite bool_decide_eq_false_2 by lia.
  destruct (get32_returns b' 0) as (m' & Em & _); [done|lia..|]. rewrite Em. cbn [lift]. cbn [mbind checked_bind].
  case_bool_decide as Hmag; [by eexists|]. subst m'.
  destruct (decide (p < 4)%nat).
  { destruct (get_le_insert_in 4 b p x y 0 magic magic); try done; lia. }
  destruct (get32_returns b' 4) as (v & Ev & _); [done|lia..|]. rewrite Ev. cbn [lift]. cbn [mbind checked_bind].
  destruct (decide (p < 8)%nat).
  { destruct (version_changed b p x y v) as [V7 V8]; try done; [lia|]. rewrite !bool_decide_eq_false_2 by done. by eexists. }
  assert (v = versionV8) as ->.
  { unfold b' in Ev. rewrite (get_le_insert_out 4 b p y 4 versionV8 Hv) in Ev by lia. congruence. }
  rewrite bool_decide_eq_false_2, bool_decide_eq_true_2 by done. unfold readGroupV8.
  rewrite bool_decide_eq_false_2, Lb, slice_Ok by lia. cbn [lift]. cbn [mbind checked_bind].
  destruct (get32_returns b' (len b - 4)) as (want & Ew & _); [done|lia..|]. rewrite Ew. cbn [lift]. cbn [mbind checked_bind].
  rewrite Z.sub_0_r, drop_0. enough (Checksum (take (Z.to_nat (len b - 4)) b') ≠ want) as Hd
    by (rewrite bool_decide_eq_true_2 by done; by eexists).
  destruct (decide (Z.of_nat p < len b - 4)) as [Hin|Hout].
  - assert (want = Checksum (take (Z.to_nat (len b - 4)) b)) as ->.
    { unfold b' in Ew. rewrite (get_le_insert_out 4 b p y (len b - 4) _ Hc) in Ew by lia. congruence. }
    unfold b'. rewrite take_insert_lt by lia. apply (Checksum_changed _ p x y); [by apply Forall_take|done| |done].
    rewrite lookup_take_lt by lia. done.
  - unfold b'. rewrite take_insert_ge by lia. eapply (get_le_insert_in 4 b p x y (len b - 4)); try done; lia.
Qed.
