(* ===== verification/GroupLayout.v ===== *)
(** * A marshalled group read back

    [Marshal] writes a blob that [ReadGroup] accepts, and the reader it returns
    finds every column where [Marshal] put it. *)

From S2P Require Import Prelude Digits GoLib Kernels Indices Timestamps DictSection DictLayout Postings Bloom Group GroupSafe.
From stdpp Require Import sorting.
Local Open Scope Z_scope.

Section layout.
Context {K : Simd} {KL : SimdLaws K} {F : Flate} {FL : FlateLaws F}.

(** ** Groups the format can hold *)

Record dict_col_wf (rows : Z) (d : DictColumn) : Prop := {
  dw_rows : len (Indices d) = rows;
  dw_bytes : Forall is_bytes (Dict d);
  dw_sorted : StronglySorted str_lt (Dict d);
  dw_len : len (Dict d) ≤ 2 ^ 22;
  dw_size : len (concat (Dict d)) < 2 ^ 30 - 260;
  dw_idx : Forall (λ x, 0 ≤ x < len (Dict d)) (Indices d) }.

Inductive col_ok (rows : Z) : Column → Prop :=
| ok_dict nm d ts vec dim :
    dict_col_wf rows d → col_ok rows (MkColumn nm ColDict (Some d) ts vec dim)
| ok_ts nm d ts vec dim :
    len ts = rows → Forall is_i64 ts → col_ok rows (MkColumn nm ColTimestamp d ts vec dim)
| ok_vec nm d ts vec dim :
    Forall is_u32 vec → 0 ≤ dim ≤ 32 → col_ok rows (MkColumn nm ColVector d ts vec dim).

Record group_wf (g : Group) : Prop := {
  gw_rows : 0 ≤ g_Rows g ≤ 2 ^ 24;
  gw_ncol : len (g_Columns g) ≤ maxGroupColumns;
  gw_names : Forall (λ c, is_bytes (c_Name c) ∧ len (c_Name c) ≤ maxNameBytes) (g_Columns g);
  gw_cols : Forall (col_ok (g_Rows g)) (g_Columns g);
  gw_backed : 0 < g_Rows g → Exists (λ c, c_Type c ≠ ColVector) (g_Columns g) }.

(** ** Where a column lies in the blob *)

Definition postings_of (g : Group) (d : DictColumn) : bytes :=
  if g_NoPostings g then [] else blob_bytes (length (Dict d)) (Indices d).

(** Column [c] of [g] is stored in [b] at the spans of [m]. *)
Inductive stored (g : Group) (b : bytes) : Column → colMeta → Prop :=
| stored_dict nm d ts vec dim bloom sec mn mx off :
    buildDictBloom (Dict d) = Ok bloom →
    marshalDictSection (Dict d) (g_Compact g) = Ok sec →
    let w := bitWidth (len (Dict d)) in
    let data := encodeIndices (Indices d) w in
    let po := off + len data in let do := po + len (postings_of g d) in
    is_u32 mn → is_u32 mx →
    at_off b off (data ++ postings_of g d ++ sec) →
    stored g b (MkColumn nm ColDict (Some d) ts vec dim)
      (MkMeta nm ColDict w (len (Dict d)) mn mx bloom off (len data + len (postings_of g d) + len sec)
         po (len (postings_of g d)) do (len sec))
| stored_ts nm d ts vec dim data off :
    encodeTimestamps ts = Ok data → at_off b off data →
    stored g b (MkColumn nm ColTimestamp d ts vec dim)
      (MkMeta nm ColTimestamp 0 0 0 0 [] off (len data) 0 0 0 0)
| stored_vec nm d ts vec dim off :
    at_off b off (encodeVectors vec dim) →
    stored g b (MkColumn nm ColVector d ts vec dim)
      (MkMeta nm ColVector dim 0 0 0 [] off (len (encodeVectors vec dim)) 0 0 0 0).

Lemma stored_app g b x c m : stored g b c m → stored g (b ++ x) c m.
Proof. destruct 1; econstructor; try done; by apply at_off_app_l. Qed.

(** ** Writing *)

Lemma min_max_u32 l : ∀ i mn mx, Forall is_u32 l → is_u32 mn → is_u32 mx →
  is_u32 (min_max i l mn mx).1 ∧ is_u32 (min_max i l mn mx).2.
Proof.
  induction l as [|x l IH]; intros i mn mx Hl Hn Hx; cbn [min_max]; [done|].
  apply Forall_cons_1 in Hl as [Hh Hl]. apply IH; [done|by case_bool_decide..].
Qed.

Lemma blob_bytes_bytes n indices :
  Forall (λ x, 0 ≤ x < Z.of_nat n) indices → len indices ≤ 2 ^ 24 → is_bytes (blob_bytes n indices).
Proof.
  intros Hi Hl. unfold blob_bytes, blocks_bytes.
  destruct (counts_fit n indices Hl) as [Hw Hd].
  assert (is_bytes (concat (block_list n indices (Z.to_nat (post_blocks n))))) as Hb.
  { apply concat_bytes. unfold block_list, table. apply Forall_fmap, Forall_true. intros k. simpl.
    unfold forBlock, appendForBlock. case_bool_decide; [apply Forall_nil_2|]. cbn [app]. cbv zeta.
    destruct (block_gaps_fit n indices Hl k) as [Hw' Hd']. fold (pad32 (block_gaps n indices k)).
    destruct (pad32_spec (block_gaps n indices k)) as (m & _ & _ & _ & z & Ez).
    apply encodeIndices_stream; [lia|]. rewrite Ez. apply Forall_app_2; [done|]. apply Forall_replicate.
    split; [done|]. apply pow2_pos. lia. }
  repeat apply Forall_app_2; try apply le32_bytes; [by apply encodeIndices_stream; [lia|]| |done].
  apply flat_map_bytes. intros e. unfold fidx_bytes. apply Forall_app_2; apply le32_bytes.
Qed.

Lemma encodeVectors_bytes vec dim : is_bytes (encodeVectors vec dim).
Proof. apply Forall_app_2; [apply le32_bytes|]. apply flat_map_bytes, le32_bytes. Qed.

Lemma encodeTimestamps_bytes ts data :
  len ts ≤ 2 ^ 28 → Forall is_i64 ts → encodeTimestamps ts = Ok data → is_bytes data.
Proof.
  intros Hl Ht E. destruct (decide (ts = [])) as [-> |Hne]; [injection E as <-; apply Forall_nil_2|].
  destruct (encodeTimestamps_layout ts Hne Hl Ht) as (b & E' & L). rewrite E in E'. injection E' as ->. apply (tl_bytes _ _ L).
Qed.

(** The group's time bounds after the columns [cs]. *)
Record time_ok (cs : list Column) (lo hi : Z) : Prop := {
  to_lo : is_i64 lo;
  to_hi : is_i64 hi;
  to_in c t : c ∈ cs → c_Type c = ColTimestamp → t ∈ c_Ts c → lo ≤ t ≤ hi }.

Lemma time_bounds_spec ts : ∀ lo hi,
  is_i64 lo → is_i64 hi → Forall is_i64 ts →
  let r := time_bounds ts lo hi in
  is_i64 r.1 ∧ is_i64 r.2 ∧ r.1 ≤ lo ∧ hi ≤ r.2 ∧ ∀ t, t ∈ ts → r.1 ≤ t ≤ r.2.
Proof.
  unfold time_bounds. induction ts as [|t ts IH]; intros lo hi Hlo Hhi Ht; cbn [fold_left fst snd].
  { split_and!; try done. intros t Hin. by apply elem_of_nil in Hin. }
  apply Forall_cons_1 in Ht as [Ht Hts].
  destruct (IH (if bool_decide (t < lo) then t else lo) (if bool_decide (hi < t) then t else hi)) as (R1 & R2 & R3 & R4 & R5);
    [by case_bool_decide..|done|]. split_and!; [done|done|repeat case_bool_decide; lia|repeat case_bool_decide; lia|].
  intros u [-> |Hu]%elem_of_cons; [|by apply R5]. repeat case_bool_decide; lia.
Qed.
Lemma time_ok_skip cs c lo hi : time_ok cs lo hi → c_Type c ≠ ColTimestamp → time_ok (cs ++ [c]) lo hi.
Proof.
  intros [A B C] Hn. constructor; [done..|]. intros c' t [Hc| ->%list_elem_of_singleton]%elem_of_app Hty Ht; [by eapply C|done].
Qed.

(** One column: where it lands, and that nothing else changes. *)
Lemma marshal_dict_col g s nm d ts vec dim :
  group_wf g → dict_col_wf (g_Rows g) d →
  ∃ x m tmin tmax,
    marshal_col g s (MkColumn nm ColDict (Some d) ts vec dim) =
      Ok (MState (ms_b s ++ x) (ms_metas s ++ [m]) tmin tmax) ∧
    (len x < 2 ^ 32 → is_bytes x) ∧ stored g (ms_b s ++ x) (MkColumn nm ColDict (Some d) ts vec dim) m ∧
    tmin = ms_min s ∧ tmax = ms_max s.
Proof.
  intros Hg [D1 D2 D3 D4 D5 D6]. pose proof (gw_rows g Hg) as Hr. unfold marshal_col.
  cbn [c_Type c_Dict c_Name]. rewrite bool_decide_eq_true_2 by done.
  set (w := bitWidth (len (Dict d))). set (data := encodeIndices (Indices d) w).
  assert (Forall is_u32 (Indices d)) as Hu.
  { eapply Forall_impl; [exact D6|]. intros x Hx. simpl in Hx. unfold is_digit. lia. }
  pose proof (min_max_u32 (Indices d) 0 0 0 Hu ltac:(unfold is_digit; lia) ltac:(unfold is_digit; lia)) as [Mn Mx].
  destruct (min_max 0 (Indices d) 0 0) as [mn mx]. simpl in Mn, Mx.
  destruct (buildDictBloom_spec (Dict d)) as (bloom & Ebl & _); [lia|]. rewrite Ebl, bind_Ok.
  assert (Forall (λ x, 0 ≤ x < Z.of_nat (length (Dict d))) (Indices d)) as Hix by done.
  assert ((if g_NoPostings g then Ok (ms_b s ++ data)
           else p ← buildPostings (Indices d) (len (Dict d)); marshal p (ms_b s ++ data)) =
          Ok ((ms_b s ++ data) ++ postings_of g d)) as ->.
  { unfold postings_of. destruct (g_NoPostings g); [by rewrite app_nil_r|].
    destruct (buildPostings_spec (length (Dict d)) (Indices d) Hix ltac:(lia)) as (p & Ep & P1 & P2 & P3).
    change (len (Dict d)) with (Z.of_nat (length (Dict d))). rewrite Ep, bind_Ok.
    apply (marshal_spec (length (Dict d)) (Indices d)); [unfold len in *; lia|lia|done..]. }
  destruct (marshalDictSection_layout (Dict d) (g_Compact g) D2 D5) as (sec & Es & Hsec). rewrite bind_Ok, Es, bind_Ok.
  exists (data ++ postings_of g d ++ sec). do 3 eexists. rewrite <- !app_assoc. split; [done|]. split_and!; [| |done..].
  - rewrite !len_app. len_facts. intros Hlx. apply Forall_app_2; [|apply Forall_app_2].
    + assert (1 ≤ w ≤ 32) as Hw by (apply bitWidth_range; lia). apply encodeIndices_stream; [done|].
      eapply Forall_impl; [exact D6|]. intros x Hx. apply bitWidth_spec; (done || lia).
    + unfold postings_of. destruct (g_NoPostings g); [apply Forall_nil_2|]. apply blob_bytes_bytes; (done || lia).
    + apply Hsec. lia.
  - rewrite !len_app. replace (len (ms_b s) + (len data + (len (postings_of g d) + len sec)) - len (ms_b s))
      with (len data + len (postings_of g d) + len sec) by lia.
    replace (len (ms_b s) + (len data + len (postings_of g d)) - (len (ms_b s) + len data)) with (len (postings_of g d)) by lia.
    replace (len (ms_b s) + (len data + (len (postings_of g d) + len sec)) - (len (ms_b s) + (len data + len (postings_of g d))))
      with (len sec) by lia.
    rewrite Z.add_assoc. apply (stored_dict g); try done.
    rewrite <- (Z.add_0_r (len (ms_b s))). apply at_off_app_r, at_off_refl.
Qed.

Lemma marshal_col_spec g s c cs :
  group_wf g → col_ok (g_Rows g) c → time_ok cs (ms_min s) (ms_max s) →
  ∃ x m tmin tmax, marshal_col g s c = Ok (MState (ms_b s ++ x) (ms_metas s ++ [m]) tmin tmax) ∧
    (len x < 2 ^ 32 → is_bytes x) ∧ stored g (ms_b s ++ x) c m ∧ time_ok (cs ++ [c]) tmin tmax.
Proof.
  intros Hg Hc Htm. pose proof (gw_rows g Hg) as Hr.
  assert (∀ x, at_off (ms_b s ++ x) (len (ms_b s)) x) as Hat.
  { intros x. rewrite <- (Z.add_0_r (len (ms_b s))). apply at_off_app_r, at_off_refl. }
  destruct Hc as [nm d ts vec dim Hd|nm d ts vec dim Hl Ht|nm d ts vec dim Hv Hdim].
  - destruct (marshal_dict_col g s nm d ts vec dim Hg Hd) as (x & m & tmin & tmax & E & Hx & Hst & -> & ->).
    exists x, m, (ms_min s), (ms_max s). split_and!; [done..|]. by apply time_ok_skip.
  - unfold marshal_col. cbn [c_Type c_Ts c_Name]. rewrite bool_decide_eq_false_2, bool_decide_eq_true_2 by done.
    assert (∃ data, encodeTimestamps ts = Ok data) as [data Ed].
    { destruct (decide (ts = [])) as [-> |Hne]; [by eexists|].
      destruct (encodeTimestamps_layout ts Hne ltac:(lia) Ht) as (b & E' & _). by exists b. }
    rewrite Ed, bind_Ok. destruct Htm as [T1 T2 T3].
    destruct (time_bounds_spec ts (ms_min s) (ms_max s) T1 T2 Ht) as (R1 & R2 & R3 & R4 & R5).
    destruct (time_bounds ts _ _) as [tmin tmax]. simpl in *. do 4 eexists. split; [done|].
    split; [intros _; eapply encodeTimestamps_bytes; [|done..]; lia|]. split; [by apply stored_ts|].
    constructor; [done..|]. intros c t [Hc| ->%list_elem_of_singleton]%elem_of_app Hty Hin; [|by apply R5].
    pose proof (T3 c t Hc Hty Hin). lia.
  - unfold marshal_col. cbn [c_Type c_Vec c_Dim c_Name]. rewrite !bool_decide_eq_false_2, bool_decide_eq_true_2 by done.
    do 4 eexists. split; [done|]. split; [intros _; apply encodeVectors_bytes|].
    split; [by apply stored_vec|]. by apply time_ok_skip.
Qed.

(** Every column, in order. *)
Lemma marshal_cols_spec g cs : ∀ s done_,
  group_wf g → Forall (col_ok (g_Rows g)) cs → Forall2 (stored g (ms_b s)) done_ (ms_metas s) →
  time_ok done_ (ms_min s) (ms_max s) →
  ∃ s' x, marshal_cols g cs s = Ok s' ∧ ms_b s' = ms_b s ++ x ∧ (len x < 2 ^ 32 → is_bytes x) ∧
    Forall2 (stored g (ms_b s')) (done_ ++ cs) (ms_metas s') ∧ time_ok (done_ ++ cs) (ms_min s') (ms_max s').
Proof.
  induction cs as [|c cs IH]; intros s done_ Hg Hc Hs Ht; cbn [marshal_cols].
  { exists s, []. rewrite !app_nil_r. split_and!; try done. intros _. apply Forall_nil_2. }
  apply Forall_cons_1 in Hc as [Hc Hcs].
  destruct (marshal_col_spec g s c done_ Hg Hc Ht) as (x & m & tmin & tmax & -> & Hx & Hm & Htm). rewrite bind_Ok.
  destruct (IH (MState (ms_b s ++ x) (ms_metas s ++ [m]) tmin tmax) (done_ ++ [c])) as (s' & y & -> & Eb & Hy & Hs' & Ht'); [done..| |done|].
  { cbn [ms_b ms_metas]. apply Forall2_app; [|by constructor]. eapply Forall2_impl; [exact Hs|]. intros ? ?. apply stored_app. }
  cbn [ms_b] in Eb. exists s', (x ++ y). split_and!; [done|by rewrite Eb, <- app_assoc| |by rewrite <- app_assoc in Hs'|by rewrite <- app_assoc in Ht'].
  rewrite len_app. len_facts. intros Hl. apply Forall_app_2; [apply Hx|apply Hy]; lia.
Qed.

(** ** Reading the footer back *)

Lemma need_fits f at_ n : 0 ≤ n → 0 ≤ at_ → at_ + n ≤ len f → need (Cursor f at_ None) n = (true, Cursor f at_ None).
Proof. intros. unfold need. simpl. by rewrite bool_decide_eq_false_2 by lia. Qed.
Lemma cur_u32_at f at_ v : at_off f at_ (le32 v) → is_u32 v →
  cur_u32 (Cursor f at_ None) = Ok (v, Cursor f (at_ + 4) None).
Proof.
  intros Ha Hv. pose proof (at_off_bound _ _ _ Ha) as Hb. rewrite len_le32 in Hb. unfold cur_u32.
  rewrite need_fits by lia. cbn [cu_b cu_at]. by rewrite (get32_at _ _ _ Ha), bind_Ok, u32_small.
Qed.
Lemma cur_u64_at f at_ v : at_off f at_ (le64 v) → is_u64 v →
  cur_u64 (Cursor f at_ None) = Ok (v, Cursor f (at_ + 8) None).
Proof.
  intros Ha Hv. pose proof (at_off_bound _ _ _ Ha) as Hb. rewrite len_le64 in Hb. unfold cur_u64.
  rewrite need_fits by lia. cbn [cu_b cu_at]. by rewrite (get64_at _ _ _ Ha), bind_Ok, u64_small.
Qed.
Lemma cur_byte_at f at_ v : at_off f at_ [v] → cur_byte (Cursor f at_ None) = Ok (v, Cursor f (at_ + 1) None).
Proof.
  intros Ha. pose proof (at_off_bound _ _ _ Ha) as Hb. change (len [v]) with 1 in Hb. unfold cur_byte.
  rewrite need_fits by lia. cbn [cu_b cu_at]. rewrite (index_Ok f at_ v); [done|lia|].
  pose proof (at_off_lookup f [v] at_ 0 v Ha eq_refl) as Hl. by rewrite Z.add_0_r in Hl.
Qed.
Lemma cur_str_at f at_ s : at_off f at_ (appStr s) → len s ≤ maxNameBytes →
  cur_str (Cursor f at_ None) = Ok (s, Cursor f (at_ + len (appStr s)) None).
Proof.
  intros Ha Hs. change maxNameBytes with 65536 in *. len_facts. unfold appStr in *.
  rewrite u32_small in * by (unfold is_digit; lia). apply at_off_app in Ha as [A1 A2]. rewrite len_le32 in A2.
  pose proof (at_off_bound _ _ _ A2). unfold cur_str. rewrite (cur_u32_at f at_ (len s)) by (done || unfold is_digit; lia).
  rewrite bind_Ok. cbn [cu_err]. change maxNameBytes with 65536. rewrite bool_decide_eq_false_2 by lia.
  rewrite need_fits by lia. cbn [cu_b cu_at]. rewrite (at_off_slice _ _ _ _ A2), bind_Ok by done.
  unfold advance. cbn [cu_b cu_at cu_err]. rewrite len_app, len_le32. by rewrite Z.add_assoc.
Qed.
Lemma cur_words_at f ws : ∀ at_, at_off f at_ (List.flat_map le64 ws) → Forall is_u64 ws →
  cur_words (length ws) (Cursor f at_ None) = Ok (ws, Cursor f (at_ + 8 * len ws) None).
Proof.
  induction ws as [|w ws IH]; intros at_ Ha Hw; cbn [length cur_words List.flat_map] in *.
  { len_nil. by rewrite Z.add_0_r. }
  apply Forall_cons_1 in Hw as [Hw Hws]. apply at_off_app in Ha as [A1 A2]. rewrite len_le64 in A2.
  rewrite (cur_u64_at f at_ w), bind_Ok, IH, bind_Ok by done. rewrite len_cons. do 3 f_equal. lia.
Qed.

(** An entry whose fields fit their words. *)
Record meta_fits (m : colMeta) : Prop := {
  mf_ok : meta_ok m;
  mf_name : len (Name m) ≤ maxNameBytes;
  mf_type : is_byte (Type_ m) }.

Lemma read_meta_at f at_ i m :
  at_off f at_ (meta_bytes m) → meta_fits m →
  read_meta i (Cursor f at_ None) = Good (m, Cursor f (at_ + len (meta_bytes m)) None).
Proof.
  intros Ha [[Hu Hbl Hw] Hn Ht]. repeat (apply Forall_cons_1 in Hu as [? Hu]).
  change maxBloomWords with (2 ^ 20) in *. len_facts.
  assert (is_u32 (len (Bloom m))) as Hnb by (unfold is_digit; lia).
  unfold meta_bytes in Ha |- *. rewrite !u32_small in * by done. unfold u8 in *. rewrite Z.mod_small in * by apply Ht.
  apply at_off_app in Ha as [A0 Ha]. apply at_off_app in Ha as [A1 Ha]. do 9 (apply at_off_app in Ha as [? Ha]).
  apply at_off_app in Ha as [AB Ha]. apply at_off_app in Ha as [AD1 AD2].
  change (len [Type_ m]) with 1 in *. rewrite !len_le32, ?(flat_map_len le64 8) in * by apply len_le64.
  unfold read_meta, read_fields. erewrite cur_str_at by eassumption. rewrite bind_Ok. erewrite cur_byte_at by eassumption. rewrite bind_Ok.
  do 9 (erewrite cur_u32_at by eassumption; rewrite bind_Ok). cbn [lift]. cbn [mbind checked_bind cu_err].
  change maxBloomWords with (2 ^ 20). rewrite bool_decide_eq_false_2 by lia.
  pose proof (at_off_bound _ _ _ AB) as BB. rewrite (flat_map_len le64 8) in BB by apply len_le64.
  rewrite need_fits by lia. cbn [negb]. replace (Z.to_nat (len (Bloom m))) with (length (Bloom m)) by (unfold len; lia).
  rewrite cur_words_at by done. cbn [lift]. cbn [mbind checked_bind].
  erewrite cur_u32_at by eassumption. cbn [lift]. cbn [mbind checked_bind].
  erewrite cur_u32_at by eassumption. cbn [lift]. cbn [mbind checked_bind cu_err Name Type_ Width DictLen MinIdx MaxIdx DataOff DataLen PostOff PostLen].
  f_equal. f_equal; [by destruct m|]. f_equal. rewrite !len_app, !len_le32, ?(flat_map_len le64 8) by apply len_le64.
  change (len [Type_ m]) with 1. lia.
Qed.

(** ** Acceptance *)

Lemma checkSpan_fits i what off n limit : 0 ≤ off → 0 ≤ n → off + n ≤ limit → checkSpan i what off n limit = Good tt.
Proof. intros. unfold checkSpan. by rewrite !bool_decide_eq_false_2 by lia. Qed.

Lemma ts_stream_min prev ts : len ts ≤ len (ts_stream prev ts).
Proof.
  revert prev. induction ts as [|t ts IH]; intros prev; cbn [ts_stream]; [done|].
  specialize (IH t). pose proof (put_uvarint_pos (zigzag (i64 (t - prev)))). rewrite len_app, len_cons. lia.
Qed.

Lemma check_checkpoints_at b data off ts i n : ∀ k,
  at_off b off data → ts_layout data ts → 0 ≤ k → k + Z.of_nat n = Timestamps.num_blocks ts → Forall is_i64 ts →
  check_checkpoints n k b i off (len (ts_stream 0 ts)) = Good tt.
Proof.
  induction n as [|n IH]; intros k Ha L Hk Hn Hi; cbn [check_checkpoints]; [done|]. cbv zeta.
  pose proof (at_off_bound _ _ _ Ha) as Hb. pose proof (tl_len _ _ L) as Ll. unfold tsHdrStride in *. len_facts.
  rewrite bool_decide_eq_false_2 by lia.
  destruct (tl_check _ _ L k ltac:(lia)) as (mn & mx & C & _). unfold tsHdrStride in C.
  rewrite <- Z.add_assoc. rewrite <- (get_le_slice 4 b data off (off + len data)) by (try lia; by apply at_off_slice).
  rewrite C. cbn [lift]. cbn [mbind checked_bind]. rewrite bool_decide_eq_false_2.
  - apply (IH (k + 1)); (done || lia).
  - pose proof (ts_stream_app 0 (before k ts) (drop (Z.to_nat (tsBlock * k)) ts)) as Es.
    unfold before in *. rewrite take_drop in Es. rewrite Es, len_app. len_facts. lia.
Qed.

Lemma check_ts_at b off rows i nm ts data :
  at_off b off data → encodeTimestamps ts = Ok data → len ts = rows → rows ≤ 2 ^ 24 → Forall is_i64 ts →
  check_ts b rows i (MkMeta nm ColTimestamp 0 0 0 0 [] off (len data) 0 0 0 0) = Good tt.
Proof.
  intros Ha E Hl Hr Hi. unfold check_ts. cbn [DataLen DataOff].
  destruct (decide (ts = [])) as [-> |Hne].
  { injection E as <-. len_nil. subst rows. done. }
  destruct (encodeTimestamps_layout ts Hne ltac:(lia) Hi) as (data' & E' & L). rewrite E in E'. injection E' as <-.
  pose proof (at_off_bound _ _ _ Ha) as Hb. pose proof (tl_len _ _ L) as Ll.
  assert (0 < len ts) as Hpos by (destruct ts; [done|len_lia]).
  assert (0 < Timestamps.num_blocks ts ≤ len ts) as Hnb.
  { unfold Timestamps.num_blocks, tsBlock. pose proof (Z_div_mod_eq_full (len ts + 512 - 1) 512).
    pose proof (Z.mod_pos_bound (len ts + 512 - 1) 512). lia. }
  pose proof (ts_stream_min 0 ts) as Hst. unfold tsHdrStride in *.
  rewrite (bool_decide_eq_false_2 (len data < 8)), (bool_decide_eq_false_2 (len b < off + 8)) by len_lia.
  assert (∀ o, 0 ≤ o → o + 4 ≤ len data → get32 b (off + o) = get32 data o) as Hg.
  { intros o Ho Ho2. symmetry. apply (get_le_slice 4 b data off (off + len data)); [by apply at_off_slice|done|lia]. }
  rewrite <- (Z.add_0_r off) at 1. rewrite !Hg by lia. rewrite (tl_nb _ _ L), (tl_bs _ _ L).
  cbn [lift]. cbn [mbind checked_bind]. change tsBlock with 512. change maxGroupRows with (2 ^ 30).
  rewrite bool_decide_eq_false_2 by lia. rewrite bool_decide_eq_false_2.
  2:{ rewrite Z.quot_div_nonneg by lia.
      assert (Timestamps.num_blocks ts ≤ (len data - 8) / 28); [|lia]. apply Z.div_le_lower_bound; lia. }
  rewrite bool_decide_eq_false_2 by lia. rewrite (bool_decide_eq_true_2 (0 < Timestamps.num_blocks ts ∧ 0 < rows)) by lia.
  rewrite go_div_pos by lia. cbn [lift]. cbn [mbind checked_bind].
  rewrite bool_decide_eq_false_2 by (subst rows; unfold Timestamps.num_blocks, tsBlock; lia).
  rewrite bool_decide_eq_false_2 by lia. cbv zeta. unfold tsHdrStride.
  replace (len data - (8 + Timestamps.num_blocks ts * 28)) with (len (ts_stream 0 ts)) by lia.
  rewrite bool_decide_eq_false_2 by len_lia.
  rewrite (check_checkpoints_at b data off ts i) by (done || lia). cbn [mbind checked_bind].
  by rewrite bool_decide_eq_false_2 by lia.
Qed.

(** The entry of a stored column fits the footer's words. *)
Lemma stored_fits g B c m :
  group_wf g → col_ok (g_Rows g) c → len (c_Name c) ≤ maxNameBytes → len B < 2 ^ 32 → stored g B c m → meta_fits m.
Proof.
  intros Hg Hc Hn HB Hs. destruct Hs as [nm d ts vec dim bloom sec mn mx off Ebl Es w data po do_ Umn Umx Ha
    |nm d ts vec dim data off E Ha|nm d ts vec dim off Ha]; inversion Hc; subst;
    pose proof (at_off_bound _ _ _ Ha) as Hb; cbn [c_Name] in Hn.
  - rewrite !len_app in Hb. len_facts.
    match goal with H : dict_col_wf _ _ |- _ => destruct H as [D1 D2 D3 D4 D5 D6] end.
    destruct (buildDictBloom_spec (Dict d) ltac:(lia)) as (bl' & Ebl' & Lbl & Wbl & _). rewrite Ebl in Ebl'. injection Ebl' as <-.
    assert (1 ≤ w ≤ 32) by (apply bitWidth_range; lia).
    constructor; [|done|split; cbn; unfold ColDict; lia]. constructor; cbn [Width DictLen MinIdx MaxIdx DataOff DataLen PostOff PostLen DictOff DictLen2 Bloom].
    + repeat (apply Forall_cons_2; [first [done|unfold is_digit, po, do_; lia]|]). apply Forall_nil_2.
    + rewrite Lbl. change maxBloomWords with (2 ^ 20). unfold bloomWordsFor, bloomMinWords, bloomBits.
      case_bool_decide; [lia|]. cbv zeta.
      assert ((len (Dict d) * 10 + 63) / 64 < 2 ^ 20) by (apply Z.div_lt_upper_bound; lia). case_bool_decide; lia.
    + done.
  - len_facts. constructor; [|done|split; cbn; unfold ColTimestamp; lia].
    constructor; cbn [Width DictLen MinIdx MaxIdx DataOff DataLen PostOff PostLen DictOff DictLen2 Bloom]; [|done|apply Forall_nil_2].
    repeat (apply Forall_cons_2; [unfold is_digit; lia|]). apply Forall_nil_2.
  - len_facts. constructor; [|done|split; cbn; unfold ColVector; lia].
    constructor; cbn [Width DictLen MinIdx MaxIdx DataOff DataLen PostOff PostLen DictOff DictLen2 Bloom]; [|done|apply Forall_nil_2].
    repeat (apply Forall_cons_2; [unfold is_digit; lia|]). apply Forall_nil_2.
Qed.

(** A stored column passes every check. *)
Lemma stored_checks g B rest c m i :
  group_wf g → col_ok (g_Rows g) c → len B < 2 ^ 32 → stored g B c m →
  check_col (B ++ rest) (g_Rows g) (len B) i m = Good tt.
Proof.
  intros Hg Hc HB Hs. pose proof (gw_rows g Hg) as Hrows.
  destruct Hs as [nm d ts vec dim bloom sec mn mx off Ebl Es w data po do_ Umn Umx Ha
    |nm d ts vec dim data off E Ha|nm d ts vec dim off Ha]; inversion Hc; subst;
    pose proof (at_off_bound _ _ _ Ha) as Hb; unfold check_col; cbn [Width DictLen DataOff DataLen PostOff PostLen DictOff DictLen2 Type_].
  - rewrite !len_app in Hb. len_facts.
    match goal with H : dict_col_wf _ _ |- _ => destruct H as [D1 D2 D3 D4 D5 D6] end.
    rewrite !checkSpan_fits by (unfold po, do_; lia). cbn [mbind checked_bind].
    assert (1 ≤ w ≤ 22) as Hw by (split; [apply bitWidth_range; lia|apply bitWidth_le; lia]).
    rewrite bool_decide_eq_false_2 by lia. apply at_off_app in Ha as [A1 Ha]. apply at_off_app in Ha as [A2 A3].
    destruct (marshalDictSection_layout (Dict d) (g_Compact g) D2 D5) as (sec' & Es' & Hsec). rewrite Es in Es'. injection Es' as <-.
    assert ((if bool_decide (0 < len (Dict d) ∧ 0 < len sec) then
               sec0 ← lift (slice (B ++ rest) do_ (do_ + len sec)); d0 ← lift (parseDictSec sec0);
               Good (bool_decide (numBlocks d0 * dictBlock < len (Dict d))) else Good false) = Good false) as ->.
    { case_bool_decide; [|done]. rewrite (at_off_slice (B ++ rest) sec) by (try done; by apply at_off_app_l).
      cbn [lift]. cbn [mbind checked_bind]. destruct (Hsec ltac:(lia)) as [_ (dd & Ed & _ & Hnb & _) _]. rewrite Ed.
      cbn [lift]. cbn [mbind checked_bind]. f_equal. apply bool_decide_eq_false_2. rewrite Hnb. unfold num_blocks, dictBlock.
      pose proof (Z_div_mod_eq_full (len (Dict d) + 63) 64). pose proof (Z.mod_pos_bound (len (Dict d) + 63) 64). lia. }
    cbn [mbind checked_bind]. change maxGroupRows with (2 ^ 30). rewrite bool_decide_eq_false_2 by lia.
    rewrite (bool_decide_eq_false_2 (ColDict = ColTimestamp)) by (unfold ColDict, ColTimestamp; lia). cbn [mbind checked_bind].
    rewrite (bool_decide_eq_true_2 (ColDict = ColDict ∧ 0 < w)) by (split; [done|lia]).
    assert (g_Rows g * w ≤ 2 ^ 24 * 22) by nia.
    rewrite bool_decide_eq_false_2.
    2:{ rewrite Z.quot_div_nonneg by lia. assert (g_Rows g ≤ 2 ^ 30 / w) by (apply Z.div_le_lower_bound; lia). lia. }
    cbv zeta. rewrite Z.quot_div_nonneg by nia. rewrite bool_decide_eq_false_2; [done|].
    destruct (decide (Indices d = [])) as [En|Hne].
    + assert (g_Rows g = 0) as -> by (rewrite <- D1, En; done). rewrite Z.mul_0_l. change ((0 + 31) / 32 * 4 + 4) with 4.
      assert (16 ≤ len sec); [|lia]. unfold marshalDictSection in Es.
      match type of Es with mbind _ ?m = _ => destruct m as [st|] end; [|done]. rewrite bind_Ok in Es. cbv zeta in Es.
      apply (f_equal (λ o, match o with Ok s => len s | Panic => 0 end)) in Es. rewrite <- Es, !len_app, !len_le32. len_lia.
    + assert (len data = ((g_Rows g * w + 31) / 32 + 1) * 4) as Ld.
      { unfold data. rewrite encodeIndices_len; [by rewrite D1|lia| |done].
        eapply Forall_impl; [exact D6|]. intros x Hx. apply bitWidth_spec; (done || lia). }
      lia.
  - len_facts. rewrite !checkSpan_fits by lia. cbn [mbind checked_bind]. change maxGroupRows with (2 ^ 30).
    rewrite (bool_decide_eq_false_2 (0 < 0 ∨ 32 < 0)), (bool_decide_eq_false_2 (0 < 0 ∧ 0 < 0)) by lia.
    cbn [mbind checked_bind]. rewrite (bool_decide_eq_false_2 (0 < 0 ∨ _)), (bool_decide_eq_true_2 (ColTimestamp = _)) by (done || lia).
    rewrite (check_ts_at _ off (g_Rows g) i nm ts data) by (try done; try lia; by apply at_off_app_l).
    cbn [mbind checked_bind]. by rewrite bool_decide_eq_false_2 by (unfold ColDict, ColTimestamp; lia).
  - len_facts. rewrite !checkSpan_fits by lia. cbn [mbind checked_bind]. change maxGroupRows with (2 ^ 30).
    rewrite (bool_decide_eq_false_2 (dim < 0 ∨ 32 < dim)), (bool_decide_eq_false_2 (0 < 0 ∧ 0 < 0)) by lia.
    cbn [mbind checked_bind]. rewrite (bool_decide_eq_false_2 (0 < 0 ∨ _)) by lia.
    rewrite (bool_decide_eq_false_2 (ColVector = _)) by (unfold ColVector, ColTimestamp; lia). cbn [mbind checked_bind].
    by rewrite bool_decide_eq_false_2 by (unfold ColDict, ColVector; lia).
Qed.

Lemma read_cols_at b f rows dataEnd ms : ∀ i at_,
  at_off f at_ (List.flat_map meta_bytes ms) → Forall meta_fits ms →
  Forall (λ m, ∀ i, check_col b rows dataEnd i m = Good tt) ms →
  read_cols (length ms) i b rows dataEnd (Cursor f at_ None) = Good ms.
Proof.
  induction ms as [|m ms IH]; intros i at_ Ha Hf Hc; cbn [length read_cols List.flat_map] in *; [done|].
  apply Forall_cons_1 in Hf as [Hm Hf]. apply Forall_cons_1 in Hc as [Hk Hc]. apply at_off_app in Ha as [A1 A2].
  rewrite (read_meta_at f at_ i m) by done. cbn [mbind checked_bind]. rewrite Hk. cbn [mbind checked_bind].
  by rewrite IH.
Qed.

(** What the reader of a marshalled group finds. *)
Record reader_of (g : Group) (r : Reader) : Prop := {
  ro_rows : r_Rows r = g_Rows g;
  ro_bytes : is_bytes (r_blob r);
  ro_size : len (r_blob r) < 2 ^ 32;
  ro_cols : Forall2 (stored g (r_blob r)) (g_Columns g) (r_cols r);
  ro_time : 0 < g_Rows g → time_ok (g_Columns g) (r_TimeMin r) (r_TimeMax r) }.

Lemma meta_bytes_bytes m : is_bytes (Name m) → is_bytes (meta_bytes m).
Proof.
  intros Hn. unfold meta_bytes, appStr. repeat apply Forall_app_2; try apply le32_bytes; try done.
  - apply Forall_cons_2; [|apply Forall_nil_2]. apply Z.mod_pos_bound. lia.
  - apply flat_map_bytes, le64_bytes.
Qed.
Lemma stored_name g b c m : stored g b c m → Name m = c_Name c ∧ Type_ m = c_Type c.
Proof. by destruct 1. Qed.
Lemma stored_backs g b c m rows : col_ok rows c → stored g b c m → c_Type c ≠ ColVector → backs_rows m = true.
Proof.
  intros Hc Hs Hv. apply bool_decide_eq_true_2. destruct Hs; cbn in *; [|by left|done].
  right. split; [done|]. inversion Hc; subst. match goal with H : dict_col_wf _ _ |- _ => destruct H as [_ _ _ D4 _ _] end.
  pose proof (bitWidth_range (len (Dict d)) ltac:(lia)). lia.
Qed.

(** The common body, parsed: the footer yields the entries, each of which
    passes. *)
Lemma readGroup_at g B foot rest ms tmin tmax :
  group_wf g → Forall2 (stored g B) (g_Columns g) ms → is_i64 tmin → is_i64 tmax →
  foot = le64 (u64 tmin) ++ le64 (u64 tmax) ++ List.flat_map meta_bytes ms →
  let b := B ++ foot ++ rest in
  len rest = 8 → 16 ≤ len B → len b < 2 ^ 32 →
  get32 b 8 = Ok (g_Rows g) → get32 b 12 = Ok (len (g_Columns g)) →
  readGroup b (le32 (len foot)) true = Good (MkReader b (g_Rows g) tmin tmax ms).
Proof.
  intros Hg Hst Hmin Hmax Ef b Lr LB Hlen G8 G12. pose proof (gw_rows g Hg) as Hrows. pose proof (gw_ncol g Hg) as Hncol.
  change maxGroupColumns with 65536 in *.
  assert (length ms = length (g_Columns g)) as Lms by (symmetry; by eapply Forall2_length).
  assert (len b = len B + len foot + 8) as Lb by (unfold b; rewrite !len_app; lia).
  assert (16 ≤ len foot) as Lf by (rewrite Ef; len_lia). len_facts.
  unfold readGroup. rewrite G8, G12. cbn [lift]. cbn [mbind checked_bind]. change maxGroupRows with (2 ^ 30).
  change maxGroupColumns with 65536. rewrite !(bool_decide_eq_false_2 (_ < 0 ∨ _)) by lia.
  rewrite (get32_at (le32 (len foot)) 0 (len foot)) by apply at_off_refl. cbn [lift]. cbn [mbind checked_bind].
  rewrite u32_small by (unfold is_digit; lia). rewrite bool_decide_eq_false_2 by lia. cbv zeta.
  replace (len b - 8 - len foot) with (len B) by lia. replace (len b - 8) with (len B + len foot) by lia.
  rewrite (at_off_slice b foot) by (try done; by exists B, rest). cbn [lift]. cbn [mbind checked_bind].
  pose proof (at_off_refl foot) as Hft. rewrite Ef in Hft at 2. apply at_off_app in Hft as [F0 Hft].
  apply at_off_app in Hft as [F1 F2]. rewrite !len_le64 in *.
  rewrite (cur_u64_at foot 0 (u64 tmin)) by (try done; apply u64_range). cbn [lift]. cbn [mbind checked_bind].
  rewrite (cur_u64_at foot (0 + 8) (u64 tmax)) by (try done; apply u64_range). cbn [lift]. cbn [mbind checked_bind].
  replace (Z.to_nat (len (g_Columns g))) with (length ms) by (unfold len; lia).
  assert (Forall2 (λ c m, col_ok (g_Rows g) c ∧ len (c_Name c) ≤ maxNameBytes ∧ stored g B c m) (g_Columns g) ms) as Hall.
  { pose proof (gw_names g Hg) as Hn. pose proof (gw_cols g Hg) as Hc. clear -Hst Hn Hc.
    induction Hst as [|c m cs ms Hs Hst IH]; constructor; [|apply IH]; apply Forall_cons_1 in Hn as [[_ ?] ?]; apply Forall_cons_1 in Hc as [? ?]; done. }
  assert (∀ m, m ∈ ms → ∃ c, col_ok (g_Rows g) c ∧ len (c_Name c) ≤ maxNameBytes ∧ stored g B c m) as Hm_c.
  { intros m [j Hj]%list_elem_of_lookup. destruct (Forall2_lookup_r _ _ _ _ _ Hall Hj) as (c & _ & Hcm). by exists c. }
  rewrite (read_cols_at b foot (g_Rows g) (len B) ms 0 (0 + 8 + 8)); [|done| |].
  2:{ apply Forall_forall. intros m (c & Hco & Hna & Hs)%Hm_c. apply (stored_fits g B c m); (done || lia). }
  2:{ apply Forall_forall. intros m (c & Hco & Hna & Hs)%Hm_c i. apply (stored_checks g B (foot ++ rest) c m); (done || lia). }
  cbn [mbind checked_bind]. rewrite !i64_u64, !i64_small by done.
  assert (bool_decide (0 < g_Rows g) && negb (existsb backs_rows ms) = false) as ->; [|done].
  case_bool_decide as Hp; [|done]. simpl. apply negb_false_iff.
  pose proof (gw_backed g Hg Hp) as Hex. apply Exists_exists in Hex as (c & Hin & Hv).
  apply list_elem_of_lookup in Hin as [j Hj]. destruct (Forall2_lookup_l _ _ _ _ _ Hall Hj) as (m & Hm & Hco & _ & Hs).
  apply existsb_exists. exists m. split; [|by eapply stored_backs].
  apply list_elem_of_lookup_2 in Hm. first [done | by apply list_elem_of_In].
Qed.

Lemma footer_bytes g B ms tmin tmax :
  group_wf g → Forall2 (stored g B) (g_Columns g) ms →
  is_bytes (le64 tmin ++ le64 tmax ++ List.flat_map meta_bytes ms).
Proof.
  intros Hg Hst. repeat apply Forall_app_2; try apply le64_bytes. pose proof (gw_names g Hg) as Hn. clear Hg.
  induction Hst as [|c m cs ms Hs Hst IH]; cbn [List.flat_map]; [apply Forall_nil_2|].
  apply Forall_cons_1 in Hn as [[Hn _] Hns]. apply Forall_app_2; [|by apply IH].
  apply meta_bytes_bytes. by destruct (stored_name _ _ _ _ Hs) as [-> _].
Qed.

(** The parse of a blob with the layout of [Marshal]. *)
Lemma ReadGroup_parts g x ms tmin tmax :
  group_wf g → let B := (le32 magic ++ le32 versionV8 ++ le32 (g_Rows g) ++ le32 (len (g_Columns g))) ++ x in
  Forall2 (stored g B) (g_Columns g) ms → is_bytes x → is_i64 tmin → is_i64 tmax →
  let foot := le64 (u64 tmin) ++ le64 (u64 tmax) ++ List.flat_map meta_bytes ms in
  let body := B ++ foot ++ le32 (len foot) in
  let b := body ++ le32 (Checksum body) in
  len b < 2 ^ 32 → ReadGroup b = Good (MkReader b (g_Rows g) tmin tmax ms) ∧ is_bytes b.
Proof.
  intros Hg B Hst HX Hmin Hmax foot body b Hlen. pose proof (gw_rows g Hg) as Hrows. pose proof (gw_ncol g Hg) as Hncol.
  change maxGroupColumns with 65536 in *. pose proof (footer_bytes g B ms (u64 tmin) (u64 tmax) Hg Hst) as Hfoot. fold foot in Hfoot.
  assert (is_bytes B) as HB by (unfold B; apply Forall_app_2; [|done]; repeat apply Forall_app_2; apply le32_bytes).
  assert (is_bytes body) as Hbody by (apply Forall_app_2; [done|]; apply Forall_app_2; [done|apply le32_bytes]).
  assert (is_bytes b) as Hb by (apply Forall_app_2; [done|apply le32_bytes]).
  split; [|done]. len_facts.
  assert (len b = len B + len foot + 8 ∧ len body = len B + len foot + 4) as [Lb Lbody] by (unfold b, body; rewrite !len_app, !len_le32; lia).
  assert (16 ≤ len B ∧ 16 ≤ len foot) as [LB Lf] by (split; [unfold B|unfold foot]; len_lia).
  assert (at_off b 0 (le32 magic ++ le32 versionV8 ++ le32 (g_Rows g) ++ le32 (len (g_Columns g)))) as Hh.
  { unfold b, body, B. do 3 apply at_off_app_l. apply at_off_refl. }
  apply at_off_app in Hh as [P0 Hh]. apply at_off_app in Hh as [P1 Hh]. apply at_off_app in Hh as [P2 P3].
  rewrite !len_le32 in *. change (0 + 4 + 4 + 4) with 12 in *. change (0 + 4 + 4) with 8 in *. change (0 + 4) with 4 in *.
  assert (b = B ++ foot ++ le32 (len foot) ++ le32 (Checksum body)) as Eb by (unfold b, body; by rewrite <- !app_assoc).
  unfold ReadGroup. rewrite bool_decide_eq_false_2 by lia. rewrite (get32_at _ _ _ P0). cbn [lift]. cbn [mbind checked_bind].
  rewrite bool_decide_eq_false_2 by (by intros []). rewrite (get32_at _ _ _ P1). cbn [lift]. cbn [mbind checked_bind].
  rewrite bool_decide_eq_false_2, bool_decide_eq_true_2 by done. unfold readGroupV8. rewrite bool_decide_eq_false_2 by lia.
  rewrite (at_off_slice b body 0) by (try lia; unfold b; apply at_off_app_l, at_off_refl).
  cbn [lift]. cbn [mbind checked_bind].
  rewrite (get32_at b _ (Checksum body)) by (exists body, []; split; [by rewrite app_nil_r|lia]). cbn [lift]. cbn [mbind checked_bind].
  rewrite (u32_small (Checksum body)) by (by apply Checksum_u32). rewrite bool_decide_eq_false_2 by (by intros []).
  assert (at_off body (len body - 4) (le32 (len foot))) as PL.
  { exists (B ++ foot), []. split; [unfold body; by rewrite app_nil_r, <- app_assoc|rewrite len_app; lia]. }
  unfold slice_from. rewrite (at_off_slice _ _ _ _ PL) by (rewrite len_le32; lia).
  cbn [lift]. cbn [mbind checked_bind]. rewrite Eb in P2, P3, Hlen |- *. apply readGroup_at; try done.
  - by rewrite (get32_at _ _ _ P2), u32_small by (unfold is_digit; lia).
  - by rewrite (get32_at _ _ _ P3), u32_small by (unfold is_digit; lia).
Qed.

Lemma col_ok_complete g : group_wf g → forallb (col_complete (g_Rows g)) (g_Columns g) = true.
Proof.
  intros Hg. apply forallb_forall. intros c Hin. pose proof (gw_cols g Hg) as Hc. rewrite Forall_forall in Hc.
  specialize (Hc c ltac:(first [done|by apply list_elem_of_In])). unfold col_complete.
  destruct Hc as [nm d ts vec dim [D1 _ _ _ _ _]|nm d ts vec dim Hl _|nm d ts vec dim _ _]; cbn [c_Type c_Dict c_Ts].
  - rewrite bool_decide_eq_false_2, bool_decide_eq_true_2 by done. by apply bool_decide_eq_true_2.
  - rewrite bool_decide_eq_true_2 by done. by apply bool_decide_eq_true_2.
  - by rewrite !bool_decide_eq_false_2 by done.
Qed.

Lemma Marshal_spec g :
  group_wf g →
  ∃ b, Marshal g = Ok b ∧ (len b < 2 ^ 32 → ∃ r, ReadGroup b = Good r ∧ r_blob r = b ∧ reader_of g r).
Proof.
  intros Hg. pose proof (gw_rows g Hg) as Hrows. pose proof (gw_ncol g Hg) as Hncol. change maxGroupColumns with 65536 in *.
  unfold Marshal. rewrite col_ok_complete by done. cbn [negb]. len_facts. rewrite !u32_small by (unfold is_digit; lia).
  set (b0 := le32 magic ++ _).
  destruct (marshal_cols_spec g (g_Columns g) (MState b0 [] (2 ^ 63 - 1) (- 2 ^ 63)) []) as (s & x & -> & Eb & Hx & Hst & Ht);
    [done|apply (gw_cols g Hg)|constructor| |].
  { constructor; [unfold is_i64; cbn; lia..|]. intros c t Hin. by apply elem_of_nil in Hin. }
  cbn [ms_b app] in *. rewrite bind_Ok.
  set (tt := if bool_decide (g_Rows g = 0) then (0, 0) else (ms_min s, ms_max s)). destruct tt as [tmin tmax] eqn:Ett.
  assert (is_i64 tmin ∧ is_i64 tmax ∧ (0 < g_Rows g → time_ok (g_Columns g) tmin tmax)) as (Hmin & Hmax & Htime).
  { unfold tt in Ett. case_bool_decide; injection Ett as <- <-; [split_and!; [unfold is_i64; lia..|lia]|].
    split_and!; [apply (to_lo _ _ _ Ht)|apply (to_hi _ _ _ Ht)|done]. }
  eexists. split; [done|]. rewrite Eb. set (foot := le64 (u64 tmin) ++ _).
  replace (len ((b0 ++ x) ++ foot) - len (b0 ++ x)) with (len foot) by (rewrite (len_app (b0 ++ x)); lia).
  rewrite <- (app_assoc (b0 ++ x) foot). intros Hlen.
  assert (len foot < 2 ^ 32 ∧ len x < 2 ^ 32) as [Hlf Hlx].
  { rewrite !len_app in Hlen. len_facts. rewrite !len_le32 in *. lia. }
  len_facts. rewrite (u32_small (len foot)) in Hlen |- * by (unfold is_digit; lia). rewrite Eb in Hst.
  destruct (ReadGroup_parts g x (ms_metas s) tmin tmax Hg Hst (Hx Hlx) Hmin Hmax Hlen) as [Er Hb].
  eexists. split; [exact Er|]. split; [done|]. constructor; cbn [r_Rows r_blob r_cols r_TimeMin r_TimeMax]; try done.
  eapply Forall2_impl; [exact Hst|]. intros c m Hs. do 2 apply stored_app. done.
Qed.

(** Any group the format can hold is marshalled without a panic, and the
    blob is accepted: the reader has the group's rows, its time bounds cover
    every timestamp, and each column's data, postings, dictionary section and
    bloom are exactly what was written, at the spans its entry names. *)
Theorem ReadGroup_Marshal g :
  group_wf g →
  ∃ b, Marshal g = Ok b ∧ (len b < 2 ^ 32 → ∃ r, ReadGroup b = Good r ∧ r_blob r = b ∧ reader_of g r).
Proof. apply Marshal_spec. Qed.
End layout.
