(* ===== verification/Bitset.v ===== *)
(** * Row bitsets

    [internal/query/bitset.go]: one bit per row of a group, in 64-bit words. A
    filter is a set of rows; [rows_in] reads the set off the words in row order,
    and every operation is characterised by it. *)

From S2P Require Import Prelude Digits.
From stdpp Require Import list numbers sorting.
Local Open Scope Z_scope.

(** ** Definitions *)

(** [math/bits] on a [uint64]. *)
Definition set_bits (w : Z) : list Z := filter (λ i, Z.testbit w i = true) (seqZ 0 64).
Definition OnesCount64 (w : Z) : Z := len (set_bits w).
Definition TrailingZeros64 (w : Z) : Z := default 64 (head (set_bits w)).
Definition LeadingZeros64 (w : Z) : Z := match last (set_bits w) with Some i => 63 - i | None => 64 end.

Record Bitset := MkBitset { words : list Z; bs_n : Z }.

(** [make] panics on a negative length; [n] is a row count. *)
Definition NewBitset (k : Z) : Bitset := MkBitset (replicate (Z.to_nat (Z.quot (k + 63) 64)) 0) k.

Definition SetAll (b : Bitset) : outcome Bitset :=
  let ws := replicate (length (words b)) (2 ^ 64 - 1) in
  let r := Z.land (bs_n b) 63 in
  if bool_decide (r ≠ 0) then
    ws ← store ws (len ws - 1) (u64 (Z.shiftl 1 r) - 1); Ok (MkBitset ws (bs_n b))
  else Ok (MkBitset ws (bs_n b)).

(** [i >> 6] and [i & 63]; the shift of the untyped [1] is at [uint64]. *)
Definition Set_ (b : Bitset) (i : Z) : outcome Bitset :=
  w ← index (words b) (Z.shiftr i 6);
  ws ← store (words b) (Z.shiftr i 6) (Z.lor w (u64 (Z.shiftl 1 (Z.land i 63))));
  Ok (MkBitset ws (bs_n b)).
Definition Test (b : Bitset) (i : Z) : outcome bool :=
  w ← index (words b) (Z.shiftr i 6);
  Ok (negb (bool_decide (Z.land w (u64 (Z.shiftl 1 (Z.land i 63))) = 0))).

(** [for need := n - seen; need > 0; need-- { ... }] of [KeepFirst]. *)
Fixpoint keep_low (need : nat) (w keep : Z) : Z :=
  match need with
  | O => keep
  | S need' => let lsb := Z.land w (u64 (- w)) in keep_low need' (Z.ldiff w lsb) (Z.lor keep lsb)
  end.
Fixpoint keep_first (k seen : Z) (ws : list Z) : list Z :=
  match ws with
  | [] => []
  | w :: ws' =>
      if bool_decide (w = 0) then w :: keep_first k seen ws' else
      let c := OnesCount64 w in
      if bool_decide (seen + c ≤ k) then w :: keep_first k (seen + c) ws'
      else keep_low (Z.to_nat (k - seen)) w 0 :: replicate (length ws') 0
  end.
Definition KeepFirst (b : Bitset) (k : Z) : Bitset :=
  MkBitset (if bool_decide (k ≤ 0) then replicate (length (words b)) 0 else keep_first k 0 (words b)) (bs_n b).

Fixpoint keep_high (need : nat) (w keep : Z) : Z :=
  match need with
  | O => keep
  | S need' => let msb := u64 (Z.shiftl 1 (63 - LeadingZeros64 w)) in keep_high need' (Z.ldiff w msb) (Z.lor keep msb)
  end.
(** The words in the order [KeepLast] visits them: from the last. *)
Fixpoint keep_last (k seen : Z) (ws : list Z) : list Z :=
  match ws with
  | [] => []
  | w :: ws' =>
      if bool_decide (w = 0) then w :: keep_last k seen ws' else
      let c := OnesCount64 w in
      if bool_decide (seen + c ≤ k) then w :: keep_last k (seen + c) ws'
      else keep_high (Z.to_nat (k - seen)) w 0 :: replicate (length ws') 0
  end.
Definition KeepLast (b : Bitset) (k : Z) : Bitset :=
  MkBitset (if bool_decide (k ≤ 0) then replicate (length (words b)) 0 else rev (keep_last k 0 (rev (words b)))) (bs_n b).

Fixpoint first_last (ws : list Z) (wi first last_ : Z) : Z * Z :=
  match ws with
  | [] => (first, last_)
  | w :: ws' =>
      if bool_decide (w = 0) then first_last ws' (wi + 1) first last_ else
      first_last ws' (wi + 1)
        (if bool_decide (first < 0) then Z.shiftl wi 6 + TrailingZeros64 w else first)
        (Z.shiftl wi 6 + 63 - LeadingZeros64 w)
  end.
Definition FirstLast (b : Bitset) : Z * Z := first_last (words b) 0 (-1) (-1).

Definition Count (b : Bitset) : Z := fold_left (λ total w, total + OnesCount64 w) (words b) 0.

(** The rows [fn] is called with, in order. The inner loop clears a bit per
    round, so 64 rounds are enough. *)
Fixpoint each_bit (fuel : nat) (base w : Z) : list Z :=
  match fuel with
  | O => []
  | S fuel' => if bool_decide (w = 0) then [] else (base + TrailingZeros64 w) :: each_bit fuel' base (Z.land w (w - 1))
  end.
Fixpoint for_each (ws : list Z) (wi : Z) : list Z :=
  match ws with [] => [] | w :: ws' => each_bit 64 (Z.shiftl wi 6) w ++ for_each ws' (wi + 1) end.
Definition ForEach (b : Bitset) : list Z := for_each (words b) 0.

(** The kernels [And], [Or] and [AndNot] come from: byte-wise, in place, on
    slices of one length. *)
Class BitOps := { simd_And : bytes → bytes → bytes; simd_Or : bytes → bytes → bytes; simd_AndNot : bytes → bytes → bytes }.
Class BitOpsLaws (B : BitOps) : Prop := {
  And_law x y : len x = len y → simd_And x y = zip_with Z.land x y;
  Or_law x y : len x = len y → simd_Or x y = zip_with Z.lor x y;
  AndNot_law x y : len x = len y → simd_AndNot x y = zip_with Z.ldiff x y }.

(** [bytes]: the words in memory, little-endian. *)
Definition bitset_bytes (b : Bitset) : bytes := List.flat_map le64 (words b).
(** The words the same memory holds. *)
Fixpoint words_of (k : nat) (m : bytes) : list Z :=
  match k with O => [] | S k' => undigits 8 (take 8 m) :: words_of k' (drop 8 m) end.
Definition via_bytes (op : bytes → bytes → bytes) (b o : Bitset) : Bitset :=
  MkBitset (words_of (length (words b)) (op (bitset_bytes b) (bitset_bytes o))) (bs_n b).
Definition And {B : BitOps} : Bitset → Bitset → Bitset := via_bytes simd_And.
Definition Or {B : BitOps} : Bitset → Bitset → Bitset := via_bytes simd_Or.
Definition AndNot {B : BitOps} : Bitset → Bitset → Bitset := via_bytes simd_AndNot.

Definition bytesForPack (b : Bitset) : outcome bytes := slice (bitset_bytes b) 0 (Z.quot (bs_n b + 7) 8).

(** ** Sorted lists of integers *)

Lemma sorted_ext (l1 l2 : list Z) :
  StronglySorted Z.lt l1 → StronglySorted Z.lt l2 → (∀ i, i ∈ l1 ↔ i ∈ l2) → l1 = l2.
Proof.
  intros H1. revert l2. induction H1 as [|x l1 H1 IH Hx]; intros [|y l2] H2 Heq.
  - done.
  - exfalso. assert (y ∈ @nil Z) as ?%elem_of_nil by (apply Heq; by left). done.
  - exfalso. assert (x ∈ @nil Z) as ?%elem_of_nil by (apply Heq; by left). done.
  - apply StronglySorted_cons in H2 as [Hy H2]. rewrite Forall_forall in Hx, Hy.
    assert (x = y) as ->.
    { assert (x ∈ y :: l2) as Hxy by (apply Heq; by left). assert (y ∈ x :: l1) as Hyx by (apply Heq; by left).
      apply elem_of_cons in Hxy as [?|Hxy]; [done|]. apply elem_of_cons in Hyx as [?|Hyx]; [done|].
      pose proof (Hx _ Hyx). pose proof (Hy _ Hxy). lia. }
    f_equal. apply IH; [done|]. intros i. split; intros Hi.
    + assert (i ∈ y :: l2) as [-> |?]%elem_of_cons by (apply Heq; by right); [|done]. exfalso. pose proof (Hx _ Hi). lia.
    + assert (i ∈ y :: l1) as [-> |?]%elem_of_cons by (apply Heq; by right); [|done]. exfalso. pose proof (Hy _ Hi). lia.
Qed.

Lemma sorted_filter (P : Z → Prop) `{∀ i, Decision (P i)} l :
  StronglySorted Z.lt l → StronglySorted Z.lt (filter P l).
Proof.
  induction 1 as [|x l Hl IH Hx]; [constructor|]. rewrite filter_cons. case_decide; [|done]. constructor; [done|].
  rewrite Forall_forall in Hx |- *. intros y [_ Hy]%list_elem_of_filter. by apply Hx.
Qed.
Lemma sorted_seqZ m k : StronglySorted Z.lt (seqZ m k).
Proof.
  unfold seqZ. generalize (Z.to_nat k). intros j. apply (StronglySorted_fmap _ lt); [lia|].
  generalize 0%nat. induction j as [|j IH]; intros s; simpl; constructor; [apply IH|].
  apply Forall_forall. intros x Hx%elem_of_seq. lia.
Qed.

(** ** One word *)

Definition is_word (w : Z) : Prop := 0 ≤ w < 2 ^ 64.

Lemma elem_set_bits w i : i ∈ set_bits w ↔ 0 ≤ i < 64 ∧ Z.testbit w i = true.
Proof. unfold set_bits. rewrite list_elem_of_filter, elem_of_seqZ. replace (0 + 64) with 64 by lia. tauto. Qed.
Lemma set_bits_sorted w : StronglySorted Z.lt (set_bits w).
Proof. apply sorted_filter, sorted_seqZ. Qed.
Lemma testbit_high w i : is_word w → 64 ≤ i → Z.testbit w i = false.
Proof. intros Hw Hi. rewrite <- (Z.mod_small w (2 ^ 64)) by done. apply Z.mod_pow2_bits_high. lia. Qed.
Lemma set_bits_nil w : is_word w → set_bits w = [] ↔ w = 0.
Proof.
  intros Hw. split; [|by intros ->]. intros E. apply Z.bits_inj. intros i. rewrite Z.bits_0.
  destruct (decide (0 ≤ i < 64)) as [Hi|Hi].
  - destruct (Z.testbit w i) eqn:Et; [|done]. exfalso. assert (i ∈ set_bits w) as Hin by (by apply elem_set_bits).
    rewrite E in Hin. by apply elem_of_nil in Hin.
  - destruct (decide (i < 0)); [by apply Z.testbit_neg_r|]. apply testbit_high; [done|lia].
Qed.

(** The bits of a word cut at [t]: [w = 2^(t+1) * q + 2^t] when [t] is its lowest. *)
Lemma lowest_bit w t rest :
  is_word w → set_bits w = t :: rest → 0 ≤ t < 64 ∧ w mod 2 ^ (t + 1) = 2 ^ t.
Proof.
  intros Hw E. assert (t ∈ set_bits w) as Ht by (rewrite E; by left). apply elem_set_bits in Ht as [Ht Hb]. split; [done|].
  pose proof (set_bits_sorted w) as Hs. rewrite E in Hs. apply StronglySorted_cons in Hs as [Hmin _]. rewrite Forall_forall in Hmin.
  apply Z.bits_inj'. intros i Hi. rewrite Z.pow2_bits_eqb by lia. destruct (decide (i < t + 1)) as [Hlt|Hge].
  - rewrite Z.mod_pow2_bits_low by lia. destruct (Z.eqb_spec t i) as [-> |Hne]; [done|].
    destruct (Z.testbit w i) eqn:Ei; [|done]. exfalso. assert (i ∈ set_bits w) as Hin by (apply elem_set_bits; split; [lia|done]).
    rewrite E in Hin. apply elem_of_cons in Hin as [?|Hin]; [lia|]. apply Hmin in Hin. lia.
  - rewrite Z.mod_pow2_bits_high by lia. symmetry. apply Z.eqb_neq. lia.
Qed.

Lemma pred_bits w t i :
  0 ≤ t → w mod 2 ^ (t + 1) = 2 ^ t → 0 ≤ i →
  Z.testbit (w - 1) i = if bool_decide (i < t) then true else if bool_decide (i = t) then false else Z.testbit w i.
Proof.
  intros Ht Hm Hi. assert (2 ^ (t + 1) = 2 * 2 ^ t) as E2 by (rewrite Z.pow_add_r by lia; lia).
  assert (0 < 2 ^ t) as Hp by (apply Z.pow_pos_nonneg; lia).
  set (q := w / 2 ^ (t + 1)). assert (w = 2 ^ (t + 1) * q + 2 ^ t) as Ew by (rewrite <- Hm; apply Z.div_mod; lia).
  assert ((w - 1) mod 2 ^ (t + 1) = 2 ^ t - 1 ∧ (w - 1) / 2 ^ (t + 1) = q) as [Em Ed].
  { split; [symmetry; apply (Z.mod_unique _ _ q)|symmetry; apply (Z.div_unique _ _ _ (2 ^ t - 1))]; lia. }
  destruct (decide (i < t + 1)) as [Hlt|Hge].
  - rewrite <- (Z.mod_pow2_bits_low (w - 1) (t + 1) i) by lia. rewrite Em. replace (2 ^ t - 1) with (Z.ones t) by (rewrite Z.ones_equiv; lia).
    case_bool_decide; [apply Z.ones_spec_low; lia|]. rewrite bool_decide_eq_true_2 by lia. apply Z.ones_spec_high. lia.
  - rewrite !bool_decide_eq_false_2 by lia. replace i with ((i - (t + 1)) + (t + 1)) by lia.
    rewrite <- !Z.div_pow2_bits by lia. by rewrite Ed.
Qed.

(** A word is known by the list of its bits. *)
Lemma set_bits_is w l :
  StronglySorted Z.lt l → (∀ i, i ∈ l ↔ 0 ≤ i < 64 ∧ Z.testbit w i = true) → set_bits w = l.
Proof. intros Hs Hl. apply sorted_ext; [apply set_bits_sorted|done|]. intros i. by rewrite elem_set_bits, Hl. Qed.

Lemma word_bits w : 0 ≤ w → (∀ i, 64 ≤ i → Z.testbit w i = false) → is_word w.
Proof.
  intros H0 Hb. split; [done|]. destruct (decide (w = 0)) as [-> |Hne]; [done|]. apply Z.log2_lt_pow2; [lia|].
  destruct (decide (Z.log2 w < 64)) as [?|Hge]; [done|]. exfalso. pose proof (Z.bit_log2 w ltac:(lia)) as Hl.
  rewrite Hb in Hl by lia. done.
Qed.

(** Any set bit of a word taken out. *)
Lemma clear_bit w t :
  is_word w → 0 ≤ t →
  is_word (Z.ldiff w (2 ^ t)) ∧ set_bits (Z.ldiff w (2 ^ t)) = filter (λ i, i ≠ t) (set_bits w).
Proof.
  intros Hw Ht. assert (∀ i, 0 ≤ i → Z.testbit (Z.ldiff w (2 ^ t)) i = Z.testbit w i && negb (i =? t)) as Hb.
  { intros i Hi. by rewrite Z.ldiff_spec, Z.pow2_bits_eqb, (Z.eqb_sym i t) by lia. }
  split.
  - apply word_bits; [apply Z.ldiff_nonneg; left; apply Hw|]. intros i Hi. rewrite Hb by lia. by rewrite testbit_high.
  - apply set_bits_is; [apply sorted_filter, set_bits_sorted|]. intros i.
    rewrite list_elem_of_filter, elem_set_bits. split.
    + intros (Hne & Hi & Hbit). split; [done|]. rewrite Hb, Hbit by lia. cbn. by apply negb_true_iff, Z.eqb_neq.
    + intros [Hi Hbit]. rewrite Hb in Hbit by lia. apply andb_true_iff in Hbit as [H1 H2]. apply negb_true_iff, Z.eqb_neq in H2. done.
Qed.

Lemma lor_bit w t :
  is_word w → 0 ≤ t < 64 → is_word (Z.lor w (2 ^ t)) ∧ ∀ i, i ∈ set_bits (Z.lor w (2 ^ t)) ↔ i ∈ set_bits w ∨ i = t.
Proof.
  intros Hw Ht. assert (∀ i, 0 ≤ i → Z.testbit (Z.lor w (2 ^ t)) i = Z.testbit w i || (t =? i)) as Hb.
  { intros i Hi. by rewrite Z.lor_spec, Z.pow2_bits_eqb by lia. }
  split.
  - apply word_bits; [apply Z.lor_nonneg; split; [apply Hw|apply Z.pow_nonneg; lia]|]. intros i Hi. rewrite Hb, testbit_high by (done || lia).
    cbn. apply Z.eqb_neq. lia.
  - intros i. rewrite !elem_set_bits. split.
    + intros [Hi Hbit]. rewrite Hb in Hbit by lia. apply orb_true_iff in Hbit as [?|?%Z.eqb_eq]; [by left|right; lia].
    + intros [[Hi Hbit]| ->]; (split; [done|]); rewrite Hb by lia; [by rewrite Hbit|]. by rewrite Z.eqb_refl, orb_true_r.
Qed.

Lemma filter_ne_sorted (t : Z) (l : list Z) : t ∉ l → filter (λ i, i ≠ t) l = l.
Proof.
  induction l as [|x l IH]; [done|]. intros [Hne Hn]%not_elem_of_cons. rewrite filter_cons_True by congruence. by rewrite IH.
Qed.
Lemma sorted_head_notin (t : Z) rest : StronglySorted Z.lt (t :: rest) → t ∉ rest.
Proof. intros [Hx _]%StronglySorted_cons Hin. rewrite Forall_forall in Hx. apply Hx in Hin. lia. Qed.
Lemma sorted_last_notin (t : Z) l : StronglySorted Z.lt (l ++ [t]) → t ∉ l.
Proof. intros Hs Hin. pose proof (StronglySorted_app_1_elem_of _ _ _ _ t Hs Hin ltac:(by left)). lia. Qed.

(** [w & -w] is the lowest bit, and [w &= w - 1] takes it out. *)
Lemma low_step w t rest :
  is_word w → set_bits w = t :: rest →
  Z.land w (u64 (- w)) = 2 ^ t ∧ Z.land w (w - 1) = Z.ldiff w (2 ^ t) ∧ 0 ≤ t.
Proof.
  intros Hw E. destruct (lowest_bit w t rest Hw E) as [Ht Hm].
  assert (Z.testbit w t = true) as Hbt by (assert (t ∈ set_bits w) as ?%elem_set_bits by (rewrite E; by left); tauto).
  assert (∀ i, 0 ≤ i < t → Z.testbit w i = false) as Hlow.
  { intros i Hi. rewrite <- (Z.mod_pow2_bits_low w (t + 1) i), Hm, Z.pow2_bits_eqb by lia. apply Z.eqb_neq. lia. }
  assert (∀ i, 0 ≤ i → Z.testbit (w - 1) i = if bool_decide (i < t) then true else if bool_decide (i = t) then false else Z.testbit w i) as Hp.
  { intros i Hi. apply pred_bits; (done || lia). }
  split_and!; [| |lia]; apply Z.bits_inj'; intros i Hi; rewrite ?Z.ldiff_spec, Z.land_spec, Z.pow2_bits_eqb by lia.
  - destruct (decide (i < 64)) as [Hlt|Hge].
    + unfold u64. rewrite Z.mod_pow2_bits_low by lia. replace (- w) with (Z.lnot (w - 1)) by (unfold Z.lnot; lia).
      rewrite Z.lnot_spec, Hp by lia. destruct (Z.eqb_spec t i) as [-> |Hne].
      * rewrite (bool_decide_eq_false_2 (i < i)), bool_decide_eq_true_2 by lia. by rewrite Hbt.
      * case_bool_decide; [by rewrite andb_false_r|]. rewrite bool_decide_eq_false_2 by lia. by destruct (Z.testbit w i).
    + rewrite testbit_high by (done || lia). symmetry. apply Z.eqb_neq. lia.
  - rewrite Hp by lia. destruct (Z.eqb_spec t i) as [-> |Hne].
    + rewrite (bool_decide_eq_false_2 (i < i)), bool_decide_eq_true_2 by lia. by rewrite !andb_false_r.
    + case_bool_decide; [by rewrite Hlow by lia|]. rewrite bool_decide_eq_false_2 by lia. by destruct (Z.testbit w i).
Qed.

(** [1 << (63 - LeadingZeros64(w))] is the highest bit. *)
Lemma high_step w t rest :
  set_bits w = rest ++ [t] → u64 (Z.shiftl 1 (63 - LeadingZeros64 w)) = 2 ^ t ∧ 0 ≤ t < 64.
Proof.
  intros E. assert (t ∈ set_bits w) as [Ht _]%elem_set_bits by (rewrite E; apply elem_of_app; right; by left).
  split; [|done]. unfold LeadingZeros64. rewrite E, last_snoc. replace (63 - (63 - t)) with t by lia.
  rewrite Z.shiftl_mul_pow2, Z.mul_1_l by lia. apply Z.mod_small. split; [lia|]. apply Z.pow_lt_mono_r; lia.
Qed.

Lemma each_bit_spec fuel : ∀ base w,
  is_word w → (length (set_bits w) ≤ fuel)%nat → each_bit fuel base w = Z.add base <$> set_bits w.
Proof.
  induction fuel as [|fuel IH]; intros base w Hw Hl; cbn [each_bit].
  { destruct (set_bits w); [done|simpl in Hl; lia]. }
  case_bool_decide as H0; [by rewrite H0|].
  destruct (set_bits w) as [|t rest] eqn:E; [by apply set_bits_nil in E|].
  destruct (low_step w t rest Hw E) as (_ & -> & Ht). destruct (clear_bit w t Hw Ht) as [Hw' E'].
  assert (set_bits (Z.ldiff w (2 ^ t)) = rest) as Er.
  { rewrite E', E. rewrite filter_cons_False by (intros H; by apply H). apply filter_ne_sorted, sorted_head_notin. rewrite <- E. apply set_bits_sorted. }
  rewrite IH, Er by (try done; rewrite Er; simpl in Hl; lia). unfold TrailingZeros64. by rewrite E.
Qed.

Lemma keep_low_spec need : ∀ w keep,
  is_word w → is_word keep → (need ≤ length (set_bits w))%nat →
  is_word (keep_low need w keep) ∧
  ∀ i, i ∈ set_bits (keep_low need w keep) ↔ i ∈ set_bits keep ∨ i ∈ take need (set_bits w).
Proof.
  induction need as [|need IH]; intros w keep Hw Hk Hn; cbn [keep_low].
  { split; [done|]. intros i. rewrite take_0. split; [tauto|]. by intros [?|?%elem_of_nil]. }
  destruct (set_bits w) as [|t rest] eqn:E; [simpl in Hn; lia|].
  destruct (low_step w t rest Hw E) as (-> & _ & Ht). destruct (clear_bit w t Hw Ht) as [Hw' E'].
  assert (set_bits (Z.ldiff w (2 ^ t)) = rest) as Er.
  { rewrite E', E. rewrite filter_cons_False by (intros H; by apply H). apply filter_ne_sorted, sorted_head_notin. rewrite <- E. apply set_bits_sorted. }
  assert (t < 64) as Ht64 by (assert (t ∈ set_bits w) as [? _]%elem_set_bits by (rewrite E; by left); lia).
  destruct (lor_bit keep t Hk (conj Ht Ht64)) as [Hk' Ek].
  destruct (IH (Z.ldiff w (2 ^ t)) (Z.lor keep (2 ^ t))) as [H1 H2]; [done|done|rewrite Er; simpl in Hn; lia|].
  split; [done|]. intros i. rewrite H2, Er, Ek. cbn [take]. rewrite elem_of_cons. tauto.
Qed.

Lemma set_bits_clear_last w t rest :
  is_word w → 0 ≤ t → set_bits w = rest ++ [t] → set_bits (Z.ldiff w (2 ^ t)) = rest.
Proof.
  intros Hw Ht E. destruct (clear_bit w t Hw Ht) as [_ ->]. rewrite E, filter_app.
  assert (t ∉ rest) as Hn by (apply sorted_last_notin; rewrite <- E; apply set_bits_sorted).
  rewrite filter_ne_sorted by done. rewrite filter_cons_False by (intros H; by apply H). by rewrite filter_nil, app_nil_r.
Qed.

Lemma keep_high_spec need : ∀ w keep,
  is_word w → is_word keep → (need ≤ length (set_bits w))%nat →
  is_word (keep_high need w keep) ∧
  ∀ i, i ∈ set_bits (keep_high need w keep) ↔ i ∈ set_bits keep ∨ i ∈ drop (length (set_bits w) - need) (set_bits w).
Proof.
  induction need as [|need IH]; intros w keep Hw Hk Hn; cbn [keep_high].
  { split; [done|]. intros i. rewrite Nat.sub_0_r, drop_all. split; [tauto|]. by intros [?|?%elem_of_nil]. }
  destruct (set_bits w) as [|t rest _] eqn:E using rev_ind; [simpl in Hn; lia|].
  destruct (high_step w t rest E) as [-> Ht]. destruct (clear_bit w t Hw ltac:(lia)) as [Hw' _].
  pose proof (set_bits_clear_last w t rest Hw ltac:(lia) E) as Er. destruct (lor_bit keep t Hk Ht) as [Hk' Ek].
  rewrite length_app in *. simpl in Hn.
  destruct (IH (Z.ldiff w (2 ^ t)) (Z.lor keep (2 ^ t))) as [H1 H2]; [done|done|rewrite Er; lia|].
  split; [done|]. intros i. rewrite H2, Er, Ek. rewrite drop_app_le by (simpl; lia).
  replace (length rest + length [t] - S need)%nat with (length rest - need)%nat by (simpl; lia).
  rewrite elem_of_app, list_elem_of_singleton. tauto.
Qed.

(** ** The rows of a bitset *)

Fixpoint word_rows (ws : list Z) (wi : Z) : list Z :=
  match ws with [] => [] | w :: ws' => (Z.add (64 * wi) <$> set_bits w) ++ word_rows ws' (wi + 1) end.
(** The set rows, ascending. *)
Definition rows_in (b : Bitset) : list Z := word_rows (words b) 0.

Record bitset_wf (b : Bitset) : Prop := {
  bw_words : Forall is_word (words b);
  bw_n : 0 ≤ bs_n b;
  bw_len : len (words b) = (bs_n b + 63) / 64 }.

Lemma elem_word_rows ws : ∀ wi i,
  i ∈ word_rows ws wi ↔ ∃ k w, ws !! k = Some w ∧ i - 64 * (wi + Z.of_nat k) ∈ set_bits w.
Proof.
  induction ws as [|w ws IH]; intros wi i; cbn [word_rows].
  - split; [by intros ?%elem_of_nil|by intros (k & w & ? & _)].
  - rewrite elem_of_app, list_elem_of_fmap, IH. split.
    + intros [(j & -> & Hj)|(k & x & Hk & Hi)].
      * exists 0%nat, w. split; [done|]. by replace (64 * wi + j - 64 * (wi + Z.of_nat 0)) with j by lia.
      * exists (S k), x. split; [done|]. by replace (wi + Z.of_nat (S k)) with (wi + 1 + Z.of_nat k) by lia.
    + intros ([|k] & x & Hk & Hi); cbn in Hk; [injection Hk as ->; left|right].
      * exists (i - 64 * (wi + Z.of_nat 0)). split; [lia|done].
      * exists k, x. split; [done|]. by replace (wi + 1 + Z.of_nat k) with (wi + Z.of_nat (S k)) by lia.
Qed.

Lemma word_rows_sorted ws : ∀ wi, StronglySorted Z.lt (word_rows ws wi).
Proof.
  induction ws as [|w ws IH]; intros wi; cbn [word_rows]; [constructor|]. apply StronglySorted_app. split_and!.
  - intros x y (j & -> & [Hj _]%elem_set_bits)%list_elem_of_fmap (k & z & _ & [Hy _]%elem_set_bits)%elem_word_rows. lia.
  - apply (StronglySorted_fmap _ Z.lt); [lia|apply set_bits_sorted].
  - apply IH.
Qed.

Lemma word_rows_app l1 l2 : ∀ wi, word_rows (l1 ++ l2) wi = word_rows l1 wi ++ word_rows l2 (wi + len l1).
Proof.
  induction l1 as [|w l1 IH]; intros wi; cbn [word_rows app]; [by rewrite Z.add_0_r|].
  rewrite IH, <- app_assoc, len_cons. by replace (wi + 1 + len l1) with (wi + (1 + len l1)) by lia.
Qed.
Lemma word_rows_zero k : ∀ wi, word_rows (replicate k 0) wi = [].
Proof. induction k as [|k IH]; intros wi; [done|]. cbn [replicate word_rows]. rewrite IH. done. Qed.

Lemma keep_low_rows need w :
  is_word w → (need ≤ length (set_bits w))%nat →
  is_word (keep_low need w 0) ∧ set_bits (keep_low need w 0) = take need (set_bits w).
Proof.
  intros Hw Hn. destruct (keep_low_spec need w 0) as [H1 H2]; [done|by unfold is_word|done|]. split; [done|].
  pose proof (set_bits_sorted w) as Hs. rewrite <- (take_drop need (set_bits w)) in Hs. apply StronglySorted_app_1_l in Hs.
  apply sorted_ext; [apply set_bits_sorted|done|]. intros i. rewrite H2. change (set_bits 0) with (@nil Z).
  rewrite elem_of_nil. tauto.
Qed.
Lemma keep_high_rows need w :
  is_word w → (need ≤ length (set_bits w))%nat →
  is_word (keep_high need w 0) ∧ set_bits (keep_high need w 0) = drop (length (set_bits w) - need) (set_bits w).
Proof.
  intros Hw Hn. destruct (keep_high_spec need w 0) as [H1 H2]; [done|by unfold is_word|done|]. split; [done|].
  pose proof (set_bits_sorted w) as Hs. rewrite <- (take_drop (length (set_bits w) - need) (set_bits w)) in Hs. apply StronglySorted_app_1_r in Hs.
  apply sorted_ext; [apply set_bits_sorted|done|]. intros i. rewrite H2. change (set_bits 0) with (@nil Z).
  rewrite elem_of_nil. tauto.
Qed.

Lemma keep_first_spec k ws : ∀ seen wi,
  Forall is_word ws → seen ≤ k →
  Forall is_word (keep_first k seen ws) ∧ length (keep_first k seen ws) = length ws ∧
  word_rows (keep_first k seen ws) wi = take (Z.to_nat (k - seen)) (word_rows ws wi).
Proof.
  induction ws as [|w ws IH]; intros seen wi Hw Hs; cbn [keep_first word_rows]; [split_and!; [done..|by rewrite take_nil]|].
  apply Forall_cons_1 in Hw as [Hw Hws]. case_bool_decide as H0.
  - destruct (IH seen (wi + 1) Hws Hs) as (E1 & E2 & E3). cbn [word_rows length]. rewrite E2, E3. subst w.
    split_and!; [by apply Forall_cons_2|done|done].
  - unfold OnesCount64, len. case_bool_decide as Hc.
    + destruct (IH (seen + Z.of_nat (length (set_bits w))) (wi + 1) Hws Hc) as (E1 & E2 & E3). cbn [word_rows length]. rewrite E2, E3.
      split_and!; [by apply Forall_cons_2|done|]. rewrite take_app_ge by (rewrite length_fmap; lia). rewrite length_fmap.
      do 2 f_equal. lia.
    + destruct (keep_low_rows (Z.to_nat (k - seen)) w Hw) as [H1 H2]; [lia|]. cbn [word_rows length].
      rewrite word_rows_zero, app_nil_r, H2, length_replicate. split_and!; [|done|].
      * apply Forall_cons_2; [done|]. apply Forall_replicate. by unfold is_word.
      * rewrite take_app_le by (rewrite length_fmap; lia). by rewrite fmap_take.
Qed.

Lemma rev_replicate {A} k (x : A) : rev (replicate k x) = replicate k x.
Proof. rewrite List.rev_alt. apply reverse_replicate. Qed.

Lemma keep_last_spec k ws : ∀ seen wi,
  Forall is_word ws → seen ≤ k →
  Forall is_word (keep_last k seen ws) ∧ length (keep_last k seen ws) = length ws ∧
  word_rows (rev (keep_last k seen ws)) wi
    = drop (length (word_rows (rev ws) wi) - Z.to_nat (k - seen)) (word_rows (rev ws) wi).
Proof.
  induction ws as [|w ws IH]; intros seen wi Hw Hs; cbn [keep_last]; [done|].
  apply Forall_cons_1 in Hw as [Hw Hws]. cbn [rev]. rewrite word_rows_app.
  assert (len (rev ws) = len ws) as Elr by (unfold len; by rewrite length_rev). rewrite Elr. cbn [word_rows].
  rewrite app_nil_r, length_app, length_fmap. set (R := word_rows (rev ws) wi).
  assert (∀ l, length l = length ws → word_rows (rev l ++ [w]) wi = word_rows (rev l) wi ++ (Z.add (64 * (wi + len ws)) <$> set_bits w)) as Hsnoc.
  { intros l El. rewrite word_rows_app. cbn [word_rows]. rewrite app_nil_r. unfold len. by rewrite length_rev, El. }
  case_bool_decide as H0.
  - destruct (IH seen wi Hws Hs) as (E1 & E2 & E3). cbn [rev length]. rewrite E2, Hsnoc, E3 by done. subst w. cbn.
    rewrite !app_nil_r, Nat.add_0_r. split_and!; [by apply Forall_cons_2|done|done].
  - unfold OnesCount64. case_bool_decide as Hc.
    + destruct (IH (seen + len (set_bits w)) wi Hws Hc) as (E1 & E2 & E3). cbn [rev length]. rewrite E2, Hsnoc, E3 by done.
      fold R. split_and!; [by apply Forall_cons_2|done|]. unfold len in *. rewrite drop_app_le by lia. do 2 f_equal. lia.
    + unfold len in Hc. destruct (keep_high_rows (Z.to_nat (k - seen)) w Hw) as [H1 H2]; [lia|]. cbn [rev length].
      rewrite length_replicate. split_and!; [|done|].
      * apply Forall_cons_2; [done|]. apply Forall_replicate. by unfold is_word.
      * rewrite rev_replicate, word_rows_app, word_rows_zero, len_replicate. cbn [word_rows app]. rewrite app_nil_r, H2.
        fold (len ws). rewrite drop_app_ge by lia. rewrite fmap_drop. replace (length R + length (set_bits w) - Z.to_nat (k - seen) - length R)%nat with (length (set_bits w) - Z.to_nat (k - seen))%nat by lia. done.
Qed.

Lemma Keep_rows_spec b k :
  bitset_wf b →
  rows_in (KeepFirst b k) = take (Z.to_nat k) (rows_in b) ∧
  rows_in (KeepLast b k) = drop (length (rows_in b) - Z.to_nat k) (rows_in b) ∧
  bitset_wf (KeepFirst b k) ∧ bitset_wf (KeepLast b k).
Proof.
  intros [Hw Hn Hl]. unfold KeepFirst, KeepLast, rows_in. cbn [words]. case_bool_decide as Hk.
  - rewrite word_rows_zero. replace (Z.to_nat k) with 0%nat by lia. rewrite take_0, Nat.sub_0_r, drop_all.
    assert (Forall is_word (replicate (length (words b)) 0)) by (apply Forall_replicate; by unfold is_word).
    split_and!; [done|done|..]; constructor; cbn [words bs_n]; try done; by rewrite len_replicate.
  - destruct (keep_first_spec k (words b) 0 0 Hw) as (E1 & E2 & E3); [lia|].
    destruct (keep_last_spec k (rev (words b)) 0 0) as (F1 & F2 & F3); [by apply List.Forall_rev|lia|].
    rewrite rev_involutive, Z.sub_0_r in *. split_and!; [done|done|..]; constructor; cbn [words bs_n]; try done.
    + unfold len in *. by rewrite E2.
    + by apply List.Forall_rev.
    + unfold len in *. by rewrite length_rev, F2, length_rev.
Qed.

(** [KeepFirst] keeps the first [k] set rows and [KeepLast] the last [k],
    whatever word the bound falls in, and both keep the bitset well formed. *)
Theorem Keep_rows b k :
  bitset_wf b →
  rows_in (KeepFirst b k) = take (Z.to_nat k) (rows_in b) ∧
  rows_in (KeepLast b k) = drop (length (rows_in b) - Z.to_nat k) (rows_in b) ∧
  bitset_wf (KeepFirst b k) ∧ bitset_wf (KeepLast b k).
Proof. apply Keep_rows_spec. Qed.

Lemma set_bits_length w : (length (set_bits w) ≤ 64)%nat.
Proof. unfold set_bits. etrans; [apply length_filter|]. by rewrite length_seqZ. Qed.

Lemma for_each_spec ws : ∀ wi, Forall is_word ws → for_each ws wi = word_rows ws wi.
Proof.
  induction ws as [|w ws IH]; intros wi Hw; cbn [for_each word_rows]; [done|]. apply Forall_cons_1 in Hw as [Hw Hws].
  rewrite IH, each_bit_spec by (done || apply set_bits_length). f_equal. rewrite Z.shiftl_mul_pow2 by lia.
  replace (wi * 2 ^ 6) with (64 * wi) by lia. done.
Qed.

Lemma count_spec ws : ∀ wi total, fold_left (λ total w, total + OnesCount64 w) ws total = total + len (word_rows ws wi).
Proof.
  induction ws as [|w ws IH]; intros wi total; cbn [fold_left word_rows]; [len_nil; lia|].
  rewrite (IH (wi + 1)), len_app, len_fmap. unfold OnesCount64. lia.
Qed.

Lemma first_last_spec ws : ∀ wi f l, Forall is_word ws → 0 ≤ wi →
  first_last ws wi f l =
    (if bool_decide (f < 0) then default f (head (word_rows ws wi)) else f, default l (last (word_rows ws wi))).
Proof.
  induction ws as [|w ws IH]; intros wi f l Hw Hwi; cbn [first_last word_rows]; [by case_bool_decide|].
  apply Forall_cons_1 in Hw as [Hw Hws]. destruct (decide (w = 0)) as [-> |H0].
  { rewrite bool_decide_eq_true_2 by done. rewrite IH by (done || lia). done. }
  rewrite (bool_decide_eq_false_2 (w = 0)) by done. rewrite IH by (done || lia).
  assert (set_bits w ≠ []) as Hne by (by rewrite set_bits_nil).
  rewrite Z.shiftl_mul_pow2 by lia. replace (wi * 2 ^ 6) with (64 * wi) by lia. f_equal.
  - unfold TrailingZeros64. destruct (set_bits w) as [|t rest] eqn:E; [done|]. rewrite fmap_cons. cbn.
    assert (t ∈ set_bits w) as [Ht _]%elem_set_bits by (rewrite E; by left).
    destruct (decide (f < 0)); [|by rewrite !(bool_decide_eq_false_2 (f < 0))].
    rewrite !(bool_decide_eq_true_2 (f < 0)) by done. by rewrite bool_decide_eq_false_2 by lia.
  - unfold LeadingZeros64. rewrite last_app, fmap_last. destruct (last (set_bits w)) as [t|] eqn:E; [|by apply last_None in E].
    cbn. destruct (last (word_rows ws (wi + 1))); cbn; [done|lia].
Qed.

Lemma ForEach_rows_spec b :
  bitset_wf b →
  ForEach b = rows_in b ∧ StronglySorted Z.lt (rows_in b) ∧ Count b = len (rows_in b) ∧
  FirstLast b = (default (-1) (head (rows_in b)), default (-1) (last (rows_in b))).
Proof.
  intros [Hw Hn Hl]. unfold ForEach, rows_in, Count, FirstLast. split_and!.
  - by apply for_each_spec.
  - apply word_rows_sorted.
  - by rewrite (count_spec _ 0).
  - by rewrite first_last_spec by done.
Qed.

(** The row loop of the query engine is exact: [ForEach] calls its function
    with every set row once, in ascending order; [Count] is their number; and
    [FirstLast] is the first and the last of them, or [(-1, -1)]. *)
Theorem ForEach_rows b :
  bitset_wf b →
  ForEach b = rows_in b ∧ StronglySorted Z.lt (rows_in b) ∧ Count b = len (rows_in b) ∧
  FirstLast b = (default (-1) (head (rows_in b)), default (-1) (last (rows_in b))).
Proof. apply ForEach_rows_spec. Qed.

(** *** Single rows *)

Lemma row_split i : 0 ≤ i → Z.shiftr i 6 = i / 64 ∧ Z.land i 63 = i mod 64.
Proof. intros Hi. split; [by rewrite Z.shiftr_div_pow2|]. change 63 with (Z.ones 6). by rewrite Z.land_ones by lia. Qed.

Lemma row_mask i : 0 ≤ i → u64 (Z.shiftl 1 (Z.land i 63)) = 2 ^ (i mod 64).
Proof.
  intros Hi. rewrite (proj2 (row_split i Hi)). pose proof (Z.mod_pos_bound i 64 ltac:(lia)).
  rewrite Z.shiftl_mul_pow2, Z.mul_1_l by lia. apply Z.mod_small. split; [lia|]. apply Z.pow_lt_mono_r; lia.
Qed.

Lemma elem_rows b i :
  0 ≤ i → i ∈ rows_in b ↔ ∃ w, words b !! Z.to_nat (i / 64) = Some w ∧ Z.testbit w (i mod 64) = true.
Proof.
  intros Hi. unfold rows_in. rewrite elem_word_rows. split.
  - intros (k & w & Hk & [Hb Ht]%elem_set_bits). rewrite Z.add_0_l in *. exists w.
    rewrite <- (Z.div_unique i 64 (Z.of_nat k) (i - 64 * Z.of_nat k)) by lia.
    rewrite <- (Z.mod_unique i 64 (Z.of_nat k) (i - 64 * Z.of_nat k)) by lia. by rewrite Nat2Z.id.
  - intros (w & Hw & Ht). exists (Z.to_nat (i / 64)), w. split; [done|]. apply elem_set_bits.
    pose proof (Z.div_pos i 64 Hi ltac:(lia)). rewrite Z2Nat.id by lia.
    replace (i - 64 * (0 + i / 64)) with (i mod 64) by (rewrite Z.mod_eq by lia; lia). split; [apply Z.mod_pos_bound; lia|done].
Qed.

Lemma row_word b i : bitset_wf b → 0 ≤ i < bs_n b → ∃ w, words b !! Z.to_nat (i / 64) = Some w ∧ is_word w ∧ i / 64 < len (words b).
Proof.
  intros [Hw Hn Hl] Hi. assert (i / 64 < len (words b)) as Hlt by (rewrite Hl; Z.to_euclidean_division_equations; lia).
  pose proof (Z.div_pos i 64 ltac:(lia) ltac:(lia)).
  destruct (lookup_lt_is_Some_2 (words b) (Z.to_nat (i / 64))) as [w Ew]; [unfold len in *; lia|].
  exists w. split_and!; [done| |done]. rewrite Forall_lookup in Hw. by apply (Hw _ _ Ew).
Qed.

(** Setting bit [i mod 64] of word [i / 64]. *)
Lemma set_row (ws : list Z) w i j :
  0 ≤ i → 0 ≤ j → ws !! Z.to_nat (i / 64) = Some w → is_word w →
  (∃ x, <[Z.to_nat (i / 64) := Z.lor w (2 ^ (i mod 64))]> ws !! Z.to_nat (j / 64) = Some x ∧ Z.testbit x (j mod 64) = true) ↔
  (∃ x, ws !! Z.to_nat (j / 64) = Some x ∧ Z.testbit x (j mod 64) = true) ∨ j = i.
Proof.
  intros Hi Hj Ew Hw. pose proof (lookup_lt_Some _ _ _ Ew) as Hlt.
  pose proof (Z.div_pos i 64 Hi ltac:(lia)). pose proof (Z.div_pos j 64 Hj ltac:(lia)).
  pose proof (Z.mod_pos_bound i 64 ltac:(lia)). pose proof (Z.mod_pos_bound j 64 ltac:(lia)).
  pose proof (Z.div_mod i 64 ltac:(lia)). pose proof (Z.div_mod j 64 ltac:(lia)).
  destruct (decide (j / 64 = i / 64)) as [E|E].
  - rewrite E, list_lookup_insert_eq, Ew by done.
    assert (Z.testbit (Z.lor w (2 ^ (i mod 64))) (j mod 64) = Z.testbit w (j mod 64) || (i mod 64 =? j mod 64)) as Hb
      by (by rewrite Z.lor_spec, Z.pow2_bits_eqb by lia).
    split.
    + intros (x & [= <-] & Hx). rewrite Hb in Hx. apply orb_true_iff in Hx as [?|?%Z.eqb_eq]; [left; by eexists|right; lia].
    + intros [(x & [= <-] & Hx)| ->]; eexists; (split; [done|]); rewrite Hb; [by rewrite Hx|by rewrite Z.eqb_refl, orb_true_r].
  - rewrite list_lookup_insert_ne by lia. split; [by left|]. intros [?| ->]; done.
Qed.

Lemma Set_Test_rows_spec b i :
  bitset_wf b → 0 ≤ i < bs_n b →
  Test b i = Ok (bool_decide (i ∈ rows_in b)) ∧
  ∃ b', Set_ b i = Ok b' ∧ bitset_wf b' ∧ bs_n b' = bs_n b ∧ ∀ j, 0 ≤ j → j ∈ rows_in b' ↔ j ∈ rows_in b ∨ j = i.
Proof.
  intros Hwf Hi. destruct (row_word b i Hwf Hi) as (w & Ew & Hw & Hlt). destruct Hwf as [Hws Hn Hl].
  pose proof (Z.mod_pos_bound i 64 ltac:(lia)) as Hm. pose proof (Z.div_pos i 64 ltac:(lia) ltac:(lia)) as Hd.
  unfold Test, Set_. rewrite row_mask, (proj1 (row_split i ltac:(lia))) by lia.
  rewrite (index_Ok _ _ w), !bind_Ok by done. split.
  - f_equal. rewrite <- bool_decide_not. apply bool_decide_ext. rewrite elem_rows by lia. split.
    + intros Hne. exists w. split; [done|]. destruct (Z.testbit w (i mod 64)) eqn:E; [done|]. exfalso. apply Hne.
      apply Z.bits_inj'. intros j Hj. rewrite Z.land_spec, Z.pow2_bits_eqb, Z.bits_0 by lia.
      destruct (Z.eqb_spec (i mod 64) j) as [<- |]; [by rewrite E|apply andb_false_r].
    + intros (w' & Ew' & Ht) H0. rewrite Ew in Ew'. injection Ew' as <-.
      assert (Z.testbit (Z.land w (2 ^ (i mod 64))) (i mod 64) = true) as Hx by (by rewrite Z.land_spec, Ht, Z.pow2_bits_true by lia).
      by rewrite H0, Z.bits_0 in Hx.
  - rewrite store_Ok, bind_Ok by done. eexists. split; [done|].
    destruct (lor_bit w (i mod 64) Hw Hm) as [Hw' _]. split_and!; [|done|].
    + constructor; cbn [words bs_n]; [by apply Forall_insert|done|by rewrite len_insert].
    + intros j Hj. rewrite !elem_rows by done. cbn [words]. apply (set_row (words b) w i j); (done || lia).
Qed.

(** [Test] asks whether a row is in the set and [Set] adds exactly that row;
    neither panics on a row of the group. *)
Theorem Set_Test_rows b i :
  bitset_wf b → 0 ≤ i < bs_n b →
  Test b i = Ok (bool_decide (i ∈ rows_in b)) ∧
  ∃ b', Set_ b i = Ok b' ∧ bitset_wf b' ∧ bs_n b' = bs_n b ∧ ∀ j, 0 ≤ j → j ∈ rows_in b' ↔ j ∈ rows_in b ∨ j = i.
Proof. apply Set_Test_rows_spec. Qed.

Lemma all_rows b k :
  0 ≤ k → (∀ j, 0 ≤ j → (∃ w, words b !! Z.to_nat (j / 64) = Some w ∧ Z.testbit w (j mod 64) = true) ↔ j < k) →
  rows_in b = seqZ 0 k.
Proof.
  intros Hk Hj. apply sorted_ext; [apply word_rows_sorted|apply sorted_seqZ|]. intros j. rewrite elem_of_seqZ.
  destruct (decide (0 ≤ j)) as [H0|H0]; [rewrite elem_rows, Hj by done; lia|]. split; [|lia].
  intros (i & w & _ & [Hb _]%elem_set_bits)%elem_word_rows. lia.
Qed.
Lemma full_word m j :
  0 ≤ j → (∃ w, replicate m (2 ^ 64 - 1) !! Z.to_nat (j / 64) = Some w ∧ Z.testbit w (j mod 64) = true) ↔ j / 64 < Z.of_nat m.
Proof.
  intros Hj. pose proof (Z.div_pos j 64 Hj ltac:(lia)). pose proof (Z.mod_pos_bound j 64 ltac:(lia)). split.
  - intros (w & [_ Hlt]%lookup_replicate & _). lia.
  - intros Hlt. exists (2 ^ 64 - 1). split; [apply lookup_replicate; split; [done|lia]|].
    change (2 ^ 64 - 1) with (Z.ones 64). apply Z.ones_spec_low. lia.
Qed.

Lemma SetAll_rows_spec k :
  0 ≤ k →
  bitset_wf (NewBitset k) ∧ rows_in (NewBitset k) = [] ∧
  ∃ b, SetAll (NewBitset k) = Ok b ∧ bitset_wf b ∧ rows_in b = seqZ 0 k.
Proof.
  intros Hk. unfold NewBitset. rewrite Z.quot_div_nonneg by lia. set (m := Z.to_nat ((k + 63) / 64)).
  assert (Z.of_nat m = (k + 63) / 64) as Em by (unfold m; rewrite Z2Nat.id; [done|apply Z.div_pos; lia]).
  split_and!.
  - constructor; cbn [words bs_n]; [apply Forall_replicate; by unfold is_word|done|by rewrite len_replicate].
  - apply word_rows_zero.
  - unfold SetAll. cbn [words bs_n]. rewrite length_replicate, (proj2 (row_split k Hk)).
    assert (is_word (2 ^ 64 - 1)) as Hones by (unfold is_word; lia).
    case_bool_decide as Hr.
    + rewrite store_Ok by (rewrite len_replicate; Z.to_euclidean_division_equations; lia). rewrite bind_Ok. eexists. split; [done|].
      pose proof (Z.mod_pos_bound k 64 ltac:(lia)) as Hmod. rewrite <- (proj2 (row_split k Hk)), row_mask by done.
      rewrite len_replicate. replace (Z.to_nat (Z.of_nat m - 1)) with (m - 1)%nat by lia.
      assert (is_word (2 ^ (k mod 64) - 1)) as Hmask.
      { pose proof (Z.pow_pos_nonneg 2 (k mod 64)). pose proof (Z.pow_lt_mono_r 2 (k mod 64) 64). unfold is_word. lia. }
      split; [constructor; cbn [words bs_n]; [apply Forall_insert; [by apply Forall_replicate|done]|done|by rewrite len_insert, len_replicate]|].
      apply all_rows; [done|]. intros j Hj. cbn [words].
      pose proof (Z.div_mod j 64 ltac:(lia)). pose proof (Z.mod_pos_bound j 64 ltac:(lia)). pose proof (Z.div_pos j 64 Hj ltac:(lia)).
      assert (k = 64 * (Z.of_nat m - 1) + k mod 64) as Ek by (rewrite Em; Z.to_euclidean_division_equations; lia).
      destruct (decide (j / 64 = Z.of_nat m - 1)) as [E|E].
      * replace (Z.to_nat (j / 64)) with (m - 1)%nat by lia. rewrite list_lookup_insert_eq by (rewrite length_replicate; lia). split.
        -- intros (w & [= <-] & Ht). destruct (decide (j mod 64 < k mod 64)); [lia|]. exfalso.
           replace (2 ^ (k mod 64) - 1) with (Z.ones (k mod 64)) in Ht by (rewrite Z.ones_equiv; lia). by rewrite Z.ones_spec_high in Ht by lia.
        -- intros Hlt. eexists. split; [done|].
           replace (2 ^ (k mod 64) - 1) with (Z.ones (k mod 64)) by (rewrite Z.ones_equiv; lia). apply Z.ones_spec_low. lia.
      * rewrite list_lookup_insert_ne by lia. rewrite full_word by done. lia.
    + eexists. split; [done|]. split; [constructor; cbn [words bs_n]; [by apply Forall_replicate|done|by rewrite len_replicate]|].
      apply all_rows; [done|]. intros j Hj. cbn [words]. rewrite full_word by done.
      rewrite Em. Z.to_euclidean_division_equations; lia.
Qed.

(** A fresh bitset is empty and [SetAll] gives every row of the group and no
    row past it, also when the row count is not a multiple of 64. *)
Theorem SetAll_rows k :
  0 ≤ k →
  bitset_wf (NewBitset k) ∧ rows_in (NewBitset k) = [] ∧
  ∃ b, SetAll (NewBitset k) = Ok b ∧ bitset_wf b ∧ rows_in b = seqZ 0 k.
Proof. apply SetAll_rows_spec. Qed.

(** *** Composing filters *)

(** A bit-wise operation: what [And], [Or] and [AndNot] are at any width. *)
Definition bitwise (f : Z → Z → Z) (g : bool → bool → bool) : Prop :=
  g false false = false ∧ (∀ x y, 0 ≤ x → 0 ≤ y → 0 ≤ f x y) ∧ ∀ x y i, 0 ≤ i → Z.testbit (f x y) i = g (Z.testbit x i) (Z.testbit y i).

Lemma bitwise_mod f g x y k : bitwise f g → 0 ≤ k → f x y mod 2 ^ k = f (x mod 2 ^ k) (y mod 2 ^ k).
Proof.
  intros (Hg & _ & Hf) Hk. apply Z.bits_inj'. intros i Hi. rewrite Hf by done. destruct (decide (i < k)).
  - by rewrite !Z.mod_pow2_bits_low, Hf by lia.
  - by rewrite !Z.mod_pow2_bits_high, Hg by lia.
Qed.
Lemma bitwise_div f g x y k : bitwise f g → 0 ≤ k → f x y / 2 ^ k = f (x / 2 ^ k) (y / 2 ^ k).
Proof.
  intros (_ & _ & Hf) Hk. apply Z.bits_inj'. intros i Hi. rewrite Hf, !Z.div_pow2_bits, Hf by lia. done.
Qed.
Lemma bitwise_digits f g m : bitwise f g → ∀ x y, zip_with f (digits m 8 x) (digits m 8 y) = digits m 8 (f x y).
Proof.
  intros Hf. induction m as [|m IH]; intros x y; cbn [digits]; [done|]. cbn [zip_with].
  rewrite IH, (bitwise_mod f g), (bitwise_div f g) by (done || lia). done.
Qed.

Lemma bitwise_bytes f g ws vs :
  bitwise f g → length ws = length vs →
  zip_with f (List.flat_map le64 ws) (List.flat_map le64 vs) = List.flat_map le64 (zip_with f ws vs).
Proof.
  intros Hf. revert vs. induction ws as [|w ws IH]; intros [|v vs] Hl; try done. cbn [List.flat_map zip_with].
  rewrite zip_with_app by (unfold le64; by rewrite !length_digits). simpl in Hl. rewrite IH by lia. f_equal. by apply (bitwise_digits f g).
Qed.
Lemma words_of_bytes ws : Forall is_word ws → words_of (length ws) (List.flat_map le64 ws) = ws.
Proof.
  induction 1 as [|w ws Hw _ IH]; [done|]. cbn [length words_of List.flat_map].
  rewrite take_app_length', drop_app_length' by (symmetry; apply length_digits). rewrite IH. f_equal.
  unfold le64. rewrite undigits_digits by lia. by apply Z.mod_small.
Qed.

Lemma flat_map_len8 ws : len (List.flat_map (digits 8 8) ws) = 8 * len ws.
Proof. induction ws as [|w ws IH]; [done|]. cbn [List.flat_map]. rewrite len_app, len_cons, IH. unfold len at 1. rewrite length_digits. lia. Qed.

Section compose.
Context {B : BitOps} {BL : BitOpsLaws B}.

Lemma via_bytes_spec (op : bytes → bytes → bytes) f g b o :
  (∀ x y, len x = len y → op x y = zip_with f x y) → bitwise f g →
  bitset_wf b → bitset_wf o → bs_n b = bs_n o →
  bitset_wf (via_bytes op b o) ∧ bs_n (via_bytes op b o) = bs_n b ∧
  ∀ i, 0 ≤ i < bs_n b → i ∈ rows_in (via_bytes op b o) ↔ g (bool_decide (i ∈ rows_in b)) (bool_decide (i ∈ rows_in o)) = true.
Proof.
  intros Hop Hf Hb Ho Hn. pose proof (bw_len _ Hb) as L1. pose proof (bw_len _ Ho) as L2. rewrite <- Hn in L2.
  assert (length (words b) = length (words o)) as Hl by (unfold len in *; lia).
  assert (Forall is_word (zip_with f (words b) (words o))) as Hw.
  { pose proof (bw_words _ Hb) as H1. pose proof (bw_words _ Ho) as H2. rewrite Forall_lookup in H1, H2 |- *. intros i z Hz.
    rewrite lookup_zip_with_Some in Hz. destruct Hz as (x & y & -> & Hx & Hy). apply H1 in Hx. apply H2 in Hy.
    destruct Hf as (Hg & Hpos & Hf). apply word_bits; [apply Hpos; [apply Hx|apply Hy]|].
    intros j Hj. by rewrite Hf, !testbit_high by (done || lia). }
  assert (words (via_bytes op b o) = zip_with f (words b) (words o)) as Ew.
  { unfold via_bytes, bitset_bytes. cbn [words]. rewrite Hop by (unfold le64; rewrite !(flat_map_len8 (words _)); unfold len; by rewrite Hl).
    rewrite (bitwise_bytes f g) by done.
    replace (length (words b)) with (length (zip_with f (words b) (words o))) by (rewrite length_zip_with; lia). by apply words_of_bytes. }
  split_and!; [|done|].
  - constructor; [by rewrite Ew|apply (bw_n _ Hb)|]. rewrite Ew. cbn [bs_n via_bytes]. rewrite <- L1. unfold len. rewrite length_zip_with. lia.
  - intros i Hi. destruct (row_word b i Hb Hi) as (w & E1 & _). destruct (row_word o i Ho ltac:(lia)) as (v & E2 & _).
    rewrite elem_rows, Ew, lookup_zip_with, E1, E2 by lia. cbn. pose proof (Z.mod_pos_bound i 64 ltac:(lia)).
    assert (∀ c x, words c !! Z.to_nat (i / 64) = Some x → bool_decide (i ∈ rows_in c) = Z.testbit x (i mod 64)) as Hbit.
    { intros c x Ex. destruct (Z.testbit x (i mod 64)) eqn:Et.
      - apply bool_decide_eq_true. apply elem_rows; [lia|]. by exists x.
      - apply bool_decide_eq_false. rewrite elem_rows by lia. intros (x' & Ex' & Et'). congruence. }
    rewrite (Hbit b w E1), (Hbit o v E2). destruct Hf as (_ & _ & Hf). rewrite <- Hf by lia.
    split; [by intros (x & [= <-] & ?)|]. intros Ht. by exists (f w v).
Qed.

Lemma compose_rows_spec b o :
  bitset_wf b → bitset_wf o → bs_n b = bs_n o →
  bitset_wf (And b o) ∧ bitset_wf (Or b o) ∧ bitset_wf (AndNot b o) ∧
  ∀ i, 0 ≤ i < bs_n b →
    (i ∈ rows_in (And b o) ↔ i ∈ rows_in b ∧ i ∈ rows_in o) ∧
    (i ∈ rows_in (Or b o) ↔ i ∈ rows_in b ∨ i ∈ rows_in o) ∧
    (i ∈ rows_in (AndNot b o) ↔ i ∈ rows_in b ∧ i ∉ rows_in o).
Proof.
  intros Hb Ho Hn.
  destruct (via_bytes_spec simd_And Z.land andb b o) as (H1 & _ & E1); try done; [apply And_law| |].
  { split_and!; [done|intros; apply Z.land_nonneg; auto|]. intros. apply Z.land_spec. }
  destruct (via_bytes_spec simd_Or Z.lor orb b o) as (H2 & _ & E2); try done; [apply Or_law| |].
  { split_and!; [done|intros; apply Z.lor_nonneg; auto|]. intros. apply Z.lor_spec. }
  destruct (via_bytes_spec simd_AndNot Z.ldiff (λ x y, x && negb y) b o) as (H3 & _ & E3); try done; [apply AndNot_law| |].
  { split_and!; [done|intros; apply Z.ldiff_nonneg; auto|]. intros. apply Z.ldiff_spec. }
  split_and!; try done. intros i Hi. unfold And, Or, AndNot. rewrite E1, E2, E3 by done.
  rewrite !andb_true_iff, orb_true_iff, negb_true_iff, !bool_decide_eq_true, bool_decide_eq_false. done.
Qed.

(** Filters compose as sets: [And] of two bitsets of one group is the
    intersection of their rows, [Or] the union, [AndNot] the difference, through
    the byte view of the words and the byte kernels. *)
Theorem compose_rows b o :
  bitset_wf b → bitset_wf o → bs_n b = bs_n o →
  bitset_wf (And b o) ∧ bitset_wf (Or b o) ∧ bitset_wf (AndNot b o) ∧
  ∀ i, 0 ≤ i < bs_n b →
    (i ∈ rows_in (And b o) ↔ i ∈ rows_in b ∧ i ∈ rows_in o) ∧
    (i ∈ rows_in (Or b o) ↔ i ∈ rows_in b ∨ i ∈ rows_in o) ∧
    (i ∈ rows_in (AndNot b o) ↔ i ∈ rows_in b ∧ i ∉ rows_in o).
Proof. apply compose_rows_spec. Qed.
End compose.

(** The kernels, as their documentation states them. *)
#[export] Instance ref_bits : BitOps :=
  {| simd_And := zip_with Z.land; simd_Or := zip_with Z.lor; simd_AndNot := zip_with Z.ldiff |}.
#[export] Instance ref_bits_laws : BitOpsLaws ref_bits.
Proof. by constructor. Qed.
