(* ===== verification/Select.v ===== *)
(** * Row selections

    What a bitset means to the query engine: the rows of one group that satisfy
    a condition. [selects] is the interface between the words of
    [internal/query/bitset.go] and the filters above them; the mask kernels of
    [internal/query/engine.go] ([eqMaskInto], [packBools]) are here because they
    write those words. *)

From S2P Require Import Prelude Digits GoLib Bitset.
From stdpp Require Import list sorting.
Local Open Scope Z_scope.

(** ** Definitions *)

(** The kernels that turn a column into a mask: one bool per lane, and one bit
    per bool. [MaskBits] is only called on a destination that is clear. *)
Class MaskOps := {
  EqualScalarInto : list Z → Z → list bool;
  MaskBits : bytes → bytes → Z → bytes }.
Definition lane (v x : Z) : Z := if bool_decide (x = v) then 1 else 0.
Class MaskOpsLaws (M : MaskOps) : Prop := {
  EqualScalarInto_law idx want : EqualScalarInto idx want = (λ x, bool_decide (x = want)) <$> idx;
  MaskBits_law dst src v :
    Forall (λ x, x = 0) dst → len dst = (len src + 7) / 8 →
    MaskBits dst src v = digits (length dst) 8 (undigits 1 (lane v <$> src)) }.

Section masks.
Context {M : MaskOps}.

(** [boolsAsBytes]: a Go bool is the byte 0 or 1. *)
Definition boolsAsBytes (s : list bool) : bytes := (λ b, if (b : bool) then 1 else 0) <$> s.

(** On a little-endian host: the kernel writes the front of the bitset's memory. *)
Definition packBools (b : Bitset) (bools : list bool) : outcome Bitset :=
  if bool_decide (bools = []) then Ok b else
  bb ← bytesForPack b;
  let out := MaskBits bb (boolsAsBytes bools) 1 in
  Ok (MkBitset (words_of (length (words b)) (out ++ drop (length bb) (bitset_bytes b))) (bs_n b)).
Definition eqMaskInto (b : Bitset) (idx : list Z) (want : Z) : outcome Bitset :=
  if bool_decide (idx = []) then Ok b else packBools b (EqualScalarInto idx want).
End masks.

(** The rows of [n] that satisfy [P], in order. *)
Definition matching (n : Z) (P : Z → bool) : list Z := filter (λ i, P i = true) (seqZ 0 n).

(** [b] selects, among the [n] rows of a group, those that satisfy [P]. *)
Record selects (b : Bitset) (n : Z) (P : Z → bool) : Prop := {
  se_wf : bitset_wf b;
  se_n : bs_n b = n;
  se_rows : rows_in b = matching n P }.

(** ** Selections as sets *)

Lemma elem_matching n P i : i ∈ matching n P ↔ 0 ≤ i < n ∧ P i = true.
Proof. unfold matching. rewrite list_elem_of_filter, elem_of_seqZ. rewrite Z.add_0_l. tauto. Qed.
Lemma matching_sorted n P : StronglySorted Z.lt (matching n P).
Proof. apply sorted_filter, sorted_seqZ. Qed.
Lemma matching_ext n P Q : (∀ i, 0 ≤ i < n → P i = Q i) → matching n P = matching n Q.
Proof.
  intros H. apply sorted_ext; [apply matching_sorted..|]. intros i. rewrite !elem_matching.
  split; intros [Hi HP]; (split; [done|]); [by rewrite <- H|by rewrite H].
Qed.
Lemma matching_false n P : (∀ i, 0 ≤ i < n → P i = false) → matching n P = [].
Proof. intros H. apply elem_of_nil_inv. intros i [Hi HP]%elem_matching. by rewrite H in HP. Qed.

Lemma selects_iff b n P :
  bitset_wf b → bs_n b = n → (∀ i, 0 ≤ i → i ∈ rows_in b ↔ i < n ∧ P i = true) → selects b n P.
Proof.
  intros Hw Hn Hi. constructor; [done|done|]. destruct (ForEach_rows_spec b Hw) as (_ & Hs & _).
  apply sorted_ext; [done|apply matching_sorted|]. intros i. rewrite elem_matching. split.
  - intros H. assert (0 ≤ i) as H0.
    { unfold rows_in in H. rewrite elem_word_rows in H. destruct H as (k & w & _ & [Hk _]%elem_set_bits). lia. }
    apply Hi in H as [? ?]; [|done]. split; [lia|done].
  - intros [H HP]. apply Hi; [lia|]. split; [lia|done].
Qed.
Lemma selects_elem b n P i : selects b n P → 0 ≤ i → i ∈ rows_in b ↔ i < n ∧ P i = true.
Proof. intros [_ _ ->] Hi. rewrite elem_matching. split; intros [? ?]; (split; [lia|done]). Qed.
Lemma selects_ext b n P Q : selects b n P → (∀ i, 0 ≤ i < n → P i = Q i) → selects b n Q.
Proof. intros [Hw Hn Hr] H. constructor; [done|done|]. rewrite Hr. by apply matching_ext. Qed.

Lemma selects_new n : 0 ≤ n → selects (NewBitset n) n (λ _, false).
Proof.
  intros Hn. destruct (SetAll_rows_spec n Hn) as (Hw & He & _). constructor; [done|done|].
  rewrite He. symmetry. by apply matching_false.
Qed.
Lemma selects_all n : 0 ≤ n → ∃ b, SetAll (NewBitset n) = Ok b ∧ selects b n (λ _, true).
Proof.
  intros Hn. destruct (SetAll_rows_spec n Hn) as (_ & _ & b & E & Hw & He). exists b. split; [done|].
  assert (bs_n b = n) as Hb.
  { revert E. unfold SetAll. case_bool_decide; [|by intros [= <-]]. destruct (store _ _ _); [|done]. by intros [= <-]. }
  constructor; [done|done|]. rewrite He. apply sorted_ext; [apply sorted_seqZ|apply matching_sorted|].
  intros i. rewrite elem_matching, elem_of_seqZ, Z.add_0_l. tauto.
Qed.
Lemma selects_Set b n P i :
  selects b n P → 0 ≤ i < n → ∃ b', Bitset.Set_ b i = Ok b' ∧ selects b' n (λ j, P j || bool_decide (j = i)).
Proof.
  intros Hs Hi. pose proof Hs as [Hw Hn _]. destruct (Set_Test_rows_spec b i Hw) as (_ & b' & E & Hw' & Hn' & Hr); [lia|].
  exists b'. split; [done|]. apply selects_iff; [done|congruence|]. intros j Hj. rewrite Hr by done.
  rewrite (selects_elem b n P j Hs Hj), orb_true_iff, bool_decide_eq_true. split; [|tauto].
  intros [[? ?]| ->]; (split; [lia|tauto]).
Qed.

(** ** Composition *)

(** The rows of a bitset do not depend on its [n]: read as a bitset of all the
    rows its words have room for, it is well formed too. *)
Lemma wide_wf b : bitset_wf b → bitset_wf (MkBitset (words b) (64 * len (words b))).
Proof.
  intros [Hw Hn Hl]. constructor; cbn [words bs_n]; [done|len_lia|].
  pose proof (len_nonneg (words b)). Z.to_euclidean_division_equations; lia.
Qed.
Lemma rows_bound b i : i ∈ rows_in b → 0 ≤ i < 64 * len (words b).
Proof.
  unfold rows_in. rewrite elem_word_rows. intros (k & w & Hk & [Hb _]%elem_set_bits).
  apply lookup_lt_Some in Hk. unfold len. lia.
Qed.

Section compose.
Context {B : BitOps} {BL : BitOpsLaws B}.

Lemma compose_all b o i :
  bitset_wf b → bitset_wf o → bs_n b = bs_n o → 0 ≤ i →
  (i ∈ rows_in (And b o) ↔ i ∈ rows_in b ∧ i ∈ rows_in o) ∧
  (i ∈ rows_in (Or b o) ↔ i ∈ rows_in b ∨ i ∈ rows_in o) ∧
  (i ∈ rows_in (AndNot b o) ↔ i ∈ rows_in b ∧ i ∉ rows_in o).
Proof.
  intros Hb Ho Hn Hi. assert (len (words b) = len (words o)) as Hl by (by rewrite (bw_len b Hb), (bw_len o Ho), Hn).
  destruct (compose_rows_spec _ _ (wide_wf b Hb) (wide_wf o Ho)) as (W1 & W2 & W3 & H); [cbn; by rewrite Hl|].
  cbn [bs_n] in H. destruct (decide (i < 64 * len (words b))) as [Hlt|Hge]; [apply (H i); lia|].
  assert (i ∉ rows_in b) as Nb by (intros [_ ?]%rows_bound; lia).
  assert (i ∉ rows_in o) as No by (intros [_ ?]%rows_bound; lia).
  assert (∀ c, bitset_wf c → bs_n c = 64 * len (words b) → i ∉ rows_in c) as Hout.
  { intros c Hc En [_ ?]%rows_bound. rewrite (bw_len c Hc), En in *. Z.to_euclidean_division_equations; lia. }
  specialize (Hout _ W1 eq_refl) as N1. specialize (Hout _ W2 eq_refl) as N2. specialize (Hout _ W3 eq_refl) as N3.
  change (i ∉ rows_in (And b o)) in N1. change (i ∉ rows_in (Or b o)) in N2. change (i ∉ rows_in (AndNot b o)) in N3. tauto.
Qed.

Lemma compose_wf b o :
  bitset_wf b → bitset_wf o → bs_n b = bs_n o → bitset_wf (And b o) ∧ bitset_wf (Or b o) ∧ bitset_wf (AndNot b o).
Proof. intros Hb Ho Hn. destruct (compose_rows_spec b o Hb Ho Hn) as (? & ? & ? & _). done. Qed.

Lemma selects_And b o n P Q : selects b n P → selects o n Q → selects (And b o) n (λ i, P i && Q i).
Proof.
  intros Hb Ho. pose proof Hb as [Wb Nb _]. pose proof Ho as [Wo No _].
  apply selects_iff; [apply compose_wf; congruence|done|]. intros i Hi.
  destruct (compose_all b o i) as (-> & _ & _); [done|done|congruence|done|].
  rewrite (selects_elem b n P i Hb Hi), (selects_elem o n Q i Ho Hi), andb_true_iff. tauto.
Qed.
Lemma selects_Or b o n P Q : selects b n P → selects o n Q → selects (Or b o) n (λ i, P i || Q i).
Proof.
  intros Hb Ho. pose proof Hb as [Wb Nb _]. pose proof Ho as [Wo No _].
  apply selects_iff; [apply compose_wf; congruence|done|]. intros i Hi.
  destruct (compose_all b o i) as (_ & -> & _); [done|done|congruence|done|].
  rewrite (selects_elem b n P i Hb Hi), (selects_elem o n Q i Ho Hi), orb_true_iff. tauto.
Qed.
Lemma selects_AndNot b o n P Q : selects b n P → selects o n Q → selects (AndNot b o) n (λ i, P i && negb (Q i)).
Proof.
  intros Hb Ho. pose proof Hb as [Wb Nb _]. pose proof Ho as [Wo No _].
  apply selects_iff; [apply compose_wf; congruence|done|]. intros i Hi.
  destruct (compose_all b o i) as (_ & _ & ->); [done|done|congruence|done|].
  rewrite (selects_elem b n P i Hb Hi), (selects_elem o n Q i Ho Hi), andb_true_iff, negb_true_iff.
  destruct (Q i); intuition congruence.
Qed.
End compose.

Lemma selects_Count b n P : selects b n P → Count b = len (matching n P).
Proof. intros [Hw _ Hr]. destruct (ForEach_rows_spec b Hw) as (_ & _ & -> & _). by rewrite Hr. Qed.
Lemma selects_ForEach b n P : selects b n P → ForEach b = matching n P.
Proof. intros [Hw _ Hr]. destruct (ForEach_rows_spec b Hw) as (-> & _). done. Qed.

(** ** Masks *)

Lemma words_of_digits k : ∀ m, is_bytes m → length m = (8 * k)%nat → words_of k m = digits k 64 (undigits 8 m).
Proof.
  induction k as [|k IH]; intros m Hm Hl; [done|]. cbn [words_of digits].
  assert (length (take 8 m) = 8%nat) as Lt by (rewrite length_take; lia).
  assert (undigits 8 m = undigits 8 (take 8 m) + 2 ^ 64 * undigits 8 (drop 8 m)) as E.
  { rewrite <- (take_drop 8 m) at 1. rewrite undigits_app by lia. by unfold len; rewrite Lt. }
  assert (0 ≤ undigits 8 (take 8 m) < 2 ^ 64) as Hb.
  { pose proof (undigits_bound 8 (take 8 m) ltac:(lia) (Forall_take _ _ _ Hm)) as H. unfold len in H. by rewrite Lt in H. }
  rewrite IH by (first [by apply Forall_drop|rewrite length_drop; lia]).
  rewrite E, (Z.mul_comm (2 ^ 64)), Z_mod_plus_full, Z.div_add by lia.
  by rewrite Z.mod_small, Z.div_small, Z.add_0_l by lia.
Qed.

Lemma bit_of_mask (l : list Z) i : Forall (is_digit 1) l → Z.testbit (undigits 1 l) (Z.of_nat i) = bool_decide (l !! i = Some 1).
Proof.
  intros Hl. rewrite Z.testbit_eqb by lia. destruct (l !! i) as [x|] eqn:Ei.
  - pose proof (undigits_lookup 1 l i x ltac:(lia) Hl Ei) as E. rewrite Z.mul_1_l in E. change (2 ^ 1) with 2 in E.
    rewrite E. destruct (Z.eqb_spec x 1) as [-> |Hx]; [by rewrite bool_decide_eq_true_2|].
    rewrite bool_decide_eq_false_2; [done|]. by intros [= ?].
  - pose proof (undigits_bound 1 l ltac:(lia) Hl) as Hb. apply lookup_ge_None in Ei.
    rewrite Z.div_small; [done|]. split; [lia|]. eapply Z.lt_le_trans; [apply Hb|].
    apply Z.pow_le_mono_r; unfold len; lia.
Qed.

Section mask_rows.
Context {M : MaskOps} {ML : MaskOpsLaws M}.

Definition mask_bits (bools : list bool) : Z := undigits 1 (boolsAsBytes bools).
Lemma lane_bools bools : lane 1 <$> boolsAsBytes bools = boolsAsBytes bools.
Proof. unfold boolsAsBytes. rewrite <- list_fmap_compose. apply list_fmap_ext. intros i b _. by destruct b. Qed.
Lemma bools_digits bools : Forall (is_digit 1) (boolsAsBytes bools).
Proof. apply Forall_fmap, Forall_true. intros []; by unfold is_digit. Qed.
Lemma mask_bit bools i : 0 ≤ i → Z.testbit (mask_bits bools) i = default false (bools !! Z.to_nat i).
Proof.
  intros Hi. unfold mask_bits. rewrite <- (Z2Nat.id i) at 1 by done. rewrite bit_of_mask by apply bools_digits.
  unfold boolsAsBytes. rewrite list_lookup_fmap. by destruct (bools !! Z.to_nat i) as [[]|].
Qed.

(** The words after packing: the mask read as one number. *)
Lemma packBools_words n bools :
  bools ≠ [] → len bools = n →
  packBools (NewBitset n) bools = Ok (MkBitset (digits (Z.to_nat ((n + 63) / 64)) 64 (mask_bits bools)) n).
Proof.
  intros Hne Hn. assert (0 < n) as Hpos by (destruct bools; [done|rewrite <- Hn; len_lia]).
  unfold packBools. rewrite bool_decide_eq_false_2 by done. unfold bytesForPack, NewBitset. cbn [words bs_n].
  rewrite !Z.quot_div_nonneg, length_replicate by lia. set (k := Z.to_nat ((n + 63) / 64)).
  assert (bitset_bytes (MkBitset (replicate k 0) n) = replicate (8 * k) 0) as Ez.
  { unfold bitset_bytes. cbn [words]. clear. induction k as [|k IH]; [done|]. cbn [replicate List.flat_map]. rewrite IH.
    by replace (8 * S k)%nat with (S (S (S (S (S (S (S (S (8 * k)))))))))%nat by lia. }
  rewrite Ez. set (m := Z.to_nat ((n + 7) / 8)).
  assert ((m ≤ 8 * k)%nat ∧ n ≤ 8 * Z.of_nat m) as [Hmk Hnm].
  { unfold m, k. Z.to_euclidean_division_equations; lia. }
  rewrite (slice_Ok _ 0 ((n + 7) / 8)), bind_Ok by (rewrite ?len_replicate; Z.to_euclidean_division_equations; lia).
  rewrite Z.sub_0_r. fold m. change (Z.to_nat 0) with 0%nat. rewrite drop_0. rewrite take_replicate, Nat.min_l, length_replicate, drop_replicate by lia.
  rewrite MaskBits_law; [|by apply Forall_replicate|].
  2:{ rewrite len_replicate. unfold boolsAsBytes. rewrite len_fmap, Hn. unfold m. Z.to_euclidean_division_equations; lia. }
  rewrite lane_bools, length_replicate. fold (mask_bits bools). do 2 f_equal.
  rewrite words_of_digits; [|apply Forall_app_2; [apply digits_range; lia|by apply Forall_replicate]|].
  2:{ rewrite length_app, length_digits, length_replicate. lia. }
  rewrite undigits_app, undigits_digits, undigits_replicate_0 by lia. rewrite Z.mul_0_r, Z.add_0_r. f_equal.
  pose proof (undigits_bound 1 _ ltac:(lia) (bools_digits bools)) as Hb. apply Z.mod_small. fold (mask_bits bools) in Hb.
  split; [lia|]. eapply Z.lt_le_trans; [apply Hb|]. unfold boolsAsBytes. rewrite len_fmap, Hn. apply Z.pow_le_mono_r; lia.
Qed.

Lemma selects_pack n bools :
  bools ≠ [] → len bools = n →
  ∃ b, packBools (NewBitset n) bools = Ok b ∧ selects b n (λ i, default false (bools !! Z.to_nat i)).
Proof.
  intros Hne Hn. eexists. split; [by apply packBools_words|].
  assert (0 < n) as Hpos by (destruct bools; [done|rewrite <- Hn; len_lia]).
  set (k := Z.to_nat ((n + 63) / 64)).
  assert (bitset_wf (MkBitset (digits k 64 (mask_bits bools)) n)) as Hwf.
  { constructor; cbn [words bs_n]; [apply digits_range; lia|lia|]. rewrite len_digits. unfold k. Z.to_euclidean_division_equations; lia. }
  apply selects_iff; [done|done|]. intros i Hi. rewrite elem_rows by done. cbn [words]. split.
  - intros (w & Hw & Ht). pose proof (lookup_lt_Some _ _ _ Hw) as Hlt. rewrite length_digits in Hlt.
    rewrite digits_lookup in Hw by lia. injection Hw as <-.
    rewrite Z.mod_pow2_bits_low, Z.div_pow2_bits in Ht by (pose proof (Z.mod_pos_bound i 64); Z.to_euclidean_division_equations; lia).
    replace (i mod 64 + 64 * Z.of_nat (Z.to_nat (i / 64))) with i in Ht by (Z.to_euclidean_division_equations; lia).
    rewrite mask_bit in Ht by done. split; [|done]. destruct (bools !! Z.to_nat i) eqn:E; [|done].
    apply lookup_lt_Some in E. unfold len in Hn. lia.
  - intros [Hlt Hb]. eexists. split; [apply digits_lookup; [lia|unfold k; Z.to_euclidean_division_equations; lia]|].
    rewrite Z.mod_pow2_bits_low, Z.div_pow2_bits by (pose proof (Z.mod_pos_bound i 64); Z.to_euclidean_division_equations; lia).
    replace (i mod 64 + 64 * Z.of_nat (Z.to_nat (i / 64))) with i by (Z.to_euclidean_division_equations; lia).
    by rewrite mask_bit.
Qed.

Lemma selects_eqMask n idx want :
  len idx = n → 0 ≤ n →
  ∃ b, eqMaskInto (NewBitset n) idx want = Ok b ∧ selects b n (λ i, bool_decide (idx !! Z.to_nat i = Some want)).
Proof.
  intros Hn H0. unfold eqMaskInto. case_bool_decide as Hne.
  - subst idx. eexists. split; [done|]. eapply selects_ext; [by apply selects_new|]. intros i Hi. cbn. by rewrite bool_decide_eq_false_2.
  - rewrite EqualScalarInto_law. destruct (selects_pack n ((λ x, bool_decide (x = want)) <$> idx)) as (b & -> & Hs).
    { by intros ?%fmap_nil_inv. } { by rewrite len_fmap. }
    exists b. split; [done|]. eapply selects_ext; [done|]. intros i Hi. cbv beta. rewrite list_lookup_fmap.
    destruct (idx !! Z.to_nat i) as [x|] eqn:E; cbn; [|by rewrite bool_decide_eq_false_2].
    apply bool_decide_ext. split; [by intros ->|by intros [= ->]].
Qed.
End mask_rows.

(** The kernels, as their documentation states them. *)
#[export] Instance ref_masks : MaskOps :=
  {| EqualScalarInto idx want := (λ x, bool_decide (x = want)) <$> idx;
     MaskBits dst src v := digits (length dst) 8 (undigits 1 (lane v <$> src)) |}.
#[export] Instance ref_masks_laws : MaskOpsLaws ref_masks.
Proof. by constructor. Qed.
