(* ===== verification/Reader.v ===== *)
(** * The group reader

    [internal/storage/footer.go] and [vector.go]: the accessors a query runs on a
    parsed group, and the two caches a reader keeps. *)

From S2P Require Import Prelude Digits GoLib Kernels Indices Timestamps Compress DictSection DictLayout Postings Bloom Group GroupSafe.
Local Open Scope Z_scope.

(** ** Definitions *)

(** [(r *Reader) col]: the first column of that name. *)
Fixpoint col_loop (cols : list colMeta) (name : bytes) : option colMeta :=
  match cols with
  | [] => None
  | m :: cols' => if str_eqb (Name m) name then Some m else col_loop cols' name
  end.
Definition col (r : Reader) (name : bytes) : option colMeta := col_loop (r_cols r) name.

(** [(r *Reader) colIndex], from index [i]. *)
Fixpoint colIndex_loop (cols : list colMeta) (name : bytes) (i : Z) : Z :=
  match cols with
  | [] => -1
  | m :: cols' => if str_eqb (Name m) name then i else colIndex_loop cols' name (i + 1)
  end.
Definition colIndex (r : Reader) (name : bytes) : Z := colIndex_loop (r_cols r) name 0.

(** The column named, when it exists and has type [ty]. *)
Definition typed_col (r : Reader) (name : bytes) (ty : Z) : option colMeta :=
  match col r name with
  | Some m => if bool_decide (Type_ m = ty) then Some m else None
  | None => None
  end.

Definition TimeRangeMatches (r : Reader) (from to : Z) : bool :=
  bool_decide (r_TimeMin r < to) && bool_decide (from ≤ r_TimeMax r).
Definition ColumnExists (r : Reader) (name : bytes) : bool := match col r name with Some _ => true | None => false end.
Definition ColumnNames (r : Reader) : list bytes := Name <$> r_cols r.

(** [(r *Reader) dictSec] *)
Definition reader_dictSec (r : Reader) (m : colMeta) : outcome bytes :=
  slice (r_blob r) (DictOff m) (DictOff m + DictLen2 m).
Definition col_data (r : Reader) (m : colMeta) : outcome bytes :=
  slice (r_blob r) (DataOff m) (DataOff m + DataLen m).
Definition col_post (r : Reader) (m : colMeta) : outcome bytes :=
  slice (r_blob r) (PostOff m) (PostOff m + PostLen m).

Definition idxBytes (r : Reader) (m : colMeta) : Z :=
  if bool_decide (r_Rows r = 0) then 0 else ((r_Rows r * Width m + 31) / 32 + 1) * 4.

Definition DictLenOf (r : Reader) (name : bytes) : Z :=
  match typed_col r name ColDict with Some m => DictLen m | None => 0 end.

Record ColumnFootprint := Footprint {
  f_Name : bytes; f_Index : Z; f_Postings : Z; f_Dict : Z; f_Bloom : Z; f_TimeCol : Z }.
Definition ColumnBytes (r : Reader) : list ColumnFootprint :=
  (λ m, if bool_decide (Type_ m = ColTimestamp)
        then Footprint (Name m) 0 0 0 (len (Bloom m) * 8) (DataLen m)
        else Footprint (Name m) (PostOff m - DataOff m) (PostLen m) (DictLen2 m) (len (Bloom m) * 8) 0) <$> r_cols r.

Record ValueCount := VC { vc_Value : bytes; vc_Count : Z }.

Section reader.
Context {K : Simd} {F : Flate}.

Definition DictContains (r : Reader) (name value : bytes) : outcome bool :=
  match typed_col r name ColDict with
  | None => Ok false
  | Some m =>
      maybe ← bloomMaybe (Bloom m) value;
      if negb maybe then Ok false else
      sec ← reader_dictSec r m;
      id ← dictSectionSearch sec (DictLen m) value;
      Ok (bool_decide (0 ≤ id))
  end.

(** *** Timestamps *)

(** The buffers only decide where the result is written. *)
Definition Timestamps (r : Reader) (name : bytes) : outcome (list Z) :=
  match typed_col r name ColTimestamp with
  | None => Ok []
  | Some m => data ← col_data r m; decodeInto data (r_Rows r)
  end.
Definition TimestampAt (r : Reader) (name : bytes) (row : Z) : outcome (option Z) :=
  match typed_col r name ColTimestamp with
  | None => Ok None
  | Some m =>
      if bool_decide (row < 0 ∨ r_Rows r ≤ row) then Ok None
      else data ← col_data r m; t ← decodeTsAt data row; Ok (Some t)
  end.
Definition TimeRangeMaskInto (r : Reader) (name : bytes) (from to : Z) (out : list bool) : outcome (list bool) :=
  match typed_col r name ColTimestamp with
  | None => Ok []
  | Some m => data ← col_data r m; decodeTimeRangeInto data (r_Rows r) from to out
  end.
Definition TimeWindowSpan (r : Reader) (name : bytes) (from to : Z) : outcome (Z * Z) :=
  match typed_col r name ColTimestamp with
  | None => Ok (0, 0)
  | Some m => data ← col_data r m; timeWindowSpan data (r_Rows r) from to
  end.
Definition TimestampsRangeInto (r : Reader) (dst : list Z) (name : bytes) (lo hi : Z) : outcome (list Z) :=
  match typed_col r name ColTimestamp with
  | None => Ok []
  | Some m => data ← col_data r m; decodeTsRangeInto dst data lo hi
  end.
Definition TimestampsRange (r : Reader) (name : bytes) (lo hi : Z) : outcome (list Z) :=
  match typed_col r name ColTimestamp with
  | None => Ok []
  | Some m => data ← col_data r m; decodeTsRange data lo hi
  end.

(** *** Dictionary columns *)

Definition DictDecodeSome (r : Reader) (name : bytes) (want : list bool) : outcome (list bytes) :=
  match typed_col r name ColDict with
  | None => Ok []
  | Some m => sec ← reader_dictSec r m; dictSectionSome sec (DictLen m) want
  end.
Definition DictValueAt (r : Reader) (name : bytes) (row : Z) : outcome (option bytes) :=
  match typed_col r name ColDict with
  | None => Ok None
  | Some m =>
      if bool_decide (row < 0 ∨ r_Rows r ≤ row) then Ok None else
      data ← col_data r m;
      id ← read_bits data (row * Width m) (Width m);
      if bool_decide (DictLen m ≤ id) then Ok None else
      sec ← reader_dictSec r m;
      v ← dictSectionAt sec (DictLen m) id;
      Ok (Some v)
  end.
Definition DictID (r : Reader) (name value : bytes) : outcome Z :=
  match typed_col r name ColDict with
  | None => Ok (-1)
  | Some m => sec ← reader_dictSec r m; dictSectionSearch sec (DictLen m) value
  end.

(** [(id, count, ok)] *)
Definition EqualityCount (r : Reader) (name value : bytes) : outcome (Z * Z * bool) :=
  match typed_col r name ColDict with
  | None => Ok (0, 0, false)
  | Some m =>
      if bool_decide (PostLen m = 0) then Ok (0, 0, false) else
      maybe ← bloomMaybe (Bloom m) value;
      if negb maybe then Ok (-1, 0, true) else
      sec ← reader_dictSec r m;
      id ← dictSectionSearch sec (DictLen m) value;
      if bool_decide (id < 0) then Ok (-1, 0, true) else
      blob ← col_post r m;
      n ← postCount blob id;
      Ok (id, n, true)
  end.
(** [(rows, has)] *)
Definition EqualityRows (r : Reader) (name value : bytes) : outcome (list Z * bool) :=
  match typed_col r name ColDict with
  | None => Ok ([], false)
  | Some m =>
      if bool_decide (PostLen m = 0) then Ok ([], false) else
      maybe ← bloomMaybe (Bloom m) value;
      if negb maybe then Ok ([], true) else
      sec ← reader_dictSec r m;
      id ← dictSectionSearch sec (DictLen m) value;
      if bool_decide (id < 0) then Ok ([], true) else
      blob ← col_post r m;
      rows ← postingRows blob id (r_Rows r);
      Ok (rows, true)
  end.

(** *** Value counts *)

(** [le32(blob)]: indexes four bytes. *)
Definition le32_read (b : bytes) (at_ : Z) : outcome Z := get32 b at_.

(** The v8 loop of [ValueCountsInto]: ids [id, id+n). *)
Fixpoint vc_loop (n : nat) (id : Z) (cs : bytes) (cw : Z) (w : dictWalk) : outcome (list ValueCount) :=
  match n with
  | O => Ok []
  | S n' =>
      x ← walk_next true w;
      match x with
      | (_, None) => Ok []
      | (w', Some v) =>
          c ← extractCountBits cs id cw;
          rest ← vc_loop n' (id + 1) cs cw w';
          Ok (VC v c :: rest)
      end
  end.
(** Its v7 loop. *)
Fixpoint vc_loop7 (n : nat) (id : Z) (blob : bytes) (w : dictWalk) : outcome (list ValueCount) :=
  match n with
  | O => Ok []
  | S n' =>
      x ← walk_next true w;
      match x with
      | (_, None) => Ok []
      | (w', Some v) =>
          s ← le32_read blob (4 + id * 4);
          e ← le32_read blob (4 + (id + 1) * 4);
          rest ← vc_loop7 n' (id + 1) blob w';
          Ok (VC v (u32 (e - s)) :: rest)
      end
  end.

(** The two loops of [valueCountsMaterialized], over the decoded values. *)
Fixpoint vm_loop (vals : list bytes) (id : Z) (cs : bytes) (cw : Z) : outcome (list ValueCount) :=
  match vals with
  | [] => Ok []
  | v :: vals' => c ← extractCountBits cs id cw; rest ← vm_loop vals' (id + 1) cs cw; Ok (VC v c :: rest)
  end.
Fixpoint vm_loop7 (vals : list bytes) (id : Z) (blob : bytes) : outcome (list ValueCount) :=
  match vals with
  | [] => Ok []
  | v :: vals' =>
      s ← le32_read blob (4 + id * 4);
      e ← le32_read blob (4 + (id + 1) * 4);
      rest ← vm_loop7 vals' (id + 1) blob;
      Ok (VC v (u32 (e - s)) :: rest)
  end.

Definition valueCountsMaterialized (r : Reader) (m : colMeta) (blob : bytes) : outcome (list ValueCount) :=
  sec ← reader_dictSec r m;
  vals ← dictSectionAll true true sec (DictLen m);
  h ← postV8Header blob;
  match h with
  | Some h =>
      let n := Z.min (Z.min (DictLen m) (h_dictLen h)) (len vals) in
      vm_loop (take (Z.to_nat n) vals) 0 (h_counts h) (h_cw h)
  | None =>
      no ← le32_read blob 0;
      let n := Z.min (Z.min (no - 1) (DictLen m)) (len vals) in
      vm_loop7 (take (Z.to_nat n) vals) 0 blob
  end.

(** [fused] is the package variable [vcFused]; production sets it. *)
Definition ValueCountsInto (fused : bool) (r : Reader) (name : bytes) : outcome (list ValueCount) :=
  match typed_col r name ColDict with
  | None => Ok []
  | Some m =>
      if bool_decide (PostLen m = 0) then Ok [] else
      blob ← col_post r m;
      if negb fused then valueCountsMaterialized r m blob else
      sec ← reader_dictSec r m;
      w ← newDictWalk sec (DictLen m);
      h ← postV8Header blob;
      match h with
      | Some h => vc_loop (Z.to_nat (Z.min (DictLen m) (h_dictLen h))) 0 (h_counts h) (h_cw h) w
      | None =>
          no ← le32_read blob 0;
          vc_loop7 (Z.to_nat (Z.min (no - 1) (DictLen m))) 0 blob w
      end
  end.
Definition ValueCounts (r : Reader) (name : bytes) : outcome (list ValueCount) := ValueCountsInto true r name.

(** *** Vectors *)

Definition Vectors (r : Reader) (name : bytes) : outcome (Z * list Z) :=
  match typed_col r name ColVector with
  | None => Ok (0, [])
  | Some m =>
      if bool_decide (DataLen m < 4) then Ok (0, []) else
      b ← col_data r m;
      dim ← get32 b 0;
      data ← read_words (Z.to_nat ((len b - 4) / 4)) b 4;
      Ok (dim, data)
  end.

(** *** The caches *)

(** [idxCache] and [emptyCache] of a reader, with the package counters
    [indexCacheBudget] and [indexCacheUsed]. *)
Record caches := Caches {
  ca_idx : list (option (list Z)); ca_empty : list Z; ca_budget : Z; ca_used : Z }.
(** As [readGroup] leaves them. *)
Definition new_caches (r : Reader) (budget used : Z) : caches :=
  Caches (replicate (length (r_cols r)) None) (replicate (length (r_cols r)) (-1)) budget used.

Definition cachedIdx (s : caches) (ci : Z) : option (list Z) :=
  if bool_decide (ci < 0 ∨ len (ca_idx s) ≤ ci) then None else default None (ca_idx s !! Z.to_nat ci).
Definition cacheIdx (s : caches) (ci : Z) (ix : list Z) : caches :=
  if bool_decide (ci < 0 ∨ len (ca_idx s) ≤ ci) then s else
  let size := len ix * 4 in
  if bool_decide (size = 0 ∨ ca_budget s < ca_used s + size) then s else
  match ca_idx s !! Z.to_nat ci with
  | Some None => Caches (<[Z.to_nat ci := Some ix]> (ca_idx s)) (ca_empty s) (ca_budget s) (ca_used s + size)
  | _ => s
  end.

Definition decode_idx (r : Reader) (m : colMeta) : outcome (list Z) :=
  data ← slice (r_blob r) (DataOff m) (DataOff m + idxBytes r m);
  decodeIndices data (r_Rows r) (Width m).
Definition dictIndicesAt (r : Reader) (s : caches) (ci : Z) : outcome (list Z * caches) :=
  match cachedIdx s ci with
  | Some v => Ok (v, s)
  | None =>
      m ← index (r_cols r) ci;
      ix ← decode_idx r m;
      Ok (ix, cacheIdx s ci ix)
  end.

Definition DictIndicesRaw (r : Reader) (s : caches) (name : bytes) : outcome (list Z * caches) :=
  let ci := colIndex r name in
  if bool_decide (ci < 0) then Ok ([], s) else
  m ← index (r_cols r) ci;
  if bool_decide (Type_ m ≠ ColDict) then Ok ([], s) else dictIndicesAt r s ci.
Definition DictIndices (r : Reader) (s : caches) (name : bytes) : outcome (list Z * list bytes * caches) :=
  let ci := colIndex r name in
  if bool_decide (ci < 0) then Ok ([], [], s) else
  m ← index (r_cols r) ci;
  if bool_decide (Type_ m ≠ ColDict) then Ok ([], [], s) else
  x ← dictIndicesAt r s ci;
  let '(ix, s) := x in
  sec ← reader_dictSec r m;
  vals ← dictSectionAll true true sec (DictLen m);
  Ok (ix, vals, s).

(** [int32(n)] *)
Definition EmptyValueCount (r : Reader) (s : caches) (name : bytes) : outcome (Z * caches) :=
  let ci := colIndex r name in
  if bool_decide (ci < 0 ∨ len (ca_empty s) ≤ ci) then
    x ← EqualityCount r name []; Ok (x.1.2, s)
  else
    v ← index (ca_empty s) ci;
    if bool_decide (0 ≤ v) then Ok (v, s) else
    x ← EqualityCount r name [];
    let n := x.1.2 in
    em ← store (ca_empty s) ci (i32 n);
    Ok (n, Caches (ca_idx s) em (ca_budget s) (ca_used s)).
End reader.
