(* ===== verification/ReaderSafe.v ===== *)
(** * Queries on any accepted blob

    Every accessor of a reader that [ReadGroup] returned, on arbitrary bytes:
    none of them panics, and the rows they answer are rows of the group. The
    caches are transparent: a cached answer is the answer. *)

From S2P Require Import Prelude Digits GoLib Kernels Indices Timestamps Compress DictSection DictLayout Postings Bloom Group GroupSafe Reader.
From stdpp Require Import list relations.
Local Open Scope Z_scope.

Lemma col_loop_elem cols name m : col_loop cols name = Some m → m ∈ cols ∧ Name m = name.
Proof.
  induction cols as [|x cols IH]; cbn [col_loop]; [done|]. unfold str_eqb. case_bool_decide as E.
  - intros [= <-]. split; [apply elem_of_cons; by left|done].
  - intros [Hin Hn]%IH. split; [apply elem_of_cons; by right|done].
Qed.
Lemma typed_col_wf r name ty m :
  reader_wf r → typed_col r name ty = Some m → Type_ m = ty ∧ col_wf (r_blob r) (r_Rows r) m.
Proof.
  intros Hr. unfold typed_col, col. destruct (col_loop (r_cols r) name) as [m'|] eqn:E; [|done].
  case_bool_decide as Ht; [|done]. intros [= <-]. split; [done|]. apply col_loop_elem in E as [Hin _].
  pose proof (rw_cols r Hr) as Hc. rewrite Forall_forall in Hc. by apply Hc.
Qed.

(** The spans of a well-formed column. *)
Lemma col_spans r m :
  is_bytes (r_blob r) → col_wf (r_blob r) (r_Rows r) m →
  ∃ data post sec, col_data r m = Ok data ∧ is_bytes data ∧ len data = DataLen m ∧
    col_post r m = Ok post ∧ is_bytes post ∧ reader_dictSec r m = Ok sec ∧ is_bytes sec.
Proof.
  intros Hb [[Hu _ _] D P X _ _ _ _ _]. repeat (apply Forall_cons_1 in Hu as [? Hu]). unfold is_digit in *.
  unfold col_data, col_post, reader_dictSec.
  destruct (slice_returns (r_blob r) (DataOff m) (DataOff m + DataLen m)) as (data & E1 & L1); [lia..|].
  destruct (slice_returns (r_blob r) (PostOff m) (PostOff m + PostLen m)) as (post & E2 & L2); [lia..|].
  destruct (slice_returns (r_blob r) (DictOff m) (DictOff m + DictLen2 m)) as (sec & E3 & L3); [lia..|].
  exists data, post, sec. split_and!; try done; try lia; by eapply slice_bytes.
Qed.

Section robust.
Context {K : Simd} {KL : SimdLaws K} {F : Flate} {FL : FlateLaws F}.

Lemma bloom_col_returns b rows m v : col_wf b rows m → returns (bloomMaybe (Bloom m) v).
Proof. intros [[_ Hl _] _ _ _ _ _ _ _ _]. apply bloomMaybe_returns. change maxBloomWords with (2 ^ 20) in Hl. lia. Qed.

Lemma any_wanted_returns want base m : ∀ i,
  0 ≤ base + i → base + i + Z.of_nat m ≤ len want → returns (any_wanted m i base want).
Proof. intros i H0 Hl. destruct (any_wanted_spec want base m i H0 Hl) as (b & -> & _). by eexists. Qed.

Lemma dictSectionSome_returns sec n want :
  is_bytes sec → 0 ≤ n ≤ len want → ∃ out, dictSectionSome sec n want = Ok out ∧ len out = n.
Proof.
  intros Hs Hn. destruct (parseDictSec_returns sec Hs) as (d & E & Hd & _). pose proof (wf_nb d Hd).
  unfold dictSectionSome. rewrite E, bind_Ok, bool_decide_eq_false_2 by lia.
  destruct (forM_inv (λ k out, len out = n) (Z.to_nat (numBlocks d)) 0 (some_block d n want) (replicate (Z.to_nat n) []))
    as (out & -> & Hl); [rewrite len_replicate; lia| |by exists out].
  intros k out Hk Ho. unfold some_block. cbv zeta.
  destruct (decide (blockCount k n ≤ 0)) as [Hz|Hp].
  { replace (Z.to_nat (blockCount k n)) with 0%nat by lia. by exists out. }
  assert (0 ≤ k * dictBlock ∧ k * dictBlock + blockCount k n ≤ n) as Hc by (unfold blockCount, dictBlock in *; lia).
  destruct (any_wanted_returns want (k * dictBlock) (Z.to_nat (blockCount k n)) 0) as [b ->]; [lia..|].
  rewrite bind_Ok. destruct b; [|by exists out]. cbn [negb].
  destruct (blockInto_returns true d k [] Hd) as (raw & _ & -> & Hraw). rewrite bind_Ok.
  destruct (forM_inv (λ _ o, len o = n) (Z.to_nat (blockCount k n)) 0 (some_step raw (blockCount k n) (k * dictBlock) want) out)
    as (o & -> & Hl); [done| |by exists o].
  intros i o Hi Hlo. unfold some_step. destruct (index_returns want (k * dictBlock + i)) as [w ->]; [lia..|].
  rewrite bind_Ok. destruct w; [|by exists o].
  destruct (blockValAt_returns raw (blockCount k n) i Hraw) as [v ->]. rewrite bind_Ok, store_Ok by lia.
  eexists. split; [done|]. by rewrite len_insert.
Qed.

Lemma decodeIndices_returns b n w :
  is_bytes b → 0 ≤ n → 1 ≤ w ≤ 32 → (n * w + 31) / 32 * 4 ≤ len b → ∃ ix, decodeIndices b n w = Ok ix ∧ len ix = n.
Proof.
  intros Hb Hn Hw Hl. unfold decodeIndices. case_bool_decide as H0; [exists []; subst n; done|].
  rewrite bool_decide_eq_false_2 by lia. assert (0 ≤ len b / 4) by (apply Z.div_pos; len_lia).
  pose proof (Z_div_mod_eq_full (len b) 4). pose proof (Z.mod_pos_bound (len b) 4).
  destruct (read_words_spec (Z.to_nat (len b / 4)) b 0) as (ws & -> & Lw & Hws & _); [done|lia|lia|]. rewrite bind_Ok. cbv zeta.
  pose proof (Z_div_mod_eq_full n 32). pose proof (Z.mod_pos_bound n 32 ltac:(lia)).
  assert (0 ≤ n / 32) by (apply Z.div_pos; lia).
  assert (∃ head, (if bool_decide (0 < n / 32) then BitUnpackInto (Z.to_nat (n / 32 * 32)) ws w else Ok []) = Ok head ∧
                  len head = n / 32 * 32) as (head & -> & Lh).
  { case_bool_decide; [|exists []; split; [done|]; len_nil; lia]. eexists. split.
    - apply unpack_layout; [done|rewrite Z2Nat.id by lia; apply Z.mod_mul; lia|done|].
      rewrite Z2Nat.id by lia. pose proof (Z_div_mod_eq_full (n * w + 31) 32). pose proof (Z.mod_pos_bound (n * w + 31) 32).
      unfold len. rewrite Lw. nia.
    - rewrite len_digits. lia. }
  rewrite bind_Ok, decode_tail_spec, bind_Ok by (done || lia). eexists. split; [done|].
  rewrite len_app, Lh, len_digits. lia.
Qed.

(** The index decode of a dictionary column. *)
Lemma decode_idx_returns r m :
  reader_wf r → col_wf (r_blob r) (r_Rows r) m → Type_ m = ColDict → 0 < Width m →
  ∃ ix, decode_idx r m = Ok ix ∧ len ix = r_Rows r.
Proof.
  intros Hr Hm Ht Hw. pose proof (rw_rows r Hr) as Hrows. destruct (cw_idx _ _ _ Hm Ht Hw) as [H1 H2].
  pose proof (cw_width _ _ _ Hm) as Hw32. pose proof (cw_data _ _ _ Hm) as Hd.
  destruct (cw_meta _ _ _ Hm) as [Hu _ _]. repeat (apply Forall_cons_1 in Hu as [? Hu]). unfold is_digit in *.
  assert (0 ≤ (r_Rows r * Width m + 31) / 32) by (apply Z.div_pos; nia).
  unfold decode_idx, idxBytes. destruct (decide (r_Rows r = 0)) as [E0|E0].
  - rewrite bool_decide_eq_true_2, E0, slice_Ok, bind_Ok by lia. unfold decodeIndices. rewrite bool_decide_eq_true_2 by done.
    by eexists.
  - rewrite bool_decide_eq_false_2 by done.
    destruct (slice_returns (r_blob r) (DataOff m) (DataOff m + ((r_Rows r * Width m + 31) / 32 + 1) * 4)) as (data & Ed & Ld); [lia..|].
    rewrite Ed, bind_Ok. apply decodeIndices_returns; [|lia|lia|lia]. eapply slice_bytes; [apply (rw_bytes r Hr)|exact Ed].
Qed.

Lemma vc_loop_returns cs cw n : ∀ id w cur,
  is_bytes cs → 0 ≤ cw ≤ 32 → 0 ≤ id → walk_inv w cur → returns (vc_loop n id cs cw w).
Proof.
  induction n as [|n IH]; intros id w cur Hc Hw Hid Hinv; cbn [vc_loop]; [by eexists|].
  destruct (walk_next_spec true w cur Hinv) as (w' & cur' & [v|] & -> & Hinv' & _); rewrite bind_Ok; [|by eexists].
  destruct (extract_returns cs id cw Hc Hid Hw) as (c & -> & _). rewrite bind_Ok.
  destruct (IH (id + 1) w' cur' Hc Hw ltac:(lia) Hinv') as [rest ->]. by eexists.
Qed.

Lemma newDictWalk_inv sec n :
  is_bytes sec → ∃ w, newDictWalk sec n = Ok w ∧ walk_inv w [].
Proof.
  intros Hs. destruct (parseDictSec_returns sec Hs) as (d & E & Hd & _). unfold newDictWalk. rewrite E, bind_Ok.
  eexists. split; [done|]. constructor; simpl; [done|lia|done|]. intros j v. by rewrite lookup_nil.
Qed.

(** on a reader of an accepted blob, whatever its bytes, no dictionary
    accessor panics, and a posting list it answers is strictly ascending and
    inside the group, so materializing it never indexes past a column. *)
Theorem dict_accessors_safe r name :
  reader_wf r →
  (∀ value, returns (DictContains r name value)) ∧
  (∀ value, returns (DictID r name value)) ∧
  (∀ row, returns (DictValueAt r name row)) ∧
  (∀ want, DictLenOf r name ≤ len want → returns (DictDecodeSome r name want)) ∧
  (∀ value, returns (EqualityCount r name value)) ∧
  (∀ value, ∃ rows has, EqualityRows r name value = Ok (rows, has) ∧ row_list (r_Rows r) rows) ∧
  (∀ m post h, typed_col r name ColDict = Some m → col_post r m = Ok post → postV8Header post = Ok (Some h) →
     returns (ValueCounts r name)).
Proof.
  intros Hr. unfold DictContains, DictID, DictValueAt, DictDecodeSome, EqualityCount, EqualityRows, DictLenOf, ValueCounts, ValueCountsInto.
  destruct (typed_col r name ColDict) as [m|] eqn:E.
  2:{ split_and!; try (intros; by eexists). intros. do 2 eexists. split; [done|apply row_list_nil]. }
  destruct (typed_col_wf r name ColDict m Hr E) as [Ht Hm].
  destruct (col_spans r m (rw_bytes r Hr) Hm) as (data & post & sec & Ed & Hd & _ & Ep & Hp & Es & Hs).
  pose proof (λ v, bloom_col_returns _ _ m v Hm) as Hbl. pose proof (cw_dictlen _ _ _ Hm) as Hdl.
  pose proof (cw_width _ _ _ Hm) as Hw. rewrite Ed, Ep, Es.
  assert (∀ value, ∃ id, dictSectionSearch sec (DictLen m) value = Ok id) as Hsearch.
  { intros value. destruct (dictSectionSearch_returns sec (DictLen m) value Hs) as (id & -> & _). by eexists. }
  split_and!.
  - intros value. destruct (Hbl value) as [[] ->]; rewrite ?bind_Ok; cbn [negb]; [|by eexists].
    destruct (Hsearch value) as [id ->]. by eexists.
  - intros value. rewrite bind_Ok. apply Hsearch.
  - intros row. case_bool_decide; [by eexists|]. rewrite !bind_Ok, read_bits_spec, bind_Ok by (done || nia).
    case_bool_decide; [by eexists|]. rewrite bind_Ok.
    destruct (dictSectionAt_returns sec (DictLen m) ((undigits 8 data / 2 ^ (row * Width m)) mod 2 ^ Width m) Hs) as [v ->]. by eexists.
  - intros want Hwant. rewrite bind_Ok. destruct (dictSectionSome_returns sec (DictLen m) want Hs) as (o & -> & _); [lia|by eexists].
  - intros value. case_bool_decide; [by eexists|]. destruct (Hbl value) as [[] ->]; rewrite ?bind_Ok; cbn [negb]; [|by eexists].
    destruct (Hsearch value) as [id ->]. rewrite bind_Ok. case_bool_decide; [by eexists|]. rewrite bind_Ok.
    destruct (postCount_returns post id Hp) as (c & -> & _). by eexists.
  - intros value. case_bool_decide; [do 2 eexists; split; [done|apply row_list_nil]|].
    destruct (Hbl value) as [[] ->]; rewrite ?bind_Ok; cbn [negb]; [|do 2 eexists; split; [done|apply row_list_nil]].
    destruct (Hsearch value) as [id ->]. rewrite bind_Ok. case_bool_decide; [do 2 eexists; split; [done|apply row_list_nil]|].
    rewrite bind_Ok. destruct (postingRows_good post id (r_Rows r) Hp) as (rows & -> & Hrl & _).
    do 2 eexists. split; [done|exact Hrl].
  - intros m' post' h [= <-] E' Eh. rewrite Ep in E'. injection E' as <-. case_bool_decide; [by eexists|].
    rewrite !bind_Ok. cbn [negb]. destruct (newDictWalk_inv sec (DictLen m) Hs) as (w & -> & Hinv). rewrite bind_Ok, Eh, bind_Ok.
    destruct (postV8Header_returns post Hp) as (o & Eo & Ho). rewrite Eh in Eo. injection Eo as <-.
    destruct (Ho h eq_refl) as (Hcw & Hcs & _). eapply vc_loop_returns; [done|lia|lia|exact Hinv].
Qed.

Lemma ts_stream_returns b rows : ts_valid b rows → returns (decodeInto b rows).
Proof.
  intros [Hb Hr Hl (nb & bs & E1 & E2 & Hnb & Hbs & Hq & Hfit)]. unfold decodeInto, tsStream, tsHeaderLen.
  unfold tsHdrStride in *. rewrite bool_decide_eq_false_2 by lia. rewrite E1, !bind_Ok, slice_from_Ok by lia. by eexists.
Qed.

(** On a reader of an accepted blob of at least one row, whatever its bytes,
    no timestamp accessor panics; the time mask has one entry per row. *)
Theorem ts_accessors_safe r name from to :
  reader_wf r → 0 < r_Rows r →
  returns (Reader.Timestamps r name) ∧
  (∀ row, returns (TimestampAt r name row)) ∧
  returns (TimeWindowSpan r name from to) ∧
  (∀ buf, ∃ mask, TimeRangeMaskInto r name from to buf = Ok mask ∧
     (typed_col r name ColTimestamp ≠ None → len mask = r_Rows r)) ∧
  (∀ dst lo hi, 0 ≤ lo → hi ≤ r_Rows r → returns (TimestampsRangeInto r dst name lo hi)).
Proof.
  intros Hr Hrows. unfold Reader.Timestamps, TimestampAt, TimeWindowSpan, TimeRangeMaskInto, TimestampsRangeInto.
  destruct (typed_col r name ColTimestamp) as [m|] eqn:E; [|split_and!; try by (intros; eexists)].
  destruct (typed_col_wf r name ColTimestamp m Hr E) as [Ht Hm].
  destruct (cw_ts _ _ _ Hm Ht Hrows) as (data & Ed & Hv). unfold col_data. rewrite Ed, !bind_Ok. split_and!.
  - by apply ts_stream_returns.
  - intros row. case_bool_decide; [by eexists|]. rewrite bind_Ok.
    destruct (decodeTsAt_returns data (r_Rows r) row Hv) as [t ->]; [lia|]. by eexists.
  - by apply timeWindowSpan_returns.
  - intros buf. rewrite bind_Ok. destruct (decodeTimeRange_returns data (r_Rows r) from to buf Hv) as (o & -> & Hl). by exists o.
  - intros dst lo hi Hlo Hhi. rewrite bind_Ok. by apply (decodeTsRange_returns data (r_Rows r)).
Qed.
End robust.

(** ** The caches are transparent *)

Section caching.
Context {K : Simd} {KL : SimdLaws K} {F : Flate} {FL : FlateLaws F}.

(** A reader without caches: every question is answered from the blob. *)
Definition no_caches : caches := Caches [] [] 0 0.

(** Every entry holds the answer the blob gives. *)
Record caches_ok (r : Reader) (s : caches) : Prop := {
  ck_len : length (ca_idx s) = length (r_cols r);
  ck_elen : length (ca_empty s) = length (r_cols r);
  ck_idx ci m ix : r_cols r !! ci = Some m → ca_idx s !! ci = Some (Some ix) → decode_idx r m = Ok ix;
  ck_empty ci m v : r_cols r !! ci = Some m → ca_empty s !! ci = Some v → 0 ≤ v →
    ∃ id ok, EqualityCount r (Name m) [] = Ok (id, v, ok) }.

Lemma new_caches_ok r budget used : caches_ok r (new_caches r budget used).
Proof.
  constructor; cbn [ca_idx ca_empty new_caches]; [apply length_replicate..| |].
  - intros ci m ix _ [H _]%lookup_replicate. done.
  - intros ci m v _ [-> _]%lookup_replicate. lia.
Qed.

Lemma colIndex_spec cols name i ci :
  colIndex_loop cols name i = ci → ci = -1 ∨ i ≤ ci ∧ ∃ m, cols !! Z.to_nat (ci - i) = Some m ∧ Name m = name.
Proof.
  revert i. induction cols as [|m cols IH]; intros i; cbn [colIndex_loop]; [by left|].
  unfold str_eqb. case_bool_decide as E.
  - intros <-. right. rewrite Z.sub_diag. split; [lia|]. by exists m.
  - intros [-> |(Hle & m' & Hm & Hn)]%IH; [by left|]. right. split; [lia|]. exists m'. split; [|done].
    by replace (Z.to_nat (ci - i)) with (S (Z.to_nat (ci - (i + 1)))) by lia.
Qed.

Lemma cacheIdx_ok r s ci m ix :
  caches_ok r s → r_cols r !! Z.to_nat ci = Some m → 0 ≤ ci → decode_idx r m = Ok ix → caches_ok r (cacheIdx s ci ix).
Proof.
  intros Hs Hm H0 Hd. unfold cacheIdx. case_bool_decide; [done|]. cbv zeta. case_bool_decide; [done|].
  destruct (ca_idx s !! Z.to_nat ci) as [[|]|] eqn:E; try done. destruct Hs as [L1 L2 I1 I2].
  constructor; cbn [ca_idx ca_empty]; [by rewrite length_insert|done| |done].
  intros cj m' ix' Hm' Hix. destruct (decide (cj = Z.to_nat ci)) as [-> |Hne].
  - rewrite list_lookup_insert_eq in Hix by (by eapply lookup_lt_Some). congruence.
  - rewrite list_lookup_insert_ne in Hix by done. by eapply I1.
Qed.

Lemma dictIndicesAt_spec r s ci m :
  caches_ok r s → 0 ≤ ci → r_cols r !! Z.to_nat ci = Some m →
  ∃ s', caches_ok r s' ∧ dictIndicesAt r s ci = (ix ← decode_idx r m; Ok (ix, s')).
Proof.
  intros Hs H0 Hm. pose proof (lookup_lt_Some _ _ _ Hm) as Hlt. unfold dictIndicesAt, cachedIdx.
  rewrite bool_decide_eq_false_2 by (unfold len; rewrite (ck_len r s Hs); lia).
  destruct (ca_idx s !! Z.to_nat ci) as [[ix|]|] eqn:E; cbn [default].
  - exists s. split; [done|]. by rewrite (ck_idx r s Hs _ m ix Hm E), bind_Ok.
  - rewrite (index_Ok _ _ m), bind_Ok by done. destruct (decode_idx r m) as [ix|] eqn:Ed; [|by exists s].
    rewrite !bind_Ok. exists (cacheIdx s ci ix). split; [by eapply cacheIdx_ok|done].
  - rewrite (index_Ok _ _ m), bind_Ok by done. destruct (decode_idx r m) as [ix|] eqn:Ed; [|by exists s].
    rewrite !bind_Ok. exists (cacheIdx s ci ix). split; [by eapply cacheIdx_ok|done].
Qed.

Lemma dictIndicesAt_uncached r ci m :
  0 ≤ ci → r_cols r !! Z.to_nat ci = Some m → dictIndicesAt r no_caches ci = (ix ← decode_idx r m; Ok (ix, no_caches)).
Proof.
  intros H0 Hm. unfold dictIndicesAt, cachedIdx. rewrite bool_decide_eq_true_2 by (right; done).
  rewrite (index_Ok _ _ m), bind_Ok by done. destruct (decode_idx r m); [|done]. rewrite !bind_Ok. unfold cacheIdx.
  by rewrite bool_decide_eq_true_2 by (right; done).
Qed.

(** One query against a reader with caches, or a change of the package's
    counters by anyone else. *)
Inductive cache_step (r : Reader) : caches → caches → Prop :=
| step_indices s name ix s' : DictIndicesRaw r s name = Ok (ix, s') → cache_step r s s'
| step_values s name ix vals s' : DictIndices r s name = Ok (ix, vals, s') → cache_step r s s'
| step_count s name n s' : EmptyValueCount r s name = Ok (n, s') → cache_step r s s'
| step_counters s budget used : cache_step r s (Caches (ca_idx s) (ca_empty s) budget used).

Lemma DictIndicesRaw_step r s name :
  caches_ok r s → ∃ s', caches_ok r s' ∧
    DictIndicesRaw r s name = (x ← DictIndicesRaw r no_caches name; Ok (x.1, s')).
Proof.
  intros Hs. unfold DictIndicesRaw. cbv zeta. set (ci := colIndex r name). case_bool_decide as Hneg; [by exists s|].
  destruct (colIndex_spec (r_cols r) name 0 ci eq_refl) as [?|(H0 & m & Hm & _)]; [lia|]. rewrite Z.sub_0_r in Hm.
  rewrite (index_Ok _ _ m), !bind_Ok by done. case_bool_decide; [by exists s|].
  destruct (dictIndicesAt_spec r s ci m Hs H0 Hm) as (s' & Hs' & ->). exists s'. split; [done|].
  rewrite (dictIndicesAt_uncached r ci m H0 Hm). by destruct (decode_idx r m).
Qed.
Lemma DictIndices_step r s name :
  caches_ok r s → ∃ s', caches_ok r s' ∧
    DictIndices r s name = (x ← DictIndices r no_caches name; Ok (x.1, s')).
Proof.
  intros Hs. unfold DictIndices. cbv zeta. set (ci := colIndex r name). case_bool_decide as Hneg; [by exists s|].
  destruct (colIndex_spec (r_cols r) name 0 ci eq_refl) as [?|(H0 & m & Hm & _)]; [lia|]. rewrite Z.sub_0_r in Hm.
  rewrite (index_Ok _ _ m), !bind_Ok by done. case_bool_decide; [by exists s|].
  destruct (dictIndicesAt_spec r s ci m Hs H0 Hm) as (s' & Hs' & ->). exists s'. split; [done|].
  rewrite (dictIndicesAt_uncached r ci m H0 Hm). destruct (decode_idx r m); [|done]. rewrite !bind_Ok.
  destruct (reader_dictSec r m); [|done]. rewrite !bind_Ok. by destruct (dictSectionAll true true _ _).
Qed.

Lemma i32_nonneg n : is_u32 n → 0 ≤ i32 n → i32 n = n.
Proof. unfold is_digit, i32. intros Hn. destruct (decide (n < 2 ^ 31)).
  - rewrite Z.mod_small by lia. lia.
  - replace (n + 2 ^ 31) with (n - 2 ^ 31 + 1 * 2 ^ 32) by lia. rewrite Z_mod_plus_full, Z.mod_small by lia. lia.
Qed.
Lemma EqualityCount_u32 r name value x :
  reader_wf r → EqualityCount r name value = Ok x → is_u32 x.1.2.
Proof.
  intros Hr. unfold EqualityCount. assert (is_u32 0) as H0 by (unfold is_digit; lia).
  destruct (typed_col r name ColDict) as [m|] eqn:E; [|by intros [= <-]].
  destruct (typed_col_wf r name ColDict m Hr E) as [Ht Hm].
  destruct (col_spans r m (rw_bytes r Hr) Hm) as (data & post & sec & _ & _ & _ & Ep & Hp & Es & Hs).
  case_bool_decide; [by intros [= <-]|]. destruct (bloom_col_returns _ _ m value Hm) as [[] ->]; rewrite bind_Ok; cbn [negb]; [|by intros [= <-]].
  rewrite Es, bind_Ok. destruct (dictSectionSearch_returns sec (DictLen m) value Hs) as (id & -> & _). rewrite bind_Ok.
  case_bool_decide; [by intros [= <-]|]. rewrite Ep, bind_Ok. destruct (postCount_returns post id Hp) as (c & -> & Hc).
  rewrite bind_Ok. by intros [= <-].
Qed.
Lemma EmptyValueCount_step r s name :
  reader_wf r → caches_ok r s → ∃ s', caches_ok r s' ∧
    EmptyValueCount r s name = (x ← EqualityCount r name []; Ok (x.1.2, s')).
Proof.
  intros Hr Hs. unfold EmptyValueCount. cbv zeta. set (ci := colIndex r name). case_bool_decide as Hneg; [by exists s|].
  destruct (colIndex_spec (r_cols r) name 0 ci eq_refl) as [?|(H0 & m & Hm & Hname)]; [lia|]. rewrite Z.sub_0_r in Hm.
  destruct (lookup_lt_is_Some_2 (ca_empty s) (Z.to_nat ci)) as [v Ev]; [unfold len in *; lia|].
  rewrite (index_Ok _ _ v), bind_Ok by done. case_bool_decide as Hv.
  - destruct (ck_empty r s Hs _ m v Hm Ev Hv) as (id & ok & E). rewrite Hname in E. exists s. by rewrite E.
  - destruct (EqualityCount r name []) as [x|] eqn:Ex; [|by exists s]. rewrite !bind_Ok, store_Ok, bind_Ok by lia.
    eexists. split; [|done]. destruct Hs as [L1 L2 I1 I2]. constructor; cbn [ca_idx ca_empty]; [done|by rewrite length_insert|done|].
    intros cj m' v' Hm' Hv' Hpos. destruct (decide (cj = Z.to_nat ci)) as [-> |Hne].
    + rewrite list_lookup_insert_eq in Hv' by (by eapply lookup_lt_Some). injection Hv' as <-.
      rewrite Hm in Hm'. injection Hm' as <-. pose proof (EqualityCount_u32 r name [] x Hr Ex) as Hu.
      rewrite (i32_nonneg _ Hu Hpos), Hname, Ex. destruct x as [[id n] ok]. by exists id, ok.
    + rewrite list_lookup_insert_ne in Hv' by done. by eapply I2.
Qed.

Lemma cache_step_ok r s s' : reader_wf r → caches_ok r s → cache_step r s s' → caches_ok r s'.
Proof.
  intros Hr Hs Hst. destruct Hst as [s name ix s' E|s name ix vals s' E|s name n s' E|s budget used].
  - destruct (DictIndicesRaw_step r s name Hs) as (s1 & H1 & E1). rewrite E in E1.
    destruct (DictIndicesRaw r no_caches name); [|done]. by injection E1 as -> ->.
  - destruct (DictIndices_step r s name Hs) as (s1 & H1 & E1). rewrite E in E1.
    destruct (DictIndices r no_caches name) as [[[? ?] ?]|]; [|done]. by injection E1 as -> -> ->.
  - destruct (EmptyValueCount_step r s name Hr Hs) as (s1 & H1 & E1). rewrite E in E1.
    destruct (EqualityCount r name []); [|done]. by injection E1 as -> ->.
  - by destruct Hs.
Qed.

(** In every state a sequence of queries can bring a reader's caches to,
    under any cache budget and whatever other readers do to the shared counters,
    each cached accessor answers exactly what an uncached one answers. *)
Theorem caches_transparent r s name budget used :
  reader_wf r → rtc (cache_step r) (new_caches r budget used) s →
  (∃ s', DictIndicesRaw r s name = (x ← DictIndicesRaw r no_caches name; Ok (x.1, s'))) ∧
  (∃ s', DictIndices r s name = (x ← DictIndices r no_caches name; Ok (x.1, s'))) ∧
  (∃ s', EmptyValueCount r s name = (x ← EqualityCount r name []; Ok (x.1.2, s'))).
Proof.
  intros Hr Hreach. assert (caches_ok r s) as Hs.
  { revert Hreach. generalize (new_caches_ok r budget used). generalize (new_caches r budget used). intros s0 H0 Hreach.
    induction Hreach as [|s0 s1 s Hst _ IH]; [done|]. apply IH. by eapply cache_step_ok. }
  split_and!.
  - destruct (DictIndicesRaw_step r s name Hs) as (s' & _ & E). by exists s'.
  - destruct (DictIndices_step r s name Hs) as (s' & _ & E). by exists s'.
  - destruct (EmptyValueCount_step r s name Hr Hs) as (s' & _ & E). by exists s'.
Qed.

(** The decoded-index cache never takes the shared counter past its budget,
    and the counter grows by exactly the bytes of an entry that was stored. *)
Theorem cacheIdx_budget s ci ix :
  ca_used (cacheIdx s ci ix) ≤ Z.max (ca_used s) (ca_budget s) ∧
  ca_budget (cacheIdx s ci ix) = ca_budget s ∧
  (ca_used (cacheIdx s ci ix) = ca_used s ∧ ca_idx (cacheIdx s ci ix) = ca_idx s ∨
   ca_used (cacheIdx s ci ix) = ca_used s + len ix * 4 ∧ ca_idx s !! Z.to_nat ci = Some None ∧
   ca_idx (cacheIdx s ci ix) = <[Z.to_nat ci := Some ix]> (ca_idx s)).
Proof.
  unfold cacheIdx. case_bool_decide; [split_and!; [lia|done|by left]|]. cbv zeta.
  case_bool_decide; [split_and!; [lia|done|by left]|].
  destruct (ca_idx s !! Z.to_nat ci) as [[|]|] eqn:E; cbn; (split_and!; [lia|done|]); [by left|by right|by left].
Qed.
End caching.

(** ** The two arms of [ValueCountsInto] *)

Section value_counts.
Context {K : Simd} {KL : SimdLaws K} {F : Flate} {FL : FlateLaws F}.

Lemma vc_loop_vm cs cw n : ∀ id w cur,
  walk_inv w cur → vc_loop n id cs cw w = vm_loop (take n (walk_rest w cur)) id cs cw.
Proof.
  induction n as [|n IH]; intros id w cur Hinv; cbn [vc_loop]; [done|].
  destruct (walk_next_spec true w cur Hinv) as (w' & cur' & [v|] & -> & Hinv' & ->); rewrite bind_Ok; [|done].
  cbn [take vm_loop]. destruct (extractCountBits cs id cw); [|done]. rewrite !bind_Ok. by rewrite (IH _ w' cur').
Qed.
Lemma vc_loop7_vm blob n : ∀ id w cur,
  walk_inv w cur → vc_loop7 n id blob w = vm_loop7 (take n (walk_rest w cur)) id blob.
Proof.
  induction n as [|n IH]; intros id w cur Hinv; cbn [vc_loop7]; [done|].
  destruct (walk_next_spec true w cur Hinv) as (w' & cur' & [v|] & -> & Hinv' & ->); rewrite bind_Ok; [|done].
  cbn [take vm_loop7]. destruct (le32_read blob (4 + id * 4)); [|done]. rewrite !bind_Ok.
  destruct (le32_read blob (4 + (id + 1) * 4)); [|done]. rewrite !bind_Ok. by rewrite (IH _ w' cur').
Qed.

Lemma newDictWalk_rest sec n :
  is_bytes sec → 0 ≤ n → ∃ w vals, newDictWalk sec n = Ok w ∧ walk_inv w [] ∧
    dictSectionAll true true sec n = Ok vals ∧ walk_rest w [] = vals.
Proof.
  intros Hs Hn. destruct (parseDictSec_returns sec Hs) as (d & E & Hd & _). unfold newDictWalk. rewrite E, bind_Ok.
  do 2 eexists. split; [done|]. split; [constructor; simpl; [done|lia|done|]; intros j v; by rewrite lookup_nil|].
  split; [by apply dictSectionAll_spec|]. unfold walk_rest. simpl. by rewrite ?drop_nil, Z.sub_0_r.
Qed.

Lemma take_min_len {A} (l : list A) n : take (Z.to_nat (Z.min n (len l))) l = take (Z.to_nat n) l.
Proof.
  destruct (decide (n ≤ len l)); [by rewrite Z.min_l by lia|]. rewrite Z.min_r by lia.
  rewrite !take_ge; [done|unfold len in *; lia..].
Qed.

(** On any accepted blob, streaming the values off the dictionary walk and
    collecting them first give the same value counts; the two arms even panic
    on the same (version 7) blobs. *)
Theorem ValueCountsInto_arms r name :
  reader_wf r → ValueCountsInto true r name = ValueCountsInto false r name.
Proof.
  intros Hr. unfold ValueCountsInto. destruct (typed_col r name ColDict) as [m|] eqn:E; [|done].
  destruct (typed_col_wf r name ColDict m Hr E) as [_ Hm]. pose proof (cw_dictlen _ _ _ Hm) as Hdl.
  destruct (col_spans r m (rw_bytes r Hr) Hm) as (data & post & sec & _ & _ & _ & Ep & Hp & Es & Hs).
  case_bool_decide; [done|]. rewrite Ep, !bind_Ok. cbn [negb]. unfold valueCountsMaterialized. rewrite Es, !bind_Ok.
  destruct (newDictWalk_rest sec (DictLen m) Hs ltac:(lia)) as (w & vals & -> & Hinv & -> & Hrest). rewrite !bind_Ok.
  destruct (postV8Header post) as [[h|]|]; [| |done]; rewrite !bind_Ok.
  - rewrite (vc_loop_vm _ _ _ _ w [] Hinv), Hrest. by rewrite take_min_len.
  - destruct (le32_read post 0) as [no|]; [|done]. rewrite !bind_Ok.
    rewrite (vc_loop7_vm _ _ _ w [] Hinv), Hrest. by rewrite take_min_len.
Qed.
End value_counts.
