(* ===== verification/ReaderOk.v ===== *)
(** * Queries on a marshalled group

    The reader of a group that was marshalled answers every query from the
    group's columns. [dict_view] and [ts_view] are what a stored column promises
    the accessors; the refinement at the end goes from the raw values of a table
    to the answers. *)

From S2P Require Import Prelude Digits GoLib Kernels Indices Timestamps Compress DictSection DictLayout Postings Bloom Group GroupSafe GroupLayout Reader ReaderSafe.
From stdpp Require Import list sorting.
Local Open Scope Z_scope.

(** ** Finding a column *)

Fixpoint find_col (cs : list Column) (name : bytes) : option Column :=
  match cs with
  | [] => None
  | c :: cs' => if str_eqb (c_Name c) name then Some c else find_col cs' name
  end.

(** The rows, from [row], that hold [v]. *)
Fixpoint rows_where (row : Z) (vs : list bytes) (v : bytes) : list Z :=
  match vs with
  | [] => []
  | u :: vs' => if str_eqb u v then row :: rows_where (row + 1) vs' v else rows_where (row + 1) vs' v
  end.

(** [i] is the id of [v] in a dictionary, -1 when it has none. *)
Definition id_of (dict : list bytes) (v : bytes) (i : Z) : Prop :=
  0 ≤ i ∧ dict !! Z.to_nat i = Some v ∨ i = -1 ∧ v ∉ dict.

(** The value of each row of a dictionary column. *)
Definition row_values (d : DictColumn) : list bytes := val_at (Dict d) <$> Indices d.

Section reader_ok.
Context {K : Simd} {KL : SimdLaws K} {F : Flate} {FL : FlateLaws F}.

Lemma col_stored g r name c :
  reader_of g r → find_col (g_Columns g) name = Some c →
  ∃ m, col r name = Some m ∧ stored g (r_blob r) c m ∧ c ∈ g_Columns g.
Proof.
  intros Hr. unfold col. pose proof (ro_cols g r Hr) as Hc. revert Hc. generalize (r_cols r). generalize (g_Columns g).
  intros cs ms Hc. induction Hc as [|c' m cs ms Hs Hst IH]; cbn [find_col col_loop]; [done|].
  destruct (stored_name _ _ _ _ Hs) as [-> _]. destruct (str_eqb (c_Name c') name).
  - intros [= <-]. exists m. split_and!; [done..|]. apply elem_of_cons. by left.
  - intros (m' & ? & ? & ?)%IH. exists m'. split_and!; [done..|]. apply elem_of_cons. by right.
Qed.

(** What the accessors rely on for a dictionary column. *)
Record dict_view (g : Group) (r : Reader) (name : bytes) (d : DictColumn) : Prop := {
  dv_wf : dict_col_wf (r_Rows r) d;
  dv_rows : 0 ≤ r_Rows r ≤ 2 ^ 24;
  dv_col : ∃ m sec rest, typed_col r name ColDict = Some m ∧ DictLen m = len (Dict d) ∧
    Width m = bitWidth (len (Dict d)) ∧ 
    buildDictBloom (Dict d) = Ok (Bloom m) ∧
    reader_dictSec r m = Ok sec ∧ dict_layout sec (Dict d) ∧
    col_post r m = Ok (postings_of g d) ∧ PostLen m = len (postings_of g d) ∧ len (postings_of g d) < 2 ^ 32 ∧
    col_data r m = Ok (encodeIndices (Indices d) (Width m) ++ rest) ∧ is_bytes rest ∧
    at_off (r_blob r) (DataOff m) (encodeIndices (Indices d) (Width m)) }.

Lemma dict_view_of g r name nm d ts vec dim :
  group_wf g → reader_of g r → find_col (g_Columns g) name = Some (MkColumn nm ColDict (Some d) ts vec dim) →
  dict_view g r name d.
Proof.
  intros Hg Hr Hf. destruct (col_stored g r name _ Hr Hf) as (m & Em & Hs & Hin).
  pose proof (gw_cols g Hg) as Hc. rewrite Forall_forall in Hc. specialize (Hc _ Hin).
  pose proof (gw_rows g Hg) as Hrows. pose proof (ro_size g r Hr) as Hsz.
  inversion Hc as [nm' d' ts' vec' dim' Hd E1| |]; subst. inversion Hs as [nm' d' ts' vec' dim' bloom sec mn mx off Ebl Esec w data po do_ Umn Umx Ha E1 E2| |]; subst.
  constructor; [by rewrite (ro_rows g r Hr)|by rewrite (ro_rows g r Hr)|].
  destruct (marshalDictSection_layout (Dict d) (g_Compact g) (dw_bytes _ _ Hd) (dw_size _ _ Hd)) as (sec' & Es & Hl).
  rewrite Esec in Es. injection Es as <-. pose proof (at_off_bound _ _ _ Ha) as Hb. rewrite !len_app in Hb. len_facts.
  pose proof Ha as Ha0. apply at_off_app in Ha0 as [A1 Ha0]. apply at_off_app in Ha0 as [A2 A3].
  eexists _, sec, (postings_of g d ++ sec). unfold typed_col, reader_dictSec, col_post, col_data. rewrite Em.
  cbn [Type_]. rewrite bool_decide_eq_true_2 by done. split; [done|].
  cbn [DictLen Width Bloom DictOff DictLen2 PostOff PostLen DataOff DataLen].
  split_and!; try done.
  - by apply at_off_slice.
  - apply Hl. lia.
  - by apply at_off_slice.
  - lia.
  - apply at_off_slice; [done|]. rewrite !len_app. unfold data. lia.
  - apply Forall_app_2; [|apply (dl_bytes sec (Dict d)), Hl; lia]. unfold postings_of.
    destruct (g_NoPostings g); [apply Forall_nil_2|]. destruct Hd as [D1 _ _ _ _ D6]. apply blob_bytes_bytes; [done|lia].
Qed.

(** ** Dictionary columns *)

Lemma row_values_lookup rows d i v :
  dict_col_wf rows d → row_values d !! i = Some v →
  ∃ x, Indices d !! i = Some x ∧ 0 ≤ x < len (Dict d) ∧ Dict d !! Z.to_nat x = Some v.
Proof.
  intros [_ _ _ _ _ D6] Hi. unfold row_values in Hi. rewrite list_lookup_fmap in Hi.
  destruct (Indices d !! i) as [x|] eqn:Ex; [|done]. injection Hi as <-. exists x.
  rewrite Forall_lookup in D6. pose proof (D6 _ _ Ex) as Hx. split_and!; [done|lia|lia|]. by apply val_at_lookup.
Qed.

Lemma DictValueAt_view g r name d row v :
  dict_view g r name d → row_values d !! row = Some v → DictValueAt r name (Z.of_nat row) = Ok (Some v).
Proof.
  intros [Hw Hrows (m & sec & rest & Et & Edl & Ew & _ & Es & Hl & _ & _ & _ & Ed & Hrest & _)] Hv.
  destruct (row_values_lookup _ d row v Hw Hv) as (x & Hx & Hxr & Hxd).
  unfold DictValueAt. rewrite Et. pose proof (lookup_lt_Some _ _ _ Hx) as Hlt.
  destruct Hw as [D1 D2 D3 D4 D5 D6]. rewrite bool_decide_eq_false_2 by (unfold len in *; lia).
  rewrite Ed, bind_Ok. rewrite (extract_encode (Indices d) (Width m) row x rest), bind_Ok.
  - rewrite Edl, bool_decide_eq_false_2 by lia. rewrite Es, bind_Ok.
    by rewrite (dictSectionAt_layout sec (Dict d) x v) by (done || lia).
  - rewrite Ew. apply bitWidth_range. lia.
  - rewrite Ew. eapply Forall_impl; [exact D6|]. intros y Hy. apply bitWidth_spec; (done || lia).
  - done.
  - done.
Qed.

Lemma decode_idx_view g r name d m :
  dict_view g r name d → typed_col r name ColDict = Some m → decode_idx r m = Ok (Indices d).
Proof.
  intros [[D1 D2 D3 D4 D5 D6] Hrows (m' & sec & rest & Et & Edl & Ew & _ & _ & _ & _ & _ & _ & _ & _ & Ha)] Em.
  rewrite Et in Em. injection Em as <-. unfold decode_idx, idxBytes.
  assert (1 ≤ Width m' ≤ 32) as Hw by (rewrite Ew; apply bitWidth_range; lia).
  assert (Forall (is_digit (Width m')) (Indices d)) as Hdig.
  { rewrite Ew. eapply Forall_impl; [exact D6|]. intros y Hy. apply bitWidth_spec; (done || lia). }
  pose proof (at_off_bound _ _ _ Ha) as Hb. case_bool_decide as E0.
  - rewrite slice_Ok, bind_Ok by (len_facts; lia). unfold decodeIndices. rewrite bool_decide_eq_true_2 by done.
    destruct (Indices d); [done|]. rewrite E0 in D1. len_lia.
  - assert (Indices d ≠ []) as Hne by (intros En; rewrite En in D1; by rewrite <- D1 in E0).
    rewrite (at_off_slice _ _ _ _ Ha), bind_Ok.
    + rewrite <- D1. by apply decode_encode_indices.
    + rewrite encodeIndices_len, D1 by done. done.
Qed.

Lemma col_colIndex cols name m : ∀ i,
  col_loop cols name = Some m → ∃ j, cols !! j = Some m ∧ colIndex_loop cols name i = i + Z.of_nat j.
Proof.
  induction cols as [|x cols IH]; intros i; cbn [col_loop colIndex_loop]; [done|].
  destruct (str_eqb (Name x) name).
  - intros [= <-]. exists 0%nat. split; [done|]. lia.
  - intros (j & Hj & E)%(IH (i + 1)). exists (S j). split; [done|]. rewrite E. lia.
Qed.

(** Cached or not, the decoded column is the column. *)
Lemma DictIndices_view g r name d s :
  dict_view g r name d → caches_ok r s → ∃ s', DictIndices r s name = Ok (Indices d, Dict d, s') ∧ caches_ok r s'.
Proof.
  intros Hv Hs. destruct (DictIndices_step r s name Hs) as (s' & Hs' & ->). exists s'. split; [|done].
  pose proof Hv as [_ _ (m & sec & rest & Et & Edl & _ & _ & Es & Hl & _)].
  pose proof (decode_idx_view g r name d m Hv Et) as Hd.
  unfold typed_col, col in Et. destruct (col_loop (r_cols r) name) as [m'|] eqn:Ec; [|done].
  case_bool_decide as Hty; [|done]. injection Et as ->.
  destruct (col_colIndex _ _ _ 0 Ec) as (j & Hj & Ej). unfold DictIndices, colIndex. cbv zeta. rewrite Ej, Z.add_0_l.
  rewrite bool_decide_eq_false_2 by lia. rewrite (index_Ok _ _ m), bind_Ok by (try lia; by rewrite Nat2Z.id).
  rewrite bool_decide_eq_false_2 by (by intros []).
  rewrite (dictIndicesAt_uncached r (Z.of_nat j) m) by (try lia; by rewrite Nat2Z.id).
  rewrite Hd, !bind_Ok, Es, bind_Ok, Edl. by rewrite (dictSectionAll_layout true true sec (Dict d) Hl), !bind_Ok.
Qed.

(** *** Search and postings *)

Lemma rows_where_ids dict indices v id : ∀ row,
  StronglySorted str_lt dict → Forall (λ x, 0 ≤ x < len dict) indices → 0 ≤ id → dict !! Z.to_nat id = Some v →
  rows_where row (val_at dict <$> indices) v = rows_from row indices id.
Proof.
  intros row Hs Hi H0 Hd. revert row. induction Hi as [|x indices Hx Hi IH]; intros row; [done|].
  rewrite fmap_cons. cbn [rows_where rows_from]. rewrite IH. pose proof (val_at_lookup dict x Hx) as Ex.
  pose proof (lookup_lt_Some _ _ _ Hd) as Hlt. unfold str_eqb.
  destruct (decide (x = id)) as [-> |Hne].
  - rewrite Hd in Ex. injection Ex as <-. by rewrite !bool_decide_eq_true_2.
  - rewrite !bool_decide_eq_false_2; [done|done|]. intros E. rewrite E in Ex.
    assert (∀ i j, (i < j)%nat → dict !! i = Some v → dict !! j = Some v → False) as Hno.
    { intros i j Hij A B. pose proof (sorted_lt dict i j v v Hs Hij A B) as C. by apply str_lt_irrefl in C. }
    destruct (Z.lt_trichotomy x id) as [?|[?|?]]; [|done|];
      [eapply (Hno (Z.to_nat x) (Z.to_nat id))|eapply (Hno (Z.to_nat id) (Z.to_nat x))]; (done || lia).
Qed.
Lemma rows_where_absent vs v : ∀ row, v ∉ vs → rows_where row vs v = [].
Proof.
  induction vs as [|u vs IH]; intros row Hn; cbn [rows_where]; [done|]. apply not_elem_of_cons in Hn as [Hu Hn].
  unfold str_eqb. rewrite bool_decide_eq_false_2 by done. by apply IH.
Qed.
Lemma row_values_member rows d v : dict_col_wf rows d → v ∈ row_values d → v ∈ Dict d.
Proof.
  intros Hw [i Hi]%list_elem_of_lookup. destruct (row_values_lookup rows d i v Hw Hi) as (x & _ & _ & Hx).
  by eapply list_elem_of_lookup_2.
Qed.

(** The id of a value, through the bloom and the search. *)
Lemma search_view g r name d value :
  dict_view g r name d → ∃ m sec maybe id, typed_col r name ColDict = Some m ∧ PostLen m = len (postings_of g d) ∧
    DictLen m = len (Dict d) ∧ col_post r m = Ok (postings_of g d) ∧ len (postings_of g d) < 2 ^ 32 ∧
    bloomMaybe (Bloom m) value = Ok maybe ∧ reader_dictSec r m = Ok sec ∧
    dictSectionSearch sec (DictLen m) value = Ok id ∧
    (if maybe then (0 ≤ id ∧ Dict d !! Z.to_nat id = Some value ∨ id = -1 ∧ value ∉ Dict d) else value ∉ Dict d).
Proof.
  intros [[D1 D2 D3 D4 D5 D6] _ (m & sec & rest & Et & Edl & _ & Ebl & Es & Hl & Ep & Epl & Hpl & _)].
  destruct (buildDictBloom_spec (Dict d) ltac:(lia)) as (bl & Ebl' & Lbl & _ & Hbl). rewrite Ebl in Ebl'. injection Ebl' as <-.
  destruct (bloomWordsFor_range (len (Dict d)) ltac:(len_lia)) as [Hwr _].
  destruct (bloomMaybe_returns (Bloom m) value ltac:(lia)) as [maybe Em].
  destruct (dictSectionSearch_layout sec (Dict d) value Hl D3) as (id & Eid & Hid). rewrite <- Edl in Eid.
  exists m, sec, maybe, id. split_and!; try done. destruct maybe; [done|]. intros Hin. rewrite (Hbl value Hin) in Em. done.
Qed.

Lemma EqualityRows_view g r name d value :
  dict_view g r name d → g_NoPostings g = false →
  EqualityRows r name value = Ok (rows_where 0 (row_values d) value, true) ∧
  ∃ id, EqualityCount r name value = Ok (id, len (rows_where 0 (row_values d) value), true) ∧ id_of (Dict d) value id.
Proof.
  intros Hv Hnp. pose proof Hv as [Hw Hrows _]. pose proof Hw as [D1 D2 D3 D4 D5 D6].
  destruct (search_view g r name d value Hv) as (m & sec & maybe & id & Et & Epl & Edl & Ep & Hpl & Em & Es & Eid & Hid).
  unfold EqualityRows, EqualityCount. rewrite Et.
  assert (len (postings_of g d) ≠ 0) as Hne.
  { unfold postings_of. rewrite Hnp. unfold blob_bytes. rewrite len_app, len_le32. len_lia. }
  rewrite Epl, !(bool_decide_eq_false_2 (len _ = 0)) by done. rewrite Em, !bind_Ok.
  assert (value ∉ Dict d → rows_where 0 (row_values d) value = []) as Habs.
  { intros Hn. apply rows_where_absent. intros Hin. apply Hn. by eapply row_values_member. }
  destruct maybe; cbn [negb]; [|rewrite Habs by done; split; [done|]; eexists; split; [done|by right]].
  rewrite Es, !bind_Ok, Eid, !bind_Ok. destruct Hid as [[H0 Hd]|[-> Hn]].
  2:{ rewrite Habs by done. split; [done|]. eexists. split; [done|by right]. }
  rewrite !bool_decide_eq_false_2 by lia. rewrite Ep, !bind_Ok. unfold postings_of in Hpl |- *. rewrite Hnp in *.
  pose proof (lookup_lt_Some _ _ _ Hd) as Hlt.
  destruct (postingRows_blob (length (Dict d)) (Indices d) ltac:(unfold len in *; lia) ltac:(lia) Hpl (Z.to_nat id) Hlt) as [Er Ec].
  rewrite Z2Nat.id in Er, Ec by lia. rewrite <- D1, Er, Ec, !bind_Ok.
  unfold row_values. rewrite (rows_where_ids (Dict d) (Indices d) value id) by done. split; [done|].
  eexists. split; [done|by left].
Qed.

(** How a dictionary column is encoded: its rows' ids and its dictionary, as
    every accessor that speaks of ids sees them. *)
Record coded (r : Reader) (name : bytes) (ids : list Z) (dict : list bytes) : Prop := {
  cd_range : Forall (λ x, 0 ≤ x < len dict) ids;
  cd_sorted : StronglySorted str_lt dict;
  cd_small : len dict < 2 ^ 32;
  cd_len : DictLenOf r name = len dict;
  cd_id v : ∃ i, DictID r name v = Ok i ∧ id_of dict v i;
  cd_raw s : caches_ok r s → ∃ s', DictIndicesRaw r s name = Ok (ids, s') ∧ caches_ok r s';
  cd_all s : caches_ok r s → ∃ s', DictIndices r s name = Ok (ids, dict, s') ∧ caches_ok r s';
  cd_some want : len want = len dict → DictDecodeSome r name want = Ok (some_of dict want (length dict)) }.

Lemma DictIndicesRaw_view g r name d s :
  dict_view g r name d → caches_ok r s → ∃ s', DictIndicesRaw r s name = Ok (Indices d, s') ∧ caches_ok r s'.
Proof.
  intros Hv Hs. destruct (DictIndices_view g r name d s Hv Hs) as (s' & E & Hs'). exists s'. split; [|done]. revert E.
  unfold DictIndices, DictIndicesRaw. cbv zeta. case_bool_decide; [by intros [= <- _ <-]|].
  destruct (index (r_cols r) (colIndex r name)) as [m|]; [|done]. rewrite !bind_Ok. case_bool_decide; [by intros [= <- _ <-]|].
  destruct (dictIndicesAt r s (colIndex r name)) as [[ix s2]|]; [|done]. rewrite !bind_Ok.
  destruct (reader_dictSec r m); [|done]. rewrite bind_Ok. destruct (dictSectionAll _ _ _ _); [|done]. by intros [= <- _ <-].
Qed.

Lemma coded_view g r name d : dict_view g r name d → coded r name (Indices d) (Dict d).
Proof.
  intros Hv. pose proof Hv as [Hw _ (m & sec & rest & Et & Edl & _ & _ & Es & Hl & _)]. constructor.
  - apply Hw.
  - apply Hw.
  - pose proof (dw_len _ _ Hw). lia.
  - unfold DictLenOf. by rewrite Et.
  - intros v. unfold DictID. rewrite Et, Es, bind_Ok, Edl.
    apply (dictSectionSearch_layout sec (Dict d) v Hl), Hw.
  - intros s. by apply (DictIndicesRaw_view g).
  - intros s. by apply (DictIndices_view g).
  - intros want Hwant. unfold DictDecodeSome. rewrite Et, Es, bind_Ok, Edl. by apply dictSectionSome_layout.
Qed.

Lemma DictContains_view g r name d value :
  dict_view g r name d → ∃ b, DictContains r name value = Ok b ∧ (b = true ↔ value ∈ Dict d).
Proof.
  intros Hv. destruct (search_view g r name d value Hv) as (m & sec & maybe & id & Et & _ & Edl & _ & _ & Em & Es & Eid & Hid).
  unfold DictContains. rewrite Et, Em, bind_Ok. destruct maybe; cbn [negb]; [|by exists false].
  rewrite Es, bind_Ok, Eid, bind_Ok. eexists. split; [done|]. rewrite bool_decide_eq_true.
  destruct Hid as [[H0 Hd]|[-> Hn]]; [|split; [lia|done]]. split; [|done]. intros _. by eapply list_elem_of_lookup_2.
Qed.

(** *** Value counts *)

Lemma vm_loop_counts cs cw cnt vals : ∀ id,
  (∀ j, (j < length vals)%nat → extractCountBits cs (id + Z.of_nat j) cw = Ok (cnt (id + Z.of_nat j))) →
  vm_loop vals id cs cw = Ok (imap (λ j v, VC v (cnt (id + Z.of_nat j))) vals).
Proof.
  induction vals as [|v vals IH]; intros id Hc; cbn [vm_loop]; [done|].
  pose proof (Hc 0%nat ltac:(simpl; lia)) as H0. rewrite Z.add_0_r in H0. rewrite H0, bind_Ok, IH, bind_Ok.
  - rewrite imap_cons. rewrite Z.add_0_r. do 2 f_equal. apply imap_ext. intros i x _. unfold compose. do 2 f_equal. lia.
  - intros j Hj. replace (id + 1 + Z.of_nat j) with (id + Z.of_nat (S j)) by lia. apply Hc. simpl. lia.
Qed.

(** One entry per dictionary value, in dictionary order, with its row count. *)
Lemma ValueCounts_view g r name d :
  dict_view g r name d → g_NoPostings g = false →
  ValueCounts r name = Ok ((λ v, VC v (len (rows_where 0 (row_values d) v))) <$> Dict d).
Proof.
  intros [[D1 D2 D3 D4 D5 D6] Hrows (m & sec & rest & Et & Edl & _ & _ & Es & Hl & Ep & Epl & Hpl & _)] Hnp.
  assert (len (postings_of g d) ≠ 0) as Hne.
  { unfold postings_of. rewrite Hnp. unfold blob_bytes. rewrite len_app, len_le32. len_lia. }
  unfold ValueCounts, ValueCountsInto. rewrite Et, Epl, bool_decide_eq_false_2, Ep, bind_Ok by done. cbn [negb].
  rewrite Es, bind_Ok. destruct (newDictWalk_rest sec (DictLen m) (dl_bytes _ _ Hl)) as (w & vals & -> & Hinv & Ev & Hrest); [len_lia|].
  rewrite Edl, (dictSectionAll_layout true true sec (Dict d) Hl) in Ev. injection Ev as <-.
  unfold postings_of in Hpl |- *. rewrite Hnp in *. rewrite bind_Ok.
  rewrite (postV8Header_blob (length (Dict d)) (Indices d)), bind_Ok by (try done; unfold len in *; lia).
  cbn [h_dictLen h_counts h_cw]. rewrite (vc_loop_vm _ _ _ _ w [] Hinv), Hrest, Edl.
  change (Z.of_nat (length (Dict d))) with (len (Dict d)). rewrite Z.min_id. unfold len at 1. rewrite Nat2Z.id, firstn_all.
  rewrite (vm_loop_counts _ _ (λ x, len (rows_of (Indices d) x))).
  - f_equal. rewrite <- (imap_const (λ v, VC v (len (rows_where 0 (row_values d) v)))).
    apply imap_ext. intros i v Hi. unfold const, row_values, rows_of. f_equal. f_equal.
    symmetry. apply rows_where_ids; try done; [lia|]. by rewrite Z.add_0_l, Nat2Z.id.
  - intros j Hj. rewrite Z.add_0_l. apply extract_count; (done || lia).
Qed.

(** ** Timestamp columns *)

Record ts_view (r : Reader) (name : bytes) (ts : list Z) : Prop := {
  tv_m : ∃ m data, typed_col r name ColTimestamp = Some m ∧ col_data r m = Ok data ∧ encodeTimestamps ts = Ok data;
  tv_n : r_Rows r = len ts;
  tv_small : len ts ≤ 2 ^ 24;
  tv_i64 : Forall is_i64 ts }.

Lemma ts_view_of g r name nm d ts vec dim :
  group_wf g → reader_of g r → find_col (g_Columns g) name = Some (MkColumn nm ColTimestamp d ts vec dim) →
  ts_view r name ts.
Proof.
  intros Hg Hr Hf. destruct (col_stored g r name _ Hr Hf) as (m & Em & Hs & Hin).
  pose proof (gw_cols g Hg) as Hc. rewrite Forall_forall in Hc. specialize (Hc _ Hin). pose proof (gw_rows g Hg) as Hrows.
  inversion Hc as [|nm' d' ts' vec' dim' Hl Hi E1|]; subst. inversion Hs as [|nm' d' ts' vec' dim' data off Ed Ha E1 E2|]; subst.
  constructor; [|rewrite (ro_rows g r Hr); lia|lia|done].
  do 2 eexists. unfold typed_col. rewrite Em. cbn [Type_]. rewrite bool_decide_eq_true_2 by done. split; [done|].
  split; [|done]. unfold col_data. cbn [DataOff DataLen]. by apply at_off_slice.
Qed.

Lemma ts_accessors_view r name ts :
  ts_view r name ts → ts ≠ [] →
  Reader.Timestamps r name = Ok ts ∧
  (∀ row t, ts !! row = Some t → TimestampAt r name (Z.of_nat row) = Ok (Some t)) ∧
  (∀ from to buf, TimeRangeMaskInto r name from to buf = Ok (in_window from to <$> ts)) ∧
  (∀ dst lo hi, (lo < hi ≤ length ts)%nat →
     TimestampsRangeInto r dst name (Z.of_nat lo) (Z.of_nat hi) = Ok (take (hi - lo) (drop lo ts))) ∧
  (∀ from to, ∃ lo hi, TimeWindowSpan r name from to = Ok (lo, hi) ∧ 0 ≤ lo ≤ hi ∧ hi ≤ len ts ∧
     ∀ i t, ts !! i = Some t → from ≤ t < to → lo ≤ Z.of_nat i < hi).
Proof.
  intros [(m & data & Et & Ed & Ee) Hn Hs Hi] Hne.
  unfold Reader.Timestamps, TimestampAt, TimeRangeMaskInto, TimestampsRangeInto, TimeWindowSpan. rewrite Et, Hn, Ed, !bind_Ok.
  assert (0 < len ts) as Hpos by (destruct ts; [done|len_lia]).
  split_and!.
  - destruct (decodeTimestamps_spec ts) as (b & Eb & E); [lia|done|]. rewrite Ee in Eb. injection Eb as <-.
    unfold decodeTimestamps in E. by rewrite bool_decide_eq_false_2 in E by lia.
  - intros row t Ht. pose proof (lookup_lt_Some _ _ _ Ht). rewrite bool_decide_eq_false_2 by (unfold len; lia).
    destruct (decodeTsAt_spec ts row t) as (b & Eb & E); [lia|done|done|]. rewrite Ee in Eb. injection Eb as <-.
    by rewrite bind_Ok, E.
  - intros from to buf. destruct (decodeTimeRangeInto_spec ts from to buf) as (b & Eb & E); [done|lia|done|].
    rewrite Ee in Eb. by injection Eb as <-.
  - intros dst lo hi Hlh. destruct (decodeTsRangeInto_spec ts lo hi dst) as (b & Eb & E); [lia|done|done|].
    rewrite Ee in Eb. by injection Eb as <-.
  - intros from to. destruct (timeWindowSpan_spec ts from to) as (b & lo & hi & Eb & E & H1 & H2 & H3); [done|lia|done|].
    rewrite Ee in Eb. injection Eb as <-. by exists lo, hi.
Qed.
End reader_ok.
