(* ===== verification/Table.v ===== *)
(** * Groups as tables

    What a group is to its users: a number of rows and, per column name, the
    value of every row. [table_of] reads that off a [Group]; [answers] is the
    contract of a [Reader] towards a table. A marshalled group read back meets
    the contract of its own table ([reader_answers]), so every producer of groups
    (the ingest worker, recompaction, compaction) is judged by the table it
    produces. *)

From S2P Require Import Prelude Digits GoLib Kernels Indices Timestamps Compress DictSection DictLayout Postings Bloom Group GroupSafe GroupLayout Reader ReaderSafe ReaderOk.
From stdpp Require Import list sorting.
Local Open Scope Z_scope.

(** ** Tables *)

Inductive values :=
| Strings (vs : list bytes)
| Times (ts : list Z)
| Vecs (dim : Z) (vec : list Z).
Record table := MkTable { t_rows : Z; t_cols : list (bytes * values) }.

Definition col_values (c : Column) : values :=
  if bool_decide (c_Type c = ColDict) then Strings (match c_Dict c with Some d => row_values d | None => [] end)
  else if bool_decide (c_Type c = ColTimestamp) then Times (c_Ts c)
  else Vecs (c_Dim c) (c_Vec c).
Definition table_of (g : Group) : table :=
  MkTable (g_Rows g) ((λ c, (c_Name c, col_values c)) <$> g_Columns g).

Lemma col_values_dict nm d ts vec dim : col_values (MkColumn nm ColDict (Some d) ts vec dim) = Strings (row_values d).
Proof. done. Qed.
Lemma col_values_ts nm d ts vec dim : col_values (MkColumn nm ColTimestamp d ts vec dim) = Times ts.
Proof. done. Qed.
Lemma col_values_vec nm d ts vec dim : col_values (MkColumn nm ColVector d ts vec dim) = Vecs dim vec.
Proof. done. Qed.

(** The first column of a name: the one every accessor uses. *)
Fixpoint find_values (cols : list (bytes * values)) (name : bytes) : option values :=
  match cols with
  | [] => None
  | (n, v) :: cols' => if str_eqb n name then Some v else find_values cols' name
  end.

Lemma find_values_col cs name v :
  find_values ((λ c, (c_Name c, col_values c)) <$> cs) name = Some v →
  ∃ c, find_col cs name = Some c ∧ col_values c = v.
Proof.
  induction cs as [|c cs IH]; [done|]. rewrite fmap_cons. cbn [find_values find_col].
  destruct (str_eqb (c_Name c) name); [intros [= <-]; by exists c|]. apply IH.
Qed.

(** ** What a reader promises of a table *)

Section answers.
Context {K : Simd} {KL : SimdLaws K} {F : Flate} {FL : FlateLaws F}.

(** [np]: the group was written without postings, so the postings answer
    nothing (the query path then scans). *)
Record string_answers (np : bool) (r : Reader) (name : bytes) (vs : list bytes) : Prop := {
  sa_value row v : vs !! row = Some v → DictValueAt r name (Z.of_nat row) = Ok (Some v);
  sa_contains v : DictContains r name v = Ok (bool_decide (v ∈ vs));
  sa_coded : ∃ ids dict, val_at dict <$> ids = vs ∧ coded r name ids dict ∧
      ∀ v id n, EqualityCount r name v = Ok (id, n, true) → id_of dict v id;
  sa_rows v : EqualityRows r name v = Ok (if np then ([], false) else (rows_where 0 vs v, true));
  sa_count v : ∃ id, EqualityCount r name v = Ok (if np then (0, 0, false) else (id, len (rows_where 0 vs v), true));
  sa_counts : np = false → ∃ dict, StronglySorted str_lt dict ∧ (∀ v, v ∈ vs ↔ v ∈ dict) ∧
      ValueCounts r name = Ok ((λ v, VC v (len (rows_where 0 vs v))) <$> dict) }.

Record time_answers (r : Reader) (name : bytes) (ts : list Z) : Prop := {
  ta_all : Reader.Timestamps r name = Ok ts;
  ta_at row t : ts !! row = Some t → TimestampAt r name (Z.of_nat row) = Ok (Some t);
  ta_mask from to buf : TimeRangeMaskInto r name from to buf = Ok (in_window from to <$> ts);
  ta_range dst lo hi : (lo < hi ≤ length ts)%nat →
     TimestampsRangeInto r dst name (Z.of_nat lo) (Z.of_nat hi) = Ok (take (hi - lo) (drop lo ts));
  ta_span from to : ∃ lo hi, TimeWindowSpan r name from to = Ok (lo, hi) ∧ 0 ≤ lo ≤ hi ∧ hi ≤ len ts ∧
     ∀ i t, ts !! i = Some t → from ≤ t < to → lo ≤ Z.of_nat i < hi;
  ta_group from to t : t ∈ ts → from ≤ t < to → TimeRangeMatches r from to = true }.

Record answers (np : bool) (r : Reader) (t : table) : Prop := {
  an_rows : r_Rows r = t_rows t;
  an_names : ColumnNames r = (t_cols t).*1;
  an_exists name : ColumnExists r name = bool_decide (find_values (t_cols t) name ≠ None);
  an_other name : (∀ vs, find_values (t_cols t) name ≠ Some (Strings vs)) → typed_col r name ColDict = None;
  an_lens name : match find_values (t_cols t) name with
    | Some (Strings vs) => len vs = t_rows t | Some (Times ts) => len ts = t_rows t | _ => True end;
  an_strings name vs : find_values (t_cols t) name = Some (Strings vs) → string_answers np r name vs;
  an_times name ts : find_values (t_cols t) name = Some (Times ts) → ts ≠ [] → time_answers r name ts;
  an_vecs name dim vec : find_values (t_cols t) name = Some (Vecs dim vec) → Vectors r name = Ok (dim, vec) }.

(** ** A marshalled group meets the contract *)

(** Every dictionary entry occurs in some row, as [BuildDict] makes them. *)
Definition dicts_used (g : Group) : Prop :=
  ∀ c d v, c ∈ g_Columns g → c_Dict c = Some d → v ∈ Dict d → v ∈ row_values d.

Lemma EqualityRows_none g r name d v :
  dict_view g r name d → g_NoPostings g = true →
  EqualityRows r name v = Ok ([], false) ∧ EqualityCount r name v = Ok (0, 0, false).
Proof.
  intros [_ _ (m & sec & rest & Et & _ & _ & _ & _ & _ & _ & Epl & _)] Hnp.
  unfold EqualityRows, EqualityCount. rewrite Et. unfold postings_of in Epl. rewrite Hnp in Epl.
  by rewrite bool_decide_eq_true_2 by (by rewrite Epl).
Qed.

Lemma string_answers_view g r name d :
  dict_view g r name d → (∀ v, v ∈ Dict d → v ∈ row_values d) →
  string_answers (g_NoPostings g) r name (row_values d).
Proof.
  intros Hv Hu. pose proof (dv_wf _ _ _ _ Hv) as Hw.
  assert (∀ v, v ∈ row_values d ↔ v ∈ Dict d) as Hiff.
  { intros v. split; [by eapply row_values_member|apply Hu]. }
  constructor.
  - intros row v. by eapply DictValueAt_view.
  - intros v. destruct (DictContains_view g r name d v Hv) as (b & -> & Hb). rewrite <- Hiff in Hb. f_equal.
    destruct b; symmetry; [by apply bool_decide_eq_true_2, Hb|]. apply bool_decide_eq_false_2. by intros ?%Hb.
  - exists (Indices d), (Dict d). split_and!; [done|by apply (coded_view g)|].
    intros v id k. destruct (g_NoPostings g) eqn:Hnp; [by rewrite (proj2 (EqualityRows_none g r name d v Hv Hnp))|].
    destruct (proj2 (EqualityRows_view g r name d v Hv Hnp)) as (i & -> & Hi). by intros [= <- _].
  - intros v. destruct (g_NoPostings g) eqn:Hnp; [by apply (EqualityRows_none g r name d v)|].
    by apply (EqualityRows_view g r name d v Hv Hnp).
  - intros v. destruct (g_NoPostings g) eqn:Hnp.
    + exists 0. by apply (EqualityRows_none g r name d v).
    + destruct (proj2 (EqualityRows_view g r name d v Hv Hnp)) as (i & E & _). by exists i.
  - intros Hnp. exists (Dict d). split_and!; [apply Hw|done|]. by apply (ValueCounts_view g).
Qed.

Lemma time_answers_view g r name nm d ts vec dim :
  group_wf g → reader_of g r → find_col (g_Columns g) name = Some (MkColumn nm ColTimestamp d ts vec dim) →
  ts ≠ [] → time_answers r name ts.
Proof.
  intros Hg Hr Hf Hne. pose proof (ts_view_of g r name nm d ts vec dim Hg Hr Hf) as Hv.
  destruct (ts_accessors_view r name ts Hv Hne) as (H1 & H2 & H3 & H4 & H5). constructor; try done.
  intros from to t Ht Hft. destruct (col_stored g r name _ Hr Hf) as (_ & _ & _ & Hin).
  assert (0 < g_Rows g) as Hpos.
  { rewrite <- (ro_rows g r Hr), (tv_n _ _ _ Hv). destruct ts; [done|len_lia]. }
  pose proof (to_in _ _ _ (ro_time g r Hr Hpos) _ t Hin eq_refl Ht).
  unfold TimeRangeMatches. rewrite !bool_decide_eq_true_2 by lia. done.
Qed.

Lemma read_words_at vec : ∀ b off,
  Forall is_u32 vec → at_off b off (List.flat_map le32 vec) → read_words (length vec) b off = Ok vec.
Proof.
  induction vec as [|w vec IH]; intros b off Hv Ha; cbn [read_words length]; [done|].
  apply Forall_cons_1 in Hv as [Hw Hv]. cbn [List.flat_map] in Ha. apply at_off_app in Ha as [Hl Hr].
  rewrite (get32_at b off w Hl), bind_Ok. rewrite len_le32 in Hr. rewrite (IH _ _ Hv Hr), bind_Ok.
  by rewrite u32_small.
Qed.

Lemma Vectors_view g r name nm d ts vec dim :
  group_wf g → reader_of g r → find_col (g_Columns g) name = Some (MkColumn nm ColVector d ts vec dim) →
  Vectors r name = Ok (dim, vec).
Proof.
  intros Hg Hr Hf. destruct (col_stored g r name _ Hr Hf) as (m & Em & Hs & Hin).
  pose proof (gw_cols g Hg) as Hc. rewrite Forall_forall in Hc. specialize (Hc _ Hin).
  inversion Hc as [| |nm' d' ts' vec' dim' Hu Hd E1]; subst. inversion Hs as [| |nm' d' ts' vec' dim' off Ha E1 E2]; subst.
  unfold Vectors, typed_col. rewrite Em. cbn [Type_ DataLen]. rewrite bool_decide_eq_true_2 by done.
  assert (len (encodeVectors vec dim) = 4 + 4 * len vec) as El.
  { unfold encodeVectors. rewrite len_app, len_le32. rewrite (flat_map_len le32 4) by apply len_le32. lia. }
  rewrite (bool_decide_eq_false_2 (len (encodeVectors vec dim) < 4)) by (pose proof (len_nonneg vec); lia).
  unfold col_data. cbn [DataOff DataLen]. rewrite (at_off_slice _ _ _ _ Ha), bind_Ok by done.
  assert (at_off (encodeVectors vec dim) 0 (le32 (u32 dim) ++ List.flat_map le32 vec)) as Hself.
  { apply at_off_refl. }
  apply at_off_app in Hself as [H1 H2]. rewrite (get32_at _ _ _ H1), bind_Ok, u32_small.
  2:{ unfold is_u32, is_digit. rewrite u32_small by (unfold is_digit; lia). lia. }
  rewrite El. replace (4 + 4 * len vec - 4) with (len vec * 4) by lia. rewrite Z.div_mul by lia.
  unfold len at 1. rewrite Nat2Z.id. rewrite len_le32, Z.add_0_l in H2. rewrite (read_words_at vec _ _ Hu H2), bind_Ok.
  by rewrite u32_small by (unfold is_digit; lia).
Qed.

Lemma reader_names g r : reader_of g r → ColumnNames r = (t_cols (table_of g)).*1.
Proof.
  intros Hr. unfold ColumnNames, table_of. cbn [t_cols]. rewrite <- list_fmap_compose.
  pose proof (ro_cols g r Hr) as Hc. revert Hc. generalize (r_cols r) (g_Columns g). intros ms cs Hc.
  induction Hc as [|c m cs ms Hs _ IH]; [done|]. rewrite !fmap_cons, IH. f_equal. by destruct (stored_name _ _ _ _ Hs).
Qed.

Lemma find_values_no_col cs name :
  find_values ((λ c, (c_Name c, col_values c)) <$> cs) name = None → find_col cs name = None.
Proof.
  induction cs as [|c cs IH]; [done|]. rewrite fmap_cons. cbn [find_values find_col]. by destruct (str_eqb (c_Name c) name).
Qed.
Lemma col_none g r name : reader_of g r → find_col (g_Columns g) name = None → col r name = None.
Proof.
  intros Hr. unfold col. pose proof (ro_cols g r Hr) as Hc. revert Hc. generalize (r_cols r) (g_Columns g). intros ms cs Hc.
  induction Hc as [|c m cs ms Hs _ IH]; cbn [find_col col_loop]; [done|].
  destruct (stored_name _ _ _ _ Hs) as [-> _]. by destruct (str_eqb (c_Name c) name).
Qed.

Lemma reader_answers g r :
  group_wf g → dicts_used g → reader_of g r → answers (g_NoPostings g) r (table_of g).
Proof.
  intros Hg Hu Hr.
  assert (∀ name v, find_values (t_cols (table_of g)) name = Some v →
    ∃ c, find_col (g_Columns g) name = Some c ∧ col_values c = v ∧ c ∈ g_Columns g ∧ col_ok (g_Rows g) c) as Hfind.
  { intros name v Hf. destruct (find_values_col _ _ _ Hf) as (c & Ec & Ev). exists c.
    destruct (col_stored g r name c Hr Ec) as (_ & _ & _ & Hin). split_and!; try done.
    pose proof (gw_cols g Hg) as Hc. rewrite Forall_forall in Hc. by apply Hc. }
  constructor.
  - apply (ro_rows g r Hr).
  - by apply reader_names.
  - intros name. unfold ColumnExists. destruct (find_values (t_cols (table_of g)) name) as [v|] eqn:E.
    + destruct (find_values_col _ _ _ E) as (c & Ec & _). destruct (col_stored g r name c Hr Ec) as (m & -> & _).
      by rewrite bool_decide_eq_true_2.
    + rewrite (col_none g r name Hr) by (by apply find_values_no_col). by rewrite bool_decide_eq_false_2 by (by intros []).
  - intros name Hno. unfold typed_col. destruct (find_values (t_cols (table_of g)) name) as [v|] eqn:E.
    + destruct (Hfind name v E) as (c & Ec & Ev & Hin & Hc). destruct (col_stored g r name c Hr Ec) as (m & -> & Hs & _).
      rewrite (proj2 (stored_name _ _ _ _ Hs)). destruct Hc; cbn [c_Type]; [by destruct (Hno (row_values d)); subst|..].
      all: by rewrite bool_decide_eq_false_2.
    + by rewrite (col_none g r name Hr) by (by apply find_values_no_col).
  - intros name. destruct (find_values (t_cols (table_of g)) name) as [v|] eqn:E; [|done].
    destruct (Hfind name v E) as (c & Ec & Ev & Hin & Hc).
    destruct Hc as [nm d ts vec dim [D1 _ _ _ _ _]|nm d ts vec dim Hl _|nm d ts vec dim _ _];
      rewrite ?col_values_dict, ?col_values_ts, ?col_values_vec in Ev; subst v; [|done|done].
    unfold row_values. by rewrite len_fmap.
  - intros name vs (c & Ec & Ev & Hin & Hc)%Hfind. destruct Hc; rewrite ?col_values_dict, ?col_values_ts, ?col_values_vec in Ev; simplify_eq.
    apply string_answers_view; [by eapply dict_view_of|]. intros v. by eapply Hu.
  - intros name ts (c & Ec & Ev & Hin & Hc)%Hfind Hne.
    destruct Hc; rewrite ?col_values_dict, ?col_values_ts, ?col_values_vec in Ev; simplify_eq. by eapply time_answers_view.
  - intros name dim vec (c & Ec & Ev & Hin & Hc)%Hfind.
    destruct Hc; rewrite ?col_values_dict, ?col_values_ts, ?col_values_vec in Ev; simplify_eq. by eapply Vectors_view.
Qed.

(** C20: the read path answers what the write path was given: a well-formed
    group is marshalled, the blob is accepted by [ReadGroup] (while it stays
    under the 4 GiB its offsets can name), and every accessor of the reader
    (row values, equality rows and counts, membership, value counts, whole
    columns, timestamps by row, range, mask and window, vectors) answers from
    the group's rows. *)
Theorem Marshal_ReadGroup_answers g :
  group_wf g → dicts_used g →
  ∃ b, Marshal g = Ok b ∧ (len b < 2 ^ 32 → ∃ r, ReadGroup b = Good r ∧ answers (g_NoPostings g) r (table_of g)).
Proof.
  intros Hg Hu. destruct (Marshal_spec g Hg) as (b & Eb & Hb). exists b. split; [done|].
  intros Hl. destruct (Hb Hl) as (r & Er & _ & Hr). exists r. split; [done|]. by apply reader_answers.
Qed.
End answers.
