(* ===== verification/Writer.v ===== *)
(** * The ingest writer: rows to columns

    [internal/ingest/writer.go] buffers records column-first: [addVec] appends
    one record to every column buffer, [flushLocked] hands the buffers to the
    flush pool as a [flushJob], and [worker] builds the group of a job. This file
    models the buffers; the batches and the pool are in [Batches]. *)

From S2P Require Import Prelude Digits GoLib Kernels Indices Compress DictSection DictLayout Postings Bloom Group GroupSafe GroupLayout Reader ReaderSafe ReaderOk Table.
From stdpp Require Import list sorting gmap fin_maps.
Local Open Scope Z_scope.

(** ** Definitions *)

(** Go's [range] over a map visits the keys in an order of its own choosing: a
    [MapRange] is one such choice. *)
Class MapRange := {
  range_map : ∀ {V : Type}, gmap bytes V → list (bytes * V);
  range_perm : ∀ {V} (m : gmap bytes V), range_map m ≡ₚ map_to_list m }.

(** One order a run could pick. *)
Definition ref_range : MapRange := {| range_map := λ V m, map_to_list m; range_perm := λ V m, Permutation_refl _ |}.

Definition FlushRows : Z := MaxRows.
Definition FlushBytes : Z := Z.shiftl 64 20.
(** Two seconds, in nanoseconds. *)
Definition FlushEvery : Z := 2 * 1000000000.

(** ["_msg"], ["_time"] and ["_stream"]. *)
Definition s_msg : bytes := [95; 109; 115; 103].
Definition s_time : bytes := [95; 116; 105; 109; 101].
Definition s_stream : bytes := [95; 115; 116; 114; 101; 97; 109].

Record RecordLimits := Limits { MaxFields : Z; MaxNameBytes : Z; MaxValueBytes : Z }.
Definition no_limits : RecordLimits := Limits 0 0 0.
#[export] Instance RecordLimits_eq_dec : EqDecision RecordLimits.
Proof. solve_decision. Defined.

(** The fields of [Writer] that configuration sets. *)
Record config := Config {
  strmFlds : list bytes; vecFlds : gmap bytes Z; limits : RecordLimits; compact : bool }.
(** The fields of [Writer] that hold the rows of the next group. A [colBuf] is
    its values; a [float32] is its bits. *)
Record buffers := Buffers {
  b_ts : list Z; b_cols : gmap bytes (list bytes); b_colOrder : list bytes;
  b_vecs : gmap bytes (list Z); b_bytes : Z }.
Definition no_rows : buffers := Buffers [] ∅ [] ∅ 0.

Record flushJob := MkJob {
  j_ts : list Z; j_colOrder : list bytes; j_vals : gmap bytes (list bytes);
  j_vecs : gmap bytes (list Z); j_vecFlds : gmap bytes Z; j_compact : bool }.

(** *** Limits *)

Definition reservedField (k : bytes) : bool := str_eqb k s_msg || str_eqb k s_time || str_eqb k s_stream.
Definition controlField (k : bytes) : bool := match k with c :: _ => bool_decide (c = 46) | [] => false end.
Definition isStreamField (c : config) (k : bytes) : bool := existsb (λ f, str_eqb f k) (strmFlds c).

(** The first loop of [truncateForLimits] at one field; [None] deletes it. *)
Definition clip_field (c : config) (k v : bytes) : option bytes :=
  let l := limits c in
  if reservedField k then Some v
  else if bool_decide (0 < MaxNameBytes l ∧ MaxNameBytes l < len k) then None
  else if isStreamField c k then Some v
  else if bool_decide (0 < MaxValueBytes l ∧ MaxValueBytes l < len v) then Some (take (Z.to_nat (MaxValueBytes l)) v)
  else Some v.

Section writer.
Context {M : MapRange}.

Definition truncateForLimits (c : config) (fields : gmap bytes bytes) : gmap bytes bytes :=
  let l := limits c in
  let fields :=
    if bool_decide (0 < MaxNameBytes l ∨ 0 < MaxValueBytes l) then map_imap (clip_field c) fields else fields in
  let n := Z.of_nat (size fields) in
  if bool_decide (0 < MaxFields l ∧ MaxFields l < n) then
    let keys := sort_Strings (List.filter (λ k, negb (reservedField k)) (range_map fields).*1) in
    let budget := Z.max 0 (MaxFields l - (n - len keys)) in
    foldl (λ m k, delete k m) fields (drop (Z.to_nat budget) keys)
  else fields.

(** The head of [addVec]: control names go first, then the limits. *)
Definition clean (c : config) (fields : gmap bytes bytes) : gmap bytes bytes :=
  let fields := filter (λ kv, controlField kv.1 = false) fields in
  if bool_decide (limits c ≠ no_limits) then truncateForLimits c fields else fields.

(** *** The stream label *)

Definition stream_present (flds : list bytes) (fields : gmap bytes bytes) : list (bytes * bytes) :=
  omap (λ k, match fields !! k with Some v => if bool_decide (v = []) then None else Some (k, v) | None => None end) flds.
Definition key_le (a b : bytes * bytes) : Prop := str_le a.1 b.1.
#[export] Instance key_le_dec a b : Decision (key_le a b).
Proof. unfold key_le. apply _. Defined.
(** [k="v"], comma-separated. *)
Fixpoint label_body (first : bool) (l : list (bytes * bytes)) : bytes :=
  match l with
  | [] => []
  | (k, v) :: l' => (if first then [] else [44]) ++ k ++ [61; 34] ++ v ++ [34] ++ label_body false l'
  end.
Definition buildStreamLabel (flds : list bytes) (fields : gmap bytes bytes) : bytes :=
  let present := stream_present flds fields in
  if bool_decide (present = []) then [] else [123] ++ label_body true (merge_sort key_le present) ++ [125].

(** *** Adding a record *)

(** [for len(l) < n { l = append(l, zero) }] *)
Definition backfill {A} (zero : A) (n : nat) (l : list A) : list A := l ++ replicate (n - length l) zero.

Definition set_col (k : bytes) (vals : list bytes) (cost : Z) (b : buffers) : buffers :=
  Buffers (b_ts b) (<[k := vals]> (b_cols b)) (b_colOrder b) (b_vecs b) (b_bytes b + cost).
Definition new_col (k : bytes) (vals : list bytes) (cost : Z) (b : buffers) : buffers :=
  Buffers (b_ts b) (<[k := vals]> (b_cols b)) (b_colOrder b ++ [k]) (b_vecs b) (b_bytes b + cost).

(** The two [continue]s of the field loop. *)
Definition skipped (c : config) (dropPayloadStream : bool) (k : bytes) : bool :=
  (str_eqb k s_stream && dropPayloadStream) || bool_decide (is_Some (vecFlds c !! k)).

Definition add_field (c : config) (row : nat) (dropPayloadStream : bool) (s : buffers * list bytes) (kv : bytes * bytes)
  : buffers * list bytes :=
  let '(b, newCols) := s in let '(k, v) := kv in
  if skipped c dropPayloadStream k then s else
  match b_cols b !! k with
  | None => (b, newCols ++ [k])
  | Some vals => (set_col k (backfill [] row vals ++ [v]) (len k + len v) b, newCols)
  end.
Definition add_new (fields : gmap bytes bytes) (row : nat) (b : buffers) (k : bytes) : buffers :=
  let v := default [] (fields !! k) in
  new_col k (replicate row [] ++ [v]) (len k + len v) b.
Definition add_vec (row : nat) (vecs : gmap bytes (list Z)) (b : buffers) (nd : bytes * Z) : buffers :=
  let '(name, dim) := nd in
  let v := default [] (vecs !! name) in
  if bool_decide (len v ≠ dim ∧ b_vecs b !! name = None ∧ len v = 0) then b else
  let buf := backfill 0 (row * Z.to_nat dim) (default [] (b_vecs b !! name)) in
  let buf := buf ++ (if bool_decide (len v = dim) then v else replicate (Z.to_nat dim) 0) in
  Buffers (b_ts b) (b_cols b) (b_colOrder b) (<[name := buf]> (b_vecs b)) (b_bytes b + len name + dim * 4).
Definition add_stream (c : config) (row : nat) (fields : gmap bytes bytes) (b : buffers) : buffers :=
  let sv := buildStreamLabel (strmFlds c) fields in
  if bool_decide (sv = []) then b else
  match b_cols b !! s_stream with
  | None => new_col s_stream (replicate row [] ++ [sv]) (len s_stream + len sv) b
  | Some vals => set_col s_stream (backfill [] row vals ++ [sv]) (len s_stream + len sv) b
  end.
Definition pad (row : nat) (b : buffers) (k : bytes) : buffers :=
  match b_cols b !! k with
  | Some vals => set_col k (backfill [] (S row) vals) 0 b
  | None => b
  end.

(** [addVec] between the lock and the flush trigger. *)
Definition add_row (c : config) (ts : Z) (fields : gmap bytes bytes) (streamOverridden : bool)
    (vecs : gmap bytes (list Z)) (b : buffers) : buffers :=
  let fields := clean c fields in
  let labels := bool_decide (strmFlds c ≠ []) && negb streamOverridden in
  let row := length (b_ts b) in
  let b := Buffers (b_ts b ++ [ts]) (b_cols b) (b_colOrder b) (b_vecs b) (b_bytes b) in
  let '(b, newCols) := foldl (add_field c row labels) (b, []) (range_map fields) in
  let b := foldl (add_new fields row) b (sort_Strings newCols) in
  let b := foldl (add_vec row vecs) b (range_map (vecFlds c)) in
  let b := if labels then add_stream c row fields b else b in
  foldl (pad row) b (b_colOrder b).

(** The trigger at the end of [addVec]. *)
Definition must_flush (b : buffers) (lastFlsh now : Z) : bool :=
  bool_decide (FlushRows ≤ len (b_ts b) ∨ FlushBytes ≤ b_bytes b ∨ FlushEvery ≤ now - lastFlsh).

(** *** Handing over *)

Definition pad_vec (rows : nat) (vecs : gmap bytes (list Z)) (nd : bytes * Z) : gmap bytes (list Z) :=
  let '(name, dim) := nd in
  match default [] (vecs !! name) with
  | [] => vecs
  | buf => <[name := backfill 0 (rows * Z.to_nat dim) buf]> vecs
  end.
(** The data side of [flushLocked], when rows are buffered. *)
Definition take_job (c : config) (b : buffers) : flushJob :=
  MkJob (b_ts b) (b_colOrder b)
    (list_to_map ((λ k, (k, default [] (b_cols b !! k))) <$> b_colOrder b))
    (foldl (pad_vec (length (b_ts b))) (b_vecs b) (range_map (vecFlds c)))
    (vecFlds c) (compact c).

(** *** Building the group *)

(** [worker]'s dictionary loop. *)
Fixpoint dict_cols (vals : gmap bytes (list bytes)) (ks : list bytes) : outcome (list Column) :=
  match ks with
  | [] => Ok []
  | k :: ks' =>
      d ← BuildDict (default [] (vals !! k));
      cols ← dict_cols vals ks';
      Ok (MkColumn k ColDict (Some d) [] [] 0 :: cols)
  end.
(** [worker]'s vector loop: the columns, and how many were refused. *)
Fixpoint vec_cols (rows : Z) (vecs : gmap bytes (list Z)) (l : list (bytes * Z)) : list Column * Z :=
  match l with
  | [] => ([], 0)
  | (name, dim) :: l' =>
      let data := default [] (vecs !! name) in
      let '(cols, failed) := vec_cols rows vecs l' in
      if bool_decide (len data = 0) then (cols, failed)
      else if bool_decide (len data ≠ rows * dim) then (cols, failed + 1)
      else (MkColumn name ColVector None [] data dim :: cols, failed)
  end.
(** The group [worker] appends to the store for a job. *)
Definition worker_group (j : flushJob) : outcome (Group * Z) :=
  dicts ← dict_cols (j_vals j) (j_colOrder j);
  let '(vs, failed) := vec_cols (len (j_ts j)) (j_vecs j) (range_map (j_vecFlds j)) in
  Ok (MkGroup (len (j_ts j)) (MkColumn s_time ColTimestamp None (j_ts j) [] 0 :: dicts ++ vs) (j_compact j) false,
      failed).
End writer.

(** ** Folding in any order *)

Lemma foldl_perm {A B X} (key : A → X) (f : B → A → B) l1 l2 :
  (∀ b x y, key x ≠ key y → f (f b x) y = f (f b y) x) →
  l1 ≡ₚ l2 → NoDup (key <$> l1) → ∀ b, foldl f b l1 = foldl f b l2.
Proof.
  intros Hc Hp. induction Hp as [|x l1 l2 Hp IH|x y l|l1 l2 l3 Hp1 IH1 Hp2 IH2]; intros Hnd b; simpl.
  - done.
  - apply IH. rewrite fmap_cons in Hnd. by apply NoDup_cons in Hnd as [_ ?].
  - rewrite Hc; [done|]. rewrite !fmap_cons in Hnd. apply NoDup_cons in Hnd as [Hn _]. intros E. apply Hn. rewrite E. by left.
  - rewrite IH1 by done. apply IH2. by rewrite <- Hp1.
Qed.

(** Keeping the entries [P] of an association list with distinct keys. *)
Lemma elem_of_kept {V} (m : gmap bytes V) (l : list (bytes * V)) k v :
  l ≡ₚ map_to_list m → (k, v) ∈ l ↔ m !! k = Some v.
Proof. intros Hl. rewrite Hl. apply elem_of_map_to_list. Qed.
Lemma range_NoDup {V} (m : gmap bytes V) (l : list (bytes * V)) : l ≡ₚ map_to_list m → NoDup l.*1.
Proof. intros Hl. rewrite Hl. apply NoDup_fst_map_to_list. Qed.

Section fields.
Context (c : config) (row : nat) (d : bool).

(** [add_field] without the list of new names. *)
Definition add_old (b : buffers) (kv : bytes * bytes) : buffers := (add_field c row d (b, []) kv).1.

Definition is_new (b : buffers) (k : bytes) : bool :=
  negb (skipped c d k) && match b_cols b !! k with None => true | Some _ => false end.

Lemma add_old_dom b kv k : is_Some (b_cols (add_old b kv) !! k) ↔ is_Some (b_cols b !! k).
Proof.
  destruct kv as [k' v]. unfold add_old, add_field. destruct (skipped c d k'); [done|].
  destruct (b_cols b !! k') as [vals|] eqn:E; [|done]. cbn [fst set_col b_cols].
  destruct (decide (k' = k)) as [-> |Hne]; [|by rewrite lookup_insert_ne].
  rewrite lookup_insert_eq, E. split; intros _; by eexists.
Qed.
Lemma is_new_old b kv k : is_new (add_old b kv) k = is_new b k.
Proof.
  unfold is_new. f_equal. pose proof (add_old_dom b kv k) as Hd.
  destruct (b_cols (add_old b kv) !! k), (b_cols b !! k); try done.
  - destruct Hd as [[? ?] _]; [by eexists|done].
  - destruct Hd as [_ [? ?]]; [by eexists|done].
Qed.

Lemma add_fields_split l : ∀ b nc,
  foldl (add_field c row d) (b, nc) l = (foldl add_old b l, nc ++ List.filter (is_new b) l.*1).
Proof.
  induction l as [|[k v] l IH]; intros b nc; [by rewrite app_nil_r|].
  rewrite fmap_cons. cbn [foldl List.filter fst].
  assert (add_field c row d (b, nc) (k, v) = (add_old b (k, v), nc ++ (if is_new b k then [k] else []))) as ->.
  { unfold add_old, is_new, add_field. destruct (skipped c d k); [by rewrite app_nil_r|]. cbn [negb andb].
    destruct (b_cols b !! k); [by rewrite app_nil_r|done]. }
  rewrite IH. f_equal. rewrite <- app_assoc. f_equal.
  replace (List.filter (is_new (add_old b (k, v))) l.*1) with (List.filter (is_new b) l.*1); [by destruct (is_new b k)|].
  apply List.filter_ext. intros x. symmetry. apply is_new_old.
Qed.

Lemma add_old_comm b x y : x.1 ≠ y.1 → add_old (add_old b x) y = add_old (add_old b y) x.
Proof.
  destruct x as [k v], y as [k' v']. cbn [fst]. intros Hne. unfold add_old, add_field.
  destruct (skipped c d k), (skipped c d k'); try done.
  destruct (b_cols b !! k) as [l|] eqn:E, (b_cols b !! k') as [l'|] eqn:E'; cbn [fst];
    unfold set_col; cbn [b_cols b_ts b_colOrder b_vecs b_bytes]; rewrite ?lookup_insert_ne, ?E, ?E' by done; try done.
  cbn [fst]. f_equal; [by apply insert_insert_ne|lia].
Qed.
End fields.

(** ** The columns after a record *)

(** Column [k] after the fields [f] were appended at row [row]. *)
Definition put (row : nat) (f : gmap bytes bytes) (cols : gmap bytes (list bytes)) (k : bytes) : option (list bytes) :=
  match f !! k with
  | Some v => Some (default (replicate row []) (cols !! k) ++ [v])
  | None => cols !! k
  end.

(** The fields the loop of [addVec] stores. *)
Definition kept (c : config) (d : bool) (f : gmap bytes bytes) : gmap bytes bytes :=
  filter (λ kv, skipped c d kv.1 = false) f.
Lemma kept_lookup c d f k : kept c d f !! k = if skipped c d k then None else f !! k.
Proof.
  unfold kept. rewrite map_lookup_filter. destruct (f !! k) as [v|]; cbn; destruct (skipped c d k); try done.
Qed.

(** What one stage of [addVec] leaves alone. *)
Definition same_rows (b b' : buffers) : Prop := b_ts b' = b_ts b ∧ b_vecs b' = b_vecs b.
Definition full (row : nat) (cols : gmap bytes (list bytes)) : Prop :=
  map_Forall (λ _ vals, length vals = row) cols.

Lemma backfill_full {A} (z : A) n l : length l = n → backfill z n l = l.
Proof. intros <-. unfold backfill. by rewrite Nat.sub_diag, app_nil_r. Qed.
Lemma backfill_one {A} (z : A) n l : length l = n → backfill z (S n) l = l ++ [z].
Proof. intros <-. unfold backfill. by replace (S (length l) - length l)%nat with 1%nat by lia. Qed.

Lemma old_fields c row d l : NoDup l.*1 → ∀ b,
  (∀ k vals, k ∈ l.*1 → b_cols b !! k = Some vals → length vals = row) →
  let b' := foldl (add_old c row d) b l in
  same_rows b b' ∧ b_colOrder b' = b_colOrder b ∧
  ∀ k, b_cols b' !! k =
    (λ vals, vals ++ match kept c d (list_to_map l) !! k with Some v => [v] | None => [] end) <$> b_cols b !! k.
Proof.
  induction l as [|[k v] l IH]; intros Hnd b Hb; cbn [foldl].
  - split_and!; [done..|]. intros k. rewrite kept_lookup. destruct (b_cols b !! k); cbn; [|done].
    destruct (skipped c d k); by rewrite app_nil_r.
  - rewrite fmap_cons in Hnd. apply NoDup_cons in Hnd as [Hn Hnd]. cbn [fst] in Hn.
    destruct (IH Hnd (add_old c row d b (k, v))) as ([E1 E2] & E3 & E4).
    { intros k' vals Hk' E. apply (Hb k'); [by right|]. rewrite <- E. assert (k ≠ k') by congruence.
      unfold add_old, add_field. destruct (skipped c d k); [done|]. destruct (b_cols b !! k); [|done].
      cbn. by rewrite lookup_insert_ne. }
    assert (same_rows b (add_old c row d b (k, v)) ∧ b_colOrder (add_old c row d b (k, v)) = b_colOrder b) as [[E5 E6] E7].
    { unfold add_old, add_field, same_rows. destruct (skipped c d k); [done|]. by destruct (b_cols b !! k). }
    split_and!; [split; congruence|congruence|]. intros k'. rewrite E4, !kept_lookup. cbn [list_to_map foldr fst snd].
    unfold add_old, add_field. destruct (decide (k = k')) as [<- |Hne].
    + rewrite lookup_insert_eq. assert (list_to_map (M:=gmap bytes bytes) l !! k = None) as -> by (by apply not_elem_of_list_to_map_1).
      destruct (skipped c d k); [done|]. destruct (b_cols b !! k) as [vals|] eqn:E; cbn [fst set_col b_cols]; [|by rewrite E].
      rewrite lookup_insert_eq. cbn. rewrite app_nil_r, backfill_full; [done|]. apply (Hb k); [by left|done].
    + rewrite lookup_insert_ne by done. destruct (skipped c d k); [done|].
      destruct (b_cols b !! k); [|done]. cbn [fst set_col b_cols]. by rewrite lookup_insert_ne by done.
Qed.

Lemma new_fields f row ks : NoDup ks → ∀ b,
  let b' := foldl (add_new f row) b ks in
  same_rows b b' ∧ b_colOrder b' = b_colOrder b ++ ks ∧
  ∀ k, b_cols b' !! k = if bool_decide (k ∈ ks) then Some (replicate row [] ++ [default [] (f !! k)]) else b_cols b !! k.
Proof.
  induction ks as [|k ks IH]; intros Hnd b; cbn [foldl].
  - split_and!; [done|by rewrite app_nil_r|]. intros k. by rewrite bool_decide_eq_false_2 by (by intros ?%elem_of_nil).
  - apply NoDup_cons in Hnd as [Hn Hnd]. destruct (IH Hnd (add_new f row b k)) as ([E1 E2] & E3 & E4).
    split_and!; [done|by rewrite E3; cbn; rewrite <- app_assoc|]. intros k'. rewrite E4. cbn.
    destruct (decide (k = k')) as [<- |Hne].
    + rewrite bool_decide_eq_false_2 by done. rewrite lookup_insert_eq, bool_decide_eq_true_2 by (by left). done.
    + rewrite lookup_insert_ne by done. destruct (decide (k' ∈ ks)).
      * by rewrite !bool_decide_eq_true_2 by (done || by right).
      * rewrite !bool_decide_eq_false_2; [done| |done]. by intros [?|?]%elem_of_cons.
Qed.

(** The column order names every column once. *)
Record order_ok (b : buffers) : Prop := {
  oo_nodup : NoDup (b_colOrder b);
  oo_dom k : k ∈ b_colOrder b ↔ is_Some (b_cols b !! k) }.

Lemma elem_of_filter_bool {A} (P : A → bool) l x : x ∈ List.filter P l ↔ P x = true ∧ x ∈ l.
Proof. rewrite !list_elem_of_In, List.filter_In. tauto. Qed.
Lemma NoDup_filter_bool {A} (P : A → bool) l : NoDup l → NoDup (List.filter P l).
Proof. rewrite !NoDup_ListNoDup. apply List.NoDup_filter. Qed.

Lemma order_app b b' ks :
  order_ok b → NoDup ks → (∀ k, k ∈ ks → b_cols b !! k = None) →
  b_colOrder b' = b_colOrder b ++ ks →
  (∀ k, is_Some (b_cols b' !! k) ↔ is_Some (b_cols b !! k) ∨ k ∈ ks) → order_ok b'.
Proof.
  intros [Hn Hd] Hk Hnew Ho Hdom. constructor.
  - rewrite Ho. apply NoDup_app. split_and!; [done| |done]. intros k Hk1 Hk2. apply Hd in Hk1 as [? E]. by rewrite Hnew in E.
  - intros k. rewrite Ho, elem_of_app, Hd, Hdom. done.
Qed.

Lemma fields_stage c row d f l b :
  l ≡ₚ map_to_list f → full row (b_cols b) → order_ok b →
  let bn := foldl (add_field c row d) (b, []) l in
  let b' := foldl (add_new f row) bn.1 (sort_Strings bn.2) in
  same_rows b b' ∧ order_ok b' ∧
  b_colOrder b' = b_colOrder b ++ sort_Strings (List.filter (is_new c d b) l.*1) ∧
  ∀ k, b_cols b' !! k = put row (kept c d f) (b_cols b) k.
Proof.
  intros Hl Hf Ho. rewrite add_fields_split. cbn [fst snd app].
  pose proof (range_NoDup f l Hl) as Hnd. set (nc := List.filter (is_new c d b) l.*1).
  assert (NoDup (sort_Strings nc)) as Hnc by (rewrite sort_Strings_perm; by apply NoDup_filter_bool).
  destruct (old_fields c row d l Hnd b) as ([E1 E2] & E3 & E4); [intros k vals _; apply Hf|].
  destruct (new_fields f row (sort_Strings nc) Hnc (foldl (add_old c row d) b l)) as ([E5 E6] & E7 & E8).
  assert (list_to_map l = f) as El.
  { rewrite (list_to_map_proper l (map_to_list f)) by done. apply list_to_map_to_list. }
  assert (∀ k, k ∈ sort_Strings nc ↔ b_cols b !! k = None ∧ is_Some (kept c d f !! k)) as Hin.
  { intros k. rewrite sort_Strings_perm. unfold nc. rewrite elem_of_filter_bool, kept_lookup. unfold is_new.
    assert (k ∈ l.*1 ↔ is_Some (f !! k)) as ->.
    { rewrite Hl, list_elem_of_fmap. split.
      - intros ([k' v] & -> & Hkv%elem_of_map_to_list). by eexists.
      - intros [v Hv]. exists (k, v). split; [done|]. by apply elem_of_map_to_list. }
    destruct (skipped c d k); cbn.
    - split; [by intros [? _]|]. intros [_ [? ?]]. done.
    - destruct (b_cols b !! k); [|tauto]. split; intros [? _]; done. }
  assert (∀ k, b_cols (foldl (add_new f row) (foldl (add_old c row d) b l) (sort_Strings nc)) !! k
               = put row (kept c d f) (b_cols b) k) as Hput.
  { intros k. rewrite E8, E4, El. unfold put. case_bool_decide as Hk; rewrite Hin in Hk.
    - destruct Hk as [-> [v Hv]]. rewrite Hv. cbn. rewrite kept_lookup in Hv. destruct (skipped c d k); [done|]. by rewrite Hv.
    - destruct (kept c d f !! k) as [v|] eqn:Ek, (b_cols b !! k) as [vals|] eqn:Eb; cbn; try done.
      + exfalso. apply Hk. split; [done|by eexists].
      + by rewrite app_nil_r. }
  split_and!; [split; congruence| |by rewrite E7, E3|done].
  apply (order_app b _ (sort_Strings nc)); try done.
  - intros k Hk. by apply Hin in Hk as [? _].
  - by rewrite E7, E3.
  - intros k. rewrite Hput, Hin. unfold put, is_Some.
    destruct (kept c d f !! k) as [v|], (b_cols b !! k) as [w|]; (split; [intros [? ?]|intros [[? ?]|[? [? ?]]]]); try done; eauto.
Qed.

(** The label, when there is one, is a field like the others. *)
Definition labelled (c : config) (labels : bool) (f : gmap bytes bytes) : gmap bytes bytes :=
  let sv := buildStreamLabel (strmFlds c) f in
  if labels && bool_decide (sv ≠ []) then <[s_stream := sv]> (kept c labels f) else kept c labels f.

Lemma stream_stage c row f b b0 :
  (∀ k, b_cols b !! k = put row (kept c true f) (b_cols b0) k) → full row (b_cols b0) → order_ok b →
  let b' := add_stream c row f b in
  same_rows b b' ∧ order_ok b' ∧ ∀ k, b_cols b' !! k = put row (labelled c true f) (b_cols b0) k.
Proof.
  intros Hb Hf Ho. cbv zeta. unfold add_stream, labelled. cbn [andb].
  destruct (decide (buildStreamLabel (strmFlds c) f = [])) as [E|E].
  - rewrite bool_decide_eq_true_2 by done. rewrite bool_decide_eq_false_2 by (intros Hc; by apply Hc). done.
  - rewrite bool_decide_eq_false_2, bool_decide_eq_true_2 by done. set (sv := buildStreamLabel (strmFlds c) f) in *.
    assert (b_cols b !! s_stream = b_cols b0 !! s_stream) as Es.
    { rewrite Hb. unfold put. rewrite kept_lookup.
      replace (skipped c true s_stream) with true; [done|]. unfold skipped, str_eqb. by rewrite bool_decide_eq_true_2. }
    assert (∀ vals, vals = default (replicate row []) (b_cols b0 !! s_stream) →
      ∀ k, <[s_stream:=vals ++ [sv]]> (b_cols b) !! k = put row (<[s_stream:=sv]> (kept c true f)) (b_cols b0) k) as Hput.
    { intros vals -> k. unfold put. destruct (decide (k = s_stream)) as [-> |Hne]; [by rewrite !lookup_insert_eq|].
      rewrite !lookup_insert_ne by done. apply Hb. }
    rewrite Es. destruct (b_cols b0 !! s_stream) as [vals|] eqn:E0; unfold set_col, new_col; cbn.
    + split_and!; [done| |]; [|apply Hput; apply backfill_full; by apply (Hf s_stream)].
      destruct Ho as [Hn Hd]. constructor; cbn; [done|]. intros k. rewrite Hd.
      destruct (decide (k = s_stream)) as [-> |Hne]; [|by rewrite lookup_insert_ne].
      rewrite lookup_insert_eq, Es. split; intros _; by eexists.
    + split_and!; [done| |by apply Hput]. apply (order_app b _ [s_stream]); try done.
      * apply NoDup_singleton.
      * intros k ->%list_elem_of_singleton. by rewrite Es.
      * intros k. cbn. rewrite list_elem_of_singleton. destruct (decide (k = s_stream)) as [-> |Hne].
        -- rewrite lookup_insert_eq. split; [auto|by eexists].
        -- rewrite lookup_insert_ne by done. tauto.
Qed.

Lemma pad_stage row ks : NoDup ks → ∀ b,
  let b' := foldl (pad row) b ks in
  same_rows b b' ∧ b_colOrder b' = b_colOrder b ∧ b_bytes b' = b_bytes b ∧
  ∀ k, b_cols b' !! k = if bool_decide (k ∈ ks) then backfill [] (S row) <$> b_cols b !! k else b_cols b !! k.
Proof.
  induction ks as [|k ks IH]; intros Hnd b; cbn [foldl].
  - split_and!; [done..|]. intros k. by rewrite bool_decide_eq_false_2 by (by intros ?%elem_of_nil).
  - apply NoDup_cons in Hnd as [Hn Hnd]. destruct (IH Hnd (pad row b k)) as ([E1 E2] & E3 & E4 & E5).
    assert (same_rows b (pad row b k) ∧ b_colOrder (pad row b k) = b_colOrder b ∧ b_bytes (pad row b k) = b_bytes b ∧
      ∀ k', b_cols (pad row b k) !! k' = if bool_decide (k' = k) then backfill [] (S row) <$> b_cols b !! k' else b_cols b !! k')
      as ([E6 E7] & E8 & E9 & E10).
    { unfold pad, same_rows. destruct (b_cols b !! k) as [vals|] eqn:E; cbn; split_and!; try done; try lia;
        intros k'; destruct (decide (k' = k)) as [-> |Hne];
        rewrite ?(bool_decide_eq_true_2 (k = k)), ?(bool_decide_eq_false_2 (k' = k)), ?lookup_insert_eq, ?lookup_insert_ne, ?E by done; done. }
    split_and!; [split; congruence|congruence|congruence|]. intros k'. rewrite E5, E10.
    destruct (decide (k' = k)) as [-> |Hne].
    + rewrite (bool_decide_eq_false_2 (k ∈ ks)), !bool_decide_eq_true_2 by (done || by left). done.
    + rewrite (bool_decide_eq_false_2 (k' = k)) by done. destruct (decide (k' ∈ ks)).
      * by rewrite !bool_decide_eq_true_2 by (done || by right).
      * rewrite !bool_decide_eq_false_2; [done| |done]. by intros [?|?]%elem_of_cons.
Qed.

(** ** Rows *)

(** One record as the writer stores it. *)
Record row := Row { row_ts : Z; row_fields : gmap bytes bytes; row_vecs : gmap bytes (list Z) }.

Definition cell (k : bytes) (r : row) : bytes := default [] (row_fields r !! k).
Definition vec_of (name : bytes) (r : row) : list Z := default [] (row_vecs r !! name).
(** An absent vector, or one of the wrong length, is stored as zeros. *)
Definition vec_cell (name : bytes) (dim : Z) (r : row) : list Z :=
  if bool_decide (len (vec_of name r) = dim) then vec_of name r else replicate (Z.to_nat dim) 0.
Definition vec_sent (name : bytes) (dim : Z) (r : row) : Prop :=
  len (vec_of name r) = dim ∨ len (vec_of name r) ≠ 0.
#[export] Instance vec_sent_dec name dim r : Decision (vec_sent name dim r).
Proof. unfold vec_sent. apply _. Defined.

(** The buffers hold exactly these rows. *)
Record holds (c : config) (rows : list row) (b : buffers) : Prop := {
  ho_ts : b_ts b = row_ts <$> rows;
  ho_cols k : b_cols b !! k =
    if bool_decide (Exists (λ r, is_Some (row_fields r !! k)) rows) then Some (cell k <$> rows) else None;
  ho_order : order_ok b;
  ho_vecs name : b_vecs b !! name =
    match vecFlds c !! name with
    | Some dim => if bool_decide (Exists (vec_sent name dim) rows) then Some (concat (vec_cell name dim <$> rows)) else None
    | None => None
    end }.

Lemma holds_empty c : holds c [] no_rows.
Proof.
  constructor; [done| | |].
  - intros k. by rewrite bool_decide_eq_false_2 by (by intros ?%Exists_nil).
  - constructor; [apply NoDup_nil_2|]. intros k. cbn. rewrite lookup_empty. split; [by intros ?%elem_of_nil|by intros [??]].
  - intros name. destruct (vecFlds c !! name); [|done]. by rewrite bool_decide_eq_false_2 by (by intros ?%Exists_nil).
Qed.

Lemma holds_full c rows b : holds c rows b → full (length rows) (b_cols b).
Proof. intros [_ Hc _ _] k vals. rewrite Hc. case_bool_decide; [|done]. intros [= <-]. by rewrite length_fmap. Qed.

Lemma cell_absent k rows :
  ¬ Exists (λ r, is_Some (row_fields r !! k)) rows → cell k <$> rows = replicate (length rows) [].
Proof.
  induction rows as [|r rows IH]; [done|]. intros Hn. rewrite Exists_cons in Hn. rewrite fmap_cons, IH by tauto.
  unfold cell at 1. destruct (row_fields r !! k) eqn:E; [|done]. exfalso. apply Hn. left. by eexists.
Qed.

(** Appending the row [r]: what the field, label and padding stages do to column
    [k] is what the row says of it. *)
Lemma put_pad c rows b r k :
  holds c rows b →
  backfill [] (S (length rows)) <$> put (length rows) (row_fields r) (b_cols b) k
  = if bool_decide (Exists (λ r, is_Some (row_fields r !! k)) (rows ++ [r])) then Some (cell k <$> rows ++ [r]) else None.
Proof.
  intros Hh. unfold put. rewrite (ho_cols _ _ _ Hh k), fmap_app. cbn [fmap list_fmap].
  destruct (row_fields r !! k) as [v|] eqn:E.
  - rewrite (bool_decide_eq_true_2 (Exists _ (rows ++ [r]))) by (rewrite Exists_app, Exists_cons; right; left; by eexists).
    unfold cell at 3. rewrite E. cbn [default]. cbn. f_equal. case_bool_decide as Hx; cbn [default].
    + apply backfill_full. rewrite length_app, length_fmap. simpl. lia.
    + rewrite cell_absent by done. apply backfill_full. rewrite length_app, length_replicate. simpl. lia.
  - assert (Exists (λ r, is_Some (row_fields r !! k)) (rows ++ [r]) ↔ Exists (λ r, is_Some (row_fields r !! k)) rows) as Hiff.
    { rewrite Exists_app, Exists_cons, Exists_nil, E. split; [|tauto]. intros [?|[[? ?]|?]]; done. }
    unfold cell at 3. rewrite E. cbn [default]. rewrite (bool_decide_ext _ _ Hiff). case_bool_decide; [|done].
    cbn. f_equal. apply backfill_one. by rewrite length_fmap.
Qed.

Lemma concat_vec_len name dim rows :
  0 ≤ dim → length (concat (vec_cell name dim <$> rows)) = (length rows * Z.to_nat dim)%nat.
Proof.
  intros Hd. induction rows as [|r rows IH]; [done|]. rewrite fmap_cons. cbn [concat]. rewrite length_app, IH.
  unfold vec_cell. case_bool_decide as E; [|rewrite length_replicate; simpl; lia]. unfold len in E. simpl. lia.
Qed.
Lemma concat_vec_absent name dim rows :
  ¬ Exists (vec_sent name dim) rows → concat (vec_cell name dim <$> rows) = replicate (length rows * Z.to_nat dim) 0.
Proof.
  induction rows as [|r rows IH]; [done|]. intros Hn. rewrite Exists_cons in Hn. rewrite fmap_cons. cbn [concat].
  rewrite IH by tauto. unfold vec_cell. rewrite bool_decide_eq_false_2 by (unfold vec_sent in Hn; tauto).
  rewrite <- replicate_add. f_equal.
Qed.

(** The vector stage, one field at a time. *)
Lemma vec_stage c rows b0 r l : NoDup l.*1 → (∀ name dim, (name, dim) ∈ l → 0 ≤ dim ∧ vecFlds c !! name = Some dim) →
  holds c rows b0 → ∀ b, (∀ name, name ∈ l.*1 → b_vecs b !! name = b_vecs b0 !! name) →
  let b' := foldl (add_vec (length rows) (row_vecs r)) b l in
  b_ts b' = b_ts b ∧ b_cols b' = b_cols b ∧ b_colOrder b' = b_colOrder b ∧
  ∀ name, b_vecs b' !! name =
    match (list_to_map l : gmap bytes Z) !! name with
    | Some dim => if bool_decide (Exists (vec_sent name dim) (rows ++ [r])) then Some (concat (vec_cell name dim <$> rows ++ [r])) else None
    | None => b_vecs b !! name
    end.
Proof.
  intros Hnd Hl Hh. induction l as [|[name dim] l IH]; intros b Hb; cbn [foldl].
  { split_and!; done. }
  rewrite fmap_cons in Hnd. apply NoDup_cons in Hnd as [Hn Hnd]. cbn [fst] in Hn.
  set (b1 := add_vec (length rows) (row_vecs r) b (name, dim)).
  destruct (Hl name dim) as [Hdim Hcfg]; [by left|].
  pose proof (ho_vecs _ _ _ Hh name) as Hv. rewrite Hcfg, <- Hb in Hv by (rewrite fmap_cons; by left).
  assert (b_ts b1 = b_ts b ∧ b_cols b1 = b_cols b ∧ b_colOrder b1 = b_colOrder b ∧
    (∀ n, n ≠ name → b_vecs b1 !! n = b_vecs b !! n) ∧
    b_vecs b1 !! name = if bool_decide (Exists (vec_sent name dim) (rows ++ [r])) then Some (concat (vec_cell name dim <$> rows ++ [r])) else None)
    as (E1 & E2 & E3 & E4 & E5).
  { unfold b1, add_vec. fold (vec_of name r). set (v := vec_of name r).
    destruct (decide (len v ≠ dim ∧ b_vecs b !! name = None ∧ len v = 0)) as [Hskip|Hskip];
      [rewrite bool_decide_eq_true_2 by done|rewrite (bool_decide_eq_false_2 _ Hskip)]; unfold v in *.
    - destruct Hskip as (H1 & H2 & H3). split_and!; [done..|]. rewrite H2. rewrite bool_decide_eq_false_2; [done|].
      rewrite Exists_app, Exists_cons, Exists_nil. unfold vec_sent at 2. rewrite H2 in Hv. case_bool_decide; [done|]. tauto.
    - cbn. split_and!; [done..|by intros n Hne; rewrite lookup_insert_ne|]. rewrite lookup_insert_eq.
      assert (Exists (vec_sent name dim) (rows ++ [r])) as Hex.
      { rewrite Exists_app, Exists_cons. destruct (decide (Exists (vec_sent name dim) rows)) as [Hx|Hx]; [by left|].
        rewrite bool_decide_eq_false_2 in Hv by done. right. left. unfold vec_sent.
        destruct (decide (len (vec_of name r) = dim)); [by left|]. right. intros H0. by apply Hskip. }
      rewrite (bool_decide_eq_true_2 _ Hex). f_equal. rewrite fmap_app, concat_app. cbn. rewrite app_nil_r. f_equal.
      rewrite Hv. case_bool_decide as Hx; cbn [default].
      + apply backfill_full. by apply concat_vec_len.
      + rewrite concat_vec_absent by done. unfold backfill. simpl. by rewrite Nat.sub_0_r. }
  destruct (IH Hnd) with (b := b1) as (F1 & F2 & F3 & F4).
  { intros n d Hnd'. apply Hl. by right. }
  { intros n Hin. rewrite E4 by congruence. apply Hb. rewrite fmap_cons. by right. }
  split_and!; [congruence..|]. intros n. rewrite F4. cbn [list_to_map foldr fst snd].
  destruct (decide (name = n)) as [<- |Hne].
  - rewrite lookup_insert_eq, E5.
    by assert (list_to_map (M:=gmap bytes Z) l !! name = None) as -> by (by apply not_elem_of_list_to_map_1).
  - rewrite lookup_insert_ne by done. by rewrite E4.
Qed.

Section refine.
Context {M : MapRange} (c : config).

Definition labels_on (streamOverridden : bool) : bool := bool_decide (strmFlds c ≠ []) && negb streamOverridden.
(** The row a record becomes. *)
Definition stored_row (ts : Z) (fields : gmap bytes bytes) (streamOverridden : bool) (vecs : gmap bytes (list Z)) : row :=
  Row ts (labelled c (labels_on streamOverridden) (clean c fields)) vecs.

Definition dims_ok : Prop := map_Forall (λ _ dim, 0 ≤ dim) (vecFlds c).

Lemma add_row_spec rows b ts fields ov vecs :
  dims_ok → holds c rows b →
  holds c (rows ++ [stored_row ts fields ov vecs]) (add_row c ts fields ov vecs b).
Proof.
  intros Hdims Hh. set (r := stored_row ts fields ov vecs). unfold add_row. fold (labels_on ov).
  set (f := clean c fields). set (d := labels_on ov). set (b0 := Buffers (b_ts b ++ [ts]) _ _ _ _).
  assert (length (b_ts b) = length rows) as -> by (by rewrite (ho_ts _ _ _ Hh), length_fmap).
  assert (order_ok b0) as Ho0 by (destruct (ho_order _ _ _ Hh); by constructor).
  pose proof (holds_full c rows b Hh) as Hfull.
  destruct (fields_stage c (length rows) d f (range_map f) b0) as ([E1 E2] & Ho1 & _ & E3); [apply range_perm|done|done|].
  destruct (foldl (add_field c (length rows) d) (b0, []) (range_map f)) as [b1 nc]. cbn [fst snd] in *.
  set (b2 := foldl (add_new f (length rows)) b1 (sort_Strings nc)) in *.
  destruct (vec_stage c rows b r (range_map (vecFlds c))) with (b := b2) as (E4 & E5 & E6 & E7); try done.
  { by apply (range_NoDup (vecFlds c)), range_perm. }
  { intros name dim Hin. rewrite range_perm, elem_of_map_to_list in Hin. split; [by apply (Hdims name)|done]. }
  { intros name _. by rewrite E2. }
  assert (list_to_map (range_map (vecFlds c)) = vecFlds c) as El.
  { rewrite (list_to_map_proper _ (map_to_list (vecFlds c))); [apply list_to_map_to_list| |apply range_perm].
    by apply (range_NoDup (vecFlds c)), range_perm. }
  rewrite El in E7. change (row_vecs r) with vecs in *.
  set (b3 := foldl (add_vec (length rows) vecs) b2 (range_map (vecFlds c))) in *.
  assert (∃ b4, (if d then add_stream c (length rows) f b3 else b3) = b4 ∧ same_rows b3 b4 ∧ order_ok b4 ∧
    ∀ k, b_cols b4 !! k = put (length rows) (row_fields r) (b_cols b) k) as (b4 & -> & [E8 E9] & Ho4 & E10).
  { assert (order_ok b3) as Ho3 by (destruct Ho1 as [Hn Hd]; constructor; [by rewrite E6|intros k; by rewrite E6, E5]).
    eexists. split; [done|]. unfold r, stored_row. cbn [row_fields]. fold d f. destruct d.
    - apply (stream_stage c (length rows) f b3 b0); [|done|done]. intros k. by rewrite E5, E3.
    - split_and!; [done..|]. intros k. rewrite E5, E3. done. }
  destruct (pad_stage (length rows) (b_colOrder b4) (oo_nodup _ Ho4) b4) as ([E11 E12] & E13 & _ & E14).
  assert (∀ k, b_cols (foldl (pad (length rows)) b4 (b_colOrder b4)) !! k
    = backfill [] (S (length rows)) <$> put (length rows) (row_fields r) (b_cols b) k) as Epad.
  { intros k. rewrite E14, <- E10. case_bool_decide as Hk; [done|]. rewrite (oo_dom _ Ho4) in Hk.
    destruct (b_cols b4 !! k) eqn:E; [exfalso; apply Hk; by eexists|done]. }
  constructor.
  - rewrite E11, E8, E4, E1. unfold b0. cbn. rewrite (ho_ts _ _ _ Hh), fmap_app. done.
  - intros k. rewrite Epad. by apply (put_pad c).
  - constructor; [rewrite E13; apply Ho4|]. intros k. rewrite E13, (oo_dom _ Ho4), Epad, <- E10. by rewrite fmap_is_Some.
  - intros name. rewrite E12, E9, E7. destruct (vecFlds c !! name) eqn:En; [done|]. rewrite E2. cbn.
    rewrite (ho_vecs _ _ _ Hh name), En. done.
Qed.

(** the column buffers refine a list of rows: if they hold [rows] then,
    after [addVec] has distributed a record over them, backfilled the columns it
    is the first to use and padded those it lacks, they hold [rows] and the row
    the record becomes once its empty fields are dropped, its limits applied and
    its stream label derived. *)
Theorem add_row_refines rows b ts fields ov vecs :
  dims_ok → holds c rows b →
  holds c (rows ++ [stored_row ts fields ov vecs]) (add_row c ts fields ov vecs b).
Proof. apply add_row_spec. Qed.
End refine.

(** ** Map iteration order does not matter *)

#[export] Instance str_le_antisymm : AntiSymm eq str_le.
Proof.
  intros a b. rewrite !str_le_cases. intros [H1| ->] [H2|H2]; try done. exfalso. eapply str_lt_irrefl. by eapply str_lt_trans.
Qed.

Lemma sort_Strings_det l1 l2 : l1 ≡ₚ l2 → sort_Strings l1 = sort_Strings l2.
Proof.
  intros Hp. apply (StronglySorted_unique str_le).
  - apply (StronglySorted_merge_sort _ _).
  - apply (StronglySorted_merge_sort _ _).
  - by rewrite !sort_Strings_perm.
Qed.

Lemma filter_bool_perm {A} (P : A → bool) l1 l2 : l1 ≡ₚ l2 → List.filter P l1 ≡ₚ List.filter P l2.
Proof.
  induction 1 as [|x l1 l2 Hp IH|x y l|l1 l2 l3 _ IH1 _ IH2]; simpl; [done| | |by rewrite IH1].
  - destruct (P x); [by rewrite IH|done].
  - destruct (P x), (P y); try done. apply Permutation_swap.
Qed.

Lemma range_any {V} (M1 M2 : MapRange) (m : gmap bytes V) : @range_map M1 V m ≡ₚ @range_map M2 V m.
Proof. by rewrite !range_perm. Qed.

Lemma clean_det (M1 M2 : MapRange) c fields : @clean M1 c fields = @clean M2 c fields.
Proof.
  unfold clean. case_bool_decide; [|done]. unfold truncateForLimits.
  set (f := if bool_decide (0 < MaxNameBytes (limits c) ∨ 0 < MaxValueBytes (limits c)) then _ else _).
  rewrite (sort_Strings_det (List.filter (λ k, negb (reservedField k)) (@range_map M1 bytes f).*1)
             (List.filter (λ k, negb (reservedField k)) (@range_map M2 bytes f).*1)); [done|].
  apply filter_bool_perm, fmap_Permutation, range_any.
Qed.

Lemma add_vec_comm row vecs b x y :
  x.1 ≠ y.1 → add_vec row vecs (add_vec row vecs b x) y = add_vec row vecs (add_vec row vecs b y) x.
Proof.
  destruct x as [n d], y as [n' d']. cbn [fst]. intros Hne.
  assert (∀ b n d n', n ≠ n' → b_vecs (add_vec row vecs b (n, d)) !! n' = b_vecs b !! n') as Hframe.
  { intros b1 n1 d1 n2 H. unfold add_vec. case_bool_decide; [done|]. cbn. by rewrite lookup_insert_ne. }
  pose proof (Hframe b n d n' Hne) as F1. pose proof (Hframe b n' d' n ltac:(congruence)) as F2.
  unfold add_vec at 1 3. rewrite F1, F2. unfold add_vec.
  repeat case_bool_decide; cbn; try done; f_equal; try lia; by apply insert_insert_ne.
Qed.

(** However Go iterates its maps, [addVec] leaves the same buffers: the same
    values in the same columns, in the same column order, with the same byte
    count, so the same records give the same group on every node. *)
Theorem add_row_deterministic (M1 M2 : MapRange) c ts fields ov vecs b :
  @add_row M1 c ts fields ov vecs b = @add_row M2 c ts fields ov vecs b.
Proof.
  unfold add_row. rewrite (clean_det M1 M2). cbv zeta. rewrite !add_fields_split.
  set (f := @clean M2 c fields). set (b0 := Buffers (b_ts b ++ [ts]) _ _ _ _).
  set (labels := bool_decide (strmFlds c ≠ []) && negb ov). set (row := length (b_ts b)). cbn [app].
  assert (∀ V (m : gmap bytes V), NoDup (@range_map M1 V m).*1) as Hnd by (intros; eapply range_NoDup, range_perm).
  rewrite (foldl_perm fst (add_old c row labels) (@range_map M1 bytes f) (@range_map M2 bytes f));
    [|intros; by apply add_old_comm|apply range_any|apply Hnd].
  rewrite (sort_Strings_det (List.filter (is_new c labels b0) (@range_map M1 bytes f).*1)
             (List.filter (is_new c labels b0) (@range_map M2 bytes f).*1));
    [|apply filter_bool_perm, fmap_Permutation, range_any].
  rewrite (foldl_perm fst (add_vec row vecs) (@range_map M1 Z (vecFlds c)) (@range_map M2 Z (vecFlds c)));
    [done|intros; by apply add_vec_comm|apply range_any|apply Hnd].
Qed.

(** ** The record limits *)

Lemma deletes_lookup {V} (ks : list bytes) : ∀ (m : gmap bytes V) k,
  foldl (λ m k, delete k m) m ks !! k = if bool_decide (k ∈ ks) then None else m !! k.
Proof.
  induction ks as [|x ks IH]; intros m k; cbn [foldl]; [by rewrite bool_decide_eq_false_2 by (by intros ?%elem_of_nil)|].
  rewrite IH. destruct (decide (k ∈ ks)) as [Hk|Hk].
  - by rewrite !bool_decide_eq_true_2 by (done || by right).
  - rewrite (bool_decide_eq_false_2 _ Hk). destruct (decide (k = x)) as [-> |Hne].
    + rewrite bool_decide_eq_true_2 by (by left). apply lookup_delete_eq.
    + rewrite bool_decide_eq_false_2 by (by intros [?|?]%elem_of_cons). by apply lookup_delete_ne.
Qed.
Lemma deletes_size {V} (ks : list bytes) : ∀ (m : gmap bytes V),
  NoDup ks → (∀ k, k ∈ ks → is_Some (m !! k)) → (size (foldl (λ m k, delete k m) m ks) + length ks = size m)%nat.
Proof.
  induction ks as [|x ks IH]; intros m Hnd Hk; cbn [foldl length]; [lia|]. apply NoDup_cons in Hnd as [Hn Hnd].
  destruct (Hk x) as [v Hv]; [by left|]. specialize (IH (delete x m) Hnd).
  rewrite map_size_delete_Some in IH by (by eexists). assert (size m ≠ 0%nat) by (rewrite map_size_ne_0_lookup; eauto).
  assert (∀ k, k ∈ ks → is_Some (delete x m !! k)) as Hk'.
  { intros k Hin. rewrite lookup_delete_ne by congruence. apply Hk. by right. }
  specialize (IH Hk'). lia.
Qed.

Section limits.
Context {M : MapRange} (c : config).

(** The names [truncateForLimits] may drop for the field count, of [f]. *)
Definition unreserved (f : gmap bytes bytes) : list bytes :=
  sort_Strings (List.filter (λ k, negb (reservedField k)) (range_map f).*1).

Lemma unreserved_spec f : NoDup (unreserved f) ∧ ∀ k, k ∈ unreserved f ↔ reservedField k = false ∧ is_Some (f !! k).
Proof.
  unfold unreserved. split.
  - rewrite sort_Strings_perm. apply NoDup_filter_bool. eapply range_NoDup, range_perm.
  - intros k. rewrite sort_Strings_perm, elem_of_filter_bool, negb_true_iff, range_perm, list_elem_of_fmap. split.
    + intros [Hr ([k' v] & -> & Hin%elem_of_map_to_list)]. split; [done|]. by eexists.
    + intros [Hr [v Hv]]. split; [done|]. exists (k, v). split; [done|]. by apply elem_of_map_to_list.
Qed.

Lemma clip_field_spec k v w :
  clip_field c k v = Some w →
  w `prefix_of` v ∧ (reservedField k = true → w = v) ∧
  (0 < MaxNameBytes (limits c) → reservedField k = true ∨ len k ≤ MaxNameBytes (limits c)) ∧
  (0 < MaxValueBytes (limits c) → reservedField k = true ∨ isStreamField c k = true ∨ len w ≤ MaxValueBytes (limits c)).
Proof.
  unfold clip_field. destruct (reservedField k) eqn:Hr; [intros [= <-]; eauto 10|].
  case_bool_decide; [done|]. destruct (isStreamField c k) eqn:Hs.
  - intros [= <-]. split_and!; [done|done|lia|auto].
  - case_bool_decide; intros [= <-]; split_and!; try done; try lia.
    + apply prefix_take.
    + intros. right. right. rewrite len_take. lia.
Qed.

(** Dropping the names past the budget leaves few enough fields. *)
Lemma budget_size f n :
  0 < n → n < Z.of_nat (size f) →
  let budget := Z.max 0 (n - (Z.of_nat (size f) - len (unreserved f))) in
  let f' := foldl (λ m k, delete k m) f (drop (Z.to_nat budget) (unreserved f)) in
  Z.of_nat (size f') ≤ Z.max n (len (List.filter reservedField (range_map f').*1)).
Proof.
  intros Hn Hf. cbv zeta. destruct (unreserved_spec f) as [Hnd Hin]. set (budget := Z.max 0 _).
  set (dropped := drop _ _). set (f' := foldl _ _ _).
  assert (∀ k, k ∈ dropped → reservedField k = false ∧ is_Some (f !! k)) as Hdr.
  { intros k Hk. apply Hin. by eapply subseteq_drop. }
  assert (size f' + length dropped = size f)%nat as Hs.
  { apply deletes_size; [rewrite <- (take_drop (Z.to_nat budget) (unreserved f)) in Hnd; by apply NoDup_app in Hnd as (_ & _ & ?)|]. by intros k [_ ?]%Hdr. }
  assert (length dropped = length (unreserved f) - Z.to_nat budget)%nat as El by apply length_drop.
  unfold len in *. destruct (decide (budget = 0)) as [Hb|Hb]; [|lia].
  assert (List.filter reservedField (range_map f').*1 = (range_map f').*1) as ->.
  { assert (∀ k, k ∈ (range_map f').*1 → reservedField k = true) as Hall.
    { intros k. rewrite range_perm, list_elem_of_fmap. intros ([k' v] & -> & Hv%elem_of_map_to_list). cbn.
      unfold f' in Hv. rewrite deletes_lookup in Hv. case_bool_decide as Hk; [done|]. unfold dropped in Hk.
      rewrite Hb, drop_0, Hin in Hk. destruct (reservedField k') eqn:E; [done|]. exfalso. apply Hk. split; [done|by eexists]. }
    clear -Hall. induction (range_map f').*1 as [|k ks IH]; [done|]. simpl. rewrite Hall by (by left). f_equal.
    apply IH. intros k' Hk'. apply Hall. by right. }
  rewrite length_fmap, range_perm, length_map_to_list. lia.
Qed.

(** [truncateForLimits] bounds a record without inventing anything: what
    stays is a field of the record, at most clipped; [_msg], [_time] and
    [_stream] always stay, whole; every other name fits [MaxNameBytes]; every
    value but theirs and the stream fields' fits [MaxValueBytes]; and at most
    [MaxFields] fields stay, or as many as are reserved. *)
Theorem truncateForLimits_bounds f :
  let f' := truncateForLimits c f in let l := limits c in
  (∀ k w, f' !! k = Some w → ∃ v, f !! k = Some v ∧ w `prefix_of` v) ∧
  (∀ k, reservedField k = true → f' !! k = f !! k) ∧
  (0 < MaxNameBytes l → ∀ k, is_Some (f' !! k) → reservedField k = true ∨ len k ≤ MaxNameBytes l) ∧
  (0 < MaxValueBytes l → ∀ k w, f' !! k = Some w →
     reservedField k = true ∨ isStreamField c k = true ∨ len w ≤ MaxValueBytes l) ∧
  (0 < MaxFields l → Z.of_nat (size f') ≤ Z.max (MaxFields l) (len (List.filter reservedField (range_map f').*1))).
Proof.
  cbv zeta. unfold truncateForLimits. set (l := limits c).
  set (f1 := if bool_decide (0 < MaxNameBytes l ∨ 0 < MaxValueBytes l) then _ else _). fold (unreserved f1).
  assert (∀ k, (∀ w, f1 !! k = Some w → ∃ v, f !! k = Some v ∧ w `prefix_of` v ∧
     (0 < MaxNameBytes l → reservedField k = true ∨ len k ≤ MaxNameBytes l) ∧
     (0 < MaxValueBytes l → reservedField k = true ∨ isStreamField c k = true ∨ len w ≤ MaxValueBytes l)) ∧
     (reservedField k = true → f1 !! k = f !! k)) as H1.
  { intros k. unfold f1. case_bool_decide as Hl.
    - rewrite map_lookup_imap. split.
      + intros w. destruct (f !! k) as [v|]; [|done]. intros Hw. exists v. destruct (clip_field_spec k v w Hw) as (? & _ & ? & ?). done.
      + intros Hr. destruct (f !! k) as [v|]; [|done]. cbn. unfold clip_field. by rewrite Hr.
    - split; [|done]. intros w Hw. exists w. split_and!; [done|done|lia|lia]. }
  destruct (unreserved_spec f1) as [Hnd Hin].
  set (budget := Z.max 0 (MaxFields l - (Z.of_nat (size f1) - len (unreserved f1)))).
  set (f2 := if bool_decide (0 < MaxFields l ∧ MaxFields l < Z.of_nat (size f1)) then _ else _).
  set (dropped := drop (Z.to_nat budget) (unreserved f1)).
  assert (∀ k, k ∈ dropped → reservedField k = false ∧ is_Some (f1 !! k)) as Hdr.
  { intros k Hk. apply Hin. unfold dropped in Hk. eapply subseteq_drop; [exact Hk]. }
  assert (∀ k, (∀ w, f2 !! k = Some w → f1 !! k = Some w) ∧ (reservedField k = true → f2 !! k = f1 !! k)) as H2.
  { intros k. unfold f2. case_bool_decide; [|done]. fold dropped. rewrite deletes_lookup.
    case_bool_decide as Hk; [|done]. split; [done|]. intros Hr. by destruct (Hdr k Hk) as [? _]; congruence. }
  split_and!.
  - intros k w Hw%H2. destruct (proj1 (H1 k) w Hw) as (v & ? & ? & _). by exists v.
  - intros k Hr. rewrite (proj2 (H2 k) Hr). by apply H1.
  - intros Hl k [w Hw%H2]. destruct (proj1 (H1 k) w Hw) as (v & _ & _ & Hn & _). by apply Hn.
  - intros Hl k w Hw%H2. destruct (proj1 (H1 k) w Hw) as (v & _ & _ & _ & Hn). by apply Hn.
  - intros Hl. unfold f2. case_bool_decide as Hc; [|lia]. apply budget_size; lia.
Qed.
End limits.
