(* ===== verification/Ingest.v ===== *)
(** * From records to answers

    The rows a [Writer] buffered become a job, the job a group, the group a
    blob, and the blob a reader whose answers are the rows. *)

From S2P Require Import Prelude Digits GoLib Kernels Indices Timestamps Compress DictSection DictLayout Postings Bloom Group GroupSafe GroupLayout Reader ReaderSafe ReaderOk Table Writer.
From stdpp Require Import list sorting gmap.
Local Open Scope Z_scope.

(** ** Dictionaries of values *)

Lemma concat_len_perm (l1 l2 : list bytes) : l1 ≡ₚ l2 → len (concat l1) = len (concat l2).
Proof. induction 1; cbn [concat]; rewrite ?len_app; lia. Qed.

(** A dictionary of values drawn from [pool] is no bigger than [pool]. *)
Lemma dict_of_wf vs pool d :
  dict_of vs d → (∀ v, v ∈ vs → v ∈ pool) →
  Forall is_bytes pool → len pool ≤ 2 ^ 22 → len (concat pool) < 2 ^ 30 - 260 → dict_col_wf (len vs) d.
Proof.
  intros [Hs Hm Hr] Hsub Hb Hn Hc.
  assert (NoDup (Dict d)) as Hnd.
  { clear -Hs. induction Hs as [|x l Hs IH Hx]; [apply NoDup_nil_2|]. apply NoDup_cons. split; [|done].
    intros Hin. rewrite Forall_forall in Hx. apply Hx in Hin. by eapply str_lt_irrefl. }
  destruct (submseteq_Permutation (Dict d) pool) as [rest Hp]; [apply NoDup_submseteq; [done|intros v ?%Hm; by apply Hsub]|].
  pose proof (concat_len_perm _ _ Hp) as Hl. rewrite concat_app, len_app in Hl. apply Permutation_length in Hp. rewrite length_app in Hp.
  constructor; try done.
  - unfold len. by rewrite (Forall2_length _ _ _ Hr).
  - rewrite Forall_forall in Hb |- *. intros v Hv. by apply Hb, Hsub, Hm.
  - unfold len in *. lia.
  - len_facts. lia.
  - apply Forall_forall. intros x [i Hi]%list_elem_of_lookup. destruct (Forall2_lookup_r _ _ _ _ _ Hr Hi) as (v & _ & H0 & Hx).
    apply lookup_lt_Some in Hx. unfold len. lia.
Qed.

Lemma dict_of_values vs d : dict_of vs d → row_values d = vs.
Proof.
  intros [_ _ Hr]. unfold row_values. induction Hr as [|v i vs ids [H0 Hx] Hr IH]; [done|].
  rewrite fmap_cons, IH. f_equal. unfold val_at. by rewrite Hx.
Qed.

Section ingest.
Context {K : Simd} {KL : SimdLaws K} {F : Flate} {FL : FlateLaws F} {M : MapRange}.

(** Rows the format can hold in one group. *)
Record fits (c : config) (rows : list row) : Prop := {
  fi_rows : len rows ≤ 2 ^ 22;
  fi_ts : Forall (λ r, is_i64 (row_ts r)) rows;
  fi_fields : Forall (λ r, map_Forall (λ k v, is_bytes k ∧ len k ≤ maxNameBytes ∧ is_bytes v) (row_fields r)) rows;
  fi_size k : len (concat (cell k <$> rows)) < 2 ^ 30 - 260;
  fi_dims : map_Forall (λ name dim, is_bytes name ∧ len name ≤ maxNameBytes ∧ 0 ≤ dim ≤ 32) (vecFlds c);
  fi_vecs : Forall (λ r, map_Forall (λ _ v, Forall is_u32 v) (row_vecs r)) rows }.

(** *** The job *)

Record job_holds (c : config) (rows : list row) (j : flushJob) : Prop := {
  jh_ts : j_ts j = row_ts <$> rows;
  jh_nodup : NoDup (j_colOrder j);
  jh_cols k : k ∈ j_colOrder j ↔ Exists (λ r, is_Some (row_fields r !! k)) rows;
  jh_vals k : k ∈ j_colOrder j → j_vals j !! k = Some (cell k <$> rows);
  jh_flds : j_vecFlds j = vecFlds c;
  jh_vecs name dim : vecFlds c !! name = Some dim →
    default [] (j_vecs j !! name) = if bool_decide (Exists (vec_sent name dim) rows) then concat (vec_cell name dim <$> rows) else [] }.

Lemma pad_vecs_id c rows b l vecs :
  holds c rows b → dims_ok c → (∀ name dim, (name, dim) ∈ l → vecFlds c !! name = Some dim) →
  vecs = b_vecs b → foldl (pad_vec (length (b_ts b))) vecs l = vecs.
Proof.
  intros Hh Hd Hl ->. induction l as [|[name dim] l IH]; [done|]. cbn [foldl].
  assert (pad_vec (length (b_ts b)) (b_vecs b) (name, dim) = b_vecs b) as ->.
  { unfold pad_vec. assert (vecFlds c !! name = Some dim) as Hn by (apply Hl; by left).
    pose proof (ho_vecs _ _ _ Hh name) as Hv. rewrite Hn in Hv. destruct (b_vecs b !! name) as [buf|] eqn:Eb; [|done].
    destruct buf as [|x buf]; [done|]. change (default [] (Some (x :: buf))) with (x :: buf); cbv iota. rewrite backfill_full; [by apply insert_id|].
    case_bool_decide; [|done]. injection Hv as ->. rewrite concat_vec_len by (by apply (Hd name)).
    by rewrite (ho_ts _ _ _ Hh), length_fmap. }
  apply IH. intros n d Hin. apply Hl. by right.
Qed.

Lemma take_job_holds c rows b : dims_ok c → holds c rows b → job_holds c rows (take_job c b).
Proof.
  intros Hd Hh. pose proof (ho_order _ _ _ Hh) as [Hn Hdom].
  assert (∀ k, k ∈ b_colOrder b ↔ Exists (λ r, is_Some (row_fields r !! k)) rows) as Hk.
  { intros k. rewrite Hdom, (ho_cols _ _ _ Hh). case_bool_decide; split; try done; intros [??]; done. }
  constructor; cbn; try done.
  - apply (ho_ts _ _ _ Hh).
  - intros k Hin. pose proof Hin as Hex%Hk. pose proof (ho_cols _ _ _ Hh k) as Hc. rewrite bool_decide_eq_true_2 in Hc by done.
    apply elem_of_list_to_map_1.
    + rewrite <- list_fmap_compose. erewrite list_fmap_ext; [by rewrite list_fmap_id|done].
    + apply list_elem_of_fmap. exists k. by rewrite Hc.
  - intros name dim Hname. rewrite (pad_vecs_id c rows b) with (vecs := b_vecs b); [|done|done| |done].
    + rewrite (ho_vecs _ _ _ Hh), Hname. by case_bool_decide.
    + intros n d Hin. by rewrite range_perm, elem_of_map_to_list in Hin.
Qed.

(** *** The group *)

Lemma dict_cols_spec vals ks (vs : bytes → list bytes) n :
  (∀ k, k ∈ ks → vals !! k = Some (vs k) ∧ len (vs k) = n ∧ Forall is_bytes (vs k) ∧ len (concat (vs k)) < 2 ^ 30 - 260) →
  n ≤ 2 ^ 22 →
  ∃ cols, dict_cols vals ks = Ok cols ∧ Forall (col_ok n) cols ∧
    (∀ c d v, c ∈ cols → c_Dict c = Some d → v ∈ Dict d → v ∈ row_values d) ∧ Forall (λ c, c_Type c = ColDict) cols ∧
    (λ c, (c_Name c, col_values c)) <$> cols = (λ k, (k, Strings (vs k))) <$> ks.
Proof.
  intros Hks Hn. induction ks as [|k ks IH]; cbn [dict_cols].
  { exists []. split_and!; try done. intros c d v Hin. by apply elem_of_nil in Hin. }
  destruct (Hks k) as (Hv & Hlen & Hb & Hs); [by left|]. rewrite Hv. cbn [default from_option id].
  destruct (BuildDict_spec (vs k)) as (d & -> & Hd); [lia|]. rewrite bind_Ok.
  destruct IH as (cols & -> & Hok & Hu & Ht & Hc); [intros k' Hk'; apply Hks; by right|]. rewrite bind_Ok.
  pose proof (dict_of_wf (vs k) (vs k) d Hd (λ _ H, H) Hb ltac:(lia) Hs) as Hw. rewrite Hlen in Hw. pose proof (dict_of_values _ _ Hd) as Hrv.
  eexists. split; [done|]. split_and!.
  - by apply Forall_cons_2; [apply ok_dict|].
  - intros c d' v [-> |Hin]%elem_of_cons; [|by apply Hu]. intros [= <-]. rewrite Hrv. apply Hd.
  - by apply Forall_cons_2.
  - rewrite !fmap_cons, Hc, col_values_dict, Hrv. done.
Qed.

(** The vector columns of the group, by the order the map is ranged. *)
Definition vec_table (rows : list row) (l : list (bytes * Z)) : list (bytes * values) :=
  omap (λ nd, if bool_decide (Exists (vec_sent nd.1 nd.2) rows ∧ concat (vec_cell nd.1 nd.2 <$> rows) ≠ [])
              then Some (nd.1, Vecs nd.2 (concat (vec_cell nd.1 nd.2 <$> rows))) else None) l.


Lemma vec_cell_u32 name dim r :
  map_Forall (λ _ v, Forall is_u32 v) (row_vecs r) → Forall is_u32 (vec_cell name dim r).
Proof.
  intros Hr. unfold vec_cell. case_bool_decide.
  - unfold vec_of. destruct (row_vecs r !! name) as [v|] eqn:E; cbn; [by apply (Hr name)|apply Forall_nil_2].
  - apply Forall_replicate. split; [done|]. cbn. lia.
Qed.

Lemma vec_cols_spec rows vecs l :
  Forall (λ r, map_Forall (λ _ v, Forall is_u32 v) (row_vecs r)) rows →
  (∀ name dim, (name, dim) ∈ l → 0 ≤ dim ≤ 32 ∧
     default [] (vecs !! name) = if bool_decide (Exists (vec_sent name dim) rows) then concat (vec_cell name dim <$> rows) else []) →
  ∃ cols, vec_cols (len rows) vecs l = (cols, 0) ∧ Forall (col_ok (len rows)) cols ∧
    Forall (λ c, c_Dict c = None ∧ c_Name c ∈ l.*1) cols ∧
    (λ c, (c_Name c, col_values c)) <$> cols = vec_table rows l.
Proof.
  intros Hu. induction l as [|[name dim] l IH]; intros Hl; cbn [vec_cols vec_table omap list_omap fst snd]; [by exists []|].
  destruct IH as (cols & -> & Hok & Hd & Ht); [intros n d Hin; apply Hl; by right|].
  assert (Forall (λ c, c_Dict c = None ∧ c_Name c ∈ ((name, dim) :: l).*1) cols) as Hd'.
  { eapply Forall_impl; [exact Hd|]. intros c [? ?]. split; [done|]. rewrite fmap_cons. by right. }
  destruct (Hl name dim) as [Hdim ->]; [by left|]. unfold vec_table in Ht.
  destruct (decide (Exists (vec_sent name dim) rows)) as [Hx|Hx].
  - rewrite (bool_decide_eq_true_2 _ Hx). set (data := concat (vec_cell name dim <$> rows)).
    assert (len data = len rows * dim) as El by (unfold len, data; rewrite concat_vec_len by lia; lia).
    destruct (decide (data = [])) as [E0|E0].
    + exists cols. rewrite (bool_decide_eq_true_2 (len data = 0)) by (by rewrite E0).
      rewrite bool_decide_eq_false_2 by (by intros [_ ?]). done.
    + rewrite (bool_decide_eq_false_2 (len data = 0)) by (destruct data; [done|len_lia]).
      rewrite (bool_decide_eq_false_2 (len data ≠ _)) by (by intros H; apply H).
      rewrite bool_decide_eq_true_2 by done. eexists. split; [done|]. split_and!.
      * apply Forall_cons_2; [|done]. apply ok_vec; [|done]. unfold data. apply Forall_concat, Forall_fmap.
        eapply Forall_impl; [exact Hu|]. intros r. apply vec_cell_u32.
      * apply Forall_cons_2; [|done]. split; [done|]. rewrite fmap_cons. by left.
      * rewrite fmap_cons, Ht, col_values_vec. done.
  - rewrite (bool_decide_eq_false_2 _ Hx). exists cols. rewrite (bool_decide_eq_true_2 (len [] = 0)) by done.
    rewrite bool_decide_eq_false_2 by (by intros [? _]). done.
Qed.

Lemma fits_name c rows k :
  fits c rows → Exists (λ r, is_Some (row_fields r !! k)) rows → is_bytes k ∧ len k ≤ maxNameBytes.
Proof.
  intros [_ _ Hf _ _ _] Hx. apply Exists_exists in Hx as (r & Hin & v & Hv).
  rewrite Forall_forall in Hf. destruct (Hf r Hin k v Hv) as (? & ? & _). done.
Qed.
Lemma fits_cells c rows k : fits c rows → Forall is_bytes (cell k <$> rows).
Proof.
  intros [_ _ Hf _ _ _]. apply Forall_fmap. eapply Forall_impl; [exact Hf|]. intros r Hr. cbn. unfold cell.
  destruct (row_fields r !! k) as [v|] eqn:E; cbn; [by destruct (Hr k v E) as (_ & _ & ?)|apply Forall_nil_2].
Qed.

(** The table of a group of rows: the time column, the fields, the vectors. *)
Definition row_table (rows : list row) (order : list bytes) (flds : list (bytes * Z)) : table :=
  MkTable (len rows)
    ((s_time, Times (row_ts <$> rows)) :: ((λ k, (k, Strings (cell k <$> rows))) <$> order) ++ vec_table rows flds).

Lemma worker_group_spec c rows j :
  fits c rows → job_holds c rows j → 1 + len (j_colOrder j) + Z.of_nat (size (vecFlds c)) ≤ maxGroupColumns →
  ∃ g, worker_group j = Ok (g, 0) ∧ group_wf g ∧ dicts_used g ∧ g_NoPostings g = false ∧
    table_of g = row_table rows (j_colOrder j) (range_map (vecFlds c)).
Proof.
  intros Hf [Jts Jnd Jc Jv Jf Jvec] Hcols. unfold worker_group.
  destruct (dict_cols_spec (j_vals j) (j_colOrder j) (λ k, cell k <$> rows) (len rows)) as (ds & -> & Hok & Hu & Htd & Hd).
  { intros k Hk. split_and!; [by apply Jv|by rewrite len_fmap|by apply (fits_cells c)|apply (fi_size c rows Hf)]. }
  { apply (fi_rows c rows Hf). }
  rewrite bind_Ok, Jf. assert (len (j_ts j) = len rows) as -> by (by rewrite Jts, len_fmap).
  destruct (vec_cols_spec rows (j_vecs j) (range_map (vecFlds c))) as (vs & -> & Hvok & Hvd & Hv); [apply (fi_vecs c rows Hf)| |].
  { intros name dim Hin. rewrite range_perm, elem_of_map_to_list in Hin. split; [|by apply Jvec].
    by destruct (fi_dims c rows Hf name dim Hin) as (_ & _ & ?). }
  eexists. split; [done|].
  assert (Forall (λ c, is_bytes (c_Name c) ∧ len (c_Name c) ≤ maxNameBytes) ds) as Hn1.
  { apply Forall_forall. intros x Hx. apply (fits_name c rows _ Hf), Jc.
    assert ((c_Name x, col_values x) ∈ (λ k, (k, Strings (cell k <$> rows))) <$> j_colOrder j) as Hin.
    { rewrite <- Hd. apply list_elem_of_fmap. by exists x. }
    apply list_elem_of_fmap in Hin as (k & [= -> _] & ?). done. }
  assert (Forall (λ c, is_bytes (c_Name c) ∧ len (c_Name c) ≤ maxNameBytes) vs) as Hn2.
  { eapply Forall_impl; [exact Hvd|]. intros x [_ Hx]. apply list_elem_of_fmap in Hx as ([n d] & -> & Hin).
    rewrite range_perm, elem_of_map_to_list in Hin. by destruct (fi_dims c rows Hf n d Hin) as (? & ? & _). }
  pose proof (f_equal length Hd) as L1. pose proof (f_equal length Hv) as L2. rewrite !length_fmap in L1. rewrite length_fmap in L2.
  assert (length (vec_table rows (range_map (vecFlds c))) ≤ length (range_map (vecFlds c)))%nat as L3 by apply omap_length_le.
  assert (length (range_map (vecFlds c)) = size (vecFlds c)) as L4 by (by rewrite range_perm, length_map_to_list).
  split; [constructor; cbn [g_Rows g_Columns]|split_and!].
  - pose proof (fi_rows c rows Hf). len_facts. lia.
  - rewrite len_cons, len_app. unfold len in *. lia.
  - apply Forall_cons_2; [|by apply Forall_app_2]. cbn [c_Name]. split; [by repeat constructor|]. by vm_compute.
  - apply Forall_cons_2; [|by apply Forall_app_2]. apply ok_ts; [by rewrite Jts, len_fmap|]. rewrite Jts. apply Forall_fmap, (fi_ts c rows Hf).
  - intros _. apply Exists_cons. by left.
  - intros x d v Hin. apply elem_of_cons in Hin as [-> |[Hin|Hin]%elem_of_app]; [done|by apply Hu|].
    rewrite Forall_forall in Hvd. by destruct (Hvd x Hin) as [-> _].
  - done.
  - unfold table_of, row_table. cbn [g_Rows g_Columns]. rewrite fmap_cons, fmap_app, Hd, Hv, col_values_ts, Jts. done.
Qed.

Lemma find_strings (vs : bytes → list bytes) order more k :
  k ∈ order → find_values (((λ k, (k, Strings (vs k))) <$> order) ++ more) k = Some (Strings (vs k)).
Proof.
  induction order as [|x order IH]; [by intros ?%elem_of_nil|]. intros [<- |Hin]%elem_of_cons; rewrite fmap_cons; cbn [app find_values]; unfold str_eqb.
  - by rewrite bool_decide_eq_true_2.
  - case_bool_decide as E; [by subst|]. by apply IH.
Qed.

(** C2: a log record goes in and comes out unchanged, through every layer: the
    rows a writer has buffered are handed over as a job, the flush worker builds
    their group without refusing a column, [Marshal] writes it, [ReadGroup]
    accepts the blob, and the reader answers, for every field that occurs in the
    rows, from the rows: the value of a row is the record's field, the empty
    string where the record had none; likewise the timestamps. *)
Theorem ingest_answers c rows b :
  holds c rows b → fits c rows → rows ≠ [] →
  1 + len (b_colOrder b) + Z.of_nat (size (vecFlds c)) ≤ maxGroupColumns →
  ∃ g blob, worker_group (take_job c b) = Ok (g, 0) ∧ Marshal g = Ok blob ∧
    (len blob < 2 ^ 32 → ∃ r, ReadGroup blob = Good r ∧ r_Rows r = len rows ∧
       time_answers r s_time (row_ts <$> rows) ∧
       ∀ k, k ≠ s_time → Exists (λ r, is_Some (row_fields r !! k)) rows → string_answers false r k (cell k <$> rows)).
Proof.
  intros Hh Hf Hne Hcols.
  assert (dims_ok c) as Hd by (intros n d Hn; destruct (fi_dims c rows Hf n d Hn) as (_ & _ & ?); lia).
  pose proof (take_job_holds c rows b Hd Hh) as Hj.
  destruct (worker_group_spec c rows _ Hf Hj Hcols) as (g & Eg & Hg & Hu & Hnp & Ht). exists g.
  destruct (Marshal_spec g Hg) as (blob & Eb & Hb). exists blob. split_and!; [done..|]. intros Hl.
  destruct (Hb Hl) as (r & Er & _ & Hr). exists r. pose proof (reader_answers g r Hg Hu Hr) as [A1 _ _ _ _ A3 A4 _].
  rewrite Ht, Hnp in *. split_and!; [done|done| |].
  - apply A4; [done|]. destruct rows; [done|]. by rewrite fmap_cons.
  - intros k Hk Hx. apply A3. cbn [t_cols row_table find_values]. unfold str_eqb at 1.
    rewrite bool_decide_eq_false_2 by congruence. apply (find_strings (λ k, cell k <$> rows)). by apply (jh_cols _ _ _ Hj).
Qed.
End ingest.
