(* ===== verification/Recompact.v ===== *)
(** * Rewriting groups: recompaction and compaction

    [internal/storage/recompact.go] decodes a group and re-encodes it under
    another codec; [internal/storage/compact_groups.go] concatenates a batch of
    groups into one. Both must hand back the rows they took: [rebuild_table] and
    [merge_table] say so of the tables. *)

From S2P Require Import Prelude Digits GoLib Kernels Indices Timestamps Compress DictSection DictLayout Postings Bloom Group GroupSafe GroupLayout Reader ReaderSafe ReaderOk Table Writer Ingest.
From stdpp Require Import list sorting gmap.
Local Open Scope Z_scope.

(** ** Definitions *)

Section definitions.
Context {K : Simd} {F : Flate}.

(** *** Recompaction *)

(** Is any of the blocks [k, k+n) stored with LZ4? *)
Fixpoint lz4_block (n : nat) (k : Z) (d : dictSec) : outcome bool :=
  match n with
  | O => Ok false
  | S n' =>
      rawField ← get32 (idx d) (k * 12 + 8);
      if bool_decide (Z.land rawField (Z.lor dictCodecFlate dictCodecHex) = 0) then Ok true
      else lz4_block n' (k + 1) d
  end.
Fixpoint needs_loop (r : Reader) (ms : list colMeta) : outcome bool :=
  match ms with
  | [] => Ok false
  | m :: ms' =>
      if bool_decide (Type_ m ≠ ColDict ∨ DictLen m = 0) then needs_loop r ms' else
      sec ← reader_dictSec r m;
      d ← parseDictSec sec;
      found ← lz4_block (Z.to_nat (numBlocks d)) 0 d;
      if (found : bool) then Ok true else needs_loop r ms'
  end.
Definition needsRecompact (r : Reader) : outcome bool := needs_loop r (r_cols r).
Definition hasPostings (r : Reader) : bool :=
  existsb (λ m, bool_decide (Type_ m = ColDict ∧ 0 < PostLen m)) (r_cols r).

(** The value of each of [rows] rows, the empty string where the index or the
    dictionary is short. *)
Definition row_strings (rows : Z) (ids : list Z) (dict : list bytes) : list bytes :=
  (λ row, match ids !! row with
          | Some x => if bool_decide (x < len dict) then val_at dict x else []
          | None => []
          end) <$> seq 0 (Z.to_nat rows).

(** [rebuild]'s column loop; [None] is its [nil]. *)
Fixpoint rebuild_cols (r : Reader) (ms : list colMeta) (s : caches) : outcome (option (list Column) * caches) :=
  match ms with
  | [] => Ok (Some [], s)
  | m :: ms' =>
      if bool_decide (Type_ m = ColTimestamp) then
        ts ← TimestampsRange r (Name m) 0 (r_Rows r);
        if bool_decide (len ts ≠ r_Rows r) then Ok (None, s) else
        x ← rebuild_cols r ms' s;
        let '(cols, s) := (x : option (list Column) * caches) in
        Ok (cons (MkColumn (Name m) ColTimestamp None ts [] 0) <$> cols, s)
      else if bool_decide (Type_ m = ColDict) then
        x ← DictIndices r s (Name m);
        let '(ids, dict, s) := x in
        if bool_decide (ids = []) then Ok (None, s) else
        d ← BuildDict (row_strings (r_Rows r) ids dict);
        x ← rebuild_cols r ms' s;
        let '(cols, s) := (x : option (list Column) * caches) in
        Ok (cons (MkColumn (Name m) ColDict (Some d) [] [] 0) <$> cols, s)
      else Ok (None, s)
  end.
Definition rebuild (r : Reader) (s : caches) (compact dropPostings : bool) : outcome (option Group * caches) :=
  x ← rebuild_cols r (r_cols r) s;
  let '(cols, s) := (x : option (list Column) * caches) in
  Ok ((λ cs, MkGroup (r_Rows r) cs compact dropPostings) <$> cols, s).

(** *** Compaction *)

(** A [groupEntry]: its reader, when the group is mapped, and the reader's
    caches. *)
Record groupEntry := Entry { ge_reader : option Reader; ge_caches : caches }.

Definition hasColumn (r : Reader) (name : bytes) : bool := existsb (λ m, str_eqb (Name m) name) (r_cols r).
Definition hasTimestampColumn (r : Reader) : bool := existsb (λ m, bool_decide (Type_ m = ColTimestamp)) (r_cols r).
Definition mergeableColumns (r : Reader) : bool :=
  forallb (λ m, bool_decide (Type_ m = ColTimestamp ∨ Type_ m = ColDict)) (r_cols r).

Definition dictIndicesForMerge (r : Reader) (s : caches) (name : bytes) : outcome (list Z * list bytes) :=
  let ci := colIndex r name in
  if bool_decide (ci < 0) then Ok ([], []) else
  m ← index (r_cols r) ci;
  if bool_decide (Type_ m ≠ ColDict) then Ok ([], []) else
  ids ← match cachedIdx s ci with Some v => Ok v | None => decode_idx r m end;
  sec ← reader_dictSec r m;
  vals ← dictSectionAll true true sec (DictLen m);
  Ok (ids, vals).

(** The types of the names seen so far, in the order they were first seen:
    [cols] and [names] of [mergeGroups]. *)
Fixpoint find_type (cols : list (bytes * Z)) (name : bytes) : option Z :=
  match cols with
  | [] => None
  | (n, t) :: cols' => if str_eqb n name then Some t else find_type cols' name
  end.
Fixpoint union_metas (ms : list colMeta) (cols : list (bytes * Z)) : option (list (bytes * Z)) :=
  match ms with
  | [] => Some cols
  | m :: ms' =>
      match find_type cols (Name m) with
      | Some _ => union_metas ms' cols
      | None =>
          if bool_decide (Type_ m ≠ ColTimestamp ∧ Type_ m ≠ ColDict) then None
          else union_metas ms' (cols ++ [(Name m, Type_ m)])
      end
  end.
Fixpoint union_cols (rs : list Reader) (cols : list (bytes * Z)) : option (list (bytes * Z)) :=
  match rs with
  | [] => Some cols
  | r :: rs' => match union_metas (r_cols r) cols with Some cols => union_cols rs' cols | None => None end
  end.
(** No name carries two types. *)
Definition types_agree (rs : list Reader) (cols : list (bytes * Z)) : bool :=
  forallb (λ r, forallb (λ m, bool_decide (default 0 (find_type cols (Name m)) = Type_ m)) (r_cols r)) rs.
(** [tsName], or [None] where a second timestamp column is met. *)
Fixpoint ts_name (cols : list (bytes * Z)) (tsName : bytes) : option bytes :=
  match cols with
  | [] => Some tsName
  | (n, t) :: cols' =>
      if bool_decide (t ≠ ColTimestamp) then ts_name cols' tsName
      else if bool_decide (tsName ≠ []) then None
      else ts_name cols' n
  end.

(** One output column of [mergeGroups]. *)
Fixpoint merge_ts (name : bytes) (es : list (Reader * caches)) : outcome (option (list Z)) :=
  match es with
  | [] => Ok (Some [])
  | (r, _) :: es' =>
      got ← (if hasColumn r name then TimestampsRange r name 0 (r_Rows r) else Ok (replicate (Z.to_nat (r_Rows r)) 0));
      if bool_decide (len got ≠ r_Rows r) then Ok None else
      rest ← merge_ts name es';
      Ok (app got <$> (rest : option (list Z)))
  end.
Fixpoint merge_strings (name : bytes) (es : list (Reader * caches)) : outcome (option (list bytes)) :=
  match es with
  | [] => Ok (Some [])
  | (r, s) :: es' =>
      if hasColumn r name then
        x ← dictIndicesForMerge r s name;
        let '(ids, dict) := x in
        if bool_decide (ids = []) then Ok None else
        rest ← merge_strings name es';
        Ok (app (row_strings (r_Rows r) ids dict) <$> (rest : option _))
      else
        rest ← merge_strings name es';
        Ok (app (replicate (Z.to_nat (r_Rows r)) []) <$> (rest : option _))
  end.
Fixpoint merge_cols (es : list (Reader * caches)) (cols : list (bytes * Z)) : outcome (option (list Column)) :=
  match cols with
  | [] => Ok (Some [])
  | (name, t) :: cols' =>
      if bool_decide (t = ColTimestamp) then
        x ← merge_ts name es;
        match x with
        | None => Ok None
        | Some ts => rest ← merge_cols es cols'; Ok (cons (MkColumn name ColTimestamp None ts [] 0) <$> (rest : option _))
        end
      else
        x ← merge_strings name es;
        match x with
        | None => Ok None
        | Some vals =>
            d ← BuildDict vals;
            rest ← merge_cols es cols';
            Ok (cons (MkColumn name ColDict (Some d) [] [] 0) <$> (rest : option _))
        end
  end.

(** [mergeGroups] on mapped groups. [names] is built in first-seen order, which
    is the order its stable sort then asks for. *)
Definition merge_readers (es : list (Reader * caches)) : outcome (option Group) :=
  let total := foldr (λ e n, r_Rows e.1 + n) 0 es in
  if bool_decide (total = 0) then Ok None else
  match union_cols es.*1 [] with
  | None => Ok None
  | Some cols =>
      if negb (types_agree es.*1 cols) then Ok None else
      match ts_name cols [] with
      | None => Ok None
      | Some tsName =>
          if negb (forallb (λ r, hasColumn r tsName) es.*1) then Ok None else
          x ← merge_cols es cols;
          Ok ((λ cs, MkGroup total cs false false) <$> (x : option _))
      end
  end.
Definition mapped (e : groupEntry) : option (Reader * caches) := (λ r, (r, ge_caches e)) <$> ge_reader e.
Definition mergeGroups (batch : list groupEntry) : outcome (option Group * Z) :=
  match mapM mapped batch with
  | None => Ok (None, 0)
  | Some es => g ← merge_readers es; Ok (g, foldr (λ e n, len (r_blob e.1) + n) 0 es)
  end.
End definitions.

(** ** Row values from a decoded column *)

Lemma row_strings_full ids dict :
  Forall (λ x, 0 ≤ x < len dict) ids → row_strings (len ids) ids dict = val_at dict <$> ids.
Proof.
  intros Hi. unfold row_strings. replace (Z.to_nat (len ids)) with (length ids) by (unfold len; lia). apply list_eq. intros i. rewrite !list_lookup_fmap.
  destruct (decide (i < length ids)%nat) as [Hlt|Hge].
  - rewrite lookup_seq_lt by lia. cbn. destruct (lookup_lt_is_Some_2 _ _ Hlt) as [x Hx]. rewrite Hx. cbn.
    rewrite Forall_lookup in Hi. rewrite bool_decide_eq_true_2 by (apply (Hi i x Hx)). done.
  - rewrite lookup_seq_ge by lia. by rewrite lookup_ge_None_2 by lia.
Qed.

Section rewriting.
Context {K : Simd} {KL : SimdLaws K} {F : Flate} {FL : FlateLaws F}.

(** A readable group with rows, without vectors, whose names are distinct. *)
Record source (g : Group) (r : Reader) : Prop := {
  so_wf : group_wf g;
  so_reader : reader_of g r;
  so_names : NoDup (c_Name <$> g_Columns g);
  so_rows : 0 < g_Rows g;
  so_types : Forall (λ c, c_Type c ≠ ColVector) (g_Columns g) }.

Lemma find_col_self cs c : NoDup (c_Name <$> cs) → c ∈ cs → find_col cs (c_Name c) = Some c.
Proof.
  induction cs as [|x cs IH]; [by intros _ ?%elem_of_nil|]. rewrite fmap_cons. intros [Hn Hnd]%NoDup_cons Hin.
  cbn [find_col]. unfold str_eqb. apply elem_of_cons in Hin as [-> |Hin]; [by rewrite bool_decide_eq_true_2|].
  rewrite bool_decide_eq_false_2; [by apply IH|]. intros E. apply Hn. rewrite E. apply list_elem_of_fmap. by exists c.
Qed.

(** A column of a source is a dictionary the reader decodes, or timestamps it
    decodes. *)
Inductive read_col (g : Group) (r : Reader) (c : Column) : Prop :=
| read_dict d : c_Type c = ColDict → col_values c = Strings (row_values d) → dict_col_wf (g_Rows g) d →
    dict_view g r (c_Name c) d → read_col g r c
| read_ts ts : c_Type c = ColTimestamp → col_values c = Times ts → len ts = g_Rows g → Forall is_i64 ts →
    TimestampsRange r (c_Name c) 0 (r_Rows r) = Ok ts → read_col g r c.

Lemma source_col g r c : source g r → c ∈ g_Columns g → read_col g r c.
Proof.
  intros [Hg Hr Hn Hrows Hty] Hin. pose proof (find_col_self _ _ Hn Hin) as Hf.
  pose proof (gw_cols g Hg) as Hc. rewrite Forall_forall in Hc, Hty. specialize (Hc _ Hin). specialize (Hty _ Hin).
  destruct Hc as [nm d ts vec dim Hd|nm d ts vec dim Hl Hi|nm d ts vec dim Hl Hi]; [| |done].
  - apply (read_dict g r _ d); [done|by rewrite col_values_dict|done|]. by eapply dict_view_of.
  - apply (read_ts g r _ ts); [done|by rewrite col_values_ts|done|done|].
    assert (ts ≠ []) as Hne by (intros ->; by rewrite <- Hl in Hrows).
    pose proof (time_answers_view g r _ _ _ _ _ _ Hg Hr Hf Hne) as Ha.
    pose proof (ta_range _ _ _ Ha [] 0 (length ts)) as Hra. rewrite (ro_rows g r Hr), <- Hl.
    etrans; [apply Hra; destruct ts; [done|simpl; lia]|]. by rewrite drop_0, Nat.sub_0_r, firstn_all.
Qed.

(** ** Recompaction keeps every row *)

Lemma rebuild_cols_spec g r cs : source g r → ∀ ms s,
  Forall2 (stored g (r_blob r)) cs ms → (∀ c, c ∈ cs → c ∈ g_Columns g) → caches_ok r s →
  ∃ cols s', rebuild_cols r ms s = Ok (Some cols, s') ∧ caches_ok r s' ∧ Forall (col_ok (g_Rows g)) cols ∧
    (∀ c d v, c ∈ cols → c_Dict c = Some d → v ∈ Dict d → v ∈ row_values d) ∧
    c_Type <$> cols = c_Type <$> cs ∧
    (λ c, (c_Name c, col_values c)) <$> cols = (λ c, (c_Name c, col_values c)) <$> cs.
Proof.
  intros Hsrc. pose proof (ro_rows g r (so_reader _ _ Hsrc)) as Hrow.
  induction cs as [|c cs IH]; intros ms s Hst Hin Hs; inversion Hst as [|c' m cs' ms' Hm Hst']; subst; cbn [rebuild_cols].
  { exists [], s. split_and!; try done. intros c d v Hc. by apply elem_of_nil in Hc. }
  destruct (stored_name _ _ _ _ Hm) as [-> Ety]. rewrite Ety.
  assert (∀ c, c ∈ cs → c ∈ g_Columns g) as Hin' by (intros x Hx; apply Hin; by right).
  destruct (source_col g r c Hsrc) as [d Ty Ev Hd Hv|ts Ty Ev Hl Hi Ets]; [apply Hin; by left| |]; rewrite Ty.
  - rewrite bool_decide_eq_false_2, bool_decide_eq_true_2 by done.
    destruct (DictIndices_view g r _ d s Hv Hs) as (s1 & -> & Hs1). rewrite bind_Ok.
    pose proof (dw_rows _ _ Hd) as Hli. pose proof (so_rows _ _ Hsrc) as Hpos.
    rewrite bool_decide_eq_false_2 by (intros En; rewrite En in Hli; by rewrite <- Hli in Hpos).
    assert (row_strings (r_Rows r) (Indices d) (Dict d) = row_values d) as ->.
    { rewrite Hrow, <- Hli. apply row_strings_full, (dw_idx _ _ Hd). }
    assert (len (row_values d) = g_Rows g) as Hlv by (unfold row_values; by rewrite len_fmap).
    pose proof (gw_rows g (so_wf _ _ Hsrc)) as Hmax.
    destruct (BuildDict_spec (row_values d)) as (d' & -> & Hd'); [lia|]. rewrite bind_Ok.
    destruct (IH ms' s1 Hst' Hin' Hs1) as (cols & s2 & -> & Hs2 & Hok & Hu & Ht & Hvs). rewrite bind_Ok.
    do 2 eexists. split; [done|]. pose proof (dict_of_values _ _ Hd') as Hrv. split_and!; [done| | | |].
    + apply Forall_cons_2; [|done]. apply ok_dict. rewrite <- Hlv.
      apply (dict_of_wf _ (Dict d)); [done|by intros v; eapply row_values_member|apply Hd..].
    + intros x e v [-> |Hx]%elem_of_cons; [|by apply Hu]. intros [= <-]. rewrite Hrv. apply Hd'.
    + rewrite !fmap_cons, Ht, Ty. done.
    + rewrite !fmap_cons, Hvs, Ev, col_values_dict, Hrv. done.
  - rewrite bool_decide_eq_true_2, Ets, bind_Ok by done. rewrite bool_decide_eq_false_2 by (rewrite Hrow, Hl; by intros H).
    destruct (IH ms' s Hst' Hin' Hs) as (cols & s2 & -> & Hs2 & Hok & Hu & Ht & Hvs). rewrite bind_Ok.
    do 2 eexists. split; [done|]. split_and!; [done| | | |].
    + apply Forall_cons_2; [|done]. by apply ok_ts.
    + intros x e v [-> |Hx]%elem_of_cons; [done|]. by apply Hu.
    + rewrite !fmap_cons, Ht, Ty. done.
    + rewrite !fmap_cons, Hvs, Ev, col_values_ts. done.
Qed.

Lemma rebuild_spec g r s compact drop :
  source g r → caches_ok r s →
  ∃ g' s', rebuild r s compact drop = Ok (Some g', s') ∧ caches_ok r s' ∧ table_of g' = table_of g ∧
    group_wf g' ∧ dicts_used g' ∧ g_Compact g' = compact ∧ g_NoPostings g' = drop.
Proof.
  intros Hsrc Hs. pose proof Hsrc as [Hg Hr Hn Hrows Hty]. unfold rebuild.
  destruct (rebuild_cols_spec g r (g_Columns g) Hsrc (r_cols r) s) as (cols & s' & -> & Hs' & Hok & Hu & Ht & Hvs);
    [apply (ro_cols g r Hr)|done|done|]. rewrite bind_Ok, (ro_rows g r Hr). do 2 eexists. split; [done|].
  assert (c_Name <$> cols = c_Name <$> g_Columns g) as En.
  { pose proof (f_equal (fmap fst) Hvs) as E. by rewrite <- !list_fmap_compose in E. }
  split_and!; try done.
  - unfold table_of. cbn [g_Rows g_Columns]. by rewrite Hvs.
  - constructor; cbn [g_Rows g_Columns]; [apply (gw_rows g Hg)| | |done|].
    + pose proof (f_equal length En) as El. rewrite !length_fmap in El. unfold len. rewrite El. apply (gw_ncol g Hg).
    + pose proof (gw_names g Hg) as Hnm. apply (Forall_fmap c_Name (λ n, is_bytes n ∧ len n ≤ maxNameBytes)) in Hnm.
      rewrite <- En in Hnm. by apply Forall_fmap in Hnm.
    + intros _. destruct cols as [|x cols]; [|apply Exists_cons; left].
      * apply (gw_backed g Hg) in Hrows. symmetry in En. apply fmap_nil_inv in En. rewrite En in Hrows. by apply Exists_nil in Hrows.
      * destruct (g_Columns g) as [|y ys]; [done|]. rewrite !fmap_cons in Ht. injection Ht as -> _. by apply Forall_cons_1 in Hty as [? _].
Qed.

(** C12: recompaction is lossless: re-encoding a group, with or without its
    postings and whatever the reader's caches hold, gives a group of the same
    table, and the reader of the new blob answers that table. *)
Theorem recompact_lossless g r s compact drop :
  source g r → caches_ok r s →
  ∃ g' s' b, rebuild r s compact drop = Ok (Some g', s') ∧ table_of g' = table_of g ∧ Marshal g' = Ok b ∧
    (len b < 2 ^ 32 → ∃ r', ReadGroup b = Good r' ∧ answers drop r' (table_of g)).
Proof.
  intros Hsrc Hs. destruct (rebuild_spec g r s compact drop Hsrc Hs) as (g' & s' & E & _ & Ht & Hg & Hu & _ & Hnp).
  destruct (Marshal_spec g' Hg) as (b & Eb & Hb). exists g', s', b. split_and!; [done..|]. intros Hl.
  destruct (Hb Hl) as (r' & Er & _ & Hr). exists r'. split; [done|]. rewrite <- Ht, <- Hnp. by apply reader_answers.
Qed.

(** ** Compaction concatenates the rows *)

Lemma dictIndicesForMerge_view g r name d s :
  dict_view g r name d → caches_ok r s → dictIndicesForMerge r s name = Ok (Indices d, Dict d).
Proof.
  intros Hv Hs. pose proof Hv as [_ _ (m & sec & rest & Et & Edl & _ & _ & Es & Hl & _)].
  pose proof (decode_idx_view g r name d m Hv Et) as Hd.
  unfold typed_col, col in Et. destruct (col_loop (r_cols r) name) as [m'|] eqn:Ec; [|done].
  case_bool_decide as Hty; [|done]. injection Et as ->.
  destruct (col_colIndex _ _ _ 0 Ec) as (j & Hj & Ej). unfold dictIndicesForMerge, colIndex. cbv zeta. rewrite Ej, Z.add_0_l.
  rewrite bool_decide_eq_false_2 by lia. rewrite (index_Ok _ _ m), bind_Ok by (try lia; by rewrite Nat2Z.id).
  rewrite bool_decide_eq_false_2 by (by intros []).
  assert ((match cachedIdx s (Z.of_nat j) with Some v => Ok v | None => decode_idx r m end) = Ok (Indices d)) as ->.
  { unfold cachedIdx. case_bool_decide; [done|]. rewrite Nat2Z.id. destruct (ca_idx s !! j) as [[ix|]|] eqn:Ei; cbn; [|done..].
    pose proof (ck_idx r s Hs j m ix Hj Ei) as E. rewrite Hd in E. by injection E as ->. }
  rewrite !bind_Ok, Es, bind_Ok, Edl. by rewrite (dictSectionAll_layout true true sec (Dict d) Hl), bind_Ok.
Qed.

(** The rows of a column of a table; an absent column is all zero values. *)
Definition strings_in (name : bytes) (t : table) : list bytes :=
  match find_values (t_cols t) name with Some (Strings vs) => vs | _ => replicate (Z.to_nat (t_rows t)) [] end.
Definition times_in (name : bytes) (t : table) : list Z :=
  match find_values (t_cols t) name with Some (Times ts) => ts | _ => replicate (Z.to_nat (t_rows t)) 0 end.

(** A batch that can be merged: [ty] gives every name one type and [tsn] is the
    one timestamp column, in every group. *)
Record mergeable (ty : bytes → Z) (tsn : bytes) (gs : list Group) : Prop := {
  me_ty g c : g ∈ gs → c ∈ g_Columns g → c_Type c = ty (c_Name c);
  me_ts g c : g ∈ gs → c ∈ g_Columns g → c_Type c = ColTimestamp → c_Name c = tsn;
  me_has g : g ∈ gs → ∃ c, c ∈ g_Columns g ∧ c_Name c = tsn ∧ c_Type c = ColTimestamp;
  me_named : tsn ≠ [] }.

Inductive entry_of : Group → Reader * caches → Prop :=
| entry_of_intro g r s : source g r → caches_ok r s → entry_of g (r, s).

Lemma meta_columns g r :
  reader_of g r → (λ m, (Name m, Type_ m)) <$> r_cols r = (λ c, (c_Name c, c_Type c)) <$> g_Columns g.
Proof.
  intros Hr. pose proof (ro_cols g r Hr) as Hc. induction Hc as [|c m cs ms Hs _ IH]; [done|].
  rewrite !fmap_cons, IH. by destruct (stored_name _ _ _ _ Hs) as [-> ->].
Qed.

Lemma hasColumn_spec g r name :
  reader_of g r → hasColumn r name = true ↔ ∃ c, c ∈ g_Columns g ∧ c_Name c = name.
Proof.
  intros Hr. pose proof (meta_columns g r Hr) as Hm. unfold hasColumn. rewrite existsb_exists. unfold str_eqb. split.
  - intros (m & Hin & E%bool_decide_eq_true). apply list_elem_of_In in Hin.
    assert ((Name m, Type_ m) ∈ (λ c, (c_Name c, c_Type c)) <$> g_Columns g) as Hx.
    { rewrite <- Hm. apply list_elem_of_fmap. by exists m. }
    apply list_elem_of_fmap in Hx as (c & [= Hn _] & Hc). exists c. split; [done|congruence].
  - intros (c & Hc & <-). assert ((c_Name c, c_Type c) ∈ (λ m, (Name m, Type_ m)) <$> r_cols r) as Hx.
    { rewrite Hm. apply list_elem_of_fmap. by exists c. }
    apply list_elem_of_fmap in Hx as (m & [= Hn _] & Hin). exists m. split; [by apply list_elem_of_In|].
    by apply bool_decide_eq_true.
Qed.

Lemma find_values_self g c :
  NoDup (c_Name <$> g_Columns g) → c ∈ g_Columns g → find_values (t_cols (table_of g)) (c_Name c) = Some (col_values c).
Proof.
  unfold table_of. cbn [t_cols]. generalize (g_Columns g). intros cs.
  induction cs as [|x cs IH]; [by intros _ ?%elem_of_nil|]. rewrite !fmap_cons. intros [Hn Hnd]%NoDup_cons Hin.
  cbn [find_values]. unfold str_eqb. apply elem_of_cons in Hin as [-> |Hin]; [by rewrite bool_decide_eq_true_2|].
  rewrite bool_decide_eq_false_2; [by apply IH|]. intros E. apply Hn. rewrite E. apply list_elem_of_fmap. by exists c.
Qed.
Lemma find_values_none g name :
  (¬ ∃ c, c ∈ g_Columns g ∧ c_Name c = name) → find_values (t_cols (table_of g)) name = None.
Proof.
  intros Hn. destruct (find_values _ name) as [v|] eqn:E; [|done]. exfalso.
  destruct (find_values_col _ _ _ E) as (c & Ec & _). apply Hn. exists c. clear E Hn. revert Ec.
  induction (g_Columns g) as [|x cs IH]; [done|]. cbn [find_col]. unfold str_eqb. case_bool_decide as E.
  - intros [= <-]. split; [by left|done].
  - intros [? ?]%IH. split; [by right|done].
Qed.

Lemma merge_strings_spec ty tsn name gs es :
  mergeable ty tsn gs → Forall2 entry_of gs es → name ≠ tsn →
  merge_strings name es = Ok (Some (concat (strings_in name ∘ table_of <$> gs))).
Proof.
  intros Hm He Hne. assert (∀ g c, g ∈ gs → c ∈ g_Columns g → c_Name c = name → c_Type c ≠ ColTimestamp) as Hty.
  { intros g c Hg Hc En Et. apply Hne. rewrite <- En. by apply (me_ts _ _ _ Hm g). }
  clear Hm. induction He as [|g e gs es Hge _ IH]; [done|]. destruct Hge as [g r s Hsrc Hs].
  rewrite fmap_cons. cbn [merge_strings concat compose]. rewrite IH by (intros g1 c1 Hg1; apply (Hty g1 c1); by right).
  pose proof (so_reader _ _ Hsrc) as Hr. destruct (hasColumn r name) eqn:Eh.
  - apply (hasColumn_spec g r name Hr) in Eh as (c & Hc & En).
    destruct (source_col g r c Hsrc Hc) as [d Ty Ev Hd Hv|ts Ty _ _ _ _]; [|by apply (Hty g c ltac:(left) Hc En) in Ty].
    rewrite En in Hv. rewrite (dictIndicesForMerge_view g r name d s Hv Hs), !bind_Ok.
    pose proof (dw_rows _ _ Hd) as Hli. pose proof (so_rows _ _ Hsrc) as Hpos.
    rewrite bool_decide_eq_false_2 by (intros E0; rewrite E0 in Hli; by rewrite <- Hli in Hpos).
    assert (row_strings (r_Rows r) (Indices d) (Dict d) = row_values d) as ->.
    { rewrite (ro_rows g r Hr), <- Hli. apply row_strings_full, (dw_idx _ _ Hd). }
    cbn. do 3 f_equal. unfold strings_in. rewrite <- En, (find_values_self g c (so_names _ _ Hsrc) Hc), Ev. done.
  - assert (¬ ∃ c, c ∈ g_Columns g ∧ c_Name c = name) as Hn.
    { intros Hx. apply (hasColumn_spec g r name Hr) in Hx. congruence. }
    cbn. do 3 f_equal. unfold strings_in. rewrite (find_values_none g name Hn). by rewrite (ro_rows g r Hr).
Qed.

Lemma merge_ts_spec ty tsn gs es :
  mergeable ty tsn gs → Forall2 entry_of gs es →
  merge_ts tsn es = Ok (Some (concat (times_in tsn ∘ table_of <$> gs))).
Proof.
  intros Hm He. pose proof (me_has _ _ _ Hm) as Hhas. clear Hm.
  induction He as [|g e gs es Hge _ IH]; [done|]. destruct Hge as [g r s Hsrc Hs].
  rewrite fmap_cons. cbn [merge_ts concat compose]. rewrite IH by (intros g1 Hg1; apply (Hhas g1); by right).
  pose proof (so_reader _ _ Hsrc) as Hr. destruct (Hhas g ltac:(left)) as (c & Hc & En & Et).
  rewrite (proj2 (hasColumn_spec g r tsn Hr)) by (by exists c).
  destruct (source_col g r c Hsrc Hc) as [d Ty _ _ _|ts Ty Ev Hl Hi Ets]; [by rewrite Et in Ty|].
  rewrite <- En, Ets, !bind_Ok. rewrite bool_decide_eq_false_2 by (rewrite (ro_rows g r Hr), Hl; by intros H).
  cbn. do 3 f_equal. unfold times_in. rewrite (find_values_self g c (so_names _ _ Hsrc) Hc), Ev. done.
Qed.

(** *** The column set *)

(** Every name of [cols] once, with its type. *)
Record typed (ty : bytes → Z) (cols : list (bytes * Z)) : Prop := {
  ty_nodup : NoDup cols.*1;
  ty_types : Forall (λ nt, nt.2 = ty nt.1) cols }.

Lemma find_type_spec ty cols name :
  Forall (λ nt, nt.2 = ty nt.1) cols → find_type cols name = if bool_decide (name ∈ cols.*1) then Some (ty name) else None.
Proof.
  induction 1 as [|[n t] cols E _ IH]; cbn [find_type]; [by rewrite bool_decide_eq_false_2 by (by intros ?%elem_of_nil)|].
  cbn in E. subst t. rewrite fmap_cons. cbn [fst]. unfold str_eqb. destruct (decide (n = name)) as [-> |En].
  - by rewrite !bool_decide_eq_true_2 by (done || by left).
  - rewrite (bool_decide_eq_false_2 (n = name)) by done. rewrite IH.
    assert (name ∈ n :: cols.*1 ↔ name ∈ cols.*1) as Hiff by (rewrite elem_of_cons; split; [intros [->|?]; done|tauto]).
    by rewrite (bool_decide_ext _ _ Hiff).
Qed.

Lemma union_metas_spec ty ms : ∀ cols,
  Forall (λ m, Type_ m = ty (Name m) ∧ (Type_ m = ColTimestamp ∨ Type_ m = ColDict)) ms → typed ty cols →
  ∃ cols', union_metas ms cols = Some cols' ∧ typed ty cols' ∧
    ∀ n, n ∈ cols'.*1 ↔ n ∈ cols.*1 ∨ n ∈ Name <$> ms.
Proof.
  induction ms as [|m ms IH]; intros cols Hms Ht; cbn [union_metas].
  - exists cols. split_and!; [done..|]. intros n. split; [tauto|]. by intros [?|?%elem_of_nil].
  - apply Forall_cons_1 in Hms as [[Em Hty] Hms]. rewrite (find_type_spec ty cols _ (ty_types _ _ Ht)), fmap_cons.
    case_bool_decide as Hin.
    + destruct (IH cols Hms Ht) as (cols' & -> & Ht' & Hn). exists cols'. split_and!; [done..|]. intros n.
      rewrite Hn, elem_of_cons. split; [tauto|]. intros [?|[->|?]]; tauto.
    + rewrite bool_decide_eq_false_2 by tauto. destruct (IH (cols ++ [(Name m, Type_ m)]) Hms) as (cols' & -> & Ht' & Hn).
      { destruct Ht as [Hnd Hf]. constructor.
        - rewrite fmap_app. apply NoDup_app. split_and!; [done| |apply NoDup_singleton].
          intros n Hin' ->%list_elem_of_singleton. done.
        - apply Forall_app_2; [done|]. by apply Forall_cons_2. }
      exists cols'. split_and!; [done..|]. intros n. rewrite Hn, fmap_app, elem_of_app, elem_of_cons.
      change ([(Name m, Type_ m)].*1) with [Name m]. rewrite list_elem_of_singleton. tauto.
Qed.

Lemma union_cols_spec ty rs : ∀ cols,
  Forall (λ r, Forall (λ m, Type_ m = ty (Name m) ∧ (Type_ m = ColTimestamp ∨ Type_ m = ColDict)) (r_cols r)) rs →
  typed ty cols →
  ∃ cols', union_cols rs cols = Some cols' ∧ typed ty cols' ∧
    ∀ n, n ∈ cols'.*1 ↔ n ∈ cols.*1 ∨ Exists (λ r, n ∈ Name <$> r_cols r) rs.
Proof.
  induction rs as [|r rs IH]; intros cols Hrs Ht; cbn [union_cols].
  - exists cols. split_and!; [done..|]. intros n. split; [tauto|]. by intros [?|?%Exists_nil].
  - apply Forall_cons_1 in Hrs as [Hr Hrs]. destruct (union_metas_spec ty (r_cols r) cols Hr Ht) as (cols1 & -> & Ht1 & Hn1).
    destruct (IH cols1 Hrs Ht1) as (cols' & -> & Ht' & Hn). exists cols'. split_and!; [done..|]. intros n.
    rewrite Hn, Hn1, Exists_cons. tauto.
Qed.

Lemma ts_name_spec ty tsn cols :
  typed ty cols → (∀ n, n ∈ cols.*1 → ty n = ColTimestamp ↔ n = tsn) →
  ∀ acc, (if decide (tsn ∈ cols.*1) then acc = [] else True) →
  ts_name cols acc = Some (if bool_decide (tsn ∈ cols.*1) then tsn else acc).
Proof.
  intros [Hnd Hf] Hts. induction Hf as [|[n t] cols E Hf IH]; intros acc Hacc; cbn [ts_name].
  { by rewrite bool_decide_eq_false_2 by (by intros ?%elem_of_nil). }
  rewrite fmap_cons in *. apply NoDup_cons in Hnd as [Hn Hnd]. cbn [fst snd] in *. subst t.
  assert (∀ n, n ∈ cols.*1 → ty n = ColTimestamp ↔ n = tsn) as Hts' by (intros x Hx; apply Hts; by right).
  pose proof (Hts n ltac:(left)) as Hn'. destruct (decide (n = tsn)) as [-> |Hne].
  - rewrite bool_decide_eq_false_2 by (rewrite Hn'; tauto). rewrite decide_True in Hacc by (by left). subst acc.
    rewrite bool_decide_eq_false_2 by (by intros []). rewrite IH by (try done; by rewrite decide_False).
    rewrite (bool_decide_eq_false_2 (tsn ∈ cols.*1)), bool_decide_eq_true_2 by (done || by left). done.
  - rewrite bool_decide_eq_true_2 by (rewrite Hn'; done).
    assert (tsn ∈ n :: cols.*1 ↔ tsn ∈ cols.*1) as Hiff by (rewrite elem_of_cons; split; [intros [->|?]; done|tauto]).
    rewrite (bool_decide_ext _ _ Hiff). apply IH; [done|done|].
    destruct (decide (tsn ∈ cols.*1)) as [Hx|Hx]; [|done]. by rewrite decide_True in Hacc by (by apply Hiff).
Qed.

(** *** The output *)

Definition merged_values (gs : list Group) (nt : bytes * Z) : bytes * values :=
  (nt.1, if bool_decide (nt.2 = ColTimestamp) then Times (concat (times_in nt.1 ∘ table_of <$> gs))
         else Strings (concat (strings_in nt.1 ∘ table_of <$> gs))).

(** An output column: the timestamps, or the dictionary of a field. *)
Inductive merged_col (tsn : bytes) (gs : list Group) : Column → Prop :=
| merged_ts : merged_col tsn gs (MkColumn tsn ColTimestamp None (concat (times_in tsn ∘ table_of <$> gs)) [] 0)
| merged_dict n d : n ≠ tsn → dict_of (concat (strings_in n ∘ table_of <$> gs)) d →
    merged_col tsn gs (MkColumn n ColDict (Some d) [] [] 0).

Lemma merge_cols_spec ty tsn gs es cols :
  mergeable ty tsn gs → Forall2 entry_of gs es →
  (∀ n t, (n, t) ∈ cols → t = ColTimestamp ↔ n = tsn) →
  (∀ n, n ∈ cols.*1 → n ≠ tsn → len (concat (strings_in n ∘ table_of <$> gs)) < 2 ^ 32) →
  ∃ out, merge_cols es cols = Ok (Some out) ∧
    Forall (merged_col tsn gs) out ∧
    (λ c, (c_Name c, col_values c)) <$> out = merged_values gs <$> cols.
Proof.
  intros Hm He. induction cols as [|[n t] cols IH]; intros Hty Hlen; cbn [merge_cols]; [by exists []|].
  rewrite fmap_cons in Hlen. cbn [fst] in Hlen.
  destruct IH as (out & -> & Hf & Ho); [intros n' t' Hin; apply Hty; by right|intros n' Hin; apply Hlen; by right|].
  pose proof (Hty n t ltac:(left)) as Hn. rewrite fmap_cons. unfold merged_values at 1. cbn [fst snd].
  destruct (decide (t = ColTimestamp)) as [Et|Et].
  - rewrite !(bool_decide_eq_true_2 (t = _)) by done. apply Hn in Et. subst n.
    rewrite (merge_ts_spec ty tsn gs es Hm He), !bind_Ok. eexists. split; [done|]. split; [|by rewrite fmap_cons, Ho, col_values_ts].
    apply Forall_cons_2; [constructor|done].
  - rewrite !(bool_decide_eq_false_2 (t = _)) by done.
    assert (n ≠ tsn) as Hne by (intros En; by apply Et, Hn). rewrite (merge_strings_spec ty tsn n gs es Hm He Hne), bind_Ok.
    destruct (BuildDict_spec (concat (strings_in n ∘ table_of <$> gs)) (Hlen n ltac:(left) Hne)) as (d & -> & Hd). rewrite !bind_Ok.
    eexists. split; [done|]. split.
    + apply Forall_cons_2; [|done]. by constructor.
    + rewrite fmap_cons, Ho, col_values_dict, (dict_of_values _ _ Hd). done.
Qed.

Lemma strings_in_source g r name :
  source g r → (∀ c, c ∈ g_Columns g → c_Name c = name → c_Type c ≠ ColTimestamp) →
  len (strings_in name (table_of g)) = g_Rows g ∧ Forall is_bytes (strings_in name (table_of g)).
Proof.
  intros Hsrc Hty. pose proof (gw_rows g (so_wf _ _ Hsrc)) as Hr. unfold strings_in.
  destruct (find_values (t_cols (table_of g)) name) as [v|] eqn:E.
  - destruct (find_values_col _ _ _ E) as (c & Ec & Ev). pose proof (col_stored g r name c (so_reader _ _ Hsrc) Ec) as (_ & _ & _ & Hc).
    assert (c_Name c = name) as En.
    { clear -Ec. revert Ec. induction (g_Columns g) as [|x cs IH]; [done|]. cbn [find_col]. unfold str_eqb.
      case_bool_decide; [by intros [= <-]|done]. }
    destruct (source_col g r c Hsrc Hc) as [d Ty Ev' Hd Hv|ts Ty Ev' Hl Hi Ets]; [|by apply Hty in Ty].
    rewrite Ev' in Ev. subst v. split; [unfold row_values; rewrite len_fmap; apply Hd|].
    apply Forall_forall. intros x Hx. eapply row_values_member in Hx; [|done]. pose proof (dw_bytes _ _ Hd) as Hb.
    rewrite Forall_forall in Hb. by apply Hb.
  - cbn [t_rows table_of]. split; [rewrite len_replicate; lia|]. apply Forall_replicate, Forall_nil_2.
Qed.

Lemma times_in_source g r tsn :
  source g r → (∃ c, c ∈ g_Columns g ∧ c_Name c = tsn ∧ c_Type c = ColTimestamp) →
  len (times_in tsn (table_of g)) = g_Rows g ∧ Forall is_i64 (times_in tsn (table_of g)).
Proof.
  intros Hsrc (c & Hc & <- & Et). unfold times_in. rewrite (find_values_self g c (so_names _ _ Hsrc) Hc).
  destruct (source_col g r c Hsrc Hc) as [d Ty _ _ _|ts Ty Ev Hl Hi _]; [by rewrite Et in Ty|]. by rewrite Ev.
Qed.

Definition total_rows (gs : list Group) : Z := foldr (λ g n, g_Rows g + n) 0 gs.
Definition total_cols (gs : list Group) : Z := foldr (λ g n, len (g_Columns g) + n) 0 gs.

Lemma concat_rows {A} (f : table → list A) (P : A → Prop) gs :
  (∀ g, g ∈ gs → len (f (table_of g)) = g_Rows g ∧ Forall P (f (table_of g))) →
  len (concat (f ∘ table_of <$> gs)) = total_rows gs ∧ Forall P (concat (f ∘ table_of <$> gs)).
Proof.
  induction gs as [|g gs IH]; intros Hg; [split; [done|apply Forall_nil_2]|]. rewrite fmap_cons. cbn [concat compose total_rows foldr].
  destruct (Hg g ltac:(left)) as [E1 H1]. destruct IH as [E2 H2]; [intros h Hh; apply Hg; by right|].
  rewrite len_app, E1, E2. split; [done|by apply Forall_app_2].
Qed.

Lemma entries_total gs es : Forall2 entry_of gs es → foldr (λ e n, r_Rows e.1 + n) 0 es = total_rows gs.
Proof.
  induction 1 as [|g e gs es Hge _ IH]; [done|]. cbn [foldr total_rows]. destruct Hge as [g r s Hsrc _].
  cbn [fst]. by rewrite IH, (ro_rows g r (so_reader _ _ Hsrc)).
Qed.

(** What a batch promises the merge: the metas of its readers have the types of
    [ty], and their names are the groups' column names. *)
Lemma entries_metas ty tsn gs es :
  mergeable ty tsn gs → Forall2 entry_of gs es →
  Forall (λ r, Forall (λ m, Type_ m = ty (Name m) ∧ (Type_ m = ColTimestamp ∨ Type_ m = ColDict)) (r_cols r)) es.*1 ∧
  (∀ n, Exists (λ r, n ∈ Name <$> r_cols r) es.*1 ↔ ∃ g c, g ∈ gs ∧ c ∈ g_Columns g ∧ c_Name c = n) ∧
  Forall (λ r, hasColumn r tsn = true) es.*1.
Proof.
  intros Hm He. pose proof (me_ty _ _ _ Hm) as Hty. pose proof (me_has _ _ _ Hm) as Hhas. clear Hm.
  induction He as [|g e gs es Hge _ IH].
  { split_and!; try apply Forall_nil_2. intros n. split; [by intros ?%Exists_nil|]. intros (g & c & Hg & _). by apply elem_of_nil in Hg. }
  destruct Hge as [g r s Hsrc Hs]. destruct IH as (IH1 & IH2 & IH3);
    [intros g1 c1 Hg1; apply (Hty g1 c1); by right|intros g1 Hg1; apply (Hhas g1); by right|].
  rewrite fmap_cons. cbn [fst]. pose proof (so_reader _ _ Hsrc) as Hr. pose proof (meta_columns g r Hr) as Hm. split_and!.
  - apply Forall_cons_2; [|done]. apply Forall_forall. intros m Hin.
    assert ((Name m, Type_ m) ∈ (λ c, (c_Name c, c_Type c)) <$> g_Columns g) as Hx.
    { rewrite <- Hm. apply list_elem_of_fmap. by exists m. }
    apply list_elem_of_fmap in Hx as (c & [= -> ->] & Hc). split; [apply (Hty g); [by left|done]|].
    destruct (source_col g r c Hsrc Hc); auto.
  - intros n. rewrite Exists_cons, IH2.
    assert (n ∈ Name <$> r_cols r ↔ ∃ c, c ∈ g_Columns g ∧ c_Name c = n) as ->.
    { rewrite <- (hasColumn_spec g r n Hr). unfold hasColumn, str_eqb. rewrite existsb_exists, list_elem_of_fmap. split.
      - intros (m & -> & Hin). exists m. rewrite <- list_elem_of_In. split; [done|]. by apply bool_decide_eq_true.
      - intros (m & Hin & E%bool_decide_eq_true). exists m. rewrite list_elem_of_In. done. }
    split.
    + intros [(c & Hc & En)|(h & c & Hh & Hc)]; [exists g, c; split; [by left|done]|exists h, c; split; [by right|done]].
    + intros (h & c & [-> |Hh]%elem_of_cons & Hc); [left; by exists c|right; by exists h, c].
  - apply Forall_cons_2; [|done]. apply (hasColumn_spec g r tsn Hr). destruct (Hhas g ltac:(left)) as (c & ? & ? & _). by exists c.
Qed.

(** The output fits one group. *)
Record merge_fits (gs : list Group) : Prop := {
  mf_rows : total_rows gs ≤ 2 ^ 22;
  mf_cols : total_cols gs ≤ maxGroupColumns;
  mf_size n : len (concat (concat (strings_in n ∘ table_of <$> gs))) < 2 ^ 30 - 260 }.

Lemma names_count (cols : list (bytes * Z)) gs :
  NoDup cols.*1 → (∀ n, n ∈ cols.*1 → ∃ g c, g ∈ gs ∧ c ∈ g_Columns g ∧ c_Name c = n) → len cols ≤ total_cols gs.
Proof.
  intros Hnd Hn. set (all := concat ((λ g, c_Name <$> g_Columns g) <$> gs)).
  assert (len all = total_cols gs) as <-.
  { unfold all. clear. induction gs as [|g gs IH]; [done|]. rewrite fmap_cons. cbn [concat total_cols foldr].
    rewrite len_app, len_fmap, IH. done. }
  assert (cols.*1 ⊆+ all) as Hs.
  { apply NoDup_submseteq; [done|]. intros n (g & c & Hg & Hc & <-)%Hn. unfold all. rewrite list_elem_of_In, List.in_concat.
    exists (c_Name <$> g_Columns g). rewrite <- !list_elem_of_In, !list_elem_of_fmap. split; [by exists g|by exists c]. }
  apply submseteq_length in Hs. rewrite length_fmap in Hs. unfold len. lia.
Qed.

Lemma types_agree_spec ty rs cols :
  Forall (λ nt, nt.2 = ty nt.1) cols →
  Forall (λ r, Forall (λ m, Type_ m = ty (Name m) ∧ (Type_ m = ColTimestamp ∨ Type_ m = ColDict)) (r_cols r)) rs →
  (∀ n, Exists (λ r, n ∈ Name <$> r_cols r) rs → n ∈ cols.*1) → types_agree rs cols = true.
Proof.
  intros Hc Hrs Hin. unfold types_agree. apply forallb_forall. intros r Hr%list_elem_of_In. apply forallb_forall.
  intros m Hm%list_elem_of_In. rewrite (find_type_spec ty cols _ Hc).
  rewrite Forall_forall in Hrs. specialize (Hrs r Hr). rewrite Forall_forall in Hrs. destruct (Hrs m Hm) as [Et _].
  rewrite (bool_decide_eq_true_2 (Name m ∈ cols.*1)).
  - by apply bool_decide_eq_true.
  - apply Hin, Exists_exists. exists r. split; [done|]. apply list_elem_of_fmap. by exists m.
Qed.

Lemma entry_source gs es : Forall2 entry_of gs es → ∀ g, g ∈ gs → ∃ r, source g r.
Proof.
  induction 1 as [|g e gs es Hge _ IH]; [by intros g ?%elem_of_nil|]. intros h [-> |Hh]%elem_of_cons; [|by apply IH].
  destruct Hge as [g r s Hsrc _]. by exists r.
Qed.

Lemma field_rows ty tsn gs es n :
  mergeable ty tsn gs → Forall2 entry_of gs es → n ≠ tsn →
  len (concat (strings_in n ∘ table_of <$> gs)) = total_rows gs ∧ Forall is_bytes (concat (strings_in n ∘ table_of <$> gs)).
Proof.
  intros Hm He Hn. apply concat_rows. intros g Hg. destruct (entry_source gs es He g Hg) as [r Hr].
  apply (strings_in_source g r n Hr). intros c Hc En Et. apply Hn. rewrite <- En. by apply (me_ts _ _ _ Hm g).
Qed.

Lemma merged_col_ok ty tsn gs es c :
  mergeable ty tsn gs → Forall2 entry_of gs es → merge_fits gs → merged_col tsn gs c →
  col_ok (total_rows gs) c ∧ ∀ d v, c_Dict c = Some d → v ∈ Dict d → v ∈ row_values d.
Proof.
  intros Hm He [F1 F2 F3] [|n d Hn Hd].
  - split; [|done]. destruct (concat_rows (times_in tsn) is_i64 gs) as [E H]; [|by apply ok_ts].
    intros g Hg. destruct (entry_source gs es He g Hg) as [r Hr]. by apply (times_in_source g r), (me_has _ _ _ Hm).
  - destruct (field_rows ty tsn gs es n Hm He Hn) as [E H]. split.
    + apply ok_dict. rewrite <- E. apply (dict_of_wf _ (concat (strings_in n ∘ table_of <$> gs))); [done|done|done|lia|apply F3].
    + intros d' v [= <-] Hv. rewrite (dict_of_values _ _ Hd). by apply Hd.
Qed.

Lemma merged_wf ty tsn gs es cols out :
  mergeable ty tsn gs → Forall2 entry_of gs es → merge_fits gs → 0 ≤ total_rows gs →
  NoDup cols.*1 → tsn ∈ cols.*1 → (∀ n, n ∈ cols.*1 → ∃ h c, h ∈ gs ∧ c ∈ g_Columns h ∧ c_Name c = n) →
  Forall (merged_col tsn gs) out → (λ c, (c_Name c, col_values c)) <$> out = merged_values gs <$> cols →
  group_wf (MkGroup (total_rows gs) out false false).
Proof.
  intros Hm He Hfit Hpos Hnd Htin Hcols Hout Ho. pose proof (mf_rows _ Hfit).
  assert (c_Name <$> out = cols.*1) as En.
  { pose proof (f_equal (fmap fst) Ho) as E. by rewrite <- !list_fmap_compose in E. }
  constructor; cbn [g_Rows g_Columns].
  - lia.
  - pose proof (names_count cols gs Hnd Hcols). pose proof (mf_cols _ Hfit). pose proof (f_equal length En) as El.
    rewrite !length_fmap in El. unfold len in *. lia.
  - apply Forall_forall. intros c Hc. assert (c_Name c ∈ cols.*1) as Hin by (rewrite <- En; apply list_elem_of_fmap; by exists c).
    destruct (Hcols _ Hin) as (h & x & Hh & Hx & <-). destruct (entry_source gs es He h Hh) as [r Hr].
    pose proof (gw_names h (so_wf _ _ Hr)) as Hnm. rewrite Forall_forall in Hnm. by apply Hnm.
  - eapply Forall_impl; [exact Hout|]. intros c Hc. by apply (merged_col_ok ty tsn gs es c Hm He Hfit).
  - intros _. destruct out as [|c out]; [rewrite <- En in Htin; by apply elem_of_nil in Htin|].
    apply Exists_cons. left. apply Forall_cons_1 in Hout as [[] _]; done.
Qed.

Lemma merge_readers_spec ty tsn gs es :
  gs ≠ [] → mergeable ty tsn gs → Forall2 entry_of gs es → merge_fits gs →
  ∃ g cols, merge_readers es = Ok (Some g) ∧ g_NoPostings g = false ∧ group_wf g ∧ dicts_used g ∧
    typed ty cols ∧ (∀ n, n ∈ cols.*1 ↔ ∃ h c, h ∈ gs ∧ c ∈ g_Columns h ∧ c_Name c = n) ∧
    table_of g = MkTable (total_rows gs) (merged_values gs <$> cols).
Proof.
  intros Hne Hm He Hfit. destruct (entries_metas ty tsn gs es Hm He) as (Hmeta & Hnames & Hhas).
  unfold merge_readers. rewrite (entries_total gs es He).
  assert (0 < total_rows gs) as Hpos.
  { clear -Hne He. destruct He as [|g e gs es Hge He]; [done|]. cbn [total_rows foldr]. destruct Hge as [g r s Hsrc _].
    pose proof (so_rows _ _ Hsrc). clear Hne. enough (0 ≤ foldr (λ g n, g_Rows g + n) 0 gs) by lia.
    induction He as [|g' e gs es Hge _ IH]; [done|]. cbn [foldr]. destruct Hge as [g' r' s' Hsrc' _]. pose proof (so_rows _ _ Hsrc'). lia. }
  rewrite bool_decide_eq_false_2 by lia.
  destruct (union_cols_spec ty es.*1 [] Hmeta) as (cols & -> & Ht & Hn); [constructor; [apply NoDup_nil_2|apply Forall_nil_2]|].
  assert (∀ n, n ∈ cols.*1 ↔ ∃ h c, h ∈ gs ∧ c ∈ g_Columns h ∧ c_Name c = n) as Hcols.
  { intros n. rewrite Hn, Hnames. split; [by intros [?%elem_of_nil|?]|tauto]. }
  rewrite (types_agree_spec ty es.*1 cols (ty_types _ _ Ht) Hmeta) by (intros n Hx; apply Hn; by right). cbn [negb].
  assert (∀ n, n ∈ cols.*1 → ty n = ColTimestamp ↔ n = tsn) as Hts.
  { intros n (h & c & Hh & Hc & <-)%Hcols. rewrite <- (me_ty _ _ _ Hm h c Hh Hc). split; [by apply (me_ts _ _ _ Hm h c)|].
    intros En. destruct (me_has _ _ _ Hm h Hh) as (c' & Hc' & En' & Et'). rewrite (me_ty _ _ _ Hm h c), En, <- En' by done.
    by rewrite <- (me_ty _ _ _ Hm h c'). }
  assert (tsn ∈ cols.*1) as Htin.
  { destruct gs as [|h gs']; [done|]. destruct (me_has _ _ _ Hm h ltac:(left)) as (c & Hc & En & _). apply Hcols. exists h, c.
    split_and!; [by left|done..]. }
  rewrite (ts_name_spec ty tsn cols Ht Hts) by (by rewrite decide_True). rewrite bool_decide_eq_true_2 by done.
  rewrite (proj2 (forallb_forall _ _)) by (intros r Hr%list_elem_of_In; rewrite Forall_forall in Hhas; by apply Hhas). cbn [negb].
  assert (∀ n t, (n, t) ∈ cols → t = ty n ∧ n ∈ cols.*1) as Hct.
  { intros n t Hin. pose proof (ty_types _ _ Ht) as Hf. rewrite Forall_forall in Hf. split; [by apply (Hf (n, t))|].
    apply list_elem_of_fmap. by exists (n, t). }
  destruct (merge_cols_spec ty tsn gs es cols Hm He) as (out & -> & Hout & Ho).
  { intros n t [-> Hin]%Hct. by apply Hts. }
  { intros n _ Hnt. pose proof (mf_rows _ Hfit). destruct (field_rows ty tsn gs es n Hm He Hnt) as [E _]. lia. }
  rewrite bind_Ok. do 2 eexists. split; [done|]. split; [done|].
  assert (∀ c, c ∈ out → col_ok (total_rows gs) c ∧ ∀ d v, c_Dict c = Some d → v ∈ Dict d → v ∈ row_values d) as Hok.
  { intros c Hc. rewrite Forall_forall in Hout. by apply (merged_col_ok ty tsn gs es c Hm He Hfit), Hout. }
  split_and!; [|by intros c d v Hc; apply Hok|done|done|by unfold table_of; cbn [g_Rows g_Columns]; rewrite Ho].
  apply (merged_wf ty tsn gs es cols out); try done; [lia|apply Ht|by intros n Hx%Hcols].
Qed.

Lemma mapped_entries (gs : list Group) batch :
  Forall2 (λ g e, ∃ r, ge_reader e = Some r ∧ source g r ∧ caches_ok r (ge_caches e)) gs batch →
  ∃ es, mapM mapped batch = Some es ∧ Forall2 entry_of gs es.
Proof.
  induction 1 as [|g e gs batch (r & Er & Hs & Hc) _ (es & E & He)]; [by exists []|].
  exists ((r, ge_caches e) :: es). split; [|by constructor]. cbn [mapM]. assert (mapped e = Some (r, ge_caches e)) as -> by (unfold mapped; by rewrite Er). cbn. by rewrite E.
Qed.

(** C26: compaction is lossless: merging a batch of groups that agree on their
    types and their timestamp column gives one group whose columns are the
    union of theirs, each the concatenation, in batch order, of the batch's
    columns, with the empty string for the rows of a group that lacks the
    field; and the reader of the new blob answers that table. *)
Theorem mergeGroups_concatenates ty tsn gs batch :
  Forall2 (λ g e, ∃ r, ge_reader e = Some r ∧ source g r ∧ caches_ok r (ge_caches e)) gs batch →
  gs ≠ [] → mergeable ty tsn gs → merge_fits gs →
  ∃ g before cols b, mergeGroups batch = Ok (Some g, before) ∧
    NoDup cols.*1 ∧ (∀ n, n ∈ cols.*1 ↔ ∃ h c, h ∈ gs ∧ c ∈ g_Columns h ∧ c_Name c = n) ∧
    table_of g = MkTable (total_rows gs) (merged_values gs <$> cols) ∧
    Marshal g = Ok b ∧ (len b < 2 ^ 32 → ∃ r, ReadGroup b = Good r ∧ answers false r (table_of g)).
Proof.
  intros Hb Hne Hm Hf. destruct (mapped_entries gs batch Hb) as (es & Ees & He).
  destruct (merge_readers_spec ty tsn gs es Hne Hm He Hf) as (g & cols & Eg & Hnp & Hg & Hu & Ht & Hn & Htab).
  destruct (Marshal_spec g Hg) as (b & Eb & Hbl). unfold mergeGroups. rewrite Ees, Eg, bind_Ok.
  do 2 eexists. exists cols, b. split_and!; [done|apply Ht|done..|]. intros Hl.
  destruct (Hbl Hl) as (r & Er & _ & Hr). exists r. split; [done|]. rewrite <- Hnp. by apply reader_answers.
Qed.
End rewriting.
