(* ===== verification/Batches.v ===== *)
(** * Flush batches: who learns that a row was lost

    [internal/ingest/writer.go] and [writeerr.go]. One [Writer] is shared by
    every request of a tenant: rows go into one buffer, a flush hands them to a
    pool of workers as a job of the current batch, and a caller asks with [Mark]
    and [FlushMark] whether its own rows reached the store. The state machine
    here interleaves the lock sections of any number of callers with the atomic
    operations of the workers. *)

From S2P Require Import Prelude Digits GoLib Indices Group Writer.
From stdpp Require Import list sorting gmap.
Local Open Scope Z_scope.

(** ** Errors *)

(** The sentinels [classify] asks [errors.Is] about. *)
Inductive sentinel :=
| ErrWriterClosed | ErrDurabilityUnknown | ErrCorruptGroup | ErrPermission
| ENOSPC | EROFS | EACCES | EPERM | EIO | EMFILE | ENFILE | ENOMEM | EINTR | EAGAIN.
#[export] Instance sentinel_eq_dec : EqDecision sentinel.
Proof. solve_decision. Defined.
(** An [error]: the sentinels [errors.Is] finds in it. *)
Definition error : Type := list sentinel.
Definition errors_Is (e : error) (s : sentinel) : bool := bool_decide (s ∈ e).

Inductive RetryClass := RetrySoon | RetryAfterRepair.
#[export] Instance RetryClass_eq_dec : EqDecision RetryClass.
Proof. solve_decision. Defined.

Record WriteError := MkWriteError {
  we_Err : error; we_Class : RetryClass; we_Partial : bool; we_FailedGroups : Z; we_TotalGroups : Z }.

Definition classifyErrno (e : error) : option RetryClass :=
  if errors_Is e ENOSPC || errors_Is e EROFS || errors_Is e EACCES || errors_Is e EPERM then Some RetryAfterRepair
  else if errors_Is e EIO then Some RetryAfterRepair
  else if errors_Is e EMFILE || errors_Is e ENFILE || errors_Is e ENOMEM || errors_Is e EINTR || errors_Is e EAGAIN
  then Some RetrySoon
  else None.
Definition classify (e : error) : RetryClass :=
  if errors_Is e ErrWriterClosed then RetrySoon
  else if errors_Is e ErrCorruptGroup then RetryAfterRepair
  else match classifyErrno e with
       | Some c => c
       | None => if errors_Is e ErrPermission then RetryAfterRepair else RetrySoon
       end.
Definition newWriteError (e : error) (failed total : Z) : WriteError :=
  MkWriteError e (classify e) (bool_decide (0 < failed ∧ failed < total)) failed total.
Definition DuplicatesOnRetry (e : WriteError) : bool := we_Partial e.
(** Seconds. *)
Definition RetryAfter (e : WriteError) : Z := match we_Class e with RetryAfterRepair => 30 | RetrySoon => 1 end.

(** ** State *)

(** [wg] is the counter of the batch's [WaitGroup]. The counters are [int32];
    a batch would need 2^31 jobs to wrap one. *)
Record flushBatch := MkBatch {
  fb_wg : Z; fb_err : option error; fb_done : bool; fb_jobs : Z; fb_failed : Z; fb_outstanding : Z }.
Definition new_flushBatch : flushBatch := MkBatch 0 None false 0 0 0.

Record batchOutcome := MkOutcome { o_seq : Z; o_jobs : Z; o_failed : Z; o_err : option error }.

Definition batchHistory : Z := 64.
Definition outcomeHistory : Z := 1024.
Definition maxHistory : Z := 4096.

(** A [WriteID]; the empty one is none. *)
Definition WriteID : Type := bytes.

(** A batch is named by its [seq]: no two batches of a writer share one. *)
Record Writer := MkWriter {
  w_cfg : config; w_buf : buffers; w_lastFlsh : Z; w_closed : bool;
  w_batch : Z; w_live : list Z; w_hist : list Z; w_nextSeq : Z;
  w_nextReceipt : WriteID; w_outcomes : list batchOutcome; w_oldestAnswerable : Z }.

(** How far [worker] got with a job: not stored yet; stored; failed with its
    error published; failed and counted; then [outstanding.Add(-1)], then
    [wg.Done()]. *)
Inductive phase := Queued | Stored | Erred | Counted | Out (stored : bool) | Finished (stored : bool).
Record job := MkJobState { jb_batch : Z; jb_job : flushJob; jb_receipt : WriteID; jb_phase : phase }.

(** The writer, the batches it points to, and every job it ever handed out. *)
Record sys := MkSys { s_w : Writer; s_heap : gmap Z flushBatch; s_jobs : list job }.

(** ** Operations *)

Definition batch_of (s : sys) (b : Z) : flushBatch := default new_flushBatch (s_heap s !! b).
Definition set_batch (b : Z) (f : flushBatch → flushBatch) (s : sys) : sys :=
  MkSys (s_w s) (<[b := f (batch_of s b)]> (s_heap s)) (s_jobs s).
Definition with_w (f : Writer → Writer) (s : sys) : sys := MkSys (f (s_w s)) (s_heap s) (s_jobs s).

Definition set_live (l : list Z) (w : Writer) : Writer :=
  MkWriter (w_cfg w) (w_buf w) (w_lastFlsh w) (w_closed w) (w_batch w) l (w_hist w) (w_nextSeq w)
    (w_nextReceipt w) (w_outcomes w) (w_oldestAnswerable w).
Definition set_ring (hist : list Z) (nextSeq : Z) (w : Writer) : Writer :=
  MkWriter (w_cfg w) (w_buf w) (w_lastFlsh w) (w_closed w) (w_batch w) (w_live w) hist nextSeq
    (w_nextReceipt w) (w_outcomes w) (w_oldestAnswerable w).
Definition set_current (b : Z) (w : Writer) : Writer :=
  MkWriter (w_cfg w) (w_buf w) (w_lastFlsh w) (w_closed w) b (w_live w) (w_hist w) (w_nextSeq w)
    (w_nextReceipt w) (w_outcomes w) (w_oldestAnswerable w).
Definition set_log (os : list batchOutcome) (oldest : Z) (w : Writer) : Writer :=
  MkWriter (w_cfg w) (w_buf w) (w_lastFlsh w) (w_closed w) (w_batch w) (w_live w) (w_hist w) (w_nextSeq w)
    (w_nextReceipt w) os oldest.
Definition set_receipt (id : WriteID) (w : Writer) : Writer :=
  MkWriter (w_cfg w) (w_buf w) (w_lastFlsh w) (w_closed w) (w_batch w) (w_live w) (w_hist w) (w_nextSeq w)
    id (w_outcomes w) (w_oldestAnswerable w).
Definition set_buf (b : buffers) (lastFlsh : Z) (w : Writer) : Writer :=
  MkWriter (w_cfg w) b lastFlsh (w_closed w) (w_batch w) (w_live w) (w_hist w) (w_nextSeq w)
    (w_nextReceipt w) (w_outcomes w) (w_oldestAnswerable w).
Definition set_closed (w : Writer) : Writer :=
  MkWriter (w_cfg w) (w_buf w) (w_lastFlsh w) true (w_batch w) (w_live w) (w_hist w) (w_nextSeq w)
    (w_nextReceipt w) (w_outcomes w) (w_oldestAnswerable w).

Definition newWriter (c : config) (now : Z) : sys :=
  MkSys (MkWriter c no_rows now false 0 [] [0] 0 [] [] 0) {[ 0 := new_flushBatch ]} [].

Section operations.
Context {M : MapRange}.

Definition enqueue (fb : flushBatch) : flushBatch :=
  MkBatch (fb_wg fb + 1) (fb_err fb) (fb_done fb) (fb_jobs fb + 1) (fb_failed fb) (fb_outstanding fb + 1).
Definition flushLocked (now : Z) (s : sys) : sys :=
  let w := s_w s in
  if bool_decide (b_ts (w_buf w) = []) then s else
  let live := if bool_decide (last (w_live w) = Some (w_batch w)) then w_live w else w_live w ++ [w_batch w] in
  let s := set_batch (w_batch w) enqueue s in
  MkSys (set_receipt [] (set_buf no_rows now (set_live live w))) (s_heap s)
    (s_jobs s ++ [MkJobState (w_batch w) (take_job (w_cfg w) (w_buf w)) (w_nextReceipt w) Queued]).

(** The whole of [addVec]; [now] and [now'] are its two readings of the clock. *)
Definition addVec (now now' ts : Z) (fields : gmap bytes bytes) (streamOverridden : bool)
    (vecs : gmap bytes (list Z)) (s : sys) : sys :=
  let w := s_w s in
  if w_closed w then s else
  let b := add_row (w_cfg w) ts fields streamOverridden vecs (w_buf w) in
  let s := with_w (set_buf b (w_lastFlsh w)) s in
  if must_flush b (w_lastFlsh w) now then flushLocked now' s else s.

Definition dropFromLiveLocked (b : Z) (l : list Z) : list Z :=
  match list_find (λ x, x = b) l with Some (i, _) => take i l ++ drop (S i) l | None => l end.

Definition retireLocked (b : Z) (s : sys) : sys :=
  let fb := batch_of s b in
  if bool_decide (fb_jobs fb = 0) then s else
  let w := s_w s in
  let os := w_outcomes w ++ [MkOutcome b (fb_jobs fb) (fb_failed fb) (fb_err fb)] in
  if bool_decide (outcomeHistory < len os) then
    let d := Z.to_nat (len os - outcomeHistory) in
    let oldest := match os !! (d - 1)%nat with
                  | Some o => Z.max (w_oldestAnswerable w) (o_seq o + 1)
                  | None => w_oldestAnswerable w
                  end in
    with_w (set_log (drop d os) oldest) s
  else with_w (set_log os (w_oldestAnswerable w)) s.

(** The loop of [newBatchLocked] over the batches past [batchHistory]; [over]:
    the ring is past [maxHistory]. It returns how many left. *)
Fixpoint retire_loop (over : bool) (cands : list Z) (s : sys) : sys * nat :=
  match cands with
  | [] => (s, O)
  | b :: cands' =>
      if bool_decide (fb_outstanding (batch_of s b) ≠ 0) then
        if negb over then (s, O) else
        let s := with_w (λ w, set_live (dropFromLiveLocked b (w_live w))
                   (set_log (w_outcomes w) (Z.max (w_oldestAnswerable w) (b + 1)) w)) s in
        let '(s, d) := retire_loop over cands' s in (s, S d)
      else
        let '(s, d) := retire_loop over cands' (retireLocked b s) in (s, S d)
  end.
Definition newBatchLocked (s : sys) : sys * Z :=
  let w := s_w s in
  let hist := if bool_decide (last (w_hist w) = Some (w_batch w) ∧ fb_jobs (batch_of s (w_batch w)) = 0)
              then removelast (w_hist w) else w_hist w in
  let b := w_nextSeq w + 1 in
  let hist := hist ++ [b] in
  let s := MkSys (set_ring hist b w) (<[b := new_flushBatch]> (s_heap s)) (s_jobs s) in
  if bool_decide (batchHistory < len hist) then
    let '(s, d) := retire_loop (bool_decide (maxHistory < len hist)) (take (Z.to_nat (len hist - batchHistory)) hist) s in
    (with_w (set_ring (drop d hist) b) s, b)
  else (s, b).
Definition swap_batch (s : sys) : sys :=
  let '(s, b) := newBatchLocked s in with_w (set_current b) s.

Definition Mark (s : sys) : Z := w_batch (s_w s).

(** What [awaitBatches] has gathered. *)
Record tally := MkTally { ta_first : option error; ta_total : Z; ta_failed : Z }.
Definition add_counts (jobs failed : Z) (e : option error) (t : tally) : tally :=
  MkTally (match ta_first t with Some x => Some x | None => e end) (ta_total t + jobs) (ta_failed t + failed).
Definition tally_retired (os : list batchOutcome) : tally :=
  foldl (λ t o, add_counts (o_jobs o) (o_failed o) (o_err o) t) (MkTally None 0 0) os.
Definition tally_batch (fb : flushBatch) (t : tally) : tally := add_counts (fb_jobs fb) (fb_failed fb) (fb_err fb) t.
Definition tally_result (t : tally) : option WriteError :=
  match ta_first t with None => None | Some e => Some (newWriteError e (ta_failed t) (ta_total t)) end.

(** A call between its lock section and its return: the batches it still waits
    for, and what it has gathered. *)
Inductive lock_result := Waits (wait : list Z) (t : tally) | Refuses (e : WriteError).

Definition closed_error : WriteError := MkWriteError [ErrWriterClosed] RetrySoon true 0 0.
Definition unknown_error : WriteError := MkWriteError [ErrDurabilityUnknown] RetrySoon true 0 0.

(** The lock section of [Flush]. *)
Definition Flush_lock (now : Z) (s : sys) : sys * lock_result :=
  if w_closed (s_w s) then (s, Refuses closed_error) else
  let s := flushLocked now s in
  let wait := w_live (s_w s) in
  (swap_batch s, Waits wait (tally_retired [])).
(** The lock section of [FlushMark]. *)
Definition FlushMark_lock (mark now : Z) (s : sys) : sys * lock_result :=
  if w_closed (s_w s) then (s, Refuses closed_error) else
  let s := flushLocked now s in
  let wait := List.filter (λ b, bool_decide (mark ≤ b)) (w_hist (s_w s)) in
  let retired := List.filter (λ o, bool_decide (mark ≤ o_seq o)) (w_outcomes (s_w s)) in
  let unanswerable := bool_decide (mark < w_oldestAnswerable (s_w s)) in
  (swap_batch s, if unanswerable then Refuses unknown_error else Waits wait (tally_retired retired)).
(** The lock section of [flushCarrying]: also whether the id rode. *)
Definition flushCarrying_lock (id : WriteID) (now : Z) (s : sys) : sys * lock_result * bool :=
  if w_closed (s_w s) then (s, Refuses closed_error, false) else
  let rides := bool_decide (b_ts (w_buf (s_w s)) ≠ [] ∧ w_live (s_w s) = []) in
  let s := if rides then with_w (set_receipt id) s else s in
  let s := flushLocked now s in
  let '(s, rode) := if bool_decide (w_nextReceipt (s_w s) ≠ []) then (with_w (set_receipt []) s, false) else (s, rides) in
  let wait := w_live (s_w s) in
  (swap_batch s, Waits wait (tally_retired []), rode).
(** [b.done.Store(true)] in [awaitBatches], after its [Wait]. *)
Definition mark_done (b : Z) (s : sys) : sys :=
  set_batch b (λ fb, MkBatch (fb_wg fb) (fb_err fb) true (fb_jobs fb) (fb_failed fb) (fb_outstanding fb)) s.
(** The lock section at the end of [awaitBatches]. *)
Definition retire_done (s : sys) : sys :=
  with_w (λ w, set_live (List.filter (λ b, negb (fb_done (batch_of s b))) (w_live w)) w) s.
(** The lock section of [Close]. *)
Definition Close_lock (s : sys) : sys := with_w set_closed s.

(** *** The workers *)

Definition set_phase (i : nat) (p : phase) (s : sys) : sys :=
  MkSys (s_w s) (s_heap s) (alter (λ j, MkJobState (jb_batch j) (jb_job j) (jb_receipt j) p) i (s_jobs s)).
Definition job_err (e : error) (fb : flushBatch) : flushBatch :=
  MkBatch (fb_wg fb) (match fb_err fb with Some x => Some x | None => Some e end) (fb_done fb) (fb_jobs fb) (fb_failed fb) (fb_outstanding fb).
Definition job_failed (fb : flushBatch) : flushBatch :=
  MkBatch (fb_wg fb) (fb_err fb) (fb_done fb) (fb_jobs fb) (fb_failed fb + 1) (fb_outstanding fb).
Definition job_out (fb : flushBatch) : flushBatch :=
  MkBatch (fb_wg fb) (fb_err fb) (fb_done fb) (fb_jobs fb) (fb_failed fb) (fb_outstanding fb - 1).
Definition job_done (fb : flushBatch) : flushBatch :=
  MkBatch (fb_wg fb - 1) (fb_err fb) (fb_done fb) (fb_jobs fb) (fb_failed fb) (fb_outstanding fb).

(** One atomic operation of [worker] on job [i]; [e] is what [appendGroup]
    returned. *)
Definition worker_op (i : nat) (e : option error) (s : sys) : option sys :=
  match s_jobs s !! i with
  | None => None
  | Some j =>
      let b := jb_batch j in
      match jb_phase j with
      | Queued =>
          match e with
          | None => Some (set_phase i Stored s)
          | Some e => Some (set_phase i Erred (set_batch b (job_err e) s))
          end
      | Erred => Some (set_phase i Counted (set_batch b job_failed s))
      | Stored => Some (set_phase i (Out true) (set_batch b job_out s))
      | Counted => Some (set_phase i (Out false) (set_batch b job_out s))
      | Out ok => Some (set_phase i (Finished ok) (set_batch b job_done s))
      | Finished _ => None
      end
  end.
End operations.

(** ** Interleaving *)

(** A call in progress or returned. [c_mark] is the mark of a [FlushMark], or
    none for the other flushes; [c_jobs] is how many jobs had been handed out
    when it held the lock, and [c_seen] the batches it has heard from. *)
Record call := MkCall {
  c_mark : option Z; c_jobs : nat; c_wait : list Z; c_seen : list Z; c_tally : tally; c_result : option (option WriteError) }.

Definition call_of (mark : option Z) (njobs : nat) (retired : list Z) (l : lock_result) : call :=
  match l with
  | Refuses e => MkCall mark njobs [] [] (tally_retired []) (Some (Some e))
  | Waits wait t => MkCall mark njobs wait retired t None
  end.
Definition retired_since (mark : Z) (s : sys) : list Z :=
  o_seq <$> List.filter (λ o, bool_decide (mark ≤ o_seq o)) (w_outcomes (s_w s)).

Section interleaving.
Context {M : MapRange}.

Inductive step : sys * list call → sys * list call → Prop :=
| step_add s cs now now' ts fields ov vecs : step (s, cs) (addVec now now' ts fields ov vecs s, cs)
| step_flush s cs now s' l : Flush_lock now s = (s', l) → step (s, cs) (s', cs ++ [call_of None (length (s_jobs s')) [] l])
| step_mark s cs mark now s' l :
    FlushMark_lock mark now s = (s', l) →
    step (s, cs) (s', cs ++ [call_of (Some mark) (length (s_jobs s')) (retired_since mark (flushLocked now s)) l])
| step_carry s cs id now s' l rode :
    flushCarrying_lock id now s = (s', l, rode) → step (s, cs) (s', cs ++ [call_of None (length (s_jobs s')) [] l])
| step_await s cs k m nj b wait seen t :
    cs !! k = Some (MkCall m nj (b :: wait) seen t None) → fb_wg (batch_of s b) = 0 →
    step (s, cs) (mark_done b s, <[k := MkCall m nj wait (b :: seen) (tally_batch (batch_of s b) t) None]> cs)
| step_return s cs k m nj seen t :
    cs !! k = Some (MkCall m nj [] seen t None) →
    step (s, cs) (retire_done s, <[k := MkCall m nj [] seen t (Some (tally_result t))]> cs)
| step_close s cs : step (s, cs) (Close_lock s, cs)
| step_worker s cs i e s' : worker_op i e s = Some s' → step (s, cs) (s', cs).

Definition reachable (c : config) (s : sys) (cs : list call) : Prop := ∃ now, rtc step (newWriter c now, []) (s, cs).
End interleaving.

(** ** Counting jobs *)

Definition p_any (p : phase) : bool := true.
Definition p_pending (p : phase) : bool := match p with Out _ | Finished _ => false | _ => true end.
Definition p_unfinished (p : phase) : bool := match p with Finished _ => false | _ => true end.
Definition p_counted (p : phase) : bool := match p with Counted | Out false | Finished false => true | _ => false end.
Definition p_erred (p : phase) : bool := match p with Erred | Counted | Out false | Finished false => true | _ => false end.

Definition b2z (b : bool) : Z := if b then 1 else 0.
(** How many jobs of batch [b] are in a phase [P]. *)
Definition hits (P : phase → bool) (b : Z) (j : job) : Z := b2z (bool_decide (jb_batch j = b) && P (jb_phase j)).
Definition cnt (P : phase → bool) (b : Z) (js : list job) : Z := foldr (λ j n, hits P b j + n) 0 js.

Lemma hits_range P b j : 0 ≤ hits P b j ≤ 1.
Proof. unfold hits. destruct (_ && _); cbn; lia. Qed.
Lemma cnt_app P b l1 l2 : cnt P b (l1 ++ l2) = cnt P b l1 + cnt P b l2.
Proof. induction l1 as [|j l1 IH]; [done|]. cbn. fold (cnt P b (l1 ++ l2)). fold (cnt P b l1). lia. Qed.
Lemma cnt_nonneg P b js : 0 ≤ cnt P b js.
Proof. induction js as [|j js IH]; [done|]. cbn. fold (cnt P b js). pose proof (hits_range P b j). lia. Qed.
Lemma cnt_alter P b f i js j :
  js !! i = Some j → cnt P b (alter f i js) = cnt P b js - hits P b j + hits P b (f j).
Proof.
  revert i. induction js as [|x js IH]; intros [|i] Hi; try done; cbn in *.
  - injection Hi as ->. fold (cnt P b js). lia.
  - fold (cnt P b (alter f i js)). fold (cnt P b js). rewrite (IH i Hi). lia.
Qed.
Lemma cnt_zero P b js j : cnt P b js = 0 → j ∈ js → jb_batch j = b → P (jb_phase j) = false.
Proof.
  induction js as [|x js IH]; [by intros _ ?%elem_of_nil|]. cbn. fold (cnt P b js). intros E Hin Hb.
  pose proof (hits_range P b x). pose proof (cnt_nonneg P b js). apply elem_of_cons in Hin as [-> |Hin].
  - assert (hits P b x = 0) as Hx by lia. unfold hits in Hx. rewrite bool_decide_eq_true_2 in Hx by done. cbn in Hx.
    by destruct (P (jb_phase x)).
  - apply IH; [lia|done|done].
Qed.
Lemma cnt_none P b js : (∀ j, j ∈ js → jb_batch j = b → P (jb_phase j) = false) → cnt P b js = 0.
Proof.
  induction js as [|x js IH]; intros H; [done|]. cbn. fold (cnt P b js). rewrite IH by (intros j Hj; apply H; by right).
  unfold hits. case_bool_decide as E; [|done]. by rewrite (H x ltac:(left) E).
Qed.
Lemma cnt_le P Q b js : (∀ p, P p = true → Q p = true) → cnt P b js ≤ cnt Q b js.
Proof.
  intros H. induction js as [|x js IH]; [done|]. cbn. fold (cnt P b js). fold (cnt Q b js). unfold hits.
  specialize (H (jb_phase x)). destruct (bool_decide (jb_batch x = b)), (P (jb_phase x)), (Q (jb_phase x)); cbn; try lia.
Qed.

Lemma cnt_full P Q b js j :
  (∀ p, P p = true → Q p = true) → cnt Q b js ≤ cnt P b js → j ∈ js → jb_batch j = b →
  Q (jb_phase j) = true → P (jb_phase j) = true.
Proof.
  intros HPQ. induction js as [|x js IH]; [by intros _ ?%elem_of_nil|]. cbn. fold (cnt P b js) (cnt Q b js).
  pose proof (cnt_le P Q b js HPQ). intros Hle Hin Hb Hq.
  assert (hits P b x ≤ hits Q b x) as Hh.
  { unfold hits. specialize (HPQ (jb_phase x)). destruct (bool_decide _), (P (jb_phase x)), (Q (jb_phase x)); cbn; try lia; by rewrite HPQ. }
  apply elem_of_cons in Hin as [-> |Hin]; [|apply IH; (done || lia)].
  assert (hits P b x = hits Q b x) as E by lia. unfold hits in E. rewrite bool_decide_eq_true_2, Hq in E by done.
  by destruct (P (jb_phase x)).
Qed.
(** Once nothing is pending, every published error has been counted. *)
Lemma cnt_settled b js : cnt p_pending b js = 0 → cnt p_counted b js = cnt p_erred b js.
Proof.
  induction js as [|x js IH]; [done|]. cbn. fold (cnt p_pending b js) (cnt p_counted b js) (cnt p_erred b js). intros Hz.
  pose proof (hits_range p_pending b x). pose proof (cnt_nonneg p_pending b js). rewrite IH by lia. f_equal.
  assert (hits p_pending b x = 0) as Hx by lia. unfold hits in *. destruct (bool_decide _); [|done]. cbn in *.
  by destruct (jb_phase x) as [| | | |[]|[]].
Qed.

(** *** The writer's invariant *)

(** The counters of a batch count its jobs. *)
Record batch_ok (s : sys) (b : Z) : Prop := {
  bk_jobs : fb_jobs (batch_of s b) = cnt p_any b (s_jobs s);
  bk_outstanding : fb_outstanding (batch_of s b) = cnt p_pending b (s_jobs s);
  bk_wg : fb_wg (batch_of s b) = cnt p_unfinished b (s_jobs s);
  bk_failed : fb_failed (batch_of s b) = cnt p_counted b (s_jobs s);
  bk_err : fb_err (batch_of s b) = None ↔ cnt p_erred b (s_jobs s) = 0 }.

(** An outcome is the final count of its batch. *)
Record outcome_ok (s : sys) (o : batchOutcome) : Prop := {
  ok_final : cnt p_pending (o_seq o) (s_jobs s) = 0;
  ok_jobs : o_jobs o = cnt p_any (o_seq o) (s_jobs s);
  ok_failed : o_failed o = cnt p_counted (o_seq o) (s_jobs s);
  ok_err : o_err o = None ↔ cnt p_erred (o_seq o) (s_jobs s) = 0 }.

Record inv (s : sys) : Prop := {
  in_batches b : batch_ok s b;
  in_current : w_batch (s_w s) = w_nextSeq (s_w s);
  in_hist : w_batch (s_w s) ∈ w_hist (s_w s);
  in_sorted : StronglySorted Z.lt ((o_seq <$> w_outcomes (s_w s)) ++ w_hist (s_w s));
  in_upper b : b ∈ w_hist (s_w s) → b ≤ w_batch (s_w s);
  in_outcomes : Forall (λ o, outcome_ok s o ∧ o_seq o < w_batch (s_w s)) (w_outcomes (s_w s));
  in_jobs j : j ∈ s_jobs s → jb_batch j ≤ w_batch (s_w s);
  in_cover j : j ∈ s_jobs s →
    jb_batch j ∈ w_hist (s_w s) ∨ jb_batch j ∈ o_seq <$> w_outcomes (s_w s) ∨ jb_batch j < w_oldestAnswerable (s_w s) }.

Lemma batch_of_set b f s b' :
  batch_of (set_batch b f s) b' = if bool_decide (b' = b) then f (batch_of s b) else batch_of s b'.
Proof.
  unfold batch_of at 1, set_batch. cbn [s_heap]. case_bool_decide as E; [by rewrite E, lookup_insert_eq|].
  by rewrite lookup_insert_ne.
Qed.

Lemma inv_new c now : inv (newWriter c now).
Proof.
  constructor; cbn; try done.
  - intros b. assert (batch_of (newWriter c now) b = new_flushBatch) as Eb.
    { unfold batch_of, newWriter. cbn. destruct (decide (b = 0)) as [-> |Hne]; [by rewrite lookup_singleton_eq|by rewrite lookup_singleton_ne]. }
    constructor; rewrite Eb; done.
  - by left.
  - repeat constructor.
  - intros b ->%list_elem_of_singleton. done.
  - intros j Hj. by apply elem_of_nil in Hj.
  - intros j Hj. by apply elem_of_nil in Hj.
Qed.

(** [s'] has the rings of [s] and batches that count its jobs, which are those of
    [s] in possibly later phases. *)
Definition evolves (j j' : job) : Prop :=
  jb_batch j' = jb_batch j ∧
  (p_pending (jb_phase j) = false → p_pending (jb_phase j') = false ∧ p_erred (jb_phase j') = p_erred (jb_phase j)).
Record grows (s s' : sys) : Prop := {
  gr_batch : w_batch (s_w s) ≤ w_batch (s_w s');
  gr_jobs : ∃ old new, s_jobs s' = old ++ new ∧ Forall2 evolves (s_jobs s) old ∧
              Forall (λ j, w_batch (s_w s) ≤ jb_batch j) new }.

Lemma evolves_refl j : evolves j j.
Proof. done. Qed.
Lemma Forall2_evolves_refl js : Forall2 evolves js js.
Proof. induction js; constructor; [apply evolves_refl|done]. Qed.
Lemma grows_refl s s' : s_jobs s' = s_jobs s → w_batch (s_w s) ≤ w_batch (s_w s') → grows s s'.
Proof.
  intros Hj Hb. constructor; [done|]. exists (s_jobs s), []. rewrite app_nil_r. split_and!; [done|apply Forall2_evolves_refl|apply Forall_nil_2].
Qed.

(** The phases a count of a settled batch can see. *)
Definition settled (P : phase → bool) : Prop :=
  ∀ p p', p_pending p = false → p_pending p' = false → p_erred p' = p_erred p → P p' = P p.
Lemma settled_any : settled p_any.
Proof. done. Qed.
Lemma settled_pending : settled p_pending.
Proof. intros p p' -> -> _. done. Qed.
Lemma settled_counted : settled p_counted.
Proof. by intros [] []. Qed.
Lemma settled_erred : settled p_erred.
Proof. by intros p p' _ _ ->. Qed.
#[local] Hint Resolve settled_any settled_pending settled_counted settled_erred : simdlogs.

Lemma cnt_evolves P b js js' :
  settled P → Forall2 evolves js js' → cnt p_pending b js = 0 → cnt P b js' = cnt P b js.
Proof.
  intros HP Hj. induction Hj as [|j j' js js' [Eb Ef] _ IH]; [done|]. cbn. fold (cnt p_pending b js). fold (cnt P b js). fold (cnt P b js').
  pose proof (hits_range p_pending b j). pose proof (cnt_nonneg p_pending b js). intros Hz. rewrite IH by lia. f_equal.
  assert (hits p_pending b j = 0) as Hh by lia. unfold hits in Hh |- *. rewrite Eb. case_bool_decide as E; [|done]. cbn in *.
  destruct (p_pending (jb_phase j)) eqn:Ep; [done|]. destruct (Ef eq_refl) as [E1 E2]. by rewrite (HP _ _ Ep E1 E2).
Qed.

(** A settled batch that takes no new jobs keeps its counts. *)
Lemma cnt_grows P b s s' :
  settled P → grows s s' → b < w_batch (s_w s) → cnt p_pending b (s_jobs s) = 0 → cnt P b (s_jobs s') = cnt P b (s_jobs s).
Proof.
  intros HP [_ (old & new & -> & Ho & Hn)] Hb H0. rewrite cnt_app, (cnt_evolves P b _ _ HP Ho H0).
  rewrite (cnt_none P b new); [lia|]. intros j Hj E. rewrite Forall_forall in Hn. apply Hn in Hj. lia.
Qed.

Lemma outcome_ok_grows s s' o : grows s s' → outcome_ok s o → o_seq o < w_batch (s_w s) → outcome_ok s' o.
Proof.
  intros Hg [H1 H2 H3 H4] Hb.
  constructor; rewrite (cnt_grows _ _ s s') by (auto with simdlogs); done.
Qed.

Lemma grows_cover s s' j' :
  grows s s' → j' ∈ s_jobs s' → (∃ j, j ∈ s_jobs s ∧ jb_batch j' = jb_batch j) ∨ w_batch (s_w s) ≤ jb_batch j'.
Proof.
  intros [_ (old & new & -> & Ho & Hn)] [Hj|Hj]%elem_of_app; [left|right; rewrite Forall_forall in Hn; by apply Hn].
  apply list_elem_of_lookup in Hj as [i Hi]. destruct (Forall2_lookup_r _ _ _ _ _ Ho Hi) as (j & Hj & Eb & _).
  exists j. split; [by eapply list_elem_of_lookup_2|done].
Qed.

(** A step that leaves the rings alone keeps the invariant once its counters
    are right. *)
Lemma inv_same_rings s s' :
  inv s → grows s s' → (∀ b, batch_ok s' b) →
  w_batch (s_w s') = w_batch (s_w s) → w_nextSeq (s_w s') = w_nextSeq (s_w s) → w_hist (s_w s') = w_hist (s_w s) →
  w_outcomes (s_w s') = w_outcomes (s_w s) → w_oldestAnswerable (s_w s') = w_oldestAnswerable (s_w s) →
  (∀ j, j ∈ s_jobs s' → jb_batch j ≤ w_batch (s_w s)) → inv s'.
Proof.
  intros [I1 I2 I3 I4 I5 I6 I7 I8] Hg Hb E1 E2 E3 E4 E5 Hj. constructor; rewrite ?E1, ?E2, ?E3, ?E4, ?E5; try done.
  - eapply Forall_impl; [exact I6|]. intros o [Ho Hs]. split; [by eapply outcome_ok_grows|done].
  - intros j' Hj'. destruct (grows_cover s s' j' Hg Hj') as [(j & Hin & ->)|Hle]; [by apply I8|].
    left. assert (jb_batch j' = w_batch (s_w s)) as -> by (specialize (Hj j' Hj'); lia). done.
Qed.

(** *** A worker's step *)

Definition at_phase (p : phase) (j : job) : job := MkJobState (jb_batch j) (jb_job j) (jb_receipt j) p.

Lemma hits_at P b j p : hits P b (at_phase p j) = b2z (bool_decide (jb_batch j = b) && P p).
Proof. done. Qed.

(** The counters of a batch follow one of its jobs from phase [p] to [p']. *)
Record follows (p p' : phase) (fb fb' : flushBatch) : Prop := {
  fo_jobs : fb_jobs fb' = fb_jobs fb;
  fo_outstanding : fb_outstanding fb' = fb_outstanding fb - b2z (p_pending p) + b2z (p_pending p');
  fo_wg : fb_wg fb' = fb_wg fb - b2z (p_unfinished p) + b2z (p_unfinished p');
  fo_failed : fb_failed fb' = fb_failed fb - b2z (p_counted p) + b2z (p_counted p');
  fo_err : p_erred p' = p_erred p ∧ fb_err fb' = fb_err fb ∨ p_erred p = false ∧ p_erred p' = true ∧ fb_err fb' ≠ None }.

Lemma phase_step s s' i j p' fb :
  inv s → s_jobs s !! i = Some j → evolves j (at_phase p' j) → follows (jb_phase j) p' (batch_of s (jb_batch j)) fb →
  s_w s' = s_w s → s_jobs s' = alter (at_phase p') i (s_jobs s) →
  (∀ b, batch_of s' b = if bool_decide (b = jb_batch j) then fb else batch_of s b) →
  inv s' ∧ grows s s'.
Proof.
  intros Hi Hj He [F1 F2 F3 F4 F5] Ew Ej Eb.
  assert (∀ P b, cnt P b (s_jobs s') = cnt P b (s_jobs s) - hits P b j + hits P b (at_phase p' j)) as Ec.
  { intros P b. rewrite Ej. by apply cnt_alter. }
  assert (grows s s') as Hg.
  { constructor; [by rewrite Ew|]. exists (s_jobs s'), []. rewrite app_nil_r. split_and!; [done| |apply Forall_nil_2]. rewrite Ej.
    clear -Hj He. revert i Hj. induction (s_jobs s) as [|x js IH]; intros [|i] Hj; try done; cbn in *.
    - injection Hj as ->. constructor; [done|apply Forall2_evolves_refl].
    - constructor; [apply evolves_refl|by apply IH]. }
  split; [|done]. apply (inv_same_rings s s'); try done; rewrite ?Ew; try done.
  - intros b. destruct (in_batches s Hi b) as [B1 B2 B3 B4 B5]. pose proof (cnt_nonneg p_erred b (s_jobs s)) as Hnn.
    constructor; rewrite Eb, Ec, hits_at; unfold hits; rewrite (bool_decide_ext (b = jb_batch j) (jb_batch j = b)) by (split; congruence);
      case_bool_decide as E; cbn [andb b2z]; subst; try lia; try (rewrite ?F1, ?F2, ?F3, ?F4; cbn [p_any b2z]; lia).
    + destruct F5 as [[-> ->]|(E1 & E2 & E3)]; [rewrite B5; lia|]. rewrite E1, E2. cbn [b2z]. split; [done|lia].
    + rewrite B5. lia.
  - intros x Hx. rewrite Ej in Hx. apply list_elem_of_lookup in Hx as [k Hk].
    destruct (decide (i = k)) as [<- |Hne].
    + rewrite list_lookup_alter_eq, Hj in Hk. injection Hk as <-. cbn. apply (in_jobs s Hi). by eapply list_elem_of_lookup_2.
    + rewrite list_lookup_alter_ne in Hk by done. apply (in_jobs s Hi). by eapply list_elem_of_lookup_2.
Qed.

Lemma worker_inv i e s s' : inv s → worker_op i e s = Some s' → inv s' ∧ grows s s'.
Proof.
  intros Hi. unfold worker_op. destruct (s_jobs s !! i) as [j|] eqn:Ej; [|done].
  assert (∀ p' f, evolves j (at_phase p' j) → follows (jb_phase j) p' (batch_of s (jb_batch j)) (f (batch_of s (jb_batch j))) →
    inv (set_phase i p' (set_batch (jb_batch j) f s)) ∧ grows s (set_phase i p' (set_batch (jb_batch j) f s))) as Hstep.
  { intros p' f He Hf. apply (phase_step s _ i j p' (f (batch_of s (jb_batch j)))); try done. intros b. apply batch_of_set. }
  destruct (jb_phase j) as [| | | |ok|ok] eqn:Ep.
  - destruct e as [e|]; intros [= <-].
    + apply Hstep; [split; [done|]; by rewrite Ep|]. constructor; cbn; try lia. right. by destruct (fb_err _).
    + apply (phase_step s _ i j Stored (batch_of s (jb_batch j))); try done; [split; [done|]; by rewrite Ep| |].
      * rewrite Ep. constructor; cbn; try lia. by left.
      * intros b. case_bool_decide as E; [by rewrite E|done].
  - intros [= <-]. apply Hstep; [split; [done|]; by rewrite Ep|]. constructor; cbn; try lia. by left.
  - intros [= <-]. apply Hstep; [split; [done|]; by rewrite Ep|]. constructor; cbn; try lia. by left.
  - intros [= <-]. apply Hstep; [split; [done|]; by rewrite Ep|]. constructor; cbn; try lia. by left.
  - intros [= <-]. apply Hstep; [split; [done|]; rewrite Ep; by destruct ok|]. constructor; destruct ok; cbn; try lia; by left.
  - done.
Qed.

(** *** Operations that leave the rings alone *)

(** The same counters; [fb_done] may differ. *)
Definition same_counts (fb fb' : flushBatch) : Prop :=
  fb_wg fb' = fb_wg fb ∧ fb_err fb' = fb_err fb ∧ fb_jobs fb' = fb_jobs fb ∧ fb_failed fb' = fb_failed fb ∧
  fb_outstanding fb' = fb_outstanding fb.

Lemma batch_ok_same s s' b :
  s_jobs s' = s_jobs s → same_counts (batch_of s b) (batch_of s' b) → batch_ok s b → batch_ok s' b.
Proof. intros Ej (E1 & E2 & E3 & E4 & E5) [B1 B2 B3 B4 B5]. constructor; rewrite ?E1, ?E2, ?E3, ?E4, ?E5, Ej; done. Qed.

(** What a step may change without touching the rings. *)
Record frame (s s' : sys) : Prop := {
  fr_jobs : s_jobs s' = s_jobs s;
  fr_counts b : same_counts (batch_of s b) (batch_of s' b);
  fr_batch : w_batch (s_w s') = w_batch (s_w s);
  fr_seq : w_nextSeq (s_w s') = w_nextSeq (s_w s);
  fr_hist : w_hist (s_w s') = w_hist (s_w s);
  fr_outcomes : w_outcomes (s_w s') = w_outcomes (s_w s);
  fr_oldest : w_oldestAnswerable (s_w s') = w_oldestAnswerable (s_w s) }.

Lemma frame_inv s s' : frame s s' → inv s → inv s' ∧ grows s s'.
Proof.
  intros [E1 E2 E3 E4 E5 E6 E7] Hi. assert (grows s s') as Hg by (apply grows_refl; [done|lia]). split; [|done].
  apply (inv_same_rings s s'); try done.
  - intros b. apply (batch_ok_same s); [done|done|apply Hi].
  - intros j. rewrite E1. apply Hi.
Qed.
Lemma frame_w f s :
  (∀ w, w_batch (f w) = w_batch w ∧ w_nextSeq (f w) = w_nextSeq w ∧ w_hist (f w) = w_hist w ∧
        w_outcomes (f w) = w_outcomes w ∧ w_oldestAnswerable (f w) = w_oldestAnswerable w) → frame s (with_w f s).
Proof. intros Hf. destruct (Hf (s_w s)) as (E1 & E2 & E3 & E4 & E5). constructor; done. Qed.
Lemma frame_done b s : frame s (mark_done b s).
Proof. constructor; try done. intros b'. unfold mark_done. rewrite batch_of_set. case_bool_decide as E; [by rewrite E|done]. Qed.

Lemma flushLocked_inv {M : MapRange} now s :
  inv s → inv (flushLocked now s) ∧ grows s (flushLocked now s) ∧ w_batch (s_w (flushLocked now s)) = w_batch (s_w s).
Proof.
  intros Hi. unfold flushLocked. case_bool_decide; [split_and!; [done|by apply grows_refl|done]|].
  set (w := s_w s). set (j := MkJobState _ _ _ _). set (s' := MkSys _ _ _).
  assert (grows s s') as Hg.
  { constructor; [done|]. exists (s_jobs s), [j]. split_and!; [done|apply Forall2_evolves_refl|]. by apply Forall_cons_2. }
  split_and!; [|done|done]. apply (inv_same_rings s s'); try done.
  - intros b. destruct (in_batches s Hi b) as [B1 B2 B3 B4 B5].
    assert (batch_of s' b = if bool_decide (b = w_batch w) then enqueue (batch_of s b) else batch_of s b) as Eb.
    { change (batch_of s' b) with (batch_of (set_batch (w_batch w) enqueue s) b). rewrite batch_of_set. by case_bool_decide as E; [rewrite E|]. }
    assert (∀ P, cnt P b (s_jobs s') = cnt P b (s_jobs s) + b2z (bool_decide (b = w_batch w) && P Queued)) as Ec.
    { intros P. change (s_jobs s') with (s_jobs s ++ [j]). rewrite cnt_app. cbn. unfold hits. cbn [jb_batch jb_phase j].
      rewrite (bool_decide_ext (w_batch w = b) (b = w_batch w)) by (split; congruence). lia. }
    constructor; rewrite Eb, Ec; case_bool_decide; cbn [andb b2z p_any p_pending p_unfinished p_counted p_erred enqueue
      fb_jobs fb_outstanding fb_wg fb_failed fb_err]; try lia; rewrite B5; lia.
  - intros x [Hx|Hx]%elem_of_app; [by apply (in_jobs s Hi)|]. by apply list_elem_of_singleton in Hx as ->.
Qed.

(** *** The ring *)

Record ring (s : sys) (hs : list Z) (cur : Z) : Prop := {
  ri_batches b : batch_ok s b;
  ri_sorted : StronglySorted Z.lt ((o_seq <$> w_outcomes (s_w s)) ++ hs);
  ri_outcomes : Forall (λ o, outcome_ok s o ∧ o_seq o < cur) (w_outcomes (s_w s));
  ri_cover j : j ∈ s_jobs s →
    jb_batch j ∈ hs ∨ jb_batch j ∈ o_seq <$> w_outcomes (s_w s) ∨ jb_batch j < w_oldestAnswerable (s_w s) }.

(** The writer's own fields do not matter to the counters. *)
Lemma batch_ok_w f s b : batch_ok s b → batch_ok (with_w f s) b.
Proof. by intros []. Qed.
Lemma outcomes_ok_w f s cur os :
  Forall (λ o, outcome_ok s o ∧ o_seq o < cur) os → Forall (λ o, outcome_ok (with_w f s) o ∧ o_seq o < cur) os.
Proof. intros H. eapply Forall_impl; [exact H|]. intros o [[] ?]. by split. Qed.

Lemma sorted_mid (l1 : list Z) x l2 : StronglySorted Z.lt (l1 ++ x :: l2) → StronglySorted Z.lt (l1 ++ l2).
Proof.
  rewrite !StronglySorted_app, StronglySorted_cons. intros (H1 & H2 & _ & H3). split_and!; [|done|done].
  intros a b Ha Hb. apply H1; [done|by right].
Qed.

Lemma sorted_take_le (l : list Z) d x y :
  StronglySorted Z.lt l → l !! (d - 1)%nat = Some x → (0 < d)%nat → y ∈ take d l → y ≤ x.
Proof.
  intros Hs Hx Hd [i Hi]%list_elem_of_lookup. rewrite lookup_take_Some in Hi. destruct Hi as [Hi Hlt].
  destruct (decide (i = d - 1)%nat) as [-> |Hne]; [by simplify_eq|].
  rewrite <- (take_drop (S i) l) in Hs. pose proof (StronglySorted_app_1_elem_of _ _ _ y x Hs) as Hl.
  assert (y < x); [|lia]. apply Hl.
  - apply list_elem_of_lookup. exists i. rewrite lookup_take_Some. split; [done|lia].
  - apply list_elem_of_lookup. exists (d - 1 - S i)%nat. rewrite lookup_drop. by replace (S i + (d - 1 - S i))%nat with (d - 1)%nat by lia.
Qed.

Lemma retire_ring b hs cur s :
  ring s (b :: hs) cur → b < cur → fb_outstanding (batch_of s b) = 0 → ring (retireLocked b s) hs cur.
Proof.
  intros [R1 R2 R3 R4] Hb H0. unfold retireLocked. destruct (R1 b) as [B1 B2 B3 B4 B5].
  case_bool_decide as Hj.
  - constructor; [done|by eapply sorted_mid|done|]. intros j Hin. destruct (R4 j Hin) as [[Eb|?]%elem_of_cons|[?|?]]; [|tauto..].
    exfalso. rewrite B1 in Hj. by apply (cnt_zero p_any b _ j) in Hj.
  - set (o := MkOutcome b _ _ _). assert (outcome_ok s o ∧ o_seq o < cur) as Ho.
    { split; [|done]. constructor; cbn; [by rewrite <- B2|done|done|done]. }
    assert (StronglySorted Z.lt ((o_seq <$> w_outcomes (s_w s) ++ [o]) ++ hs)) as Hs.
    { rewrite fmap_app, <- app_assoc. done. }
    assert (Forall (λ o, outcome_ok s o ∧ o_seq o < cur) (w_outcomes (s_w s) ++ [o])) as Hf by (apply Forall_app_2; [done|by apply Forall_cons_2]).
    assert (∀ j, j ∈ s_jobs s → jb_batch j ∈ hs ∨ jb_batch j ∈ o_seq <$> (w_outcomes (s_w s) ++ [o]) ∨ jb_batch j < w_oldestAnswerable (s_w s)) as Hc.
    { intros j Hin. rewrite fmap_app, elem_of_app. destruct (R4 j Hin) as [[Eb|?]%elem_of_cons|[?|?]]; [|tauto..].
      right. left. right. rewrite Eb. by left. }
    set (os := w_outcomes (s_w s) ++ [o]) in *. case_bool_decide as Hlen.
    2: { constructor; [intros ?; by apply batch_ok_w|done|by apply outcomes_ok_w|done]. }
    set (d := Z.to_nat (len os - outcomeHistory)).
    assert (0 < d ≤ length os)%nat as Hd by (unfold d, len, outcomeHistory in *; lia).
    destruct (lookup_lt_is_Some_2 os (d - 1)) as [x Hx]; [lia|]. rewrite Hx.
    constructor; cbn [s_w with_w set_log w_outcomes w_oldestAnswerable s_jobs].
    + intros ?. by apply batch_ok_w.
    + rewrite <- (take_drop d os), fmap_app, <- app_assoc in Hs. by apply StronglySorted_app_1_r in Hs.
    + apply outcomes_ok_w. rewrite <- (take_drop d os) in Hf. by apply Forall_app in Hf as [_ ?].
    + intros j Hin. destruct (Hc j Hin) as [?|[Hm|?]]; [by left| |right; right; lia].
      rewrite <- (take_drop d os), fmap_app, elem_of_app in Hm. destruct Hm as [Hm|Hm]; [|tauto]. right. right.
      apply StronglySorted_app_1_l in Hs. 
      assert (jb_batch j ≤ o_seq x); [|lia]. apply (sorted_take_le (o_seq <$> os) d); [done| |lia|by rewrite <- fmap_take].
      by rewrite list_lookup_fmap, Hx.
Qed.

Lemma drop_ring b hs cur s l :
  ring s (b :: hs) cur →
  ring (with_w (λ w, set_live l (set_log (w_outcomes w) (Z.max (w_oldestAnswerable w) (b + 1)) w)) s) hs cur.
Proof.
  intros [R1 R2 R3 R4]. constructor; [intros ?; by apply batch_ok_w|by eapply sorted_mid|by apply outcomes_ok_w|]. cbn. intros j Hin.
  destruct (R4 j Hin) as [[Eb|?]%elem_of_cons|[?|?]]; [|tauto|tauto|]; right; right; lia.
Qed.

Lemma retireLocked_frame b s :
  s_jobs (retireLocked b s) = s_jobs s ∧ s_heap (retireLocked b s) = s_heap s ∧
  w_batch (s_w (retireLocked b s)) = w_batch (s_w s) ∧
  w_oldestAnswerable (s_w s) ≤ w_oldestAnswerable (s_w (retireLocked b s)) ∧
  (len (w_outcomes (s_w s)) ≤ outcomeHistory → len (w_outcomes (s_w (retireLocked b s))) ≤ outcomeHistory).
Proof.
  unfold retireLocked. repeat case_bool_decide; cbn; split_and!; try done; try lia.
  - destruct (_ !! _); lia.
  - intros _. unfold outcomeHistory in *. rewrite len_drop. len_lia.
Qed.

Lemma retire_loop_ring over cands rest cur : ∀ s,
  ring s (cands ++ rest) cur → Forall (λ b, b < cur) cands →
  let '(s', d) := retire_loop over cands s in
  ring s' (drop d (cands ++ rest)) cur ∧ (d ≤ length cands)%nat ∧ s_jobs s' = s_jobs s ∧
  w_batch (s_w s') = w_batch (s_w s) ∧ w_oldestAnswerable (s_w s) ≤ w_oldestAnswerable (s_w s') ∧
  (len (w_outcomes (s_w s)) ≤ outcomeHistory → len (w_outcomes (s_w s')) ≤ outcomeHistory) ∧
  (over = true → d = length cands).
Proof.
  induction cands as [|b cands IH]; intros s Hr Hc; cbn [retire_loop]; [split_and!; done|].
  apply Forall_cons_1 in Hc as [Hb Hc]. case_bool_decide as Ho.
  - destruct over; cbn [negb]; [|split_and!; try done; simpl; lia].
    specialize (IH _ (drop_ring b (cands ++ rest) cur s (dropFromLiveLocked b (w_live (s_w s))) Hr) Hc).
    unfold with_w in *. cbn [s_w] in *. destruct (retire_loop true cands _) as [s' d].
    destruct IH as (I1 & I2 & I3 & I4 & I5 & I6 & I7). cbn in I3, I4, I5, I6. split_and!; try done; [simpl; lia|lia|].
    intros _. simpl. by rewrite I7.
  - assert (fb_outstanding (batch_of s b) = 0) as H0 by lia. destruct (retireLocked_frame b s) as (F1 & _ & F3 & F4 & F5).
    specialize (IH _ (retire_ring b (cands ++ rest) cur s Hr Hb H0) Hc). destruct (retire_loop over cands _) as [s' d].
    destruct IH as (I1 & I2 & I3 & I4 & I5 & I6 & I7). split_and!; [done|simpl; lia|congruence|congruence|lia|auto|].
    intros Hov. simpl. by rewrite I7.
Qed.

Lemma removelast_snoc {A} (l : list A) x : last l = Some x → l = removelast l ++ [x].
Proof.
  intros Hl. destruct (last_Some l x) as [[k ->] _]; [done|]. by rewrite List.removelast_last.
Qed.

(** The ring once the outgoing batch, if empty, is dropped and the next one is
    pushed. *)
Lemma push_ring s :
  inv s →
  let w := s_w s in
  let hist := if bool_decide (last (w_hist w) = Some (w_batch w) ∧ fb_jobs (batch_of s (w_batch w)) = 0)
              then removelast (w_hist w) else w_hist w in
  ring (MkSys (set_ring (hist ++ [w_nextSeq w + 1]) (w_nextSeq w + 1) w) (<[w_nextSeq w + 1 := new_flushBatch]> (s_heap s)) (s_jobs s))
    (hist ++ [w_nextSeq w + 1]) (w_nextSeq w + 1) ∧ (∀ b, b ∈ hist → b < w_nextSeq w + 1).
Proof.
  intros Hi. pose proof Hi as [I1 I2 I3 I4 I5 I6 I7 I8]. cbv zeta. set (w := s_w s) in *. set (b := w_nextSeq w + 1).
  set (hist := if bool_decide _ then _ else _).
  assert (∀ x, x ∈ hist → x ∈ w_hist w) as Hsub.
  { intros x. unfold hist. case_bool_decide as Hc; [|done]. destruct Hc as [Hl _]. rewrite (removelast_snoc _ _ Hl) at 2.
    rewrite elem_of_app. tauto. }
  assert (∀ x, x ∈ hist → x < b) as Hlt by (intros x Hx%Hsub%I5; lia).
  set (s0 := MkSys _ _ _). split; [|done].
  assert (∀ x, batch_ok s0 x) as Hb.
  { intros x. destruct (decide (x = b)) as [-> |Hne].
    - assert (∀ P, cnt P b (s_jobs s0) = 0) as Hz.
      { intros P. apply cnt_none. intros j Hj E. apply I7 in Hj. lia. }
      assert (batch_of s0 b = new_flushBatch) as Eb by (unfold batch_of, s0; cbn; by rewrite lookup_insert_eq).
      constructor; rewrite Eb, Hz; done.
    - apply (batch_ok_same s); [done| |apply I1]. unfold batch_of, s0. cbn. by rewrite lookup_insert_ne by done. }
  constructor; [done| | |].
  - cbn. rewrite app_assoc. apply StronglySorted_app. split_and!.
    + intros x y Hx ->%list_elem_of_singleton. apply elem_of_app in Hx as [Hx|Hx]; [|by apply Hlt].
      apply list_elem_of_fmap in Hx as (o & -> & Ho). rewrite Forall_forall in I6. destruct (I6 o Ho) as [_ ?]. lia.
    + unfold hist. case_bool_decide as Hc; [|done]. destruct Hc as [Hl _]. rewrite (removelast_snoc _ _ Hl), app_assoc in I4.
      by apply StronglySorted_app_1_l in I4.
    + repeat constructor.
  - eapply Forall_impl; [exact I6|]. intros o [[] ?]. split; [by constructor|cbn; lia].
  - cbn. intros j Hj. rewrite elem_of_app. destruct (I8 j Hj) as [Hh|[?|?]]; [|tauto..].
    unfold hist. case_bool_decide as Hc; [|tauto]. destruct Hc as [Hl H0]. rewrite (removelast_snoc _ _ Hl), elem_of_app in Hh.
    destruct Hh as [?|Hh%list_elem_of_singleton]; [tauto|]. exfalso.
    rewrite (bk_jobs _ _ (I1 (w_batch w))) in H0. by pose proof (cnt_zero p_any (w_batch w) (s_jobs s) j H0 Hj Hh).
Qed.

Lemma swap_inv s :
  inv s → let s' := swap_batch s in
  inv s' ∧ grows s s' ∧ w_batch (s_w s) < w_batch (s_w s') ∧ s_jobs s' = s_jobs s ∧
  w_oldestAnswerable (s_w s) ≤ w_oldestAnswerable (s_w s').
Proof.
  intros Hi. destruct (push_ring s Hi) as [Hr Hlt]. cbv zeta. unfold swap_batch, newBatchLocked. cbv zeta in *.
  set (w := s_w s) in *. set (b := w_nextSeq w + 1) in *. set (hist := if bool_decide (last _ = _ ∧ _) then _ else _) in *.
  set (s0 := MkSys _ _ _) in *.
  assert (w_batch w < b) as Hbw by (pose proof (in_current s Hi) as Hcur; fold w in Hcur; unfold b; lia).
  assert (∀ s1 hs, ring s1 hs b → b ∈ hs → (∀ x, x ∈ hs → x ≤ b) → s_jobs s1 = s_jobs s → w_nextSeq (s_w s1) = b → w_hist (s_w s1) = hs →
    w_oldestAnswerable w ≤ w_oldestAnswerable (s_w s1) →
    let s' := with_w (set_current b) s1 in
    inv s' ∧ grows s s' ∧ w_batch w < w_batch (s_w s') ∧ s_jobs s' = s_jobs s ∧ w_oldestAnswerable w ≤ w_oldestAnswerable (s_w s')) as Hfin.
  { intros s1 hs [R1 R2 R3 R4] Hin Hup Ej En Eh Eo. cbv zeta. split_and!; [|apply grows_refl; [done|cbn; fold w; lia]|done|done|done].
    constructor; cbn; rewrite ?Eh; try done.
    - intros x. by apply batch_ok_w.
    - by apply outcomes_ok_w.
    - intros j Hj. rewrite Ej in Hj. pose proof (in_jobs s Hi j Hj) as Hjb. fold w in Hjb. lia. }
  assert (∀ x, x ∈ hist ++ [b] → x ≤ b) as Hup.
  { intros x [Hx|Hx]%elem_of_app; [apply Hlt in Hx; lia|]. apply list_elem_of_singleton in Hx. lia. }
  case_bool_decide as Hlen.
  - set (k := Z.to_nat (len (hist ++ [b]) - batchHistory)).
    assert (k ≤ length hist)%nat as Hk by (unfold k, len, batchHistory in *; rewrite length_app in *; simpl in *; lia).
    pose proof (retire_loop_ring (bool_decide (maxHistory < len (hist ++ [b]))) (take k (hist ++ [b])) (drop k (hist ++ [b])) b s0) as Hl.
    rewrite take_drop in Hl. specialize (Hl Hr). destruct (retire_loop _ _ _) as [s1 d].
    destruct Hl as (L1 & L2 & L3 & L4 & L5 & _ & _).
    { apply Forall_forall. intros x Hx. rewrite take_app_le in Hx by done.
      apply Hlt. by eapply subseteq_take. }
    rewrite length_take in L2.
    apply (Hfin (with_w (set_ring (drop d (hist ++ [b])) b) s1) (drop d (hist ++ [b]))); try done.
    + destruct L1 as [R1 R2 R3 R4]. constructor; [intros ?; by apply batch_ok_w|done|by apply outcomes_ok_w|done].
    + rewrite drop_app_le by lia. apply elem_of_app. right. by left.
    + intros x Hx. apply Hup. by eapply subseteq_drop.
  - apply (Hfin s0 (hist ++ [b])); try done. apply elem_of_app. right. by left.
Qed.

(** ** What a call knows *)

(** Over the batches [bs]. *)
Definition tot (P : phase → bool) (bs : list Z) (js : list job) : Z := foldr (λ b n, cnt P b js + n) 0 bs.

Lemma tot_nonneg P bs js : 0 ≤ tot P bs js.
Proof. induction bs as [|b bs IH]; [done|]. cbn. fold (tot P bs js). pose proof (cnt_nonneg P b js). lia. Qed.
Lemma tot_elem P bs js b : b ∈ bs → cnt P b js ≤ tot P bs js.
Proof.
  induction bs as [|x bs IH]; [by intros ?%elem_of_nil|]. cbn. fold (tot P bs js).
  pose proof (cnt_nonneg P x js). pose proof (tot_nonneg P bs js). intros [-> |Hb]%elem_of_cons; [lia|]. specialize (IH Hb). lia.
Qed.
Lemma tot_gap P Q bs js b :
  (∀ p, P p = true → Q p = true) → b ∈ bs → cnt Q b js - cnt P b js ≤ tot Q bs js - tot P bs js.
Proof.
  intros H. induction bs as [|x bs IH]; [by intros ?%elem_of_nil|]. cbn. fold (tot P bs js) (tot Q bs js).
  pose proof (cnt_le P Q x js H). assert (tot P bs js ≤ tot Q bs js).
  { clear IH. induction bs as [|y bs IH]; [done|]. cbn. fold (tot P bs js) (tot Q bs js). pose proof (cnt_le P Q y js H). lia. }
  intros [-> |Hb]%elem_of_cons; [lia|]. specialize (IH Hb). lia.
Qed.

Record call_ok (s : sys) (m : Z) (c : call) : Prop := {
  co_len : (c_jobs c ≤ length (s_jobs s))%nat;
  co_cover i j : (i < c_jobs c)%nat → s_jobs s !! i = Some j → m ≤ jb_batch j → jb_batch j ∈ c_wait c ∨ jb_batch j ∈ c_seen c;
  co_old b : b ∈ c_wait c ∨ b ∈ c_seen c → b < w_batch (s_w s);
  co_final b : b ∈ c_seen c → cnt p_pending b (s_jobs s) = 0;
  co_total : ta_total (c_tally c) = tot p_any (c_seen c) (s_jobs s);
  co_failed : ta_failed (c_tally c) = tot p_counted (c_seen c) (s_jobs s);
  co_first : ta_first (c_tally c) = None ↔ tot p_erred (c_seen c) (s_jobs s) = 0;
  co_result r : c_result c = Some r → c_wait c = [] ∧ r = tally_result (c_tally c) }.

(** A refusal says nothing of the rows: it is one of the two typed errors. *)
Definition refused (c : call) : Prop := c_result c = Some (Some closed_error) ∨ c_result c = Some (Some unknown_error).
Definition calls_ok (s : sys) (cs : list call) : Prop :=
  ∀ k c m, cs !! k = Some c → c_mark c = Some m → refused c ∨ call_ok s m c.

Lemma tot_grows P s s' bs :
  settled P → grows s s' → (∀ b, b ∈ bs → b < w_batch (s_w s) ∧ cnt p_pending b (s_jobs s) = 0) →
  tot P bs (s_jobs s') = tot P bs (s_jobs s).
Proof.
  intros HP Hg. induction bs as [|b bs IH]; intros Hb; [done|]. cbn. fold (tot P bs (s_jobs s')) (tot P bs (s_jobs s)).
  rewrite IH by (intros x Hx; apply Hb; by right). destruct (Hb b ltac:(left)). by rewrite (cnt_grows P b s s').
Qed.

Lemma call_ok_grows s s' m c : grows s s' → call_ok s m c → call_ok s' m c.
Proof.
  intros Hg [C1 C2 C3 C4 C5 C6 C7 C8]. pose proof (gr_batch _ _ Hg) as Hb.
  destruct (gr_jobs _ _ Hg) as (old & new & Ej & Ho & Hn). pose proof (Forall2_length _ _ _ Ho) as Hlo.
  assert (∀ b, b ∈ c_seen c → b < w_batch (s_w s) ∧ cnt p_pending b (s_jobs s) = 0) as Hseen by (intros b Hx; auto).
  constructor; try done.
  - rewrite Ej, length_app. lia.
  - intros i j' Hi Hj' Hm. rewrite Ej, lookup_app_l in Hj' by lia.
    destruct (Forall2_lookup_r _ _ _ _ _ Ho Hj') as (j & Hj & Eb & _). rewrite Eb in *. by apply (C2 i j).
  - intros b Hx. specialize (C3 b Hx). lia.
  - intros b Hx. rewrite (cnt_grows p_pending b s s'); auto with simdlogs; by apply Hseen.
  - rewrite C5. symmetry. by apply tot_grows.
  - rewrite C6. symmetry. apply tot_grows; auto with simdlogs.
  - rewrite C7, (tot_grows p_erred s s'); auto with simdlogs.
Qed.
Lemma calls_ok_grows s s' cs : grows s s' → calls_ok s cs → calls_ok s' cs.
Proof. intros Hg H k c m Hc Hm. destruct (H k c m Hc Hm); [by left|right; by eapply call_ok_grows]. Qed.

Lemma tally_outcomes s os : Forall (outcome_ok s) os → ∀ t,
  let t' := foldl (λ t o, add_counts (o_jobs o) (o_failed o) (o_err o) t) t os in let bs := o_seq <$> os in
  ta_total t' = ta_total t + tot p_any bs (s_jobs s) ∧ ta_failed t' = ta_failed t + tot p_counted bs (s_jobs s) ∧
  (ta_first t' = None ↔ ta_first t = None ∧ tot p_erred bs (s_jobs s) = 0).
Proof.
  induction 1 as [|o os [O1 O2 O3 O4] _ IH]; intros t; cbn [foldl]; [cbn; split_and!; [lia|lia|tauto]|].
  specialize (IH (add_counts (o_jobs o) (o_failed o) (o_err o) t)). cbv zeta in *. rewrite fmap_cons. cbn [tot foldr].
  fold (tot p_any (o_seq <$> os) (s_jobs s)) (tot p_counted (o_seq <$> os) (s_jobs s)) (tot p_erred (o_seq <$> os) (s_jobs s)).
  destruct IH as (-> & -> & ->). cbn [add_counts ta_total ta_failed ta_first]. split_and!; [lia|lia|].
  pose proof (cnt_nonneg p_erred (o_seq o) (s_jobs s)). pose proof (tot_nonneg p_erred (o_seq <$> os) (s_jobs s)).
  destruct (ta_first t); [split; [by intros [? _]|by intros [? _]]|]. rewrite O4. split; [intros [? ?]; split; [done|lia]|intros [_ ?]; lia].
Qed.

Lemma elem_filter_le (m : Z) l b : b ∈ List.filter (λ x, bool_decide (m ≤ x)) l ↔ m ≤ b ∧ b ∈ l.
Proof. by rewrite elem_of_filter_bool, bool_decide_eq_true. Qed.

(** A [FlushMark] that waits knows where every job handed out so far is. *)
Lemma mark_call_ok s m wait :
  inv s → w_oldestAnswerable (s_w s) ≤ m → wait = List.filter (λ b, bool_decide (m ≤ b)) (w_hist (s_w s)) →
  call_ok (swap_batch s) m (MkCall (Some m) (length (s_jobs (swap_batch s))) wait (retired_since m s)
    (tally_retired (List.filter (λ o, bool_decide (m ≤ o_seq o)) (w_outcomes (s_w s)))) None).
Proof.
  intros Hi Hm ->. destruct (swap_inv s Hi) as (_ & _ & Hlt & Ej & _).
  set (os := List.filter (λ o, bool_decide (m ≤ o_seq o)) (w_outcomes (s_w s))).
  assert (∀ o, o ∈ os ↔ m ≤ o_seq o ∧ o ∈ w_outcomes (s_w s)) as Hos by (intros o; unfold os; by rewrite elem_of_filter_bool, bool_decide_eq_true).
  pose proof (in_outcomes s Hi) as Hoc. rewrite Forall_forall in Hoc.
  assert (Forall (outcome_ok s) os) as Hok by (apply Forall_forall; intros o [_ Ho]%Hos; by apply Hoc).
  pose proof (tally_outcomes s os Hok (MkTally None 0 0)) as (T1 & T2 & T3). cbv zeta in *. cbn [ta_total ta_failed ta_first] in T1, T2, T3.
  constructor; cbn [c_jobs c_wait c_seen c_tally c_result]; rewrite ?Ej; unfold retired_since; fold os; unfold tally_retired.
  - done.
  - intros i j _ Hj Hmj. apply list_elem_of_lookup_2 in Hj. rewrite elem_filter_le, list_elem_of_fmap.
    destruct (in_cover s Hi j Hj) as [?|[(o & E & Ho)%list_elem_of_fmap|?]]; [by left| |lia].
    right. exists o. split; [done|]. apply Hos. split; [lia|done].
  - intros b [[_ Hb%(in_upper s Hi)]%elem_filter_le|(o & -> & [_ Ho]%Hos)%list_elem_of_fmap]; [lia|]. destruct (Hoc o Ho). lia.
  - intros b (o & -> & [_ Ho]%Hos)%list_elem_of_fmap. destruct (Hoc o Ho) as [[] _]. done.
  - rewrite T1. lia.
  - rewrite T2. lia.
  - rewrite T3. tauto.
  - done.
Qed.

Lemma await_call_ok s m nj b wait seen t :
  inv s → fb_wg (batch_of s b) = 0 → call_ok s m (MkCall (Some m) nj (b :: wait) seen t None) →
  call_ok s m (MkCall (Some m) nj wait (b :: seen) (tally_batch (batch_of s b) t) None).
Proof.
  intros Hi Hw [C1 C2 C3 C4 C5 C6 C7 C8]. cbn [c_jobs c_wait c_seen c_tally c_result] in *.
  destruct (in_batches s Hi b) as [B1 B2 B3 B4 B5].
  assert (cnt p_pending b (s_jobs s) = 0) as Hp.
  { pose proof (cnt_le p_pending p_unfinished b (s_jobs s) ltac:(by intros [])). pose proof (cnt_nonneg p_pending b (s_jobs s)). lia. }
  constructor; cbn [c_jobs c_wait c_seen c_tally c_result tally_batch add_counts ta_total ta_failed ta_first tot foldr]; try done.
  - intros i j Hlt Hj Hm. destruct (C2 i j Hlt Hj Hm) as [[->|?]%elem_of_cons|?]; rewrite ?elem_of_cons; auto.
  - intros x [Hx|[->|Hx]%elem_of_cons]; apply C3; rewrite ?elem_of_cons; auto.
  - intros x [->|Hx]%elem_of_cons; auto.
  - fold (tot p_any seen (s_jobs s)). lia.
  - fold (tot p_counted seen (s_jobs s)). lia.
  - fold (tot p_erred seen (s_jobs s)). pose proof (cnt_nonneg p_erred b (s_jobs s)). pose proof (tot_nonneg p_erred seen (s_jobs s)).
    destruct (ta_first t) as [e|]; [split; [done|]; intros; exfalso; enough (Some e = None) by done; apply C7; lia|].
    rewrite B5. assert (tot p_erred seen (s_jobs s) = 0) by (by apply C7). lia.
Qed.

Section preservation.
Context {M : MapRange}.

Lemma frame_simple f s :
  (∀ w, w_batch (f w) = w_batch w ∧ w_nextSeq (f w) = w_nextSeq w ∧ w_hist (f w) = w_hist w ∧
        w_outcomes (f w) = w_outcomes w ∧ w_oldestAnswerable (f w) = w_oldestAnswerable w) →
  inv s → inv (with_w f s) ∧ grows s (with_w f s).
Proof. intros Hf. by apply frame_inv, frame_w. Qed.

Lemma grows_trans s1 s2 s3 : grows s1 s2 → grows s2 s3 → grows s1 s3.
Proof.
  intros [B1 (o1 & n1 & E1 & F1 & H1)] [B2 (o2 & n2 & E2 & F2 & H2)]. constructor; [lia|].
  rewrite E1 in F2. apply Forall2_app_inv_l in F2 as (o2a & o2b & Fa & Fb & ->). exists o2a, (o2b ++ n2).
  rewrite E2, app_assoc. split_and!; [done| |].
  - clear -F1 Fa. revert o2a Fa. induction F1 as [|j j' js js' [Eb Ef] _ IH]; intros l Fa; inversion Fa as [|x y xs ys [Eb' Ef'] Fr]; subst; constructor.
    + split; [congruence|]. intros Hp. destruct (Ef Hp) as [Hp' He]. destruct (Ef' Hp') as [Hp'' He']. split; [done|congruence].
    + by apply IH.
  - apply Forall_app_2.
    + apply Forall_forall. intros j [i Hi]%list_elem_of_lookup. destruct (Forall2_lookup_r _ _ _ _ _ Fb Hi) as (j0 & Hj0 & Eb & _).
      rewrite Forall_forall in H1. rewrite Eb. apply H1. by eapply list_elem_of_lookup_2.
    + eapply Forall_impl; [exact H2|]. intros j Hj. cbn in *. lia.
Qed.

Lemma addVec_inv now now' ts f ov vecs s : inv s → inv (addVec now now' ts f ov vecs s) ∧ grows s (addVec now now' ts f ov vecs s).
Proof.
  intros Hi. unfold addVec. destruct (w_closed (s_w s)); [split; [done|by apply grows_refl]|].
  set (s1 := with_w _ s). destruct (frame_simple (set_buf (add_row (w_cfg (s_w s)) ts f ov vecs (w_buf (s_w s))) (w_lastFlsh (s_w s))) s) as [I1 G1]; [done..|].
  destruct (must_flush _ _ _); [|done]. destruct (flushLocked_inv now' s1 I1) as (I2 & G2 & _). split; [done|by eapply grows_trans].
Qed.

(** The lock sections of the three flushes. *)
Lemma flush_swap_inv now s : inv s → let s' := swap_batch (flushLocked now s) in inv s' ∧ grows s s'.
Proof.
  intros Hi. destruct (flushLocked_inv now s Hi) as (I1 & G1 & _). destruct (swap_inv _ I1) as (I2 & G2 & _).
  split; [done|by eapply grows_trans].
Qed.
Lemma carry_inv id now s s' l rode : inv s → flushCarrying_lock id now s = (s', l, rode) → inv s' ∧ grows s s'.
Proof.
  intros Hi. unfold flushCarrying_lock. destruct (w_closed (s_w s)); [intros [= <- _ _]; split; [done|by apply grows_refl]|].
  set (s1 := if bool_decide (b_ts _ ≠ [] ∧ _) then _ else s).
  assert (inv s1 ∧ grows s s1) as [I1 G1].
  { unfold s1. case_bool_decide; [by apply frame_simple|split; [done|by apply grows_refl]]. }
  destruct (flushLocked_inv now s1 I1) as (I2 & G2 & _). set (s2 := flushLocked now s1) in *.
  case_bool_decide; intros [= <- _ _].
  - destruct (frame_simple (set_receipt []) s2) as [I3 G3]; [done..|]. destruct (swap_inv _ I3) as (I4 & G4 & _).
    split; [done|]. eapply grows_trans; [|exact G4]. eapply grows_trans; [|exact G3]. by eapply grows_trans.
  - destruct (swap_inv _ I2) as (I4 & G4 & _). split; [done|]. eapply grows_trans; [|exact G4]. by eapply grows_trans.
Qed.

Lemma calls_ok_snoc s cs c : calls_ok s cs → (∀ m, c_mark c = Some m → refused c ∨ call_ok s m c) → calls_ok s (cs ++ [c]).
Proof.
  intros H Hc k x m Hx Hm. destruct (decide (k < length cs)%nat); [rewrite lookup_app_l in Hx by done; by apply (H k)|].
  rewrite lookup_app_r in Hx by lia. destruct (k - length cs)%nat; [|done]. injection Hx as <-. by apply Hc.
Qed.
Lemma calls_ok_insert s cs k c : calls_ok s cs → (∀ m, c_mark c = Some m → refused c ∨ call_ok s m c) → calls_ok s (<[k := c]> cs).
Proof.
  intros H Hc i x m Hx Hm. apply list_lookup_insert_Some in Hx as [(-> & <- & _)|[_ Hx]]; [by apply Hc|by apply (H i)].
Qed.

Lemma step_inv s cs s' cs' :
  step (s, cs) (s', cs') → inv s → calls_ok s cs → inv s' ∧ calls_ok s' cs' ∧ grows s s'.
Proof.
  intros Hs Hi Hc. inversion Hs as
    [? ? now now' ts f ov vecs|? ? now ? l E|? ? m now ? l E|? ? id now ? l rode E|? ? k m nj b wait seen t Hk Hw|? ? k m nj seen t Hk| |? ? i e ? E]; subst.
  - destruct (addVec_inv now now' ts f ov vecs s Hi) as [I G]. split_and!; [done|by eapply calls_ok_grows|done].
  - assert (inv s' ∧ grows s s') as [I G].
    { unfold Flush_lock in E. destruct (w_closed (s_w s)); injection E as <- <-; [split; [done|by apply grows_refl]|by apply flush_swap_inv]. }
    split_and!; [done| |done]. apply calls_ok_snoc; [by eapply calls_ok_grows|]. intros m. by destruct l.
  - unfold FlushMark_lock in E. destruct (w_closed (s_w s)); injection E as <- <-.
    { split_and!; [done| |by apply grows_refl]. apply calls_ok_snoc; [done|]. intros m' _. left. by left. }
    destruct (flushLocked_inv now s Hi) as (I1 & G1 & _). destruct (flush_swap_inv now s Hi) as [I G].
    split_and!; [done| |done]. apply calls_ok_snoc; [by eapply calls_ok_grows|]. intros m' Hm'.
    case_bool_decide as Hu; [left; by right|right]. injection Hm' as <-. apply mark_call_ok; [done|lia|done].
  - destruct (carry_inv id now s s' l rode Hi E) as [I G]. split_and!; [done| |done].
    apply calls_ok_snoc; [by eapply calls_ok_grows|]. intros m. by destruct l.
  - destruct (frame_inv s _ (frame_done b s) Hi) as [I G]. split_and!; [done| |done].
    apply calls_ok_insert; [by eapply calls_ok_grows|]. intros m' [= ->]. destruct (Hc k _ m' Hk eq_refl) as [[?|?]|Hok]; [done..|].
    right. apply (call_ok_grows s); [done|]. by apply await_call_ok.
  - destruct (frame_simple (λ w, set_live (List.filter (λ b, negb (fb_done (batch_of s b))) (w_live w)) w) s) as [I G]; [done..|].
    split_and!; [done| |done]. apply calls_ok_insert; [by eapply calls_ok_grows|]. intros m' [= ->].
    destruct (Hc k _ m' Hk eq_refl) as [[?|?]|Hok]; [done..|]. right. apply (call_ok_grows s); [done|].
    destruct Hok. constructor; try done. intros r [= <-]. done.
  - destruct (frame_simple set_closed s) as [I G]; [done..|]. split_and!; [done|by eapply calls_ok_grows|done].
  - destruct (worker_inv i e s s' Hi E) as [I G]. split_and!; [done|by eapply calls_ok_grows|done].
Qed.

Lemma steps_inv x y : rtc step x y → inv x.1 → calls_ok x.1 x.2 → inv y.1 ∧ calls_ok y.1 y.2 ∧ grows x.1 y.1.
Proof.
  induction 1 as [[s cs]|[s cs] [s1 cs1] [s2 cs2] H1 _ IH]; intros Hi Hc; cbn [fst snd] in *.
  - split_and!; [done|done|by apply grows_refl].
  - destruct (step_inv s cs s1 cs1 H1 Hi Hc) as (I1 & C1 & G1). destruct (IH I1 C1) as (I2 & C2 & G2).
    split_and!; [done|done|by eapply grows_trans].
Qed.
Lemma reachable_inv c s cs : reachable c s cs → inv s ∧ calls_ok s cs.
Proof. intros [now H]. destruct (steps_inv _ _ H) as (I & C & _); [apply inv_new|by intros k|done]. Qed.

(** The jobs handed out since a state carry at least its mark. *)
Lemma jobs_since s cs s' cs' i j :
  inv s → calls_ok s cs → rtc step (s, cs) (s', cs') → (length (s_jobs s) ≤ i)%nat → s_jobs s' !! i = Some j → Mark s ≤ jb_batch j.
Proof.
  intros Hi Hc H Hl Hj. destruct (steps_inv _ _ H Hi Hc) as (_ & _ & [_ (old & new & Ej & Ho & Hn)]). cbn [fst] in *.
  rewrite Ej, lookup_app_r in Hj by (rewrite <- (Forall2_length _ _ _ Ho); lia).
  rewrite Forall_forall in Hn. apply Hn. by eapply list_elem_of_lookup_2.
Qed.

(** C22: a writer never says success for rows that were lost. In any interleaving
    of callers and workers: take a mark, let any rows be added and any number of
    other flushes happen, and call [FlushMark] with it. If it returns nil, every
    group handed to the pool since the mark, up to the one its own flush handed
    over, has been stored. *)
Theorem FlushMark_nil_stored c s0 cs0 s cs k cl :
  reachable c s0 cs0 → rtc step (s0, cs0) (s, cs) →
  cs !! k = Some cl → c_mark cl = Some (Mark s0) → c_result cl = Some None →
  ∀ i j, (length (s_jobs s0) ≤ i < c_jobs cl)%nat → s_jobs s !! i = Some j →
    jb_phase j = Out true ∨ jb_phase j = Finished true.
Proof.
  intros Hr H Hk Hm Hres i j Hi Hj. destruct (reachable_inv c s0 cs0 Hr) as [I0 K0].
  destruct (steps_inv _ _ H I0 K0) as (I & C & _). cbn [fst snd] in *.
  assert (Mark s0 ≤ jb_batch j) as Hb by (apply (jobs_since s0 cs0 s cs i j); (done || lia)).
  destruct (C k cl _ Hk Hm) as [[Hx|Hx]|[K1 K2 K3 K4 K5 K6 K7 K8]]; [by rewrite Hres in Hx..|].
  destruct (K8 None Hres) as [Ew Et]. unfold tally_result in Et. destruct (ta_first (c_tally cl)) eqn:Ef; [done|].
  destruct (K2 i j ltac:(lia) Hj Hb) as [Hin|Hin]; [rewrite Ew in Hin; by apply elem_of_nil in Hin|].
  apply list_elem_of_lookup_2 in Hj. pose proof (cnt_zero _ _ _ j (K4 _ Hin) Hj eq_refl) as Hp.
  pose proof (tot_elem p_erred _ (s_jobs s) _ Hin) as Ht. pose proof (cnt_nonneg p_erred (jb_batch j) (s_jobs s)) as Hn.
  assert (tot p_erred (c_seen cl) (s_jobs s) = 0) as H0 by (by apply K7).
  pose proof (cnt_zero p_erred (jb_batch j) (s_jobs s) j ltac:(lia) Hj eq_refl) as He.
  destruct (jb_phase j) as [| | | |[]|[]]; cbn in *; try done; auto.
Qed.

(** a failed flush that is not reported partial is clean: when [FlushMark]
    returns an error whose [Partial] is false, every group handed to the pool
    since the mark failed, so a retry of the payload duplicates nothing. *)
Theorem FlushMark_clean_retry c s0 cs0 s cs k cl e :
  reachable c s0 cs0 → rtc step (s0, cs0) (s, cs) →
  cs !! k = Some cl → c_mark cl = Some (Mark s0) → c_result cl = Some (Some e) → DuplicatesOnRetry e = false →
  ∀ i j, (length (s_jobs s0) ≤ i < c_jobs cl)%nat → s_jobs s !! i = Some j →
    jb_phase j = Out false ∨ jb_phase j = Finished false.
Proof.
  intros Hr H Hk Hm Hres He i j Hi Hj. destruct (reachable_inv c s0 cs0 Hr) as [I0 K0].
  destruct (steps_inv _ _ H I0 K0) as (I & C & _). cbn [fst snd] in *.
  assert (Mark s0 ≤ jb_batch j) as Hb by (apply (jobs_since s0 cs0 s cs i j); (done || lia)).
  destruct (C k cl _ Hk Hm) as [[Hx|Hx]|[K1 K2 K3 K4 K5 K6 K7 K8]]; [rewrite Hres in Hx; injection Hx as ->; done..|].
  destruct (K8 _ Hres) as [Ew Et]. unfold tally_result in Et. destruct (ta_first (c_tally cl)) as [e0|] eqn:Ef; [|done].
  injection Et as ->. cbn in He. apply bool_decide_eq_false in He.
  destruct (K2 i j ltac:(lia) Hj Hb) as [Hin|Hin]; [rewrite Ew in Hin; by apply elem_of_nil in Hin|].
  assert (tot p_counted (c_seen cl) (s_jobs s) = tot p_erred (c_seen cl) (s_jobs s)) as Ece.
  { clear -K4. induction (c_seen cl) as [|b bs IH]; [done|]. cbn. fold (tot p_counted bs (s_jobs s)) (tot p_erred bs (s_jobs s)).
    rewrite IH by (intros x Hx; apply K4; by right). f_equal. apply cnt_settled, K4. by left. }
  assert (tot p_erred (c_seen cl) (s_jobs s) ≠ 0) as Hne by (intros H0; apply K7 in H0; congruence).
  pose proof (tot_nonneg p_erred (c_seen cl) (s_jobs s)) as Hnn.
  assert (tot p_any (c_seen cl) (s_jobs s) ≤ tot p_counted (c_seen cl) (s_jobs s)) as Hle.
  { destruct (decide (tot p_any (c_seen cl) (s_jobs s) ≤ tot p_counted (c_seen cl) (s_jobs s))); [done|]. exfalso. apply He. lia. }
  pose proof (tot_gap p_counted p_any (c_seen cl) (s_jobs s) (jb_batch j) ltac:(done) Hin) as Hg.
  apply list_elem_of_lookup_2 in Hj. pose proof (cnt_zero _ _ _ j (K4 _ Hin) Hj eq_refl) as Hp.
  assert (p_counted (jb_phase j) = true) as Hc.
  { apply (cnt_full p_counted p_any (jb_batch j) (s_jobs s)); try done. lia. }
  destruct (jb_phase j) as [| | | |[]|[]]; cbn in *; try done; auto.
Qed.

(** *** The rings are bounded *)

Record bounded (w : Writer) : Prop := {
  bo_hist : len (w_hist w) ≤ maxHistory;
  bo_outcomes : len (w_outcomes w) ≤ outcomeHistory }.
(** The watermark, which never goes back, and the bounds. *)
Definition advances (w w' : Writer) : Prop :=
  w_oldestAnswerable w ≤ w_oldestAnswerable w' ∧ (bounded w → bounded w').

Lemma advances_same w w' :
  w_hist w' = w_hist w → w_outcomes w' = w_outcomes w → w_oldestAnswerable w' = w_oldestAnswerable w → advances w w'.
Proof. intros E1 E2 E3. split; [lia|]. intros []. constructor; [by rewrite E1|by rewrite E2]. Qed.
Lemma advances_trans w1 w2 w3 : advances w1 w2 → advances w2 w3 → advances w1 w3.
Proof. intros [A1 A2] [B1 B2]. split; [lia|auto]. Qed.

Lemma flushLocked_advances now s : advances (s_w s) (s_w (flushLocked now s)).
Proof. unfold flushLocked. case_bool_decide; by apply advances_same. Qed.

Lemma removelast_len {A} (l : list A) : len (removelast l) ≤ len l.
Proof. unfold len. induction l as [|x [|y l] IH]; cbn in *; lia. Qed.

Lemma swap_advances s : inv s → advances (s_w s) (s_w (swap_batch s)).
Proof.
  intros Hi. destruct (swap_inv s Hi) as (_ & _ & _ & _ & Ho). split; [done|]. clear Ho. intros [B1 B2].
  destruct (push_ring s Hi) as [Hr Hlt]. unfold swap_batch, newBatchLocked in *. cbv zeta in *.
  set (w := s_w s) in *. set (b := w_nextSeq w + 1) in *. set (hist := if bool_decide (last _ = _ ∧ _) then _ else _) in *.
  set (s0 := MkSys _ _ _) in *.
  assert (len hist ≤ len (w_hist w)) as Hh by (unfold hist; case_bool_decide; [apply removelast_len|lia]).
  assert (len (hist ++ [b]) = len hist + 1) as El by (rewrite len_app, len_cons; len_nil; lia).
  unfold batchHistory, maxHistory in *. case_bool_decide as Hlen.
  - set (k := Z.to_nat (len (hist ++ [b]) - 64)) in *.
    pose proof (retire_loop_ring (bool_decide (4096 < len (hist ++ [b]))) (take k (hist ++ [b])) (drop k (hist ++ [b])) b s0) as Hl.
    rewrite take_drop in Hl. specialize (Hl Hr). destruct (retire_loop _ _ _) as [s1 d].
    destruct Hl as (_ & L2 & _ & _ & _ & L6 & L7).
    { apply Forall_forall. intros x Hx. rewrite take_app_le in Hx by (unfold k, len in *; rewrite length_app in *; simpl in *; lia).
      apply Hlt. by eapply subseteq_take. }
    constructor; cbn; [|by apply L6]. rewrite len_drop. unfold maxHistory. rewrite length_take in L2, L7.
    case_bool_decide; [rewrite L7 by done|]; unfold k, len in *; lia.
  - constructor; cbn; [unfold maxHistory; lia|done].
Qed.

Lemma worker_w i e s s' : worker_op i e s = Some s' → s_w s' = s_w s.
Proof.
  unfold worker_op. destruct (s_jobs s !! i) as [j|]; [|done].
  destruct (jb_phase j); [destruct e|..]; by intros [= <-].
Qed.

Lemma carry_advances id now s s' l rode : inv s → flushCarrying_lock id now s = (s', l, rode) → advances (s_w s) (s_w s').
Proof.
  intros Hi. unfold flushCarrying_lock. destruct (w_closed (s_w s)); [intros [= <- _ _]; by apply advances_same|].
  set (s1 := if bool_decide (b_ts _ ≠ [] ∧ _) then _ else s).
  assert (inv s1 ∧ advances (s_w s) (s_w s1)) as [I1 A1].
  { unfold s1. case_bool_decide; (split; [|by apply advances_same]); [by apply frame_simple|done]. }
  destruct (flushLocked_inv now s1 I1) as (I2 & _). pose proof (flushLocked_advances now s1) as A2.
  case_bool_decide; intros [= <- _ _].
  - destruct (frame_simple (set_receipt []) (flushLocked now s1)) as [I3 _]; [done..|].
    eapply advances_trans; [exact A1|]. eapply advances_trans; [exact A2|].
    eapply advances_trans; [|by apply swap_advances]. by apply advances_same.
  - eapply advances_trans; [exact A1|]. eapply advances_trans; [exact A2|]. by apply swap_advances.
Qed.

Lemma step_advances s cs s' cs' : step (s, cs) (s', cs') → inv s → advances (s_w s) (s_w s').
Proof.
  intros Hs Hi. inversion Hs as
    [? ? now now' ts f ov vecs|? ? now ? l E|? ? m now ? l E|? ? id now ? l rode E|? ? k m nj b wait seen t Hk Hw|? ? k m nj seen t Hk| |? ? i e ? E]; subst;
    try (by apply advances_same).
  - unfold addVec. destruct (w_closed (s_w s)); [by apply advances_same|]. destruct (must_flush _ _ _); [|by apply advances_same].
    eapply advances_trans; [|apply flushLocked_advances]. by apply advances_same.
  - unfold Flush_lock in E. destruct (w_closed (s_w s)); injection E as <- _; [by apply advances_same|].
    destruct (flushLocked_inv now s Hi) as (I1 & _). eapply advances_trans; [apply flushLocked_advances|by apply swap_advances].
  - unfold FlushMark_lock in E. destruct (w_closed (s_w s)); injection E as <- _; [by apply advances_same|].
    destruct (flushLocked_inv now s Hi) as (I1 & _). eapply advances_trans; [apply flushLocked_advances|by apply swap_advances].
  - by eapply carry_advances.
  - apply worker_w in E. apply advances_same; by rewrite E.
Qed.

(** the writer's memory of past batches is bounded, and its watermark only
    rises: in any interleaving the ring never holds more than [maxHistory]
    batches and the log never more than [outcomeHistory] outcomes, and no step
    lowers [oldestAnswerable]. *)
Theorem rings_bounded c s cs :
  reachable c s cs →
  bounded (s_w s) ∧ ∀ s' cs', step (s, cs) (s', cs') → w_oldestAnswerable (s_w s) ≤ w_oldestAnswerable (s_w s').
Proof.
  intros [now H]. assert (∀ x y, rtc step x y → inv x.1 → calls_ok x.1 x.2 → bounded (s_w x.1) → bounded (s_w y.1) ∧ inv y.1) as Hall.
  { induction 1 as [|[s1 c1] [s2 c2] y H1 _ IH]; intros Hi Hc Hb; [done|]. cbn [fst snd] in *.
    destruct (step_inv s1 c1 s2 c2 H1 Hi Hc) as (I1 & C1 & _). destruct (step_advances s1 c1 s2 c2 H1 Hi) as [_ A]. auto. }
  destruct (Hall _ _ H (inv_new c now)) as [Hb Hi]; [by intros k|by constructor|]. split; [done|].
  intros s' cs' Hs. by destruct (step_advances s cs s' cs' Hs Hi).
Qed.
End preservation.

(** ** A trace *)

Section trace.
#[local] Existing Instance ref_range.

Definition plain_config : config := Config [] ∅ no_limits false.
Definition one_field (k v : bytes) : gmap bytes bytes := {[ k := v ]}.

(** A record that arrives two seconds after the last flush is flushed at once;
    its group fails; another caller's [Flush] hears of it; then a second record
    of the same write is buffered. *)
Definition trace_states : sys * list call :=
  let s := newWriter plain_config 0 in
  let s := addVec FlushEvery FlushEvery 1 (one_field [97] [98]) false ∅ s in
  let s := default s (worker_op 0 (Some [ENOSPC]) s) in
  let s := default s (worker_op 0 None s) in
  let s := default s (worker_op 0 None s) in
  let s := default s (worker_op 0 None s) in
  let '(s, l) := Flush_lock FlushEvery s in
  let t := tally_batch (batch_of s 0) (tally_retired []) in
  let s := retire_done (mark_done 0 s) in
  let s := addVec FlushEvery FlushEvery 2 (one_field [97] [99]) false ∅ s in
  (s, [MkCall None 1 [] [0] t (Some (tally_result t))]).

(** The rule of [flushCarrying] does not say what its comment says: with rows
    buffered and no batch live, an earlier group of the same write can have
    failed (another caller's [Flush] waited for it and retired it), and the write
    id still rides on the next group. *)
Theorem receipt_rides_past_failure :
  ∃ s cs j, reachable plain_config s cs ∧ s_jobs s !! 0%nat = Some j ∧ jb_phase j = Finished false ∧
    ∃ s' l j', flushCarrying_lock [119] FlushEvery s = (s', l, true) ∧ s_jobs s' !! 1%nat = Some j' ∧ jb_receipt j' = [119].
Proof.
  exists trace_states.1, trace_states.2. eexists. split; [|split; [vm_compute; reflexivity|split; [reflexivity|]]].
  - exists 0. eapply rtc_l; [apply (step_add _ _ FlushEvery FlushEvery 1 (one_field [97] [98]) false ∅)|].
    eapply rtc_l; [eapply (step_worker _ _ 0 (Some [ENOSPC])); vm_compute; reflexivity|].
    eapply rtc_l; [eapply (step_worker _ _ 0 None); vm_compute; reflexivity|].
    eapply rtc_l; [eapply (step_worker _ _ 0 None); vm_compute; reflexivity|].
    eapply rtc_l; [eapply (step_worker _ _ 0 None); vm_compute; reflexivity|].
    eapply rtc_l; [eapply (step_flush _ _ FlushEvery); vm_compute; reflexivity|].
    eapply rtc_l; [eapply (step_await _ _ 0); vm_compute; reflexivity|].
    eapply rtc_l; [eapply (step_return _ _ 0); vm_compute; reflexivity|].
    eapply rtc_l; [apply (step_add _ _ FlushEvery FlushEvery 2 (one_field [97] [99]) false ∅)|].
    vm_compute. apply rtc_refl.
  - do 3 eexists. split; [vm_compute; reflexivity|]. split; [vm_compute; reflexivity|]. reflexivity.
Qed.
End trace.
