(* ===== verification/Manifest.v ===== *)
(** * The manifest

    [internal/storage/manifest.go]: the append-only log of changes to the visible
    group set. A record is framed with its length and checksum; replay applies
    records until the first that is incomplete or damaged; a commit appends one
    record and syncs it, or rolls it back; a long log is folded into one record.

    The disk: a file has its contents now, a base of which every prefix survives a
    crash, and the contents it had since the last sync; a crash leaves a prefix of
    one of those that extends the base. A directory entry that was created or
    replaced and not yet synced may come back as it was. *)

From S2P Require Import Prelude Digits GoLib Group.
From stdpp Require Import list gmap sorting.
Local Open Scope Z_scope.

(** ** Definitions *)

Definition manifestRecordLimit : Z := 2 ^ 24.
Definition compactThreshold : Z := 4096.

Record manifestRecord := MkRecord { Seq : Z; Add : list Z; Remove : list Z; Receipt : bytes }.

Definition record_payload (r : manifestRecord) : bytes :=
  le64 (Seq r) ++ le32 (u32 (len (Add r))) ++ List.flat_map le64 (Add r)
    ++ le32 (u32 (len (Remove r))) ++ List.flat_map le64 (Remove r)
    ++ le32 (u32 (len (Receipt r))) ++ Receipt r.
Definition encode (r : manifestRecord) : bytes :=
  let payload := record_payload r in
  le32 (u32 (len payload)) ++ le32 (Checksum payload) ++ payload.

Definition failed (c : cursor) : bool := match cu_err c with Some _ => true | None => false end.
(** [None] is the [false] of the Go function. *)
Definition decode_payload (payload : bytes) : outcome (option manifestRecord) :=
  r ← cur_u64 (Cursor payload 0 None); let '(seq, c) := r in
  r ← cur_u32 c; let '(nAdd, c) := r in
  if failed c || bool_decide (nAdd < 0 ∨ Z.quot manifestRecordLimit 8 < nAdd) then Ok None else
  r ← cur_words (Z.to_nat nAdd) c; let '(add, c) := r in
  r ← cur_u32 c; let '(nRem, c) := r in
  if failed c || bool_decide (nRem < 0 ∨ Z.quot manifestRecordLimit 8 < nRem) then Ok None else
  r ← cur_words (Z.to_nat nRem) c; let '(rem, c) := r in
  r ← cur_u32 c; let '(rlen, c) := r in
  if failed c || bool_decide (rlen < 0 ∨ len payload < rlen) then Ok None else
  if bool_decide (0 < rlen) then
    let '(ok, c) := need c rlen in
    if negb ok then Ok None else
    s ← slice payload (cu_at c) (cu_at c + rlen);
    Ok (Some (MkRecord seq add rem s))
  else Ok (Some (MkRecord seq add rem [])).
Definition decodeManifestRecord (b : bytes) : outcome (option (manifestRecord * Z)) :=
  if bool_decide (len b < 8) then Ok None else
  size ← get32 b 0;
  want ← get32 b 4;
  if bool_decide (size < 0 ∨ manifestRecordLimit < size ∨ len b < 8 + size) then Ok None else
  payload ← slice b 8 (8 + size);
  if bool_decide (Checksum payload ≠ want) then Ok None else
  r ← decode_payload payload;
  Ok (match r with Some rec => Some (rec, 8 + size) | None => None end).

(** *** The state *)

(** [m_f]: whether the append handle is open. *)
Record manifest := MkManifest {
  m_f : bool; m_seq : Z; m_records : Z; m_visible : gset Z; m_retired : gset Z; m_receipts : list bytes; preexisted : bool }.
Definition with_f (m : manifest) (f : bool) : manifest :=
  MkManifest f (m_seq m) (m_records m) (m_visible m) (m_retired m) (m_receipts m) (preexisted m).
Definition with_seq (m : manifest) (seq records : Z) : manifest :=
  MkManifest (m_f m) seq records (m_visible m) (m_retired m) (m_receipts m) (preexisted m).

(** The two loops of [apply] over an id each. *)
Definition add_id (vr : gset Z * gset Z) (id : Z) : gset Z * gset Z := ({[id]} ∪ vr.1, vr.2 ∖ {[id]}).
Definition remove_id (vr : gset Z * gset Z) (id : Z) : gset Z * gset Z := (vr.1 ∖ {[id]}, {[id]} ∪ vr.2).
Definition apply_record (m : manifest) (r : manifestRecord) : manifest :=
  let vr := foldl remove_id (foldl add_id (m_visible m, m_retired m) (Add r)) (Remove r) in
  MkManifest (m_f m) (Z.max (m_seq m) (Seq r)) (m_records m) vr.1 vr.2
    (if bool_decide (Receipt r = []) then m_receipts m else m_receipts m ++ [Receipt r]) (preexisted m).

(** [openManifest]'s loop from offset [off]. *)
Fixpoint replay (fuel : nat) (b : bytes) (off : Z) (m : manifest) : outcome (manifest * Z) :=
  if bool_decide (len b ≤ off) then Ok (m, off) else
  match fuel with
  | O => Ok (m, off)
  | S fuel' =>
      s ← slice b off (len b);
      d ← decodeManifestRecord s;
      match d with
      | None => Ok (m, off)
      | Some (r, n) => replay fuel' b (off + n) (apply_record m r)
      end
  end.
Definition fresh (pre : bool) : manifest := MkManifest false 0 0 ∅ ∅ [] pre.

(** *** The disk *)

Record file := MkFile { f_base : bytes; f_later : list bytes; f_now : bytes }.
Definition file_of (b : bytes) : file := MkFile b [b] b.
Definition f_write (f : file) (w : bytes) : file := MkFile (f_base f) (f_later f ++ [f_now f ++ w]) (f_now f ++ w).
Definition f_truncate (f : file) (n : Z) : file :=
  let c := take (Z.to_nat n) (f_now f) in MkFile (take (Z.to_nat n) (f_base f)) (f_later f ++ [c]) c.
Definition f_sync (f : file) : file := file_of (f_now f).
Definition file_crash (f : file) (b : bytes) : Prop := f_base f `prefix_of` b ∧ ∃ c, c ∈ f_later f ∧ b `prefix_of` c.

(** The manifest's path: the file now, and what its directory entry may go back to. *)
Record mdisk := MkDisk { md_now : option file; md_old : list (option file) }.
Definition disk_of (b : option bytes) : mdisk := MkDisk (file_of <$> b) [].
(** An operation on the open file. *)
Definition md_upd (g : file → file) (d : mdisk) : mdisk := MkDisk (g <$> md_now d) (md_old d).
(** [os.OpenFile(O_CREATE)]. *)
Definition md_create (d : mdisk) : mdisk :=
  match md_now d with Some _ => d | None => MkDisk (Some (file_of [])) (md_old d ++ [None]) end.
(** A rename of a synced file over the path, and the directory's sync. *)
Definition md_rename (d : mdisk) (b : bytes) : mdisk := MkDisk (Some (file_of b)) (md_old d ++ [md_now d]).
Definition md_syncdir (d : mdisk) : mdisk := MkDisk (md_now d) [].
Definition crash_file (o : option file) (b : option bytes) : Prop :=
  match o, b with None, None => True | Some f, Some c => file_crash f c | _, _ => False end.
Definition md_crash (d : mdisk) (b : option bytes) : Prop := ∃ o, o ∈ md_now d :: md_old d ∧ crash_file o b.

(** *** Operations

    An operation takes the results of its system calls (a Go bool per call,
    [true] for a nil error) and the world: the manifest in memory, its disk, and
    every disk it has been through, the points a crash can stop at. *)

Record world := World { w_m : manifest; w_d : mdisk; w_trace : list mdisk }.
Definition on_disk (g : mdisk → mdisk) (w : world) : world := World (w_m w) (g (w_d w)) (w_trace w ++ [g (w_d w)]).
Definition in_memory (g : manifest → manifest) (w : world) : world := World (g (w_m w)) (w_d w) (w_trace w).

(** [openManifest]: [read] is the file, or the error of [os.ReadFile] other than
    not-exist; [None] is an error. *)
Definition openManifest (readOk truncOk : bool) (d : mdisk) : outcome (option world) :=
  if negb readOk then Ok None else
  match md_now d with
  | None => Ok (Some (World (fresh false) d [d]))
  | Some f =>
      r ← replay (length (f_now f)) (f_now f) 0 (fresh true); let '(m, truncateAt) := r in
      if bool_decide (truncateAt < len (f_now f)) then
        if negb truncOk then Ok None else
        Ok (Some (on_disk (md_upd (λ f, f_truncate f truncateAt)) (World m d [d])))
      else Ok (Some (World m d [d]))
  end.

(** [ensureOpen]; [reopen] is the same without the error. *)
Definition ensureOpen (ok : bool) (w : world) : bool * world :=
  if m_f (w_m w) then (true, w)
  else if negb ok then (false, w)
  else (true, in_memory (λ m, with_f m true) (on_disk md_create w)).
Definition reopen (ok : bool) (w : world) : world := (ensureOpen ok w).2.

Record rollback_env := RollbackEnv { rb_open : bool; rb_truncate : bool; rb_seek : bool; rb_sync : bool }.
Definition truncateTo (e : rollback_env) (off : Z) (w : world) : bool * world :=
  let '(ok, w) := ensureOpen (rb_open e) w in
  if negb ok then (false, w) else
  if negb (rb_truncate e) then (false, w) else
  let w := on_disk (md_upd (λ f, f_truncate f off)) w in
  if negb (rb_seek e) then (false, w) else
  if negb (rb_sync e) then (false, w) else
  (true, on_disk (md_upd f_sync) w).

(** [writeFileAtomic] over the manifest's path: the steps up to the rename touch
    only the temporary file. *)
Record atomic_env := AtomicEnv { wa_create : bool; wa_write : bool; wa_sync : bool; wa_close : bool; wa_rename : bool; wa_syncDir : bool }.
Definition writeFileAtomic (e : atomic_env) (data : bytes) (w : world) : bool * world :=
  if negb (wa_create e && wa_write e && wa_sync e && wa_close e && wa_rename e) then (false, w) else
  let w := on_disk (λ d, md_rename d data) w in
  if negb (wa_syncDir e) then (false, w) else (true, on_disk md_syncdir w).

Definition visibleIDs (m : manifest) : list Z := merge_sort Z.le (elements (m_visible m)).

Record compact_env := CompactEnv { co_open : bool; co_close : bool; co_reopen : bool; co_atomic : atomic_env; co_open2 : bool }.
Definition compact (e : compact_env) (w : world) : bool * world :=
  let ids := visibleIDs (w_m w) in
  let '(ok, w) := ensureOpen (co_open e) w in
  if negb ok then (false, w) else
  let w := in_memory (λ m, with_f m false) w in
  if negb (co_close e) then (false, reopen (co_reopen e) w) else
  let w := in_memory (λ m, with_seq m (u64 (m_seq m + 1)) (m_records m)) w in
  let '(ok, w) := writeFileAtomic (co_atomic e) (encode (MkRecord (m_seq (w_m w)) ids [] [])) w in
  if negb ok then (false, reopen (co_reopen e) w) else
  ensureOpen (co_open2 e) w.

Definition bootstrap (e : compact_env) (ids : list Z) (w : world) : bool * world :=
  let wasOpen := m_f (w_m w) in
  let w := in_memory (λ m, with_f m false) w in
  if wasOpen && negb (co_close e) then (false, reopen (co_reopen e) w) else
  let w := in_memory (λ m, with_seq m 1 (m_records m)) w in
  let rec := MkRecord 1 ids [] [] in
  let '(ok, w) := writeFileAtomic (co_atomic e) (encode rec) w in
  if negb ok then (false, w) else
  let w := in_memory (λ m, apply_record (MkManifest (m_f m) (m_seq m) (m_records m) ∅ (m_retired m) (m_receipts m) (preexisted m)) rec) w in
  ensureOpen (co_open2 e) w.

(** [ce_written]: [None] when the write succeeds, else the bytes that reached the
    file. [ce_hookWrite], [ce_hookSync]: the fault hook at its two points, [true]
    when it is absent or returns nil. *)
Record commit_env := CommitEnv {
  ce_open : bool; ce_stat : bool; ce_written : option nat; ce_hookWrite : bool; ce_sync : bool; ce_rollback : rollback_env;
  ce_hookSync : bool; ce_compact : compact_env; ce_reopen : bool }.
Inductive commit_result := Committed | CommitFailed | RollbackFailed.
#[export] Instance commit_result_eq_dec : EqDecision commit_result := ltac:(solve_decision).
Definition joinRollback (ok : bool) : commit_result := if ok then CommitFailed else RollbackFailed.
Definition rollback (e : rollback_env) (off : Z) (w : world) : commit_result * world :=
  let '(ok, w) := truncateTo e off w in (joinRollback ok, w).

(** The part of [commit] after the sync: the record is durable, the state in
    memory advances, and a long log is folded down. *)
Definition committed (e : commit_env) (rec : manifestRecord) (w : world) : commit_result * world :=
  let w := in_memory (λ m, with_seq m (Seq rec) (m_records m)) w in
  let w := in_memory (λ m, apply_record m rec) w in
  let w := in_memory (λ m, with_seq m (m_seq m) (m_records m + 1)) w in
  if negb (ce_hookSync e) then (CommitFailed, w) else
  if bool_decide (compactThreshold ≤ m_records (w_m w)) then
    let '(ok, w) := compact (ce_compact e) w in
    if negb ok then (Committed, reopen (ce_reopen e) w)
    else (Committed, in_memory (λ m, with_seq m (m_seq m) 0) w)
  else (Committed, w).

Definition commit (e : commit_env) (add remove : list Z) (receipt : bytes) (w : world) : commit_result * world :=
  let '(ok, w) := ensureOpen (ce_open e) w in
  if negb ok then (CommitFailed, w) else
  if negb (ce_stat e) then (CommitFailed, w) else
  let off := match md_now (w_d w) with Some f => len (f_now f) | None => 0 end in
  let rec := MkRecord (u64 (m_seq (w_m w) + 1)) add remove receipt in
  match ce_written e with
  | Some n => rollback (ce_rollback e) off (on_disk (md_upd (λ f, f_write f (take n (encode rec)))) w)
  | None =>
      let w := on_disk (md_upd (λ f, f_write f (encode rec))) w in
      if negb (ce_hookWrite e) then rollback (ce_rollback e) off w else
      if negb (ce_sync e) then rollback (ce_rollback e) off w else
      committed e rec (on_disk (md_upd f_sync) w)
  end.
