(* ===== verification/ManifestOk.v ===== *)
(** * The manifest: what a record holds and what a crash leaves

    The round trip of a record and the refusal of every other prefix of one, the
    replay of a log with a torn tail, and the commit: at whatever system call it
    stops, a crash leaves the group set of before or of after; a commit that
    returned nil is on disk; one that failed and was rolled back is not. *)

From stdpp Require Import list gmap sorting.
From Stdlib Require Import ZifyBool.
From S2P Require Import Prelude Digits GoLib Group GroupLayout GroupSafe Manifest.
Local Open Scope Z_scope.

(** ** Records *)

Record wf_record (r : manifestRecord) : Prop := {
  wr_seq : is_u64 (Seq r);
  wr_add : Forall is_u64 (Add r);
  wr_remove : Forall is_u64 (Remove r);
  wr_receipt : is_bytes (Receipt r);
  wr_len : len (record_payload r) ≤ manifestRecordLimit }.

Lemma len_words ws : len (List.flat_map le64 ws) = 8 * len ws.
Proof. induction ws as [|w ws IH]; [done|]. cbn [List.flat_map]. rewrite len_app, len_le64, len_cons. lia. Qed.
Lemma words_bytes ws : is_bytes (List.flat_map le64 ws).
Proof. induction ws as [|w ws IH]; [constructor|]. apply Forall_app. split; [apply le64_bytes|done]. Qed.
Lemma len_payload r : len (record_payload r) = 20 + 8 * len (Add r) + 8 * len (Remove r) + len (Receipt r).
Proof. unfold record_payload. autorewrite with simdlogs. rewrite !len_words. lia. Qed.
Lemma payload_bytes r : is_bytes (Receipt r) → is_bytes (record_payload r).
Proof. intros. unfold record_payload, is_bytes. rewrite !Forall_app. split_and!; first [apply le64_bytes | apply le32_bytes | apply words_bytes | done]. Qed.
Lemma len_encode r : len (encode r) = 8 + len (record_payload r).
Proof. unfold encode. autorewrite with simdlogs. lia. Qed.

Lemma decode_payload_encode r : wf_record r → decode_payload (record_payload r) = Ok (Some r).
Proof.
  intros [Hs Ha Hr Hb Hl]. pose proof (len_payload r) as Hlen. change manifestRecordLimit with 16777216 in *.
  pose proof (at_off_refl (record_payload r)) as H. unfold record_payload in H at 2. len_facts.
  rewrite !u32_small in H by (unfold is_digit; lia).
  apply at_off_app in H as [Hp1 H]. apply at_off_app in H as [Hp2 H]. apply at_off_app in H as [Hp3 H].
  apply at_off_app in H as [Hp4 H]. apply at_off_app in H as [Hp5 H]. apply at_off_app in H as [Hp6 Hp7].
  rewrite ?len_le64, ?len_le32, ?len_words in *. unfold decode_payload.
  rewrite (cur_u64_at _ _ _ Hp1), bind_Ok by done.
  rewrite (cur_u32_at _ _ _ Hp2), bind_Ok by (unfold is_digit; lia). cbn [failed cu_err orb].
  change (Z.quot manifestRecordLimit 8) with 2097152. rewrite bool_decide_eq_false_2 by lia.
  replace (Z.to_nat (len (Add r))) with (length (Add r)) by (unfold len; lia).
  rewrite (cur_words_at _ _ _ Hp3), bind_Ok by done.
  rewrite (cur_u32_at _ _ _ Hp4), bind_Ok by (unfold is_digit; lia). cbn [failed cu_err orb].
  rewrite bool_decide_eq_false_2 by lia.
  replace (Z.to_nat (len (Remove r))) with (length (Remove r)) by (unfold len; lia).
  rewrite (cur_words_at _ _ _ Hp5), bind_Ok by done.
  rewrite (cur_u32_at _ _ _ Hp6), bind_Ok by (unfold is_digit; lia). cbn [failed cu_err orb].
  rewrite bool_decide_eq_false_2 by lia. destruct r as [sq ad rm rc]. cbn [Seq Add Remove Receipt] in *.
  case_bool_decide.
  - rewrite need_fits by lia. cbn [negb cu_at]. by rewrite (at_off_slice _ _ _ _ Hp7), bind_Ok.
  - destruct rc; [done|]. rewrite len_cons in *. len_facts. lia.
Qed.

Lemma encode_bytes r : is_bytes (Receipt r) → is_bytes (encode r).
Proof. intros. unfold encode, is_bytes. rewrite !Forall_app. split_and!; first [apply le32_bytes | by apply payload_bytes]. Qed.

(** A record at the front of a buffer is read back, and nothing past it is looked at. *)
Lemma decode_encode r rest : wf_record r →
  decodeManifestRecord (encode r ++ rest) = Ok (Some (r, len (encode r))).
Proof.
  intros Hr. pose proof (wr_len _ Hr) as Hl. change manifestRecordLimit with 16777216 in *.
  pose proof (Checksum_u32 _ (payload_bytes r (wr_receipt _ Hr))) as Hc.
  assert (at_off (encode r ++ rest) 0 (encode r)) as H by (exists [], rest; done).
  pose proof (at_off_bound _ _ _ H) as [_ Hb]. pose proof (len_encode r) as He. len_facts.
  unfold encode in H at 2. rewrite u32_small in H by (unfold is_digit; lia).
  apply at_off_app in H as [Hp1 H]. apply at_off_app in H as [Hp2 Hp3]. rewrite ?len_le32 in *. change (0 + 4) with 4 in *.
  unfold decodeManifestRecord. rewrite bool_decide_eq_false_2 by lia.
  rewrite (get32_at _ _ _ Hp1), bind_Ok, (get32_at _ _ _ Hp2), bind_Ok, !u32_small by (done || unfold is_digit; lia).
  change manifestRecordLimit with 16777216. rewrite bool_decide_eq_false_2 by lia.
  rewrite (at_off_slice _ _ _ _ Hp3), bind_Ok by lia. rewrite bool_decide_eq_false_2 by naive_solver.
  by rewrite decode_payload_encode, bind_Ok, He.
Qed.

(** A sub-slice that ends within a prefix lies in the prefix. *)
Lemma at_off_within {A} (p q s : list A) off : at_off (p ++ q) off s → off + len s ≤ len p → at_off p off s.
Proof.
  intros (pre & post & E & ->) Hl. exists pre. rewrite <- len_app in Hl.
  assert (p = take (length p) (pre ++ s ++ post)) as -> by (by rewrite <- E, take_app_length).
  rewrite app_assoc, take_app_ge by (unfold len in Hl; lia). rewrite <- app_assoc. by eexists.
Qed.

(** The part of a record a crash leaves is not one. *)
Lemma decode_prefix r p : wf_record r → p `prefix_of` encode r → p ≠ encode r → decodeManifestRecord p = Ok None.
Proof.
  intros Hr [q Hq] Hne. pose proof (wr_len _ Hr) as Hl. change manifestRecordLimit with 16777216 in *.
  assert (len p < len (encode r)) as Hp.
  { rewrite Hq, len_app. destruct q as [|x q]; [by rewrite app_nil_r in Hq|]. rewrite len_cons. len_facts. lia. }
  rewrite len_encode in Hp. len_facts. unfold decodeManifestRecord. case_bool_decide as H8; [done|].
  pose proof (at_off_refl (encode r)) as Hat. rewrite Hq in Hat at 1. unfold encode in Hat.
  rewrite u32_small in Hat by (unfold is_digit; lia).
  apply at_off_app in Hat as [Hp1 Hat]. apply at_off_app in Hat as [Hp2 _]. rewrite ?len_le32 in *. change (0 + 4) with 4 in *.
  apply at_off_within in Hp1; [|rewrite len_le32; lia]. apply at_off_within in Hp2; [|rewrite len_le32; lia].
  rewrite (get32_at _ _ _ Hp1), bind_Ok, (get32_at _ _ _ Hp2), bind_Ok, (u32_small (len (record_payload r))) by (unfold is_digit; lia).
  change manifestRecordLimit with 16777216. by rewrite bool_decide_eq_true_2 by lia.
Qed.

(** *** Bytes nobody vouches for *)

(** The cursor stays on its buffer. *)
Lemma need_buf c n ok c' : need c n = (ok, c') → cu_b c' = cu_b c.
Proof. unfold need, fail. destruct (cu_err c); [by intros [= _ <-]|]. case_bool_decide; by intros [= _ <-]. Qed.
Lemma cur_u32_buf c r : cur_u32 c = Ok r → cu_b r.2 = cu_b c.
Proof.
  unfold cur_u32. destruct (need c 4) as [[] c'] eqn:E; pose proof (need_buf _ _ _ _ E) as Hb; [|by intros [= <-]].
  destruct (get32 _ _); [|done]. by intros [= <-].
Qed.
Lemma cur_u64_buf c r : cur_u64 c = Ok r → cu_b r.2 = cu_b c.
Proof.
  unfold cur_u64. destruct (need c 8) as [[] c'] eqn:E; pose proof (need_buf _ _ _ _ E) as Hb; [|by intros [= <-]].
  destruct (get64 _ _); [|done]. by intros [= <-].
Qed.
Lemma cur_words_buf n : ∀ c r, cur_words n c = Ok r → cu_b r.2 = cu_b c.
Proof.
  induction n as [|n IH]; intros c r; cbn [cur_words]; [by intros [= <-]|].
  destruct (cur_u64 c) as [[w c1]|] eqn:E1; [|done]. rewrite bind_Ok.
  destruct (cur_words n c1) as [[ws c2]|] eqn:E2; [|done]. intros [= <-].
  apply IH in E2. apply cur_u64_buf in E1. cbn [snd] in *. by rewrite E2.
Qed.

Lemma decode_payload_safe b : is_bytes b → returns (decode_payload b).
Proof.
  intros Hb. unfold decode_payload.
  destruct (cur_u64_ok (Cursor b 0 None)) as ([s c1] & E1 & _ & H1); [by split|].
  rewrite E1, bind_Ok. apply cur_u64_buf in E1. cbn [fst snd cu_b] in *.
  destruct (cur_u32_ok c1 H1) as ([na c2] & E2 & _ & H2). rewrite E2, bind_Ok. apply cur_u32_buf in E2. cbn [fst snd] in *.
  destruct (failed c2 || _); [by eexists|].
  destruct (cur_words_ok (Z.to_nat na) c2 H2) as ([ad c3] & E3 & _ & _ & H3). rewrite E3, bind_Ok. apply cur_words_buf in E3. cbn [fst snd] in *.
  destruct (cur_u32_ok c3 H3) as ([nr c4] & E4 & _ & H4). rewrite E4, bind_Ok. apply cur_u32_buf in E4. cbn [fst snd] in *.
  destruct (failed c4 || _); [by eexists|].
  destruct (cur_words_ok (Z.to_nat nr) c4 H4) as ([rm c5] & E5 & _ & _ & H5). rewrite E5, bind_Ok. apply cur_words_buf in E5. cbn [fst snd] in *.
  destruct (cur_u32_ok c5 H5) as ([rl c6] & E6 & _ & H6). rewrite E6, bind_Ok. apply cur_u32_buf in E6. cbn [fst snd] in *.
  destruct (failed c6 || _); [by eexists|]. case_bool_decide; [|by eexists].
  destruct (need c6 rl) as [ok c7] eqn:E7. pose proof (need_ok _ _ _ _ H6 E7) as (_ & _ & H7).
  destruct ok; [|by eexists]. destruct H7 as (-> & _ & _ & Hl). cbn [negb].
  rewrite slice_Ok, bind_Ok by (try apply H6; first [lia|congruence]). by eexists.
Qed.

Lemma decode_record_safe b (Hb : is_bytes b) :
  ∃ d, decodeManifestRecord b = Ok d ∧ ∀ r n, d = Some (r, n) → 8 ≤ n ≤ len b.
Proof.
  unfold decodeManifestRecord. case_bool_decide as H8; [by exists None|].
  destruct (get32_returns b 0) as (size & E1 & Hs); [done|lia|lia|]. rewrite E1, bind_Ok.
  destruct (get32_returns b 4) as (want & E2 & _); [done|lia|lia|]. rewrite E2, bind_Ok.
  case_bool_decide as Hf; [by exists None|]. rewrite slice_Ok, bind_Ok by lia.
  case_bool_decide; [by exists None|].
  destruct (decode_payload_safe (take (Z.to_nat (8 + size - 8)) (drop (Z.to_nat 8) b))) as [d ->].
  { by apply Forall_take, Forall_drop. }
  rewrite bind_Ok. eexists. split; [done|]. destruct d as [r'|]; [|done]. intros r n [= _ <-]. lia.
Qed.


(** [decodeManifestRecord] on arbitrary bytes never panics; a record it
    returns takes at least the eight bytes of its frame and ends within the
    buffer, so the loop of [openManifest] advances and stays inside. *)
Theorem decodeManifestRecord_safe (b : bytes) (Hb : is_bytes b) :
  ∃ d, decodeManifestRecord b = Ok d ∧ ∀ r n, d = Some (r, n) → 8 ≤ n ≤ len b.
Proof. by apply decode_record_safe. Qed.

(** ** Replay *)

Definition log (rs : list manifestRecord) : bytes := concat (encode <$> rs).
(** What is left of a record whose append a crash stopped: nothing, or a part. *)
Definition torn (t : bytes) : Prop := ∃ r, wf_record r ∧ t `prefix_of` encode r ∧ t ≠ encode r.
Definition empty_record : manifestRecord := MkRecord 0 [] [] [].

Lemma wf_empty_record : wf_record empty_record.
Proof. split; try constructor; vm_compute; congruence. Qed.
Lemma encode_pos r : 0 < len (encode r).
Proof. rewrite len_encode, len_payload. len_facts. lia. Qed.
Lemma torn_nil : torn [].
Proof. exists empty_record. split_and!; [apply wf_empty_record|apply prefix_nil|done]. Qed.
Lemma torn_decode t : torn t → decodeManifestRecord t = Ok None.
Proof. intros (r & Hr & Hp & Hne). by eapply decode_prefix. Qed.
Lemma torn_part r n : wf_record r → torn (take n (encode r)) ∨ take n (encode r) = encode r.
Proof.
  intros Hr. destruct (decide (take n (encode r) = encode r)); [by right|]. left. exists r. split_and!; [done| |done].
  exists (drop n (encode r)). by rewrite take_drop.
Qed.
Lemma log_snoc rs r : log (rs ++ [r]) = log rs ++ encode r.
Proof. unfold log. rewrite fmap_app, concat_app. cbn. by rewrite app_nil_r. Qed.
Lemma len_log rs : Z.of_nat (length rs) ≤ len (log rs).
Proof.
  induction rs as [|r rs IH]; [done|]. change (log (r :: rs)) with (encode r ++ log rs). rewrite len_app.
  pose proof (encode_pos r). cbn [length]. lia.
Qed.

Lemma drop_len {A} (p q : list A) : drop (Z.to_nat (len p)) (p ++ q) = q.
Proof. unfold len. by rewrite Nat2Z.id, drop_app_length. Qed.

(** The loop over a log that ends in a torn record, from any record boundary. *)
Lemma replay_log_from rs t : torn t → ∀ fuel pre m, Forall wf_record rs → (length rs ≤ fuel)%nat →
  replay fuel (pre ++ log rs ++ t) (len pre) m = Ok (foldl apply_record m rs, len pre + len (log rs)).
Proof.
  intros Ht. induction rs as [|r rs IH]; intros fuel pre m Hrs Hf.
  - unfold log. cbn [fmap list_fmap concat app foldl]. rewrite Z.add_0_r. destruct fuel as [|fuel]; cbn [replay]; case_bool_decide; try done.
    rewrite slice_Ok, bind_Ok by (rewrite ?len_app; len_facts; lia).
    rewrite drop_len, take_ge by (rewrite len_app; unfold len; lia). by rewrite torn_decode, bind_Ok.
  - apply Forall_cons_1 in Hrs as [Hr Hrs]. destruct fuel as [|fuel]; [cbn [length] in Hf; lia|].
    change (log (r :: rs)) with (encode r ++ log rs). cbn [replay foldl]. pose proof (encode_pos r).
    rewrite bool_decide_eq_false_2 by (rewrite !len_app; len_facts; lia).
    rewrite slice_Ok, bind_Ok by (rewrite ?len_app; len_facts; lia).
    rewrite drop_len, take_ge by (rewrite len_app; unfold len; lia).
    rewrite <- app_assoc, decode_encode, bind_Ok by done.
    rewrite (app_assoc pre), <- len_app, IH by (done || cbn [length] in *; lia). do 2 f_equal. rewrite !len_app. lia.
Qed.
Lemma replay_log rs t m : Forall wf_record rs → torn t →
  replay (length (log rs ++ t)) (log rs ++ t) 0 m = Ok (foldl apply_record m rs, len (log rs)).
Proof.
  intros Hrs Ht. apply (replay_log_from rs t Ht _ [] m Hrs).
  pose proof (len_log rs). rewrite length_app. unfold len in *. lia.
Qed.

(** C38: the loop of [openManifest] on arbitrary bytes ends, within a step per
    byte and without a panic, at an offset inside the file where either nothing
    is left or no record can be read. *)
Theorem replay_ends (b : bytes) (m : manifest) (Hb : is_bytes b) :
  ∃ m' off, replay (length b) b 0 m = Ok (m', off) ∧ 0 ≤ off ≤ len b ∧
    (off = len b ∨ decodeManifestRecord (drop (Z.to_nat off) b) = Ok None).
Proof.
  assert (∀ fuel off m, 0 ≤ off ≤ len b → len b - off ≤ Z.of_nat fuel →
    ∃ m' off', replay fuel b off m = Ok (m', off') ∧ 0 ≤ off' ≤ len b ∧
      (off' = len b ∨ decodeManifestRecord (drop (Z.to_nat off') b) = Ok None)) as H;
    [|apply H; unfold len; lia].
  clear m. induction fuel as [|fuel IH]; intros off m Ho Hf; cbn [replay]; case_bool_decide as Hl.
  1, 3: eexists _, _; split; [done|split; [done|left; lia]].
  { exfalso. lia. }
  rewrite slice_Ok, bind_Ok by lia. rewrite take_ge by (rewrite length_drop; unfold len in *; lia).
  destruct (decode_record_safe (drop (Z.to_nat off) b)) as (d & E & Hd); [by apply Forall_drop|].
  rewrite E, bind_Ok. destruct d as [[r n]|]; [|eexists _, _; split; [done|]; split; [lia|by right]].
  specialize (Hd r n eq_refl). rewrite len_drop in Hd. apply IH; lia.
Qed.

(** *** The group set of a log *)

Lemma adds_visible ids vr : foldl add_id vr ids = (list_to_set ids ∪ vr.1, vr.2 ∖ list_to_set ids).
Proof. revert vr. induction ids as [|id ids IH]; intros vr; cbn; [|rewrite IH; unfold add_id; cbn]; destruct vr; cbn; f_equal; set_solver. Qed.
Lemma removes_visible ids vr : foldl remove_id vr ids = (vr.1 ∖ list_to_set ids, list_to_set ids ∪ vr.2).
Proof. revert vr. induction ids as [|id ids IH]; intros vr; cbn; [|rewrite IH; unfold remove_id; cbn]; destruct vr; cbn; f_equal; set_solver. Qed.
(** The set a record makes of a set. *)
Definition changed (V : gset Z) (add remove : list Z) : gset Z := (V ∪ list_to_set add) ∖ list_to_set remove.
Lemma apply_visible m r : m_visible (apply_record m r) = changed (m_visible m) (Add r) (Remove r).
Proof. unfold apply_record. cbn [m_visible]. rewrite removes_visible, adds_visible. cbn. unfold changed. set_solver. Qed.

Definition vis (rs : list manifestRecord) : gset Z := m_visible (foldl apply_record (fresh true) rs).
Lemma vis_snoc rs r : vis (rs ++ [r]) = changed (vis rs) (Add r) (Remove r).
Proof. unfold vis. rewrite foldl_app. apply apply_visible. Qed.
Lemma vis_u64 rs : Forall wf_record rs → ∀ id, id ∈ vis rs → is_u64 id.
Proof.
  induction rs as [|r rs IH] using rev_ind; intros Hrs id; [set_solver|]. rewrite vis_snoc. apply Forall_app in Hrs as [Hrs Hr].
  apply Forall_cons_1 in Hr as [[_ Ha _ _ _] _]. rewrite Forall_forall in Ha. unfold changed.
  rewrite elem_of_difference, elem_of_union, elem_of_list_to_set. intros [[H|H] _]; [by apply IH|by apply Ha, list_elem_of_In].
Qed.

(** ** Crashes *)

(** The group set the next open finds. *)
Definition recovered (b : option bytes) : outcome (gset Z) :=
  match b with
  | None => Ok ∅
  | Some b => r ← replay (length b) b 0 (fresh true); Ok (m_visible r.1)
  end.
(** The bytes open to [V]: they are a log of records with a torn tail. *)
Definition finds (b : option bytes) (V : gset Z) : Prop :=
  recovered b = Ok V ∧ ∃ rs t, b = Some (log rs ++ t) ∧ Forall wf_record rs ∧ torn t ∧ vis rs = V.
(** Every crash of the disk recovers to a set of [P]. *)
Definition crashes_to (P : gset Z → Prop) (d : mdisk) : Prop := ∀ b, md_crash d b → ∃ V, finds b V ∧ P V.
Definition within (V V' : gset Z) : mdisk → Prop := crashes_to (λ U, U = V ∨ U = V').
Definition exactly (V : gset Z) : mdisk → Prop := crashes_to (λ U, U = V).

(** The file holds the log [rs], synced: a crash leaves it with a torn tail at most. *)
Record settled (f : file) (rs : list manifestRecord) : Prop := {
  st_now : f_now f = log rs;
  st_base : f_base f = log rs;
  st_crash : ∀ c, file_crash f c → ∃ t, torn t ∧ c = log rs ++ t }.
(** The same with the record [r] being appended. *)
Record pending (f : file) (rs : list manifestRecord) (r : manifestRecord) : Prop := {
  pd_base : f_base f = log rs;
  pd_now : log rs `prefix_of` f_now f;
  pd_crash : ∀ c, file_crash f c → (∃ t, torn t ∧ c = log rs ++ t) ∨ c = log (rs ++ [r]) }.

Lemma finds_log rs t : Forall wf_record rs → torn t → finds (Some (log rs ++ t)) (vis rs).
Proof. intros. split; [unfold recovered; by rewrite replay_log, bind_Ok|by exists rs, t]. Qed.

Lemma settled_of rs : settled (file_of (log rs)) rs.
Proof.
  split; [done|done|]. intros c [[k Hk] (c' & Hc & [k' Hk'])]. cbn in *. apply list_elem_of_singleton in Hc as ->.
  exists []. split; [apply torn_nil|]. rewrite app_nil_r. subst c. rewrite <- app_assoc in Hk'.
  assert (k ++ k' = []) as Hz by (apply (app_inv_head (log rs)); by rewrite app_nil_r). by destruct k; [rewrite app_nil_r|].
Qed.

(** A write of the record, or of a part of it. *)
Lemma pending_write f rs r n : settled f rs → wf_record r → pending (f_write f (take n (encode r))) rs r.
Proof.
  intros [Hn Hb Hc] Hr. split; [done|cbn; rewrite Hn; by apply prefix_app_r|]. intros c [Hp (c' & Hin & Hpre)]. cbn in Hp, Hin.
  apply elem_of_app in Hin as [Hin|Hin]; [left; apply Hc; split; [done|by exists c']|].
  apply list_elem_of_singleton in Hin as ->. rewrite Hb in Hp. destruct Hp as [t ->]. rewrite Hn in Hpre.
  apply prefix_app_inv in Hpre as Hpre.
  assert (t `prefix_of` encode r) as Ht.
  { etrans; [exact Hpre|]. exists (drop n (encode r)). by rewrite take_drop. }
  destruct (decide (t = encode r)) as [->|Hne]; [right; by rewrite log_snoc|]. left. exists t. split; [|done]. by exists r.
Qed.
Lemma pending_full f rs r : settled f rs → wf_record r →
  pending (f_write f (encode r)) rs r ∧ f_now (f_write f (encode r)) = log (rs ++ [r]).
Proof.
  intros Hs Hr. pose proof (pending_write f rs r (length (encode r)) Hs Hr) as Hp. rewrite firstn_all in Hp.
  split; [done|]. cbn. by rewrite log_snoc, (st_now _ _ Hs).
Qed.
(** The truncation of a rollback, before its sync. *)
Lemma pending_truncate f rs r : pending f rs r → pending (f_truncate f (len (log rs))) rs r ∧ f_now (f_truncate f (len (log rs))) = log rs.
Proof.
  intros [Hb [k Hn] Hc]. unfold f_truncate. rewrite Hb, Hn. replace (Z.to_nat (len (log rs))) with (length (log rs)) by (unfold len; lia).
  rewrite take_app_length, firstn_all. split; [|done]. split; [done|done|]. intros c [Hp (c' & Hin & Hpre)]. cbn in Hp, Hin.
  apply elem_of_app in Hin as [Hin|Hin].
  - apply Hc. split; [by rewrite Hb|by exists c'].
  - apply list_elem_of_singleton in Hin as ->. left. exists []. split; [apply torn_nil|]. rewrite app_nil_r. by apply (anti_symm prefix).
Qed.

Lemma crashes_mono (P Q : gset Z → Prop) d : (∀ V, P V → Q V) → crashes_to P d → crashes_to Q d.
Proof. intros HPQ H b Hb. destruct (H b Hb) as (V & ? & ?). eauto. Qed.
(** What a crash of a disk recovers, by the files its directory entry may name. *)
Lemma crashes_entries P d : (∀ o, o ∈ md_now d :: md_old d → ∀ b, crash_file o b → ∃ V, finds b V ∧ P V) → crashes_to P d.
Proof. intros H b (o & Ho & Hb). by eapply H. Qed.
Lemma crash_settled f rs b : settled f rs → Forall wf_record rs → crash_file (Some f) b → finds b (vis rs).
Proof.
  intros Hs Hrs Hb. destruct b as [c|]; [|done]. destruct (st_crash _ _ Hs c Hb) as (t & Ht & ->). by apply finds_log.
Qed.
Lemma crash_pending f rs r b : pending f rs r → Forall wf_record rs → wf_record r → crash_file (Some f) b →
  ∃ V, finds b V ∧ (V = vis rs ∨ V = vis (rs ++ [r])).
Proof.
  intros Hp Hrs Hr Hb. destruct b as [c|]; [|done]. destruct (pd_crash _ _ _ Hp c Hb) as [(t & Ht & ->)| ->].
  - exists (vis rs). split; [by apply finds_log|by left].
  - exists (vis (rs ++ [r])). split; [|by right]. rewrite <- (app_nil_r (log _)). apply finds_log; [|apply torn_nil].
    apply Forall_app. split; [done|]. by apply Forall_singleton.
Qed.

(** ** Commits *)

(** The manifest in memory and the one file on disk agree, and the file is synced. *)
Record matches (m : manifest) (d : mdisk) (rs : list manifestRecord) : Prop := {
  mt_wf : Forall wf_record rs;
  mt_file : ∃ f, d = MkDisk (Some f) [] ∧ settled f rs;
  mt_visible : m_visible m = vis rs }.

Lemma exactly_settled f rs : settled f rs → Forall wf_record rs → exactly (vis rs) (MkDisk (Some f) []).
Proof.
  intros Hs Hrs. apply crashes_entries. intros o Ho b Hb. apply list_elem_of_singleton in Ho as ->.
  exists (vis rs). split; [by eapply crash_settled|done].
Qed.
(** A log renamed over another one with the same set, the directory not synced. *)
Lemma exactly_replaced f rs rs' : settled f rs → Forall wf_record rs → Forall wf_record rs' → vis rs' = vis rs →
  exactly (vis rs) (MkDisk (Some (file_of (log rs'))) [Some f]).
Proof.
  intros Hs Hrs Hrs' E. apply crashes_entries. intros o Ho x Hx. exists (vis rs). split; [|done].
  apply elem_of_cons in Ho as [->|Ho]; [rewrite <- E; by eapply crash_settled; [apply settled_of| |]|].
  apply list_elem_of_singleton in Ho as ->. by eapply crash_settled.
Qed.
Lemma within_pending f rs r : pending f rs r → Forall wf_record rs → wf_record r →
  within (vis rs) (vis (rs ++ [r])) (MkDisk (Some f) []).
Proof.
  intros Hp Hrs Hr. apply crashes_entries. intros o Ho b Hb. apply list_elem_of_singleton in Ho as ->.
  by eapply crash_pending.
Qed.
Lemma exactly_within V V' U d : exactly U d → U = V ∨ U = V' → within V V' d.
Proof. intros H HU. eapply crashes_mono; [|exact H]. by intros ? ->. Qed.

(** Opening the handle of a file that exists. *)
Record opened (w w' : world) : Prop := {
  op_d : w_d w' = w_d w;
  op_visible : m_visible (w_m w') = m_visible (w_m w);
  op_seq : m_seq (w_m w') = m_seq (w_m w);
  op_records : m_records (w_m w') = m_records (w_m w);
  op_trace : ∀ P : mdisk → Prop, P (w_d w) → Forall P (w_trace w) → Forall P (w_trace w') }.

Lemma ensureOpen_opened ok w b w' f o : w_d w = MkDisk (Some f) o → ensureOpen ok w = (b, w') → opened w w'.
Proof.
  intros Hd. unfold ensureOpen. destruct (m_f (w_m w)); [by intros [= _ <-]; split|].
  destruct ok; [|by intros [= _ <-]; split]. cbn [negb]. intros [= _ <-].
  assert (md_create (w_d w) = w_d w) as E by (by rewrite Hd).
  split; cbn; try done. intros P HP HT. apply Forall_app. split; [done|]. rewrite E. by apply Forall_singleton.
Qed.
Lemma reopen_opened ok w f o : w_d w = MkDisk (Some f) o → opened w (reopen ok w).
Proof. intros Hd. unfold reopen. destruct (ensureOpen ok w) eqn:E. by eapply ensureOpen_opened. Qed.
Lemma on_disk_trace (P : mdisk → Prop) g w : Forall P (w_trace w) → P (g (w_d w)) → Forall P (w_trace (on_disk g w)).
Proof. intros. apply Forall_app. split; [done|]. by apply Forall_singleton. Qed.

Section append.
  Context (rs : list manifestRecord) (r : manifestRecord) (Hrs : Forall wf_record rs) (Hr : wf_record r).
Let P := within (vis rs) (vis (rs ++ [r])).

(** The end of a failed append: what was written is cut off and the cut is
    synced, or the error says that it is not known to be. *)
Lemma rollback_spec e w f res w' :
  w_d w = MkDisk (Some f) [] → pending f rs r → Forall P (w_trace w) →
  rollback e (len (log rs)) w = (res, w') →
  m_visible (w_m w') = m_visible (w_m w) ∧ Forall P (w_trace w') ∧ P (w_d w') ∧
  match res with
  | Committed => False
  | CommitFailed => ∃ f', w_d w' = MkDisk (Some f') [] ∧ settled f' rs
  | RollbackFailed => True
  end.
Proof.
  intros Hd Hp HT. assert (P (w_d w)) as HP by (rewrite Hd; by apply within_pending).
  unfold rollback, truncateTo. destruct (ensureOpen (rb_open e) w) as [ok w1] eqn:E.
  apply (ensureOpen_opened _ _ _ _ f []) in E as [E1 E2 _ _ E3]; [|done].
  specialize (E3 P HP HT). rewrite <- E1 in HP. rewrite <- E2. rewrite Hd in E1.
  destruct ok; cbn [negb]; [|by intros [= <- <-]]. destruct (rb_truncate e); cbn [negb]; [|by intros [= <- <-]].
  destruct (pending_truncate f rs r Hp) as [Hp' Hn].
  set (w2 := on_disk _ w1). assert (w_d w2 = MkDisk (Some (f_truncate f (len (log rs)))) []) as Hd2 by (cbn; by rewrite E1).
  assert (P (w_d w2)) as HP2 by (rewrite Hd2; by apply within_pending).
  assert (Forall P (w_trace w2)) as HT2 by by apply on_disk_trace.
  destruct (rb_seek e); cbn [negb]; [|by intros [= <- <-]]. destruct (rb_sync e); cbn [negb]; [|by intros [= <- <-]].
  intros [= <- <-]. assert (w_d (on_disk (md_upd f_sync) w2) = MkDisk (Some (file_of (log rs))) []) as Hd3.
  { change (w_d (on_disk (md_upd f_sync) w2)) with (md_upd f_sync (w_d w2)). rewrite Hd2.
    transitivity (MkDisk (Some (file_of (f_now (f_truncate f (len (log rs)))))) []); [done|by rewrite Hn]. }
  assert (P (w_d (on_disk (md_upd f_sync) w2))) as HP3.
  { rewrite Hd3. eapply exactly_within; [apply exactly_settled; [apply settled_of|done]|by left]. }
  split_and!; [done|by apply on_disk_trace|done|]. eexists. split; [exact Hd3|apply settled_of].
Qed.
End append.

(** *** Compaction *)

Lemma visibleIDs_elem m id : id ∈ visibleIDs m ↔ id ∈ m_visible m.
Proof. unfold visibleIDs. by rewrite merge_sort_Permutation, elem_of_elements. Qed.
Lemma visibleIDs_len m : len (visibleIDs m) = Z.of_nat (size (m_visible m)).
Proof. unfold visibleIDs, len. by rewrite merge_sort_Permutation. Qed.
Lemma snapshot_vis seq m : vis [MkRecord seq (visibleIDs m) [] []] = m_visible m.
Proof.
  unfold vis. cbn [foldl]. rewrite apply_visible. cbn. unfold changed. apply set_eq. intros id.
  rewrite elem_of_difference, elem_of_union, elem_of_list_to_set, visibleIDs_elem. set_solver.
Qed.
(** The record of a snapshot fits its limit up to about two million groups. *)
Definition snapshot_fits (V : gset Z) : Prop := 20 + 8 * Z.of_nat (size V) ≤ manifestRecordLimit.
Lemma snapshot_wf seq m : is_u64 seq → (∀ id, id ∈ m_visible m → is_u64 id) → snapshot_fits (m_visible m) →
  wf_record (MkRecord seq (visibleIDs m) [] []).
Proof.
  intros Hs Hv Hf. split; cbn [Seq Add Remove Receipt]; [done| |constructor|constructor|].
  - apply Forall_forall. intros id Hid. apply Hv, visibleIDs_elem. by apply list_elem_of_In.
  - rewrite len_payload. cbn [Add Remove Receipt]. rewrite visibleIDs_len. len_nil. unfold snapshot_fits in Hf. lia.
Qed.

(** The manifest's path after a compaction: the file it had, or the new one, whose
    entry may not be synced. *)
Lemma compact_spec (P : mdisk → Prop) e w rs ok w' :
  (∀ d, exactly (vis rs) d → P d) →
  matches (w_m w) (w_d w) rs → snapshot_fits (m_visible (w_m w)) →
  Forall P (w_trace w) → compact e w = (ok, w') →
  m_visible (w_m w') = m_visible (w_m w) ∧ Forall P (w_trace w') ∧ exactly (vis rs) (w_d w') ∧ (∃ f o, w_d w' = MkDisk (Some f) o) ∧
  (wa_syncDir (co_atomic e) = true → ∃ rs', matches (w_m w') (w_d w') rs').
Proof.
  intros HPx [Hrs (f & Hd & Hs) Hv] Hfit HT. assert (exactly (vis rs) (w_d w)) as HP by (rewrite Hd; by apply exactly_settled).
  unfold compact. set (ids := visibleIDs (w_m w)). destruct (ensureOpen (co_open e) w) as [b w1] eqn:E1.
  apply (ensureOpen_opened _ _ _ _ f []) in E1 as [D1 V1 _ _ T1]; [|done]. specialize (T1 P (HPx _ HP) HT).
  assert (∀ w2, w_d w2 = w_d w1 → m_visible (w_m w2) = m_visible (w_m w1) → ∃ rs', matches (w_m w2) (w_d w2) rs') as Hkeep.
  { intros w2 -> Hw2. exists rs. split; [done|exists f; by rewrite D1|by rewrite Hw2, V1]. }
  rewrite <- V1. rewrite <- D1 in HP. destruct b; cbn [negb]; [|intros [= <- <-]; split_and!; [done|done|done|eexists _, _; by rewrite D1|by auto]].
  set (w2 := in_memory _ w1). destruct (co_close e); cbn [negb].
  2: { intros [= <- <-]. destruct (reopen_opened (co_reopen e) w2 f []) as [D2 V2 _ _ T2]; [by rewrite <- Hd, <- D1|].
       split_and!; [by rewrite V2|by apply T2; [apply HPx|]|by rewrite D2|eexists _, _; rewrite D2; cbn; by rewrite D1|]. intros _. by apply Hkeep. }
  set (w3 := in_memory _ w2). set (c := MkRecord (m_seq (w_m w3)) ids [] []).
  unfold writeFileAtomic. destruct (wa_create _ && _ && _ && _ && _); cbn [negb].
  2: { intros [= <- <-]. destruct (reopen_opened (co_reopen e) w3 f []) as [D2 V2 _ _ T2]; [by rewrite <- Hd, <- D1|].
       split_and!; [by rewrite V2|by apply T2; [apply HPx|]|by rewrite D2|eexists _, _; rewrite D2; cbn; by rewrite D1|]. intros _. by apply Hkeep. }
  assert (wf_record c) as Hc.
  { apply (snapshot_wf _ (w_m w)); [|rewrite Hv; by apply vis_u64|done]. apply u64_range. }
  assert (vis [c] = vis rs) as Hvc by (unfold c, ids; by rewrite snapshot_vis).
  assert (encode c = log [c]) as Hlog by (unfold log; cbn; by rewrite app_nil_r).
  assert (Forall wf_record [c]) as Hcs by by apply Forall_singleton.
  set (w4 := on_disk _ w3). assert (w_d w4 = MkDisk (Some (file_of (log [c]))) [Some f]) as Hd4.
  { change (w_d w4) with (md_rename (w_d w1) (encode c)). rewrite D1, Hd, Hlog. done. }
  assert (exactly (vis rs) (w_d w4)) as HP4 by (rewrite Hd4; by apply exactly_replaced).
  assert (Forall P (w_trace w4)) as HT4 by (apply on_disk_trace; [done|by apply HPx]).
  destruct (wa_syncDir (co_atomic e)); cbn [negb].
  2: { intros [= <- <-]. destruct (reopen_opened (co_reopen e) w4 _ _ Hd4) as [D5 V5 _ _ T5].
       split_and!; [by rewrite V5|by apply T5; [apply HPx|]|by rewrite D5|eexists _, _; by rewrite D5|done]. }
  set (w5 := on_disk _ w4). assert (w_d w5 = MkDisk (Some (file_of (log [c]))) []) as Hd5.
  { change (w_d w5) with (md_syncdir (w_d w4)). by rewrite Hd4. }
  assert (exactly (vis rs) (w_d w5)) as HP5 by (rewrite Hd5, <- Hvc; apply exactly_settled; [apply settled_of|done]).
  intros E6. apply (ensureOpen_opened _ _ _ _ _ _ Hd5) in E6 as [D6 V6 _ _ T6].
  split_and!; [by rewrite V6|apply T6; [by apply HPx|by apply on_disk_trace; [|apply HPx]]|by rewrite D6|eexists _, _; by rewrite D6|].
  intros _. exists [c]. split; [done|exists (file_of (log [c])); split; [by rewrite D6|apply settled_of]|].
  by rewrite V6, Hvc, <- Hv, <- V1.
Qed.

(** *** The commit *)

(** What the answer of a commit tells its caller, from the group set [V] to [V']. *)
Definition commit_told (e : commit_env) (V V' : gset Z) (res : commit_result) (w : world) : Prop :=
  match res with
  | Committed => m_visible (w_m w) = V' ∧ exactly V' (w_d w) ∧
      (wa_syncDir (co_atomic (ce_compact e)) = true → ∃ rs, matches (w_m w) (w_d w) rs)
  | CommitFailed => m_visible (w_m w) = V ∧ exactly V (w_d w) ∧ ∃ rs, matches (w_m w) (w_d w) rs
  | RollbackFailed => m_visible (w_m w) = V ∧ within V V' (w_d w)
  end.

Section commit.
  Context (e : commit_env) (rs : list manifestRecord) (r : manifestRecord) (V V' : gset Z).
  Context (Hrs : Forall wf_record rs) (Hr : wf_record r) (EV : V = vis rs) (EV' : V' = vis (rs ++ [r])).
Let told (x : commit_result * world) : Prop := Forall (within V V') (w_trace x.2) ∧ commit_told e V V' x.1 x.2.

(** An append that stops before its sync. *)
Lemma append_failed w f : w_d w = MkDisk (Some f) [] → pending f rs r → m_visible (w_m w) = V →
  Forall (within V V') (w_trace w) → told (rollback (ce_rollback e) (len (log rs)) w).
Proof.
  intros Hd Hp Hv HT. destruct (rollback _ _ w) as [res w'] eqn:E. rewrite EV, EV' in HT.
  apply (rollback_spec rs r Hrs Hr _ _ _ _ _ Hd Hp HT) in E as (V3 & T3 & P3 & O3).
  rewrite Hv in V3. unfold told. cbn [fst snd]. rewrite EV, EV'. split; [done|]. rewrite EV in V3.
  destruct res; [done| |by split]. destruct O3 as (f' & D3 & S3).
  split_and!; [done|rewrite D3; by apply exactly_settled|]. exists rs. split; [done|by exists f'|done].
Qed.

(** An append that reached its sync. *)
Lemma append_committed w : ce_hookSync e = true → snapshot_fits V' → V' = changed V (Add r) (Remove r) →
  w_d w = MkDisk (Some (file_of (log (rs ++ [r])))) [] → m_visible (w_m w) = V →
  Forall (within V V') (w_trace w) → told (committed e r w) ∧ (committed e r w).1 = Committed.
Proof.
  intros Hh Hfit HV' Hd Hv HT. unfold committed. set (w1 := in_memory _ (in_memory _ (in_memory _ w))).
  assert (m_visible (w_m w1) = V') as Hv1.
  { change (m_visible (apply_record (with_seq (w_m w) (Seq r) (m_records (w_m w))) r) = V'). by rewrite apply_visible, HV', <- Hv. }
  assert (Forall wf_record (rs ++ [r])) as Hrs' by (apply Forall_app; split; [done|by apply Forall_singleton]).
  assert (matches (w_m w1) (w_d w1) (rs ++ [r])) as HM.
  { split; [done|exists (file_of (log (rs ++ [r]))); split; [done|apply settled_of]|by rewrite Hv1]. }
  assert (exactly V' (w_d w1)) as HX by (change (w_d w1) with (w_d w); rewrite Hd, EV'; apply exactly_settled; [apply settled_of|done]).
  rewrite Hh. cbn [negb]. case_bool_decide; [|split; [|done]; split; [done|]; split_and!; by eauto].
  destruct (compact (ce_compact e) w1) as [ok w2] eqn:E.
  assert (∀ d, exactly V' d → within V V' d) as HXW by (intros d HXd; eapply exactly_within; [exact HXd|by right]).
  rewrite EV' in HX, HXW, Hfit.
  apply (compact_spec (within V (vis (rs ++ [r]))) _ _ (rs ++ [r])) in E as (V2 & T2 & X2 & (f & o & D2) & M2);
    [|done|done|by rewrite Hv1, EV'|by rewrite <- EV'].
  rewrite <- EV' in *. unfold told. destruct ok; cbn [negb fst snd].
  - split; [|done]. split; [done|]. split_and!; [change (m_visible (w_m w2) = V'); congruence|done|].
    intros Hsd. destruct (M2 Hsd) as [rs2 [Hw Hf Hv2]]. exists rs2. by split.
  - destruct (reopen_opened (ce_reopen e) w2 f o D2) as [D3 V3 _ _ T3].
    split; [|done]. split; [apply T3; auto|]. split_and!; [congruence|by rewrite D3|].
    intros Hsd. destruct (M2 Hsd) as [rs2 [Hw Hf Hv2]]. exists rs2. split; [done|by rewrite D3|congruence].
Qed.
End commit.

Lemma commit_spec e add remove receipt w rs :
  let r := MkRecord (u64 (m_seq (w_m w) + 1)) add remove receipt in
  let V := m_visible (w_m w) in let V' := changed V add remove in
  matches (w_m w) (w_d w) rs → wf_record r → snapshot_fits V' → ce_hookSync e = true →
  Forall (within V V') (w_trace w) →
  let x := commit e add remove receipt w in
  Forall (within V V') (w_trace x.2) ∧ commit_told e V V' x.1 x.2.
Proof.
  intros r V V' HM Hr Hfit Hh HT. pose proof HM as [Hrs (f & Hd & Hs) EV].
  assert (V' = vis (rs ++ [r])) as EV' by (unfold V', V; by rewrite vis_snoc, EV).
  unfold commit. destruct (ensureOpen (ce_open e) w) as [b w1] eqn:E1.
  apply (ensureOpen_opened _ _ _ _ f []) in E1 as [D1 V1 S1 R1 T1]; [|done].
  assert (exactly V (w_d w)) as HX by (unfold V; rewrite Hd, EV; by apply exactly_settled).
  specialize (T1 (within V V') (exactly_within _ _ _ _ HX (or_introl eq_refl)) HT). rewrite <- D1 in HX.
  assert (matches (w_m w1) (w_d w1) rs) as HM1 by (split; [done|exists f; by rewrite D1|by rewrite V1]).
  destruct b; cbn [negb]; [|split; [done|]; split_and!; by eauto].
  destruct (ce_stat e); cbn [negb]; [|split; [done|]; split_and!; by eauto].
  rewrite D1, Hd. cbn [md_now]. rewrite (st_now _ _ Hs), S1. fold r.
  assert (∀ g, w_d (on_disk (md_upd g) w1) = MkDisk (Some (g f)) []) as Hon.
  { intros g. change (md_upd g (w_d w1) = MkDisk (Some (g f)) []). by rewrite D1, Hd. }
  assert (∀ g, pending (g f) rs r → Forall (within V V') (w_trace (on_disk (md_upd g) w1))) as Htr.
  { intros g Hp. apply on_disk_trace; [done|]. rewrite EV'. unfold V. rewrite EV.
    change (md_upd g (w_d w1)) with (w_d (on_disk (md_upd g) w1)). rewrite Hon. by apply within_pending. }
  destruct (ce_written e) as [n|].
  { pose proof (pending_write f rs r n Hs Hr) as Hp.
    apply (append_failed e rs r V V' Hrs Hr EV EV' _ _ (Hon _)); [done|done|by apply Htr]. }
  destruct (pending_full f rs r Hs Hr) as [Hp Hnow]. specialize (Hon (λ f, f_write f (encode r))).
  specialize (Htr (λ f, f_write f (encode r)) Hp). set (w2 := on_disk _ w1) in *.
  destruct (ce_hookWrite e); cbn [negb]; [|by apply (append_failed e rs r V V' Hrs Hr EV EV' _ _ Hon)].
  destruct (ce_sync e); cbn [negb]; [|by apply (append_failed e rs r V V' Hrs Hr EV EV' _ _ Hon)].
  set (w3 := on_disk (md_upd f_sync) w2).
  assert (w_d w3 = MkDisk (Some (file_of (log (rs ++ [r])))) []) as D3.
  { change (w_d w3) with (md_upd f_sync (w_d w2)). rewrite Hon, <- Hnow. done. }
  apply (append_committed e rs r V V' Hrs Hr EV'); [done|done|done|done|done|].
  apply on_disk_trace; [done|]. change (md_upd f_sync (w_d w2)) with (w_d w3). rewrite D3, EV'.
  eapply exactly_within; [apply exactly_settled; [apply settled_of|]|by right].
  apply Forall_app. split; [done|]. by apply Forall_singleton.
Qed.

(** ** Opening *)

Lemma settled_torn rs t : torn t → settled (f_truncate (file_of (log rs ++ t)) (len (log rs))) rs.
Proof.
  intros (r & Hr & Ht & Hne). unfold f_truncate, file_of. cbn [f_now f_base f_later].
  replace (Z.to_nat (len (log rs))) with (length (log rs)) by (unfold len; lia). rewrite take_app_length.
  split; [done|done|]. intros c [Hp (c' & Hin & Hpre)]. cbn [f_base f_later] in *.
  destruct Hp as [k ->]. exists k. split; [|done].
  assert (k `prefix_of` t) as Hk.
  { apply elem_of_app in Hin as [Hin|Hin]; apply list_elem_of_singleton in Hin as ->; [by apply prefix_app_inv in Hpre|].
    destruct Hpre as [k' E]. rewrite <- app_assoc in E.
    assert (k ++ k' = []) as Hz by (apply (app_inv_head (log rs)); by rewrite app_nil_r). destruct k; [apply prefix_nil|done]. }
  exists r. split_and!; [done|by etrans|]. intros ->. by apply Hne, (anti_symm prefix).
Qed.

(** The open after a crash: what the replay found is what memory and the file hold,
    the torn tail cut off. *)
Lemma open_spec rs t : Forall wf_record rs → torn t →
  ∃ w, openManifest true true (disk_of (Some (log rs ++ t))) = Ok (Some w) ∧
    w_m w = foldl apply_record (fresh true) rs ∧ matches (w_m w) (w_d w) rs.
Proof.
  intros Hrs Ht. unfold openManifest. cbn [negb disk_of md_now fmap option_fmap option_map file_of f_now].
  rewrite replay_log, bind_Ok by done. pose proof (settled_torn rs t Ht) as Hs. case_bool_decide as Hl; cbn [negb].
  - eexists. split; [done|]. split; [done|]. split; [done| |done]. eexists. split; [done|]. exact Hs.
  - eexists. split; [done|]. split; [done|]. split; [done| |done]. eexists. split; [done|].
    assert (t = []) as -> by (rewrite len_app in Hl; destruct t; [done|rewrite len_cons in Hl; len_facts; lia]).
    rewrite app_nil_r. apply settled_of.
Qed.
Lemma matches_reopens m d rs : matches m d rs → ∀ b, md_crash d b →
  ∃ w, openManifest true true (disk_of b) = Ok (Some w) ∧ m_visible (w_m w) = m_visible m ∧ matches (w_m w) (w_d w) rs.
Proof.
  intros [Hrs (f & -> & Hs) Hv] b (o & Ho & Hb). apply list_elem_of_singleton in Ho as ->. destruct b as [c|]; [|done].
  destruct (st_crash _ _ Hs c Hb) as (t & Ht & ->). destruct (open_spec rs t Hrs Ht) as (w & E & _ & HM).
  exists w. split_and!; [done|by rewrite (mt_visible _ _ _ HM), Hv|done].
Qed.

(** ** A history of commits *)

Record change := Change { ch_env : commit_env; ch_add : list Z; ch_remove : list Z; ch_receipt : bytes }.
(** The caller's arguments fit a record. *)
Definition fits (c : change) : Prop :=
  Forall is_u64 (ch_add c) ∧ Forall is_u64 (ch_remove c) ∧ is_bytes (ch_receipt c) ∧
  20 + 8 * len (ch_add c) + 8 * len (ch_remove c) + len (ch_receipt c) ≤ manifestRecordLimit.
(** No hook is installed, and a compaction's directory sync does not fail. *)
Definition in_production (c : change) : Prop :=
  ce_hookSync (ch_env c) = true ∧ wa_syncDir (co_atomic (ce_compact (ch_env c))) = true.
Fixpoint history (cs : list change) (w : world) : list commit_result * world :=
  match cs with
  | [] => ([], w)
  | c :: cs =>
      let x := commit (ch_env c) (ch_add c) (ch_remove c) (ch_receipt c) (World (w_m w) (w_d w) []) in
      let y := history cs x.2 in (x.1 :: y.1, y.2)
  end.
(** The set the answers promise. *)
Fixpoint promised (V : gset Z) (cs : list change) (res : list commit_result) : gset Z :=
  match cs, res with
  | c :: cs, x :: res => promised (match x with Committed => changed V (ch_add c) (ch_remove c) | _ => V end) cs res
  | _, _ => V
  end.

Lemma changed_sub V add remove : changed V add remove ⊆ V ∪ list_to_set add.
Proof. unfold changed. set_solver. Qed.
Lemma snapshot_fits_sub V W : V ⊆ W → snapshot_fits W → snapshot_fits V.
Proof. intros H. unfold snapshot_fits. pose proof (subseteq_size _ _ H). lia. Qed.
Lemma fits_wf c seq : fits c → is_u64 seq → wf_record (MkRecord seq (ch_add c) (ch_remove c) (ch_receipt c)).
Proof. intros (Ha & Hr & Hb & Hl) Hs. split; cbn [Seq Add Remove Receipt]; try done. rewrite len_payload. cbn [Add Remove Receipt]. lia. Qed.

Lemma history_spec cs : ∀ w rs,
  matches (w_m w) (w_d w) rs → Forall fits cs → Forall in_production cs →
  snapshot_fits (m_visible (w_m w) ∪ ⋃ ((λ c, list_to_set (ch_add c)) <$> cs)) →
  RollbackFailed ∉ (history cs w).1 →
  m_visible (w_m (history cs w).2) = promised (m_visible (w_m w)) cs (history cs w).1 ∧
  ∃ rs', matches (w_m (history cs w).2) (w_d (history cs w).2) rs'.
Proof.
  induction cs as [|c cs IH]; intros w rs HM Hf Hp Hs Hn; cbn [history promised fst snd] in *; [by eauto|].
  apply Forall_cons_1 in Hf as [Hfc Hf]. apply Forall_cons_1 in Hp as [[Hh Hsd] Hp].
  cbn [fmap list_fmap union_list foldr] in Hs. set (w0 := World (w_m w) (w_d w) []) in *.
  pose proof (changed_sub (m_visible (w_m w)) (ch_add c) (ch_remove c)) as Hsub.
  destruct (commit_spec (ch_env c) (ch_add c) (ch_remove c) (ch_receipt c) w0 rs) as [_ Ht];
    [done|apply fits_wf; [done|apply u64_range]| |done|constructor|].
  { eapply snapshot_fits_sub; [|exact Hs]. etrans; [exact Hsub|]. apply union_mono_l, union_subseteq_l. }
  destruct (commit _ _ _ _ w0) as [res w1]. cbn [fst snd] in *. apply not_elem_of_cons in Hn as [Hres Hn].
  assert (m_visible (w_m w1) = match res with Committed => changed (m_visible (w_m w)) (ch_add c) (ch_remove c) | _ => m_visible (w_m w) end
    ∧ ∃ rs', matches (w_m w1) (w_d w1) rs') as [Hv (rs' & HM')].
  { unfold commit_told in Ht. destruct res; [|by destruct Ht as (? & ? & ?)|done]. destruct Ht as (Hv & _ & HM').
    split; [done|by apply HM']. }
  destruct (IH w1 rs' HM' Hf Hp) as [Hv2 HM2]; [|done|by rewrite Hv2, Hv].
  eapply snapshot_fits_sub; [|exact Hs]. rewrite Hv. destruct res; set_solver.
Qed.

(** ** Bootstrap *)

(** The manifest is absent, or it names [ids]: never an empty one. *)
Definition absent_or (ids : list Z) (d : mdisk) : Prop :=
  ∀ b, md_crash d b → b = None ∨ recovered b = Ok (list_to_set ids).
Lemma absent_entries ids d : (∀ o, o ∈ md_now d :: md_old d → o = None ∨ ∃ f rs,
  o = Some f ∧ settled f rs ∧ Forall wf_record rs ∧ vis rs = list_to_set ids) → absent_or ids d.
Proof.
  intros H b (o & Ho & Hb). destruct (H o Ho) as [->|(f & rs & -> & Hs & Hrs & E)]; [left; by destruct b|].
  right. rewrite <- E. by eapply (crash_settled f rs b).
Qed.

Lemma bootstrap_spec e ids w :
  let r := MkRecord 1 ids [] [] in
  wf_record r → w_d w = MkDisk None [] → m_f (w_m w) = false → Forall (absent_or ids) (w_trace w) →
  let x := bootstrap e ids w in
  Forall (absent_or ids) (w_trace x.2) ∧ absent_or ids (w_d x.2) ∧
  (x.1 = true → m_visible (w_m x.2) = list_to_set ids ∧ matches (w_m x.2) (w_d x.2) [r]).
Proof.
  intros r Hr Hd Hf HT. unfold bootstrap. rewrite Hf. cbn [andb]. set (w1 := in_memory _ (in_memory _ w)).
  assert (w_d w1 = MkDisk None []) as D1 by done. assert (Forall (absent_or ids) (w_trace w1)) as T1 by done.
  assert (absent_or ids (MkDisk None [])) as HN.
  { apply absent_entries. intros o Ho. apply list_elem_of_singleton in Ho as ->. by left. }
  assert (vis [r] = list_to_set ids) as Hv.
  { unfold vis. cbn [foldl]. rewrite apply_visible. cbn. unfold changed. set_solver. }
  assert (Forall wf_record [r]) as Hrs by by apply Forall_singleton.
  assert (encode r = log [r]) as Hlog by (unfold log; cbn [fmap list_fmap concat]; by rewrite app_nil_r).
  fold r. rewrite Hlog. clearbody w1.
  assert (∀ o, o ∈ [Some (file_of (log [r])); None] → o = None ∨ ∃ f rs,
    o = Some f ∧ settled f rs ∧ Forall wf_record rs ∧ vis rs = list_to_set ids) as HE.
  { intros o Ho. apply elem_of_cons in Ho as [->|Ho]; [right|apply list_elem_of_singleton in Ho as ->; by left].
    exists (file_of (log [r])), [r]. by split_and!; [|apply settled_of| |]. }
  unfold writeFileAtomic. destruct (wa_create _ && _ && _ && _ && _); cbn [negb].
  2: { cbn [fst snd]. rewrite D1. by split_and!. }
  set (w2 := on_disk _ w1). assert (w_d w2 = MkDisk (Some (file_of (log [r]))) [None]) as D2.
  { change (w_d w2) with (md_rename (w_d w1) (log [r])). by rewrite D1. }
  assert (absent_or ids (w_d w2)) as H2 by (rewrite D2; by apply absent_entries).
  assert (Forall (absent_or ids) (w_trace w2)) as T2 by by apply on_disk_trace.
  destruct (wa_syncDir (co_atomic e)); cbn [negb]; [|by split_and!].
  set (w3 := on_disk _ w2). assert (w_d w3 = MkDisk (Some (file_of (log [r]))) []) as D3.
  { change (w_d w3) with (md_syncdir (w_d w2)). by rewrite D2. }
  assert (absent_or ids (w_d w3)) as H3.
  { rewrite D3. apply absent_entries. intros o Ho. apply list_elem_of_singleton in Ho as ->. apply HE. by left. }
  assert (Forall (absent_or ids) (w_trace w3)) as T3 by by apply on_disk_trace.
  set (w4 := in_memory _ w3). assert (m_visible (w_m w4) = list_to_set ids) as V4.
  { unfold w4. cbn [in_memory w_m]. rewrite apply_visible. cbn [m_visible Add Remove]. unfold changed. set_solver. }
  destruct (ensureOpen (co_open2 e) w4) as [ok w5] eqn:E5.
  apply (ensureOpen_opened _ _ _ _ (file_of (log [r])) []) in E5 as [D5 V5 _ _ T5]; [|done]. cbn [fst snd].
  split_and!; [by apply T5|by rewrite D5|]. intros _. split; [congruence|].
  split; [done|exists (file_of (log [r])); split; [by rewrite D5|apply settled_of]|congruence].
Qed.

(** ** Records past the limit *)

(** [encode] has no bound, [decodeManifestRecord] has one. *)
Lemma oversized_record r rest : is_bytes (Receipt r) → manifestRecordLimit < len (record_payload r) < 2 ^ 32 →
  decodeManifestRecord (encode r ++ rest) = Ok None.
Proof.
  intros Hb Hl. pose proof (Checksum_u32 _ (payload_bytes r Hb)) as Hc. pose proof (len_encode r) as He. len_facts.
  assert (at_off (encode r ++ rest) 0 (encode r)) as Hat by (exists [], rest; done).
  pose proof (at_off_bound _ _ _ Hat) as [_ Hbd]. unfold encode in Hat at 2. rewrite u32_small in Hat by (unfold is_digit; lia).
  apply at_off_app in Hat as [Hp1 Hat]. apply at_off_app in Hat as [Hp2 _]. rewrite ?len_le32 in *. change (0 + 4) with 4 in *.
  unfold decodeManifestRecord. change manifestRecordLimit with 16777216 in *. rewrite bool_decide_eq_false_2 by lia.
  rewrite (get32_at _ _ _ Hp1), bind_Ok, (get32_at _ _ _ Hp2), bind_Ok, u32_small by (unfold is_digit; lia).
  by rewrite bool_decide_eq_true_2 by lia.
Qed.
Lemma oversized_recovered r : is_bytes (Receipt r) → manifestRecordLimit < len (record_payload r) < 2 ^ 32 →
  recovered (Some (encode r)) = Ok ∅.
Proof.
  intros Hb Hl. pose proof (oversized_record r [] Hb Hl) as Hd. rewrite app_nil_r in Hd. clear Hl Hb.
  unfold recovered. destruct (encode r) as [|x b]; [done|]. change (length (x :: b)) with (S (length b)). cbn [replay].
  case_bool_decide; [done|]. rewrite slice_Ok, bind_Ok by (len_facts; lia).
  rewrite drop_0, take_ge by (unfold len; lia). by rewrite Hd.
Qed.
(** A snapshot of more than 2097149 groups is written and synced, and the store
    opens empty. *)
Lemma oversized_snapshot e m f :
  co_open e = true → co_close e = true → wa_create (co_atomic e) && wa_write (co_atomic e) && wa_sync (co_atomic e) && wa_close (co_atomic e) && wa_rename (co_atomic e) = true →
  wa_syncDir (co_atomic e) = true → co_open2 e = true → manifestRecordLimit < 20 + 8 * Z.of_nat (size (m_visible m)) < 2 ^ 32 →
  let x := compact e (World m (MkDisk (Some f) []) []) in
  x.1 = true ∧ ∃ b, w_d x.2 = MkDisk (Some (file_of b)) [] ∧ recovered (Some b) = Ok ∅.
Proof.
  intros Ho Hc Ha Hs Ho2 Hl. unfold compact, ensureOpen, writeFileAtomic. rewrite Ho, Hc, Ha, Hs, Ho2.
  set (ids := visibleIDs _). assert (len ids = Z.of_nat (size (m_visible m))) as El by apply visibleIDs_len. clearbody ids.
  assert (∀ seq, recovered (Some (encode (MkRecord seq ids [] []))) = Ok ∅) as Hrec.
  { intros seq. apply oversized_recovered; [constructor|]. rewrite len_payload. cbn [Add Remove Receipt]. len_nil. lia. }
  destruct (m_f (w_m (World m (MkDisk (Some f) []) []))); cbn [negb in_memory on_disk w_m w_d w_trace m_f with_f with_seq];
    (split; [done|]); eexists; (split; [reflexivity|apply Hrec]).
Qed.

(** ** Properties *)

(** C32: A manifest record is read back from its encoding with whatever follows it
    left alone, and no other prefix of the encoding reads as a record: replay
    stops exactly where an interrupted append does. *)
Theorem manifest_record_roundtrip (r : manifestRecord) (Hr : wf_record r) :
  (∀ rest, decodeManifestRecord (encode r ++ rest) = Ok (Some (r, len (encode r)))) ∧
  (∀ p, p `prefix_of` encode r → p ≠ encode r → decodeManifestRecord p = Ok None).
Proof. split; intros; [by apply decode_encode|by eapply decode_prefix]. Qed.

(** C15: Whatever system call of a commit fails and wherever a crash stops it, the
    next open finds the group set of before or the one of after. If the commit
    returned nil it finds the one of after; if it failed and was rolled back it
    finds the one of before, and memory says so too. *)
Theorem commit_atomic (e : commit_env) (add remove : list Z) (receipt : bytes) (m : manifest) (d : mdisk) (rs : list manifestRecord)
  (HM : matches m d rs) (Hr : wf_record (MkRecord (u64 (m_seq m + 1)) add remove receipt))
  (Hs : snapshot_fits (changed (m_visible m) add remove)) (Hh : ce_hookSync e = true) :
  let x := commit e add remove receipt (World m d []) in
  Forall (within (m_visible m) (changed (m_visible m) add remove)) (w_trace x.2) ∧
  commit_told e (m_visible m) (changed (m_visible m) add remove) x.1 x.2.
Proof. by apply (commit_spec e add remove receipt (World m d []) rs). Qed.

(** C13: After any number of commits, compactions included, whichever of their system
    calls failed, whatever of the disk a crash leaves opens without an error to
    exactly the group set the answers promised, with the log and memory in step
    again. Excepted are the answer [RollbackFailed], which no commit may have had, and
    a compaction whose directory sync failed; every record, and a snapshot of the
    groups, is within the limit on records. *)
Theorem commits_survive (cs : list change) (m : manifest) (d : mdisk) (rs : list manifestRecord)
  (HM : matches m d rs) (Hf : Forall fits cs) (Hp : Forall in_production cs)
  (Hs : snapshot_fits (m_visible m ∪ ⋃ ((λ c, list_to_set (ch_add c)) <$> cs)))
  (Hn : RollbackFailed ∉ (history cs (World m d [])).1) :
  let x := history cs (World m d []) in
  m_visible (w_m x.2) = promised (m_visible m) cs x.1 ∧
  ∀ b, md_crash (w_d x.2) b → ∃ w rs', openManifest true true (disk_of b) = Ok (Some w) ∧
    m_visible (w_m w) = promised (m_visible m) cs x.1 ∧ matches (w_m w) (w_d w) rs'.
Proof.
  destruct (history_spec cs (World m d []) rs HM Hf Hp Hs Hn) as [Hv [rs' HM']]. split; [done|].
  intros b Hb. destruct (matches_reopens _ _ _ HM' b Hb) as (w & E & Hv' & Hw). exists w, rs'. by rewrite Hv', Hv.
Qed.

(** C37: The bootstrap of a directory that has groups and no manifest: at every
    crash point the manifest is still absent, so that the next open decides
    again, or names every group; it is never there and empty. *)
Theorem bootstrap_atomic (e : compact_env) (ids : list Z) (Hr : wf_record (MkRecord 1 ids [] [])) :
  let x := bootstrap e ids (World (fresh false) (MkDisk None []) []) in
  Forall (absent_or ids) (w_trace x.2) ∧ absent_or ids (w_d x.2) ∧
  (x.1 = true → m_visible (w_m x.2) = list_to_set ids ∧ matches (w_m x.2) (w_d x.2) [MkRecord 1 ids [] []]).
Proof. by apply (bootstrap_spec e ids (World (fresh false) (MkDisk None []) [])). Qed.
