(* ===== verification/Store.v ===== *)
(** * The store

    [internal/storage/store.go], [receipts.go], [retention.go], [cold.go] and the
    commit of [compact_groups.go]: groups are written whole under ids of their own
    and become visible by a manifest record; removals are committed before the
    files are unlinked; an open rebuilds the index from the manifest and the files.

    Every action below is one stretch of a call in which no other call can act on
    what it touches: a section under the store's lock, or file operations on a
    path only this call knows. An action returns the disks it went through, where
    a crash can stop it. File contents are synced before their rename, so a crash
    leaves each group file whole, or its directory entry as it was. *)

From stdpp Require Import list gmap sorting.
From S2P Require Import Prelude Digits GoLib Group Manifest.
Local Open Scope Z_scope.

(** ** Definitions *)

(** *** Write ids *)

Definition maxReceipts : Z := 2 ^ 16.
Definition hex_digit (c : Z) : bool := bool_decide (48 ≤ c ≤ 57 ∨ 97 ≤ c ≤ 102 ∨ 65 ≤ c ≤ 70).
Definition ValidWriteID (id : bytes) : bool :=
  if bool_decide (len id < 8 ∨ 64 < len id) then false else forallb hex_digit id.

Record receiptSet := MkReceipts { seen : gset bytes; order : list bytes }.
Definition newReceiptSet : receiptSet := MkReceipts ∅ [].
Definition has (rs : receiptSet) (id : bytes) : bool := bool_decide (id ≠ [] ∧ id ∈ seen rs).
Fixpoint evict (fuel : nat) (rs : receiptSet) : receiptSet :=
  match fuel, order rs with
  | S fuel, o :: rest => if bool_decide (maxReceipts < len (order rs)) then evict fuel (MkReceipts (seen rs ∖ {[o]}) rest) else rs
  | _, _ => rs
  end.
Definition add_receipt (rs : receiptSet) (id : bytes) : receiptSet :=
  if bool_decide (id = []) then rs else
  if bool_decide (id ∈ seen rs) then rs else
  evict (S (length (order rs))) (MkReceipts ({[id]} ∪ seen rs) (order rs ++ [id])).
Definition receipt_count (rs : receiptSet) : Z := Z.of_nat (size (seen rs)).

(** *** The directory *)

(** The manifest, the group files by id, and what the entries that changed since
    the directory was last synced may go back to. [k_quar]: the ids that have a
    quarantine record and file. *)
Record disk := Disk { k_man : mdisk; k_files : gmap Z bytes; k_old : list (Z * option bytes); k_quar : gset Z }.
Definition k_put (d : disk) (id : Z) (b : bytes) : disk :=
  Disk (k_man d) (<[id := b]> (k_files d)) (k_old d ++ [(id, k_files d !! id)]) (k_quar d).
Definition k_del (d : disk) (id : Z) : disk :=
  Disk (k_man d) (delete id (k_files d)) (k_old d ++ [(id, k_files d !! id)]) (k_quar d).
Definition k_sync (d : disk) : disk := Disk (md_syncdir (k_man d)) (k_files d) [] (k_quar d).
Definition with_man (d : disk) (m : mdisk) : disk := Disk m (k_files d) (k_old d) (k_quar d).
(** What a crash leaves: the manifest's bytes and the group files. *)
Definition files_crash (d : disk) (fs : gmap Z bytes) : Prop :=
  ∀ id, fs !! id = k_files d !! id ∨ ∃ v, (id, v) ∈ k_old d ∧ fs !! id = v.
Definition crash (d : disk) (b : option bytes) (fs : gmap Z bytes) : Prop := md_crash (k_man d) b ∧ files_crash d fs.
Definition after_crash (d : disk) (b : option bytes) (fs : gmap Z bytes) : disk := Disk (disk_of b) fs [] (k_quar d).

(** *** The state *)

Record entry := MkEntry { e_id : Z; e_reader : Reader; e_min : Z; e_max : Z }.
Definition entry_of (id : Z) (r : Reader) : entry := MkEntry id r (r_TimeMin r) (r_TimeMax r).
Definition by_time (a b : entry) : Prop := e_min a ≤ e_min b.
#[export] Instance by_time_dec : RelDecision by_time := λ a b, Z_le_dec (e_min a) (e_min b).
Definition sortGroups (gs : list entry) : list entry := merge_sort by_time gs.

(** [AppendGroup] with an optional write id, the commit of a staged file of
    [AdoptGroupStream] with the caller's check, and [mergeAndCommit] of a batch. *)
Inductive kind := Whole (wid : bytes) | Staged (refuse : Reader → bool) | Merge (batch : list Z).
Inductive refusal := ErrDuplicateWrite | Failed | FailedUnknown | Unchanged.
Inductive answer := Stored (id : Z) | Refused (a : refusal).
Inductive phase := Reserved | Durable (r : Reader) | Discarding (a : refusal) | Answered (a : answer).
Record call := MkCall { c_kind : kind; c_id : Z; c_blob : bytes; c_phase : phase }.

Record Store := MkStore {
  s_disk : disk; s_man : manifest; s_groups : list entry; nextID : Z; s_receipts : receiptSet;
  s_unlink : list Z; tombstones : list Z; s_calls : list call; cold : gmap Z bytes }.
Definition set_disk (d : disk) (s : Store) : Store :=
  MkStore d (s_man s) (s_groups s) (nextID s) (s_receipts s) (s_unlink s) (tombstones s) (s_calls s) (cold s).
Definition set_man (m : manifest) (s : Store) : Store :=
  MkStore (s_disk s) m (s_groups s) (nextID s) (s_receipts s) (s_unlink s) (tombstones s) (s_calls s) (cold s).
Definition set_groups (gs : list entry) (s : Store) : Store :=
  MkStore (s_disk s) (s_man s) gs (nextID s) (s_receipts s) (s_unlink s) (tombstones s) (s_calls s) (cold s).
Definition set_next (n : Z) (s : Store) : Store :=
  MkStore (s_disk s) (s_man s) (s_groups s) n (s_receipts s) (s_unlink s) (tombstones s) (s_calls s) (cold s).
Definition set_receipts (r : receiptSet) (s : Store) : Store :=
  MkStore (s_disk s) (s_man s) (s_groups s) (nextID s) r (s_unlink s) (tombstones s) (s_calls s) (cold s).
Definition set_pending (u t : list Z) (s : Store) : Store :=
  MkStore (s_disk s) (s_man s) (s_groups s) (nextID s) (s_receipts s) u t (s_calls s) (cold s).
Definition set_calls (cs : list call) (s : Store) : Store :=
  MkStore (s_disk s) (s_man s) (s_groups s) (nextID s) (s_receipts s) (s_unlink s) (tombstones s) cs (cold s).
Definition set_cold (c : gmap Z bytes) (s : Store) : Store :=
  MkStore (s_disk s) (s_man s) (s_groups s) (nextID s) (s_receipts s) (s_unlink s) (tombstones s) (s_calls s) c.
Definition set_phase (i : nat) (p : phase) (s : Store) : Store :=
  set_calls (alter (λ c, MkCall (c_kind c) (c_id c) (c_blob c) p) i (s_calls s)) s.

(** *** Actions *)

(** A step of a call: the store and the disks on the way. *)
Definition moved : Type := Store * list disk.
Definition quiet (s : Store) : moved := (s, []).
Definition put_disk (d : disk) (x : moved) : moved := (set_disk d x.1, x.2 ++ [d]).

(** [s.man.commit] on the store. *)
Definition man_commit (e : commit_env) (add remove : list Z) (receipt : bytes) (s : Store) : commit_result * moved :=
  let x := commit e add remove receipt (World (s_man s) (k_man (s_disk s)) []) in
  (x.1, (set_disk (with_man (s_disk s) (w_d x.2)) (set_man (w_m x.2) s), with_man (s_disk s) <$> w_trace x.2)).

(** [AppendGroupIdempotent] up to the id, the start of [AdoptGroupStream] and the
    id of [mergeAndCommit]. *)
Definition begin (k : kind) (blob : bytes) (s : Store) : moved :=
  if match k with Whole wid => has (s_receipts s) wid | _ => false end then quiet s else
  quiet (set_calls (s_calls s ++ [MkCall k (nextID s) blob Reserved]) (set_next (u64 (nextID s + 1)) s)).

(** The parse of the file and the caller's checks. *)
Definition accepted (k : kind) (mmapOk : bool) (blob : bytes) : option Reader :=
  if negb mmapOk then None else
  match ReadGroup blob with
  | Good r => match k with Staged refuse => if bool_decide (r_Rows r ≤ 0) || refuse r then None else Some r | _ => Some r end
  | _ => None
  end.

(** [writeFileAtomic] of the group file and its parse; for a staged file the write
    of the temporary, its parse, the rename and the directory's sync. *)
Definition publish (i : nat) (e : atomic_env) (mmapOk : bool) (s : Store) : option moved :=
  c ← s_calls s !! i;
  match c_phase c with
  | Reserved =>
      let staged := match c_kind c with Staged _ => true | _ => false end in
      let x := quiet s in
      if negb (wa_create e && wa_write e && wa_sync e && wa_close e) then
        Some (quiet (set_phase i (if staged then Answered (Refused Failed) else Discarding Failed) s)) else
      if staged && match accepted (c_kind c) mmapOk (c_blob c) with None => true | Some _ => false end then Some (quiet (set_phase i (Answered (Refused Failed)) s)) else
      if negb (wa_rename e) then Some (quiet (set_phase i (if staged then Answered (Refused Failed) else Discarding Failed) s)) else
      let x := put_disk (k_put (s_disk s) (c_id c) (c_blob c)) x in
      if negb (wa_syncDir e) then Some (set_phase i (Discarding Failed) x.1, x.2) else
      let x := put_disk (k_sync (s_disk x.1)) x in
      match accepted (c_kind c) mmapOk (c_blob c) with
      | None => Some (set_phase i (Discarding Failed) x.1, x.2)
      | Some r => Some (set_phase i (Durable r) x.1, x.2)
      end
  | _ => None
  end.

Definition stillPresent (batch : list Z) (s : Store) : bool := forallb (λ id, bool_decide (id ∈ (e_id <$> s_groups s))) batch.
(** The critical section of [commitGroupFile] and of [mergeAndCommit]. *)
Definition enter (i : nat) (e : commit_env) (s : Store) : option (commit_result * moved) :=
  c ← s_calls s !! i;
  match c_phase c with
  | Durable r =>
      let wid := match c_kind c with Whole wid => wid | _ => [] end in
      let batch := match c_kind c with Merge batch => batch | _ => [] end in
      if negb (stillPresent batch s) then Some (Committed, quiet (set_phase i (Discarding Unchanged) s)) else
      if has (s_receipts s) wid then Some (Committed, quiet (set_phase i (Discarding ErrDuplicateWrite) s)) else
      let '(res, x) := man_commit e [c_id c] batch wid s in
      match res with
      | CommitFailed => Some (res, (set_phase i (Discarding Failed) x.1, x.2))
      | RollbackFailed => Some (res, (set_phase i (Answered (Refused FailedUnknown)) x.1, x.2))
      | Committed =>
          let s := x.1 in
          let kept := filter (λ g, e_id g ∉ batch) (s_groups s) in
          let s := set_receipts (add_receipt (s_receipts s) wid) s in
          let s := set_groups (sortGroups (kept ++ [entry_of (c_id c) r])) s in
          let s := set_pending (s_unlink s ++ batch) (tombstones s) s in
          Some (res, (set_phase i (Answered (Stored (c_id c))) s, x.2))
      end
  | _ => None
  end.

(** [discardUncommitted]. *)
Definition discard (i : nat) (removeOk syncOk : bool) (s : Store) : option moved :=
  c ← s_calls s !! i;
  match c_phase c with
  | Discarding a =>
      let x := (set_phase i (Answered (Refused a)) s, []) in
      if bool_decide (c_id c ∈ m_visible (s_man s)) then Some x else
      if negb (removeOk && bool_decide (is_Some (k_files (s_disk s) !! c_id c))) then Some x else
      let x := put_disk (k_del (s_disk s) (c_id c)) x in
      if negb syncOk then Some x else Some (put_disk (k_sync (s_disk x.1)) x)
  | _ => None
  end.

(** The commit of [dropGroups], and the unlinks that follow it. *)
Definition dropGroups (drops : entry → bool) (e : commit_env) (s : Store) : commit_result * moved :=
  let victims := filter (λ g, drops g = true) (s_groups s) in
  let kept := filter (λ g, drops g = false) (s_groups s) in
  if bool_decide (victims = []) then (Committed, quiet s) else
  let '(res, x) := man_commit e [] (e_id <$> victims) [] s in
  match res with
  | Committed => (res, (set_pending (s_unlink x.1 ++ (e_id <$> victims)) (tombstones x.1) (set_groups kept x.1), x.2))
  | _ => (res, x)
  end.
Definition DropGroupsBefore (cutoff : Z) : entry → bool := λ g, bool_decide (e_max g < cutoff).
(** [os.Remove], of a file that may be gone. *)
Definition remove_file (id : Z) (s : Store) : moved :=
  if bool_decide (is_Some (k_files (s_disk s) !! id)) then put_disk (k_del (s_disk s) id) (quiet s) else quiet s.
Definition unlink (removeOk : bool) (s : Store) : option moved :=
  match s_unlink s with
  | [] => None
  | id :: rest =>
      if removeOk then Some (remove_file id (set_pending rest (tombstones s) s))
      else Some (quiet (set_pending rest (tombstones s ++ [id]) s))
  end.
(** One tombstone of [retryTombstones]; one that fails again is kept. *)
Definition retryTombstone (removeOk : bool) (s : Store) : option moved :=
  match tombstones s with
  | [] => None
  | id :: rest =>
      if removeOk then Some (remove_file id (set_pending (s_unlink s) rest s))
      else Some (quiet (set_pending (s_unlink s) (rest ++ [id]) s))
  end.

Definition CommitReceipt (wid : bytes) (e : commit_env) (s : Store) : commit_result * moved :=
  if bool_decide (wid = []) then (Committed, quiet s) else
  if has (s_receipts s) wid then (Committed, quiet s) else
  let '(res, x) := man_commit e [] [] wid s in
  match res with
  | Committed => (res, (set_receipts (add_receipt (s_receipts x.1) wid) x.1, x.2))
  | _ => (res, x)
  end.

(** One group of [Demote]: the upload, the committed removal, the unlink. *)
Definition demote (id : Z) (readOk putOk : bool) (e : commit_env) (s : Store) : option (commit_result * moved) :=
  if negb (bool_decide (id ∈ (e_id <$> s_groups s)) && readOk && putOk) then Some (Committed, quiet s) else
  b ← k_files (s_disk s) !! id;
  let s := set_cold (<[id := b]> (cold s)) s in
  let '(res, x) := man_commit e [] [id] [] s in
  match res with
  | Committed => Some (res, (set_pending (s_unlink x.1 ++ [id]) (tombstones x.1) (set_groups (filter (λ g, e_id g ≠ id) (s_groups x.1)) x.1), x.2))
  | _ => Some (res, x)
  end.
(** [Promote] of the cold object that carries the name of group [id]. *)
Definition promote (id : Z) (a : atomic_env) (mmapOk : bool) (e : commit_env) (s : Store) : option (commit_result * moved) :=
  b ← cold s !! id;
  if negb (wa_create a && wa_write a && wa_sync a && wa_close a && wa_rename a) then Some (Committed, quiet s) else
  let x := put_disk (k_put (s_disk s) id b) (quiet s) in
  if negb (wa_syncDir a) then Some (Committed, x) else
  let x := put_disk (k_sync (s_disk x.1)) x in
  match accepted (Whole []) mmapOk b with
  | None => Some (Committed, x)
  | Some r =>
      if bool_decide (id ∈ (e_id <$> s_groups x.1)) then Some (Committed, x) else
      let '(res, y) := man_commit e [id] [] [] x.1 in
      match res with
      | Committed => Some (res, (set_groups (sortGroups (s_groups y.1 ++ [entry_of id r])) y.1, x.2 ++ y.2))
      | _ => Some (res, (y.1, x.2 ++ y.2))
      end
  end.

(** *** Runs *)

Inductive action :=
| Begin (k : kind) (blob : bytes)
| Publish (i : nat) (e : atomic_env) (mmapOk : bool)
| Enter (i : nat) (e : commit_env)
| Discard (i : nat) (removeOk syncOk : bool)
| Drop (drops : entry → bool) (e : commit_env)
| Unlink (removeOk : bool)
| Retry (removeOk : bool)
| RecordReceipt (wid : bytes) (e : commit_env)
| Demote (id : Z) (readOk putOk : bool) (e : commit_env)
| Promote (id : Z) (a : atomic_env) (mmapOk : bool) (e : commit_env).
(** One action of any interleaving: what its commit answered ([Committed] where it
    made none), the store after it, and the disks on the way. *)
Definition step (a : action) (s : Store) : option (commit_result * moved) :=
  match a with
  | Begin k blob => Some (Committed, begin k blob s)
  | Publish i e mm => x ← publish i e mm s; Some (Committed, x)
  | Enter i e => enter i e s
  | Discard i r y => x ← discard i r y s; Some (Committed, x)
  | Drop drops e => Some (dropGroups drops e s)
  | Unlink r => x ← unlink r s; Some (Committed, x)
  | Retry r => x ← retryTombstone r s; Some (Committed, x)
  | RecordReceipt wid e => Some (CommitReceipt wid e s)
  | Demote id r p e => demote id r p e s
  | Promote id a mm e => promote id a mm e s
  end.

(** *** Opening *)

Inductive CorruptionPolicy := CorruptionFail | CorruptionQuarantine.
(** The results of the system calls of an open. [oe_mmap], [oe_remove]: by id. *)
Record quarantine_env := QuarantineEnv { qe_prepare : bool; qe_rename : bool; qe_sync : bool }.
Record open_env := OpenEnv {
  oe_read : bool; oe_truncate : bool; oe_mmap : Z → bool; oe_quarantine : Z → quarantine_env; oe_bootstrap : compact_env;
  oe_open : bool; oe_commit : commit_env; oe_remove : Z → bool }.

(** [quarantineGroup]: the record and its checksum, then the move, then the syncs
    of both directories. *)
Definition quarantineGroup (e : quarantine_env) (id : Z) (d : disk) : bool * disk :=
  if negb (qe_prepare e) then (false, d) else
  if negb (qe_rename e && bool_decide (is_Some (k_files d !! id))) then (false, d) else
  let d := Disk (k_man d) (delete id (k_files d)) (k_old d ++ [(id, k_files d !! id)]) ({[id]} ∪ k_quar d) in
  if negb (qe_sync e) then (false, d) else (true, k_sync d).
(** A group file that can be mapped and parsed. *)
Definition readable (e : open_env) (d : disk) (id : Z) : option Reader :=
  if negb (oe_mmap e id) then None else
  b ← k_files d !! id; match ReadGroup b with Good r => Some r | _ => None end.

(** The loop over a directory that predates the manifest: the ids to name. [None]:
    the open fails. *)
Fixpoint adopt (e : open_env) (p : CorruptionPolicy) (ids : list Z) (d : disk) : option (list Z) * list disk * disk :=
  match ids with
  | [] => (Some [], [], d)
  | id :: ids =>
      match readable e d id, p with
      | Some _, _ => let '(rest, t, d) := adopt e p ids d in (cons id <$> rest, t, d)
      | None, CorruptionFail => (None, [], d)
      | None, CorruptionQuarantine =>
          let '(ok, d) := quarantineGroup (oe_quarantine e id) id d in
          if negb ok then (None, [d], d) else let '(rest, t, d') := adopt e p ids d in (rest, d :: t, d')
      end
  end.
(** The loop over the committed ids: the groups, the ids to remove, the next id. *)
Fixpoint load (e : open_env) (p : CorruptionPolicy) (ids : list Z) (next : Z) (d : disk) : option (list entry * list Z * Z) * list disk * disk :=
  match ids with
  | [] => (Some ([], [], next), [], d)
  | id :: ids =>
      let next := if bool_decide (next ≤ id) then u64 (id + 1) else next in
      match k_files d !! id with
      | None =>
          if bool_decide (id ∈ k_quar d) then
            let '(rest, t, d) := load e p ids next d in
            ((λ x : list entry * list Z * Z, (x.1.1, id :: x.1.2, x.2)) <$> rest, t, d)
          else (None, [], d)
      | Some _ =>
          match readable e d id, p with
          | Some r, _ =>
              let '(rest, t, d) := load e p ids next d in
              ((λ x : list entry * list Z * Z, (entry_of id r :: x.1.1, x.1.2, x.2)) <$> rest, t, d)
          | None, CorruptionFail => (None, [], d)
          | None, CorruptionQuarantine =>
              let '(ok, d) := quarantineGroup (oe_quarantine e id) id d in
              if negb ok then (None, [d], d) else
              let '(rest, t, d') := load e p ids next d in
              ((λ x : list entry * list Z * Z, (x.1.1, id :: x.1.2, x.2)) <$> rest, d :: t, d')
          end
      end
  end.
Fixpoint reclaimOrphanGroups (e : open_env) (m : manifest) (ids : list Z) (d : disk) : list disk * disk :=
  match ids with
  | [] => ([], d)
  | id :: ids =>
      let keep := negb (bool_decide (id ∈ m_retired m)) || bool_decide (id ∈ m_visible m) || bool_decide (id ∈ k_quar d) in
      if keep || negb (oe_remove e id && bool_decide (is_Some (k_files d !! id))) then reclaimOrphanGroups e m ids d
      else let d := k_del d id in let '(t, d') := reclaimOrphanGroups e m ids d in (d :: t, d')
  end.
Definition on_disk_ids (d : disk) : list Z := (map_to_list (k_files d)).*1.
(** The smallest id above every id of a list. *)
Definition above (ids : list Z) (n : Z) : Z := foldl (λ n id, if bool_decide (n ≤ id) then u64 (id + 1) else n) n ids.

(** [OpenStoreWith] on the directory [d]: [None] is an error. *)
Definition OpenStoreWith (e : open_env) (p : CorruptionPolicy) (d : disk) : outcome (option Store * list disk) :=
  r ← openManifest (oe_read e) (oe_truncate e) (k_man d);
  match r with
  | None => Ok (None, [d])
  | Some w =>
      let receipts := foldl add_receipt newReceiptSet (m_receipts (w_m w)) in
      let onDisk := on_disk_ids d in
      let d0 := with_man d (w_d w) in
      let t0 := with_man d <$> w_trace w in
      let legacy := negb (preexisted (w_m w)) && negb (bool_decide (onDisk = [])) in
      let '(ids, t1, d1) := if legacy then adopt e p onDisk d0 else (Some [], [], d0) in
      match ids with
      | None => Ok (None, t0 ++ t1)
      | Some ids =>
          let '(ok, w1) :=
            if legacy then bootstrap (oe_bootstrap e) (merge_sort Z.le ids) (World (w_m w) (k_man d1) []) else (true, World (w_m w) (k_man d1) []) in
          let t2 := t0 ++ t1 ++ (with_man d1 <$> w_trace w1) in
          if negb ok then Ok (None, t2) else
          let '(ok, w2) := ensureOpen (oe_open e) (World (w_m w1) (w_d w1) []) in
          let t3 := t2 ++ (with_man d1 <$> w_trace w2) in
          if negb ok then Ok (None, t3) else
          let d2 := with_man d1 (w_d w2) in
          let next := above (elements (k_quar d2)) (above onDisk 0) in
          let '(groups, t4, d3) := load e p (visibleIDs (w_m w2)) next d2 in
          match groups with
          | None => Ok (None, t3 ++ t4)
          | Some (gs, removals, next) =>
              let '(res, w3) :=
                if bool_decide (removals = []) then (Committed, World (w_m w2) (k_man d3) [])
                else commit (oe_commit e) [] removals [] (World (w_m w2) (k_man d3) []) in
              let t5 := t3 ++ t4 ++ (with_man d3 <$> w_trace w3) in
              match res with
              | Committed =>
                  let '(t6, d4) := reclaimOrphanGroups e (w_m w3) onDisk (with_man d3 (w_d w3)) in
                  Ok (Some (MkStore d4 (w_m w3) (sortGroups gs) next receipts [] [] [] ∅), t5 ++ t6)
              | _ => Ok (None, t5)
              end
          end
      end
  end.

(** *** Reads of the index *)

Definition Len (s : Store) : Z := len (s_groups s).
Definition TotalRows (s : Store) : Z := foldl (λ n g, n + r_Rows (e_reader g)) 0 (s_groups s).
Definition TailCursor (s : Store) : Z := foldl (λ next g, if bool_decide (next < u64 (e_id g + 1)) then u64 (e_id g + 1) else next) 0 (s_groups s).
Definition SnapshotAfterID (cursor : Z) (s : Store) : list entry * Z :=
  let gs := filter (λ g, cursor ≤ e_id g) (s_groups s) in
  (gs, foldl (λ next g, if bool_decide (next < u64 (e_id g + 1)) then u64 (e_id g + 1) else next) cursor gs).
Definition NewestTimestamp (s : Store) : Z := foldl (λ n g, if bool_decide (n < e_max g) then e_max g else n) 0 (s_groups s).
