(* ===== verification/StoreOk.v ===== *)
(** * The store: what a crash cannot take

    The invariant of the store between actions: memory, the manifest and the files
    agree, and nothing names a file that is not synced. It holds after every
    action of any interleaving of appends, adoptions, merges, removals and
    demotions, and every disk on the way opens to the groups of before the action
    or of after it. *)

From Stdlib Require Import ZifyBool.
From S2P Require Import Prelude Digits GoLib Group.
From stdpp Require Import list gmap sorting.
From S2P Require Import Manifest ManifestOk Store.
Local Open Scope Z_scope.

(** ** The disk *)

Definition visible (s : Store) : gset Z := m_visible (s_man s).
(** A group file no crash can take back. *)
Definition durable (d : disk) (id : Z) (b : bytes) : Prop := k_files d !! id = Some b ∧ ∀ v, (id, v) ∉ k_old d.
(** Every id of a set has a file that parses. *)
Definition serves (fs : gmap Z bytes) (V : gset Z) : Prop := ∀ id, id ∈ V → ∃ b r, fs !! id = Some b ∧ ReadGroup b = Good r.
(** The ids the directory may name are below [n]. *)
Definition named (d : disk) (n : Z) : Prop :=
  ∀ id, is_Some (k_files d !! id) ∨ (∃ v, (id, v) ∈ k_old d) ∨ id ∈ k_quar d → 0 ≤ id < n.
Definition crash_serves (P : gset Z → Prop) (d : disk) : Prop :=
  named d (2 ^ 64 - 1) ∧ ∀ b fs, crash d b fs → ∃ V, finds b V ∧ P V ∧ serves fs V.
Definition either (V V' : gset Z) (U : gset Z) : Prop := U = V ∨ U = V'.
(** Every id of [V] is durable. *)
Definition held (d : disk) (V : gset Z) : Prop := ∀ id, id ∈ V → ∃ b r, durable d id b ∧ ReadGroup b = Good r.

Lemma durable_crash d id b fs : durable d id b → files_crash d fs → fs !! id = Some b.
Proof. intros [Hf Ho] Hc. destruct (Hc id) as [->|(v & Hv & _)]; [done|]. by destruct (Ho v). Qed.
Lemma held_serves d V fs : held d V → files_crash d fs → serves fs V.
Proof. intros H Hc id Hid. destruct (H id Hid) as (b & r & Hd & Hr). exists b, r. split; [by eapply durable_crash|done]. Qed.
Lemma held_sub d V W : V ⊆ W → held d W → held d V.
Proof. intros H HW id Hid. apply HW. set_solver. Qed.
Lemma crash_serves_of P d : named d (2 ^ 64 - 1) → crashes_to P (k_man d) → (∀ V, P V → held d V) → crash_serves P d.
Proof.
  intros Hn Hm Hh. split; [done|]. intros b fs [Hb Hf]. destruct (Hm b Hb) as (V & HV & HP). exists V. split_and!; [done|done|].
  eapply held_serves; [by apply Hh|done].
Qed.
Lemma crash_serves_mono (P Q : gset Z → Prop) d : (∀ V, P V → Q V) → crash_serves P d → crash_serves Q d.
Proof. intros H [Hn Hc]. split; [done|]. intros b fs Hb. destruct (Hc b fs Hb) as (V & ? & ? & ?). eauto. Qed.
Lemma named_mono d n m : n ≤ m → named d n → named d m.
Proof. intros Hm H id Hid. specialize (H id Hid). lia. Qed.

(** The directory's operations on one id keep the other ids' files. *)
Lemma durable_put d id b id' b' : id' ≠ id → durable d id' b' → durable (k_put d id b) id' b'.
Proof.
  intros Hn [Hf Ho]. split; cbn; [by rewrite lookup_insert_ne|]. intros v Hv. apply elem_of_app in Hv as [Hv|Hv]; [by eapply Ho|].
  apply list_elem_of_singleton in Hv. by injection Hv as -> _.
Qed.
Lemma durable_del d id id' b' : id' ≠ id → durable d id' b' → durable (k_del d id) id' b'.
Proof.
  intros Hn [Hf Ho]. split; cbn; [by rewrite lookup_delete_ne|]. intros v Hv. apply elem_of_app in Hv as [Hv|Hv]; [by eapply Ho|].
  apply list_elem_of_singleton in Hv. by injection Hv as -> _.
Qed.
Lemma durable_sync d id b : k_files d !! id = Some b → durable (k_sync d) id b.
Proof. intros H. split; [done|]. intros v Hv. by apply elem_of_nil in Hv. Qed.
Lemma durable_man d m id b : durable (with_man d m) id b ↔ durable d id b.
Proof. done. Qed.

(** ** The invariant *)

Definition active (c : call) : Prop := match c_phase c with Answered _ => False | _ => True end.
Definition limit : Z := 2097100.
(** Room for [n] more actions: neither the ids nor the snapshot record run out. *)
Definition room (n : Z) (s : Store) : Prop := Z.of_nat (size (visible s)) + n ≤ limit ∧ nextID s + n < 2 ^ 64.

Definition wid_ok (wid : bytes) : Prop := is_bytes wid ∧ len wid ≤ 64.
(** A merge's batch is of distinct groups; a write id passed [ValidWriteID]. *)
Definition kind_ok (k : kind) : Prop := match k with Whole wid => wid_ok wid | Staged _ => True | Merge batch => NoDup batch end.

Record Inv (s : Store) : Prop := {
  iv_man : ∃ rs, matches (s_man s) (k_man (s_disk s)) rs;
  iv_ids : ∀ id, id ∈ visible s ↔ id ∈ (e_id <$> s_groups s);
  iv_nodup : NoDup (e_id <$> s_groups s);
  iv_files : ∀ g, g ∈ s_groups s → ∃ b r, durable (s_disk s) (e_id g) b ∧ ReadGroup b = Good r ∧ g = entry_of (e_id g) r;
  iv_next : 0 ≤ nextID s < 2 ^ 64 ∧ ∀ id, id ∈ visible s → 0 ≤ id < nextID s;
  iv_names : named (s_disk s) (nextID s);
  iv_calls : NoDup (c_id <$> s_calls s);
  iv_kind : ∀ c, c ∈ s_calls s → kind_ok (c_kind c);
  iv_reserved : ∀ c, c ∈ s_calls s → 0 ≤ c_id c < nextID s;
  iv_active : ∀ c, c ∈ s_calls s → active c → c_id c ∉ visible s;
  iv_durable : ∀ c r, c ∈ s_calls s → c_phase c = Durable r → durable (s_disk s) (c_id c) (c_blob c) ∧ ReadGroup (c_blob c) = Good r;
  iv_stored : ∀ c, c ∈ s_calls s → c_id c ∈ visible s → durable (s_disk s) (c_id c) (c_blob c);
  iv_pending : ∀ id, id ∈ s_unlink s ++ tombstones s → id ∉ visible s ∧ 0 ≤ id < nextID s ∧ ∀ c, c ∈ s_calls s → c_id c = id → ¬ active c }.

Lemma Inv_held s : Inv s → held (s_disk s) (visible s).
Proof.
  intros I id Hid. apply (iv_ids _ I), list_elem_of_fmap in Hid as (g & -> & Hg).
  destruct (iv_files _ I g Hg) as (b & r & Hd & Hr & _). by exists b, r.
Qed.
Lemma Inv_exactly s : Inv s → exactly (visible s) (k_man (s_disk s)).
Proof.
  intros I. destruct (iv_man _ I) as (rs & [Hrs (f & -> & Hs) Hv]). unfold visible. rewrite Hv. by apply exactly_settled.
Qed.
Lemma names_limit s : Inv s → named (s_disk s) (2 ^ 64 - 1).
Proof. intros I. eapply named_mono; [|apply (iv_names _ I)]. pose proof (proj1 (iv_next _ I)). lia. Qed.
Lemma Inv_crash s : Inv s → crash_serves (λ U, U = visible s) (s_disk s).
Proof.
  intros I. apply crash_serves_of; [by apply names_limit|by apply Inv_exactly|intros V ->; by apply Inv_held].
Qed.

Lemma size_ids s : Inv s → length (s_groups s) = size (visible s).
Proof.
  intros I. rewrite <- (length_fmap e_id), <- (size_list_to_set (C := gset Z) _ (iv_nodup _ I)). f_equal.
  apply set_eq. intros id. rewrite elem_of_list_to_set. symmetry. apply (iv_ids _ I).
Qed.

(** ** Commits *)

Lemma size_adds V (ids : list Z) : (size (V ∪ list_to_set ids : gset Z) ≤ size V + length ids)%nat.
Proof.
  induction ids as [|id ids IH]; cbn [list_to_set length].
  - rewrite (right_id_L ∅ (∪)). lia.
  - rewrite (union_assoc_L), (union_comm_L V), <- union_assoc_L, size_union_alt.
    assert (size ((V ∪ list_to_set ids) ∖ {[id]} : gset Z) ≤ size (V ∪ list_to_set ids : gset Z))%nat by (apply subseteq_size; set_solver).
    rewrite size_singleton. lia.
Qed.

(** A commit of the store: the manifest moves from one set to the other and the
    files, durable for both, are served whatever the crash. *)
Lemma man_commit_spec e add remove receipt s :
  let V := visible s in let V' := changed V add remove in
  (∃ rs, matches (s_man s) (k_man (s_disk s)) rs) → in_production (Change e add remove receipt) → fits (Change e add remove receipt) →
  Z.of_nat (size V) + len add ≤ limit → named (s_disk s) (2 ^ 64 - 1) → held (s_disk s) V → held (s_disk s) V' →
  let x := man_commit e add remove receipt s in
  Forall (crash_serves (either V V')) x.2.2 ∧ crash_serves (either V V') (s_disk x.2.1) ∧
  x.2.1 = set_disk (with_man (s_disk s) (k_man (s_disk x.2.1))) (set_man (s_man x.2.1) s) ∧
  match x.1 with
  | Committed => visible x.2.1 = V' ∧ ∃ rs, matches (s_man x.2.1) (k_man (s_disk x.2.1)) rs
  | CommitFailed => visible x.2.1 = V ∧ ∃ rs, matches (s_man x.2.1) (k_man (s_disk x.2.1)) rs
  | RollbackFailed => visible x.2.1 = V
  end.
Proof.
  intros V V' [rs HM] [Hh Hsd] Hf Hl Hnm HV HV'. unfold man_commit.
  assert (snapshot_fits V') as Hs.
  { apply (snapshot_fits_sub _ (V ∪ list_to_set add)); [apply changed_sub|]. unfold snapshot_fits.
    pose proof (size_adds V add). unfold len, limit in *. change manifestRecordLimit with 16777216. lia. }
  destruct (commit_spec e add remove receipt (World (s_man s) (k_man (s_disk s)) []) rs HM) as [HT Ht]; [|done|done|constructor|].
  { apply (fits_wf (Change e add remove receipt)); [done|apply u64_range]. }
  destruct (commit _ _ _ _ _) as [res w]. cbn [fst snd w_m w_d] in *.
  assert (∀ d', within V V' d' → crash_serves (either V V') (with_man (s_disk s) d')) as Hw.
  { intros d' Hd'. apply crash_serves_of; [exact Hnm|exact Hd'|]. by intros U [->| ->]. }
  split_and!; [| |done|].
  - apply Forall_fmap. eapply Forall_impl; [exact HT|exact Hw].
  - apply Hw. unfold commit_told in Ht. destruct res; [| |apply Ht]; (eapply exactly_within; [apply Ht|]); [by right|by left].
  - unfold commit_told in Ht. destruct res; [| |apply Ht]; destruct Ht as (? & ? & ?); split; auto.
Qed.

(** ** Preservation *)

(** A new disk under the same store. *)
Lemma Inv_disk s d : Inv s → (∃ rs, matches (s_man s) (k_man d) rs) →
  (∀ id b, (id ∈ visible s ∨ ∃ c r, c ∈ s_calls s ∧ c_phase c = Durable r ∧ c_id c = id) →
    durable (s_disk s) id b → durable d id b) → named d (nextID s) → Inv (set_disk d s).
Proof.
  intros I Hm Hd Hnm. split; try apply I; cbn [set_disk s_disk s_man s_groups s_calls s_unlink tombstones nextID] in *.
  - done.
  - intros g Hg. destruct (iv_files _ I g Hg) as (b & r & Hb & ? & ?). exists b, r. split_and!; [|done|done].
    apply Hd; [left; apply (iv_ids _ I); by apply list_elem_of_fmap_2|done].
  - done.
  - intros c r Hc Hp. destruct (iv_durable _ I c r Hc Hp) as [Hb Hr]. split; [|done]. apply Hd; [right; by exists c, r|done].
  - intros c Hc Hv. apply Hd; [by left|]. by apply (iv_stored _ I).
Qed.
(** What the directory names after each of its operations. *)
Lemma named_put d id b n : named d n → 0 ≤ id < n → named (k_put d id b) n.
Proof.
  intros H Hid j [Hj|[[v Hj]|Hj]]; cbn in Hj; [|apply elem_of_app in Hj as [Hj|Hj]|].
  - destruct (decide (j = id)) as [->|Hne]; [done|]. rewrite lookup_insert_ne in Hj by done. apply H. by left.
  - apply H. right; left. by exists v.
  - apply list_elem_of_singleton in Hj. by injection Hj as -> _.
  - apply H. by right; right.
Qed.
Lemma named_del d id n : named d n → 0 ≤ id < n → named (k_del d id) n.
Proof.
  intros H Hid j [Hj|[[v Hj]|Hj]]; cbn in Hj; [|apply elem_of_app in Hj as [Hj|Hj]|].
  - destruct (decide (j = id)) as [->|Hne]; [done|]. rewrite lookup_delete_ne in Hj by done. apply H. by left.
  - apply H. right; left. by exists v.
  - apply list_elem_of_singleton in Hj. by injection Hj as -> _.
  - apply H. by right; right.
Qed.
Lemma named_sync d n : named d n → named (k_sync d) n.
Proof. intros H j [Hj|[[v Hj]|Hj]]; cbn in Hj; [apply H; by left|by apply elem_of_nil in Hj|apply H; by right; right]. Qed.
(** [k_sync] keeps what is durable; the manifest's entry was synced already. *)
Lemma Inv_sync s : Inv s → Inv (set_disk (k_sync (s_disk s)) s).
Proof.
  intros I. apply Inv_disk; [done| | |apply named_sync, (iv_names _ I)].
  - destruct (iv_man _ I) as (rs & [Hrs (f & E & Hs) Hv]). exists rs. split; [done| |done]. exists f. cbn. by rewrite E.
  - intros id b _ [Hf _]. by apply durable_sync.
Qed.
(** The other calls and the visible groups are not named by an active call's id. *)
Lemma other_id s i c id : Inv s → s_calls s !! i = Some c → active c → (∀ r, c_phase c ≠ Durable r) →
  (id ∈ visible s ∨ ∃ c r, c ∈ s_calls s ∧ c_phase c = Durable r ∧ c_id c = id) → id ≠ c_id c.
Proof.
  intros I Hi Ha Hp [Hv|(c' & r & Hc' & Hr & <-)] E.
  - apply (iv_active _ I c); [by eapply list_elem_of_lookup_2|done|by rewrite <- E].
  - apply list_elem_of_lookup in Hc' as [j Hj].
    assert (i = j) as <-.
    { eapply (NoDup_lookup (c_id <$> s_calls s)); [apply I| |]; rewrite list_lookup_fmap, ?Hi, ?Hj; cbn; [done|by rewrite E]. }
    rewrite Hi in Hj. injection Hj as <-. by apply (Hp r).
Qed.
Lemma Inv_put s i c b : Inv s → s_calls s !! i = Some c → active c → (∀ r, c_phase c ≠ Durable r) →
  Inv (set_disk (k_put (s_disk s) (c_id c) b) s).
Proof.
  intros I Hi Ha Hp. apply Inv_disk; [done|apply (iv_man _ I)| |].
  - intros id b' Hid. apply durable_put. by eapply other_id.
  - apply named_put; [apply (iv_names _ I)|]. apply (iv_reserved _ I). by eapply list_elem_of_lookup_2.
Qed.
Lemma Inv_del s i c : Inv s → s_calls s !! i = Some c → active c → (∀ r, c_phase c ≠ Durable r) →
  Inv (set_disk (k_del (s_disk s) (c_id c)) s).
Proof.
  intros I Hi Ha Hp. apply Inv_disk; [done|apply (iv_man _ I)| |].
  - intros id b' Hid. apply durable_del. by eapply other_id.
  - apply named_del; [apply (iv_names _ I)|]. apply (iv_reserved _ I). by eapply list_elem_of_lookup_2.
Qed.

Lemma alter_ids i p (l : list call) : c_id <$> alter (λ c, MkCall (c_kind c) (c_id c) (c_blob c) p) i l = c_id <$> l.
Proof. revert i. induction l as [|c l IH]; intros [|i]; [done..|]. cbn. f_equal. apply IH. Qed.

Lemma alter_other {A} (f : A → A) i (l : list A) x : x ∈ alter f i l → (∃ j, l !! j = Some x ∧ i ≠ j) ∨ ∃ y, l !! i = Some y ∧ x = f y.
Proof.
  rewrite list_elem_of_lookup. intros [j Hj]. destruct (decide (i = j)) as [->|Hn].
  - rewrite list_lookup_alter_eq in Hj. destruct (l !! j) eqn:E; [|done]. injection Hj as <-. eauto.
  - rewrite list_lookup_alter_ne in Hj by done. eauto.
Qed.

(** The calls after one of them moved to phase [p]. *)
Lemma phase_calls s i p c' : c' ∈ s_calls (set_phase i p s) →
  c' ∈ s_calls s ∨ ∃ c, s_calls s !! i = Some c ∧ c' = MkCall (c_kind c) (c_id c) (c_blob c) p.
Proof. intros [(j & Hj & _)|H]%alter_other; [left; by eapply list_elem_of_lookup_2|by right]. Qed.

Lemma Inv_phase s i c p : Inv s → s_calls s !! i = Some c → active c →
  (∀ r, p = Durable r → durable (s_disk s) (c_id c) (c_blob c) ∧ ReadGroup (c_blob c) = Good r) → Inv (set_phase i p s).
Proof.
  intros I Hi Ha Hp. pose proof (list_elem_of_lookup_2 _ _ _ Hi) as Hc. pose proof (iv_active _ I c Hc Ha) as Hv.
  assert (∀ c', c' ∈ s_calls (set_phase i p s) → c' ∈ s_calls s ∨ c' = MkCall (c_kind c) (c_id c) (c_blob c) p) as H.
  { intros c' Hc'. apply phase_calls in Hc' as [|(c2 & Hc2 & ->)]; [by left|]. rewrite Hi in Hc2. injection Hc2 as <-. by right. }
  split; try apply I.
  - change (NoDup (c_id <$> alter (λ c, MkCall (c_kind c) (c_id c) (c_blob c) p) i (s_calls s))). rewrite alter_ids. apply I.
  - intros c' [Hc'| ->]%H; [by apply (iv_kind _ I)|exact (iv_kind _ I c Hc)].
  - intros c' [Hc'| ->]%H; [by apply (iv_reserved _ I)|exact (iv_reserved _ I c Hc)].
  - intros c' [Hc'| ->]%H; [by apply (iv_active _ I)|done].
  - intros c' r [Hc'| ->]%H; [by apply (iv_durable _ I)|]. apply Hp.
  - intros c' [Hc'| ->]%H; [by apply (iv_stored _ I)|done].
  - intros id Hid. destruct (iv_pending _ I id Hid) as (Hn & Hb & Hq). split_and!; [done|apply Hb..|].
    intros c' [Hc'| ->]%H E; [by apply Hq|]. cbn in E. destruct (Hq c Hc E Ha).
Qed.
Lemma Inv_begin s k blob : Inv s → room 1 s → kind_ok k → Inv (begin k blob s).1.
Proof.
  intros I [_ Hr] Hk. unfold begin. destruct (match k with Whole wid => _ | _ => _ end); [done|]. cbn [fst quiet].
  pose proof (iv_next _ I) as [H0 Hn]. rewrite u64_small by (unfold is_digit; lia).
  assert (∀ c, c ∈ s_calls s → c_id c ≠ nextID s) as Hne by (intros c Hc; pose proof (iv_reserved _ I c Hc); lia).
  assert (∀ c (P : call → Prop), c ∈ s_calls s ++ [MkCall k (nextID s) blob Reserved] → P (MkCall k (nextID s) blob Reserved) →
    (∀ c, c ∈ s_calls s → P c) → P c) as H.
  { intros c P Hc H1 H2. apply elem_of_app in Hc as [Hc|Hc]; [by apply H2|]. apply list_elem_of_singleton in Hc as ->. done. }
  assert (nextID s ∉ visible s) as Hnv by (intros Hv; specialize (Hn _ Hv); lia).
  split; cbn [set_calls set_next s_disk s_man s_groups nextID s_calls s_unlink tombstones]; try apply I.
  - split; [lia|]. intros id Hid. specialize (Hn id Hid). lia.
  - eapply named_mono; [|apply (iv_names _ I)]. lia.
  - rewrite fmap_app. apply NoDup_app. split_and!; [apply I| |apply NoDup_singleton].
    intros id Hid Hs. apply list_elem_of_singleton in Hs as ->. apply list_elem_of_fmap in Hid as (c & E & Hc). by apply (Hne c).
  - intros c Hc. apply (H c (λ c, kind_ok (c_kind c)) Hc); [done|]. by apply I.
  - intros c Hc. apply (H c (λ c, 0 ≤ c_id c < nextID s + 1) Hc); [cbn; lia|]. intros c' Hc'. pose proof (iv_reserved _ I c' Hc'). lia.
  - intros c Hc. apply (H c (λ c, active c → c_id c ∉ visible s) Hc); [done|]. by apply I.
  - intros c r Hc. apply (H c (λ c, c_phase c = Durable r → durable (s_disk s) (c_id c) (c_blob c) ∧ ReadGroup (c_blob c) = Good r) Hc); [done|].
    intros c' Hc'. by apply I.
  - intros c Hc. apply (H c (λ c, c_id c ∈ visible s → durable (s_disk s) (c_id c) (c_blob c)) Hc); [done|]. by apply I.
  - intros id Hid. destruct (iv_pending _ I id Hid) as (Hp & Hb & Hq). split_and!; [done|lia|lia|].
    intros c Hc. apply (H c (λ c, c_id c = id → ¬ active c) Hc); [cbn; lia|done].
Qed.
Lemma Inv_pending s u t : Inv s → (∀ id, id ∈ u ++ t → id ∈ s_unlink s ++ tombstones s) → Inv (set_pending u t s).
Proof. intros I H. split; try apply I. intros id Hid. by apply (iv_pending _ I), H. Qed.
Lemma Inv_receipts s r : Inv s → Inv (set_receipts r s).
Proof. intros I. by split; try apply I. Qed.
Lemma Inv_cold s c : Inv s → Inv (set_cold c s).
Proof. intros I. by split; try apply I. Qed.
Lemma Inv_remove s id : Inv s → id ∉ visible s → (∀ c, c ∈ s_calls s → c_id c = id → ¬ active c) → Inv (remove_file id s).1.
Proof.
  intros I Hv Hc. unfold remove_file. case_bool_decide as Hf; [|done]. cbn [fst put_disk quiet].
  pose proof (iv_names _ I) as Hnm. apply Inv_disk; [done|apply (iv_man _ I)| |by apply named_del; [|apply Hnm; left]]. intros id' b Hid. apply durable_del. intros ->.
  destruct Hid as [|(c & r & Hc' & Hp & E)]; [done|]. apply (Hc c Hc' E). unfold active. by rewrite Hp.
Qed.

(** *** What a commit makes of the store *)

(** The groups after a commit that adds [news] and removes [rem]. *)
Lemma Inv_changed s s' (news : list entry) (rem : list Z) :
  Inv s → (∀ id, id ∈ rem → id ∈ visible s) → NoDup (e_id <$> news) → (∀ g, g ∈ news → e_id g ∉ visible s ∧ 0 ≤ e_id g < nextID s) →
  (∃ rs, matches (s_man s') (k_man (s_disk s')) rs) →
  k_files (s_disk s') = k_files (s_disk s) → k_old (s_disk s') = k_old (s_disk s) → k_quar (s_disk s') = k_quar (s_disk s) →
  visible s' = changed (visible s) (e_id <$> news) rem →
  s_groups s' ≡ₚ filter (λ g, e_id g ∉ rem) (s_groups s) ++ news →
  nextID s' = nextID s → s_unlink s' ++ tombstones s' ≡ₚ s_unlink s ++ tombstones s ++ rem →
  (∀ g, g ∈ news → ∃ b r, durable (s_disk s) (e_id g) b ∧ ReadGroup b = Good r ∧ g = entry_of (e_id g) r) →
  (c_id <$> s_calls s') = (c_id <$> s_calls s) →
  (∀ c, c ∈ s_calls s' → ∃ c0, c0 ∈ s_calls s ∧ c_id c = c_id c0 ∧ c_kind c = c_kind c0 ∧ c_blob c = c_blob c0 ∧
    (active c → c = c0 ∧ c_id c ∉ (e_id <$> news))) →
  (∀ g, g ∈ news → ∃ c, c ∈ s_calls s ∧ c_id c = e_id g ∧ active c) →
  (∀ c, c ∈ s_calls s → c_id c ∈ (e_id <$> news) → durable (s_disk s) (c_id c) (c_blob c)) →
  Inv s'.
Proof.
  intros I Hrem Hnd Hnew Hm Hf Ho Hq Hv Hg Hn Hu Hnf Hci Hc Hna Hst.
  assert (∀ id b, durable (s_disk s) id b → durable (s_disk s') id b) as Hd.
  { intros id b [H1 H2]. split; [by rewrite Hf|by rewrite Ho]. }
  assert (∀ id, id ∈ visible s' ↔ (id ∈ visible s ∨ id ∈ (e_id <$> news)) ∧ id ∉ rem) as Hvis.
  { intros id. rewrite Hv. unfold changed. rewrite elem_of_difference, elem_of_union, !elem_of_list_to_set. done. }
  assert (∀ id, id ∈ (e_id <$> news) → id ∉ visible s ∧ 0 ≤ id < nextID s) as Hnews.
  { intros id (g & -> & Hgn)%list_elem_of_fmap. by apply Hnew. }
  assert (∀ id, id ∈ (e_id <$> s_groups s') ↔ (id ∈ visible s ∧ id ∉ rem) ∨ id ∈ (e_id <$> news)) as Hids.
  { intros id. rewrite Hg, fmap_app, elem_of_app, (iv_ids _ I), !list_elem_of_fmap. split.
    - intros [(g & -> & [Hgr Hgs]%list_elem_of_filter)|H]; [left; split; [by exists g|done]|by right].
    - intros [[(g & -> & Hgs) Hr]|H]; [left; exists g; split; [done|by apply list_elem_of_filter]|by right]. }
  split.
  - done.
  - intros id. rewrite Hids, Hvis. split; [tauto|]. intros [?|Hid]; [tauto|]. split; [tauto|]. intros Hr. by apply (proj1 (Hnews _ Hid)), Hrem.
  - rewrite Hg, fmap_app. apply NoDup_app. split_and!; [| |done].
    + assert (sublist (e_id <$> filter (λ g, e_id g ∉ rem) (s_groups s)) (e_id <$> s_groups s)) as Hsub by apply fmap_sublist, sublist_filter.
      eapply sublist_NoDup; [apply (iv_nodup _ I)|exact Hsub].
    + intros id (g & -> & [_ Hgs]%list_elem_of_filter)%list_elem_of_fmap Hid. apply (proj1 (Hnews _ Hid)), (iv_ids _ I). by apply list_elem_of_fmap_2.
  - intros g Hgs. rewrite Hg in Hgs. apply elem_of_app in Hgs as [[_ Hgs]%list_elem_of_filter|Hgs].
    + destruct (iv_files _ I g Hgs) as (b & r & Hb & ? & ?). exists b, r. split_and!; [by apply Hd|done|done].
    + destruct (Hnf g Hgs) as (b & r & Hb & ? & ?). exists b, r. split_and!; [by apply Hd|done|done].
  - rewrite Hn. split; [apply (proj1 (iv_next _ I))|]. intros id [[Hid|Hid] _]%Hvis; [by apply (proj2 (iv_next _ I))|by apply Hnews].
  - rewrite Hn. intros id. rewrite Hf, Ho, Hq. apply (iv_names _ I).
  - rewrite Hci. apply I.
  - intros c (c0 & Hc0 & _ & -> & _)%Hc. by apply I.
  - intros c (c0 & Hc0 & -> & _)%Hc. rewrite Hn. by apply (iv_reserved _ I).
  - intros c (c0 & Hc0 & Ei & _ & _ & Ha)%Hc Hact Hid. destruct (Ha Hact) as [-> Hnn]. apply Hvis in Hid as [[Hid|Hid] _]; [|done].
    by apply (iv_active _ I c0).
  - intros c r (c0 & Hc0 & Ei & _ & _ & Ha)%Hc Hp. destruct Ha as [-> _]; [unfold active; by rewrite Hp|].
    destruct (iv_durable _ I c0 r Hc0 Hp) as [H1 H2]. split; [by apply Hd|done].
  - intros c (c0 & Hc0 & -> & _ & -> & _)%Hc Hid. apply Hd. apply Hvis in Hid as [[Hid|Hid] _]; [by apply (iv_stored _ I)|by apply Hst].
  - intros id Hid. rewrite Hu, app_assoc, elem_of_app in Hid. rewrite Hn. destruct Hid as [Hid|Hid].
    + destruct (iv_pending _ I id Hid) as (Hp & Hb & Hq'). split_and!; [|apply Hb..|].
      * intros [[?|(g & -> & Hgn)%list_elem_of_fmap] _]%Hvis; [done|]. destruct (Hna g Hgn) as (c & Hcs & E & Ha). by apply (Hq' c).
      * intros c (c0 & Hc0 & E & _ & _ & Ha)%Hc Ec Hact. destruct (Ha Hact) as [-> _]. by apply (Hq' c0).
    + split_and!; [by intros [_ ?]%Hvis|apply (proj2 (iv_next _ I)), Hrem, Hid..|]. intros c (c0 & Hc0 & E & _ & _ & Ha)%Hc Ec Hact.
      destruct (Ha Hact) as [-> _]. apply (iv_active _ I c0 Hc0 Hact). rewrite Ec. by apply Hrem.
Qed.

(** ** Actions *)

(** What an action that aims at the set [V'] leaves: every disk on its way serves
    the old set or [V'], and the invariant holds after it unless its commit could
    not be rolled back. *)
Record step_ok (s : Store) (V' : gset Z) (res : commit_result) (x : moved) : Prop := {
  so_trace : Forall (crash_serves (either (visible s) V')) x.2;
  so_disk : crash_serves (either (visible s) V') (s_disk x.1);
  so_inv : res ≠ RollbackFailed → Inv x.1 ∧ either (visible s) V' (visible x.1) ∧ nextID x.1 ≤ nextID s + 1 }.

(** An action that commits nothing: the invariant on the way and at the end. *)
Lemma step_uncommitted s V' x : Forall (λ d, Inv (set_disk d s)) x.2 → Inv x.1 → visible x.1 = visible s → nextID x.1 ≤ nextID s + 1 →
  step_ok s V' Committed x.
Proof.
  intros HT I Hv Hn. split; [| |intros _; split_and!; [done|by left|done]].
  - eapply Forall_impl; [exact HT|]. intros d Id. eapply crash_serves_mono; [|exact (Inv_crash _ Id)]. intros U ->. by left.
  - eapply crash_serves_mono; [|exact (Inv_crash _ I)]. intros U ->. left. done.
Qed.
Lemma step_quiet s V' s' : Inv s' → visible s' = visible s → nextID s' ≤ nextID s + 1 → step_ok s V' Committed (quiet s').
Proof. intros. apply step_uncommitted; [constructor|done..]. Qed.

Lemma begin_ok s V' k blob : Inv s → room 1 s → kind_ok k → step_ok s V' Committed (begin k blob s).
Proof.
  intros I Hr Hk. pose proof (Inv_begin s k blob I Hr Hk) as I'. pose proof (proj1 (iv_next _ I)).
  unfold begin in *. destruct (match k with Whole wid => _ | _ => _ end); apply step_quiet; try done; cbn; [lia|].
  rewrite u64_small; [done|]. destruct Hr. unfold is_digit. lia.
Qed.
Lemma publish_ok s V' i e mm x : Inv s → publish i e mm s = Some x → step_ok s V' Committed x.
Proof.
  intros I. unfold publish. destruct (s_calls s !! i) as [c|] eqn:Hi; [|done]. cbn [mbind option_bind].
  destruct (c_phase c) eqn:Hp; try done. assert (active c) as Ha by (unfold active; by rewrite Hp).
  assert (∀ r, c_phase c ≠ Durable r) as Hnd by (by rewrite Hp).
  assert (∀ p, (∀ r, p ≠ Durable r) → step_ok s V' Committed (quiet (set_phase i p s))) as Hq.
  { intros p Hpd. apply step_quiet; [|done|cbn; lia]. eapply Inv_phase; [done|done|done|]. intros r ->. by destruct (Hpd r). }
  destruct (_ && _ && _ && _); cbn [negb]; [|intros [= <-]; apply Hq; by destruct (c_kind c)].
  destruct (_ && match accepted _ _ _ with _ => _ end); [intros [= <-]; by apply Hq|].
  destruct (wa_rename e); cbn [negb]; [|intros [= <-]; apply Hq; by destruct (c_kind c)].
  pose proof (Inv_put s i c (c_blob c) I Hi Ha Hnd) as I1. cbn [put_disk quiet fst snd app].
  set (s1 := set_disk _ s) in *.
  assert (∀ s2 p, Inv s2 → s_calls s2 = s_calls s → (∀ r, p = Durable r → durable (s_disk s2) (c_id c) (c_blob c) ∧ ReadGroup (c_blob c) = Good r) →
    Inv (set_phase i p s2)) as Hph.
  { intros s2 p I2 Hc2 Hpd. eapply Inv_phase; [done|by rewrite Hc2|done|done]. }
  destruct (wa_syncDir e); cbn [negb].
  2: { intros [= <-]. apply step_uncommitted; [by apply Forall_singleton|by apply Hph|done|cbn; lia]. }
  pose proof (Inv_sync s1 I1) as I2. set (s2 := set_disk (k_sync _) s1) in *.
  assert (Forall (λ d, Inv (set_disk d s)) [s_disk s1; s_disk s2]) as HT by by repeat apply Forall_cons_2; [| |apply Forall_nil_2].
  destruct (accepted (c_kind c) mm (c_blob c)) as [r|] eqn:Er; intros [= <-]; (apply step_uncommitted; [exact HT| |done|cbn; lia]);
    apply (Hph s2); try done.
  intros r' [= <-]. split; [apply durable_sync; cbn; by rewrite lookup_insert_eq|].
  unfold accepted in Er. destruct mm; [|done]. cbn [negb] in Er. destruct (ReadGroup (c_blob c)); try done.
  destruct (c_kind c); try by injection Er as ->. by destruct (_ || _); [|injection Er as ->].
Qed.
Lemma discard_ok s V' i rm sy x : Inv s → discard i rm sy s = Some x → step_ok s V' Committed x.
Proof.
  intros I. unfold discard. destruct (s_calls s !! i) as [c|] eqn:Hi; [|done]. cbn [mbind option_bind].
  destruct (c_phase c) as [| |a|] eqn:Hp; try done. assert (active c) as Ha by (unfold active; by rewrite Hp).
  assert (∀ s2, Inv s2 → s_calls s2 = s_calls s → Inv (set_phase i (Answered (Refused a)) s2)) as Hph.
  { intros s2 I2 Hc2. eapply Inv_phase; [done|by rewrite Hc2|done|done]. }
  case_bool_decide; [intros [= <-]; apply step_quiet; [by apply Hph|done|cbn; lia]|].
  destruct (negb _); [intros [= <-]; apply step_quiet; [by apply Hph|done|cbn; lia]|].
  assert (∀ r, c_phase c ≠ Durable r) as Hnd by (by rewrite Hp).
  pose proof (Inv_del s i c I Hi Ha Hnd) as I1. cbn [put_disk fst snd app]. set (s1 := set_disk _ s) in *.
  assert (Inv (set_disk (k_del (s_disk s) (c_id c)) (set_phase i (Answered (Refused a)) s))) as I1' by exact (Hph s1 I1 eq_refl).
  destruct sy; cbn [negb]; intros [= <-].
  - pose proof (Inv_sync s1 I1) as I2.
    apply step_uncommitted; [|exact (Hph _ I2 eq_refl)|done|cbn; lia]. by repeat apply Forall_cons_2; [| |apply Forall_nil_2].
  - apply step_uncommitted; [by apply Forall_singleton|done|done|cbn; lia].
Qed.
Lemma pending_ok s V' id u t : Inv s → id ∈ s_unlink s ++ tombstones s → (∀ j, j ∈ u ++ t → j ∈ s_unlink s ++ tombstones s) →
  step_ok s V' Committed (remove_file id (set_pending u t s)).
Proof.
  intros I Hid Hp. destruct (iv_pending _ I id Hid) as (Hv & _ & Hc). pose proof (Inv_pending s u t I Hp) as I1.
  pose proof (Inv_remove (set_pending u t s) id I1 Hv Hc) as I2. pose proof (Inv_remove s id I Hv Hc) as I3.
  unfold remove_file in *. cbn [set_pending s_disk] in *. case_bool_decide; cbn [put_disk quiet fst snd app] in *.
  - apply step_uncommitted; [by apply Forall_singleton|done|done|cbn; lia].
  - apply step_quiet; [done|done|cbn; lia].
Qed.
Lemma unlink_ok s V' rm x : Inv s → unlink rm s = Some x → step_ok s V' Committed x.
Proof.
  intros I. unfold unlink. destruct (s_unlink s) as [|id rest] eqn:E; [done|].
  assert (∀ j, j ∈ rest ++ tombstones s → j ∈ s_unlink s ++ tombstones s) as Hs by (intros j; rewrite E; apply list_elem_of_further).
  destruct rm; intros [= <-]; [apply pending_ok; [done|rewrite E; by left|done]|].
  apply step_quiet; [|done|cbn; lia]. apply Inv_pending; [done|]. intros j Hj. rewrite app_assoc in Hj. apply elem_of_app in Hj as [Hj|Hj]; [by apply Hs|].
  rewrite E. apply list_elem_of_singleton in Hj as ->. by left.
Qed.
Lemma retry_ok s V' rm x : Inv s → retryTombstone rm s = Some x → step_ok s V' Committed x.
Proof.
  intros I. unfold retryTombstone. destruct (tombstones s) as [|id rest] eqn:E; [done|].
  assert (∀ j, j ∈ s_unlink s ++ rest → j ∈ s_unlink s ++ tombstones s) as Hs by (intros j; rewrite E, !elem_of_app; intros [|]; [by left|by right; right]).
  assert (id ∈ s_unlink s ++ tombstones s) as Hid by (rewrite E; apply elem_of_app; right; by left).
  destruct rm; intros [= <-]; [by apply pending_ok|].
  apply step_quiet; [|done|cbn; lia]. apply Inv_pending; [done|]. intros j Hj. rewrite app_assoc in Hj. apply elem_of_app in Hj as [Hj|Hj]; [by apply Hs|].
  by apply list_elem_of_singleton in Hj as ->.
Qed.

(** *** Committing actions *)

Definition prod_env (e : commit_env) : Prop := ce_hookSync e = true ∧ wa_syncDir (co_atomic (ce_compact e)) = true.
Lemma victims_fit s ids : Inv s → NoDup ids → (∀ id, id ∈ ids → id ∈ visible s) → (length ids ≤ size (visible s))%nat.
Proof.
  intros I Hn Hs. rewrite <- (size_list_to_set (C := gset Z) ids Hn). apply subseteq_size. intros id. rewrite elem_of_list_to_set. apply Hs.
Qed.
Lemma commit_fits s e add rem wid : Inv s → room 1 s → (length add ≤ 1)%nat → Forall is_u64 add → NoDup rem →
  (∀ id, id ∈ rem → id ∈ visible s) → wid_ok wid → fits (Change e add rem wid).
Proof.
  intros I [Hr Hnx] Ha Hau Hn Hs [Hw Hwl]. pose proof (victims_fit s rem I Hn Hs) as Hv. split_and!; cbn; [done| |done|].
  - apply Forall_forall. intros id Hid%Hs%(proj2 (iv_next _ I)). unfold is_digit. lia.
  - unfold limit, len in *. change manifestRecordLimit with 16777216. lia.
Qed.
Lemma wid_nil : wid_ok [].
Proof. split; [constructor|vm_compute; congruence]. Qed.
Lemma changed_removed V rem : changed V [] rem ⊆ V.
Proof. unfold changed. set_solver. Qed.

(** A commit touches the manifest and its part of the disk. *)
Lemma man_commit_frame e add rem wid s :
  let s' := (man_commit e add rem wid s).2.1 in s' = set_disk (with_man (s_disk s) (k_man (s_disk s'))) (set_man (s_man s') s).
Proof. unfold man_commit. by destruct (commit _ _ _ _ _) as [res w]. Qed.
(** A commit that failed leaves the set, and the files. *)
Lemma Inv_man s d m : Inv s → m_visible m = visible s → (∃ rs, matches m d rs) → Inv (set_disk (with_man (s_disk s) d) (set_man m s)).
Proof.
  intros I Hv Hm. unfold visible in Hv.
  split; unfold visible; cbn [set_disk set_man s_disk s_man s_groups s_calls s_unlink tombstones nextID k_man with_man]; rewrite ?Hv; try apply I.
  done.
Qed.

(** A committed removal of [ids]: the groups go, their files wait to be unlinked. *)
Lemma removal_ok e ids s : Inv s → room 1 s → prod_env e → NoDup ids → (∀ id, id ∈ ids → id ∈ visible s) →
  let x := man_commit e [] ids [] s in
  step_ok s (changed (visible s) [] ids) x.1
    match x.1 with
    | Committed => (set_pending (s_unlink x.2.1 ++ ids) (tombstones x.2.1) (set_groups (filter (λ g, e_id g ∉ ids) (s_groups x.2.1)) x.2.1), x.2.2)
    | _ => x.2
    end.
Proof.
  intros I Hr He Hn Hs. pose proof (Inv_held _ I) as Hh.
  assert (held (s_disk s) (changed (visible s) [] ids)) as Hh' by (eapply held_sub; [apply changed_removed|done]).
  destruct (man_commit_spec e [] ids [] s) as (HT & HD & HE & HR); [apply I|exact He| |unfold len, room in *; cbn; lia|by apply names_limit|done|done|].
  { apply (commit_fits s); try done; [cbn; lia|apply wid_nil]. }
  destruct (man_commit e [] ids [] s) as [res [s' t]]. cbn [fst snd] in *. set (m := s_man s') in *. set (d := k_man (s_disk s')) in *.
  clearbody m d. subst s'. destruct res; (split; [exact HT|exact HD|]); intros Hrb; try done; destruct HR as [HV HM].
  - split_and!; [|by right|cbn; lia].
    apply (Inv_changed s _ [] ids); cbn [set_pending set_groups set_disk set_man s_disk s_man s_groups s_unlink tombstones nextID s_calls fst];
      try done; try (intros g Hg; by apply elem_of_nil in Hg).
    + constructor.
    + by rewrite app_nil_r.
    + by rewrite <- app_assoc, (Permutation_app_comm ids).
    + intros c Hc. exists c. split_and!; try done. intros _. split; [done|]. apply not_elem_of_nil.
    + intros c _ Hc. by apply elem_of_nil in Hc.
  - split_and!; [by apply Inv_man|by left|cbn; lia].
Qed.

Lemma drop_ok drops e s : Inv s → room 1 s → prod_env e →
  let x := dropGroups drops e s in step_ok s (changed (visible s) [] (e_id <$> filter (λ g, drops g = true) (s_groups s))) x.1 x.2.
Proof.
  intros I Hr He. unfold dropGroups. set (ids := e_id <$> filter (λ g, drops g = true) (s_groups s)).
  case_bool_decide as Hv; [apply step_quiet; [done|done|lia]|].
  assert (NoDup ids) as Hn by (eapply sublist_NoDup; [apply (iv_nodup _ I)|apply fmap_sublist, sublist_filter]).
  assert (∀ id, id ∈ ids → id ∈ visible s) as Hs.
  { intros id (g & -> & [_ Hg]%list_elem_of_filter)%list_elem_of_fmap. apply (iv_ids _ I). by apply list_elem_of_fmap_2. }
  pose proof (removal_ok e ids s I Hr He Hn Hs) as H. cbv zeta in H.
  assert (∀ g, g ∈ s_groups s → (e_id g ∉ ids ↔ drops g = false)) as Hk.
  { intros g Hg. split.
    - intros Hni. destruct (drops g) eqn:Hd; [|done]. destruct Hni. apply list_elem_of_fmap_2. by apply list_elem_of_filter.
    - intros Hd (g' & E & [Hd' Hg']%list_elem_of_filter)%list_elem_of_fmap.
      apply list_elem_of_lookup in Hg as [i Hi]. apply list_elem_of_lookup in Hg' as [j Hj].
      assert (i = j) as <-; [|congruence]. eapply (NoDup_lookup (e_id <$> s_groups s) i j (e_id g)); [apply I| |]; rewrite list_lookup_fmap, ?Hi, ?Hj; cbn; congruence. }
  assert (filter (λ g, drops g = false) (s_groups s) = filter (λ g, e_id g ∉ ids) (s_groups s)) as Ek.
  { clearbody ids. clear -Hk. induction (s_groups s) as [|g gs IH]; [done|]. rewrite !filter_cons.
    rewrite IH by (intros g' Hg'; apply Hk; by right). destruct (Hk g (list_elem_of_here _ _)) as [H1 H2]. repeat case_decide; tauto || done. }
  rewrite Ek. destruct (man_commit e [] ids [] s) as [res [s' t]] eqn:E. cbn [fst snd] in *.
  replace (s_groups s) with (s_groups s'); [by destruct res|].
  pose proof (man_commit_frame e [] ids [] s) as HE. rewrite E in HE. cbn [fst snd] in HE. by rewrite HE.
Qed.

Lemma receipt_ok wid e s : Inv s → room 1 s → prod_env e → wid_ok wid →
  let x := CommitReceipt wid e s in step_ok s (visible s) x.1 x.2.
Proof.
  intros I Hr He Hw. unfold CommitReceipt. case_bool_decide; [apply step_quiet; [done|done|lia]|].
  destruct (has _ _); [apply step_quiet; [done|done|lia]|].
  assert (changed (visible s) [] [] = visible s) as Ev by (unfold changed; cbn; set_solver).
  destruct (man_commit_spec e [] [] wid s) as (HT & HD & HE & HR); [apply I|exact He| |unfold len, room in *; cbn; lia|by apply names_limit|by apply Inv_held| |].
  { apply (commit_fits s); try done; [cbn; lia|constructor|]. intros id Hid. by apply elem_of_nil in Hid. }
  { rewrite Ev. by apply Inv_held. }
  rewrite Ev in *. destruct (man_commit e [] [] wid s) as [res [s' t]]. cbn [fst snd] in *.
  set (m := s_man s') in *. set (d := k_man (s_disk s')) in *. clearbody m d. subst s'.
  destruct res; (split; [exact HT|exact HD|]); intros Hrb; try done; destruct HR as [HV HM].
  - split_and!; [by apply Inv_receipts, Inv_man|by left|cbn; lia].
  - split_and!; [by apply Inv_man|by left|cbn; lia].
Qed.

Lemma demote_ok id rd pt e s res x : Inv s → room 1 s → prod_env e → demote id rd pt e s = Some (res, x) →
  step_ok s (changed (visible s) [] [id]) res x.
Proof.
  intros I Hr He. unfold demote. destruct (bool_decide _ && _ && _) eqn:Eb; cbn [negb].
  2: { intros [= <- <-]. apply step_quiet; [done|done|lia]. }
  apply andb_prop in Eb as [Eb _]. apply andb_prop in Eb as [Eb _]. apply bool_decide_eq_true in Eb.
  destruct (k_files (s_disk s) !! id) as [b|]; [|done]. cbn [mbind option_bind].
  set (s1 := set_cold _ s). pose proof (Inv_cold s (<[id := b]> (cold s)) I : Inv s1) as I1.
  pose proof (removal_ok e [id] s1 I1 Hr He (NoDup_singleton _)) as H. cbv zeta in H.
  specialize (H (λ j Hj, proj2 (iv_ids _ I j) (eq_ind_r (λ k, k ∈ (e_id <$> s_groups s)) Eb (proj1 (list_elem_of_singleton j id) Hj)))).
  destruct (man_commit e [] [id] [] s1) as [res' x']. cbn [fst snd] in H.
  assert (∀ gs : list entry, filter (λ g, e_id g ∉ [id]) gs = filter (λ g, e_id g ≠ id) gs) as Ef.
  { intros gs. apply list_filter_iff. intros g. by rewrite list_elem_of_singleton. }
  rewrite Ef in H. destruct res'; intros [= <- <-]; destruct H as [H1 H2 H3]; by split.
Qed.

(** The commit of an append, an adoption or a merge. *)
Definition batch_of (k : kind) : list Z := match k with Merge batch => batch | _ => [] end.
Lemma enter_ok i e s res x : Inv s → room 1 s → prod_env e → enter i e s = Some (res, x) →
  ∀ c, s_calls s !! i = Some c → step_ok s (changed (visible s) [c_id c] (batch_of (c_kind c))) res x.
Proof.
  intros I Hr He Hx c Hi. unfold enter in Hx. rewrite Hi in Hx. cbn [mbind option_bind] in Hx.
  destruct (c_phase c) as [|r| |] eqn:Hp; try done. assert (active c) as Ha by (unfold active; by rewrite Hp).
  pose proof (list_elem_of_lookup_2 _ _ _ Hi) as Hc. pose proof (iv_active _ I c Hc Ha) as Hnv.
  destruct (iv_durable _ I c r Hc Hp) as [Hd Hg]. pose proof (iv_kind _ I c Hc) as Hk. fold (batch_of (c_kind c)) in Hx.
  set (wid := match c_kind c with Whole wid => wid | _ => [] end) in *.
  assert (∀ s2 p, Inv s2 → s_calls s2 = s_calls s → (∀ r, p ≠ Durable r) → Inv (set_phase i p s2)) as Hph.
  { intros s2 p I2 Hc2 Hpd. eapply Inv_phase; [done|by rewrite Hc2|done|]. intros r' ->. by destruct (Hpd r'). }
  destruct (stillPresent _ s) eqn:Es; cbn [negb] in Hx.
  2: { injection Hx as <- <-. apply step_quiet; [by apply Hph|done|cbn; lia]. }
  destruct (has _ _); [injection Hx as <- <-; apply step_quiet; [by apply Hph|done|cbn; lia]|].
  assert (∀ id, id ∈ batch_of (c_kind c) → id ∈ visible s) as Hb.
  { intros id Hid. apply (iv_ids _ I). apply (bool_decide_eq_true_1 _). unfold stillPresent in Es. rewrite forallb_forall in Es.
    by apply Es, list_elem_of_In. }
  assert (NoDup (batch_of (c_kind c))) as Hnd by (unfold batch_of; destruct (c_kind c); [constructor..|done]).
  assert (wid_ok wid) as Hw by (unfold wid; destruct (c_kind c); [done|apply wid_nil..]).
  pose proof (Inv_held _ I) as Hh.
  destruct (man_commit_spec e [c_id c] (batch_of (c_kind c)) wid s) as (HT & HD & HE & HR);
    [apply I|exact He| |unfold len, room in *; cbn; lia|by apply names_limit|done| |].
  { apply (commit_fits s); try done. apply Forall_singleton. pose proof (iv_reserved _ I c Hc). destruct Hr. unfold is_digit. lia. }
  { intros id Hid. unfold changed in Hid. apply elem_of_difference in Hid as [Hid _]. apply elem_of_union in Hid as [Hid|Hid]; [by apply Hh|].
    apply elem_of_list_to_set, list_elem_of_singleton in Hid as ->. by exists (c_blob c), r. }
  destruct (man_commit e [c_id c] (batch_of (c_kind c)) wid s) as [res' [s' t]]. cbn [fst snd] in *.
  set (m := s_man s') in *. set (d := k_man (s_disk s')) in *. clearbody m d. subst s'.
  destruct res'; injection Hx as <- <-; (split; [exact HT|exact HD|]); intros Hrb; try done; destruct HR as [HV HM].
  2: { split_and!; [by apply Hph; [apply Inv_man| |]|by left|cbn; lia]. }
  split_and!; [|by right|cbn; lia].
  apply (Inv_changed s _ [entry_of (c_id c) r] (batch_of (c_kind c)));
    cbn [set_phase set_calls set_pending set_groups set_receipts set_disk set_man s_disk s_man s_groups s_unlink tombstones nextID s_calls fst];
    try done.
  - apply NoDup_singleton.
  - intros g ->%list_elem_of_singleton. split; [done|]. exact (iv_reserved _ I c Hc).
  - unfold sortGroups. apply merge_sort_Permutation.
  - rewrite <- app_assoc. by rewrite (Permutation_app_comm (batch_of _)).
  - intros g ->%list_elem_of_singleton. by exists (c_blob c), r.
  - apply alter_ids.
  - intros c' Hc'. destruct (alter_other _ _ _ _ Hc') as [(j & Hj & Hn)|(c0 & Hc0 & ->)].
    + exists c'. split_and!; try done; [by eapply list_elem_of_lookup_2|]. intros Ha'. split; [done|]. intros E%list_elem_of_singleton.
      apply Hn. eapply (NoDup_lookup (c_id <$> s_calls s) i j (c_id c)); [apply I| |]; rewrite list_lookup_fmap, ?Hi, ?Hj; cbn; [done|by rewrite E].
    + rewrite Hi in Hc0. injection Hc0 as <-. exists c. split_and!; try done.
  - intros g ->%list_elem_of_singleton. by exists c.
  - intros c' Hc' E%list_elem_of_singleton. apply list_elem_of_lookup in Hc' as [j Hj].
    assert (i = j) as <-.
    { eapply (NoDup_lookup (c_id <$> s_calls s) i j (c_id c)); [apply I| |]; rewrite list_lookup_fmap, ?Hi, ?Hj; cbn; [done|by rewrite E]. }
    rewrite Hi in Hj. by injection Hj as <-.
Qed.

(** *** Any action *)

(** The ids an action adds to the visible set and takes from it. *)
Definition change_of (a : action) (s : Store) : list Z * list Z :=
  match a with
  | Enter i _ => match s_calls s !! i with Some c => ([c_id c], batch_of (c_kind c)) | None => ([], []) end
  | Drop drops _ => ([], e_id <$> filter (λ g, drops g = true) (s_groups s))
  | Demote id _ _ _ => ([], [id])
  | Promote id _ _ _ => ([id], [])
  | _ => ([], [])
  end.
Definition aim (a : action) (s : Store) : gset Z := changed (visible s) (change_of a s).1 (change_of a s).2.
(** No fault hook, directory syncs of compactions succeed, arguments the callers
    can pass; promotions are left out. *)
Definition act_ok (a : action) : Prop :=
  match a with
  | Begin k _ => kind_ok k
  | Enter _ e | Drop _ e | Demote _ _ _ e => prod_env e
  | RecordReceipt wid e => wid_ok wid ∧ prod_env e
  | Promote _ _ _ _ => False
  | _ => True
  end.

Lemma step_spec a s res x : Inv s → room 1 s → act_ok a → step a s = Some (res, x) → step_ok s (aim a s) res x.
Proof.
  intros I Hr Ha. destruct a as [k blob|i e mm|i e|i rm sy|drops e|rm|rm|wid e|id rd pt e|id ae mm e]; cbn [step act_ok] in *; unfold aim; cbn [change_of fst snd].
  - intros [= <- <-]. by apply begin_ok.
  - destruct (publish i e mm s) eqn:E; [|done]. intros [= <- <-]. by eapply publish_ok.
  - intros E. destruct (s_calls s !! i) as [c|] eqn:Hi; [by eapply enter_ok|]. unfold enter in E. by rewrite Hi in E.
  - destruct (discard i rm sy s) eqn:E; [|done]. intros [= <- <-]. by eapply discard_ok.
  - intros [= E]. pose proof (drop_ok drops e s I Hr Ha) as H. by rewrite E in H.
  - destruct (unlink rm s) eqn:E; [|done]. intros [= <- <-]. by eapply unlink_ok.
  - destruct (retryTombstone rm s) eqn:E; [|done]. intros [= <- <-]. by eapply retry_ok.
  - intros [= E]. destruct Ha as [Hw He]. pose proof (receipt_ok wid e s I Hr He Hw) as H. rewrite E in H.
    assert (changed (visible s) [] [] = visible s) as -> by (unfold changed; cbn; set_solver). done.
  - intros E. by eapply demote_ok.
  - done.
Qed.

(** *** Runs *)

(** The actions of a run in order, the store they leave and the ids removed. A run
    stops at a commit whose rollback failed. *)
Fixpoint run (acts : list action) (s : Store) : option (Store * gset Z) :=
  match acts with
  | [] => Some (s, ∅)
  | a :: acts =>
      match step a s with
      | Some (RollbackFailed, _) | None => None
      | Some (_, x) => match run acts x.1 with Some (s', gone) => Some (s', list_to_set (change_of a s).2 ∪ gone) | None => None end
      end
  end.

Lemma room_step s n a : Inv s → room (n + 1) s → 0 ≤ n → ∀ s', (visible s' = visible s ∨ visible s' = aim a s) → nextID s' ≤ nextID s + 1 →
  act_ok a → room n s'.
Proof.
  intros I [H1 H2] Hn s' Hv Hx Ha. split; [|lia]. destruct Hv as [->| ->]; [lia|]. unfold aim.
  pose proof (subseteq_size _ _ (changed_sub (visible s) (change_of a s).1 (change_of a s).2)) as Hs.
  pose proof (size_adds (visible s) (change_of a s).1) as Hs2.
  assert (length (change_of a s).1 ≤ 1)%nat as Hl.
  { destruct a; cbn; try lia. by destruct (s_calls s !! i); cbn; lia. }
  lia.
Qed.
(** *** What was answered stays *)

Definition is_stored (c : call) (id : Z) : Prop := c_phase c = Answered (Stored id).
Lemma phase_lookup i j p s c : s_calls (set_phase i p s) !! j = Some c →
  ∃ c0, s_calls s !! j = Some c0 ∧ c_kind c = c_kind c0 ∧ ((i = j ∧ c_phase c = p) ∨ (i ≠ j ∧ c = c0)).
Proof.
  unfold set_phase. cbn [s_calls set_calls]. intros H. destruct (decide (i = j)) as [->|Hn].
  - rewrite list_lookup_alter_eq in H. destruct (s_calls s !! j) as [c0|]; [|done]. injection H as <-. exists c0. split_and!; [done|done|by left].
  - rewrite list_lookup_alter_ne in H by done. exists c. split_and!; [done|done|by right].
Qed.
Lemma phase_not_stored s i p j c id : s_calls (set_phase i p s) !! j = Some c → is_stored c id → (∀ k, p ≠ Answered (Stored k)) →
  s_calls s !! j = Some c.
Proof. intros (c0 & Hj & _ & [[_ E]|[_ ->]])%phase_lookup Hs Hp; [|done]. destruct (Hp id). by rewrite <- E. Qed.
Lemma man_commit_calls e add rem wid s :
  s_calls (man_commit e add rem wid s).2.1 = s_calls s ∧ s_receipts (man_commit e add rem wid s).2.1 = s_receipts s.
Proof. by rewrite (man_commit_frame e add rem wid s). Qed.

(** Stored calls and receipts after an action: as before, or one more of each. *)
Record recorded (s s' : Store) (wid : bytes) : Prop := {
  rd_calls : ∀ i c id, s_calls s' !! i = Some c → is_stored c id → s_calls s !! i = Some c;
  rd_receipts : s_receipts s' = s_receipts s ∨ s_receipts s' = add_receipt (s_receipts s) wid }.
Lemma recorded_refl s wid : recorded s s wid.
Proof. split; [done|by left]. Qed.
Lemma recorded_phase s s1 i p wid : s_calls s1 = s_calls s → s_receipts s1 = s_receipts s → (∀ k, p ≠ Answered (Stored k)) →
  recorded s (set_phase i p s1) wid.
Proof. intros Ec Er Hp. split; [|by left]. intros j c id Hj Hs. rewrite <- Ec. by eapply phase_not_stored. Qed.
Lemma recorded_same s s1 wid : s_calls s1 = s_calls s → s_receipts s1 = s_receipts s → recorded s s1 wid.
Proof. intros Ec Er. split; [by rewrite Ec|by left]. Qed.
Lemma remove_file_recorded id s s0 wid : s_calls s = s_calls s0 → s_receipts s = s_receipts s0 → recorded s0 (remove_file id s).1 wid.
Proof. intros. unfold remove_file. by case_bool_decide; apply recorded_same. Qed.

Lemma recorded_disk s s1 wid d : recorded s s1 wid → recorded s (set_disk d s1) wid.
Proof. intros [H1 H2]. by split. Qed.

Lemma publish_recorded i e mm s x : publish i e mm s = Some x → recorded s x.1 [].
Proof.
  unfold publish. destruct (s_calls s !! i) as [c0|]; [|done]. cbn [mbind option_bind]. destruct (c_phase c0); try done.
  destruct (_ && _ && _ && _); cbn [negb]; [|intros [= <-]; apply recorded_phase; [done|done|by destruct (c_kind c0)]].
  destruct (_ && match accepted _ _ _ with _ => _ end); [intros [= <-]; by apply recorded_phase|].
  destruct (wa_rename e); cbn [negb]; [|intros [= <-]; apply recorded_phase; [done|done|by destruct (c_kind c0)]].
  destruct (wa_syncDir e); cbn [negb]; [|intros [= <-]; by apply recorded_phase].
  destruct (accepted _ _ _); intros [= <-]; by apply recorded_phase.
Qed.
Lemma discard_recorded i rm sy s x : discard i rm sy s = Some x → recorded s x.1 [].
Proof.
  unfold discard. destruct (s_calls s !! i) as [c0|]; [|done]. cbn [mbind option_bind]. destruct (c_phase c0) as [| |a|]; try done.
  pose proof (recorded_phase s s i (Answered (Refused a)) [] eq_refl eq_refl ltac:(done)) as H.
  case_bool_decide; [by intros [= <-]|]. destruct (negb _); [by intros [= <-]|]. destruct sy; intros [= <-]; by repeat apply recorded_disk.
Qed.

Definition wid_of (a : action) : bytes := match a with RecordReceipt wid _ => wid | _ => [] end.
Lemma step_recorded a s res x : act_ok a → (∀ i e, a ≠ Enter i e) → step a s = Some (res, x) → recorded s x.1 (wid_of a).
Proof.
  intros Ha Hne E. destruct a as [k blob|i e mm|i e|i rm sy|drops e|rm|rm|wid e|j rd pt e|j ae mm e]; cbn [step act_ok wid_of] in *; try done.
  - injection E as <- <-. unfold begin. destruct (match k with Whole wid => _ | _ => _ end); [apply recorded_refl|].
    split; [|by left]. intros i c id Hi Hs. cbn in Hi. apply lookup_app_Some in Hi as [Hi|[_ Hi]]; [done|].
    by apply list_lookup_singleton_Some in Hi as [_ <-].
  - destruct (publish i e mm s) eqn:E2; [|done]. injection E as <- <-. by eapply publish_recorded.
  - by destruct (Hne i e).
  - destruct (discard i rm sy s) eqn:E2; [|done]. injection E as <- <-. by eapply discard_recorded.
  - injection E as E. assert (x = (dropGroups drops e s).2) as -> by (by rewrite E). clear E. unfold dropGroups. case_bool_decide; [apply recorded_refl|].
    pose proof (man_commit_calls e [] (e_id <$> filter (λ g, drops g = true) (s_groups s)) [] s) as [H1 H2].
    destruct (man_commit e [] _ [] s) as [[] x']; by apply recorded_same.
  - unfold unlink in E. destruct (s_unlink s); [done|]. destruct rm; injection E as <- <-; [by apply remove_file_recorded|by apply recorded_same].
  - unfold retryTombstone in E. destruct (tombstones s); [done|]. destruct rm; injection E as <- <-; [by apply remove_file_recorded|by apply recorded_same].
  - injection E as E. assert (x = (CommitReceipt wid e s).2) as -> by (by rewrite E). clear E. unfold CommitReceipt.
    case_bool_decide; [apply recorded_refl|]. destruct (has _ _); [apply recorded_refl|].
    pose proof (man_commit_calls e [] [] wid s) as [H1 H2].
    destruct (man_commit e [] [] wid s) as [[] x']; cbn [fst snd] in *; [|by apply recorded_same..].
    split; cbn [set_receipts s_calls s_receipts]; [by rewrite H1|by right; rewrite H2].
  - unfold demote in E. destruct (negb _); [injection E as <- <-; apply recorded_refl|].
    destruct (k_files (s_disk s) !! j) as [b|]; [|done]. cbn [mbind option_bind] in E.
    pose proof (man_commit_calls e [] [j] [] (set_cold (<[j:=b]> (cold s)) s)) as [H1 H2].
    destruct (man_commit e [] [j] [] _) as [[] x']; injection E as <- <-; by apply recorded_same.
Qed.

(** The commit of a call that answers [Stored]. *)
Lemma enter_recorded i e s res x : enter i e s = Some (res, x) →
  recorded s x.1 [] ∨
  ∃ c0 r, res = Committed ∧ s_calls s !! i = Some c0 ∧
    has (s_receipts s) (match c_kind c0 with Whole wid => wid | _ => [] end) = false ∧
    s_receipts x.1 = add_receipt (s_receipts s) (match c_kind c0 with Whole wid => wid | _ => [] end) ∧
    entry_of (c_id c0) r ∈ s_groups x.1 ∧
    s_calls x.1 = alter (λ c, MkCall (c_kind c) (c_id c) (c_blob c) (Answered (Stored (c_id c0)))) i (s_calls s) ∧ active c0.
Proof.
  unfold enter. destruct (s_calls s !! i) as [c0|] eqn:Hi; [|done]. cbn [mbind option_bind]. destruct (c_phase c0) as [|r| |] eqn:Hp; try done.
  destruct (negb _); [intros [= <- <-]; left; by apply recorded_phase|].
  destruct (has _ _) eqn:Eh; [intros [= <- <-]; left; by apply recorded_phase|].
  set (batch := match c_kind c0 with Merge batch => batch | _ => [] end) in *. set (wid := match c_kind c0 with Whole wid => wid | _ => [] end) in *.
  pose proof (man_commit_calls e [c_id c0] batch wid s) as [H1 H2].
  destruct (man_commit e [c_id c0] batch wid s) as [res' x']. cbn [fst snd] in *.
  destruct res'; intros [= <- <-]; [right|left; by apply recorded_phase..].
  exists c0, r. split_and!; try done.
  - cbn. by rewrite H2.
  - cbn. unfold sortGroups. rewrite merge_sort_Permutation. apply elem_of_app. right. by left.
  - cbn. by rewrite H1.
  - unfold active. by rewrite Hp.
Qed.

Lemma step_stored a s res x c id : act_ok a → step a s = Some (res, x) → Inv x.1 → c ∈ s_calls x.1 → is_stored c id →
  c ∈ s_calls s ∨ id ∈ visible x.1 ∧ c_id c = id.
Proof.
  intros Ha E I [j Hj]%list_elem_of_lookup Hs.
  assert ((∀ i e, a ≠ Enter i e) ∨ ∃ i e, a = Enter i e) as [Hne|(i & e & ->)] by (destruct a; eauto).
  - left. eapply list_elem_of_lookup_2. by eapply (rd_calls _ _ _ (step_recorded a s res x Ha Hne E)).
  - destruct (enter_recorded i e s res x E) as [R|(c0 & r & _ & Hi & _ & _ & Hg & Hc & _)]; [left; eapply list_elem_of_lookup_2; by eapply (rd_calls _ _ _ R)|].
    rewrite Hc in Hj. destruct (decide (i = j)) as [->|Hn].
    + rewrite list_lookup_alter_eq, Hi in Hj. injection Hj as <-. injection Hs as <-. right. split; [|done].
      apply (iv_ids _ I), list_elem_of_fmap. by exists (entry_of (c_id c0) r).
    + rewrite list_lookup_alter_ne in Hj by done. left. by eapply list_elem_of_lookup_2.
Qed.

(** Every group answered as stored is visible, unless it was removed since. *)
Definition kept_all (s : Store) (gone : gset Z) : Prop :=
  ∀ c id, c ∈ s_calls s → is_stored c id → c_id c = id ∧ (id ∈ visible s ∨ id ∈ gone).
Lemma step_kept a s res x gone : Inv s → room 1 s → act_ok a → step a s = Some (res, x) → res ≠ RollbackFailed → kept_all s gone →
  kept_all x.1 (list_to_set (change_of a s).2 ∪ gone).
Proof.
  intros I Hr Ha E Hres Hk c id Hc Hs. destruct (so_inv _ _ _ _ (step_spec a s res x I Hr Ha E) Hres) as (I' & Hv & _).
  destruct (step_stored a s res x c id Ha E I' Hc Hs) as [Hc0|[? ?]]; [|by split; [|left]].
  destruct (Hk c id Hc0 Hs) as [Hi [Hid|]]; (split; [done|]); [|right; set_solver]. destruct Hv as [->| ->]; [by left|]. unfold aim, changed.
  destruct (decide (id ∈ (change_of a s).2)); [right; set_solver|left; set_solver].
Qed.
Lemma run_inv_room acts : ∀ s s' gone n, 0 ≤ n → Inv s → room (Z.of_nat (length acts) + n) s → Forall act_ok acts → run acts s = Some (s', gone) →
  Inv s' ∧ room n s'.
Proof.
  induction acts as [|a acts IH]; intros s s' gone n Hn I Hr Ha; cbn [run]; [intros [= <- _]; cbn in Hr; done|].
  apply Forall_cons_1 in Ha as [Ha Has]. destruct (step a s) as [[res x]|] eqn:E; [|done].
  assert (room 1 s) as Hr1 by (destruct Hr; cbn [length] in *; split; lia).
  pose proof (step_spec a s res x I Hr1 Ha E) as [_ _ Hi].
  destruct res; [| |done]; destruct (Hi ltac:(done)) as (I' & Hv & Hx); destruct (run acts x.1) as [[s2 g2]|] eqn:E2; try done; intros [= <- _];
    (eapply IH; [done|done| |done|exact E2]); apply (room_step s _ a I); try done; try lia; cbn [length] in Hr; destruct Hr; split; lia.
Qed.
Lemma run_kept acts : ∀ s s' gone0 gone, Inv s → room (Z.of_nat (length acts)) s → Forall act_ok acts → kept_all s gone0 →
  run acts s = Some (s', gone) → kept_all s' (gone ∪ gone0).
Proof.
  induction acts as [|a acts IH]; intros s s' gone0 gone I Hr Ha Hk; cbn [run]; [intros [= <- <-]; by rewrite union_empty_l_L|].
  apply Forall_cons_1 in Ha as [Ha Has]. destruct (step a s) as [[res x]|] eqn:E; [|done].
  assert (room 1 s) as Hr1 by (destruct Hr; cbn [length] in *; split; lia).
  pose proof (step_spec a s res x I Hr1 Ha E) as [_ _ Hi].
  destruct (decide (res = RollbackFailed)) as [->|Hne]; [done|]. destruct (Hi Hne) as (I' & Hv & Hx).
  assert (room (Z.of_nat (length acts)) x.1) as Hr'.
  { apply (room_step s _ a I); try done; try lia. destruct Hr; cbn [length] in *; split; lia. }
  pose proof (step_kept a s res x gone0 I Hr1 Ha E Hne Hk) as Hk'.
  destruct res; try done; destruct (run acts x.1) as [[s2 g2]|] eqn:E2; try done; intros [= <- <-];
    pose proof (IH x.1 s2 _ g2 I' Hr' Has Hk' E2) as H; intros c id Hc Hs; destruct (H c id Hc Hs) as [? ?]; (split; [done|]); set_solver.
Qed.

(** ** Opening *)

(** The system calls of an open succeed. *)
Definition reads_well (e : open_env) : Prop :=
  oe_read e = true ∧ oe_truncate e = true ∧ oe_open e = true ∧ ∀ id, oe_mmap e id = true.

Lemma preexisted_fold rs m : preexisted (foldl apply_record m rs) = preexisted m.
Proof. revert m. induction rs as [|r rs IH]; intros m; [done|]. cbn [foldl]. by rewrite IH. Qed.

(** The next id is above every id of the lists it is taken over. *)
Lemma above_spec ids n : 0 ≤ n ≤ 2 ^ 64 - 1 → (∀ id, id ∈ ids → 0 ≤ id < 2 ^ 64 - 1) →
  n ≤ above ids n ≤ 2 ^ 64 - 1 ∧ ∀ id, id ∈ ids → id < above ids n.
Proof.
  revert n. induction ids as [|id ids IH]; intros n Hn Hi; cbn [above foldl].
  - split; [lia|]. intros id Hid. by apply elem_of_nil in Hid.
  - pose proof (Hi id (list_elem_of_here _ _)) as Hid. rewrite (u64_small (id + 1)) by (unfold is_digit; lia).
    destruct (IH (if bool_decide (n ≤ id) then id + 1 else n)) as [H1 H2].
    { case_bool_decide; lia. } { intros j Hj. apply Hi. by right. }
    fold (above ids (if bool_decide (n ≤ id) then id + 1 else n)) in *.
    split; [case_bool_decide; lia|]. intros j [->|Hj]%elem_of_cons; [case_bool_decide; lia|by apply H2].
Qed.

Lemma readable_ok e d id b r : reads_well e → k_files d !! id = Some b → ReadGroup b = Good r → readable e d id = Some r.
Proof. intros (_ & _ & _ & Hm) Hf Hr. unfold readable. rewrite Hm, Hf. cbn [negb mbind option_bind]. by rewrite Hr. Qed.

(** The loop over the committed ids, when each has its file. *)
Lemma load_ok e p d : reads_well e → ∀ ids next, (∀ id, id ∈ ids → ∃ b r, k_files d !! id = Some b ∧ ReadGroup b = Good r) →
  ∃ gs, load e p ids next d = (Some (gs, [], above ids next), [], d) ∧ e_id <$> gs = ids ∧
    ∀ g, g ∈ gs → ∃ b r, k_files d !! e_id g = Some b ∧ ReadGroup b = Good r ∧ g = entry_of (e_id g) r.
Proof.
  intros He. induction ids as [|id ids IH]; intros next Hs; cbn [load above foldl].
  - exists []. split_and!; [done|done|]. intros g Hg. by apply elem_of_nil in Hg.
  - destruct (Hs id (list_elem_of_here _ _)) as (b & r & Hf & Hr).
    destruct (IH (if bool_decide (next ≤ id) then u64 (id + 1) else next)) as (gs & E & Ei & Hg); [intros j Hj; apply Hs; by right|].
    exists (entry_of id r :: gs). rewrite Hf, (readable_ok e d id b r He Hf Hr), E. split_and!; [done|cbn; by rewrite Ei|].
    intros g [->|Hgs]%elem_of_cons; [by exists b, r|by apply Hg].
Qed.

(** The reclaim deletes no visible id's file and names no other id. *)
Lemma reclaim_ok e m ids : ∀ d t d', reclaimOrphanGroups e m ids d = (t, d') → (∀ id, id ∈ ids → ∃ n, 0 ≤ id < n) →
  k_man d' = k_man d ∧ (∀ id b, id ∈ m_visible m → durable d id b → durable d' id b) ∧
  ∀ n, (∀ id, id ∈ ids → 0 ≤ id < n) → named d n → named d' n.
Proof.
  induction ids as [|id ids IH]; intros d t d'; cbn [reclaimOrphanGroups]; [intros [= _ <-] _; done|]. intros E Hi.
  assert (∀ j, j ∈ ids → ∃ n, 0 ≤ j < n) as Hi' by (intros j Hj; apply Hi; by right).
  destruct (_ || _ || _ || _) eqn:Ek.
  { destruct (IH _ _ _ E Hi') as (H1 & H2 & H3). split_and!; [done|done|]. intros n Hn. apply H3. intros j Hj. apply Hn. by right. }
  destruct (reclaimOrphanGroups e m ids (k_del d id)) as [t' d2] eqn:E2. injection E as <- <-.
  destruct (IH _ _ _ E2 Hi') as (H1 & H2 & H3). split_and!; [done| |].
  - intros j b Hj Hd. apply H2; [done|]. apply durable_del; [|done]. intros ->.
    apply orb_false_iff in Ek as [Ek _]. apply orb_false_iff in Ek as [Ek _]. apply orb_false_iff in Ek as [_ Ek].
    by apply bool_decide_eq_false in Ek.
  - intros n Hn Hd. apply H3; [intros j Hj; apply Hn; by right|]. apply named_del; [done|]. apply Hn. by left.
Qed.
Lemma on_disk_elem d id : id ∈ on_disk_ids d ↔ is_Some (k_files d !! id).
Proof.
  unfold on_disk_ids. rewrite list_elem_of_fmap. split.
  - intros ([j b] & -> & H%elem_of_map_to_list). by exists b.
  - intros [b Hb]. exists (id, b). split; [done|]. by apply elem_of_map_to_list.
Qed.

(** An open of what a crash left: it succeeds under either policy, serves exactly
    the committed groups from the bytes the crash left, and the invariant holds. *)
Lemma reopen_spec e p d b fs V : reads_well e → named d (2 ^ 64 - 1) → crash d b fs → finds b V → serves fs V →
  ∃ s t, OpenStoreWith e p (after_crash d b fs) = Ok (Some s, t) ∧ Inv s ∧ visible s = V ∧
    ∀ id, id ∈ V → k_files (s_disk s) !! id = fs !! id.
Proof.
  intros He Hnm [_ Hfc] (_ & rs & tl & -> & Hrs & Ht & <-) Hsv. pose proof He as (E1 & E2 & E3 & E4).
  destruct (open_spec rs tl Hrs Ht) as (w & Ew & Ewm & HM). unfold OpenStoreWith. cbn [after_crash k_man]. rewrite E1, E2, Ew, bind_Ok.
  assert (preexisted (w_m w) = true) as -> by (by rewrite Ewm, preexisted_fold). cbn [negb andb].
  set (d0 := after_crash d (Some (log rs ++ tl)) fs). destruct HM as [_ (f & Hd & Hf) Hv].
  cbn [with_man k_man w_m w_d]. rewrite E3. destruct (ensureOpen true (World (w_m w) (w_d w) [])) as [ok w2] eqn:Eo.
  assert (ok = true) as ->. { unfold ensureOpen in Eo. destruct (m_f _); by injection Eo as <- _. }
  apply (ensureOpen_opened _ _ _ _ f []) in Eo as [D2 V2 _ _ _]; [|done]. cbn [w_d w_m negb] in *.
  set (d2 := with_man (with_man d0 (w_d w)) (w_d w2)). set (next := above (elements (k_quar d2)) (above (on_disk_ids d0) 0)).
  assert (named d2 (2 ^ 64 - 1)) as Hn2.
  { intros id [Hid|[[v Hid]|Hid]]; [|by apply elem_of_nil in Hid|apply Hnm; by right; right]. cbn in Hid. apply Hnm.
    destruct (Hfc id) as [E|(v & Hv' & E)]; rewrite E in Hid; [by left|right; left; by exists v]. }
  destruct (above_spec (on_disk_ids d0) 0) as [A1 A2]; [lia|intros id Hid; apply Hn2; left; by apply on_disk_elem|].
  destruct (above_spec (elements (k_quar d2)) (above (on_disk_ids d0) 0)) as [B1 B2]; [lia|intros id Hid; apply Hn2; right; right; by apply elem_of_elements|].
  fold next in B1, B2.
  assert (∀ id, id ∈ visibleIDs (w_m w2) ↔ id ∈ vis rs) as Hvi by (intros id; by rewrite visibleIDs_elem, V2, Hv).
  destruct (load_ok e p d2 He (visibleIDs (w_m w2)) next) as (gs & El & Ei & Hg); [intros id Hid%Hvi; by apply Hsv|].
  assert (∀ id, id ∈ vis rs → 0 ≤ id < 2 ^ 64 - 1) as Hvb.
  { intros id Hid. apply Hn2. left. destruct (Hsv id Hid) as (bb & r & Hb & _). by exists bb. }
  destruct (above_spec (visibleIDs (w_m w2)) next) as [C1 C2]; [lia|intros id Hid%Hvi; by apply Hvb|].
  rewrite El. cbn [bool_decide]. rewrite bool_decide_eq_true_2 by done. cbn [w_m w_d].
  destruct (reclaimOrphanGroups e (w_m w2) _ _) as [t6 d4] eqn:Er. eexists _, _. split; [reflexivity|].
  apply reclaim_ok in Er as (R1 & R2 & R3).
  2: { intros id Hid%on_disk_elem. exists (id + 1). destruct (Hn2 id); [by left|lia]. }
  assert (∀ id bb, id ∈ vis rs → fs !! id = Some bb → durable d4 id bb) as Hdur.
  { intros id bb Hid Hb. apply R2; [by rewrite V2, Hv|]. split; [done|]. intros v Hvv. by apply elem_of_nil in Hvv. }
  assert (visible (MkStore d4 (w_m w2) (sortGroups gs) (above (visibleIDs (w_m w2)) next)
    (foldl add_receipt newReceiptSet (m_receipts (w_m w))) [] [] [] ∅) = vis rs) as Hvis by (unfold visible; cbn; by rewrite V2, Hv).
  split_and!; [|exact Hvis|].
  - split; rewrite ?Hvis; cbn [s_disk s_man s_groups nextID s_calls s_unlink tombstones app]; try (intros ? H; by apply elem_of_nil in H);
      try (intros ? ? H; by apply elem_of_nil in H).
    + exists rs. split; [done|exists f; split; [|done]|by rewrite V2, Hv]. rewrite R1. cbn. by rewrite D2.
    + intros id. rewrite <- Hvi, <- Ei. unfold sortGroups. by rewrite merge_sort_Permutation.
    + unfold sortGroups. rewrite merge_sort_Permutation, Ei. unfold visibleIDs. rewrite merge_sort_Permutation. apply NoDup_elements.
    + intros g Hgs. unfold sortGroups in Hgs. rewrite merge_sort_Permutation in Hgs. destruct (Hg g Hgs) as (bb & r & Hb & Hr & Eg).
      exists bb, r. split_and!; [|done|done]. apply Hdur; [|exact Hb]. apply Hvi. rewrite <- Ei. by apply list_elem_of_fmap_2.
    + split; [lia|]. intros id Hid. split; [by apply Hvb|]. apply C2. by apply Hvi.
    + apply R3; [intros id Hid; split; [by apply Hn2; left; apply on_disk_elem|]; specialize (A2 id Hid); lia|].
      intros id [Hid|[[v Hid]|Hid]]; [|by apply elem_of_nil in Hid|].
      * split; [apply Hn2; by left|]. apply on_disk_elem in Hid. specialize (A2 id Hid). lia.
      * split; [apply Hn2; by right; right|]. specialize (B2 id). rewrite elem_of_elements in B2. specialize (B2 Hid). lia.
    + constructor.
  - intros id Hid. destruct (Hsv id Hid) as (bb & r & Hb & _). rewrite Hb. by apply Hdur.
Qed.

(** ** Write ids *)

(** The receipts hold the write id of every stored call, once each, as long as
    none has been evicted. *)
Record receipts_ok (s : Store) : Prop := {
  ro_order : list_to_set (order (s_receipts s)) = seen (s_receipts s);
  ro_stored : ∀ i c wid id, s_calls s !! i = Some c → c_kind c = Whole wid → wid ≠ [] → is_stored c id → wid ∈ seen (s_receipts s);
  ro_once : ∀ i j c c' wid id id', s_calls s !! i = Some c → s_calls s !! j = Some c' → c_kind c = Whole wid → c_kind c' = Whole wid →
    wid ≠ [] → is_stored c id → is_stored c' id' → i = j }.

Lemma add_receipt_kept rs wid : list_to_set (order rs) = seen rs → len (order rs) < maxReceipts →
  list_to_set (order (add_receipt rs wid)) = seen (add_receipt rs wid) ∧ seen rs ⊆ seen (add_receipt rs wid) ∧
  (wid ≠ [] → wid ∈ seen (add_receipt rs wid)) ∧ len (order (add_receipt rs wid)) ≤ len (order rs) + 1.
Proof.
  intros Ho Hl. unfold add_receipt. case_bool_decide; [split_and!; [done|done|done|lia]|]. case_bool_decide; [split_and!; [done|done|done|lia]|].
  cbn [evict order]. destruct (order rs ++ [wid]) as [|o rest] eqn:E; [by destruct (order rs)|]. rewrite <- E, len_app.
  rewrite bool_decide_eq_false_2 by (change (len [wid]) with 1; lia). cbn [order seen]. rewrite len_app. split_and!; [|set_solver|set_solver|done].
  rewrite list_to_set_app_L, Ho. cbn. set_solver.
Qed.
Lemma step_receipts a s res x : receipts_ok s → len (order (s_receipts s)) < maxReceipts → act_ok a → step a s = Some (res, x) →
  receipts_ok x.1 ∧ len (order (s_receipts x.1)) ≤ len (order (s_receipts s)) + 1.
Proof.
  intros R Hl Ha E.
  assert (∀ wid, recorded s x.1 wid → receipts_ok x.1 ∧ len (order (s_receipts x.1)) ≤ len (order (s_receipts s)) + 1) as Hrec.
  { intros wid [Hc Hr]. destruct (add_receipt_kept (s_receipts s) wid (ro_order _ R) Hl) as (A1 & A2 & _ & A4).
    assert (list_to_set (order (s_receipts x.1)) = seen (s_receipts x.1) ∧ seen (s_receipts s) ⊆ seen (s_receipts x.1) ∧
      len (order (s_receipts x.1)) ≤ len (order (s_receipts s)) + 1) as (B1 & B2 & B3).
    { destruct Hr as [->| ->]; [|done]. split_and!; [apply (ro_order _ R)|done|lia]. }
    split; [|done]. split; [done| |].
    - intros i c w id Hi Hk Hw Hst. apply B2. eapply (ro_stored _ R); eauto.
    - intros i j c c' w id id' Hi Hj Hk Hk' Hw Hst Hst'. eapply (ro_once _ R); [by eapply Hc|by eapply Hc|done..]. }
  assert ((∀ i e, a ≠ Enter i e) ∨ ∃ i e, a = Enter i e) as [Hne|(i & e & ->)] by (destruct a; eauto).
  { eapply Hrec. by eapply step_recorded. }
  destruct (enter_recorded i e s res x E) as [Hr|(c0 & r & _ & Hi & Hh & Hr & _ & Hc & Hact)]; [by eapply Hrec|].
  set (wid := match c_kind c0 with Whole wid => wid | _ => [] end) in *.
  destruct (add_receipt_kept (s_receipts s) wid (ro_order _ R) Hl) as (A1 & A2 & A3 & A4). rewrite <- Hr in A1, A2, A3, A4.
  assert (wid ≠ [] → wid ∉ seen (s_receipts s)) as Hnew by (intros Hw Hin; unfold has in Hh; apply bool_decide_eq_false in Hh; by apply Hh).
  assert (∀ j c w id, s_calls x.1 !! j = Some c → c_kind c = Whole w → w ≠ [] → is_stored c id →
    (j = i ∧ w = wid) ∨ (j ≠ i ∧ s_calls s !! j = Some c ∧ w ∈ seen (s_receipts s))) as Hcase.
  { intros j c w id Hj Hk Hw Hst. rewrite Hc in Hj. destruct (decide (i = j)) as [->|Hn].
    - rewrite list_lookup_alter_eq, Hi in Hj. injection Hj as <-. left. split; [done|]. cbn in Hk. unfold wid. by rewrite Hk.
    - rewrite list_lookup_alter_ne in Hj by done. right. split_and!; [done|done|]. by eapply (ro_stored _ R). }
  split; [split; [done| |]|done].
  - intros j c w id Hj Hk Hw Hst. destruct (Hcase j c w id Hj Hk Hw Hst) as [[_ ->]|(_ & _ & Hin)]; [by apply A3|by apply A2].
  - intros j j' c c' w id id' Hj Hj' Hk Hk' Hw Hst Hst'.
    pose proof (Hcase j c w id Hj Hk Hw Hst) as C1. pose proof (Hcase j' c' w id' Hj' Hk' Hw Hst') as C2.
    destruct C1 as [[-> ->]|(Hn & Hj0 & Hin)], C2 as [[-> E']|(Hn' & Hj0' & Hin')]; try done.
    + by destruct (Hnew Hw).
    + subst w. by destruct (Hnew Hw).
    + by eapply (ro_once _ R).
Qed.
Lemma run_receipts acts : ∀ s s' gone, receipts_ok s → len (order (s_receipts s)) + Z.of_nat (length acts) ≤ maxReceipts →
  Forall act_ok acts → run acts s = Some (s', gone) → receipts_ok s'.
Proof.
  induction acts as [|a acts IH]; intros s s' gone R Hl Ha; cbn [run]; [by intros [= <- _]|].
  apply Forall_cons_1 in Ha as [Ha Has]. destruct (step a s) as [[res x]|] eqn:E; [|done]. cbn [length] in Hl.
  destruct (step_receipts a s res x R ltac:(lia) Ha E) as [R' Hl'].
  destruct res; try done; destruct (run acts x.1) as [[s2 g2]|] eqn:E2; try done; intros [= <- _]; (eapply IH; [exact R'| |exact Has|exact E2]); lia.
Qed.

(** ** Properties *)



(** C21: A retry is not stored twice: of all the calls of a run that carry one
    write id, whatever their interleaving, at most one is answered as stored, as
    long as the ids remembered at its start and the actions of the run are together
    no more than the 65536 that are remembered; the run is one of [store_survives]. *)
Theorem write_id_stored_once (acts : list action) (s0 s : Store) (gone : gset Z)
  (Hn : s_calls s0 = []) (Ho : list_to_set (order (s_receipts s0)) = seen (s_receipts s0))
  (Hl : len (order (s_receipts s0)) + Z.of_nat (length acts) ≤ maxReceipts) (Ha : Forall act_ok acts) (Hrun : run acts s0 = Some (s, gone)) :
  ∀ i j c c' wid id id', s_calls s !! i = Some c → s_calls s !! j = Some c' → c_kind c = Whole wid → c_kind c' = Whole wid →
    wid ≠ [] → is_stored c id → is_stored c' id' → i = j.
Proof.
  apply (ro_once s). eapply run_receipts; [|exact Hl|exact Ha|exact Hrun]. split; [done| |]; intros i c; rewrite ?Hn; naive_solver.
Qed.
