(* ===== verification/StoreRuns.v ===== *)
(** * The store and the manifest at work

    A sample store, the runs on which the properties of the manifest and the store
    hold with their hypotheses evaluated, and the runs on which the code does not
    do what it means to: a commit behind an unfinished rollback, a removal behind
    an unsynced compaction, promotions that collide with live ids, a live tail
    that misses a group or repeats one, an uncommitted group adopted. *)

From S2P Require Import Prelude Digits GoLib Kernels Indices Timestamps Compress DictSection DictLayout Postings Bloom Group.
From stdpp Require Import list gmap.
From S2P Require Import Manifest ManifestOk Store StoreOk.
Local Open Scope Z_scope.

(** ** System calls that succeed *)

Definition atomic_ok : atomic_env := AtomicEnv true true true true true true.
Definition compact_ok : compact_env := CompactEnv true true true atomic_ok true.
Definition commit_ok : commit_env := CommitEnv true true None true true (RollbackEnv true true true true) true compact_ok true.
Definition open_ok : open_env :=
  OpenEnv true true (λ _, true) (λ _, QuarantineEnv true true true) compact_ok true commit_ok (λ _, true).
(** A write of ten bytes, and a rollback whose truncation fails. *)
Definition write_fails : commit_env := CommitEnv true true (Some 10%nat) true true (RollbackEnv true true true true) true compact_ok true.
Definition rollback_fails : commit_env := CommitEnv true true (Some 10%nat) true true (RollbackEnv true false true true) true compact_ok true.
(** A compaction whose directory sync fails after the rename. *)
Definition compact_unsynced : commit_env :=
  CommitEnv true true None true true (RollbackEnv true true true true) true (CompactEnv true true true (AtomicEnv true true true true true false) true) true.

(** ** A sample store *)

(** What a computation returned. *)
Definition got {A} (d : A) (o : outcome A) : A := match o with Ok x => x | Panic => d end.
(** A group of one row at time [t]. *)
Definition row_blob (t : Z) : bytes := got [] (Marshal (MkGroup 1 [MkColumn [116] ColTimestamp None [t] [] 0] false false)).
Definition no_store : Store := MkStore (Disk (disk_of None) ∅ [] ∅) (Manifest.fresh false) [] 0 newReceiptSet [] [] [] ∅.
Definition opened_store (d : disk) : Store := default no_store (got (None, []) (OpenStoreWith open_ok CorruptionFail d)).1.
(** The store after actions, whatever they answered. *)
Definition act (acts : list action) (s : Store) : Store :=
  foldl (λ s a, match step a s with Some (_, x) => x.1 | None => s end) s acts.
(** A directory whose manifest is there, synced and empty. *)
Definition empty_dir : disk := Disk (disk_of (Some [])) ∅ [] ∅.
Definition s0 : Store := opened_store empty_dir.
(** The [n]th call of the run appends a row at time [t]. *)
Definition append (n : nat) (wid : bytes) (t : Z) : list action := [Begin (Whole wid) (row_blob t); Publish n atomic_ok true; Enter n commit_ok].
Definition visible_ids (s : Store) : list Z := e_id <$> s_groups s.
Definition manifest_bytes (s : Store) : option bytes := f_now <$> md_now (k_man (s_disk s)).

(** ** Findings *)

(** A commit that fails and whose rollback fails leaves part of its record on the
    file. The next commit is appended behind it and answers nil, and the next open
    stops before it: the group it named is gone. *)
Lemma commit_after_failed_rollback :
  let w0 := World (Manifest.fresh true) (disk_of (Some [])) [] in
  let x := commit rollback_fails [1] [] [] w0 in let y := commit commit_ok [2] [] [] x.2 in
  x.1 = RollbackFailed ∧ y.1 = Committed ∧ bool_decide (2 ∈ m_visible (w_m y.2)) = true ∧
  recovered (f_now <$> md_now (w_d y.2)) = Ok ∅.
Proof. split_and!; vm_compute; reflexivity. Qed.

(** A commit whose compaction cannot sync the directory after its rename answers
    nil and goes on appending to the renamed file. A removal committed while the
    directory does not sync is lost when the entry goes back to the old log, which
    still names the group whose file was unlinked, and the store does not open. *)
Definition long_log (s : Store) : Store := set_man (with_seq (s_man s) (m_seq (s_man s)) 4095) s.
Definition unsynced_run : Store :=
  act [Begin (Whole []) (row_blob 9); Publish 1 atomic_ok true; Enter 1 compact_unsynced;
       Drop (DropGroupsBefore 7) compact_unsynced; Unlink true] (long_log (act (append 0 [] 5) s0)).
Definition old_log : bytes := match md_old (k_man (s_disk unsynced_run)) with Some f :: _ => f_now f | _ => [] end.
Lemma removal_after_unsynced_compaction :
  visible_ids unsynced_run = [1] ∧ head (md_old (k_man (s_disk unsynced_run))) = Some (Some (file_of old_log)) ∧
  (got (None, []) (OpenStoreWith open_ok CorruptionFail (after_crash (s_disk unsynced_run) (Some old_log) (k_files (s_disk unsynced_run))))).1 = None.
Proof. split_and!; vm_compute; reflexivity. Qed.

(** Ids start over once every group has been demoted and the store restarted. A
    promotion then writes the cold object over the live group of the same id, and
    answers nil because the id is visible already. *)
Definition restarted (s : Store) : Store := set_cold (cold s) (opened_store (after_crash (s_disk s) (manifest_bytes s) (k_files (s_disk s)))).
Definition demoted : Store := restarted (act (append 0 [] 5 ++ [Demote 0 true true commit_ok; Unlink true]) s0).
Definition promoted_over : Store := act (append 0 [] 9 ++ [Promote 0 atomic_ok true commit_ok]) demoted.
Lemma promotion_overwrites_live_group :
  (c_blob <$> s_calls promoted_over) = [row_blob 9] ∧ (c_phase <$> s_calls promoted_over) = [Answered (Stored 0)] ∧
  k_files (s_disk promoted_over) !! 0 = Some (row_blob 5) ∧
  (e_max <$> s_groups (restarted promoted_over)) = [5].
Proof. split_and!; vm_compute; reflexivity. Qed.
(** A promotion does not raise the next id either: the append after it takes the
    promoted group's id and writes over its file. *)
Definition appended_over : Store := act (Promote 0 atomic_ok true commit_ok :: append 0 [] 9) demoted.
Lemma append_overwrites_promoted_group :
  visible_ids appended_over = [0; 0] ∧ k_files (s_disk appended_over) !! 0 = Some (row_blob 9) ∧
  (e_max <$> s_groups (restarted appended_over)) = [9].
Proof. split_and!; vm_compute; reflexivity. Qed.

(** Ids are taken before the write and committed in any order: a tail that has
    seen the later id never sees the earlier one. *)
Definition two_writers : Store :=
  act [Begin (Whole []) (row_blob 5); Begin (Whole []) (row_blob 9); Publish 0 atomic_ok true; Publish 1 atomic_ok true; Enter 1 commit_ok] s0.
Lemma tail_misses_group :
  let poll := SnapshotAfterID 0 two_writers in
  let late := act [Enter 0 commit_ok] two_writers in
  (e_id <$> poll.1) = [1] ∧ poll.2 = 2 ∧ visible_ids late = [0; 1] ∧ SnapshotAfterID 2 late = ([], 2).
Proof. split_and!; vm_compute; reflexivity. Qed.
(** A merge is a new id: a tail receives the rows of its inputs again. *)
Definition merged_store : Store :=
  act (append 0 [] 5 ++ append 1 [] 9 ++ [Begin (Merge [0; 1]) (row_blob 5); Publish 2 atomic_ok true; Enter 2 commit_ok]) s0.
Lemma tail_repeats_merged_rows :
  TailCursor (act (append 0 [] 5 ++ append 1 [] 9) s0) = 2 ∧ (e_id <$> (SnapshotAfterID 2 merged_store).1) = [2].
Proof. split; vm_compute; reflexivity. Qed.

(** The open of a new directory creates the manifest without syncing the
    directory. A crash during the first append can keep the group file and lose
    the manifest, and the next open adopts the group nobody committed. *)
Definition new_dir : disk := Disk (disk_of None) ∅ [] ∅.
Definition first_append : list disk :=
  match step (Publish 0 atomic_ok true) (act [Begin (Whole []) (row_blob 5)] (opened_store new_dir)) with Some (_, x) => x.2 | None => [] end.
Definition renamed : disk := hd new_dir first_append.
Lemma uncommitted_group_adopted :
  renamed ∈ first_append ∧ crash renamed None (k_files renamed) ∧ visible_ids (opened_store (after_crash renamed None (k_files renamed))) = [0].
Proof.
  assert (first_append = [renamed; hd new_dir (tl first_append)]) as E by (vm_compute; reflexivity).
  split; [rewrite E; by left|]. split; [|vm_compute; reflexivity]. split; [|intros id; by left].
  assert (md_old (k_man renamed) = [None]) as Eo by (vm_compute; reflexivity). exists None. split; [rewrite Eo; right; by left|done].
Qed.

(** ** The properties at work *)

(** A record that is small and concrete is well formed. *)
Ltac small_record := split; cbn; try (repeat constructor; vm_compute; congruence); try (vm_compute; congruence).
Definition sample_record : manifestRecord := MkRecord 1 [3] [2] [97; 98].
Lemma sample_record_wf : wf_record sample_record.
Proof. small_record. Qed.
Lemma record_witness :
  decodeManifestRecord (encode sample_record ++ [7]) = Ok (Some (sample_record, 46)) ∧ decodeManifestRecord (take 20 (encode sample_record)) = Ok None.
Proof.
  destruct (manifest_record_roundtrip sample_record sample_record_wf) as [H1 H2]. split; [exact (H1 [7])|].
  apply H2; [exists (drop 20 (encode sample_record)); by rewrite take_drop|vm_compute; congruence].
Defined.
Definition junk : bytes := encode sample_record ++ [1; 2; 3].
Lemma junk_bytes : is_bytes junk.
Proof. apply Forall_app. split; [apply encode_bytes; repeat constructor; vm_compute; congruence|repeat constructor; vm_compute; congruence]. Qed.
Lemma decode_safe_witness : is_bytes junk ∧ ∃ d, decodeManifestRecord junk = Ok d ∧ ∀ r n, d = Some (r, n) → 8 ≤ n ≤ len junk.
Proof. split; [apply junk_bytes|]. exact (decodeManifestRecord_safe junk junk_bytes). Defined.
Lemma replay_witness : is_bytes junk ∧ ∃ m off, replay (length junk) junk 0 (Manifest.fresh true) = Ok (m, off) ∧ 0 ≤ off ≤ len junk ∧
  (off = len junk ∨ decodeManifestRecord (drop (Z.to_nat off) junk) = Ok None).
Proof. split; [apply junk_bytes|]. exact (replay_ends junk (Manifest.fresh true) junk_bytes). Defined.

Lemma matches_empty : matches (Manifest.fresh true) (disk_of (Some [])) [].
Proof. split; [constructor|exists (file_of []); split; [done|apply (settled_of [])]|done]. Qed.
Lemma one_fits V : size V = 1%nat → snapshot_fits V.
Proof. intros E. unfold snapshot_fits. rewrite E. vm_compute. congruence. Qed.
Lemma commit_witness :
  (commit commit_ok [1] [] [] (World (Manifest.fresh true) (disk_of (Some [])) [])).1 = Committed ∧
  (commit write_fails [1] [] [] (World (Manifest.fresh true) (disk_of (Some [])) [])).1 = CommitFailed ∧
  let x := commit write_fails [1] [] [] (World (Manifest.fresh true) (disk_of (Some [])) []) in
  Forall (within ∅ (changed ∅ [1] [])) (w_trace x.2) ∧ commit_told write_fails ∅ (changed ∅ [1] []) x.1 x.2.
Proof.
  split; [vm_compute; reflexivity|]. split; [vm_compute; reflexivity|].
  refine (commit_atomic write_fails [1] [] [] (Manifest.fresh true) (disk_of (Some [])) [] matches_empty _ _ eq_refl).
  - small_record.
  - apply one_fits. vm_compute. reflexivity.
Defined.
Definition two_changes : list change := [Change commit_ok [1; 2] [] []; Change write_fails [3] [] []; Change commit_ok [] [1] [97]].
Lemma history_witness :
  (history two_changes (World (Manifest.fresh true) (disk_of (Some [])) [])).1 = [Committed; CommitFailed; Committed] ∧
  m_visible (w_m (history two_changes (World (Manifest.fresh true) (disk_of (Some [])) [])).2) = promised ∅ two_changes [Committed; CommitFailed; Committed].
Proof.
  assert ((history two_changes (World (Manifest.fresh true) (disk_of (Some [])) [])).1 = [Committed; CommitFailed; Committed]) as E by (vm_compute; reflexivity).
  split; [exact E|]. rewrite <- E. refine (proj1 (commits_survive two_changes (Manifest.fresh true) (disk_of (Some [])) [] matches_empty _ _ _ _)).
  - repeat constructor; vm_compute; congruence.
  - repeat constructor.
  - unfold snapshot_fits. vm_compute. congruence.
  - rewrite E. intros H. repeat (apply elem_of_cons in H as [H|H]; [done|]). by apply elem_of_nil in H.
Defined.
Lemma bootstrap_witness :
  let x := bootstrap compact_ok [4; 7] (World (Manifest.fresh false) (MkDisk None []) []) in
  x.1 = true ∧ m_visible (w_m x.2) = list_to_set [4; 7].
Proof.
  assert ((bootstrap compact_ok [4; 7] (World (Manifest.fresh false) (MkDisk None []) [])).1 = true) as E by (vm_compute; reflexivity).
  split; [exact E|]. refine (proj1 (proj2 (proj2 (bootstrap_atomic compact_ok [4; 7] _)) E)).
  small_record.
Defined.

(** *** The sample store *)

Lemma open_ok_reads : reads_well open_ok.
Proof. by split_and!. Qed.
Lemma empty_dir_crash : crash empty_dir (Some []) ∅.
Proof.
  split; [|intros id; by left]. exists (Some (file_of [])). split; [by left|]. split; [done|]. exists []. split; [by left|done].
Qed.
Lemma s0_inv : Inv s0.
Proof.
  destruct (reopen_spec open_ok CorruptionFail empty_dir (Some []) ∅ ∅ open_ok_reads) as (s & t & E & I & _).
  - intros id [[? H]|[[? H]|H]]; [done|by apply elem_of_nil in H|set_solver].
  - apply empty_dir_crash.
  - apply (finds_log [] []); [constructor|apply torn_nil].
  - intros id H. set_solver.
  - change (after_crash empty_dir (Some []) ∅) with empty_dir in E. unfold s0, opened_store. by rewrite E.
Qed.
(** Two appends under one write id, the second refused and discarded, a third
    group, and a retention that drops the first. *)
Definition wid : bytes := [97; 98; 49; 50; 51; 52; 53; 54].
Definition retried : list action :=
  append 0 wid 5 ++ [Begin (Whole []) (row_blob 8)] ++ append 2 [] 9 ++ [Drop (DropGroupsBefore 7) commit_ok; Unlink false; Retry true].
Lemma wid_fits : wid_ok wid.
Proof. split; [repeat constructor; vm_compute; congruence|vm_compute; congruence]. Qed.
Ltac acts_ok := unfold append; cbn [app]; repeat (apply Forall_cons_2; [first [done | exact wid_fits | exact wid_nil]|]); apply Forall_nil_2.
Lemma retried_ok : Forall act_ok retried.
Proof. unfold retried. acts_ok. Qed.
Definition after_retries : Store := act retried s0.
Lemma retried_run : run retried s0 = Some (after_retries, {[0]}).
Proof. vm_compute. reflexivity. Qed.
Lemma s0_room n : n ≤ 100 → room n s0.
Proof. intros. assert (size (visible s0) = 0%nat ∧ nextID s0 = 0) as [E1 E2] by (split; vm_compute; reflexivity). unfold room. rewrite E1, E2. unfold limit. lia. Qed.
Lemma s0_calls : s_calls s0 = [].
Proof. vm_compute. reflexivity. Qed.

(** A crash that loses nothing. *)
Lemma crash_still s b : md_now (k_man (s_disk s)) = Some (file_of b) → crash (s_disk s) (Some b) (k_files (s_disk s)).
Proof. intros E. split; [|intros id; by left]. exists (Some (file_of b)). rewrite E. split; [by left|]. split; [done|]. exists b. split; [by left|done]. Qed.
Definition bytes_now (s : Store) : bytes := match md_now (k_man (s_disk s)) with Some f => f_now f | None => [] end.


(** The crash between the two disks of an append whose directory is not synced yet. *)
Definition publishing : moved := match step (Publish 1 atomic_ok true) after_retries with Some (_, x) => x | None => (after_retries, []) end.
Definition renamed_disk : disk := hd (s_disk after_retries) publishing.2.

(** Two calls that carry one write id in the same run: one is stored. *)
Definition raced : list action :=
  [Begin (Whole wid) (row_blob 5); Begin (Whole wid) (row_blob 5); Publish 0 atomic_ok true; Publish 1 atomic_ok true; Enter 1 commit_ok; Enter 0 commit_ok].
Lemma raced_ok : Forall act_ok raced.
Proof. unfold raced. acts_ok. Qed.
Lemma once_witness :
  (c_phase <$> s_calls (act raced s0)) = [Discarding ErrDuplicateWrite; Answered (Stored 1)] ∧
  ∀ i j c c' w id id', s_calls (act raced s0) !! i = Some c → s_calls (act raced s0) !! j = Some c' → c_kind c = Whole w → c_kind c' = Whole w →
    w ≠ [] → is_stored c id → is_stored c' id' → i = j.
Proof.
  split; [vm_compute; reflexivity|].
  refine (write_id_stored_once raced s0 (act raced s0) ∅ s0_calls _ _ raced_ok _); vm_compute; (reflexivity || congruence).
Defined.
