(* ===== verification/Text.v ===== *)
(** * Byte strings as Go reads them

    The functions of [strings], [strconv] and [unicode/utf8] that the row pipes
    and the scanners of wire text use, on lists of bytes, with the lemmas on
    splitting and joining they share. White space is Unicode's, a rune that does
    not decode is one byte wide. *)

From S2P Require Import Prelude Digits GoLib.
From stdpp Require Import list sorting.
Local Open Scope Z_scope.

(** ** Definitions *)

(** [strings.IndexByte]; [None] for -1. *)
Fixpoint IndexByte (s : bytes) (c : Z) : option nat :=
  match s with [] => None | x :: s' => if bool_decide (x = c) then Some O else S <$> IndexByte s' c end.
(** The longest prefix whose bytes satisfy [p], and the rest: the scanning loops. *)
Fixpoint span (p : Z → bool) (s : bytes) : bytes * bytes :=
  match s with
  | [] => ([], [])
  | c :: s' => if p c then let x := span p s' in (c :: x.1, x.2) else ([], s)
  end.

(** [strconv.Itoa]: the digits of a natural number, least significant last. *)
Fixpoint dec_digits (fuel : nat) (n : Z) (acc : bytes) : bytes :=
  match fuel with
  | O => acc
  | S fuel => if bool_decide (n < 10) then (48 + n) :: acc else dec_digits fuel (n / 10) ((48 + n mod 10) :: acc)
  end.
Definition Itoa (n : Z) : bytes :=
  if bool_decide (n < 0) then 45 :: dec_digits (S (Z.to_nat (Z.log2 (- n)))) (- n) [] else dec_digits (S (Z.to_nat (Z.log2 n))) n [].
(** [strconv.FormatUint(n, 16)]. *)
Fixpoint hex_digits (fuel : nat) (n : Z) (acc : bytes) : bytes :=
  let d := n mod 16 in
  let c := if bool_decide (d < 10) then 48 + d else 87 + d in
  match fuel with
  | O => acc
  | S fuel => if bool_decide (n < 16) then c :: acc else hex_digits fuel (n / 16) (c :: acc)
  end.
Definition FormatUint16 (n : Z) : bytes := hex_digits 16 n [].

Definition in_range (lo hi c : Z) : bool := bool_decide (lo ≤ c) && bool_decide (c ≤ hi).
Definition is_cont (s : bytes) (i : nat) : bool := match s !! i with Some c => in_range 128 191 c | None => false end.
(** [utf8.DecodeRuneInString]: the width of the first rune, 0 at the end. *)
Definition rune_width (s : bytes) : nat :=
  match s with
  | [] => 0
  | c :: _ =>
      let second lo hi := match s !! 1%nat with Some d => in_range lo hi d | None => false end in
      if in_range 194 223 c && is_cont s 1 then 2
      else if (bool_decide (c = 224) && second 160 191 || in_range 225 236 c && is_cont s 1 || bool_decide (c = 237) && second 128 159
               || in_range 238 239 c && is_cont s 1) && is_cont s 2 then 3
      else if (bool_decide (c = 240) && second 144 191 || in_range 241 243 c && is_cont s 1 || bool_decide (c = 244) && second 128 143)
               && is_cont s 2 && is_cont s 3 then 4
      else 1
  end.
Fixpoint rune_count (skip : nat) (s : bytes) : Z :=
  match s with
  | [] => 0
  | _ :: s' => match skip with S k => rune_count k s' | O => 1 + rune_count (rune_width s - 1) s' end
  end.
Definition RuneCountInString (s : bytes) : Z := rune_count 0 s.

(** The width of the white-space rune at the head; 0 for none. *)
Definition space_width (s : bytes) : nat :=
  match s with
  | c :: s' =>
      if bool_decide (c = 32) || in_range 9 13 c then 1
      else match c, s' with
      | 194, d :: _ => if bool_decide (d = 133 ∨ d = 160) then 2 else 0
      | 225, 154 :: 128 :: _ => 3
      | 226, 128 :: e :: _ => if in_range 128 138 e || bool_decide (e = 168 ∨ e = 169 ∨ e = 175) then 3 else 0
      | 226, 129 :: 159 :: _ => 3
      | 227, 128 :: 128 :: _ => 3
      | _, _ => 0
      end
  | [] => 0
  end.
Fixpoint trim_left (skip : nat) (s : bytes) : bytes :=
  match s with
  | [] => []
  | _ :: s' =>
      match skip with
      | S k => trim_left k s'
      | O => match space_width s with O => s | S k => trim_left k s' end
      end
  end.
Fixpoint trim_right (s : bytes) : bytes :=
  match s with [] => [] | c :: s' => if bool_decide (trim_left 0 s = []) then [] else c :: trim_right s' end.
Definition TrimSpace (s : bytes) : bytes := trim_right (trim_left 0 s).
(** [strings.Fields]. *)
Definition flush (cur : bytes) (rest : list bytes) : list bytes := if bool_decide (cur = []) then rest else cur :: rest.
Fixpoint fields_loop (skip : nat) (s cur : bytes) : list bytes :=
  match s with
  | [] => flush cur []
  | c :: s' =>
      match skip with
      | S k => fields_loop k s' cur
      | O => match space_width s with O => fields_loop 0 s' (cur ++ [c]) | S k => flush cur (fields_loop k s' []) end
      end
  end.
Definition Fields (s : bytes) : list bytes := fields_loop 0 s [].
(** [strings.FieldsFunc] for a separator that every rune above ASCII is. *)
Fixpoint words_loop (word : Z → bool) (s cur : bytes) : list bytes :=
  match s with
  | [] => flush cur []
  | c :: s' => if word c then words_loop word s' (cur ++ [c]) else flush cur (words_loop word s' [])
  end.

(** [strings.HasPrefix]. *)
Definition starts_with (s p : bytes) : bool := bool_decide (take (length p) s = p).
(** [strings.Count] of a non-empty string: occurrences that do not overlap. *)
Fixpoint count_loop (skip : nat) (s sub : bytes) : Z :=
  match s with
  | [] => 0
  | _ :: s' =>
      match skip with
      | S k => count_loop k s' sub
      | O => if starts_with s sub then 1 + count_loop (length sub - 1) s' sub else count_loop 0 s' sub
      end
  end.
Definition Count_str (s sub : bytes) : Z := if bool_decide (sub = []) then RuneCountInString s + 1 else count_loop 0 s sub.
(** [strings.ReplaceAll]. *)
Fixpoint replace_loop (skip : nat) (s old new : bytes) : bytes :=
  match s with
  | [] => []
  | c :: s' =>
      match skip with
      | S k => replace_loop k s' old new
      | O => if starts_with s old then new ++ replace_loop (length old - 1) s' old new else c :: replace_loop 0 s' old new
      end
  end.
(** [new] after every rune. *)
Fixpoint replace_empty (left : nat) (s new : bytes) : bytes :=
  match s with
  | [] => []
  | c :: s' =>
      match left with
      | S (S k) => c :: replace_empty (S k) s' new
      | S O => c :: new ++ replace_empty 0 s' new
      | O => match rune_width s with
             | S (S k) => c :: replace_empty (S k) s' new
             | _ => c :: new ++ replace_empty 0 s' new
             end
      end
  end.
Definition ReplaceAll (s old new : bytes) : bytes :=
  if bool_decide (old = new) then s
  else if bool_decide (old = []) then new ++ replace_empty 0 s new
  else replace_loop 0 s old new.

(** [strings.strings_Join] and [strings.SplitN] on a one-byte separator. *)
Fixpoint strings_Join (l : list bytes) (sep : bytes) : bytes :=
  match l with [] => [] | [s] => s | s :: l' => s ++ sep ++ strings_Join l' sep end.
Fixpoint split_n (sep : Z) (n : nat) (s cur : bytes) : list bytes :=
  match s with
  | [] => [cur]
  | c :: s' =>
      match n with
      | S (S n') => if bool_decide (c = sep) then cur :: split_n sep (S n') s' [] else split_n sep n s' (cur ++ [c])
      | _ => [cur ++ s]
      end
  end.
Definition SplitN (s : bytes) (sep : Z) (n : nat) : list bytes := split_n sep n s [].
(** [sort.Strings]. *)
Definition sort_Strings (l : list bytes) : list bytes := merge_sort str_le l.

(** ** Lemmas *)

Lemma span_app p s : (span p s).1 ++ (span p s).2 = s.
Proof. induction s as [|c s IH]; [done|]. cbn. destruct (p c); cbn; [by rewrite IH|done]. Qed.
Lemma span_all p s : Forall (λ c, p c = true) (span p s).1.
Proof. induction s as [|c s IH]; [done|]. cbn. destruct (p c) eqn:E; cbn; [by constructor|done]. Qed.
Lemma span_head p s : match (span p s).2 with [] => True | c :: _ => p c = false end.
Proof. induction s as [|c s IH]; [done|]. cbn. destruct (p c) eqn:E; [exact IH|done]. Qed.
Lemma span_stop p a s : Forall (λ c, p c = true) a → match s with [] => True | c :: _ => p c = false end → span p (a ++ s) = (a, s).
Proof.
  intros Ha Hs. induction a as [|c a IH]; cbn.
  - destruct s as [|c s]; [done|]. cbn. by rewrite Hs.
  - inversion Ha; subst. rewrite H1. rewrite IH by done. done.
Qed.
Lemma span_length p s : (length (span p s).2 ≤ length s)%nat.
Proof. rewrite <- (span_app p s) at 2. rewrite length_app. lia. Qed.
Lemma IndexByte_Some s c i : IndexByte s c = Some i → ∃ a b, s = a ++ c :: b ∧ length a = i ∧ c ∉ a.
Proof.
  revert i. induction s as [|x s IH]; intros i; cbn; [done|]. case_bool_decide as E.
  - intros [= <-]. exists [], s. subst. split_and!; [done|done|apply not_elem_of_nil].
  - destruct (IndexByte s c) as [j|]; [|done]. intros [= <-]. destruct (IH j eq_refl) as (a & b & -> & <- & Hn).
    exists (x :: a), b. split_and!; [done|done|]. apply not_elem_of_cons. split; [congruence|done].
Qed.
Lemma IndexByte_None s c : IndexByte s c = None ↔ c ∉ s.
Proof.
  induction s as [|x s IH]; cbn; [split; [intros _; apply not_elem_of_nil|done]|].
  rewrite not_elem_of_cons. case_bool_decide as E; [naive_solver|].
  destruct (IndexByte s c); cbn; [split; [done|intros [_ Hn]; by apply IH in Hn]|]. naive_solver.
Qed.
Lemma IndexByte_app a c b : c ∉ a → IndexByte (a ++ c :: b) c = Some (length a).
Proof.
  induction a as [|x a IH]; cbn; [by rewrite bool_decide_true|]. intros [Hx Ha]%not_elem_of_cons.
  rewrite bool_decide_false by congruence. by rewrite IH.
Qed.
