(* ===== verification/Filter.v ===== *)
(** * Filters

    [internal/query/filter.go], the predicates of [engine.go] and the time
    predicates of [time_filter.go]. There are two evaluators of one filter
    language: [evalExpr] builds the bitset of a group's matching rows from its
    columns, [exprMatchesRow] (and its twin [matchRow] of pipes.go) tests one
    materialized row. The theorems say what each answers and when the two
    agree. *)

From S2P Require Import Prelude Digits GoLib Kernels Indices Timestamps DictSection DictLayout Postings Bloom Group Bitset Select.
From S2P Require Import Reader ReaderSafe ReaderOk Table Writer.
From Stdlib Require Import SpecFloat.
From stdpp Require Import list gmap sorting.
Local Open Scope Z_scope.

(** ** The standard library *)

(** What the filters call and only pass values through: [strconv.ParseFloat],
    a compiled regular expression's [MatchString] (none when the pattern does
    not compile), [strings.ToLower], the conversion
    [uint32(f)] and [time.Unix(0, t).UTC().Format(time.RFC3339Nano)]. *)
Class GoText := {
  ParseFloat : bytes → option spec_float;
  regexp_Compile : bytes → option (bytes → bool);
  ToLower : bytes → bytes;
  uint32_of : spec_float → Z;
  Format_RFC3339Nano : Z → bytes }.

(** [float64(n)] of an [int]. *)
Definition float_of_int (n : Z) : spec_float := binary_normalize 53 1024 n 0 false.

(** [strings.HasPrefix] and [strings.Index] (here [None] for -1). *)
Definition HasPrefix (s p : bytes) : bool := bool_decide (take (length p) s = p).
Fixpoint Index (s sub : bytes) : option nat :=
  if HasPrefix s sub then Some O else match s with [] => None | _ :: s' => S <$> Index s' sub end.
(** [strings.Split(s, sep)] on a one-byte separator. *)
Fixpoint split_on (sep : Z) (s cur : bytes) : list bytes :=
  match s with
  | [] => [cur]
  | c :: s' => if bool_decide (c = sep) then cur :: split_on sep s' [] else split_on sep s' (cur ++ [c])
  end.
(** [strconv.Atoi]: an optional sign, then decimal digits, within [int]. *)
Fixpoint atoi_digits (s : bytes) (acc : Z) : option Z :=
  match s with
  | [] => Some acc
  | c :: s' => if bool_decide (48 ≤ c ≤ 57) then atoi_digits s' (10 * acc + (c - 48)) else None
  end.
Definition Atoi (s : bytes) : option Z :=
  let '(neg, ds) := match s with
    | 43 :: ds => (false, ds) | 45 :: ds => (true, ds) | _ => (false, s) end in
  match ds with
  | [] => None
  | _ => n ← atoi_digits ds 0;
         let v := if (neg : bool) then - n else n in
         if bool_decide (- 2 ^ 63 ≤ v < 2 ^ 63) then Some v else None
  end.
(** [fnv.New128a] over a string, its sum in big-endian bytes. *)
Definition fnv128a (s : bytes) : Z :=
  foldl (λ h c, Z.land (Z.lxor h c * 309485009821345068724781371) (Z.ones 128)) 144066263297769815596495629667062367629 s.
Definition hex_Sum (h : Z) : bytes := List.flat_map hex_pair (rev (digits 16 8 h)).

(** [time.Unix(0, ts).UTC()]: the minute of the day and the weekday, Sunday 0. *)
Definition minute_of_day (ts : Z) : Z := (ts / 10 ^ 9) mod 86400 / 60.
Definition Weekday (ts : Z) : Z := (ts / 10 ^ 9 / 86400 + 4) mod 7.

(** ** The filter language *)

Inductive PredKind :=
| KEq | KContains | KRegexp | KLt | KLe | KGt | KGe | KIn | KPrefix | KRangeNum | KLenRange | KStringRange
| KIContains | KSeq | KIPv4Range | KEqField | KNeField | KLtField | KLeField | KGtField | KGeField
| KTimeRange | KTimeDayRange | KTimeWeekRange | KStreamIDEq.
#[export] Instance PredKind_eq_dec : EqDecision PredKind.
Proof. solve_decision. Defined.

(** [re] of a parsed predicate is the compilation of its [Value], so it is not a
    field here; [Sub] is resolved into [Values] before a scan. *)
Record Pred := MkPred {
  p_Field : bytes; p_Field2 : bytes; p_Value : bytes; p_Value2 : bytes; p_Values : list bytes;
  p_Num : spec_float; p_Num2 : spec_float; p_T1 : Z; p_T2 : Z; p_ExLo : bool; p_ExHi : bool; p_Rel : bool;
  p_Kind : PredKind }.

#[local] Set Warnings "-register-all".
Inductive Expr :=
| OpLeaf (p : Pred)
| OpAnd (kids : list Expr)
| OpOr (kids : list Expr)
| OpNot (child : Expr).

Definition isFieldCmp (k : PredKind) : bool :=
  match k with KEqField | KNeField | KLtField | KLeField | KGtField | KGeField => true | _ => false end.
Definition isTimePred (k : PredKind) : bool :=
  match k with KTimeRange | KTimeDayRange | KTimeWeekRange => true | _ => false end.

Definition numInRange (f : spec_float) (p : Pred) : bool :=
  if (if p_ExLo p then SFleb f (p_Num p) else SFltb f (p_Num p)) then false
  else if p_ExHi p then SFltb f (p_Num2 p) else SFleb f (p_Num2 p).
Definition cmpNum (f : spec_float) (k : PredKind) (want : spec_float) : bool :=
  match k with
  | KLt => SFltb f want | KLe => SFleb f want | KGt => SFltb want f | KGe => SFleb want f | _ => false
  end.

(** The loop of [containsSubstr] over the positions of [s]. *)
Fixpoint substr_loop (s sub : bytes) : bool :=
  HasPrefix s sub || match s with [] => false | _ :: s' => substr_loop s' sub end.
Definition containsSubstr (s sub : bytes) : bool := if bool_decide (sub = []) then true else substr_loop s sub.

Fixpoint seqMatch (s : bytes) (phrases : list bytes) : bool :=
  match phrases with
  | [] => true
  | ph :: phrases' =>
      match Index s ph with None => false | Some i => seqMatch (drop (i + length ph) s) phrases' end
  end.

Fixpoint ip_parts (parts : list bytes) (v : Z) : option Z :=
  match parts with
  | [] => Some v
  | p :: parts' =>
      match Atoi p with
      | Some n => if bool_decide (n < 0 ∨ 255 < n) then None else ip_parts parts' (Z.lor (u32 (Z.shiftl v 8)) n)
      | None => None
      end
  end.
Definition ipToU32 (s : bytes) : option Z :=
  let parts := split_on 46 s [] in if bool_decide (len parts ≠ 4) then None else ip_parts parts 0.

(** [StreamID]: sixteen zeros, then the hash. *)
Definition StreamID (streamValue : bytes) : bytes := replicate 16 48 ++ hex_Sum (fnv128a streamValue).

Definition matchDayWeek (ts : Z) (p : Pred) : bool :=
  match p_Kind p with
  | KTimeDayRange => let m := minute_of_day ts in bool_decide (p_T1 p ≤ m) && bool_decide (m ≤ p_T2 p)
  | KTimeWeekRange => negb (bool_decide (Z.land (p_T1 p) (Z.shiftl 1 (Weekday ts)) = 0))
  | _ => false
  end.

(** *** One row *)

Record Row := MkRow { row_Time : Z; row_Fields : list (bytes * bytes); row_NoTime : bool }.

Fixpoint field_loop (fs : list (bytes * bytes)) (key : bytes) : option bytes :=
  match fs with
  | [] => None
  | (k, v) :: fs' => if str_eqb k key then Some v else field_loop fs' key
  end.
(** [None] is the [false] of [rowFieldOK]. *)
Definition rowFieldOK (r : Row) (key : bytes) : option bytes := field_loop (row_Fields r) key.
Definition rowField (r : Row) (key : bytes) : bytes := default [] (rowFieldOK r key).

(** [rowSource]: [rowOf] a row, or [lookupOf] a function. *)
Inductive rowSource :=
| rowOf (r : Row)
| lookupOf (get : bytes → bytes).
Definition src_field (s : rowSource) (name : bytes) : bytes :=
  match s with rowOf r => rowField r name | lookupOf get => get name end.
Definition src_stamp (s : rowSource) : option Z :=
  match s with rowOf r => if row_NoTime r then None else Some (row_Time r) | lookupOf _ => None end.

Section evaluators.
Context {T : GoText}.

Definition fieldCmp (a b : bytes) (k : PredKind) : bool :=
  match k with
  | KEqField => str_eqb a b
  | KNeField => negb (str_eqb a b)
  | _ =>
      let '(less, eq) := match ParseFloat a, ParseFloat b with
        | Some fa, Some fb => (SFltb fa fb, SFeqb fa fb)
        | _, _ => (str_ltb a b, str_eqb a b)
        end in
      match k with
      | KLtField => less
      | KLeField => less || eq
      | KGtField => negb less && negb eq
      | KGeField => negb less
      | _ => false
      end
  end.

Definition predMatchesRow (p : Pred) (src : rowSource) : bool :=
  match p_Kind p with
  | KTimeRange =>
      match src_stamp src with None => false | Some ts => bool_decide (p_T1 p ≤ ts) && bool_decide (ts < p_T2 p) end
  | KTimeDayRange | KTimeWeekRange =>
      match src_stamp src with None => false | Some ts => matchDayWeek ts p end
  | _ =>
      if isFieldCmp (p_Kind p) then fieldCmp (src_field src (p_Field p)) (src_field src (p_Field2 p)) (p_Kind p) else
      let v := src_field src (p_Field p) in
      match p_Kind p with
      | KEq => str_eqb v (p_Value p)
      | KContains => containsSubstr v (p_Value p)
      | KPrefix => HasPrefix v (p_Value p)
      | KRegexp => match regexp_Compile (p_Value p) with Some re => re v | None => false end
      | KLt | KLe | KGt | KGe => match ParseFloat v with Some f => cmpNum f (p_Kind p) (p_Num p) | None => false end
      | KIn => existsb (λ x, str_eqb v x) (p_Values p)
      | KRangeNum => match ParseFloat v with Some f => numInRange f p | None => false end
      | KLenRange => let l := float_of_int (len v) in SFleb (p_Num p) l && SFleb l (p_Num2 p)
      | KStringRange => str_leb (p_Value p) v && str_ltb v (p_Value2 p)
      | KIContains => containsSubstr (ToLower v) (ToLower (p_Value p))
      | KSeq => seqMatch v (p_Values p)
      | KIPv4Range =>
          match ipToU32 v with
          | Some u => bool_decide (uint32_of (p_Num p) ≤ u) && bool_decide (u ≤ uint32_of (p_Num2 p))
          | None => false
          end
      | KStreamIDEq => str_eqb (StreamID v) (p_Value p)
      | _ => false
      end
  end.

(** The loops over [Kids] return at the first [false], or the first [true]. *)
Fixpoint exprMatchesRow (e : Expr) (src : rowSource) : bool :=
  match e with
  | OpLeaf p => predMatchesRow p src
  | OpAnd kids => (fix all (ks : list Expr) := match ks with [] => true | k :: ks' => if exprMatchesRow k src then all ks' else false end) kids
  | OpOr kids => (fix any (ks : list Expr) := match ks with [] => false | k :: ks' => if exprMatchesRow k src then true else any ks' end) kids
  | OpNot child => negb (exprMatchesRow child src)
  end.
(** A nil filter matches every row. *)
Definition filterMatchesRow (e : option Expr) (src : rowSource) : bool :=
  match e with None => true | Some e => exprMatchesRow e src end.

(** [matchRow] of pipes.go, the evaluator of [| filter]. *)
Fixpoint matchRow (r : Row) (e : Expr) : bool :=
  match e with
  | OpAnd kids => (fix all (ks : list Expr) := match ks with [] => true | k :: ks' => if matchRow r k then all ks' else false end) kids
  | OpOr kids => (fix any (ks : list Expr) := match ks with [] => false | k :: ks' => if matchRow r k then true else any ks' end) kids
  | OpNot child => negb (matchRow r child)
  | OpLeaf p => predMatchesRow p (rowOf r)
  end.

(** *** One group *)

(** The entry of [predBitsetCol]'s hit table for the dictionary value [d]. *)
Definition dict_hit (p : Pred) (d : bytes) : bool :=
  match p_Kind p with
  | KContains => containsSubstr d (p_Value p)
  | KRegexp => match regexp_Compile (p_Value p) with None => false | Some re => re d end
  | KPrefix => HasPrefix d (p_Value p)
  | KIn => bool_decide (d ∈ (list_to_set (p_Values p) : gset bytes))
  | KLt | KLe | KGt | KGe => match ParseFloat d with Some f => cmpNum f (p_Kind p) (p_Num p) | None => false end
  | KRangeNum => match ParseFloat d with Some f => numInRange f p | None => false end
  | KLenRange => let l := float_of_int (len d) in SFleb (p_Num p) l && SFleb l (p_Num2 p)
  | KStringRange => str_leb (p_Value p) d && str_ltb d (p_Value2 p)
  | KIContains => let lc := ToLower (p_Value p) in containsSubstr (ToLower d) lc
  | KSeq => seqMatch d (p_Values p)
  | KIPv4Range =>
      let lo := uint32_of (p_Num p) in let hi := uint32_of (p_Num2 p) in
      match ipToU32 d with Some v => bool_decide (lo ≤ v) && bool_decide (v ≤ hi) | None => false end
  | KStreamIDEq => str_eqb (StreamID d) (p_Value p)
  | _ => false
  end.

Context {K : Simd} {F : Flate} {B : BitOps} {M : MaskOps}.

(** [for i, v := range idx { if hit[v] { b.Set(i) } }] *)
Fixpoint hit_loop (hit : list bool) (idx : list Z) (i : Z) (b : Bitset) : outcome Bitset :=
  match idx with
  | [] => Ok b
  | v :: idx' =>
      h ← index hit v;
      b ← (if (h : bool) then Bitset.Set_ b i else Ok b);
      hit_loop hit idx' (i + 1) b
  end.
(** The row loop of the field-against-field predicates. *)
Fixpoint field_rows (k : PredKind) (dict dict2 : list bytes) (idx idx2 : list Z) (n i : Z) (b : Bitset) : outcome Bitset :=
  match idx, idx2 with
  | x :: idx', y :: idx2' =>
      if bool_decide (n ≤ i) then Ok b else
      a ← index dict x;
      c ← index dict2 y;
      b ← (if fieldCmp a c k then Bitset.Set_ b i else Ok b);
      field_rows k dict dict2 idx' idx2' n (i + 1) b
  | _, _ => Ok b
  end.

Definition predBitsetCol (g : Reader) (s : caches) (p : Pred) (idx : list Z) (dict : list bytes) (n : Z) : outcome (Bitset * caches) :=
  let b := NewBitset n in
  if bool_decide (idx = []) then Ok (b, s) else
  if bool_decide (p_Kind p = KEq) then
    id ← DictID g (p_Field p) (p_Value p);
    if bool_decide (id < 0) then Ok (b, s) else
    b ← eqMaskInto b idx (u32 id); Ok (b, s)
  else if isFieldCmp (p_Kind p) then
    x ← DictIndices g s (p_Field2 p);
    let '(idx2, dict2, s) := x in
    if bool_decide (idx2 = []) then Ok (b, s) else
    b ← field_rows (p_Kind p) dict dict2 idx idx2 n 0 b; Ok (b, s)
  else
    b ← hit_loop (dict_hit p <$> dict) idx 0 b; Ok (b, s).

(** [for _, row := range rows { b.Set(int(row)) }] *)
Fixpoint set_rows (rows : list Z) (b : Bitset) : outcome Bitset :=
  match rows with [] => Ok b | row :: rows' => b ← Bitset.Set_ b row; set_rows rows' b end.

Definition eqPredBitset (g : Reader) (s : caches) (p : Pred) (n : Z) : outcome (Bitset * caches) :=
  let b := NewBitset n in
  x ← EqualityCount g (p_Field p) (p_Value p);
  let '(id, count, ok) := x in
  if negb ok then
    x ← DictIndices g s (p_Field p);
    let '(idx, dict, s) := x in predBitsetCol g s p idx dict n
  else if bool_decide (id < 0 ∨ count = 0) then Ok (b, s)
  else if bool_decide (count ≤ Z.quot n 8) then
    y ← EqualityRows g (p_Field p) (p_Value p);
    b ← set_rows y.1 b; Ok (b, s)
  else
    y ← DictIndicesRaw g s (p_Field p);
    b ← eqMaskInto b y.1 (u32 id); Ok (b, y.2).

(** The row loop of the day and week predicates. *)
Fixpoint time_rows (p : Pred) (ts : list Z) (n i : Z) (b : Bitset) : outcome Bitset :=
  match ts with
  | [] => Ok b
  | t :: ts' =>
      if bool_decide (n ≤ i) then Ok b else
      b ← (if matchDayWeek t p then Bitset.Set_ b i else Ok b);
      time_rows p ts' n (i + 1) b
  end.
Definition timePredBitset (g : Reader) (p : Pred) (n : Z) : outcome Bitset :=
  let b := NewBitset n in
  match p_Kind p with
  | KTimeRange => mask ← TimeRangeMaskInto g s_time (p_T1 p) (p_T2 p) []; packBools b mask
  | KTimeDayRange | KTimeWeekRange => ts ← Reader.Timestamps g s_time; time_rows p ts n 0 b
  | _ => Ok b
  end.

Definition leafBitset (g : Reader) (s : caches) (p : Pred) (n : Z) : outcome (Bitset * caches) :=
  if isTimePred (p_Kind p) then b ← timePredBitset g p n; Ok (b, s) else
  if bool_decide (p_Kind p = KEq) then eqPredBitset g s p n else
  x ← DictIndices g s (p_Field p);
  let '(idx, dict, s) := x in predBitsetCol g s p idx dict n.

Fixpoint evalExpr (g : Reader) (s : caches) (e : Expr) (n : Z) : outcome (Bitset * caches) :=
  match e with
  | OpLeaf p => leafBitset g s p n
  | OpAnd kids =>
      b ← SetAll (NewBitset n);
      (fix go (ks : list Expr) (b : Bitset) (s : caches) : outcome (Bitset * caches) :=
         match ks with
         | [] => Ok (b, s)
         | k :: ks' => x ← evalExpr g s k n; go ks' (And b x.1) x.2
         end) kids b s
  | OpOr kids =>
      (fix go (ks : list Expr) (b : Bitset) (s : caches) : outcome (Bitset * caches) :=
         match ks with
         | [] => Ok (b, s)
         | k :: ks' => x ← evalExpr g s k n; go ks' (Or b x.1) x.2
         end) kids (NewBitset n) s
  | OpNot child =>
      b ← SetAll (NewBitset n);
      x ← evalExpr g s child n;
      Ok (AndNot b x.1, x.2)
  end.

Definition leafCanMatch (g : Reader) (p : Pred) : outcome bool :=
  if bool_decide (p_Kind p = KEq) && ColumnExists g (p_Field p) then
    c ← DictContains g (p_Field p) (p_Value p); Ok c
  else Ok true.
Fixpoint exprCanMatch (g : Reader) (e : Expr) : outcome bool :=
  match e with
  | OpAnd kids =>
      (fix go (ks : list Expr) : outcome bool :=
         match ks with
         | [] => Ok true
         | k :: ks' => c ← exprCanMatch g k; if (c : bool) then go ks' else Ok false
         end) kids
  | OpLeaf p => leafCanMatch g p
  | OpOr _ | OpNot _ => Ok true
  end.

(** [filterFields] into the map [out]. *)
Fixpoint filterFields (e : Expr) (out : gmap bytes bool) : gmap bytes bool :=
  match e with
  | OpLeaf p =>
      if isTimePred (p_Kind p) then out else
      let out := <[p_Field p := true]> out in
      if bool_decide (p_Field2 p = []) then out else <[p_Field2 p := true]> out
  | OpNot child => filterFields child out
  | OpAnd kids | OpOr kids =>
      (fix go (ks : list Expr) (out : gmap bytes bool) : gmap bytes bool :=
         match ks with [] => out | k :: ks' => go ks' (filterFields k out) end) kids out
  end.
End evaluators.
