(* ===== verification/FilterOk.v ===== *)
(** * What a filter selects

    On a reader that answers for a table ([answers]), [evalExpr] selects exactly
    the rows on which the filter holds, where a predicate on a field the group
    has no column for holds of no row; it agrees with the row evaluators as soon
    as every field of the filter is a column. The footer prune never drops a
    group that has a matching row. *)

From S2P Require Import Prelude Digits GoLib Kernels Indices Timestamps DictSection DictLayout Postings Bloom Group Bitset Select.
From S2P Require Import Reader ReaderSafe ReaderOk Table Writer Filter.
From Stdlib Require Import SpecFloat.
From stdpp Require Import list gmap sorting.
Local Open Scope Z_scope.

(** ** The meaning of a filter on a table *)

Definition cell_at (t : table) (name : bytes) (i : nat) : option bytes :=
  match find_values (t_cols t) name with Some (Strings vs) => vs !! i | _ => None end.
Definition time_at (t : table) (i : nat) : Z :=
  match find_values (t_cols t) s_time with Some (Times ts) => default 0 (ts !! i) | _ => 0 end.

(** Row [i] with every string column materialized. *)
Definition table_fields (t : table) (i : nat) : list (bytes * bytes) :=
  omap (λ '(name, v), match v with Strings vs => (name,.) <$> vs !! i | _ => None end) (t_cols t).
Definition table_row (t : table) (i : nat) : Row := MkRow (time_at t i) (table_fields t i) false.

Definition string_col (t : table) (name : bytes) : bool :=
  match find_values (t_cols t) name with Some (Strings _) => true | _ => false end.
(** The group has the columns a predicate reads. *)
Definition present (t : table) (p : Pred) : bool :=
  if isTimePred (p_Kind p) then true
  else string_col t (p_Field p) && (if isFieldCmp (p_Kind p) then string_col t (p_Field2 p) else true).

Section meaning.
Context {T : GoText}.

Definition leaf_sem (t : table) (p : Pred) (i : nat) : bool := present t p && predMatchesRow p (rowOf (table_row t i)).
Fixpoint expr_sem (t : table) (e : Expr) (i : nat) : bool :=
  match e with
  | OpLeaf p => leaf_sem t p i
  | OpAnd kids => forallb (λ k, expr_sem t k i) kids
  | OpOr kids => existsb (λ k, expr_sem t k i) kids
  | OpNot child => negb (expr_sem t child i)
  end.
Fixpoint expr_present (t : table) (e : Expr) : bool :=
  match e with
  | OpLeaf p => present t p
  | OpAnd kids | OpOr kids => forallb (expr_present t) kids
  | OpNot child => expr_present t child
  end.
End meaning.

(** Induction over the filter tree. *)
Lemma Expr_tree_ind (P : Expr → Prop) :
  (∀ p, P (OpLeaf p)) → (∀ ks, Forall P ks → P (OpAnd ks)) → (∀ ks, Forall P ks → P (OpOr ks)) →
  (∀ e, P e → P (OpNot e)) → ∀ e, P e.
Proof.
  intros Hl Ha Ho Hn. fix IH 1. intros [p|ks|ks|e]; [apply Hl|apply Ha|apply Ho|apply Hn, IH].
  all: induction ks as [|k ks IHk]; constructor; [apply IH|exact IHk].
Qed.

Lemma table_field t name i :
  NoDup (t_cols t).*1 → rowField (table_row t i) name = default [] (cell_at t name i).
Proof.
  unfold rowField, rowFieldOK, table_row, table_fields, cell_at. cbn [row_Fields].
  induction (t_cols t) as [|[k v] cs IH]; [done|]. rewrite fmap_cons. intros [Hk Hnd]%NoDup_cons. cbn [find_values].
  assert (∀ ds, k ∉ ds.*1 → field_loop (omap (λ '(name, v), match v with Strings vs => (name,.) <$> vs !! i | _ => None end) ds) k = None) as Hskip.
  { clear. intros ds. induction ds as [|[k' v'] ds IHd]; [done|]. rewrite fmap_cons, not_elem_of_cons. intros [Hne Hin]. cbn.
    destruct v'; try by apply IHd. destruct (vs !! i); [|by apply IHd]. cbn. unfold str_eqb.
    rewrite bool_decide_eq_false_2 by (cbn in Hne; congruence). by apply IHd. }
  unfold str_eqb. destruct (decide (k = name)) as [<- |Hne].
  - rewrite bool_decide_eq_true_2 by done. cbn [omap list_omap]. destruct v; try (by rewrite Hskip).
    destruct (vs !! i); cbn; [unfold str_eqb; by rewrite bool_decide_eq_true_2|by rewrite Hskip].
  - rewrite bool_decide_eq_false_2 by done. cbn [omap list_omap].
    destruct v; cbn; try by apply IH. destruct (vs !! i); cbn; [|by apply IH].
    unfold str_eqb. rewrite bool_decide_eq_false_2 by done. by apply IH.
Qed.

(** ** Loops that set rows *)

Fixpoint set_where (marks : list bool) (i : Z) (b : Bitset) : outcome Bitset :=
  match marks with
  | [] => Ok b
  | m :: marks' => b ← (if (m : bool) then Bitset.Set_ b i else Ok b); set_where marks' (i + 1) b
  end.

Lemma set_where_spec n marks : ∀ i b P,
  selects b n P → 0 ≤ i → i + len marks ≤ n →
  ∃ b', set_where marks i b = Ok b' ∧
    selects b' n (λ j, P j || (bool_decide (i ≤ j) && default false (marks !! Z.to_nat (j - i)))).
Proof.
  induction marks as [|m marks IH]; intros i b P Hs Hi Hn; cbn [set_where].
  - exists b. split; [done|]. eapply selects_ext; [done|]. intros j Hj. cbn. by rewrite andb_false_r, orb_false_r.
  - rewrite len_cons in Hn. len_facts.
    assert (∃ b1, (if m then Bitset.Set_ b i else Ok b) = Ok b1 ∧ selects b1 n (λ j, P j || (m && bool_decide (j = i)))) as (b1 & -> & Hs1).
    { destruct m; [apply selects_Set; [done|lia]|]. exists b. split; [done|].
      eapply selects_ext; [done|]. intros j Hj. cbn. by rewrite orb_false_r. }
    rewrite bind_Ok. destruct (IH (i + 1) b1 _ Hs1) as (b' & -> & Hs'); [lia|lia|]. exists b'. split; [done|].
    eapply selects_ext; [done|]. intros j Hj. cbv beta. rewrite <- orb_assoc. f_equal.
    destruct (decide (j = i)) as [-> |Hne].
    + rewrite bool_decide_eq_true_2, andb_true_r, bool_decide_eq_false_2, bool_decide_eq_true_2 by lia.
      rewrite Z.sub_diag. cbn. by rewrite orb_false_r.
    + rewrite (bool_decide_eq_false_2 (j = i)), andb_false_r by done. cbn.
      destruct (decide (i + 1 ≤ j)) as [Hle|Hgt].
      * rewrite !bool_decide_eq_true_2 by lia. replace (Z.to_nat (j - i)) with (S (Z.to_nat (j - (i + 1)))) by lia. done.
      * by rewrite !bool_decide_eq_false_2 by lia.
Qed.

Lemma set_where_new n marks :
  len marks ≤ n →
  ∃ b, set_where marks 0 (NewBitset n) = Ok b ∧ selects b n (λ j, default false (marks !! Z.to_nat j)).
Proof.
  intros Hn. len_facts. destruct (set_where_spec n marks 0 (NewBitset n) (λ _, false)) as (b & E & Hs); [by apply selects_new; lia|lia|lia|].
  exists b. split; [done|]. eapply selects_ext; [done|]. intros j Hj. cbn. rewrite bool_decide_eq_true_2 by lia. by rewrite Z.sub_0_r.
Qed.

Lemma set_rows_spec n rows : ∀ b P,
  selects b n P → Forall (λ i, 0 ≤ i < n) rows →
  ∃ b', set_rows rows b = Ok b' ∧ selects b' n (λ j, P j || bool_decide (j ∈ rows)).
Proof.
  induction rows as [|i rows IH]; intros b P Hs Hr; cbn [set_rows].
  - exists b. split; [done|]. eapply selects_ext; [done|]. intros j Hj. cbv beta.
    rewrite bool_decide_eq_false_2 by (by intros ?%elem_of_nil). by rewrite orb_false_r.
  - apply Forall_cons_1 in Hr as [Hi Hr]. destruct (selects_Set b n P i Hs Hi) as (b1 & -> & Hs1). rewrite bind_Ok.
    destruct (IH b1 _ Hs1 Hr) as (b' & -> & Hs'). exists b'. split; [done|]. eapply selects_ext; [done|].
    intros j Hj. cbv beta. rewrite <- orb_assoc. f_equal. rewrite <- bool_decide_or. apply bool_decide_ext. by rewrite elem_of_cons.
Qed.

Section loops.
Context {T : GoText}.

Lemma hit_loop_marks hit idx : ∀ i b,
  Forall (λ x, 0 ≤ x < len hit) idx →
  hit_loop hit idx i b = set_where ((λ x, default false (hit !! Z.to_nat x)) <$> idx) i b.
Proof.
  induction idx as [|x idx IH]; intros i b Hx; [done|]. apply Forall_cons_1 in Hx as [Hx Hr].
  rewrite fmap_cons. cbn [hit_loop set_where].
  destruct (lookup_lt_is_Some_2 hit (Z.to_nat x)) as [h Eh]; [unfold len in *; lia|].
  rewrite (index_Ok hit x h), bind_Ok, Eh by (done || lia). cbn [default from_option id].
  destruct (if h then _ else _); [|done]. rewrite !bind_Ok. by apply IH.
Qed.

Lemma field_rows_marks k dict dict2 n idx : ∀ idx2 i b,
  Forall (λ x, 0 ≤ x < len dict) idx → Forall (λ x, 0 ≤ x < len dict2) idx2 → i + len idx ≤ n →
  field_rows k dict dict2 idx idx2 n i b
  = set_where (zip_with (λ x y, fieldCmp (val_at dict x) (val_at dict2 y) k) idx idx2) i b.
Proof.
  induction idx as [|x idx IH]; intros [|y idx2] i b Hx Hy Hn; try done.
  apply Forall_cons_1 in Hx as [Hx Hxs]. apply Forall_cons_1 in Hy as [Hy Hys]. rewrite len_cons in Hn. len_facts.
  cbn [field_rows zip_with set_where]. rewrite bool_decide_eq_false_2 by lia.
  rewrite (index_Ok dict x (val_at dict x)), bind_Ok by (lia || by apply val_at_lookup).
  rewrite (index_Ok dict2 y (val_at dict2 y)), bind_Ok by (lia || by apply val_at_lookup).
  destruct (if fieldCmp _ _ _ then _ else _); [|done]. rewrite !bind_Ok. apply IH; (done || lia).
Qed.

Lemma time_rows_marks p n ts : ∀ i b,
  i + len ts ≤ n → time_rows p ts n i b = set_where ((λ t, matchDayWeek t p) <$> ts) i b.
Proof.
  induction ts as [|t ts IH]; intros i b Hn; [done|]. rewrite len_cons in Hn. len_facts.
  rewrite fmap_cons. cbn [time_rows set_where]. rewrite bool_decide_eq_false_2 by lia.
  destruct (if matchDayWeek t p then _ else _); [|done]. rewrite !bind_Ok. apply IH. lia.
Qed.

(** The two spellings of a predicate on one value agree: the hit table of the
    group scan and the row evaluator. *)
Lemma dict_hit_row p src :
  isTimePred (p_Kind p) = false → isFieldCmp (p_Kind p) = false → p_Kind p ≠ KEq →
  dict_hit p (src_field src (p_Field p)) = predMatchesRow p src.
Proof.
  intros Ht Hf Hq. unfold dict_hit, predMatchesRow. rewrite Hf. destruct (p_Kind p); try done.
  apply Bool.eq_iff_eq_true. rewrite bool_decide_eq_true, elem_of_list_to_set, existsb_exists. unfold str_eqb.
  split; [intros Hin; eexists; split; [by apply list_elem_of_In|by apply bool_decide_eq_true_2]|].
  intros (x & Hx & ->%bool_decide_eq_true). by apply list_elem_of_In.
Qed.
End loops.

(** ** One predicate *)

Lemma elem_rows_where vs v : ∀ row i, i ∈ rows_where row vs v ↔ ∃ k, i = row + Z.of_nat k ∧ vs !! k = Some v.
Proof.
  induction vs as [|u vs IH]; intros row i; cbn [rows_where].
  - split; [by intros ?%elem_of_nil|]. by intros (k & _ & ?).
  - assert ((∃ k, i = row + 1 + Z.of_nat k ∧ vs !! k = Some v) ↔ (∃ k, i = row + Z.of_nat (S k) ∧ (u :: vs) !! S k = Some v)) as Hs.
    { split; intros (k & -> & Hk); exists k; (split; [lia|done]). }
    unfold str_eqb. case_bool_decide as E; rewrite ?elem_of_cons, IH, Hs; split.
    + intros [-> |(k & Hk)]; [exists O; cbn; split; [lia|congruence]|by exists (S k)].
    + intros ([|k] & Hi & Hk); [left; lia|right; by exists k].
    + intros (k & Hk). by exists (S k).
    + intros ([|k] & Hi & Hk); [cbn in Hk; congruence|by exists k].
Qed.

Section group.
Context {T : GoText} {K : Simd} {KL : SimdLaws K} {F : Flate} {FL : FlateLaws F}.
Context {B : BitOps} {BL : BitOpsLaws B} {M : MaskOps} {ML : MaskOpsLaws M}.

Lemma colIndex_none cols name : ∀ i, col_loop cols name = None → colIndex_loop cols name i = -1.
Proof. induction cols as [|m cols IH]; intros i; cbn [col_loop colIndex_loop]; [done|]. destruct (str_eqb (Name m) name); [done|apply IH]. Qed.

Lemma DictIndices_none r s name : typed_col r name ColDict = None → DictIndices r s name = Ok ([], [], s).
Proof.
  unfold typed_col, col, DictIndices, colIndex. cbv zeta. intros Ht. destruct (col_loop (r_cols r) name) as [m|] eqn:Ec.
  - destruct (col_colIndex _ _ _ 0 Ec) as (j & Hj & ->). rewrite Z.add_0_l, bool_decide_eq_false_2 by lia.
    rewrite (index_Ok _ _ m), bind_Ok by (try lia; by rewrite Nat2Z.id). case_bool_decide as Hty; [done|].
    rewrite bool_decide_eq_true_2 by done. done.
  - by rewrite (colIndex_none _ _ _ Ec), bool_decide_eq_true_2 by lia.
Qed.

Context (np : bool) (g : Reader) (t : table) (Ha : answers np g t).
Context (Hpos : 0 < t_rows t) (Hnd : NoDup (t_cols t).*1).
Context (ts : list Z) (Hts : find_values (t_cols t) s_time = Some (Times ts)).

(** The column a dictionary accessor finds, or none. *)
Inductive dict_column (name : bytes) : Prop :=
| dict_here vs ids dict :
    find_values (t_cols t) name = Some (Strings vs) → string_answers np g name vs → val_at dict <$> ids = vs →
    coded g name ids dict → (∀ v id k, EqualityCount g name v = Ok (id, k, true) → id_of dict v id) →
    len ids = t_rows t → ids ≠ [] → dict_column name
| dict_gone : string_col t name = false → typed_col g name ColDict = None → dict_column name.

Lemma column_of name : dict_column name.
Proof.
  destruct (find_values (t_cols t) name) as [[vs|?|?]|] eqn:E.
  - pose proof (an_strings _ _ _ Ha name vs E) as Hs. destruct (sa_coded _ _ _ _ Hs) as (ids & dict & Ev & Hc & Hid).
    pose proof (an_lens _ _ _ Ha name) as Hl. rewrite E in Hl. assert (len ids = t_rows t) as Hn by (by rewrite <- Hl, <- Ev, len_fmap).
    eapply dict_here; try done. intros ->. change (len (@nil Z)) with 0 in Hn. lia.
  - apply dict_gone; [unfold string_col; by rewrite E|]. apply (an_other _ _ _ Ha). intros vs'. by rewrite E.
  - apply dict_gone; [unfold string_col; by rewrite E|]. apply (an_other _ _ _ Ha). intros vs'. by rewrite E.
  - apply dict_gone; [unfold string_col; by rewrite E|]. apply (an_other _ _ _ Ha). intros vs'. by rewrite E.
Qed.

Lemma cell_coded name vs ids dict i :
  find_values (t_cols t) name = Some (Strings vs) → val_at dict <$> ids = vs →
  rowField (table_row t i) name = default [] (val_at dict <$> ids !! i).
Proof. intros E <-. rewrite table_field by done. unfold cell_at. by rewrite E, list_lookup_fmap. Qed.

(** A result selects [P] and leaves sound caches. *)
Definition answers_rows (P : nat → bool) (o : outcome (Bitset * caches)) : Prop :=
  ∃ b s', o = Ok (b, s') ∧ caches_ok g s' ∧ selects b (t_rows t) (λ i, P (Z.to_nat i)).

Lemma answers_marks marks P s :
  len marks = t_rows t → caches_ok g s → (∀ i m, marks !! i = Some m → m = P i) →
  answers_rows P (b ← set_where marks 0 (NewBitset (t_rows t)); Ok (b, s)).
Proof.
  intros Hl Hs Hm. destruct (set_where_new (t_rows t) marks) as (b & -> & Hb); [lia|]. rewrite bind_Ok. exists b, s.
  split_and!; [done|done|]. eapply selects_ext; [done|]. intros i Hi. cbv beta.
  destruct (lookup_lt_is_Some_2 marks (Z.to_nat i)) as [m E]; [unfold len in *; lia|]. rewrite E. by apply Hm.
Qed.

Lemma answers_none P s : caches_ok g s → (∀ i, Z.of_nat i < t_rows t → P i = false) → answers_rows P (Ok (NewBitset (t_rows t), s)).
Proof.
  intros Hs HP. exists (NewBitset (t_rows t)), s. split_and!; [done|done|].
  eapply selects_ext; [apply selects_new; lia|]. intros i Hi. symmetry. apply HP. lia.
Qed.

Lemma answers_ids ids want P s :
  len ids = t_rows t → caches_ok g s → (∀ i x, ids !! i = Some x → bool_decide (x = want) = P i) →
  answers_rows P (b ← eqMaskInto (NewBitset (t_rows t)) ids want; Ok (b, s)).
Proof.
  intros Hl Hs Hp. destruct (selects_eqMask (t_rows t) ids want) as (b & -> & Hb); [done|lia|]. rewrite bind_Ok.
  exists b, s. split_and!; [done|done|]. eapply selects_ext; [done|]. intros i Hi. cbv beta.
  destruct (lookup_lt_is_Some_2 ids (Z.to_nat i)) as [x E]; [unfold len in *; lia|]. rewrite <- (Hp _ _ E), E.
  apply bool_decide_ext. split; [by intros [= ->]|by intros ->].
Qed.

(** Equality on ids is equality on values. *)
Lemma id_eq dict v id x :
  StronglySorted str_lt dict → id_of dict v id → 0 ≤ x < len dict →
  bool_decide (x = id) = str_eqb (val_at dict x) v.
Proof.
  intros Hs Hid Hx. unfold str_eqb. apply bool_decide_ext. pose proof (val_at_lookup dict x Hx) as Ex.
  destruct Hid as [[H0 Hi]|[-> Hn]].
  - split; [intros ->; congruence|]. intros E. rewrite E in Ex.
    destruct (decide (x = id)) as [|Hne]; [done|]. exfalso. pose proof (lookup_lt_Some _ _ _ Hi) as Hlt.
    assert (∀ i j, i < j → 0 ≤ i → j < len dict → val_at dict i ≠ val_at dict j) as Hinj.
    { intros i j Hij Hi0 Hj E'. apply (str_lt_irrefl (val_at dict j)). rewrite <- E' at 1. apply val_at_lt; (done || lia). }
    assert (val_at dict id = v) as Ev by (unfold val_at; by rewrite Hi).
    destruct (decide (x < id)); [apply (Hinj x id)|apply (Hinj id x)]; unfold len in *; (lia || congruence).
  - split; [lia|]. intros E. destruct Hn. rewrite <- E. by eapply list_elem_of_lookup_2.
Qed.

Lemma string_col_here name vs : find_values (t_cols t) name = Some (Strings vs) → string_col t name = true.
Proof. intros E. unfold string_col. by rewrite E. Qed.

(** Row [i] of a predicate whose field is the coded column. *)
Lemma leaf_value p vs ids dict i x :
  find_values (t_cols t) (p_Field p) = Some (Strings vs) → val_at dict <$> ids = vs → ids !! i = Some x →
  rowField (table_row t i) (p_Field p) = val_at dict x.
Proof. intros E Ev Hx. rewrite (cell_coded _ vs ids dict) by done. by rewrite Hx. Qed.

Lemma leaf_eq p i v :
  p_Kind p = KEq → string_col t (p_Field p) = true → rowField (table_row t i) (p_Field p) = v →
  leaf_sem t p i = str_eqb v (p_Value p).
Proof. intros Hk Hc Hv. unfold leaf_sem, present, predMatchesRow. rewrite Hk, Hc. cbn [isTimePred isFieldCmp andb src_field]. by rewrite Hv. Qed.

Lemma u32_id dict v id : id_of dict v id → len dict < 2 ^ 32 → 0 ≤ id → u32 id = id.
Proof. intros [[_ Hi]|[-> _]] Hl H0; [|lia]. apply u32_small. apply lookup_lt_Some in Hi. unfold is_digit, len in *. lia. Qed.

Lemma predBitsetCol_rows p s vs ids dict :
  caches_ok g s → isTimePred (p_Kind p) = false →
  find_values (t_cols t) (p_Field p) = Some (Strings vs) → val_at dict <$> ids = vs → coded g (p_Field p) ids dict →
  len ids = t_rows t → ids ≠ [] → answers_rows (leaf_sem t p) (predBitsetCol g s p ids dict (t_rows t)).
Proof.
  intros Hs Ht Ef Ev Hc Hl Hne. unfold predBitsetCol. rewrite bool_decide_eq_false_2 by done.
  pose proof (cd_range _ _ _ _ Hc) as Hr. rewrite Forall_lookup in Hr. pose proof (string_col_here _ _ Ef) as Hsc.
  destruct (decide (p_Kind p = KEq)) as [Hk|Hk]; [rewrite bool_decide_eq_true_2 by done|rewrite bool_decide_eq_false_2 by done].
  - destruct (cd_id _ _ _ _ Hc (p_Value p)) as (id & -> & Hid). rewrite bind_Ok.
    assert (∀ i x, ids !! i = Some x → bool_decide (x = id) = leaf_sem t p i) as Hx.
    { intros i x Hx. rewrite (leaf_eq p i (val_at dict x)) by (done || by eapply leaf_value).
      apply id_eq; [apply Hc|done|by apply (Hr i)]. }
    case_bool_decide as Hneg; [|by rewrite (u32_id dict (p_Value p)) by (done || lia || apply Hc); apply answers_ids].
    apply answers_none; [done|]. intros i Hi. destruct (lookup_lt_is_Some_2 ids i) as [x E]; [unfold len in *; lia|].
    rewrite <- (Hx i x E). apply bool_decide_eq_false_2. pose proof (Hr i x E). lia.
  - destruct (isFieldCmp (p_Kind p)) eqn:Hf.
    + destruct (column_of (p_Field2 p)) as [vs2 ids2 dict2 E2 _ Ev2 Hc2 _ Hl2 Hne2|Hg Hg2].
      * destruct (cd_all _ _ _ _ Hc2 s Hs) as (s' & -> & Hs'). rewrite bind_Ok, bool_decide_eq_false_2 by done.
        rewrite field_rows_marks by (apply Hc || apply Hc2 || lia). apply answers_marks; [|done|].
        { unfold len in *. rewrite length_zip_with. lia. }
        intros i m (x & y & -> & Hx & Hy)%lookup_zip_with_Some.
        unfold leaf_sem, present. rewrite Ht, Hf, Hsc, (string_col_here _ _ E2).
        unfold predMatchesRow. rewrite Hf. cbn [src_field]. rewrite (leaf_value p vs ids dict i x) by done.
        rewrite (cell_coded _ vs2 ids2 dict2) by done. rewrite Hy. by destruct (p_Kind p).
      * rewrite (DictIndices_none g s _ Hg2), bind_Ok, bool_decide_eq_true_2 by done. apply answers_none; [done|].
        intros i _. unfold leaf_sem, present. by rewrite Ht, Hf, Hsc, Hg.
    + rewrite hit_loop_marks by (eapply Forall_impl; [apply Hc|]; intros x Hx; by rewrite len_fmap).
      apply answers_marks; [by rewrite len_fmap|done|]. intros i m Hm. rewrite list_lookup_fmap in Hm.
      destruct (ids !! i) as [x|] eqn:Hx; [|done]. injection Hm as <-.
      rewrite list_lookup_fmap, (val_at_lookup dict x) by (by apply (Hr i)). cbn [fmap option_fmap option_map default from_option id].
      unfold leaf_sem, present. rewrite Ht, Hf, Hsc. cbn [andb]. rewrite <- dict_hit_row by done. cbn [src_field].
      by rewrite (leaf_value p vs ids dict i x).
Qed.

Lemma eqPredBitset_rows p s :
  caches_ok g s → p_Kind p = KEq → answers_rows (leaf_sem t p) (eqPredBitset g s p (t_rows t)).
Proof.
  intros Hs Hk. unfold eqPredBitset. cbv zeta.
  destruct (column_of (p_Field p)) as [vs ids dict Ef Hsa Ev Hc Hid Hl Hne|Hg Hg2].
  2:{ unfold EqualityCount. rewrite Hg2, bind_Ok. cbn [negb]. rewrite (DictIndices_none g s _ Hg2), bind_Ok.
      unfold predBitsetCol. rewrite bool_decide_eq_true_2 by done. apply answers_none; [done|]. intros i _.
      unfold leaf_sem, present. by rewrite Hk, Hg. }
  pose proof (string_col_here _ _ Ef) as Hsc.
  assert (∀ i x, ids !! i = Some x → leaf_sem t p i = str_eqb (val_at dict x) (p_Value p)) as Hx.
  { intros i x Hx. apply leaf_eq; [done|done|by eapply leaf_value]. }
  destruct (sa_count _ _ _ _ Hsa (p_Value p)) as (id & Ec). pose proof (sa_rows _ _ _ _ Hsa (p_Value p)) as Er.
  assert (np = true ∨ np = false) as [Enp|Enp] by (destruct np; auto);
    rewrite Enp in Ec, Er; rewrite Ec, bind_Ok; cbn [negb].
  { destruct (cd_all _ _ _ _ Hc s Hs) as (s' & -> & Hs'). rewrite bind_Ok. apply (predBitsetCol_rows p s' vs); [done|by rewrite Hk|done..]. }
  pose proof (Hid _ _ _ Ec) as Hi. pose proof (cd_range _ _ _ _ Hc) as Hr. rewrite Forall_lookup in Hr.
  assert (∀ i, i ∈ rows_where 0 vs (p_Value p) ↔ ∃ k, i = Z.of_nat k ∧ vs !! k = Some (p_Value p)) as Hw.
  { intros i. rewrite elem_rows_where. split; intros (k & -> & Hv); exists k; (split; [lia|done]). }
  assert (∀ k, Z.of_nat k < t_rows t → leaf_sem t p k = bool_decide (Z.of_nat k ∈ rows_where 0 vs (p_Value p))) as Hrow.
  { intros k Hk'. destruct (lookup_lt_is_Some_2 ids k) as [x Ex]; [unfold len in *; lia|]. rewrite (Hx k x Ex).
    unfold str_eqb. apply bool_decide_ext. rewrite Hw, <- Ev. split.
    - intros E. exists k. split; [done|]. by rewrite list_lookup_fmap, Ex; cbn; rewrite E.
    - intros (k' & E%(inj Z.of_nat) & Hv). subst k'. rewrite list_lookup_fmap, Ex in Hv. by injection Hv. }
  destruct (decide (id < 0 ∨ len (rows_where 0 vs (p_Value p)) = 0)) as [H0|H0];
    [rewrite bool_decide_eq_true_2 by done|rewrite bool_decide_eq_false_2 by done].
  { apply answers_none; [done|]. intros i Hi'. destruct H0 as [Hneg|H0].
    - destruct (lookup_lt_is_Some_2 ids i) as [x Ex]; [unfold len in *; lia|]. rewrite (Hx i x Ex).
      rewrite <- (id_eq dict (p_Value p) id x) by (done || apply Hc || by apply (Hr i)). apply bool_decide_eq_false_2.
      pose proof (Hr i x Ex). lia.
    - rewrite (Hrow i Hi'). destruct (rows_where 0 vs (p_Value p)); [|rewrite len_cons in H0; len_facts; lia].
      apply bool_decide_eq_false_2. by intros ?%elem_of_nil. }
  case_bool_decide as Hsmall.
  - rewrite Er, bind_Ok. cbn [fst].
    destruct (set_rows_spec (t_rows t) (rows_where 0 vs (p_Value p)) (NewBitset (t_rows t)) (λ _, false)) as (b & -> & Hb).
    { apply selects_new. lia. }
    { apply Forall_forall. intros i (k & -> & Hv)%Hw. apply lookup_lt_Some in Hv.
      assert (length vs = length ids) as E by (rewrite <- Ev; apply length_fmap). unfold len in Hl. lia. }
    rewrite bind_Ok. exists b, s. split_and!; [done|done|]. eapply selects_ext; [done|]. intros i Hi'. cbn.
    rewrite Hrow by lia. by rewrite Z2Nat.id by lia.
  - destruct (cd_raw _ _ _ _ Hc s Hs) as (s' & -> & Hs'). rewrite bind_Ok. cbn [fst snd].
    rewrite (u32_id dict (p_Value p)) by (done || lia || apply Hc). apply answers_ids; [done|done|].
    intros i x Ex. rewrite (Hx i x Ex). apply id_eq; [apply Hc|done|by apply (Hr i)].
Qed.

Lemma times_of : time_answers g s_time ts ∧ len ts = t_rows t ∧ ts ≠ [].
Proof.
  pose proof (an_lens _ _ _ Ha s_time) as Hl. rewrite Hts in Hl.
  assert (ts ≠ []) as Hne by (intros ->; change (len (@nil Z)) with 0 in Hl; lia).
  split_and!; [by apply (an_times _ _ _ Ha)|done|done].
Qed.
Lemma time_at_row i x : ts !! i = Some x → time_at t i = x.
Proof. intros E. unfold time_at. by rewrite Hts, E. Qed.

Lemma timePredBitset_rows p s :
  caches_ok g s → isTimePred (p_Kind p) = true →
  answers_rows (leaf_sem t p) (b ← timePredBitset g p (t_rows t); Ok (b, s)).
Proof.
  intros Hs Ht. destruct times_of as (Hta & Hl & Hne).
  assert (∀ i, leaf_sem t p i = predMatchesRow p (rowOf (table_row t i))) as Hsem.
  { intros i. unfold leaf_sem, present. by rewrite Ht. }
  destruct (decide (p_Kind p = KTimeRange)) as [Hk|Hk].
  - unfold timePredBitset. rewrite Hk, (ta_mask _ _ _ Hta), bind_Ok.
    destruct (selects_pack (t_rows t) (in_window (p_T1 p) (p_T2 p) <$> ts)) as (b & -> & Hb).
    { by intros ?%fmap_nil_inv. } { by rewrite len_fmap. }
    rewrite bind_Ok. exists b, s. split_and!; [done|done|]. eapply selects_ext; [done|]. intros i Hi. cbv beta.
    rewrite list_lookup_fmap, Hsem. destruct (lookup_lt_is_Some_2 ts (Z.to_nat i)) as [x E]; [unfold len in *; lia|].
    rewrite E. cbn. unfold predMatchesRow. rewrite Hk. cbn [src_stamp row_NoTime table_row row_Time].
    rewrite (time_at_row _ x E). unfold in_window. by rewrite bool_decide_and.
  - assert (timePredBitset g p (t_rows t) = (u ← Reader.Timestamps g s_time; time_rows p u (t_rows t) 0 (NewBitset (t_rows t)))) as ->.
    { unfold timePredBitset. by destruct (p_Kind p). }
    rewrite (ta_all _ _ _ Hta), bind_Ok, time_rows_marks by lia. apply answers_marks; [by rewrite len_fmap|done|].
    intros i m Hm. rewrite list_lookup_fmap in Hm. destruct (ts !! i) as [x|] eqn:E; [|done]. injection Hm as <-.
    rewrite Hsem. unfold predMatchesRow. cbn [src_stamp row_NoTime table_row row_Time]. rewrite (time_at_row _ x E).
    by destruct (p_Kind p).
Qed.

Lemma leafBitset_rows p s : caches_ok g s → answers_rows (leaf_sem t p) (leafBitset g s p (t_rows t)).
Proof.
  intros Hs. unfold leafBitset. destruct (isTimePred (p_Kind p)) eqn:Ht; [by apply timePredBitset_rows|].
  case_bool_decide as Hk; [by apply eqPredBitset_rows|].
  destruct (column_of (p_Field p)) as [vs ids dict Ef Hsa Ev Hc Hid Hl Hne|Hg Hg2].
  - destruct (cd_all _ _ _ _ Hc s Hs) as (s' & -> & Hs'). rewrite bind_Ok. by apply (predBitsetCol_rows p s' vs).
  - rewrite (DictIndices_none g s _ Hg2), bind_Ok. unfold predBitsetCol. rewrite bool_decide_eq_true_2 by done.
    apply answers_none; [done|]. intros i _. unfold leaf_sem, present. by rewrite Ht, Hg.
Qed.

(** ** The tree *)

Lemma evalExpr_spec e : ∀ s, caches_ok g s → answers_rows (expr_sem t e) (evalExpr g s e (t_rows t)).
Proof.
  induction e as [p|ks IH|ks IH|e IH] using Expr_tree_ind; intros s Hs; cbn [evalExpr].
  - by apply leafBitset_rows.
  - destruct (selects_all (t_rows t)) as (b & -> & Hb); [lia|]. rewrite bind_Ok.
    assert (∀ P, selects b (t_rows t) (λ i, P (Z.to_nat i)) →
      answers_rows (λ i, P i && forallb (λ k, expr_sem t k i) ks) ((fix go (ks : list Expr) (b : Bitset) (s : caches) :=
         match ks with [] => Ok (b, s) | k :: ks' => x ← evalExpr g s k (t_rows t); go ks' (And b x.1) x.2 end) ks b s)) as H.
    { clear Hb. revert b s Hs. induction IH as [|k ks Hk _ IHk]; intros b s Hs P Hb.
      - exists b, s. split_and!; [done|done|]. eapply selects_ext; [done|]. intros i _. cbn. by rewrite andb_true_r.
      - destruct (Hk s Hs) as (o & s' & -> & Hs' & Ho). rewrite bind_Ok. cbn [fst snd].
        destruct (IHk (And b o) s' Hs' (λ i, P i && expr_sem t k i)) as (b' & s2 & -> & Hs2 & Hb'); [by apply selects_And|].
        exists b', s2. split_and!; [done|done|]. eapply selects_ext; [done|]. intros i _. cbn. by rewrite andb_assoc. }
    destruct (H (λ _, true) Hb) as (b' & s' & -> & Hs' & Hb'). exists b', s'. split_and!; done.
  - assert (∀ b P, selects b (t_rows t) (λ i, P (Z.to_nat i)) →
      answers_rows (λ i, P i || existsb (λ k, expr_sem t k i) ks) ((fix go (ks : list Expr) (b : Bitset) (s : caches) :=
         match ks with [] => Ok (b, s) | k :: ks' => x ← evalExpr g s k (t_rows t); go ks' (Or b x.1) x.2 end) ks b s)) as H.
    { revert s Hs. induction IH as [|k ks Hk _ IHk]; intros s Hs b P Hb.
      - exists b, s. split_and!; [done|done|]. eapply selects_ext; [done|]. intros i _. cbn. by rewrite orb_false_r.
      - destruct (Hk s Hs) as (o & s' & -> & Hs' & Ho). rewrite bind_Ok. cbn [fst snd].
        destruct (IHk s' Hs' (Or b o) (λ i, P i || expr_sem t k i)) as (b' & s2 & -> & Hs2 & Hb'); [by apply selects_Or|].
        exists b', s2. split_and!; [done|done|]. eapply selects_ext; [done|]. intros i _. cbn. by rewrite orb_assoc. }
    destruct (H (NewBitset (t_rows t)) (λ _, false)) as (b' & s' & -> & Hs' & Hb'); [apply selects_new; lia|].
    exists b', s'. split_and!; done.
  - destruct (selects_all (t_rows t)) as (b & -> & Hb); [lia|]. rewrite bind_Ok.
    destruct (IH s Hs) as (o & s' & -> & Hs' & Ho). rewrite bind_Ok. exists (AndNot b o), s'. split_and!; [done|done|].
    eapply selects_ext; [by apply selects_AndNot|]. intros i _. done.
Qed.

(** [evalExpr] computes, for every AND/OR/NOT tree over every leaf kind,
    exactly the bitset of the rows the tree accepts, on any group that reads
    back to a table, and leaves the decode caches consistent; it never panics.
    *)
Theorem evalExpr_exact e : ∀ s, caches_ok g s → answers_rows (expr_sem t e) (evalExpr g s e (t_rows t)).
Proof. by eapply evalExpr_spec. Qed.

(** A leaf the footer rules out matches no row. *)
Lemma leafCanMatch_spec p :
  ∃ c, leafCanMatch g p = Ok c ∧ (c = false → ∀ i, Z.of_nat i < t_rows t → leaf_sem t p i = false).
Proof.
  unfold leafCanMatch. destruct (decide (p_Kind p = KEq)) as [Hk|Hk]; [rewrite bool_decide_eq_true_2 by done|by rewrite bool_decide_eq_false_2 by done; exists true].
  cbn [andb]. destruct (ColumnExists g (p_Field p)); [|by exists true].
  destruct (column_of (p_Field p)) as [vs ids dict Ef Hsa Ev Hc Hid Hl Hne|Hg Hg2].
  - rewrite (sa_contains _ _ _ _ Hsa (p_Value p)), bind_Ok. eexists. split; [done|].
    intros Hno%bool_decide_eq_false i Hi. destruct (lookup_lt_is_Some_2 ids i) as [x Ex]; [unfold len in *; lia|].
    rewrite (leaf_eq p i (val_at dict x)) by (done || by eapply string_col_here || by eapply leaf_value).
    unfold str_eqb. apply bool_decide_eq_false_2. intros Hv. apply Hno. rewrite <- Ev, <- Hv.
    apply list_elem_of_fmap. exists x. split; [done|by eapply list_elem_of_lookup_2].
  - exists false. unfold DictContains. rewrite Hg2, bind_Ok. split; [done|]. intros _ i _. unfold leaf_sem, present. by rewrite Hk, Hg.
Qed.

Lemma exprCanMatch_spec e :
  ∃ c, exprCanMatch g e = Ok c ∧ (c = false → ∀ i, Z.of_nat i < t_rows t → expr_sem t e i = false).
Proof.
  induction e as [p|ks IH|ks IH|e IH] using Expr_tree_ind; cbn [exprCanMatch expr_sem]; [apply leafCanMatch_spec| |by exists true..].
  induction IH as [|k ks (c & -> & Hc) _ (c' & E & Hc')]; [by exists true|]. rewrite bind_Ok.
  destruct c; [exists c'; split; [exact E|]; intros H i Hi; cbn; rewrite (Hc' H i Hi); apply andb_false_r|].
  exists false. split; [done|]. intros _ i Hi. cbn. by rewrite Hc.
Qed.
End group.

(** ** The row evaluators *)

Section rows.
Context {T : GoText}.

Lemma exprMatchesRow_sem src e : exprMatchesRow e src =
  (fix go e := match e with
   | OpLeaf p => predMatchesRow p src
   | OpAnd ks => forallb go ks
   | OpOr ks => existsb go ks
   | OpNot e => negb (go e) end) e.
Proof.
  induction e as [p|ks IH|ks IH|e IH] using Expr_tree_ind; cbn [exprMatchesRow]; [done| | |by rewrite IH].
  all: induction IH as [|k ks Hk _ IHk]; [done|]; cbn; rewrite Hk, IHk; by destruct (_ k).
Qed.
Lemma matchRow_exprMatchesRow r e : matchRow r e = exprMatchesRow e (rowOf r).
Proof.
  induction e as [p|ks IH|ks IH|e IH] using Expr_tree_ind; cbn [exprMatchesRow matchRow]; [done| | |by rewrite IH].
  all: induction IH as [|k ks Hk _ IHk]; [done|]; rewrite Hk; by destruct (exprMatchesRow k (rowOf r)).
Qed.

(** With every column present, the meaning of a filter is what the row evaluator
    says of the materialized row. *)
Lemma expr_sem_row t e i : expr_present t e = true → expr_sem t e i = exprMatchesRow e (rowOf (table_row t i)).
Proof.
  rewrite exprMatchesRow_sem. induction e as [p|ks IH|ks IH|e IH] using Expr_tree_ind; cbn [expr_present expr_sem]; intros Hp.
  - unfold leaf_sem. by rewrite Hp.
  - induction IH as [|k ks Hk _ IHk]; [done|]. cbn in *. apply andb_true_iff in Hp as [H1 H2]. by rewrite Hk, IHk.
  - induction IH as [|k ks Hk _ IHk]; [done|]. cbn in *. apply andb_true_iff in Hp as [H1 H2]. by rewrite Hk, IHk.
  - by rewrite IH.
Qed.

(** the two evaluators agree: on a row whose tree's fields are all columns
    of its group, the row-at-a-time evaluator of [| filter] accepts the
    materialized row exactly when the index-backed evaluator selects it. *)
Theorem row_evaluator_agrees t e i : expr_present t e = true → expr_sem t e i = exprMatchesRow e (rowOf (table_row t i)).
Proof. by eapply expr_sem_row. Qed.
End rows.
