(* ===== verification/Engine.v ===== *)
(** * The query engine

    [internal/query/engine.go]: the query, its budgets, the selection of one
    group ([matchBitset]) and the materialization of its rows ([appendMatches])
    with its point-read, bulk-decode and arena paths. *)

From S2P Require Import Prelude Digits GoLib Kernels Indices Timestamps DictSection DictLayout Postings Bloom Group Bitset Select.
From S2P Require Import Reader ReaderSafe ReaderOk Table Writer Filter.
From stdpp Require Import list gmap sorting.
Local Open Scope Z_scope.

(** ** Definitions *)

Definition smallResultRows : Z := 64.
Definition bulkDecodeRows : Z := 512.
Definition tsBlockGuess : Z := 512.
Definition parallelMinGroups : Z := 4.

(** The fields of [Query] the scan reads. *)
Record Query := MkQuery {
  q_From : Z; q_To : Z; q_Preds : list Pred; q_Filter : option Expr; q_Materialize : list bytes;
  q_Limit : Z; q_MaxRows : Z; q_MaxBytes : Z; q_LastN : Z; q_MatAll : bool; q_MatCols : bool;
  q_maxGroups : Z; q_maxMemory : Z; q_ToSet : bool; q_Now : Z; q_NowSet : bool }.

Definition with_window (q : Query) (from to : Z) (toSet : bool) : Query :=
  MkQuery from to (q_Preds q) (q_Filter q) (q_Materialize q) (q_Limit q) (q_MaxRows q) (q_MaxBytes q) (q_LastN q)
    (q_MatAll q) (q_MatCols q) (q_maxGroups q) (q_maxMemory q) toSet (q_Now q) (q_NowSet q).
Definition with_filter (q : Query) (preds : list Pred) (filter : option Expr) : Query :=
  MkQuery (q_From q) (q_To q) preds filter (q_Materialize q) (q_Limit q) (q_MaxRows q) (q_MaxBytes q) (q_LastN q)
    (q_MatAll q) (q_MatCols q) (q_maxGroups q) (q_maxMemory q) (q_ToSet q) (q_Now q) (q_NowSet q).
Definition SetWindow (q : Query) (from to : Z) : Query := with_window q from to true.

(** Why a scan ended early. *)
Inductive Stop :=
| ErrCanceled | ErrDeadlineExceeded | ErrByteLimit | ErrMemoryLimit | ErrRowLimit | ErrTooManyGroups
| ErrTooManyGroupKeys | ErrPipeRowLimit | ErrNotDistributable.

Definition formatTime {T : GoText} (t : Z) : bytes := Format_RFC3339Nano t.
Definition rowBytes (r : Row) : Z := foldl (λ n f, n + (len f.1 + len f.2)) 8 (row_Fields r).
Definition countsBytes (q : Query) : bool := bool_decide (0 < q_MaxBytes q ∨ 0 < q_maxMemory q).

(** [exceeded]: [clock] is what the context and the deadline say at this check. *)
Definition exceeded (q : Query) (clock : option Stop) (bytes : Z) : option Stop :=
  match clock with
  | Some e => Some e
  | None =>
      if bool_decide (0 < q_MaxBytes q ∧ q_MaxBytes q < bytes) then Some ErrByteLimit
      else if bool_decide (0 < q_maxMemory q ∧ q_maxMemory q < bytes) then Some ErrMemoryLimit
      else None
  end.
(** [stop]: the first reason stays. *)
Definition stop (old : option Stop) (e : Stop) : option Stop := match old with Some _ => old | None => Some e end.

Section engine.
Context {T : GoText} {K : Simd} {F : Flate} {B : BitOps} {M : MaskOps} {R : MapRange}.

Fixpoint preds_can (g : Reader) (ps : list Pred) : outcome bool :=
  match ps with
  | [] => Ok true
  | p :: ps' => c ← leafCanMatch g p; if (c : bool) then preds_can g ps' else Ok false
  end.
Definition groupCanMatch (g : Reader) (q : Query) : outcome bool :=
  match q_Filter q with Some e => exprCanMatch g e | None => preds_can g (q_Preds q) end.

(** Whether the group reaches outside the window, and the mask when it does. *)
Definition windowed (g : Reader) (q : Query) : bool := bool_decide (r_TimeMin g < q_From q ∨ q_To q ≤ r_TimeMax g).
Definition window_sel (g : Reader) (q : Query) : outcome Bitset :=
  sel ← SetAll (NewBitset (r_Rows g));
  if windowed g q then
    mask ← TimeRangeMaskInto g s_time (q_From q) (q_To q) [];
    tb ← packBools (NewBitset (r_Rows g)) mask;
    Ok (And sel tb)
  else Ok sel.

Fixpoint and_leaves (g : Reader) (ps : list Pred) (sel : Bitset) (s : caches) : outcome (Bitset * caches) :=
  match ps with
  | [] => Ok (sel, s)
  | p :: ps' => x ← leafBitset g s p (r_Rows g); and_leaves g ps' (And sel x.1) x.2
  end.
Definition matchBitset (g : Reader) (s : caches) (q : Query) : outcome (Bitset * caches) :=
  sel ← window_sel g q;
  match q_Filter q with
  | Some e => x ← evalExpr g s e (r_Rows g); Ok (And sel x.1, x.2)
  | None => and_leaves g (q_Preds q) sel s
  end.

(** *** Materialization *)

(** A decoded column of [appendMatches]. *)
Record decoded := Decoded { d_idx : list Z; d_dict : list bytes }.

(** [addField]: [matFields] doubles as the set [seenF]. *)
Definition addField (f : bytes) (fs : list bytes) : list bytes := if bool_decide (f ∈ fs) then fs else fs ++ [f].
Definition addFields (l fs : list bytes) : list bytes := foldl (λ fs f, addField f fs) fs l.

(** The [Preds] loop: the selection, the fields, the columns decoded for it. *)
Fixpoint pred_loop (g : Reader) (ps : list Pred) (sel : Bitset) (fs : list bytes) (cols : gmap bytes decoded) (s : caches)
    : outcome (Bitset * list bytes * gmap bytes decoded * caches) :=
  match ps with
  | [] => Ok (sel, fs, cols, s)
  | p :: ps' =>
      if isTimePred (p_Kind p) then
        tb ← timePredBitset g p (r_Rows g);
        pred_loop g ps' (And sel tb) fs cols s
      else
      let fs := addField (p_Field p) fs in
      let fs := if bool_decide (p_Field2 p = []) then fs else addField (p_Field2 p) fs in
      if bool_decide (p_Kind p = KEq) then
        x ← eqPredBitset g s p (r_Rows g);
        pred_loop g ps' (And sel x.1) fs cols x.2
      else
        x ← DictIndices g s (p_Field p);
        let '(idx, dict, s) := x in
        y ← predBitsetCol g s p idx dict (r_Rows g);
        pred_loop g ps' (And sel y.1) fs (<[p_Field p := Decoded idx dict]> cols) y.2
  end.
Definition filter_stage (g : Reader) (q : Query) (sel : Bitset) (s : caches)
    : outcome (Bitset * list bytes * gmap bytes decoded * caches) :=
  match q_Filter q with
  | Some e =>
      x ← evalExpr g s e (r_Rows g);
      Ok (And sel x.1, addFields (range_map (filterFields e ∅)).*1 [], ∅, x.2)
  | None => pred_loop g (q_Preds q) sel [] ∅ s
  end.
Definition mat_fields (g : Reader) (q : Query) (fs : list bytes) : list bytes :=
  let fs := addFields (q_Materialize q) fs in
  if q_MatAll q || q_MatCols q
  then addFields (List.filter (λ f, negb (str_eqb f s_time)) (ColumnNames g)) fs else fs.

(** [want[idx[i]] = true] for the selected rows. *)
Fixpoint mark_wanted (idx : list Z) (rows : list Z) (want : list bool) : outcome (list bool) :=
  match rows with
  | [] => Ok want
  | i :: rows' =>
      if bool_decide (i < len idx) then
        x ← index idx i; want ← store want x true; mark_wanted idx rows' want
      else mark_wanted idx rows' want
  end.
Fixpoint bulk_decode (g : Reader) (sel : list Z) (fs : list bytes) (cols : gmap bytes decoded) (s : caches)
    : outcome (gmap bytes decoded * caches) :=
  match fs with
  | [] => Ok (cols, s)
  | f :: fs' =>
      match cols !! f with
      | Some _ => bulk_decode g sel fs' cols s
      | None =>
          x ← DictIndicesRaw g s f;
          let '(idx, s) := x in
          if bool_decide (idx = []) then bulk_decode g sel fs' cols s else
          want ← mark_wanted idx sel (replicate (Z.to_nat (DictLenOf g f)) false);
          dict ← DictDecodeSome g f want;
          bulk_decode g sel fs' (<[f := Decoded idx dict]> cols) s
      end
  end.

(** The value of field [f] in row [i], read from a decoded column, by a point
    read, or from the row's time; [None] when the row gets no such field. *)
Definition field_value (g : Reader) (c : decoded) (f : bytes) (i t : Z) : outcome (option bytes) :=
  if bool_decide (d_idx c ≠ []) then
    x ← index (d_idx c) i; v ← index (d_dict c) x; Ok (Some v)
  else
    o ← DictValueAt g f i;
    match o with
    | Some v => Ok (Some v)
    | None => Ok (if str_eqb f s_time then Some (formatTime t) else None)
    end.
Definition no_col : decoded := Decoded [] [].

(** The fields of one row of a small result. *)
Fixpoint row_fields_of (g : Reader) (cols : gmap bytes decoded) (fs : list bytes) (i t : Z) : outcome (list (bytes * bytes)) :=
  match fs with
  | [] => Ok []
  | f :: fs' =>
      o ← field_value g (default no_col (cols !! f)) f i t;
      rest ← row_fields_of g cols fs' i t;
      Ok (match o with Some v => (f, v) :: rest | None => rest end)
  end.
(** A row's time: a point read, or the decoded span. *)
Definition row_time (g : Reader) (pointRead : bool) (ts : list Z) (lo i : Z) : outcome Z :=
  if pointRead then o ← TimestampAt g s_time i; Ok (default 0 o) else index ts (i - lo).
Fixpoint small_rows (g : Reader) (cols : gmap bytes decoded) (fs : list bytes) (pointRead : bool) (ts : list Z) (lo : Z)
    (rows : list Z) : outcome (list Row) :=
  match rows with
  | [] => Ok []
  | i :: rows' =>
      t ← row_time g pointRead ts lo i;
      f ← row_fields_of g cols fs i t;
      rest ← small_rows g cols fs pointRead ts lo rows';
      Ok (MkRow t f false :: rest)
  end.

(** A large result writes its fields into one arena; a row is a span of it. *)
Fixpoint arena_fields (g : Reader) (mats : list (bytes * decoded)) (i t : Z) (arena : list (bytes * bytes)) (pos : Z)
    : outcome (list (bytes * bytes) * Z) :=
  match mats with
  | [] => Ok (arena, pos)
  | (f, c) :: mats' =>
      o ← field_value g c f i t;
      match o with
      | Some v => arena ← store arena pos (f, v); arena_fields g mats' i t arena (pos + 1)
      | None => arena_fields g mats' i t arena pos
      end
  end.
Fixpoint arena_rows (g : Reader) (mats : list (bytes * decoded)) (pointRead : bool) (ts : list Z) (lo : Z)
    (rows : list Z) (arena : list (bytes * bytes)) (pos : Z) : outcome (list (Z * Z * Z) * list (bytes * bytes)) :=
  match rows with
  | [] => Ok ([], arena)
  | i :: rows' =>
      t ← row_time g pointRead ts lo i;
      x ← arena_fields g mats i t arena pos;
      let '(arena, pos') := x in
      y ← arena_rows g mats pointRead ts lo rows' arena pos';
      Ok ((t, pos, pos') :: y.1, y.2)
  end.
Fixpoint arena_out (spans : list (Z * Z * Z)) (arena : list (bytes * bytes)) : outcome (list Row) :=
  match spans with
  | [] => Ok []
  | (t, lo, hi) :: spans' =>
      f ← slice arena lo hi; rest ← arena_out spans' arena; Ok (MkRow t f false :: rest)
  end.

(** The rows of the selection that a bound leaves. *)
Definition bound_sel (q : Query) (out_len : Z) (sel : Bitset) : option (Bitset * Z) :=
  let cnt := Count sel in
  if bool_decide (cnt = 0) then None
  else if bool_decide (0 < q_LastN q) then
    Some (if bool_decide (q_LastN q < cnt) then (KeepLast sel (q_LastN q), q_LastN q) else (sel, cnt))
  else if bool_decide (0 < q_Limit q) then
    let remaining := q_Limit q - out_len in
    if bool_decide (remaining ≤ 0) then None
    else Some (if bool_decide (remaining < cnt) then (KeepFirst sel remaining, remaining) else (sel, cnt))
  else Some (sel, cnt).

(** The rows [lo, hi) whose timestamps may be decoded. *)
Definition time_span (g : Reader) (q : Query) (sel : Bitset) : outcome (Z * Z) :=
  x ← (if windowed g q then
         y ← TimeWindowSpan g s_time (q_From q) (q_To q);
         Ok (if bool_decide (y.2 ≤ y.1) then (0, r_Rows g) else y)
       else Ok (0, r_Rows g));
  let '(lo, hi) := x in
  if bool_decide (0 < q_Limit q ∨ 0 < q_LastN q) then
    let '(first, last) := FirstLast sel in
    if bool_decide (0 ≤ first) then Ok (Z.max first lo, Z.min (last + 1) hi) else Ok (lo, hi)
  else Ok (lo, hi).

(** [pool]: what the scratch buffer of the timestamps held. *)
Definition appendMatches (pool : list Z) (out : list Row) (g : Reader) (s : caches) (q : Query) : outcome (list Row * caches) :=
  sel ← window_sel g q;
  x ← filter_stage g q sel s;
  let '(sel, fs, cols, s) := x in
  let fs := mat_fields g q fs in
  match bound_sel q (len out) sel with
  | None => Ok (out, s)
  | Some (sel, cnt) =>
      y ← time_span g q sel;
      let '(lo, hi) := y in
      let pointRead := bool_decide (cnt * tsBlockGuess < hi - lo) in
      ts ← (if pointRead then Ok [] else TimestampsRangeInto g pool s_time lo hi);
      z ← (if bool_decide (Z.quot (r_Rows g) 16 ≤ cnt ∨ bulkDecodeRows ≤ cnt)
           then bulk_decode g (ForEach sel) fs cols s else Ok (cols, s));
      let '(cols, s) := z in
      if bool_decide (cnt ≤ smallResultRows) then
        rows ← small_rows g cols fs pointRead ts lo (ForEach sel);
        Ok (out ++ rows, s)
      else
        let mats := (λ f, (f, default no_col (cols !! f))) <$> fs in
        u ← arena_rows g mats pointRead ts lo (ForEach sel) (replicate (Z.to_nat (cnt * len mats)) ([], [])) 0;
        rows ← arena_out u.1 u.2;
        Ok (out ++ rows, s)
  end.
End engine.
