(* ===== verification/EngineOk.v ===== *)
(** * What a scan of one group returns

    On a group whose reader answers for a table, [matchBitset] selects the rows
    in the window on which the filter holds, and [appendMatches] appends exactly
    those rows, bounded as the query asks, whichever of its paths it takes. *)

From S2P Require Import Prelude Digits GoLib Kernels Indices Timestamps DictSection DictLayout Postings Bloom Group Bitset Select.
From S2P Require Import Reader ReaderSafe ReaderOk Table Writer Filter FilterOk Engine.
From stdpp Require Import list gmap sorting.
Local Open Scope Z_scope.

(** ** The meaning of a query on a table *)

Section meaning.
Context {T : GoText} {R : MapRange}.

Definition filter_sem (t : table) (q : Query) (i : nat) : bool :=
  match q_Filter q with Some e => expr_sem t e i | None => forallb (λ p, leaf_sem t p i) (q_Preds q) end.
Definition query_sem (t : table) (q : Query) (i : nat) : bool :=
  in_window (q_From q) (q_To q) (time_at t i) && filter_sem t q i.
Definition query_rows (t : table) (q : Query) : list Z := matching (t_rows t) (λ i, query_sem t q (Z.to_nat i)).

(** The fields a query materializes, in the order the maps of Go give. *)
Definition pred_fields (ps : list Pred) (fs : list bytes) : list bytes :=
  foldl (λ fs p, if isTimePred (p_Kind p) then fs else
    let fs := addField (p_Field p) fs in if bool_decide (p_Field2 p = []) then fs else addField (p_Field2 p) fs) fs ps.
Definition query_fields (names : list bytes) (q : Query) : list bytes :=
  let fs := match q_Filter q with
    | Some e => addFields (range_map (filterFields e ∅)).*1 [] | None => pred_fields (q_Preds q) [] end in
  let fs := addFields (q_Materialize q) fs in
  if q_MatAll q || q_MatCols q then addFields (List.filter (λ f, negb (str_eqb f s_time)) names) fs else fs.

(** A field of a row: its column's value, or the formatted time. *)
Definition field_sem (t : table) (f : bytes) (i : nat) : option bytes :=
  match cell_at t f i with
  | Some v => Some v
  | None => if str_eqb f s_time then Some (formatTime (time_at t i)) else None
  end.
Definition mat_row (t : table) (fs : list bytes) (i : nat) : Row :=
  MkRow (time_at t i) (omap (λ f, (f,.) <$> field_sem t f i) fs) false.

(** The rows a bound leaves of those that match. *)
Definition bounded_rows (q : Query) (out_len : Z) (rows : list Z) : list Z :=
  if bool_decide (0 < q_LastN q) then drop (length rows - Z.to_nat (q_LastN q)) rows
  else if bool_decide (0 < q_Limit q) then take (Z.to_nat (q_Limit q - out_len)) rows
  else rows.
End meaning.

(** A reader in service: it answers for a table with at least one row, one
    column per name and a [_time] column. *)
Record serves `{K : Simd} `{F : Flate} (np : bool) (g : Reader) (t : table) (ts : list Z) : Prop := {
  sv_ans : answers np g t;
  sv_pos : 0 < t_rows t;
  sv_nd : NoDup (t_cols t).*1;
  sv_ts : find_values (t_cols t) s_time = Some (Times ts) }.

Section group.
Context {T : GoText} {R : MapRange} {K : Simd} {KL : SimdLaws K} {F : Flate} {FL : FlateLaws F}.
Context {B : BitOps} {BL : BitOpsLaws B} {M : MaskOps} {ML : MaskOpsLaws M}.
Context (np : bool) (g : Reader) (t : table) (ts : list Z) (Hv : serves np g t ts).

Lemma times_served : time_answers g s_time ts ∧ len ts = t_rows t ∧ ts ≠ [].
Proof. destruct Hv as [Ha Hp Hn Hts]. by apply (times_of np g t Ha Hp). Qed.
Lemma rows_served : r_Rows g = t_rows t.
Proof. apply (an_rows _ _ _ (sv_ans _ _ _ _ Hv)). Qed.
Lemma time_served i : (i < length ts)%nat → ∃ x, ts !! i = Some x ∧ time_at t i = x.
Proof.
  intros Hi. destruct (lookup_lt_is_Some_2 ts i Hi) as [x E]. exists x. split; [done|].
  by apply (time_at_row t ts (sv_ts _ _ _ _ Hv)).
Qed.

(** Outside the window is decided by the footer, inside it by the mask. *)
Lemma window_sel_rows q :
  ∃ b, window_sel g q = Ok b ∧ selects b (t_rows t) (λ i, in_window (q_From q) (q_To q) (time_at t (Z.to_nat i))).
Proof.
  destruct times_served as (Hta & Hl & Hne). pose proof (sv_pos _ _ _ _ Hv) as Hpos. unfold window_sel. rewrite rows_served.
  destruct (selects_all (t_rows t)) as (b & -> & Hb); [lia|]. rewrite bind_Ok. unfold windowed. case_bool_decide as Hw.
  - rewrite (ta_mask _ _ _ Hta), bind_Ok.
    destruct (selects_pack (t_rows t) (in_window (q_From q) (q_To q) <$> ts)) as (o & -> & Ho).
    { by intros ?%fmap_nil_inv. } { by rewrite len_fmap. }
    rewrite bind_Ok. eexists. split; [done|]. eapply selects_ext; [by apply selects_And|]. intros i Hi. cbn.
    rewrite list_lookup_fmap. destruct (time_served (Z.to_nat i)) as (x & -> & ->); [unfold len in *; lia|]. done.
  - exists b. split; [done|]. eapply selects_ext; [done|]. intros i Hi. cbv beta.
    destruct (time_served (Z.to_nat i)) as (x & Ex & ->); [unfold len in *; lia|].
    pose proof (ta_group _ _ _ Hta x (x + 1) x ltac:(by eapply list_elem_of_lookup_2) ltac:(lia)) as Hg.
    unfold TimeRangeMatches in Hg. apply andb_true_iff in Hg as [H1%bool_decide_eq_true H2%bool_decide_eq_true].
    unfold in_window. symmetry. apply bool_decide_eq_true_2. lia.
Qed.

Lemma and_leaves_rows ps : ∀ sel s P,
  caches_ok g s → selects sel (t_rows t) (λ i, P (Z.to_nat i)) →
  answers_rows g t (λ i, P i && forallb (λ p, leaf_sem t p i) ps) (and_leaves g ps sel s).
Proof.
  destruct Hv as [Ha Hp Hn Hts]. induction ps as [|p ps IH]; intros sel s P Hs Hsel; cbn [and_leaves].
  - exists sel, s. split_and!; [done|done|]. eapply selects_ext; [done|]. intros i _. cbn. by rewrite andb_true_r.
  - rewrite (an_rows _ _ _ Ha). destruct (leafBitset_rows np g t Ha Hp Hn ts Hts p s Hs) as (b & s' & -> & Hs' & Hb). rewrite bind_Ok. cbn [fst snd].
    destruct (IH (And sel b) s' (λ i, P i && leaf_sem t p i) Hs') as (b' & s2 & -> & Hs2 & Hb'); [by apply selects_And|].
    exists b', s2. split_and!; [done|done|]. eapply selects_ext; [done|]. intros i _. cbn. by rewrite andb_assoc.
Qed.

Lemma matchBitset_spec s q : caches_ok g s → answers_rows g t (query_sem t q) (matchBitset g s q).
Proof.
  intros Hs. pose proof rows_served as Hrows. destruct Hv as [Ha Hp Hn Hts]. unfold matchBitset. destruct (window_sel_rows q) as (b & -> & Hb). rewrite bind_Ok.
  unfold query_sem, filter_sem. destruct (q_Filter q) as [e|].
  - rewrite Hrows. destruct (evalExpr_spec np g t Ha Hp Hn ts Hts e s Hs) as (o & s' & -> & Hs' & Ho). rewrite bind_Ok. cbn [fst snd].
    exists (And b o), s'. split_and!; [done|done|]. by apply selects_And.
  - by apply (and_leaves_rows (q_Preds q) b s (λ i, in_window (q_From q) (q_To q) (time_at t i))).
Qed.

(** [matchBitset] selects exactly the rows of the group whose time is in the
    window and that the filter accepts, whether the filter is a tree or a
    conjunction of predicates and whichever of the whole, inside or straddling
    arms the window takes. *)
Theorem matchBitset_exact s q : caches_ok g s → answers_rows g t (query_sem t q) (matchBitset g s q).
Proof. by eapply matchBitset_spec. Qed.

Lemma groupCanMatch_spec q :
  ∃ c, groupCanMatch g q = Ok c ∧ (c = false → query_rows t q = []).
Proof.
  destruct Hv as [Ha Hp Hn Hts]. unfold groupCanMatch, query_rows, query_sem, filter_sem. destruct (q_Filter q) as [e|].
  - destruct (exprCanMatch_spec np g t Ha Hp Hn e) as (c & -> & Hc). exists c. split; [done|]. intros H.
    apply matching_false. intros i Hi. rewrite Hc by (done || lia). apply andb_false_r.
  - assert (∃ c, preds_can g (q_Preds q) = Ok c ∧
      (c = false → ∀ i, Z.of_nat i < t_rows t → forallb (λ p, leaf_sem t p i) (q_Preds q) = false)) as (c & -> & Hc).
    { induction (q_Preds q) as [|p ps (c' & E & Hc')]; [by exists true|]. cbn [preds_can].
      destruct (leafCanMatch_spec np g t Ha Hp Hn p) as (c & -> & Hc). rewrite bind_Ok. destruct c.
      - exists c'. split; [done|]. intros H i Hi. cbn. rewrite Hc' by done. apply andb_false_r.
      - exists false. split; [done|]. intros _ i Hi. cbn. by rewrite Hc. }
    exists c. split; [done|]. intros H. apply matching_false. intros i Hi. rewrite Hc by (done || lia). apply andb_false_r.
Qed.

(** pruning is sound: [groupCanMatch] never panics, and when it says no, no
    row of the group satisfies the query, whatever the bloom filters, ranges and
    dictionaries say. *)
Theorem groupCanMatch_sound q :
  ∃ c, groupCanMatch g q = Ok c ∧ (c = false → query_rows t q = []).
Proof. by eapply groupCanMatch_spec. Qed.

(** *** Fields of a row *)

(** A decoded column holds, for the rows asked for, the values of its field. *)
Definition col_good (rows : list Z) (f : bytes) (c : decoded) : Prop :=
  d_idx c ≠ [] → ∀ i, i ∈ rows → ∃ x v,
    d_idx c !! Z.to_nat i = Some x ∧ 0 ≤ x ∧ d_dict c !! Z.to_nat x = Some v ∧ cell_at t f (Z.to_nat i) = Some v.
Definition cols_good (rows : list Z) (cols : gmap bytes decoded) : Prop := ∀ f c, cols !! f = Some c → col_good rows f c.
Definition in_group (rows : list Z) : Prop := ∀ i, i ∈ rows → 0 ≤ i < t_rows t.

Lemma cols_good_default rows cols f : cols_good rows cols → col_good rows f (default no_col (cols !! f)).
Proof. intros H. destruct (cols !! f) eqn:E; [by apply H|]. by intros []. Qed.
Lemma cols_good_sub rows rows' cols : cols_good rows cols → (∀ i, i ∈ rows' → i ∈ rows) → cols_good rows' cols.
Proof. intros H Hsub f c E Hne i Hi. by apply (H f c E Hne), Hsub. Qed.
Lemma cols_good_insert rows cols f c : cols_good rows cols → col_good rows f c → cols_good rows (<[f := c]> cols).
Proof. intros H Hc f' c' [[<- <-]|[_ E]]%lookup_insert_Some; [done|by apply H]. Qed.

Lemma field_value_spec rows f c i :
  col_good rows f c → i ∈ rows → 0 ≤ i < t_rows t →
  field_value g c f i (time_at t (Z.to_nat i)) = Ok (field_sem t f (Z.to_nat i)).
Proof.
  intros Hc Hi Hr. unfold field_value, field_sem. case_bool_decide as Hne.
  - destruct (Hc Hne i Hi) as (x & v & Ex & H0 & Ev & ->).
    rewrite (index_Ok _ i x), bind_Ok by (done || lia). by rewrite (index_Ok _ x v), bind_Ok by (done || lia).
  - destruct (column_of np g t (sv_ans _ _ _ _ Hv) (sv_pos _ _ _ _ Hv) f) as [vs ids dict Ef Hsa Ev _ _ Hl _|Hg Hg2].
    + unfold cell_at. rewrite Ef. assert (len vs = t_rows t) as Hvs by (by rewrite <- Ev, len_fmap).
      destruct (lookup_lt_is_Some_2 vs (Z.to_nat i)) as [v E]; [unfold len in *; lia|].
      pose proof (sa_value _ _ _ _ Hsa _ _ E) as Hval. rewrite Z2Nat.id in Hval by lia. by rewrite Hval, bind_Ok, E.
    + unfold DictValueAt. rewrite Hg2, bind_Ok. unfold cell_at, string_col in *.
      by destruct (find_values (t_cols t) f) as [[]|].
Qed.

Lemma row_fields_spec rows cols i : ∀ fs,
  cols_good rows cols → i ∈ rows → 0 ≤ i < t_rows t →
  row_fields_of g cols fs i (time_at t (Z.to_nat i)) = Ok (omap (λ f, (f,.) <$> field_sem t f (Z.to_nat i)) fs).
Proof.
  intros fs Hc Hi Hr. induction fs as [|f fs IH]; [done|]. cbn [row_fields_of omap list_omap].
  rewrite (field_value_spec rows), bind_Ok, IH, bind_Ok by (try done; by apply cols_good_default).
  by destruct (field_sem t f (Z.to_nat i)).
Qed.

(** *** Times *)

(** The rows lie in the span whose times can be read. *)
Definition times_ready (pointRead : bool) (us : list Z) (lo : Z) (rows : list Z) : Prop :=
  ∀ i, i ∈ rows → row_time g pointRead us lo i = Ok (time_at t (Z.to_nat i)).

Lemma times_ready_span pool rows lo hi (pointRead : bool) :
  in_group rows → rows ≠ [] → 0 ≤ lo → hi ≤ t_rows t → (∀ i, i ∈ rows → lo ≤ i < hi) →
  ∃ us, (if pointRead then Ok [] else TimestampsRangeInto g pool s_time lo hi) = Ok us ∧ times_ready pointRead us lo rows.
Proof.
  intros Hin Hne H0 Hn Hspan. destruct times_served as (Hta & Hl & _). destruct pointRead.
  - exists (@nil Z). split; [done|]. intros i Hi. unfold row_time. destruct (time_served (Z.to_nat i)) as (x & Ex & ->).
    { pose proof (Hin i Hi). unfold len in *. lia. }
    pose proof (ta_at _ _ _ Hta _ _ Ex) as Hat. rewrite Z2Nat.id in Hat by (by apply Hin). by rewrite Hat, bind_Ok.
  - destruct rows as [|r0 rows]; [done|]. pose proof (Hspan r0 (list_elem_of_here _ _)) as Hr0.
    pose proof (ta_range _ _ _ Hta pool (Z.to_nat lo) (Z.to_nat hi)) as Hra. rewrite !Z2Nat.id in Hra by lia.
    rewrite Hra by (unfold len in *; lia). eexists. split; [done|]. intros i Hi. pose proof (Hspan i Hi) as Hs.
    unfold row_time. destruct (time_served (Z.to_nat i)) as (x & Ex & ->); [unfold len in *; lia|].
    apply index_Ok; [lia|]. rewrite lookup_take_lt by lia. rewrite lookup_drop. rewrite <- Ex. f_equal. lia.
Qed.

(** *** The two ways out *)

Definition mat_rows (fs : list bytes) (rows : list Z) : list Row := (λ i, mat_row t fs (Z.to_nat i)) <$> rows.

Lemma small_rows_spec cols fs pointRead us lo all rows :
  cols_good all cols → in_group all → times_ready pointRead us lo all → (∀ i, i ∈ rows → i ∈ all) →
  small_rows g cols fs pointRead us lo rows = Ok (mat_rows fs rows).
Proof.
  intros Hc Hin Ht. induction rows as [|i rows IH]; intros Hsub; [done|]. cbn [small_rows].
  assert (i ∈ all) as Hi by (apply Hsub; left). rewrite Ht, bind_Ok by done.
  rewrite (row_fields_spec all), bind_Ok by (try done; by apply Hin).
  by rewrite IH, bind_Ok by (intros j Hj; apply Hsub; by right).
Qed.

Lemma arena_fields_spec all i : ∀ mats arena pos,
  Forall (λ m, col_good all m.1 m.2) mats → i ∈ all → 0 ≤ i < t_rows t → 0 ≤ pos → pos + len mats ≤ len arena →
  let new := omap (λ f, (f,.) <$> field_sem t f (Z.to_nat i)) mats.*1 in
  arena_fields g mats i (time_at t (Z.to_nat i)) arena pos
  = Ok (take (Z.to_nat pos) arena ++ new ++ drop (Z.to_nat pos + length new) arena, pos + len new).
Proof.
  intros mats. induction mats as [|[f c] mats IH]; intros arena pos Hm Hi Hr H0 Hp.
  - cbn. rewrite Nat.add_0_r, take_drop. by rewrite Z.add_0_r.
  - apply Forall_cons_1 in Hm as [Hm Hms]. rewrite len_cons in Hp. len_facts. cbn [arena_fields fmap list_fmap fst omap list_omap].
    rewrite (field_value_spec all), bind_Ok by done. destruct (field_sem t f (Z.to_nat i)) as [v|]; cbn [fmap option_fmap option_map].
    + rewrite store_Ok, bind_Ok by lia. rewrite IH by (try done; rewrite ?len_insert; lia). cbv zeta.
      set (new := omap _ _). rewrite len_cons. f_equal. f_equal; [|lia].
      assert (Z.to_nat pos < length arena)%nat as Hlt by (unfold len in *; lia).
      replace (Z.to_nat (pos + 1)) with (S (Z.to_nat pos)) by lia.
      rewrite (take_S_r _ _ (f, v)) by (by apply list_lookup_insert_eq). rewrite take_insert_ge by lia.
      rewrite drop_insert_lt by lia. rewrite <- app_assoc. cbn [app length]. do 4 f_equal. lia.
    + by apply IH; try done; lia.
Qed.

Lemma arena_rows_spec mats pointRead us lo all rows :
  Forall (λ m, col_good all m.1 m.2) mats → in_group all → times_ready pointRead us lo all →
  (∀ i, i ∈ rows → i ∈ all) → ∀ arena pos, 0 ≤ pos → pos + len rows * len mats ≤ len arena →
  ∃ spans arena', arena_rows g mats pointRead us lo rows arena pos = Ok (spans, arena') ∧
    len arena' = len arena ∧ take (Z.to_nat pos) arena' = take (Z.to_nat pos) arena ∧
    arena_out spans arena' = Ok (mat_rows mats.*1 rows).
Proof.
  intros Hm Hin Ht. induction rows as [|i rows IH]; intros Hsub arena pos H0 Hp; [by exists [], arena|].
  assert (i ∈ all) as Hi by (apply Hsub; left). assert (∀ j, j ∈ rows → j ∈ all) as Hsub' by (intros j Hj; apply Hsub; by right). pose proof (Hin i Hi) as Hr. rewrite len_cons in Hp. len_facts. cbn [arena_rows].
  rewrite Ht, bind_Ok by done. rewrite (arena_fields_spec all) by (try done; nia). rewrite bind_Ok. cbv beta iota.
  set (new := omap _ _). assert (len new ≤ len mats) as Hnew.
  { subst new. unfold len. pose proof (omap_length_le (λ f, (f,.) <$> field_sem t f (Z.to_nat i)) mats.*1) as Hle.
    rewrite length_fmap in Hle. lia. }
  set (arena1 := take _ _ ++ _). pose proof (len_nonneg new).
  assert (len arena1 = len arena) as Hl1.
  { subst arena1. unfold len in *. rewrite !length_app, length_take, length_drop. nia. }
  destruct (IH Hsub' arena1 (pos + len new)) as (spans & arena' & -> & Hl' & Htk & Ho); [lia|rewrite Hl1; nia|].
  rewrite bind_Ok. cbn [fst snd]. eexists _, _. split; [done|].
  assert (len arena = len arena' ) as Hll by lia.
  assert (take (Z.to_nat pos + length new) arena' = take (Z.to_nat pos) arena ++ new) as Hpre.
  { replace (Z.to_nat (pos + len new)) with (Z.to_nat pos + length new)%nat in Htk by (unfold len; lia). rewrite Htk.
    subst arena1. rewrite app_assoc, take_app_length'; [done|]. rewrite length_app, length_take. unfold len in *. nia. }
  split_and!; [lia| |].
  - replace (take (Z.to_nat pos) arena') with (take (Z.to_nat pos) (take (Z.to_nat pos + length new) arena')).
    + rewrite Hpre. rewrite take_app_le by (rewrite length_take; unfold len in *; nia). by rewrite take_take, Nat.min_id.
    + rewrite take_take. f_equal. lia.
  - cbn [arena_out]. rewrite slice_Ok by (try lia; nia). rewrite bind_Ok, Ho, bind_Ok.
    unfold mat_rows. rewrite fmap_cons. unfold mat_row at 1. do 3 f_equal.
    rewrite take_drop_commute.
    replace (Z.to_nat pos + Z.to_nat (pos + len new - pos))%nat with (Z.to_nat pos + length new)%nat by (unfold len; lia).
    rewrite Hpre. rewrite drop_app_length'; [done|]. rewrite length_take. unfold len in *. nia.
Qed.

(** *** The predicates and the columns they leave *)

Lemma coded_good rows f vs ids dict dict' :
  find_values (t_cols t) f = Some (Strings vs) → val_at dict <$> ids = vs → Forall (λ x, 0 ≤ x < len dict) ids →
  len ids = t_rows t → in_group rows →
  (∀ i x, i ∈ rows → ids !! Z.to_nat i = Some x → dict' !! Z.to_nat x = dict !! Z.to_nat x) →
  col_good rows f (Decoded ids dict').
Proof.
  intros Ef Ev Hr Hl Hin Hd _ i Hi. cbn [d_idx d_dict]. pose proof (Hin i Hi) as Hb.
  destruct (lookup_lt_is_Some_2 ids (Z.to_nat i)) as [x Ex]; [unfold len in *; lia|].
  rewrite Forall_lookup in Hr. pose proof (Hr _ _ Ex) as Hx. exists x, (val_at dict x). split_and!; [done|lia| |].
  - rewrite (Hd i x Hi Ex). by apply val_at_lookup.
  - unfold cell_at. by rewrite Ef, <- Ev, list_lookup_fmap, Ex.
Qed.

Lemma pred_loop_spec all ps : ∀ sel fs cols s P,
  in_group all → caches_ok g s → cols_good all cols → selects sel (t_rows t) (λ i, P (Z.to_nat i)) →
  ∃ sel' cols' s', pred_loop g ps sel fs cols s = Ok (sel', pred_fields ps fs, cols', s') ∧ caches_ok g s' ∧ cols_good all cols' ∧
    selects sel' (t_rows t) (λ i, P (Z.to_nat i) && forallb (λ p, leaf_sem t p (Z.to_nat i)) ps).
Proof.
  pose proof (sv_ans _ _ _ _ Hv) as Ha. pose proof (sv_pos _ _ _ _ Hv) as Hp. pose proof (sv_nd _ _ _ _ Hv) as Hn.
  pose proof (sv_ts _ _ _ _ Hv) as Hts.
  induction ps as [|p ps IH]; intros sel fs cols s P Hin Hs Hc Hsel.
  { exists sel, cols, s. split_and!; [done..|]. eapply selects_ext; [done|]. intros i _. cbn. by rewrite andb_true_r. }
  assert (∀ b fs' cols' s', caches_ok g s' → cols_good all cols' → selects b (t_rows t) (λ i, leaf_sem t p (Z.to_nat i)) →
    ∃ sel' cols2 s2, pred_loop g ps (And sel b) fs' cols' s' = Ok (sel', pred_fields ps fs', cols2, s2) ∧ caches_ok g s2 ∧ cols_good all cols2 ∧
    selects sel' (t_rows t) (λ i, P (Z.to_nat i) && forallb (λ p, leaf_sem t p (Z.to_nat i)) (p :: ps))) as Hstep.
  { intros b fs' cols' s' Hs' Hc' Hb.
    destruct (IH (And sel b) fs' cols' s' (λ i, P i && leaf_sem t p i) Hin Hs' Hc') as (sel' & cols2 & s2 & E & H1 & H2 & H3);
      [by apply selects_And|].
    exists sel', cols2, s2. split_and!; try done. eapply selects_ext; [done|]. intros i _. cbn. by rewrite andb_assoc. }
  clear IH. cbn [pred_loop pred_fields foldl]. rewrite (an_rows _ _ _ Ha).
  pose proof (leafBitset_rows np g t Ha Hp Hn ts Hts p s Hs) as Hleaf. unfold leafBitset in Hleaf.
  destruct (isTimePred (p_Kind p)) eqn:Ht.
  - destruct (timePredBitset g p (t_rows t)) as [b|]; [|by destruct Hleaf as (? & ? & ? & _)]. rewrite bind_Ok in *.
    destruct Hleaf as (b' & s' & [= <- <-] & _ & Hb). by apply Hstep.
  - case_bool_decide as Hk.
    + destruct Hleaf as (b & s' & -> & Hs' & Hb). rewrite bind_Ok. by apply Hstep.
    + assert (∃ ids dict s1, DictIndices g s (p_Field p) = Ok (ids, dict, s1) ∧ col_good all (p_Field p) (Decoded ids dict)) as (ids & dict & s1 & Ed & Hg).
      { destruct (column_of np g t Ha Hp (p_Field p)) as [vs ids dict Ef Hsa Ev Hcd Hid Hl Hne|Hg Hg2].
        - destruct (cd_all _ _ _ _ Hcd s Hs) as (s1 & -> & Hs1). exists ids, dict, s1. split; [done|].
          by eapply coded_good; try done; apply Hcd.
        - exists [], [], s. split; [by apply DictIndices_none|]. by intros []. }
      rewrite Ed, bind_Ok in Hleaf. rewrite Ed, bind_Ok. cbv beta iota in *.
      destruct Hleaf as (b & s' & -> & Hs' & Hb). rewrite bind_Ok. cbn [fst snd]. apply Hstep; [done|by apply cols_good_insert|done].
Qed.

Lemma mark_wanted_spec ids rows : ∀ want,
  Forall (λ x, 0 ≤ x < len want) ids → in_group rows → len ids = t_rows t →
  ∃ want', mark_wanted ids rows want = Ok want' ∧ len want' = len want ∧
    (∀ k, want !! k = Some true → want' !! k = Some true) ∧
    (∀ i x, i ∈ rows → ids !! Z.to_nat i = Some x → want' !! Z.to_nat x = Some true).
Proof.
  induction rows as [|i rows IH]; intros want Hr Hin Hl; cbn [mark_wanted].
  { exists want. split_and!; try done. by intros i x ?%elem_of_nil. }
  pose proof (Hin i (list_elem_of_here _ _)) as Hi. rewrite bool_decide_eq_true_2 by lia.
  destruct (lookup_lt_is_Some_2 ids (Z.to_nat i)) as [x Ex]; [unfold len in *; lia|].
  pose proof Hr as Hx. rewrite Forall_lookup in Hx. specialize (Hx _ _ Ex).
  rewrite (index_Ok _ _ x), bind_Ok by (done || lia). rewrite store_Ok, bind_Ok by lia.
  destruct (IH (<[Z.to_nat x := true]> want)) as (want' & E & El & Hm & Hset); [by rewrite len_insert|intros j Hj; apply Hin; by right|done|].
  rewrite len_insert in El.
  assert (∀ k, (<[Z.to_nat x := true]> want) !! k = Some true → want' !! k = Some true) as Hm' by done.
  assert (want' !! Z.to_nat x = Some true) as Hxt.
  { apply Hm', list_lookup_insert_eq. unfold len in *. lia. }
  exists want'. split_and!; [done|done| |].
  - intros k Hk. destruct (decide (k = Z.to_nat x)) as [-> |Hne]; [done|]. apply Hm'. by rewrite list_lookup_insert_ne.
  - intros j y [-> |Hj]%elem_of_cons Ey; [by simplify_eq|]. by apply (Hset j).
Qed.

Lemma DictIndicesRaw_none s name : typed_col g name ColDict = None → DictIndicesRaw g s name = Ok ([], s).
Proof.
  intros Ht%(DictIndices_none g s). revert Ht. unfold DictIndices, DictIndicesRaw. cbv zeta. case_bool_decide; [by intros _|].
  destruct (index (r_cols g) (colIndex g name)) as [m|]; [|done]. rewrite !bind_Ok. case_bool_decide; [by intros _|].
  destruct (dictIndicesAt g s (colIndex g name)) as [[ix s2]|]; [|done]. rewrite !bind_Ok.
  destruct (reader_dictSec g m); [|done]. rewrite bind_Ok. destruct (dictSectionAll _ _ _ _); [|done]. rewrite !bind_Ok. by intros [= -> _ ->].
Qed.

Lemma bulk_decode_spec rows fs : ∀ cols s,
  in_group rows → caches_ok g s → cols_good rows cols →
  ∃ cols' s', bulk_decode g rows fs cols s = Ok (cols', s') ∧ caches_ok g s' ∧ cols_good rows cols'.
Proof.
  pose proof (sv_ans _ _ _ _ Hv) as Ha. pose proof (sv_pos _ _ _ _ Hv) as Hp.
  induction fs as [|f fs IH]; intros cols s Hin Hs Hc; cbn [bulk_decode]; [by exists cols, s|].
  destruct (cols !! f); [by apply IH|].
  destruct (column_of np g t Ha Hp f) as [vs ids dict Ef Hsa Ev Hcd Hid Hl Hne|Hg Hg2].
  - destruct (cd_raw _ _ _ _ Hcd s Hs) as (s1 & -> & Hs1). rewrite bind_Ok. cbv beta iota.
    rewrite bool_decide_eq_false_2 by done. rewrite (cd_len _ _ _ _ Hcd).
    pose proof (cd_range _ _ _ _ Hcd) as Hrange. len_facts.
    destruct (mark_wanted_spec ids rows (replicate (Z.to_nat (len dict)) false)) as (want & -> & El & _ & Hset);
      [rewrite len_replicate, Z2Nat.id by lia; done|done|done|].
    rewrite len_replicate, Z2Nat.id in El by lia. rewrite bind_Ok, (cd_some _ _ _ _ Hcd) by done. rewrite bind_Ok.
    apply IH; [done|done|]. apply cols_good_insert; [done|]. eapply coded_good; try done.
    intros i x Hi Ex. unfold some_of. rewrite list_lookup_imap. rewrite (Hset i x Hi Ex). rewrite Forall_lookup in Hrange.
    specialize (Hrange _ _ Ex). rewrite (val_at_lookup dict x) by done. cbn.
    by rewrite bool_decide_eq_true_2 by (unfold len in *; lia).
  - rewrite (DictIndicesRaw_none s f Hg2), bind_Ok. cbv beta iota. rewrite bool_decide_eq_true_2 by done. by apply IH.
Qed.

(** *** Bounds and spans *)

Lemma bounded_sub q k rows i : i ∈ bounded_rows q k rows → i ∈ rows.
Proof.
  unfold bounded_rows. case_bool_decide; [|case_bool_decide; [|done]].
  - intros (n & E)%list_elem_of_lookup. rewrite lookup_drop in E. by eapply list_elem_of_lookup_2.
  - intros (n & E)%list_elem_of_lookup. apply lookup_take_Some in E as [E _]. by eapply list_elem_of_lookup_2.
Qed.

Lemma bound_sel_spec q k sel P :
  selects sel (t_rows t) P →
  let rows := bounded_rows q k (matching (t_rows t) P) in
  match bound_sel q k sel with
  | None => rows = []
  | Some (b, cnt) => bitset_wf b ∧ rows_in b = rows ∧ cnt = len rows ∧ rows ≠ []
  end.
Proof.
  intros Hs. pose proof (selects_Count _ _ _ Hs) as Hc. destruct Hs as [Hw _ Hr]. unfold bound_sel, bounded_rows. rewrite Hc.
  destruct (Keep_rows_spec sel (q_LastN q) Hw) as (_ & HL & _ & HLw).
  destruct (Keep_rows_spec sel (q_Limit q - k) Hw) as (HF & _ & HFw & _). rewrite Hr in HL, HF.
  set (rows := matching (t_rows t) P) in *. len_facts.
  assert (∀ l : list Z, 0 < len l → l ≠ []) as Hpos by (by intros l Hl0 ->).
  destruct (decide (len rows = 0)) as [Hz|Hz];
    [rewrite (bool_decide_eq_true_2 (len rows = 0)) by done|rewrite (bool_decide_eq_false_2 (len rows = 0)) by done].
  { assert (rows = []) as -> by (apply length_zero_iff_nil; unfold len in *; lia). rewrite drop_nil, take_nil. by repeat case_bool_decide. }
  case_bool_decide as HN.
  - case_bool_decide as Hcut; split_and!; try done.
    + rewrite len_drop. unfold len in *. lia.
    + apply Hpos. rewrite len_drop. unfold len in *. lia.
    + rewrite Hr. replace (length rows - Z.to_nat (q_LastN q))%nat with 0%nat by (unfold len in *; lia). done.
    + rewrite len_drop. unfold len in *. lia.
    + apply Hpos. rewrite len_drop. unfold len in *. lia.
  - case_bool_decide as HLi; [|split_and!; try done; apply Hpos; lia]. case_bool_decide as Hrem.
    { by replace (Z.to_nat (q_Limit q - k)) with 0%nat by lia. }
    case_bool_decide as Hcut; split_and!; try done.
    + rewrite len_take. lia.
    + apply Hpos. rewrite len_take. lia.
    + rewrite Hr. rewrite take_ge by (unfold len in *; lia). done.
    + rewrite len_take. lia.
    + apply Hpos. rewrite len_take. lia.
Qed.

Lemma sorted_ends (l : list Z) a z :
  StronglySorted Z.lt l → head l = Some a → last l = Some z → ∀ i, i ∈ l → a ≤ i ≤ z.
Proof.
  intros Hs Ha Hz i Hi. destruct l as [|x l]; [done|]. injection Ha as ->. split.
  - apply StronglySorted_inv in Hs as [_ Hf]. rewrite Forall_forall in Hf. apply elem_of_cons in Hi as [-> |Hi]; [lia|].
    apply Hf in Hi. lia.
  - apply last_Some in Hz as [l' El]. rewrite El in Hs, Hi. apply elem_of_app in Hi as [Hi|Hi].
    + clear -Hs Hi. induction l' as [|y l' IH]; [by apply elem_of_nil in Hi|]. apply StronglySorted_inv in Hs as [Hs Hf].
      rewrite Forall_forall in Hf. apply elem_of_cons in Hi as [-> |Hi]; [|by apply IH].
      specialize (Hf z ltac:(apply elem_of_app; right; apply list_elem_of_here)). lia.
    + apply list_elem_of_singleton in Hi. lia.
Qed.

Lemma time_span_spec q b rows :
  bitset_wf b → rows_in b = rows → in_group rows → rows ≠ [] →
  (∀ i, i ∈ rows → in_window (q_From q) (q_To q) (time_at t (Z.to_nat i)) = true) →
  ∃ lo hi, time_span g q b = Ok (lo, hi) ∧ 0 ≤ lo ∧ hi ≤ t_rows t ∧ ∀ i, i ∈ rows → lo ≤ i < hi.
Proof.
  intros Hw Hr Hin Hne Hwin. destruct times_served as (Hta & Hl & _). unfold time_span. rewrite rows_served.
  assert (∃ lo hi, (if windowed g q then y ← TimeWindowSpan g s_time (q_From q) (q_To q); Ok (if bool_decide (y.2 ≤ y.1) then (0, t_rows t) else y)
     else Ok (0, t_rows t)) = Ok (lo, hi) ∧ 0 ≤ lo ∧ hi ≤ t_rows t ∧ ∀ i, i ∈ rows → lo ≤ i < hi) as (lo & hi & -> & H0 & Hn & Hspan).
  { destruct (windowed g q); [|exists 0, (t_rows t); split_and!; [done|lia|lia|by apply Hin]].
    destruct (ta_span _ _ _ Hta (q_From q) (q_To q)) as (lo & hi & -> & Hlo & Hhi & Hcov). rewrite bind_Ok. cbn [fst snd].
    case_bool_decide; [exists 0, (t_rows t); split_and!; [done|lia|lia|by apply Hin]|].
    exists lo, hi. split_and!; [done|lia|lia|]. intros i Hi. pose proof (Hin i Hi) as Hb.
    destruct (time_served (Z.to_nat i)) as (x & Ex & Et); [unfold len in *; lia|]. specialize (Hwin i Hi). rewrite Et in Hwin.
    apply bool_decide_eq_true in Hwin. pose proof (Hcov _ _ Ex Hwin). lia. }
  rewrite bind_Ok. cbv beta iota. case_bool_decide as Hb; [|by exists lo, hi].
  destruct (ForEach_rows_spec b Hw) as (_ & Hsort & _ & ->). rewrite Hr in *.
  destruct rows as [|r0 rows]; [done|]. destruct (last (r0 :: rows)) as [z|] eqn:Ez; [|by apply last_None in Ez].
  pose proof (sorted_ends _ r0 z Hsort eq_refl Ez) as Hends. cbn [head default from_option].
  pose proof (Hin r0 (list_elem_of_here _ _)). cbn [id]. rewrite bool_decide_eq_true_2 by lia.
  eexists _, _. split; [done|]. split_and!; [lia|lia|]. intros i Hi. pose proof (Hspan i Hi). pose proof (Hends i Hi). lia.
Qed.

(** *** The scan of a group *)

Lemma filter_stage_spec q sel s all :
  in_group all → caches_ok g s → selects sel (t_rows t) (λ i, in_window (q_From q) (q_To q) (time_at t (Z.to_nat i))) →
  ∃ sel' fs cols s', filter_stage g q sel s = Ok (sel', fs, cols, s') ∧ caches_ok g s' ∧ cols_good all cols ∧
    mat_fields g q fs = query_fields (t_cols t).*1 q ∧ selects sel' (t_rows t) (λ i, query_sem t q (Z.to_nat i)).
Proof.
  intros Hin Hs Hsel. unfold filter_stage, mat_fields, query_fields, query_sem, filter_sem.
  rewrite (an_names _ _ _ (sv_ans _ _ _ _ Hv)). destruct (q_Filter q) as [e|].
  - rewrite rows_served.
    destruct (evalExpr_spec np g t (sv_ans _ _ _ _ Hv) (sv_pos _ _ _ _ Hv) (sv_nd _ _ _ _ Hv) ts (sv_ts _ _ _ _ Hv) e s Hs) as (o & s' & -> & Hs' & Ho).
    rewrite bind_Ok. eexists _, _, _, _. split_and!; [done|done|done|done|]. by apply selects_And.
  - destruct (pred_loop_spec all (q_Preds q) sel [] ∅ s (λ i, in_window (q_From q) (q_To q) (time_at t i)))
      as (sel' & cols & s' & -> & Hs' & Hc & Hsel'); [done|done|done|done|].
    eexists _, _, _, _. by split_and!.
Qed.

Lemma appendMatches_spec pool out s q :
  caches_ok g s →
  ∃ s', appendMatches pool out g s q =
    Ok (out ++ mat_rows (query_fields (t_cols t).*1 q) (bounded_rows q (len out) (query_rows t q)), s') ∧ caches_ok g s'.
Proof.
  intros Hs. unfold appendMatches. destruct (window_sel_rows q) as (b & -> & Hb). rewrite bind_Ok.
  set (rows := bounded_rows q (len out) (query_rows t q)).
  assert (∀ i, i ∈ rows → 0 ≤ i < t_rows t ∧ query_sem t q (Z.to_nat i) = true) as Hrows.
  { intros i Hi%bounded_sub. by apply elem_matching in Hi. }
  assert (in_group rows) as Hin by (intros i Hi; by apply Hrows).
  destruct (filter_stage_spec q b s rows Hin Hs Hb) as (sel & fs & cols & s1 & -> & Hs1 & Hc & Hf & Hsel). rewrite bind_Ok. cbv beta iota.
  rewrite Hf. pose proof (bound_sel_spec q (len out) sel _ Hsel) as Hbs. cbv zeta in Hbs. fold (query_rows t q) rows in Hbs.
  destruct (bound_sel q (len out) sel) as [[sb cnt]|].
  2:{ rewrite Hbs. exists s1. split; [by rewrite app_nil_r|done]. }
  destruct Hbs as (Hw & Hr & Hcnt & Hne). destruct (ForEach_rows_spec sb Hw) as (Hfe & _). rewrite Hr in Hfe.
  destruct (time_span_spec q sb rows Hw Hr Hin Hne) as (lo & hi & -> & H0 & Hn & Hspan).
  { intros i Hi. destruct (Hrows i Hi) as [_ Hq]. unfold query_sem in Hq. by apply andb_true_iff in Hq as [? _]. }
  rewrite bind_Ok. cbv beta iota zeta.
  destruct (times_ready_span pool rows lo hi (bool_decide (cnt * tsBlockGuess < hi - lo)) Hin Hne H0 Hn Hspan) as (us & -> & Hus).
  rewrite bind_Ok, Hfe. set (names := query_fields (t_cols t).*1 q).
  assert (∃ cols' s', (if bool_decide (Z.quot (r_Rows g) 16 ≤ cnt ∨ bulkDecodeRows ≤ cnt) then bulk_decode g rows names cols s1 else Ok (cols, s1))
    = Ok (cols', s') ∧ caches_ok g s' ∧ cols_good rows cols') as (cols' & s' & -> & Hs' & Hc').
  { destruct (bool_decide (_ ∨ _)); [by apply bulk_decode_spec|by exists cols, s1]. }
  rewrite bind_Ok. cbv beta iota. exists s'. split; [|done]. destruct (bool_decide (cnt ≤ smallResultRows)).
  - by rewrite (small_rows_spec cols' names _ us lo rows rows), bind_Ok.
  - set (mats := (λ f, (f, default no_col (cols' !! f))) <$> names).
    assert (mats.*1 = names) as Hnames by (subst mats; rewrite <- list_fmap_compose; apply list_fmap_id).
    destruct (arena_rows_spec mats (bool_decide (cnt * tsBlockGuess < hi - lo)) us lo rows rows) with
      (arena := replicate (Z.to_nat (cnt * len mats)) (@nil Z, @nil Z)) (pos := 0) as (spans & arena' & -> & _ & _ & Ho); try done.
    { subst mats. apply Forall_fmap, Forall_true. intros f. by apply cols_good_default. }
    { rewrite len_replicate. subst cnt. len_facts. rewrite Z2Nat.id by nia. lia. }
    rewrite bind_Ok. cbn [fst snd]. by rewrite Ho, bind_Ok, Hnames.
Qed.

(** [appendMatches] appends, for each row the query selects and the bounds
    leave, one row with its time and its materialized fields, in row order, on
    every path it can take: the arena path, the small-result path, the sparse
    and the dense decode. *)
Theorem appendMatches_rows pool out s q :
  caches_ok g s →
  ∃ s', appendMatches pool out g s q =
    Ok (out ++ mat_rows (query_fields (t_cols t).*1 q) (bounded_rows q (len out) (query_rows t q)), s') ∧ caches_ok g s'.
Proof. by eapply appendMatches_spec. Qed.
End group.
