(* ===== verification/TimeFilter.v ===== *)
(** * Time bounds of a query

    [internal/query/time_filter.go]: the saturating arithmetic of [_time] bounds,
    the parsers of durations, times of day and weekdays, and [resolveTimePreds],
    which turns relative bounds absolute and narrows the scan's window by the
    absolute ones. The narrowing never drops a row the filter accepts, and a
    second resolution changes nothing. *)

From S2P Require Import Prelude Digits GoLib Kernels Indices Timestamps DictSection DictLayout Postings Bloom Group Bitset Select.
From S2P Require Import Reader ReaderSafe ReaderOk Table Writer Filter FilterOk Engine EngineOk.
From Stdlib Require Import Ascii String SpecFloat.
From stdpp Require Import list gmap sorting.
Local Open Scope Z_scope.

(** ** Definitions *)

Definition MaxInt64 : Z := 2 ^ 63 - 1.
Definition MinInt64 : Z := - 2 ^ 63.

(** The sums and products wrap as [int64] does; the guards are written so that
    they never do. *)
Definition SatAdd (a b : Z) : Z :=
  if bool_decide (0 < b ∧ i64 (MaxInt64 - b) < a) then MaxInt64
  else if bool_decide (b < 0 ∧ a < i64 (MinInt64 - b)) then MinInt64
  else i64 (a + b).
Definition SatScale (n unit : Z) : Z :=
  if bool_decide (unit = 0) then 0
  else if bool_decide (Z.quot MaxInt64 unit < n) then MaxInt64
  else if bool_decide (n < Z.quot MinInt64 unit) then MinInt64
  else i64 (n * unit).

(** [SatNanos] of an instant, given in nanoseconds since the epoch. *)
Definition SatNanos (t : Z) : Z :=
  if bool_decide (MaxInt64 < t) then MaxInt64 else if bool_decide (t < MinInt64) then MinInt64 else t.

(** A string literal of the source. *)
Definition lit (s : string) : bytes := (λ c, Z.of_nat (nat_of_ascii c)) <$> list_ascii_of_string s.

(** [strings.TrimSpace]: the encodings of the Unicode spaces, cut from both
    ends. *)
Definition spaces : list bytes :=
  ((λ c, [c]) <$> [9; 10; 11; 12; 13; 32]) ++ [[194; 133]; [194; 160]; [225; 154; 128]; [226; 129; 159]; [227; 128; 128]]
  ++ ((λ c, [226; 128; c]) <$> [128; 129; 130; 131; 132; 133; 134; 135; 136; 137; 138; 168; 169; 175]).
Fixpoint trim_front (sps : list bytes) (fuel : nat) (s : bytes) : bytes :=
  match fuel with
  | O => s
  | S fuel' =>
      match List.find (λ sp, HasPrefix s sp) sps with
      | Some sp => trim_front sps fuel' (drop (length sp) s)
      | None => s
      end
  end.
Definition TrimSpace (s : bytes) : bytes :=
  let s := trim_front spaces (length s) s in rev (trim_front ((λ sp, rev sp) <$> spaces) (length s) (rev s)).

(** [strings.IndexByte], [None] for -1. *)
Definition IndexByte (s : bytes) (c : Z) : option nat := Index s [c].

(** The error messages of the parser. *)
Inductive timeErr :=
| empty_filter | bad_value | bad_bound | bad_range | range_needs_comma | bad_range_start | bad_range_end
| day_range_needs_two | week_range_needs_two | expects_brackets | bad_time_of_day | bad_weekday.

(** The units of a duration: seconds to weeks, in nanoseconds. *)
Definition unit_ns (c : Z) : option Z :=
  if bool_decide (c = 115) then Some (10 ^ 9) else if bool_decide (c = 109) then Some (60 * 10 ^ 9)
  else if bool_decide (c = 104) then Some (3600 * 10 ^ 9) else if bool_decide (c = 100) then Some (86400 * 10 ^ 9)
  else if bool_decide (c = 119) then Some (604800 * 10 ^ 9) else None.

(** The run of digits at the front. *)
Fixpoint digit_run (s : bytes) : bytes * bytes :=
  match s with
  | [] => ([], [])
  | c :: s' => if bool_decide (48 ≤ c ≤ 57) then let '(d, rest) := digit_run s' in (c :: d, rest) else ([], s)
  end.
(** The loop of [parseDurationNs]; every turn eats at least two bytes. *)
Fixpoint duration_loop (fuel : nat) (s : bytes) (total : Z) : option Z :=
  match s with
  | [] => Some total
  | _ =>
      match fuel with
      | O => None
      | S fuel' =>
          let '(ds, rest) := digit_run s in
          match ds, rest with
          | [], _ | _, [] => None
          | _, u :: rest' =>
              num ← Atoi ds; mult ← unit_ns u;
              duration_loop fuel' rest' (SatAdd total (SatScale num mult))
          end
      end
  end.
Definition parseDurationNs (s : bytes) : option Z :=
  if bool_decide (s = []) then None else duration_loop (length s) s 0.

Definition parseHHMM (s : bytes) : timeErr + Z :=
  match IndexByte s 58 with
  | None => inl bad_time_of_day
  | Some c =>
      match Atoi (take c s), Atoi (drop (S c) s) with
      | Some h, Some m =>
          if bool_decide (h < 0 ∨ 23 < h ∨ m < 0 ∨ 59 < m) then inl bad_time_of_day else inr (h * 60 + m)
      | _, _ => inl bad_time_of_day
      end
  end.
Definition is_one_of (s : bytes) (l : list string) : bool := existsb (λ x, str_eqb s (lit x)) l.
Definition bracketInner (s : bytes) (prefix : bytes) : timeErr + bytes :=
  let s := TrimSpace (if HasPrefix s prefix then drop (length prefix) s else s) in
  if bool_decide (len s < 2) || negb (bool_decide (head s = Some 91)) || negb (bool_decide (last s = Some 93))
  then inl expects_brackets else inr (take (length s - 2) (drop 1 s)).

(** The days from [lo] to [hi], around the week. *)
Fixpoint week_mask (fuel : nat) (d hi mask : Z) : option Z :=
  match fuel with
  | O => None
  | S fuel' =>
      let mask := Z.lor mask (Z.shiftl 1 d) in
      if bool_decide (d = hi) then Some mask else week_mask fuel' (Z.rem (d + 1) 7) hi mask
  end.

Definition time_pred (k : PredKind) (t1 t2 : Z) (rel : bool) : Pred :=
  MkPred s_time [] [] [] [] (S754_zero false) (S754_zero false) t1 t2 false false rel k.

(** [time.Parse] with a layout, as nanoseconds since the epoch, and [AddDate]. *)
Class GoTime := {
  time_Parse : string → bytes → option Z;
  AddDate : Z → Z → Z → Z → Z }.

Section parser.
Context {T : GoText} {D : GoTime}.

Definition parseWeekday (s : bytes) : timeErr + Z :=
  let w := ToLower s in
  if is_one_of w ["sun"; "sunday"]%string then inr 0 else if is_one_of w ["mon"; "monday"]%string then inr 1
  else if is_one_of w ["tue"; "tuesday"]%string then inr 2 else if is_one_of w ["wed"; "wednesday"]%string then inr 3
  else if is_one_of w ["thu"; "thursday"]%string then inr 4 else if is_one_of w ["fri"; "friday"]%string then inr 5
  else if is_one_of w ["sat"; "saturday"]%string then inr 6 else inl bad_weekday.

Definition timeLayouts : list (string * Z) :=
  [("2006-01-02T15:04:05Z07:00", 10 ^ 9); ("2006-01-02T15:04:05", 10 ^ 9); ("2006-01-02T15:04", 60 * 10 ^ 9);
   ("2006-01-02T15", 3600 * 10 ^ 9); ("2006-01-02 15:04:05", 10 ^ 9); ("2006-01-02", 86400 * 10 ^ 9); ("2006-01", 0);
   ("2006", 0)]%string.
Fixpoint abs_loop (ls : list (string * Z)) (s : bytes) : option (Z * Z) :=
  match ls with
  | [] => None
  | (l, interval) :: ls' =>
      match time_Parse l s with
      | None => abs_loop ls' s
      | Some t =>
          let next := if String.eqb l "2006-01" then AddDate t 0 1 0
            else if String.eqb l "2006" then AddDate t 1 0 0 else t + interval in
          Some (SatNanos t, SatNanos next)
      end
  end.
Definition parseAbsTime (s : bytes) : option (Z * Z) := abs_loop timeLayouts s.

Definition oneSidedTime (op : string) (arg : bytes) : timeErr + Pred :=
  let up := String.eqb op ">=" || String.eqb op ">" in
  match parseDurationNs arg with
  | Some dur =>
      inr (if up then time_pred KTimeRange dur 0 true else time_pred KTimeRange MaxInt64 dur true)
  | None =>
      match parseAbsTime arg with
      | None => inl bad_bound
      | Some (lo, hi) =>
          inr (if String.eqb op ">=" then time_pred KTimeRange lo MaxInt64 false
               else if String.eqb op ">" then time_pred KTimeRange hi MaxInt64 false
               else if String.eqb op "<=" then time_pred KTimeRange MinInt64 hi false
               else time_pred KTimeRange MinInt64 lo false)
      end
  end.

Definition parseTimeRangeBracket (s : bytes) : timeErr + Pred :=
  if bool_decide (len s < 2) then inl bad_range else
  let loInc := bool_decide (head s = Some 91) in
  let hiInc := bool_decide (last s = Some 93) in
  let inner := take (length s - 2) (drop 1 s) in
  match IndexByte inner 44 with
  | None => inl range_needs_comma
  | Some comma =>
      let aStr := TrimSpace (take comma inner) in
      let bStr := TrimSpace (drop (S comma) inner) in
      let t1 := if bool_decide (aStr = []) then Some MinInt64
        else match parseAbsTime aStr with Some (lo, next) => Some (if loInc then lo else next) | None => None end in
      match t1 with
      | None => inl bad_range_start
      | Some t1 =>
          let t2 := if bool_decide (bStr = []) then Some MaxInt64
            else match parseAbsTime bStr with Some (hi, next) => Some (if hiInc then next else hi) | None => None end in
          match t2 with None => inl bad_range_end | Some t2 => inr (time_pred KTimeRange t1 t2 false) end
      end
  end.

Definition parseDayRange (s : bytes) : timeErr + Pred :=
  match bracketInner s (lit "day_range") with
  | inl e => inl e
  | inr inner =>
      match IndexByte inner 44 with
      | None => inl day_range_needs_two
      | Some comma =>
          match parseHHMM (TrimSpace (take comma inner)) with
          | inl e => inl e
          | inr lo =>
              match parseHHMM (TrimSpace (drop (S comma) inner)) with
              | inl e => inl e
              | inr hi => inr (time_pred KTimeDayRange lo hi false)
              end
          end
      end
  end.
Definition parseWeekRange (s : bytes) : option (timeErr + Pred) :=
  match bracketInner s (lit "week_range") with
  | inl e => Some (inl e)
  | inr inner =>
      match IndexByte inner 44 with
      | None => Some (inl week_range_needs_two)
      | Some comma =>
          match parseWeekday (TrimSpace (take comma inner)) with
          | inl e => Some (inl e)
          | inr lo =>
              match parseWeekday (TrimSpace (drop (S comma) inner)) with
              | inl e => Some (inl e)
              | inr hi => mask ← week_mask 7 lo hi 0; Some (inr (time_pred KTimeWeekRange mask 0 false))
              end
          end
      end
  end.

(** [None]: the weekday loop ran out of fuel, which [parseTimeExpr_total] excludes. *)
Definition parseTimeExpr (raw : bytes) : option (timeErr + Pred) :=
  let s := TrimSpace raw in
  if bool_decide (s = []) then Some (inl empty_filter)
  else if HasPrefix s (lit "day_range") then Some (parseDayRange s)
  else if HasPrefix s (lit "week_range") then parseWeekRange s
  else match List.find (λ op, HasPrefix s (lit op)) [">="; "<="; ">"; "<"]%string with
  | Some op => Some (oneSidedTime op (TrimSpace (drop (String.length op) s)))
  | None =>
      if bool_decide (head s = Some 91) || bool_decide (head s = Some 40) then Some (parseTimeRangeBracket s)
      else match parseDurationNs s with
      | Some dur => Some (inr (time_pred KTimeRange dur 0 true))
      | None =>
          match parseAbsTime s with
          | Some (lo, hi) => Some (inr (time_pred KTimeRange lo hi false))
          | None => Some (inl bad_value)
          end
      end
  end.
End parser.

(** *** Resolution *)

Definition set_bounds (p : Pred) (t1 t2 : Z) : Pred :=
  MkPred (p_Field p) (p_Field2 p) (p_Value p) (p_Value2 p) (p_Values p) (p_Num p) (p_Num2 p) t1 t2 (p_ExLo p) (p_ExHi p) false (p_Kind p).
Definition resolveTimePred (p : Pred) (now : Z) : Pred :=
  if negb (bool_decide (p_Kind p = KTimeRange)) || negb (p_Rel p) then p else
  let from := if bool_decide (p_T1 p ≠ MaxInt64) then SatAdd now (i64 (- p_T1 p)) else MinInt64 in
  let to := if bool_decide (p_T2 p ≠ 0) then SatAdd now (i64 (- p_T2 p)) else now in
  set_bounds p from to.
Fixpoint resolveTimeExpr (e : Expr) (now : Z) : Expr :=
  match e with
  | OpLeaf p => OpLeaf (resolveTimePred p now)
  | OpNot c => OpNot (resolveTimeExpr c now)
  | OpAnd ks => OpAnd ((λ k, resolveTimeExpr k now) <$> ks)
  | OpOr ks => OpOr ((λ k, resolveTimeExpr k now) <$> ks)
  end.

Definition tightenBounds (p : Pred) (b : Z * Z) : Z * Z :=
  if p_Rel p then b else (if bool_decide (b.1 < p_T1 p) then p_T1 p else b.1, if bool_decide (p_T2 p < b.2) then p_T2 p else b.2).
Definition tighten_leaf (p : Pred) (b : Z * Z) : Z * Z := if bool_decide (p_Kind p = KTimeRange) then tightenBounds p b else b.
Fixpoint collectTimeBounds (e : Expr) (b : Z * Z) : Z * Z :=
  match e with
  | OpLeaf p => tighten_leaf p b
  | OpAnd ks => (fix go (ks : list Expr) (b : Z * Z) := match ks with [] => b | k :: ks' => go ks' (collectTimeBounds k b) end) ks b
  | _ => b
  end.

(** [clock] is [time.Now().UnixNano()]. *)
Definition resolve_now (q : Query) (clock : Z) : Z := if q_NowSet q then q_Now q else if q_ToSet q then q_To q else clock.
Definition resolveTimePreds (q : Query) (clock : Z) : Query :=
  let now := resolve_now q clock in
  let filter := (λ e, resolveTimeExpr e now) <$> q_Filter q in
  let preds := (λ p, resolveTimePred p now) <$> q_Preds q in
  let b := match filter with Some e => collectTimeBounds e (MinInt64, MaxInt64) | None => (MinInt64, MaxInt64) end in
  let b := foldl (λ b p, tighten_leaf p b) b preds in
  let from := if bool_decide (q_From q < b.1) then b.1 else q_From q in
  let to := if bool_decide (b.2 < q_To q) || negb (q_ToSet q) then if bool_decide (b.2 ≠ MaxInt64) then b.2 else q_To q else q_To q in
  with_window (with_filter q preds filter) from to (q_ToSet q).
Definition SetNow (q : Query) (now : Z) : Query :=
  MkQuery (q_From q) (q_To q) (q_Preds q) (q_Filter q) (q_Materialize q) (q_Limit q) (q_MaxRows q) (q_MaxBytes q) (q_LastN q)
    (q_MatAll q) (q_MatCols q) (q_maxGroups q) (q_maxMemory q) (q_ToSet q) now true.

(** ** Saturation *)

Definition clamp (z : Z) : Z := Z.max MinInt64 (Z.min MaxInt64 z).

Lemma is_i64_iff z : is_i64 z ↔ MinInt64 ≤ z ≤ MaxInt64.
Proof. unfold is_i64, MinInt64, MaxInt64. lia. Qed.
Lemma clamp_i64 z : is_i64 (clamp z).
Proof. rewrite is_i64_iff. unfold clamp, MinInt64, MaxInt64. lia. Qed.
Lemma clamp_small z : is_i64 z → clamp z = z.
Proof. rewrite is_i64_iff. unfold clamp. lia. Qed.

Lemma SatAdd_spec a b : is_i64 a → is_i64 b → SatAdd a b = clamp (a + b).
Proof.
  rewrite !is_i64_iff. unfold MinInt64, MaxInt64. intros Ha Hb. unfold SatAdd.
  case_bool_decide as H1.
  { destruct H1 as [H1 H2]. rewrite i64_small in H2 by (unfold is_i64, MaxInt64; lia). unfold clamp, MaxInt64, MinInt64 in *. lia. }
  case_bool_decide as H2.
  { destruct H2 as [H2 H3]. rewrite i64_small in H3 by (unfold is_i64, MinInt64; lia). unfold clamp, MaxInt64, MinInt64 in *. lia. }
  assert (is_i64 (a + b)) as Hs.
  { unfold is_i64. split; [destruct (decide (b < 0))|destruct (decide (0 < b))]; [|lia| |lia].
    - apply not_and_r in H2 as [|H2]; [lia|]. rewrite i64_small in H2 by (unfold is_i64, MinInt64; lia). unfold MinInt64 in *. lia.
    - apply not_and_r in H1 as [|H1]; [lia|]. rewrite i64_small in H1 by (unfold is_i64, MaxInt64; lia). unfold MaxInt64 in *. lia. }
  rewrite i64_small by done. symmetry. by apply clamp_small.
Qed.

Lemma SatScale_spec n unit : is_i64 n → 0 ≤ unit → SatScale n unit = clamp (n * unit).
Proof.
  rewrite is_i64_iff. unfold MinInt64, MaxInt64. intros Hn Hu. unfold SatScale. case_bool_decide as H0.
  { subst. rewrite Z.mul_0_r. done. }
  assert (Z.quot MaxInt64 unit = MaxInt64 / unit) as E1 by (apply Z.quot_div_nonneg; unfold MaxInt64; lia).
  assert (Z.quot MinInt64 unit = - (2 ^ 63 / unit)) as E2.
  { unfold MinInt64. rewrite Z.quot_opp_l by lia. by rewrite Z.quot_div_nonneg by lia. }
  rewrite E1, E2. pose proof (Z.div_mod MaxInt64 unit ltac:(lia)) as D1. pose proof (Z.mod_pos_bound MaxInt64 unit ltac:(lia)) as M1.
  pose proof (Z.div_mod (2 ^ 63) unit ltac:(lia)) as D2. pose proof (Z.mod_pos_bound (2 ^ 63) unit ltac:(lia)) as M2.
  set (u1 := MaxInt64 / unit) in *. set (u2 := 2 ^ 63 / unit) in *.
  case_bool_decide as H1; [assert (MaxInt64 < n * unit) by nia; unfold clamp, MinInt64, MaxInt64 in *; lia|].
  case_bool_decide as H2; [assert (n * unit < - 2 ^ 63) by nia; unfold clamp, MinInt64, MaxInt64 in *; lia|].
  assert (is_i64 (n * unit)) by (apply is_i64_iff; unfold MinInt64, MaxInt64 in *; nia).
  rewrite i64_small by done. symmetry. by apply clamp_small.
Qed.

(** The duration without saturation. *)
Fixpoint duration_exact (fuel : nat) (s : bytes) (total : Z) : option Z :=
  match s with
  | [] => Some total
  | _ =>
      match fuel with
      | O => None
      | S fuel' =>
          let '(ds, rest) := digit_run s in
          match ds, rest with
          | [], _ | _, [] => None
          | _, u :: rest' => num ← Atoi ds; mult ← unit_ns u; duration_exact fuel' rest' (total + num * mult)
          end
      end
  end.

Lemma digit_run_spec s : let '(ds, rest) := digit_run s in s = ds ++ rest ∧ Forall (λ c, 48 ≤ c ≤ 57) ds.
Proof.
  induction s as [|c s IH]; [done|]. cbn. case_bool_decide; [|done]. destruct (digit_run s) as [ds rest].
  destruct IH as [-> IH]. by split; [|constructor].
Qed.

Lemma atoi_digits_nonneg ds : ∀ acc n, 0 ≤ acc → atoi_digits ds acc = Some n → 0 ≤ n.
Proof.
  induction ds as [|c ds IH]; intros acc n H0; cbn [atoi_digits]; [by intros [= <-]|].
  case_bool_decide; [|done]. apply IH. lia.
Qed.

Lemma Atoi_digits ds n : Forall (λ c, 48 ≤ c ≤ 57) ds → Atoi ds = Some n → 0 ≤ n ∧ is_i64 n.
Proof.
  intros Hd. unfold Atoi. destruct ds as [|c ds]; [done|]. apply Forall_cons_1 in Hd as [Hc _].
  assert (match c :: ds with 43 :: ds => (false, ds) | 45 :: ds => (true, ds) | _ => (false, c :: ds) end = (false, c :: ds)) as ->.
  { destruct (decide (c = 43)); [lia|]. destruct (decide (c = 45)); [lia|].
    destruct c as [|p|p]; try done. do 6 (destruct p as [p|p|]; try done). }
  destruct (atoi_digits (c :: ds) 0) as [m|] eqn:E; [|done]. cbn [mbind option_bind]. case_bool_decide as Hr; [|done].
  intros [= <-]. split; [by eapply atoi_digits_nonneg in E|]. unfold is_i64. lia.
Qed.

Lemma unit_ns_pos c u : unit_ns c = Some u → 0 ≤ u.
Proof. unfold unit_ns. repeat case_bool_decide; intros [= <-]; lia. Qed.

Lemma clamp_step a n u : 0 ≤ a → 0 ≤ n → is_i64 n → 0 ≤ u → SatAdd (clamp a) (SatScale n u) = clamp (a + n * u).
Proof.
  intros Ha Hn Hi Hu. rewrite SatScale_spec by done. rewrite SatAdd_spec by apply clamp_i64.
  assert (0 ≤ n * u) by nia. unfold clamp, MinInt64, MaxInt64. lia.
Qed.

Lemma duration_loop_clamp fuel : ∀ s total,
  0 ≤ total → duration_loop fuel s (clamp total) = clamp <$> duration_exact fuel s total.
Proof.
  induction fuel as [|fuel IH]; intros [|c s] total H0; try done. cbn [duration_loop duration_exact].
  pose proof (digit_run_spec (c :: s)) as Hd. destruct (digit_run (c :: s)) as [ds rest]. destruct Hd as [_ Hd].
  destruct ds as [|d ds]; [done|]. destruct rest as [|u rest]; [done|].
  destruct (Atoi (d :: ds)) as [n|] eqn:En; [|done]. destruct (unit_ns u) as [m|] eqn:Eu; [|done]. cbn [mbind option_bind].
  destruct (Atoi_digits _ _ Hd En) as [Hn Hi]. apply unit_ns_pos in Eu. rewrite clamp_step by done. apply IH. nia.
Qed.

(** The fuel never runs out. *)
Lemma digit_run_shorter c s d ds u rest : digit_run (c :: s) = (d :: ds, u :: rest) → (length rest < length s)%nat.
Proof.
  intros E. pose proof (digit_run_spec (c :: s)) as Hd. rewrite E in Hd. destruct Hd as [Hd _].
  apply (f_equal length) in Hd. cbn [length] in Hd. rewrite length_app in Hd. cbn [length] in Hd. lia.
Qed.

Lemma duration_spec s : parseDurationNs s = (if bool_decide (s = []) then None else clamp <$> duration_exact (length s) s 0).
Proof. unfold parseDurationNs. case_bool_decide; [done|]. rewrite <- duration_loop_clamp by lia. done. Qed.

(** a duration literal denotes the exact sum of its unit terms clamped to
    the int64 range: no overflow wraps, however many digits it has. *)
Theorem parseDurationNs_saturates s : parseDurationNs s = (if bool_decide (s = []) then None else clamp <$> duration_exact (length s) s 0).
Proof. by eapply duration_spec. Qed.

(** The days of a week range: from [lo] forward to [hi], around Saturday. *)
Definition in_week (lo hi d : Z) : bool := bool_decide ((d - lo) mod 7 ≤ (hi - lo) mod 7).
Lemma week_mask_spec lo hi :
  0 ≤ lo < 7 → 0 ≤ hi < 7 →
  ∃ m, week_mask 7 lo hi 0 = Some m ∧ ∀ d, 0 ≤ d < 7 → negb (bool_decide (Z.land m (Z.shiftl 1 d) = 0)) = in_week lo hi d.
Proof.
  intros Hlo Hhi.
  assert (∀ x, 0 ≤ x < 7 → x ∈ seqZ 0 7) as Hin by (intros x Hx; apply elem_of_seqZ; lia).
  assert (forallb (λ lo, forallb (λ hi, match week_mask 7 lo hi 0 with
     | Some m => forallb (λ d, Bool.eqb (negb (bool_decide (Z.land m (Z.shiftl 1 d) = 0))) (in_week lo hi d)) (seqZ 0 7)
     | None => false end) (seqZ 0 7)) (seqZ 0 7) = true) as H by (vm_compute; reflexivity).
  rewrite forallb_forall in H. specialize (H lo (proj1 (list_elem_of_In _ _) (Hin lo Hlo))). rewrite forallb_forall in H.
  specialize (H hi (proj1 (list_elem_of_In _ _) (Hin hi Hhi))). destruct (week_mask 7 lo hi 0) as [m|]; [|done].
  exists m. split; [done|]. intros d Hd. rewrite forallb_forall in H.
  by apply Bool.eqb_prop, H, list_elem_of_In, Hin.
Qed.

Lemma parseWeekday_range {T : GoText} s d : parseWeekday s = inr d → 0 ≤ d < 7.
Proof. unfold parseWeekday. intros H. repeat case_match; try discriminate; injection H as <-; lia. Qed.
Lemma parseTimeExpr_total {T : GoText} {D : GoTime} s : parseTimeExpr s ≠ None.
Proof.
  unfold parseTimeExpr, parseWeekRange. cbv zeta. repeat case_match; try done. simplify_eq.
  destruct (week_mask_spec z z0) as (m & -> & _); [by eapply parseWeekday_range|by eapply parseWeekday_range|done].
Qed.
Lemma duration_exact_fuel f1 : ∀ s total f2,
  (length s ≤ f1)%nat → (length s ≤ f2)%nat → duration_exact f1 s total = duration_exact f2 s total.
Proof.
  induction f1 as [|f1 IH]; intros [|c s] total [|f2] Hl Hl2; cbn [length] in *; try lia; try done. cbn [duration_exact].
  destruct (digit_run (c :: s)) as [[|d ds] [|u rest]] eqn:E; try done. apply digit_run_shorter in E.
  destruct (Atoi (d :: ds)) as [n|]; [|done]. destruct (unit_ns u) as [m|]; [|done]. cbn [mbind option_bind]. apply IH; lia.
Qed.

(** ** Resolution *)

Lemma resolveTimePred_done p now : p_Kind p = KTimeRange → p_Rel (resolveTimePred p now) = false.
Proof. intros Hk. unfold resolveTimePred. rewrite bool_decide_eq_true_2 by done. by destruct (p_Rel p) eqn:E. Qed.
Lemma resolveTimePred_kind p now : p_Kind (resolveTimePred p now) = p_Kind p.
Proof. unfold resolveTimePred. by destruct (_ || _). Qed.
Lemma resolveTimePred_idem p n1 n2 : resolveTimePred (resolveTimePred p n1) n2 = resolveTimePred p n1.
Proof.
  unfold resolveTimePred at 1. rewrite resolveTimePred_kind. case_bool_decide as Hk; [|done]. by rewrite resolveTimePred_done.
Qed.
Lemma resolveTimeExpr_idem e n1 n2 : resolveTimeExpr (resolveTimeExpr e n1) n2 = resolveTimeExpr e n1.
Proof.
  induction e as [p|ks IH|ks IH|e IH] using Expr_tree_ind; cbn [resolveTimeExpr].
  - by rewrite resolveTimePred_idem.
  - f_equal. rewrite <- list_fmap_compose. by apply Forall_fmap_ext_1.
  - f_equal. rewrite <- list_fmap_compose. by apply Forall_fmap_ext_1.
  - by rewrite IH.
Qed.

(** The bounds collected so far hold of an instant. *)
Definition bounds_hold (x : Z) (b : Z * Z) : Prop := (b.1 = MinInt64 ∨ b.1 ≤ x) ∧ (b.2 = MaxInt64 ∨ x < b.2).

Section sound.
Context {T : GoText}.

Lemma tighten_leaf_holds t p i b :
  leaf_sem t p i = true → bounds_hold (time_at t i) b → bounds_hold (time_at t i) (tighten_leaf p b).
Proof.
  intros Hl [H1 H2]. unfold tighten_leaf, tightenBounds. case_bool_decide as Hk; [|done]. destruct (p_Rel p); [done|].
  unfold leaf_sem, predMatchesRow in Hl. rewrite Hk in Hl. apply andb_true_iff in Hl as [_ Hl]. cbn in Hl.
  apply andb_true_iff in Hl as [L1%bool_decide_eq_true L2%bool_decide_eq_true].
  split; cbn [fst snd]; case_bool_decide; auto.
Qed.

Lemma collectTimeBounds_holds t i e : ∀ b,
  expr_sem t e i = true → bounds_hold (time_at t i) b → bounds_hold (time_at t i) (collectTimeBounds e b).
Proof.
  induction e as [p|ks IH|ks IH|e IH] using Expr_tree_ind; intros b He Hb; cbn [collectTimeBounds]; try done.
  - by apply tighten_leaf_holds.
  - cbn [expr_sem] in He. revert b Hb. induction IH as [|k ks Hk _ IHk]; intros b Hb; [done|].
    cbn in He. apply andb_true_iff in He as [H1 H2]. apply (IHk H2). by apply Hk.
Qed.

Lemma tighten_preds_holds t i ps : ∀ b,
  forallb (λ p, leaf_sem t p i) ps = true → bounds_hold (time_at t i) b →
  bounds_hold (time_at t i) (foldl (λ b p, tighten_leaf p b) b ps).
Proof.
  induction ps as [|p ps IH]; intros b Hp Hb; [done|]. cbn in *. apply andb_true_iff in Hp as [H1 H2].
  apply IH; [done|]. by apply tighten_leaf_holds.
Qed.

(** The bounds [resolveTimePreds] narrows by. *)
Definition query_bounds (q : Query) : Z * Z :=
  foldl (λ b p, tighten_leaf p b)
    match q_Filter q with Some e => collectTimeBounds e (MinInt64, MaxInt64) | None => (MinInt64, MaxInt64) end (q_Preds q).

(** A row the filter accepts is inside the bounds; [Preds] count only when they
    are the filter. *)
Lemma query_bounds_hold t q i :
  (q_Filter q = None ∨ q_Preds q = []) → filter_sem t q i = true → bounds_hold (time_at t i) (query_bounds q).
Proof.
  intros Hone Hf. unfold query_bounds, filter_sem in *. assert (bounds_hold (time_at t i) (MinInt64, MaxInt64)) as H0 by (split; by left).
  destruct (q_Filter q) as [e|].
  - destruct Hone as [?| ->]; [done|]. by apply collectTimeBounds_holds.
  - by apply tighten_preds_holds.
Qed.

(** Resolved predicates are absolute, and the bounds are those of before. *)
Lemma resolveTimePreds_again q clock clock' :
  MinInt64 ≤ q_From q → resolveTimePreds (resolveTimePreds q clock) clock' = resolveTimePreds q clock.
Proof.
  intros Hi. unfold resolveTimePreds, with_window, with_filter. cbv zeta. cbn -[MaxInt64 MinInt64].
  set (n1 := resolve_now q clock). set (n2 := resolve_now _ clock'). clearbody n2.
  rewrite <- option_fmap_compose, <- list_fmap_compose.
  replace (((λ e, resolveTimeExpr e n2) ∘ (λ e, resolveTimeExpr e n1)) <$> q_Filter q) with ((λ e, resolveTimeExpr e n1) <$> q_Filter q)
    by (destruct (q_Filter q); cbn; [by rewrite resolveTimeExpr_idem|done]).
  replace (((λ p, resolveTimePred p n2) ∘ (λ p, resolveTimePred p n1)) <$> q_Preds q) with ((λ p, resolveTimePred p n1) <$> q_Preds q)
    by (apply list_fmap_ext; intros ? p _; cbn; by rewrite resolveTimePred_idem).
  set (bb := foldl _ _ _). destruct (q_ToSet q); cbn [negb]; rewrite ?orb_false_r, ?orb_true_r; f_equal; repeat case_bool_decide; lia.
Qed.
Lemma resolveTimePreds_sound_spec q clock :
  is_i64 (q_From q) → q_ToSet q = true → (q_Filter q = None ∨ q_Preds q = []) →
  let q' := resolveTimePreds q clock in
  (∀ t i, query_sem t q' i = in_window (q_From q) (q_To q) (time_at t i) && filter_sem t q' i) ∧
  q_From q ≤ q_From q' ∧ q_To q' ≤ q_To q ∧ ∀ clock', resolveTimePreds q' clock' = q'.
Proof.
  intros Hi Hts Hone. cbv zeta. apply is_i64_iff in Hi. set (q' := resolveTimePreds q clock).
  set (b := query_bounds q').
  assert (q_From q' = (if bool_decide (q_From q < b.1) then b.1 else q_From q) ∧
    q_To q' = (if bool_decide (b.2 < q_To q) then if bool_decide (b.2 ≠ MaxInt64) then b.2 else q_To q else q_To q)) as [EF ET].
  { subst q' b. unfold resolveTimePreds, query_bounds. cbv zeta. cbn. rewrite Hts. cbn [negb]. by rewrite orb_false_r. }
  split_and!.
  - intros t i. unfold query_sem. destruct (filter_sem t q' i) eqn:Ef; [|by rewrite !andb_false_r]. rewrite !andb_true_r.
    assert (bounds_hold (time_at t i) b) as [H1 H2].
    { apply query_bounds_hold; [|done]. subst q'. unfold resolveTimePreds. cbn. destruct Hone as [-> | ->]; [by left|by right]. }
    unfold in_window. apply bool_decide_ext. rewrite EF, ET. repeat case_bool_decide; lia.
  - rewrite EF. repeat case_bool_decide; lia.
  - rewrite ET. repeat case_bool_decide; lia.
  - intros clock'. by apply resolveTimePreds_again, Hi.
Qed.

(** A query whose end was never resolved takes the end of its filter. *)
Lemma resolveTimePreds_unset q clock :
  is_i64 (q_From q) → q_ToSet q = false → (q_Filter q = None ∨ q_Preds q = []) →
  let q' := resolveTimePreds q clock in
  (∀ t i, query_sem t q' i = in_window (q_From q) (q_To q') (time_at t i) && filter_sem t q' i) ∧
  (q_To q' = q_To q ∨ ∀ t i, filter_sem t q' i = true → time_at t i < q_To q') ∧
  q_From q ≤ q_From q' ∧ ∀ clock', resolveTimePreds q' clock' = q'.
Proof.
  intros Hi Hts Hone. cbv zeta. apply is_i64_iff in Hi. set (q' := resolveTimePreds q clock). set (b := query_bounds q').
  assert (q_From q' = (if bool_decide (q_From q < b.1) then b.1 else q_From q) ∧ q_To q' = (if bool_decide (b.2 ≠ MaxInt64) then b.2 else q_To q)) as [EF ET].
  { subst q' b. unfold resolveTimePreds, query_bounds. cbv zeta. cbn. rewrite Hts. cbn [negb]. by rewrite orb_true_r. }
  assert (∀ t i, filter_sem t q' i = true → bounds_hold (time_at t i) b) as Hb.
  { intros t i. apply query_bounds_hold. subst q'. unfold resolveTimePreds. cbn. destruct Hone as [-> | ->]; [by left|by right]. }
  split_and!.
  - intros t i. unfold query_sem. destruct (filter_sem t q' i) eqn:Ef; [|by rewrite !andb_false_r]. rewrite !andb_true_r.
    destruct (Hb t i Ef) as [H1 H2]. unfold in_window. apply bool_decide_ext. rewrite EF. clear -H1 Hi. destruct (bool_decide_reflect (q_From q < b.1)); lia.
  - rewrite ET. case_bool_decide; [right|by left]. intros t i Ef. destruct (Hb t i Ef) as [_ [H2|H2]]; [done|exact H2].
  - rewrite EF. destruct (bool_decide_reflect (q_From q < b.1)); lia.
  - intros clock'. by apply resolveTimePreds_again, Hi.
Qed.

(** C35: Resolving relative time predicates, of a query that has predicates or a tree
    and not both, narrows its window without changing which rows of the original
    window it selects; a query whose end no caller resolved keeps its start and takes
    the end of its filter, which no row the filter accepts is past. Doing it again at
    any later clock changes nothing. *)
Theorem resolveTimePreds_narrows q clock :
  is_i64 (q_From q) → (q_Filter q = None ∨ q_Preds q = []) →
  let q' := resolveTimePreds q clock in
  let to := if q_ToSet q then q_To q else q_To q' in
  (∀ t i, query_sem t q' i = in_window (q_From q) to (time_at t i) && filter_sem t q' i) ∧
  q_From q ≤ q_From q' ∧
  (if q_ToSet q then q_To q' ≤ q_To q else q_To q' = q_To q ∨ ∀ t i, filter_sem t q' i = true → time_at t i < q_To q') ∧
  ∀ clock', resolveTimePreds q' clock' = q'.
Proof.
  intros Hi Hone. cbv zeta. destruct (q_ToSet q) eqn:E.
  - by destruct (resolveTimePreds_sound_spec q clock Hi E Hone) as (? & ? & ? & ?).
  - by destruct (resolveTimePreds_unset q clock Hi E Hone) as (? & ? & ? & ?).
Qed.

(** A relative bound [_time:d]: the rows of the last [d] before [now]. *)
Lemma resolve_relative t i d now :
  0 ≤ d → is_i64 (- d) → d ≠ MaxInt64 → is_i64 now →
  leaf_sem t (resolveTimePred (time_pred KTimeRange d 0 true) now) i = in_window (clamp (now - d)) now (time_at t i).
Proof.
  intros Hd Hi Hm Hn. unfold resolveTimePred. cbn [p_Kind p_Rel p_T1 p_T2 time_pred negb orb].
  rewrite bool_decide_eq_true_2, bool_decide_eq_true_2, bool_decide_eq_false_2 by (done || congruence).
  rewrite (i64_small (- d)), SatAdd_spec by done. unfold leaf_sem, present, predMatchesRow, in_window. cbn. by rewrite bool_decide_and.
Qed.
End sound.
