(* ===== verification/Scan.v ===== *)
(** * The scan of a snapshot

    [internal/query/engine.go], [parallel.go] and [order.go]: [Run] with its
    footer prune, its serial walk, its newest-first walk and its fan-out across
    workers, [Count] with its own fan-out, and the paginated walk [ScanPage].
    The workers of a fan-out are a transition system: one step per access to
    what they share (the channel of group numbers, the parts, the row and byte
    counters, the stop reason), in any interleaving. *)

From S2P Require Import Prelude Digits GoLib Kernels Indices Timestamps DictSection DictLayout Postings Bloom Group Bitset Select.
From S2P Require Import Reader ReaderSafe ReaderOk Table Writer Filter Engine TimeFilter.
From stdpp Require Import list gmap sorting.
Local Open Scope Z_scope.

(** ** Definitions *)

(** A group of a snapshot: its reader, the reader's caches and its manifest id. *)
Record leased := Lease { l_reader : Reader; l_caches : caches; l_id : Z }.

(** What a scan sees of the outside: the context and the deadline at each budget
    check, and what the scratch buffers of the timestamp pool held. *)
Record Outside := MkOutside { o_clock : nat → option Stop; o_pool : nat → list Z }.

(** [snapshotOf]: the groups overlapping the window; none when the store is
    closed ([None]). *)
Definition snapshotOf (s : option (list leased)) (from to : Z) : list leased :=
  match s with
  | None => []
  | Some gs => List.filter (λ g, TimeRangeMatches (l_reader g) from to) gs
  end.

(** [sort.SliceStable] by a comparison. *)
Fixpoint insert_by {A} (less : A → A → bool) (x : A) (l : list A) : list A :=
  match l with [] => [x] | y :: l' => if less y x then y :: insert_by less x l' else x :: l end.
Definition stable_sort {A} (less : A → A → bool) (l : list A) : list A := foldr (insert_by less) [] l.
Definition sortByTimeDesc (rows : list Row) : list Row := stable_sort (λ a b, bool_decide (row_Time b < row_Time a)) rows.

Definition sum_bytes (q : Query) (rows : list Row) : Z := if countsBytes q then foldl (λ n r, n + rowBytes r) 0 rows else 0.

(** [stop] on a check's result. *)
Definition record_stop (reason e : option Stop) : option Stop := match e with Some e => stop reason e | None => reason end.

(** [RowKey] and the order of a page. *)
Record RowKey := MkKey { k_Time : Z; k_Group : Z; k_Row : Z }.
Definition Before (a b : RowKey) : bool :=
  if negb (bool_decide (k_Time a = k_Time b)) then bool_decide (k_Time a < k_Time b)
  else if negb (bool_decide (k_Group a = k_Group b)) then bool_decide (k_Group a < k_Group b)
  else bool_decide (k_Row a < k_Row b).
Inductive Direction := Oldest | Newest.
Record Page := MkPage { pg_Rows : list Row; pg_Keys : list RowKey; pg_Next : RowKey; pg_More : bool }.

Section scan.
Context {T : GoText} {K : Simd} {F : Flate} {B : BitOps} {M : MaskOps} {R : MapRange}.

(** The loop before every scan: the groups the footers cannot rule out, the
    number of checks made, and the reason that ended the loop. *)
Fixpoint prune (o : Outside) (n : nat) (q : Query) (gs : list leased) : outcome (list leased * nat * option Stop) :=
  match gs with
  | [] => Ok ([], n, None)
  | g :: gs' =>
      match exceeded q (o_clock o n) 0 with
      | Some e => Ok ([], S n, Some e)
      | None =>
          c ← groupCanMatch (l_reader g) q;
          x ← prune o (S n) q gs';
          let '(rest, n', e) := x in
          Ok (if (c : bool) then g :: rest else rest, n', e)
      end
  end.

(** The serial walk. *)
Fixpoint run_serial (o : Outside) (n : nat) (q : Query) (out : list Row) (bytes : Z) (reason : option Stop) (gs : list leased)
    : outcome (list Row * option Stop) :=
  match gs with
  | [] => Ok (out, reason)
  | g :: gs' =>
      x ← appendMatches (o_pool o n) out (l_reader g) (l_caches g) q;
      let out' := x.1 in
      let bytes := bytes + sum_bytes q (drop (length out) out') in
      if bool_decide (0 < q_Limit q ∧ q_Limit q ≤ len out') then Ok (take (Z.to_nat (q_Limit q)) out', reason)
      else if bool_decide (0 < q_MaxRows q ∧ q_MaxRows q < len out') then Ok (out', stop reason ErrRowLimit)
      else match exceeded q (o_clock o n) bytes with
      | Some e => Ok (out', stop reason e)
      | None => run_serial o (S n) q out' bytes reason gs'
      end
  end.

(** The newest-first walk, over the survivors from the last one back. *)
Definition cut_newest (q : Query) (out : list Row) : list Row :=
  let out := sortByTimeDesc out in if bool_decide (q_LastN q < len out) then take (Z.to_nat (q_LastN q)) out else out.
Fixpoint runNewest (o : Outside) (n : nat) (q : Query) (out : list Row) (bytes : Z) (reason : option Stop) (gs : list leased)
    : outcome (list Row * option Stop) :=
  match gs with
  | [] => Ok (cut_newest q out, reason)
  | g :: older =>
      x ← appendMatches (o_pool o n) out (l_reader g) (l_caches g) q;
      let out' := x.1 in
      let bytes := bytes + sum_bytes q (drop (length out) out') in
      match exceeded q (o_clock o n) bytes with
      | Some e => Ok (cut_newest q out', stop reason e)
      | None =>
          if bool_decide (len out' < q_LastN q) then runNewest o (S n) q out' bytes reason older else
          let out' := take (Z.to_nat (q_LastN q)) (sortByTimeDesc out') in
          match older with
          | [] => Ok (out', reason)
          | next :: _ =>
              last ← index out' (len out' - 1);
              if bool_decide (r_TimeMax (l_reader next) < row_Time last) then Ok (out', reason)
              else runNewest o (S n) q out' bytes reason older
          end
      end
  end.

(** *** The fan-out *)

(** Where a worker of [runParallel] is with the group it took. *)
Inductive wstate :=
| WIdle | WTook (gi : nat) | WCapOk (gi : nat) | WScan (gi : nat) | WScanned (rows : list Row)
| WAdded (rows : list Row) (total : Z) | WChecked (rows : list Row) | WDone.
Record pstate := PS {
  ps_ch : list nat; ps_workers : list wstate; ps_parts : list (option (list Row));
  ps_produced : Z; ps_scanned : Z; ps_reason : option Stop }.
Definition ps_init (n workers : nat) (reason : option Stop) : pstate :=
  PS (seq 0 n) (replicate workers WIdle) (replicate n None) 0 0 reason.

Definition set_worker (st : pstate) (w : nat) (ws : wstate) : pstate :=
  PS (ps_ch st) (<[w := ws]> (ps_workers st)) (ps_parts st) (ps_produced st) (ps_scanned st) (ps_reason st).
Definition set_reason (st : pstate) (r : option Stop) : pstate :=
  PS (ps_ch st) (ps_workers st) (ps_parts st) (ps_produced st) (ps_scanned st) r.

(** One step of worker [w]; [clock] and [pool] are what it sees. [None] when the
    worker is done or there is no such worker. *)
Definition pstep (gs : list leased) (q : Query) (w : nat) (clock : option Stop) (pool : list Z) (st : pstate)
    : outcome (option pstate) :=
  match ps_workers st !! w with
  | None | Some WDone => Ok None
  | Some WIdle =>
      match ps_ch st with
      | [] => Ok (Some (set_worker st w WDone))
      | gi :: ch =>
          Ok (Some (PS ch (<[w := WTook gi]> (ps_workers st)) (ps_parts st) (ps_produced st) (ps_scanned st) (ps_reason st)))
      end
  | Some (WTook gi) =>
      if bool_decide (0 < q_MaxRows q ∧ q_MaxRows q < ps_produced st)
      then Ok (Some (set_reason (set_worker st w WIdle) (stop (ps_reason st) ErrRowLimit)))
      else Ok (Some (set_worker st w (WCapOk gi)))
  | Some (WCapOk gi) =>
      match exceeded q clock (ps_scanned st) with
      | Some e => Ok (Some (set_reason (set_worker st w WIdle) (stop (ps_reason st) e)))
      | None => Ok (Some (set_worker st w (WScan gi)))
      end
  | Some (WScan gi) =>
      g ← index gs (Z.of_nat gi);
      x ← appendMatches pool [] (l_reader g) (l_caches g) q;
      Ok (Some (PS (ps_ch st) (<[w := WScanned x.1]> (ps_workers st)) (<[gi := Some x.1]> (ps_parts st))
                   (ps_produced st) (ps_scanned st) (ps_reason st)))
  | Some (WScanned rows) =>
      let total := ps_scanned st + sum_bytes q rows in
      Ok (Some (PS (ps_ch st) (<[w := WAdded rows total]> (ps_workers st)) (ps_parts st) (ps_produced st) total (ps_reason st)))
  | Some (WAdded rows total) =>
      Ok (Some (set_reason (set_worker st w (WChecked rows)) (record_stop (ps_reason st) (exceeded q clock total))))
  | Some (WChecked rows) =>
      let produced := if bool_decide (0 < q_MaxRows q) then ps_produced st + len rows else ps_produced st in
      Ok (Some (PS (ps_ch st) (<[w := WIdle]> (ps_workers st)) (ps_parts st) produced (ps_scanned st) (ps_reason st)))
  end.

(** A run of the workers under a schedule: who moves and what it sees. *)
Fixpoint prun (gs : list leased) (q : Query) (sched : list (nat * option Stop * list Z)) (st : pstate) : outcome pstate :=
  match sched with
  | [] => Ok st
  | (w, clock, pool) :: sched' =>
      x ← pstep gs q w clock pool st;
      prun gs q sched' (default st x)
  end.
Definition pdone (st : pstate) : bool := forallb (λ w, match w with WDone => true | _ => false end) (ps_workers st).
(** [wg.Wait], then the merge in group order; [None] while a worker still runs. *)
Definition runParallel (workers : nat) (sched : list (nat * option Stop * list Z)) (q : Query) (reason : option Stop) (gs : list leased)
    : outcome (option (list Row * option Stop)) :=
  st ← prun gs q sched (ps_init (length gs) workers reason);
  Ok (if pdone st then Some (concat (default [] <$> ps_parts st), ps_reason st) else None).

(** [Run]: [now] is the clock a relative bound falls back on, [sched] the
    interleaving of the workers if the scan fans out. *)
Definition Run (o : Outside) (now : Z) (workers : nat) (sched : list (nat * option Stop * list Z))
    (s : option (list leased)) (q : Query) : outcome (option (list Row * option Stop)) :=
  let q := resolveTimePreds q now in
  x ← prune o 0 q (snapshotOf s (q_From q) (q_To q));
  let '(survivors, n, reason) := x in
  if bool_decide (0 < q_maxGroups q ∧ q_maxGroups q < len survivors) then Ok (Some ([], stop reason ErrTooManyGroups))
  else if bool_decide (0 < q_LastN q) then r ← runNewest o n q [] 0 reason (rev survivors); Ok (Some r)
  else if bool_decide (parallelMinGroups ≤ len survivors ∧ q_Limit q = 0) then runParallel workers sched q reason survivors
  else r ← run_serial o n q [] 0 reason survivors; Ok (Some r).

(** *** Counting *)

(** A worker of [countParallel] with its local sum. *)
Inductive cworker := CIdle (local : Z) | CTook (gi : nat) (local : Z) | CScan (gi : nat) (local : Z) | CDone.
Record cstate := CS { cs_ch : list nat; cs_workers : list cworker; cs_total : Z; cs_reason : option Stop }.
Definition cstep (gs : list leased) (q : Query) (w : nat) (clock : option Stop) (st : cstate) : outcome (option cstate) :=
  let go ws := <[w := ws]> (cs_workers st) in
  match cs_workers st !! w with
  | None | Some CDone => Ok None
  | Some (CIdle local) =>
      match cs_ch st with
      | [] => Ok (Some (CS [] (go CDone) (cs_total st + local) (cs_reason st)))
      | gi :: ch => Ok (Some (CS ch (go (CTook gi local)) (cs_total st) (cs_reason st)))
      end
  | Some (CTook gi local) =>
      match exceeded q clock 0 with
      | Some e => Ok (Some (CS (cs_ch st) (go (CIdle local)) (cs_total st) (stop (cs_reason st) e)))
      | None => Ok (Some (CS (cs_ch st) (go (CScan gi local)) (cs_total st) (cs_reason st)))
      end
  | Some (CScan gi local) =>
      g ← index gs (Z.of_nat gi);
      x ← matchBitset (l_reader g) (l_caches g) q;
      Ok (Some (CS (cs_ch st) (go (CIdle (local + Bitset.Count x.1))) (cs_total st) (cs_reason st)))
  end.
Fixpoint crun (gs : list leased) (q : Query) (sched : list (nat * option Stop)) (st : cstate) : outcome cstate :=
  match sched with
  | [] => Ok st
  | (w, clock) :: sched' => x ← cstep gs q w clock st; crun gs q sched' (default st x)
  end.
Definition cdone (st : cstate) : bool := forallb (λ w, match w with CDone => true | _ => false end) (cs_workers st).
Definition countParallel (workers : nat) (sched : list (nat * option Stop)) (q : Query) (reason : option Stop) (gs : list leased)
    : outcome (option (Z * option Stop)) :=
  st ← crun gs q sched (CS (seq 0 (length gs)) (replicate workers (CIdle 0)) 0 reason);
  Ok (if cdone st then Some (cs_total st, cs_reason st) else None).

Fixpoint count_serial (o : Outside) (n : nat) (q : Query) (total : Z) (reason : option Stop) (gs : list leased)
    : outcome (Z * option Stop) :=
  match gs with
  | [] => Ok (total, reason)
  | g :: gs' =>
      match exceeded q (o_clock o n) 0 with
      | Some e => Ok (total, stop reason e)
      | None =>
          x ← matchBitset (l_reader g) (l_caches g) q;
          count_serial o (S n) q (total + Bitset.Count x.1) reason gs'
      end
  end.
(** [Count] reads the query as it is: it does not resolve relative bounds. *)
Definition Count (o : Outside) (workers : nat) (sched : list (nat * option Stop)) (s : option (list leased)) (q : Query)
    : outcome (option (Z * option Stop)) :=
  x ← prune o 0 q (snapshotOf s (q_From q) (q_To q));
  let '(survivors, n, reason) := x in
  if bool_decide (parallelMinGroups ≤ len survivors) then countParallel workers sched q reason survivors
  else r ← count_serial o n q 0 reason survivors; Ok (Some r).

(** *** Pages *)

(** [Streamable], for a query without pipes. *)
Definition Streamable (q : Query) : bool := bool_decide (q_LastN q = 0 ∧ q_MaxRows q = 0).
Definition matchedRowIndices (g : leased) (s : caches) (q : Query) : outcome (list Z) :=
  x ← matchBitset (l_reader g) s q; Ok (u32 <$> ForEach x.1).

(** The rows of one group with their keys, those past the cursor. *)
Definition past_cursor (dir : Direction) (after : option RowKey) (k : RowKey) : bool :=
  match after with
  | None => true
  | Some a => match dir with Newest => Before k a | Oldest => Before a k end
  end.
Fixpoint key_rows (dir : Direction) (after : option RowKey) (gid : Z) (idx : list Z) (i : nat) (rows : list Row) : list (Row * RowKey) :=
  match rows with
  | [] => []
  | r :: rows' =>
      let k := MkKey (row_Time r) gid (default (u32 (Z.of_nat i)) (idx !! i)) in
      let rest := key_rows dir after gid idx (S i) rows' in
      if past_cursor dir after k then (r, k) :: rest else rest
  end.
(** The candidates of a page; [inl]: the query stopped. *)
Fixpoint page_scan (o : Outside) (n : nat) (q : Query) (dir : Direction) (after : option RowKey) (found : list (Row * RowKey))
    (gs : list leased) : outcome (Stop + list (Row * RowKey)) :=
  match gs with
  | [] => Ok (inr found)
  | g :: gs' =>
      match exceeded q (o_clock o n) 0 with
      | Some e => Ok (inl e)
      | None =>
          c ← groupCanMatch (l_reader g) q;
          if (c : bool) then
            x ← appendMatches (o_pool o n) [] (l_reader g) (l_caches g) q;
            idx ← matchedRowIndices g x.2 q;
            let found := found ++ key_rows dir after (l_id g) idx 0 x.1 in
            if bool_decide (0 < q_MaxRows q ∧ q_MaxRows q < len found) then Ok (inl ErrRowLimit)
            else page_scan o (S n) q dir after found gs'
          else page_scan o (S n) q dir after found gs'
      end
  end.
Definition page_less (dir : Direction) (a b : Row * RowKey) : bool :=
  match dir with Newest => Before b.2 a.2 | Oldest => Before a.2 b.2 end.
Inductive pageErr := ErrRejected | ErrStopped (e : Stop).
Definition ScanPage (o : Outside) (now : Z) (s : option (list leased)) (q : Query) (after : option RowKey) (dir : Direction) (limit : Z)
    : outcome (pageErr + Page) :=
  if bool_decide (limit ≤ 0) then Ok (inl ErrRejected)
  else if negb (Streamable q) then Ok (inl ErrRejected)
  else
    let q := resolveTimePreds q now in
    x ← page_scan o 0 q dir after [] (snapshotOf s (q_From q) (q_To q));
    match x with
    | inl e => Ok (inl (ErrStopped e))
    | inr found =>
        let found := stable_sort (page_less dir) found in
        let more := bool_decide (limit < len found) in
        let found := if more then take (Z.to_nat limit) found else found in
        let next := if more then default (MkKey 0 0 0) (last found.*2) else MkKey 0 0 0 in
        Ok (inr (MkPage found.*1 found.*2 next more))
    end.
End scan.
