(* ===== verification/ScanOk.v ===== *)
(** * What a scan returns

    Over the groups of a snapshot whose readers answer for their tables, a scan
    that records no stop reason returns every matching row of the window, in
    group order, cut at the query's limit; the fan-out does so in every
    interleaving of its workers and always ends; [Count] is the number of those
    rows; the pages of [ScanPage] put together are the matching rows in the
    order of their keys, each once. *)

From S2P Require Import Prelude Digits GoLib Kernels Indices Timestamps DictSection DictLayout Postings Bloom Group Bitset Select.
From S2P Require Import Reader ReaderSafe ReaderOk Table Writer Filter FilterOk Engine EngineOk TimeFilter Scan.
From stdpp Require Import list gmap sorting.
Local Open Scope Z_scope.

Lemma elem_of_concat {A} (x : A) (ls : list (list A)) : x ∈ concat ls ↔ ∃ l, l ∈ ls ∧ x ∈ l.
Proof.
  induction ls as [|l ls IH]; cbn [concat].
  - split; [by intros ?%elem_of_nil|]. by intros (l & ?%elem_of_nil & _).
  - rewrite elem_of_app, IH. split.
    + intros [?|(l' & ? & ?)]; [exists l; split; [left|done]|exists l'; split; [by right|done]].
    + intros (l' & [-> |?]%elem_of_cons & ?); [by left|right; by exists l'].
Qed.

(** ** Groups shared out to workers

    What the fan-outs have in common: a channel of group numbers, workers that
    hold at most one group each, and a part per group. [part gi] is what the
    group's part has to be. *)

Section fan.
Context {W A : Type} (holding : W → list nat) (quit : W) (n : nat) (part : nat → A) (reason0 : option Stop).

Record fan_inv (ch : list nat) (ws : list W) (parts : list (option A)) (reason : option Stop) : Prop := {
  fi_len : length parts = n;
  fi_parts gi p : parts !! gi = Some (Some p) → p = part gi;
  fi_held gi : gi ∈ ch ++ concat (holding <$> ws) → (gi < n)%nat;
  fi_all gi : (gi < n)%nat → reason = None → gi ∈ ch ++ concat (holding <$> ws) ∨ parts !! gi = Some (Some (part gi));
  fi_quit : quit ∈ ws → ch = [];
  fi_reason : reason = None → reason0 = None }.

Lemma held_at ws w a : ws !! w = Some a → ∀ gi, gi ∈ holding a → gi ∈ concat (holding <$> ws).
Proof.
  intros Ew gi Hgi. apply elem_of_concat. exists (holding a). split; [|done]. apply list_elem_of_fmap. exists a. split; [done|].
  by eapply list_elem_of_lookup_2.
Qed.
Lemma held_insert ws w a gi :
  gi ∈ concat (holding <$> <[w := a]> ws) → gi ∈ holding a ∨ gi ∈ concat (holding <$> ws).
Proof.
  rewrite !elem_of_concat. intros (l & (b & -> & Hb)%list_elem_of_fmap & Hgi).
  apply list_elem_of_lookup in Hb as [j Ej]. destruct (decide (j = w)) as [-> |Hne].
  - apply list_lookup_insert_Some in Ej as [(_ & <- & _)|[? _]]; [by left|done].
  - rewrite list_lookup_insert_ne in Ej by done. right. exists (holding b). split; [|done]. apply list_elem_of_fmap.
    exists b. split; [done|]. by eapply list_elem_of_lookup_2.
Qed.
Lemma held_other ws w a b gi :
  ws !! w = Some a → gi ∈ concat (holding <$> ws) → gi ∈ holding a ∨ gi ∈ concat (holding <$> <[w := b]> ws).
Proof.
  intros Ew. rewrite !elem_of_concat. intros (l & (c & -> & Hc)%list_elem_of_fmap & Hgi).
  apply list_elem_of_lookup in Hc as [j Ej]. destruct (decide (j = w)) as [-> |Hne]; [left; by simplify_eq|].
  right. exists (holding c). split; [|done]. apply list_elem_of_fmap. exists c. split; [done|].
  apply (list_elem_of_lookup_2 _ j). by rewrite list_lookup_insert_ne.
Qed.
Lemma elem_insert (ws : list W) w a x : x ∈ <[w := a]> ws → a = x ∨ x ∈ ws.
Proof.
  intros (j & Ej)%list_elem_of_lookup. destruct (decide (j = w)) as [-> |Hne].
  - apply list_lookup_insert_Some in Ej as [(_ & -> & _)|[? _]]; [by left|done].
  - right. rewrite list_lookup_insert_ne in Ej by done. by eapply list_elem_of_lookup_2.
Qed.

Lemma fan_init k idle reason :
  holding idle = [] → idle ≠ quit → reason = reason0 → fan_inv (seq 0 n) (replicate k idle) (replicate n None) reason.
Proof.
  intros Hh Hq ->. constructor.
  - by rewrite length_replicate.
  - intros gi rows E. by apply lookup_replicate in E as [? _].
  - intros gi [Hgi|Hgi]%elem_of_app; [apply elem_of_seq in Hgi; lia|].
    apply elem_of_concat in Hgi as (l & (a & -> & Ha)%list_elem_of_fmap & Hgi). apply elem_of_replicate in Ha as [-> _].
    rewrite Hh in Hgi. by apply elem_of_nil in Hgi.
  - intros gi Hlt _. left. apply elem_of_app. left. apply elem_of_seq. lia.
  - intros [? _]%elem_of_replicate. congruence.
  - done.
Qed.

(** One worker moves; it keeps its group, or gives it up with a reason or with
    the part in place. *)
Lemma fan_move ch ws parts reason w a b reason' :
  fan_inv ch ws parts reason → ws !! w = Some a → b ≠ quit → (reason ≠ None → reason' ≠ None) →
  (∀ gi, gi ∈ holding b → gi ∈ holding a) →
  (holding a = holding b ∨ reason' ≠ None ∨ ∀ gi, gi ∈ holding a → parts !! gi = Some (Some (part gi))) →
  fan_inv ch (<[w := b]> ws) parts reason'.
Proof.
  intros [H1 H2 H3 H4 H5 H6] Ew Hb Hr Hsub Hkeep.
  assert (reason' = None → reason = None) as Hr' by (intros Hn; destruct reason; [by destruct Hr|done]).
  constructor; try done.
  - intros gi [Hgi|Hgi]%elem_of_app; apply H3, elem_of_app; [by left|right].
    apply held_insert in Hgi as [Hgi|Hgi]; [|done]. by eapply held_at; [|apply Hsub].
  - intros gi Hlt Hn.
    destruct (H4 gi Hlt (Hr' Hn)) as [[Hgi|Hgi]%elem_of_app|Hgi]; [left; apply elem_of_app; by left| |by right].
    destruct (held_other _ _ a b _ Ew Hgi) as [Hgi'|Hgi']; [|left; apply elem_of_app; by right].
    destruct Hkeep as [Heq|[?|Hp]]; [|done|right; by apply Hp]. left. apply elem_of_app. right. rewrite Heq in Hgi'.
    eapply held_at; [|done]. apply list_lookup_insert_eq. by eapply lookup_lt_Some.
  - intros [?|?]%elem_insert; [done|by apply H5].
  - intros Hn. by apply H6, Hr'.
Qed.

(** A worker takes the next group; with the channel empty it quits. *)
Lemma fan_take gi ch ws parts reason w a b :
  fan_inv (gi :: ch) ws parts reason → ws !! w = Some a → holding a = [] → holding b = [gi] → b ≠ quit →
  fan_inv ch (<[w := b]> ws) parts reason.
Proof.
  intros [H1 H2 H3 H4 H5 H6] Ew Ha Hb Hq. constructor; try done.
  - intros gj [Hg|Hg]%elem_of_app; apply H3; [apply elem_of_app; left; by right|].
    apply held_insert in Hg as [Hg|Hg]; [|apply elem_of_app; by right]. rewrite Hb in Hg. apply list_elem_of_singleton in Hg as ->. left.
  - intros gj Hlt Hn. destruct (H4 gj Hlt Hn) as [[[-> |Hg]%elem_of_cons|Hg]%elem_of_app|?]; [..|by right].
    + left. apply elem_of_app. right. eapply (held_at _ w b); [|rewrite Hb; left]. apply list_lookup_insert_eq. by eapply lookup_lt_Some.
    + left. apply elem_of_app. by left.
    + destruct (held_other _ _ _ b _ Ew Hg) as [Hg'|?]; [rewrite Ha in Hg'; by apply elem_of_nil in Hg'|]. left. apply elem_of_app. by right.
  - intros [?|Hd]%elem_insert; [done|]. by specialize (H5 Hd).
Qed.
Lemma fan_quit ws parts reason w a :
  fan_inv [] ws parts reason → ws !! w = Some a → holding a = [] → holding quit = [] → fan_inv [] (<[w := quit]> ws) parts reason.
Proof.
  intros [H1 H2 H3 H4 H5 H6] Ew Ha Hq. cbn [app] in *. constructor; try done.
  - intros gi Hgi. apply H3. cbn [app] in *. apply held_insert in Hgi as [Hgi|Hgi]; [|done]. rewrite Hq in Hgi. by apply elem_of_nil in Hgi.
  - intros gi Hlt Hn. cbn [app]. destruct (H4 gi Hlt Hn) as [Hgi|?]; [|by right].
    destruct (held_other _ _ _ quit _ Ew Hgi) as [Hg|?]; [rewrite Ha in Hg; by apply elem_of_nil in Hg|by left].
Qed.
(** A worker puts the part of the group it holds in place. *)
Lemma fan_store gi ch ws parts reason w a b :
  fan_inv ch ws parts reason → ws !! w = Some a → holding a = [gi] → holding b = [] → b ≠ quit →
  fan_inv ch (<[w := b]> ws) (<[gi := Some (part gi)]> parts) reason.
Proof.
  intros Hi Ew Ha Hb Hq. assert (gi < n)%nat as Hlt by (apply (fi_held _ _ _ _ Hi), elem_of_app; right; eapply held_at; [done|rewrite Ha; left]).
  eapply (fan_move _ ws _ reason); [|exact Ew|done|done|by rewrite Hb; intros gj ?%elem_of_nil|].
  - destruct Hi as [H1 H2 H3 H4 H5 H6]. constructor; try done.
    + by rewrite length_insert.
    + intros gj p [(<- & [= <-] & _)|[_ E]]%list_lookup_insert_Some; [done|by apply H2].
    + intros gj Hj Hn. destruct (decide (gj = gi)) as [-> |Hne]; [right; apply list_lookup_insert_eq; lia|].
      rewrite list_lookup_insert_ne by done. by apply H4.
  - right. right. rewrite Ha. intros gj ->%list_elem_of_singleton. apply list_lookup_insert_eq. by rewrite (fi_len _ _ _ _ Hi).
Qed.

(** All workers gone and no reason recorded: every part is there. *)
Lemma fan_complete ch ws parts :
  fan_inv ch ws parts None → ws ≠ [] → Forall (λ a, a = quit) ws → holding quit = [] → parts = (λ gi, Some (part gi)) <$> seq 0 n.
Proof.
  intros [H1 H2 H3 H4 H5 H6] Hne Hall Hq. rewrite Forall_forall in Hall.
  assert (ch = []) as -> by (apply H5; destruct ws as [|a ws]; [done|]; rewrite <- (Hall a (list_elem_of_here _ _)); left).
  apply list_eq. intros gi. rewrite list_lookup_fmap. destruct (decide (gi < n)%nat) as [Hlt|Hge].
  - rewrite lookup_seq_lt by done. cbn. destruct (H4 gi Hlt eq_refl) as [Hgi|Hgi]; [|done].
    apply elem_of_concat in Hgi as (l & (a & -> & Ha)%list_elem_of_fmap & Hgi). rewrite (Hall a Ha), Hq in Hgi. by apply elem_of_nil in Hgi.
  - rewrite lookup_seq_ge by lia. apply lookup_ge_None_2. lia.
Qed.
End fan.

(** ** Fan-outs that end *)

(** Enough scheduling for [work] groups: rounds that each run every worker, as
    many as there are steps to take. *)
Definition enough {E} (who : E → nat) (workers work : nat) (sched : list E) : Prop :=
  ∃ rounds, sched = concat rounds ∧ (∀ round, round ∈ rounds → ∀ w, (w < workers)%nat → ∃ e, e ∈ round ∧ who e = w) ∧
    (8 * work + workers ≤ length rounds)%nat.

Lemma enough_less {E} (who : E → nat) workers work work' sched :
  (work' ≤ work)%nat → enough who workers work sched → enough who workers work' sched.
Proof. intros H (rounds & -> & Hc & Hl). exists rounds. split_and!; [done|done|lia]. Qed.

(** What the workers have left to do, after one of them moved. *)
Lemma sum_weight {A} (weight : A → nat) (ws : list A) w a b :
  ws !! w = Some a → (sum_list_with weight (<[w := b]> ws) + weight a = sum_list_with weight ws + weight b)%nat.
Proof.
  revert w. induction ws as [|c ws IH]; intros [|w] E; try done; [injection E as ->; cbn; lia|]. specialize (IH w E).
  change (<[S w := b]> (c :: ws)) with (c :: <[w := b]> ws). cbn [sum_list_with]. lia.
Qed.
Lemma weight_le {A} (weight : A → nat) (ws : list A) w a : ws !! w = Some a → (weight a ≤ sum_list_with weight ws)%nat.
Proof. revert w. induction ws as [|c ws IH]; intros [|w] E; try done; cbn [sum_list_with]; [injection E as ->; lia|]. specialize (IH w E). lia. Qed.
Lemma weight_replicate {A} (weight : A → nat) n a : weight a = 1%nat → sum_list_with weight (replicate n a) = n.
Proof. intros H. induction n; cbn; lia. Qed.

Section rounds.
Context {S E : Type} (step : E → S → outcome (option S)) (who : E → nat) (workers : nat).
Context (inv : S → Prop) (measure : S → nat) (live : S → nat → bool).
Context (Hstep : ∀ st e, inv st → live st (who e) = true →
  ∃ st', step e st = Ok (Some st') ∧ inv st' ∧ (measure st' < measure st)%nat ∧ ∀ w, w ≠ who e → live st' w = live st w).
Context (Hidle : ∀ st e, live st (who e) = false → step e st = Ok None).
Context (Hbound : ∀ st w, inv st → live st w = true → (w < workers)%nat ∧ (0 < measure st)%nat).

Fixpoint grun (sched : list E) (st : S) : outcome S :=
  match sched with [] => Ok st | e :: sched' => x ← step e st; grun sched' (default st x) end.

Lemma grun_app l1 l2 st : grun (l1 ++ l2) st = (st1 ← grun l1 st; grun l2 st1).
Proof.
  revert st. induction l1 as [|e l1 IH]; intros st; cbn [app grun]; [by rewrite bind_Ok|].
  destruct (step e st) as [x|]; [|done]. rewrite !bind_Ok. apply IH.
Qed.
Lemma grun_progress sched : ∀ st, inv st →
  ∃ st', grun sched st = Ok st' ∧ inv st' ∧ (measure st' ≤ measure st)%nat ∧
    ((∃ e, e ∈ sched ∧ live st (who e) = true) → measure st' < measure st)%nat.
Proof.
  induction sched as [|e sched IH]; intros st Hi; cbn [grun].
  { exists st. split_and!; [done|done|done|]. by intros (e & ?%elem_of_nil & _). }
  destruct (live st (who e)) eqn:Hl.
  - destruct (Hstep st e Hi Hl) as (st1 & -> & Hi1 & Hm & _). rewrite bind_Ok. cbn [default from_option id].
    destruct (IH st1 Hi1) as (st' & -> & Hi' & Hm' & _). exists st'. split_and!; [done|done|lia|lia].
  - rewrite (Hidle st e Hl), bind_Ok. cbn [default from_option]. destruct (IH st Hi) as (st' & -> & Hi' & Hm' & Hs). exists st'. split_and!; [done|done|done|].
    intros (e' & [-> |He]%elem_of_cons & Hl'); [congruence|]. apply Hs. by exists e'.
Qed.
Lemma grun_stays sched st : (∀ w, live st w = false) → grun sched st = Ok st.
Proof. intros Hn. induction sched as [|e sched IH]; [done|]. cbn [grun]. by rewrite Hidle, bind_Ok. Qed.
Lemma live_dec st : inv st → (∃ w, live st w = true) ∨ ∀ w, live st w = false.
Proof.
  intros Hi. destruct (decide (Exists (λ w, live st w = true) (seq 0 workers))) as [Hx|Hx].
  - left. apply Exists_exists in Hx as (w & _ & Hl). by exists w.
  - right. intros w. destruct (live st w) eqn:Hl; [|done]. destruct Hx. apply Exists_exists. exists w. split; [|done].
    apply elem_of_seq. destruct (Hbound st w Hi Hl). lia.
Qed.
Lemma grun_rounds rounds : ∀ st, inv st →
  (∀ round, round ∈ rounds → ∀ w, (w < workers)%nat → ∃ e, e ∈ round ∧ who e = w) → (measure st ≤ length rounds)%nat →
  ∃ st', grun (concat rounds) st = Ok st' ∧ inv st' ∧ ∀ w, live st' w = false.
Proof.
  induction rounds as [|round rounds IH]; intros st Hi Hc Hm; (destruct (live_dec st Hi) as [(w & Hl)|Hn]; [|exists st; by rewrite grun_stays]).
  - destruct (Hbound st w Hi Hl). cbn [length] in Hm. lia.
  - destruct (grun_progress round st Hi) as (st1 & E1 & Hi1 & Hle & Hlt). cbn [concat]. rewrite grun_app, E1, bind_Ok.
    apply IH; [done|intros r Hr; apply Hc; by right|]. cbn [length] in Hm. assert (measure st1 < measure st)%nat; [|lia].
    apply Hlt. destruct (Hc round ltac:(by left) w) as (e & He & Ew); [by apply (Hbound st)|]. exists e. by rewrite Ew.
Qed.
End rounds.

(** A group in service and the table it answers for. *)
Definition in_service `{K : Simd} `{F : Flate} (x : leased * table) : Prop :=
  caches_ok (l_reader x.1) (l_caches x.1) ∧ ∃ np ts, serves np (l_reader x.1) x.2 ts.

Section meaning.
Context {T : GoText} {R : MapRange}.
(** The matching rows of a group, of several. *)
Definition group_matches (q : Query) (t : table) : list Row := mat_rows t (query_fields (t_cols t).*1 q) (query_rows t q).
Definition matches (q : Query) (gts : list (leased * table)) : list Row := concat ((λ x, group_matches q x.2) <$> gts).
(** The answer of a scan in group order. *)
Definition limited (q : Query) (rows : list Row) : list Row :=
  if bool_decide (0 < q_Limit q) then take (Z.to_nat (q_Limit q)) rows else rows.
End meaning.

Section scan_ok.
Context {T : GoText} {R : MapRange} {K : Simd} {KL : SimdLaws K} {F : Flate} {FL : FlateLaws F}.
Context {B : BitOps} {BL : BitOpsLaws B} {M : MaskOps} {ML : MaskOpsLaws M}.

Lemma matches_cons q x gts : matches q (x :: gts) = group_matches q x.2 ++ matches q gts.
Proof. done. Qed.
Lemma matches_app q l1 l2 : matches q (l1 ++ l2) = matches q l1 ++ matches q l2.
Proof. unfold matches. by rewrite fmap_app, concat_app. Qed.

(** ** The groups that are looked at *)

Lemma skipped_empty q x :
  in_service x → TimeRangeMatches (l_reader x.1) (q_From q) (q_To q) = false → query_rows x.2 q = [].
Proof.
  intros [_ (np & ts & Hv)] Hw. destruct (times_served np _ _ ts Hv) as (Hta & Hl & _). apply matching_false. intros i Hi. unfold query_sem.
  destruct (time_served np _ _ ts Hv (Z.to_nat i)) as (u & Eu & ->); [unfold len in *; lia|].
  destruct (in_window (q_From q) (q_To q) u) eqn:Ei; [|done]. apply bool_decide_eq_true in Ei.
  pose proof (ta_group _ _ _ Hta (q_From q) (q_To q) u ltac:(by eapply list_elem_of_lookup_2) Ei). congruence.
Qed.

(** Groups without a matching row can be left out. *)
Definition same_hits (q : Query) (kept gts : list (leased * table)) : Prop :=
  ∀ (A : Type) (f : leased * table → list A), (∀ x, query_rows x.2 q = [] → f x = []) → concat (f <$> kept) = concat (f <$> gts).
Lemma same_hits_matches q kept gts : same_hits q kept gts → matches q kept = matches q gts.
Proof. intros H. apply H. intros x Hx. unfold group_matches. by rewrite Hx. Qed.
Lemma same_hits_keep q x kept gts : same_hits q kept gts → same_hits q (x :: kept) (x :: gts).
Proof. intros H A f Hf. rewrite !fmap_cons. cbn [concat]. by rewrite (H A f Hf). Qed.
Lemma same_hits_skip q x kept gts : query_rows x.2 q = [] → same_hits q kept gts → same_hits q kept (x :: gts).
Proof. intros Hx H A f Hf. rewrite fmap_cons. cbn [concat]. by rewrite (Hf x Hx), (H A f Hf). Qed.
Lemma same_hits_trans q a b c : same_hits q a b → same_hits q b c → same_hits q a c.
Proof. intros H1 H2 A f Hf. by rewrite (H1 A f Hf), (H2 A f Hf). Qed.

Lemma snapshotOf_spec q gts :
  Forall in_service gts →
  ∃ kept, snapshotOf (Some gts.*1) (q_From q) (q_To q) = kept.*1 ∧ Forall in_service kept ∧ kept `sublist_of` gts ∧ same_hits q kept gts.
Proof.
  unfold snapshotOf. induction 1 as [|x gts Hx Hgts (kept & E & Hk & Hs & Hm)]; [by exists []|]. rewrite fmap_cons. cbn [List.filter].
  destruct (TimeRangeMatches (l_reader x.1) (q_From q) (q_To q)) eqn:Et.
  - exists (x :: kept). rewrite fmap_cons, E. split_and!; [done|by constructor|by constructor|]. by apply same_hits_keep.
  - exists kept. split_and!; [done|done|by constructor|]. apply same_hits_skip; [by apply skipped_empty|done].
Qed.

Lemma prune_spec o q gts : ∀ n,
  Forall in_service gts →
  ∃ kept n' e, prune o n q gts.*1 = Ok (kept.*1, n', e) ∧ Forall in_service kept ∧ kept `sublist_of` gts ∧
    (e = None → same_hits q kept gts) ∧ ((∀ k, o_clock o k = None) → e = None).
Proof.
  induction gts as [|x gts IH]; intros n Hin; [by exists [], n, None|]. apply Forall_cons_1 in Hin as [Hx Hin].
  rewrite fmap_cons. cbn [prune]. destruct (exceeded q (o_clock o n) 0) as [e|] eqn:Ee.
  { exists [], (S n), (Some e). split_and!; [done|done|apply sublist_nil_l|done|]. intros Hc. unfold exceeded in Ee.
    rewrite Hc in Ee. repeat (case_bool_decide; [lia|]). done. }
  pose proof Hx as [_ (np & ts & Hv)]. destruct (groupCanMatch_spec np _ _ ts Hv q) as (c & -> & Hc). rewrite bind_Ok.
  destruct (IH (S n) Hin) as (kept & n' & e & -> & Hk & Hs & Hm & He). rewrite bind_Ok. cbv beta iota. destruct c.
  - exists (x :: kept), n', e. split_and!; [done|by constructor|by constructor| |done].
    intros ->. by apply same_hits_keep, Hm.
  - exists kept, n', e. split_and!; [done|done|by constructor| |done].
    intros ->. apply same_hits_skip; [by apply Hc|by apply Hm].
Qed.

Lemma scan_group q pool out x :
  in_service x →
  ∃ s', appendMatches pool out (l_reader x.1) (l_caches x.1) q =
    Ok (out ++ mat_rows x.2 (query_fields (t_cols x.2).*1 q) (bounded_rows q (len out) (query_rows x.2 q)), s') ∧
    caches_ok (l_reader x.1) s'.
Proof. intros [Hs (np & ts & Hv)]. by apply (appendMatches_spec np _ _ ts Hv). Qed.

Lemma limited_step q pool out x :
  in_service x → q_LastN q ≤ 0 → (0 < q_Limit q → len out < q_Limit q) →
  ∃ s', appendMatches pool out (l_reader x.1) (l_caches x.1) q = Ok (limited q (out ++ group_matches q x.2), s').
Proof.
  intros Hx HL Hout. destruct (scan_group q pool out x Hx) as (s' & -> & _). exists s'. unfold limited, bounded_rows, group_matches.
  rewrite (bool_decide_eq_false_2 (0 < q_LastN q)) by lia. case_bool_decide as Hlim; [|done].
  rewrite take_app_ge by (unfold len in *; lia). unfold mat_rows. rewrite <- fmap_take.
  by replace (Z.to_nat (q_Limit q - len out)) with (Z.to_nat (q_Limit q) - length out)%nat by (unfold len in *; lia).
Qed.

(** ** The serial walk *)

Definition unlimited (q : Query) : Prop := q_MaxRows q ≤ 0 ∧ q_MaxBytes q ≤ 0 ∧ q_maxMemory q ≤ 0 ∧ q_maxGroups q ≤ 0.

Lemma exceeded_unlimited q c bytes : unlimited q → exceeded q c bytes = c.
Proof. intros (_ & H1 & H2 & _). unfold exceeded. destruct c; [done|]. by rewrite !bool_decide_eq_false_2 by lia. Qed.
Lemma stop_some r e : stop r e ≠ None.
Proof. by destruct r. Qed.

Lemma run_serial_spec o q gts : ∀ n out bytes reason,
  Forall in_service gts → q_LastN q ≤ 0 → (0 < q_Limit q → len out < q_Limit q) →
  ∃ rows r, run_serial o n q out bytes reason gts.*1 = Ok (rows, r) ∧
    (r = None → reason = None ∧ rows = limited q (out ++ matches q gts) ∧ 
       (0 < q_MaxRows q → q_Limit q ≤ 0 → len out ≤ q_MaxRows q → len rows ≤ q_MaxRows q)) ∧
    (reason = None → unlimited q → (∀ k, o_clock o k = None) → r = None).
Proof.
  induction gts as [|x gts IH]; intros n out bytes reason Hin HL Hout; cbn [run_serial].
  { exists out, reason. split_and!; [done| |done]. intros ->. split_and!; [done| |done].
    unfold matches. cbn. rewrite app_nil_r. unfold limited. case_bool_decide; [|done]. rewrite take_ge; [done|unfold len in *; lia]. }
  apply Forall_cons_1 in Hin as [Hx Hin]. rewrite fmap_cons. cbn [run_serial].
  destruct (limited_step q (o_pool o n) out x Hx HL Hout) as (s' & ->). rewrite bind_Ok. cbv zeta. cbn [fst].
  set (out' := limited q (out ++ group_matches q x.2)). rewrite matches_cons.
  case_bool_decide as Hfull.
  - eexists _, reason. split_and!; [done| |done]. intros ->. destruct Hfull as [H1 H2]. split_and!; [done| |lia].
    subst out'. unfold limited in *. rewrite bool_decide_eq_true_2 in * by done. rewrite take_take, Nat.min_id.
    rewrite app_assoc, (take_app_le (out ++ _)); [done|]. rewrite len_take in H2. unfold len in *. lia.
  - assert (0 < q_Limit q → len out' < q_Limit q) as Hout' by lia.
    assert (out' = out ++ group_matches q x.2) as Eo.
    { subst out'. unfold limited in *. case_bool_decide; [|done]. apply take_ge. specialize (Hout' ltac:(done)).
      rewrite len_take in Hout'. unfold len in *. lia. }
    case_bool_decide as Hmax.
    { eexists _, _. split_and!; [done|by intros ?%stop_some|]. intros _ (Hu & _) _. lia. }
    destruct (exceeded q (o_clock o n) _) as [e|] eqn:Ee.
    + eexists _, _. split_and!; [done|by intros ?%stop_some|]. intros _ Hu Hc. rewrite exceeded_unlimited, Hc in Ee by done. done.
    + destruct (IH (S n) out' (bytes + sum_bytes q (drop (length out) out')) reason Hin HL Hout') as (rows & r & -> & Hr & Hr2).
      exists rows, r. split_and!; [done| |done]. intros ->. destruct (Hr eq_refl) as (-> & -> & Hm). split_and!; [done| |].
      * by rewrite Eo, app_assoc.
      * intros H1 H2 _. apply Hm; lia.
Qed.

(** ** The fan-out *)

Section fanout.
Context (q : Query) (gts : list (leased * table)) (Hin : Forall in_service gts) (HL : q_LastN q ≤ 0) (Hlim : q_Limit q = 0).

Definition part_of (gi : nat) : list Row := match gts !! gi with Some x => group_matches q x.2 | None => [] end.
(** The group a worker has taken and not yet scanned. *)
Definition holding (w : wstate) : list nat := match w with WTook gi | WCapOk gi | WScan gi => [gi] | _ => [] end.

Definition pinv (reason0 : option Stop) (st : pstate) : Prop :=
  fan_inv holding WDone (length gts) part_of reason0 (ps_ch st) (ps_workers st) (ps_parts st) (ps_reason st).

Lemma pinv_init workers reason : pinv reason (ps_init (length gts) workers reason).
Proof. by apply fan_init. Qed.

Lemma pstep_inv reason st w clock pool :
  pinv reason st → ∃ x, pstep gts.*1 q w clock pool st = Ok x ∧ ∀ st', x = Some st' → pinv reason st'.
Proof.
  unfold pinv. intros Hi. unfold pstep, set_worker, set_reason. destruct (ps_workers st !! w) as [a|] eqn:Ew; [|by eexists].
  destruct a as [|gi|gi|gi|rows|rows total|rows|]; [..|by eexists].
  - destruct (ps_ch st) as [|gi ch] eqn:Ec; eexists; (split; [done|]); intros st' [= <-]; cbn [ps_ch ps_workers ps_parts ps_reason].
    + by eapply fan_quit.
    + by eapply fan_take.
  - case_bool_decide; eexists; (split; [done|]); intros st' [= <-]; eapply fan_move; try done; try (by intros gj ?%elem_of_nil).
    + intros _. apply stop_some.
    + right. left. apply stop_some.
    + by left.
  - destruct (exceeded q clock (ps_scanned st)); eexists; (split; [done|]); intros st' [= <-]; eapply fan_move; try done; try (by intros gj ?%elem_of_nil).
    + intros _. apply stop_some.
    + right. left. apply stop_some.
    + by left.
  - assert (gi < length gts)%nat as Hlt by (apply (fi_held _ _ _ _ _ _ _ _ _ Hi), elem_of_app; right; eapply held_at; [done|by left]).
    destruct (lookup_lt_is_Some_2 gts gi Hlt) as [x Ex]. rewrite (index_Ok _ _ x.1), bind_Ok by (try lia; by rewrite Nat2Z.id, list_lookup_fmap, Ex).
    pose proof Hin as Hx. rewrite Forall_lookup in Hx. specialize (Hx _ _ Ex).
    destruct (limited_step q pool [] x Hx HL) as (s' & ->); [lia|]. rewrite bind_Ok. eexists. split; [done|]. intros st' [= <-].
    cbn [fst app]. assert (limited q (group_matches q x.2) = part_of gi) as ->.
    { unfold limited, part_of. rewrite bool_decide_eq_false_2 by lia. by rewrite Ex. }
    by eapply fan_store.
  - eexists. split; [done|]. intros st' [= <-]. eapply fan_move; try done. by left.
  - eexists. split; [done|]. intros st' [= <-]. eapply fan_move; try done; [|by left]. by destruct (exceeded q clock total), (ps_reason st).
  - eexists. split; [done|]. intros st' [= <-]. eapply fan_move; try done. by left.
Qed.

Lemma prun_inv reason sched : ∀ st, pinv reason st → ∃ st', prun gts.*1 q sched st = Ok st' ∧ pinv reason st'.
Proof.
  induction sched as [|[[w clock] pool] sched IH]; intros st Hi; cbn [prun]; [by exists st|].
  destruct (pstep_inv reason st w clock pool Hi) as (x & -> & Hx). rewrite bind_Ok. apply IH. by destruct x; cbn; [apply Hx|].
Qed.

Lemma parts_complete reason st :
  pinv reason st → pdone st = true → ps_workers st ≠ [] → ps_reason st = None →
  concat (default [] <$> ps_parts st) = matches q gts.
Proof.
  unfold pinv. intros Hi Hd Hw Hn. rewrite Hn in Hi. rewrite (fan_complete _ _ _ _ _ _ _ _ Hi Hw); [|..].
  - unfold matches. f_equal. rewrite <- list_fmap_compose. apply list_eq. intros gi. rewrite !list_lookup_fmap.
    destruct (decide (gi < length gts)%nat) as [Hlt|Hge].
    + rewrite lookup_seq_lt by done. cbn. unfold part_of. by destruct (lookup_lt_is_Some_2 gts gi Hlt) as [x ->].
    + rewrite lookup_seq_ge by lia. by rewrite lookup_ge_None_2 by lia.
  - unfold pdone in Hd. rewrite forallb_forall in Hd. rewrite Forall_forall. intros a Ha%list_elem_of_In. specialize (Hd a Ha). by destruct a.
  - done.
Qed.

(** Every part that was scanned is its group's rows; with no reason recorded,
    every group was. *)
Lemma runParallel_spec workers sched reason :
  (0 < workers)%nat →
  ∃ x, runParallel workers sched q reason gts.*1 = Ok x ∧
    ∀ rows r, x = Some (rows, r) →
      (r = None → reason = None ∧ rows = matches q gts) ∧
      ∃ parts, rows = concat parts ∧ Forall2 (λ p y, p = [] ∨ p = group_matches q y.2) parts gts.
Proof.
  intros Hw. unfold runParallel. rewrite length_fmap.
  destruct (prun_inv reason sched _ (pinv_init workers reason)) as (st & Est & Hi). rewrite Est, bind_Ok. eexists. split; [done|].
  intros rows r. destruct (pdone st) eqn:Hd; [|done]. intros [= <- <-]. split.
  - intros Hn. split; [by apply (fi_reason _ _ _ _ _ _ _ _ _ Hi)|]. apply (parts_complete reason); try done.
    intros E. assert (length (ps_workers st) = workers) as Hlen; [|rewrite E in Hlen; cbn in Hlen; lia].
    assert (∀ sched st st', prun gts.*1 q sched st = Ok st' → length (ps_workers st') = length (ps_workers st)) as Hkeep.
    { clear. induction sched as [|[[w c] pl] sched IH]; intros st st'; cbn [prun]; [by intros [= <-]|].
      destruct (pstep gts.*1 q w c pl st) as [x|] eqn:Ex; [|done]. rewrite bind_Ok. intros ->%IH.
      destruct x as [st1|]; [|done]. cbn. unfold pstep, set_worker, set_reason in Ex. destruct (ps_workers st !! w) as [a|]; [|done].
      destruct a; repeat (case_bool_decide || case_match || destruct (index _ _) || destruct (appendMatches _ _ _ _ _) || rewrite bind_Ok in Ex);
        try done; simplify_eq; cbn; by rewrite ?length_insert. }
    rewrite (Hkeep _ _ _ Est). cbn. by rewrite length_replicate.
  - exists (default [] <$> ps_parts st). split; [done|]. apply Forall2_fmap_l, Forall2_same_length_lookup. split; [apply (fi_len _ _ _ _ _ _ _ _ _ Hi)|].
    intros gi p y Ep Ey. destruct p as [rows|]; [|by left]. right. apply (fi_parts _ _ _ _ _ _ _ _ _ Hi) in Ep. rewrite Ep. unfold part_of. by rewrite Ey.
Qed.

(** Every step of a worker makes progress, and until all are done one can
    step: the fan-out ends under every scheduler that keeps running workers. *)
Definition weight (w : wstate) : nat :=
  match w with WDone => 0 | WIdle => 1 | WChecked _ => 2 | WAdded _ _ => 3 | WScanned _ => 4 | WScan _ => 5 | WCapOk _ => 6 | WTook _ => 7 end.
Definition pmeasure (st : pstate) : nat := 8 * length (ps_ch st) + sum_list_with weight (ps_workers st).

Definition plive (st : pstate) (w : nat) : bool := match ps_workers st !! w with None | Some WDone => false | _ => true end.
Definition pstep' (e : nat * option Stop * list Z) (st : pstate) : outcome (option pstate) := pstep gts.*1 q e.1.1 e.1.2 e.2 st.
Lemma prun_grun sched st : prun gts.*1 q sched st = grun pstep' sched st.
Proof.
  revert st. induction sched as [|[[w c] p] sched IH]; intros st; [done|]. cbn [prun grun]. change (pstep' (w, c, p) st) with (pstep gts.*1 q w c p st).
  destruct (pstep gts.*1 q w c p st); [|done]. rewrite !bind_Ok. apply IH.
Qed.

(** A worker that is not done moves, whatever it sees, and only moves forward. *)
Lemma pstep_forward workers reason st e :
  pinv reason st ∧ length (ps_workers st) = workers → plive st e.1.1 = true →
  ∃ st', pstep' e st = Ok (Some st') ∧ (pinv reason st' ∧ length (ps_workers st') = workers) ∧ (pmeasure st' < pmeasure st)%nat ∧
    ∀ w', w' ≠ e.1.1 → plive st' w' = plive st w'.
Proof.
  destruct e as [[w clock] pool]. unfold pstep', plive. cbn [fst snd]. intros [Hi Hlen] Ha.
  destruct (ps_workers st !! w) as [a|] eqn:Ew; [|done]. assert (a ≠ WDone) as Hd by (by intros ->). clear Ha.
  destruct (pstep_inv reason st w clock pool Hi) as (x & Ex & Hx).
  assert (∀ b, (sum_list_with weight (<[w := b]> (ps_workers st)) + weight a = sum_list_with weight (ps_workers st) + weight b)%nat) as Hsum
    by (intros b; by apply sum_weight).
  rewrite Ex. unfold pmeasure. unfold pstep, set_worker, set_reason in Ex. rewrite Ew in Ex.
  assert (∀ b (ch : list nat), ((8 * length ch + weight b < 8 * length (ps_ch st) + weight a))%nat →
     (8 * length ch + sum_list_with weight (<[w := b]> (ps_workers st)) < 8 * length (ps_ch st) + sum_list_with weight (ps_workers st))%nat) as Hlt
    by (intros b ch Hb; specialize (Hsum b); lia).
  assert (∀ b w', w' ≠ w → <[w := b]> (ps_workers st) !! w' = ps_workers st !! w') as Hne by (intros b w' Hw; by rewrite list_lookup_insert_ne).
  assert (∃ st', x = Some st' ∧ (pmeasure st' < pmeasure st)%nat ∧ ∃ b, ps_workers st' = <[w := b]> (ps_workers st)) as (st' & -> & Hm & b & Eb).
  { unfold pmeasure. destruct a; repeat (case_bool_decide || case_match || destruct (index _ _) || destruct (appendMatches _ _ _ _ _) || rewrite bind_Ok in Ex);
      try done; simplify_eq; eexists; (split; [done|]); cbn [ps_ch ps_workers]; (split; [apply Hlt; repeat match goal with E : ps_ch st = _ |- _ => rewrite E end; cbn; lia|by eexists]). }
  exists st'. split; [done|]. split; [split; [by apply Hx|by rewrite Eb, length_insert]|]. split; [done|]. intros w' Hw'. by rewrite Eb, Hne.
Qed.

Lemma runParallel_ends_spec workers sched reason :
  enough (λ e, e.1.1) workers (length gts) sched → ∃ rows r, runParallel workers sched q reason gts.*1 = Ok (Some (rows, r)).
Proof.
  intros (rounds & -> & Hcov & Hlen). unfold runParallel. rewrite length_fmap, prun_grun.
  destruct (grun_rounds pstep' (λ e, e.1.1) workers (λ st, pinv reason st ∧ length (ps_workers st) = workers) pmeasure plive) with (rounds := rounds)
    (st := ps_init (length gts) workers reason) as (st & -> & _ & Hd); [by apply pstep_forward| | | |done| |].
  - intros st [[w c] p] Hl. unfold pstep', plive, pstep in *. cbn [fst snd] in *. destruct (ps_workers st !! w) as [[]|]; done.
  - intros st w [_ Hl] Hv. unfold plive in Hv. destruct (ps_workers st !! w) as [a|] eqn:E; [|done]. split; [rewrite <- Hl; by eapply lookup_lt_Some|].
    unfold pmeasure. pose proof (weight_le weight _ _ _ E). destruct a; cbn [weight] in *; (done || lia).
  - split; [apply pinv_init|]. cbn [ps_init ps_workers]. by rewrite length_replicate.
  - unfold pmeasure, ps_init. cbn [ps_ch ps_workers]. rewrite length_seq, weight_replicate by done. lia.
  - rewrite bind_Ok. assert (pdone st = true) as -> by (unfold pdone; apply forallb_forall; intros a (w & Ea)%list_elem_of_In%list_elem_of_lookup;
      specialize (Hd w); unfold plive in Hd; rewrite Ea in Hd; by destruct a). by eexists _, _.
Qed.

(** the fan-out ends: once every worker has been scheduled in as many rounds
    as there is work left, the channel is drained, every worker has quit and an
    answer is returned. *)
Theorem runParallel_terminates workers sched reason :
  enough (λ e, e.1.1) workers (length gts) sched → ∃ rows r, runParallel workers sched q reason gts.*1 = Ok (Some (rows, r)).
Proof. by eapply runParallel_ends_spec. Qed.

Lemma prun_silent sched : ∀ st st',
  unlimited q → Forall (λ x, x.1.2 = None) sched → ps_reason st = None → prun gts.*1 q sched st = Ok st' → ps_reason st' = None.
Proof.
  induction sched as [|[[w clock] pool] sched IH]; intros st st' Hu Hs Hr; cbn [prun]; [by intros [= <-]|].
  apply Forall_cons_1 in Hs as [Hc Hs]. cbn [fst snd] in Hc. subst clock.
  destruct (pstep gts.*1 q w None pool st) as [x|] eqn:Ex; [|done]. rewrite bind_Ok. apply IH; [done|done|].
  destruct x as [st1|]; [|done]. cbn. unfold pstep, set_worker, set_reason, record_stop in Ex.
  destruct (ps_workers st !! w) as [a|]; [|done]. pose proof Hu as (Hmr & _).
  destruct a; rewrite ?exceeded_unlimited in Ex by done; repeat (case_bool_decide || case_match || destruct (index _ _) || destruct (appendMatches _ _ _ _ _) || rewrite bind_Ok in Ex);
    try done; simplify_eq; (done || lia).
Qed.
(** C23: The fan-out and the serial scan of the same groups return the same rows in
    the same order, under every interleaving of the workers, when neither is stopped;
    and neither is when the query has no limits and nothing is cancelled. A row cap
    can stop one and not the other: a fan-out that records no stop has the matching
    rows of every group, and one that does has, group by group, all of the group's
    rows or none of them. *)
Theorem runParallel_any_schedule o workers sched reason :
  (0 < workers)%nat →
  ∃ x rows' r', runParallel workers sched q reason gts.*1 = Ok x ∧ run_serial o 0 q [] 0 reason gts.*1 = Ok (rows', r') ∧
    (∀ rows r, x = Some (rows, r) →
      (r = None → r' = None → rows = rows') ∧ (r = None → reason = None ∧ rows = matches q gts) ∧
      ∃ parts, rows = concat parts ∧ Forall2 (λ p y, p = [] ∨ p = group_matches q y.2) parts gts) ∧
    (unlimited q → reason = None → (∀ k, o_clock o k = None) → Forall (λ y, y.1.2 = None) sched → r' = None ∧ ∀ rows r, x = Some (rows, r) → r = None).
Proof.
  intros Hw. destruct (runParallel_spec workers sched reason Hw) as (x & Ex & Hx).
  destruct (run_serial_spec o q gts 0 [] 0 reason Hin HL) as (rows' & r' & Es & Hs & Hs2); [lia|].
  exists x, rows', r'. split_and!; [done|done| |].
  - intros rows r Hr. destruct (Hx rows r Hr) as [H1 H2]. split_and!; [|done|done]. intros Hr0 Hr1. destruct (H1 Hr0) as [_ ->]. destruct (Hs Hr1) as (_ & -> & _).
    cbn. unfold limited. by rewrite bool_decide_eq_false_2 by lia.
  - intros Hu Hn Hc Hsc. split; [by apply Hs2|]. intros rows r ->. unfold runParallel in Ex. rewrite length_fmap in Ex.
    destruct (prun gts.*1 q sched _) as [st|] eqn:Est; [|done]. rewrite bind_Ok in Ex. destruct (pdone st); [|done]. injection Ex as <- <-.
    by apply (prun_silent sched _ st Hu Hsc) in Est.
Qed.
End fanout.

(** ** [Run] *)

Lemma Run_spec o now workers sched gts q :
  Forall in_service gts → q_LastN q ≤ 0 → (0 < workers)%nat →
  ∃ x, Run o now workers sched (Some gts.*1) q = Ok x ∧ let q' := resolveTimePreds q now in
    (enough (λ e, e.1.1) workers (length gts) sched → x ≠ None) ∧
    (∀ rows, x = Some (rows, None) → rows = limited q (matches q' gts)) ∧
    (unlimited q → (∀ k, o_clock o k = None) → Forall (λ y, y.1.2 = None) sched → ∀ rows r, x = Some (rows, r) → r = None).
Proof.
  intros Hin HL Hw. unfold Run. cbv zeta. set (q' := resolveTimePreds q now).
  assert (q_LastN q' = q_LastN q ∧ q_Limit q' = q_Limit q ∧ q_maxGroups q' = q_maxGroups q ∧ (unlimited q → unlimited q')) as (E1 & E2 & E3 & Hun) by done.
  destruct (snapshotOf_spec q' gts Hin) as (kept0 & -> & Hin0 & Hl0%sublist_length & Hm0%same_hits_matches).
  destruct (prune_spec o q' kept0 0 Hin0) as (kept & n & e & -> & Hk & Hl1%sublist_length & Hm' & He). rewrite bind_Ok. cbv beta iota.
  pose proof (λ E, same_hits_matches _ _ _ (Hm' E)) as Hm.
  rewrite E1, E3. case_bool_decide as Hg.
  { eexists. split; [done|]. split; [done|]. split; [by intros rows [= _ ?%stop_some]|]. intros (_ & _ & _ & Hug). lia. }
  rewrite (bool_decide_eq_false_2 (0 < q_LastN q)) by lia. case_bool_decide as Hp.
  - destruct Hp as [_ Hlim]. rewrite <- E1 in HL.
    destruct (runParallel_spec q' kept Hk HL Hlim workers sched e Hw) as (x & Ex & Hx). rewrite Ex. eexists. split; [done|]. split_and!.
    + intros Hen. destruct (runParallel_ends_spec q' kept Hk HL Hlim workers sched e) as (rows & r & E'); [eapply enough_less; [|done]; lia|].
      rewrite E' in Ex. by injection Ex as <-.
    + intros rows ->. destruct (Hx rows None eq_refl) as [Hr _]. destruct (Hr eq_refl) as (-> & ->).
      unfold limited. rewrite bool_decide_eq_false_2 by lia. by rewrite Hm, Hm0.
    + intros Hu Hc Hs rows r ->. unfold runParallel in Ex. rewrite length_fmap in Ex.
      destruct (prun kept.*1 q' sched _) as [st|] eqn:Est; [|done]. rewrite bind_Ok in Ex. destruct (pdone st); [|done]. injection Ex as <- <-.
      apply (prun_silent q' kept sched _ st (Hun Hu) Hs) in Est; [done|]. by apply He.
  - destruct (run_serial_spec o q' kept n [] 0 e Hk) as (rows & r & -> & Hr & Hr2); [lia|intros; unfold len; cbn; lia|].
    rewrite bind_Ok. eexists. split; [done|]. split; [done|]. split.
    + intros rows' [= -> ->]. destruct (Hr eq_refl) as (-> & -> & _). cbn [app].
      rewrite Hm, Hm0 by done. unfold limited. by rewrite E2.
    + intros Hu Hc _ rows' r' [= <- <-]. apply Hr2; [by apply He|by apply Hun|done].
Qed.

(** C4: [Run] never panics, and with enough scheduling it returns; a query that
    ends without a stop reason returns exactly the matching rows of every group,
    in group order and cut at the limit, whether it ran serially or fanned out
    under any interleaving of its workers, pruned and out-of-window groups
    included; and without limits and cancellation no stop is ever recorded. *)
Theorem Run_complete o now workers sched gts q :
  Forall in_service gts → q_LastN q ≤ 0 → (0 < workers)%nat →
  ∃ x, Run o now workers sched (Some gts.*1) q = Ok x ∧ let q' := resolveTimePreds q now in
    (enough (λ e, e.1.1) workers (length gts) sched → x ≠ None) ∧
    (∀ rows, x = Some (rows, None) → rows = limited q (matches q' gts)) ∧
    (unlimited q → (∀ k, o_clock o k = None) → Forall (λ y, y.1.2 = None) sched → ∀ rows r, x = Some (rows, r) → r = None).
Proof. by eapply Run_spec. Qed.

(** ** [Count] *)

Lemma count_group q x :
  in_service x → ∃ b s', matchBitset (l_reader x.1) (l_caches x.1) q = Ok (b, s') ∧ Bitset.Count b = len (group_matches q x.2).
Proof.
  intros [Hs (np & ts & Hv)]. destruct (matchBitset_spec np _ _ ts Hv (l_caches x.1) q Hs) as (b & s' & -> & _ & Hb).
  exists b, s'. split; [done|]. rewrite (selects_Count _ _ _ Hb). unfold group_matches, mat_rows. by rewrite len_fmap.
Qed.

Lemma count_serial_spec o q gts : ∀ n total reason,
  Forall in_service gts →
  ∃ m r, count_serial o n q total reason gts.*1 = Ok (m, r) ∧ (r = None → reason = None ∧ m = total + len (matches q gts)).
Proof.
  induction gts as [|x gts IH]; intros n total reason Hin; cbn [count_serial].
  { exists total, reason. split; [done|]. intros ->. split; [done|]. unfold matches, len. cbn. lia. }
  apply Forall_cons_1 in Hin as [Hx Hin]. rewrite fmap_cons. cbn [count_serial].
  destruct (exceeded q (o_clock o n) 0); [eexists _, _; split; [done|]; by intros ?%stop_some|].
  destruct (count_group q x Hx) as (b & s' & -> & Hb). rewrite bind_Ok. cbn [fst]. rewrite Hb.
  destruct (IH (S n) (total + len (group_matches q x.2)) reason Hin) as (m & r & -> & Hr). exists m, r. split; [done|].
  intros Hn. destruct (Hr Hn) as (-> & ->). split; [done|]. rewrite matches_cons, len_app. lia.
Qed.

Section count_fanout.
Context (q : Query) (gts : list (leased * table)) (Hin : Forall in_service gts).

Definition cnt_of (gi : nat) : Z := match gts !! gi with Some x => len (group_matches q x.2) | None => 0 end.
Definition sum_of {A} (f : A → Z) (l : list A) : Z := foldr (λ x acc, f x + acc) 0 l.
(** What a worker has counted and what it has taken. *)
Definition owed (w : cworker) : Z :=
  match w with CIdle l => l | CTook gi l | CScan gi l => l + cnt_of gi | CDone => 0 end.
Definition taken (w : cworker) : list nat := match w with CTook gi _ | CScan gi _ => [gi] | _ => [] end.

Lemma sum_of_insert {A} (f : A → Z) l w a b : l !! w = Some a → sum_of f (<[w := b]> l) = sum_of f l - f a + f b.
Proof.
  revert w. induction l as [|c l IH]; intros [|w] E; try done; [injection E as ->; cbn; lia|].
  change (<[S w := b]> (c :: l)) with (c :: <[w := b]> l). cbn [sum_of foldr]. fold (sum_of f (<[w := b]> l)) (sum_of f l). rewrite (IH w E). lia.
Qed.

Record cinv (reason0 : option Stop) (st : cstate) : Prop := {
  ci_sum : cs_reason st = None → cs_total st + sum_of owed (cs_workers st) + sum_of cnt_of (cs_ch st) = len (matches q gts);
  ci_ch gi : gi ∈ cs_ch st → (gi < length gts)%nat;
  ci_held w a gi : cs_workers st !! w = Some a → gi ∈ taken a → (gi < length gts)%nat;
  ci_done : CDone ∈ cs_workers st → cs_ch st = [];
  ci_reason : cs_reason st = None → reason0 = None }.

Lemma sum_seq l : ∀ k, (∀ j, gts !! (k + j)%nat = l !! j) → sum_of cnt_of (seq k (length l)) = len (matches q l).
Proof.
  induction l as [|x l IH]; intros k Hl; [done|]. cbn [length seq sum_of foldr]. rewrite matches_cons, len_app.
  fold (sum_of cnt_of (seq (S k) (length l))). rewrite (IH (S k)).
  - unfold cnt_of. pose proof (Hl 0%nat) as H0. rewrite Nat.add_0_r in H0. by rewrite H0.
  - intros j. specialize (Hl (S j)). by rewrite Nat.add_succ_r in Hl.
Qed.

Lemma cinv_init workers reason : cinv reason (CS (seq 0 (length gts)) (replicate workers (CIdle 0)) 0 reason).
Proof.
  constructor; cbn [cs_reason cs_total cs_workers cs_ch]; try done.
  - intros _. replace (sum_of owed (replicate workers (CIdle 0))) with 0 by (clear; induction workers; cbn; [done|]; unfold sum_of in *; lia).
    rewrite (sum_seq gts 0) by done. lia.
  - intros gi ?%elem_of_seq. lia.
  - intros w a gi [-> _]%lookup_replicate ?%elem_of_nil. done.
  - by intros [? _]%elem_of_replicate.
Qed.

Lemma taken_insert (P : nat → Prop) (ws : list cworker) w b :
  (∀ w a gi, ws !! w = Some a → gi ∈ taken a → P gi) → (∀ gi, gi ∈ taken b → P gi) →
  ∀ w' a gi, <[w := b]> ws !! w' = Some a → gi ∈ taken a → P gi.
Proof. intros H1 H2 w' a gi [(_ & -> & _)|[_ E]]%list_lookup_insert_Some Hgi; [by apply H2|by eapply H1]. Qed.

Lemma cstep_inv reason st w clock :
  cinv reason st → ∃ x, cstep gts.*1 q w clock st = Ok x ∧ ∀ st', x = Some st' → cinv reason st'.
Proof.
  intros [H1 H2 H3 H4 H5]. unfold cstep. cbv zeta. destruct (cs_workers st !! w) as [a|] eqn:Ew; [|by eexists].
  pose proof (λ b, sum_of_insert owed _ w a b Ew) as Hsum.
  destruct a as [local|gi local|gi local|]; [..|by eexists].
  - destruct (cs_ch st) as [|gi ch] eqn:Ec; eexists; (split; [done|]); intros st' [= <-]; constructor; cbn [cs_reason cs_total cs_workers cs_ch]; try done.
    + intros Hn. specialize (H1 Hn). rewrite Hsum. cbn [owed]. lia.
    + apply taken_insert; [done|]. by intros gi ?%elem_of_nil.
    + intros Hn. specialize (H1 Hn). rewrite Hsum. cbn [owed]. cbn [sum_of foldr] in H1. unfold sum_of in *. lia.
    + intros gj Hj. apply H2. by right.
    + apply taken_insert; [done|]. intros gj ->%list_elem_of_singleton. apply H2. left.
    + intros [?|Hd]%elem_insert; [done|]. by specialize (H4 Hd).
  - destruct (exceeded q clock 0); eexists; (split; [done|]); intros st' [= <-]; constructor; cbn [cs_reason cs_total cs_workers cs_ch]; try done.
    + by intros ?%stop_some.
    + apply taken_insert; [done|]. by intros gj ?%elem_of_nil.
    + intros [?|Hd]%elem_insert; [done|]. by apply H4.
    + by intros ?%stop_some.
    + intros Hn. specialize (H1 Hn). rewrite Hsum. cbn [owed]. lia.
    + apply taken_insert; [done|]. intros gj Hj. by apply (H3 w (CTook gi local)).
    + intros [?|Hd]%elem_insert; [done|]. by apply H4.
  - assert (gi < length gts)%nat as Hlt by (apply (H3 w (CScan gi local)); [done|by left]).
    destruct (lookup_lt_is_Some_2 gts gi Hlt) as [x Ex]. rewrite (index_Ok _ _ x.1), bind_Ok by (try lia; by rewrite Nat2Z.id, list_lookup_fmap, Ex).
    pose proof Hin as Hx. rewrite Forall_lookup in Hx. destruct (count_group q x (Hx _ _ Ex)) as (b & s' & -> & Hb). rewrite bind_Ok. cbn [fst].
    eexists. split; [done|]. intros st' [= <-]. constructor; cbn [cs_reason cs_total cs_workers cs_ch]; try done.
    + intros Hn. specialize (H1 Hn). rewrite Hsum, Hb. cbn [owed].
      assert (cnt_of gi = len (group_matches q x.2)) as -> by (unfold cnt_of; by rewrite Ex). lia.
    + apply taken_insert; [done|]. by intros gj ?%elem_of_nil.
    + intros [?|Hd]%elem_insert; [done|]. by apply H4.
Qed.

Lemma cstep_workers st w clock st' : cstep gts.*1 q w clock st = Ok (Some st') → length (cs_workers st') = length (cs_workers st).
Proof.
  unfold cstep. cbv zeta. intros E. destruct (cs_workers st !! w) as [a|]; [|done].
  destruct a; repeat (case_match || destruct (index _ _) || destruct (matchBitset _ _ _) || rewrite bind_Ok in E);
    try done; simplify_eq; cbn; by rewrite length_insert.
Qed.

(** The counting workers move on too, and end. *)
Definition cweight (w : cworker) : nat := match w with CDone => 0 | CIdle _ => 1 | CScan _ _ => 2 | CTook _ _ => 3 end.
Definition cmeasure (st : cstate) : nat := 8 * length (cs_ch st) + sum_list_with cweight (cs_workers st).
Definition clive (st : cstate) (w : nat) : bool := match cs_workers st !! w with None | Some CDone => false | _ => true end.
Definition cstep' (e : nat * option Stop) (st : cstate) : outcome (option cstate) := cstep gts.*1 q e.1 e.2 st.
Lemma crun_grun sched st : crun gts.*1 q sched st = grun cstep' sched st.
Proof.
  revert st. induction sched as [|[w c] sched IH]; intros st; [done|]. cbn [crun grun]. change (cstep' (w, c) st) with (cstep gts.*1 q w c st).
  destruct (cstep gts.*1 q w c st); [|done]. rewrite !bind_Ok. apply IH.
Qed.

Lemma cstep_forward workers reason st e :
  cinv reason st ∧ length (cs_workers st) = workers → clive st e.1 = true →
  ∃ st', cstep' e st = Ok (Some st') ∧ (cinv reason st' ∧ length (cs_workers st') = workers) ∧ (cmeasure st' < cmeasure st)%nat ∧
    ∀ w', w' ≠ e.1 → clive st' w' = clive st w'.
Proof.
  destruct e as [w clock]. unfold cstep', clive. cbn [fst snd]. intros [Hi Hlen] Ha.
  destruct (cs_workers st !! w) as [a|] eqn:Ew; [|done]. assert (a ≠ CDone) as Hd by (by intros ->). clear Ha.
  destruct (cstep_inv reason st w clock Hi) as (x & Ex & Hx). rewrite Ex. unfold cstep in Ex. rewrite Ew in Ex. cbv zeta in Ex.
  assert (∃ st', x = Some st' ∧ (cmeasure st' < cmeasure st)%nat ∧ ∃ b, cs_workers st' = <[w := b]> (cs_workers st)) as (st' & -> & Hm & b & Eb).
  { pose proof (λ b, sum_weight cweight _ w a b Ew) as Hsum. pose proof (weight_le cweight _ w a Ew).
    unfold cmeasure. destruct a; repeat (case_match || destruct (index _ _) || destruct (matchBitset _ _ _) || rewrite bind_Ok in Ex);
      try done; simplify_eq; eexists; (split; [done|]); cbn [cs_ch cs_workers]; (split; [|by eexists]);
      match goal with |- context [<[w := ?b]> _] => specialize (Hsum b) end; repeat match goal with E : cs_ch st = _ |- _ => rewrite E end; cbn [length cweight] in *; lia. }
  exists st'. split; [done|]. split; [split; [by apply Hx|by rewrite Eb, length_insert]|]. split; [done|].
  intros w' Hw'. by rewrite Eb, list_lookup_insert_ne.
Qed.
Lemma cdone_dead st : (∀ w, clive st w = false) → cdone st = true.
Proof.
  intros Hd. unfold cdone. apply forallb_forall. intros a (w & Ea)%list_elem_of_In%list_elem_of_lookup.
  specialize (Hd w). unfold clive in Hd. rewrite Ea in Hd. by destruct a.
Qed.
Lemma countParallel_ends workers sched reason :
  enough fst workers (length gts) sched → ∃ m r, countParallel workers sched q reason gts.*1 = Ok (Some (m, r)).
Proof.
  intros (rounds & -> & Hcov & Hlen). unfold countParallel. rewrite length_fmap, crun_grun.
  destruct (grun_rounds cstep' fst workers (λ st, cinv reason st ∧ length (cs_workers st) = workers) cmeasure clive) with (rounds := rounds)
    (st := CS (seq 0 (length gts)) (replicate workers (CIdle 0)) 0 reason) as (st & -> & _ & Hd); [by apply cstep_forward| | | |done| |].
  - intros st [w c] Hl. unfold cstep', clive, cstep in *. cbn [fst snd] in *. destruct (cs_workers st !! w) as [[]|]; done.
  - intros st w [_ Hl] Hv. unfold clive in Hv. destruct (cs_workers st !! w) as [a|] eqn:E; [|done]. split; [rewrite <- Hl; by eapply lookup_lt_Some|].
    unfold cmeasure. pose proof (weight_le cweight _ _ _ E). destruct a; cbn [cweight] in *; (done || lia).
  - split; [apply cinv_init|]. cbn [cs_workers]. by rewrite length_replicate.
  - unfold cmeasure. cbn [cs_ch cs_workers]. rewrite length_seq, weight_replicate by done. lia.
  - rewrite bind_Ok, cdone_dead by done. by eexists _, _.
Qed.
Lemma crun_silent sched : ∀ st st',
  Forall (λ x, x.2 = None) sched → (∀ r, exceeded q None 0 = r → r = None) → cs_reason st = None → crun gts.*1 q sched st = Ok st' → cs_reason st' = None.
Proof.
  induction sched as [|[w clock] sched IH]; intros st st' Hs Hq Hr; cbn [crun]; [by intros [= <-]|].
  apply Forall_cons_1 in Hs as [Hc Hs]. cbn [fst snd] in Hc. subst clock.
  destruct (cstep gts.*1 q w None st) as [x|] eqn:Ex; [|done]. rewrite bind_Ok. apply IH; [done|done|].
  destruct x as [st1|]; [|done]. cbn. unfold cstep in Ex. rewrite (Hq _ eq_refl) in Ex.
  destruct (cs_workers st !! w) as [a|]; [|done]. cbv zeta in Ex.
  destruct a; repeat (case_match || destruct (index _ _) || destruct (matchBitset _ _ _) || rewrite bind_Ok in Ex); try done; by simplify_eq.
Qed.

Lemma countParallel_spec workers sched reason :
  (0 < workers)%nat →
  ∃ x, countParallel workers sched q reason gts.*1 = Ok x ∧
    ∀ m r, x = Some (m, r) → r = None → reason = None ∧ m = len (matches q gts).
Proof.
  intros Hw. unfold countParallel. rewrite length_fmap.
  assert (∀ sched st, cinv reason st → ∃ st', crun gts.*1 q sched st = Ok st' ∧ cinv reason st' ∧ length (cs_workers st') = length (cs_workers st)) as Hrun.
  { intros sc. induction sc as [|[w clock] sc IH]; intros st Hi; cbn [crun]; [by exists st|].
    destruct (cstep_inv reason st w clock Hi) as (x & Ex & Hx). rewrite Ex, bind_Ok.
    destruct (IH (default st x)) as (st' & E' & Hi' & Hl'); [by destruct x; cbn; [apply Hx|]|]. exists st'. split_and!; [done|done|].
    rewrite Hl'. destruct x as [st1|]; [|done]. cbn. by eapply cstep_workers. }
  destruct (Hrun sched _ (cinv_init workers reason)) as (st & -> & [H1 H2 H3 H4 H5] & Hl). rewrite bind_Ok. eexists. split; [done|].
  intros m r. destruct (cdone st) eqn:Hd; [|done]. intros [= <- <-] Hn. split; [by apply H5|]. specialize (H1 Hn).
  cbn in Hl. rewrite length_replicate in Hl. unfold cdone in Hd. rewrite forallb_forall in Hd.
  assert (∀ a, a ∈ cs_workers st → a = CDone) as Hall by (intros a Ha%list_elem_of_In; specialize (Hd a Ha); by destruct a).
  rewrite H4 in H1 by (destruct (cs_workers st) as [|a ws]; [cbn in Hl; lia|rewrite <- (Hall a (list_elem_of_here _ _)); left]).
  replace (sum_of owed (cs_workers st)) with 0 in H1; [cbn in H1; lia|]. clear -Hall.
  induction (cs_workers st) as [|a ws IH]; [done|]. cbn [sum_of foldr]. rewrite (Hall a (list_elem_of_here _ _)).
  fold (sum_of owed ws). rewrite <- IH by (intros b Hb; apply Hall; by right). done.
Qed.
End count_fanout.

Lemma exceeded_nothing q : exceeded q None 0 = None.
Proof. unfold exceeded. rewrite !bool_decide_eq_false_2 by lia. done. Qed.
Lemma count_serial_silent o q gts : ∀ n total m r,
  (∀ k, o_clock o k = None) → count_serial o n q total None gts = Ok (m, r) → r = None.
Proof.
  induction gts as [|g gts IH]; intros n total m r Hc; cbn [count_serial]; [by intros [= _ <-]|]. rewrite Hc, exceeded_nothing.
  destruct (matchBitset _ _ _); [|done]. rewrite bind_Ok. by apply IH.
Qed.

Lemma Count_spec o workers sched gts q :
  Forall in_service gts → (0 < workers)%nat →
  ∃ x, Scan.Count o workers sched (Some gts.*1) q = Ok x ∧
    (enough fst workers (length gts) sched → x ≠ None) ∧
    (∀ m, x = Some (m, None) → m = len (matches q gts)) ∧
    ((∀ k, o_clock o k = None) → Forall (λ y, y.2 = None) sched → ∀ m r, x = Some (m, r) → r = None).
Proof.
  intros Hin Hw. unfold Scan.Count. destruct (snapshotOf_spec q gts Hin) as (kept0 & -> & Hin0 & Hl0%sublist_length & Hm0%same_hits_matches).
  destruct (prune_spec o q kept0 0 Hin0) as (kept & n & e & -> & Hk & Hl1%sublist_length & Hm' & He). rewrite bind_Ok. cbv beta iota.
  pose proof (λ E, same_hits_matches _ _ _ (Hm' E)) as Hm.
  case_bool_decide.
  - destruct (countParallel_spec q kept Hk workers sched e Hw) as (x & Ex & Hx). rewrite Ex. eexists. split; [done|]. split_and!.
    + intros Hen. destruct (countParallel_ends q kept Hk workers sched e) as (m & r & E'); [eapply enough_less; [|done]; lia|].
      rewrite E' in Ex. by injection Ex as <-.
    + intros m ->. destruct (Hx m None eq_refl eq_refl) as (-> & ->). by rewrite Hm, Hm0.
    + intros Hc Hs m r ->. unfold countParallel in Ex. destruct (crun kept.*1 q sched _) as [st|] eqn:Est; [|done].
      rewrite bind_Ok in Ex. destruct (cdone st); [|done]. injection Ex as <- <-.
      eapply crun_silent in Est; [done|done| |by apply He]. intros ? <-. apply exceeded_nothing.
  - destruct (count_serial_spec o q kept n 0 e Hk) as (m & r & E & Hr). rewrite E, bind_Ok. eexists. split; [done|]. split_and!; [done| |].
    + intros m' [= -> ->]. destruct (Hr eq_refl) as (-> & ->). rewrite Hm, Hm0 by done. lia.
    + intros Hc _ m' r' [= <- <-]. rewrite (He Hc) in E. by eapply count_serial_silent.
Qed.

(** [Count] never panics, with enough scheduling it returns, and when it was
    not stopped it returns the number of matching rows over all groups, under any
    interleaving of its workers; without cancellation it is never stopped. *)
Theorem Count_exact o workers sched gts q :
  Forall in_service gts → (0 < workers)%nat →
  ∃ x, Scan.Count o workers sched (Some gts.*1) q = Ok x ∧
    (enough fst workers (length gts) sched → x ≠ None) ∧
    (∀ m, x = Some (m, None) → m = len (matches q gts)) ∧
    ((∀ k, o_clock o k = None) → Forall (λ y, y.2 = None) sched → ∀ m r, x = Some (m, r) → r = None).
Proof. by eapply Count_spec. Qed.
End scan_ok.
