(* ===== verification/PagesOk.v ===== *)
(** * The orders a scan promises

    A walk of [ScanPage], page after page, returns every matching row once, in
    the order of the row keys; [runNewest] returns the rows with the greatest
    timestamps when the rows of each group are in time order and no older group
    reaches past its successor. *)

From S2P Require Import Prelude Digits GoLib Kernels Indices Timestamps DictSection DictLayout Postings Bloom Group Bitset Select.
From S2P Require Import Reader ReaderSafe ReaderOk Table Writer Filter FilterOk Engine EngineOk TimeFilter Scan ScanOk.
From stdpp Require Import list gmap sorting.
Local Open Scope Z_scope.

(** ** Stable sorting *)

Section sorting.
Context {A : Type} (less : A → A → bool).
Definition le_by (a b : A) : Prop := less b a = false.
Context (Hasym : ∀ a b, less a b = true → less b a = false) (Htrans : ∀ a b c, le_by a b → le_by b c → le_by a c).

Lemma insert_by_perm x l : insert_by less x l ≡ₚ x :: l.
Proof. induction l as [|y l IH]; [done|]. cbn. destruct (less y x); [|done]. rewrite IH. by constructor. Qed.
Lemma stable_sort_perm l : stable_sort less l ≡ₚ l.
Proof. induction l as [|x l IH]; [done|]. cbn. rewrite insert_by_perm. by constructor. Qed.

Lemma insert_by_sorted x l : StronglySorted le_by l → StronglySorted le_by (insert_by less x l).
Proof.
  induction 1 as [|y l Hs IH Hy]; cbn; [by repeat constructor|]. destruct (less y x) eqn:E.
  - constructor; [done|]. rewrite insert_by_perm. constructor; [by apply Hasym|done].
  - constructor; [by constructor|]. constructor; [done|]. eapply Forall_impl; [exact Hy|]. intros z Hz. by eapply Htrans.
Qed.
Lemma stable_sort_sorted l : StronglySorted le_by (stable_sort less l).
Proof. induction l; [constructor|]. by apply insert_by_sorted. Qed.

Lemma filter_insert_by (P : A → bool) x l :
  StronglySorted le_by l →
  List.filter P (insert_by less x l) = if P x then insert_by less x (List.filter P l) else List.filter P l.
Proof.
  induction 1 as [|y l Hs IH Hy]; [done|]. cbn [insert_by]. destruct (less y x) eqn:E.
  - cbn [List.filter]. rewrite IH. destruct (P y), (P x); try done. cbn [insert_by]. by rewrite E.
  - cbn [List.filter]. destruct (P x); [|done].
    assert (∀ m, Forall (λ z, less z x = false) m → insert_by less x m = x :: m) as Hfront.
    { intros [|z m]; [done|]. intros [Hz _]%Forall_cons_1. cbn. by rewrite Hz. }
    rewrite Hfront; [done|].
    assert (Forall (λ z, less z x = false) (y :: l)) as Hall.
    { constructor; [done|]. eapply Forall_impl; [exact Hy|]. intros z Hz. by apply (Htrans x y z). }
    rewrite Forall_forall in *. intros z Hz%list_elem_of_In. change (In z (List.filter P (y :: l))) in Hz. apply List.filter_In in Hz as [Hz _].
    by apply Hall, list_elem_of_In.
Qed.
Lemma filter_stable_sort (P : A → bool) l : List.filter P (stable_sort less l) = stable_sort less (List.filter P l).
Proof.
  induction l as [|x l IH]; [done|]. cbn [stable_sort foldr]. fold (stable_sort less l).
  rewrite filter_insert_by by apply stable_sort_sorted. rewrite IH. cbn [List.filter]. by destruct (P x).
Qed.

(** Past an element of a sorted list: what follows it. *)
Lemma filter_past pre a post :
  StronglySorted le_by (pre ++ a :: post) → Forall (λ c, less a c = true ∨ less c a = true) post →
  List.filter (less a) (pre ++ a :: post) = post.
Proof.
  intros Hs Hd. rewrite List.filter_app. cbn [List.filter].
  assert (less a a = false) as -> by (destruct (less a a) eqn:E; [by rewrite <- E, (Hasym a a E)|done]).
  assert (∀ m, Forall (λ c, less a c = false) m → List.filter (less a) m = []) as Hnone.
  { induction 1 as [|c m Hc _ IH]; [done|]. cbn. by rewrite Hc. }
  rewrite Hnone.
  - clear Hnone. apply StronglySorted_app_1_r in Hs as Hs2. apply StronglySorted_inv in Hs2 as [_ Hf]. clear Hs.
    induction post as [|c post IH]; [done|]. apply Forall_cons_1 in Hf as [Hc Hf]. apply Forall_cons_1 in Hd as [Hd1 Hd]. cbn.
    destruct Hd1 as [->|E]; [|unfold le_by in Hc; congruence]. cbn. f_equal. by apply IH.
  - rewrite Forall_forall. intros c Hc. apply (StronglySorted_app_1_elem_of le_by pre (a :: post) c a Hs Hc). left.
Qed.
End sorting.

(** ** Row keys *)

Lemma Before_spec a b :
  Before a b = true ↔
  k_Time a < k_Time b ∨ k_Time a = k_Time b ∧ (k_Group a < k_Group b ∨ k_Group a = k_Group b ∧ k_Row a < k_Row b).
Proof.
  unfold Before. destruct (decide (k_Time a = k_Time b)) as [E|E]; [rewrite (bool_decide_eq_true_2 _ E)|rewrite (bool_decide_eq_false_2 _ E)]; cbn [negb].
  - destruct (decide (k_Group a = k_Group b)) as [E2|E2]; [rewrite (bool_decide_eq_true_2 _ E2)|rewrite (bool_decide_eq_false_2 _ E2)]; cbn [negb];
      rewrite bool_decide_eq_true; lia.
  - rewrite bool_decide_eq_true. lia.
Qed.
Lemma Before_false a b : Before a b = false ↔ ¬ Before a b = true.
Proof. destruct (Before a b); split; (done || congruence). Qed.
Lemma Before_asym a b : Before a b = true → Before b a = false.
Proof. rewrite Before_false, !Before_spec. lia. Qed.
Lemma Before_trans a b c : Before b a = false → Before c b = false → Before c a = false.
Proof. rewrite !Before_false, !Before_spec. lia. Qed.
Lemma Before_total a b : a ≠ b → Before a b = true ∨ Before b a = true.
Proof. rewrite !Before_spec. intros Hne. destruct a as [t1 g1 r1], b as [t2 g2 r2]; cbn.
  destruct (decide (t1 = t2)), (decide (g1 = g2)), (decide (r1 = r2)); subst; (done || lia). Qed.

Lemma page_less_asym dir a b : page_less dir a b = true → page_less dir b a = false.
Proof. destruct dir; apply Before_asym. Qed.
Lemma page_less_trans dir a b c : le_by (page_less dir) a b → le_by (page_less dir) b c → le_by (page_less dir) a c.
Proof. unfold le_by. destruct dir; cbn; intros H1 H2; [by apply (Before_trans _ _ _ H1)|by apply (Before_trans _ _ _ H2)]. Qed.

Section pages.
Context {T : GoText} {R : MapRange} {K : Simd} {KL : SimdLaws K} {F : Flate} {FL : FlateLaws F}.
Context {B : BitOps} {BL : BitOpsLaws B} {M : MaskOps} {ML : MaskOpsLaws M}.

(** The matching rows of a group, of several, with their keys. *)
Definition keyed_row (q : Query) (x : leased * table) (i : Z) : Row * RowKey :=
  (mat_row x.2 (query_fields (t_cols x.2).*1 q) (Z.to_nat i), MkKey (time_at x.2 (Z.to_nat i)) (l_id x.1) i).
Definition keyed_group (q : Query) (x : leased * table) : list (Row * RowKey) := keyed_row q x <$> query_rows x.2 q.
Definition keyed (q : Query) (gts : list (leased * table)) : list (Row * RowKey) := concat (keyed_group q <$> gts).

Lemma key_rows_spec dir after q x idx rows : ∀ i,
  (∀ j r, rows !! j = Some r → idx !! (i + j)%nat = Some r) →
  key_rows dir after (l_id x.1) idx i (mat_rows x.2 (query_fields (t_cols x.2).*1 q) rows)
  = List.filter (λ y, past_cursor dir after y.2) (keyed_row q x <$> rows).
Proof.
  induction rows as [|r rows IH]; intros i Hi; [done|]. unfold mat_rows. rewrite !fmap_cons. cbn [key_rows List.filter].
  pose proof (Hi 0%nat r eq_refl) as H0. rewrite Nat.add_0_r in H0. rewrite H0. cbn [default from_option id].
  fold (mat_rows x.2 (query_fields (t_cols x.2).*1 q) rows). rewrite IH.
  - done.
  - intros j y Hj. specialize (Hi (S j) y Hj). by rewrite Nat.add_succ_r in Hi.
Qed.

Lemma page_scan_spec o q dir after gts : ∀ n found,
  Forall in_service gts → (∀ k, o_clock o k = None) → q_LastN q ≤ 0 → q_Limit q ≤ 0 → q_MaxRows q ≤ 0 →
  Forall (λ x, t_rows x.2 ≤ 2 ^ 32) gts →
  page_scan o n q dir after found gts.*1 = Ok (inr (found ++ List.filter (λ y, past_cursor dir after y.2) (keyed q gts))).
Proof.
  induction gts as [|x gts IH]; intros n found Hin Hc HL Hlim Hmax Hsm; cbn [page_scan]; [by rewrite app_nil_r|].
  apply Forall_cons_1 in Hin as [Hx Hin]. apply Forall_cons_1 in Hsm as [Hs1 Hsm]. rewrite fmap_cons. cbn [page_scan].
  assert (exceeded q (o_clock o n) 0 = None) as ->.
  { unfold exceeded. rewrite Hc. by rewrite !bool_decide_eq_false_2 by lia. }
  pose proof Hx as [Hs (np & ts & Hv)]. destruct (groupCanMatch_spec np _ _ ts Hv q) as (c & -> & Hcm). rewrite bind_Ok.
  assert (keyed q (x :: gts) = keyed_group q x ++ keyed q gts) as -> by done. rewrite List.filter_app.
  destruct c.
  - destruct (appendMatches_spec np _ _ ts Hv (o_pool o n) [] (l_caches x.1) q Hs) as (s' & -> & Hs'). rewrite bind_Ok. cbn [fst snd app].
    unfold matchedRowIndices. destruct (matchBitset_spec np _ _ ts Hv s' q Hs') as (b & s2 & -> & _ & Hb). rewrite !bind_Ok. cbn [fst].
    rewrite (selects_ForEach _ _ _ Hb). fold (query_rows x.2 q).
    assert (bounded_rows q (len (@nil Row)) (query_rows x.2 q) = query_rows x.2 q) as ->.
    { unfold bounded_rows. by rewrite !bool_decide_eq_false_2 by lia. }
    rewrite key_rows_spec.
    2:{ intros j r Hj. cbn. rewrite list_lookup_fmap, Hj. cbn. f_equal. apply u32_small.
        assert (r ∈ query_rows x.2 q) as Hr by (by eapply list_elem_of_lookup_2). apply elem_matching in Hr as [Hr _]. unfold is_digit. lia. }
    rewrite bool_decide_eq_false_2 by lia. rewrite IH by done. by rewrite app_assoc.
  - rewrite IH by done. unfold keyed_group at 1. by rewrite Hcm.
Qed.

Lemma Before_group_keys q x : NoDup (keyed_group q x).*2.
Proof.
  unfold keyed_group. rewrite <- list_fmap_compose. apply NoDup_fmap_2_strong.
  - intros i j Hi Hj E. by injection E.
  - apply NoDup_filter, NoDup_seqZ.
Qed.
Lemma keyed_NoDup q gts : NoDup (l_id ∘ fst <$> gts) → NoDup (keyed q gts).*2.
Proof.
  induction gts as [|x gts IH]; [constructor|]. rewrite fmap_cons. intros [Hx Hnd]%NoDup_cons.
  assert (keyed q (x :: gts) = keyed_group q x ++ keyed q gts) as -> by done. rewrite fmap_app. apply NoDup_app. split_and!; [apply Before_group_keys| |by apply IH].
  intros k Hk Hk2. apply Hx. apply list_elem_of_fmap in Hk as ([r k1] & -> & Hk). apply list_elem_of_fmap in Hk as (i & [= -> ->] & _).
  apply list_elem_of_fmap in Hk2 as ([r2 k2] & E & Hk2). apply elem_of_concat in Hk2 as (l & (y & -> & Hy)%list_elem_of_fmap & Hl).
  apply list_elem_of_fmap in Hl as (j & [= -> ->] & _). cbn in E. injection E as _ E _. apply list_elem_of_fmap. exists y. split; [by cbn|done].
Qed.

(** A caller that pages until [More] is false. *)
Fixpoint page_walk (o : Outside) (now : Z) (s : option (list leased)) (q : Query) (dir : Direction) (limit : Z) (fuel : nat)
    (after : option RowKey) : outcome (option (list Row)) :=
  match fuel with
  | O => Ok None
  | S fuel' =>
      x ← ScanPage o now s q after dir limit;
      match x with
      | inl _ => Ok None
      | inr p =>
          if pg_More p then
            r ← page_walk o now s q dir limit fuel' (Some (pg_Next p));
            Ok (option_map (app (pg_Rows p)) r)
          else Ok (Some (pg_Rows p))
      end
  end.

Section walk.
Context (o : Outside) (now : Z) (gts : list (leased * table)) (q : Query) (dir : Direction) (limit : Z).
Context (Hin : Forall in_service gts) (Hc : ∀ k, o_clock o k = None) (Hst : Streamable q = true) (Hlim : q_Limit q ≤ 0) (Hl : 0 < limit).
Context (Hsm : Forall (λ x, t_rows x.2 ≤ 2 ^ 32) gts) (Hids : NoDup (l_id ∘ fst <$> gts)).

(** The rows of the walk: all that match, by key. *)
Definition in_key_order : list (Row * RowKey) := stable_sort (page_less dir) (keyed (resolveTimePreds q now) gts).

Lemma ScanPage_spec after :
  let rest := List.filter (λ y, past_cursor dir after y.2) in_key_order in
  ScanPage o now (Some gts.*1) q after dir limit =
  Ok (inr (MkPage (take (Z.to_nat limit) rest.*1) (take (Z.to_nat limit) rest.*2)
    (if bool_decide (limit < len rest) then default (MkKey 0 0 0) (last (take (Z.to_nat limit) rest.*2)) else MkKey 0 0 0)
    (bool_decide (limit < len rest)))).
Proof.
  cbv zeta. unfold ScanPage. rewrite bool_decide_eq_false_2 by lia. rewrite Hst. cbn [negb]. apply bool_decide_eq_true in Hst as [HLN HMR].
  set (q' := resolveTimePreds q now).
  destruct (snapshotOf_spec q' gts Hin) as (kept & -> & Hk & Hsub & Hh).
  assert (Forall (λ x, t_rows x.2 ≤ 2 ^ 32) kept) as Hsmk.
  { rewrite Forall_forall in *. intros x Hx. apply Hsm. by eapply elem_of_sublist. }
  rewrite (page_scan_spec o q' dir after kept 0 [] Hk Hc) by (try done; try (cbn; lia)). rewrite bind_Ok. cbn [app].
  assert (keyed q' kept = keyed q' gts) as -> by (apply Hh; intros x Hx; unfold keyed_group; by rewrite Hx).
  rewrite <- (filter_stable_sort (page_less dir) (page_less_asym dir) (page_less_trans dir)). fold q' in_key_order.
  fold (in_key_order). change (stable_sort (page_less dir) (keyed q' gts)) with in_key_order.
  set (rest := List.filter _ in_key_order). case_bool_decide as Hm.
  - rewrite !fmap_take. done.
  - rewrite !take_ge by (rewrite length_fmap; unfold len in *; lia). done.
Qed.

Lemma walk_from fuel : ∀ pre rest after,
  in_key_order = pre ++ rest → List.filter (λ y, past_cursor dir after y.2) in_key_order = rest → (length rest < fuel)%nat →
  page_walk o now (Some gts.*1) q dir limit fuel after = Ok (Some rest.*1).
Proof.
  induction fuel as [|fuel IH]; intros pre rest after Hsplit Hrest Hf; [lia|]. cbn [page_walk].
  rewrite ScanPage_spec, bind_Ok. cbv zeta. rewrite Hrest. cbn [pg_More pg_Rows pg_Next]. case_bool_decide as Hm.
  2:{ rewrite take_ge; [done|]. rewrite length_fmap. unfold len in *. lia. }
  set (k := Z.to_nat limit). assert (0 < k < length rest)%nat as Hk by (subst k; unfold len in *; lia).
  destruct (last (take k rest)) as [a|] eqn:Ea.
  2:{ apply last_None in Ea. apply (f_equal length) in Ea. rewrite length_take in Ea. cbn in Ea. lia. }
  rewrite <- (fmap_take snd), fmap_last, Ea. cbn [fmap option_fmap option_map default from_option id].
  apply last_Some in Ea as [d Ed].
  assert (in_key_order = (pre ++ d) ++ a :: drop k rest) as Hs2.
  { rewrite Hsplit, <- app_assoc. f_equal. rewrite <- (take_drop k rest) at 1. by rewrite Ed, <- app_assoc. }
  rewrite (IH ((pre ++ d) ++ [a]) (drop k rest)).
  - rewrite bind_Ok. cbn. do 2 f_equal. rewrite <- fmap_take, <- fmap_app. by rewrite take_drop.
  - rewrite Hs2. by rewrite <- !app_assoc.
  - assert (StronglySorted (le_by (page_less dir)) in_key_order) as Hsorted.
    { apply stable_sort_sorted; [apply page_less_asym|apply page_less_trans]. }
    assert (NoDup in_key_order.*2) as Hnd.
    { unfold in_key_order. rewrite stable_sort_perm. by apply keyed_NoDup. }
    assert (Forall (λ c, page_less dir a c = true ∨ page_less dir c a = true) (drop k rest)) as Htot.
    { rewrite Hs2, fmap_app, fmap_cons in Hnd. apply NoDup_app in Hnd as (_ & _ & [Hna _]%NoDup_cons). rewrite Forall_forall. intros c Hc'.
      assert (a.2 ≠ c.2) as Hne. { intros E. apply Hna. rewrite E. by apply list_elem_of_fmap_2. }
      destruct dir; cbn; destruct (Before_total _ _ Hne); auto. }
    rewrite Hs2 in Hsorted. rewrite Hs2.
    rewrite <- (filter_past (page_less dir) (page_less_asym dir) (pre ++ d) a (drop k rest) Hsorted Htot) at 2.
    apply List.filter_ext. intros c. by destruct dir.
  - rewrite length_drop. lia.
Qed.

Lemma page_walk_spec fuel :
  (length (keyed (resolveTimePreds q now) gts) < fuel)%nat →
  page_walk o now (Some gts.*1) q dir limit fuel None = Ok (Some in_key_order.*1).
Proof.
  intros Hf. apply (walk_from fuel [] in_key_order None); [done| |].
  - apply List.forallb_filter_id, forallb_forall. done.
  - unfold in_key_order. by rewrite stable_sort_perm.
Qed.

(** C5: walking a query page by page with the cursor each page returns visits
    every matching row exactly once, in the order of the keys and the direction
    asked, and ends. *)
Theorem page_walk_complete fuel :
  (length (keyed (resolveTimePreds q now) gts) < fuel)%nat →
  page_walk o now (Some gts.*1) q dir limit fuel None = Ok (Some in_key_order.*1).
Proof. by eapply page_walk_spec. Qed.
End walk.
End pages.
