(* ===== verification/KeySort.v ===== *)
(** * Sorting by a key

    Lemmas on [stable_sort] the pipes and the merge of a cluster share: sorting by
    an integer key commutes with what keeps the keys, a bound in front of a merge
    of sorted lists is not felt behind it, and a sort by a total order depends on
    the elements alone. *)

From S2P Require Import Prelude Digits GoLib Scan PagesOk.
From stdpp Require Import list sorting.
Local Open Scope Z_scope.

(** ** Definitions *)

Definition key_less {A} (key : A → Z) (a b : A) : bool := bool_decide (key a < key b).
Definition below {A} (key : A → Z) (k : Z) (a : A) : bool := bool_decide (key a < k).

(** ** Lemmas *)

Lemma insert_at {A} (less : A → A → bool) x a b :
  Forall (λ y, less y x = true) a → Forall (λ y, less y x = false) b → insert_by less x (a ++ b) = a ++ x :: b.
Proof.
  induction 1 as [|y a Hy _ IH]; intros Hb; cbn.
  - destruct Hb as [|y b Hy _]; [done|]. cbn. by rewrite Hy.
  - by rewrite Hy, IH.
Qed.
Lemma insert_ext {A} (less less' : A → A → bool) x l :
  Forall (λ y, less y x = less' y x) l → insert_by less x l = insert_by less' x l.
Proof. induction 1 as [|y l Hy _ IH]; [done|]. cbn. by rewrite Hy, IH. Qed.

Section by_key.
Context {A : Type} (key : A → Z).

Lemma key_asym a b : key_less key a b = true → key_less key b a = false.
Proof. unfold key_less. rewrite bool_decide_eq_true, bool_decide_eq_false. lia. Qed.
Lemma key_trans a b c : le_by (key_less key) a b → le_by (key_less key) b c → le_by (key_less key) a c.
Proof. unfold le_by, key_less. rewrite !bool_decide_eq_false. lia. Qed.
Lemma key_sorted l : StronglySorted (le_by (key_less key)) (stable_sort (key_less key) l).
Proof. apply stable_sort_sorted; [apply key_asym|apply key_trans]. Qed.

(** A sorted list falls into the keys below a bound and the others. *)
Lemma sorted_partition k l :
  StronglySorted (le_by (key_less key)) l → l = List.filter (below key k) l ++ List.filter (λ y, negb (below key k y)) l.
Proof.
  induction 1 as [|y l Hs IH Hy]; [done|]. cbn [List.filter]. destruct (below key k y) eqn:E; cbn [negb app].
  - f_equal. exact IH.
  - apply bool_decide_eq_false in E.
    assert (List.filter (below key k) l = [] ∧ List.filter (λ z, negb (below key k z)) l = l) as [-> ->]; [|done].
    clear IH Hs. induction Hy as [|z l Hz _ [IH1 IH2]]; [done|]. cbn [List.filter].
    assert (below key k z = false) as ->.
    { unfold le_by, key_less in Hz. rewrite bool_decide_eq_false in Hz. apply bool_decide_eq_false. lia. }
    cbn [negb]. split; [done|by f_equal].
Qed.
Lemma filter_Forall (P : A → bool) l : Forall (λ y, P y = true) (List.filter P l).
Proof. induction l as [|y l IH]; [constructor|]. cbn. destruct (P y) eqn:E; [by constructor|done]. Qed.
(** Inserting elements of one key puts them between the two. *)
Lemma insert_all k ys l :
  StronglySorted (le_by (key_less key)) l → Forall (λ y, key y = k) ys →
  foldr (insert_by (key_less key)) l ys = List.filter (below key k) l ++ ys ++ List.filter (λ y, negb (below key k y)) l.
Proof.
  intros Hs. induction 1 as [|y ys Hy Hys IH]; cbn [foldr app]; [by apply sorted_partition|]. rewrite IH. apply insert_at.
  - eapply Forall_impl; [apply filter_Forall|]. intros z. unfold below, key_less. by rewrite Hy.
  - apply Forall_app. split.
    + eapply Forall_impl; [exact Hys|]. intros z Hz. cbv beta in Hz |- *. apply bool_decide_eq_false. lia.
    + eapply Forall_impl; [apply filter_Forall|]. intros z. unfold below, key_less. rewrite Hy. by destruct (bool_decide _).
Qed.
End by_key.

Lemma filter_concat_fmap {A B} (f : A → list B) (P : B → bool) (Q : A → bool) l :
  Forall (λ x, Forall (λ y, P y = Q x) (f x)) l → List.filter P (concat (f <$> l)) = concat (f <$> List.filter Q l).
Proof.
  induction 1 as [|x l Hx _ IH]; [done|]. rewrite fmap_cons. cbn [concat List.filter]. rewrite List.filter_app, IH.
  assert (List.filter P (f x) = if Q x then f x else []) as ->.
  { induction Hx as [|y ys Hy _ IHy]; [by destruct (Q x)|]. cbn [List.filter]. rewrite Hy, IHy. by destruct (Q x). }
  by destruct (Q x).
Qed.

(** Expanding each element into ones of its key commutes with the sort. *)
Lemma sort_expand {A B} (keyA : A → Z) (keyB : B → Z) (f : A → list B) l :
  Forall (λ x, Forall (λ y, keyB y = keyA x) (f x)) l →
  stable_sort (key_less keyB) (concat (f <$> l)) = concat (f <$> stable_sort (key_less keyA) l).
Proof.
  induction 1 as [|x l Hx Hl IH]; [done|]. rewrite fmap_cons. cbn [concat]. unfold stable_sort. rewrite foldr_app. cbn [foldr].
  fold (stable_sort (key_less keyB) (concat (f <$> l))). fold (stable_sort (key_less keyA) l).
  rewrite (insert_all keyB (keyA x)) by (apply key_sorted || done). rewrite IH.
  pose proof (insert_all keyA (keyA x) [x] _ (key_sorted keyA l)) as Hi. cbn [foldr] in Hi. rewrite Hi by (repeat constructor).
  rewrite !fmap_app, !concat_app. cbn [fmap list_fmap concat app]. rewrite app_nil_r.
  rewrite <- (stable_sort_perm (key_less keyA)) in Hl.
  f_equal; [|f_equal]; apply filter_concat_fmap; (eapply Forall_impl; [exact Hl|]); intros y Hy; cbv beta in Hy;
    (eapply Forall_impl; [exact Hy|]); intros z Hz; cbv beta in Hz; unfold below; by rewrite Hz.
Qed.

(** A sort by a total order gives the same list for every order of its input. *)
Lemma sort_unique {A} (less : A → A → bool) l1 l2 :
  (∀ a b, less a b = true → less b a = false) → (∀ a b c, le_by less a b → le_by less b c → le_by less a c) →
  l1 ≡ₚ l2 → (∀ a b, a ∈ l1 → b ∈ l1 → le_by less a b → le_by less b a → a = b) →
  stable_sort less l1 = stable_sort less l2.
Proof.
  intros Has Htr Hp Hanti.
  assert (∀ a, a ∈ stable_sort less l1 → a ∈ l1) as Hin by (intros a; by rewrite stable_sort_perm).
  assert (∀ a, le_by less a a) as Hrefl.
  { intros a. unfold le_by. destruct (less a a) eqn:E; [|done]. rewrite <- E. by apply Has. }
  assert (stable_sort less l1 ≡ₚ stable_sort less l2) as Hq by (rewrite !stable_sort_perm; done).
  pose proof (stable_sort_sorted less Has Htr l1) as S1. pose proof (stable_sort_sorted less Has Htr l2) as S2.
  revert S1 S2 Hq Hin. generalize (stable_sort less l1) (stable_sort less l2). intros s1 s2 S1. revert s2.
  induction S1 as [|x s1 Hs IH Hx]; intros s2 S2 Hq Hin; [by apply Permutation_nil in Hq|].
  destruct S2 as [|y s2 Hs2 Hy]; [by apply Permutation_nil_r in Hq|].
  assert (x = y) as ->.
  { apply Hanti; [apply Hin, elem_of_cons; by left|apply Hin; rewrite Hq; apply elem_of_cons; by left| |].
    - assert (y ∈ x :: s1) as [->|Hyi]%elem_of_cons by (rewrite Hq; apply elem_of_cons; by left).
      + apply Hrefl.
      + rewrite Forall_forall in Hx. by apply Hx.
    - assert (x ∈ y :: s2) as [->|Hxi]%elem_of_cons by (rewrite <- Hq; apply elem_of_cons; by left).
      + apply Hrefl.
      + rewrite Forall_forall in Hy. by apply Hy. }
  f_equal. apply IH; [done|by apply Permutation_cons_inv in Hq|]. intros a Ha. apply Hin, elem_of_cons. by right.
Qed.

(** Dropping elements that have [n] kept ones in front of them. *)
Lemma take_filter {A} (P : A → bool) (l : list A) : ∀ n,
  (∀ i x, l !! i = Some x → P x = false → (n ≤ length (List.filter P (take i l)))%nat) → take n (List.filter P l) = take n l.
Proof.
  induction l as [|x l IH]; intros n H; [done|]. destruct n as [|n]; [done|]. cbn [List.filter].
  destruct (P x) eqn:E.
  - cbn [take]. f_equal. apply IH. intros i y Hi Hy. specialize (H (S i) y Hi Hy). cbn [take List.filter] in H. rewrite E in H. cbn in H. lia.
  - specialize (H 0%nat x eq_refl E). cbn in H. lia.
Qed.
