(* ===== verification/NewestOk.v ===== *)
(** * The newest rows

    [runNewest] returns the matching rows with the greatest timestamps, newest
    first, when the rows of each group are in time order and no group reaches
    past a newer one; each row it returns is a matching row, each at most once. *)

From S2P Require Import Prelude Digits GoLib Kernels Indices Timestamps DictSection DictLayout Postings Bloom Group Bitset Select.
From S2P Require Import Reader ReaderSafe ReaderOk Table Writer Filter FilterOk Engine EngineOk TimeFilter Scan ScanOk PagesOk.
From stdpp Require Import list gmap sorting.
Local Open Scope Z_scope.

(** ** The greatest of a list *)

Definition gtb (a b : Z) : bool := bool_decide (b < a).
Definition sort_desc (l : list Z) : list Z := stable_sort gtb l.
(** The [n] greatest, descending. *)
Definition top (n : nat) (l : list Z) : list Z := take n (sort_desc l).

Lemma gtb_false a b : gtb a b = false ↔ a ≤ b.
Proof. unfold gtb. rewrite bool_decide_eq_false. lia. Qed.
Lemma sort_desc_sorted l : StronglySorted (λ a b, b ≤ a) (sort_desc l).
Proof.
  assert (StronglySorted (le_by gtb) (sort_desc l)) as H.
  { apply stable_sort_sorted; unfold le_by; intros *; rewrite ?gtb_false; unfold gtb; rewrite ?bool_decide_eq_true; lia. }
  induction H as [|x l' _ IH Hf]; constructor; [done|]. eapply Forall_impl; [exact Hf|]. intros y. unfold le_by. by rewrite gtb_false.
Qed.
#[local] Instance ge_antisymm : AntiSymm (=) (λ a b : Z, b ≤ a).
Proof. intros a b ? ?. lia. Qed.
Lemma sort_desc_perm l1 l2 : l1 ≡ₚ l2 → sort_desc l1 = sort_desc l2.
Proof.
  intros Hp. apply (StronglySorted_unique (λ a b, b ≤ a)).
  - apply sort_desc_sorted.
  - apply sort_desc_sorted.
  - unfold sort_desc. by rewrite !stable_sort_perm.
Qed.
Lemma sort_desc_id l : StronglySorted (λ a b, b ≤ a) l → sort_desc l = l.
Proof.
  intros Hs. apply (StronglySorted_unique (λ a b, b ≤ a)); [apply sort_desc_sorted|done|]. apply stable_sort_perm.
Qed.
Lemma top_perm n l1 l2 : l1 ≡ₚ l2 → top n l1 = top n l2.
Proof. intros Hp. unfold top. by rewrite (sort_desc_perm _ _ Hp). Qed.

Lemma take_same n (x : Z) l : Forall (λ y, y = x) (take n l) → (n ≤ length l)%nat → take n (x :: l) = take n l.
Proof.
  revert l. induction n as [|n IH]; intros l Hf Hl; [done|]. destruct l as [|y l]; cbn in *; [lia|].
  apply Forall_cons_1 in Hf as [-> Hf]. f_equal. apply IH; [done|lia].
Qed.

Lemma insert_beyond x l : ∀ n,
  StronglySorted (λ a b, b ≤ a) l → Forall (λ y, x ≤ y) (take n l) → (n ≤ length l)%nat → take n (insert_by gtb x l) = take n l.
Proof.
  induction l as [|y l IH]; intros n Hs Hf Hl; cbn [insert_by].
  { cbn in Hl. by replace n with 0%nat by lia. }
  destruct n as [|n]; [done|]. cbn in Hf, Hl. apply Forall_cons_1 in Hf as [Hy Hf]. apply StronglySorted_inv in Hs as [Hs Hys].
  unfold gtb at 1. case_bool_decide.
  - cbn. f_equal. apply IH; [done|done|lia].
  - assert (y = x) as -> by lia. cbn. f_equal. apply take_same; [|lia]. rewrite Forall_forall in *. intros z Hz.
    specialize (Hf z Hz). apply elem_of_take in Hz as (i & Ei & _). specialize (Hys z ltac:(by eapply list_elem_of_lookup_2)). lia.
Qed.

(** How many elements are at least [x]. *)
Definition at_least (x : Z) (l : list Z) : nat := length (filter (λ y, x ≤ y) l).
Lemma at_least_perm x l1 l2 : l1 ≡ₚ l2 → at_least x l1 = at_least x l2.
Proof. intros Hp. unfold at_least. by rewrite Hp. Qed.
Lemma at_least_app x l1 l2 : at_least x (l1 ++ l2) = (at_least x l1 + at_least x l2)%nat.
Proof. unfold at_least. by rewrite filter_app, length_app. Qed.
Lemma at_least_all x l : Forall (λ y, x ≤ y) l → at_least x l = length l.
Proof. induction 1 as [|y l Hy _ IH]; [done|]. unfold at_least in *. rewrite filter_cons_True by done. cbn. by rewrite IH. Qed.

Lemma sorted_first n x l :
  StronglySorted (λ a b, b ≤ a) l → (n ≤ at_least x l)%nat → Forall (λ y, x ≤ y) (take n l) ∧ (n ≤ length l)%nat.
Proof.
  revert n. induction l as [|y l IH]; intros n Hs Hn; [cbn in Hn; by replace n with 0%nat by lia|].
  apply StronglySorted_inv in Hs as [Hs Hys]. destruct n as [|n]; [split; [constructor|lia]|].
  destruct (decide (x ≤ y)) as [Hy|Hy].
  - unfold at_least in Hn. rewrite filter_cons_True in Hn by done. cbn in Hn. destruct (IH n Hs) as [H1 H2]; [unfold at_least; lia|].
    cbn. split; [by constructor|lia].
  - unfold at_least in Hn. rewrite filter_cons_False in Hn by done. exfalso.
    assert (filter (λ z, x ≤ z) l = []) as E; [|rewrite E in Hn; cbn in Hn; lia].
    apply elem_of_nil_inv. intros z [Hz Hin]%list_elem_of_filter. rewrite Forall_forall in Hys. specialize (Hys z Hin). lia.
Qed.

Lemma top_cons n x l : (n ≤ at_least x l)%nat → top n (x :: l) = top n l.
Proof.
  intros Hn. unfold top, sort_desc. cbn [stable_sort foldr]. fold (stable_sort gtb l).
  destruct (sorted_first n x (sort_desc l)) as [H1 H2].
  - apply sort_desc_sorted.
  - unfold sort_desc. by rewrite (at_least_perm x _ l (stable_sort_perm _ _)).
  - apply insert_beyond; [apply sort_desc_sorted|done|done].
Qed.
Lemma top_beyond n b l : (∀ x, x ∈ b → (n ≤ at_least x l)%nat) → top n (b ++ l) = top n l.
Proof.
  induction b as [|x b IH]; intros Hb; [done|]. cbn [app]. rewrite top_cons; [apply IH; intros; apply Hb; by right|].
  rewrite at_least_app. pose proof (Hb x (list_elem_of_here _ _)). lia.
Qed.

(** Cutting to the greatest [n] before adding more changes nothing. *)
Lemma top_top_app n l1 l2 : top n (top n l1 ++ l2) = top n (l1 ++ l2).
Proof.
  assert (l1 ++ l2 ≡ₚ drop n (sort_desc l1) ++ (top n l1 ++ l2)) as Hp.
  { unfold top. rewrite app_assoc. f_equiv. rewrite (Permutation_app_comm (drop _ _)), take_drop. symmetry. apply stable_sort_perm. }
  rewrite (top_perm n _ _ Hp). symmetry. apply top_beyond. intros x Hx. rewrite at_least_app.
  assert (length (top n l1) = n) as Hlen.
  { unfold top. rewrite length_take. apply list_elem_of_lookup in Hx as [i Hi]. rewrite lookup_drop in Hi. apply lookup_lt_Some in Hi. lia. }
  rewrite at_least_all; [lia|]. rewrite Forall_forall. intros y Hy. pose proof (sort_desc_sorted l1) as Hs.
  rewrite <- (take_drop n (sort_desc l1)) in Hs. by apply (StronglySorted_app_1_elem_of _ _ _ y x Hs).
Qed.

(** Of an ascending list only the last [n] count. *)
Lemma top_suffix n l1 l2 :
  StronglySorted Z.le l2 → top n (l1 ++ drop (length l2 - n) l2) = top n (l1 ++ l2).
Proof.
  intros Hs. set (k := (length l2 - n)%nat).
  assert (l1 ++ l2 ≡ₚ take k l2 ++ (l1 ++ drop k l2)) as Hp.
  { rewrite <- (take_drop k l2) at 1. rewrite !app_assoc. f_equiv. apply Permutation_app_comm. }
  rewrite (top_perm n _ _ Hp). symmetry. apply top_beyond. intros x Hx. rewrite at_least_app.
  rewrite (at_least_all x (drop k l2)).
  - rewrite length_drop. apply elem_of_take in Hx as (i & _ & Hi). lia.
  - rewrite Forall_forall. intros y Hy. rewrite <- (take_drop k l2) in Hs. by apply (StronglySorted_app_1_elem_of _ _ _ x y Hs).
Qed.

Lemma top_small n l1 l2 : length l1 = n → (∀ x y, x ∈ l2 → y ∈ l1 → x ≤ y) → top n (l1 ++ l2) = top n l1.
Proof.
  intros Hl H. rewrite (top_perm n (l1 ++ l2) (l2 ++ l1)) by apply Permutation_app_comm. apply top_beyond. intros x Hx.
  rewrite at_least_all; [lia|]. rewrite Forall_forall. intros y Hy. by apply H.
Qed.

(** ** Rows by time *)

Local Abbreviation times rows := (row_Time <$> rows).
Lemma times_sort rows : times (sortByTimeDesc rows) = sort_desc (times rows).
Proof.
  unfold sortByTimeDesc, sort_desc. induction rows as [|r rows IH]; [done|]. rewrite fmap_cons. cbn [stable_sort foldr].
  fold (stable_sort gtb (times rows)). rewrite <- IH. fold (stable_sort (λ a b, bool_decide (row_Time b < row_Time a)) rows).
  generalize (stable_sort (λ a b, bool_decide (row_Time b < row_Time a)) rows). clear. intros l.
  induction l as [|y l IH]; [done|]. rewrite fmap_cons. cbn [insert_by]. unfold gtb at 1. case_bool_decide; [|done].
  rewrite fmap_cons. by rewrite IH.
Qed.
Lemma times_cut q rows : 0 ≤ q_LastN q → times (cut_newest q rows) = top (Z.to_nat (q_LastN q)) (times rows).
Proof.
  intros HN. unfold cut_newest, top. cbv zeta. rewrite <- times_sort. case_bool_decide; [by rewrite fmap_take|].
  rewrite take_ge; [done|]. rewrite length_fmap. unfold len in *. lia.
Qed.

Lemma sort_rows_sub rows : sortByTimeDesc rows ⊆+ rows.
Proof. apply Permutation_submseteq, stable_sort_perm. Qed.

Section newest.
Context {T : GoText} {R : MapRange} {K : Simd} {KL : SimdLaws K} {F : Flate} {FL : FlateLaws F}.
Context {B : BitOps} {BL : BitOpsLaws B} {M : MaskOps} {ML : MaskOpsLaws M}.
Context (q : Query) (HN : 0 < q_LastN q).

(** The rows of the table are in time order. *)
Definition time_ordered (t : table) : Prop := ∀ i j, (i < j)%nat → Z.of_nat j < t_rows t → time_at t i ≤ time_at t j.
(** Newest group first, and no group reaches past a newer one. *)
Definition no_reach_past (gts : list (leased * table)) : Prop := StronglySorted (λ a b, r_TimeMax (l_reader b.1) ≤ r_TimeMax (l_reader a.1)) gts.

Lemma group_times_ordered (x : leased * table) : time_ordered x.2 → StronglySorted Z.le (times (group_matches q x.2)).
Proof.
  intros Ho. unfold group_matches, mat_rows. rewrite <- list_fmap_compose.
  pose proof (matching_sorted (t_rows x.2) (λ i, query_sem x.2 q (Z.to_nat i))) as Hs. fold (query_rows x.2 q) in Hs.
  assert (∀ i, i ∈ query_rows x.2 q → 0 ≤ i < t_rows x.2) as Hb by (intros i Hi; by apply elem_matching in Hi as [? _]).
  induction Hs as [|i l Hs IH Hf]; [constructor|]. rewrite fmap_cons. constructor; [apply IH; intros; apply Hb; by right|].
  rewrite Forall_forall in *. intros y (j & -> & Hj)%list_elem_of_fmap. cbn. specialize (Hf j Hj).
  pose proof (Hb i (list_elem_of_here _ _)). pose proof (Hb j ltac:(by right)). apply Ho; lia.
Qed.

Lemma group_times_max x r : in_service x → r ∈ group_matches q x.2 → row_Time r ≤ r_TimeMax (l_reader x.1).
Proof.
  intros [_ (np & ts & Hv)] (i & -> & Hi)%list_elem_of_fmap. cbn. apply elem_matching in Hi as [Hi _].
  destruct (times_served np _ _ ts Hv) as (Hta & Hl & _).
  destruct (time_served np _ _ ts Hv (Z.to_nat i)) as (u & Eu & ->); [unfold len in *; lia|].
  pose proof (ta_group _ _ _ Hta u (u + 1) u ltac:(by eapply list_elem_of_lookup_2) ltac:(lia)) as Hg.
  unfold TimeRangeMatches in Hg. by apply andb_true_iff in Hg as [H1%bool_decide_eq_true H2%bool_decide_eq_true].
Qed.

Lemma newest_step pool out x :
  in_service x → time_ordered x.2 →
  ∃ new s', appendMatches pool out (l_reader x.1) (l_caches x.1) q = Ok (out ++ new, s') ∧ new `sublist_of` group_matches q x.2 ∧
    ∀ more, top (Z.to_nat (q_LastN q)) (times (out ++ new) ++ more) = top (Z.to_nat (q_LastN q)) (times out ++ times (group_matches q x.2) ++ more).
Proof.
  intros Hx Ho. destruct (scan_group q pool out x Hx) as (s' & -> & _). eexists _, s'. split; [done|].
  unfold bounded_rows. rewrite bool_decide_eq_true_2 by done.
  set (rows := query_rows x.2 q). set (fs := query_fields (t_cols x.2).*1 q). set (n := Z.to_nat (q_LastN q)).
  assert (mat_rows x.2 fs (drop (length rows - n) rows) = drop (length (group_matches q x.2) - n) (group_matches q x.2)) as ->.
  { unfold group_matches, mat_rows. fold rows fs. by rewrite fmap_drop, length_fmap. }
  split; [apply sublist_drop|]. intros more. rewrite fmap_app, fmap_drop.
  rewrite (top_perm n ((times out ++ drop (length (group_matches q x.2) - n) (times (group_matches q x.2))) ++ more)
            ((times out ++ more) ++ drop (length (times (group_matches q x.2)) - n) (times (group_matches q x.2)))).
  - rewrite top_suffix by (by apply group_times_ordered). apply top_perm. rewrite <- app_assoc. f_equiv. apply Permutation_app_comm.
  - rewrite length_fmap, <- !app_assoc. f_equiv. apply Permutation_app_comm.
Qed.

Lemma runNewest_spec o gts : ∀ n out bytes reason,
  Forall in_service gts → Forall (λ x, time_ordered x.2) gts → no_reach_past gts →
  ∃ rows r, runNewest o n q out bytes reason gts.*1 = Ok (rows, r) ∧
    (r = None → reason = None ∧ times rows = top (Z.to_nat (q_LastN q)) (times out ++ times (matches q gts)) ∧ rows ⊆+ out ++ matches q gts).
Proof.
  induction gts as [|x gts IH]; intros n out bytes reason Hin Hord Hmax; cbn [runNewest].
  { exists (cut_newest q out), reason. split; [done|]. intros ->. split_and!; [done| |].
    - rewrite times_cut by lia. by rewrite app_nil_r.
    - unfold cut_newest. cbv zeta. rewrite app_nil_r. trans (sortByTimeDesc out); [|apply sort_rows_sub].
      case_bool_decide; [apply sublist_submseteq, sublist_take|done]. }
  apply Forall_cons_1 in Hin as [Hx Hin]. apply Forall_cons_1 in Hord as [Ho Hord]. apply StronglySorted_inv in Hmax as [Hmax Hle].
  rewrite fmap_cons. cbn [runNewest]. destruct (newest_step (o_pool o n) out x Hx Ho) as (new & s' & -> & Hsub & Htop).
  rewrite bind_Ok. cbv zeta. cbn [fst]. set (N := Z.to_nat (q_LastN q)) in *. rewrite matches_cons, fmap_app.
  destruct (exceeded q (o_clock o n) _) as [e|]; [eexists _, _; split; [done|]; by intros ?%stop_some|].
  case_bool_decide as Hshort.
  { destruct (IH (S n) (out ++ new) (bytes + sum_bytes q (drop (length out) (out ++ new))) reason Hin Hord Hmax) as (rows & r & -> & Hr).
    exists rows, r. split; [done|]. intros Hn. destruct (Hr Hn) as (-> & -> & Hs). split_and!; [done|by rewrite Htop|].
    trans ((out ++ new) ++ matches q gts); [done|]. rewrite <- app_assoc. apply submseteq_app; [done|].
    apply submseteq_app; [by apply sublist_submseteq|done]. }
  set (out2 := take N (sortByTimeDesc (out ++ new))).
  assert (times out2 = top N (times (out ++ new))) as Et2 by (subst out2; unfold top; by rewrite fmap_take, times_sort).
  assert (length out2 = N) as Hl2.
  { subst out2. rewrite length_take. unfold sortByTimeDesc. rewrite (Permutation_length (stable_sort_perm _ _)). unfold len in *. lia. }
  assert (out2 ⊆+ out ++ group_matches q x.2) as Hs2.
  { trans (out ++ new); [|apply submseteq_app; [done|by apply sublist_submseteq]]. trans (sortByTimeDesc (out ++ new)); [apply sublist_submseteq, sublist_take|apply sort_rows_sub]. }
  assert (∀ more, top N (times out2 ++ more) = top N (times out ++ times (group_matches q x.2) ++ more)) as Htop2
    by (intros more; rewrite Et2, top_top_app; apply Htop).
  destruct gts as [|y gts].
  - exists out2, reason. split; [done|]. intros ->. split_and!; [done| |].
    + rewrite Et2. specialize (Htop []). rewrite !app_nil_r in Htop. rewrite Htop. unfold matches. cbn. by rewrite app_nil_r.
    + unfold matches. cbn. by rewrite app_nil_r.
  - rewrite fmap_cons. destruct (last out2) as [z|] eqn:Ez; [|apply last_None in Ez; rewrite Ez in Hl2; cbn in Hl2; subst N; lia].
    rewrite (index_Ok _ _ z), bind_Ok by (try (unfold len; lia); rewrite last_lookup in Ez; rewrite <- Ez; f_equal; unfold len; lia).
    case_bool_decide as Hcut.
    + exists out2, reason. split; [done|]. intros ->. split_and!; [done| |].
      * rewrite app_assoc. rewrite <- app_assoc, <- Htop2. rewrite top_small; [|by rewrite length_fmap|].
        -- unfold top. rewrite sort_desc_id; [symmetry; apply take_ge; rewrite length_fmap; lia|]. rewrite Et2. unfold top.
           pose proof (sort_desc_sorted (times (out ++ new))) as Hs. rewrite <- (take_drop N) in Hs. by apply StronglySorted_app_1_l in Hs.
        -- intros u v (r1 & -> & Hr1)%list_elem_of_fmap Hv. apply elem_of_concat in Hr1 as (l & (g & -> & Hg)%list_elem_of_fmap & Hl).
           rewrite Forall_forall in Hin. pose proof (group_times_max g r1 (Hin g Hg) Hl) as H1.
           assert (r_TimeMax (l_reader g.1) ≤ r_TimeMax (l_reader y.1)) as H2.
           { apply elem_of_cons in Hg as [-> |Hg]; [lia|]. apply StronglySorted_inv in Hmax as [_ Hf]. rewrite Forall_forall in Hf. by apply Hf. }
           assert (row_Time z ≤ v) as H3; [|lia]. apply last_Some in Ez as [pre Epre].
           rewrite Epre, fmap_app in Hv. pose proof (sort_desc_sorted (times (out ++ new))) as Hs. rewrite <- (take_drop N) in Hs. apply StronglySorted_app_1_l in Hs.
           fold (top N (times (out ++ new))) in Hs. rewrite <- Et2, Epre, fmap_app in Hs. apply elem_of_app in Hv as [Hv|Hv].
           ++ apply (StronglySorted_app_1_elem_of _ _ _ v (row_Time z) Hs Hv). left.
           ++ apply list_elem_of_singleton in Hv. lia.
      * rewrite app_assoc. by apply submseteq_inserts_r.
    + destruct (IH (S n) out2 (bytes + sum_bytes q (drop (length out) (out ++ new))) reason Hin Hord Hmax) as (rows & r & Er & Hr).
      rewrite fmap_cons in Er. rewrite Er. exists rows, r. split; [done|]. intros Hn. destruct (Hr Hn) as (-> & -> & Hs). split_and!; [done|by rewrite Htop2|].
      trans (out2 ++ matches q (y :: gts)); [done|]. rewrite app_assoc. by apply submseteq_app.
Qed.

(** C31: the newest-rows scan returns the times of the [LastN] newest matching
    rows, although it stops reading groups early, provided rows within a group
    are in time order and no group reaches past the start of a later one by
    enough to hide a newer row. *)
Theorem runNewest_newest o gts : ∀ n out bytes reason,
  Forall in_service gts → Forall (λ x, time_ordered x.2) gts → no_reach_past gts →
  ∃ rows r, runNewest o n q out bytes reason gts.*1 = Ok (rows, r) ∧
    (r = None → reason = None ∧ times rows = top (Z.to_nat (q_LastN q)) (times out ++ times (matches q gts)) ∧ rows ⊆+ out ++ matches q gts).
Proof. by eapply runNewest_spec. Qed.
End newest.
