(* ===== verification/Aggregate.v ===== *)
(** * Aggregates over a scan

    [internal/query/introspect.go] and the histogram half of [engine.go]: the
    counts of a field's values ([StatsByField], [FieldValues]) with their footer
    fast path, the histogram of a window ([histoGroup], [Histogram]), the floored
    buckets ([alignDown], [BucketSpan]) and the dense series [fillHits]. *)

From S2P Require Import Prelude Digits GoLib Kernels Indices Timestamps DictSection DictLayout Postings Bloom Group Bitset Select.
From S2P Require Import Reader ReaderSafe ReaderOk Table Writer Filter FilterOk Engine EngineOk TimeFilter Scan ScanOk PagesOk.
From stdpp Require Import list gmap sorting.
Local Open Scope Z_scope.

(** ** Definitions *)

Definition maxHitsBuckets : Z := 100000.

(** Instants are [int64]: [t % step] truncates, sums wrap. *)
Definition alignDown (t step : Z) : Z :=
  let r := Z.rem t step in
  let r := if bool_decide (r < 0) then r + step else r in
  if bool_decide (t < i64 (t - r)) then Z.quot MinInt64 step * step else i64 (t - r).
Definition BucketSpan (from to step : Z) : Z * Z :=
  if bool_decide (step ≤ 0 ∨ to ≤ from) then (from, to) else
  let lo := alignDown from step in
  let last := alignDown (to - 1) step in
  let hi := i64 (last + step) in
  let hi := if bool_decide (hi < last) then MaxInt64 else hi in
  (lo, if bool_decide (hi < to) then to else hi).
Definition RangeWidthNs (from to : Z) : Z := if bool_decide (to ≤ from) then 0 else u64 (u64 to - u64 from).

Record HitsSeries := MkSeries { hs_Timestamps : list Z; hs_Values : list Z; hs_Total : Z }.
(** The number of buckets [fillHits] makes room for. *)
Definition bucket_count (start to step : Z) : Z :=
  let w := RangeWidthNs start to in
  if bool_decide (0 < w) then
    let nb := w / step in
    let nb := if bool_decide (w mod step ≠ 0) then nb + 1 else nb in
    if bool_decide (maxHitsBuckets < nb) then maxHitsBuckets else nb
  else 0.
Fixpoint fill_loop (buckets : gmap Z Z) (to step : Z) (room : nat) (t : Z) : list (Z * Z) :=
  match room with
  | O => []
  | S room' =>
      if bool_decide (t < to) then
        let next := i64 (t + step) in
        (t, default 0 (buckets !! t)) :: (if bool_decide (next ≤ t) then [] else fill_loop buckets to step room' next)
      else []
  end.
Definition fillHits (buckets : gmap Z Z) (q : Query) (step : Z) : HitsSeries :=
  let '(from, to) := (q_From q, q_To q) in
  if bool_decide (to ≤ from) then MkSeries [] [] 0 else
  let start := alignDown from step in
  let l := fill_loop buckets to step (Z.to_nat (bucket_count start to step)) start in
  MkSeries l.*1 l.*2 (foldl Z.add 0 l.*2).

(** A Go map of counts and [m[k] += n]. *)
Definition bump {A} `{Countable A} (m : gmap A Z) (k : A) (n : Z) : gmap A Z := <[k := default 0 (m !! k) + n]> m.

(** [sortValueCounts]: most hits first, then by value. *)
Definition vc_less (a b : ValueCount) : bool :=
  if negb (bool_decide (vc_Count a = vc_Count b)) then bool_decide (vc_Count b < vc_Count a) else str_ltb (vc_Value a) (vc_Value b).
Definition sortValueCounts (vcs : list ValueCount) : list ValueCount := stable_sort vc_less vcs.

Section aggregate.
Context {T : GoText} {K : Simd} {F : Flate} {B : BitOps} {M : MaskOps} {R : MapRange}.

(** The body of [histoGroup] over the selected rows. *)
Fixpoint bucket_rows (ts : list Z) (lo step : Z) (rows : list Z) (out : gmap Z Z) : outcome (gmap Z Z) :=
  match rows with
  | [] => Ok out
  | i :: rows' => t ← index ts (i - lo); bucket_rows ts lo step rows' (bump out (alignDown t step) 1)
  end.
Definition histoGroup (pool : list Z) (g : Reader) (s : caches) (q : Query) (step : Z) (out : gmap Z Z) : outcome (gmap Z Z * caches) :=
  x ← matchBitset g s q;
  if bool_decide (Bitset.Count x.1 = 0) then Ok (out, x.2) else
  y ← TimeWindowSpan g s_time (q_From q) (q_To q);
  let '(lo, hi) := if bool_decide (y.2 ≤ y.1) then (0, r_Rows g) else y in
  ts ← TimestampsRangeInto g pool s_time lo hi;
  out ← bucket_rows ts lo step (ForEach x.1) out;
  Ok (out, x.2).

(** The walk of [Histogram] below the fan-out. *)
Fixpoint histo_serial (o : Outside) (n : nat) (q : Query) (step : Z) (out : gmap Z Z) (reason : option Stop) (gs : list leased)
    : outcome (gmap Z Z * option Stop) :=
  match gs with
  | [] => Ok (out, reason)
  | g :: gs' =>
      match exceeded q (o_clock o n) 0 with
      | Some e => Ok (out, stop reason e)
      | None =>
          x ← histoGroup (o_pool o n) (l_reader g) (l_caches g) q step out;
          histo_serial o (S n) q step x.1 reason gs'
      end
  end.

(** *** The fan-out of a histogram *)

Inductive hworker := HIdle | HTook (gi : nat) | HScan (gi : nat) | HDone.
Record hstate := HS { hs_ch : list nat; hs_workers : list hworker; hs_parts : list (option (gmap Z Z)); hs_reason : option Stop }.
Definition hstep (gs : list leased) (q : Query) (step : Z) (w : nat) (clock : option Stop) (pool : list Z) (st : hstate)
    : outcome (option hstate) :=
  let go ws := <[w := ws]> (hs_workers st) in
  match hs_workers st !! w with
  | None | Some HDone => Ok None
  | Some HIdle =>
      match hs_ch st with
      | [] => Ok (Some (HS [] (go HDone) (hs_parts st) (hs_reason st)))
      | gi :: ch => Ok (Some (HS ch (go (HTook gi)) (hs_parts st) (hs_reason st)))
      end
  | Some (HTook gi) =>
      match exceeded q clock 0 with
      | Some e => Ok (Some (HS (hs_ch st) (go HIdle) (hs_parts st) (stop (hs_reason st) e)))
      | None => Ok (Some (HS (hs_ch st) (go (HScan gi)) (hs_parts st) (hs_reason st)))
      end
  | Some (HScan gi) =>
      g ← index gs (Z.of_nat gi);
      x ← histoGroup pool (l_reader g) (l_caches g) q step ∅;
      Ok (Some (HS (hs_ch st) (go HIdle) (<[gi := Some x.1]> (hs_parts st)) (hs_reason st)))
  end.
Fixpoint hrun (gs : list leased) (q : Query) (step : Z) (sched : list (nat * option Stop * list Z)) (st : hstate) : outcome hstate :=
  match sched with
  | [] => Ok st
  | (w, clock, pool) :: sched' => x ← hstep gs q step w clock pool st; hrun gs q step sched' (default st x)
  end.
Definition hdone (st : hstate) : bool := forallb (λ w, match w with HDone => true | _ => false end) (hs_workers st).
(** [for k, v := range m { out[k] += v }] over the parts; the order of a map's
    keys does not matter to a sum, so one is fixed. *)
Definition merge_part (out : gmap Z Z) (m : option (gmap Z Z)) : gmap Z Z :=
  match m with Some m => foldl (λ out kv, bump out kv.1 kv.2) out (map_to_list m) | None => out end.
Definition histogramParallel (workers : nat) (sched : list (nat * option Stop * list Z)) (q : Query) (step : Z) (reason : option Stop)
    (gs : list leased) : outcome (option (gmap Z Z * option Stop)) :=
  st ← hrun gs q step sched (HS (seq 0 (length gs)) (replicate workers HIdle) (replicate (length gs) None) reason);
  Ok (if hdone st then Some (foldl merge_part ∅ (hs_parts st), hs_reason st) else None).

Definition Histogram (o : Outside) (workers : nat) (sched : list (nat * option Stop * list Z)) (s : option (list leased)) (q : Query) (step : Z)
    : outcome (option (gmap Z Z * option Stop)) :=
  x ← prune o 0 q (snapshotOf s (q_From q) (q_To q));
  let '(survivors, n, reason) := x in
  if bool_decide (parallelMinGroups ≤ len survivors) then histogramParallel workers sched q step reason survivors
  else r ← histo_serial o n q step ∅ reason survivors; Ok (Some r).

(** [dictOrTime]: a dictionary column, or the timestamps spelled out. *)
Definition dictOrTime (g : Reader) (s : caches) (field : bytes) : outcome (list Z * list bytes * caches) :=
  x ← DictIndices g s field;
  let '(idx, dict, s) := x in
  if bool_decide (idx ≠ []) || negb (str_eqb field s_time) then Ok (idx, dict, s) else
  ts ← TimestampsRange g s_time 0 (r_Rows g);
  Ok (seqZ 0 (len ts), formatTime <$> ts, s).

(** [per[idx[i]]++] over the selected rows. *)
Fixpoint count_ids (idx rows per : list Z) : outcome (list Z) :=
  match rows with
  | [] => Ok per
  | i :: rows' => x ← index idx i; c ← index per x; per ← store per x (c + 1); count_ids idx rows' per
  end.
(** [counts[dict[id]] += c] for the ids that occur. *)
Fixpoint add_ids (dict : list bytes) (per : list Z) (counts : gmap bytes Z) : gmap bytes Z :=
  match dict, per with
  | v :: dict', c :: per' => add_ids dict' per' (if bool_decide (0 < c) then bump counts v c else counts)
  | _, _ => counts
  end.
Definition add_counts (vcs : list ValueCount) (counts : gmap bytes Z) : gmap bytes Z :=
  foldl (λ m vc, bump m (vc_Value vc) (vc_Count vc)) counts vcs.

(** The body of [StatsByField] for one group the prune kept. *)
Definition stats_group (g : Reader) (s : caches) (q : Query) (field : bytes) (counts : gmap bytes Z) : outcome (gmap bytes Z) :=
  if bool_decide (q_Preds q = [] ∧ field ≠ s_time ∧ q_From q ≤ r_TimeMin g ∧ r_TimeMax g < q_To q) then
    vcs ← ValueCounts g field; Ok (add_counts vcs counts)
  else
    x ← matchBitset g s q;
    if bool_decide (Bitset.Count x.1 = 0) then Ok counts else
    y ← dictOrTime g x.2 field;
    let '(idx, dict, _) := y in
    if bool_decide (idx = []) then Ok counts else
    per ← count_ids idx (ForEach x.1) (replicate (length dict) 0);
    Ok (add_ids dict per counts).
Fixpoint stats_scan (o : Outside) (n : nat) (q : Query) (field : bytes) (counts : gmap bytes Z) (gs : list leased)
    : outcome (gmap bytes Z * option Stop) :=
  match gs with
  | [] => Ok (counts, None)
  | g :: gs' =>
      match exceeded q (o_clock o n) 0 with
      | Some e => Ok (counts, Some e)
      | None =>
          c ← groupCanMatch (l_reader g) q;
          if (c : bool) then
            counts ← stats_group (l_reader g) (l_caches g) q field counts;
            stats_scan o (S n) q field counts gs'
          else stats_scan o (S n) q field counts gs'
      end
  end.
Definition counts_list (counts : gmap bytes Z) : list ValueCount := sortValueCounts ((λ kv, VC kv.1 kv.2) <$> range_map counts).
Definition StatsByField (o : Outside) (s : option (list leased)) (q : Query) (field : bytes) : outcome (list ValueCount * option Stop) :=
  x ← stats_scan o 0 q field ∅ (snapshotOf s (q_From q) (q_To q));
  Ok (counts_list x.1, x.2).

(** [Hits]: what one call of a scan sees of the outside. *)
Record scan_env := MkEnv { e_out : Outside; e_workers : nat; e_sched : list (nat * option Stop * list Z) }.
Definition hits_step (step : Z) : Z := if bool_decide (step ≤ 0) then 60 * 10 ^ 9 else step.
Definition eq_pred (field value : bytes) : Pred :=
  MkPred field [] value [] [] (SpecFloat.S754_zero false) (SpecFloat.S754_zero false) 0 0 false false false KEq.
(** One series per value of the field. *)
Fixpoint hits_by (envs : list scan_env) (s : option (list leased)) (q sq : Query) (step : Z) (by_ : bytes) (reason : option Stop)
    (vcs : list ValueCount) : outcome (option (list (bytes * HitsSeries) * option Stop)) :=
  match vcs, envs with
  | [], _ => Ok (Some ([], reason))
  | _, [] => Ok None
  | vc :: vcs', env :: envs' =>
      let preds := q_Preds q ++ [eq_pred by_ (vc_Value vc)] in
      let sub := with_filter sq preds (q_Filter sq) in
      let walk := with_filter q preds (q_Filter q) in
      x ← Histogram (e_out env) (e_workers env) (e_sched env) s sub step;
      match x with
      | None => Ok None
      | Some (m, r) =>
          y ← hits_by envs' s q sq step by_ (record_stop reason r) vcs';
          Ok (match y with
              | Some (rest, r') => Some ((vc_Value vc, fillHits m walk step) :: rest, r')
              | None => None
              end)
      end
  end.
(** [None]: a fan-out is still running. An empty [by_] is the unsplit series. *)
Definition Hits (clock : option Stop) (o : Outside) (envs : list scan_env) (s : option (list leased)) (q : Query) (step : Z) (by_ : bytes)
    : outcome (option (list (bytes * HitsSeries) * option Stop)) :=
  let step := hits_step step in
  match exceeded q clock 0 with
  | Some e => Ok (Some ([], Some e))
  | None =>
      let '(lo, hi) := BucketSpan (q_From q) (q_To q) step in
      let sq := SetWindow q lo hi in
      if bool_decide (by_ = []) then
        match envs with
        | [] => Ok None
        | env :: _ =>
            x ← Histogram (e_out env) (e_workers env) (e_sched env) s sq step;
            Ok (match x with Some (m, r) => Some ([([], fillHits m q step)], r) | None => None end)
        end
      else
        x ← StatsByField o s sq by_;
        hits_by envs s q sq step by_ x.2 x.1
  end.

(** [FieldValues]: the same, from the footers alone. *)
Fixpoint field_values (field : bytes) (counts : gmap bytes Z) (gs : list leased) : outcome (gmap bytes Z) :=
  match gs with
  | [] => Ok counts
  | g :: gs' => vcs ← ValueCounts (l_reader g) field; field_values field (add_counts vcs counts) gs'
  end.
Definition FieldValues (s : option (list leased)) (field : bytes) (from to : Z) : outcome (list ValueCount) :=
  m ← field_values field ∅ (snapshotOf s from to); Ok (counts_list m).
End aggregate.
