(* ===== verification/AggregateOk.v ===== *)
(** * What the aggregates count

    [alignDown] floors; the dense series of [fillHits] walks the window's buckets
    without gaps and loses no count; the histogram of a scan counts the matching
    rows of each bucket, fanned out or not; [StatsByField] counts the matching
    rows per value of a field. *)

From S2P Require Import Prelude Digits GoLib Kernels Indices Timestamps DictSection DictLayout Postings Bloom Group Bitset Select.
From S2P Require Import Reader ReaderSafe ReaderOk Table Writer Filter FilterOk Engine EngineOk TimeFilter Scan ScanOk PagesOk Aggregate.
From stdpp Require Import list gmap sorting.
Local Open Scope Z_scope.

(** ** Buckets *)

Lemma i64_over z : 2 ^ 63 ≤ z < 2 ^ 63 + 2 ^ 64 → i64 z = z - 2 ^ 64.
Proof.
  intros Hz. rewrite <- (i64_small (z - 2 ^ 64)) by (unfold is_i64; lia). unfold i64. f_equal.
  replace (z + 2 ^ 63) with (z - 2 ^ 64 + 2 ^ 63 + 1 * 2 ^ 64) by lia. by rewrite Z_mod_plus_full.
Qed.
Lemma i64_under z : - 2 ^ 63 - 2 ^ 64 ≤ z < - 2 ^ 63 → i64 z = z + 2 ^ 64.
Proof.
  intros Hz. rewrite <- (i64_small (z + 2 ^ 64)) by (unfold is_i64; lia). unfold i64. f_equal.
  replace (z + 2 ^ 64 + 2 ^ 63) with (z + 2 ^ 63 + 1 * 2 ^ 64) by lia. by rewrite Z_mod_plus_full.
Qed.

(** The bucket of an instant: the multiple of the step at or below it, or the
    smallest one there is. *)
Definition bucket (step t : Z) : Z := Z.max (t - t mod step) (- (2 ^ 63 / step) * step).

Lemma rem_mod t step : 0 < step → (if bool_decide (Z.rem t step < 0) then Z.rem t step + step else Z.rem t step) = t mod step.
Proof.
  intros Hs. pose proof (Z.quot_rem' t step) as Hq. pose proof (Z.rem_bound_abs t step ltac:(lia)) as Hb.
  case_bool_decide.
  - apply (Z.mod_unique t step (Z.quot t step - 1)); [left; lia|lia].
  - apply (Z.mod_unique t step (Z.quot t step)); [left; lia|lia].
Qed.

Lemma alignDown_spec t step : is_i64 t → 0 < step → is_i64 step → alignDown t step = bucket step t ∧ is_i64 (bucket step t).
Proof.
  unfold is_i64. intros Ht H0 Hs. unfold alignDown, bucket. cbv zeta. rewrite rem_mod by done.
  pose proof (Z.mod_pos_bound t step H0) as Hm. assert (Z.quot MinInt64 step = - (2 ^ 63 / step)) as ->.
  { unfold MinInt64. rewrite Z.quot_opp_l by lia. by rewrite Z.quot_div_nonneg by lia. }
  pose proof (Z.div_mod (2 ^ 63) step ltac:(lia)) as D2. pose proof (Z.mod_pos_bound (2 ^ 63) step H0) as M2.
  pose proof (Z.div_mod t step ltac:(lia)) as D1. set (u := 2 ^ 63 / step) in *. set (v := t / step) in *.
  destruct (decide (- 2 ^ 63 ≤ t - t mod step)) as [Hin|Hout].
  - rewrite i64_small by (unfold is_i64; lia). rewrite bool_decide_eq_false_2 by lia.
    assert (- u ≤ v) by nia. assert (- u * step ≤ t - t mod step) by nia. split; [lia|nia].
  - rewrite i64_under by lia. rewrite bool_decide_eq_true_2 by lia. assert (v < - u) by nia. split; nia.
Qed.

(** The walk of [fillHits]: every bucket from the start up to the end. *)
Definition walk_len (t to step : Z) : Z := Z.max 0 ((to - t + step - 1) / step).
Lemma walk_len_step t to step : 0 < step → t < to → walk_len t to step = 1 + walk_len (t + step) to step.
Proof.
  intros Hs Ht. unfold walk_len. replace (to - t + step - 1) with ((to - (t + step) + step - 1) + 1 * step) by lia.
  rewrite Z.div_add by lia. destruct (decide (t + step < to)).
  - pose proof (Z.div_pos (to - (t + step) + step - 1) step). lia.
  - assert ((to - (t + step) + step - 1) / step = 0) by (apply Z.div_small; lia). lia.
Qed.
Lemma walk_len_done t to step : 0 < step → to ≤ t → walk_len t to step = 0.
Proof. intros Hs Ht. unfold walk_len. pose proof (Z.div_lt_upper_bound (to - t + step - 1) step 1). lia. Qed.

Lemma fill_hits_spec buckets to step room : ∀ t,
  is_i64 t → is_i64 to → 0 < step → is_i64 step →
  fill_loop buckets to step room t =
  (λ k, (t + k * step, default 0 (buckets !! (t + k * step)))) <$> seqZ 0 (Z.min (Z.of_nat room) (walk_len t to step)).
Proof.
  unfold is_i64. induction room as [|room IH]; intros t Ht Hto Hs Hsi; cbn [fill_loop].
  { rewrite seqZ_nil by lia. done. }
  case_bool_decide as Hlt; [|rewrite walk_len_done by lia; by rewrite seqZ_nil by lia].
  rewrite walk_len_step by done. assert (0 ≤ walk_len (t + step) to step) by (unfold walk_len; lia).
  rewrite seqZ_cons by lia. rewrite fmap_cons. f_equal.
  - by rewrite Z.mul_0_l, Z.add_0_r.
  - replace (Z.pred (Z.min (Z.of_nat (S room)) (1 + walk_len (t + step) to step))) with (Z.min (Z.of_nat room) (walk_len (t + step) to step)) by lia.
    rewrite <- (fmap_add_seqZ 1 0), <- list_fmap_compose.
    destruct (decide (t + step < 2 ^ 63)) as [Hfit|Hover].
    + rewrite i64_small by (unfold is_i64; lia). rewrite bool_decide_eq_false_2 by lia.
      rewrite IH by lia. apply list_fmap_ext. intros _ k _. cbn. by replace (t + step + k * step) with (t + (1 + k) * step) by lia.
    + rewrite i64_over by lia. rewrite bool_decide_eq_true_2 by lia. rewrite walk_len_done by lia. by rewrite seqZ_nil by lia.
Qed.

Lemma bucket_count_spec start to step :
  is_i64 start → is_i64 to → 0 < step → bucket_count start to step = Z.min maxHitsBuckets (walk_len start to step).
Proof.
  unfold is_i64. intros Hs Ht H0. unfold bucket_count, RangeWidthNs. cbv zeta. destruct (decide (to ≤ start)) as [Hlt|Hlt].
  { rewrite walk_len_done by lia. rewrite (bool_decide_eq_true_2 (to ≤ start)) by done. by rewrite bool_decide_eq_false_2 by lia. }
  rewrite !(bool_decide_eq_false_2 (to ≤ start)) by done.
  assert (u64 (u64 to - u64 start) = to - start) as ->.
  { unfold u64. rewrite <- Zminus_mod. apply Z.mod_small. lia. }
  rewrite bool_decide_eq_true_2 by lia. set (w := to - start).
  assert ((if bool_decide (w mod step ≠ 0) then w / step + 1 else w / step) = walk_len start to step) as ->.
  { unfold walk_len. fold w. pose proof (Z.div_mod w step ltac:(lia)) as D. pose proof (Z.mod_pos_bound w step H0) as Mb.
    pose proof (Z.div_pos w step ltac:(lia) H0) as P. case_bool_decide as Hm.
    - rewrite <- (Z.div_unique (w + step - 1) step (w / step + 1) (w mod step - 1)) by (try left; lia). lia.
    - rewrite <- (Z.div_unique (w + step - 1) step (w / step) (step - 1)) by (try left; lia). lia. }
  case_bool_decide; unfold maxHitsBuckets in *; lia.
Qed.

Lemma fillHits_spec buckets q step :
  is_i64 (q_From q) → is_i64 (q_To q) → q_From q < q_To q → 0 < step → is_i64 step →
  let start := bucket step (q_From q) in
  let ks := seqZ 0 (Z.min maxHitsBuckets (walk_len start (q_To q) step)) in
  fillHits buckets q step =
    MkSeries ((λ k, start + k * step) <$> ks) ((λ k, default 0 (buckets !! (start + k * step))) <$> ks)
      (foldl Z.add 0 ((λ k, default 0 (buckets !! (start + k * step))) <$> ks)).
Proof.
  intros Hf Ht Hlt H0 Hs. cbv zeta. unfold fillHits. rewrite bool_decide_eq_false_2 by lia. cbv zeta.
  destruct (alignDown_spec (q_From q) step Hf H0 Hs) as [-> Hb]. rewrite bucket_count_spec by done.
  rewrite fill_hits_spec by done. assert (0 ≤ walk_len (bucket step (q_From q)) (q_To q) step) by (unfold walk_len; lia).
  rewrite Z2Nat.id by (unfold maxHitsBuckets; lia). rewrite <- !list_fmap_compose. rewrite Z.min_l by lia. done.
Qed.

(** ** Counts *)

(** How many instants of a list fall in a bucket. *)
Definition tally {A} (key : A → Z) (l : list A) (k : Z) : Z := len (filter (λ t, key t = k) l).
Lemma tally_app {A} (key : A → Z) l1 l2 k : tally key (l1 ++ l2) k = tally key l1 k + tally key l2 k.
Proof. unfold tally. by rewrite filter_app, len_app. Qed.
Definition histo_of (step : Z) (l : list Z) (m : gmap Z Z) : gmap Z Z := foldl (λ m t, bump m (alignDown t step) 1) m l.

Lemma bump_lookup {A} `{Countable A} (m : gmap A Z) k n j : default 0 (bump m k n !! j) = default 0 (m !! j) + (if bool_decide (j = k) then n else 0).
Proof.
  unfold bump. case_bool_decide as E.
  - subst. by rewrite lookup_insert_eq.
  - rewrite lookup_insert_ne by congruence. lia.
Qed.
Lemma histo_lookup step l : ∀ m k, default 0 (histo_of step l m !! k) = default 0 (m !! k) + tally (λ t, alignDown t step) l k.
Proof.
  induction l as [|t l IH]; intros m k; cbn [histo_of foldl]; [unfold tally, len; cbn; lia|].
  fold (histo_of step l (bump m (alignDown t step) 1)). rewrite IH, bump_lookup. unfold tally. rewrite filter_cons.
  destruct (decide (alignDown t step = k)) as [E|E].
  - rewrite bool_decide_eq_true_2 by done. rewrite len_cons. lia.
  - rewrite bool_decide_eq_false_2 by congruence. lia.
Qed.

Lemma sum_tally (key : Z → Z) keys l :
  NoDup keys → Forall (λ t, key t ∈ keys) l → foldl Z.add 0 (tally key l <$> keys) = len l.
Proof.
  intros Hnd. assert (∀ xs a, foldl Z.add a xs = a + foldl Z.add 0 xs) as Hacc.
  { induction xs as [|x xs IH]; intros a; cbn [foldl]; [lia|]. rewrite (IH (a + x)), (IH (0 + x)). lia. }
  assert (∀ (f g : Z → Z) ks, foldl Z.add 0 ((λ k, f k + g k) <$> ks) = foldl Z.add 0 (f <$> ks) + foldl Z.add 0 (g <$> ks)) as Hadd.
  { intros f g ks. induction ks as [|k ks IH]; [done|]. rewrite !fmap_cons. cbn [foldl].
    rewrite (Hacc _ (0 + (f k + g k))), (Hacc _ (0 + f k)), (Hacc _ (0 + g k)), IH. lia. }
  assert (∀ (x : Z) (ks : list Z), NoDup ks → foldl Z.add 0 ((λ k, if bool_decide (x = k) then 1 else 0) <$> ks) = if bool_decide (x ∈ ks) then 1 else 0) as Hone.
  { clear -Hacc. intros x ks. induction 1 as [|k ks Hk Hnd IH]; [done|]. rewrite fmap_cons. cbn [foldl]. rewrite Hacc, IH.
    destruct (decide (x = k)) as [-> |Hne].
    - rewrite (bool_decide_eq_true_2 (k = k)) by done. rewrite bool_decide_eq_false_2 by done. rewrite bool_decide_eq_true_2 by left. lia.
    - rewrite (bool_decide_eq_false_2 (x = k)) by done. rewrite (bool_decide_ext (x ∈ k :: ks) (x ∈ ks)) by (rewrite elem_of_cons; split; [by intros [?|?]|by right]). lia. }
  induction 1 as [|t l Ht _ IH].
  - unfold tally. cbn. induction keys as [|k ks IHk]; [done|]. apply NoDup_cons in Hnd as [_ Hnd]. cbn. by apply IHk.
  - rewrite len_cons, <- IH.
    replace (tally key (t :: l) <$> keys) with ((λ k, (if bool_decide (key t = k) then 1 else 0) + tally key l k) <$> keys).
    + rewrite Hadd. rewrite (Hone (key t) keys Hnd). rewrite bool_decide_eq_true_2 by done. done.
    + apply list_fmap_ext. intros _ k _. unfold tally. rewrite filter_cons. destruct (decide (key t = k)) as [E|E].
      * rewrite bool_decide_eq_true_2 by done. by rewrite len_cons.
      * rewrite bool_decide_eq_false_2 by done. done.
Qed.

Lemma foldl_bump_lookup {A} `{Countable A} (l : list (A * Z)) : ∀ (out : gmap A Z) k,
  NoDup l.*1 → default 0 (foldl (λ out kv, bump out kv.1 kv.2) out l !! k) = default 0 (out !! k) + default 0 ((list_to_map l : gmap A Z) !! k).
Proof.
  induction l as [|[a n] l IH]; intros out k; [cbn; rewrite lookup_empty; cbn; lia|]. rewrite fmap_cons. intros [Ha Hnd]%NoDup_cons.
  cbn [foldl list_to_map foldr fst snd]. rewrite IH, bump_lookup by done. fold (list_to_map l : gmap A Z). case_bool_decide as E.
  - subst. cbn [uncurry]. rewrite lookup_insert_eq. rewrite not_elem_of_list_to_map_1 by done. cbn. lia.
  - cbn [uncurry]. rewrite lookup_insert_ne by congruence. lia.
Qed.
Lemma merge_part_lookup out m k : default 0 (merge_part out (Some m) !! k) = default 0 (out !! k) + default 0 (m !! k).
Proof. unfold merge_part. rewrite foldl_bump_lookup by apply NoDup_fst_map_to_list. by rewrite list_to_map_to_list. Qed.

Section histogram.
Context {T : GoText} {R : MapRange} {K : Simd} {KL : SimdLaws K} {F : Flate} {FL : FlateLaws F}.
Context {B : BitOps} {BL : BitOpsLaws B} {M : MaskOps} {ML : MaskOpsLaws M}.
Context (q : Query) (step : Z).

Definition group_times (t : table) : list Z := row_Time <$> group_matches q t.
Lemma group_times_rows t : group_times t = (λ i, time_at t (Z.to_nat i)) <$> query_rows t q.
Proof. unfold group_times, group_matches, mat_rows. by rewrite <- list_fmap_compose. Qed.

Lemma bucket_rows_spec t us lo rows : ∀ out,
  (∀ i, i ∈ rows → index us (i - lo) = Ok (time_at t (Z.to_nat i))) →
  bucket_rows us lo step rows out = Ok (histo_of step ((λ i, time_at t (Z.to_nat i)) <$> rows) out).
Proof.
  induction rows as [|i rows IH]; intros out Hr; [done|]. cbn [bucket_rows]. rewrite Hr, bind_Ok by left.
  rewrite IH by (intros j Hj; apply Hr; by right). done.
Qed.

Lemma histoGroup_spec pool x out :
  in_service x → ∃ s', histoGroup pool (l_reader x.1) (l_caches x.1) q step out = Ok (histo_of step (group_times x.2) out, s').
Proof.
  intros [Hs (np & ts & Hv)]. unfold histoGroup. rewrite group_times_rows.
  destruct (matchBitset_spec np _ _ ts Hv (l_caches x.1) q Hs) as (b & s' & -> & _ & Hb). rewrite bind_Ok. cbn [fst snd].
  rewrite (selects_Count _ _ _ Hb), (selects_ForEach _ _ _ Hb). fold (query_rows x.2 q). exists s'. case_bool_decide as H0.
  { by replace (query_rows x.2 q) with (@nil Z) by (symmetry; apply length_zero_iff_nil; unfold len in *; lia). }
  destruct (times_served np _ _ ts Hv) as (Hta & Hl & _).
  assert (∀ i, i ∈ query_rows x.2 q → 0 ≤ i < t_rows x.2 ∧ in_window (q_From q) (q_To q) (time_at x.2 (Z.to_nat i)) = true) as Hrows.
  { intros i [Hi Hq]%elem_matching. split; [done|]. unfold query_sem in Hq. by apply andb_true_iff in Hq as [? _]. }
  destruct (ta_span _ _ _ Hta (q_From q) (q_To q)) as (lo & hi & -> & Hlo & Hhi & Hcov). rewrite bind_Ok. cbn [fst snd].
  assert (∀ i, i ∈ query_rows x.2 q → lo ≤ i < hi) as Hspan.
  { intros i Hi. destruct (Hrows i Hi) as [Hb1 Hw]. destruct (time_served np _ _ ts Hv (Z.to_nat i)) as (u & Eu & Et); [unfold len in *; lia|].
    rewrite Et in Hw. apply bool_decide_eq_true in Hw. pose proof (Hcov _ _ Eu Hw). lia. }
  destruct (query_rows x.2 q) as [|r0 rows] eqn:Eq; [done|]. pose proof (Hspan r0 (list_elem_of_here _ _)).
  rewrite bool_decide_eq_false_2 by lia. rewrite <- Eq in *.
  destruct (times_ready_span np _ _ ts Hv pool (query_rows x.2 q) lo hi false) as (us & -> & Hus);
    [intros i Hi; by apply Hrows|by rewrite Eq|lia|lia|done|].
  rewrite bind_Ok, (bucket_rows_spec x.2 us lo) by (intros i Hi; by apply (Hus i)). by rewrite bind_Ok.
Qed.

Lemma tally_matches k (key : Z → Z) x gts :
  tally key (row_Time <$> matches q (x :: gts)) k = tally key (group_times x.2) k + tally key (row_Time <$> matches q gts) k.
Proof. rewrite matches_cons, fmap_app, tally_app. done. Qed.

Lemma histo_serial_spec o gts : ∀ n out reason,
  Forall in_service gts →
  ∃ m r, histo_serial o n q step out reason gts.*1 = Ok (m, r) ∧
    (r = None → reason = None ∧ ∀ k, default 0 (m !! k) = default 0 (out !! k) + tally (λ t, alignDown t step) (row_Time <$> matches q gts) k).
Proof.
  induction gts as [|x gts IH]; intros n out reason Hin; cbn [histo_serial].
  { exists out, reason. split; [done|]. intros ->. split; [done|]. intros k. unfold tally, len. cbn. lia. }
  apply Forall_cons_1 in Hin as [Hx Hin]. rewrite fmap_cons. cbn [histo_serial].
  destruct (exceeded q (o_clock o n) 0); [eexists _, _; split; [done|]; by intros ?%stop_some|].
  destruct (histoGroup_spec (o_pool o n) x out Hx) as (s' & ->). rewrite bind_Ok. cbn [fst].
  destruct (IH (S n) (histo_of step (group_times x.2) out) reason Hin) as (m & r & -> & Hr). exists m, r. split; [done|].
  intros Hn. destruct (Hr Hn) as (-> & Hm). split; [done|]. intros k. rewrite Hm, histo_lookup, tally_matches. lia.
Qed.

(** *** The fan-out *)

Section fanout.
Context (gts : list (leased * table)) (Hin : Forall in_service gts).
Definition hheld (w : hworker) : list nat := match w with HTook gi | HScan gi => [gi] | _ => [] end.
Definition hpart (gi : nat) : gmap Z Z := match gts !! gi with Some x => histo_of step (group_times x.2) ∅ | None => ∅ end.
Definition hinv (reason0 : option Stop) (st : hstate) : Prop :=
  fan_inv hheld HDone (length gts) hpart reason0 (hs_ch st) (hs_workers st) (hs_parts st) (hs_reason st).

Lemma hstep_inv reason st w clock pool :
  hinv reason st → ∃ x, hstep gts.*1 q step w clock pool st = Ok x ∧ ∀ st', x = Some st' → hinv reason st' ∧ length (hs_workers st') = length (hs_workers st).
Proof.
  unfold hinv. intros Hi. unfold hstep. cbv zeta. destruct (hs_workers st !! w) as [a|] eqn:Ew; [|by eexists].
  destruct a as [|gi|gi|]; [..|by eexists].
  - destruct (hs_ch st) as [|gi ch] eqn:Ec; eexists; (split; [done|]); intros st' [= <-]; (split; [|by cbn; rewrite length_insert]);
      [by eapply fan_quit|by eapply fan_take].
  - destruct (exceeded q clock 0); eexists; (split; [done|]); intros st' [= <-]; (split; [|by cbn; rewrite length_insert]);
      eapply fan_move; try done; try (by intros gj ?%elem_of_nil).
    + intros _. apply stop_some.
    + right. left. apply stop_some.
    + by left.
  - assert (gi < length gts)%nat as Hlt by (apply (fi_held _ _ _ _ _ _ _ _ _ Hi), elem_of_app; right; eapply held_at; [done|by left]).
    destruct (lookup_lt_is_Some_2 gts gi Hlt) as [x Ex]. rewrite (index_Ok _ _ x.1), bind_Ok by (try lia; by rewrite Nat2Z.id, list_lookup_fmap, Ex).
    pose proof Hin as Hx. rewrite Forall_lookup in Hx. destruct (histoGroup_spec pool x ∅ (Hx _ _ Ex)) as (s' & ->). rewrite bind_Ok.
    eexists. split; [done|]. intros st' [= <-]. split; [|by cbn; rewrite length_insert]. cbn [fst hs_ch hs_workers hs_parts hs_reason].
    assert (histo_of step (group_times x.2) ∅ = hpart gi) as -> by (unfold hpart; by rewrite Ex). by eapply fan_store.
Qed.

Lemma merge_parts_lookup k l : ∀ out,
  default 0 (foldl merge_part out (Some <$> l) !! k) = default 0 (out !! k) + foldr (λ m acc, default 0 (m !! k) + acc) 0 l.
Proof.
  induction l as [|m l IH]; intros out; [cbn; lia|]. rewrite fmap_cons. cbn [foldl foldr]. rewrite IH, merge_part_lookup. lia.
Qed.
Lemma hparts_sum k : ∀ l j, (∀ i, gts !! (j + i)%nat = l !! i) →
  foldr (λ m acc, default 0 (m !! k) + acc) 0 (hpart <$> seq j (length l)) = tally (λ t, alignDown t step) (row_Time <$> matches q l) k.
Proof.
  induction l as [|x l IH]; intros j Hl; [done|]. cbn [length seq]. rewrite fmap_cons. cbn [foldr]. rewrite tally_matches, (IH (S j)).
  - f_equal. unfold hpart. pose proof (Hl 0%nat) as H0. rewrite Nat.add_0_r in H0. rewrite H0. cbn. rewrite histo_lookup, lookup_empty. cbn. lia.
  - intros i. specialize (Hl (S i)). by rewrite Nat.add_succ_r in Hl.
Qed.

Lemma histogramParallel_spec workers sched reason :
  (0 < workers)%nat →
  ∃ x, histogramParallel workers sched q step reason gts.*1 = Ok x ∧
    ∀ m r, x = Some (m, r) → r = None → reason = None ∧ ∀ k, default 0 (m !! k) = tally (λ t, alignDown t step) (row_Time <$> matches q gts) k.
Proof.
  intros Hw. unfold histogramParallel. rewrite length_fmap.
  assert (∀ sc st, hinv reason st → ∃ st', hrun gts.*1 q step sc st = Ok st' ∧ hinv reason st' ∧ length (hs_workers st') = length (hs_workers st)) as Hrun.
  { induction sc as [|[[w clock] pool] sc IH]; intros st Hi; cbn [hrun]; [by exists st|].
    destruct (hstep_inv reason st w clock pool Hi) as (x & -> & Hx). rewrite bind_Ok. destruct x as [st1|]; [|by apply IH].
    destruct (Hx st1 eq_refl) as [Hi1 <-]. by apply IH. }
  destruct (Hrun sched (HS (seq 0 (length gts)) (replicate workers HIdle) (replicate (length gts) None) reason)) as (st & -> & Hi & Hl); [by apply fan_init|].
  rewrite bind_Ok. eexists. split; [done|]. intros m r. destruct (hdone st) eqn:Hd; [|done]. intros [= <- <-] Hn. unfold hinv in Hi. rewrite Hn in Hi.
  split; [by apply (fi_reason _ _ _ _ _ _ _ _ _ Hi)|]. intros k. cbn in Hl. rewrite length_replicate in Hl. rewrite (fan_complete _ _ _ _ _ _ _ _ Hi).
  - rewrite (list_fmap_compose hpart Some), merge_parts_lookup, (hparts_sum k gts 0) by done. rewrite lookup_empty. cbn. lia.
  - intros E. rewrite E in Hl. cbn in Hl. lia.
  - unfold hdone in Hd. rewrite forallb_forall in Hd. rewrite Forall_forall. intros a Ha%list_elem_of_In. specialize (Hd a Ha). by destruct a.
  - done.
Qed.

Definition hweight (w : hworker) : nat := match w with HDone => 0 | HIdle => 1 | HScan _ => 2 | HTook _ => 3 end.
Definition hmeasure (st : hstate) : nat := 8 * length (hs_ch st) + sum_list_with hweight (hs_workers st).
Definition hlive (st : hstate) (w : nat) : bool := match hs_workers st !! w with None | Some HDone => false | _ => true end.
Definition hstep' (e : nat * option Stop * list Z) (st : hstate) : outcome (option hstate) := hstep gts.*1 q step e.1.1 e.1.2 e.2 st.
Lemma hrun_grun sched st : hrun gts.*1 q step sched st = grun hstep' sched st.
Proof.
  revert st. induction sched as [|[[w c] p] sched IH]; intros st; [done|]. cbn [hrun grun]. change (hstep' (w, c, p) st) with (hstep gts.*1 q step w c p st).
  destruct (hstep gts.*1 q step w c p st); [|done]. rewrite !bind_Ok. apply IH.
Qed.
Lemma hstep_forward workers reason st e :
  hinv reason st ∧ length (hs_workers st) = workers → hlive st e.1.1 = true →
  ∃ st', hstep' e st = Ok (Some st') ∧ (hinv reason st' ∧ length (hs_workers st') = workers) ∧ (hmeasure st' < hmeasure st)%nat ∧
    ∀ w', w' ≠ e.1.1 → hlive st' w' = hlive st w'.
Proof.
  destruct e as [[w clock] pool]. unfold hstep', hlive. cbn [fst snd]. intros [Hi Hlen] Ha.
  destruct (hs_workers st !! w) as [a|] eqn:Ew; [|done]. assert (a ≠ HDone) as Hd by (by intros ->). clear Ha.
  destruct (hstep_inv reason st w clock pool Hi) as (x & Ex & Hx). rewrite Ex. unfold hstep in Ex. rewrite Ew in Ex. cbv zeta in Ex.
  assert (∃ st', x = Some st' ∧ (hmeasure st' < hmeasure st)%nat ∧ ∃ b, hs_workers st' = <[w := b]> (hs_workers st)) as (st' & -> & Hm & b & Eb).
  { pose proof (λ b, sum_weight hweight _ w a b Ew) as Hsum. pose proof (weight_le hweight _ w a Ew).
    unfold hmeasure. destruct a; repeat (case_match || destruct (index _ _) || destruct (histoGroup _ _ _ _ _ _) || rewrite bind_Ok in Ex);
      try done; simplify_eq; eexists; (split; [done|]); cbn [hs_ch hs_workers]; (split; [|by eexists]);
      match goal with |- context [<[w := ?b]> _] => specialize (Hsum b) end; repeat match goal with E : hs_ch st = _ |- _ => rewrite E end; cbn [length hweight] in *; lia. }
  exists st'. split; [done|]. destruct (Hx st' eq_refl) as [Hi' Hl']. split; [split; [done|by rewrite Hl']|]. split; [done|].
  intros w' Hw'. by rewrite Eb, list_lookup_insert_ne.
Qed.
Lemma histogramParallel_ends workers sched reason :
  enough (λ e, e.1.1) workers (length gts) sched → ∃ m r, histogramParallel workers sched q step reason gts.*1 = Ok (Some (m, r)).
Proof.
  intros (rounds & -> & Hcov & Hlen). unfold histogramParallel. rewrite length_fmap, hrun_grun.
  destruct (grun_rounds hstep' (λ e, e.1.1) workers (λ st, hinv reason st ∧ length (hs_workers st) = workers) hmeasure hlive) with (rounds := rounds)
    (st := HS (seq 0 (length gts)) (replicate workers HIdle) (replicate (length gts) None) reason) as (st & -> & _ & Hd); [by apply hstep_forward| | | |done| |].
  - intros st [[w c] p] Hl. unfold hstep', hlive, hstep in *. cbn [fst snd] in *. destruct (hs_workers st !! w) as [[]|]; done.
  - intros st w [_ Hl] Hv. unfold hlive in Hv. destruct (hs_workers st !! w) as [a|] eqn:E; [|done]. split; [rewrite <- Hl; by eapply lookup_lt_Some|].
    unfold hmeasure. pose proof (weight_le hweight _ _ _ E). destruct a; cbn [hweight] in *; (done || lia).
  - split; [by apply fan_init|]. cbn [hs_workers]. by rewrite length_replicate.
  - unfold hmeasure. cbn [hs_ch hs_workers]. rewrite length_seq, weight_replicate by done. lia.
  - rewrite bind_Ok. assert (hdone st = true) as -> by (unfold hdone; apply forallb_forall; intros a (w & Ea)%list_elem_of_In%list_elem_of_lookup;
      specialize (Hd w); unfold hlive in Hd; rewrite Ea in Hd; by destruct a). by eexists _, _.
Qed.
End fanout.

Lemma Histogram_spec o workers sched gts :
  Forall in_service gts → (0 < workers)%nat →
  ∃ x, Histogram o workers sched (Some gts.*1) q step = Ok x ∧
    (enough (λ e, e.1.1) workers (length gts) sched → x ≠ None) ∧
    ∀ m, x = Some (m, None) → ∀ k, default 0 (m !! k) = tally (λ t, alignDown t step) (row_Time <$> matches q gts) k.
Proof.
  intros Hin Hw. unfold Histogram. destruct (snapshotOf_spec q gts Hin) as (kept0 & -> & Hin0 & Hl0%sublist_length & Hm0%same_hits_matches).
  destruct (prune_spec o q kept0 0 Hin0) as (kept & n & e & -> & Hk & Hl1%sublist_length & Hm' & He). rewrite bind_Ok. cbv beta iota.
  pose proof (λ E, same_hits_matches _ _ _ (Hm' E)) as Hm. case_bool_decide.
  - destruct (histogramParallel_spec kept Hk workers sched e Hw) as (x & Ex & Hx). rewrite Ex. eexists. split; [done|]. split.
    { intros Hen. destruct (histogramParallel_ends kept Hk workers sched e) as (m & r & E'); [eapply enough_less; [|done]; lia|].
      rewrite E' in Ex. by injection Ex as <-. }
    intros m ->. destruct (Hx m None eq_refl eq_refl) as (-> & Hk2). intros k. by rewrite Hk2, Hm, Hm0.
  - destruct (histo_serial_spec o kept n ∅ e Hk) as (m & r & -> & Hr). rewrite bind_Ok. eexists. split; [done|]. split; [done|].
    intros m' [= -> ->]. destruct (Hr eq_refl) as (-> & Hk2). intros k. rewrite Hk2, Hm, Hm0 by done. rewrite lookup_empty. cbn. lia.
Qed.

(** [Histogram] never panics, with enough scheduling it returns, and when it
    was not stopped it holds, for every bucket, the number of matching rows whose
    aligned time is that bucket, under any interleaving of its workers. *)
Theorem Histogram_counts o workers sched gts :
  Forall in_service gts → (0 < workers)%nat →
  ∃ x, Histogram o workers sched (Some gts.*1) q step = Ok x ∧
    (enough (λ e, e.1.1) workers (length gts) sched → x ≠ None) ∧
    ∀ m, x = Some (m, None) → ∀ k, default 0 (m !! k) = tally (λ t, alignDown t step) (row_Time <$> matches q gts) k.
Proof. by eapply Histogram_spec. Qed.
End histogram.

(** ** [Hits] *)

(** The first bucket of the window exists. *)
Definition bucketable (from step : Z) : Prop := - 2 ^ 63 ≤ from - from mod step.

Lemma bucket_floor step t from : 0 < step → bucketable from step → from - from mod step ≤ t → bucket step t = t - t mod step.
Proof.
  unfold bucketable, bucket. intros H0 Hb Ht. apply Z.max_l.
  pose proof (Z.div_mod (2 ^ 63) step ltac:(lia)). pose proof (Z.mod_pos_bound (2 ^ 63) step H0).
  pose proof (Z.div_mod t step ltac:(lia)). pose proof (Z.mod_pos_bound t step H0).
  pose proof (Z.div_mod from step ltac:(lia)). pose proof (Z.mod_pos_bound from step H0).
  assert (from / step ≤ t / step) by nia. assert (- (2 ^ 63 / step) ≤ from / step) by nia. nia.
Qed.

Lemma BucketSpan_spec from to step :
  is_i64 from → is_i64 to → from < to → 0 < step → is_i64 step → bucketable from step →
  let '(lo, hi) := BucketSpan from to step in
  lo = from - from mod step ∧ to ≤ hi ∧ is_i64 hi ∧ hi ≤ (to - 1) - (to - 1) mod step + step ∧ lo ≤ from.
Proof.
  intros Hf Ht Hlt H0 Hs Hb. unfold BucketSpan. rewrite bool_decide_eq_false_2 by lia. cbv zeta.
  pose proof (Z.mod_pos_bound from step H0). pose proof (Z.mod_pos_bound (to - 1) step H0).
  destruct (alignDown_spec from step Hf H0 Hs) as [-> _].
  destruct (alignDown_spec (to - 1) step) as [-> Hi]; [unfold is_i64 in *; lia|done|done|].
  rewrite (bucket_floor step from from), (bucket_floor step (to - 1) from) in * by (done || lia).
  set (last := to - 1 - (to - 1) mod step) in *. unfold is_i64 in *.
  destruct (decide (last + step < 2 ^ 63)) as [Hfit|Hover].
  - rewrite (i64_small (last + step)) by (unfold is_i64; lia). rewrite (bool_decide_eq_false_2 (last + step < last)) by lia.
    rewrite bool_decide_eq_false_2 by lia. lia.
  - rewrite i64_over by lia. rewrite (bool_decide_eq_true_2 (last + step - 2 ^ 64 < last)) by lia. unfold MaxInt64. rewrite bool_decide_eq_false_2 by lia. lia.
Qed.

(** The bucket of an instant the scan reads is one the walk emits. *)
Lemma bucket_walked from to step t :
  is_i64 from → is_i64 to → from < to → 0 < step → is_i64 step → bucketable from step →
  (let '(lo, hi) := BucketSpan from to step in lo ≤ t < hi) →
  is_i64 t ∧ alignDown t step ∈ (λ k, bucket step from + k * step) <$> seqZ 0 (walk_len (bucket step from) to step).
Proof.
  intros Hf Ht Hlt H0 Hs Hb Hw. pose proof (BucketSpan_spec from to step Hf Ht Hlt H0 Hs Hb) as Hspan.
  destruct (BucketSpan from to step) as [lo hi]. destruct Hspan as (-> & Hto & Hhi & Hle & _).
  assert (is_i64 t) as Hti by (unfold is_i64, bucketable in *; lia). split; [done|].
  destruct (alignDown_spec t step Hti H0 Hs) as [-> _]. rewrite (bucket_floor step from from), (bucket_floor step t from) by (done || (pose proof (Z.mod_pos_bound from step H0); lia)).
  pose proof (Z.div_mod t step ltac:(lia)) as D1. pose proof (Z.mod_pos_bound t step H0) as M1.
  pose proof (Z.div_mod from step ltac:(lia)) as D2. pose proof (Z.mod_pos_bound from step H0) as M2.
  pose proof (Z.div_mod (to - 1) step ltac:(lia)) as D3. pose proof (Z.mod_pos_bound (to - 1) step H0) as M3.
  apply list_elem_of_fmap. exists (t / step - from / step). split; [nia|]. apply elem_of_seqZ.
  assert (from / step ≤ t / step) by nia. assert (t / step ≤ (to - 1) / step) by nia. split; [lia|].
  set (start := from - from mod step). unfold walk_len. rewrite Z.add_0_l. apply Z.lt_le_trans with ((to - start + step - 1) / step); [|lia].
  apply Z.lt_le_trans with (t / step - from / step + 1); [lia|]. apply Z.div_le_lower_bound; [done|]. subst start. nia.
Qed.

Section hits.
Context {T : GoText} {R : MapRange} {K : Simd} {KL : SimdLaws K} {F : Flate} {FL : FlateLaws F}.
Context {B : BitOps} {BL : BitOpsLaws B} {M : MaskOps} {ML : MaskOpsLaws M}.

Lemma matches_window q gts : Forall (λ r, q_From q ≤ row_Time r < q_To q) (matches q gts).
Proof.
  rewrite Forall_forall. intros r (l & (x & -> & Hx)%list_elem_of_fmap & Hr)%elem_of_concat.
  apply list_elem_of_fmap in Hr as (i & -> & [Hi Hq]%elem_matching). cbn. unfold query_sem in Hq.
  by apply andb_true_iff in Hq as [Hw%bool_decide_eq_true _].
Qed.

Lemma Hits_spec o env envs gts q step :
  Forall in_service gts → (0 < e_workers env)%nat →
  is_i64 (q_From q) → is_i64 (q_To q) → q_From q < q_To q → 0 < step → is_i64 step → bucketable (q_From q) step →
  walk_len (bucket step (q_From q)) (q_To q) step ≤ maxHitsBuckets →
  let '(lo, hi) := BucketSpan (q_From q) (q_To q) step in
  let rows := matches (SetWindow q lo hi) gts in
  let n := walk_len (bucket step (q_From q)) (q_To q) step in
  lo ≤ q_From q ∧ q_To q ≤ hi ∧
  ∃ x, Hits None o (env :: envs) (Some gts.*1) q step [] = Ok x ∧
    (enough (λ e, e.1.1) (e_workers env) (length gts) (e_sched env) → x ≠ None) ∧
    ∀ hs, x = Some ([([], hs)], None) →
      hs_Timestamps hs = (λ k, lo + k * step) <$> seqZ 0 n ∧
      hs_Values hs = (λ k, tally (λ r, row_Time r - row_Time r mod step) rows (lo + k * step)) <$> seqZ 0 n ∧
      hs_Total hs = len rows.
Proof.
  intros Hin Hw Hf Ht Hlt H0 Hs Hb Hcap. unfold Hits. unfold hits_step. rewrite (bool_decide_eq_false_2 (step ≤ 0)) by lia.
  pose proof (BucketSpan_spec (q_From q) (q_To q) step Hf Ht Hlt H0 Hs Hb) as Hspan.
  pose proof (λ t, bucket_walked (q_From q) (q_To q) step t Hf Ht Hlt H0 Hs Hb) as Hwalk.
  destruct (BucketSpan (q_From q) (q_To q) step) as [lo hi]. destruct Hspan as (Elo & Hto & Hhi & Hle & Hlof).
  unfold exceeded. rewrite (bool_decide_eq_false_2 (0 < q_MaxBytes q ∧ _)), (bool_decide_eq_false_2 (0 < q_maxMemory q ∧ _)) by lia.
  rewrite (bool_decide_eq_true_2 ([] = [])) by done.
  destruct (Histogram_spec (SetWindow q lo hi) step (e_out env) (e_workers env) (e_sched env) gts Hin Hw) as (x & -> & Hen & Hx). rewrite bind_Ok.
  cbv zeta. split; [done|]. split; [done|]. eexists. split; [done|]. split; [intros H; specialize (Hen H); by destruct x as [[??]|]|].
  intros hs. destruct x as [[m r]|]; [|done]. intros [= <- ->]. specialize (Hx m eq_refl).
  rewrite fillHits_spec by done. cbv zeta. rewrite Z.min_r by done. cbn [hs_Timestamps hs_Values hs_Total].
  assert (bucket step (q_From q) = lo) as Est by (rewrite (bucket_floor step (q_From q) (q_From q)); (done || (pose proof (Z.mod_pos_bound (q_From q) step H0); lia))).
  rewrite Est in *. set (rows := matches (SetWindow q lo hi) gts) in *. set (n := walk_len lo (q_To q) step) in *.
  assert (∀ u, u ∈ row_Time <$> rows → lo ≤ u < hi) as Hrows.
  { intros u (r & -> & Hr)%list_elem_of_fmap. pose proof (matches_window (SetWindow q lo hi) gts) as Hmw. rewrite Forall_forall in Hmw. by apply Hmw. }
  split_and!; [done| |].
  - apply list_fmap_ext. intros _ k _. rewrite Hx. unfold tally.
    assert (∀ l, (∀ r, r ∈ l → r ∈ rows) → len (filter (λ u, alignDown u step = lo + k * step) (row_Time <$> l)) =
       len (filter (λ r, row_Time r - row_Time r mod step = lo + k * step) l)) as Hl.
    { induction l as [|r l IH]; intros Hsub; [done|]. rewrite fmap_cons, !filter_cons.
      assert (alignDown (row_Time r) step = row_Time r - row_Time r mod step) as ->.
      { assert (lo ≤ row_Time r < hi) as Hr by (apply Hrows, list_elem_of_fmap; exists r; split; [done|]; apply Hsub; left).
        destruct (Hwalk _ Hr) as [Hi _]. destruct (alignDown_spec (row_Time r) step Hi H0 Hs) as [-> _].
        apply (bucket_floor step _ (q_From q)); [done|done|lia]. }
      destruct (decide _); rewrite ?len_cons, IH by (intros; apply Hsub; by right); done. }
    by apply Hl.
  - replace ((λ k, default 0 (m !! (lo + k * step))) <$> seqZ 0 n)
      with (tally (λ t, alignDown t step) (row_Time <$> rows) <$> ((λ k, lo + k * step) <$> seqZ 0 n))
      by (rewrite <- list_fmap_compose; apply list_fmap_ext; intros _ k _; cbn; by rewrite Hx).
    rewrite sum_tally.
    + by rewrite len_fmap.
    + apply NoDup_fmap_2_strong; [|apply NoDup_seqZ]. intros a b _ _ E. nia.
    + rewrite Forall_forall. intros u Hu. by apply Hwalk, Hrows.
Qed.

(** C34: an unsplit hits query never panics, returns with enough scheduling, and
    when it was not stopped gives one bucket per step from the first bucket of the
    window to its end with no gap, each with the number of matching rows whose
    time falls in it; its total is the number of matching rows of the window
    widened to whole buckets. Of at most [maxHitsBuckets] buckets, whose first starts
    no lower than the bottom of int64. *)
Theorem Hits_dense o env envs gts q step :
  Forall in_service gts → (0 < e_workers env)%nat →
  is_i64 (q_From q) → is_i64 (q_To q) → q_From q < q_To q → 0 < step → is_i64 step → bucketable (q_From q) step →
  walk_len (bucket step (q_From q)) (q_To q) step ≤ maxHitsBuckets →
  let '(lo, hi) := BucketSpan (q_From q) (q_To q) step in
  let rows := matches (SetWindow q lo hi) gts in
  let n := walk_len (bucket step (q_From q)) (q_To q) step in
  lo ≤ q_From q ∧ q_To q ≤ hi ∧
  ∃ x, Hits None o (env :: envs) (Some gts.*1) q step [] = Ok x ∧
    (enough (λ e, e.1.1) (e_workers env) (length gts) (e_sched env) → x ≠ None) ∧
    ∀ hs, x = Some ([([], hs)], None) →
      hs_Timestamps hs = (λ k, lo + k * step) <$> seqZ 0 n ∧
      hs_Values hs = (λ k, tally (λ r, row_Time r - row_Time r mod step) rows (lo + k * step)) <$> seqZ 0 n ∧
      hs_Total hs = len rows.
Proof. by eapply Hits_spec. Qed.

(** A filter tree hides the predicate of a split: every series is the same. *)
Lemma matches_with_filter q e ps1 ps2 gts :
  matches (with_filter q ps1 (Some e)) gts = matches (with_filter q ps2 (Some e)) gts.
Proof. done. Qed.
End hits.
