(* ===== verification/StatsOk.v ===== *)
(** * What [StatsByField] counts

    The counts of a field's values over a scan: the number of matching rows that
    hold each value, from the posting counts where a group lies inside the window
    and from the rows elsewhere, listed most frequent first. *)

From S2P Require Import Prelude Digits GoLib Kernels Indices Timestamps DictSection DictLayout Postings Bloom Group Bitset Select.
From S2P Require Import Reader ReaderSafe ReaderOk Table Writer Filter FilterOk Engine EngineOk TimeFilter Scan ScanOk PagesOk Aggregate AggregateOk.
From stdpp Require Import list gmap sorting.
Local Open Scope Z_scope.

Lemma filter_on {A} (P Q : A → Prop) `{∀ x, Decision (P x), ∀ x, Decision (Q x)} (l : list A) :
  (∀ x, x ∈ l → P x ↔ Q x) → filter P l = filter Q l.
Proof.
  induction l as [|x l IH]; intros Hl; [done|]. rewrite !filter_cons, IH by (intros; apply Hl; by right).
  pose proof (Hl x (list_elem_of_here _ _)) as Hx. destruct (decide (P x)), (decide (Q x)); tauto.
Qed.

(** ** Counting by id *)

(** The counts of the ids whose value is [v]. *)
Fixpoint weigh (dict : list bytes) (per : list Z) (v : bytes) : Z :=
  match dict, per with
  | u :: dict', c :: per' => (if bool_decide (u = v) then c else 0) + weigh dict' per' v
  | _, _ => 0
  end.

Lemma weigh_zero dict v : weigh dict (replicate (length dict) 0) v = 0.
Proof. induction dict as [|u dict IH]; [done|]. cbn. rewrite IH. by case_bool_decide. Qed.
Lemma weigh_bump dict v : ∀ per x u c,
  dict !! x = Some u → per !! x = Some c → weigh dict (<[x := c + 1]> per) v = weigh dict per v + (if bool_decide (u = v) then 1 else 0).
Proof.
  induction dict as [|w dict IH]; intros [|d per] [|x] u c Hu Hc; try done.
  - injection Hu as ->. injection Hc as ->. cbn. case_bool_decide; lia.
  - change (<[S x := c + 1]> (d :: per)) with (d :: <[x := c + 1]> per). cbn [weigh]. rewrite (IH per x u c Hu Hc). lia.
Qed.

Lemma per_id_spec dict idx v (val : Z → option bytes) rows : ∀ per,
  length per = length dict → Forall (λ c, 0 ≤ c) per →
  (∀ i, i ∈ rows → 0 ≤ i ∧ ∃ x u, idx !! Z.to_nat i = Some x ∧ 0 ≤ x ∧ dict !! Z.to_nat x = Some u ∧ val i = Some u) →
  ∃ per', count_ids idx rows per = Ok per' ∧ length per' = length dict ∧ Forall (λ c, 0 ≤ c) per' ∧
    weigh dict per' v = weigh dict per v + len (filter (λ i, val i = Some v) rows).
Proof.
  induction rows as [|i rows IH]; intros per Hl Hp Hr; cbn [count_ids].
  { exists per. split_and!; try done. unfold len. cbn. lia. }
  destruct (Hr i (list_elem_of_here _ _)) as (H0 & x & u & Ex & Hx0 & Eu & Ev).
  rewrite (index_Ok _ _ x), bind_Ok by done. pose proof (lookup_lt_Some _ _ _ Eu) as Hlt.
  destruct (lookup_lt_is_Some_2 per (Z.to_nat x)) as [c Ec]; [lia|]. rewrite (index_Ok _ _ c), bind_Ok by done.
  rewrite store_Ok, bind_Ok by (unfold len; lia). rewrite Forall_lookup in Hp. pose proof (Hp _ _ Ec) as Hc.
  destruct (IH (<[Z.to_nat x := c + 1]> per)) as (per' & -> & Hl' & Hp' & Hw).
  - by rewrite length_insert.
  - apply Forall_insert; [by apply Forall_lookup|lia].
  - intros j Hj. apply Hr. by right.
  - exists per'. split_and!; try done. rewrite Hw, (weigh_bump _ _ _ _ u) by done. rewrite filter_cons.
    destruct (decide (val i = Some v)) as [E|E].
    + rewrite bool_decide_eq_true_2 by congruence. rewrite len_cons. lia.
    + rewrite bool_decide_eq_false_2 by congruence. lia.
Qed.

Lemma add_ids_spec dict : ∀ per counts v,
  Forall (λ c, 0 ≤ c) per → default 0 (add_ids dict per counts !! v) = default 0 (counts !! v) + weigh dict per v.
Proof.
  induction dict as [|u dict IH]; intros [|c per] counts v Hp; cbn [add_ids weigh]; try lia.
  apply Forall_cons_1 in Hp as [Hc Hp]. rewrite IH by done. case_bool_decide.
  - rewrite bump_lookup. rewrite (bool_decide_ext (v = u) (u = v)) by done. lia.
  - assert (c = 0) as -> by lia. case_bool_decide; lia.
Qed.
(** Every entry of the map is a positive count. *)
Definition positive (counts : gmap bytes Z) : Prop := map_Forall (λ _ c, 0 < c) counts.
Lemma bump_positive counts u n : positive counts → 0 < n → positive (bump counts u n).
Proof.
  intros Hp Hn. apply map_Forall_insert_2; [|done]. destruct (counts !! u) as [c|] eqn:E; cbn; [apply Hp in E; lia|lia].
Qed.
Lemma add_ids_positive dict : ∀ per counts, positive counts → positive (add_ids dict per counts).
Proof.
  induction dict as [|u dict IH]; intros [|c per] counts Hp; cbn [add_ids]; try done. apply IH. case_bool_decide; [by apply bump_positive|done].
Qed.

Lemma add_counts_spec vcs : ∀ counts,
  NoDup (vc_Value <$> vcs) → (∀ v, default 0 (add_counts vcs counts !! v) = default 0 (counts !! v) + default 0 (vc_Count <$> List.find (λ vc, bool_decide (vc_Value vc = v)) vcs)) ∧
  (positive counts → Forall (λ vc, 0 < vc_Count vc) vcs → positive (add_counts vcs counts)).
Proof.
  unfold add_counts. induction vcs as [|[u n] vcs IH]; intros counts Hnd; [split; [intros v; cbn; lia|done]|].
  rewrite fmap_cons in Hnd. apply NoDup_cons in Hnd as [Hu Hnd]. cbn [foldl vc_Value vc_Count]. destruct (IH (bump counts u n) Hnd) as [H1 H2]. split.
  - intros v. rewrite H1, bump_lookup. cbn [List.find vc_Value]. rewrite (bool_decide_ext (v = u) (u = v)) by done. case_bool_decide as E.
    + subst v. cbn. destruct (List.find _ vcs) as [vc|] eqn:Ef; cbn; [|lia]. apply List.find_some in Ef as [Hin Hv].
      apply bool_decide_eq_true in Hv. destruct Hu. rewrite <- Hv. apply list_elem_of_fmap. exists vc. split; [done|]. by apply list_elem_of_In.
    + lia.
  - intros Hp [Hn Hv]%Forall_cons_1. apply H2; [by apply bump_positive|done].
Qed.

(** ** One group *)

Lemma rows_where_filter vs v : ∀ row, rows_where row vs v = filter (λ i, vs !! Z.to_nat (i - row) = Some v) (seqZ row (len vs)).
Proof.
  intros row. apply sorted_ext.
  - revert row. induction vs as [|u vs IH]; intros row; cbn [rows_where]; [constructor|].
    assert (Forall (Z.lt row) (rows_where (row + 1) vs v)) as Hf.
    { rewrite Forall_forall. intros i (k & -> & _)%elem_rows_where. lia. }
    destruct (str_eqb u v); [by constructor|done].
  - apply sorted_filter, sorted_seqZ.
  - intros i. rewrite elem_rows_where, list_elem_of_filter, elem_of_seqZ. split.
    + intros (k & -> & Hk). split; [by replace (Z.to_nat (row + Z.of_nat k - row)) with k by lia|].
      apply lookup_lt_Some in Hk. unfold len. lia.
    + intros [Hv Hi]. exists (Z.to_nat (i - row)). split; [lia|done].
Qed.

Section stats.
Context {T : GoText} {R : MapRange} {K : Simd} {KL : SimdLaws K} {F : Flate} {FL : FlateLaws F}.
Context {B : BitOps} {BL : BitOpsLaws B} {M : MaskOps} {ML : MaskOpsLaws M}.
Context (q : Query) (field : bytes).

(** The matching rows of a group that hold [v]. *)
Definition hits_of (t : table) (v : bytes) : Z := len (filter (λ i, field_sem t field (Z.to_nat i) = Some v) (query_rows t q)).
Definition hits_total (gts : list (leased * table)) (v : bytes) : Z := foldr (λ x acc, hits_of x.2 v + acc) 0 gts.

(** The group's counts are read from postings: no filter tree, and the group
    was written with them. *)
Definition footer_ok (x : leased * table) : Prop :=
  q_Filter q = None ∧ ∃ ts, serves false (l_reader x.1) x.2 ts.

Lemma inside_rows x ts np :
  serves np (l_reader x.1) x.2 ts → q_Filter q = None → q_Preds q = [] → q_From q ≤ r_TimeMin (l_reader x.1) → r_TimeMax (l_reader x.1) < q_To q →
  query_rows x.2 q = seqZ 0 (t_rows x.2).
Proof.
  intros Hv Hf Hp H1 H2. unfold query_rows, matching. destruct (times_served np _ _ ts Hv) as (Hta & Hl & _).
  trans (filter (λ _ : Z, True) (seqZ 0 (t_rows x.2))); [|by induction (seqZ 0 (t_rows x.2)) as [|j l IH]; [|rewrite filter_cons_True, IH by done]].
  apply filter_on. intros i Hi%elem_of_seqZ. split; [done|intros _]. unfold query_sem, filter_sem. rewrite Hf, Hp. cbn. rewrite andb_true_r.
  destruct (time_served np _ _ ts Hv (Z.to_nat i)) as (u & Eu & ->); [unfold len in *; lia|].
  pose proof (ta_group _ _ _ Hta u (u + 1) u ltac:(by eapply list_elem_of_lookup_2) ltac:(lia)) as Hg.
  unfold TimeRangeMatches in Hg. apply andb_true_iff in Hg as [G1%bool_decide_eq_true G2%bool_decide_eq_true].
  unfold in_window. apply bool_decide_eq_true_2. lia.
Qed.

Lemma fast_group x counts :
  footer_ok x → q_Preds q = [] → field ≠ s_time → q_From q ≤ r_TimeMin (l_reader x.1) → r_TimeMax (l_reader x.1) < q_To q → positive counts →
  ∃ vcs, ValueCounts (l_reader x.1) field = Ok vcs ∧ positive (add_counts vcs counts) ∧
    ∀ v, default 0 (add_counts vcs counts !! v) = default 0 (counts !! v) + hits_of x.2 v.
Proof.
  intros [Hf (ts & Hv)] Hp Hnt H1 H2 Hpos.
  destruct (column_of false _ _ (sv_ans _ _ _ _ Hv) (sv_pos _ _ _ _ Hv) field) as [vs ids dict Ef Hsa Ev Hcd Hid Hl Hne|Hg Hg2].
  - destruct (sa_counts _ _ _ _ Hsa eq_refl) as (d & Hs & Hiff & ->). eexists. split; [done|].
    assert (NoDup (vc_Value <$> ((λ v, VC v (len (rows_where 0 vs v))) <$> d))) as Hnd.
    { rewrite <- list_fmap_compose. change (NoDup (id <$> d)). rewrite list_fmap_id.
      clear -Hs. induction Hs as [|u d _ IH Hf]; constructor; [|done]. intros Hin. rewrite Forall_forall in Hf. apply (str_lt_irrefl u). by apply Hf. }
    destruct (add_counts_spec _ counts Hnd) as [A1 A2]. split.
    + apply A2; [done|]. apply Forall_fmap, Forall_forall. intros v Hv'. cbn. apply Hiff in Hv'. apply list_elem_of_lookup in Hv' as [k Hk].
      assert (Z.of_nat k ∈ rows_where 0 vs v) as Hin by (apply elem_rows_where; by exists k). destruct (rows_where 0 vs v); [by apply elem_of_nil in Hin|]. rewrite len_cons. len_facts. lia.
    + intros v. rewrite A1. f_equal. unfold hits_of. rewrite (inside_rows x ts false Hv Hf Hp H1 H2).
      assert (len vs = t_rows x.2) as Hvs by (by rewrite <- Ev, len_fmap).
      assert (len (rows_where 0 vs v) = len (filter (λ i, field_sem x.2 field (Z.to_nat i) = Some v) (seqZ 0 (t_rows x.2)))) as Hrw.
      { rewrite rows_where_filter, Hvs. f_equal. apply filter_on. intros i Hi%elem_of_seqZ. rewrite Z.sub_0_r. unfold field_sem, cell_at. rewrite Ef.
        destruct (lookup_lt_is_Some_2 vs (Z.to_nat i)) as [u Eu]; [unfold len in *; lia|]. by rewrite Eu. }
      destruct (decide (v ∈ d)) as [Hin|Hout].
      * assert (List.find (λ vc, bool_decide (vc_Value vc = v)) ((λ v, VC v (len (rows_where 0 vs v))) <$> d) = Some (VC v (len (rows_where 0 vs v)))) as ->; [|done].
        clear -Hin. induction d as [|u d IH]; [by apply elem_of_nil in Hin|]. rewrite fmap_cons. cbn [List.find vc_Value]. case_bool_decide as E; [by subst|].
        apply elem_of_cons in Hin as [?|Hin]; [by subst|]. by apply IH.
      * assert (List.find (λ vc, bool_decide (vc_Value vc = v)) ((λ v, VC v (len (rows_where 0 vs v))) <$> d) = None) as ->.
        { clear -Hout. induction d as [|u d IH]; [done|]. rewrite fmap_cons. cbn [List.find vc_Value]. apply not_elem_of_cons in Hout as [? Hout].
          rewrite bool_decide_eq_false_2 by congruence. by apply IH. }
        cbn. rewrite <- Hrw. rewrite rows_where_absent; [done|]. by rewrite Hiff.
  - unfold ValueCounts, ValueCountsInto. rewrite Hg2. eexists. split; [done|]. split; [done|]. intros v. cbn.
    assert (hits_of x.2 v = 0) as ->; [|lia]. unfold hits_of.
    assert (filter (λ i, field_sem x.2 field (Z.to_nat i) = Some v) (query_rows x.2 q) = []) as ->; [|done].
    apply elem_of_nil_inv. intros i [Hi _]%list_elem_of_filter. unfold field_sem, cell_at in Hi. unfold string_col in Hg.
    destruct (find_values (t_cols x.2) field) as [[]|]; try done; unfold str_eqb in Hi; by rewrite bool_decide_eq_false_2 in Hi.
Qed.

Lemma dictOrTime_spec x s :
  (∃ np ts, serves np (l_reader x.1) x.2 ts) → caches_ok (l_reader x.1) s →
  ∃ idx dict s', dictOrTime (l_reader x.1) s field = Ok (idx, dict, s') ∧ caches_ok (l_reader x.1) s' ∧
    (idx = [] → ∀ i, field_sem x.2 field i = None) ∧
    (idx ≠ [] → ∀ i, 0 ≤ i < t_rows x.2 → ∃ y u, idx !! Z.to_nat i = Some y ∧ 0 ≤ y ∧ dict !! Z.to_nat y = Some u ∧ field_sem x.2 field (Z.to_nat i) = Some u).
Proof.
  intros (np & ts & Hv) Hs. unfold dictOrTime.
  destruct (column_of np _ _ (sv_ans _ _ _ _ Hv) (sv_pos _ _ _ _ Hv) field) as [vs ids dict Ef Hsa Ev Hcd Hid Hl Hne|Hg Hg2].
  - destruct (cd_all _ _ _ _ Hcd s Hs) as (s' & -> & Hs'). rewrite bind_Ok. cbv beta iota. rewrite (bool_decide_eq_true_2 (ids ≠ [])) by done. cbn [orb].
    exists ids, dict, s'. split_and!; [done|done|by intros ->|]. intros _ i Hi.
    destruct (coded_good x.2 [i] field vs ids dict dict Ef Ev (cd_range _ _ _ _ Hcd) Hl ltac:(intros j ->%list_elem_of_singleton; done) ltac:(done) Hne i ltac:(left))
      as (y & u & Ey & Hy & Eu & Ec). exists y, u. split_and!; try done. unfold field_sem. cbn in Ec. by rewrite Ec.
  - rewrite (DictIndices_none _ s _ Hg2), bind_Ok. cbv beta iota. rewrite (bool_decide_eq_false_2 ([] ≠ [])) by (by intros []). cbn [orb].
    assert (∀ i, cell_at x.2 field i = None) as Hcell.
    { intros i. unfold cell_at, string_col in *. by destruct (find_values (t_cols x.2) field) as [[]|]. }
    destruct (str_eqb field s_time) eqn:Et; cbn [negb].
    + destruct (times_served np _ _ ts Hv) as (Hta & Hlen & Hne). rewrite (rows_served np _ _ ts Hv).
      assert (TimestampsRange (l_reader x.1) s_time 0 (t_rows x.2) = Ok ts) as ->.
      { pose proof (ta_range _ _ _ Hta [] 0 (length ts)) as Hr. rewrite Nat.sub_0_r, drop_0, take_ge in Hr by done.
        rewrite <- Hlen. apply Hr. destruct ts; [done|]. cbn. lia. }
      rewrite bind_Ok. eexists _, _, _. split; [done|]. split; [done|]. split.
      * intros E. apply (f_equal length) in E. rewrite length_seqZ in E. destruct ts; [done|]. unfold len in E. cbn in E. lia.
      * intros _ i Hi. destruct (time_served np _ _ ts Hv (Z.to_nat i)) as (u & Eu & Etu); [unfold len in *; lia|].
        exists i, (formatTime u). split_and!; [|lia| |].
        -- apply lookup_seqZ. lia.
        -- by rewrite list_lookup_fmap, Eu.
        -- unfold field_sem. by rewrite Hcell, Et, Etu.
    + eexists _, _, _. split; [done|]. split; [done|]. split; [|done]. intros _ i. unfold field_sem. by rewrite Hcell, Et.
Qed.

Lemma stats_group_spec x counts :
  in_service x → footer_ok x → positive counts →
  ∃ counts', stats_group (l_reader x.1) (l_caches x.1) q field counts = Ok counts' ∧ positive counts' ∧
    ∀ v, default 0 (counts' !! v) = default 0 (counts !! v) + hits_of x.2 v.
Proof.
  intros [Hs (np & ts & Hv)] Hfo Hpos. unfold stats_group. case_bool_decide as Hfast.
  { destruct Hfast as (Hp & Hnt & H1 & H2). destruct (fast_group x counts Hfo Hp Hnt H1 H2 Hpos) as (vcs & -> & Hp' & Hc). rewrite bind_Ok. by eexists. }
  destruct (matchBitset_spec np _ _ ts Hv (l_caches x.1) q Hs) as (b & s' & -> & Hs' & Hb). rewrite bind_Ok. cbn [fst snd].
  rewrite (selects_Count _ _ _ Hb), (selects_ForEach _ _ _ Hb). fold (query_rows x.2 q). case_bool_decide as H0.
  { exists counts. split_and!; [done|done|]. intros v. unfold hits_of.
    replace (query_rows x.2 q) with (@nil Z) by (symmetry; apply length_zero_iff_nil; unfold len in *; lia). unfold len. cbn. lia. }
  destruct (dictOrTime_spec x s' ltac:(by exists np, ts) Hs') as (idx & dict & s2 & -> & _ & Hnil & Hval). rewrite bind_Ok. cbv beta iota.
  case_bool_decide as Hi.
  { exists counts. split_and!; [done|done|]. intros v. unfold hits_of.
    assert (filter (λ i, field_sem x.2 field (Z.to_nat i) = Some v) (query_rows x.2 q) = []) as ->; [|unfold len; cbn; lia].
    apply elem_of_nil_inv. intros i [Hf _]%list_elem_of_filter. by rewrite (Hnil Hi) in Hf. }
  assert (∀ i, i ∈ query_rows x.2 q → 0 ≤ i ∧ ∃ y u, idx !! Z.to_nat i = Some y ∧ 0 ≤ y ∧ dict !! Z.to_nat y = Some u ∧ field_sem x.2 field (Z.to_nat i) = Some u) as Hr.
  { intros i [Hb1 _]%elem_matching. split; [lia|]. by apply Hval. }
  destruct (per_id_spec dict idx [] (λ i, field_sem x.2 field (Z.to_nat i)) (query_rows x.2 q) (replicate (length dict) 0)) as (per & Eper & _);
    [by rewrite length_replicate|by apply Forall_replicate|done|]. rewrite Eper, bind_Ok. eexists. split; [done|]. split; [by apply add_ids_positive|].
  intros v. destruct (per_id_spec dict idx v (λ i, field_sem x.2 field (Z.to_nat i)) (query_rows x.2 q) (replicate (length dict) 0)) as (per' & Eper' & _ & Hp' & Hw);
    [by rewrite length_replicate|by apply Forall_replicate|done|]. rewrite Eper in Eper'. injection Eper' as <-.
  rewrite add_ids_spec, Hw, weigh_zero by done. unfold hits_of. lia.
Qed.

Lemma stats_scan_spec o gts : ∀ n counts,
  Forall in_service gts → Forall (footer_ok) gts → positive counts →
  ∃ counts' r, stats_scan o n q field counts gts.*1 = Ok (counts', r) ∧ positive counts' ∧
    (r = None → ∀ v, default 0 (counts' !! v) = default 0 (counts !! v) + hits_total gts v) ∧ ((∀ k, o_clock o k = None) → r = None).
Proof.
  induction gts as [|x gts IH]; intros n counts Hin Hfo Hpos; cbn [stats_scan].
  { exists counts, None. split_and!; try done. intros _ v. cbn. lia. }
  apply Forall_cons_1 in Hin as [Hx Hin]. apply Forall_cons_1 in Hfo as [Hf Hfo]. rewrite fmap_cons. cbn [stats_scan].
  destruct (exceeded q (o_clock o n) 0) as [e|] eqn:Ee.
  { exists counts, (Some e). split_and!; try done. intros Hc. unfold exceeded in Ee. rewrite Hc in Ee.
    by rewrite !bool_decide_eq_false_2 in Ee by lia. }
  pose proof Hx as [_ (np & ts & Hv)]. destruct (groupCanMatch_spec np _ _ ts Hv q) as (c & -> & Hc). rewrite bind_Ok. destruct c.
  - destruct (stats_group_spec x counts Hx Hf Hpos) as (c1 & -> & Hp1 & H1). rewrite bind_Ok.
    destruct (IH (S n) c1 Hin Hfo Hp1) as (c2 & r & -> & Hp2 & H2 & H3). exists c2, r. split_and!; try done.
    intros Hn v. rewrite (H2 Hn), H1. cbn [hits_total foldr]. unfold hits_total. lia.
  - destruct (IH (S n) counts Hin Hfo Hpos) as (c2 & r & -> & Hp2 & H2 & H3). exists c2, r. split_and!; try done.
    intros Hn v. rewrite (H2 Hn). cbn [hits_total foldr]. fold (hits_total gts v).
    assert (hits_of x.2 v = 0) as -> by (unfold hits_of; by rewrite Hc). lia.
Qed.

(** The list of a map of counts: each entry once, most frequent first. *)
Lemma vc_less_spec a b : vc_less a b = true ↔ vc_Count b < vc_Count a ∨ vc_Count a = vc_Count b ∧ str_lt (vc_Value a) (vc_Value b).
Proof.
  unfold vc_less, str_lt. destruct (decide (vc_Count a = vc_Count b)) as [E|E].
  - rewrite (bool_decide_eq_true_2 _ E). cbn [negb]. split; [by right|]. intros [?|[_ ?]]; [lia|done].
  - rewrite (bool_decide_eq_false_2 _ E). cbn [negb]. rewrite bool_decide_eq_true. split; [by left|]. intros [?|[? _]]; [done|lia].
Qed.
Lemma vc_less_sorted l : StronglySorted (λ a b, vc_less b a = false) (sortValueCounts l).
Proof.
  apply stable_sort_sorted; unfold le_by.
  - intros a b Hab. apply not_true_iff_false. intros Hba. apply vc_less_spec in Hab, Hba. destruct Hab as [|[E1 L1]], Hba as [|[E2 L2]]; try lia.
    apply (str_lt_irrefl (vc_Value a)). by eapply str_lt_trans.
  - intros a b c Hab Hbc. apply not_true_iff_false. intros Hca. apply not_true_iff_false in Hab, Hbc. rewrite vc_less_spec in *.
    destruct Hca as [Hca|[E L]].
    + destruct (decide (vc_Count a = vc_Count b)) as [E1|E1]; [|lia]. destruct (decide (vc_Count b = vc_Count c)) as [E2|E2]; lia.
    + destruct (decide (vc_Count a = vc_Count b)) as [E1|E1]; [|lia].
      destruct (str_trichotomy (vc_Value a) (vc_Value b)) as [H|[H|H]].
      * apply Hbc. right. split; [lia|]. by eapply str_lt_trans.
      * apply Hbc. right. split; [lia|]. by rewrite <- H.
      * apply Hab. right. done.
Qed.
Lemma counts_list_spec m v c : VC v c ∈ counts_list m ↔ m !! v = Some c.
Proof.
  unfold counts_list, sortValueCounts. rewrite stable_sort_perm, list_elem_of_fmap. split.
  - intros ([v' c'] & [= -> ->] & Hin). rewrite range_perm in Hin. by apply elem_of_map_to_list in Hin.
  - intros E. exists (v, c). split; [done|]. rewrite range_perm. by apply elem_of_map_to_list.
Qed.
Lemma counts_list_values m : NoDup (vc_Value <$> counts_list m).
Proof.
  unfold counts_list, sortValueCounts. rewrite stable_sort_perm, <- list_fmap_compose. change (NoDup ((range_map m).*1)).
  rewrite range_perm. apply NoDup_fst_map_to_list.
Qed.

Lemma StatsByField_spec o gts :
  Forall in_service gts → Forall footer_ok gts →
  ∃ l r, StatsByField o (Some gts.*1) q field = Ok (l, r) ∧
    (r = None → NoDup (vc_Value <$> l) ∧ StronglySorted (λ a b, vc_less b a = false) l ∧
      ∀ v c, VC v c ∈ l ↔ c = hits_total gts v ∧ 0 < c) ∧ ((∀ k, o_clock o k = None) → r = None).
Proof.
  intros Hin Hfo. unfold StatsByField. destruct (snapshotOf_spec q gts Hin) as (kept & -> & Hk & Hsub & Hh).
  assert (Forall footer_ok kept) as Hfk.
  { rewrite Forall_forall in *. intros x Hx. apply Hfo. by eapply elem_of_sublist. }
  destruct (stats_scan_spec o kept 0 ∅ Hk Hfk) as (m & r & -> & Hp & Hm & Hr); [apply map_Forall_empty|]. rewrite bind_Ok. cbn [fst snd].
  eexists _, r. split; [done|]. split; [|done]. intros Hn. split_and!; [apply counts_list_values|apply vc_less_sorted|].
  intros v c. rewrite counts_list_spec.
  assert (hits_total kept v = hits_total gts v) as Ht.
  { assert (∀ l, hits_total l v = len (concat ((λ x, (λ i, (x, i)) <$> filter (λ i, field_sem x.2 field (Z.to_nat i) = Some v) (query_rows x.2 q)) <$> l))) as Hlen.
    { clear. induction l as [|x l IH]; [done|]. rewrite fmap_cons. cbn [hits_total foldr concat]. fold (hits_total l v). rewrite len_app, len_fmap, IH. done. }
    rewrite !Hlen. f_equal. apply Hh. intros x Hx. by rewrite Hx. }
  specialize (Hm Hn v). rewrite lookup_empty, Ht in Hm. cbn [default from_option id] in Hm. split.
  - intros E. assert (0 < c) as Hc by (by apply (Hp _ _ E)). rewrite E in Hm. cbn [default from_option id] in Hm. lia.
  - intros [-> Hc]. destruct (m !! v) as [c|] eqn:E; cbn [default from_option id] in Hm; [f_equal; lia|exfalso; lia].
Qed.

(** the counts by field value, read from the footers where a group lies
    inside the window and by scanning elsewhere, are for every value the number
    of matching rows with it, each value once, most frequent first. *)
Theorem StatsByField_counts o gts :
  Forall in_service gts → Forall footer_ok gts →
  ∃ l r, StatsByField o (Some gts.*1) q field = Ok (l, r) ∧
    (r = None → NoDup (vc_Value <$> l) ∧ StronglySorted (λ a b, vc_less b a = false) l ∧
      ∀ v c, VC v c ∈ l ↔ c = hits_total gts v ∧ 0 < c) ∧ ((∀ k, o_clock o k = None) → r = None).
Proof. by eapply StatsByField_spec. Qed.
End stats.
