(* ===== verification/Lifecycle.v ===== *)
(** * The life of a group's mapping

    [internal/storage/snapshot.go]: snapshots hold references to group entries;
    a group that is replaced or removed leaves the index, is retired, and its
    mapping is released when the last reference goes. The threads that release
    and retire take several atomic steps each ([refs.Add], [retired.Load],
    [unmapped.CompareAndSwap], ...), and any interleaving of the steps is a run.
    Acquisition happens under the store's lock, on indexed entries only. *)

From Stdlib Require Import ZifyBool.
From S2P Require Import Prelude.
From stdpp Require Import list.
Local Open Scope Z_scope.

(** ** Definitions *)

(** Where a thread is with the entry. A thread in [Holding] owns a reference;
    its next step is [release]. *)
Inductive tstate :=
| Holding        (* a snapshot holds the entry; next: [refs.Add(-1)] *)
| Dropped        (* [refs.Add(-1)] gave 0; next: [retired.Load] *)
| RetireStore    (* [retire] entered; next: [retired.Store(true)] *)
| RetireLoad     (* next: [refs.Load() == 0] *)
| UnmapCAS       (* [unmapOnce] entered; next: [unmapped.CompareAndSwap] *)
| UnmapPark      (* next: [refs.Store(-1 << 40)] *)
| UnmapCall      (* next: [unmap()] *)
| Finished.

(** [groupEntry]'s ownership fields, whether the index holds it, how often
    [unmap] ran, and the threads. *)
Record groupEntry := MkEntry {
  refs : Z; retired : bool; unmapped : bool; indexed : bool; unmaps : nat; threads : list tstate }.
Definition new_entry : groupEntry := MkEntry 0 false false true 0 [].

Inductive action := Acquire | Remove | Step (i : nat).

Definition set_thread (e : groupEntry) (i : nat) (t : tstate) : list tstate := <[i := t]> (threads e).
(** [acquire]: a parked entry is refused. *)
Definition acquire (e : groupEntry) : groupEntry :=
  if bool_decide (refs e < 0) then e
  else MkEntry (refs e + 1) (retired e) (unmapped e) (indexed e) (unmaps e) (threads e ++ [Holding]).
(** The removal from the index, after which [retire] runs. *)
Definition remove (e : groupEntry) : groupEntry :=
  MkEntry (refs e) (retired e) (unmapped e) false (unmaps e) (threads e ++ [RetireStore]).
(** One step of thread [i] through [release], [retire] and [unmapOnce]. *)
Definition thread_step (e : groupEntry) (i : nat) (t : tstate) : option groupEntry :=
  match t with
  | Holding =>
      let n := refs e - 1 in
      Some (MkEntry n (retired e) (unmapped e) (indexed e) (unmaps e) (set_thread e i (if bool_decide (n = 0) then Dropped else Finished)))
  | Dropped =>
      Some (MkEntry (refs e) (retired e) (unmapped e) (indexed e) (unmaps e) (set_thread e i (if retired e then UnmapCAS else Finished)))
  | RetireStore => Some (MkEntry (refs e) true (unmapped e) (indexed e) (unmaps e) (set_thread e i RetireLoad))
  | RetireLoad =>
      Some (MkEntry (refs e) (retired e) (unmapped e) (indexed e) (unmaps e) (set_thread e i (if bool_decide (refs e = 0) then UnmapCAS else Finished)))
  | UnmapCAS =>
      Some (MkEntry (refs e) (retired e) true (indexed e) (unmaps e) (set_thread e i (if unmapped e then Finished else UnmapPark)))
  | UnmapPark => Some (MkEntry (- 2 ^ 40) (retired e) (unmapped e) (indexed e) (unmaps e) (set_thread e i UnmapCall))
  | UnmapCall => Some (MkEntry (refs e) (retired e) (unmapped e) (indexed e) (S (unmaps e)) (set_thread e i Finished))
  | Finished => None
  end.
Definition estep (e : groupEntry) (a : action) : option groupEntry :=
  match a with
  | Acquire => if indexed e then Some (acquire e) else None
  | Remove => if indexed e then Some (remove e) else None
  | Step i => t ← threads e !! i; thread_step e i t
  end.
Fixpoint erun (e : groupEntry) (l : list action) : option groupEntry :=
  match l with [] => Some e | a :: l' => e' ← estep e a; erun e' l' end.

(** Runs in which no entry is acquired between a release's decrement to zero and
    its test of [retired]. *)
Definition undisturbed (e : groupEntry) (a : action) : Prop := a = Acquire → Dropped ∉ threads e.
Fixpoint erun_undisturbed (e : groupEntry) (l : list action) : Prop :=
  match l with
  | [] => True
  | a :: l' => undisturbed e a ∧ match estep e a with Some e' => erun_undisturbed e' l' | None => True end
  end.

(** ** Invariants *)

#[export] Instance tstate_eq_dec : EqDecision tstate.
Proof. solve_decision. Defined.

Definition count_t (t : tstate) (l : list tstate) : Z := zsum (is_at t) l.

Lemma count_app t l1 l2 : count_t t (l1 ++ l2) = count_t t l1 + count_t t l2.
Proof. apply zsum_app. Qed.
Lemma count_cons t u l : count_t t (u :: l) = (if bool_decide (u = t) then 1 else 0) + count_t t l.
Proof. done. Qed.
Lemma count_nonneg t l : 0 ≤ count_t t l.
Proof. apply zsum_nonneg, is_at_nonneg. Qed.
Lemma count_insert t l i u v :
  l !! i = Some u → count_t t (<[i := v]> l) = count_t t l - (if bool_decide (u = t) then 1 else 0) + (if bool_decide (v = t) then 1 else 0).
Proof. apply zsum_insert. Qed.
Lemma count_elem t l : t ∈ l ↔ 0 < count_t t l.
Proof.
  induction l as [|u l IH]; [unfold count_t; cbn; split; [by intros ?%elem_of_nil|lia]|]. rewrite count_cons, elem_of_cons, IH.
  pose proof (count_nonneg t l). destruct (decide (u = t)) as [->|D].
  - rewrite bool_decide_eq_true_2 by done. split; [lia|by left].
  - rewrite bool_decide_eq_false_2 by done. split; [intros [->|?]; [done|lia]|right; lia].
Qed.

(** What the counts of threads say of the entry's fields, in every run. *)
Record entry_inv (e : groupEntry) : Prop := {
  inv_live : unmapped e = false →
    refs e = count_t Holding (threads e) ∧ count_t UnmapPark (threads e) = 0 ∧ count_t UnmapCall (threads e) = 0 ∧ unmaps e = 0%nat;
  inv_once : unmapped e = true → count_t UnmapPark (threads e) + count_t UnmapCall (threads e) + Z.of_nat (unmaps e) = 1;
  inv_retired : 0 < count_t UnmapCAS (threads e) ∨ 0 < count_t RetireLoad (threads e) ∨ unmapped e = true → retired e = true;
  inv_removed : retired e = true ∨ 0 < count_t RetireStore (threads e) → indexed e = false;
  inv_retiring : indexed e = false → retired e = true ∨ 0 < count_t RetireStore (threads e);
  inv_pending : retired e = true → unmapped e = false → count_t Holding (threads e) = 0 →
    0 < count_t Dropped (threads e) + count_t UnmapCAS (threads e) + count_t RetireLoad (threads e) }.

(** What holds besides, in the runs without an acquisition inside a release. *)
Definition quiet (e : groupEntry) : Prop :=
  0 < count_t Dropped (threads e) ∨ 0 < count_t UnmapCAS (threads e) ∨ unmapped e = true → count_t Holding (threads e) = 0.

Lemma count_pos t l i : l !! i = Some t → 0 < count_t t l.
Proof. intros H. apply count_elem, list_elem_of_lookup. by exists i. Qed.

(** Counts after a thread moved or joined, computed; then the invariant's
    clauses are arithmetic. *)
Ltac counts :=
  repeat match goal with
  | E : ?l !! ?i = Some ?u |- context [count_t ?t (<[?i := ?v]> ?l)] => rewrite (count_insert t l i u v E)
  | |- context [count_t ?t (?l ++ [?v])] => rewrite (count_app t l [v]), (count_cons t v [])
  | |- context [count_t ?t []] => change (count_t t []) with 0
  | |- context [bool_decide (@eq tstate ?x ?y)] =>
      let b := eval vm_compute in (bool_decide (x = y)) in change (bool_decide (x = y)) with b; cbv iota
  end.
Ltac count_facts l :=
  pose proof (count_nonneg Holding l); pose proof (count_nonneg Dropped l); pose proof (count_nonneg RetireStore l);
  pose proof (count_nonneg RetireLoad l); pose proof (count_nonneg UnmapCAS l); pose proof (count_nonneg UnmapPark l);
  pose proof (count_nonneg UnmapCall l).
Ltac by_counts :=
  unfold set_thread; cbn [refs retired unmapped indexed unmaps threads] in *; counts; intros;
  first [lia | done | split_and!; done || lia].

Lemma entry_inv_step e a e' : estep e a = Some e' → entry_inv e → entry_inv e'.
Proof.
  intros E [L O R M G P]. destruct e as [r rt um ix us ths].
  count_facts ths. destruct a as [| |i]; cbn in E.
  - destruct ix; [|done]. injection E as <-. unfold acquire. case_bool_decide as B; [by split|].
    destruct rt, um; split; by_counts.
  - destruct ix; [|done]. injection E as <-. unfold remove. destruct rt, um; split; by_counts.
  - destruct (ths !! i) as [t|] eqn:Ei; [|done]. cbn in E. pose proof (count_pos _ _ _ Ei). destruct t; cbn in E; try done; injection E as <-.
    + case_bool_decide; destruct rt, um; split; by_counts.
    + destruct rt, um; split; by_counts.
    + destruct ix, rt, um; split; by_counts.
    + case_bool_decide; destruct rt, um; split; by_counts.
    + destruct rt, um; split; by_counts.
    + destruct rt, um; split; by_counts.
    + destruct rt, um; split; by_counts.
Qed.
Lemma quiet_step e a e' : estep e a = Some e' → undisturbed e a → entry_inv e → quiet e → quiet e'.
Proof.
  intros E U [L O R M G P] Q. destruct e as [r rt um ix us ths]. unfold quiet in *.
  count_facts ths. destruct a as [| |i]; cbn in E.
  - destruct ix; [|done]. injection E as <-. unfold acquire. case_bool_decide as B; [done|].
    specialize (U eq_refl). cbn in U. rewrite count_elem in U. destruct rt, um; by_counts.
  - destruct ix; [|done]. injection E as <-. unfold remove. destruct rt, um; by_counts.
  - destruct (ths !! i) as [t|] eqn:Ei; [|done]. cbn in E. pose proof (count_pos _ _ _ Ei). destruct t; cbn in E; try done; injection E as <-.
    + case_bool_decide; destruct rt, um; by_counts.
    + destruct rt, um; by_counts.
    + destruct ix, rt, um; by_counts.
    + case_bool_decide; destruct rt, um; by_counts.
    + destruct rt, um; by_counts.
    + destruct rt, um; by_counts.
    + destruct rt, um; by_counts.
Qed.

Lemma entry_inv_new : entry_inv new_entry.
Proof. split; cbn; by_counts. Qed.
Lemma erun_inv l e e' : erun e l = Some e' → entry_inv e → entry_inv e'.
Proof.
  revert e. induction l as [|a l IH]; cbn; intros e E I; [by injection E as <-|].
  apply bind_Some in E as (e1 & E1 & E2). eauto using entry_inv_step.
Qed.
Lemma erun_quiet l e e' : erun e l = Some e' → erun_undisturbed e l → entry_inv e → quiet e → quiet e'.
Proof.
  revert e. induction l as [|a l IH]; cbn; intros e E U I Q; [by injection E as <-|].
  apply bind_Some in E as (e1 & E1 & E2). destruct U as [U1 U2]. rewrite E1 in U2. eauto using entry_inv_step, quiet_step.
Qed.

Lemma count_all_finished t l : Forall (λ u, u = Finished) l → t ≠ Finished → count_t t l = 0.
Proof.
  intros F N. pose proof (count_nonneg t l). destruct (decide (0 < count_t t l)) as [D|]; [|lia].
  apply count_elem in D. by rewrite Forall_forall in F; apply F in D.
Qed.

(** In every interleaving: the mapping is released at most once; an entry still
    in the index is mapped, so an acquisition there succeeds; and when every
    thread is through, a removed entry's mapping has been released. *)
Lemma lifecycle_spec l e :
  erun new_entry l = Some e →
  (unmaps e ≤ 1)%nat ∧ (indexed e = true → unmaps e = 0%nat ∧ 0 ≤ refs e ∧ refs e = count_t Holding (threads e))
  ∧ (indexed e = false → Forall (λ t, t = Finished) (threads e) → unmaps e = 1%nat).
Proof.
  intros E. pose proof (erun_inv _ _ _ E entry_inv_new) as [L O R M G P]. count_facts (threads e). split_and!.
  - destruct (unmapped e); by_counts.
  - intros X. rewrite X in *. destruct (unmapped e), (retired e); by_counts.
  - intros X F. rewrite X in *.
    assert (count_t Holding (threads e) = 0 ∧ count_t Dropped (threads e) = 0 ∧ count_t RetireStore (threads e) = 0 ∧ count_t RetireLoad (threads e) = 0
      ∧ count_t UnmapCAS (threads e) = 0 ∧ count_t UnmapPark (threads e) = 0 ∧ count_t UnmapCall (threads e) = 0) as K.
    { split_and!; by apply count_all_finished. }
    destruct (unmapped e), (retired e); by_counts.
Qed.

(** under every interleaving of acquisitions, releases, removal and
    retirement the group's mapping is released at most once, never while the
    group is still in the index, and exactly once when the group has been
    removed and every thread is through. *)
Theorem mapping_released_once l e :
  erun new_entry l = Some e →
  (unmaps e ≤ 1)%nat ∧ (indexed e = true → unmaps e = 0%nat ∧ 0 ≤ refs e ∧ refs e = count_t Holding (threads e))
  ∧ (indexed e = false → Forall (λ t, t = Finished) (threads e) → unmaps e = 1%nat).
Proof. by eapply lifecycle_spec. Qed.
(** When no acquisition falls inside a release, no snapshot holds an entry whose
    mapping has been released or is about to be. *)
Lemma held_mapped_spec l e :
  erun new_entry l = Some e → erun_undisturbed new_entry l → Holding ∈ threads e →
  unmapped e = false ∧ unmaps e = 0%nat ∧ UnmapCall ∉ threads e.
Proof.
  intros E U H. pose proof (erun_inv _ _ _ E entry_inv_new) as I.
  assert (quiet e) as Q by (apply (erun_quiet l new_entry); [done|done|apply entry_inv_new|unfold quiet; by_counts]).
  apply count_elem in H. destruct I as [L O R M G P]. unfold quiet in Q. rewrite count_elem. destruct (unmapped e); by_counts.
Qed.

(** C25: in every run in which no acquisition falls between a release's decrement
    to zero and its test of [retired], a snapshot that holds the group never
    sees its mapping released or about to be. *)
Theorem held_stays_mapped l e :
  erun new_entry l = Some e → erun_undisturbed new_entry l → Holding ∈ threads e →
  unmapped e = false ∧ unmaps e = 0%nat ∧ UnmapCall ∉ threads e.
Proof. by eapply held_mapped_spec. Qed.
