(* ===== verification/Budget.v ===== *)
(** * The scan-worker budget and per-tenant admission

    [internal/query/budget.go]. Both are shared by every query of the server;
    their calls are split at each atomic operation and each critical section of
    the mutex, and a run is any interleaving of those steps. Times enter as
    events: a timer that fires, a client that goes away. *)

From Stdlib Require Import ZifyBool.
From S2P Require Import Prelude.
From stdpp Require Import list gmap strings.
Local Open Scope Z_scope.

#[local] Arguments zsum : simpl never.
#[local] Arguments Z.max : simpl never.

Lemma zsum_snoc {A} (f : A → Z) l a : zsum f (l ++ [a]) = zsum f l + f a.
Proof. rewrite zsum_app, zsum_cons. change (zsum f []) with 0. lia. Qed.

Definition max1 (n : Z) : Z := if bool_decide (n < 1) then 1 else n.

(** ** [WorkerBudget] *)

Module Workers.

(** A caller of [WorkerBudget.Acquire], by its next step. *)
Inductive caller :=
| Asking (want : Z)           (* next: [inUse.Load] *)
| Loaded (want used : Z)      (* next: [inUse.CompareAndSwap(used, used+n)] *)
| Granted (want n : Z)        (* holds [n] workers; next: the release function *)
| Returned                    (* released; [once] makes another call do nothing *)
| Unbudgeted (n : Z).         (* no budget in force: [max1(want)], nothing to return *)

Record WorkerBudget := MkBudget { total : Z; inUse : Z; callers : list caller }.
(** [NewWorkerBudget], with [runtime.GOMAXPROCS(0)] as [procs]. *)
Definition NewWorkerBudget (procs n : Z) : WorkerBudget := MkBudget (if bool_decide (n ≤ 0) then procs else n) 0 [].

(** The loop body's arithmetic between the load and the swap. *)
Definition grant (total used want : Z) : Z :=
  let free := total - used in
  let n := if bool_decide (free < want) then free else want in
  if bool_decide (n < 1) then 1 else n.

Inductive action := Enter (want : Z) | Step (i : nat).

Definition put (b : WorkerBudget) (used : Z) (i : nat) (c : caller) : WorkerBudget :=
  MkBudget (total b) used (<[i := c]> (callers b)).
(** The prologue of [Acquire]: a nil or empty budget grants without accounting. *)
Definition enter (b : WorkerBudget) (want : Z) : WorkerBudget :=
  MkBudget (total b) (inUse b)
    (callers b ++ [if bool_decide (total b ≤ 0) then Unbudgeted (max1 want) else Asking (max1 want)]).
Definition caller_step (b : WorkerBudget) (i : nat) (c : caller) : WorkerBudget :=
  match c with
  | Asking want => put b (inUse b) i (Loaded want (inUse b))
  | Loaded want used =>
      let n := grant (total b) used want in
      if bool_decide (inUse b = used) then put b (used + n) i (Granted want n) else put b (inUse b) i (Asking want)
  | Granted want n => put b (inUse b - n) i Returned
  | Returned | Unbudgeted _ => b
  end.
Definition bstep (b : WorkerBudget) (a : action) : option WorkerBudget :=
  match a with
  | Enter want => Some (enter b want)
  | Step i => c ← callers b !! i; Some (caller_step b i c)
  end.
Fixpoint brun (b : WorkerBudget) (l : list action) : option WorkerBudget :=
  match l with [] => Some b | a :: l' => b' ← bstep b a; brun b' l' end.

(** The workers a caller holds, and whether it holds just the floor. *)
Definition share (c : caller) : Z := match c with Granted _ n => n | _ => 0 end.
Definition floor (c : caller) : Z := match c with Granted _ n => if bool_decide (n = 1) then 1 else 0 | _ => 0 end.
Definition caller_ok (c : caller) : Prop :=
  match c with
  | Asking want | Loaded want _ => 1 ≤ want
  | Granted want n => 1 ≤ n ≤ want
  | Returned => True
  | Unbudgeted n => 1 ≤ n
  end.

Lemma grant_spec total used want :
  1 ≤ want → 1 ≤ grant total used want ≤ want ∧ (grant total used want ≠ 1 → used + grant total used want ≤ total).
Proof. intros. unfold grant. repeat case_bool_decide; lia. Qed.

(** [InUse] is the sum of what is held, and exceeds the total by no more than
    the callers that hold the floor of one. *)
Record budget_inv (b : WorkerBudget) : Prop := {
  bi_share : inUse b = zsum share (callers b);
  bi_bound : inUse b ≤ Z.max 0 (total b) + zsum floor (callers b);
  bi_ok : Forall caller_ok (callers b) }.

Lemma floor_range c : 0 ≤ floor c ≤ 1.
Proof. destruct c; cbn; try case_bool_decide; lia. Qed.
Lemma max1_pos n : 1 ≤ max1 n.
Proof. unfold max1. case_bool_decide; lia. Qed.

Lemma caller_step_inv b i c : callers b !! i = Some c → budget_inv b → budget_inv (caller_step b i c).
Proof.
  intros Ei [S B O]. pose proof (Forall_lookup_1 _ _ _ _ O Ei) as Oc.
  destruct c as [want|want used|want n| |n]; cbn [caller_step]; unfold put; try done.
  - split; cbn; [rewrite (zsum_insert _ _ _ _ _ Ei); cbn; lia..|]. by apply Forall_insert.
  - cbn in Oc. destruct (grant_spec (total b) used want Oc) as [G1 G2]. case_bool_decide as E; split; cbn.
    + rewrite (zsum_insert _ _ _ _ _ Ei). cbn. lia.
    + rewrite (zsum_insert _ _ _ _ _ Ei). cbn. pose proof (zsum_nonneg floor (callers b) (λ c, proj1 (floor_range c))). case_bool_decide; lia.
    + apply Forall_insert; done.
    + rewrite (zsum_insert _ _ _ _ _ Ei); cbn; lia.
    + rewrite (zsum_insert _ _ _ _ _ Ei); cbn; lia.
    + by apply Forall_insert.
  - cbn in Oc. split; cbn; [rewrite (zsum_insert _ _ _ _ _ Ei); cbn; lia| |by apply Forall_insert].
    rewrite (zsum_insert _ _ _ _ _ Ei). cbn. case_bool_decide; lia.
Qed.
Lemma bstep_inv b a b' : bstep b a = Some b' → budget_inv b → budget_inv b'.
Proof.
  destruct a as [want|i]; cbn; intros E I.
  - injection E as <-. destruct I as [S B O]. unfold enter. pose proof (max1_pos want).
    case_bool_decide; split; cbn; rewrite ?zsum_snoc; cbn;
      try lia; (apply Forall_app_2; [done|by apply Forall_singleton]).
  - apply bind_Some in E as (c & Ei & [= <-]). by apply caller_step_inv.
Qed.
Lemma brun_inv l b b' : brun b l = Some b' → budget_inv b → budget_inv b'.
Proof.
  revert b. induction l as [|a l IH]; cbn; intros b E I; [by injection E as <-|].
  apply bind_Some in E as (b1 & E1 & E2). eauto using bstep_inv.
Qed.
Lemma bstep_total b a b' : bstep b a = Some b' → total b' = total b.
Proof.
  destruct a as [want|i]; cbn; intros E; [by injection E as <-|].
  apply bind_Some in E as (c & Ei & [= <-]). destruct c; cbn; try done. by case_bool_decide.
Qed.
Lemma brun_total l b b' : brun b l = Some b' → total b' = total b.
Proof.
  revert b. induction l as [|a l IH]; cbn; intros b E; [by injection E as <-|].
  apply bind_Some in E as (b1 & E1 & E2). rewrite <- (bstep_total _ _ _ E1). by apply IH.
Qed.

(** In every interleaving: each caller is granted at least one worker and at most
    what it asked; what is out is the sum of the grants, at most the total and
    one for each caller left with the floor; and nothing is out once every
    caller has returned what it took. *)
Lemma workers_spec procs n l b :
  0 < procs → brun (NewWorkerBudget procs n) l = Some b →
  Forall caller_ok (callers b)
  ∧ inUse b = zsum share (callers b)
  ∧ inUse b ≤ (if bool_decide (n ≤ 0) then procs else n) + zsum floor (callers b)
  ∧ (Forall (λ c, c = Returned) (callers b) → inUse b = 0).
Proof.
  intros Hp E. assert (budget_inv b) as [S B O] by (by eapply brun_inv; [done|split; cbn; [done|change (zsum floor []) with 0; lia|constructor]]).
  split_and!; [done|done| |].
  - rewrite (brun_total _ _ _ E) in B. cbn in B. case_bool_decide; lia.
  - intros F. rewrite S. apply zsum_zero. eapply Forall_impl; [done|]. by intros ? ->.
Qed.

(** under every interleaving of the compare-and-swap loops, each caller gets
    at least one worker and at most what it asked, what is out is the sum of the
    grants and exceeds the total by at most one per caller left with the floor,
    and nothing is out when all have returned. *)
Theorem workers_bounded procs n l b :
  0 < procs → brun (NewWorkerBudget procs n) l = Some b →
  Forall caller_ok (callers b)
  ∧ inUse b = zsum share (callers b)
  ∧ inUse b ≤ (if bool_decide (n ≤ 0) then procs else n) + zsum floor (callers b)
  ∧ (Forall (λ c, c = Returned) (callers b) → inUse b = 0).
Proof. by eapply workers_spec. Qed.

(** No caller waits: each of its steps is enabled in every state, and two of its
    own steps with nothing between them grant it its workers. *)
Lemma workers_progress_spec b i want :
  callers b !! i = Some (Asking want) →
  ∃ b', brun b [Step i; Step i] = Some b' ∧ callers b' !! i = Some (Granted want (grant (total b) (inUse b) want)).
Proof.
  intros Ei. pose proof (lookup_lt_Some _ _ _ Ei) as Hl. cbn. rewrite Ei. cbn. rewrite list_lookup_insert_eq by done. cbn.
  rewrite bool_decide_eq_true_2 by done. eexists. split; [done|]. cbn. rewrite list_lookup_insert_eq; [done|]. by rewrite length_insert.
Qed.

End Workers.

(** ** [Admission] *)

Module Tenants.

Inductive query_err := ErrRejected | ErrQueueTimeout | ErrDeadlineExceeded | ErrCanceled.

(** A call of [Acquire] for a tenant key, by its next step. *)
Inductive call :=
| Asking (k : string)                   (* the loop's critical section *)
| Accepted (k : string)                 (* [inFlight.Add(1)], then returns the release function *)
| Running (k : string)                  (* the query runs; next: the release's critical section *)
| Freed (k : string)                    (* [inFlight.Add(-1)] *)
| Released                              (* [once] makes another release do nothing *)
| Registered (k : string) (w : nat)     (* [time.Until], then [queued.Add(1)] *)
| Waiting (k : string) (w : nat)        (* the select *)
| Woken (k : string)                    (* [<-w]: [queued.Add(-1)], back to the loop *)
| Expired                               (* [<-t.C]: [queued.Add(-1)] *)
| Gone (e : query_err)                  (* [<-ctx.Done()]: [queued.Add(-1)], returns [e] *)
| Refusing (e : query_err)              (* [rejects.Add(1)], returns [e] *)
| Answered (e : query_err)
| Exempt.                               (* no controller in force: admitted without accounting *)

(** Channels are their closed flags, by index; [waiters] holds indices. *)
Record Admission := MkAdmission {
  perKey : Z; wait : Z; byKey : gmap string Z; waiters : gmap string nat; chans : list bool;
  inFlight : Z; queued : Z; rejects : Z; calls : list call }.
Definition NewAdmission (maxPerTenant wait : Z) : Admission := MkAdmission maxPerTenant wait ∅ ∅ [] 0 0 0 [].

Definition holders (a : Admission) (k : string) : Z := default 0 (byKey a !! k).
(** A step that moves call [i] and adds to the counters. *)
Definition count (a : Admission) (f q r : Z) (i : nat) (c : call) : Admission :=
  MkAdmission (perKey a) (wait a) (byKey a) (waiters a) (chans a) (inFlight a + f) (queued a + q) (rejects a + r) (<[i := c]> (calls a)).
Definition put_call (a : Admission) (i : nat) (c : call) : Admission := count a 0 0 0 i c.

(** The critical section of the loop: a slot if one is free, an immediate refusal
    where nothing may wait, else a registration on the key's channel. *)
Definition try_admit (a : Admission) (i : nat) (k : string) : Admission :=
  if bool_decide (holders a k < perKey a) then
    MkAdmission (perKey a) (wait a) (<[k := holders a k + 1]> (byKey a)) (waiters a) (chans a)
      (inFlight a) (queued a) (rejects a) (<[i := Accepted k]> (calls a))
  else if bool_decide (wait a ≤ 0) then put_call a i (Refusing ErrRejected)
  else match waiters a !! k with
  | Some w => put_call a i (Registered k w)
  | None =>
      let w := length (chans a) in
      MkAdmission (perKey a) (wait a) (byKey a) (<[k := w]> (waiters a)) (chans a ++ [false])
        (inFlight a) (queued a) (rejects a) (<[i := Registered k w]> (calls a))
  end.
(** The critical section of [releaseFor]. *)
Definition give_back (a : Admission) (i : nat) (k : string) : Admission :=
  let n := if bool_decide (0 < holders a k) then holders a k - 1 else holders a k in
  let m := if bool_decide (n = 0) then delete k (byKey a) else <[k := n]> (byKey a) in
  let chs := match waiters a !! k with Some w => <[w := true]> (chans a) | None => chans a end in
  MkAdmission (perKey a) (wait a) m (delete k (waiters a)) chs (inFlight a) (queued a) (rejects a) (<[i := Freed k]> (calls a)).
Definition call_step (a : Admission) (i : nat) (c : call) : option Admission :=
  match c with
  | Asking k => Some (try_admit a i k)
  | Accepted k => Some (count a 1 0 0 i (Running k))
  | Running k => Some (give_back a i k)
  | Freed k => Some (count a (-1) 0 0 i Released)
  | Registered k w => Some (count a 0 1 0 i (Waiting k w))
  | Waiting k w => if bool_decide (chans a !! w = Some true) then Some (put_call a i (Woken k)) else None
  | Woken k => Some (count a 0 (-1) 0 i (Asking k))
  | Expired => Some (count a 0 (-1) 0 i (Refusing ErrQueueTimeout))
  | Gone e => Some (count a 0 (-1) 0 i (Answered e))
  | Refusing e => Some (count a 0 0 1 i (Answered e))
  | Released | Answered _ | Exempt => None
  end.

Inductive action :=
| Enter (k : string)
| Step (i : nat)
| Expire (i : nat)                     (* the deadline passes *)
| Hangup (i : nat) (late : bool).      (* the client's context ends; [late]: by its deadline *)
Definition astep (a : Admission) (x : action) : option Admission :=
  match x with
  | Enter k =>
      Some (MkAdmission (perKey a) (wait a) (byKey a) (waiters a) (chans a) (inFlight a) (queued a) (rejects a)
        (calls a ++ [if bool_decide (perKey a ≤ 0) then Exempt else Asking k]))
  | Step i => c ← calls a !! i; call_step a i c
  | Expire i =>
      c ← calls a !! i;
      match c with
      | Registered _ _ => Some (put_call a i (Refusing ErrQueueTimeout))
      | Waiting _ _ => Some (put_call a i Expired)
      | _ => None
      end
  | Hangup i late =>
      c ← calls a !! i;
      match c with
      | Waiting _ _ => Some (put_call a i (Gone (if late then ErrDeadlineExceeded else ErrCanceled)))
      | _ => None
      end
  end.
Fixpoint arun (a : Admission) (l : list action) : option Admission :=
  match l with [] => Some a | x :: l' => a' ← astep a x; arun a' l' end.

(** *** What the counters and the channels say of the calls *)

Definition holds (k : string) (c : call) : Z := match c with Accepted k' | Running k' => is_at k k' | _ => 0 end.
Definition flying (c : call) : Z := match c with Running _ | Freed _ => 1 | _ => 0 end.
Definition queueing (c : call) : Z := match c with Waiting _ _ | Woken _ | Expired | Gone _ => 1 | _ => 0 end.
Definition declined (c : call) : Z := match c with Answered (ErrRejected | ErrQueueTimeout) => 1 | _ => 0 end.
(** A registered call's channel is closed already, or is the one a release of
    its key closes. *)
Definition call_ok (pk : Z) (ws : gmap string nat) (chs : list bool) (c : call) : Prop :=
  (c = Exempt ∨ 0 < pk) ∧
  match c with
  | Registered k w | Waiting k w => chs !! w = Some true ∨ ws !! k = Some w
  | Refusing e => e = ErrRejected ∨ e = ErrQueueTimeout
  | Gone e => e = ErrDeadlineExceeded ∨ e = ErrCanceled
  | _ => True
  end.

Record admission_inv (a : Admission) : Prop := {
  iv_held : ∀ k, holders a k = zsum (holds k) (calls a);
  iv_limit : ∀ k, holders a k ≤ Z.max 0 (perKey a);
  iv_entry : ∀ k n, byKey a !! k = Some n → 0 < n;
  iv_flight : inFlight a = zsum flying (calls a);
  iv_queued : queued a = zsum queueing (calls a);
  iv_rejects : rejects a = zsum declined (calls a);
  iv_wait : ∀ k w, waiters a !! k = Some w → chans a !! w = Some false ∧ holders a k = perKey a;
  iv_inj : ∀ k k' w, waiters a !! k = Some w → waiters a !! k' = Some w → k = k';
  iv_calls : Forall (call_ok (perKey a) (waiters a) (chans a)) (calls a) }.

Lemma count_inv a i c c' f q r :
  calls a !! i = Some c → admission_inv a →
  (∀ k, holds k c' = holds k c) → flying c' = flying c + f → queueing c' = queueing c + q → declined c' = declined c + r →
  call_ok (perKey a) (waiters a) (chans a) c' → admission_inv (count a f q r i c').
Proof.
  intros Ei [H L N F Q R W J C] Hh Hf Hq Hr Hc.
  split; cbn; [|done|done| | | |done|done|by apply Forall_insert]; intros; rewrite (zsum_insert _ _ _ _ _ Ei).
  - rewrite <- H, Hh. unfold holders. cbn. lia.
  - lia.
  - lia.
  - lia.
Qed.
Lemma holds_nonneg k c : 0 ≤ holds k c.
Proof. destruct c; cbn; try done; apply is_at_nonneg. Qed.

Lemma try_admit_inv a i k : calls a !! i = Some (Asking k) → admission_inv a → admission_inv (try_admit a i k).
Proof.
  intros Ei I. pose proof I as [H L N F Q R W J C]. pose proof (Forall_lookup_1 _ _ _ _ C Ei) as [[?|Hp] _]; [done|].
  unfold try_admit. destruct (decide (holders a k < perKey a)) as [D|D].
  - rewrite bool_decide_eq_true_2 by done. split; cbn; rewrite ?(zsum_insert _ _ _ _ _ Ei); cbn; try lia; try done.
    + intros k'. rewrite (zsum_insert _ _ _ _ _ Ei), <- H. cbn. unfold holders, is_at. cbn. destruct (decide (k = k')) as [->|E].
      * rewrite lookup_insert_eq, bool_decide_eq_true_2 by done. cbn. unfold holders. lia.
      * rewrite lookup_insert_ne, bool_decide_eq_false_2 by done. lia.
    + intros k'. unfold holders. cbn. destruct (decide (k = k')) as [->|E]; [rewrite lookup_insert_eq; cbn; unfold holders in *; lia|].
      rewrite lookup_insert_ne by done. apply L.
    + intros k' n. destruct (decide (k = k')) as [->|E]; [rewrite lookup_insert_eq|rewrite lookup_insert_ne by done; apply N].
      intros [= <-]. rewrite H. pose proof (zsum_nonneg (holds k') (calls a) (holds_nonneg k')). lia.
    + intros k' w Ew. pose proof (W _ _ Ew) as [W1 W2]. split; [done|]. unfold holders. cbn. rewrite lookup_insert_ne; [done|]. intros ->. lia.
    + apply Forall_insert; [done|]. split; [by right|done].
  - rewrite bool_decide_eq_false_2 by done. case_bool_decide as Ew.
    + eapply count_inv; try done; [cbn; lia..|]. split; [by right|by left].
    + destruct (waiters a !! k) as [w|] eqn:Ek; [eapply count_inv; try done; [cbn; lia..|]; split; [by right|by right]|].
      split; cbn; rewrite ?(zsum_insert _ _ _ _ _ Ei); cbn; try lia; try done.
      * intros k'. rewrite (zsum_insert _ _ _ _ _ Ei), <- H. unfold holders. cbn. lia.
      * intros k' w'. unfold holders. cbn. destruct (decide (k = k')) as [->|E].
        -- rewrite lookup_insert_eq. intros [= <-]. split; [by apply list_lookup_middle|]. specialize (L k'). unfold holders in *. lia.
        -- rewrite lookup_insert_ne by done. intros E'%W. destruct E' as [E1 E2]. split; [by apply lookup_app_l_Some|done].
      * intros k1 k2 w'. destruct (decide (k1 = k)) as [->|E1], (decide (k2 = k)) as [->|E2]; rewrite ?lookup_insert_eq, ?lookup_insert_ne by done; try done.
        -- intros [= <-] [E%lookup_lt_Some _]%W. lia.
        -- intros [E%lookup_lt_Some _]%W [= <-]. lia.
        -- apply J.
      * apply Forall_insert; [|split; [by right|]; right; by rewrite lookup_insert_eq].
        eapply Forall_impl; [done|]. intros c [Hc1 Hc2]. split; [done|].
        assert (∀ k' w', chans a !! w' = Some true ∨ waiters a !! k' = Some w' →
          (chans a ++ [false]) !! w' = Some true ∨ <[k := length (chans a)]> (waiters a) !! k' = Some w') as M.
        { intros k' w' [E|E]; [left; by apply lookup_app_l_Some|right]. rewrite lookup_insert_ne; [done|]. by intros ->; rewrite Ek in E. }
        destruct c; try done; by apply M.
Qed.
Lemma give_back_inv a i k : calls a !! i = Some (Running k) → admission_inv a → admission_inv (give_back a i k).
Proof.
  intros Ei I. pose proof I as [H L N F Q R W J C]. pose proof (Forall_lookup_1 _ _ _ _ C Ei) as [[?|Hp] _]; [done|].
  assert (0 < holders a k) as Hpos.
  { rewrite H. pose proof (zsum_lookup (holds k) _ _ _ (holds_nonneg k) Ei) as K'. cbn in K'. rewrite is_at_here in K'. lia. }
  unfold give_back. rewrite (bool_decide_eq_true_2 (0 < holders a k)) by done.
  set (m := if bool_decide (holders a k - 1 = 0) then _ else _). set (chs := match waiters a !! k with Some _ => _ | None => _ end).
  assert (∀ k', default 0 (m !! k') = holders a k' - is_at k' k) as Hm.
  { intros k'. unfold m, is_at, holders. destruct (decide (k = k')) as [->|E].
    - rewrite (bool_decide_eq_true_2 (k' = k')) by done. case_bool_decide as D; [rewrite lookup_delete_eq|rewrite lookup_insert_eq]; cbn; unfold holders in *; lia.
    - rewrite (bool_decide_eq_false_2 (k = k')) by done. case_bool_decide as D; [rewrite lookup_delete_ne by done|rewrite lookup_insert_ne by done]; lia. }
  assert (∀ w, chans a !! w = Some true → chs !! w = Some true) as Hmono.
  { intros w E. unfold chs. destruct (waiters a !! k) as [w'|] eqn:Ek; [|done]. destruct (decide (w = w')) as [->|D].
    - rewrite list_lookup_insert_eq; [done|]. by eapply lookup_lt_Some.
    - by rewrite list_lookup_insert_ne. }
  split; cbn; rewrite ?(zsum_insert _ _ _ _ _ Ei); cbn; try lia.
  - intros k'. rewrite (zsum_insert _ _ _ _ _ Ei), <- H. cbn. unfold holders at 1. cbn. rewrite Hm. lia.
  - intros k'. unfold holders. cbn. rewrite Hm. pose proof (is_at_nonneg k' k). specialize (L k'). lia.
  - intros k' n. unfold m. destruct (decide (k = k')) as [->|E].
    + case_bool_decide; [by rewrite lookup_delete_eq|]. rewrite lookup_insert_eq. intros [= <-]. lia.
    + case_bool_decide; [rewrite lookup_delete_ne by done|rewrite lookup_insert_ne by done]; apply N.
  - intros k' w [D E]%lookup_delete_Some. pose proof (W _ _ E) as [W1 W2]. split.
    + unfold chs. destruct (waiters a !! k) as [w'|] eqn:Ek; [|done]. rewrite list_lookup_insert_ne; [done|]. intros ->. by pose proof (J _ _ _ Ek E).
    + unfold holders at 1. cbn. rewrite Hm. unfold is_at. rewrite bool_decide_eq_false_2 by done. lia.
  - intros k1 k2 w [_ E1]%lookup_delete_Some [_ E2]%lookup_delete_Some. by eapply J.
  - apply Forall_insert; [|split; [by right|done]]. eapply Forall_impl; [done|]. intros c [Hc1 Hc2]. split; [done|].
    assert (∀ k' w', chans a !! w' = Some true ∨ waiters a !! k' = Some w' → chs !! w' = Some true ∨ delete k (waiters a) !! k' = Some w') as M.
    { intros k' w' [E|E]; [left; by apply Hmono|]. destruct (decide (k = k')) as [->|D]; [left|right; by rewrite lookup_delete_ne].
      unfold chs. rewrite E. apply list_lookup_insert_eq. destruct (W _ _ E) as [W1 _]. by eapply lookup_lt_Some. }
    destruct c; try done; by apply M.
Qed.

Lemma call_step_inv a i c a' : calls a !! i = Some c → call_step a i c = Some a' → admission_inv a → admission_inv a'.
Proof.
  intros Ei E I. pose proof (Forall_lookup_1 _ _ _ _ (iv_calls _ I) Ei) as [P C].
  destruct c as [k|k|k|k| |k w|k w|k| |e|e|e|]; cbn in E; try done; try (injection E as <-).
  - by apply try_admit_inv.
  - eapply count_inv; try done. by destruct P; [|split; [right|]].
  - by apply give_back_inv.
  - eapply count_inv; try done. by destruct P; [|split; [right|]].
  - eapply count_inv; try done. by destruct P; [|split; [right|]].
  - case_bool_decide; [|done]. injection E as <-. eapply count_inv; try done. by destruct P; [|split; [right|]].
  - eapply count_inv; try done. by destruct P; [|split; [right|]].
  - eapply count_inv; try done. destruct P; [done|]. split; [by right|by right].
  - eapply count_inv; try done; [by destruct C as [-> | ->]|]. by destruct P; [|split; [right|]].
  - eapply count_inv; try done; [by destruct C as [-> | ->]|]. by destruct P; [|split; [right|]].
Qed.
Lemma astep_inv a x a' : astep a x = Some a' → admission_inv a → admission_inv a'.
Proof.
  destruct x as [k|i|i|i late]; cbn; intros E I.
  - injection E as <-. destruct I as [H L N F Q R W J C]. case_bool_decide as D; (split; cbn; try done; rewrite ?zsum_snoc; cbn; try lia;
      [intros k'; rewrite zsum_snoc, <- H; unfold holders; cbn; lia|apply Forall_app_2; [done|apply Forall_singleton; split; [|done]]]); [by left|right; lia].
  - apply bind_Some in E as (c & Ei & E). by eapply call_step_inv.
  - apply bind_Some in E as (c & Ei & E). pose proof (Forall_lookup_1 _ _ _ _ (iv_calls _ I) Ei) as [P _].
    destruct c as [| | | | |k w|k w| | | | | |]; try done; injection E as <-; (eapply count_inv; try done); (split; [|by try right]); by destruct P; [|right].
  - apply bind_Some in E as (c & Ei & E). pose proof (Forall_lookup_1 _ _ _ _ (iv_calls _ I) Ei) as [P _].
    destruct c as [| | | | |k w|k w| | | | | |]; try done; injection E as <-; eapply count_inv; try done. split; [by destruct P; [|right]|]. destruct late; [by left|by right].
Qed.
Lemma astep_conf a x a' : astep a x = Some a' → perKey a' = perKey a.
Proof.
  destruct x as [k|i|i|i late]; cbn; intros E; [by injection E as <-| | |]; apply bind_Some in E as (c & _ & E).
  - destruct c; cbn in E; try done; try (by injection E as <-); [|by case_bool_decide; [injection E as <-|]].
    injection E as <-. unfold try_admit. repeat case_bool_decide; try done. by destruct (waiters a !! k).
  - destruct c; try done; by injection E as <-.
  - destruct c; try done; by injection E as <-.
Qed.
Lemma arun_inv l a a' : arun a l = Some a' → admission_inv a → admission_inv a' ∧ perKey a' = perKey a.
Proof.
  revert a. induction l as [|x l IH]; cbn; intros a E I; [by injection E as <-|].
  apply bind_Some in E as (a1 & E1 & E2). rewrite <- (astep_conf _ _ _ E1). eauto using astep_inv.
Qed.
Lemma new_inv m w : admission_inv (NewAdmission m w).
Proof. split; cbn; try done. intros k. unfold holders. cbn. rewrite lookup_empty. cbn. lia. Qed.

(** A call that has come to its end. *)
Definition over (c : call) : Prop := match c with Released | Answered _ | Exempt => True | _ => False end.

Lemma admission_spec m wt l a :
  arun (NewAdmission m wt) l = Some a →
  (0 < m → ∀ k, zsum (holds k) (calls a) ≤ m)
  ∧ inFlight a = zsum flying (calls a) ∧ queued a = zsum queueing (calls a) ∧ rejects a = zsum declined (calls a)
  ∧ (0 < m → Forall over (calls a) → byKey a = ∅ ∧ waiters a = ∅ ∧ inFlight a = 0 ∧ queued a = 0).
Proof.
  intros E. pose proof (arun_inv _ _ _ E (new_inv m wt)) as [[H L N F Q R W J C] Hp]. cbn in Hp. split_and!; try done.
  - intros Hm k. rewrite <- H. specialize (L k). lia.
  - intros Hm Ho.
    assert (∀ k, holders a k = 0) as Z0 by (intros k; rewrite H; apply zsum_zero; eapply Forall_impl; [done|]; by intros []).
    split_and!.
    + apply map_empty. intros k. destruct (byKey a !! k) as [n|] eqn:Ek; [|done]. pose proof (N _ _ Ek). specialize (Z0 k).
      unfold holders in Z0. rewrite Ek in Z0. cbn in Z0. lia.
    + apply map_empty. intros k. destruct (waiters a !! k) as [w|] eqn:Ek; [|done]. pose proof (W _ _ Ek) as [_ W2]. rewrite Z0 in W2. lia.
    + rewrite F. apply zsum_zero. eapply Forall_impl; [done|]. by intros [].
    + rewrite Q. apply zsum_zero. eapply Forall_impl; [done|]. by intros [].
Qed.

(** C40: under every interleaving no tenant has more queries in flight than its
    limit, the metrics count exactly the calls they name, and when every call is
    over no tenant entry, no wait channel and no count is left. *)
Theorem admission_bounded m wt l a :
  arun (NewAdmission m wt) l = Some a →
  (0 < m → ∀ k, zsum (holds k) (calls a) ≤ m)
  ∧ inFlight a = zsum flying (calls a) ∧ queued a = zsum queueing (calls a) ∧ rejects a = zsum declined (calls a)
  ∧ (0 < m → Forall over (calls a) → byKey a = ∅ ∧ waiters a = ∅ ∧ inFlight a = 0 ∧ queued a = 0).
Proof. by eapply admission_spec. Qed.
(** No wakeup is lost: a call that waits while its tenant has a free slot is
    admitted by three of its own steps. *)
Lemma no_lost_wakeup_spec m wt l a i k w :
  arun (NewAdmission m wt) l = Some a → calls a !! i = Some (Waiting k w) → zsum (holds k) (calls a) < m →
  ∃ a', arun a [Step i; Step i; Step i] = Some a' ∧ calls a' !! i = Some (Accepted k).
Proof.
  intros E Ei Hlt. pose proof (arun_inv _ _ _ E (new_inv m wt)) as [[H L N F Q R W J C] Hp]. cbn in Hp.
  pose proof (Forall_lookup_1 _ _ _ _ C Ei) as [_ Hc]. cbn in Hc. pose proof (lookup_lt_Some _ _ _ Ei).
  assert (chans a !! w = Some true) as Hw.
  { destruct Hc as [?|Hc]; [done|]. pose proof (W _ _ Hc) as [_ W2]. rewrite H in W2. lia. }
  cbn. rewrite Ei. cbn. rewrite bool_decide_eq_true_2 by done. cbn. rewrite list_lookup_insert_eq by done. cbn.
  rewrite list_lookup_insert_eq by (by rewrite length_insert). cbn. unfold try_admit.
  rewrite bool_decide_eq_true_2 by (unfold holders; cbn; fold (holders a k); rewrite H, Hp; done).
  eexists. split; [done|]. cbn. apply list_lookup_insert_eq. by rewrite !length_insert.
Qed.

(** C36: no wakeup is lost: in every reachable state a call that waits while its
    tenant has a free slot finds its channel closed, and three of its own steps
    admit it. *)
Theorem no_lost_wakeup m wt l a i k w :
  arun (NewAdmission m wt) l = Some a → calls a !! i = Some (Waiting k w) → zsum (holds k) (calls a) < m →
  ∃ a', arun a [Step i; Step i; Step i] = Some a' ∧ calls a' !! i = Some (Accepted k).
Proof. by eapply no_lost_wakeup_spec. Qed.

End Tenants.
