(* ===== verification/Findings.v ===== *)
(** * What the model shows the code not to do

    Inputs and interleavings on which the code does not do what it means to: a
    group the writer makes and the reader refuses, a group the reader accepts
    and a query panics on, a mapping released under a snapshot that holds it,
    and queries whose answers disagree with the rows they select. *)

From S2P Require Import Prelude Digits GoLib Kernels Indices Timestamps Compress DictSection DictLayout Postings Bloom Group Reader.
From S2P Require Import Bitset Select Table Writer Filter Engine TimeFilter Scan Aggregate Lifecycle.
From stdpp Require Import list gmap.
Local Open Scope Z_scope.
#[local] Existing Instance ref_range.

(** What a computation returned. *)
Definition result {A} (d : A) (o : outcome A) : A := match o with Ok x => x | Panic => d end.

(** One row with an embedding of 33 dimensions. *)
Definition wide_group : Group :=
  MkGroup 1 [MkColumn [116] ColTimestamp None [5] [] 0; MkColumn [118] ColVector None [] (replicate 33 0) 33] false false.

(** an embedding of more than 32 dimensions is lost: [Marshal] stores the
    dimension as the column's width, and [ReadGroup] refuses any column wider than
    32 bits, so the group the writer produced does not read back. *)
Theorem wide_vector_unreadable :
  ∃ b, Marshal wide_group = Ok b ∧ ReadGroup b = Corrupt (BadWidth 1 33).
Proof. exists (result [] (Marshal wide_group)). split; vm_compute; reflexivity. Qed.

(** A v7 group (no checksum) of one row, whose second column claims a one-byte
    postings span: byte 211 of the marshalled group is the low byte of its
    [PostLen]. *)
Definition v7_base : Group :=
  MkGroup 1 [MkColumn [116] ColTimestamp None [5] [] 0; MkColumn [118] ColDict (Some (MkDict [[97]] [0])) [] [] 0] false true.
Definition v7_blob : outcome bytes :=
  b ← Marshal v7_base; Ok (take (length b - 4) (<[211%nat := 1]> (<[4%nat := 7]> b))).

(** A v7 group with a short postings span is accepted and then panics the
    value-count query: the legacy branch of [ValueCountsInto] reads the offset
    table without the bounds [postCount] checks. *)
Theorem ValueCounts_v7_panics :
  ∃ b r, v7_blob = Ok b ∧ ReadGroup b = Good r ∧ ValueCounts r [118] = Panic ∧
         EqualityCount r [118] [97] = Ok (0, 0, true).
Proof.
  exists (result [] v7_blob), (match ReadGroup (result [] v7_blob) with Good r => r | _ => MkReader [] 0 0 0 [] end).
  split_and!; vm_compute; reflexivity.
Qed.

(** ** The mapping's life *)

(** Two snapshots and a removal: the first drops the last reference, the second
    acquires the group, which is still indexed, then the group is retired, and
    the first's test of [retired] sends it on to unmap. *)
Definition race : list action :=
  [Acquire; Step 0; Acquire; Remove; Step 2; Step 2; Step 0; Step 0; Step 0; Step 0].

(** [release] tests [retired] after its decrement, in a second atomic step:
    an acquisition and a retirement between the two leave a snapshot holding a
    group whose mapping has been released. *)
Theorem released_under_holder :
  ∃ e, erun new_entry race = Some e ∧ Holding ∈ threads e ∧ unmaps e = 1%nat.
Proof. eexists. split; [reflexivity|]. split; [|reflexivity]. cbn. by do 2 constructor. Qed.

(** ** Queries *)

(** Text functions for queries that use none of them. *)
Definition plain_text : GoText := {|
  ParseFloat := λ _, None; regexp_Compile := λ _, None; ToLower := λ s, s; uint32_of := λ _, 0; Format_RFC3339Nano := λ _, [] |}.
#[local] Existing Instance plain_text.

(** A group of rows with a time and one field [v]. *)
Definition rows_group (noPostings : bool) (ts : list Z) (vs : list bytes) : Group :=
  MkGroup (len ts) [MkColumn s_time ColTimestamp None ts [] 0;
                    MkColumn [118] ColDict (Some (result (MkDict [] []) (BuildDict vs))) [] [] 0] false noPostings.
Definition leased_group (noPostings : bool) (ts : list Z) (vs : list bytes) : leased :=
  let r := match ReadGroup (result [] (Marshal (rows_group noPostings ts vs))) with Good r => r | _ => MkReader [] 0 0 0 [] end in
  Lease r (new_caches r 0 0) (default 0 (head ts)).
Definition whole : Query := MkQuery 0 1000 [] None [] 0 0 0 0 true false 0 0 true 500 true.
Definition untimed : Outside := MkOutside (λ _, None) (λ _, []).
Definition answer {A} (d : A) (o : outcome (option A)) : A := default d (result None o).

(** Groups in the store's order, by their first time; the oldest reaches past
    the others. *)
Definition overlapping : list leased :=
  [leased_group false [0; 100] [[97]; [97]]; leased_group false [10; 20] [[97]; [97]]; leased_group false [30; 40] [[97]; [97]]].
Definition newest (n : Z) : Query := MkQuery 0 1000 [] None [] 0 0 0 n true false 0 0 true 500 true.
(** The scan for the newest row stops at a group whose next older neighbour ends
    before it, although a group further back holds a newer row. *)
Lemma newest_row_missed :
  (row_Time <$> (answer ([], None) (Run untimed 0 1 [] (Some overlapping) (newest 1))).1) = [40] ∧
  (row_Time <$> (answer ([], None) (Run untimed 0 1 [] (Some overlapping) whole)).1) = [0; 100; 10; 20; 30; 40].
Proof. split; vm_compute; reflexivity. Qed.
(** Within a group the newest rows are taken by position, not by time. *)
Lemma newest_by_position :
  (row_Time <$> (answer ([], None) (Run untimed 0 1 [] (Some [leased_group false [9; 5] [[97]; [97]]]) (newest 1))).1) = [5].
Proof. vm_compute. reflexivity. Qed.

(** A filter tree that rejects the rows whose [v] is [a]. *)
Definition not_a : Query := with_filter whole [] (Some (OpNot (OpLeaf (eq_pred [118] [97])))).
Definition two_rows (noPostings : bool) : list leased := [leased_group noPostings [5; 7] [[97]; [98]]].
(** [StatsByField] counts the rows a filter tree rejects: its footer path tests
    the predicate list, which is empty when the query has a tree. *)
Lemma stats_ignores_filter :
  (row_Fields <$> (answer ([], None) (Run untimed 0 1 [] (Some (two_rows false)) not_a)).1) = [[([118], [98])]] ∧
  StatsByField untimed (Some (two_rows false)) not_a [118] = Ok ([VC [97] 1; VC [98] 1], None).
Proof. split; vm_compute; reflexivity. Qed.
(** [StatsByField] over a group without postings loses its rows. *)
Lemma stats_without_postings :
  StatsByField untimed (Some (two_rows true)) whole [118] = Ok ([], None) ∧
  len (answer ([], None) (Run untimed 0 1 [] (Some (two_rows true)) whole)).1 = 2.
Proof. split; vm_compute; reflexivity. Qed.

(** A relative window that [Count] does not resolve: it counts nothing, where
    [Run], which resolves it, returns the row. *)
Definition last_minute : Query := with_filter whole [time_pred KTimeRange 495 0 true] None.
Lemma count_unresolved :
  Count untimed 1 [] (Some (two_rows false)) last_minute = Ok (Some (0, None)) ∧
  (row_Time <$> (answer ([], None) (Run untimed 0 1 [] (Some (two_rows false)) last_minute)).1) = [5; 7].
Proof. split; vm_compute; reflexivity. Qed.

(** Split by a field, [Hits] adds a predicate the filter tree hides: every series
    counts every row the tree accepts. *)
Definition some_v : Query := with_filter whole [] (Some (OpOr [OpLeaf (eq_pred [118] [97]); OpLeaf (eq_pred [118] [98])])).
Lemma hits_series_ignore_value :
  (λ x, (x.1, hs_Total x.2)) <$> (answer ([], None) (Hits None untimed (replicate 2 (MkEnv untimed 1 [])) (Some (two_rows false)) some_v 1000 [118])).1 =
  [([97], 2); ([98], 2)].
Proof. vm_compute. reflexivity. Qed.

(** A fan-out whose workers all test the row cap before any has added its rows:
    it returns eight rows under a cap of one and records no stop, where the serial
    scan stops. *)
Definition four_groups : list leased := replicate 4 (leased_group false [5; 7] [[97]; [98]]).
Definition capped : Query := MkQuery 0 1000 [] None [] 0 1 0 0 true false 0 0 true 500 true.
Definition in_step : list (nat * option Stop * list Z) := concat (replicate 9 ((λ w, (w, None, [])) <$> seq 0 4)).
Lemma fan_out_over_cap :
  (λ x, (len x.1, x.2)) <$> result None (runParallel 4 in_step capped None four_groups) = Some (8, None) ∧
  (λ x : list Row * option Stop, (len x.1, x.2)) (result ([], None) (run_serial untimed 0 capped [] 0 None four_groups)) = (2, Some ErrRowLimit).
Proof. split; vm_compute; reflexivity. Qed.

(** An empty value of a field the group has no column for: the row evaluator
    accepts the row, the scan does not select it. *)
Definition no_w : Expr := OpLeaf (eq_pred [119] []).
Lemma absent_field_disagrees :
  result None (Run untimed 0 1 [] (Some (two_rows false)) (with_filter whole [] (Some no_w))) = Some ([], None) ∧
  matchRow (MkRow 5 [([118], [97])] false) no_w = true.
Proof. split; vm_compute; reflexivity. Qed.
