(* ===== verification/Witnesses.v ===== *)
(** * Witnesses

    Concrete inputs on which the hypotheses of the theorems hold, with the
    kernels, the compressor, the map order and the byte operations replaced by
    their reference instances. *)

From S2P Require Import Prelude Digits GoLib Kernels Indices Timestamps Compress DictSection DictLayout Postings Bloom.
From S2P Require Import Group GroupSafe GroupLayout Bitset Reader ReaderSafe ReaderOk Table Writer Ingest Recompact Batches Findings.
From stdpp Require Import list gmap sorting.
Local Open Scope Z_scope.
#[local] Existing Instance ref_range.

(** A decidable fact about closed terms, by evaluation. *)
Ltac by_eval := apply (bool_decide_unpack _); vm_compute; exact I.

(** ** Columns and sections *)

Lemma decodeIndices_witness : decodeIndices (encodeIndices [1; 3; 0] 2) (len [1; 3; 0]) 2 = Ok [1; 3; 0].
Proof. apply (decodeIndices_encodeIndices [1; 3; 0] 2); [lia|by_eval]. Defined.

Lemma BuildDict_witness : ∃ c, BuildDict [[98]; [97]; [98]] = Ok c ∧ dict_of [[98]; [97]; [98]] c.
Proof. apply (BuildDict_correct [[98]; [97]; [98]]). by_eval. Defined.

Lemma decodeTsAt_witness : ∃ b, encodeTimestamps [5; 7; 6] = Ok b ∧ decodeTsAt b 1 = Ok 7.
Proof. apply (decodeTsAt_encode [5; 7; 6] 1 7); [by_eval|by_eval|reflexivity]. Defined.

Lemma decodeTsRangeInto_witness :
  ∃ b, encodeTimestamps [5; 7; 6] = Ok b ∧ decodeTsRangeInto [9; 9] b 1 3 = Ok [7; 6].
Proof. apply (decodeTsRangeInto_encode [5; 7; 6] 1 3 [9; 9]); [by_eval|by_eval|simpl; lia]. Defined.

Lemma decodeTimeRangeInto_witness :
  ∃ b, encodeTimestamps [5; 7; 6] = Ok b ∧ decodeTimeRangeInto b 3 6 8 [] = Ok [false; true; true].
Proof. apply (decodeTimeRangeInto_encode [5; 7; 6] 6 8 []); [done|by_eval|by_eval]. Defined.

Lemma timeWindowSpan_witness :
  ∃ b lo hi, encodeTimestamps [5; 7; 6] = Ok b ∧ timeWindowSpan b 3 6 8 = Ok (lo, hi) ∧
    0 ≤ lo ≤ hi ∧ hi ≤ 3 ∧ ∀ i t, [5; 7; 6] !! i = Some t → 6 ≤ t < 8 → lo ≤ Z.of_nat i < hi.
Proof. apply (timeWindowSpan_covers [5; 7; 6] 6 8); [done|by_eval|by_eval]. Defined.

Lemma decodeTsRangeInto_fresh_witness : decodeTsRangeInto [9] [1; 2; 3] 0 4 = decodeTsRange [1; 2; 3] 0 4.
Proof. apply (decodeTsRangeInto_fresh [9] [1; 2; 3] 0 4); [by_eval|lia]. Defined.

Lemma lz4_witness :
  ∃ block, lz4Compress [97; 97; 98] = Ok block ∧ is_bytes block ∧
           ∀ buf, lz4DecompressInto buf block (len [97; 97; 98]) = [97; 97; 98].
Proof. apply (lz4_roundtrip [97; 97; 98]); by_eval. Defined.

Lemma dictBlob_witness : unmarshalDictBlob (marshalDictBlob [[97]; []]) 2 = Ok [[97]; []].
Proof. apply (unmarshal_marshalDictBlob [[97]; []]). by_eval. Defined.

Lemma dictSectionAll_witness :
  ∃ vs, dictSectionAll false false [1; 2; 3] 5 = Ok vs ∧ dictSectionAll true true [1; 2; 3] 5 = Ok vs.
Proof. apply (dictSectionAll_arms true true [1; 2; 3] 5); [by_eval|lia]. Defined.

Lemma dictWalk_witness :
  ∃ w vs, newDictWalk [1; 2; 3] 5 = Ok w ∧ dictSectionAll true true [1; 2; 3] 5 = Ok vs ∧
    walk_all (S (length vs)) true w = Ok vs.
Proof. apply (dictWalk_all true [1; 2; 3] 5); [by_eval|lia]. Defined.

Lemma marshalDictSection_witness :
  ∃ sec, marshalDictSection [[97]; [98]] true = Ok sec ∧ dictSectionAt sec 2 1 = Ok [98].
Proof.
  destruct (marshalDictSection_reads [[97]; [98]] true) as (sec & E & H); [by_eval| |by_eval|].
  - repeat constructor; by_eval.
  - exists sec. split; [exact E|]. destruct H as (Hat & _); [|by apply (Hat 1 [98])].
    vm_compute in E. injection E as <-. vm_compute. reflexivity.
Defined.

Lemma postingRows_witness :
  ∃ out, postingRows [255; 255; 255; 255; 1; 2; 3; 4; 5] 0 10 = Ok out ∧ row_list 10 out ∧ len out ≤ maxPostingRun.
Proof. apply (postingRows_safe [255; 255; 255; 255; 1; 2; 3; 4; 5] 0 10). by_eval. Defined.

Lemma postings_witness :
  ∃ p blob, buildPostings [0; 1; 0] 2 = Ok p ∧ marshal p [] = Ok blob ∧
    (len blob < 2 ^ 32 → ∀ id, (id < 2)%nat →
      postingRows blob (Z.of_nat id) 3 = Ok (rows_of [0; 1; 0] (Z.of_nat id)) ∧
      postCount blob (Z.of_nat id) = Ok (len (rows_of [0; 1; 0] (Z.of_nat id)))).
Proof. apply (postings_roundtrip [0; 1; 0] 2); by_eval. Defined.

Lemma bloom_witness : ∃ bloom, buildDictBloom [[97]; [98]] = Ok bloom ∧ bloomMaybe bloom [98] = Ok true.
Proof. apply (bloom_no_false_negative [[97]; [98]] [98]); by_eval. Defined.

(** ** Bitsets *)

Definition bits70 : Bitset := MkBitset [5; 2] 70.
Definition bits70' : Bitset := MkBitset [4; 3] 70.
Lemma bits70_wf : bitset_wf bits70.
Proof. constructor; by_eval. Qed.
Lemma bits70'_wf : bitset_wf bits70'.
Proof. constructor; by_eval. Qed.

Lemma Keep_witness :
  rows_in (KeepFirst bits70 2) = [0; 2] ∧ rows_in (KeepLast bits70 2) = [2; 65] ∧
  bitset_wf (KeepFirst bits70 2) ∧ bitset_wf (KeepLast bits70 2).
Proof. apply (Keep_rows bits70 2), bits70_wf. Defined.
Lemma ForEach_witness :
  ForEach bits70 = [0; 2; 65] ∧ StronglySorted Z.lt [0; 2; 65] ∧ Count bits70 = 3 ∧ FirstLast bits70 = (0, 65).
Proof. apply (ForEach_rows bits70), bits70_wf. Defined.
Lemma Set_Test_witness :
  Bitset.Test bits70 64 = Ok false ∧
  ∃ b', Bitset.Set_ bits70 64 = Ok b' ∧ bitset_wf b' ∧ bs_n b' = 70 ∧ ∀ j, 0 ≤ j → j ∈ rows_in b' ↔ j ∈ rows_in bits70 ∨ j = 64.
Proof. apply (Set_Test_rows bits70 64); [apply bits70_wf|simpl; lia]. Defined.
Lemma SetAll_witness :
  bitset_wf (NewBitset 70) ∧ rows_in (NewBitset 70) = [] ∧
  ∃ b, SetAll (NewBitset 70) = Ok b ∧ bitset_wf b ∧ rows_in b = seqZ 0 70.
Proof. apply (SetAll_rows 70). lia. Defined.
Lemma compose_witness : 2 ∈ rows_in (And bits70 bits70') ∧ 0 ∈ rows_in (AndNot bits70 bits70').
Proof.
  destruct (compose_rows bits70 bits70') as (_ & _ & _ & H); [apply bits70_wf|apply bits70'_wf|reflexivity|].
  split; [apply (H 2); [simpl; lia|split; by_eval]|apply (H 0); [simpl; lia|split; [by_eval|]]].
  intros He. apply (bool_decide_eq_true_2 _) in He. vm_compute in He. discriminate.
Defined.

(** ** Groups and readers *)

Definition sample : Group :=
  MkGroup 2 [MkColumn s_time ColTimestamp None [5; 7] [] 0;
             MkColumn [118] ColDict (Some (MkDict [[97]; [98]] [1; 0])) [] [] 0] false false.
Definition sample_blob : bytes := result [] (Marshal sample).
Definition good_reader (b : bytes) : Reader := match ReadGroup b with Good r => r | _ => MkReader [] 0 0 0 [] end.
Definition sample_reader : Reader := good_reader sample_blob.

Lemma sample_wf : group_wf sample.
Proof.
  constructor; [split; by_eval|by_eval| | |intros _; apply Exists_cons_hd; done].
  - repeat constructor; by_eval.
  - repeat constructor; by_eval.
Qed.
Lemma sample_used : dicts_used sample.
Proof.
  intros c d v Hc Hd Hv. unfold sample in Hc. cbn [g_Columns] in Hc. rewrite !elem_of_cons in Hc.
  destruct Hc as [-> |[-> |Hc]]; [done| |by apply elem_of_nil in Hc]. injection Hd as <-.
  cbn [Dict] in Hv. rewrite !elem_of_cons in Hv. destruct Hv as [-> |[-> |Hv]]; [by_eval|by_eval|by apply elem_of_nil in Hv].
Qed.
Lemma sample_source : source sample sample_reader.
Proof.
  destruct (ReadGroup_Marshal sample sample_wf) as (b & E & H).
  assert (b = sample_blob) as -> by (unfold sample_blob; by rewrite E).
  destruct H as (r & Er & _ & Hr); [by_eval|].
  assert (r = sample_reader) as -> by (unfold sample_reader, good_reader; by rewrite Er).
  constructor; [apply sample_wf|done|by_eval|done|by_eval].
Qed.
Lemma sample_reader_wf : reader_wf sample_reader.
Proof.
  assert (is_bytes sample_blob) as Hb by by_eval. pose proof (ReadGroup_safe_spec sample_blob Hb) as H.
  unfold sample_reader, good_reader. destruct (ReadGroup sample_blob) eqn:E; [apply H|vm_compute in E; discriminate..].
Qed.

Lemma ReadGroup_witness : ReadGroup sample_blob = Good sample_reader ∧ safe (λ r, reader_wf r ∧ r_blob r = sample_blob) (ReadGroup sample_blob).
Proof. split; [vm_compute; reflexivity|]. apply (ReadGroup_safe sample_blob). by_eval. Defined.

Lemma byte_changed_witness : ∃ e, ReadGroup (<[20%nat := 99]> sample_blob) = Corrupt e.
Proof.
  apply (ReadGroup_byte_changed sample_blob 20 (default 0 (sample_blob !! 20%nat)) 99 sample_reader);
    [by_eval|vm_compute; reflexivity|vm_compute; reflexivity|vm_compute; reflexivity|by_eval|by_eval|intros [? _]; lia].
Defined.

Lemma answers_witness :
  ∃ b, Marshal sample = Ok b ∧ ∃ r, ReadGroup b = Good r ∧ answers false r (table_of sample).
Proof.
  destruct (Marshal_ReadGroup_answers sample sample_wf sample_used) as (b & E & H). exists b. split; [exact E|].
  apply H. assert (b = sample_blob) as -> by (unfold sample_blob; by rewrite E). by_eval.
Defined.

Lemma dict_accessors_witness :
  ∃ rows has, EqualityRows sample_reader [118] [97] = Ok (rows, has) ∧ row_list 2 rows.
Proof. apply (dict_accessors_safe sample_reader [118] sample_reader_wf). Defined.

Lemma ts_accessors_witness : returns (TimeWindowSpan sample_reader s_time 5 6).
Proof. apply (ts_accessors_safe sample_reader s_time 5 6 sample_reader_wf). by_eval. Defined.

Lemma caches_witness :
  ∃ s', DictIndicesRaw sample_reader (new_caches sample_reader 100 0) [118]
        = (x ← DictIndicesRaw sample_reader no_caches [118]; Ok (x.1, s')).
Proof.
  exact (proj1 (caches_transparent sample_reader (new_caches sample_reader 100 0) [118] 100 0 sample_reader_wf (rtc_refl _ _))).
Defined.

Lemma ValueCounts_witness :
  ValueCountsInto true sample_reader [118] = ValueCountsInto false sample_reader [118].
Proof. apply (ValueCountsInto_arms sample_reader [118] sample_reader_wf). Defined.

Lemma recompact_witness :
  ∃ g' s' b, rebuild sample_reader (new_caches sample_reader 0 0) true true = Ok (Some g', s') ∧
    table_of g' = table_of sample ∧ Marshal g' = Ok b ∧
    (len b < 2 ^ 32 → ∃ r', ReadGroup b = Good r' ∧ answers true r' (table_of sample)).
Proof.
  apply (recompact_lossless sample sample_reader (new_caches sample_reader 0 0) true true sample_source), new_caches_ok.
Defined.

(** A batch of the sample group and of the sample under other field names. *)
Definition sample2 : Group :=
  MkGroup 1 [MkColumn s_time ColTimestamp None [9] [] 0;
             MkColumn [119] ColDict (Some (MkDict [[99]] [0])) [] [] 0] false false.
Definition sample2_reader : Reader := good_reader (result [] (Marshal sample2)).
Lemma sample2_wf : group_wf sample2.
Proof.
  constructor; [split; by_eval|by_eval| | |intros _; apply Exists_cons_hd; done].
  - repeat constructor; by_eval.
  - repeat constructor; by_eval.
Qed.
Lemma sample2_source : source sample2 sample2_reader.
Proof.
  destruct (ReadGroup_Marshal sample2 sample2_wf) as (b & E & H).
  assert (b = result [] (Marshal sample2)) as -> by (by rewrite E).
  destruct H as (r & Er & _ & Hr); [by_eval|].
  assert (r = sample2_reader) as -> by (unfold sample2_reader, good_reader; by rewrite Er).
  constructor; [apply sample2_wf|done|by_eval|done|by_eval].
Qed.

Definition name_type (n : bytes) : Z := if str_eqb n s_time then ColTimestamp else ColDict.

Lemma sample_batch :
  Forall2 (λ g e, ∃ r, ge_reader e = Some r ∧ source g r ∧ caches_ok r (ge_caches e)) [sample; sample2]
    [Entry (Some sample_reader) (new_caches sample_reader 0 0); Entry (Some sample2_reader) (new_caches sample2_reader 0 0)].
Proof.
  repeat constructor; eexists; (split; [reflexivity|]); (split; [|apply new_caches_ok]);
    [apply sample_source|apply sample2_source].
Qed.
Lemma sample_mergeable : mergeable name_type s_time [sample; sample2].
Proof.
  constructor; [| | |done].
  - intros g c Hg Hc. rewrite !elem_of_cons in Hg. destruct Hg as [-> |[-> |[]%elem_of_nil]];
      cbn [g_Columns sample sample2] in Hc; rewrite !elem_of_cons in Hc; by destruct Hc as [-> |[-> |[]%elem_of_nil]].
  - intros g c Hg Hc. rewrite !elem_of_cons in Hg. destruct Hg as [-> |[-> |[]%elem_of_nil]];
      cbn [g_Columns sample sample2] in Hc; rewrite !elem_of_cons in Hc; by destruct Hc as [-> |[-> |[]%elem_of_nil]].
  - intros g Hg. rewrite !elem_of_cons in Hg. destruct Hg as [-> |[-> |[]%elem_of_nil]];
      (eexists; split; [apply elem_of_cons; by left|done]).
Qed.
Lemma sample_merge_fits : merge_fits [sample; sample2].
Proof.
  constructor; [by_eval|by_eval|]. intros n.
  destruct (decide (n = s_time)) as [-> |Ht]; [by_eval|]. destruct (decide (n = [118])) as [-> |H8]; [by_eval|].
  destruct (decide (n = [119])) as [-> |H9]; [by_eval|].
  assert (find_values (t_cols (table_of sample)) n = None) as E1.
  { change (t_cols (table_of sample)) with [(s_time, Times [5; 7]); ([118], Strings [[98]; [97]])].
    cbn [find_values]. unfold str_eqb. by rewrite !bool_decide_eq_false_2 by congruence. }
  assert (find_values (t_cols (table_of sample2)) n = None) as E2.
  { change (t_cols (table_of sample2)) with [(s_time, Times [9]); ([119], Strings [[99]])].
    cbn [find_values]. unfold str_eqb. by rewrite !bool_decide_eq_false_2 by congruence. }
  cbn [fmap list_fmap]. unfold compose, strings_in. rewrite E1, E2. by_eval.
Qed.

Lemma merge_witness :
  ∃ g before cols b,
    mergeGroups [Entry (Some sample_reader) (new_caches sample_reader 0 0); Entry (Some sample2_reader) (new_caches sample2_reader 0 0)]
      = Ok (Some g, before) ∧
    NoDup cols.*1 ∧ (∀ n, n ∈ cols.*1 ↔ ∃ h c, h ∈ [sample; sample2] ∧ c ∈ g_Columns h ∧ c_Name c = n) ∧
    table_of g = MkTable (total_rows [sample; sample2]) (merged_values [sample; sample2] <$> cols) ∧
    Marshal g = Ok b ∧ (len b < 2 ^ 32 → ∃ r, ReadGroup b = Good r ∧ answers false r (table_of g)).
Proof.
  apply (mergeGroups_concatenates name_type s_time [sample; sample2]);
    [apply sample_batch|done|apply sample_mergeable|apply sample_merge_fits].
Defined.

(** ** The writer *)

(** One record, [a=b], at time 3. *)
Definition one_row : list row := [stored_row plain_config 3 (one_field [97] [98]) false ∅].
Definition one_buf : buffers := add_row plain_config 3 (one_field [97] [98]) false ∅ no_rows.

Lemma add_row_witness : holds plain_config one_row one_buf.
Proof.
  apply (add_row_refines plain_config [] no_rows 3 (one_field [97] [98]) false ∅); [by_eval|apply holds_empty].
Defined.

Lemma one_row_holds : holds plain_config one_row one_buf.
Proof. apply (add_row_spec plain_config [] no_rows 3 (one_field [97] [98]) false ∅); [by_eval|apply holds_empty]. Qed.
Lemma one_row_fits : fits plain_config one_row.
Proof.
  constructor; [by_eval|by_eval|by_eval| |by_eval|by_eval].
  intros k. change (cell k <$> one_row) with [default [] (one_field [97] [98] !! k)]. unfold one_field.
  destruct (decide (k = [97])) as [-> |Hk]; [by_eval|]. rewrite lookup_singleton_ne by congruence. by_eval.
Qed.

Lemma ingest_witness :
  ∃ g blob, worker_group (take_job plain_config one_buf) = Ok (g, 0) ∧ Marshal g = Ok blob ∧
    (len blob < 2 ^ 32 → ∃ r, ReadGroup blob = Good r ∧ r_Rows r = 1 ∧
       time_answers r s_time [3] ∧
       ∀ k, k ≠ s_time → Exists (λ r, is_Some (row_fields r !! k)) one_row → string_answers false r k (cell k <$> one_row)).
Proof. apply (ingest_answers plain_config one_row one_buf); [apply one_row_holds|apply one_row_fits|done|by_eval]. Defined.

(** ** Interleavings *)

Definition s_new : sys := newWriter plain_config 0.
Definition s_add : sys := addVec 1 1 1 (one_field [97] [98]) false ∅ s_new.
Definition s_flush : sys := (FlushMark_lock (Mark s_new) 2 s_add).1.
Definition the_call : call :=
  call_of (Some (Mark s_new)) (length (s_jobs s_flush)) (retired_since (Mark s_new) (flushLocked 2 s_add))
    (FlushMark_lock (Mark s_new) 2 s_add).2.
(** The worker's operations on the one job, [e] its append's answer. *)
Definition s_worked (e : option error) (n : nat) : sys :=
  let s := default s_flush (worker_op 0 e s_flush) in Nat.iter n (λ s, default s (worker_op 0 None s)) s.
Definition heard (s : sys) : call :=
  MkCall (c_mark the_call) (c_jobs the_call) [] (0 :: c_seen the_call) (tally_batch (batch_of s 0) (c_tally the_call)) None.
Definition returned (s : sys) : call :=
  let t := tally_batch (batch_of s 0) (c_tally the_call) in
  MkCall (c_mark the_call) (c_jobs the_call) [] (0 :: c_seen the_call) t (Some (tally_result t)).
Definition s_end (e : option error) (n : nat) : sys := retire_done (mark_done 0 (s_worked e n)).

Lemma s_run e n :
  (∀ i, (i < n)%nat → worker_op 0 None (s_worked e i) = Some (s_worked e (S i))) →
  worker_op 0 e s_flush = Some (s_worked e 0) → fb_wg (batch_of (s_worked e n) 0) = 0 →
  rtc step (s_new, []) (s_end e n, [returned (s_worked e n)]).
Proof.
  intros Hw H0 Hwg. eapply rtc_l; [apply (step_add _ _ 1 1 1 (one_field [97] [98]) false ∅)|].
  eapply rtc_l; [eapply (step_mark _ _ (Mark s_new) 2); vm_compute; reflexivity|].
  eapply rtc_l; [eapply (step_worker _ _ 0 e); exact H0|].
  assert (∀ m cs, (m ≤ n)%nat → rtc step (s_worked e 0, cs) (s_worked e m, cs)) as Hs.
  { intros m cs. induction m as [|m IH]; intros Hm; [apply rtc_refl|].
    eapply rtc_r; [apply IH; lia|]. eapply (step_worker _ _ 0 None). apply Hw. lia. }
  etransitivity; [apply (Hs n); lia|].
  eapply rtc_l; [eapply (step_await _ _ 0); [vm_compute; reflexivity|exact Hwg]|].
  eapply rtc_l; [eapply (step_return _ _ 0); reflexivity|]. apply rtc_refl.
Qed.

Lemma s_stored : rtc step (s_new, []) (s_end None 2, [returned (s_worked None 2)]).
Proof.
  apply s_run; [|vm_compute; reflexivity..]. intros [|[|i]] Hi; [vm_compute; reflexivity..|lia].
Qed.
Lemma s_lost : rtc step (s_new, []) (s_end (Some [ENOSPC]) 3, [returned (s_worked (Some [ENOSPC]) 3)]).
Proof.
  apply s_run; [|vm_compute; reflexivity..]. intros [|[|[|i]]] Hi; [vm_compute; reflexivity..|lia].
Qed.
Lemma s_new_reachable : reachable plain_config s_new [].
Proof. exists 0. apply rtc_refl. Qed.

Lemma nil_stored_witness :
  ∃ j, s_jobs (s_end None 2) !! 0%nat = Some j ∧ (jb_phase j = Out true ∨ jb_phase j = Finished true).
Proof.
  eexists. split; [vm_compute; reflexivity|].
  apply (FlushMark_nil_stored plain_config s_new [] (s_end None 2) [returned (s_worked None 2)] 0 (returned (s_worked None 2))
    s_new_reachable s_stored) with (i := 0%nat); [reflexivity|reflexivity|vm_compute; reflexivity| |vm_compute; reflexivity].
  vm_compute. lia.
Defined.

Lemma clean_retry_witness :
  ∃ j, s_jobs (s_end (Some [ENOSPC]) 3) !! 0%nat = Some j ∧ (jb_phase j = Out false ∨ jb_phase j = Finished false).
Proof.
  eexists. split; [vm_compute; reflexivity|].
  refine (FlushMark_clean_retry plain_config s_new [] (s_end (Some [ENOSPC]) 3) [returned (s_worked (Some [ENOSPC]) 3)] 0
    (returned (s_worked (Some [ENOSPC]) 3)) _ s_new_reachable s_lost _ _ _ _ 0%nat _ _ _);
    [reflexivity|reflexivity|vm_compute; reflexivity|vm_compute; reflexivity|vm_compute; lia|vm_compute; reflexivity].
Defined.

Lemma rings_witness : bounded (s_w s_new).
Proof. apply (rings_bounded plain_config s_new [] s_new_reachable). Defined.
