(* ===== verification/QueryWitnesses.v ===== *)
(** * Witnesses for the query layer

    The sample group of [Witnesses] served to queries, and runs of the shared
    counters; text, map order and byte operations are reference instances. *)

From S2P Require Import Prelude Digits GoLib Kernels Indices Timestamps Compress DictSection DictLayout Postings Bloom.
From S2P Require Import Group GroupSafe GroupLayout Bitset Select Reader ReaderSafe ReaderOk Table Writer Ingest Recompact Batches.
From S2P Require Import Filter FilterOk Engine EngineOk TimeFilter Scan ScanOk PagesOk NewestOk Aggregate AggregateOk StatsOk.
From S2P Require Import Lifecycle Budget Findings Witnesses.
From stdpp Require Import list gmap sorting strings.
Local Open Scope Z_scope.
#[local] Existing Instance ref_range.
#[local] Existing Instance plain_text.

(** ** The sample group in service *)

Definition sample_table : table := table_of sample.
Definition sample_caches : caches := new_caches sample_reader 100 0.
Lemma sample_answers : answers false sample_reader sample_table.
Proof. exact (reader_answers sample sample_reader sample_wf sample_used (so_reader _ _ sample_source)). Qed.
Lemma sample_serves : serves false sample_reader sample_table [5; 7].
Proof. constructor; [apply sample_answers|by_eval|by_eval|reflexivity]. Qed.
Lemma sample_caches_ok : caches_ok sample_reader sample_caches.
Proof. apply new_caches_ok. Qed.
Definition leased_sample (id : Z) : leased * table := (Lease sample_reader sample_caches id, sample_table).
Lemma sample_in_service id : in_service (leased_sample id).
Proof. split; [apply sample_caches_ok|exists false, [5; 7]; apply sample_serves]. Qed.
Definition five : list (leased * table) := leased_sample <$> seqZ 0 5.
Lemma five_in_service : Forall in_service five.
Proof. apply Forall_fmap, Forall_true. intros id. apply sample_in_service. Qed.
(** [v = a], and its negation as a tree. *)
Definition is_a : Expr := OpLeaf (eq_pred [118] [97]).
Definition tree : Expr := OpAnd [OpNot is_a; OpOr [is_a; OpLeaf (eq_pred [118] [98])]].
Definition asked : Query := with_filter whole [] (Some tree).
Definition turns (workers n : nat) : list (nat * option Stop * list Z) := concat (replicate n ((λ w, (w, None, [])) <$> seq 0 workers)).
Lemma turns_enough workers work : enough (λ e : nat * option Stop * list Z, e.1.1) workers work (turns workers (8 * work + workers)).
Proof.
  eexists. split; [reflexivity|]. split; [|by rewrite length_replicate]. intros round [-> _]%elem_of_replicate w Hw.
  exists (w, None, []). split; [|done]. apply list_elem_of_fmap. exists w. split; [done|]. apply elem_of_seq. lia.
Qed.

(** ** One group *)

Lemma evalExpr_witness : ∃ b s', evalExpr sample_reader sample_caches tree 2 = Ok (b, s') ∧ selects b 2 (λ i, expr_sem sample_table tree (Z.to_nat i)).
Proof.
  destruct (evalExpr_exact false sample_reader sample_table sample_answers ltac:(by_eval) ltac:(by_eval) [5; 7] eq_refl tree sample_caches sample_caches_ok)
    as (b & s' & E & _ & H). exists b, s'. split; [exact E|exact H].
Defined.
Lemma row_evaluator_witness : expr_sem sample_table tree 0 = exprMatchesRow tree (rowOf (table_row sample_table 0)).
Proof. apply (row_evaluator_agrees sample_table tree 0). reflexivity. Defined.
Lemma groupCanMatch_witness : ∃ c, groupCanMatch sample_reader asked = Ok c ∧ (c = false → query_rows sample_table asked = []).
Proof. exact (groupCanMatch_sound false sample_reader sample_table [5; 7] sample_serves asked). Defined.
Lemma matchBitset_witness :
  ∃ b s', matchBitset sample_reader sample_caches asked = Ok (b, s') ∧ selects b 2 (λ i, query_sem sample_table asked (Z.to_nat i)).
Proof.
  destruct (matchBitset_exact false sample_reader sample_table [5; 7] sample_serves sample_caches asked sample_caches_ok) as (b & s' & E & _ & H).
  exists b, s'. split; [exact E|exact H].
Defined.
Lemma appendMatches_witness :
  ∃ s', appendMatches [] [] sample_reader sample_caches asked =
    Ok (mat_rows sample_table (query_fields (t_cols sample_table).*1 asked) (bounded_rows asked 0 (query_rows sample_table asked)), s').
Proof.
  destruct (appendMatches_rows false sample_reader sample_table [5; 7] sample_serves [] [] sample_caches asked sample_caches_ok) as (s' & E & _).
  exists s'. exact E.
Defined.

(** ** Several groups *)

Lemma Run_witness :
  ∃ x, Run untimed 500 2 (turns 2 42) (Some five.*1) asked = Ok x ∧ x ≠ None ∧
    ∀ rows, x = Some (rows, None) → rows = limited asked (matches (resolveTimePreds asked 500) five).
Proof.
  destruct (Run_complete untimed 500 2 (turns 2 42) five asked five_in_service ltac:(by_eval) ltac:(lia)) as (x & E & He & Hx & _).
  exists x. split; [exact E|]. split; [apply He, (turns_enough 2 5)|exact Hx].
Defined.
Lemma runParallel_witness :
  ∃ x rows', runParallel 2 (turns 2 42) asked None five.*1 = Ok x ∧ run_serial untimed 0 asked [] 0 None five.*1 = Ok (rows', None) ∧
    ∀ rows r, x = Some (rows, r) → r = None ∧ rows = rows' ∧ rows = matches asked five.
Proof.
  destruct (runParallel_any_schedule asked five five_in_service ltac:(by_eval) eq_refl untimed 2 (turns 2 42) None ltac:(lia)) as (x & rows' & r' & E & Es & H & Hn).
  destruct (Hn ltac:(by split_and!) eq_refl (λ _, eq_refl) ltac:(by_eval)) as [-> Hr]. exists x, rows'. split_and!; [exact E|exact Es|].
  intros rows r Ex. pose proof (Hr rows r Ex) as ->. destruct (H rows None Ex) as (H1 & H2 & _).
  split_and!; [reflexivity|by apply H1|by apply H2].
Defined.
Lemma runParallel_ends_witness : ∃ rows r, runParallel 2 (turns 2 42) asked None five.*1 = Ok (Some (rows, r)).
Proof. exact (runParallel_terminates asked five five_in_service ltac:(by_eval) eq_refl 2 (turns 2 42) None (turns_enough 2 5)). Defined.
Lemma Count_witness :
  ∃ x, Scan.Count untimed 2 ((λ e, e.1) <$> turns 2 3) (Some five.*1) asked = Ok x ∧ ∀ m, x = Some (m, None) → m = len (matches asked five).
Proof.
  destruct (Count_exact untimed 2 ((λ e, e.1) <$> turns 2 3) five asked five_in_service ltac:(lia)) as (x & E & _ & H & _).
  exists x. split; [exact E|exact H].
Defined.
Lemma page_walk_witness :
  page_walk untimed 500 (Some five.*1) asked Newest 2 11 None = Ok (Some (in_key_order 500 five asked Newest).*1).
Proof.
  apply (page_walk_complete untimed 500 five asked Newest 2 five_in_service (λ _, eq_refl)); [by_eval|by_eval|lia| | |].
  - repeat constructor; by_eval.
  - by_eval.
  - vm_compute. lia.
Defined.
Lemma sample_ordered : time_ordered sample_table.
Proof.
  intros i j Hij Hj. change (t_rows sample_table) with 2 in Hj. assert (i = 0 ∧ j = 1)%nat as [-> ->] by lia. by_eval.
Qed.
Lemma runNewest_witness :
  ∃ rows r, runNewest untimed 0 (newest 3) [] 0 None five.*1 = Ok (rows, r) ∧
    (r = None → row_Time <$> rows = NewestOk.top 3 (row_Time <$> matches (newest 3) five)).
Proof.
  destruct (runNewest_newest (newest 3) ltac:(by_eval) untimed five 0%nat [] 0 None five_in_service) as (rows & r & E & H).
  - unfold five. apply Forall_fmap, Forall_true. intros id. apply sample_ordered.
  - repeat constructor; by_eval.
  - exists rows, r. split; [exact E|]. intros Hr. exact (proj1 (proj2 (H Hr))).
Defined.

(** ** Counts *)

Lemma Histogram_witness :
  ∃ x, Histogram untimed 2 (turns 2 42) (Some five.*1) asked 10 = Ok x ∧ x ≠ None.
Proof.
  destruct (Histogram_counts asked 10 untimed 2 (turns 2 42) five five_in_service ltac:(lia)) as (x & E & He & _).
  exists x. split; [exact E|apply He, (turns_enough 2 5)].
Defined.
Lemma Hits_witness : ∃ x, Hits None untimed [MkEnv untimed 2 (turns 2 42)] (Some five.*1) asked 10 [] = Ok x ∧ x ≠ None.
Proof.
  pose proof (Hits_dense untimed (MkEnv untimed 2 (turns 2 42)) [] five asked 10 five_in_service ltac:(cbn; lia)
    ltac:(by_eval) ltac:(by_eval) ltac:(by_eval) ltac:(lia) ltac:(by_eval) ltac:(unfold bucketable; by_eval) ltac:(by_eval)) as H.
  destruct (BucketSpan _ _ _) as [lo hi]. destruct H as (_ & _ & x & E & He & _).
  exists x. split; [exact E|apply He, (turns_enough 2 5)].
Defined.
Lemma StatsByField_witness : ∃ l r, StatsByField untimed (Some five.*1) whole [118] = Ok (l, r) ∧ r = None.
Proof.
  destruct (StatsByField_counts whole [118] untimed five five_in_service) as (l & r & E & _ & Hr).
  - repeat constructor; exists [5; 7]; apply sample_serves.
  - exists l, r. split; [exact E|]. apply Hr. reflexivity.
Defined.

(** ** Time filters *)

(** The last ten nanoseconds before the clock. *)
Definition recent : Query := with_filter whole [] (Some (OpLeaf (time_pred KTimeRange 10 0 true))).
Lemma resolve_witness :
  let q := resolveTimePreds recent 500 in
  (q_From recent, q_To recent, q_From q, q_To q) = (0, 1000, 490, 500) ∧
  (∀ t i, query_sem t q i = in_window 0 1000 (time_at t i) && filter_sem t q i) ∧ ∀ clock', resolveTimePreds q clock' = q.
Proof.
  destruct (resolveTimePreds_narrows recent 500) as (H1 & _ & _ & H2); [by_eval|by right|]. split; [by vm_compute|]. split; [exact H1|exact H2].
Defined.

(** ** Shared counters *)

Definition race_end : groupEntry := Eval vm_compute in default new_entry (erun new_entry race).
Lemma mapping_witness : erun new_entry race = Some race_end ∧ (unmaps race_end ≤ 1)%nat.
Proof.
  split; [vm_compute; reflexivity|]. refine (proj1 (mapping_released_once race race_end _)). vm_compute. reflexivity.
Defined.
Definition orderly : list Lifecycle.action := [Acquire; Acquire; Remove; Lifecycle.Step 0; Lifecycle.Step 2; Lifecycle.Step 2].
Lemma held_witness : ∃ e, erun new_entry orderly = Some e ∧ unmaps e = 0%nat.
Proof.
  eexists. split; [reflexivity|].
  refine (proj1 (proj2 (held_stays_mapped orderly _ eq_refl _ _))).
  - cbn. split_and!; try done; intros _ H; by repeat (apply elem_of_cons in H as [H|H]; [done|]); apply elem_of_nil in H.
  - cbn. right. left.
Defined.
Definition two_callers : list Workers.action :=
  [Workers.Enter 2; Workers.Enter 3; Workers.Step 0; Workers.Step 1; Workers.Step 0; Workers.Step 1; Workers.Step 1; Workers.Step 1].
Definition granted : Workers.WorkerBudget :=
  Eval vm_compute in default (Workers.NewWorkerBudget 8 2) (Workers.brun (Workers.NewWorkerBudget 8 2) two_callers).
Lemma workers_witness : Workers.inUse granted = 3 ∧ Workers.inUse granted = zsum Workers.share (Workers.callers granted).
Proof.
  split; [reflexivity|]. refine (proj1 (proj2 (Workers.workers_bounded 8 2 two_callers granted _ _))); [lia|vm_compute; reflexivity].
Defined.
Definition one_slot : list Tenants.action :=
  [Tenants.Enter "t"; Tenants.Enter "t"; Tenants.Step 0; Tenants.Step 0; Tenants.Step 1; Tenants.Step 1; Tenants.Step 0; Tenants.Step 0]%string.
Definition freed : Tenants.Admission :=
  Eval vm_compute in default (Tenants.NewAdmission 1 5) (Tenants.arun (Tenants.NewAdmission 1 5) one_slot).
Lemma freed_run : Tenants.arun (Tenants.NewAdmission 1 5) one_slot = Some freed.
Proof. vm_compute. reflexivity. Qed.
Lemma admission_witness : Tenants.queued freed = 1 ∧ Tenants.queued freed = zsum Tenants.queueing (Tenants.calls freed).
Proof.
  split; [reflexivity|]. exact (proj1 (proj2 (proj2 (Tenants.admission_bounded 1 5 one_slot freed freed_run)))).
Defined.
Lemma no_lost_wakeup_witness :
  ∃ a', Tenants.arun freed [Tenants.Step 1; Tenants.Step 1; Tenants.Step 1] = Some a' ∧ Tenants.calls a' !! 1%nat = Some (Tenants.Accepted "t"%string).
Proof.
  apply (Tenants.no_lost_wakeup 1 5 one_slot freed 1 "t"%string 0 freed_run); [reflexivity|vm_compute; reflexivity].
Defined.
