(* ===== verification/Rows.v ===== *)
(** * The row rewriters

    [internal/query/pipes.go], [pipes_more.go], [pipes_vlparity.go] and [math.go]:
    what each pipe that works a row at a time does to one row. A row owns its
    fields (the scan cuts them from an arena with their capacity, and the pipes
    that copy rows copy the fields), so the updates in place of the Go code are
    functions on values here. *)

From Stdlib Require Import SpecFloat.
From S2P Require Import Prelude Digits GoLib Kernels Writer Filter Engine Text.
From stdpp Require Import list gmap sorting.
Local Open Scope Z_scope.

(** ** The standard library *)

(** Formatting and parsing the pipes only pass values through:
    [strconv.FormatFloat] with ['f'] and ['g'], [strconv.Quote], [json.Marshal] of
    a string, [json.Unmarshal] into a map of raw values, a string, a slice of raw
    values and a slice of [any] printed with [fmt.Sprint]; a compiled pattern's
    [SubexpNames] with [FindStringSubmatch], and its [ReplaceAllString] (none when
    the pattern does not compile); the functions of [math], [int(f)] and
    [fmt.Sprintf("%.3e", f)] of the sketches and histograms. *)
Class GoPipes := {
  FormatFloat_f : spec_float → bytes;
  FormatFloat_g : spec_float → bytes;
  Quote : bytes → bytes;
  json_Marshal : bytes → bytes;
  json_object : bytes → option (gmap bytes bytes);
  json_unquote : bytes → option bytes;
  json_array : bytes → option (list bytes);
  json_printed : bytes → option (list bytes);
  regexp_groups : bytes → option (list bytes * (bytes → option (list bytes)));
  regexp_replace : bytes → option (bytes → bytes → bytes);
  math_Log : spec_float → spec_float;
  math_Log10 : spec_float → spec_float;
  math_Pow : spec_float → spec_float → spec_float;
  int_of : spec_float → Z;
  Sprintf_3e : spec_float → bytes }.

(** Arithmetic on [float64]. *)
Definition fadd : spec_float → spec_float → spec_float := SFadd 53 1024.
Definition fsub : spec_float → spec_float → spec_float := SFsub 53 1024.
Definition fmul : spec_float → spec_float → spec_float := SFmul 53 1024.
Definition fdiv : spec_float → spec_float → spec_float := SFdiv 53 1024.
Definition fzero : spec_float := S754_zero false.

(** ** Fields of a row *)

(** The loop of [setRowField]. *)
Fixpoint set_field (fs : list (bytes * bytes)) (key val : bytes) : list (bytes * bytes) :=
  match fs with
  | [] => [(key, val)]
  | (k, v) :: fs' => if str_eqb k key then (k, val) :: fs' else (k, v) :: set_field fs' key val
  end.
Definition with_fields (r : Row) (fs : list (bytes * bytes)) : Row := MkRow (row_Time r) fs (row_NoTime r).
Definition setRowField (r : Row) (key val : bytes) : Row := with_fields r (set_field (row_Fields r) key val).
(** A sequence of [setRowField]s, the callback of the parsers. *)
Definition set_all (r : Row) (kvs : list (bytes * bytes)) : Row := foldl (λ r kv, setRowField r kv.1 kv.2) r kvs.
(** [cloneRow]: the time and the fields. *)
Definition cloneRow (r : Row) : Row := MkRow (row_Time r) (row_Fields r) false.
Definition orDefault (v def : bytes) : bytes := if bool_decide (v = []) then def else v.

(** ["len"], ["hash"], ["words"], ["json_array_len"], ["_score"], ["_stream_id"]. *)
Definition s_len : bytes := [108; 101; 110].
Definition s_hash : bytes := [104; 97; 115; 104].
Definition s_words : bytes := [119; 111; 114; 100; 115].
Definition s_json_array_len : bytes := [106; 115; 111; 110; 95; 97; 114; 114; 97; 121; 95; 108; 101; 110].
Definition s_score : bytes := [95; 115; 99; 111; 114; 101].
Definition s_stream_id : bytes := s_stream ++ [95; 105; 100].

(** *** Projection *)

(** [FieldsPipe], [RenamePipe], [DeletePipe], [CopyPipe] and [DropEmptyPipe] on a
    row. *)
Definition keep_fields (keep : list bytes) (r : Row) : Row :=
  MkRow (row_Time r) (List.filter (λ f, bool_decide (f.1 ∈ keep)) (row_Fields r)) (row_NoTime r || negb (bool_decide (s_time ∈ keep))).
Definition rename_map (from to : list bytes) : gmap bytes bytes := foldl (λ m ft, <[ft.1 := ft.2]> m) ∅ (zip from to).
Definition rename_fields (from to : list bytes) (r : Row) : Row :=
  let m := rename_map from to in with_fields r ((λ f, (default f.1 (m !! f.1), f.2)) <$> row_Fields r).
Definition delete_fields (drop : list bytes) (r : Row) : Row :=
  MkRow (row_Time r) (List.filter (λ f, negb (bool_decide (f.1 ∈ drop))) (row_Fields r)) (row_NoTime r || bool_decide (s_time ∈ drop)).
Definition copy_fields (from to : list bytes) (r : Row) : Row := foldl (λ r ft, setRowField r ft.2 (rowField r ft.1)) r (zip from to).
Definition drop_empty (r : Row) : Row := with_fields r (List.filter (λ f, negb (bool_decide (f.2 = []))) (row_Fields r)).

(** *** Templates and patterns *)

Definition s_lt : Z := 60.
Definition s_gt : Z := 62.
(** [expandTemplate] and [templateFields]: [skip] bytes of a placeholder are left. *)
Fixpoint expand_loop (skip : nat) (tpl : bytes) (r : Row) : bytes :=
  match tpl with
  | [] => []
  | c :: rest =>
      match skip with
      | S k => expand_loop k rest r
      | O => match (if bool_decide (c = s_lt) then IndexByte rest s_gt else None) with
             | Some j => rowField r (take j rest) ++ expand_loop (S j) rest r
             | None => c :: expand_loop 0 rest r
             end
      end
  end.
Definition expandTemplate (tpl : bytes) (r : Row) : bytes := expand_loop 0 tpl r.
Fixpoint template_loop (skip : nat) (tpl : bytes) : list bytes :=
  match tpl with
  | [] => []
  | c :: rest =>
      match skip with
      | S k => template_loop k rest
      | O => match (if bool_decide (c = s_lt) then IndexByte rest s_gt else None) with
             | Some j => take j rest :: template_loop (S j) rest
             | None => template_loop 0 rest
             end
      end
  end.
Definition templateFields (tpl : bytes) : list bytes := template_loop 0 tpl.

(** [extractTok]: a literal or a capture; an empty capture is a literal too. *)
Record extractTok := MkTok { tok_lit : bytes; tok_cap : bytes }.
Fixpoint pattern_loop (skip : nat) (pat : bytes) : list extractTok :=
  match pat with
  | [] => []
  | c :: rest =>
      match skip with
      | S k => pattern_loop k rest
      | O =>
          if bool_decide (c = s_lt) then
            match IndexByte rest s_gt with
            | None => [MkTok pat []]
            | Some j => MkTok [] (take j rest) :: pattern_loop (S j) rest
            end
          else match IndexByte rest s_lt with
          | None => [MkTok pat []]
          | Some j => MkTok (c :: take j rest) [] :: pattern_loop j rest
          end
      end
  end.
Definition parseExtractPattern (pat : bytes) : list extractTok := pattern_loop 0 pat.
Fixpoint extract_loop (toks : list extractTok) (src : bytes) (r : Row) : Row :=
  match toks with
  | [] => r
  | t :: toks' =>
      if bool_decide (tok_cap t = []) then
        match Index src (tok_lit t) with
        | None => r
        | Some idx => extract_loop toks' (drop (idx + length (tok_lit t)) src) r
        end
      else
        let next := match toks' with [] => [] | t' :: _ => tok_lit t' end in
        if bool_decide (next = []) then extract_loop toks' [] (setRowField r (tok_cap t) src) else
        match Index src next with
        | None => setRowField r (tok_cap t) src
        | Some e => extract_loop toks' (drop e src) (setRowField r (tok_cap t) (take e src))
        end
  end.

(** *** Collapsing *)

Definition is_dec (c : Z) : bool := in_range 48 57 c.
Definition isAlnum (c : Z) : bool := is_dec c || in_range 97 122 c || in_range 65 90 c.
Definition s_N : bytes := [60; 78; 62].
Definition s_ID : bytes := [60; 73; 68; 62].
Fixpoint nums_loop (inNum : bool) (s : bytes) : bytes :=
  match s with
  | [] => []
  | c :: s' => if is_dec c then (if inNum then nums_loop true s' else s_N ++ nums_loop true s') else c :: nums_loop false s'
  end.
Definition collapseNums (s : bytes) : bytes := nums_loop false s.
Definition is_hex_letter (c : Z) : bool := in_range 97 102 c || in_range 65 70 c.
Fixpoint hex_id_loop (hasDigit hasLetter : bool) (tok : bytes) : bool :=
  match tok with
  | [] => hasDigit && hasLetter
  | c :: tok' => if is_dec c then hex_id_loop true hasLetter tok' else if is_hex_letter c then hex_id_loop hasDigit true tok' else false
  end.
Definition isHexID (tok : bytes) : bool := if bool_decide (len tok < 8) then false else hex_id_loop false false tok.
Definition flush_token (tok : bytes) : bytes := if isHexID tok then s_ID else tok.
(** [tok] is the token up to here. *)
Fixpoint hex_loop (tok s : bytes) : bytes :=
  match s with
  | [] => flush_token tok
  | c :: s' => if isAlnum c then hex_loop (tok ++ [c]) s' else flush_token tok ++ c :: hex_loop [] s'
  end.
Definition collapseHexTokens (s : bytes) : bytes := hex_loop [] s.
Definition templatize (s : bytes) (full : bool) : bytes := collapseNums (if full then collapseHexTokens s else s).

(** *** logfmt and syslog *)

(** One round of the loop of [parseLogfmtPairs] on what is left of the line: the
    pair it emits, if any, and what it leaves. *)
Definition logfmt_pair (s : bytes) : option (bytes * bytes) * bytes :=
  let s := (span (λ c, bool_decide (c = 32 ∨ c = 9)) s).2 in
  let '(key, s) := span (λ c, negb (bool_decide (c = 61)) && negb (bool_decide (c = 32))) s in
  if bool_decide (key = []) then (None, tail s) else
  match s with
  | 61 :: 34 :: s =>
      let '(val, s) := span (λ c, negb (bool_decide (c = 34))) s in (Some (key, val), tail s)
  | 61 :: s => let '(val, s) := span (λ c, negb (bool_decide (c = 32))) s in (Some (key, val), s)
  | _ => (Some (key, []), s)
  end.
Fixpoint logfmt_loop (fuel : nat) (s : bytes) : list (bytes * bytes) :=
  match fuel, s with
  | _, [] | O, _ => []
  | S fuel, _ => let x := logfmt_pair s in match x.1 with Some kv => kv :: logfmt_loop fuel x.2 | None => logfmt_loop fuel x.2 end
  end.
(** Every round takes a byte, so a line's length is fuel enough. *)
Definition parseLogfmtPairs (line : bytes) : list (bytes * bytes) := logfmt_loop (length line) line.

Definition s_priority : bytes := [112; 114; 105; 111; 114; 105; 116; 121].
Definition s_facility : bytes := [102; 97; 99; 105; 108; 105; 116; 121].
Definition s_severity : bytes := [115; 101; 118; 101; 114; 105; 116; 121].
Definition s_timestamp : bytes := [116; 105; 109; 101; 115; 116; 97; 109; 112].
Definition s_hostname : bytes := [104; 111; 115; 116; 110; 97; 109; 101].
Definition s_app_name : bytes := [97; 112; 112; 95; 110; 97; 109; 101].
Definition s_proc_id : bytes := [112; 114; 111; 99; 95; 105; 100].
Definition s_msg_id : bytes := [109; 115; 103; 95; 105; 100].
Definition s_message : bytes := [109; 101; 115; 115; 97; 103; 101].
Definition emitNonNil (k v : bytes) : list (bytes * bytes) := if bool_decide (v = [45] ∨ v = []) then [] else [(k, v)].
(** The message of an RFC 5424 line after its structured data. *)
Definition sd_message (rest : bytes) : bytes :=
  if starts_with rest [45; 32] then drop 2 rest
  else if bool_decide (rest = [45]) then []
  else if starts_with rest [91] then match Index rest [93; 32] with Some i => drop (i + 2) rest | None => rest end
  else rest.
Definition TrimSuffix (s suf : bytes) : bytes := if bool_decide (drop (length s - length suf) s = suf) then take (length s - length suf) s else s.
Definition rfc5424 (s : bytes) : list (bytes * bytes) :=
  match SplitN s 32 7 with
  | [_; ts; host; app; proc; msgid; rest] =>
      emitNonNil s_timestamp ts ++ emitNonNil s_hostname host ++ emitNonNil s_app_name app ++ emitNonNil s_proc_id proc
        ++ emitNonNil s_msg_id msgid ++ [(s_message, sd_message rest)]
  | _ => []
  end.
Definition rfc3164 (s : bytes) : list (bytes * bytes) :=
  match Fields s with
  | mon :: day :: clock :: host :: tag :: msg =>
      let tag := match IndexByte tag 91 with Some b => take b tag | None => tag end in
      [(s_timestamp, mon ++ [32] ++ day ++ [32] ++ clock); (s_hostname, host); (s_app_name, TrimSuffix tag [58])]
        ++ (if bool_decide (msg = []) then [] else [(s_message, strings_Join msg [32])])
  | _ => []
  end.
(** The pairs [parseSyslog] emits. Go's [/] and [%] truncate. *)
Definition parseSyslog (line : bytes) : list (bytes * bytes) :=
  let s := TrimSpace line in
  if negb (starts_with s [s_lt]) then [] else
  match IndexByte s s_gt with
  | None => []
  | Some e =>
      match Atoi (take (e - 1) (drop 1 s)) with
      | None => []
      | Some pri =>
          let s := drop (S e) s in
          [(s_priority, Itoa pri); (s_facility, Itoa (Z.quot pri 8)); (s_severity, Itoa (Z.rem pri 8))]
            ++ (if starts_with s [49; 32] then rfc5424 s else rfc3164 s)
      end
  end.

(** [distinctWords]: the sorted set. *)
Definition is_word (c : Z) : bool := isAlnum c || bool_decide (c = 95).
Fixpoint distinct (seen : list bytes) (l : list bytes) : list bytes :=
  match l with [] => [] | w :: l' => if bool_decide (w ∈ seen) then distinct seen l' else w :: distinct (w :: seen) l' end.
Definition distinctWords (s : bytes) : list bytes := sort_Strings (distinct [] (words_loop is_word s [])).

(** [fnv.New64a]. *)
Definition fnv64a (s : bytes) : Z := foldl (λ h c, u64 (Z.lxor h c * 1099511628211)) 14695981039346656037 s.

(** *** Arithmetic *)

Inductive mathNode := mathNum (f : spec_float) | mathVar (name : bytes) | mathBin (op : Z) (l r : mathNode).
Fixpoint mathVars (n : mathNode) : list bytes :=
  match n with mathVar v => [v] | mathBin _ l r => mathVars l ++ mathVars r | mathNum _ => [] end.

Section rewriters.
Context {T : GoText} {P : GoPipes} {R : MapRange}.

Fixpoint eval (n : mathNode) (r : Row) : spec_float :=
  match n with
  | mathNum f => f
  | mathVar v => default fzero (ParseFloat (rowField r v))
  | mathBin op a b =>
      let l := eval a r in let rr := eval b r in
      if bool_decide (op = 43) then fadd l rr
      else if bool_decide (op = 45) then fsub l rr
      else if bool_decide (op = 42) then fmul l rr
      else if bool_decide (op = 47) then (if SFeqb rr fzero then fzero else fdiv l rr)
      else fzero
  end.

(** [jsonStrArray]. *)
Definition jsonStrArray (vals : list bytes) : bytes := [91] ++ strings_Join (json_Marshal <$> vals) [44] ++ [93].
Definition jsonRawScalar (raw : bytes) : bytes := default raw (json_unquote raw).

(** [rowStreamPair]: the last value of each that is not empty. *)
Definition last_value (fs : list (bytes * bytes)) (key : bytes) : bytes :=
  foldl (λ acc f, if bool_decide (f.1 = key ∧ f.2 ≠ []) then f.2 else acc) [] fs.
Definition rowStreamPair (r : Row) : option (bytes * bytes) :=
  let stream := last_value (row_Fields r) s_stream in
  let id := last_value (row_Fields r) s_stream_id in
  if bool_decide (stream = []) then None else Some (stream, if bool_decide (id = []) then StreamID stream else id).
(** The pairs a bare pack emits; [emittedTime] as it stands before the fields. *)
Fixpoint pack_fields (hasStream emittedTime : bool) (fs : list (bytes * bytes)) : list (bytes * bytes) :=
  match fs with
  | [] => []
  | (k, v) :: fs' =>
      if bool_decide (k = s_time) then (if emittedTime then pack_fields hasStream true fs' else (k, v) :: pack_fields hasStream true fs')
      else if hasStream && bool_decide (k = s_stream ∨ k = s_stream_id) then pack_fields hasStream emittedTime fs'
      else (k, v) :: pack_fields hasStream emittedTime fs'
  end.
Definition packed_pairs (r : Row) (keys : list bytes) : list (bytes * bytes) :=
  if bool_decide (keys = []) then
    let pair := rowStreamPair r in
    (if row_NoTime r then [] else [(s_time, formatTime (row_Time r))])
      ++ pack_fields (bool_decide (pair ≠ None)) (negb (row_NoTime r)) (row_Fields r)
      ++ match pair with Some (stream, id) => [(s_stream, stream); (s_stream_id, id)] | None => [] end
  else (λ k, (k, rowField r k)) <$> keys.
Definition packJSON (r : Row) (keys : list bytes) : bytes :=
  [123] ++ strings_Join ((λ kv, json_Marshal kv.1 ++ [58] ++ json_Marshal kv.2) <$> packed_pairs r keys) [44] ++ [125].
Definition needs_quote (v : bytes) : bool := existsb (λ c, bool_decide (c = 32 ∨ c = 61 ∨ c = 34)) v.
Definition packLogfmt (r : Row) (keys : list bytes) : bytes :=
  strings_Join ((λ kv, kv.1 ++ [61] ++ (if needs_quote kv.2 then Quote kv.2 else kv.2)) <$> packed_pairs r keys) [32].

(** [unrollValues]: [None] where the array is not one, so the words count. *)
Definition unrollValues (v : bytes) : list bytes :=
  let v := TrimSpace v in
  match (if starts_with v [91] then json_printed v else None) with
  | Some elems => elems
  | None => if bool_decide (v = []) then [] else Fields v
  end.

(** The loop of [ExtractRegexpPipe] over the names of the groups. *)
Fixpoint set_groups (names groups : list bytes) (r : Row) : Row :=
  match names, groups with
  | name :: names', g :: groups' => set_groups names' groups' (if bool_decide (name = []) then r else setRowField r name g)
  | _, _ => r
  end.
End rewriters.
