(* ===== verification/StatsPipe.v ===== *)
(** * Aggregates by key

    The [stats] pipe of [internal/query/pipes.go] with the sketch of [hll.go]: one
    accumulator per key and aggregate ([accSample]), its rendering ([formatAgg],
    [statEntryRow]), the pipe over rows ([StatsPipe.apply]) and the aggregation
    during the scan ([runStats]). *)

From Stdlib Require Import SpecFloat.
From S2P Require Import Prelude Digits GoLib Kernels Indices Timestamps DictSection DictLayout Postings Bloom Group Bitset Select.
From S2P Require Import Reader ReaderSafe ReaderOk Table Writer Filter Engine TimeFilter Scan Aggregate Text Rows.
From stdpp Require Import list gmap sorting.
Local Open Scope Z_scope.

(** ** Definitions *)

Inductive AggKind :=
| AggCount | AggSum | AggAvg | AggMin | AggMax | AggUniq | AggCountUniq | AggQuantile | AggValues | AggUniqValues
| AggSumLen | AggCountEmpty | AggRowAny | AggHistogram | AggRowMin | AggRowMax | AggRate | AggRateSum.
#[export] Instance AggKind_eq_dec : EqDecision AggKind.
Proof. solve_decision. Defined.
Record Agg := MkAgg { a_Field : bytes; a_Field2 : bytes; a_Alias : bytes; a_If : option Expr; a_P : spec_float; a_Kind : AggKind }.

Definition valuesCap : Z := 10000.
Definition hllThreshold : Z := 8192.
Definition quantileCap : Z := 65536.

(** *** The distinct-count sketch *)

Definition hllP : Z := 14.
Definition hllM : Z := 2 ^ 14.
Definition newHLL : list Z := replicate (Z.to_nat hllM) 0.
Definition hash64 (s : bytes) : Z :=
  let h := foldl (λ h c, u64 (Z.lxor h c * 1099511628211)) 1469598103934665603 s in
  let h := u64 (Z.lxor h (Z.shiftr h 30) * 0xbf58476d1ce4e5b9) in
  let h := u64 (Z.lxor h (Z.shiftr h 27) * 0x94d049bb133111eb) in
  Z.lxor h (Z.shiftr h 31).
Definition leadingZeros64 (x : Z) : Z := if bool_decide (x = 0) then 64 else 63 - Z.log2 x.
Definition hll_add (reg : list Z) (v : bytes) : list Z :=
  let x := hash64 v in
  let idx := Z.to_nat (Z.shiftr x (64 - hllP)) in
  let rank := u8 (leadingZeros64 (u64 (Z.shiftl x hllP)) + 1) in
  match reg !! idx with Some r => if bool_decide (r < rank) then <[idx := rank]> reg else reg | None => reg end.
(** 0x1.714801fbccd72p-1. *)
Definition hllAlpha : spec_float := S754_finite false 6496464985181554 (-53).

(** *** Accumulators *)

Record statSlot := MkSlot {
  sl_sum : spec_float; sl_min : spec_float; sl_max : spec_float; sl_n : Z; sl_cnt : Z; sl_set : gset bytes; sl_hll : option (list Z);
  sl_vals : list spec_float; sl_strs : list bytes; sl_best : option (spec_float * bytes); sl_has : bool }.
Definition newSlot : statSlot := MkSlot fzero fzero fzero 0 0 ∅ None [] [] None false.
Record statEntry := MkEntry { se_by : list bytes; se_slots : list statSlot; se_rows : Z }.
Definition newStatEntry (by_ : list bytes) (aggs : list Agg) : statEntry := MkEntry by_ (replicate (length aggs) newSlot) 0.

Definition slot_n (sl : statSlot) : statSlot :=
  MkSlot (sl_sum sl) (sl_min sl) (sl_max sl) (sl_n sl + 1) (sl_cnt sl) (sl_set sl) (sl_hll sl) (sl_vals sl) (sl_strs sl) (sl_best sl) (sl_has sl).
Definition slot_sum (sl : statSlot) (sum : spec_float) : statSlot :=
  MkSlot sum (sl_min sl) (sl_max sl) (sl_n sl) (sl_cnt sl) (sl_set sl) (sl_hll sl) (sl_vals sl) (sl_strs sl) (sl_best sl) (sl_has sl).
Definition slot_set (sl : statSlot) (set : gset bytes) (hll : option (list Z)) : statSlot :=
  MkSlot (sl_sum sl) (sl_min sl) (sl_max sl) (sl_n sl) (sl_cnt sl) set hll (sl_vals sl) (sl_strs sl) (sl_best sl) (sl_has sl).
Definition slot_strs (sl : statSlot) (strs : list bytes) : statSlot :=
  MkSlot (sl_sum sl) (sl_min sl) (sl_max sl) (sl_n sl) (sl_cnt sl) (sl_set sl) (sl_hll sl) (sl_vals sl) strs (sl_best sl) (sl_has sl).
Definition slot_best (sl : statSlot) (best : option (spec_float * bytes)) : statSlot :=
  MkSlot (sl_sum sl) (sl_min sl) (sl_max sl) (sl_n sl) (sl_cnt sl) (sl_set sl) (sl_hll sl) (sl_vals sl) (sl_strs sl) best (sl_has sl).

(** [sort.Float64s]: NaN first. *)
Definition float_less (a b : spec_float) : bool :=
  let nan f := match f with S754_nan => true | _ => false end in SFltb a b || (nan a && negb (nan b)).
Definition sort_Float64s (l : list spec_float) : list spec_float := stable_sort float_less l.
(** Every other sample. *)
Fixpoint thin {A} (keep : bool) (l : list A) : list A :=
  match l with [] => [] | x :: l' => if keep then x :: thin false l' else thin true l' end.
Definition add_val (vals : list spec_float) (f : spec_float) : list spec_float :=
  let vals := vals ++ [f] in if bool_decide (quantileCap * 2 ≤ len vals) then thin true (sort_Float64s vals) else vals.
(** A numeric sample: the bounds, the sum and the count. *)
Definition slot_numeric (sl : statSlot) (vals : list spec_float) (f : spec_float) : statSlot :=
  MkSlot (fadd (sl_sum sl) f) (if negb (sl_has sl) || SFltb f (sl_min sl) then f else sl_min sl)
    (if negb (sl_has sl) || SFltb (sl_max sl) f then f else sl_max sl) (sl_n sl) (sl_cnt sl + 1) (sl_set sl) (sl_hll sl) vals (sl_strs sl)
    (sl_best sl) true.

Section stats.
Context {T : GoText} {P : GoPipes}.

(** One aggregate of [accSample]: [val] and [val2] are the values of its fields,
    [get] looks up any other. *)
Definition accSlot (a : Agg) (val val2 : bytes) (get : bytes → bytes) (sl : statSlot) : statSlot :=
  if match a_If a with Some e => negb (exprMatchesRow e (lookupOf get)) | None => false end then sl else
  match a_Kind a with
  | AggCount | AggRate => slot_n sl
  | AggRowMin | AggRowMax =>
      match ParseFloat val with
      | None => sl
      | Some f =>
          let better := match sl_best sl with
            | None => true
            | Some (best, _) => if bool_decide (a_Kind a = AggRowMin) then SFltb f best else SFltb best f
            end in
          if better then slot_best sl (Some (f, val2)) else sl
      end
  | k =>
      if bool_decide (a_Field a = []) then sl else
      match k with
      | AggUniq => slot_set sl ({[val]} ∪ sl_set sl) (sl_hll sl)
      | AggCountUniq =>
          match sl_hll sl with
          | Some reg => slot_set sl (sl_set sl) (Some (hll_add reg val))
          | None =>
              let set := {[val]} ∪ sl_set sl in
              if bool_decide (hllThreshold < Z.of_nat (size set)) then slot_set sl ∅ (Some (foldl hll_add newHLL (elements set)))
              else slot_set sl set None
          end
      | AggCountEmpty => if bool_decide (val = []) then slot_sum sl (fadd (sl_sum sl) (float_of_int 1)) else sl
      | AggValues => if bool_decide (val ≠ [] ∧ len (sl_strs sl) < valuesCap) then slot_strs sl (sl_strs sl ++ [val]) else sl
      | AggRowAny => if bool_decide (sl_strs sl = [] ∧ val ≠ []) then slot_strs sl [val] else sl
      | AggUniqValues => if bool_decide (val ≠ []) then slot_set sl ({[val]} ∪ sl_set sl) (sl_hll sl) else sl
      | AggSumLen => slot_sum sl (fadd (sl_sum sl) (float_of_int (len val)))
      | _ =>
          match ParseFloat val with
          | None => sl
          | Some f => slot_numeric sl (match k with AggQuantile | AggHistogram => add_val (sl_vals sl) f | _ => sl_vals sl end) f
          end
      end
  end.
(** [accSample]: [get] is the row's [getField], and the aggregates' own values are
    looked up through [valOf] and [valOf2]. *)
Definition accSample (e : statEntry) (aggs : list Agg) (valOf : bytes → bytes) (get : bytes → bytes) : statEntry :=
  MkEntry (se_by e) (zip_with (λ a sl, accSlot a (valOf (a_Field a)) (valOf (a_Field2 a)) get sl) aggs (se_slots e)) (se_rows e + 1).

(** *** Rendering *)

(** [trimFloat]. *)
Definition trimFloat (f : spec_float) : bytes := FormatFloat_f f.
Definition quantileOf (vals : list spec_float) (p : spec_float) : spec_float :=
  let vals := sort_Float64s vals in
  if SFleb p fzero then default fzero (vals !! 0%nat)
  else if SFleb (float_of_int 1) p then default fzero (last vals)
  else
    let idx := int_of (fmul p (float_of_int (len vals))) in
    let idx := if bool_decide (len vals ≤ idx) then len vals - 1 else idx in
    default fzero (vals !! Z.to_nat idx).

Definition histBucketsPerDecimal : Z := 18.
Definition histBucketsCount : Z := 27 * 18.
Definition histBucketMultiplier : spec_float := math_Pow (float_of_int 10) (fdiv (float_of_int 1) (float_of_int 18)).
(** The bounds of [buildHistRanges], printed as they grow. *)
Fixpoint hist_bounds (n : nat) (v : spec_float) : list bytes :=
  match n with O => [Sprintf_3e v] | S n' => Sprintf_3e v :: hist_bounds n' (fmul v histBucketMultiplier) end.
Definition hist_range (i : Z) : bytes :=
  let bs := hist_bounds (Z.to_nat histBucketsCount) (math_Pow (float_of_int 10) (float_of_int (-9))) in
  default [] (bs !! Z.to_nat i) ++ [46; 46; 46] ++ default [] (bs !! S (Z.to_nat i)).
Definition histBucketIdx (v : spec_float) : Z :=
  if SFleb v fzero then -1 else
  let bf := fmul (fsub (math_Log10 v) (float_of_int (-9))) (float_of_int histBucketsPerDecimal) in
  let idx := int_of bf in
  let idx := if SFeqb bf (float_of_int idx) then idx - 1 else idx in
  let idx := if bool_decide (idx < 0) then 0 else idx in
  if bool_decide (histBucketsCount ≤ idx) then histBucketsCount - 1 else idx.
(** ["vmrange"] and ["hits"]. *)
Definition s_vmrange : bytes := [118; 109; 114; 97; 110; 103; 101].
Definition s_hits : bytes := [104; 105; 116; 115].
Definition histogramJSON (vals : list spec_float) : bytes :=
  let counts := foldl (λ m v, let idx := histBucketIdx v in if bool_decide (0 ≤ idx) then bump m idx 1 else m) (∅ : gmap Z Z) vals in
  let idxs := merge_sort Z.le (map_to_list counts).*1 in
  let item i := [123; 34] ++ s_vmrange ++ [34; 58] ++ Quote (hist_range i) ++ [44; 34] ++ s_hits ++ [34; 58] ++ Itoa (default 0 (counts !! i)) ++ [125] in
  [91] ++ strings_Join (item <$> idxs) [44] ++ [93].

(** [hyperLogLog.count]: the constants are [2.5 * m], [2^32 / 30] and [2^32]. *)
Definition hll_count (reg : list Z) : Z :=
  let sum := foldl (λ s r, fadd s (fdiv (float_of_int 1) (float_of_int (2 ^ r)))) fzero reg in
  let zeros := len (List.filter (λ r, bool_decide (r = 0)) reg) in
  let m := float_of_int hllM in
  let est := fdiv (fmul (fmul hllAlpha m) m) sum in
  let big := float_of_int (2 ^ 32) in
  let est :=
    if SFleb est (float_of_int 40960) && bool_decide (0 < zeros) then fmul m (math_Log (fdiv m (float_of_int zeros)))
    else if SFltb (fdiv big (float_of_int 30)) est then fmul (SFopp big) (math_Log (fsub (float_of_int 1) (fdiv est big)))
    else est in
  int_of (fadd est (S754_finite false 4503599627370496 (-53))).

Definition formatAgg (a : Agg) (sl : statSlot) (rangeSec : spec_float) : bytes :=
  match a_Kind a with
  | AggCount => Itoa (sl_n sl)
  | AggRate => if SFleb rangeSec fzero then [48] else trimFloat (fdiv (float_of_int (sl_n sl)) rangeSec)
  | AggRateSum => if SFleb rangeSec fzero then [48] else trimFloat (fdiv (sl_sum sl) rangeSec)
  | AggSum | AggSumLen | AggCountEmpty => trimFloat (sl_sum sl)
  | AggAvg => if bool_decide (sl_cnt sl = 0) then [48] else trimFloat (fdiv (sl_sum sl) (float_of_int (sl_cnt sl)))
  | AggMin => trimFloat (sl_min sl)
  | AggMax => trimFloat (sl_max sl)
  | AggUniq => Itoa (Z.of_nat (size (sl_set sl)))
  | AggCountUniq => match sl_hll sl with Some reg => Itoa (hll_count reg) | None => Itoa (Z.of_nat (size (sl_set sl))) end
  | AggQuantile => trimFloat (if bool_decide (sl_vals sl = []) then fzero else quantileOf (sl_vals sl) (a_P a))
  | AggValues => jsonStrArray (sl_strs sl)
  | AggUniqValues => jsonStrArray (sort_Strings (elements (sl_set sl)))
  | AggRowAny => default [] (head (sl_strs sl))
  | AggRowMin | AggRowMax => match sl_best sl with Some (_, s) => s | None => [] end
  | AggHistogram => histogramJSON (sl_vals sl)
  end.
Record StatsPipe := MkStats { st_By : list bytes; st_Aggs : list Agg }.
Definition statEntryRow (sp : StatsPipe) (rangeSec : spec_float) (e : statEntry) : Row :=
  let labels := List.filter (λ f : bytes * bytes, negb (bool_decide (f.2 = []))) (zip (st_By sp) (se_by e)) in
  MkRow 0 (labels ++ zip_with (λ a sl, (a_Alias a, formatAgg a sl rangeSec)) (st_Aggs sp) (se_slots e)) true.

(** *** Over rows *)

(** [tooManyKeys]; 0 is no ceiling. *)
Definition tooManyKeys (maxKeys have : Z) : bool := bool_decide (0 < maxKeys) && bool_decide (maxKeys < have).
Definition rowKey (r : Row) (by_ : list bytes) : bytes := concat ((λ f, rowField r f ++ [0]) <$> by_).

(** The loop of [StatsPipe.apply]: the entries and the keys in the order they were
    first seen; [None] past the ceiling. *)
Definition stats_row (sp : StatsPipe) (r : Row) (acc : gmap bytes statEntry) : gmap bytes statEntry :=
  let e := default (newStatEntry ((λ f, rowField r f) <$> st_By sp) (st_Aggs sp)) (acc !! rowKey r (st_By sp)) in
  <[rowKey r (st_By sp) := accSample e (st_Aggs sp) (rowField r) (rowField r)]> acc.
Fixpoint stats_loop (sp : StatsPipe) (maxKeys : Z) (rows : list Row) (acc : gmap bytes statEntry) (order : list bytes)
    : option (gmap bytes statEntry * list bytes) :=
  match rows with
  | [] => Some (acc, order)
  | r :: rows' =>
      let key := rowKey r (st_By sp) in
      match acc !! key with
      | Some _ => stats_loop sp maxKeys rows' (stats_row sp r acc) order
      | None =>
          let order := order ++ [key] in
          if tooManyKeys maxKeys (len order) then None else stats_loop sp maxKeys rows' (stats_row sp r acc) order
      end
  end.
Definition stats_apply (sp : StatsPipe) (maxKeys : Z) (rangeSec : spec_float) (rows : list Row) : option (list Row) :=
  match stats_loop sp maxKeys rows ∅ [] with
  | Some (acc, order) => Some (omap (λ k : bytes, statEntryRow sp rangeSec <$> acc !! k) order)
  | None => None
  end.
End stats.

(** *** During the scan *)

Section scan_stats.
Context {T : GoText} {P : GoPipes} {K : Simd} {F : Flate} {B : BitOps} {M : MaskOps} {R : MapRange}.

(** [ifFields]: what the conditions of the aggregates read. *)
Definition if_fields (aggs : list Agg) : gmap bytes bool :=
  foldl (λ m a, match a_If a with Some e => filterFields e m | None => m end) ∅ aggs.
(** The columns decoded for a group, by name: the conditions', the keys', the
    aggregates'. Each use of a name decodes the same column. *)
Definition stat_names (sp : StatsPipe) : list bytes :=
  (range_map (if_fields (st_Aggs sp))).*1 ++ st_By sp
    ++ concat ((λ a, (if bool_decide (a_Field a = []) then [] else [a_Field a]) ++ (if bool_decide (a_Field2 a = []) then [] else [a_Field2 a])) <$> st_Aggs sp).
Definition columns := gmap bytes (list Z * list bytes).
Fixpoint decode_columns (g : Reader) (names : list bytes) (s : caches) (cols : columns) : outcome (columns * caches) :=
  match names with
  | [] => Ok (cols, s)
  | f :: names' => x ← dictOrTime g s f; let '(idx, dict, s) := x in decode_columns g names' s (<[f := (idx, dict)]> cols)
  end.
(** The values of the row [i], one per column; a column that is not there is the
    empty string. *)
Definition column_value (col : list Z * list bytes) (i : Z) : outcome bytes :=
  if bool_decide (col.1 = []) then Ok [] else x ← index col.1 i; index col.2 x.
Fixpoint row_values (cols : list (bytes * (list Z * list bytes))) (i : Z) : outcome (gmap bytes bytes) :=
  match cols with
  | [] => Ok ∅
  | (f, col) :: cols' => v ← column_value col i; m ← row_values cols' i; Ok (<[f := v]> m)
  end.
(** The body of [sel.ForEach]; [None]: the key is one too many. *)
Definition scan_row (sp : StatsPipe) (maxKeys : Z) (vals : gmap bytes bytes) (acc : gmap bytes statEntry) : option (gmap bytes statEntry) :=
  let val f := default [] (vals !! f) in
  let valOf f := if bool_decide (f = []) then [] else val f in
  let get f := if bool_decide (is_Some (if_fields (st_Aggs sp) !! f)) then val f else [] in
  let key := concat ((λ f, val f ++ [0]) <$> st_By sp) in
  match acc !! key with
  | Some e => Some (<[key := accSample e (st_Aggs sp) valOf get]> acc)
  | None =>
      if tooManyKeys maxKeys (Z.of_nat (size acc) + 1) then None
      else Some (<[key := accSample (newStatEntry (val <$> st_By sp) (st_Aggs sp)) (st_Aggs sp) valOf get]> acc)
  end.
Fixpoint scan_rows (sp : StatsPipe) (maxKeys : Z) (cols : columns) (rows : list Z) (acc : gmap bytes statEntry)
    : outcome (option (gmap bytes statEntry)) :=
  match rows with
  | [] => Ok (Some acc)
  | i :: rows' =>
      vals ← row_values (map_to_list cols) i;
      match scan_row sp maxKeys vals acc with Some acc => scan_rows sp maxKeys cols rows' acc | None => Ok None end
  end.
Definition scan_group (sp : StatsPipe) (maxKeys : Z) (g : Reader) (s : caches) (q : Query) (acc : gmap bytes statEntry)
    : outcome (option (gmap bytes statEntry)) :=
  x ← matchBitset g s q;
  if bool_decide (Bitset.Count x.1 = 0) then Ok (Some acc) else
  y ← decode_columns g (stat_names sp) x.2 ∅;
  scan_rows sp maxKeys y.1 (ForEach x.1) acc.
(** The loop over the groups; [inl]: past the ceiling. *)
Fixpoint stats_groups (o : Outside) (n : nat) (sp : StatsPipe) (maxKeys : Z) (q : Query) (acc : gmap bytes statEntry) (gs : list leased)
    : outcome (option (gmap bytes statEntry) * option Stop) :=
  match gs with
  | [] => Ok (Some acc, None)
  | g :: gs' =>
      match exceeded q (o_clock o n) 0 with
      | Some e => Ok (Some acc, Some e)
      | None =>
          c ← groupCanMatch (l_reader g) q;
          if (c : bool) then
            x ← scan_group sp maxKeys (l_reader g) (l_caches g) q acc;
            match x with Some acc => stats_groups o (S n) sp maxKeys q acc gs' | None => Ok (None, None) end
          else stats_groups o (S n) sp maxKeys q acc gs'
      end
  end.
Definition is_count (sp : StatsPipe) : option bytes :=
  match st_Aggs sp with
  | [a] => if bool_decide (a_Kind a = AggCount) && bool_decide (a_If a = None) then Some (a_Alias a) else None
  | _ => None
  end.
Definition countRow (key value alias : bytes) (n : Z) : Row := MkRow 0 [(key, value); (alias, Itoa n)] true.
(** [runStats] past the fast path of an ungrouped count ([runCountFast], below):
    the counts of one field from the footers, or the scan. The rows come in the
    order a map is walked in. *)
Definition runStats_scan (o : Outside) (sp : StatsPipe) (maxKeys : Z) (rangeSec : spec_float) (s : option (list leased)) (q : Query)
    : outcome (option (list Row) * option Stop) :=
  match is_count sp, st_By sp with
  | Some alias, [by_] =>
      x ← StatsByField o s q by_;
      if tooManyKeys maxKeys (len x.1) then Ok (None, x.2)
      else Ok (Some ((λ vc, countRow by_ (vc_Value vc) alias (vc_Count vc)) <$> x.1), x.2)
  | _, _ =>
      x ← stats_groups o 0 sp maxKeys q ∅ (snapshotOf s (q_From q) (q_To q));
      let render (acc : gmap bytes statEntry) : list Row := (λ kv : bytes * statEntry, statEntryRow sp rangeSec kv.2) <$> range_map acc in
      Ok (match x.1 with Some acc => Some (render acc) | None => None end, x.2)
  end.
(** [runCountFast]: [None] where the shape is another. A count of zero is no row. *)
Definition runCountFast (o : Outside) (workers : nat) (sched : list (nat * option Stop)) (sp : StatsPipe) (s : option (list leased)) (q : Query)
    : outcome (option (option (list Row * option Stop))) :=
  match st_By sp, st_Aggs sp with
  | [], [a] =>
      if bool_decide (a_Kind a = AggCount ∧ a_If a = None ∧ a_Field a = []) then
        x ← Count o workers sched s q;
        Ok (Some (match x with
                  | Some (n, r) => Some (if bool_decide (n = 0) then [] else [MkRow 0 [(a_Alias a, Itoa n)] true], r)
                  | None => None end))
      else Ok None
  | _, _ => Ok None
  end.
End scan_stats.
