(* ===== verification/Pipes.v ===== *)
(** * The pipes of a query

    [internal/query/pipes.go], [pipes_more.go], [pipes_vlparity.go],
    [pipes_introspect.go], [fastpipes.go] and [subquery.go]: the pipes as a type,
    what each does to the rows before it ([apply]), the pipeline of a storage node
    ([RunPipeline]) with its fast paths over the footers and its budgets, and the
    half of a pipeline a coordinator runs over merged rows ([ApplyPipes]).
    Subqueries inside a filter ([in(<subquery>)]) are resolved before this. *)

From Stdlib Require Import SpecFloat.
From S2P Require Import Prelude Digits GoLib Kernels Indices Timestamps DictSection DictLayout Postings Bloom Group Bitset Select.
From S2P Require Import Reader ReaderSafe ReaderOk Table Writer Filter Engine TimeFilter Scan Aggregate Text Rows StatsPipe.
From stdpp Require Import list gmap sorting.
Local Open Scope Z_scope.

(** ** Definitions *)

(** Where the Go code holds a parsed subquery the constructor has its query and
    its pipes. [MathPipe] keeps the fields its expression reads, as parsed. *)
#[local] Set Warnings "-register-all".
Inductive Pipe :=
| Stats (sp : StatsPipe)
| SortPipe (By : list bytes) (Limit : Z) (Desc : bool)
| LimitPipe (N : Z)
| FieldsPipe (Keep : list bytes)
| UniqPipe (By : list bytes) (Limit : Z)
| TopPipe (By : list bytes) (N : Z)
| TailPipe (N : Z)
| OffsetPipe (N : Z)
| RenamePipe (From To : list bytes)
| DeletePipe (Drop : list bytes)
| FilterPipe (expr : Expr)
| CollapseNumsPipe (Field : bytes) (Full : bool)
| RankPipe (Terms : list bytes) (Field : bytes)
| UnpackJSONPipe (From Prefix : bytes)
| FormatPipe (Template As : bytes)
| ExtractPipe (From Pattern : bytes)
| UnpackLogfmtPipe (From Prefix : bytes)
| ReplacePipe (Field Old New : bytes) (Regexp : bool)
| CopyPipe (From To : list bytes)
| LenPipe (Field As : bytes)
| DropEmptyPipe
| HashPipe (Field As : bytes)
| ExtractRegexpPipe (From pattern : bytes)
| DecolorizePipe (Field : bytes)
| PackPipe (Fields : list bytes) (As : bytes) (Logfmt : bool)
| UnrollPipe (Field : bytes)
| UnpackSyslogPipe (From : bytes)
| JSONArrayLenPipe (Field As : bytes)
| UnpackWordsPipe (From As : bytes)
| SamplePipe (N : Z)
| MathPipe (As : bytes) (expr : mathNode) (fields : list bytes)
| FieldValuesPipe (Field : bytes) (Limit : Z)
| FieldNamesPipe
| FacetsPipe (N : Z)
| BlocksCountPipe
| BlockStatsPipe
| JoinPipe (By : list bytes) (Prefix : bytes) (Sub : Query) (SubPipes : list Pipe)
| UnionPipe (Sub : Query) (SubPipes : list Pipe)
| StreamContextPipe (Before After : Z).

(** [strconv.Atoi] with its error ignored: zero on a bad number, the bound on one
    out of range. *)
Definition Atoi_value (s : bytes) : Z :=
  let '(neg, ds) := match s with 43 :: ds => (false, ds) | 45 :: ds => (true, ds) | _ => (false, s) end in
  match ds with
  | [] => 0
  | _ => match atoi_digits ds 0 with
         | Some n => Z.min MaxInt64 (Z.max MinInt64 (if (neg : bool) then - n else n))
         | None => 0
         end
  end.
(** [rows[:n]] of a bound that applies when it is positive. *)
Definition cut {A} (n : Z) (l : list A) : list A := if bool_decide (0 < n ∧ n < len l) then take (Z.to_nat n) l else l.

Section apply.
Context {T : GoText} {P : GoPipes} {R : MapRange}.

(** *** Sorting *)

Definition lessVal (a b : bytes) : bool :=
  match ParseFloat a, ParseFloat b with Some fa, Some fb => SFltb fa fb | _, _ => str_ltb a b end.
(** The comparison of [SortPipe]. *)
Fixpoint sort_less (by_ : list bytes) (desc : bool) (a b : Row) : bool :=
  match by_ with
  | [] => false
  | f :: by_ =>
      let va := rowField a f in let vb := rowField b f in
      if str_eqb va vb then sort_less by_ desc a b else if desc then negb (lessVal va vb) else lessVal va vb
  end.
Definition sort_apply (by_ : list bytes) (limit : Z) (desc : bool) (rows : list Row) : list Row :=
  cut limit (stable_sort (sort_less by_ desc) rows).

(** *** Distinct rows and counts *)

Definition allByFieldsEmpty (r : Row) (by_ : list bytes) : bool := forallb (λ f, bool_decide (rowField r f = [])) by_.
Definition uniq_row (by_ : list bytes) (r : Row) : Row :=
  if bool_decide (by_ = []) then r else MkRow 0 ((λ f, (f, rowField r f)) <$> by_) true.
Fixpoint uniq_loop (by_ : list bytes) (maxKeys : Z) (rows : list Row) (seen : gset bytes) : option (list Row) :=
  match rows with
  | [] => Some []
  | r :: rows' =>
      if bool_decide (by_ ≠ []) && allByFieldsEmpty r by_ then uniq_loop by_ maxKeys rows' seen else
      let k := rowKey r by_ in
      if bool_decide (k ∈ seen) then uniq_loop by_ maxKeys rows' seen else
      let seen := {[k]} ∪ seen in
      if tooManyKeys maxKeys (Z.of_nat (size seen)) then None else cons (uniq_row by_ r) <$> uniq_loop by_ maxKeys rows' seen
  end.
Definition uniq_apply (by_ : list bytes) (limit maxKeys : Z) (rows : list Row) : option (list Row) :=
  cut limit <$> uniq_loop by_ maxKeys rows ∅.

(** The counts of [TopPipe], with the values of each key. *)
Fixpoint top_loop (by_ : list bytes) (maxKeys : Z) (rows : list Row) (cnt : gmap bytes (Z * list bytes)) : option (gmap bytes (Z * list bytes)) :=
  match rows with
  | [] => Some cnt
  | r :: rows' =>
      let k := rowKey r by_ in
      match cnt !! k with
      | Some (n, v) => top_loop by_ maxKeys rows' (<[k := (n + 1, v)]> cnt)
      | None =>
          let cnt := <[k := (1, (λ f, rowField r f) <$> by_)]> cnt in
          if tooManyKeys maxKeys (Z.of_nat (size cnt)) then None else top_loop by_ maxKeys rows' cnt
      end
  end.
Definition top_row (by_ : list bytes) (kv : bytes * (Z * list bytes)) : Row :=
  MkRow 0 (List.filter (λ f : bytes * bytes, negb (bool_decide (f.2 = []))) (zip by_ kv.2.2) ++ [(s_hits, Itoa kv.2.1)]) true.
Fixpoint values_less (by_ : list bytes) (a b : Row) : bool :=
  match by_ with
  | [] => false
  | f :: by_ => let va := rowField a f in let vb := rowField b f in if str_eqb va vb then values_less by_ a b else str_ltb va vb
  end.
Definition top_less (by_ : list bytes) (a b : Row) : bool :=
  let ca := Atoi_value (rowField a s_hits) in let cb := Atoi_value (rowField b s_hits) in
  if bool_decide (ca = cb) then values_less by_ a b else bool_decide (cb < ca).
Definition top_apply (by_ : list bytes) (n maxKeys : Z) (rows : list Row) : option (list Row) :=
  (λ cnt : gmap bytes (Z * list bytes), cut n (stable_sort (top_less by_) (top_row by_ <$> range_map cnt))) <$> top_loop by_ maxKeys rows ∅.

(** [RankPipe]: the score, then the rows by it. *)
Definition rank_row (terms : list bytes) (field : bytes) (r : Row) : Row :=
  setRowField r s_score (Itoa (foldl (λ n t, n + Count_str (rowField r (orDefault field s_msg)) t) 0 terms)).
Definition score_less (a b : Row) : bool := bool_decide (Atoi_value (rowField b s_score) < Atoi_value (rowField a s_score)).

(** [SamplePipe]. *)
Fixpoint every (n i : Z) (rows : list Row) : list Row :=
  match rows with [] => [] | r :: rows' => if bool_decide (i mod n = 0) then r :: every n (i + 1) rows' else every n (i + 1) rows' end.

(** *** Introspection over rows *)

Definition s_value : bytes := [118; 97; 108; 117; 101].
Definition s_name : bytes := [110; 97; 109; 101].
Definition s_field : bytes := [102; 105; 101; 108; 100].
Definition s_blocks_count : bytes := [98; 108; 111; 99; 107; 115; 95; 99; 111; 117; 110; 116].
Definition valueCountRows (vcs : list ValueCount) (limit : Z) : list Row :=
  (λ vc, MkRow 0 [(s_value, vc_Value vc); (s_hits, Itoa (vc_Count vc))] true) <$> cut limit vcs.
Definition facetRows (field : bytes) (vcs : list ValueCount) (n : Z) : list Row :=
  let n := if bool_decide (n ≤ 0) then 10 else n in
  (λ vc, MkRow 0 [(s_field, field); (s_value, vc_Value vc); (s_hits, Itoa (vc_Count vc))] true) <$> cut n vcs.
Definition field_values_apply (field : bytes) (limit : Z) (rows : list Row) : list Row :=
  valueCountRows (counts_list (foldl (λ m r, bump m (rowField r field) 1) ∅ rows)) limit.
Definition all_fields (rows : list Row) : list (bytes * bytes) := concat (row_Fields <$> rows).
Definition field_names_apply (rows : list Row) : list Row :=
  let names := (all_fields rows).*1 in
  (λ name, MkRow 0 [(s_name, name); (s_hits, Itoa (len (List.filter (str_eqb name) names)))] true) <$> distinct [] names.
Definition facets_apply (n : Z) (rows : list Row) : list Row :=
  let fs := all_fields rows in
  concat ((λ name, facetRows name (counts_list (foldl (λ m f, if str_eqb f.1 name then bump m f.2 1 else m) ∅ fs)) n) <$> distinct [] fs.*1).

(** *** [apply] *)

(** The pattern of [ansiRe]. *)
Definition ansiRe : bytes := [27; 92; 91; 91; 48; 45; 57; 59; 63; 93; 42; 91; 32; 45; 47; 93; 42; 91; 64; 45; 126; 93].

(** The pipes that make one row of one row. *)
Definition collapse_row (field : bytes) (full : bool) (r : Row) : Row :=
  let f := orDefault field s_msg in setRowField r f (templatize (rowField r f) full).
Definition unpack_json_row (from prefix : bytes) (r : Row) : Row :=
  match json_object (rowField r (orDefault from s_msg)) with
  | Some m => set_all r ((λ kv, (prefix ++ kv.1, jsonRawScalar kv.2)) <$> range_map m)
  | None => r
  end.
Definition format_row (tpl as_ : bytes) (r : Row) : Row := setRowField r (orDefault as_ s_msg) (expandTemplate tpl r).
Definition extract_row (from pattern : bytes) (r : Row) : Row :=
  extract_loop (parseExtractPattern pattern) (rowField r (orDefault from s_msg)) r.
Definition unpack_logfmt_row (from prefix : bytes) (r : Row) : Row :=
  set_all r ((λ kv, (prefix ++ kv.1, kv.2)) <$> parseLogfmtPairs (rowField r (orDefault from s_msg))).
Definition replace_row (field old new : bytes) (re : bool) (r : Row) : Row :=
  let f := orDefault field s_msg in
  let v := rowField r f in
  if re then match regexp_replace old with Some rep => setRowField r f (rep v new) | None => r end
  else setRowField r f (ReplaceAll v old new).
Definition len_row (field as_ : bytes) (r : Row) : Row := setRowField r (orDefault as_ s_len) (Itoa (len (rowField r field))).
Definition hash_row (field as_ : bytes) (r : Row) : Row :=
  setRowField r (orDefault as_ s_hash) (FormatUint16 (fnv64a (rowField r field))).
Definition extract_regexp_row (from pattern : bytes) (r : Row) : Row :=
  match regexp_groups pattern with
  | Some (names, find) =>
      match find (rowField r (orDefault from s_msg)) with Some groups => set_groups (tail names) (tail groups) r | None => r end
  | None => r
  end.
Definition decolorize_row (field : bytes) (r : Row) : Row :=
  let f := orDefault field s_msg in
  let v := rowField r f in
  match IndexByte v 27, regexp_replace ansiRe with Some _, Some rep => setRowField r f (rep v []) | _, _ => r end.
Definition pack_row (fields : list bytes) (as_ : bytes) (logfmt : bool) (r : Row) : Row :=
  setRowField r (orDefault as_ s_msg) (if logfmt then packLogfmt r fields else packJSON r fields).
Definition unpack_syslog_row (from : bytes) (r : Row) : Row := set_all r (parseSyslog (rowField r (orDefault from s_msg))).
Definition json_array_len_row (field as_ : bytes) (r : Row) : Row :=
  setRowField r (orDefault as_ s_json_array_len) (Itoa (match json_array (rowField r field) with Some l => len l | None => 0 end)).
Definition unpack_words_row (from as_ : bytes) (r : Row) : Row :=
  setRowField r (orDefault as_ s_words) (jsonStrArray (distinctWords (rowField r (orDefault from s_msg)))).
Definition math_row (as_ : bytes) (e : mathNode) (r : Row) : Row := setRowField r as_ (FormatFloat_g (eval e r)).
Definition rewrite_row (p : Pipe) (r : Row) : option Row :=
  match p with
  | FieldsPipe keep => Some (keep_fields keep r)
  | RenamePipe from to => Some (rename_fields from to r)
  | DeletePipe drop => Some (delete_fields drop r)
  | CopyPipe from to => Some (copy_fields from to r)
  | DropEmptyPipe => Some (drop_empty r)
  | CollapseNumsPipe field full => Some (collapse_row field full r)
  | UnpackJSONPipe from prefix => Some (unpack_json_row from prefix r)
  | FormatPipe tpl as_ => Some (format_row tpl as_ r)
  | ExtractPipe from pattern => Some (extract_row from pattern r)
  | UnpackLogfmtPipe from prefix => Some (unpack_logfmt_row from prefix r)
  | ReplacePipe field old new re => Some (replace_row field old new re r)
  | LenPipe field as_ => Some (len_row field as_ r)
  | HashPipe field as_ => Some (hash_row field as_ r)
  | ExtractRegexpPipe from pattern => Some (extract_regexp_row from pattern r)
  | DecolorizePipe field => Some (decolorize_row field r)
  | PackPipe fields as_ logfmt => Some (pack_row fields as_ logfmt r)
  | UnpackSyslogPipe from => Some (unpack_syslog_row from r)
  | JSONArrayLenPipe field as_ => Some (json_array_len_row field as_ r)
  | UnpackWordsPipe from as_ => Some (unpack_words_row from as_ r)
  | MathPipe as_ e _ => Some (math_row as_ e r)
  | _ => None
  end.
Definition unroll_row (field : bytes) (r : Row) : list Row :=
  match unrollValues (rowField r field) with [] => [r] | elems => (λ e, setRowField (cloneRow r) field e) <$> elems end.

(** The pipes that keep, drop or order rows. *)
Definition limit_apply (n : Z) (rows : list Row) : list Row := if bool_decide (0 ≤ n ∧ n < len rows) then take (Z.to_nat n) rows else rows.
Definition tail_apply (n : Z) (rows : list Row) : list Row :=
  if bool_decide (0 ≤ n ∧ n < len rows) then drop (Z.to_nat (len rows - n)) rows else rows.
Definition offset_apply (n : Z) (rows : list Row) : list Row :=
  if bool_decide (len rows ≤ n) then [] else if bool_decide (0 < n) then drop (Z.to_nat n) rows else rows.
Definition filter_apply (e : Expr) (rows : list Row) : list Row := List.filter (λ r, matchRow r e) rows.
Definition rank_apply (terms : list bytes) (field : bytes) (rows : list Row) : list Row :=
  stable_sort score_less (rank_row terms field <$> rows).
Definition unroll_apply (field : bytes) (rows : list Row) : list Row := concat (unroll_row field <$> rows).
Definition sample_apply (n : Z) (rows : list Row) : list Row := if bool_decide (n ≤ 1) then rows else every n 0 rows.
Definition blocks_count_apply (rows : list Row) : list Row := [MkRow 0 [(s_blocks_count, Itoa (len rows))] false].

(** [apply]: [None] is the nil a pipe returns after it stopped the query on its
    number of keys. *)
Definition apply (p : Pipe) (maxKeys : Z) (rangeSec : spec_float) (rows : list Row) : option (list Row) :=
  match p with
  | Stats sp => stats_apply sp maxKeys rangeSec rows
  | SortPipe by_ limit desc => Some (sort_apply by_ limit desc rows)
  | LimitPipe n => Some (limit_apply n rows)
  | UniqPipe by_ limit => uniq_apply by_ limit maxKeys rows
  | TopPipe by_ n => top_apply by_ n maxKeys rows
  | TailPipe n => Some (tail_apply n rows)
  | OffsetPipe n => Some (offset_apply n rows)
  | FilterPipe e => Some (filter_apply e rows)
  | RankPipe terms field => Some (rank_apply terms field rows)
  | UnrollPipe field => Some (unroll_apply field rows)
  | SamplePipe n => Some (sample_apply n rows)
  | FieldValuesPipe field limit => Some (field_values_apply field limit rows)
  | FieldNamesPipe => Some (field_names_apply rows)
  | FacetsPipe n => Some (facets_apply n rows)
  | BlocksCountPipe => Some (blocks_count_apply rows)
  | BlockStatsPipe | JoinPipe _ _ _ _ | UnionPipe _ _ | StreamContextPipe _ _ => Some rows
  | _ => Some (omap (rewrite_row p) rows)
  end.
End apply.

(** *** What a chain reads and keeps *)

Definition pipesPackAll (ps : list Pipe) : bool := existsb (λ p, match p with PackPipe [] _ _ => true | _ => false end) ps.
Definition PipesProject (ps : list Pipe) : bool :=
  existsb (λ p, match p with
    | FieldsPipe _ | Stats _ | UniqPipe _ _ | TopPipe _ _ | FieldValuesPipe _ _ | FieldNamesPipe | FacetsPipe _ | BlocksCountPipe | BlockStatsPipe => true
    | _ => false end) ps.
(** The fields a pipe adds to [pipeFields]. The names of a filter come in the
    order its map is walked in. *)
Definition agg_fields {R : MapRange} (a : Agg) : list bytes :=
  (if bool_decide (a_Field a = []) then [] else [a_Field a]) ++ (if bool_decide (a_Field2 a = []) then [] else [a_Field2 a])
    ++ match a_If a with Some e => (range_map (filterFields e ∅)).*1 | None => [] end.
Definition reads {R : MapRange} (p : Pipe) : list bytes :=
  match p with
  | Stats sp => st_By sp ++ concat (agg_fields <$> st_Aggs sp)
  | SortPipe by_ _ _ | UniqPipe by_ _ | TopPipe by_ _ | JoinPipe by_ _ _ _ => by_
  | RenamePipe from _ | CopyPipe from _ => from
  | FieldsPipe keep => keep
  | FilterPipe e => (range_map (filterFields e ∅)).*1
  | UnpackJSONPipe from _ | ExtractPipe from _ | UnpackLogfmtPipe from _ | ExtractRegexpPipe from _ | UnpackSyslogPipe from
  | UnpackWordsPipe from _ => [orDefault from s_msg]
  | FormatPipe tpl _ => templateFields tpl
  | MathPipe _ _ fields => fields
  | CollapseNumsPipe field _ | RankPipe _ field | ReplacePipe field _ _ _ | DecolorizePipe field => [orDefault field s_msg]
  | LenPipe field _ | UnrollPipe field | JSONArrayLenPipe field _ | HashPipe field _ => [field]
  | PackPipe fields _ _ => fields
  | _ => []
  end.
Definition pipeFields {R : MapRange} (ps : list Pipe) : list bytes := distinct [] (concat (reads <$> ps)).
