(* ===== verification/PipesOk.v ===== *)
(** * What the grouping pipes compute

    [stats], [uniq] and [top] over rows, against the definitions they stand for:
    the distinct keys in the order they were first seen, the rows of each key, and
    a ceiling that refuses exactly the answers with more keys than it
    ([stats_exact], [uniq_exact], [top_exact]). *)

From Stdlib Require Import SpecFloat.
From S2P Require Import Prelude Digits GoLib Kernels Indices Timestamps DictSection DictLayout Postings Bloom Group Bitset Select.
From S2P Require Import Reader ReaderSafe ReaderOk Table Writer Filter Engine TimeFilter Scan PagesOk KeySort Aggregate Text Rows StatsPipe Pipes.
From stdpp Require Import list gmap sorting.
Local Open Scope Z_scope.

(** ** Distinct values *)

Lemma distinct_ext seen seen' l : (∀ x, x ∈ seen ↔ x ∈ seen') → distinct seen l = distinct seen' l.
Proof.
  revert seen seen'. induction l as [|w l IH]; intros seen seen' H; [done|]. cbn.
  destruct (decide (w ∈ seen)) as [Hw|Hw].
  - rewrite !bool_decide_true by (done || by apply H). by apply IH.
  - rewrite !bool_decide_false by (done || by rewrite <- H). f_equal. apply IH. intros x. rewrite !elem_of_cons. by rewrite H.
Qed.
Lemma distinct_elem seen l x : x ∈ distinct seen l ↔ x ∈ l ∧ x ∉ seen.
Proof.
  revert seen. induction l as [|w l IH]; intros seen; cbn; [split; [by intros ?%not_elem_of_nil|by intros [?%not_elem_of_nil _]]|].
  case_bool_decide as Hw; [rewrite IH, elem_of_cons; split; [tauto|intros [[->|?] ?]; tauto]|].
  rewrite !elem_of_cons, IH, not_elem_of_cons. split; [intros [->|[? [? ?]]]; tauto|]. intros [[->|?] ?]; [by left|].
  destruct (decide (x = w)); [by left|right; tauto].
Qed.
Lemma distinct_NoDup seen l : NoDup (distinct seen l).
Proof.
  revert seen. induction l as [|w l IH]; intros seen; cbn; [constructor|]. case_bool_decide; [apply IH|].
  constructor; [|apply IH]. rewrite distinct_elem. intros [_ Hn]. apply Hn, elem_of_cons. by left.
Qed.
(** Reading on: the values seen so far, then the new ones. *)
Lemma distinct_snoc order w l :
  w ∉ order → order ++ distinct order (w :: l) = (order ++ [w]) ++ distinct (order ++ [w]) l.
Proof.
  intros Hw. cbn. rewrite bool_decide_false by done. rewrite <- app_assoc. cbn [app]. do 2 f_equal. apply distinct_ext.
  intros x. rewrite elem_of_cons, elem_of_app, list_elem_of_singleton. tauto.
Qed.
Lemma distinct_seen order w l : w ∈ order → distinct order (w :: l) = distinct order l.
Proof. intros Hw. cbn. by rewrite bool_decide_true. Qed.
Lemma tooManyKeys_mono k a b : a ≤ b → tooManyKeys k a = true → tooManyKeys k b = true.
Proof. unfold tooManyKeys. rewrite !andb_true_iff, !bool_decide_eq_true. lia. Qed.

Section grouping.
Context {T : GoText} {P : GoPipes} {R : MapRange}.

(** ** Aggregation *)

(** The rows of a key, and what its accumulators hold after them. *)
Definition rows_with (by_ : list bytes) (k : bytes) (rows : list Row) : list Row := List.filter (λ r, str_eqb (rowKey r by_) k) rows.
Definition acc_row (sp : StatsPipe) (e : statEntry) (r : Row) : statEntry := accSample e (st_Aggs sp) (rowField r) (rowField r).
Definition entry_start (sp : StatsPipe) (r : Row) : statEntry := newStatEntry ((λ f, rowField r f) <$> st_By sp) (st_Aggs sp).
Definition entry_after (sp : StatsPipe) (k : bytes) (rows : list Row) (e : option statEntry) : option statEntry :=
  match rows_with (st_By sp) k rows with
  | [] => e
  | r :: _ => Some (foldl (acc_row sp) (default (entry_start sp r) e) (rows_with (st_By sp) k rows))
  end.
Definition keys_of (by_ : list bytes) (rows : list Row) : list bytes := distinct [] ((λ r, rowKey r by_) <$> rows).

Lemma entry_after_cons sp k r rows e :
  entry_after sp k (r :: rows) e
  = entry_after sp k rows (if str_eqb (rowKey r (st_By sp)) k then Some (acc_row sp (default (entry_start sp r) e) r) else e).
Proof.
  unfold entry_after, rows_with. cbn [List.filter]. destruct (str_eqb (rowKey r (st_By sp)) k); [|done].
  destruct (List.filter _ rows); done.
Qed.
Lemma stats_loop_exact sp maxKeys rows : ∀ acc order,
  (∀ k, is_Some (acc !! k) ↔ k ∈ order) → tooManyKeys maxKeys (len order) = false →
  let order' := order ++ distinct order ((λ r, rowKey r (st_By sp)) <$> rows) in
  if tooManyKeys maxKeys (len order') then stats_loop sp maxKeys rows acc order = None
  else ∃ acc', stats_loop sp maxKeys rows acc order = Some (acc', order') ∧ ∀ k, acc' !! k = entry_after sp k rows (acc !! k).
Proof.
  induction rows as [|r rows IH]; intros acc order Hdom Hmany order'.
  - subst order'. cbn. rewrite app_nil_r, Hmany. by exists acc.
  - subst order'. rewrite fmap_cons. cbn [stats_loop]. set (key := rowKey r (st_By sp)). 
    assert (∀ k, stats_row sp r acc !! k = if str_eqb key k then Some (acc_row sp (default (entry_start sp r) (acc !! k)) r) else acc !! k) as Hrow.
    { intros k. unfold stats_row, str_eqb. fold key. case_bool_decide as E; [subst k; by rewrite lookup_insert_eq|by rewrite lookup_insert_ne]. }
    destruct (acc !! key) as [e|] eqn:Ek.
    + assert (key ∈ order) as Hin by (apply Hdom; by eexists). rewrite distinct_seen by done.
      specialize (IH (stats_row sp r acc) order). cbn zeta in IH.
      assert (∀ k, is_Some (stats_row sp r acc !! k) ↔ k ∈ order) as Hdom'.
      { intros k. rewrite Hrow. unfold str_eqb. case_bool_decide; [subst k; split; [done|by eexists]|apply Hdom]. }
      specialize (IH Hdom' Hmany). destruct (tooManyKeys _ _); [exact IH|]. destruct IH as (acc' & -> & Hacc). exists acc'. split; [done|].
      intros k. by rewrite Hacc, Hrow, entry_after_cons.
    + assert (key ∉ order) as Hnin by (rewrite <- Hdom, Ek; by intros [? ?]). rewrite distinct_snoc by done.
      destruct (tooManyKeys maxKeys (len (order ++ [key]))) eqn:Em.
      * rewrite (tooManyKeys_mono maxKeys (len (order ++ [key]))); [done| |done]. rewrite (len_app (order ++ [key])). len_lia.
      * specialize (IH (stats_row sp r acc) (order ++ [key])). cbn zeta in IH.
        assert (∀ k, is_Some (stats_row sp r acc !! k) ↔ k ∈ order ++ [key]) as Hdom'.
        { intros k. rewrite Hrow, elem_of_app, list_elem_of_singleton. unfold str_eqb. case_bool_decide; [subst k; split; [by right|by eexists]|].
          rewrite Hdom. naive_solver. }
        specialize (IH Hdom' Em). destruct (tooManyKeys _ _); [exact IH|]. destruct IH as (acc' & -> & Hacc). exists acc'. split; [done|].
        intros k. by rewrite Hacc, Hrow, entry_after_cons.
Qed.

(** The accumulators of a key that occurs. *)
Definition group_entry (sp : StatsPipe) (rows : list Row) (k : bytes) : statEntry :=
  let group := rows_with (st_By sp) k rows in
  foldl (acc_row sp) (default (newStatEntry [] (st_Aggs sp)) (entry_start sp <$> head group)) group.
Lemma keys_of_in by_ rows k : k ∈ keys_of by_ rows → ∃ r l, rows_with by_ k rows = r :: l.
Proof.
  unfold keys_of. rewrite distinct_elem. intros [(r & -> & Hr)%list_elem_of_fmap _].
  destruct (rows_with by_ (rowKey r by_) rows) as [|r' l] eqn:E; [|by eexists _, _]. exfalso.
  assert (In r (rows_with by_ (rowKey r by_) rows)) as Hin; [|by rewrite E in Hin].
  apply List.filter_In. split; [by apply list_elem_of_In|]. by apply bool_decide_eq_true.
Qed.

(** C28: [stats by] over rows answers one row per distinct key, in the order the keys
    were first seen, each the rendering of its aggregates folded over exactly the
    rows of that key in their order; it is refused exactly when there are more keys
    than the ceiling. *)
Theorem stats_exact sp maxKeys sec rows :
  stats_apply sp maxKeys sec rows =
    let keys := keys_of (st_By sp) rows in
    if tooManyKeys maxKeys (len keys) then None else Some ((λ k, statEntryRow sp sec (group_entry sp rows k)) <$> keys).
Proof.
  pose proof (stats_loop_exact sp maxKeys rows ∅ []) as H. cbn zeta in H. cbn [app] in H. unfold stats_apply. cbn zeta.
  fold (keys_of (st_By sp) rows) in H. assert (∀ k, is_Some ((∅ : gmap bytes statEntry) !! k) ↔ k ∈ []) as Hd.
  { intros k. rewrite lookup_empty, elem_of_nil. split; [by intros [? ?]|done]. }
  assert (tooManyKeys maxKeys (len (@nil bytes)) = false) as H0. { unfold tooManyKeys. rewrite andb_false_iff, !bool_decide_eq_false. len_lia. }
  specialize (H Hd H0). destruct (tooManyKeys _ (len (keys_of _ _))); [by rewrite H|]. destruct H as (acc & -> & Hacc). f_equal.
  assert (Forall (λ k, acc !! k = Some (group_entry sp rows k)) (keys_of (st_By sp) rows)) as Hk.
  { apply Forall_forall. intros k (r & l & E)%keys_of_in. rewrite Hacc, lookup_empty. unfold entry_after, group_entry. by rewrite E. }
  induction Hk as [|k keys Hk _ IH]; [done|]. cbn. rewrite Hk. cbn. by f_equal.
Qed.

(** ** Distinct rows *)

(** The first row of each key. *)
Fixpoint firsts (by_ : list bytes) (seen : list bytes) (rows : list Row) : list Row :=
  match rows with
  | [] => []
  | r :: rows' => if bool_decide (rowKey r by_ ∈ seen) then firsts by_ seen rows' else r :: firsts by_ (rowKey r by_ :: seen) rows'
  end.
Definition countable (by_ : list bytes) (r : Row) : bool := bool_decide (by_ = []) || negb (allByFieldsEmpty r by_).
Lemma firsts_keys by_ seen rows : (λ r, rowKey r by_) <$> firsts by_ seen rows = distinct seen ((λ r, rowKey r by_) <$> rows).
Proof.
  revert seen. induction rows as [|r rows IH]; intros seen; [done|]. cbn. case_bool_decide; [apply IH|]. cbn. by rewrite IH.
Qed.
Lemma uniq_loop_exact by_ maxKeys rows : ∀ seen (list : list bytes),
  (∀ k, k ∈ seen ↔ k ∈ list) → Z.of_nat (size seen) = len list → tooManyKeys maxKeys (len list) = false →
  let out := firsts by_ list (List.filter (countable by_) rows) in
  uniq_loop by_ maxKeys rows seen = if tooManyKeys maxKeys (len list + len out) then None else Some (uniq_row by_ <$> out).
Proof.
  induction rows as [|r rows IH]; intros seen list Hin Hlen Hmany out; subst out.
  - cbn. change (len []) with 0. by rewrite Z.add_0_r, Hmany.
  - cbn [uniq_loop List.filter].
    assert (bool_decide (by_ ≠ []) && allByFieldsEmpty r by_ = negb (countable by_ r)) as ->.
    { unfold countable. rewrite negb_orb, negb_involutive. f_equal. destruct (decide (by_ = [])); [by rewrite bool_decide_false, bool_decide_true by tauto|].
      by rewrite bool_decide_true, bool_decide_false. }
    destruct (countable by_ r); cbn [negb firsts]; [|by apply IH]. destruct (decide (rowKey r by_ ∈ seen)) as [Hk|Hk].
    + rewrite !bool_decide_true by (done || by apply Hin). by apply IH.
    + rewrite !bool_decide_false by (done || by rewrite <- Hin).
      assert (Z.of_nat (size ({[rowKey r by_]} ∪ seen : gset bytes)) = 1 + len list) as Hsize.
      { rewrite size_union, size_singleton by set_solver. lia. }
      rewrite Hsize, len_cons. set (rest := firsts by_ (rowKey r by_ :: list) _). destruct (tooManyKeys maxKeys (1 + len list)) eqn:Em.
      { by rewrite (tooManyKeys_mono maxKeys (1 + len list)) by (done || len_lia). }
      rewrite (IH ({[rowKey r by_]} ∪ seen) (rowKey r by_ :: list));
        [|intros k; by rewrite elem_of_union, elem_of_singleton, elem_of_cons, Hin|rewrite Hsize, len_cons; done|rewrite len_cons; done].
      fold rest. rewrite len_cons. replace (len list + (1 + len rest)) with (1 + len list + len rest) by lia. destruct (tooManyKeys maxKeys (1 + len list + len rest)); reflexivity.
Qed.

(** [uniq by] keeps the first row of every distinct key, in order, without the
    rows that have none of the fields, and cuts at its limit; it is refused exactly
    when there are more distinct keys than the ceiling. *)
Theorem uniq_exact by_ limit maxKeys rows :
  let out := firsts by_ [] (List.filter (countable by_) rows) in
  uniq_apply by_ limit maxKeys rows = (if tooManyKeys maxKeys (len out) then None else Some (cut limit (uniq_row by_ <$> out)))
  ∧ (λ r, rowKey r by_) <$> out = keys_of by_ (List.filter (countable by_) rows).
Proof.
  intros out. split; [|apply firsts_keys]. unfold uniq_apply.
  pose proof (uniq_loop_exact by_ maxKeys rows ∅ []) as H. cbn zeta in H. fold out in H. rewrite H; [|set_solver|by rewrite size_empty|].
  - len_nil. rewrite Z.add_0_l. destruct (tooManyKeys maxKeys (len out)); reflexivity.
  - unfold tooManyKeys. rewrite andb_false_iff, !bool_decide_eq_false. len_lia.
Qed.

(** ** Counting *)

Definition counted (by_ : list bytes) (rows : list Row) (k : bytes) : bytes * (Z * list bytes) :=
  let group := rows_with by_ k rows in (k, (len group, default [] ((λ r, (λ f, rowField r f) <$> by_) <$> head group))).
Definition count_after (by_ : list bytes) (k : bytes) (rows : list Row) (e : option (Z * list bytes)) : option (Z * list bytes) :=
  match rows_with by_ k rows, e with
  | [], _ => e
  | (r :: _) as g, None => Some (len g, (λ f, rowField r f) <$> by_)
  | g, Some (n, v) => Some (n + len g, v)
  end.
Lemma count_after_cons by_ k r rows e :
  count_after by_ k (r :: rows) e = count_after by_ k rows
    (if str_eqb (rowKey r by_) k then Some (match e with Some (n, v) => (n + 1, v) | None => (1, (λ f, rowField r f) <$> by_) end) else e).
Proof.
  unfold count_after, rows_with. cbn [List.filter]. destruct (str_eqb (rowKey r by_) k); [|done].
  destruct (List.filter _ rows) as [|r' l]; destruct e as [[n v]|]; rewrite ?len_cons; len_nil; (apply (f_equal Some), (f_equal2 pair); [lia|done]).
Qed.
Lemma top_loop_exact by_ maxKeys rows : ∀ cnt order,
  (∀ k, is_Some (cnt !! k) ↔ k ∈ order) → Z.of_nat (size cnt) = len order → tooManyKeys maxKeys (len order) = false →
  let order' := order ++ distinct order ((λ r, rowKey r by_) <$> rows) in
  if tooManyKeys maxKeys (len order') then top_loop by_ maxKeys rows cnt = None
  else ∃ cnt', top_loop by_ maxKeys rows cnt = Some cnt' ∧ (∀ k, cnt' !! k = count_after by_ k rows (cnt !! k)) ∧ (∀ k, is_Some (cnt' !! k) ↔ k ∈ order').
Proof.
  induction rows as [|r rows IH]; intros cnt order Hdom Hsize Hmany order'.
  - subst order'. cbn. rewrite app_nil_r, Hmany. by exists cnt.
  - subst order'. rewrite fmap_cons. cbn [top_loop]. set (key := rowKey r by_).
    assert (∀ k e, <[key := e]> cnt !! k = if str_eqb key k then Some e else cnt !! k) as Hrow.
    { intros k e. unfold str_eqb. case_bool_decide as E; [subst k; by rewrite lookup_insert_eq|by rewrite lookup_insert_ne]. }
    destruct (cnt !! key) as [[n v]|] eqn:Ek.
    + assert (key ∈ order) as Hin by (apply Hdom; by eexists). rewrite distinct_seen by done.
      specialize (IH (<[key := (n + 1, v)]> cnt) order). cbn zeta in IH.
      assert (∀ k, is_Some (<[key := (n + 1, v)]> cnt !! k) ↔ k ∈ order) as Hdom'.
      { intros k. rewrite Hrow. unfold str_eqb. case_bool_decide; [subst k; split; [done|by eexists]|apply Hdom]. }
      assert (Z.of_nat (size (<[key := (n + 1, v)]> cnt)) = len order) as Hs' by (rewrite map_size_insert, Ek; exact Hsize).
      specialize (IH Hdom' Hs' Hmany). destruct (tooManyKeys _ _); [exact IH|]. destruct IH as (cnt' & -> & Hc & Hd). exists cnt'. split_and!; [done| |done].
      intros k. rewrite Hc, Hrow, count_after_cons. fold key. unfold str_eqb. case_bool_decide as E; [subst k; by rewrite Ek|done].
    + assert (key ∉ order) as Hnin by (rewrite <- Hdom, Ek; by intros [? ?]). rewrite distinct_snoc by done.
      assert (Z.of_nat (size (<[key := (1, (λ f, rowField r f) <$> by_)]> cnt)) = len (order ++ [key])) as Hs'.
      { rewrite map_size_insert, Ek, len_app. change (len [key]) with 1. cbn. lia. }
      rewrite Hs'. destruct (tooManyKeys maxKeys (len (order ++ [key]))) eqn:Em.
      * rewrite (tooManyKeys_mono maxKeys (len (order ++ [key]))); [done| |done]. rewrite (len_app (order ++ [key])). len_lia.
      * specialize (IH (<[key := (1, (λ f, rowField r f) <$> by_)]> cnt) (order ++ [key])). cbn zeta in IH.
        assert (∀ k, is_Some (<[key := (1, (λ f, rowField r f) <$> by_)]> cnt !! k) ↔ k ∈ order ++ [key]) as Hdom'.
        { intros k. rewrite Hrow, elem_of_app, list_elem_of_singleton. unfold str_eqb. case_bool_decide; [subst k; split; [by right|by eexists]|].
          rewrite Hdom. naive_solver. }
        specialize (IH Hdom' Hs' Em). destruct (tooManyKeys _ _); [exact IH|]. destruct IH as (cnt' & -> & Hc & Hd). exists cnt'. split_and!; [done| |done].
        intros k. rewrite Hc, Hrow, count_after_cons. fold key. unfold str_eqb. case_bool_decide as E; [subst k; by rewrite Ek|done].
Qed.

(** A sort by a comparison that decides a transitive relation. *)
Lemma insert_decides {A} (less : A → A → bool) (Q : A → A → Prop) x s :
  (∀ a b, less a b = true → Q a b) → (∀ a b, less a b = false → Q b a) → (∀ a b c, Q a b → Q b c → Q a c) →
  StronglySorted Q s → StronglySorted Q (insert_by less x s).
Proof.
  intros Ht Hf Htr. induction 1 as [|y s Hs IHs Hy]; cbn; [by repeat constructor|]. destruct (less y x) eqn:E.
  - constructor; [done|]. rewrite insert_by_perm. constructor; [by apply Ht|done].
  - constructor; [by constructor|]. constructor; [by apply Hf|]. eapply Forall_impl; [exact Hy|]. intros z Hz. eapply Htr; [by apply Hf|exact Hz].
Qed.
Lemma sort_decides {A} (less : A → A → bool) (Q : A → A → Prop) l :
  (∀ a b, less a b = true → Q a b) → (∀ a b, less a b = false → Q b a) → (∀ a b c, Q a b → Q b c → Q a c) → StronglySorted Q (stable_sort less l).
Proof. intros Ht Hf Htr. induction l as [|x l IH]; [constructor|]. by apply insert_decides. Qed.
Lemma sort_fmap {A B} (less : B → B → bool) (f : A → B) l : stable_sort less (f <$> l) = f <$> stable_sort (λ a b, less (f a) (f b)) l.
Proof.
  induction l as [|x l IH]; [done|]. cbn [fmap list_fmap stable_sort foldr]. fold (stable_sort less (f <$> l)).
  change (list_fmap _ _ f l) with (f <$> l) in *. unfold stable_sort in *. rewrite IH. generalize (foldr (insert_by (λ a b, less (f a) (f b))) [] l). intros s.
  induction s as [|y s IHs]; [done|]. cbn. destruct (less (f y) (f x)); [|done]. cbn. f_equal. exact IHs.
Qed.

(** The text of a count reads back. *)
Lemma dec_digits_atoi fuel n acc : 0 ≤ n < 10 ^ Z.of_nat fuel → (0 < fuel)%nat → atoi_digits (dec_digits fuel n acc) 0 = atoi_digits acc n.
Proof.
  revert n acc. induction fuel as [|fuel IH]; intros n acc Hn Hf; [lia|]. cbn [dec_digits]. case_bool_decide.
  - cbn [atoi_digits]. rewrite bool_decide_true by lia. f_equal. lia.
  - replace (Z.of_nat (S fuel)) with (Z.of_nat fuel + 1) in Hn by lia. rewrite Z.pow_add_r in Hn by lia. change (10 ^ 1) with 10 in Hn.
    assert (0 ≤ n / 10 < 10 ^ Z.of_nat fuel) as Hq by (split; [apply Z.div_pos; lia|apply Z.div_lt_upper_bound; lia]).
    destruct fuel as [|fuel]; [cbn in Hn; lia|]. rewrite IH by (done || lia). cbn [atoi_digits].
    rewrite bool_decide_true by (Z.to_euclidean_division_equations; lia). f_equal. Z.to_euclidean_division_equations; lia.
Qed.
Lemma dec_digits_range fuel n acc : 0 ≤ n → Forall (λ c, 48 ≤ c ≤ 57) acc → Forall (λ c, 48 ≤ c ≤ 57) (dec_digits fuel n acc).
Proof.
  revert n acc. induction fuel as [|fuel IH]; intros n acc Hn Ha; [done|]. cbn [dec_digits]. case_bool_decide; [constructor; [lia|done]|].
  apply IH; [apply Z.div_pos; lia|]. constructor; [|done]. Z.to_euclidean_division_equations; lia.
Qed.
Lemma dec_digits_nil fuel n acc : (0 < fuel)%nat → dec_digits fuel n acc ≠ [].
Proof.
  revert n acc. induction fuel as [|fuel IH]; intros n acc Hf; [lia|]. cbn [dec_digits]. case_bool_decide; [done|].
  destruct fuel; [done|]. apply IH. lia.
Qed.
Lemma Atoi_Itoa n : 0 ≤ n ≤ MaxInt64 → Atoi_value (Itoa n) = n.
Proof.
  intros Hn. unfold Itoa. rewrite bool_decide_false by lia. set (fuel := S (Z.to_nat (Z.log2 n))).
  assert (n < 10 ^ Z.of_nat fuel) as Hf.
  { assert (n < 2 ^ Z.of_nat fuel) as H2.
    { destruct (decide (n = 0)) as [->|]; [apply Z.pow_pos_nonneg; lia|]. unfold fuel. rewrite Nat2Z.inj_succ, Z2Nat.id by apply Z.log2_nonneg.
      apply Z.log2_lt_pow2; lia. }
    eapply Z.lt_le_trans; [exact H2|]. apply Z.pow_le_mono_l. lia. }
  pose proof (dec_digits_atoi fuel n [] ltac:(lia) ltac:(unfold fuel; lia)) as Hd. pose proof (dec_digits_range fuel n [] ltac:(lia) ltac:(constructor)) as Hr.
  unfold Atoi_value. destruct (dec_digits fuel n []) as [|c ds] eqn:E; [by apply dec_digits_nil in E; [|unfold fuel; lia]|].
  inversion Hr as [|? ? Hc _]; subst. 
  assert ((match c :: ds with 43 :: ds => (false, ds) | 45 :: ds => (true, ds) | _ => (false, c :: ds) end) = (false, c :: ds)) as ->.
  { assert (c ∈ seqZ 48 10) as Hin by (apply elem_of_seqZ; lia). cbv in Hin. clear -Hin.
    repeat (apply elem_of_cons in Hin as [->|Hin]; [done|]). by apply not_elem_of_nil in Hin. }
  rewrite Hd. cbn. unfold MinInt64, MaxInt64 in *. lia.
Qed.

Lemma top_row_hits by_ kv : s_hits ∉ by_ → rowField (top_row by_ kv) s_hits = Itoa kv.2.1.
Proof.
  intros Hn. unfold rowField, rowFieldOK, top_row. cbn [row_Fields]. generalize kv.2.2. intros vs. revert vs.
  assert (∀ (fs : list (bytes * bytes)), s_hits ∉ fs.*1 → field_loop (fs ++ [(s_hits, Itoa kv.2.1)]) s_hits = Some (Itoa kv.2.1)) as Hl.
  { induction fs as [|[k v] fs IH]; cbn [app field_loop].
    { intros _. by rewrite (bool_decide_eq_true_2 (s_hits = s_hits) eq_refl : str_eqb s_hits s_hits = true). }
    cbn [fmap list_fmap fst].
    intros [Hk Hfs]%not_elem_of_cons. assert (str_eqb k s_hits = false) as -> by by apply bool_decide_eq_false. by apply IH. }
  intros vs. rewrite Hl; [done|]. intros (f & Ef & Hf)%list_elem_of_fmap. apply Hn. apply list_elem_of_In, List.filter_In in Hf as [Hf _].
  apply list_elem_of_In in Hf. destruct f as [k v]. cbn in Ef. subst k. by apply elem_of_zip_l in Hf.
Qed.

(** [top by] counts: one row per distinct key with exactly the number of its rows
    and the values of its first, most frequent first, cut to the number asked for;
    refused exactly when there are more keys than the ceiling. The output name of
    the count is no field of the key. *)
Theorem top_exact by_ n maxKeys rows :
  s_hits ∉ by_ → len rows ≤ MaxInt64 →
  if tooManyKeys maxKeys (len (keys_of by_ rows)) then top_apply by_ n maxKeys rows = None
  else ∃ kvs, top_apply by_ n maxKeys rows = Some (cut n (top_row by_ <$> kvs)) ∧ kvs ≡ₚ counted by_ rows <$> keys_of by_ rows ∧
    StronglySorted (λ a b : bytes * (Z * list bytes), b.2.1 ≤ a.2.1) kvs.
Proof.
  intros Hhits Hlen. pose proof (top_loop_exact by_ maxKeys rows ∅ []) as H. cbn zeta in H. cbn [app] in H.
  fold (keys_of by_ rows) in H. unfold top_apply.
  assert (∀ k, is_Some ((∅ : gmap bytes (Z * list bytes)) !! k) ↔ k ∈ []) as Hd.
  { intros k. rewrite lookup_empty, elem_of_nil. split; [by intros [? ?]|done]. }
  assert (tooManyKeys maxKeys (len (@nil bytes)) = false) as H0. { unfold tooManyKeys. rewrite andb_false_iff, !bool_decide_eq_false. len_lia. }
  specialize (H Hd ltac:(by rewrite map_size_empty) H0). destruct (tooManyKeys _ _); [by rewrite H|]. destruct H as (cnt & -> & Hc & Hdom).
  assert (range_map cnt ≡ₚ counted by_ rows <$> keys_of by_ rows) as Hp.
  { rewrite range_perm. apply NoDup_Permutation; [apply NoDup_map_to_list| |].
    - apply NoDup_fmap_2_strong; [|apply distinct_NoDup]. intros a b _ _ E. by injection E.
    - intros [k nv]. rewrite elem_of_map_to_list, list_elem_of_fmap, Hc, lookup_empty. unfold count_after. split.
      + intros E. exists k. unfold counted. destruct (rows_with by_ k rows) as [|r l] eqn:Er; [done|]. injection E as <-. split; [done|].
        apply Hdom. rewrite Hc, lookup_empty. unfold count_after. rewrite Er. by eexists.
      + intros (k' & E & Hk). injection E as -> ->. destruct (keys_of_in _ _ _ Hk) as (r & l & Er). by rewrite Er. }
  exists (stable_sort (λ a b, top_less by_ (top_row by_ a) (top_row by_ b)) (range_map cnt)). split_and!.
  - cbn. by rewrite sort_fmap.
  - by rewrite stable_sort_perm.
  - assert (Forall (λ kv : bytes * (Z * list bytes), 0 ≤ kv.2.1 ≤ MaxInt64) (range_map cnt)) as Hb.
    { rewrite Hp. apply Forall_fmap, Forall_forall. intros k _. cbn. unfold rows_with.
      pose proof (List.filter_length_le (λ r, str_eqb (rowKey r by_) k) rows). unfold len in *. lia. }
    set (h := λ kv : bytes * (Z * list bytes), Atoi_value (Itoa kv.2.1)).
    assert (∀ a b, top_less by_ (top_row by_ a) (top_row by_ b) = if bool_decide (h a = h b) then values_less by_ (top_row by_ a) (top_row by_ b)
      else bool_decide (h b < h a)) as Hless by (intros a b; unfold top_less; by rewrite !top_row_hits).
    pose proof (sort_decides (λ a b, top_less by_ (top_row by_ a) (top_row by_ b)) (λ a b, h b ≤ h a) (range_map cnt)) as Hs.
    rewrite <- (stable_sort_perm (λ a b, top_less by_ (top_row by_ a) (top_row by_ b)) (range_map cnt)) in Hb.
    revert Hs Hb. generalize (stable_sort (λ a b, top_less by_ (top_row by_ a) (top_row by_ b)) (range_map cnt)). intros s Hs Hb.
    assert (StronglySorted (λ a b, h b ≤ h a) s) as Hss.
    { apply Hs; [intros a b|intros a b|intros a b c; lia]; rewrite Hless; case_bool_decide; rewrite ?bool_decide_eq_true, ?bool_decide_eq_false; lia. }
    clear -Hss Hb. induction Hss as [|x s Hss IH Hx]; [constructor|]. inversion Hb as [|? ? Hbx Hbs]; subst. constructor; [by apply IH|].
    rewrite Forall_forall in *. intros y Hy. specialize (Hx y Hy). specialize (Hbs y Hy). unfold h in Hx. by rewrite !Atoi_Itoa in Hx.
Qed.
End grouping.
