(* ===== verification/LogsQL.v ===== *)
(** * The query language

    [internal/query/logsql.go] and the expressions of [math.go]: the lexer, and the
    recursive descent from the words of a query to its filter tree and its pipes.
    A parser takes the tokens that are left, as the code's position does, and
    returns what it read with the rest, or an error. *)

From Stdlib Require Import Ascii String SpecFloat.
From S2P Require Import Prelude Digits GoLib Writer Filter Engine TimeFilter Text Rows StatsPipe Pipes.
From stdpp Require Import list.
Local Open Scope Z_scope.

(** ** Definitions *)

(** [strings.EqualFold]. *)
Class GoFold := { EqualFold : bytes → bytes → bool }.

(** *** Tokens *)

Inductive tkind :=
| tEOF | tIdent | tString | tColon | tOp | tLParen | tRParen | tComma | tPipe | tAnd | tOr | tNot | tLBrace | tRBrace | tTimeVal.
#[export] Instance tkind_eq_dec : EqDecision tkind.
Proof. solve_decision. Defined.
Record token := Tok { t_val : bytes; t_kind : tkind }.
Definition eof : token := Tok [] tEOF.

(** Space, tab, line feed, carriage return. *)
Definition lex_space (c : Z) : bool := bool_decide (c = 32 ∨ c = 9 ∨ c = 10 ∨ c = 13).
Definition lexSpecial (c : Z) : bool := lex_space c || bool_decide (c ∈ [40; 41; 44; 58; 61; 126; 62; 60; 34; 124; 123; 125; 33]).

(** After the opening quote: the string, and what follows the closing one. *)
Fixpoint lex_string (s : bytes) : option (bytes * bytes) :=
  match s with
  | [] => None
  | c :: s' =>
      if bool_decide (c = 34) then Some ([], s') else
      match s' with
      | d :: s'' => if bool_decide (c = 92) then (λ x, (d :: x.1, x.2)) <$> lex_string s'' else (λ x, (c :: x.1, x.2)) <$> lex_string s'
      | [] => None
      end
  end.
(** The value of a [_time] filter: up to a space or a bar outside brackets. *)
Fixpoint lex_time (depth : Z) (s : bytes) : bytes * bytes :=
  match s with
  | [] => ([], [])
  | c :: s' =>
      let go d := let x := lex_time d s' in (c :: x.1, x.2) in
      if bool_decide (c = 91 ∨ c = 40) then go (depth + 1)
      else if bool_decide (c = 93 ∨ c = 41) then go (depth - 1)
      else if bool_decide (depth ≤ 0) && (lex_space c || bool_decide (c = 124 ∨ c = 41)) then ([], s)
      else go depth
  end.

Section lexer.
Context {T : GoText}.

Definition lex_word (w : bytes) : token :=
  let l := ToLower w in
  Tok w (if str_eqb l (lit "and") then tAnd else if str_eqb l (lit "or") then tOr else if str_eqb l (lit "not") then tNot else tIdent).
(** One turn of the loop of [lexLogsQL] at a byte: the tokens it emits and what it
    leaves; [None]: a string that does not end. *)
Definition lex_one (c : Z) (s' : bytes) : option (list token * bytes) :=
  let one v k := Some ([Tok v k], s') in
  if lex_space c then Some ([], s')
  else if bool_decide (c = 40) then one [40] tLParen
  else if bool_decide (c = 41) then one [41] tRParen
  else if bool_decide (c = 44) then one [44] tComma
  else if bool_decide (c = 124) then one [124] tPipe
  else if bool_decide (c = 58) then one [58] tColon
  else if bool_decide (c = 123) then one [123] tLBrace
  else if bool_decide (c = 125) then one [125] tRBrace
  else if bool_decide (c = 61) then
    match s' with 126 :: s'' => Some ([Tok [61; 126] tOp], s'') | _ => one [61] tOp end
  else if bool_decide (c = 126) then one [126] tOp
  else if bool_decide (c = 33) then
    match s' with
    | 61 :: s'' => Some ([Tok [33; 61] tOp], s'')
    | 126 :: s'' => Some ([Tok [33; 126] tOp], s'')
    | _ => one [33] tNot
    end
  else if bool_decide (c = 62 ∨ c = 60) then
    match s' with 61 :: s'' => Some ([Tok [c; 61] tOp], s'') | _ => one [c] tOp end
  else if bool_decide (c = 34) then (λ x, ([Tok x.1 tString], x.2)) <$> lex_string s'
  else
    let '(w, rest) := span (λ d, negb (lexSpecial d)) (c :: s') in
    match (if str_eqb w s_time then rest else []) with
    | 58 :: rest' => let x := lex_time 0 rest' in Some ([Tok w tIdent; Tok [58] tColon; Tok x.1 tTimeVal], x.2)
    | _ => Some ([lex_word w], rest)
    end.
(** Every turn takes a byte, so a query's length is fuel enough. *)
Fixpoint lex_loop (fuel : nat) (s : bytes) : option (list token) :=
  match fuel, s with
  | _, [] | O, _ => Some [eof]
  | S fuel, c :: s' => x ← lex_one c s'; app x.1 <$> lex_loop fuel x.2
  end.
Definition lexLogsQL (s : bytes) : option (list token) := lex_loop (length s) s.
End lexer.

(** *** Parsers *)

Inductive mathErr := math_end | math_close | math_unexpected (s : bytes).
Inductive lqlErr :=
| unterminated_string | unexpected_token (v : bytes) | expected_close | selector_label (v : bytes) | selector_operator (label v : bytes)
| bad_operator (v : bytes) | expected_selector_end | invalid_regex (v : bytes) | expected_value (v : bytes) | subquery_open | subquery_close
| want_number (what v : bytes) | bad_list_value (name v : bytes) | expected_close_in (name : bytes) | bad_ipv4 (lo hi : bytes)
| time_error (e : timeErr) | pipe_name (v : bytes) | unknown_pipe (v : bytes) | pipe_expects (name v : bytes) | pipe_open (name : bytes)
| pipe_close (name : bytes) | math_empty | math_error (e : mathErr) | bad_field (v : bytes) | expected_group | rename_field (v : bytes)
| rename_as (v : bytes) | rename_name (v : bytes) | expected_number (v : bytes) | expected_aggregate (v : bytes) | aggregate_open (v : bytes)
| unknown_aggregate (v : bytes) | percentile (v : bytes) | row_fields (v : bytes) | if_open | if_close | expected_alias | unroll_field
| trailing (v : bytes).

(** What a parser on a stream makes of it; [Fuel]: the fuel of the recursion ran
    out, which the theorems exclude. *)
Inductive parsed (E S A : Type) := Done (a : A) (rest : S) | Err (e : E) | Fuel.
Arguments Done {E S A}.
Arguments Err {E S A}.
Arguments Fuel {E S A}.
Definition parser (E S A : Type) : Type := S → parsed E S A.
#[export] Instance parser_ret E S : MRet (parser E S) := λ A a s, Done a s.
#[export] Instance parser_bind E S : MBind (parser E S) :=
  λ A B f p s, match p s with Done a s' => f a s' | Err e => Err e | Fuel => Fuel end.
Definition fail {E S A} (e : E) : parser E S A := λ _, Err e.
(** A loop: [inl] goes on with a new state, [inr] ends. *)
Fixpoint repeat_p {E S A B} (step : A → parser E S (A + B)) (fuel : nat) (a : A) : parser E S B :=
  match fuel with
  | O => λ _, Fuel
  | S fuel => x ← step a; match x with inl a' => repeat_p step fuel a' | inr b => mret b end
  end.
(** Every turn of a loop that goes on takes an element of the stream. *)
Definition loop {E X A B} (step : A → parser E (list X) (A + B)) (a : A) : parser E (list X) B := λ ts, repeat_p step (S (length ts)) a ts.

(** *** Expressions of [math] *)

Section math.
Context {T : GoText}.

Definition math_ws (s : bytes) : bytes := (span (λ c, bool_decide (c = 32 ∨ c = 9)) s).2.
Definition math_op (ops : list Z) : parser mathErr bytes (option Z) := λ s,
  let s := math_ws s in
  match s with c :: s' => if bool_decide (c ∈ ops) then Done (Some c) s' else Done None s | [] => Done None s end.
(** A left-associative chain of [arg]s, for [expr] and [term]. *)
Definition math_chain (ops : list Z) (arg : parser mathErr bytes mathNode) : parser mathErr bytes mathNode :=
  n ← arg;
  loop (λ n, op ← math_op ops; match op with Some op => r ← arg; mret (inl (mathBin op n r)) | None => mret (inr n) end) n.
Definition math_expr (factor : parser mathErr bytes mathNode) : parser mathErr bytes mathNode := math_chain [43; 45] (math_chain [42; 47] factor).
Definition math_stop (c : Z) : bool := bool_decide (c ∈ [32; 9; 43; 45; 42; 47; 40; 41]).
Fixpoint math_factor (fuel : nat) (s : bytes) : parsed mathErr bytes mathNode :=
  match fuel with
  | O => Fuel
  | S fuel =>
      let s := math_ws s in
      match s with
      | [] => Err math_end
      | c :: s' =>
          if bool_decide (c = 40) then
            match math_expr (math_factor fuel) s' with
            | Done n s'' => match math_ws s'' with 41 :: s'' => Done n s'' | _ => Err math_close end
            | x => x
            end
          else if bool_decide (c = 45) then
            match math_factor fuel s' with Done n s'' => Done (mathBin 45 (mathNum fzero) n) s'' | x => x end
          else
            let '(tok, rest) := span (λ d, negb (math_stop d)) s in
            if bool_decide (tok = []) then Err (math_unexpected [c])
            else Done (match ParseFloat tok with Some f => mathNum f | None => mathVar tok end) rest
      end
  end.
Definition parseMath (s : bytes) : parsed mathErr bytes (mathNode * list bytes) :=
  match math_expr (math_factor (S (length s))) s with
  | Done n s' => match math_ws s' with [] => Done (n, mathVars n) [] | s'' => Err (math_unexpected s'') end
  | Err e => Err e
  | Fuel => Fuel
  end.
End math.

(** *** What a query parses to *)

(** The filter tree and the pipes as parsed: a subquery keeps its own tree and
    pipes. [QPlain] is a pipe that holds neither; the [a_If] of an aggregate of
    [QStats] is beside it. *)
#[local] Set Warnings "-register-all".
Inductive qexpr :=
| QLeaf (p : Pred)
| QIn (field : bytes) (sub : qexpr) (pipes : list qpipe)
| QAnd (kids : list qexpr)
| QOr (kids : list qexpr)
| QNot (child : qexpr)
with qpipe :=
| QPlain (p : Pipe)
| QStats (by_ : list bytes) (aggs : list (Agg * option qexpr))
| QFilter (e : qexpr)
| QJoin (by_ : list bytes) (prefix : bytes) (sub : qexpr) (pipes : list qpipe)
| QUnion (sub : qexpr) (pipes : list qpipe).

(** The predicates the parser builds. *)
Definition val_pred (field : bytes) (k : PredKind) (v : bytes) : Pred := MkPred field [] v [] [] fzero fzero 0 0 false false false k.
Definition vals_pred (field : bytes) (k : PredKind) (vs : list bytes) : Pred := MkPred field [] [] [] vs fzero fzero 0 0 false false false k.
Definition nums_pred (field : bytes) (k : PredKind) (lo hi : spec_float) (open : bool) : Pred :=
  MkPred field [] [] [] [] lo hi 0 0 open open false k.
Definition strs_pred (field : bytes) (k : PredKind) (lo hi : bytes) : Pred := MkPred field [] lo hi [] fzero fzero 0 0 false false false k.
Definition field_pred (field : bytes) (k : PredKind) (f2 : bytes) : Pred := MkPred field f2 [] [] [] fzero fzero 0 0 false false false k.

(** *** The parser of a filter *)

Definition P (A : Type) : Type := parser lqlErr (list token) A.
#[export] Instance P_ret : MRet P := parser_ret lqlErr (list token).
#[export] Instance P_bind : MBind P := parser_bind lqlErr (list token).
Definition peek_tok (ts : list token) : token := default eof (head ts).
(** [next] stays on the last token. *)
Definition next : P token := λ ts, match ts with [] => Done eof [] | [t] => Done t [t] | t :: ts' => Done t ts' end.
(** A test of the next token, which stays. *)
Definition branch {A} (test : token → bool) (p q : P A) : P A := λ ts, if test (peek_tok ts) then p ts else q ts.
Definition kind_is (k : tkind) (t : token) : bool := bool_decide (t_kind t = k).
Definition is_word_tok (t : token) : bool := bool_decide (t_kind t = tIdent ∨ t_kind t = tString).
Definition expect (k : tkind) (e : lqlErr) : P unit := branch (kind_is k) (_ ← next; mret tt) (fail e).
Definition skip_comma : P unit := branch (kind_is tComma) (_ ← next; mret tt) (mret tt).
(** [value], and the same test with another message. *)
Definition word (err : bytes → lqlErr) : P bytes := t ← next; if is_word_tok t then mret (t_val t) else fail (err (t_val t)).
Definition value : P bytes := word expected_value.
Definition startsTerm (k : tkind) : bool := bool_decide (k ∈ [tIdent; tString; tNot; tLParen]).
(** Whether what is between the parentheses of [in(] is a subquery: a colon or a bar
    before the first closing one. *)
Fixpoint in_scan (ts : list token) : bool :=
  match ts with
  | [] => false
  | t :: ts' =>
      if bool_decide (t_kind t = tRParen ∨ t_kind t = tEOF) then false
      else if bool_decide (t_kind t = tColon ∨ t_kind t = tPipe) then true else in_scan ts'
  end.

Section parser.
Context {T : GoText} {D : GoTime} {F : GoFold}.

(** The keyword [kw] as the next token. *)
Definition is_kw (kw : string) (t : token) : bool := kind_is tIdent t && EqualFold (t_val t) (lit kw).
Definition float_arg (what : bytes) : P spec_float :=
  t ← next; match ParseFloat (t_val t) with Some f => mret f | None => fail (want_number what (t_val t)) end.
Definition intArg : P Z := t ← next; match Atoi (t_val t) with Some n => mret n | None => fail (expected_number (t_val t)) end.
(** Words up to a closing parenthesis: the lists of [in], [seq] and of fields. *)
Definition word_list (err : bytes → lqlErr) : P (list bytes) :=
  loop (λ vs, branch (λ t, kind_is tRParen t || kind_is tEOF t) (mret (inr vs)) (v ← word err; _ ← skip_comma; mret (inl (vs ++ [v])))) [].
Definition parenValueList (name : string) : P (list bytes) :=
  _ ← next; _ ← next;
  vs ← word_list (bad_list_value (lit name)); _ ← expect tRParen (expected_close_in (lit name)); mret vs.
Definition twoNumArgs (name : string) : P (spec_float * spec_float) :=
  _ ← next; _ ← next;
  lo ← float_arg (lit name); _ ← skip_comma; hi ← float_arg (lit name);
  _ ← expect tRParen (expected_close_in (lit name)); mret (lo, hi).
Definition twoStrArgs (name : string) : P (bytes * bytes) :=
  _ ← next; _ ← next;
  lo ← value; _ ← skip_comma; hi ← value; _ ← expect tRParen (expected_close_in (lit name)); mret (lo, hi).
Definition fieldCmpKind (name : bytes) : option PredKind :=
  let n := ToLower name in
  if str_eqb n (lit "eq_field") then Some KEqField else if str_eqb n (lit "ne_field") then Some KNeField
  else if str_eqb n (lit "lt_field") then Some KLtField else if str_eqb n (lit "le_field") then Some KLeField
  else if str_eqb n (lit "gt_field") then Some KGtField else if str_eqb n (lit "ge_field") then Some KGeField else None.
(** The characters of a pattern. *)
Definition has_meta (v : bytes) : bool := existsb (λ c, bool_decide (c ∈ [46; 42; 43; 63; 40; 41; 91; 93; 123; 125; 124; 94; 36; 92])) v.
(** [strings.Trim(v, "*")]. *)
Definition trim_stars (v : bytes) : bytes :=
  let v := (span (λ c, bool_decide (c = 42)) v).2 in rev (span (λ c, bool_decide (c = 42)) (rev v)).2.

(** [field:<op> value] for the operator tokens. *)
Definition op_kind (op : bytes) : PredKind :=
  if bool_decide (op = [62]) then KGt else if bool_decide (op = [62; 61]) then KGe
  else if bool_decide (op = [60]) then KLt else if bool_decide (op = [60; 61]) then KLe else KEq.
Definition regexp_leaf (field : bytes) : P qexpr :=
  v ← value;
  if has_meta v then match regexp_Compile v with Some _ => mret (QLeaf (val_pred field KRegexp v)) | None => fail (invalid_regex v) end
  else mret (QLeaf (val_pred field KContains v)).
Definition op_matcher (field : bytes) : P qexpr :=
  t ← next;
  if bool_decide (t_val t = [61]) then v ← value; mret (QLeaf (val_pred field KEq v))
  else if bool_decide (t_val t = [126]) then regexp_leaf field
  else
    f ← float_arg (field ++ t_val t); mret (QLeaf (nums_pred field (op_kind (t_val t)) f fzero false)).
Definition stream_id_matcher : P qexpr :=
  _ ← branch (λ t, kind_is tOp t && bool_decide (t_val t = [61])) (_ ← next; mret tt) (mret tt);
  v ← value; mret (QLeaf (val_pred s_stream KStreamIDEq v)).
Definition time_matcher : P qexpr :=
  t ← next;
  match parseTimeExpr (t_val t) with Some (inr p) => mret (QLeaf p) | Some (inl e) => fail (time_error e) | None => λ _, Fuel end.
Definition iphrase_matcher (field : bytes) : P qexpr :=
  _ ← next; _ ← next; v ← value; _ ← expect tRParen (expected_close_in (lit "i")); mret (QLeaf (val_pred field KIContains v)).
Definition ipv4_matcher (field : bytes) : P qexpr :=
  x ← twoStrArgs "ipv4_range";
  match ipToU32 x.1, ipToU32 x.2 with
  | Some lo, Some hi => mret (QLeaf (nums_pred field KIPv4Range (float_of_int lo) (float_of_int hi) false))
  | _, _ => fail (bad_ipv4 x.1 x.2)
  end.
Definition field_matcher (field name : bytes) (k : PredKind) : P qexpr :=
  _ ← next; _ ← next; f2 ← value; _ ← expect tRParen (expected_close_in name); mret (QLeaf (field_pred field k f2)).
Definition plain_matcher (field : bytes) : P qexpr :=
  v ← value;
  mret (QLeaf (if bool_decide (head v = Some 42) then val_pred field KContains (trim_stars v)
               else if bool_decide (last v = Some 42) then val_pred field KPrefix (take (length v - 1) v)
               else val_pred field KEq v)).

Section recursive.
(** [parseOr] and [parsePipes] on what a parenthesis holds. *)
Context (parseOr : P qexpr) (parsePipes : P (list qpipe)).

Definition parseSubqueryParen : P (qexpr * list qpipe) :=
  _ ← expect tLParen subquery_open;
  e ← parseOr; ps ← parsePipes; _ ← expect tRParen subquery_close; mret (e, ps).
Definition in_matcher (field : bytes) : P qexpr := λ ts,
  if in_scan (drop 2 ts) then (_ ← next; x ← parseSubqueryParen; mret (QIn field x.1 x.2)) ts
  else (vs ← parenValueList "in"; mret (QLeaf (vals_pred field KIn vs))) ts.
Definition parseMatcher (field : bytes) : P qexpr := λ ts,
  let t := peek_tok ts in
  let call name := is_kw name t && kind_is tLParen (peek_tok (tail ts)) in
  (if kind_is tTimeVal t then time_matcher
   else if str_eqb field s_stream_id then stream_id_matcher
   else if kind_is tOp t then op_matcher field
   else if call "in"%string then in_matcher field
   else if call "range"%string then x ← twoNumArgs "range"; mret (QLeaf (nums_pred field KRangeNum x.1 x.2 true))
   else if call "len_range"%string then x ← twoNumArgs "len_range"; mret (QLeaf (nums_pred field KLenRange x.1 x.2 false))
   else if call "string_range"%string then x ← twoStrArgs "string_range"; mret (QLeaf (strs_pred field KStringRange x.1 x.2))
   else if call "i"%string then iphrase_matcher field
   else if call "seq"%string then vs ← parenValueList "seq"; mret (QLeaf (vals_pred field KSeq vs))
   else if call "ipv4_range"%string then ipv4_matcher field
   else match (if kind_is tIdent t && kind_is tLParen (peek_tok (tail ts)) then fieldCmpKind (t_val t) else None) with
        | Some k => field_matcher field (t_val t) k
        | None => plain_matcher field
        end) ts.

(** One label of a stream selector. *)
Definition selector_leaf (label op v : bytes) : lqlErr + qexpr :=
  let compiled k := match regexp_Compile v with Some _ => inr (k (QLeaf (val_pred label KRegexp v))) | None => inl (invalid_regex v) end in
  if bool_decide (op = [61]) then inr (QLeaf (val_pred label KEq v))
  else if bool_decide (op = [61; 126]) then compiled (λ l, l)
  else if bool_decide (op = [33; 61]) then inr (QNot (QLeaf (val_pred label KEq v)))
  else if bool_decide (op = [33; 126]) then compiled QNot
  else inl (bad_operator op).
Definition selector_label_op : P (bytes * bytes) :=
  label ← word selector_label;
  op ← next;
  if kind_is tOp op then mret (label, t_val op) else fail (selector_operator label (t_val op)).
Definition one_or {A} (many : list A → A) (l : list A) : A := match l with [x] => x | _ => many l end.
Definition parseStreamSelector : P qexpr :=
  _ ← next;
  kids ← loop (λ kids, branch (λ t, kind_is tRBrace t || kind_is tEOF t) (mret (inr kids))
    (x ← selector_label_op; v ← value;
     match selector_leaf x.1 x.2 v with inl e => fail e | inr leaf => _ ← skip_comma; mret (inl (kids ++ [leaf])) end)) [];
  _ ← expect tRBrace expected_selector_end;
  mret (one_or QAnd kids).

Definition parseTerm : P qexpr :=
  t ← next;
  if negb (is_word_tok t) then fail (unexpected_token (t_val t)) else
  branch (kind_is tColon)
    (_ ← next;
     branch (λ b, EqualFold (t_val t) s_stream && kind_is tLBrace b) parseStreamSelector (parseMatcher (t_val t)))
    (mret (if bool_decide (t_val t = [42]) then QAnd [] else QLeaf (val_pred s_msg KContains (t_val t)))).
End recursive.

(** [parseAnd] and [parseOr] over a parser of units. *)
Definition parseAnd_of (parseUnary : P qexpr) : P qexpr :=
  left ← parseUnary;
  kids ← loop (λ kids,
    _ ← branch (kind_is tAnd) (_ ← next; mret tt) (mret tt);
    branch (λ t, startsTerm (t_kind t)) (r ← parseUnary; mret (inl (kids ++ [r]))) (mret (inr kids))) [left];
  mret (one_or QAnd kids).
Definition parseOr_of (parseUnary : P qexpr) : P qexpr :=
  left ← parseAnd_of parseUnary;
  kids ← loop (λ kids, branch (kind_is tOr) (_ ← next; r ← parseAnd_of parseUnary; mret (inl (kids ++ [r]))) (mret (inr kids))) [left];
  mret (one_or QOr kids).
(** A unit over the parsers of what it nests. *)
Definition unary_of (parseUnary : P qexpr) (parsePipes : P (list qpipe)) : P qexpr :=
  branch (kind_is tNot) (_ ← next; c ← parseUnary; mret (QNot c))
    (branch (kind_is tLParen)
       (_ ← next; e ← parseOr_of parseUnary; _ ← expect tRParen expected_close; mret e)
       (parseTerm (parseOr_of parseUnary) parsePipes)).

(** *** The parser of a pipe *)

(** [kw word], where [kw] may be missing; a flag of keywords. *)
Definition opt_word (kw : string) : P (option bytes) := branch (is_kw kw) (_ ← next; v ← value; mret (Some v)) (mret None).
Definition opt_int (kw : string) : P (option Z) := branch (is_kw kw) (_ ← next; n ← intArg; mret (Some n)) (mret None).
Definition skip_kw (kw : string) : P unit := branch (is_kw kw) (_ ← next; mret tt) (mret tt).
Definition opt_prefix : P (option bytes) :=
  branch (λ t, is_kw "prefix" t || is_kw "result_prefix" t) (_ ← next; v ← value; mret (Some v)) (mret None).
Definition or_empty (v : option bytes) : bytes := default [] v.
Definition parseFieldGroup : P (list bytes) :=
  branch (kind_is tLParen)
    (_ ← next; fs ← word_list bad_field; _ ← expect tRParen expected_close; mret fs)
    (branch is_word_tok (t ← next; mret [t_val t]) (fail expected_group)).
Definition parseBareFieldList : P (list bytes) :=
  loop (λ fs, f ← word bad_field; branch (kind_is tComma) (_ ← next; mret (inl (fs ++ [f]))) (mret (inr (fs ++ [f])))) [].
(** The old names and the new ones. *)
Definition parseRename : P (list bytes * list bytes) :=
  loop (λ x : list bytes * list bytes,
    from ← word rename_field;
    as_ ← next;
    if negb (EqualFold (t_val as_) (lit "as")) then fail (rename_as (t_val as_)) else
    to ← word rename_name;
    let x := (x.1 ++ [from], x.2 ++ [to]) in
    branch (kind_is tComma) (_ ← next; mret (inl x)) (mret (inr x))) ([], []).
(** [(field)] of [len], [hash] and [json_array_len]. *)
Definition paren_field (name : bytes) : P bytes :=
  _ ← expect tLParen (pipe_open name); f ← value; _ ← expect tRParen (pipe_close name); mret f.

Definition aggKind (name : bytes) : option AggKind :=
  let n := ToLower name in
  if str_eqb n (lit "count") then Some AggCount else if str_eqb n (lit "sum") then Some AggSum
  else if str_eqb n (lit "avg") then Some AggAvg else if str_eqb n (lit "min") then Some AggMin
  else if str_eqb n (lit "max") then Some AggMax else if str_eqb n (lit "uniq") then Some AggUniq
  else if str_eqb n (lit "count_uniq") then Some AggCountUniq
  else if is_one_of n ["quantile"; "median"]%string then Some AggQuantile
  else if str_eqb n (lit "values") then Some AggValues else if str_eqb n (lit "uniq_values") then Some AggUniqValues
  else if str_eqb n (lit "sum_len") then Some AggSumLen else if str_eqb n (lit "count_empty") then Some AggCountEmpty
  else if str_eqb n (lit "row_any") then Some AggRowAny else if str_eqb n (lit "count_uniq_hash") then Some AggCountUniq
  else if str_eqb n (lit "histogram") then Some AggHistogram else if str_eqb n (lit "row_min") then Some AggRowMin
  else if str_eqb n (lit "row_max") then Some AggRowMax else if str_eqb n (lit "rate") then Some AggRate
  else if str_eqb n (lit "rate_sum") then Some AggRateSum else None.
(** 0.5. *)
Definition half : spec_float := S754_finite false 4503599627370496 (-53).
Definition agg_percentile (fn : bytes) (kind : AggKind) : P spec_float :=
  if bool_decide (kind = AggQuantile) && negb (EqualFold fn (lit "median")) then
    t ← next;
    match ParseFloat (t_val t) with Some f => _ ← skip_comma; mret f | None => fail (percentile (t_val t)) end
  else mret half.
Definition agg_field2 (fn : bytes) (kind : AggKind) : P bytes :=
  if bool_decide (kind = AggRowMin ∨ kind = AggRowMax) then branch (kind_is tComma) (_ ← next; word (λ _, row_fields fn)) (mret [])
  else mret [].
Definition agg_alias (fn field : bytes) : P bytes :=
  alias ← branch (is_kw "as") (_ ← next; word (λ _, expected_alias)) (branch (kind_is tIdent) (t ← next; mret (t_val t)) (mret []));
  mret (if bool_decide (alias = []) then (if bool_decide (field = []) then ToLower fn else ToLower fn ++ [40] ++ field ++ [41]) else alias).
(** The text of an unquoted expression: the tokens up to [as], a bar or the end. *)
Definition math_text : P bytes :=
  branch (kind_is tString) (t ← next; mret (t_val t))
    (loop (λ acc, branch (λ t, kind_is tEOF t || kind_is tPipe t || is_kw "as" t) (mret (inr acc))
       (t ← next; mret (inl ((if bool_decide (acc = []) then [] else acc ++ [32]) ++ t_val t)))) []).

Definition p_sort : P qpipe :=
  by_ ← branch (is_kw "by") (_ ← next; parseFieldGroup) (mret []);
  loop (λ x : Z * bool,
    branch (λ t, kind_is tIdent t && str_eqb (ToLower (t_val t)) (lit "desc")) (_ ← next; mret (inl (x.1, true)))
    (branch (λ t, kind_is tIdent t && str_eqb (ToLower (t_val t)) (lit "asc")) (_ ← next; mret (inl x))
    (branch (λ t, kind_is tIdent t && str_eqb (ToLower (t_val t)) (lit "limit")) (_ ← next; n ← intArg; mret (inl (n, x.2)))
    (mret (inr (QPlain (SortPipe by_ x.1 x.2))))))) (0, false).
Definition p_uniq : P qpipe :=
  _ ← skip_kw "by"; fs ← parseFieldGroup; n ← opt_int "limit"; mret (QPlain (UniqPipe fs (default 0 n))).
Definition p_top : P qpipe := n ← intArg; _ ← skip_kw "by"; fs ← parseFieldGroup; mret (QPlain (TopPipe fs n)).
Definition p_unpack_json : P qpipe := from ← opt_word "from"; prefix ← opt_prefix; mret (QPlain (UnpackJSONPipe (or_empty from) (or_empty prefix))).
Definition p_extract : P qpipe :=
  from ← opt_word "from"; pat ← word (pipe_expects (lit "extract")); from' ← opt_word "from";
  mret (QPlain (ExtractPipe (default (or_empty from) from') pat)).
Definition p_format : P qpipe := tpl ← word (pipe_expects (lit "format")); as_ ← opt_word "as"; mret (QPlain (FormatPipe tpl (or_empty as_))).
Definition p_rank : P qpipe := terms ← word (pipe_expects (lit "rank")); at_ ← opt_word "at"; mret (QPlain (RankPipe (Fields terms) (or_empty at_))).
Definition p_unpack_logfmt : P qpipe :=
  from ← opt_word "from"; prefix ← opt_prefix; mret (QPlain (UnpackLogfmtPipe (or_empty from) (or_empty prefix))).
Definition p_replace (name : bytes) : P qpipe :=
  _ ← expect tLParen (pipe_open name);
  old ← value; _ ← skip_comma; new ← value;
  _ ← expect tRParen (pipe_close name);
  at_ ← opt_word "at"; mret (QPlain (ReplacePipe (or_empty at_) old new (EqualFold name (lit "replace_regexp")))).
Definition p_len (name : bytes) : P qpipe :=
  f ← paren_field name;
  as_ ← opt_word "as";
  mret (QPlain (if EqualFold name (lit "hash") then HashPipe f (default s_hash as_) else LenPipe f (default s_len as_))).
Definition p_collapse (name : bytes) : P qpipe :=
  at_ ← opt_word "at"; mret (QPlain (CollapseNumsPipe (or_empty at_) (EqualFold name (lit "pattern")))).
(** The default name is ["math"]. *)
Definition p_math : P qpipe :=
  expr ← math_text;
  if bool_decide (expr = []) then fail math_empty else
  match parseMath expr with
  | Err e => fail (math_error e)
  | Fuel => λ _, Fuel
  | Done x _ => as_ ← opt_word "as"; mret (QPlain (MathPipe (default (lit "math") as_) x.1 x.2))
  end.
Definition p_extract_regexp : P qpipe :=
  from ← opt_word "from"; pat ← word (pipe_expects (lit "extract_regexp")); from' ← opt_word "from";
  match regexp_Compile pat with
  | Some _ => mret (QPlain (ExtractRegexpPipe (default (or_empty from) from') pat))
  | None => fail (invalid_regex pat)
  end.
Definition p_decolorize : P qpipe :=
  _ ← skip_kw "at"; branch is_word_tok (t ← next; mret (QPlain (DecolorizePipe (t_val t)))) (mret (QPlain (DecolorizePipe []))).
Definition p_pack (name : bytes) : P qpipe :=
  fs ← branch (is_kw "fields") (_ ← next; parseFieldGroup) (mret []);
  as_ ← opt_word "as"; mret (QPlain (PackPipe fs (or_empty as_) (EqualFold name (lit "pack_logfmt")))).
Definition p_first (name : bytes) : P qpipe :=
  n ← intArg; _ ← skip_kw "by"; fs ← parseFieldGroup; mret (QPlain (SortPipe fs n (EqualFold name (lit "last")))).
Definition p_unroll : P qpipe :=
  _ ← skip_kw "by"; fs ← parseFieldGroup; match fs with [] => fail unroll_field | f :: _ => mret (QPlain (UnrollPipe f)) end.
Definition p_stream_context : P qpipe :=
  loop (λ x : Z * Z,
    branch (is_kw "before") (_ ← next; n ← intArg; mret (inl (n, x.2)))
    (branch (is_kw "after") (_ ← next; n ← intArg; mret (inl (x.1, n)))
    (mret (inr (QPlain (StreamContextPipe x.1 x.2)))))) (0, 0).
Definition p_field_values : P qpipe := f ← value; n ← opt_int "limit"; mret (QPlain (FieldValuesPipe f (default 0 n))).
Definition isNumber (s : bytes) : bool := negb (bool_decide (s = [])) && forallb (λ c, bool_decide (48 ≤ c ≤ 57)) s.
Definition p_facets : P qpipe :=
  branch (λ t, kind_is tIdent t && isNumber (t_val t)) (n ← intArg; mret (QPlain (FacetsPipe n))) (mret (QPlain (FacetsPipe 0))).
Definition p_json_array_len (name : bytes) : P qpipe :=
  f ← paren_field name; as_ ← opt_word "as"; mret (QPlain (JSONArrayLenPipe f (default s_json_array_len as_))).
Definition p_unpack_words : P qpipe :=
  from ← opt_word "from"; as_ ← opt_word "as"; mret (QPlain (UnpackWordsPipe (or_empty from) (or_empty as_))).

Section pipes.
Context (parseOr : P qexpr) (parsePipes : P (list qpipe)).

Definition agg_if : P (option qexpr) :=
  branch (is_kw "if") (_ ← next; _ ← expect tLParen if_open; e ← parseOr; _ ← expect tRParen if_close; mret (Some e)) (mret None).
Definition parseAgg : P (Agg * option qexpr) :=
  t ← next;
  if negb (kind_is tIdent t) then fail (expected_aggregate (t_val t)) else
  let fn := t_val t in
  _ ← expect tLParen (aggregate_open fn);
  match aggKind fn with
  | None => fail (unknown_aggregate fn)
  | Some kind =>
      pct ← agg_percentile fn kind;
      field ← branch is_word_tok (t ← next; mret (t_val t)) (mret []);
      field2 ← agg_field2 fn kind;
      _ ← expect tRParen (expected_close_in fn);
      cond ← agg_if;
      alias ← agg_alias fn field;
      mret (MkAgg field field2 alias None pct kind, cond)
  end.
Definition p_stats : P qpipe :=
  by_ ← branch (is_kw "by") (_ ← next; parseFieldGroup) (mret []);
  loop (λ aggs, a ← parseAgg; branch (kind_is tComma) (_ ← next; mret (inl (aggs ++ [a]))) (mret (inr (QStats by_ (aggs ++ [a]))))) [].
Definition p_join : P qpipe :=
  _ ← skip_kw "by"; fs ← parseFieldGroup; x ← parseSubqueryParen parseOr parsePipes; prefix ← opt_word "prefix";
  mret (QJoin fs (or_empty prefix) x.1 x.2).
Definition p_union : P qpipe := x ← parseSubqueryParen parseOr parsePipes; mret (QUnion x.1 x.2).
(** The dispatch on the lower-cased name. *)
Definition parsePipe (name : bytes) : P qpipe :=
  let n := ToLower name in
  let named l := is_one_of n l in
  if named ["stats"]%string then p_stats
  else if named ["sort"; "order"]%string then p_sort
  else if named ["limit"; "head"]%string then n ← intArg; mret (QPlain (LimitPipe n))
  else if named ["fields"; "keep"]%string then fs ← parseBareFieldList; mret (QPlain (FieldsPipe fs))
  else if named ["uniq"]%string then p_uniq
  else if named ["top"]%string then p_top
  else if named ["tail"]%string then n ← intArg; mret (QPlain (TailPipe n))
  else if named ["offset"; "skip"]%string then n ← intArg; mret (QPlain (OffsetPipe n))
  else if named ["rename"; "mv"]%string then x ← parseRename; mret (QPlain (RenamePipe x.1 x.2))
  else if named ["delete"; "drop"; "del"; "rm"]%string then fs ← parseBareFieldList; mret (QPlain (DeletePipe fs))
  else if named ["filter"; "where"]%string then e ← parseOr; mret (QFilter e)
  else if named ["unpack_json"]%string then p_unpack_json
  else if named ["extract"]%string then p_extract
  else if named ["format"]%string then p_format
  else if named ["rank"]%string then p_rank
  else if named ["unpack_logfmt"]%string then p_unpack_logfmt
  else if named ["replace"; "replace_regexp"]%string then p_replace name
  else if named ["copy"; "cp"]%string then x ← parseRename; mret (QPlain (CopyPipe x.1 x.2))
  else if named ["len"; "hash"]%string then p_len name
  else if named ["drop_empty_fields"]%string then mret (QPlain DropEmptyPipe)
  else if named ["collapse_nums"; "pattern"]%string then p_collapse name
  else if named ["math"; "eval"]%string then p_math
  else if named ["extract_regexp"]%string then p_extract_regexp
  else if named ["decolorize"]%string then p_decolorize
  else if named ["pack_json"; "pack_logfmt"]%string then p_pack name
  else if named ["sample"]%string then n ← intArg; mret (QPlain (SamplePipe n))
  else if named ["first"; "last"]%string then p_first name
  else if named ["unroll"]%string then p_unroll
  else if named ["join"]%string then p_join
  else if named ["union"]%string then p_union
  else if named ["stream_context"]%string then p_stream_context
  else if named ["blocks_count"]%string then mret (QPlain BlocksCountPipe)
  else if named ["block_stats"]%string then mret (QPlain BlockStatsPipe)
  else if named ["field_names"]%string then mret (QPlain FieldNamesPipe)
  else if named ["field_values"]%string then p_field_values
  else if named ["facets"]%string then p_facets
  else if named ["unpack_syslog"]%string then from ← opt_word "from"; mret (QPlain (UnpackSyslogPipe (or_empty from)))
  else if named ["json_array_len"]%string then p_json_array_len name
  else if named ["unpack_words"]%string then p_unpack_words
  else fail (unknown_pipe name).
Definition pipes_of : P (list qpipe) :=
  loop (λ ps, branch (kind_is tPipe)
    (_ ← next; name ← next;
     if kind_is tIdent name then p ← parsePipe (t_val name); mret (inl (ps ++ [p])) else fail (pipe_name (t_val name)))
    (mret (inr ps))) [].
End pipes.

(** *** The recursion *)

(** What a parenthesis nests has fewer tokens, so their number is fuel enough. *)
Fixpoint parseUnary (fuel : nat) (ts : list token) : parsed lqlErr (list token) qexpr :=
  match fuel with O => Fuel | S fuel => unary_of (λ ts, parseUnary fuel ts) (λ ts, parsePipes fuel ts) ts end
with parsePipes (fuel : nat) (ts : list token) : parsed lqlErr (list token) (list qpipe) :=
  match fuel with O => Fuel | S fuel => pipes_of (parseOr_of (λ ts, parseUnary fuel ts)) (λ ts, parsePipes fuel ts) ts end.
Definition parse_tokens (ts : list token) : parsed lqlErr (list token) (qexpr * list qpipe) :=
  (e ← parseOr_of (parseUnary (length ts));
   ps ← parsePipes (length ts);
   branch (kind_is tEOF) (mret (e, ps)) (t ← next; fail (trailing (t_val t)))) ts.
(** [flatConjunction]: the predicates of a tree of conjunctions, unless one is a
    subquery, which stays in the tree here. *)
Fixpoint flatConjunction (e : qexpr) : option (list qexpr) :=
  match e with
  | QLeaf _ | QIn _ _ _ => Some [e]
  | QAnd kids => (λ l : list (list qexpr), List.concat l) <$> mapM flatConjunction kids
  | _ => None
  end.
(** [ParseLogsQL]: the predicates, the filter and the pipes. *)
Definition ParseLogsQL (s : bytes) : parsed lqlErr unit (list qexpr * option qexpr * list qpipe) :=
  let s := TrimSpace s in
  if bool_decide (s = [] ∨ s = [42]) then Done ([], None, []) tt else
  match lexLogsQL s with
  | None => Err unterminated_string
  | Some ts =>
      match parse_tokens ts with
      | Err e => Err e
      | Fuel => Fuel
      | Done (e, ps) _ =>
          Done (match e with
                | QAnd [] => ([], None, ps)
                | _ => match flatConjunction e with Some preds => (preds, None, ps) | None => ([], Some e, ps) end
                end) tt
      end
  end.
End parser.
