(* ===== verification/LogsQLOk.v ===== *)
(** * The query language is parsed

    Every text is parsed or refused with an error: the recursion has tokens enough
    ([ParseLogsQL_total]). *)

From Stdlib Require Import Ascii String SpecFloat.
From S2P Require Import Prelude Digits GoLib Writer Filter Engine TimeFilter Text Rows StatsPipe Pipes LogsQL.
From stdpp Require Import list sets.
Local Open Scope Z_scope.
Local Open Scope nat_scope.

(** ** A calculus of parsers *)

Section wp.
Context {E S : Type}.

(** [p] returns on [s], and what it reads satisfies [Q]. *)
Definition wp {A} (p : parser E S A) (s : S) (Q : A → S → Prop) : Prop :=
  match p s with Done a r => Q a r | Err _ => True | Fuel => False end.
Lemma wp_mono {A} (p : parser E S A) s (Q Q' : A → S → Prop) : wp p s Q → (∀ a r, Q a r → Q' a r) → wp p s Q'.
Proof. unfold wp. destruct (p s); auto. Qed.
Lemma wp_bind {A B} (p : parser E S A) (f : A → parser E S B) s Q : wp p s (λ a r, wp (f a) r Q) → wp (p ≫= f) s Q.
Proof. unfold wp, mbind, parser_bind. destruct (p s); auto. Qed.
Lemma wp_ret {A} (a : A) s Q : Q a s → wp (mret a : parser E S A) s Q.
Proof. done. Qed.
Lemma wp_fail {A} e s Q : wp (fail e : parser E S A) s Q.
Proof. exact I. Qed.
Lemma wp_repeat {A B} (step : A → parser E S (A + B)) (m : S → nat) (I : A → S → Prop) (Q : B → S → Prop) fuel a s :
  (∀ a s, I a s → wp (step a) s (λ x r, match x with inl a' => I a' r ∧ m r < m s | inr b => Q b r end)) →
  I a s → m s < fuel → wp (repeat_p step fuel a) s Q.
Proof.
  intros Hstep. revert a s. induction fuel as [|fuel IH]; intros a s Hi Hm; [lia|]. cbn [repeat_p]. apply wp_bind.
  eapply wp_mono; [by apply Hstep|]. intros [a'|b] r H; [|exact H]. destruct H as [Hi' Hlt]. apply IH; [done|lia].
Qed.
End wp.
Lemma wp_loop {E X A B} (step : A → parser E (list X) (A + B)) (I : A → list X → Prop) (Q : B → list X → Prop) a ts :
  (∀ a s, I a s → wp (step a) s (λ x r, match x with inl a' => I a' r ∧ length r < length s | inr b => Q b r end)) →
  I a ts → wp (loop step a) ts Q.
Proof. intros Hstep Hi. unfold loop. eapply (wp_repeat step length I Q); [done|done|lia]. Qed.

(** Tokens end with the end of the query. [steps p]: [p] returns and leaves a part of
    them; [takes p]: it takes one at least. Below [n]: on at most [n] tokens. *)
Definition wf (ts : list token) : Prop := last ts = Some eof.
Definition steps_below (n : nat) {A} (p : P A) : Prop := ∀ ts, wf ts → length ts ≤ n → wp p ts (λ _ r, wf r ∧ length r ≤ length ts).
Definition takes_below (n : nat) {A} (p : P A) : Prop := ∀ ts, wf ts → length ts ≤ n → wp p ts (λ _ r, wf r ∧ length r < length ts).
Definition steps {A} (p : P A) : Prop := ∀ n, steps_below n p.
Definition takes {A} (p : P A) : Prop := ∀ n, takes_below n p.

Lemma takes_steps_below n {A} (p : P A) : takes_below n p → steps_below n p.
Proof. intros H ts W L. eapply wp_mono; [by apply H|]. cbn. intros a r [? ?]. split; [done|lia]. Qed.
Lemma steps_below_le n m {A} (p : P A) : m ≤ n → steps_below n p → steps_below m p.
Proof. intros Hm H ts W L. apply H; [done|lia]. Qed.
Lemma takes_below_le n m {A} (p : P A) : m ≤ n → takes_below n p → takes_below m p.
Proof. intros Hm H ts W L. apply H; [done|lia]. Qed.

Lemma steps_ret n {A} (a : A) : steps_below n (mret a).
Proof. intros ts W L. by split. Qed.
Lemma steps_fail n {A} e : takes_below n (fail e : P A).
Proof. by intros ts W L. Qed.
Lemma steps_bind n {A B} (p : P A) (f : A → P B) : steps_below n p → (∀ a, steps_below n (f a)) → steps_below n (p ≫= f).
Proof.
  intros Hp Hf ts W L. apply wp_bind. eapply wp_mono; [by apply Hp|]. cbn. intros a r [W' L'].
  eapply wp_mono; [apply Hf; [done|lia]|]. cbn. intros b r' [? ?]. split; [done|lia].
Qed.
(** After a token there are fewer. *)
Lemma takes_bind n {A B} (p : P A) (f : A → P B) : takes_below n p → (∀ a, steps_below (n - 1) (f a)) → takes_below n (p ≫= f).
Proof.
  intros Hp Hf ts W L. apply wp_bind. eapply wp_mono; [by apply Hp|]. cbn. intros a r [W' L'].
  eapply wp_mono; [apply Hf; [done|lia]|]. cbn. intros b r' [? ?]. split; [done|lia].
Qed.
Lemma steps_takes_bind n {A B} (p : P A) (f : A → P B) : steps_below n p → (∀ a, takes_below n (f a)) → takes_below n (p ≫= f).
Proof.
  intros Hp Hf ts W L. apply wp_bind. eapply wp_mono; [by apply Hp|]. cbn. intros a r [W' L'].
  eapply wp_mono; [apply Hf; [done|lia]|]. cbn. intros b r' [? ?]. split; [done|lia].
Qed.
Lemma steps_branch n {A} test (p q : P A) : steps_below n p → steps_below n q → steps_below n (branch test p q).
Proof. intros Hp Hq ts W L. unfold wp, branch. destruct (test _); [by apply Hp|by apply Hq]. Qed.
Lemma takes_branch n {A} test (p q : P A) : takes_below n p → takes_below n q → takes_below n (branch test p q).
Proof. intros Hp Hq ts W L. unfold wp, branch. destruct (test _); [by apply Hp|by apply Hq]. Qed.
Lemma steps_if n {A} (b : bool) (p q : P A) : steps_below n p → steps_below n q → steps_below n (if b then p else q).
Proof. by destruct b. Qed.
Lemma takes_if n {A} (b : bool) (p q : P A) : takes_below n p → takes_below n q → takes_below n (if b then p else q).
Proof. by destruct b. Qed.

Lemma wf_tail t u ts : wf (t :: u :: ts) → wf (u :: ts).
Proof. done. Qed.
Lemma steps_next n : steps_below n next.
Proof. intros [|t [|u ts]] W L; unfold wp; cbn; split; try done; cbn; lia. Qed.
(** A token that is not the end is taken. *)
Lemma next_takes t ts : wf (t :: ts) → t_kind t ≠ tEOF → ∃ u ts', ts = u :: ts' ∧ wf ts.
Proof. destruct ts as [|u ts]; [|intros W _; by exists u, ts]. unfold wf. cbn. intros [= ->]. done. Qed.
Lemma takes_next_branch n {A} (test : token → bool) (k : token → P A) (q : P A) :
  (∀ t, test t = true → t_kind t ≠ tEOF) → (∀ t, steps_below (n - 1) (k t)) → takes_below n q →
  takes_below n (branch test (t ← next; k t) q).
Proof.
  intros Ht Hk Hq ts W L. unfold wp, branch. destruct ts as [|t ts]; [done|]. change (peek_tok (t :: ts)) with t.
  destruct (test t) eqn:E; [|by apply Hq]. destruct (next_takes t ts W (Ht _ E)) as (u & ts' & -> & W').
  unfold mbind, P_bind, parser_bind, next. pose proof (Hk t (u :: ts') W') as H. unfold wp in H. cbn [length] in *. specialize (H ltac:(lia)).
  destruct (k t (u :: ts')); try done. destruct H. split; [done|lia].
Qed.
Lemma steps_next_branch n {A} (test : token → bool) (k : token → P A) (q : P A) :
  (∀ t, test t = true → t_kind t ≠ tEOF) → (∀ t, steps_below (n - 1) (k t)) → steps_below n q →
  steps_below n (branch test (t ← next; k t) q).
Proof.
  intros Ht Hk Hq ts W L. pose proof (takes_next_branch n test k (λ _, Err unterminated_string) Ht Hk) as H.
  specialize (H ltac:(intros ? ? ?; exact I) ts W L). unfold wp, branch in *.
  destruct (test (peek_tok ts)) eqn:E; [|by apply Hq]. destruct ((t ← next; k t) ts); [destruct H; split; [done|lia]|done|done].
Qed.
(** A loop whose turns take a token. *)
Lemma steps_loop n {A B} (step : A → P (A + B)) a :
  (∀ a ts, wf ts → length ts ≤ n → wp (step a) ts (λ x r, wf r ∧ match x with inl _ => length r < length ts | inr _ => length r ≤ length ts end)) →
  steps_below n (loop step a).
Proof.
  intros H ts W L. eapply (wp_loop _ (λ _ r, wf r ∧ length r ≤ length ts)); [|done].
  intros a' s [W' L']. eapply wp_mono; [apply H; [done|lia]|]. cbn. intros [b|b] r [? ?]; split_and!; first [done|lia].
Qed.
(** The same from the shape of the turn: what ends the loop, and what goes on. *)
Definition turns {A B} (n : nat) (p : P (A + B)) : Prop :=
  ∀ ts, wf ts → length ts ≤ n → wp p ts (λ x r, wf r ∧ match x with inl _ => length r < length ts | inr _ => length r ≤ length ts end).
Lemma loop_turns n {A B} (step : A → P (A + B)) a : (∀ a, turns n (step a)) → steps_below n (loop step a).
Proof. intros H. apply steps_loop. intros a' ts. apply H. Qed.
Lemma turns_takes n {A B} (p : P (A + B)) : takes_below n p → turns n p.
Proof. intros H ts W L. eapply wp_mono; [by apply H|]. cbn. intros [?|?] r [? ?]; split_and!; first [done|lia]. Qed.
Lemma turns_inr n {A B} (b : B) : turns n (mret (inr b) : P (A + B)).
Proof. by intros ts W L. Qed.
Lemma turns_branch n {A B} test (p q : P (A + B)) : turns n p → turns n q → turns n (branch test p q).
Proof. intros Hp Hq ts W L. unfold wp, branch. destruct (test _); [by apply Hp|by apply Hq]. Qed.
Lemma turns_next n {A B} test (p : P (A + B)) (k : token → P (A + B)) :
  (∀ t, test t = false → t_kind t ≠ tEOF) → turns n p → (∀ t, steps_below (n - 1) (k t)) → turns n (branch test p (t ← next; k t)).
Proof.
  intros Ht Hp Hk ts W L. pose proof (takes_next_branch n (λ t, negb (test t)) k (λ _, Err unterminated_string)) as H.
  specialize (H ltac:(intros t H1%negb_true_iff; by apply Ht) Hk ltac:(intros ? ? ?; exact I) ts W L). unfold wp, branch in *.
  destruct (test (peek_tok ts)) eqn:E; [by apply Hp|]. cbn [negb] in H. destruct ((t ← next; k t) ts) as [[?|?] r| |]; try done.
  destruct H. split; [done|lia].
Qed.
Lemma turns_branch_next n {A B} test (p : P (A + B)) (k : token → P (A + B)) :
  (∀ t, test t = true → t_kind t ≠ tEOF) → (∀ t, steps_below (n - 1) (k t)) → turns n p → turns n (branch test (t ← next; k t) p).
Proof.
  intros Ht Hk Hp ts W L. pose proof (turns_next n (λ t, negb (test t)) p k ltac:(intros t H%negb_false_iff; by apply Ht) Hp Hk ts W L) as H.
  unfold wp, branch in *. by destruct (test (peek_tok ts)).
Qed.
Lemma turns_bind n {A B C} (p : P C) (f : C → P (A + B)) : steps_below n p → (∀ a, turns n (f a)) → turns n (p ≫= f).
Proof.
  intros Hp Hf ts W L. apply wp_bind. eapply wp_mono; [by apply Hp|]. cbn. intros a r [W' L'].
  eapply wp_mono; [apply Hf; [done|lia]|]. cbn. intros [?|?] r' [? ?]; split_and!; first [done|lia].
Qed.

(** ** The parts of the parser *)

Lemma kind_is_neq k t : k ≠ tEOF → kind_is k t = true → t_kind t ≠ tEOF.
Proof. intros Hk ->%bool_decide_eq_true. done. Qed.
Lemma is_word_neq t : is_word_tok t = true → t_kind t ≠ tEOF.
Proof. intros [->| ->]%bool_decide_eq_true; done. Qed.
Lemma takes_word n e : takes_below n (word e).
Proof.
  intros ts W L. unfold wp, word, mbind, P_bind, parser_bind. destruct ts as [|t ts]; [done|].
  destruct (decide (t_kind t = tEOF)) as [Ht|Ht].
  { assert (is_word_tok t = false) as Hw by (apply bool_decide_eq_false; rewrite Ht; intros [?|?]; done). destruct ts; cbn; by rewrite Hw. }
  destruct (next_takes t ts W Ht) as (u & ts' & -> & W'). cbn. destruct (is_word_tok t); cbn; [|exact I]. split; [done|lia].
Qed.
Lemma steps_expect n k e : k ≠ tEOF → takes_below n (expect k e).
Proof. intros Hk. apply takes_next_branch; [intros t; by apply kind_is_neq|intros; apply steps_ret|apply steps_fail]. Qed.
Lemma steps_skip_comma n : steps_below n skip_comma.
Proof. apply steps_next_branch; [intros t; by apply kind_is_neq|intros; apply steps_ret|apply steps_ret]. Qed.

(** Goals about the pieces of a parser. *)
Create HintDb lql.
Lemma takes_word_steps n e : steps_below n (word e).
Proof. apply takes_steps_below, takes_word. Qed.
Lemma steps_expect_steps n k e : k ≠ tEOF → steps_below n (expect k e).
Proof. intros Hk. by apply takes_steps_below, steps_expect. Qed.
Lemma steps_fuel n {A} e : steps_below n (fail e : P A).
Proof. apply takes_steps_below, steps_fail. Qed.
#[export] Hint Resolve steps_ret steps_fuel steps_next takes_word_steps steps_skip_comma : lql.
#[export] Hint Extern 1 (steps_below _ (expect _ _)) => (apply steps_expect_steps; done) : lql.
#[export] Hint Extern 2 (steps_below _ _) => (eapply steps_below_le; [|eassumption]; lia) : lql.
Ltac test_neq :=
  intros ? ?; unfold is_kw in *; rewrite ?andb_true_iff, ?orb_true_iff, ?andb_true_iff in *; destruct_and?;
  first [by eapply is_word_neq|by eapply kind_is_neq; [|eassumption]|destruct_or?; destruct_and?; by eapply kind_is_neq; [|eassumption]].
Ltac steps_go :=
  repeat match goal with
  | |- steps_below _ (branch _ (mbind _ next) _) => apply steps_next_branch; [solve [test_neq]|intros ?|]
  | |- steps_below _ (branch _ _ _) => apply steps_branch
  | |- steps_below _ (mbind _ _) => apply steps_bind; [|intros ?]
  | |- steps_below _ (match ?x with _ => _ end) => destruct x
  | |- steps_below _ (let _ := _ in _) => cbv zeta
  | |- steps_below _ _ => solve [eauto with lql]
  end.

Section parts.
Context {T : GoText} {D : GoTime} {F : GoFold} (n : nat).

Lemma steps_float_arg what : steps_below n (float_arg what).
Proof. unfold float_arg. steps_go. Qed.
Lemma steps_intArg : steps_below n intArg.
Proof. unfold intArg. steps_go. Qed.
Lemma steps_word_list e : steps_below n (word_list e).
Proof.
  apply loop_turns. intros vs. apply turns_branch; [apply turns_inr|]. apply turns_takes, takes_bind; [apply takes_word|]. intros v.
  steps_go.
Qed.
Lemma steps_opt_word kw : steps_below n (opt_word kw).
Proof. unfold opt_word, value. steps_go. Qed.
Lemma steps_skip_kw kw : steps_below n (skip_kw kw).
Proof. unfold skip_kw. steps_go. Qed.
Lemma steps_opt_prefix : steps_below n opt_prefix.
Proof. unfold opt_prefix, value. steps_go. Qed.
End parts.
#[export] Hint Resolve steps_float_arg steps_intArg steps_word_list steps_opt_word steps_skip_kw steps_opt_prefix : lql.
Section parts2.
Context {T : GoText} {D : GoTime} {F : GoFold} (n : nat).

Lemma steps_opt_int kw : steps_below n (opt_int kw).
Proof. unfold opt_int. steps_go. Qed.
Lemma steps_parenValueList name : steps_below n (parenValueList name).
Proof. unfold parenValueList. steps_go. Qed.
Lemma steps_twoNumArgs name : steps_below n (twoNumArgs name).
Proof. unfold twoNumArgs. steps_go. Qed.
Lemma steps_twoStrArgs name : steps_below n (twoStrArgs name).
Proof. unfold twoStrArgs, value. steps_go. Qed.
Lemma steps_fieldGroup : steps_below n parseFieldGroup.
Proof. unfold parseFieldGroup. steps_go. Qed.
Lemma steps_paren_field name : steps_below n (paren_field name).
Proof. unfold paren_field, value. steps_go. Qed.
Lemma steps_bareFieldList : steps_below n parseBareFieldList.
Proof. apply loop_turns. intros fs. apply turns_takes, takes_bind; [apply takes_word|]. intros f. steps_go. Qed.
Lemma steps_rename : steps_below n parseRename.
Proof. apply loop_turns. intros x. apply turns_takes, takes_bind; [apply takes_word|]. intros f. steps_go. Qed.
Lemma steps_math_text : steps_below n math_text.
Proof.
  unfold math_text. apply steps_next_branch; [test_neq|intros; steps_go|]. apply loop_turns. intros acc.
  apply turns_next; [|apply turns_inr|intros; steps_go]. intros t. rewrite !orb_false_iff. intros [[H _] _]. by apply bool_decide_eq_false in H.
Qed.
Lemma steps_agg_percentile fn k : steps_below n (agg_percentile fn k).
Proof. unfold agg_percentile. steps_go. Qed.
Lemma steps_agg_field2 fn k : steps_below n (agg_field2 fn k).
Proof. unfold agg_field2. steps_go. Qed.
Lemma steps_agg_alias fn f : steps_below n (agg_alias fn f).
Proof. unfold agg_alias. steps_go. Qed.
Lemma steps_time_matcher : steps_below n time_matcher.
Proof.
  unfold time_matcher. apply steps_bind; [apply steps_next|]. intros t. pose proof (parseTimeExpr_total (t_val t)) as Ht.
  destruct (parseTimeExpr (t_val t)) as [[e|p]|]; [steps_go|steps_go|done].
Qed.
Lemma steps_regexp_leaf f : steps_below n (regexp_leaf f).
Proof. unfold regexp_leaf, value. steps_go. Qed.
End parts2.
#[export] Hint Resolve steps_opt_int steps_parenValueList steps_twoNumArgs steps_twoStrArgs steps_fieldGroup steps_paren_field : lql.
#[export] Hint Resolve steps_bareFieldList steps_rename steps_math_text steps_agg_percentile steps_agg_field2 steps_agg_alias : lql.
#[export] Hint Resolve steps_time_matcher steps_regexp_leaf : lql.
Section matchers.
Context {T : GoText} {D : GoTime} {F : GoFold} (n : nat).

Lemma steps_op_matcher f : steps_below n (op_matcher f).
Proof. unfold op_matcher, value. steps_go. Qed.
Lemma steps_plain_matcher f : steps_below n (plain_matcher f).
Proof. unfold plain_matcher, value. steps_go. Qed.
Lemma steps_ipv4_matcher f : steps_below n (ipv4_matcher f).
Proof. unfold ipv4_matcher. steps_go. Qed.
Lemma steps_field_matcher f name k : steps_below n (field_matcher f name k).
Proof. unfold field_matcher, value. steps_go. Qed.
Lemma steps_iphrase_matcher f : steps_below n (iphrase_matcher f).
Proof. unfold iphrase_matcher, value. steps_go. Qed.
Lemma steps_stream_id_matcher : steps_below n stream_id_matcher.
Proof. unfold stream_id_matcher, value. steps_go. Qed.
Lemma steps_selector_label_op : takes_below n selector_label_op.
Proof. apply takes_bind; [apply takes_word|]. intros l. steps_go. Qed.
Lemma steps_selector : steps_below n parseStreamSelector.
Proof.
  unfold parseStreamSelector, value. apply steps_bind; [apply steps_next|]. intros _. apply steps_bind; [|intros kids; steps_go].
  apply loop_turns. intros kids. apply turns_branch; [apply turns_inr|]. apply turns_takes, takes_bind; [apply steps_selector_label_op|].
  intros x. steps_go.
Qed.

Section recursive.
Context (parseOr : P qexpr) (parsePipes : P (list qpipe)).
Hypothesis Hor : steps_below (n - 1) parseOr.
Hypothesis Hpipes : steps_below (n - 1) parsePipes.

Lemma steps_subquery : steps_below n (parseSubqueryParen parseOr parsePipes).
Proof.
  apply takes_steps_below, takes_bind; [by apply steps_expect|]. intros _. steps_go.
Qed.
(** A parser that looks at its tokens and runs one of several. *)
Lemma steps_in_matcher f : steps_below (n - 1) (in_matcher parseOr parsePipes f).
Proof.
  assert (steps_below (n - 1) (parseSubqueryParen parseOr parsePipes)) as Hs by (eapply steps_below_le; [|apply steps_subquery]; lia).
  intros ts W L. unfold in_matcher, wp.
  assert (∀ p : P qexpr, steps_below (n - 1) p → wp p ts (λ _ r, wf r ∧ length r ≤ length ts)) as H by auto. unfold wp in H.
  destruct (in_scan _); apply H; steps_go.
Qed.
Lemma steps_matcher f : steps_below (n - 1) (parseMatcher parseOr parsePipes f).
Proof.
  intros ts W L. unfold parseMatcher, wp. cbv zeta.
  assert (∀ p : P qexpr, steps_below (n - 1) p → wp p ts (λ _ r, wf r ∧ length r ≤ length ts)) as H by auto. unfold wp in H.
  repeat match goal with
  | |- match (if ?b then ?p else ?q) ts with _ => _ end => destruct b
  | |- match (match ?x with _ => _ end) ts with _ => _ end => destruct x
  end; apply H; first [apply steps_in_matcher|apply steps_below_le with n; [lia|]; first [apply steps_time_matcher|apply steps_stream_id_matcher
    |apply steps_op_matcher|apply steps_iphrase_matcher|apply steps_ipv4_matcher|apply steps_field_matcher|apply steps_plain_matcher]|steps_go].
Qed.
Lemma takes_term : takes_below n (parseTerm parseOr parsePipes).
Proof.
  intros ts W L. unfold wp, parseTerm. destruct ts as [|t ts]; [done|]. destruct (decide (t_kind t = tEOF)) as [Ht|Ht].
  { assert (is_word_tok t = false) as Hw by (apply bool_decide_eq_false; rewrite Ht; intros [?|?]; done).
    destruct ts; unfold mbind, P_bind, parser_bind, next; by rewrite Hw. }
  destruct (next_takes t ts W Ht) as (u & ts' & -> & W'). unfold mbind at 1, P_bind at 1, parser_bind at 1, next at 1.
  destruct (negb (is_word_tok t)); [exact I|]. cbn [length] in L |- *.
  match goal with |- match ?p _ with _ => _ end => assert (steps_below (n - 1) p) as H end.
  { apply steps_next_branch; [test_neq| |apply steps_ret]. intros _. apply (steps_below_le (n - 1)); [lia|].
    apply steps_branch; [apply (steps_below_le n); [lia|apply steps_selector]|apply steps_matcher]. }
  specialize (H (u :: ts') W' ltac:(cbn [length]; lia)). unfold wp in H. destruct (branch _ _ _ _); try done. destruct H. cbn [length] in *. split; [done|lia].
Qed.
End recursive.
End matchers.

Section and_or.
Context {T : GoText} {D : GoTime} {F : GoFold} (n : nat) (u : P qexpr).
Hypothesis Hu : takes_below n u.

Lemma takes_and : takes_below n (parseAnd_of u).
Proof.
  apply takes_bind; [done|]. intros left. apply steps_bind; [|intros; apply steps_ret]. apply loop_turns. intros kids.
  apply turns_bind; [steps_go|]. intros _. apply turns_branch; [|apply turns_inr]. apply turns_takes, takes_bind; [|intros; apply steps_ret].
  eapply takes_below_le; [|done]. lia.
Qed.
Lemma takes_or : takes_below n (parseOr_of u).
Proof.
  apply takes_bind; [apply takes_and|]. intros left. apply steps_bind; [|intros; apply steps_ret]. apply loop_turns. intros kids.
  apply turns_branch_next; [test_neq| |apply turns_inr]. intros _. apply steps_bind; [|intros; apply steps_ret].
  eapply takes_steps_below, takes_below_le; [|apply takes_and]. lia.
Qed.
End and_or.

(** ** Expressions *)

Section math.
Context {T : GoText}.

Lemma math_ws_length s : length (math_ws s) ≤ length s.
Proof. unfold math_ws. induction s as [|c s IH]; [done|]. cbn [span]. case_match; cbn [snd length] in *; lia. Qed.
Lemma span_rest p s : length (span p s).2 ≤ length s.
Proof. induction s as [|c s IH]; [done|]. cbn [span]. case_match; cbn [snd length] in *; lia. Qed.
(** A chain reads its arguments, of which each takes a byte. *)
Definition math_takes (n : nat) (p : parser mathErr bytes mathNode) : Prop := ∀ s, length s ≤ n → wp p s (λ _ r, length r < length s).
Lemma math_chain_takes n ops arg : math_takes n arg → math_takes n (math_chain ops arg).
Proof.
  intros Ha s L. unfold math_chain. apply wp_bind. eapply wp_mono; [by apply Ha|]. cbn. intros x r Hr.
  eapply (wp_loop _ (λ _ r', length r' < length s)); [|done]. intros y r' Hr'. apply wp_bind. unfold wp, math_op.
  pose proof (math_ws_length r') as Hw. destruct (math_ws r') as [|c r2]; [cbn in *; lia|]. cbn [length] in Hw. case_bool_decide; [|cbn in *; lia].
  assert (wp (r ← arg; mret (inl (mathBin c y r))) r2
    (λ (x : mathNode + mathNode) r3, match x with inl _ => length r3 < length s ∧ length r3 < length r' | inr _ => length r3 < length s end)) as Hb.
  { apply wp_bind. eapply wp_mono; [apply Ha; lia|]. cbn. intros z r3 ?. unfold wp. cbn. lia. }
  unfold wp in Hb. destruct ((r ← arg; _) r2) as [[?|?] ?| |]; done.
Qed.
Lemma math_factor_takes fuel : ∀ n, n < fuel → math_takes n (math_factor fuel).
Proof.
  induction fuel as [|fuel IH]; intros n Hn s L; [lia|]. unfold wp. cbn [math_factor]. pose proof (math_ws_length s) as Hw.
  destruct (math_ws s) as [|c s']; [done|]. cbn [length] in Hw.
  case_bool_decide.
  - assert (math_takes (length s') (math_expr (math_factor fuel))) as He by (apply math_chain_takes, math_chain_takes, IH; lia).
    specialize (He s' ltac:(lia)). unfold wp in He. destruct (math_expr (math_factor fuel) s') as [x r| |]; try done.
    pose proof (math_ws_length r). destruct (math_ws r) as [|d r']; [done|]. cbn [length] in *.
    assert (length r' < length s) as Hr by lia. clear -Hr. repeat case_match; try done; by simplify_eq.
  - case_bool_decide.
    + specialize (IH (length s') ltac:(lia) s' ltac:(lia)). unfold wp in IH. destruct (math_factor fuel s'); try done. lia.
    + pose proof (span_rest (λ d, negb (math_stop d)) (c :: s')) as Hs. destruct (span _ (c :: s')) as [tok rest] eqn:E. cbn [snd] in Hs.
      case_bool_decide; [done|]. cbn [span] in E. destruct (negb (math_stop c)); [|injection E as <- <-; done].
      injection E as _ <-. pose proof (span_rest (λ d, negb (math_stop d)) s'). lia.
Qed.
Lemma parseMath_total s : parseMath s ≠ Fuel.
Proof.
  unfold parseMath. pose proof (math_chain_takes (length s) [43; 45]%Z _ (math_chain_takes (length s) [42; 47]%Z _ (math_factor_takes (S (length s)) (length s) ltac:(lia)))
    s ltac:(lia)) as H. unfold wp in H. unfold math_expr. destruct (math_chain _ _ s); try done. by destruct (math_ws rest).
Qed.
End math.

(** ** Pipes *)

Section pipes.
Context {T : GoText} {D : GoTime} {F : GoFold} (n : nat).

Ltac pipe_go := unfold value; steps_go.
Lemma steps_p_sort : steps_below n p_sort.
Proof.
  unfold p_sort. apply steps_bind; [steps_go|]. intros by_. apply loop_turns. intros x.
  repeat (apply turns_branch_next; [test_neq|intros; steps_go|]). apply turns_inr.
Qed.
Lemma steps_p_stream_context : steps_below n p_stream_context.
Proof.
  apply loop_turns. intros x. repeat (apply turns_branch_next; [test_neq|intros; steps_go|]). apply turns_inr.
Qed.
Lemma steps_p_math : steps_below n p_math.
Proof.
  unfold p_math. apply steps_bind; [apply steps_math_text|]. intros e. apply steps_if; [steps_go|].
  pose proof (parseMath_total e) as H. destruct (parseMath e); [steps_go|steps_go|done].
Qed.

Context (parseOr : P qexpr) (parsePipes : P (list qpipe)).
Hypothesis Hor : steps_below (n - 1) parseOr.
Hypothesis Hpipes : steps_below (n - 1) parsePipes.

Lemma takes_agg : takes_below n (parseAgg parseOr).
Proof.
  intros ts W L. unfold wp, parseAgg. destruct ts as [|t ts]; [done|]. destruct (decide (t_kind t = tEOF)) as [Ht|Ht].
  { assert (kind_is tIdent t = false) as Hw by (apply bool_decide_eq_false; by rewrite Ht).
    destruct ts; unfold mbind, P_bind, parser_bind, next; by rewrite Hw. }
  destruct (next_takes t ts W Ht) as (v & ts' & -> & W'). unfold mbind at 1, P_bind at 1, parser_bind at 1, next at 1.
  destruct (negb (kind_is tIdent t)); [exact I|]. cbv zeta. cbn [length] in L |- *.
  match goal with |- match ?p _ with _ => _ end => assert (steps_below (n - 1) p) as H end.
  { steps_go. unfold agg_if. steps_go. }
  specialize (H (v :: ts') W' ltac:(cbn [length]; lia)). unfold wp in H.
  match goal with |- match ?p with _ => _ end => destruct p end; try done. destruct H. cbn [length] in *. split; [done|lia].
Qed.
Lemma steps_p_stats : steps_below n (p_stats parseOr).
Proof.
  unfold p_stats. apply steps_bind; [steps_go|]. intros by_. apply loop_turns. intros aggs.
  apply turns_takes, takes_bind; [apply takes_agg|]. intros a. steps_go.
Qed.
Lemma steps_p_join : steps_below n (p_join parseOr parsePipes).
Proof. unfold p_join. steps_go. apply steps_subquery; done. Qed.
Lemma steps_p_union : steps_below n (p_union parseOr parsePipes).
Proof. unfold p_union. steps_go. apply steps_subquery; done. Qed.
Lemma steps_pipe name : steps_below (n - 1) (parsePipe parseOr parsePipes name).
Proof.
  unfold parsePipe. cbv zeta.
  repeat match goal with |- steps_below _ (if ?b then _ else _) => apply steps_if end.
  all: first [apply (steps_below_le n); [lia|]; first [apply steps_p_stats|apply steps_p_sort|apply steps_p_math|apply steps_p_join|apply steps_p_union
      |apply steps_p_stream_context]|idtac].
  all: unfold p_uniq, p_top, p_unpack_json, p_extract, p_format, p_rank, p_unpack_logfmt, p_replace, p_len, p_collapse, p_extract_regexp, p_decolorize,
    p_pack, p_first, p_unroll, p_field_values, p_facets, p_json_array_len, p_unpack_words; pipe_go.
Qed.
Lemma steps_pipes : steps_below n (pipes_of parseOr parsePipes).
Proof.
  apply loop_turns. intros ps. apply turns_branch_next; [test_neq| |apply turns_inr]. intros _. apply steps_bind; [apply steps_next|]. intros name.
  apply steps_if; [|steps_go]. apply steps_bind; [apply steps_pipe|]. intros; steps_go.
Qed.
End pipes.

(** ** The query *)

Section query.
Context {T : GoText} {D : GoTime} {F : GoFold}.

Lemma parse_total fuel : takes_below fuel (λ ts, parseUnary fuel ts) ∧ steps_below fuel (λ ts, parsePipes fuel ts).
Proof.
  induction fuel as [|fuel [IHu IHp]].
  { split; intros [|t ts] W L; try done; cbn in L; lia. }
  assert (steps_below (S fuel - 1) (parseOr_of (λ ts, parseUnary fuel ts))) as Hor.
  { rewrite Nat.sub_succ, Nat.sub_0_r. by apply takes_steps_below, takes_or. }
  assert (steps_below (S fuel - 1) (λ ts, parsePipes fuel ts)) as Hp by (by rewrite Nat.sub_succ, Nat.sub_0_r).
  assert (steps_below (S fuel - 1) (λ ts, parseUnary fuel ts)) as Hu by (rewrite Nat.sub_succ, Nat.sub_0_r; by apply takes_steps_below).
  split.
  - change (takes_below (S fuel) (unary_of (λ ts, parseUnary fuel ts) (λ ts, parsePipes fuel ts))). unfold unary_of.
    apply takes_next_branch; [test_neq|intros _; steps_go|]. apply takes_next_branch; [test_neq|intros _; steps_go|]. by apply takes_term.
  - change (steps_below (S fuel) (pipes_of (parseOr_of (λ ts, parseUnary fuel ts)) (λ ts, parsePipes fuel ts))). by apply steps_pipes.
Qed.
Lemma parse_tokens_total ts : wf ts → parse_tokens ts ≠ Fuel.
Proof.
  intros W. destruct (parse_total (length ts)) as [Hu Hp].
  assert (steps_below (length ts) (e ← parseOr_of (λ ts', parseUnary (length ts) ts'); ps ← (λ ts', parsePipes (length ts) ts');
    branch (kind_is tEOF) (mret (e, ps)) (t ← next; fail (trailing (t_val t))))) as H.
  { apply steps_bind; [by apply takes_steps_below, takes_or|]. intros e. apply steps_bind; [done|]. intros ps. steps_go. }
  specialize (H ts W ltac:(lia)). unfold wp, parse_tokens in *. intros E. change (λ ts', parseUnary (length ts) ts') with (parseUnary (length ts)) in H.
  change (λ ts', parsePipes (length ts) ts') with (parsePipes (length ts)) in H. by rewrite E in H.
Qed.
(** The lexer takes a byte in every turn. *)
Lemma lex_string_rest s x : lex_string s = Some x → length x.2 < length s.
Proof.
  revert x. induction s as [s IH] using (induction_ltof1 _ (@length Z)). unfold ltof in IH. intros x. destruct s as [|c s]; [done|]. cbn [lex_string].
  case_bool_decide; [intros [= <-]; cbn; lia|]. destruct s as [|d s]; [done|].
  case_bool_decide.
  - destruct (lex_string s) as [y|] eqn:E; [|done]. intros [= <-]. apply IH in E; cbn in *; lia.
  - destruct (lex_string (d :: s)) as [y|] eqn:E; [|done]. intros [= <-]. apply IH in E; cbn in *; lia.
Qed.
Lemma lex_time_rest d s : length (lex_time d s).2 ≤ length s.
Proof. revert d. induction s as [|c s IH]; intros d; [done|]. cbn [lex_time]. repeat case_match; cbn [snd length]; rewrite ?IH; lia. Qed.
Lemma lex_one_rest c s' x : lex_one c s' = Some x → length x.2 ≤ length s'.
Proof.
  unfold lex_one. pose proof (span_rest (λ d, negb (lexSpecial d)) (c :: s')) as Hs. intros H. cbv zeta in H.
  destruct (lex_space c) eqn:Esp; [by injection H as <-|].
  repeat (case_bool_decide; [solve [repeat case_match; simplify_eq; cbn; lia]|]).
  case_bool_decide.
  { destruct (lex_string s') as [y|] eqn:E; [|done]. injection H as <-. apply lex_string_rest in E. cbn. lia. }
  assert (negb (lexSpecial c) = true) as Hc.
  { unfold lexSpecial. rewrite Esp, negb_true_iff. cbn [orb]. apply bool_decide_eq_false. set_solver. }
  cbn [span] in H. rewrite Hc in H. pose proof (span_rest (λ d, negb (lexSpecial d)) s') as Hs'.
  destruct (span _ s') as [w rest]. cbn [fst snd] in *. destruct (str_eqb _ s_time); [|by injection H as <-].
  destruct rest as [|e rest]; [by injection H as <-|].
  assert (∀ l y, Some (l, y) = Some x → length y ≤ length rest → length x.2 ≤ length s') as Hd by (intros l y [= <-]; cbn in *; lia).
  destruct (decide (e = 58%Z)) as [->|He].
  - eapply Hd; [exact H|]. apply lex_time_rest.
  - assert (Some ([lex_word (c :: w)], e :: rest) = Some x) as [= <-]; [|done]. rewrite <- H. clear -He.
    destruct e as [|p|p]; try done. repeat (destruct p as [p|p|]; try done).
Qed.
Lemma lex_fuel f1 : ∀ f2 s, length s ≤ f1 → length s ≤ f2 → lex_loop f1 s = lex_loop f2 s.
Proof.
  induction f1 as [|f1 IH]; intros [|f2] [|c s] L1 L2; cbn [length] in *; try lia; try done. cbn [lex_loop].
  destruct (lex_one c s) as [x|] eqn:E; [|done]. cbn. apply lex_one_rest in E. f_equal. apply IH; lia.
Qed.
Lemma lexLogsQL_cons c s : lexLogsQL (c :: s) = (x ← lex_one c s; app x.1 <$> lexLogsQL x.2).
Proof.
  unfold lexLogsQL. cbn [length lex_loop]. destruct (lex_one c s) as [x|] eqn:E; [|done]. apply lex_one_rest in E. cbn. f_equal. by apply lex_fuel.
Qed.
Lemma lex_wf fuel s ts : lex_loop fuel s = Some ts → wf ts.
Proof.
  revert s ts. induction fuel as [|fuel IH]; intros [|c s] ts; try (by intros [= <-]). cbn [lex_loop].
  destruct (lex_one c s) as [[l rest]|]; [|done]. cbn. destruct (lex_loop fuel rest) as [ts'|] eqn:E; [|done]. intros [= <-].
  apply IH in E. unfold wf in *. rewrite last_app. by rewrite E.
Qed.

(** C27: Every query text is parsed or refused with an error: the descent of the parser
    never runs out of the tokens its recursion is bounded by, however the text
    nests. *)
Theorem ParseLogsQL_total s : ParseLogsQL s ≠ Fuel.
Proof.
  unfold ParseLogsQL. cbv zeta. case_bool_decide; [done|]. destruct (lexLogsQL (TrimSpace s)) as [ts|] eqn:E; [|done].
  pose proof (parse_tokens_total ts (lex_wf _ _ _ E)) as Ht. destruct (parse_tokens ts) as [[e ps] r| |]; done.
Qed.
End query.
