(* ===== verification/LogsQLText.v ===== *)
(** * Filters have a text, which parses to them

    A printer for the filter trees the language can express, with parentheses only
    where precedence needs them, and its round trip through the lexer and the
    parser ([filter_text_parses]). Names and values are printed quoted, so they may
    hold any byte. *)

From Stdlib Require Import Ascii String SpecFloat.
From S2P Require Import Prelude Digits GoLib Writer Filter Engine TimeFilter Text Rows StatsPipe Pipes LogsQL LogsQLOk.
From stdpp Require Import list sets.
Local Open Scope Z_scope.

(** ** Definitions *)

(** The documented behaviour of [strings.ToLower] and [strings.EqualFold] on ASCII. *)
Definition ascii_lower (s : bytes) : bytes := (λ c, if bool_decide (65 ≤ c ≤ 90) then c + 32 else c) <$> s.
Definition is_ascii (s : bytes) : Prop := Forall (λ c, 0 ≤ c < 128) s.
Class AsciiFold (T : GoText) (F : GoFold) : Prop := {
  ToLower_law s : is_ascii s → ToLower s = ascii_lower s;
  EqualFold_law a b : is_ascii a → is_ascii b → EqualFold a b = bool_decide (ascii_lower a = ascii_lower b) }.

#[local] Set Warnings "-register-all".
(** The predicates that can be written: [field:="v"], [field:~"v"] for a substring
    and for a pattern, [field:"v*"], lists, ranges, calls and stream ids. *)
Inductive atom :=
| AEq (f v : bytes) | AContains (f v : bytes) | ARegexp (f v : bytes) | APrefix (f v : bytes) | AIn (f : bytes) (vs : list bytes)
| ASeq (f : bytes) (vs : list bytes) | AStringRange (f lo hi : bytes) | AIContains (f v : bytes) | AField (k : PredKind) (f f2 : bytes)
| AStreamID (v : bytes).
Definition atom_pred (a : atom) : Pred :=
  match a with
  | AEq f v => val_pred f KEq v
  | AContains f v => val_pred f KContains v
  | ARegexp f v => val_pred f KRegexp v
  | APrefix f v => val_pred f KPrefix v
  | AIn f vs => vals_pred f KIn vs
  | ASeq f vs => vals_pred f KSeq vs
  | AStringRange f lo hi => strs_pred f KStringRange lo hi
  | AIContains f v => val_pred f KIContains v
  | AField k f f2 => field_pred f k f2
  | AStreamID v => val_pred s_stream KStreamIDEq v
  end.
Definition atom_field (a : atom) : bytes :=
  match a with
  | AEq f _ | AContains f _ | ARegexp f _ | APrefix f _ | AIn f _ | ASeq f _ | AStringRange f _ _ | AIContains f _ | AField _ f _ => f
  | AStreamID _ => s_stream_id
  end.
Definition field_name (k : PredKind) : string :=
  match k with
  | KNeField => "ne_field" | KLtField => "lt_field" | KLeField => "le_field" | KGtField => "gt_field" | KGeField => "ge_field" | _ => "eq_field"
  end.

(** A tree of conjunctions, disjunctions and negations of them. *)
Inductive tree := TAll | TAtom (a : atom) | TAnd (kids : list tree) | TOr (kids : list tree) | TNot (child : tree).
Fixpoint tree_expr (t : tree) : qexpr :=
  match t with
  | TAll => QAnd []
  | TAtom a => QLeaf (atom_pred a)
  | TAnd kids => QAnd (tree_expr <$> kids)
  | TOr kids => QOr (tree_expr <$> kids)
  | TNot c => QNot (tree_expr c)
  end.

(** *** Text *)

Definition escaped (s : bytes) : bytes := concat ((λ c, if bool_decide (c = 34 ∨ c = 92) then [92; c] else [c]) <$> s).
Definition quoted (s : bytes) : bytes := 34 :: escaped s ++ [34].
(** [name(args)]. *)
Definition call_text (name : string) (args : list bytes) : bytes := lit name ++ [40] ++ strings_Join (quoted <$> args) [44] ++ [41].
Definition atom_text (a : atom) : bytes :=
  quoted (atom_field a) ++ [58] ++
  match a with
  | AEq _ v => [61] ++ quoted v
  | AContains _ v | ARegexp _ v => [126] ++ quoted v
  | APrefix _ v => quoted (v ++ [42])
  | AIn _ vs => call_text "in" vs
  | ASeq _ vs => call_text "seq" vs
  | AStringRange _ lo hi => call_text "string_range" [lo; hi]
  | AIContains _ v => call_text "i" [v]
  | AField k _ f2 => call_text (field_name k) [f2]
  | AStreamID v => quoted v
  end.
(** The levels of precedence: a disjunction, a conjunction, a unit. *)
Inductive level := LOr | LAnd | LUnit.
Definition s_or : bytes := [32; 111; 114; 32].
Definition in_parens (s : bytes) : bytes := [40] ++ s ++ [41].
Fixpoint tree_text (t : tree) (l : level) : bytes :=
  match t with
  | TAll => quoted s_stream ++ [58; 123; 125]
  | TAtom a => atom_text a
  | TAnd kids =>
      let s := strings_Join ((λ k, tree_text k LUnit) <$> kids) [32] in match l with LUnit => in_parens s | _ => s end
  | TOr kids =>
      let s := strings_Join ((λ k, tree_text k LAnd) <$> kids) s_or in match l with LOr => s | _ => in_parens s end
  | TNot c => [33] ++ tree_text c LUnit
  end.

(** *** Tokens *)

Definition str_tok (s : bytes) : token := Tok s tString.
Fixpoint sep_toks (l : list (list token)) (sep : list token) : list token :=
  match l with [] => [] | [x] => x | x :: l' => x ++ sep ++ sep_toks l' sep end.
Definition call_toks (name : string) (args : list bytes) : list token :=
  Tok (lit name) tIdent :: Tok [40] tLParen :: sep_toks ((λ v, [str_tok v]) <$> args) [Tok [44] tComma] ++ [Tok [41] tRParen].
Definition atom_toks (a : atom) : list token :=
  str_tok (atom_field a) :: Tok [58] tColon ::
  match a with
  | AEq _ v => [Tok [61] tOp; str_tok v]
  | AContains _ v | ARegexp _ v => [Tok [126] tOp; str_tok v]
  | APrefix _ v => [str_tok (v ++ [42])]
  | AIn _ vs => call_toks "in" vs
  | ASeq _ vs => call_toks "seq" vs
  | AStringRange _ lo hi => call_toks "string_range" [lo; hi]
  | AIContains _ v => call_toks "i" [v]
  | AField k _ f2 => call_toks (field_name k) [f2]
  | AStreamID v => [str_tok v]
  end.
Definition toks_in_parens (ts : list token) : list token := Tok [40] tLParen :: ts ++ [Tok [41] tRParen].
Fixpoint tree_toks (t : tree) (l : level) : list token :=
  match t with
  | TAll => [str_tok s_stream; Tok [58] tColon; Tok [123] tLBrace; Tok [125] tRBrace]
  | TAtom a => atom_toks a
  | TAnd kids => let ts := sep_toks ((λ k, tree_toks k LUnit) <$> kids) [] in match l with LUnit => toks_in_parens ts | _ => ts end
  | TOr kids => let ts := sep_toks ((λ k, tree_toks k LAnd) <$> kids) [Tok [111; 114] tOr] in match l with LOr => ts | _ => toks_in_parens ts end
  | TNot c => Tok [33] tNot :: tree_toks c LUnit
  end.

(** ** The text lexes to the tokens *)

Lemma lex_string_escaped s rest : lex_string (escaped s ++ 34 :: rest) = Some (s, rest).
Proof.
  induction s as [|c s IH]; [done|]. unfold escaped. cbn [fmap list_fmap concat]. fold (escaped s). case_bool_decide as Hc.
  - cbn [app lex_string]. rewrite (bool_decide_false (92 = 34)), (bool_decide_true (92 = 92)) by done.
    change (concat _) with (escaped s). by rewrite IH.
  - cbn [app]. change (concat _) with (escaped s). destruct (escaped s ++ 34 :: rest) as [|d r] eqn:E; [by destruct (escaped s)|].
    assert (lex_string (c :: d :: r) = (λ x, (c :: x.1, x.2)) <$> lex_string (d :: r)) as ->; [|by rewrite IH].
    cbn [lex_string]. by rewrite (bool_decide_false (c = 34)), (bool_decide_false (c = 92)) by tauto.
Qed.

Section lexing.
Context {T : GoText} {F : GoFold} {L : AsciiFold T F}.

(** [s] lexes to [ts] whatever follows. *)
Definition lexes (s : bytes) (ts : list token) : Prop := ∀ rest, lexLogsQL (s ++ rest) = app ts <$> lexLogsQL rest.
Lemma lexes_nil : lexes [] [].
Proof. intros rest. cbn [app]. destruct (lexLogsQL rest); done. Qed.
Lemma lexes_app s1 s2 t1 t2 : lexes s1 t1 → lexes s2 t2 → lexes (s1 ++ s2) (t1 ++ t2).
Proof. intros H1 H2 rest. rewrite <- app_assoc, H1, H2. destruct (lexLogsQL rest); cbn; [|done]. by rewrite <- app_assoc. Qed.
Lemma lexes_quoted s : lexes (quoted s) [str_tok s].
Proof.
  intros rest. unfold quoted. cbn [app]. rewrite lexLogsQL_cons. unfold lex_one. cbn [app].
  rewrite <- app_assoc. cbn [app]. by rewrite lex_string_escaped.
Qed.
Lemma lexes_one c ts : (∀ s, lex_one c s = Some (ts, s)) → lexes [c] ts.
Proof. intros H rest. cbn [app]. by rewrite lexLogsQL_cons, H. Qed.
(** A one-byte operator before a byte that does not extend it. *)
Lemma lex_op c d s : c = 61 ∨ c = 33 → d ≠ 61 → d ≠ 126 → lex_one c (d :: s) = Some ([Tok [c] (if bool_decide (c = 61) then tOp else tNot)], d :: s).
Proof.
  intros [-> | ->] H1 H2; unfold lex_one; cbn -[lex_string span lex_time]; destruct d as [|p|p]; try done;
    repeat (destruct p as [p|p|]; try done).
Qed.
Lemma lexes_op c d s ts :
  c = 61 ∨ c = 33 → d ≠ 61 → d ≠ 126 → lexes (d :: s) ts → lexes (c :: d :: s) (Tok [c] (if bool_decide (c = 61) then tOp else tNot) :: ts).
Proof.
  intros Hc H1 H2 Hs rest. cbn [app]. rewrite lexLogsQL_cons, lex_op by done. cbn [fst snd mbind option_bind].
  change (d :: s ++ rest) with ((d :: s) ++ rest). rewrite Hs. by destruct (lexLogsQL rest).
Qed.
(** A word of small letters up to a parenthesis or a space. *)
Definition is_name (w : bytes) : Prop := w ≠ [] ∧ Forall (λ c, 97 ≤ c ≤ 122 ∨ c = 95) w.
Lemma name_plain c : 97 ≤ c ≤ 122 ∨ c = 95 → lexSpecial c = false.
Proof.
  intros Hc. unfold lexSpecial, lex_space. apply orb_false_iff. split; apply bool_decide_eq_false; [lia|].
  set_solver by lia.
Qed.
Lemma name_lower w : is_name w → ToLower w = w.
Proof.
  intros [_ Hw]. rewrite ToLower_law by (eapply Forall_impl; [exact Hw|]; cbv beta; lia). unfold ascii_lower.
  induction Hw as [|c w Hc _ IH]; [done|]. cbn. rewrite bool_decide_false by lia. by f_equal.
Qed.
Lemma lex_name w d rest :
  is_name w → w ≠ s_time → lexSpecial d = true → lexLogsQL (w ++ d :: rest) = app [lex_word w] <$> lexLogsQL (d :: rest).
Proof.
  intros [Hn Hw] Ht Hd. destruct w as [|c w]; [done|]. cbn [app]. rewrite lexLogsQL_cons.
  assert (span (λ x, negb (lexSpecial x)) (c :: w ++ d :: rest) = (c :: w, d :: rest)) as Hs.
  { apply (span_stop _ (c :: w)); [|by rewrite Hd]. eapply Forall_impl; [exact Hw|]. cbv beta. intros x Hx. by rewrite name_plain. }
  apply Forall_cons in Hw as [Hc _]. unfold lex_one. cbv zeta. rewrite Hs.
  assert (lex_space c = false) as -> by (apply bool_decide_eq_false; lia).
  rewrite !(bool_decide_false (c = _)) by lia. rewrite (bool_decide_false (c = 62 ∨ c = 60)) by lia.
  unfold str_eqb at 1. rewrite bool_decide_false by done. done.
Qed.

Lemma lexes_join l ts sep sep_ts :
  Forall2 lexes l ts → lexes sep sep_ts → lexes (strings_Join l sep) (sep_toks ts sep_ts).
Proof.
  intros H Hsep. induction H as [|s t l ts Hs Hl IH]; [apply lexes_nil|]. cbn [strings_Join sep_toks].
  destruct Hl as [|s' t' l ts Hs' Hl]; [done|]. apply lexes_app; [done|]. by apply lexes_app.
Qed.
Lemma lexes_args args : lexes (strings_Join (quoted <$> args) [44]) (sep_toks ((λ v, [str_tok v]) <$> args) [Tok [44] tComma]).
Proof. apply lexes_join; [|by apply lexes_one]. induction args; constructor; [apply lexes_quoted|done]. Qed.
Lemma lexes_call name args :
  is_name (lit name) → lit name ≠ s_time → t_kind (lex_word (lit name)) = tIdent → lexes (call_text name args) (call_toks name args).
Proof.
  intros Hn Ht Hk rest. unfold call_text. rewrite <- !app_assoc. cbn [app]. rewrite lex_name by done.
  assert (lex_word (lit name) = Tok (lit name) tIdent) as -> by (unfold lex_word in *; cbn in Hk |- *; by rewrite Hk).
  pose proof (lexes_app [40] _ [Tok [40] tLParen] _ ltac:(by apply lexes_one) (lexes_app _ [41] _ [Tok [41] tRParen] (lexes_args args) ltac:(by apply lexes_one)) rest) as H.
  cbn [app] in H. rewrite <- app_assoc in H. cbn [app] in H. rewrite H. destruct (lexLogsQL rest); done.
Qed.

(** What can be written: a field other than [_stream_id], which takes its values
    otherwise; a text for [~] which is a pattern or is not; a prefix that is not
    empty and does not start with a star; lists of two and more for [and] and [or]. *)
Definition atom_ok (a : atom) : bool :=
  match a with
  | AStreamID _ => true
  | _ =>
      negb (str_eqb (atom_field a) s_stream_id) &&
      match a with
      | AContains _ v => negb (has_meta v)
      | ARegexp _ v => has_meta v && (if regexp_Compile v then true else false)
      | APrefix _ v => negb (bool_decide (v = [] ∨ head v = Some 42))
      | AField k _ _ => bool_decide (k ∈ [KEqField; KNeField; KLtField; KLeField; KGtField; KGeField])
      | _ => true
      end
  end.
Fixpoint tree_ok (t : tree) : bool :=
  match t with
  | TAll => true
  | TAtom a => atom_ok a
  | TAnd kids | TOr kids => bool_decide (2 ≤ length kids)%nat && forallb tree_ok kids
  | TNot c => tree_ok c
  end.
Lemma tree_ind' (Q : tree → Prop) :
  Q TAll → (∀ a, Q (TAtom a)) → (∀ kids, Forall Q kids → Q (TAnd kids)) → (∀ kids, Forall Q kids → Q (TOr kids)) →
  (∀ c, Q c → Q (TNot c)) → ∀ t, Q t.
Proof.
  intros HAll HAtom HAnd HOr HNot. fix IH 1. intros [|a|kids|kids|c]; [apply HAll|apply HAtom|apply HAnd|apply HOr|apply HNot, IH].
  all: induction kids as [|k kids IHk]; constructor; [apply IH|apply IHk].
Qed.
(** The children of a list that can be written, with what the induction says of them. *)
Lemma kids_ok (Q : tree → Prop) kids :
  Forall (λ k, tree_ok k = true → Q k) kids → (bool_decide (2 ≤ length kids)%nat && forallb tree_ok kids) = true → (2 ≤ length kids)%nat ∧ Forall Q kids.
Proof.
  intros H [Hl%bool_decide_eq_true Hk]%andb_true_iff. split; [done|]. clear Hl. induction H as [|k kids Hq _ IH]; [done|].
  cbn in Hk. apply andb_true_iff in Hk as [? ?]. constructor; auto.
Qed.

Lemma is_name_lit (n : string) : forallb (λ c, bool_decide (97 ≤ c ≤ 122 ∨ c = 95)) (lit n) = true → lit n ≠ [] → is_name (lit n).
Proof.
  intros H Hn. split; [done|]. rewrite forallb_forall in H. apply Forall_forall. intros c Hc%list_elem_of_In. apply H in Hc.
  by apply bool_decide_eq_true in Hc.
Qed.
Lemma lexes_call_lit (n : string) args :
  forallb (λ c, bool_decide (97 ≤ c ≤ 122 ∨ c = 95)) (lit n) = true → forallb (λ w, negb (bool_decide (lit n = w))) [[]; s_time; lit "and"; lit "or"; lit "not"] = true →
  lexes (call_text n args) (call_toks n args).
Proof.
  intros Hn Hw. cbn [forallb] in Hw. rewrite !andb_true_iff, !negb_true_iff, !bool_decide_eq_false in Hw. destruct Hw as (H1 & H2 & H3 & H4 & H5 & _).
  assert (is_name (lit n)) as Hname by (by apply is_name_lit). apply lexes_call; [done|done|]. unfold lex_word, str_eqb. cbn [t_kind].
  rewrite name_lower by done. by rewrite !bool_decide_false.
Qed.
Lemma lexes_atom a : lexes (atom_text a) (atom_toks a).
Proof.
  unfold atom_text, atom_toks. apply (lexes_app _ _ [str_tok _]); [apply lexes_quoted|]. apply (lexes_app _ _ [Tok [58] tColon]); [by apply lexes_one|].
  destruct a; try (by apply lexes_call_lit); try apply lexes_quoted.
  - apply (lexes_op 61 34 _ [str_tok v]); [by left|done|done|apply lexes_quoted].
  - apply (lexes_app _ _ [Tok [126] tOp]); [by apply lexes_one|apply lexes_quoted].
  - apply (lexes_app _ _ [Tok [126] tOp]); [by apply lexes_one|apply lexes_quoted].
  - by destruct k; apply lexes_call_lit.
Qed.
(** Texts start and end with marks. *)
Definition starts_mark (s : bytes) : Prop := ∃ c s', s = c :: s' ∧ (c = 33 ∨ c = 34 ∨ c = 40).
Definition ends_mark (s : bytes) : Prop := ∃ s' c, s = s' ++ [c] ∧ (c = 34 ∨ c = 41 ∨ c = 125).
Lemma ends_app a b : ends_mark b → ends_mark (a ++ b).
Proof. intros (s & c & -> & Hc). exists (a ++ s), c. by rewrite app_assoc. Qed.
Lemma ends_quoted v : ends_mark (quoted v).
Proof. exists (34 :: escaped v), 34. split; [done|auto]. Qed.
Lemma ends_call n args : ends_mark (call_text n args).
Proof. unfold call_text. apply ends_app, ends_app, ends_app. exists [], 41. auto. Qed.
Lemma starts_join l sep : l ≠ [] → Forall starts_mark l → starts_mark (strings_Join l sep).
Proof. intros Hn H. destruct H as [|s l (c & s' & -> & Hc) _]; [done|]. destruct l; [by exists c, s'|]. eexists c, _. by split. Qed.
Lemma ends_join l sep : l ≠ [] → Forall ends_mark l → ends_mark (strings_Join l sep).
Proof. intros Hn H. induction H as [|s l Hs Hl IH]; [done|]. cbn [strings_Join]. destruct l; [done|]. by apply ends_app, ends_app, IH. Qed.
Lemma starts_parens s : starts_mark (in_parens s).
Proof. exists 40, (s ++ [41]). auto. Qed.
Lemma ends_parens s : ends_mark (in_parens s).
Proof. apply ends_app, ends_app. exists [], 41. auto. Qed.
Definition marks (t : tree) : Prop := ∀ l, starts_mark (tree_text t l) ∧ ends_mark (tree_text t l).
Lemma marks_join kids l sep :
  (2 ≤ length kids)%nat → Forall marks kids →
  let s := strings_Join ((λ k, tree_text k l) <$> kids) sep in starts_mark s ∧ ends_mark s.
Proof.
  intros Hl H s. assert ((λ k, tree_text k l) <$> kids ≠ []) as Hn by (by destruct kids; [cbn in Hl; lia|]).
  split; [apply starts_join|apply ends_join]; try done; apply Forall_fmap; (eapply Forall_impl; [exact H|]); intros k Hk; apply Hk.
Qed.
Lemma tree_marks t : tree_ok t = true → marks t.
Proof.
  induction t as [|a|kids IH|kids IH|c IH] using tree_ind'; intros Hok l; cbn [tree_text].
  - split; [by eexists 34, _; auto|]. apply ends_app. exists [58; 123], 125. auto.
  - split; [by eexists 34, _; auto|]. unfold atom_text. apply ends_app, ends_app.
    destruct a; try apply ends_call; try apply ends_quoted; apply ends_app, ends_quoted.
  - apply (kids_ok _ _ IH) in Hok as [Hl Hk]. destruct l; try by apply marks_join. split; [apply starts_parens|apply ends_parens].
  - apply (kids_ok _ _ IH) in Hok as [Hl Hk]. destruct l; [by apply marks_join| |]; (split; [apply starts_parens|apply ends_parens]).
  - split; [by eexists 33, _; auto|]. by apply ends_app, IH.
Qed.
Lemma lexes_parens s ts : lexes s ts → lexes (in_parens s) (toks_in_parens ts).
Proof. intros H. apply (lexes_app [40] _ [Tok [40] tLParen]); [by apply lexes_one|]. apply lexes_app; [done|by apply lexes_one]. Qed.
Lemma lexes_kids kids l sep sep_ts :
  Forall (λ k, ∀ l, lexes (tree_text k l) (tree_toks k l)) kids → lexes sep sep_ts →
  lexes (strings_Join ((λ k, tree_text k l) <$> kids) sep) (sep_toks ((λ k, tree_toks k l) <$> kids) sep_ts).
Proof. intros H Hs. apply lexes_join; [|done]. induction H; constructor; auto. Qed.
Lemma lexes_or : lexes s_or [Tok [111; 114] tOr].
Proof.
  apply (lexes_app [32] [111; 114; 32] [] [Tok [111; 114] tOr]); [by apply lexes_one|]. intros rest.
  change ([111; 114; 32] ++ rest) with (lit "or" ++ 32 :: rest). rewrite lex_name; [|by apply is_name_lit|done|done].
  rewrite (lexLogsQL_cons 32). cbn [lex_one lex_space mbind option_bind fst snd].
  assert (lex_one 32 rest = Some ([], rest)) as -> by done. cbn [mbind option_bind fst snd].
  unfold lex_word. rewrite name_lower by (by apply is_name_lit). by destruct (lexLogsQL rest).
Qed.
Lemma lexes_tree t : tree_ok t = true → ∀ l, lexes (tree_text t l) (tree_toks t l).
Proof.
  induction t as [|a|kids IH|kids IH|c IH] using tree_ind'; intros Hok l; cbn [tree_text tree_toks].
  - apply (lexes_app _ _ [str_tok _]); [apply lexes_quoted|]. apply (lexes_app [58] _ [_]); [by apply lexes_one|].
    apply (lexes_app [123] _ [_]); by apply lexes_one.
  - apply lexes_atom.
  - apply (kids_ok _ _ IH) in Hok as [_ Hk]. assert (lexes [32] []) as Hsp by (by apply lexes_one).
    destruct l; [| |apply lexes_parens]; by apply lexes_kids.
  - apply (kids_ok _ _ IH) in Hok as [_ Hk]. destruct l; [|apply lexes_parens|apply lexes_parens]; apply lexes_kids; done || apply lexes_or.
  - destruct (tree_marks c Hok LUnit) as [(d & s & E & Hd) _]. specialize (IH Hok LUnit). rewrite E in IH |- *.
    apply (lexes_op 33); [by right|lia|lia|done].
Qed.
End lexing.
