(* ===== verification/LogsQLTrip.v ===== *)
(** * Printed filters parse

    The parser reads the tokens of a printed tree back ([parses_tree]), and the text
    of the tree ([filter_text_parses]). *)

From Stdlib Require Import Ascii String SpecFloat.
From S2P Require Import Prelude Digits GoLib Writer Filter Engine TimeFilter Text Rows StatsPipe Pipes LogsQL LogsQLOk LogsQLText.
From stdpp Require Import list sets.
Local Open Scope Z_scope.

(** ** Trimming *)

Lemma space_width_last s c : last s = Some c → 32 < c < 128 → (0 < space_width s)%nat → (space_width s < length s)%nat.
Proof.
  intros Hl Hc. unfold space_width. destruct s as [|a s]; [done|].
  destruct (bool_decide (a = 32) || in_range 9 13 a) eqn:Ea.
  { intros _. destruct s; [|cbn; lia]. injection Hl as ->. rewrite orb_true_iff in Ea. unfold in_range in Ea.
    destruct Ea as [->%bool_decide_eq_true|[H1%bool_decide_eq_true H2%bool_decide_eq_true]%andb_true_iff]; lia. }
  repeat case_match; subst; cbn [length]; try lia; intros _; rewrite ?last_cons_cons in Hl;
    (match goal with |- context [length ?l] => destruct l; [|cbn [length]; lia] end);
    cbn [last] in Hl; injection Hl as Hl; unfold in_range in *; rewrite ?orb_true_iff, ?andb_true_iff, ?bool_decide_eq_true in *; lia.
Qed.
Lemma trim_left_marked s c k : last s = Some c → 32 < c < 128 → (k < length s)%nat → trim_left k s ≠ [].
Proof.
  intros Hl Hc. revert k Hl. induction s as [|a s IH]; intros k Hl Hk; [cbn in Hk; lia|]. cbn [length] in Hk.
  assert (s ≠ [] → last s = Some c) as Hs by (by destruct s).
  destruct k as [|k]; cbn [trim_left].
  - destruct (space_width (a :: s)) as [|k] eqn:E; [done|]. pose proof (space_width_last _ _ Hl Hc) as H. rewrite E in H. cbn [length] in H.
    apply IH; [|lia]. apply Hs. intros ->. cbn in H. lia.
  - apply IH; [|lia]. apply Hs. intros ->. cbn in Hk. lia.
Qed.
Lemma trim_right_marked s c : last s = Some c → 32 < c < 128 → trim_right s = s.
Proof.
  intros Hl Hc. induction s as [|a s IH]; [done|]. cbn [trim_right].
  rewrite bool_decide_false by (apply (trim_left_marked _ c); [done|done|cbn; lia]). f_equal. destruct s as [|b s]; [done|]. by apply IH.
Qed.
Lemma TrimSpace_marked s : starts_mark s → ends_mark s → TrimSpace s = s.
Proof.
  intros (c & s1 & -> & Hc) (s2 & d & E & Hd). unfold TrimSpace.
  assert (trim_left 0 (c :: s1) = c :: s1) as -> by (destruct Hc as [->|[->| ->]]; done).
  rewrite E. apply (trim_right_marked _ d); [by rewrite last_snoc|lia].
Qed.

(** ** What a parser reads *)

(** [p] reads [ts] as [a] before a token that satisfies [stop]. *)
Definition reads_as {A} (stop : token → Prop) (p : P A) (ts : list token) (a : A) : Prop :=
  ∀ t rest, stop t → p (ts ++ t :: rest) = Done a (t :: rest).
Definition always (t : token) : Prop := True.
Definition closes (t : token) : Prop := t_kind t = tRParen.

Lemma reads_stop {A} (s1 s2 : token → Prop) (p : P A) ts a : (∀ t, s2 t → s1 t) → reads_as s1 p ts a → reads_as s2 p ts a.
Proof. intros Hs H t rest Ht. by apply H, Hs. Qed.
Lemma reads_ret {A} s (a : A) : reads_as s (mret a) [] a.
Proof. by intros t rest _. Qed.
Lemma reads_bind {A B} s (p : P A) (f : A → P B) t1 t2 a b : reads_as always p t1 a → reads_as s (f a) t2 b → reads_as s (p ≫= f) (t1 ++ t2) b.
Proof.
  intros Hp Hf t rest Ht. rewrite <- app_assoc. unfold mbind, P_bind, parser_bind.
  assert (∃ u X, t2 ++ t :: rest = u :: X) as (u & X & E) by (destruct t2 as [|u t2]; eauto). rewrite E, Hp by exact I. rewrite <- E. by apply Hf.
Qed.
Lemma reads_cons {A B} s (p : P A) (f : A → P B) t1 t2 a b : reads_as always p [t1] a → reads_as s (f a) t2 b → reads_as s (p ≫= f) (t1 :: t2) b.
Proof. apply (reads_bind s p f [t1]). Qed.
Lemma reads_map {A B} s (p : P A) (g : A → B) ts a : reads_as s p ts a → reads_as s (x ← p; mret (g x)) ts (g a).
Proof. intros Hp t rest Ht. unfold mbind, P_bind, parser_bind. by rewrite Hp. Qed.
Lemma reads_bind_stop {A B} (s1 s2 : token → Prop) (p : P A) (f : A → P B) t1 u t2 a b :
  reads_as s1 p t1 a → s1 u → reads_as s2 (f a) (u :: t2) b → reads_as s2 (p ≫= f) (t1 ++ u :: t2) b.
Proof.
  intros Hp Hu Hf t rest Ht. rewrite <- app_assoc. unfold mbind, P_bind, parser_bind. cbn [app]. rewrite Hp by done. by apply Hf.
Qed.
(** A parser that reads nothing before [t]. *)
Lemma reads_peek {A B} (s : token → Prop) (p : P A) (f : A → P B) ts a b :
  (∀ t rest, p (ts ++ t :: rest) = Done a (ts ++ t :: rest)) → reads_as s (f a) ts b → reads_as s (p ≫= f) ts b.
Proof. intros Hp Hf t rest Ht. unfold mbind, P_bind, parser_bind. rewrite Hp. by apply Hf. Qed.
Lemma reads_branch {A} s (test : token → bool) (p q : P A) u ts a :
  (if test u then reads_as s p (u :: ts) a else reads_as s q (u :: ts) a) → reads_as s (branch test p q) (u :: ts) a.
Proof. intros H t rest Ht. unfold branch. change (peek_tok ((u :: ts) ++ t :: rest)) with u. by destruct (test u); apply H. Qed.
Lemma reads_next u : reads_as always next [u] u.
Proof. by intros t rest _. Qed.
Lemma reads_expect k e u : t_kind u = k → reads_as always (expect k e) [u] tt.
Proof.
  intros Hk. apply reads_branch. unfold kind_is. rewrite bool_decide_true by done.
  apply (reads_cons _ _ _ _ [] u); [apply reads_next|apply reads_ret].
Qed.
Lemma reads_word e v : reads_as always (word e) [str_tok v] v.
Proof. by intros t rest _. Qed.
Lemma reads_comma v : reads_as always skip_comma [Tok v tComma] tt.
Proof. by intros t rest _. Qed.
Create HintDb reads.
#[export] Hint Resolve reads_ret reads_next reads_word reads_comma : reads.
#[export] Hint Extern 1 (reads_as always (expect _ _) [_] _) => (apply reads_expect; done) : reads.
Ltac reads_go := repeat first [solve [eauto with reads]|eapply reads_cons].

Lemma reads_word_list_from e vs : ∀ acc fuel t rest, vs ≠ [] → (length vs < fuel)%nat → closes t →
  repeat_p (λ vs, branch (λ t, kind_is tRParen t || kind_is tEOF t) (mret (inr vs)) (v ← word e; _ ← skip_comma; mret (inl (vs ++ [v])))) fuel acc
    (sep_toks ((λ v, [str_tok v]) <$> vs) [Tok [44] tComma] ++ t :: rest) = Done (acc ++ vs) (t :: rest).
Proof.
  induction vs as [|v vs IH]; intros acc fuel t rest Hn Hf Ht; [done|]. cbn [length] in Hf. destruct fuel as [|fuel]; [lia|].
  destruct t as [tv tk]. unfold closes in Ht. cbn [t_kind] in Ht. subst tk.
  destruct vs as [|w vs].
  - by destruct fuel as [|fuel]; [cbn in Hf; lia|].
  - assert (∀ X, repeat_p (λ vs, branch (λ t, kind_is tRParen t || kind_is tEOF t) (mret (inr vs)) (v ← word e; _ ← skip_comma; mret (inl (vs ++ [v]))))
      (S fuel) acc (str_tok v :: Tok [44] tComma :: str_tok w :: X) =
      repeat_p (λ vs, branch (λ t, kind_is tRParen t || kind_is tEOF t) (mret (inr vs)) (v ← word e; _ ← skip_comma; mret (inl (vs ++ [v]))))
      fuel (acc ++ [v]) (str_tok w :: X)) as Hstep by done.
    specialize (IH (acc ++ [v]) fuel (Tok tv tRParen) rest ltac:(done) ltac:(lia) ltac:(done)). rewrite <- app_assoc in IH. cbn [app] in IH. rewrite <- IH.
    cbn [fmap list_fmap sep_toks app] in *. destruct vs as [|x vs]; cbn [fmap list_fmap sep_toks app] in *; apply Hstep.
Qed.
Lemma sep_toks_length (vs : list bytes) : le (length vs) (length (sep_toks ((λ v, [str_tok v]) <$> vs) [Tok [44] tComma])).
Proof. induction vs as [|v [|w vs] IH]; [done|done|]. cbn [fmap list_fmap sep_toks app length] in *. lia. Qed.
Lemma reads_word_list e vs : reads_as closes (word_list e) (sep_toks ((λ v, [str_tok v]) <$> vs) [Tok [44] tComma]) vs.
Proof.
  intros t rest Ht. unfold word_list, loop. destruct vs as [|v vs].
  - destruct t as [tv tk]. unfold closes in Ht. cbn [t_kind] in Ht. by subst tk.
  - apply (reads_word_list_from e (v :: vs) []); [done| |done]. pose proof (sep_toks_length (v :: vs)) as H. rewrite length_app. cbn [length] in *. lia.
Qed.

(** ** Predicates *)

Section atoms.
Context {T : GoText} {D : GoTime} {F : GoFold} {L : AsciiFold T F}.

Lemma EqualFold_lit (a b : string) :
  forallb (λ c, bool_decide (0 ≤ c < 128)) (lit a ++ lit b) = true → EqualFold (lit a) (lit b) = bool_decide (ascii_lower (lit a) = ascii_lower (lit b)).
Proof.
  rewrite forallb_app, andb_true_iff, !forallb_forall. intros [Ha Hb].
  apply EqualFold_law; apply Forall_forall; intros c Hc%list_elem_of_In; [apply Ha in Hc|apply Hb in Hc]; by apply bool_decide_eq_true in Hc.
Qed.
Lemma is_kw_true (n m : string) :
  forallb (λ c, bool_decide (0 ≤ c < 128)) (lit n ++ lit m) && bool_decide (ascii_lower (lit n) = ascii_lower (lit m)) = true →
  is_kw m (Tok (lit n) tIdent) = true.
Proof. intros [H1 H2]%andb_true_iff. unfold is_kw. cbn [t_val]. by rewrite EqualFold_lit. Qed.
Lemma is_kw_false (n m : string) :
  forallb (λ c, bool_decide (0 ≤ c < 128)) (lit n ++ lit m) && negb (bool_decide (ascii_lower (lit n) = ascii_lower (lit m))) = true →
  is_kw m (Tok (lit n) tIdent) = false.
Proof. intros [H1 H2%negb_true_iff]%andb_true_iff. unfold is_kw. cbn [t_val]. by rewrite EqualFold_lit. Qed.
Ltac kw_go :=
  repeat match goal with
  | |- context [is_kw ?m (Tok (lit ?n) tIdent)] => first [rewrite (is_kw_true n m) by done|rewrite (is_kw_false n m) by done]
  end.

Context (parseOr : P qexpr) (parsePipes : P (list qpipe)).

(** A call of a matcher on a list, on two texts, on one. *)
Lemma reads_parenValueList name args : reads_as always (parenValueList name) (call_toks name args) args.
Proof.
  unfold parenValueList, call_toks. do 2 (eapply reads_cons; [apply reads_next|]).
  eapply reads_bind_stop; [apply reads_word_list|done|]. reads_go.
Qed.
Lemma in_scan_args (args : list bytes) t rest :
  in_scan (sep_toks ((λ v, [str_tok v]) <$> args) [Tok [44] tComma] ++ Tok t tRParen :: rest) = false.
Proof. induction args as [|v [|w args] IH]; [done|done|]. exact IH. Qed.
Lemma reads_in f args : reads_as always (in_matcher parseOr parsePipes f) (call_toks "in" args) (QLeaf (vals_pred f KIn args)).
Proof.
  intros t rest Ht. unfold in_matcher.
  assert (in_scan (drop 2 (call_toks "in" args ++ t :: rest)) = false) as ->.
  { unfold call_toks. cbn [app drop]. rewrite <- app_assoc. apply in_scan_args. }
  unfold mbind at 1, P_bind at 1, parser_bind at 1. by rewrite reads_parenValueList.
Qed.
Lemma reads_twoStrArgs name lo hi : reads_as always (twoStrArgs name) (call_toks name [lo; hi]) (lo, hi).
Proof. unfold twoStrArgs, value, call_toks. cbn [fmap list_fmap sep_toks app]. reads_go. Qed.
Lemma fieldCmpKind_name k :
  k ∈ [KEqField; KNeField; KLtField; KLeField; KGtField; KGeField] → fieldCmpKind (lit (field_name k)) = Some k.
Proof.
  intros Hk. unfold fieldCmpKind, is_kw. rewrite name_lower by (by destruct k; apply is_name_lit).
  repeat (apply elem_of_cons in Hk as [->|Hk]; [done|]). by apply not_elem_of_nil in Hk.
Qed.

Ltac call_go :=
  unfold call_toks; cbn [app peek_tok head hd_error tail drop default from_option id]; kw_go;
  repeat match goal with |- context [kind_is ?k (Tok ?x ?l)] => let b := eval vm_compute in (bool_decide (l = k)) in change (kind_is k (Tok x l)) with b end;
  cbn [andb].
Lemma reads_regexp_leaf f v k :
  (if has_meta v then k = KRegexp ∧ is_Some (regexp_Compile v) else k = KContains) →
  reads_as always (regexp_leaf f) [str_tok v] (QLeaf (val_pred f k v)).
Proof.
  intros H. unfold regexp_leaf. eapply reads_cons; [apply reads_word|]. destruct (has_meta v); [|by subst; apply reads_ret].
  destruct H as [-> [r ->]]. apply reads_ret.
Qed.
Lemma reads_prefix f v : ¬ (v = [] ∨ head v = Some 42) → reads_as always (plain_matcher f) [str_tok (v ++ [42])] (QLeaf (val_pred f KPrefix v)).
Proof.
  intros Hv. unfold plain_matcher. eapply reads_cons; [apply reads_word|]. destruct v as [|c v]; [tauto|]. cbn [app head] in *.
  rewrite bool_decide_false by tauto. change (c :: v ++ [42]) with ((c :: v) ++ [42]). rewrite last_snoc, bool_decide_true by done.
  rewrite length_app, Nat.add_sub, take_app_length. apply reads_ret.
Qed.
Lemma reads_matcher a : atom_ok a = true → reads_as always (parseMatcher parseOr parsePipes (atom_field a)) (drop 2 (atom_toks a)) (QLeaf (atom_pred a)).
Proof.
  intros Hok t rest Ht. unfold parseMatcher. cbv zeta.
  destruct a; unfold atom_ok in Hok; cbn [atom_field] in *; try (apply andb_true_iff in Hok as [Hf%negb_true_iff Hok]; rewrite Hf); cbn [atom_toks drop atom_pred].
  - apply (reads_cons always _ _ (Tok [61] tOp) [str_tok v] (Tok [61] tOp)); [apply reads_next| |done]. cbn. reads_go.
  - apply (reads_cons always _ _ (Tok [126] tOp) [str_tok v] (Tok [126] tOp)); [apply reads_next| |done]. cbn.
    apply reads_regexp_leaf. by apply negb_true_iff in Hok as ->.
  - apply (reads_cons always _ _ (Tok [126] tOp) [str_tok v] (Tok [126] tOp)); [apply reads_next| |done]. cbn.
    apply reads_regexp_leaf. apply andb_true_iff in Hok as [-> Hc]. split; [done|]. by destruct (regexp_Compile v).
  - apply negb_true_iff, bool_decide_eq_false in Hok. by apply reads_prefix.
  - call_go. by apply reads_in.
  - call_go.
    exact (reads_map always _ (λ vs, QLeaf (vals_pred f KSeq vs)) _ vs (reads_parenValueList "seq" vs) t rest Ht).
  - call_go.
    exact (reads_map always _ (λ x, QLeaf (strs_pred f KStringRange x.1 x.2)) _ (lo, hi) (reads_twoStrArgs "string_range" lo hi) t rest Ht).
  - call_go.
    by unfold mbind, P_bind, parser_bind.
  - apply bool_decide_eq_true in Hok. pose proof (fieldCmpKind_name k Hok) as Hk.
    repeat (apply elem_of_cons in Hok as [->|Hok]; [unfold field_name in *; call_go; cbn [andb t_val]; by rewrite Hk|]). by apply not_elem_of_nil in Hok.
  - done.
Qed.

Lemma atom_toks_cons a : atom_toks a = str_tok (atom_field a) :: Tok [58] tColon :: drop 2 (atom_toks a).
Proof. by destruct a. Qed.
Lemma atom_not_brace a t rest : kind_is tLBrace (peek_tok (drop 2 (atom_toks a) ++ t :: rest)) = false.
Proof. by destruct a. Qed.
Lemma reads_atom a : atom_ok a = true → reads_as always (parseTerm parseOr parsePipes) (atom_toks a) (QLeaf (atom_pred a)).
Proof.
  intros Hok. unfold parseTerm. rewrite atom_toks_cons. eapply reads_cons; [apply reads_next|].
  change (negb (is_word_tok (str_tok (atom_field a)))) with false. cbv iota. apply reads_branch.
  change (kind_is tColon (Tok [58] tColon)) with true. cbv iota. eapply reads_cons; [apply reads_next|]. intros t rest Ht. unfold branch.
  rewrite atom_not_brace, andb_false_r. by apply reads_matcher.
Qed.
Lemma reads_all : reads_as always (parseTerm parseOr parsePipes) (tree_toks TAll LUnit) (QAnd []).
Proof.
  unfold parseTerm. cbn [tree_toks]. eapply reads_cons; [apply reads_next|].
  change (negb (is_word_tok (str_tok s_stream))) with false. cbv iota. apply reads_branch.
  change (kind_is tColon (Tok [58] tColon)) with true. cbv iota. eapply reads_cons; [apply reads_next|]. apply reads_branch.
  change s_stream with (lit "_stream") at 2. change (t_val (str_tok s_stream)) with (lit "_stream"). rewrite EqualFold_lit by done. by intros t rest Ht.
Qed.
End atoms.

(** ** Trees *)

Section trees.
Context {T : GoText} {D : GoTime} {F : GoFold} {L : AsciiFold T F}.

(** What ends a conjunction, and a disjunction. *)
Definition ends_and (t : token) : Prop := t_kind t ≠ tAnd ∧ startsTerm (t_kind t) = false.
Definition ends_or (t : token) : Prop := ends_and t ∧ t_kind t ≠ tOr.
Definition starts_unit (ts : list token) : Prop := ∃ u ts', ts = u :: ts' ∧ startsTerm (t_kind u) = true ∧ t_kind u ≠ tAnd.

Lemma repeat_inl {E X A B} (step : A → parser E X (A + B)) fuel a s a' s' :
  step a s = Done (inl a') s' → repeat_p step (S fuel) a s = repeat_p step fuel a' s'.
Proof. intros H. cbn [repeat_p]. unfold mbind, parser_bind. by rewrite H. Qed.
Lemma repeat_inr {E X A B} (step : A → parser E X (A + B)) fuel a s b s' :
  step a s = Done (inr b) s' → repeat_p step (S fuel) a s = Done b s'.
Proof. intros H. cbn [repeat_p]. unfold mbind, parser_bind. by rewrite H. Qed.

Section levels.
Context (u : P qexpr).
Definition and_step (kids : list qexpr) : P (list qexpr + list qexpr) :=
  _ ← branch (kind_is tAnd) (_ ← next; mret tt) (mret tt);
  branch (λ t, startsTerm (t_kind t)) (r ← u; mret (inl (kids ++ [r]))) (mret (inr kids)).
Definition or_step (kids : list qexpr) : P (list qexpr + list qexpr) :=
  branch (kind_is tOr) (_ ← next; r ← parseAnd_of u; mret (inl (kids ++ [r]))) (mret (inr kids)).
Lemma and_step_ends kids t rest : ends_and t → and_step kids (t :: rest) = Done (inr kids) (t :: rest).
Proof.
  intros [H1 H2]. unfold and_step, mbind, P_bind, parser_bind, branch, kind_is. cbn [peek_tok head hd_error default from_option id].
  rewrite bool_decide_false by done. cbn [mret P_ret parser_ret]. cbn [peek_tok head hd_error default from_option id]. by rewrite H2.
Qed.
Lemma and_step_unit kids ts e X t : starts_unit ts → reads_as always u ts e → and_step kids (ts ++ t :: X) = Done (inl (kids ++ [e])) (t :: X).
Proof.
  intros (v & ts' & -> & H1 & H2) Hu. unfold and_step, mbind, P_bind, parser_bind, branch, kind_is. cbn [app peek_tok head hd_error default from_option id].
  rewrite bool_decide_false by done. cbn [mret P_ret parser_ret]. cbn [peek_tok head hd_error default from_option id]. rewrite H1.
  change (v :: ts' ++ t :: X) with ((v :: ts') ++ t :: X). by rewrite Hu.
Qed.
Lemma and_loop l es : Forall2 (λ ts e, starts_unit ts ∧ reads_as always u ts e) l es → ∀ kids fuel t rest, (length l < fuel)%nat → ends_and t →
  repeat_p and_step fuel kids (concat l ++ t :: rest) = Done (kids ++ es) (t :: rest).
Proof.
  induction 1 as [|ts e l es [Hs Hu] _ IH]; intros kids [|fuel] t rest Hf Ht; cbn [length] in Hf; try lia.
  - cbn [concat app]. rewrite app_nil_r. by apply repeat_inr, and_step_ends.
  - cbn [concat]. rewrite <- app_assoc. assert (∃ v X, concat l ++ t :: rest = v :: X) as (v & X & E) by (destruct (concat l); eauto).
    rewrite E. rewrite (repeat_inl _ _ _ _ _ _ (and_step_unit kids ts e X v Hs Hu)), <- E, IH by (done || lia). by rewrite <- app_assoc.
Qed.
Lemma concat_length {A} (l : list (list A)) : Forall (λ x, x ≠ []) l → (length l ≤ length (concat l))%nat.
Proof. induction 1 as [|x l Hx _ IH]; [done|]. cbn [concat length]. rewrite length_app. destruct x; [done|]. cbn [length]. lia. Qed.
Lemma units_nonempty l es : Forall2 (λ ts e, starts_unit ts ∧ reads_as always u ts e) l es → Forall (λ x, x ≠ []) l.
Proof. induction 1 as [|ts e l es [(v & ts' & -> & _) _] _ IH]; by constructor. Qed.
Lemma reads_and ts e l es :
  reads_as always u ts e → Forall2 (λ ts e, starts_unit ts ∧ reads_as always u ts e) l es →
  reads_as ends_and (parseAnd_of u) (ts ++ concat l) (one_or QAnd (e :: es)).
Proof.
  intros Hu H. unfold parseAnd_of. eapply reads_bind; [exact Hu|].
  apply (reads_map ends_and _ (one_or QAnd) _ (e :: es)). intros t rest Ht. unfold loop. apply (and_loop l es H [e]); [|done].
  pose proof (concat_length l (units_nonempty _ _ H)). rewrite length_app. cbn [length]. lia.
Qed.
Definition or_toks (ts : list token) : list token := Tok [111; 114] tOr :: ts.
Lemma or_step_ends kids t rest : ends_or t → or_step kids (t :: rest) = Done (inr kids) (t :: rest).
Proof.
  intros [_ H]. unfold or_step, branch, kind_is. cbn [peek_tok head hd_error default from_option id]. by rewrite bool_decide_false.
Qed.
Lemma or_step_and kids ts e X t : ends_and t → reads_as ends_and (parseAnd_of u) ts e → or_step kids (or_toks ts ++ t :: X) = Done (inl (kids ++ [e])) (t :: X).
Proof.
  intros Ht H. unfold or_step, branch, or_toks. cbn [app peek_tok head hd_error default from_option id].
  change (kind_is tOr (Tok [111; 114] tOr)) with true. cbv iota. unfold mbind, P_bind, parser_bind.
  assert (next (Tok [111; 114] tOr :: ts ++ t :: X) = Done (Tok [111; 114] tOr) (ts ++ t :: X)) as -> by (by destruct ts).
  by rewrite H.
Qed.
Lemma or_loop l es : Forall2 (reads_as ends_and (parseAnd_of u)) l es → ∀ kids fuel t rest, (length l < fuel)%nat → ends_or t →
  repeat_p or_step fuel kids (concat (or_toks <$> l) ++ t :: rest) = Done (kids ++ es) (t :: rest).
Proof.
  induction 1 as [|ts e l es Hu Hl IH]; intros kids [|fuel] t rest Hf Ht; cbn [length] in Hf; try lia.
  - cbn [concat app fmap list_fmap]. rewrite app_nil_r. by apply repeat_inr, or_step_ends.
  - cbn [concat fmap list_fmap]. rewrite <- app_assoc.
    assert (∃ v X, concat (or_toks <$> l) ++ t :: rest = v :: X ∧ ends_and v) as (v & X & E & Hv).
    { destruct l as [|ts' l]; [exists t, rest; by destruct Ht|]. eexists _, _. split; [reflexivity|]. by split. }
    change (list_fmap (list token) (list token) or_toks l) with (or_toks <$> l).
    rewrite E. rewrite (repeat_inl _ _ _ _ _ _ (or_step_and kids ts e X v Hv Hu)), <- E, IH by (done || lia). by rewrite <- app_assoc.
Qed.
Lemma reads_or ts e l es :
  reads_as ends_and (parseAnd_of u) ts e → Forall2 (reads_as ends_and (parseAnd_of u)) l es →
  reads_as ends_or (parseOr_of u) (ts ++ concat (or_toks <$> l)) (one_or QOr (e :: es)).
Proof.
  intros Hu H t rest Ht. unfold parseOr_of. rewrite <- app_assoc. unfold mbind at 1, P_bind at 1, parser_bind at 1.
  assert (∃ v X, concat (or_toks <$> l) ++ t :: rest = v :: X ∧ ends_and v) as (v & X & E & Hv).
  { destruct l as [|ts' l]; [exists t, rest; by destruct Ht|]. eexists _, _. split; [reflexivity|]. by split. }
  rewrite E, (Hu v X Hv), <- E. refine (reads_map ends_or _ (one_or QOr) (concat (or_toks <$> l)) (e :: es) _ t rest Ht).
  intros t' rest' Ht'. unfold loop. apply (or_loop l es H [e]); [|done].
  assert (Forall (λ x, x ≠ []) (or_toks <$> l)) as Hn by (apply Forall_fmap, Forall_true; done).
  apply concat_length in Hn. rewrite length_fmap in Hn. rewrite length_app. cbn [length]. lia.
Qed.
(** A unit is a conjunction, and a conjunction a disjunction. *)
Lemma reads_unit_and ts e : reads_as always u ts e → reads_as ends_and (parseAnd_of u) ts e.
Proof. intros H. rewrite <- (app_nil_r ts). by apply (reads_and ts e [] []). Qed.
Lemma reads_and_or ts e : reads_as ends_and (parseAnd_of u) ts e → reads_as ends_or (parseOr_of u) ts e.
Proof. intros H. rewrite <- (app_nil_r ts). by apply (reads_or ts e [] []). Qed.
End levels.

Lemma sep_toks_cons x l sep : sep_toks (x :: l) sep = x ++ concat ((λ y, sep ++ y) <$> l).
Proof.
  revert x. induction l as [|y l IH]; intros x; [by cbn; rewrite app_nil_r|].
  change (sep_toks (x :: y :: l) sep) with (x ++ sep ++ sep_toks (y :: l) sep). rewrite IH. cbn [fmap list_fmap concat]. by rewrite <- app_assoc.
Qed.
Lemma sep_toks_le x l sep : x ∈ l → (length x ≤ length (sep_toks l sep))%nat.
Proof.
  induction l as [|y l IH]; intros Hx; [by apply not_elem_of_nil in Hx|]. destruct l as [|z l]; [by apply list_elem_of_singleton in Hx as ->|].
  change (sep_toks (y :: z :: l) sep) with (y ++ sep ++ sep_toks (z :: l) sep). rewrite !length_app. apply elem_of_cons in Hx as [->|Hx]; [lia|].
  specialize (IH Hx). lia.
Qed.
Lemma reads_paren fuel ts e :
  reads_as ends_or (parseOr_of (parseUnary fuel)) ts e → reads_as always (parseUnary (S fuel)) (toks_in_parens ts) e.
Proof.
  intros H. change (reads_as always (unary_of (parseUnary fuel) (parsePipes fuel)) (toks_in_parens ts) e). unfold unary_of, toks_in_parens.
  apply reads_branch. change (kind_is tNot (Tok [40] tLParen)) with false. cbv iota. apply reads_branch.
  change (kind_is tLParen (Tok [40] tLParen)) with true. cbv iota. eapply reads_cons; [apply reads_next|].
  eapply reads_bind_stop; [exact H|done|]. reads_go.
Qed.
Lemma reads_not fuel ts e : reads_as always (parseUnary fuel) ts e → reads_as always (parseUnary (S fuel)) (Tok [33] tNot :: ts) (QNot e).
Proof.
  intros H. change (reads_as always (unary_of (parseUnary fuel) (parsePipes fuel)) (Tok [33] tNot :: ts) (QNot e)). unfold unary_of.
  apply reads_branch. change (kind_is tNot (Tok [33] tNot)) with true. cbv iota. eapply reads_cons; [apply reads_next|].
  by apply (reads_map always _ QNot).
Qed.
Lemma reads_term fuel s ts e :
  reads_as always (parseTerm (parseOr_of (parseUnary fuel)) (parsePipes fuel)) (str_tok s :: ts) e → reads_as always (parseUnary (S fuel)) (str_tok s :: ts) e.
Proof.
  intros H. change (reads_as always (unary_of (parseUnary fuel) (parsePipes fuel)) (str_tok s :: ts) e). unfold unary_of.
  apply reads_branch. change (kind_is tNot (str_tok s)) with false. cbv iota. apply reads_branch.
  by change (kind_is tLParen (str_tok s)) with false.
Qed.
Lemma starts_unit_tree t : starts_unit (tree_toks t LUnit).
Proof. destruct t; cbn [tree_toks]; try (by eexists _, _). Qed.
Definition parses (t : tree) : Prop := ∀ fuel,
  ((length (tree_toks t LUnit) ≤ fuel)%nat → reads_as always (parseUnary fuel) (tree_toks t LUnit) (tree_expr t)) ∧
  ((length (tree_toks t LAnd) ≤ fuel)%nat → reads_as ends_and (parseAnd_of (parseUnary fuel)) (tree_toks t LAnd) (tree_expr t)).
(** The children's tokens fit. *)
Lemma kids_fit l sep kids fuel : (length (sep_toks ((λ k, tree_toks k l) <$> kids) sep) ≤ fuel)%nat → Forall (λ k, (length (tree_toks k l) ≤ fuel)%nat) kids.
Proof. intros H. apply Forall_forall. intros k Hk. etrans; [|exact H]. apply sep_toks_le. by apply (list_elem_of_fmap_2 (λ k, tree_toks k l)). Qed.
Lemma reads_kids_and kids fuel :
  (2 ≤ length kids)%nat → Forall parses kids → (length (tree_toks (TAnd kids) LAnd) ≤ fuel)%nat →
  reads_as ends_and (parseAnd_of (parseUnary fuel)) (tree_toks (TAnd kids) LAnd) (QAnd (tree_expr <$> kids)).
Proof.
  intros Hl Hk Hf. cbn [tree_toks] in *. apply kids_fit in Hf. destruct kids as [|k1 [|k2 kids]]; [cbn in Hl; lia|cbn in Hl; lia|].
  rewrite fmap_cons, sep_toks_cons. cbn [app]. rewrite list_fmap_id.
  assert (Forall (λ k, starts_unit (tree_toks k LUnit) ∧ reads_as always (parseUnary fuel) (tree_toks k LUnit) (tree_expr k)) (k1 :: k2 :: kids)) as H.
  { apply Forall_forall. intros k Hin. rewrite Forall_forall in Hk, Hf. split; [apply starts_unit_tree|]. apply (Hk k Hin fuel), Hf, Hin. }
  apply Forall_cons in H as [[_ H1] H].
  change (QAnd _) with (one_or QAnd (tree_expr k1 :: (tree_expr <$> k2 :: kids))). apply (reads_and _ _ _ _ (tree_expr <$> k2 :: kids)); [done|].
  apply Forall2_fmap, Forall_Forall2_diag. exact H.
Qed.
Lemma reads_kids_or kids fuel :
  (2 ≤ length kids)%nat → Forall parses kids → (length (tree_toks (TOr kids) LOr) ≤ fuel)%nat →
  reads_as ends_or (parseOr_of (parseUnary fuel)) (tree_toks (TOr kids) LOr) (QOr (tree_expr <$> kids)).
Proof.
  intros Hl Hk Hf. cbn [tree_toks] in *. apply kids_fit in Hf. destruct kids as [|k1 [|k2 kids]]; [cbn in Hl; lia|cbn in Hl; lia|].
  rewrite fmap_cons, sep_toks_cons.
  assert (Forall (λ k, reads_as ends_and (parseAnd_of (parseUnary fuel)) (tree_toks k LAnd) (tree_expr k)) (k1 :: k2 :: kids)) as H.
  { apply Forall_forall. intros k Hin. rewrite Forall_forall in Hk, Hf. apply (Hk k Hin fuel), Hf, Hin. }
  apply Forall_cons in H as [H1 H].
  change (QOr _) with (one_or QOr (tree_expr k1 :: (tree_expr <$> k2 :: kids))).
  apply (reads_or _ _ _ ((λ k, tree_toks k LAnd) <$> k2 :: kids) (tree_expr <$> k2 :: kids)); [done|].
  apply Forall2_fmap, Forall_Forall2_diag. exact H.
Qed.

Lemma parses_tree t : tree_ok t = true → parses t.
Proof.
  induction t as [|a|kids IH|kids IH|c IH] using tree_ind'; intros Hok fuel.
  - assert (∀ n, reads_as always (parseUnary (S n)) (tree_toks TAll LUnit) (QAnd [])) as H by (intros n; apply reads_term, reads_all).
    destruct fuel as [|fuel]; [cbn; lia|]. split; intros _; [apply H|apply reads_unit_and, H].
  - assert (∀ n, reads_as always (parseUnary (S n)) (atom_toks a) (QLeaf (atom_pred a))) as H.
    { intros n. rewrite atom_toks_cons. apply reads_term. rewrite <- atom_toks_cons. by apply reads_atom. }
    cbn [tree_toks]. rewrite atom_toks_cons. destruct fuel as [|fuel]; [cbn; lia|]. rewrite <- atom_toks_cons.
    split; intros _; [apply H|apply reads_unit_and, H].
  - apply (kids_ok _ _ IH) in Hok as [Hl Hk]. split; [|by apply reads_kids_and].
    intros Hf. cbn [tree_toks] in Hf. unfold toks_in_parens in Hf. cbn [length] in Hf. destruct fuel as [|fuel]; [lia|]. rewrite length_app in Hf.
    cbn [tree_toks tree_expr]. apply reads_paren, reads_and_or, reads_kids_and; [done|done|cbn [tree_toks]; lia].
  - apply (kids_ok _ _ IH) in Hok as [Hl Hk].
    assert ((length (toks_in_parens (tree_toks (TOr kids) LOr)) ≤ fuel)%nat →
      reads_as always (parseUnary fuel) (toks_in_parens (tree_toks (TOr kids) LOr)) (QOr (tree_expr <$> kids))) as H.
    { intros Hf. unfold toks_in_parens in Hf. cbn [length] in Hf. destruct fuel as [|fuel]; [lia|]. rewrite length_app in Hf.
      apply reads_paren, reads_kids_or; [done|done|lia]. }
    split; [exact H|]. intros Hf. apply reads_unit_and, H, Hf.
  - assert ((length (tree_toks (TNot c) LUnit) ≤ fuel)%nat → reads_as always (parseUnary fuel) (tree_toks (TNot c) LUnit) (QNot (tree_expr c))) as H.
    { intros Hf. cbn [tree_toks length] in *. destruct fuel as [|fuel]; [lia|]. apply reads_not, (IH Hok fuel). lia. }
    split; [exact H|]. intros Hf. apply reads_unit_and, H, Hf.
Qed.
Lemma parses_disjunction t fuel :
  tree_ok t = true → (length (tree_toks t LOr) ≤ fuel)%nat → reads_as ends_or (parseOr_of (parseUnary fuel)) (tree_toks t LOr) (tree_expr t).
Proof.
  intros Hok Hf. destruct t as [|a|kids|kids|c]; [..|exact (reads_and_or _ _ _ (proj2 (parses_tree (TNot c) Hok fuel) Hf))].
  - exact (reads_and_or _ _ _ (proj2 (parses_tree TAll Hok fuel) Hf)).
  - exact (reads_and_or _ _ _ (proj2 (parses_tree (TAtom a) Hok fuel) Hf)).
  - exact (reads_and_or _ _ _ (proj2 (parses_tree (TAnd kids) Hok fuel) Hf)).
  - cbn [tree_ok] in Hok. apply (kids_ok parses kids) in Hok as [Hl Hk]; [by apply reads_kids_or|].
    apply Forall_true. intros k. apply parses_tree.
Qed.
(** No pipes before the end. *)
Lemma parse_tokens_tree t : tree_ok t = true → parse_tokens (tree_toks t LOr ++ [eof]) = Done (tree_expr t, []) [eof].
Proof.
  intros Hok. unfold parse_tokens. unfold mbind at 1, P_bind at 1, parser_bind at 1.
  assert (ends_or eof) as He by done.
  rewrite (parses_disjunction t (length (tree_toks t LOr ++ [eof])) Hok ltac:(rewrite length_app; lia) eof [] He).
  rewrite length_app, Nat.add_comm. done.
Qed.

Lemma printed_filter_parses t :
  tree_ok t = true →
  ParseLogsQL (tree_text t LOr) =
    Done (match tree_expr t with
          | QAnd [] => ([], None, [])
          | e => match flatConjunction e with Some preds => (preds, None, []) | None => ([], Some e, []) end
          end) tt.
Proof.
  intros Hok. destruct (tree_marks t Hok LOr) as [Hs He]. unfold ParseLogsQL. cbv zeta. rewrite TrimSpace_marked by done.
  destruct Hs as (c & s & E & Hc).
  rewrite bool_decide_false by (rewrite E; intros [H|[= H H']]; [done|lia]).
  pose proof (lexes_tree t Hok LOr []) as H. rewrite app_nil_r in H. rewrite H.
  change (lexLogsQL []) with (Some [eof]). cbn [fmap option_fmap option_map]. rewrite parse_tokens_tree by done.
  by destruct (tree_expr t) as [| |[|]| |].
Qed.

(** C18: Every filter of [tree_ok] has a text that parses back to it: for a tree of
    negations and of conjunctions and disjunctions of two or more over the ten
    predicates of [LogsQLText.atom], quoted with their quotes and backslashes escaped,
    and with parentheses only where precedence needs them, the lexer and the parser
    give that tree. Names and values are any bytes, except that only a stream id
    predicate names the field [_stream_id], a contained value has no byte of a
    pattern and a pattern has one and compiles, and a prefix is not empty and does
    not start with a star. *)
Theorem filter_text_parses t :
  tree_ok t = true →
  ParseLogsQL (tree_text t LOr) =
    Done (match tree_expr t with
          | QAnd [] => ([], None, [])
          | e => match flatConjunction e with Some preds => (preds, None, []) | None => ([], Some e, []) end
          end) tt.
Proof. by apply printed_filter_parses. Qed.
End trees.

(** ** A witness *)

(** Text whose letters are ASCII, and no patterns. *)
#[local] Instance ascii_text : GoText :=
  {| ParseFloat := λ _, None; regexp_Compile := λ _, None; ToLower := ascii_lower; uint32_of := λ _, 0; Format_RFC3339Nano := λ _, [] |}.
#[local] Instance no_time : GoTime := {| time_Parse := λ _ _, None; AddDate := λ t _ _ _, t |}.
#[local] Instance ascii_fold : GoFold := {| EqualFold := λ a b, bool_decide (ascii_lower a = ascii_lower b) |}.
#[local] Instance ascii_fold_law : AsciiFold ascii_text ascii_fold.
Proof. by constructor. Qed.
(** A disjunction inside a conjunction, a negation, a value that holds a quote. *)
Definition sample_tree : tree :=
  TAnd [TOr [TAtom (AEq [108; 118; 108] [101; 114; 114]); TNot (TAtom (AContains [109] [97; 34; 98]))]; TAtom (AIn [107] [[120]; [121]])].
Lemma filter_text_parses_witness :
  tree_ok sample_tree = true ∧
  ParseLogsQL (tree_text sample_tree LOr) =
    Done (match tree_expr sample_tree with
          | QAnd [] => ([], None, [])
          | e => match flatConjunction e with Some preds => (preds, None, []) | None => ([], Some e, []) end
          end) tt.
Proof. split; [by vm_compute|]. apply (filter_text_parses sample_tree). by vm_compute. Defined.
