(* ===== verification/Records.v ===== *)
(** * Records: times, mappings, embeddings, results

    What the ingest protocols share: the time of a record ([time.go], [parseTime]
    of [jsonline.go]), the field mappings of a request ([options.go]), the
    embeddings ([value.go]) and the answer of one call ([result.go]). A record
    handed to the writer is a [writer_call], a call of [addVec], in order. A count of
    digits is read exactly or refused, and no accepted time wraps ([times_exact]). *)

From Stdlib Require Import Ascii String SpecFloat.
From S2P Require Import Prelude Digits GoLib Writer Filter Engine TimeFilter Text Rows.
From stdpp Require Import list gmap.
Local Open Scope Z_scope.

(** ** Definitions *)

(** [strconv.ParseFloat(s, 32)], and [growslice]: the capacity the runtime gives a
    slice that must hold [n] elements. *)
Class GoSlices := { ParseFloat32 : bytes → option spec_float; growslice : nat → nat }.

(** *** [float32] *)

Definition float32_of (f : spec_float) : spec_float :=
  match f with S754_finite s m e => binary_normalize 24 128 (if s then Z.neg m else Z.pos m) e s | _ => f end.
Definition Float32bits (f : spec_float) : Z :=
  let sign (s : bool) := if s then 2 ^ 31 else 0 in
  match f with
  | S754_zero s => sign s
  | S754_infinity s => sign s + 255 * 2 ^ 23
  | S754_nan => 255 * 2 ^ 23 + 2 ^ 22
  | S754_finite s m e => sign s + (if bool_decide (Z.pos m < 2 ^ 23) then Z.pos m else (e + 150) * 2 ^ 23 + (Z.pos m - 2 ^ 23))
  end.
Definition float32 (f : spec_float) : Z := Float32bits (float32_of f).
Definition not_finite (f : spec_float) : bool := match f with S754_nan | S754_infinity _ => true | _ => false end.

(** *** Times *)

(** A time that parses and cannot be stored: a count out of range with its unit, an
    instant, a [float64] count. *)
Inductive tsErr := tsRange (value unit : bytes) | tsInstant (t : Z) | tsFloat (f : spec_float).
Definition timeLayouts : list string :=
  ["2006-01-02T15:04:05.999999999Z07:00"; "2006-01-02T15:04:05Z07:00"; "2006-01-02T15:04:05.000Z07:00"; "2006-01-02 15:04:05"]%string.
Definition ascii_digit (c : Z) : bool := bool_decide (48 ≤ c ≤ 57).
Definition allDigits (s : bytes) : bool :=
  match s with
  | [] => false
  | c :: s' => if bool_decide (c = 45 ∨ c = 43) then negb (bool_decide (s' = [])) && forallb ascii_digit s' else forallb ascii_digit s
  end.
Definition isIntegerLiteral (b : bytes) : bool :=
  match b with
  | [] => false
  | c :: b' => if bool_decide (c = 45) then negb (bool_decide (b' = [])) && forallb ascii_digit b' else forallb ascii_digit b
  end.
(** An instant is a count of nanoseconds since the epoch, in any year. *)
Definition nanosOf (t : Z) : tsErr + Z := if bool_decide (t < MinInt64 ∨ MaxInt64 < t) then inl (tsInstant t) else inr t.
(** [int64(f)] of a number it can hold. *)
Definition float_trunc (f : spec_float) : Z :=
  match f with
  | S754_finite s m e =>
      let n := if bool_decide (0 ≤ e) then Z.shiftl (Z.pos m) e else Z.shiftr (Z.pos m) (- e) in if s then - n else n
  | _ => 0
  end.
Definition twoPow63 : spec_float := S754_finite false 4503599627370496 11.
Definition floatNanos (f : spec_float) : tsErr + option Z :=
  if (match f with S754_nan => true | _ => false end) || SFleb twoPow63 f || SFltb f (SFopp twoPow63) then inl (tsFloat f)
  else inr (Some (float_trunc f)).

Section times.
Context {T : GoText} {D : GoTime}.

(** [None]: the layout does not match. *)
Definition parseLayout (layout : string) (s : bytes) : option (tsErr + Z) := nanosOf <$> time_Parse layout s.
Fixpoint layouts_loop (ls : list string) (s : bytes) : tsErr + option Z :=
  match ls with
  | [] => inr None
  | l :: ls' => match parseLayout l s with Some (inr t) => inr (Some t) | Some (inl e) => inl e | None => layouts_loop ls' s end
  end.
(** An error; a time; or [None], not a time at all. *)
Definition parseTime (s : bytes) : tsErr + option Z :=
  if allDigits s then match Filter.Atoi s with Some n => inr (Some n) | None => inl (tsRange s (lit "ns")) end
  else layouts_loop timeLayouts s.
Definition numberTime (raw : bytes) : tsErr + option Z :=
  if isIntegerLiteral raw then parseTime raw else match ParseFloat raw with None => inr None | Some f => floatNanos f end.
End times.
Definition isTimeKey (k : bytes) : bool := str_eqb k s_time || str_eqb k (lit "@timestamp").

(** *** Lines *)

(** The spaces a blank line may hold. *)
Definition line_space (c : Z) : bool := bool_decide (c = 32 ∨ c = 9 ∨ c = 13).
Definition trimSpace (b : bytes) : bytes :=
  let b := (span line_space b).2 in rev (span line_space (rev b)).2.
(** The line before the first [\n], and what follows it. *)
Definition cut_line (data : bytes) : bytes * bytes :=
  match IndexByte data 10 with Some nl => (take nl data, drop (S nl) data) | None => (data, []) end.
(** The lines of a body: every turn takes a byte. *)
Fixpoint lines_loop (fuel : nat) (data : bytes) : list bytes :=
  match fuel, data with
  | O, _ | _, [] => []
  | S fuel, _ => let x := cut_line data in x.1 :: lines_loop fuel x.2
  end.
Definition body_lines (data : bytes) : list bytes := lines_loop (length data) data.

(** *** Embeddings *)

Inductive vecErr :=
| vecNotArray (field : bytes) | vecNotNumber (field tok : bytes) | vecNotFinite (field tok : bytes) | vecTooMany (field : bytes) (dim : Z)
| vecCount (field : bytes) (n dim : Z) | vecShape (field : bytes) (dim : Z).
Definition splitTopLevel (s : bytes) : list bytes := match s with [] => [] | _ => split_on 44 s [] end.
Section vectors.
Context {T : GoText} {G : GoSlices}.

Fixpoint vector_toks (field : bytes) (dim : Z) (toks : list bytes) (dst : list Z) : vecErr + list Z :=
  match toks with
  | [] => if bool_decide (len dst = dim) then inr dst else inl (vecCount field (len dst) dim)
  | tok :: toks =>
      let tok := TrimSpace tok in
      if bool_decide (tok = []) then vector_toks field dim toks dst else
      match ParseFloat32 tok with
      | None => inl (vecNotNumber field tok)
      | Some f =>
          if not_finite f then inl (vecNotFinite field tok)
          else if bool_decide (len dst = dim) then inl (vecTooMany field dim)
          else vector_toks field dim toks (dst ++ [float32 f])
      end
  end.
(** The vector of a text, into an empty slice. *)
Definition ParseVector (field text : bytes) (dim : Z) : vecErr + list Z :=
  let s := TrimSpace text in
  if bool_decide (len s < 2 ∨ head s ≠ Some 91 ∨ last s ≠ Some 93) then inl (vecNotArray field)
  else vector_toks field dim (splitTopLevel (take (length s - 2) (drop 1 s))) [].

(** [-vector-fields]: [name:dim] pairs. *)
Inductive vecSpecErr := specNotPair (part : bytes) | specName (name : bytes) | specDim (part : bytes) | specCeiling (part : bytes) | specTwice (name : bytes).
Definition maxVectorDim : Z := 16384.
Fixpoint vector_specs (parts : list bytes) (out : gmap bytes Z) : vecSpecErr + gmap bytes Z :=
  match parts with
  | [] => inr out
  | part :: parts =>
      let part := TrimSpace part in
      if bool_decide (part = []) then vector_specs parts out else
      match IndexByte part 58 with
      | None => inl (specNotPair part)
      | Some i =>
          let name := TrimSpace (take i part) in
          if bool_decide (name = []) || controlField name || str_eqb name s_time then inl (specName name) else
          match Filter.Atoi (TrimSpace (drop (S i) part)) with
          | None => inl (specDim part)
          | Some d =>
              if bool_decide (d ≤ 0) then inl (specDim part)
              else if bool_decide (maxVectorDim < d) then inl (specCeiling part)
              else match out !! name with Some _ => inl (specTwice name) | None => vector_specs parts (<[name := d]> out) end
          end
      end
  end.
Definition ParseVectorFields (spec : bytes) : vecSpecErr + gmap bytes Z :=
  let spec := TrimSpace spec in if bool_decide (spec = []) then inr ∅ else vector_specs (split_on 44 spec []) ∅.
End vectors.

(** *** Mappings *)

Record Options := MkOptions {
  TimeField : bytes; MsgField : bytes; StreamFields : list bytes; IgnoreFields : list bytes; ExtraFields : list (bytes * bytes) }.
(** A [*Options] that may be nil. *)
Definition options_Empty (o : option Options) : bool :=
  match o with
  | None => true
  | Some o => bool_decide (TimeField o = [] ∧ MsgField o = [] ∧ StreamFields o = [] ∧ IgnoreFields o = [] ∧ ExtraFields o = [])
  end.
Definition isTime (o : option Options) (key : bytes) : bool :=
  match o with Some o => if bool_decide (TimeField o = []) then isTimeKey key else str_eqb key (TimeField o) | None => isTimeKey key end.
Definition apply_mapping (o : option Options) (fields : gmap bytes bytes) : gmap bytes bytes :=
  match o with
  | None => fields
  | Some o =>
      let fields :=
        if bool_decide (MsgField o ≠ [] ∧ MsgField o ≠ s_msg) then
          match fields !! MsgField o with Some v => delete (MsgField o) (<[s_msg := v]> fields) | None => fields end
        else fields in
      let fields := foldl (λ m f, delete f m) fields (IgnoreFields o) in
      let fields := foldl (λ m kv, <[kv.1 := kv.2]> m) fields (ExtraFields o) in
      if bool_decide (TimeField o = []) then fields else delete (TimeField o) fields
  end.
Definition splitList (v : bytes) : list bytes :=
  if bool_decide (v = []) then [] else List.filter (λ p, negb (bool_decide (p = []))) (TrimSpace <$> split_on 44 v []).
Definition parsePair (p : bytes) : option (bytes * bytes) :=
  match IndexByte p 61 with
  | Some (S i as eq) =>
      let k := TrimSpace (take eq p) in if bool_decide (k = []) then None else Some (k, TrimSpace (drop (S eq) p))
  | _ => None
  end.
Definition parsePairs (v : bytes) : list (bytes * bytes) := if bool_decide (v = []) then [] else omap parsePair (split_on 44 v []).
Definition ParseOptions (get : bytes → bytes) : Options :=
  MkOptions (get (lit "_time_field")) (get (lit "_msg_field")) (splitList (get (lit "_stream_fields"))) (splitList (get (lit "ignore_fields")))
    (parsePairs (get (lit "extra_fields"))).

(** *** Results *)

Inductive message := lineTooLong (n : Z) | badTime (e : tsErr) | badVector (e : vecErr).
Record Warning := MkWarning { wn_Offset : Z; wn_Ordinal : Z; wn_Msg : message }.
Record Result := MkResult { Accepted : Z; Rejected : Z; Warnings : list Warning; RejectedAt : list Z; RejectedTruncated : bool }.
Definition no_result : Result := MkResult 0 0 [] [] false.
Definition MaxRejectedAt : Z := 2 ^ 20.
Definition maxWarnings : Z := 32.
Definition UnknownPos : Z := -1.
(** [int32(n)]. *)
Definition to_int32 (n : Z) : Z := (n + 2 ^ 31) mod 2 ^ 32 - 2 ^ 31.
Definition Accept (r : Result) : Result := MkResult (Accepted r + 1) (Rejected r) (Warnings r) (RejectedAt r) (RejectedTruncated r).
Definition Reject (ordinal : Z) (r : Result) : Result :=
  if bool_decide (MaxRejectedAt ≤ len (RejectedAt r)) then MkResult (Accepted r) (Rejected r + 1) (Warnings r) (RejectedAt r) true
  else MkResult (Accepted r) (Rejected r + 1) (Warnings r) (RejectedAt r ++ [to_int32 ordinal]) (RejectedTruncated r).
Definition warnFull (r : Result) : bool := bool_decide (maxWarnings ≤ len (Warnings r)).
Definition warn (w : Warning) (r : Result) : Result :=
  if warnFull r then r else MkResult (Accepted r) (Rejected r) (Warnings r ++ [w]) (RejectedAt r) (RejectedTruncated r).
Definition Warn (offset : Z) (m : message) (r : Result) : Result := if warnFull r then r else warn (MkWarning offset UnknownPos m) r.
Definition WarnAt (ordinal : Z) (m : message) (r : Result) : Result := if warnFull r then r else warn (MkWarning UnknownPos ordinal m) r.
(** [Result.Add]. *)
Definition result_add (o r : Result) : Result :=
  MkResult (Accepted r + Accepted o) (Rejected r + Rejected o) (Warnings r ++ Warnings o) (RejectedAt r)
    (RejectedTruncated r || bool_decide (0 < len (RejectedAt o)) || RejectedTruncated o).

(** *** Handing a record to the writer *)

(** The settings of a [Writer]: what [addVec] reads, and [maxLine]. *)
Record settings := Settings { w_conf : config; w_maxLine : Z }.
Definition LineTooLong (w : settings) (n : Z) : bool := bool_decide (0 < w_maxLine w ∧ w_maxLine w < n).
(** A call of [addVec]: its arguments, for [Writer.add_row]. *)
Record writer_call := Call { c_ts : Z; c_fields : gmap bytes bytes; c_override : bool; c_vecs : gmap bytes (list Z) }.
Definition hasVec (w : settings) : bool := negb (bool_decide (vecFlds (w_conf w) = ∅)).
Definition override_stream (flds : list bytes) (fields : gmap bytes bytes) : gmap bytes bytes :=
  let sv := buildStreamLabel flds fields in if bool_decide (sv = []) then delete s_stream fields else <[s_stream := sv]> fields.
Definition overrides (o : option Options) : list bytes := match o with Some o => StreamFields o | None => [] end.

Section writer.
Context {M : MapRange} {T : GoText} {G : GoSlices}.

Fixpoint split_vectors (l : list (bytes * Z)) (fields : gmap bytes bytes) (vecs : gmap bytes (list Z)) : vecErr + gmap bytes bytes * gmap bytes (list Z) :=
  match l with
  | [] => inr (fields, vecs)
  | (name, dim) :: l =>
      match fields !! name with
      | None => split_vectors l fields vecs
      | Some text =>
          match ParseVector name text dim with
          | inl e => inl e
          | inr v => split_vectors l (delete name fields) (<[name := v]> vecs)
          end
      end
  end.
Definition splitVectors (w : settings) (fields : gmap bytes bytes) : vecErr + gmap bytes bytes * gmap bytes (list Z) :=
  split_vectors (range_map (vecFlds (w_conf w))) fields ∅.
(** The call it makes, or the refusal. *)
Definition addWithStream (w : settings) (ts : Z) (fields : gmap bytes bytes) (o : option Options) : vecErr + writer_call :=
  match (if hasVec w then splitVectors w fields else inr (fields, ∅)) with
  | inl e => inl e
  | inr (fields, vecs) =>
      inr (if bool_decide (overrides o = []) then Call ts fields false vecs
           else Call ts (override_stream (overrides o) fields) true vecs)
  end.
(** A record that carries embeddings; [None]: no call. *)
Definition addWithStreamVec (w : settings) (ts : Z) (fields : gmap bytes bytes) (o : option Options) (vecs : gmap bytes (list Z)) : option writer_call :=
  if bool_decide (vecs = ∅) then match addWithStream w ts fields o with inl _ => None | inr c => Some c end
  else Some (Call ts (if bool_decide (overrides o = []) then fields else override_stream (overrides o) fields) false vecs).
Definition addOrReject (w : settings) (ts : Z) (fields : gmap bytes bytes) (o : option Options) (ordinal : Z) (s : Result * list writer_call)
  : Result * list writer_call :=
  match addWithStream w ts fields o with
  | inl e => (WarnAt ordinal (badVector e) (Reject ordinal s.1), s.2)
  | inr c => (Accept s.1, s.2 ++ [c])
  end.
End writer.

(** ** The time of a record is the one it was sent with *)

(** The number a run of digits writes, with its sign. *)
Definition digits_value (ds : bytes) : Z := foldl (λ n c, 10 * n + (c - 48)) 0 ds.
Definition decimal (s : bytes) : Z :=
  match s with 45 :: ds => - digits_value ds | 43 :: ds => digits_value ds | _ => digits_value s end.
Definition storable (t : Z) : Prop := MinInt64 ≤ t ≤ MaxInt64.
#[export] Instance storable_dec t : Decision (storable t).
Proof. unfold storable. apply _. Defined.

(** ** Digits *)

Lemma atoi_digits_value ds : forallb ascii_digit ds = true → ∀ n, atoi_digits ds n = Some (foldl (λ n c, 10 * n + (c - 48)) n ds).
Proof.
  induction ds as [|c ds IH]; intros H n; [done|]. cbn in H. apply andb_true_iff in H as [Hc H]. cbn [atoi_digits foldl].
  unfold ascii_digit in Hc. rewrite Hc. by apply IH.
Qed.
Lemma Atoi_decimal s : allDigits s = true → Filter.Atoi s = if bool_decide (storable (decimal s)) then Some (decimal s) else None.
Proof.
  assert (∀ v, (if bool_decide (- 2 ^ 63 ≤ v < 2 ^ 63) then Some v else None) = if bool_decide (storable v) then Some v else None) as Hb.
  { intros v. unfold storable, MinInt64, MaxInt64. by rewrite (bool_decide_ext _ (- 2 ^ 63 ≤ v ≤ 2 ^ 63 - 1)) by lia. }
  destruct s as [|c s]; [done|]. unfold allDigits. case_bool_decide as Hc.
  - intros [Hn Hs]%andb_true_iff. apply negb_true_iff, bool_decide_eq_false in Hn.
    destruct Hc as [-> | ->]; unfold Filter.Atoi, decimal; (destruct s as [|d s]; [done|]); rewrite atoi_digits_value by done; apply Hb.
  - intros Hs. assert (decimal (c :: s) = digits_value (c :: s)) as ->.
    { unfold decimal. destruct c as [|p|p]; try done. repeat (destruct p as [p|p|]; try done); destruct Hc; auto. }
    unfold Filter.Atoi. assert ((match c :: s with 43 :: ds => (false, ds) | 45 :: ds => (true, ds) | _ => (false, c :: s) end) = (false, c :: s)) as ->.
    { destruct c as [|p|p]; try done. repeat (destruct p as [p|p|]; try done); destruct Hc; auto. }
    cbv iota. rewrite atoi_digits_value by done. apply Hb.
Qed.

(** ** Floats *)

Lemma valid_mantissa s m e : valid_binary 53 1024 (S754_finite s m e) = true → Z.pos m < 2 ^ 53.
Proof.
  cbn. intros [H _]%andb_true_iff. unfold canonical_mantissa in H. apply Zeq_bool_eq in H. unfold fexp, emin in H.
  assert (Z.pos (digits2_pos m) ≤ 53) as Hd by lia. clear H.
  assert (∀ p, Z.pos p < 2 ^ Z.pos (digits2_pos p)) as Hp.
  { clear. induction p as [p IH|p IH|]; cbn [digits2_pos]; [| |done]; rewrite Pos2Z.inj_succ, Z.pow_succ_r by done; lia. }
  specialize (Hp m). assert (2 ^ Z.pos (digits2_pos m) ≤ 2 ^ 53) by (apply Z.pow_le_mono_r; lia). lia.
Qed.
Lemma trunc_below m e : Z.pos m < 2 ^ 53 → e < 11 ∨ e = 11 ∧ Z.pos m ≤ 2 ^ 52 →
  0 ≤ (if bool_decide (0 ≤ e) then Z.shiftl (Z.pos m) e else Z.shiftr (Z.pos m) (- e)) ≤ 2 ^ 63 ∧
  (e < 11 ∨ Z.pos m < 2 ^ 52 → (if bool_decide (0 ≤ e) then Z.shiftl (Z.pos m) e else Z.shiftr (Z.pos m) (- e)) < 2 ^ 63).
Proof.
  intros Hm He. case_bool_decide as H0.
  - rewrite Z.shiftl_mul_pow2 by done. destruct He as [He|[-> He]]; [|lia].
    assert (2 ^ e ≤ 2 ^ 10) by (apply Z.pow_le_mono_r; lia). nia.
  - rewrite Z.shiftr_div_pow2 by lia. assert (1 ≤ 2 ^ (- e)) by (change 1 with (2 ^ 0); apply Z.pow_le_mono_r; lia).
    pose proof (Z.div_le_upper_bound (Z.pos m) (2 ^ (- e)) (Z.pos m) ltac:(lia) ltac:(nia)).
    pose proof (Z.div_pos (Z.pos m) (2 ^ (- e)) ltac:(lia) ltac:(lia)). lia.
Qed.
Lemma SFltb_neg_false m e p q : SFltb (S754_finite true m e) (S754_finite true p q) = false → e < q ∨ e = q ∧ Z.pos m ≤ Z.pos p.
Proof.
  unfold SFltb, SFcompare. destruct (Z.compare_spec e q) as [-> |He|He]; [|by left|done]. intros H. right. split; [done|].
  change (Pos.compare_cont Eq m p) with (Pos.compare m p) in H. destruct (Pos.compare_spec m p); [lia|lia|done].
Qed.
Lemma SFleb_pos_false m e p q : SFleb (S754_finite false p q) (S754_finite false m e) = false → e < q ∨ e = q ∧ Z.pos m < Z.pos p.
Proof.
  unfold SFleb, SFcompare. destruct (Z.compare_spec q e) as [-> |He|He]; [|done|by left]. intros H. right. split; [done|].
  change (Pos.compare_cont Eq p m) with (Pos.compare p m) in H. destruct (Pos.compare_spec p m); [done|done|lia].
Qed.
Lemma floatNanos_storable f t : valid_binary 53 1024 f = true → floatNanos f = inr (Some t) → storable t.
Proof.
  intros Hv. unfold floatNanos. destruct f as [s|s| |s m e]; [|by destruct s|done|].
  { intros H. assert (t = 0) as -> by (destruct s; by injection H as <-). done. }
  pose proof (valid_mantissa s m e Hv) as Hm. cbn [orb]. destruct (SFleb twoPow63 _ || _) eqn:E; [done|]. intros [= <-].
  apply orb_false_iff in E as [E1 E2]. unfold twoPow63, SFopp in E1, E2. cbn [negb] in E2. unfold storable, MinInt64, MaxInt64.
  pose proof (trunc_below m e Hm) as H. revert H. unfold float_trunc. cbv zeta. generalize (if bool_decide (0 ≤ e) then Z.shiftl (Z.pos m) e else Z.shiftr (Z.pos m) (- e)).
  intros n H. destruct s.
  - apply SFltb_neg_false in E2. destruct (H ltac:(lia)). lia.
  - apply SFleb_pos_false in E1. destruct (H ltac:(lia)) as [H1 H2]. specialize (H2 ltac:(lia)). lia.
Qed.

Section times.
Context {T : GoText} {D : GoTime}.

Lemma layouts_storable ls s t : layouts_loop ls s = inr (Some t) → storable t.
Proof.
  induction ls as [|l ls IH]; [done|]. cbn [layouts_loop]. unfold parseLayout, nanosOf. destruct (time_Parse l s) as [n|]; cbn; [|done].
  case_bool_decide as H; [done|]. intros [= <-]. unfold storable. lia.
Qed.
(** C24: The time of a record is stored as it was sent or refused: a run of digits is read
    as the number it writes when that is an [int64], and refused when it is not,
    never stamped with the clock; and no time that is accepted, from digits, a date
    or a JSON number, lies outside [int64], so none wraps. *)
Theorem times_exact :
  (∀ s f, ParseFloat s = Some f → valid_binary 53 1024 f = true) →
  (∀ s, allDigits s = true → parseTime s = if bool_decide (storable (decimal s)) then inr (Some (decimal s)) else inl (tsRange s (lit "ns"))) ∧
  (∀ s t, parseTime s = inr (Some t) → storable t) ∧ (∀ raw t, numberTime raw = inr (Some t) → storable t).
Proof.
  intros Hv.
  assert (∀ s, allDigits s = true → parseTime s = if bool_decide (storable (decimal s)) then inr (Some (decimal s)) else inl (tsRange s (lit "ns"))) as H1.
  { intros s Hs. unfold parseTime. rewrite Hs, Atoi_decimal by done. by case_bool_decide. }
  assert (∀ s t, parseTime s = inr (Some t) → storable t) as H2.
  { intros s t H. destruct (allDigits s) eqn:Es.
    - rewrite H1 in H by done. case_bool_decide; [|done]. by injection H as <-.
    - unfold parseTime in H. rewrite Es in H. by eapply layouts_storable. }
  split_and!; [done|done|]. intros raw t. unfold numberTime. destruct (isIntegerLiteral raw); [apply H2|].
  destruct (ParseFloat raw) as [f|] eqn:Ef; [|done]. by apply floatNanos_storable, (Hv raw).
Qed.
End times.
