(* ===== verification/Jsonl.v ===== *)
(** * JSON lines

    [internal/ingest/jsonline.go]: one record per line, in one pass or split over
    shards that run at once. The parsed floats of an embedding live in a scratch
    slice that every record reuses, so the slices of the code are slices here, over
    arrays of their own. *)

From Stdlib Require Import Ascii String SpecFloat.
From S2P Require Import Prelude Digits GoLib Writer Batches Filter Engine TimeFilter Text Rows Records.
From stdpp Require Import list gmap.
Local Open Scope Z_scope.

(** ** Definitions *)

#[local] Set Warnings "-register-all".
(** What [simdjson.Parse] reads: a number keeps its text, an object its keys in
    order. *)
Inductive jvalue :=
| JNull | JBool (b : bool) | JNumber (raw : bytes) (f : spec_float) | JString (s : bytes)
| JArray (l : list jvalue) | JObject (l : list (bytes * jvalue)).
Class Simdjson := { simdjson_Parse : bytes → option jvalue }.

(** *** Slices of [float32] *)

(** The arrays behind the slices, each as long as its capacity; a slice starts at
    the head of its array. *)
Definition heap : Type := list (list Z).
Record f32_slice := Slice { s_arr : nat; s_len : nat }.
Definition slice_vals (h : heap) (s : f32_slice) : list Z := take (s_len s) (default [] (h !! s_arr s)).
Section slices.
Context {G : GoSlices}.
(** [append(s, x)]: in place while there is room, else in a new array. *)
Definition append_f32 (h : heap) (s : f32_slice) (x : Z) : heap * f32_slice :=
  let arr := default [] (h !! s_arr s) in
  if bool_decide (s_len s < length arr)%nat then (<[s_arr s := <[s_len s := x]> arr]> h, Slice (s_arr s) (S (s_len s)))
  else (h ++ [take (s_len s) arr ++ [x] ++ replicate (growslice (S (s_len s)) - S (s_len s)) 0], Slice (length h) (S (s_len s))).
End slices.

Section jsonl.
Context {M : MapRange} {T : GoText} {D : GoTime} {G : GoSlices} {P : GoPipes} {J : Simdjson}.

(** The elements of an array, appended to [buf]; whether one was refused. *)
Fixpoint vec_elems (dim : Z) (l : list jvalue) (h : heap) (buf : f32_slice) : heap * f32_slice * bool :=
  match l with
  | [] => (h, buf, false)
  | JNumber _ f :: l =>
      if bool_decide (Z.of_nat (s_len buf) = dim) || not_finite f then (h, buf, true)
      else let x := append_f32 h buf (float32 f) in vec_elems dim l x.1 x.2
  | _ :: _ => (h, buf, true)
  end.

(** The variables of one record, and the scratch slice of the body. *)
Record recvars := RecVars {
  v_fields : gmap bytes bytes; v_ts : option Z; v_vecs : gmap bytes f32_slice; v_vecErr : option vecErr; v_tsErr : option tsErr;
  v_heap : heap; v_scratch : f32_slice }.
Definition put_field (k v : bytes) (r : recvars) : recvars :=
  RecVars (<[k := v]> (v_fields r)) (v_ts r) (v_vecs r) (v_vecErr r) (v_tsErr r) (v_heap r) (v_scratch r).
Definition put_time (t : Z) (r : recvars) : recvars :=
  RecVars (v_fields r) (Some t) (v_vecs r) (v_vecErr r) (v_tsErr r) (v_heap r) (v_scratch r).
Definition put_tsErr (e : tsErr) (r : recvars) : recvars :=
  RecVars (v_fields r) (v_ts r) (v_vecs r) (v_vecErr r) (Some e) (v_heap r) (v_scratch r).
(** A time key: its value as a time, or as a field under [text]. The flag: the
    iteration goes on. *)
Definition on_time (key text : bytes) (t : tsErr + option Z) (r : recvars) : recvars * bool :=
  match t with inl e => (put_tsErr e r, false) | inr (Some t) => (put_time t r, true) | inr None => (put_field key text r, true) end.
(** An array under a configured field. *)
Definition vec_key (key : bytes) (dim : Z) (l : list jvalue) (r : recvars) : recvars * bool :=
  let '(h, buf, bad) := vec_elems dim l (v_heap r) (Slice (s_arr (v_scratch r)) 0) in
  let scratch := Slice (s_arr buf) 0 in
  if bad || negb (bool_decide (Z.of_nat (s_len buf) = dim)) then
    (RecVars (v_fields r) (v_ts r) (v_vecs r) (Some (vecShape key dim)) (v_tsErr r) h scratch, false)
  else (RecVars (v_fields r) (v_ts r) (<[key := buf]> (v_vecs r)) (v_vecErr r) (v_tsErr r) h scratch, true).
(** The callback of [ForEachKey]. *)
Definition on_key (w : settings) (o : option Options) (key : bytes) (val : jvalue) (r : recvars) : recvars * bool :=
  match val with
  | JString s => if isTime o key then on_time key s (parseTime s) r else (put_field key s r, true)
  | JNumber raw f =>
      if isTime o key then on_time key raw (numberTime raw) r
      else (put_field key (if isIntegerLiteral raw then raw else FormatFloat_f f) r, true)
  | JBool b => (put_field key (lit (if b then "true" else "false")) r, true)
  | JArray l => match vecFlds (w_conf w) !! key with None => (r, true) | Some dim => vec_key key dim l r end
  | JNull | JObject _ => (r, true)
  end.
Fixpoint each_key (w : settings) (o : option Options) (l : list (bytes * jvalue)) (r : recvars) : recvars :=
  match l with
  | [] => r
  | (key, val) :: l => let x := on_key w o key val r in if x.2 : bool then each_key w o l x.1 else x.1
  end.

(** What the loop over the lines keeps: the answer, the calls made, how many times
    [fallback] was read, the scratch slice. *)
Record ingest := Ingesting { i_res : Result; i_calls : list writer_call; i_clock : nat; i_heap : heap; i_scratch : f32_slice }.
Definition with_res (r : Result) (s : ingest) : ingest := Ingesting r (i_calls s) (i_clock s) (i_heap s) (i_scratch s).
(** A record whose keys were read. *)
Definition end_record (w : settings) (o : option Options) (fallback : nat → Z) (ordinal : Z) (r : recvars) (s : ingest) : ingest :=
  let '(ts, clock) := match v_ts r with Some t => (t, i_clock s) | None => (fallback (i_clock s), S (i_clock s)) end in
  let s := Ingesting (i_res s) (i_calls s) clock (v_heap r) (v_scratch r) in
  match v_tsErr r, v_vecErr r with
  | Some e, _ => with_res (WarnAt ordinal (badTime e) (Reject ordinal (i_res s))) s
  | None, Some e => with_res (WarnAt ordinal (badVector e) (Reject ordinal (i_res s))) s
  | None, None =>
      let fields := if options_Empty o then v_fields r else apply_mapping o (v_fields r) in
      let made := addWithStreamVec w ts fields o (slice_vals (v_heap r) <$> v_vecs r) in
      Ingesting (Accept (i_res s)) (i_calls s ++ option_list made) clock (v_heap r) (v_scratch r)
  end.
(** One turn of the loop of [IngestJSONLinesOpts]. *)
Definition ingest_line (w : settings) (o : option Options) (fallback : nat → Z) (s : ingest) (line : bytes) : ingest :=
  if bool_decide (trimSpace line = []) then s else
  let res := i_res s in
  let ordinal := Accepted res + Rejected res in
  if LineTooLong w (len line) then with_res (WarnAt ordinal (lineTooLong (len line)) (Reject ordinal res)) s else
  match simdjson_Parse line with
  | Some (JObject l) => end_record w o fallback ordinal (each_key w o l (RecVars ∅ None ∅ None None (i_heap s) (i_scratch s))) s
  | _ => with_res (Reject ordinal res) s
  end.
(** A nil slice has no room. *)
Definition start_ingest : ingest := Ingesting no_result [] 0 [[]] (Slice 0 0).
Definition IngestJSONLinesOpts (w : settings) (data : bytes) (fallback : nat → Z) (o : option Options) : ingest :=
  foldl (ingest_line w o fallback) start_ingest (body_lines data).

(** *** Shards *)

Definition MinParallelBytes : Z := 2 ^ 20.
Record ParallelConfig := MkParallel {
  pc_Compact : bool; pc_StreamFields : list bytes; pc_MaxLineBytes : Z; pc_Limits : RecordLimits; pc_VectorFields : gmap bytes Z; pc_Shards : Z }.
(** [NumCPU]: [runtime.NumCPU()]. *)
Definition ShardsFor (NumCPU : Z) (c : ParallelConfig) (n : Z) : Z :=
  let sh := if bool_decide (pc_Shards c = 0) then NumCPU / 3 else pc_Shards c in
  if bool_decide (sh < 2 ∨ n < MinParallelBytes) then 0 else sh.
(** [apply] stamps the settings onto a writer. *)
Definition apply_config (c : ParallelConfig) (w : settings) : settings :=
  Settings (Config (if bool_decide (pc_StreamFields c = []) then strmFlds (w_conf w) else pc_StreamFields c) (pc_VectorFields c) (pc_Limits c) (pc_Compact c))
    (if bool_decide (0 < pc_MaxLineBytes c) then pc_MaxLineBytes c else w_maxLine w).
Definition ShardSettings (w : settings) : ParallelConfig :=
  MkParallel (compact (w_conf w)) (strmFlds (w_conf w)) (w_maxLine w) (limits (w_conf w)) (vecFlds (w_conf w)) 0.
(** [NewWriter]. *)
Definition new_writer : settings := Settings (Config [] ∅ no_limits false) 0.

(** The chunks, of which all but the last end a line; [data]: from [start] on. *)
Fixpoint split_loop (more target : nat) (data : bytes) : list bytes :=
  match more with
  | O => if bool_decide (data = []) then [] else [data]
  | S more =>
      if bool_decide (data = []) then []
      else if bool_decide (length data ≤ target)%nat then [data]
      else match IndexByte (drop target data) 10 with
           | None => [data]
           | Some nl => let stop := (target + nl + 1)%nat in take stop data :: split_loop more target (drop stop data)
           end
  end.
Definition splitLines (data : bytes) (n : Z) : list bytes :=
  if bool_decide (n ≤ 1) then [data] else split_loop (Z.to_nat (n - 1)) (Z.to_nat (len data / n)) data.

(** The positions of one shard, until the merged list is full. *)
Fixpoint merge_positions (base : Z) (l : list Z) (out : Result) : Result :=
  match l with
  | [] => out
  | ord :: l =>
      let abs := base + ord in
      if bool_decide (MaxRejectedAt ≤ len (RejectedAt out) ∨ 2 ^ 31 - 1 < abs) then
        MkResult (Accepted out) (Rejected out) (Warnings out) (RejectedAt out) true
      else merge_positions base l (MkResult (Accepted out) (Rejected out) (Warnings out) (RejectedAt out ++ [to_int32 abs]) (RejectedTruncated out))
  end.
Definition rebase (base : Z) (w : Warning) : Warning :=
  MkWarning (wn_Offset w) (if bool_decide (wn_Ordinal w = UnknownPos) then wn_Ordinal w else wn_Ordinal w + base) (wn_Msg w).
Definition merge_shard (s : Result * Z) (x : Result * bool) : Result * Z :=
  let '(out, base) := s in let '(pr, lost) := x in
  let out := MkResult (if lost : bool then Accepted out else Accepted out + Accepted pr) (Rejected out + Rejected pr) (Warnings out) (RejectedAt out)
    (RejectedTruncated pr || RejectedTruncated out) in
  let out := merge_positions base (RejectedAt pr) out in
  (foldl (λ r w, warn (rebase base w) r) out (Warnings pr), base + Accepted pr + Rejected pr).
Definition mergeShardResults (per : list (Result * bool)) : Result := (foldl merge_shard (no_result, 0) per).1.

Record ParallelWriteError := MkParallelError { pe_Shards : Z; pe_Failed : Z; pe_Err : WriteError; pe_Partial : bool }.
(** [errors.As] of it: the whole write. *)
Definition parallel_writeError (e : ParallelWriteError) : WriteError :=
  MkWriteError (we_Err (pe_Err e)) (classify (we_Err (pe_Err e)))
    (bool_decide (0 < pe_Failed e ∧ pe_Failed e < pe_Shards e) || pe_Partial e) (pe_Failed e) (pe_Shards e).

(** A shard: its chunk, the clock readings it got, what its [Close] answered. *)
Record shard := Shard { sh_chunk : bytes; sh_fallback : nat → Z; sh_close : option WriteError }.
Definition run_shard (w : settings) (o : option Options) (s : shard) : ingest := IngestJSONLinesOpts w (sh_chunk s) (sh_fallback s) o.
(** [first]: the failing shard that took the mutex first. The answer, the error, and
    the calls each shard made. *)
Definition sharded (w : settings) (o : option Options) (shards : list shard) (first : nat) : Result * option ParallelWriteError * list (list writer_call) :=
  let runs := run_shard w o <$> shards in
  let failed := omap sh_close shards in
  let out := mergeShardResults (zip (i_res <$> runs) ((λ s, bool_decide (is_Some (sh_close s))) <$> shards)) in
  (out,
   match failed !! first with
   | Some e => Some (MkParallelError (len shards) (len failed) e (existsb we_Partial failed))
   | None => None
   end, i_calls <$> runs).
(** The branch of one writer. *)
Definition serial (w : settings) (o : option Options) (s : shard) : Result * option ParallelWriteError * list (list writer_call) :=
  let r := run_shard w o s in
  match sh_close s with
  | Some e => (MkResult 0 (Rejected (i_res r)) (Warnings (i_res r)) (RejectedAt (i_res r)) (RejectedTruncated (i_res r)),
      Some (MkParallelError 1 1 e (we_Partial e)), [i_calls r])
  | None => (i_res r, None, [i_calls r])
  end.
(** [IngestJSONLinesParallelResult]: [clock i] is what shard [i] reads, [close i]
    what its writer answers. *)
Definition IngestJSONLinesParallelResult (NumCPU : Z) (data : bytes) (cfg : ParallelConfig) (o : option Options)
    (clock : nat → nat → Z) (close : nat → option WriteError) (first : nat) : Result * option ParallelWriteError * list (list writer_call) :=
  let w := apply_config cfg new_writer in
  let n := ShardsFor NumCPU cfg (len data) in
  if bool_decide (n = 0) then serial w o (Shard data (clock 0%nat) (close 0%nat))
  else sharded w o (imap (λ i c, Shard c (clock i) (close i)) (splitLines data n)) first.
End jsonl.
