(* ===== verification/JsonlOk.v ===== *)
(** * Sharding a body of JSON lines changes nothing

    What one line does, without the scratch slices ([line_does], [ingest_does]); the
    answer of a body from what its lines do ([res_of]); and the merge of the shards
    ([sharded_exact]). *)

From Stdlib Require Import Ascii String SpecFloat.
From S2P Require Import Prelude Digits GoLib Writer Batches Filter Engine TimeFilter Text Rows Records Jsonl.
From stdpp Require Import list gmap fin_maps.
Local Open Scope Z_scope.

(** ** Lines of a body *)

Lemma IndexByte_before c a b : c ∈ a → ∃ n, IndexByte (a ++ b) c = Some n ∧ IndexByte a c = Some n ∧ (n < length a)%nat.
Proof.
  induction a as [|x a IH]; intros H; [by apply not_elem_of_nil in H|]. cbn [app IndexByte].
  case_bool_decide as Hx; [exists 0%nat; split_and!; [done|done|cbn; lia]|].
  apply elem_of_cons in H as [H|H]; [congruence|]. destruct (IH H) as (n & H1 & H2 & H3).
  exists (S n). rewrite H1, H2. cbn. split_and!; [done|done|lia].
Qed.
Lemma IndexByte_splits c a n : IndexByte a c = Some n → ∃ l r, a = l ++ c :: r ∧ length l = n ∧ c ∉ l.
Proof.
  revert n. induction a as [|x a IH]; intros n; [done|]. cbn [IndexByte]. case_bool_decide as Hx.
  - intros [= <-]. subst. exists [], a. split_and!; [done|done|apply not_elem_of_nil].
  - destruct (IndexByte a c) as [m|]; [|done]. intros [= <-].
    destruct (IH m eq_refl) as (l & r & -> & <- & Hl). exists (x :: l), r. split_and!; [done|done|]. rewrite not_elem_of_cons. split; [congruence|done].
Qed.
Lemma cut_line_shorter data : data ≠ [] → (length (cut_line data).2 < length data)%nat.
Proof.
  intros Hd. unfold cut_line. destruct (IndexByte data 10) as [n|] eqn:E; cbn; [|destruct data; [done|cbn; lia]].
  rewrite length_drop. apply IndexByte_splits in E as (l & r & -> & <- & _). rewrite length_app. cbn. lia.
Qed.
Lemma lines_fuel f1 : ∀ f2 data, (length data ≤ f1)%nat → (length data ≤ f2)%nat → lines_loop f1 data = lines_loop f2 data.
Proof.
  induction f1 as [|f1 IH]; intros [|f2] [|c data] H1 H2; cbn [length] in *; try lia; try done. cbn [lines_loop]. f_equal.
  pose proof (cut_line_shorter (c :: data) ltac:(done)) as H. cbn [length] in H. apply IH; lia.
Qed.
Lemma body_lines_cons data : data ≠ [] → body_lines data = (cut_line data).1 :: body_lines (cut_line data).2.
Proof.
  intros Hd. unfold body_lines. destruct data as [|c data]; [done|]. cbn [length lines_loop]. f_equal.
  pose proof (cut_line_shorter (c :: data) ltac:(done)) as H. cbn [length] in H. apply lines_fuel; lia.
Qed.
(** Cutting after a newline cuts no line. *)
Lemma body_lines_app a b : last a = Some 10 → body_lines (a ++ b) = body_lines a ++ body_lines b.
Proof.
  induction a as [a IH] using (induction_ltof1 _ (@length Z)). unfold ltof in IH. intros Ha.
  assert (a ≠ []) as Hn by (by intros ->). assert (10 ∈ a) as Hin by (by apply last_Some_elem_of).
  destruct (IndexByte_before 10 a b Hin) as (n & H1 & H2 & H3).
  rewrite body_lines_cons, (body_lines_cons a) by (by destruct a). unfold cut_line. rewrite H1, H2. cbn [fst snd app].
  rewrite take_app_le by lia. f_equal. rewrite drop_app_le by lia.
  destruct (drop (S n) a) as [|c a'] eqn:E; [done|]. rewrite <- E. apply IH.
  - rewrite length_drop. lia.
  - rewrite <- (take_drop (S n) a), last_app in Ha. rewrite E in Ha |- *. by destruct (last (c :: a')) eqn:El; [|by apply last_None in El].
Qed.
Lemma body_lines_length data : (length (body_lines data) ≤ length data)%nat.
Proof.
  induction data as [data IH] using (induction_ltof1 _ (@length Z)). unfold ltof in IH. destruct data as [|c data]; [done|].
  rewrite body_lines_cons by done. pose proof (cut_line_shorter (c :: data) ltac:(done)) as H. apply IH in H as H'. cbn [length] in *. lia.
Qed.
(** Chunks of a body: all but the last end with a newline. *)
Fixpoint chunked (l : list bytes) : Prop :=
  match l with [] => True | [_] => True | a :: l => last a = Some 10 ∧ chunked l end.
Lemma chunked_lines l : chunked l → body_lines (concat l) = concat (body_lines <$> l).
Proof.
  induction l as [|a [|b l] IH]; [done|intros _; cbn; by rewrite !app_nil_r|]. intros [Ha Hl]. cbn [concat fmap list_fmap].
  rewrite body_lines_app by done. f_equal. by apply IH.
Qed.
Lemma split_loop_ok more target : ∀ data, concat (split_loop more target data) = data ∧ chunked (split_loop more target data).
Proof.
  induction more as [|more IH]; intros data; cbn [split_loop]; case_bool_decide as Hd; try (by subst).
  { split; [apply app_nil_r|done]. }
  case_bool_decide; [split; [apply app_nil_r|done]|].
  destruct (IndexByte (drop target data) 10) as [nl|] eqn:E; [|split; [apply app_nil_r|done]].
  cbv zeta. destruct (IH (drop (target + nl + 1) data)) as [H1 H2]. split; [cbn [concat]; by rewrite H1, take_drop|].
  destruct (split_loop more target _) as [|b l] eqn:El; [done|]. split; [|done].
  apply IndexByte_splits in E as (l1 & r & E & <- & _).
  rewrite <- (take_drop target data) at 1. rewrite E. assert (length (take target data) = target) as Ht by (rewrite length_take; lia).
  rewrite take_app_ge by lia. rewrite Ht. replace (target + length l1 + 1 - target)%nat with (length l1 + 1)%nat by lia.
  rewrite take_app_ge by lia. replace (length l1 + 1 - length l1)%nat with 1%nat by lia. rewrite !last_app. done.
Qed.
Lemma splitLines_ok data n : concat (splitLines data n) = data ∧ chunked (splitLines data n).
Proof. unfold splitLines. case_bool_decide; [split; [apply app_nil_r|done]|]. apply split_loop_ok. Qed.

(** ** What a body answers from what its lines do *)

(** A line is blank; or a record refused, with a warning or none; or one stored,
    whose call the time from [fallback] completes. The flag: it reads the clock. *)
Inductive lineDoes := Skips | Refuses (m : option message) (clock : bool) | Stores (clock : bool) (made : Z → option writer_call).
Definition is_record (d : lineDoes) : bool := match d with Skips => false | _ => true end.
Definition reads_clock (d : lineDoes) : bool := match d with Refuses _ b | Stores b _ => b | Skips => false end.
Definition does_res (res : Result) (d : lineDoes) : Result :=
  match d with
  | Skips => res
  | Refuses m _ =>
      let ordinal := Accepted res + Rejected res in
      match m with Some m => WarnAt ordinal m (Reject ordinal res) | None => Reject ordinal res end
  | Stores _ _ => Accept res
  end.
Definition does_calls (fallback : nat → Z) (s : list writer_call * nat) (d : lineDoes) : list writer_call * nat :=
  let clock := if reads_clock d then S s.2 else s.2 in
  match d with Stores _ made => (s.1 ++ option_list (made (fallback s.2)), clock) | _ => (s.1, clock) end.

Definition count_if (test : lineDoes → bool) (ds : list lineDoes) : Z := len (List.filter test ds).
Definition refuses (d : lineDoes) : bool := match d with Refuses _ _ => true | _ => false end.
Definition stores (d : lineDoes) : bool := match d with Stores _ _ => true | _ => false end.
Fixpoint refused_at (base : Z) (ds : list lineDoes) : list Z :=
  match ds with
  | [] => []
  | d :: ds => (if refuses d then [base] else []) ++ refused_at (if is_record d then base + 1 else base) ds
  end.
Fixpoint warned_at (base : Z) (ds : list lineDoes) : list Warning :=
  match ds with
  | [] => []
  | d :: ds =>
      (match d with Refuses (Some m) _ => [MkWarning UnknownPos base m] | _ => [] end)
      ++ warned_at (if is_record d then base + 1 else base) ds
  end.
Definition bound_at : nat := Z.to_nat MaxRejectedAt.
Definition bound_warn : nat := Z.to_nat maxWarnings.
Lemma bound_at_Z : Z.of_nat bound_at = MaxRejectedAt.
Proof. by apply Z2Nat.id. Qed.
#[local] Opaque bound_at.
Definition res_of (ds : list lineDoes) : Result :=
  MkResult (count_if stores ds) (count_if refuses ds) (take bound_warn (warned_at 0 ds)) (take bound_at (to_int32 <$> refused_at 0 ds))
    (bool_decide (MaxRejectedAt < count_if refuses ds)).

Lemma count_if_app test a b : count_if test (a ++ b) = count_if test a + count_if test b.
Proof. unfold count_if. rewrite List.filter_app, len_app. done. Qed.
Lemma count_if_cons test d ds : count_if test (d :: ds) = (if test d then 1 else 0) + count_if test ds.
Proof. unfold count_if, len. cbn. destruct (test d); cbn; lia. Qed.
Lemma count_if_nonneg test ds : 0 ≤ count_if test ds.
Proof. unfold count_if, len. lia. Qed.
Lemma count_records ds : count_if is_record ds = count_if stores ds + count_if refuses ds.
Proof. induction ds as [|d ds IH]; [done|]. rewrite !count_if_cons, IH. destruct d; cbn; lia. Qed.
Lemma refused_shift base ds : refused_at base ds = (λ n, base + n) <$> refused_at 0 ds.
Proof.
  assert (∀ x, refused_at (base + x) ds = (λ n, base + n) <$> refused_at x ds) as H; [|by rewrite <- H, Z.add_0_r].
  induction ds as [|d ds IH]; intros x; [done|]. cbn [refused_at]. rewrite fmap_app.
  replace (if is_record d then base + x + 1 else base + x) with (base + (if is_record d then x + 1 else x)) by (destruct d; cbn; lia).
  rewrite IH. by destruct (refuses d).
Qed.
Lemma refused_app base a b : refused_at base (a ++ b) = refused_at base a ++ refused_at (base + count_if is_record a) b.
Proof.
  revert base. induction a as [|d a IH]; intros base; cbn [app refused_at]; [f_equal; unfold count_if, len; cbn; lia|].
  rewrite IH, <- app_assoc, count_if_cons. do 3 f_equal. destruct (is_record d); lia.
Qed.
Lemma warned_app base a b : warned_at base (a ++ b) = warned_at base a ++ warned_at (base + count_if is_record a) b.
Proof.
  revert base. induction a as [|d a IH]; intros base; cbn [app warned_at]; [f_equal; unfold count_if, len; cbn; lia|].
  rewrite IH, <- app_assoc, count_if_cons. do 3 f_equal. destruct (is_record d); lia.
Qed.
Lemma warned_rebase base ds : 0 ≤ base → warned_at base ds = rebase base <$> warned_at 0 ds.
Proof.
  intros Hb. assert (∀ x, 0 ≤ x → warned_at (x + base) ds = rebase base <$> warned_at x ds) as H; [|by rewrite <- H].
  induction ds as [|d ds IH]; intros x Hx; [done|]. cbn [warned_at]. rewrite fmap_app.
  replace (if is_record d then x + base + 1 else x + base) with ((if is_record d then x + 1 else x) + base) by (destruct d; cbn; lia).
  rewrite IH by (destruct d; cbn; lia). f_equal. destruct d as [|[m|] clock|]; try done. cbn. unfold rebase. cbn [wn_Ordinal wn_Offset wn_Msg].
  rewrite bool_decide_false; [done|]. unfold UnknownPos. lia.
Qed.
Lemma refused_length base ds : len (refused_at base ds) = count_if refuses ds.
Proof. revert base. induction ds as [|d ds IH]; intros base; [done|]. cbn [refused_at]. rewrite len_app, IH, count_if_cons. by destruct (refuses d). Qed.

(** *** One pass *)

Lemma take_snoc_ge {A} (n : nat) (l : list A) x : (n ≤ length l)%nat → take n (l ++ [x]) = take n l.
Proof. intros H. by rewrite take_app_le. Qed.
Lemma take_take_app {A} (n : nat) (l k : list A) : take n (take n l ++ k) = take n (l ++ k).
Proof.
  destruct (decide (length l ≤ n)%nat) as [H|H]; [by rewrite (take_ge l)|]. rewrite take_app_le by (rewrite length_take; lia).
  rewrite take_app_le by lia. by rewrite take_take, Nat.min_id.
Qed.
Lemma take_app_take {A} (n : nat) (l k : list A) : take n (l ++ take n k) = take n (l ++ k).
Proof. rewrite !firstn_app. f_equal. rewrite take_take. f_equal. lia. Qed.
(** Pushing on a list that is kept to [n]. *)
Lemma bounded_push {A} (n : nat) (l : list A) x : (if decide (n ≤ length (take n l))%nat then take n l else take n l ++ [x]) = take n (l ++ [x]).
Proof.
  rewrite length_take. case_decide as H; [by rewrite take_app_le by lia|]. rewrite (take_ge l) by lia. rewrite take_ge; [done|].
  rewrite length_app. cbn. lia.
Qed.
Lemma warn_bounded w a r p b l : warn w (MkResult a r (take bound_warn l) p b) = MkResult a r (take bound_warn (l ++ [w])) p b.
Proof.
  unfold warn, warnFull. cbn [Warnings Accepted Rejected RejectedAt RejectedTruncated]. rewrite <- bounded_push.
  unfold len. case_decide as H; [rewrite bool_decide_true|rewrite bool_decide_false]; try done; unfold bound_warn, maxWarnings in *; lia.
Qed.
Lemma WarnAt_bounded ordinal m a r p b l :
  WarnAt ordinal m (MkResult a r (take bound_warn l) p b) = MkResult a r (take bound_warn (l ++ [MkWarning UnknownPos ordinal m])) p b.
Proof.
  rewrite <- warn_bounded. unfold WarnAt. destruct (warnFull _) eqn:E; [|done]. unfold warn. by rewrite E.
Qed.
Lemma Reject_bounded ordinal a r w l n :
  n = len l →
  Reject ordinal (MkResult a r w (take bound_at l) (bool_decide (MaxRejectedAt < n))) =
  MkResult a (r + 1) w (take bound_at (l ++ [to_int32 ordinal])) (bool_decide (MaxRejectedAt < n + 1)).
Proof.
  intros ->. unfold Reject. cbn [Warnings Accepted Rejected RejectedAt RejectedTruncated]. rewrite <- bounded_push.
  pose proof bound_at_Z as Hb. unfold len. rewrite length_take.
  case_decide as H; [rewrite bool_decide_true by lia|rewrite bool_decide_false by lia]; f_equal.
  - symmetry. apply bool_decide_eq_true. lia.
  - apply bool_decide_ext. lia.
Qed.
Lemma res_of_snoc ds d : res_of (ds ++ [d]) = does_res (res_of ds) d.
Proof.
  unfold res_of. rewrite !count_if_app, refused_app, warned_app, Z.add_0_l, fmap_app.
  assert (len (to_int32 <$> refused_at 0 ds) = count_if refuses ds) as Hl by (unfold len; rewrite length_fmap; apply refused_length).
  rewrite !(count_if_cons _ _ []). change (count_if _ []) with 0.
  destruct d as [|m c|c f]; cbn [does_res refused_at warned_at refuses stores app fmap list_fmap]; rewrite ?app_nil_r, ?Z.add_0_r, ?Z.add_0_l.
  - done.
  - cbn [Accepted Rejected]. rewrite <- count_records, Reject_bounded by done. destruct m as [m|]; [by rewrite WarnAt_bounded|by rewrite app_nil_r].
  - done.
Qed.
Lemma res_of_run ds : foldl does_res no_result ds = res_of ds.
Proof. induction ds as [|d ds IH] using rev_ind; [done|]. by rewrite foldl_snoc, IH, res_of_snoc. Qed.

(** *** The merge *)

Lemma refused_range base ds : Forall (λ n, base ≤ n < base + count_if is_record ds) (refused_at base ds).
Proof.
  revert base. induction ds as [|d ds IH]; intros base; [constructor|]. cbn [refused_at]. rewrite count_if_cons. pose proof (count_if_nonneg is_record ds).
  apply Forall_app. split.
  - destruct d; cbn; repeat constructor; lia.
  - eapply Forall_impl; [apply IH|]. cbv beta. intros n. destruct d; cbn; lia.
Qed.
Lemma i32_id n : 0 ≤ n < 2 ^ 31 → to_int32 n = n.
Proof. intros H. unfold to_int32. rewrite Z.mod_small; lia. Qed.
Lemma merge_positions_spec base l : ∀ a r w (p : list Z) b,
  Forall (λ ord, base + ord < 2 ^ 31) l →
  merge_positions base l (MkResult a r w (take bound_at p) b) =
  MkResult a r w (take bound_at (p ++ ((λ ord, to_int32 (base + ord)) <$> l))) (b || bool_decide (0 < len l ∧ MaxRejectedAt < len p + len l)).
Proof.
  pose proof bound_at_Z as Hb. induction l as [|ord l IH]; intros a r w p b Hl.
  { cbn [merge_positions fmap list_fmap]. rewrite app_nil_r, bool_decide_false, orb_false_r; [done|]. unfold len. cbn [length]. lia. }
  apply Forall_cons in Hl as [Ho Hl]. cbn [merge_positions RejectedAt Accepted Rejected Warnings RejectedTruncated].
  destruct (decide (MaxRejectedAt ≤ len p)) as [Hp|Hp].
  - rewrite bool_decide_true by (unfold len in *; rewrite length_take; lia). rewrite take_app_le by (unfold len in *; lia). f_equal.
    rewrite bool_decide_true; [by rewrite orb_true_r|]. unfold len in *. cbn [length]. lia.
  - rewrite bool_decide_false by (unfold len in *; rewrite length_take; lia). rewrite (take_ge p) by (unfold len in *; lia).
    assert (p ++ [to_int32 (base + ord)] = take bound_at (p ++ [to_int32 (base + ord)])) as ->.
    { rewrite take_ge; [done|]. rewrite length_app. cbn. unfold len in *. lia. }
    rewrite IH by done. rewrite <- app_assoc. f_equal. f_equal. apply bool_decide_ext. unfold len in *. rewrite length_app. cbn [length]. lia.
Qed.
Lemma warn_all base l : ∀ a r w p b,
  foldl (λ r w, warn (rebase base w) r) (MkResult a r (take bound_warn w) p b) l = MkResult a r (take bound_warn (w ++ (rebase base <$> l))) p b.
Proof.
  induction l as [|x l IH]; intros a r w p b; [by rewrite app_nil_r|]. cbn [foldl]. rewrite warn_bounded, IH, <- app_assoc. done.
Qed.
(** The answer of [ds] when only [a] of its records are durable. *)
Definition durable (a : Z) (ds : list lineDoes) : Result :=
  MkResult a (Rejected (res_of ds)) (Warnings (res_of ds)) (RejectedAt (res_of ds)) (RejectedTruncated (res_of ds)).
Lemma merge_shard_spec a ds d lost :
  count_if is_record (ds ++ d) ≤ 2 ^ 31 →
  merge_shard (durable a ds, count_if is_record ds) (res_of d, lost) =
  (durable (if lost : bool then a else a + count_if stores d) (ds ++ d), count_if is_record (ds ++ d)).
Proof.
  intros Hn. pose proof bound_at_Z as Hb. rewrite count_if_app in Hn. unfold merge_shard, durable, res_of.
  cbn [Accepted Rejected Warnings RejectedAt RejectedTruncated].
  pose proof (count_if_nonneg is_record ds). pose proof (count_if_nonneg is_record d).
  assert (Forall (λ n, 0 ≤ n < count_if is_record d) (refused_at 0 d)) as Hr.
  { pose proof (refused_range 0 d) as Hr. eapply Forall_impl; [exact Hr|]. cbv beta. intros n. lia. }
  assert (to_int32 <$> refused_at 0 d = refused_at 0 d) as ->.
  { rewrite <- (list_fmap_id (refused_at 0 d)) at 2. apply list_fmap_ext. intros i n Hi. cbn.
    pose proof (Forall_lookup_1 _ _ _ _ Hr Hi) as Hx. cbv beta in Hx. apply i32_id. lia. }
  rewrite merge_positions_spec by (apply Forall_take; eapply Forall_impl; [exact Hr|]; cbv beta; intros n; lia).
  rewrite warn_all. f_equal; [|rewrite count_if_app, (count_records d); lia]. f_equal.
  - by rewrite count_if_app.
  - rewrite fmap_take, take_app_take, warned_app, Z.add_0_l. by rewrite (warned_rebase (count_if is_record ds)) by done.
  - rewrite fmap_take, take_app_take, refused_app, Z.add_0_l, fmap_app. rewrite (refused_shift (count_if is_record ds)), <- list_fmap_compose. done.
  - rewrite count_if_app. unfold len. rewrite length_take, length_fmap.
    pose proof (refused_length 0 ds) as H1. pose proof (refused_length 0 d) as H2. unfold len in H1, H2.
    apply eq_true_iff_eq. rewrite !orb_true_iff, !bool_decide_eq_true. lia.
Qed.
(** Of every shard, whether its rows were lost. *)
Lemma merge_shards_spec (per : list (list lineDoes * bool)) :
  count_if is_record (concat per.*1) ≤ 2 ^ 31 →
  foldl merge_shard (no_result, 0) ((λ x, (res_of x.1, x.2)) <$> per) =
  (durable (foldl (λ a x, if x.2 : bool then a else a + count_if stores x.1) 0 per) (concat per.*1), count_if is_record (concat per.*1)).
Proof.
  induction per as [|[d lost] per IH] using rev_ind; [done|]. rewrite !fmap_app, !foldl_app, concat_app. cbn [concat fmap list_fmap foldl fst snd].
  change (list_fmap _ _ ?f ?l) with (f <$> l). rewrite app_nil_r. intros Hn. rewrite IH.
  - by apply merge_shard_spec.
  - rewrite count_if_app in Hn. pose proof (count_if_nonneg is_record d). lia.
Qed.
Lemma durable_all ds : durable (count_if stores ds) ds = res_of ds.
Proof. done. Qed.
Lemma merge_all (per : list (list lineDoes * bool)) :
  Forall (λ x, x.2 = false) per → foldl (λ a x, if x.2 : bool then a else a + count_if stores x.1) 0 per = count_if stores (concat per.*1).
Proof.
  induction per as [|[d lost] per IH] using rev_ind; [done|]. intros [H H']%Forall_app. apply Forall_cons in H' as [Hl _]. cbn in Hl. subst.
  rewrite foldl_snoc, fmap_app, concat_app, count_if_app. cbn [concat fmap list_fmap fst snd]. rewrite app_nil_r.
  change (list_fmap _ _ ?f ?l) with (f <$> l). by rewrite IH.
Qed.

(** ** What a line does *)

Section lines.
Context {M : MapRange} {T : GoText} {D : GoTime} {G : GoSlices} {P : GoPipes} {J : Simdjson}.

(** *** The scratch slice *)

Definition valid (h : heap) (s : f32_slice) : Prop := ∃ arr, h !! s_arr s = Some arr ∧ (s_len s ≤ length arr)%nat.
Lemma valid_reset h s : valid h s → valid h (Slice (s_arr s) 0).
Proof. intros (arr & H & _). exists arr. split; [done|cbn; lia]. Qed.
Lemma vals_length h s : valid h s → length (slice_vals h s) = s_len s.
Proof. intros (arr & H & Hl). unfold slice_vals. rewrite H. cbn. rewrite length_take. lia. Qed.
Lemma append_ok h s x :
  valid h s → valid (append_f32 h s x).1 (append_f32 h s x).2 ∧ slice_vals (append_f32 h s x).1 (append_f32 h s x).2 = slice_vals h s ++ [x].
Proof.
  intros (arr & H & Hl). unfold append_f32, slice_vals, valid, heap in *. rewrite H. cbn [default from_option id]. case_bool_decide as Hc; cbn [fst snd s_arr s_len].
  - assert (s_arr s < length h)%nat as Ha by (by apply lookup_lt_Some in H). split.
    + exists (<[s_len s := x]> arr). cbn. rewrite list_lookup_insert_eq by done. rewrite length_insert. split; [done|lia].
    + rewrite list_lookup_insert_eq by done. cbn [default from_option id]. rewrite (take_S_r _ _ x) by (by apply list_lookup_insert_eq).
      by rewrite take_insert_ge by lia.
  - assert (s_len s = length arr) as El by lia. split.
    + eexists. cbn. rewrite lookup_app_r, Nat.sub_diag by lia. split; [done|]. rewrite !length_app, length_take. cbn. lia.
    + rewrite lookup_app_r, Nat.sub_diag by lia. cbn [lookup list_lookup default from_option id]. rewrite take_app_ge by (rewrite length_take; lia).
      f_equal. rewrite length_take, El, Nat.min_id. replace (S (length arr) - length arr)%nat with 1%nat by lia. done.
Qed.
(** The floats of an array, none when it is refused. *)
Fixpoint vec_list (dim : Z) (l : list jvalue) (acc : list Z) : option (list Z) :=
  match l with
  | [] => if bool_decide (len acc = dim) then Some acc else None
  | JNumber _ f :: l => if bool_decide (len acc = dim) || not_finite f then None else vec_list dim l (acc ++ [float32 f])
  | _ :: _ => None
  end.
Lemma vec_elems_ok dim l : ∀ h buf, valid h buf →
  let '(h', buf', bad) := vec_elems dim l h buf in
  valid h' buf' ∧ match vec_list dim l (slice_vals h buf) with
                  | Some vs => bad = false ∧ Z.of_nat (s_len buf') = dim ∧ slice_vals h' buf' = vs
                  | None => bad || negb (bool_decide (Z.of_nat (s_len buf') = dim)) = true
                  end.
Proof.
  induction l as [|v l IH]; intros h buf Hv; cbn [vec_elems vec_list].
  - split; [done|]. unfold len. rewrite vals_length by done. by case_bool_decide.
  - destruct v; try done. unfold len. rewrite vals_length by done. destruct (_ || _); [done|]. cbv zeta.
    destruct (append_ok h buf (float32 f) Hv) as [H1 H2]. specialize (IH _ _ H1). by rewrite H2 in IH.
Qed.

(** *** The keys *)

Record purerec := Pure {
  p_fields : gmap bytes bytes; p_ts : option Z; p_vecs : gmap bytes (list Z); p_vecErr : option vecErr; p_tsErr : option tsErr }.
Definition pure_field (k v : bytes) (r : purerec) : purerec := Pure (<[k := v]> (p_fields r)) (p_ts r) (p_vecs r) (p_vecErr r) (p_tsErr r).
Definition pure_time (key text : bytes) (t : tsErr + option Z) (r : purerec) : purerec * bool :=
  match t with
  | inl e => (Pure (p_fields r) (p_ts r) (p_vecs r) (p_vecErr r) (Some e), false)
  | inr (Some t) => (Pure (p_fields r) (Some t) (p_vecs r) (p_vecErr r) (p_tsErr r), true)
  | inr None => (pure_field key text r, true)
  end.
Definition pure_key (w : settings) (o : option Options) (key : bytes) (val : jvalue) (r : purerec) : purerec * bool :=
  match val with
  | JString s => if isTime o key then pure_time key s (parseTime s) r else (pure_field key s r, true)
  | JNumber raw f =>
      if isTime o key then pure_time key raw (numberTime raw) r
      else (pure_field key (if isIntegerLiteral raw then raw else FormatFloat_f f) r, true)
  | JBool b => (pure_field key (lit (if b then "true" else "false")) r, true)
  | JArray l =>
      match vecFlds (w_conf w) !! key with
      | None => (r, true)
      | Some dim =>
          match vec_list dim l [] with
          | Some vs => (Pure (p_fields r) (p_ts r) (<[key := vs]> (p_vecs r)) (p_vecErr r) (p_tsErr r), true)
          | None => (Pure (p_fields r) (p_ts r) (p_vecs r) (Some (vecShape key dim)) (p_tsErr r), false)
          end
      end
  | JNull | JObject _ => (r, true)
  end.
Fixpoint pure_keys (w : settings) (o : option Options) (l : list (bytes * jvalue)) (r : purerec) : purerec :=
  match l with [] => r | (key, val) :: l => let x := pure_key w o key val r in if x.2 : bool then pure_keys w o l x.1 else x.1 end.
(** A record with its slices, and with their values. *)
Record same_record (w : settings) (r : recvars) (p : purerec) : Prop := {
  sr_fields : v_fields r = p_fields p;
  sr_ts : v_ts r = p_ts p;
  sr_tsErr : v_tsErr r = p_tsErr p;
  sr_vecErr : v_vecErr r = p_vecErr p;
  sr_scratch : valid (v_heap r) (v_scratch r);
  sr_keys k : is_Some (v_vecs r !! k) ∨ is_Some (p_vecs p !! k) → is_Some (vecFlds (w_conf w) !! k);
  sr_vecs : p_vecErr p = None → slice_vals (v_heap r) <$> v_vecs r = p_vecs p }.
Lemma one_key {A} (m : gmap bytes A) k1 k2 : (size m ≤ 1)%nat → is_Some (m !! k1) → is_Some (m !! k2) → k1 = k2.
Proof.
  intros Hs H1%elem_of_dom H2%elem_of_dom. destruct (decide (k1 = k2)) as [|Hn]; [done|]. exfalso.
  assert (({[k1; k2]} : gset bytes) ⊆ dom m) as Hsub by set_solver. apply subseteq_size in Hsub. rewrite size_dom in Hsub.
  rewrite size_union, !size_singleton in Hsub by set_solver. lia.
Qed.
Lemma insert_only {A} (m : gmap bytes A) k x : (∀ j, is_Some (m !! j) → j = k) → <[k := x]> m = {[k := x]}.
Proof.
  intros H. apply map_eq. intros j. destruct (decide (k = j)) as [->|Hj]; [by rewrite lookup_insert_eq, lookup_singleton_eq|].
  rewrite lookup_insert_ne, lookup_singleton_ne by done. destruct (m !! j) eqn:E; [|done]. destruct Hj. symmetry. apply H. by eexists.
Qed.
Section line.
Context (w : settings) (o : option Options).
Hypothesis Hone : (size (vecFlds (w_conf w)) ≤ 1)%nat.

Lemma same_field k v r p : same_record w r p → same_record w (put_field k v r) (pure_field k v p).
Proof. intros []. constructor; cbn; try done. by f_equal. Qed.
Lemma same_time key text t r p :
  same_record w r p → same_record w (on_time key text t r).1 (pure_time key text t p).1 ∧ (on_time key text t r).2 = (pure_time key text t p).2.
Proof.
  intros H. destruct t as [e|[t|]]; cbn; (split; [|done]); [| |by apply same_field]; destruct H; by constructor.
Qed.
Lemma same_key key val r p :
  same_record w r p → same_record w (on_key w o key val r).1 (pure_key w o key val p).1 ∧ (on_key w o key val r).2 = (pure_key w o key val p).2.
Proof.
  intros H. destruct val as [|b|raw f|s|l|l]; cbn [on_key pure_key]; try done.
  - split; [by apply same_field|done].
  - destruct (isTime o key); [by apply same_time|split; [by apply same_field|done]].
  - destruct (isTime o key); [by apply same_time|split; [by apply same_field|done]].
  - destruct (vecFlds (w_conf w) !! key) as [dim|] eqn:Ek; [|done]. unfold vec_key. destruct H as [Hf Ht He Hv Hs Hk Hc].
    pose proof (vec_elems_ok dim l (v_heap r) (Slice (s_arr (v_scratch r)) 0) (valid_reset _ _ Hs)) as Hl.
    change (slice_vals (v_heap r) (Slice (s_arr (v_scratch r)) 0)) with (@nil Z) in Hl.
    destruct (vec_elems dim l _ _) as [[h buf] bad]. destruct Hl as [Hvalid Hl]. destruct (vec_list dim l []) as [vs|].
    + destruct Hl as (-> & Hd & Hvs). rewrite bool_decide_true by done. cbn [negb orb fst snd]. split; [|done].
      assert (∀ j, is_Some (v_vecs r !! j) ∨ is_Some (p_vecs p !! j) → j = key) as Hkey.
      { intros j Hj%Hk. apply (one_key _ _ _ Hone Hj). by rewrite Ek. }
      constructor; cbn; try done.
      * by apply valid_reset.
      * intros k. rewrite !insert_only by auto. intros [H|H]; (destruct (decide (key = k)) as [<-|Hn]; [by rewrite Ek|]);
          rewrite lookup_singleton_ne in H by done; by destruct H.
      * intros _. rewrite !insert_only by auto. rewrite map_fmap_singleton. by f_equal.
    + rewrite Hl. cbn [fst snd]. split; [|done]. constructor; cbn; try done. by apply valid_reset.
Qed.
Lemma same_keys l : ∀ r p, same_record w r p → same_record w (each_key w o l r) (pure_keys w o l p).
Proof.
  induction l as [|[key val] l IH]; intros r p H; [done|]. cbn [each_key pure_keys]. destruct (same_key key val r p H) as [H1 H2].
  rewrite H2. destruct (pure_key w o key val p).2; [by apply IH|done].
Qed.

Definition record_does (p : purerec) : lineDoes :=
  let clock := bool_decide (p_ts p = None) in
  match p_tsErr p, p_vecErr p with
  | Some e, _ => Refuses (Some (badTime e)) clock
  | None, Some e => Refuses (Some (badVector e)) clock
  | None, None =>
      Stores clock (λ now, addWithStreamVec w (default now (p_ts p)) (if options_Empty o then p_fields p else apply_mapping o (p_fields p)) o (p_vecs p))
  end.
Definition line_does (line : bytes) : lineDoes :=
  if bool_decide (trimSpace line = []) then Skips
  else if LineTooLong w (len line) then Refuses (Some (lineTooLong (len line))) false
  else match simdjson_Parse line with
       | Some (JObject l) => record_does (pure_keys w o l (Pure ∅ None ∅ None None))
       | _ => Refuses None false
       end.
Lemma ingest_line_does fallback s line :
  valid (i_heap s) (i_scratch s) →
  let s' := ingest_line w o fallback s line in
  i_res s' = does_res (i_res s) (line_does line) ∧ (i_calls s', i_clock s') = does_calls fallback (i_calls s, i_clock s) (line_does line) ∧
  valid (i_heap s') (i_scratch s').
Proof.
  intros Hv. unfold ingest_line, line_does. case_bool_decide; [done|]. cbv zeta. destruct (LineTooLong w (len line)); [done|].
  destruct (simdjson_Parse line) as [[| | | | |l]|]; try done.
  pose proof (same_keys l (RecVars ∅ None ∅ None None (i_heap s) (i_scratch s)) (Pure ∅ None ∅ None None)) as Hsame.
  assert (same_record w (RecVars ∅ None ∅ None None (i_heap s) (i_scratch s)) (Pure ∅ None ∅ None None)) as H0.
  { constructor; cbn; try done. intros k. rewrite lookup_empty. intros [H1|H1]; by destruct H1. }
  destruct (Hsame H0) as [Hf Ht He Hve Hs _ Hc]. unfold end_record, record_does. rewrite Hf, Ht, He, Hve.
  destruct (p_ts _) as [t|]; [rewrite bool_decide_false by done|rewrite bool_decide_true by done];
    (destruct (p_tsErr _) as [e|]; [done|]); (destruct (p_vecErr _) as [e|] eqn:Ee; [done|]); cbn; by rewrite (Hc eq_refl).
Qed.
Definition body_does (data : bytes) : list lineDoes := line_does <$> body_lines data.
Lemma ingest_does data fallback :
  let s := IngestJSONLinesOpts w data fallback o in
  i_res s = res_of (body_does data) ∧ (i_calls s, i_clock s) = foldl (does_calls fallback) ([], 0%nat) (body_does data).
Proof.
  unfold IngestJSONLinesOpts, body_does.
  assert (i_res (foldl (ingest_line w o fallback) start_ingest (body_lines data)) = foldl does_res no_result (line_does <$> body_lines data) ∧
    (i_calls (foldl (ingest_line w o fallback) start_ingest (body_lines data)), i_clock (foldl (ingest_line w o fallback) start_ingest (body_lines data)))
      = foldl (does_calls fallback) ([], 0%nat) (line_does <$> body_lines data) ∧
    valid (i_heap (foldl (ingest_line w o fallback) start_ingest (body_lines data))) (i_scratch (foldl (ingest_line w o fallback) start_ingest (body_lines data)))) as H.
  { induction (body_lines data) as [|line l IH] using rev_ind; [split_and!; [done|done|by exists []]|].
    rewrite fmap_app, !foldl_app. cbn [foldl fmap list_fmap]. destruct IH as (H1 & H2 & H3).
    destruct (ingest_line_does fallback (foldl (ingest_line w o fallback) start_ingest l) line H3) as (H4 & H5 & H6). rewrite <- H1, <- H2. done. }
  destruct H as (H1 & H2 & _). by rewrite H1, res_of_run.
Qed.
End line.
End lines.

(** ** Clocks *)

(** A line that does not read the clock stores the same whatever it shows. *)
Definition steady (d : lineDoes) : Prop := match d with Stores false made => ∀ a b, made a = made b | _ => True end.
Definition clocks (ds : list lineDoes) : nat := length (List.filter reads_clock ds).
Fixpoint made_from (f : nat → Z) (c : nat) (ds : list lineDoes) : list writer_call :=
  match ds with
  | [] => []
  | d :: ds => (match d with Stores _ made => option_list (made (f c)) | _ => [] end) ++ made_from f (if reads_clock d then S c else c) ds
  end.
Lemma does_calls_made f ds : ∀ l c, foldl (does_calls f) (l, c) ds = (l ++ made_from f c ds, (c + clocks ds)%nat).
Proof.
  unfold clocks. induction ds as [|d ds IH]; intros l c; cbn; [by rewrite app_nil_r, Nat.add_0_r|].
  destruct d as [|m b|b mk]; cbn [does_calls reads_clock fst snd]; rewrite IH; cbn [app]; [done| |]; rewrite ?app_assoc; f_equal; destruct b; cbn; lia.
Qed.
Lemma made_app f c a b : made_from f c (a ++ b) = made_from f c a ++ made_from f (c + clocks a) b.
Proof.
  unfold clocks. revert c. induction a as [|d a IH]; intros c; cbn; [by rewrite Nat.add_0_r|]. rewrite IH, app_assoc. do 2 f_equal.
  destruct (reads_clock d); cbn; lia.
Qed.
Lemma made_ext f g ds : ∀ c1 c2, Forall steady ds → (∀ k, (k < clocks ds)%nat → f (c1 + k)%nat = g (c2 + k)%nat) → made_from f c1 ds = made_from g c2 ds.
Proof.
  unfold clocks. induction ds as [|d ds IH]; intros c1 c2 Hs H; [done|]. apply Forall_cons in Hs as [Hd Hs]. cbn [made_from]. cbn [List.filter] in H.
  f_equal.
  - destruct d as [| |[] mk]; [done|done| |]; f_equal; [|apply Hd]. specialize (H 0%nat). rewrite !Nat.add_0_r in H. rewrite H; [done|cbn; lia].
  - destruct (reads_clock d); apply IH; try done. intros k Hk. specialize (H (S k)). rewrite !Nat.add_succ_r in H. apply H. cbn. lia.
Qed.
(** The readings of shards one after the other. *)
Lemma stitch (l : list ((nat → Z) * list lineDoes)) :
  Forall (λ x, Forall steady x.2) l → ∃ now, made_from now 0 (concat l.*2) = concat ((λ x, made_from x.1 0 x.2) <$> l).
Proof.
  induction l as [|[f ds] l IH]; intros Hs; [by exists (λ _, 0)|]. apply Forall_cons in Hs as [Hd Hs]. cbn [snd] in Hd.
  destruct (IH Hs) as [now Hnow]. exists (λ k, if decide (k < clocks ds)%nat then f k else now (k - clocks ds)%nat).
  cbn [concat fmap list_fmap fst snd]. rewrite made_app. f_equal.
  - apply made_ext; [done|]. intros k Hk. cbn. by rewrite decide_True.
  - rewrite Nat.add_0_l. change (list_fmap _ _ ?g ?l) with (g <$> l). rewrite <- Hnow. apply made_ext.
    + apply Forall_concat, Forall_fmap. exact Hs.
    + intros k _. rewrite decide_False by lia. f_equal. lia.
Qed.

(** ** The shards *)

Section shards.
Context {M : MapRange} {T : GoText} {D : GoTime} {G : GoSlices} {P : GoPipes} {J : Simdjson}.

Lemma body_steady w o data : Forall steady (body_does w o data).
Proof.
  apply Forall_fmap, Forall_true. intros line. cbn. unfold line_does. case_bool_decide; [done|]. destruct (LineTooLong w (len line)); [done|].
  destruct (simdjson_Parse line) as [[| | | | |l]|]; try done. unfold record_does. destruct (p_tsErr _); [done|]. destruct (p_vecErr _); [done|].
  destruct (p_ts _) as [t|]; [by rewrite bool_decide_false|by rewrite bool_decide_true].
Qed.
Lemma body_does_concat w o l : chunked l → body_does w o (concat l) = concat (body_does w o <$> l).
Proof.
  intros H. unfold body_does. rewrite chunked_lines by done. clear H. induction l as [|x l IH]; [done|].
  cbn [concat fmap list_fmap]. rewrite fmap_app. by f_equal.
Qed.
Lemma body_records w o data : count_if is_record (body_does w o data) ≤ len data.
Proof.
  unfold count_if, len, body_does. pose proof (body_lines_length data) as H.
  pose proof (List.filter_length_le is_record (line_does w o <$> body_lines data)) as H'. rewrite length_fmap in H'. lia.
Qed.
Lemma zip_fmaps {A B C} (f : A → B) (g : A → C) l : zip (f <$> l) (g <$> l) = (λ x, (f x, g x)) <$> l.
Proof. induction l as [|x l IH]; [done|]. cbn. by f_equal. Qed.

Lemma sharded_spec w o (shards : list shard) first :
  (size (vecFlds (w_conf w)) ≤ 1)%nat → chunked (sh_chunk <$> shards) → len (concat (sh_chunk <$> shards)) ≤ 2 ^ 31 →
  ∃ now, let r := i_res (IngestJSONLinesOpts w (concat (sh_chunk <$> shards)) now o) in let x := sharded w o shards first in
    concat x.2 = i_calls (IngestJSONLinesOpts w (concat (sh_chunk <$> shards)) now o) ∧
    Rejected x.1.1 = Rejected r ∧ Warnings x.1.1 = Warnings r ∧ RejectedAt x.1.1 = RejectedAt r ∧ RejectedTruncated x.1.1 = RejectedTruncated r ∧
    (Forall (λ s, sh_close s = None) shards → x.1 = (r, None)).
Proof.
  intros Hone Hc Hlen. set (dss := (λ s, body_does w o (sh_chunk s)) <$> shards).
  assert (body_does w o (concat (sh_chunk <$> shards)) = concat dss) as Hbody.
  { rewrite body_does_concat by done. unfold dss. by rewrite <- list_fmap_compose. }
  destruct (stitch ((λ s, (sh_fallback s, body_does w o (sh_chunk s))) <$> shards)) as [now Hnow].
  { apply Forall_fmap, Forall_true. intros s. apply body_steady. }
  exists now. intros r x. pose proof (ingest_does w o Hone (concat (sh_chunk <$> shards)) now) as [Hr Hcalls].
  fold r in Hr. rewrite Hbody in Hr, Hcalls. rewrite does_calls_made in Hcalls. injection Hcalls as Hcalls _. cbn [app] in Hcalls.
  set (per := (λ s, (body_does w o (sh_chunk s), bool_decide (is_Some (sh_close s)))) <$> shards).
  assert (per.*1 = dss) as Hper by (unfold per, dss; by rewrite <- list_fmap_compose).
  assert (x.1.1 = durable (foldl (λ a x, if x.2 : bool then a else a + count_if stores x.1) 0 per) (concat dss)) as Hres.
  { unfold x, sharded, mergeShardResults. cbn [fst]. rewrite <- list_fmap_compose, zip_fmaps.
    assert ((λ s, ((i_res ∘ run_shard w o) s, bool_decide (is_Some (sh_close s)))) <$> shards = (λ x, (res_of x.1, x.2)) <$> per) as ->.
    { unfold per. rewrite <- list_fmap_compose. apply list_fmap_ext. intros i s _. cbn. f_equal. by apply ingest_does. }
    rewrite merge_shards_spec; [by rewrite Hper|]. rewrite Hper, <- Hbody. etrans; [apply body_records|done]. }
  assert (concat x.2 = made_from now 0 (concat dss)) as Hx2.
  { etrans; [|etrans; [exact (eq_sym Hnow)|]].
    - unfold x, sharded. cbn [snd]. rewrite <- !list_fmap_compose. f_equal. apply list_fmap_ext. intros i s _. cbn.
      destruct (ingest_does w o Hone (sh_chunk s) (sh_fallback s)) as [_ H]. rewrite does_calls_made in H. by injection H as H _.
    - f_equal. f_equal. unfold dss. by rewrite <- list_fmap_compose. }
  rewrite Hx2, Hcalls, Hr, Hres. split_and!; try done. intros Hnone.
  assert (Forall (λ x, x.2 = false) per) as Hlost.
  { apply Forall_fmap. eapply Forall_impl; [exact Hnone|]. intros s Hs. cbn. by rewrite Hs. }
  rewrite merge_all, Hper in Hres by done. rewrite durable_all in Hres.
  destruct x as [[x1 x2] x3] eqn:Ex. cbn [fst] in *. rewrite Hres. f_equal.
  unfold x, sharded in Ex. injection Ex as _ Ex _. rewrite <- Ex.
  assert (omap sh_close shards = []) as ->; [|done]. clear -Hnone. induction Hnone as [|s l Hs _ IH]; [done|]. cbn. by rewrite Hs.
Qed.
End shards.

Section parallel.
Context {M : MapRange} {T : GoText} {D : GoTime} {G : GoSlices} {P : GoPipes} {J : Simdjson}.

(** C9: However many shards a body is split over, whatever clock each of them reads and
    whichever of them fail to store, the lines are those of one pass: the records
    handed to the writers are the same records in the same order, the same are
    refused, at the same positions of the whole body, with the same warnings; and
    when no shard fails the answer is the answer of the one pass. With at most one
    field of embeddings configured, since two in a record share a buffer
    ([embeddings_depend_on_shards] of IngestWitnesses), and a body of at most 2^31 bytes. *)
Theorem sharded_exact NumCPU data cfg o clock close first :
  (size (pc_VectorFields cfg) ≤ 1)%nat → len data ≤ 2 ^ 31 →
  ∃ now,
    let y := IngestJSONLinesOpts (apply_config cfg new_writer) data now o in
    let x := IngestJSONLinesParallelResult NumCPU data cfg o clock close first in
    concat x.2 = i_calls y ∧ Rejected x.1.1 = Rejected (i_res y) ∧ RejectedAt x.1.1 = RejectedAt (i_res y) ∧
    RejectedTruncated x.1.1 = RejectedTruncated (i_res y) ∧ Warnings x.1.1 = Warnings (i_res y) ∧
    ((∀ i, close i = None) → x.1 = (i_res y, None)).
Proof.
  intros Hone Hlen. unfold IngestJSONLinesParallelResult. cbv zeta. case_bool_decide as Hn.
  - exists (clock 0%nat). unfold serial, run_shard. cbn [sh_close sh_chunk sh_fallback]. destruct (close 0%nat) as [e|] eqn:Ee; cbn [fst snd concat].
    + rewrite app_nil_r. split_and!; try done. intros H. by rewrite H in Ee.
    + rewrite app_nil_r. done.
  - set (chunks := splitLines data _). destruct (splitLines_ok data (ShardsFor NumCPU cfg (len data))) as [Hd Hc].
    assert (sh_chunk <$> imap (λ i c, Shard c (clock i) (close i)) chunks = chunks) as Hsh.
    { rewrite fmap_imap. apply list_eq. intros i. rewrite list_lookup_imap. cbn. by destruct (chunks !! i). }
    destruct (sharded_spec (apply_config cfg new_writer) o (imap (λ i c, Shard c (clock i) (close i)) chunks) first) as [now H].
    + done.
    + by rewrite Hsh.
    + unfold chunks in *. by rewrite Hsh, Hd.
    + exists now. rewrite Hsh in H. unfold chunks in H at 1 2 3. rewrite Hd in H. destruct H as (H1 & H2 & H3 & H4 & H5 & H6).
      split_and!; try done. intros Hall. apply H6. apply Forall_lookup_2. intros i s Hi. rewrite list_lookup_imap in Hi.
      destruct (chunks !! i); [|done]. injection Hi as <-. apply Hall.
Qed.
(** The writers of the shards are set as the writer of the tenant. *)
Theorem shards_inherit w : 0 ≤ w_maxLine w → apply_config (ShardSettings w) new_writer = w.
Proof.
  intros H. destruct w as [[flds vecs l c] m]. cbn in *. unfold apply_config, ShardSettings. cbn. f_equal; [f_equal|].
  - by case_bool_decide.
  - case_bool_decide; lia.
Qed.
(** A failure that does not say partial: every shard failed, and none had stored a
    group. *)
Theorem sharded_clean_retry w o shards first e :
  (sharded w o shards first).1.2 = Some e → we_Partial (parallel_writeError e) = false →
  Forall (λ s, ∃ we, sh_close s = Some we ∧ we_Partial we = false) shards.
Proof.
  unfold sharded. cbn [fst snd]. destruct (omap sh_close shards !! first) as [e0|] eqn:E; [|done]. intros [= <-].
  unfold parallel_writeError. cbn. rewrite orb_false_iff, bool_decide_eq_false. intros [Hn Hp].
  apply lookup_lt_Some in E. unfold len in Hn.
  assert (length (omap sh_close shards) ≤ length shards)%nat as Hle.
  { clear. induction shards as [|s l IH]; [done|]. cbn. destruct (sh_close s); cbn; lia. }
  assert (length (omap sh_close shards) = length shards) as Hall by lia. clear Hn Hle E.
  induction shards as [|s l IH]; [constructor|]. cbn in *. destruct (sh_close s) as [we|] eqn:Es.
  - cbn in *. apply orb_false_iff in Hp as [Hp Hps]. constructor; [by exists we|]. apply IH; [done|lia].
  - exfalso. assert (length (omap sh_close l) ≤ length l)%nat; [|cbn in *; lia].
    clear. induction l as [|s l IH]; [done|]. cbn. destruct (sh_close s); cbn; lia.
Qed.
End parallel.
