(* ===== verification/TextLines.v ===== *)
(** * Text lines: logfmt and syslog

    [internal/ingest/logfmt.go] and [syslog.go]: one record per line. Records printed
    as logfmt lines are ingested as those records ([logfmt_ingests]). *)

From Stdlib Require Import Ascii String SpecFloat.
From S2P Require Import Prelude Batches StatsPipe Pipes LogsQL LogsQLOk LogsQLText Jsonl JsonlOk Digits GoLib Writer Filter Engine.
From S2P Require Import TimeFilter Text Rows Records.
From stdpp Require Import list gmap.
Local Open Scope Z_scope.

(** ** Definitions *)

(** What a loop over lines keeps: the answer and the calls made, how many times
    [fallback] was read, and the ordinal that [IngestLogfmtOpts] counts itself. *)
Record lines := Lines { l_res : Result; l_calls : list writer_call; l_clock : nat; l_ordinal : Z }.
Definition no_lines : lines := Lines no_result [] 0 0.

(** *** logfmt *)

(** [strings.TrimLeft] of what separates. *)
Definition blank (c : Z) : bool := bool_decide (c = 32 ∨ c = 9).
(** A quoted value after its opening quote, and what follows the closing one. *)
Fixpoint logfmt_quoted (s : bytes) : bytes * bytes :=
  match s with
  | [] => ([], [])
  | c :: s' =>
      if bool_decide (c = 34) then ([], s') else
      match s' with
      | d :: s'' => if bool_decide (c = 92) then let x := logfmt_quoted s'' in (d :: x.1, x.2) else let x := logfmt_quoted s' in (c :: x.1, x.2)
      | [] => ([c], [])
      end
  end.
(** The value after a key; the text that is left. *)
Definition logfmt_value (s : bytes) : bytes * bytes :=
  match s with
  | 61 :: 34 :: s => logfmt_quoted s
  | 61 :: s => span (λ c, negb (blank c)) s
  | _ => ([], s)
  end.
(** One turn of [parseLogfmtLine] after the separators. *)
Definition line_pair (s : bytes) : (bytes * bytes) * bytes :=
  let k := span (λ c, negb (bool_decide (c = 61) || blank c)) s in
  let v := logfmt_value k.2 in ((k.1, v.1), v.2).
(** The pairs [parseLogfmtLine] emits; a turn takes a byte. *)
Fixpoint line_loop (fuel : nat) (s : bytes) : list (bytes * bytes) :=
  match fuel with
  | O => []
  | S fuel =>
      match (span blank s).2 with
      | [] => []
      | s' => let x := line_pair s' in (if bool_decide (x.1.1 = []) then [] else [x.1]) ++ line_loop fuel x.2
      end
  end.
Definition parseLogfmtLine (line : bytes) : list (bytes * bytes) := line_loop (length line) line.

Section lines.
Context {M : MapRange} {T : GoText} {D : GoTime} {G : GoSlices}.

(** The variables of one record, and the callback. *)
Record textrec := TextRec { x_fields : gmap bytes bytes; x_ts : option Z; x_tsErr : option tsErr }.
Definition emit_pair (r : textrec) (kv : bytes * bytes) : textrec :=
  let '(k, v) := kv in
  let field := TextRec (<[k := v]> (x_fields r)) (x_ts r) (x_tsErr r) in
  if isTimeKey k then
    match parseTime v with
    | inl e => TextRec (x_fields r) (x_ts r) (Some e)
    | inr (Some t) => TextRec (x_fields r) (Some t) (x_tsErr r)
    | inr None => field
    end
  else field.
Definition with_mapping (o : option Options) (fields : gmap bytes bytes) : gmap bytes bytes := if options_Empty o then fields else apply_mapping o fields.
Definition take_time (fallback : nat → Z) (ts : option Z) (clock : nat) : Z * nat :=
  match ts with Some t => (t, clock) | None => (fallback clock, S clock) end.
(** One turn of the loop of [IngestLogfmtOpts]. *)
Definition logfmt_line (w : settings) (o : option Options) (fallback : nat → Z) (s : lines) (line : bytes) : lines :=
  if bool_decide (trimSpace line = []) then s else
  let ordinal := l_ordinal s in
  let r := foldl emit_pair (TextRec ∅ None None) (parseLogfmtLine line) in
  match x_tsErr r with
  | Some e => Lines (WarnAt ordinal (badTime e) (Reject ordinal (l_res s))) (l_calls s) (l_clock s) (ordinal + 1)
  | None =>
      if bool_decide (x_fields r = ∅) then Lines (Reject ordinal (l_res s)) (l_calls s) (l_clock s) (ordinal + 1) else
      let '(ts, clock) := take_time fallback (x_ts r) (l_clock s) in
      let x := addOrReject w ts (with_mapping o (x_fields r)) o ordinal (l_res s, l_calls s) in
      Lines x.1 x.2 clock (ordinal + 1)
  end.
Definition IngestLogfmtOpts (w : settings) (data : bytes) (fallback : nat → Z) (o : option Options) : lines :=
  foldl (logfmt_line w o fallback) no_lines (body_lines data).

(** *** syslog *)

Definition severityName : list bytes := lit <$> ["emerg"; "alert"; "crit"; "err"; "warning"; "notice"; "info"; "debug"]%string.
Definition TrimLeft (s : bytes) : bytes := (span (λ c, bool_decide (c = 32)) s).2.
(** At most [n] fields, the last with the remainder. *)
Fixpoint split_fields (n : nat) (s : bytes) : list bytes :=
  match n with
  | O => [TrimLeft s]
  | S n => let s := TrimLeft s in match IndexByte s 32 with Some sp => take sp s :: split_fields n (drop (S sp) s) | None => [TrimLeft s] end
  end.
(** [splitN(s, n)] is [split_fields (n - 1) s]. *)
Definition splitN (s : bytes) (n : nat) : list bytes := split_fields (n - 1) s.
Definition set_if (k v : bytes) (fields : gmap bytes bytes) : gmap bytes bytes :=
  if bool_decide (v = [] ∨ v = [45]) then fields else <[k := v]> fields.
(** What follows the structured data, and the field it becomes. *)
Definition structured (tail : bytes) (fields : gmap bytes bytes) : gmap bytes bytes :=
  let '(fields, msg) :=
    if HasPrefix tail [91] then
      match IndexByte tail 93 with
      | Some stop => (<[lit "structured_data" := take (S stop) tail]> fields, TrimSpace (drop (S stop) tail))
      | None => (fields, tail)
      end
    else if bool_decide (tail = [45]) then (fields, [])
    else if HasPrefix tail [45; 32] then (fields, drop 2 tail)
    else (fields, tail) in
  <[s_msg := msg]> fields.
(** A time, none, or the error; the fields. *)
Definition parse5424 (rest : bytes) (fields : gmap bytes bytes) : (tsErr + option Z) * gmap bytes bytes :=
  let f := splitN rest 6 in
  let set i k fields := match f !! i with Some v => set_if (lit k) v fields | None => fields end in
  let fields := set 4%nat "msg_id"%string (set 3%nat "proc_id"%string (set 2%nat "app_name"%string (set 1%nat "hostname"%string fields))) in
  (match f !! 0%nat with Some t => parseTime t | None => inr None end,
   match f !! 5%nat with Some tail => structured (TrimLeft tail) fields | None => fields end).
(** [year]: that of [time.Now()]. *)
Definition parse3164 (year : Z) (rest : bytes) (fields : gmap bytes bytes) : (tsErr + option Z) * gmap bytes bytes :=
  let '(ts, rest) :=
    if bool_decide (15 ≤ len rest) then
      match time_Parse "Jan _2 15:04:05" (take 15 rest) with
      | Some t => (Some (i64 (AddDate t year 0 0)), TrimSpace (drop 15 rest))
      | None => (None, rest)
      end
    else (None, rest) in
  let parts := splitN rest 2 in
  let fields := match parts !! 0%nat with Some h => if bool_decide (h = []) then fields else <[lit "hostname" := h]> fields | None => fields end in
  (inr ts,
   match parts !! 1%nat with
   | Some tail =>
       match IndexByte tail 58 with
       | Some c =>
           if bool_decide (0 < c < 48)%nat then <[s_msg := TrimSpace (drop (S c) tail)]> (<[lit "app_name" := TrimSuffix (take c tail) [58]]> fields)
           else <[s_msg := tail]> fields
       | None => <[s_msg := tail]> fields
       end
   | None => fields
   end).
(** The priority: the facility and the severity. *)
Definition parse_pri (line : bytes) : bytes * gmap bytes bytes :=
  match (if HasPrefix line [60] then IndexByte line 62 else None) with
  | Some (S (S i) as stop) =>
      match Filter.Atoi (take (stop - 1) (drop 1 line)) with
      | Some pri =>
          if bool_decide (0 ≤ pri) then
            (drop (S stop) line,
             <[lit "severity" := default [] (severityName !! Z.to_nat (pri mod 8))]> (<[lit "facility" := Itoa (pri / 8)]> ∅))
          else (line, ∅)
      | None => (line, ∅)
      end
  | _ => (line, ∅)
  end.
Definition parseSyslogInto (year : Z) (line : bytes) : (tsErr + option Z) * gmap bytes bytes :=
  let '(rest, fields) := parse_pri line in
  match rest with 49 :: 32 :: rest => parse5424 rest fields | _ => parse3164 year rest fields end.
(** One message at an ordinal. *)
Definition syslog_message (w : settings) (o : option Options) (year : Z) (fallback : nat → Z) (s : lines) (msg : bytes) : lines :=
  if bool_decide (trimSpace msg = []) then s else
  let ordinal := Accepted (l_res s) + Rejected (l_res s) in
  let '(t, fields) := parseSyslogInto year msg in
  match t with
  | inl e => Lines (WarnAt ordinal (badTime e) (Reject ordinal (l_res s))) (l_calls s) (l_clock s) (l_ordinal s)
  | inr t =>
      let '(ts, clock) := take_time fallback t (l_clock s) in
      let x := addOrReject w ts (with_mapping o fields) o ordinal (l_res s, l_calls s) in
      Lines x.1 x.2 clock (l_ordinal s)
  end.
Definition IngestSyslogOpts (w : settings) (data : bytes) (year : Z) (fallback : nat → Z) (o : option Options) : lines :=
  foldl (syslog_message w o year fallback) no_lines (body_lines data).
(** One message of an octet-counted frame, newlines included. *)
Definition IngestSyslogMessage (w : settings) (msg : bytes) (year : Z) (fallback : nat → Z) (o : option Options) : lines :=
  syslog_message w o year fallback no_lines msg.
End lines.

(** ** Lines of logfmt are read back *)

Definition logfmt_key (k : bytes) : Prop := k ≠ [] ∧ Forall (λ c, c ≠ 61 ∧ c ≠ 32 ∧ c ≠ 9 ∧ c ≠ 10) k.
Definition print_pair (kv : bytes * bytes) : bytes := kv.1 ++ [61] ++ quoted kv.2.
(** A record on a line of its own: [k="v"], space-separated. *)
Definition print_logfmt (r : list (bytes * bytes)) : bytes := strings_Join (print_pair <$> r) [32].
Definition print_body (rs : list (list (bytes * bytes))) : bytes := concat ((λ r, print_logfmt r ++ [10]) <$> rs).
(** A record that fits on a line, and carries no time of its own. *)
Definition line_record (r : list (bytes * bytes)) : Prop :=
  r ≠ [] ∧ Forall (λ kv, logfmt_key kv.1 ∧ isTimeKey kv.1 = false ∧ Forall (λ c, c ≠ 10) kv.2) r.
Definition last_wins (r : list (bytes * bytes)) : gmap bytes bytes := foldl (λ m kv, <[kv.1 := kv.2]> m) ∅ r.

(** ** A line *)

Lemma logfmt_quoted_escaped s rest : logfmt_quoted (escaped s ++ 34 :: rest) = (s, rest).
Proof.
  induction s as [|c s IH]; [done|]. unfold escaped. cbn [fmap list_fmap concat]. fold (escaped s). case_bool_decide as Hc.
  - cbn [app logfmt_quoted]. rewrite (bool_decide_false (92 = 34)), (bool_decide_true (92 = 92)) by done.
    change (concat _) with (escaped s). by rewrite IH.
  - cbn [app]. change (concat _) with (escaped s). destruct (escaped s ++ 34 :: rest) as [|d r] eqn:E; [by destruct (escaped s)|].
    assert (logfmt_quoted (c :: d :: r) = let x := logfmt_quoted (d :: r) in (c :: x.1, x.2)) as ->; [|by rewrite IH].
    cbn [logfmt_quoted]. by rewrite (bool_decide_false (c = 34)), (bool_decide_false (c = 92)) by tauto.
Qed.
Lemma key_char c : c ≠ 61 → c ≠ 32 → c ≠ 9 → negb (bool_decide (c = 61) || blank c) = true.
Proof. intros H1 H2 H3. unfold blank. rewrite !bool_decide_false; [done|lia|done]. Qed.
Lemma logfmt_pair_printed kv rest : logfmt_key kv.1 → line_pair (print_pair kv ++ rest) = (kv, rest).
Proof.
  destruct kv as [k v]. intros [_ Hk]. unfold line_pair, print_pair. cbn [fst snd] in *. rewrite <- !app_assoc. cbn [app].
  assert (span (λ c, negb (bool_decide (c = 61) || blank c)) (k ++ 61 :: quoted v ++ rest) = (k, 61 :: quoted v ++ rest)) as ->.
  { apply span_stop; [|done]. eapply Forall_impl; [exact Hk|]. cbv beta. intros c (? & ? & ? & _). by apply key_char. }
  cbv zeta. cbn [fst snd]. unfold quoted. cbn [app logfmt_value]. rewrite <- app_assoc. cbn [app]. by rewrite logfmt_quoted_escaped.
Qed.
Lemma print_pair_head kv : logfmt_key kv.1 → ∃ c s, print_pair kv = c :: s ∧ blank c = false.
Proof.
  destruct kv as [[|c k] v]; intros [Hn Hk]; [done|]. apply Forall_cons in Hk as [(_ & H1 & H2 & _) _].
  exists c, (k ++ [61] ++ quoted v). split; [done|]. apply bool_decide_eq_false. lia.
Qed.
Lemma logfmt_loop_printed r : ∀ fuel pre, Forall (λ kv, logfmt_key kv.1) r → (length r < fuel)%nat → pre = [] ∨ pre = [32] →
  line_loop fuel (pre ++ print_logfmt r) = r.
Proof.
  induction r as [|kv r IH]; intros [|fuel] pre Hk Hf Hpre; cbn [length] in Hf; try lia; [by destruct Hpre as [->| ->]|].
  apply Forall_cons in Hk as [Hkv Hk]. cbn [line_loop].
  assert (∃ rest, print_logfmt (kv :: r) = print_pair kv ++ rest ∧ line_loop fuel rest = r) as (rest & E & Hrest).
  { unfold print_logfmt. cbn [fmap list_fmap strings_Join]. destruct r as [|kv' r].
    - exists []. split; [cbn; by rewrite app_nil_r|]. by destruct fuel.
    - eexists. split; [reflexivity|]. apply (IH fuel [32]); [done|lia|by right]. }
  rewrite E. destruct (print_pair_head kv Hkv) as (c & s & Ep & Hc).
  assert ((span blank (pre ++ print_pair kv ++ rest)).2 = print_pair kv ++ rest) as ->.
  { rewrite Ep. destruct Hpre as [->| ->]; cbn [app span]; [|change (blank 32) with true; cbn [span snd]]; by rewrite Hc. }
  pose proof (logfmt_pair_printed kv rest Hkv) as Hp. rewrite Ep in Hp |- *. cbn [app] in *. rewrite Hp. cbn [fst snd]. destruct Hkv as [Hn _].
  rewrite bool_decide_false by done. cbn [app]. by rewrite Hrest.
Qed.
Lemma print_length r : (3 * length r ≤ length (print_logfmt r))%nat.
Proof.
  assert (∀ kv, 3 ≤ length (print_pair kv))%nat as Hp.
  { intros kv. unfold print_pair, quoted. rewrite !length_app. cbn [length]. rewrite length_app. cbn [length]. lia. }
  unfold print_logfmt. induction r as [|kv [|kv' r] IH]; [done| |].
  - cbn. pose proof (Hp kv). lia.
  - cbn [fmap list_fmap strings_Join length] in *. rewrite !length_app. pose proof (Hp kv). cbn [length]. lia.
Qed.
Lemma parse_printed r : Forall (λ kv, logfmt_key kv.1) r → parseLogfmtLine (print_logfmt r) = r.
Proof.
  intros Hk. unfold parseLogfmtLine. destruct r as [|kv r]; [done|].
  pose proof (print_length (kv :: r)) as Hl. cbn [length] in Hl. apply (logfmt_loop_printed (kv :: r) _ []); [done|cbn [length]; lia|by left].
Qed.

(** ** A body *)

Lemma escaped_no_newline s : Forall (λ c, c ≠ 10) s → Forall (λ c, c ≠ 10) (escaped s).
Proof.
  intros H. unfold escaped. apply Forall_concat, Forall_fmap. eapply Forall_impl; [exact H|]. cbn. intros c Hc.
  case_bool_decide; repeat constructor; done.
Qed.
Lemma print_no_newline r : line_record r → Forall (λ c, c ≠ 10) (print_logfmt r).
Proof.
  intros [_ H]. unfold print_logfmt. induction H as [|kv r (Hk & _ & Hv) Hr IH]; [constructor|].
  assert (Forall (λ c, c ≠ 10) (print_pair kv)) as Hp.
  { unfold print_pair, quoted. destruct Hk as [_ Hk]. apply Forall_app. split; [eapply Forall_impl; [exact Hk|]; cbv beta; tauto|].
    do 2 (constructor; [done|]). apply Forall_app. split; [by apply escaped_no_newline|by repeat constructor]. }
  cbn [fmap list_fmap strings_Join]. destruct r as [|kv' r]; [done|]. apply Forall_app. split; [done|]. by constructor.
Qed.
Lemma IndexByte_none c s : Forall (λ x, x ≠ c) s → ∀ rest, IndexByte (s ++ c :: rest) c = Some (length s).
Proof.
  induction 1 as [|x s Hx _ IH]; intros rest; cbn [app IndexByte length]; [by rewrite bool_decide_true|].
  rewrite bool_decide_false by done. by rewrite IH.
Qed.
Lemma drop_past (s : bytes) c l : drop (S (length s)) (s ++ c :: l) = l.
Proof. induction s as [|x s IH]; [done|]. exact IH. Qed.
Lemma print_body_lines rs : Forall line_record rs → body_lines (print_body rs) = print_logfmt <$> rs.
Proof.
  unfold print_body. induction 1 as [|r rs Hr _ IH]; [done|]. cbn [fmap list_fmap concat]. rewrite <- app_assoc.
  rewrite body_lines_cons by (by destruct (print_logfmt r)). unfold cut_line. cbn [app].
  rewrite IndexByte_none by (by apply print_no_newline). cbn [fst snd]. rewrite take_app_length. f_equal.
  rewrite drop_past. exact IH.
Qed.
Lemma trim_nonblank s c : c ∈ s → line_space c = false → trimSpace s ≠ [].
Proof.
  intros Hin Hc. assert (∀ s, c ∈ s → c ∈ (span line_space s).2) as H.
  { clear -Hc. intros s. induction s as [|x s IH]; intros Hin; [done|]. cbn [span]. destruct (line_space x) eqn:E; [|done].
    cbn [snd]. apply IH. apply elem_of_cons in Hin as [->|]; [congruence|done]. }
  assert (∀ s, c ∈ s → c ∈ rev s) as Hr by (intros s' Hs; apply list_elem_of_In; rewrite <- in_rev; by apply list_elem_of_In).
  unfold trimSpace. cbv zeta. apply H, Hr, H, Hr in Hin. intros E. rewrite E in Hin. by apply not_elem_of_nil in Hin.
Qed.

Section ingest.
Context {M : MapRange} {T : GoText} {D : GoTime} {G : GoSlices}.

Lemma emit_fields r : Forall (λ kv, isTimeKey kv.1 = false) r → ∀ m, foldl emit_pair (TextRec m None None) r = TextRec (foldl (λ m kv, <[kv.1 := kv.2]> m) m r) None None.
Proof. induction 1 as [|[k v] r Hk _ IH]; intros m; [done|]. cbn [foldl]. unfold emit_pair at 2. cbn [fst] in Hk. rewrite Hk. apply IH. Qed.
Lemma last_wins_some r : r ≠ [] → last_wins r ≠ ∅.
Proof. intros Hr. unfold last_wins. destruct r as [|kv r] using rev_ind; [done|]. rewrite foldl_snoc. apply insert_non_empty. Qed.
Lemma line_printed w fallback s r :
  vecFlds (w_conf w) = ∅ → line_record r →
  logfmt_line w None fallback s (print_logfmt r) =
  Lines (Accept (l_res s)) (l_calls s ++ [Call (fallback (l_clock s)) (last_wins r) false ∅]) (S (l_clock s)) (l_ordinal s + 1).
Proof.
  intros Hw [Hn Hr]. unfold logfmt_line. rewrite bool_decide_false.
  - assert (Forall (λ kv, logfmt_key kv.1) r) as Hk by (eapply Forall_impl; [exact Hr|]; cbv beta; tauto).
    rewrite parse_printed by done. rewrite emit_fields by (eapply Forall_impl; [exact Hr|]; cbv beta; tauto). cbn [x_tsErr x_fields x_ts].
    fold (last_wins r). rewrite bool_decide_false by (by apply last_wins_some). cbn [take_time].
    unfold addOrReject, addWithStream, hasVec. rewrite Hw, bool_decide_true by done. cbn. done.
  - destruct r as [|kv r]; [done|]. apply Forall_cons in Hr as [(Hk & _ & _) _]. destruct (print_pair_head kv Hk) as (c & s' & E & _).
    apply (trim_nonblank _ 61); [|done]. unfold print_logfmt. cbn [fmap list_fmap strings_Join]. unfold print_pair at 1.
    destruct r; set_solver.
Qed.
Lemma logfmt_printed w rs fallback :
  vecFlds (w_conf w) = ∅ → Forall line_record rs →
  let s := IngestLogfmtOpts w (print_body rs) fallback None in
  l_res s = MkResult (len rs) 0 [] [] false ∧ l_calls s = imap (λ i r, Call (fallback i) (last_wins r) false ∅) rs.
Proof.
  intros Hw Hrs. unfold IngestLogfmtOpts. rewrite print_body_lines by done.
  assert (foldl (logfmt_line w None fallback) no_lines (print_logfmt <$> rs) =
    Lines (MkResult (len rs) 0 [] [] false) (imap (λ i r, Call (fallback i) (last_wins r) false ∅) rs) (length rs) (len rs)) as ->; [|done].
  induction rs as [|r rs IH] using rev_ind; [done|]. apply Forall_app in Hrs as [Hrs Hr]. apply Forall_cons in Hr as [Hr _].
  rewrite fmap_app, foldl_app, IH by done. cbn [foldl fmap list_fmap]. rewrite line_printed by done. cbn [l_res l_calls l_clock l_ordinal].
  rewrite imap_app. cbn [imap]. unfold Accept, len. rewrite length_app. cbn [length Accepted Rejected Warnings RejectedAt RejectedTruncated].
  f_equal; [f_equal; lia| |lia|lia]. f_equal. cbn. by rewrite Nat.add_0_r.
Qed.
(** C33: Records printed as logfmt lines are ingested as those records, every byte of every
    value but a newline: each is accepted, in order, with its fields and a time from
    the clock. *)
Theorem logfmt_ingests w rs fallback :
  vecFlds (w_conf w) = ∅ → Forall line_record rs →
  let s := IngestLogfmtOpts w (print_body rs) fallback None in
  l_res s = MkResult (len rs) 0 [] [] false ∧ l_calls s = imap (λ i r, Call (fallback i) (last_wins r) false ∅) rs.
Proof. by apply logfmt_printed. Qed.
End ingest.
