(* ===== verification/Batching.v ===== *)
(** * From calls of the writer to groups that answer

    The calls an ingest makes run through [addVec] ([write_calls]), which hands a
    job to the pool whenever a threshold is reached. The jobs and the buffers hold
    the rows, in order ([written_rows]); the thresholds keep every job within what
    one group may hold, and the group a worker builds from it is marshalled and read
    back as its rows ([job_served]). *)

From S2P Require Import Prelude Digits GoLib Kernels Indices Timestamps Compress DictSection DictLayout Postings Bloom Group GroupSafe GroupLayout Bitset Select.
From S2P Require Import Reader ReaderSafe ReaderOk Table Writer Ingest Batches Filter FilterOk Engine EngineOk Records.
From stdpp Require Import list sorting gmap fin_maps.
Local Open Scope Z_scope.

(** ** Definitions *)

(** What a deployment is configured with: the names of its fields beside those of
    its embeddings. *)
Record schema (c : config) (names : list bytes) : Prop := {
  sc_cols : 1 + len names + Z.of_nat (size (vecFlds c)) ≤ maxGroupColumns;
  sc_dims : map_Forall (λ name dim, is_bytes name ∧ len name ≤ maxNameBytes ∧ 0 ≤ dim ≤ 32) (vecFlds c);
  sc_time : s_time ∉ names ∧ vecFlds c !! s_time = None;
  sc_apart k : k ∈ names → vecFlds c !! k = None }.
(** A row of it. *)
Definition maxCell : Z := 2 ^ 29.
Record fits_row (names : list bytes) (r : row) : Prop := {
  fr_ts : is_i64 (row_ts r);
  fr_fields : map_Forall (λ k v, k ∈ names ∧ is_bytes k ∧ len k ≤ maxNameBytes ∧ is_bytes v ∧ len v ≤ maxCell) (row_fields r);
  fr_vecs : map_Forall (λ _ v, Forall is_u32 v) (row_vecs r) }.

Section runs.
Context {M : MapRange}.

(** One call, with the clock readings it made; and the row it stores. *)
Definition write_call (s : sys) (x : (Z * Z) * writer_call) : sys :=
  addVec x.1.1 x.1.2 (c_ts x.2) (c_fields x.2) (c_override x.2) (c_vecs x.2) s.
Definition write_calls (s : sys) (l : list ((Z * Z) * writer_call)) : sys := foldl write_call s l.
Definition call_row (c : config) (x : writer_call) : row := stored_row c (c_ts x) (c_fields x) (c_override x) (c_vecs x).

(** ** The thresholds *)

(** The count of buffered bytes bounds every column. *)
Definition weighed (b : buffers) : Prop := 0 ≤ b_bytes b ∧ map_Forall (λ _ vals, len (concat vals) ≤ b_bytes b) (b_cols b).

Lemma concat_nils n : concat (replicate n (@nil Z)) = [].
Proof. by induction n. Qed.
Lemma concat_backfill n vals : concat (backfill [] n vals) = concat (vals : list bytes).
Proof. unfold backfill. by rewrite concat_app, concat_nils, app_nil_r. Qed.
Lemma weighed_put b k vals ord cost :
  weighed b → 0 ≤ cost → len (concat vals) ≤ b_bytes b + cost →
  weighed (Buffers (b_ts b) (<[k := vals]> (b_cols b)) ord (b_vecs b) (b_bytes b + cost)).
Proof.
  intros [H0 H] Hc Hk. split; cbn; [lia|]. apply map_Forall_insert_2; [done|]. eapply map_Forall_impl; [exact H|]. cbn. lia.
Qed.
Lemma weighed_col b (k : bytes) (vals : list bytes) (v : bytes) ord :
  weighed b → len (concat vals) ≤ len (concat (default [] (b_cols b !! k))) + len v →
  weighed (Buffers (b_ts b) (<[k := vals]> (b_cols b)) ord (b_vecs b) (b_bytes b + (len k + len v))).
Proof.
  intros Hw Hv. apply weighed_put; [done|len_facts; lia|]. destruct Hw as [H0 H]. pose proof (len_nonneg k).
  destruct (b_cols b !! k) as [l|] eqn:E; cbn in Hv; [apply H in E; lia|]. len_nil. lia.
Qed.
Lemma len_snoc_nils n (v : bytes) : len (concat (replicate n (@nil Z) ++ [v])) = len v.
Proof. rewrite concat_app, concat_nils. cbn. by rewrite app_nil_r. Qed.
Lemma len_snoc_backfill n vals (v : bytes) : len (concat (backfill [] n vals ++ [v])) = len (concat vals) + len v.
Proof. rewrite concat_app, concat_backfill, len_app. cbn. by rewrite app_nil_r. Qed.
Lemma weighed_foldl {A} (f : buffers → A → buffers) l b : (∀ b x, x ∈ l → weighed b → weighed (f b x)) → weighed b → weighed (foldl f b l).
Proof.
  revert b. induction l as [|x l IH]; intros b Hf Hb; [done|]. cbn. apply IH; [|apply Hf; [by left|done]]. intros b' y Hy. apply Hf. by right.
Qed.
Lemma weighed_old c row d b kv : weighed b → weighed (add_old c row d b kv).
Proof.
  destruct kv as [k v]. intros Hb. unfold add_old, add_field. destruct (skipped c d k); [done|]. destruct (b_cols b !! k) as [vals|] eqn:E; [|done].
  cbn [fst]. apply weighed_col; [done|]. rewrite E, len_snoc_backfill. cbn. lia.
Qed.
Lemma weighed_stream c row f b : weighed b → weighed (add_stream c row f b).
Proof.
  intros Hb. unfold add_stream. cbv zeta. case_bool_decide; [done|]. destruct (b_cols b !! s_stream) as [vals|] eqn:E; apply weighed_col; try done;
    rewrite E, ?len_snoc_backfill, ?len_snoc_nils; cbn; len_facts; lia.
Qed.
Lemma weighed_add_row c ts fields ov vecs b : dims_ok c → weighed b → weighed (add_row c ts fields ov vecs b).
Proof.
  intros Hd Hb. unfold add_row. cbv zeta. rewrite add_fields_split. apply weighed_foldl.
  { intros b' k _ Hw. unfold pad. destruct (b_cols b' !! k) as [vals|] eqn:E; [|done].
    apply weighed_put; [done|done|]. rewrite concat_backfill. apply Hw in E. lia. }
  match goal with |- weighed (if _ then add_stream _ _ _ ?b' else _) => assert (weighed b') as Hv end; [|case_match; [by apply weighed_stream|done]].
  apply weighed_foldl.
  { intros b' [name dim] Hin [H0 Hw]. rewrite range_perm, elem_of_map_to_list in Hin. apply Hd in Hin. cbn in Hin. unfold add_vec. case_bool_decide; [done|].
    pose proof (len_nonneg name). split; cbn; [lia|]. eapply map_Forall_impl; [exact Hw|]. cbn. lia. }
  apply weighed_foldl; [|apply weighed_foldl; [|done]].
  - intros b' k _ Hw. apply weighed_col; [done|]. rewrite len_snoc_nils. len_facts. lia.
  - intros b' kv _. apply weighed_old.
Qed.

(** ** The rows of a run *)

(** A job holds the rows [part]: some, and no more than a group may hold. *)
Record handed (c : config) (j : job) (part : list row) : Prop := {
  ha_job : ∃ b, jb_job j = take_job c b ∧ holds c part b;
  ha_some : part ≠ [];
  ha_rows : len part ≤ FlushRows;
  ha_size k : len (concat (cell k <$> part)) ≤ FlushBytes + maxCell }.
Record running (c : config) (s : sys) (parts : list (list row)) (tail : list row) : Prop := {
  ru_cfg : w_cfg (s_w s) = c;
  ru_open : w_closed (s_w s) = false;
  ru_jobs : Forall2 (handed c) (s_jobs s) parts;
  ru_holds : holds c tail (w_buf (s_w s));
  ru_weighed : weighed (w_buf (s_w s));
  ru_small : len tail < FlushRows ∧ b_bytes (w_buf (s_w s)) < FlushBytes }.

Lemma running_new c t0 : running c (newWriter c t0) [] [].
Proof.
  constructor; cbn; [done|done|constructor|apply holds_empty| |by vm_compute]. split; [done|]. apply map_Forall_empty.
Qed.
Lemma column_size c rows b k :
  holds c rows b → weighed b → len (concat (cell k <$> rows)) ≤ b_bytes b.
Proof.
  intros Hh [H0 Hw]. pose proof (ho_cols _ _ _ Hh k) as Hc. case_bool_decide as Hx; [by apply Hw in Hc|].
  rewrite cell_absent, concat_nils by done. done.
Qed.
(** Handing over the buffers. *)
Lemma flush_hands c s parts rows now :
  w_cfg (s_w s) = c → w_closed (s_w s) = false → Forall2 (handed c) (s_jobs s) parts → holds c rows (w_buf (s_w s)) → rows ≠ [] →
  len rows ≤ FlushRows → (∀ k, len (concat (cell k <$> rows)) ≤ FlushBytes + maxCell) →
  running c (flushLocked now s) (parts ++ [rows]) [].
Proof.
  intros Hcfg Hop Hj Hh Hne Hn Hs. unfold flushLocked. pose proof (ho_ts _ _ _ Hh) as Hts.
  rewrite bool_decide_eq_false_2 by (rewrite Hts; by intros ?%fmap_nil_inv). constructor; cbn; try done; [|].
  - apply Forall2_app; [done|]. constructor; [|constructor]. constructor; cbn; try done. exists (w_buf (s_w s)). by rewrite Hcfg.
  - apply holds_empty.
Qed.
Lemma write_call_runs c names s parts tail x :
  dims_ok c → running c s parts tail → fits_row names (call_row c x.2) →
  ∃ parts' tail', running c (write_call s x) parts' tail' ∧ concat parts' ++ tail' = (concat parts ++ tail) ++ [call_row c x.2].
Proof.
  intros Hd [Hcfg Hop Hj Hh Hw [Hn Hb]] Hr. unfold write_call, addVec. rewrite Hop, Hcfg. cbv zeta.
  set (b := add_row c _ _ _ _ _). assert (holds c (tail ++ [call_row c x.2]) b) as Hh' by (by apply add_row_spec).
  assert (weighed b) as Hw' by (by apply weighed_add_row).
  destruct (must_flush b _ x.1.1) eqn:Ef.
  - exists (parts ++ [tail ++ [call_row c x.2]]), []. split; [|rewrite concat_app; cbn; by rewrite !app_nil_r, app_assoc].
    apply flush_hands; cbn; try done; [by destruct tail|rewrite len_app; unfold len in *; cbn; lia|].
    intros k. rewrite fmap_app, concat_app, len_app. cbn. rewrite app_nil_r. pose proof (column_size c tail _ k Hh Hw) as Hk.
    assert (len (cell k (call_row c x.2)) ≤ maxCell); [|lia]. unfold cell. destruct (row_fields _ !! k) as [v|] eqn:E; [|by vm_compute].
    by apply (fr_fields _ _ Hr) in E as (_ & _ & _ & _ & ?).
  - exists parts, (tail ++ [call_row c x.2]). split; [|by rewrite app_assoc]. apply bool_decide_eq_false in Ef.
    constructor; cbn; try done. rewrite (ho_ts _ _ _ Hh'), len_fmap in Ef. lia.
Qed.
Lemma write_calls_run c names l : ∀ s parts tail,
  dims_ok c → running c s parts tail → Forall (fits_row names) (call_row c <$> l.*2) →
  ∃ parts' tail', running c (write_calls s l) parts' tail' ∧ concat parts' ++ tail' = (concat parts ++ tail) ++ (call_row c <$> l.*2).
Proof.
  induction l as [|x l IH]; intros s parts tail Hd Hr Hl; cbn.
  { exists parts, tail. by rewrite app_nil_r. }
  apply Forall_cons in Hl as [Hx Hl]. destruct (write_call_runs c names s parts tail x Hd Hr Hx) as (p1 & t1 & H1 & E1).
  destruct (IH _ p1 t1 Hd H1 Hl) as (p2 & t2 & H2 & E2). exists p2, t2. split; [done|]. rewrite E2, E1, <- app_assoc. done.
Qed.
(** Every call of a run is in exactly one job, in order, once the writer is flushed. *)
Lemma written_rows c names l t0 now :
  dims_ok c → Forall (fits_row names) (call_row c <$> l.*2) →
  ∃ parts, Forall2 (handed c) (s_jobs (flushLocked now (write_calls (newWriter c t0) l))) parts ∧ concat parts = call_row c <$> l.*2.
Proof.
  intros Hd Hl. destruct (write_calls_run c names l _ [] [] Hd (running_new c t0) Hl) as (parts & tail & Hr & E). cbn in E.
  destruct (decide (tail = [])) as [->|Hne].
  - exists parts. rewrite app_nil_r in E. split; [|done]. unfold flushLocked. pose proof (ho_ts _ _ _ (ru_holds _ _ _ _ Hr)) as ->. apply Hr.
  - destruct Hr as [Hcfg Hop Hj Hh Hw [Hn Hb]]. exists (parts ++ [tail]). split.
    + apply flush_hands; try done; [lia|]. intros k. pose proof (column_size c tail _ k Hh Hw). unfold maxCell. lia.
    + rewrite concat_app. cbn. by rewrite app_nil_r.
Qed.
End runs.

(** ** The group of a job *)

Section groups.
Context {K : Simd} {KL : SimdLaws K} {F : Flate} {FL : FlateLaws F} {M : MapRange}.
Context (c : config) (names : list bytes) (Hc : schema c names).

Lemma schema_dims : dims_ok c.
Proof. intros n d Hn. apply (sc_dims _ _ Hc) in Hn. lia. Qed.
Lemma handed_fits j part : handed c j part → Forall (fits_row names) part → fits c part.
Proof.
  intros [_ _ Hn Hs] Hf. constructor.
  - etransitivity; [exact Hn|]. by vm_compute.
  - eapply Forall_impl; [exact Hf|]. intros r []. done.
  - eapply Forall_impl; [exact Hf|]. intros r [_ H _]. eapply map_Forall_impl; [exact H|]. cbn. tauto.
  - intros k. eapply Z.le_lt_trans; [apply Hs|]. by vm_compute.
  - apply Hc.
  - eapply Forall_impl; [exact Hf|]. by intros r [].
Qed.
Lemma order_fits b part : holds c part b → Forall (fits_row names) part → NoDup (b_colOrder b) ∧ ∀ k, k ∈ b_colOrder b → k ∈ names.
Proof.
  intros Hh Hf. destruct (ho_order _ _ _ Hh) as [Hnd Hd]. split; [done|]. intros k Hk%Hd. rewrite (ho_cols _ _ _ Hh) in Hk.
  case_bool_decide as Hx; [|by destruct Hk]. apply Exists_exists in Hx as (r & Hin & v & Hv). rewrite Forall_forall in Hf.
  by apply (Hf r Hin) in Hv as [? _].
Qed.
Lemma vec_table_names rows l : (vec_table rows l).*1 `sublist_of` l.*1.
Proof.
  unfold vec_table. induction l as [|[n d] l IH]; [done|]. cbn. case_bool_decide; cbn; [by constructor|by constructor].
Qed.
(** The group a worker builds of the job reads back as a reader of the job's rows. *)
Lemma job_served j part :
  handed c j part → Forall (fits_row names) part →
  ∃ g blob, worker_group (jb_job j) = Ok (g, 0) ∧ Marshal g = Ok blob ∧
    (len blob < 2 ^ 32 → ∃ r, ReadGroup blob = Good r ∧
       serves false r (row_table part (j_colOrder (jb_job j)) (range_map (vecFlds c))) (row_ts <$> part)).
Proof.
  intros Hha Hf. pose proof (handed_fits _ _ Hha Hf) as Hfit. destruct Hha as [(b & -> & Hh) Hne _ _].
  destruct (order_fits b part Hh Hf) as [Hnd Hin].
  assert (len (b_colOrder b) ≤ len names) as Hlen.
  { unfold len. apply inj_le, submseteq_length, NoDup_submseteq; done. }
  destruct (worker_group_spec c part _ Hfit (take_job_holds c part b schema_dims Hh)) as (g & Eg & Hg & Hu & Hnp & Ht).
  { pose proof (sc_cols _ _ Hc). change (j_colOrder (take_job c b)) with (b_colOrder b). lia. }
  exists g. destruct (Marshal_spec g Hg) as (blob & Eb & Hb). exists blob. split_and!; [done..|]. intros Hl.
  destruct (Hb Hl) as (r & Er & _ & Hr). exists r. split; [done|]. pose proof (reader_answers g r Hg Hu Hr) as Ha. rewrite Ht, Hnp in Ha.
  constructor; [done| | |].
  - cbn. destruct part; [done|]. unfold len. cbn. lia.
  - destruct (sc_time _ _ Hc) as [Ht1 Ht2]. change (j_colOrder (take_job c b)) with (b_colOrder b). cbn [row_table t_cols].
    rewrite fmap_cons, fmap_app, <- list_fmap_compose. cbn [fst]. 
    replace (compose fst _ <$> b_colOrder b) with (b_colOrder b) by (symmetry; apply list_fmap_id).
    pose proof (vec_table_names part (range_map (vecFlds c))) as Hsub.
    assert (∀ k, k ∈ (vec_table part (range_map (vecFlds c))).*1 → is_Some (vecFlds c !! k)) as Hv.
    { intros k Hk. eapply elem_of_submseteq in Hk; [|by apply sublist_submseteq]. rewrite range_perm in Hk.
      apply list_elem_of_fmap in Hk as ([k' d] & -> & Hk%elem_of_map_to_list). by eexists. }
    apply NoDup_cons. split; [|apply NoDup_app; split_and!; [done| |]].
    + intros [Hk|Hk]%elem_of_app; [by apply Ht1, Hin|]. apply Hv in Hk as [? Hk]. by rewrite Ht2 in Hk.
    + intros k Hk [? Hk']%Hv. by rewrite (sc_apart _ _ Hc) in Hk' by (by apply Hin).
    + eapply sublist_NoDup; [|exact Hsub]. eapply range_NoDup, range_perm.
  - done.
Qed.
End groups.
