(* ===== verification/Queried.v ===== *)
(** * Lines in, answers out

    The layers put together: a body of logfmt lines is ingested, written, handed to
    the workers as jobs, built into groups, marshalled, read back and scanned; and
    the text of a filter, parsed and run over the groups, answers with exactly the
    records on which the filter as written holds ([lines_queried]). What a filter
    says of a record ([tree_holds]) and what a query answers for it ([row_answer])
    are read off the records. *)

From S2P Require Import Prelude Digits GoLib Kernels Indices Timestamps Compress DictSection DictLayout Postings Bloom Group GroupSafe GroupLayout Bitset Select.
From S2P Require Import Reader ReaderSafe ReaderOk Table Writer Ingest Batches Filter FilterOk Engine EngineOk TimeFilter Scan ScanOk.
From S2P Require Import Text Rows StatsPipe Pipes LogsQL LogsQLOk LogsQLText LogsQLTrip Lower Records Jsonl JsonlOk TextLines Batching.
From S2P Require Import Writer Filter.
From stdpp Require Import list sorting gmap fin_maps.
Local Open Scope Z_scope.

(** ** Definitions *)

(** Whether a field occurs in the records of a group. *)
Definition occurs (part : list row) (k : bytes) : bool := bool_decide (Exists (λ r, is_Some (row_fields r !! k)) part).

Section meaning.
Context {T : GoText} {R : MapRange}.

(** A predicate on a record: on the value of its field, the empty string where the
    record has none; a field that no record of the group has satisfies nothing. *)
Definition atom_holds (part : list row) (a : atom) (r : row) : bool :=
  let p := atom_pred a in
  occurs part (p_Field p) && (if isFieldCmp (p_Kind p) then occurs part (p_Field2 p) else true) && predMatchesRow p (lookupOf (λ k, cell k r)).
Fixpoint tree_holds (part : list row) (t : tree) (r : row) : bool :=
  match t with
  | TAll => true
  | TAtom a => atom_holds part a r
  | TAnd kids => forallb (λ k, tree_holds part k r) kids
  | TOr kids => existsb (λ k, tree_holds part k r) kids
  | TNot c => negb (tree_holds part c r)
  end.
(** A record as a query answers it. *)
Definition field_answer (part : list row) (f : bytes) (r : row) : option bytes :=
  if occurs part f then Some (cell f r) else if str_eqb f s_time then Some (formatTime (row_ts r)) else None.
Definition row_answer (part : list row) (fs : list bytes) (r : row) : Row :=
  MkRow (row_ts r) (omap (λ f, (f,.) <$> field_answer part f r) fs) false.
(** The answer over the records of a group, whose columns are [names]. *)
Definition part_answer (q : Query) (t : tree) (names : list bytes) (part : list row) : list Row :=
  row_answer part (query_fields names q) <$>
    List.filter (λ r, in_window (q_From q) (q_To q) (row_ts r) && tree_holds part t r) part.

(** ** A filter on a record *)

Lemma pred_sees p a b :
  isTimePred (p_Kind p) = false → src_field a (p_Field p) = src_field b (p_Field p) →
  (isFieldCmp (p_Kind p) = true → src_field a (p_Field2 p) = src_field b (p_Field2 p)) → predMatchesRow p a = predMatchesRow p b.
Proof.
  intros Ht H1 H2. unfold predMatchesRow. destruct (p_Kind p); try done; cbn [isFieldCmp] in *; rewrite ?H1, ?H2 by done; done.
Qed.

Lemma find_vec part vecs k vs : find_values (vec_table part vecs) k ≠ Some (Strings vs).
Proof. unfold vec_table. induction vecs as [|[n d] l IH]; [done|]. cbn. case_bool_decide; cbn; [|done]. by destruct (str_eqb n k). Qed.
Lemma find_app (l1 l2 : list (bytes * values)) k : find_values (l1 ++ l2) k = match find_values l1 k with Some v => Some v | None => find_values l2 k end.
Proof. induction l1 as [|[n v] l1 IH]; [done|]. cbn. by destruct (str_eqb n k). Qed.

Section part.
Context (part : list row) (order : list bytes) (vecs : list (bytes * Z)).
Context (Hin : ∀ k, k ∈ order ↔ Exists (λ r, is_Some (row_fields r !! k)) part) (Htime : s_time ∉ order) (Hnd : NoDup (t_cols (row_table part order vecs)).*1).
Let t := row_table part order vecs.

Lemma find_field k : k ≠ s_time →
  match find_values (t_cols t) k with
  | Some (Strings vs) => k ∈ order ∧ vs = cell k <$> part | _ => k ∉ order end.
Proof.
  intros Hk. unfold t, row_table. cbn [t_cols find_values]. unfold str_eqb at 1. rewrite bool_decide_eq_false_2 by congruence. rewrite find_app.
  destruct (decide (k ∈ order)) as [Ho|Ho].
  - pose proof (find_strings (λ k, cell k <$> part) order [] k Ho) as E. rewrite app_nil_r in E. by rewrite E.
  - assert (find_values ((λ k, (k, Strings (cell k <$> part))) <$> order) k = None) as ->.
    { clear -Ho. induction order as [|x o IH]; [done|]. apply not_elem_of_cons in Ho as [Hx Ho]. cbn. unfold str_eqb.
      rewrite bool_decide_eq_false_2 by congruence. by apply IH. }
    destruct (find_values _ k) as [[vs|ts|d v]|] eqn:E; try done. by apply find_vec in E.
Qed.
Lemma time_col : find_values (t_cols t) s_time = Some (Times (row_ts <$> part)).
Proof. done. Qed.
Lemma occurs_col k : occurs part k = string_col t k.
Proof.
  unfold occurs, string_col. destruct (decide (k = s_time)) as [->|Hk].
  - rewrite time_col. apply bool_decide_eq_false_2. by rewrite <- Hin.
  - pose proof (find_field k Hk) as H. rewrite <- (bool_decide_ext _ _ (Hin k)).
    destruct (find_values (t_cols t) k) as [[vs|ts|d v]|]; [apply bool_decide_eq_true_2; by destruct H|by apply bool_decide_eq_false_2..].
Qed.
Lemma row_cell k i r : part !! i = Some r → occurs part k = true → cell_at t k i = Some (cell k r).
Proof.
  intros Hi Ho%bool_decide_eq_true. rewrite <- Hin in Ho. assert (k ≠ s_time) as Hk by (by intros ->). pose proof (find_field k Hk) as H. unfold cell_at.
  destruct (find_values (t_cols t) k) as [[vs|ts|d v]|]; try done. destruct H as [_ ->]. by rewrite list_lookup_fmap, Hi.
Qed.
Lemma row_time i r : part !! i = Some r → time_at t i = row_ts r.
Proof. intros Hi. unfold time_at. rewrite time_col, list_lookup_fmap, Hi. done. Qed.

Lemma atom_timeless a : atom_ok a = true → isTimePred (p_Kind (atom_pred a)) = false.
Proof.
  destruct a as [| | | | | | | |k f f2|]; try done. cbn. rewrite andb_true_iff. intros [_ Hk%bool_decide_eq_true]. by destruct k; repeat (apply elem_of_cons in Hk as [Hk|Hk]; [done|]); try by apply elem_of_nil in Hk.
Qed.
Lemma atom_row run_sub a i r :
  atom_ok a = true → part !! i = Some r → expr_sem t (resolveSubExpr run_sub (QLeaf (atom_pred a))) i = atom_holds part a r.
Proof.
  intros Ha Hi. cbn [resolveSubExpr expr_sem]. unfold leaf_sem, atom_holds, present. pose proof (atom_timeless a Ha) as Ht.
  rewrite Ht, <- !occurs_col. destruct (occurs part (p_Field (atom_pred a))) eqn:E1; [|done]. cbn [andb].
  destruct (isFieldCmp (p_Kind (atom_pred a))) eqn:Ef.
  - destruct (occurs part (p_Field2 (atom_pred a))) eqn:E2; [|done]. cbn [andb]. apply pred_sees; [done| |intros _]; cbn [src_field];
      rewrite table_field by done; by erewrite row_cell.
  - cbn [andb]. apply pred_sees; [done| |by rewrite Ef]. cbn [src_field]. rewrite table_field by done. by erewrite row_cell.
Qed.
Lemma tree_row run_sub tr i r :
  tree_ok tr = true → part !! i = Some r → expr_sem t (resolveSubExpr run_sub (tree_expr tr)) i = tree_holds part tr r.
Proof.
  intros Hok Hi. induction tr as [|a|kids IH|kids IH|c IH] using tree_ind'; cbn [tree_expr resolveSubExpr expr_sem tree_holds].
  - done.
  - by apply (atom_row run_sub).
  - apply (kids_ok _ _ IH) in Hok as [_ Hk]. clear IH. induction Hk as [|k kids Hk _ IHk]; [done|]. cbn. by rewrite Hk, IHk.
  - apply (kids_ok _ _ IH) in Hok as [_ Hk]. clear IH. induction Hk as [|k kids Hk _ IHk]; [done|]. cbn. by rewrite Hk, IHk.
  - by rewrite IH.
Qed.
Lemma field_row i r f : part !! i = Some r → field_sem t f i = field_answer part f r.
Proof.
  intros Hi. unfold field_sem, field_answer. destruct (occurs part f) eqn:Eo; [by rewrite (row_cell f i r)|].
  assert (cell_at t f i = None) as ->; [|by rewrite (row_time i r)]. rewrite occurs_col in Eo. unfold string_col, cell_at in *.
  by destruct (find_values (t_cols t) f) as [[]|].
Qed.
End part.

(** Rows selected by number are records selected by value. *)
Lemma picked_rows {A B} (l : list A) (P : nat → bool) (f : nat → B) (Q : A → bool) (g : A → B) :
  (∀ i r, l !! i = Some r → P i = Q r ∧ f i = g r) →
  (λ i, f (Z.to_nat i)) <$> matching (len l) (λ i, P (Z.to_nat i)) = g <$> List.filter Q l.
Proof.
  unfold matching, len. induction l as [|x l IH] using rev_ind; intros H; [done|].
  rewrite length_app, Nat2Z.inj_add, seqZ_app by lia. change (Z.of_nat (length [x])) with 1. rewrite Z.add_0_l.
  rewrite filter_app, fmap_app, List.filter_app, fmap_app, IH.
  - f_equal. change (seqZ (Z.of_nat (length l)) 1) with [0 + Z.of_nat (length l)]. rewrite Z.add_0_l.
    destruct (H (length l) x) as [HP Hf]; [by rewrite lookup_app_r, Nat.sub_diag by lia|].
    rewrite filter_cons, filter_nil, Nat2Z.id, HP. cbn [List.filter]. destruct (Q x); case_decide; try done. cbn. by rewrite Nat2Z.id, Hf.
  - intros i r Hi. apply H. rewrite lookup_app_l; [done|by eapply lookup_lt_Some].
Qed.

(** ** The query of a tree *)

Definition tree_query (run_sub : qexpr → list qpipe → list Row) (base : Query) (tr : tree) : Query :=
  (resolveSubqueries run_sub base (split_filter (tree_expr tr))).1.
Lemma timeless_pred p now : isTimePred (p_Kind p) = false → resolveTimePred p now = p ∧ ∀ b, tighten_leaf p b = b.
Proof. intros Hp. unfold resolveTimePred, tighten_leaf. rewrite bool_decide_eq_false_2; [done|]. intros E. by rewrite E in Hp. Qed.
Lemma timeless_tree run_sub tr now :
  tree_ok tr = true → let e := resolveSubExpr run_sub (tree_expr tr) in resolveTimeExpr e now = e ∧ ∀ b, collectTimeBounds e b = b.
Proof.
  induction tr as [|a|kids IH|kids IH|c IH] using tree_ind'; intros Hok; cbn [tree_expr resolveSubExpr resolveTimeExpr collectTimeBounds].
  - done.
  - apply atom_timeless in Hok. by apply (timeless_pred _ now) in Hok as [-> Hb].
  - apply (kids_ok _ _ IH) in Hok as [_ Hk]. clear IH. induction Hk as [|k kids [Hk Hb] _ [IHk IHb]]; [done|]. cbn in *.
    rewrite Hk. injection IHk as ->. split; [done|]. intros b. by rewrite Hb, IHb.
  - apply (kids_ok _ _ IH) in Hok as [_ Hk]. clear IH. split; [|done]. f_equal. induction Hk as [|k kids [Hk _] _ IHk]; [done|]. cbn. by rewrite Hk, IHk.
  - split; [|done]. f_equal. by apply IH.
Qed.
Lemma timeless_flat run_sub tr : tree_ok tr = true → ∀ preds, flatConjunction (tree_expr tr) = Some preds →
  Forall (λ p, isTimePred (p_Kind p) = false) (omap (lower_leaf run_sub) preds).
Proof.
  induction tr as [|a|kids IH|kids IH|c IH] using tree_ind'; intros Hok preds; cbn [tree_expr flatConjunction]; try done.
  - intros [= <-]. constructor.
  - intros [= <-]. constructor; [by apply atom_timeless|constructor].
  - apply (kids_ok _ _ IH) in Hok as [_ Hk]. clear IH. revert preds. induction Hk as [|k kids Hk _ IHk]; intros preds; [intros [= <-]; constructor|].
    cbn. destruct (flatConjunction (tree_expr k)) as [pk|]; [|done]. cbn. destruct (mapM flatConjunction _) as [l|]; [|done]. intros [= <-].
    cbn. rewrite omap_app. apply Forall_app. split; [by apply Hk|]. by apply (IHk (concat l)).
Qed.
Lemma tree_query_resolved run_sub base tr now :
  tree_ok tr = true → MinInt64 ≤ q_From base → resolveTimePreds (tree_query run_sub base tr) now = tree_query run_sub base tr.
Proof.
  intros Hok Hf. unfold tree_query. assert (∀ preds filter,
    Forall (λ p, isTimePred (p_Kind p) = false) preds → (∀ e now, filter = Some e → resolveTimeExpr e now = e ∧ ∀ b, collectTimeBounds e b = b) →
    resolveTimePreds (with_filter base preds filter) now = with_filter base preds filter) as H.
  { intros preds filter Hp He. unfold resolveTimePreds. cbv zeta. cbn [q_Filter q_Preds q_From q_To q_ToSet with_filter].
    set (n := resolve_now _ _). assert ((λ e, resolveTimeExpr e n) <$> filter = filter) as ->.
    { destruct filter as [e|]; [|done]. cbn. by destruct (He e n eq_refl) as [-> _]. }
    assert ((λ p, resolveTimePred p n) <$> preds = preds ∧ ∀ b, foldl (λ b p, tighten_leaf p b) b preds = b) as [-> Hb].
    { clear -Hp. induction Hp as [|p preds H _ [IH1 IH2]]; [done|]. apply (timeless_pred _ n) in H as [H1 H2]. cbn.
      rewrite H1. split; [by f_equal|]. intros b. by rewrite H2. }
    rewrite Hb. assert (match filter with Some e => collectTimeBounds e (MinInt64, MaxInt64) | None => (MinInt64, MaxInt64) end = (MinInt64, MaxInt64)) as ->.
    { destruct filter as [e|]; [|done]. by destruct (He e 0 eq_refl) as [_ ->]. }
    cbn [fst snd]. rewrite (bool_decide_eq_false_2 (q_From base < MinInt64)) by lia. rewrite (bool_decide_eq_false_2 (MaxInt64 ≠ MaxInt64)) by tauto.
    by destruct (_ || _). }
  assert (∀ x, x = (match flatConjunction (tree_expr tr) with Some preds => (preds, None, []) | None => ([], Some (tree_expr tr), []) end
      : list qexpr * option qexpr * list qpipe) →
    resolveTimePreds (resolveSubqueries run_sub base x).1 now = (resolveSubqueries run_sub base x).1) as Hx.
  { intros x ->. destruct (flatConjunction (tree_expr tr)) as [preds|] eqn:E.
    - apply H; [by eapply timeless_flat|by intros e n [=]].
    - apply H; [constructor|]. intros e n [= <-]. by apply timeless_tree. }
  destruct (tree_expr tr) as [| |[|k kids]| |]; try (by apply Hx).
Qed.

(** What the rows of a group answer, read off the records. *)
Lemma part_matches run_sub base tr part order vecs :
  (∀ k, k ∈ order ↔ Exists (λ r, is_Some (row_fields r !! k)) part) → s_time ∉ order → NoDup (t_cols (row_table part order vecs)).*1 →
  tree_ok tr = true → let q := tree_query run_sub base tr in
  group_matches q (row_table part order vecs) = part_answer q tr (t_cols (row_table part order vecs)).*1 part.
Proof.
  intros Hin Ht Hnd Hok. cbv zeta. unfold group_matches, part_answer, mat_rows, query_rows.
  change (t_rows (row_table part order vecs)) with (len part). apply picked_rows. intros i r Hi. split.
  - unfold query_sem, tree_query. rewrite split_means_tree. rewrite (tree_row part order vecs Hin Ht Hnd run_sub tr i r Hok Hi).
    rewrite (row_time part order vecs i r Hi). by destruct (split_filter (tree_expr tr)) as [[? ?] ?].
  - unfold mat_row, row_answer. rewrite (row_time part order vecs i r Hi). f_equal. apply list_omap_ext, Forall_Forall2_diag, Forall_true. intros f.
    by rewrite (field_row part order vecs Hin Ht i r f Hi).
Qed.
End meaning.

(** ** End to end *)

Section served.
Context {K : Simd} {KL : SimdLaws K} {Fl : Flate} {FL : FlateLaws Fl} {B : BitOps} {BL : BitOpsLaws B} {MO : MaskOps} {ML : MaskOpsLaws MO}.
Context {R : MapRange} {T : GoText} {D : GoTime} {Fo : GoFold} {L : AsciiFold T Fo} {GS : GoSlices}.

(** A group in service that a worker built of a job. *)
Definition stored_as (j : flushJob) (l : leased) : Prop :=
  ∃ g blob, worker_group j = Ok (g, 0) ∧ Marshal g = Ok blob ∧ len blob < 2 ^ 32 ∧ ReadGroup blob = Good (l_reader l) ∧
    caches_ok (l_reader l) (l_caches l).

Lemma stored_serves c names j part l :
  schema c names → handed c j part → Forall (fits_row names) part → stored_as (jb_job j) l →
  let t := row_table part (j_colOrder (jb_job j)) (range_map (vecFlds c)) in
  in_service (l, t) ∧ ∀ run_sub base tr, tree_ok tr = true →
    group_matches (tree_query run_sub base tr) t = part_answer (tree_query run_sub base tr) tr (t_cols t).*1 part.
Proof.
  intros Hc Hj Hf (g & blob & Eg & Eb & Hl & Er & Hca) t.
  destruct (job_served c names Hc j part Hj Hf) as (g' & blob' & Eg' & Eb' & Hs). rewrite Eg in Eg'. injection Eg' as <-. rewrite Eb in Eb'. injection Eb' as <-.
  destruct (Hs Hl) as (r & Er' & Hv). rewrite Er in Er'. injection Er' as <-. split.
  - split; [done|]. eexists _, _. exact Hv.
  - intros run_sub base tr Hok. destruct Hj as [(b & Ej & Hh) _ _ _]. apply part_matches; try done.
    + rewrite Ej. apply (take_job_holds c part b (schema_dims c names Hc) Hh).
    + rewrite Ej. intros Hk. destruct (order_fits c names b part Hh Hf) as [_ Hin]. by apply (sc_time _ _ Hc), Hin.
    + apply (sv_nd _ _ _ _ Hv).
Qed.

(** Jobs and their rows, in whatever order the workers stored them. *)
Lemma stored_in_service c names (stored : list (job * list row)) ls :
  schema c names → Forall (λ jp, handed c jp.1 jp.2 ∧ Forall (fits_row names) jp.2) stored → Forall2 (λ jp l, stored_as (jb_job jp.1) l) stored ls →
  ∃ gts, gts.*1 = ls ∧ Forall in_service gts ∧ ∀ run_sub base tr, tree_ok tr = true → let q := tree_query run_sub base tr in
    matches q gts = concat ((λ jp, part_answer q tr (s_time :: j_colOrder (jb_job jp.1) ++ (vec_table jp.2 (range_map (vecFlds c))).*1) jp.2) <$> stored).
Proof.
  intros Hc Hh Hl. induction Hl as [|[j part] l stored ls Hs Hl IH]; [by exists []|]. apply Forall_cons in Hh as [[Hj Hf] Hh]. cbn [fst snd] in *.
  destruct (IH Hh) as (gts & <- & Hin & Hm). destruct (stored_serves c names j part l Hc Hj Hf Hs) as [H1 H2].
  exists ((l, row_table part (j_colOrder (jb_job j)) (range_map (vecFlds c))) :: gts). split; [done|]. split; [by constructor|].
  intros run_sub base tr Hok. cbv zeta. rewrite matches_cons. cbn [fst snd fmap list_fmap concat]. rewrite Hm, H2 by done. do 2 f_equal.
  cbn [row_table t_cols]. rewrite fmap_cons, fmap_app, <- list_fmap_compose. do 2 f_equal. apply list_fmap_id.
Qed.

(** C1: Lines in, answers out. The records printed on the lines of a body as logfmt, with
    no time of their own and no embeddings configured, are stamped, written, handed to
    the flush workers whenever a threshold says so, built into groups that are
    marshalled and read back. The text of any filter of [tree_ok] (the ten predicates
    [LogsQLText.atom] prints, with and, or and not over them) is parsed and run over
    those groups in whatever order they were stored, under any interleaving of the
    scan. It answers with exactly the records of each group that are in the window and
    on which the filter holds, cut at the limit of the query, unless the scan was
    stopped: none lost, none twice, each with its own values. A predicate on a field
    that no record of the group has holds of none of them. *)
Theorem lines_queried c maxLine names rs fallback t0 clocks now run_sub base tr :
  vecFlds c = ∅ → schema c names → Forall line_record rs → length clocks = length rs →
  let rows := imap (λ i r, stored_row c (fallback i) (last_wins r) false ∅) rs in
  Forall (fits_row names) rows → tree_ok tr = true → MinInt64 ≤ q_From base → q_LastN base ≤ 0 →
  let calls := l_calls (IngestLogfmtOpts (Settings c maxLine) (print_body rs) fallback None) in
  let jobs := s_jobs (flushLocked now (write_calls (newWriter c t0) (zip clocks calls))) in
  ∃ parts, concat parts = rows ∧ length parts = length jobs ∧
    Forall (λ j, ∃ g blob, worker_group (jb_job j) = Ok (g, 0) ∧ Marshal g = Ok blob ∧ (len blob < 2 ^ 32 → ∃ r, ReadGroup blob = Good r)) jobs ∧
    ∀ stored ls, stored ≡ₚ zip jobs parts → Forall2 (λ jp l, stored_as (jb_job jp.1) l) stored ls →
    ∃ x, ParseLogsQL (tree_text tr LOr) = Done x tt ∧ let q := (resolveSubqueries run_sub base x).1 in
      ∀ o clock workers sched, (0 < workers)%nat → ∃ res, Run o clock workers sched (Some ls) q = Ok res ∧
        (enough (λ e, e.1.1) workers (length ls) sched → res ≠ None) ∧
        (∀ answer, res = Some (answer, None) →
           answer = limited q (concat ((λ jp, part_answer q tr (s_time :: j_colOrder (jb_job jp.1)) jp.2) <$> stored))) ∧
        (unlimited q → (∀ k, o_clock o k = None) → Forall (λ y, y.1.2 = None) sched → ∀ answer r, res = Some (answer, r) → r = None).
Proof.
  intros Hv Hc Hrs Hlen rows Hfit Hok Hfrom HN calls jobs.
  assert (calls = imap (λ i r, Call (fallback i) (last_wins r) false ∅) rs) as Ecalls by (by apply (logfmt_printed (Settings c maxLine))).
  assert (call_row c <$> (zip clocks calls).*2 = rows) as Erows.
  { rewrite snd_zip by (rewrite Ecalls, length_imap; lia). rewrite Ecalls. apply fmap_imap. }
  destruct (written_rows c names (zip clocks calls) t0 now (schema_dims c names Hc)) as (parts & Hj & Ep); [by rewrite Erows|].
  fold jobs in Hj. rewrite Erows in Ep. exists parts. split; [done|]. split; [by apply Forall2_length in Hj|].
  assert (Forall (Forall (fits_row names)) parts) as Hp by (apply Forall_concat; by rewrite Ep).
  assert (Forall (λ jp, handed c jp.1 jp.2 ∧ Forall (fits_row names) jp.2) (zip jobs parts)) as Hz.
  { clear -Hj Hp. induction Hj as [|j part js ps Hj _ IH]; [constructor|]. apply Forall_cons in Hp as [? ?]. constructor; auto. }
  split.
  { clear -Hc Hj Hp KL FL. induction Hj as [|j part js ps Hj _ IH]; [constructor|]. apply Forall_cons in Hp as [Hp Hps]. constructor; [|by apply IH].
    destruct (job_served c names Hc j part Hj Hp) as (g & blob & Eg & Eb & Hs). exists g, blob. split_and!; [done|done|].
    intros Hl. destruct (Hs Hl) as (r & ? & _). by exists r. }
  intros stored ls Hst Hls. exists (split_filter (tree_expr tr)). split.
  { rewrite printed_filter_parses by done. unfold split_filter. by destruct (tree_expr tr) as [| |[|]| |]. }
  fold (tree_query run_sub base tr). intros q o clock workers sched Hw.
  destruct (stored_in_service c names stored ls Hc) as (gts & Egts & Hin & Hm); [by rewrite Hst|done|].
  specialize (Hm run_sub base tr Hok). rewrite Hv in Hm.
  assert (q_LastN q ≤ 0) as HNq by (unfold q, tree_query; by destruct (split_filter (tree_expr tr)) as [[? ?] ?]).
  destruct (Run_spec o clock workers sched gts q Hin HNq Hw) as (res & Er & H1 & H2 & H3). rewrite Egts in Er.
  cbv zeta in H1, H2, H3. unfold q in H2 at 2. rewrite (tree_query_resolved run_sub base tr clock Hok Hfrom) in H2.
  exists res. split; [done|]. split; [|split; [|done]].
  - intros He. apply H1. by rewrite <- Egts, length_fmap in He.
  - intros answer Ha. rewrite (H2 answer Ha). f_equal. rewrite Hm. f_equal. apply list_fmap_ext. intros i jp _. f_equal.
    assert (range_map (∅ : gmap bytes Z) = []) as ->; [|by rewrite app_nil_r].
    apply Permutation_nil. symmetry. rewrite range_perm, map_to_list_empty. done.
Qed.
End served.
