(* ===== verification/Pipeline.v ===== *)
(** * Running a pipeline

    [internal/query/pipes.go], [fastpipes.go], [pipes_introspect.go] and
    [subquery.go]: [RunPipeline] on a storage node, from the resolved window to
    the rows of the last pipe, with the pipes that answer from the footers when
    they lead, the pipes that run a subquery, and the ceilings checked after every
    pipe; and [ApplyPipes], which runs the coordinator's half over merged rows. *)

From Stdlib Require Import SpecFloat.
From S2P Require Import Prelude Digits GoLib Kernels Indices Timestamps DictSection DictLayout Postings Bloom Group Bitset Select.
From S2P Require Import Reader ReaderSafe ReaderOk Table Writer Filter Engine TimeFilter Scan Aggregate Text Rows StatsPipe Pipes.
From stdpp Require Import list gmap sorting.
Local Open Scope Z_scope.

(** ** Definitions *)

Definition with_mat (q : Query) (mat : list bytes) (matAll matCols : bool) : Query :=
  MkQuery (q_From q) (q_To q) (q_Preds q) (q_Filter q) mat (q_Limit q) (q_MaxRows q) (q_MaxBytes q) (q_LastN q)
    matAll matCols (q_maxGroups q) (q_maxMemory q) (q_ToSet q) (q_Now q) (q_NowSet q).
Definition with_limit (q : Query) (n : Z) : Query :=
  MkQuery (q_From q) (q_To q) (q_Preds q) (q_Filter q) (q_Materialize q) n (q_MaxRows q) (q_MaxBytes q) (q_LastN q)
    (q_MatAll q) (q_MatCols q) (q_maxGroups q) (q_maxMemory q) (q_ToSet q) (q_Now q) (q_NowSet q).
(** [maxGroupKeys] and [maxPipeRows] of a query; 0 is no ceiling. *)
Record PipeLimits := MkPipeLimits { maxGroupKeys : Z; maxPipeRows : Z }.

(** What one execution of a pipeline sees of the outside: per scan, the budget
    checks, the worker interleaving of [Run] and of [Count]; the clock; and the
    checks between pipes. A subquery has its own. *)
Record PipeEnv := MkPipeEnv {
  pe_out : nat → Outside; pe_workers : nat; pe_sched : list (nat * option Stop * list Z); pe_csched : list (nat * option Stop);
  pe_now : Z; pe_between : nat → option Stop }.

(** The rows ([None]: nil) and the recorded reason. *)
Definition result : Type := option (list Row) * option Stop.

Definition rangeSec (q : Query) : spec_float := fdiv (float_of_int (i64 (q_To q - q_From q))) (float_of_int (10 ^ 9)).
Definition non_nil {A} (l : list A) : option (list A) := match l with [] => None | _ => Some l end.
(** [FieldNames]. *)
Definition FieldNames (s : option (list leased)) (from to : Z) : list bytes :=
  sort_Strings (distinct [] (concat ((λ g, ColumnNames (l_reader g)) <$> snapshotOf s from to))).

Section pipeline.
Context {T : GoText} {P : GoPipes} {K : Simd} {F : Flate} {B : BitOps} {M : MaskOps} {R : MapRange}.

(** *** The pipes that lead a query *)

Definition countRows (field : bytes) (vcs : list ValueCount) : list Row := (λ vc, countRow field (vc_Value vc) s_hits (vc_Count vc)) <$> vcs.
Definition value_less (a b : ValueCount) : bool := str_ltb (vc_Value a) (vc_Value b).
Definition runTopFast (o : Outside) (s : option (list leased)) (q : Query) (field : bytes) (n maxKeys : Z) : outcome result :=
  x ← StatsByField o s q field;
  if tooManyKeys maxKeys (len x.1) then Ok (None, stop x.2 ErrTooManyGroupKeys)
  else Ok (Some (countRows field (cut n (stable_sort vc_less x.1))), x.2).
Definition runUniqFast (o : Outside) (s : option (list leased)) (q : Query) (field : bytes) (limit maxKeys : Z) : outcome result :=
  x ← StatsByField o s q field;
  if tooManyKeys maxKeys (len x.1) then Ok (None, stop x.2 ErrTooManyGroupKeys)
  else Ok (Some (List.map (λ vc, MkRow 0 [(field, vc_Value vc)] true) (cut limit (stable_sort value_less x.1))), x.2).

(** One [StatsByField] per name, for [runFieldNames] and [runFacets]. *)
Fixpoint stats_per_name (o : nat → Outside) (n : nat) (s : option (list leased)) (q : Query) (names : list bytes) (reason : option Stop)
    : outcome (list (bytes * list ValueCount) * option Stop) :=
  match names with
  | [] => Ok ([], reason)
  | name :: names' =>
      if str_eqb name s_time then stats_per_name o n s q names' reason else
      x ← StatsByField (o n) s q name;
      y ← stats_per_name o (S n) s q names' (record_stop reason x.2);
      Ok ((name, x.1) :: y.1, y.2)
  end.
Definition runFieldNames (o : nat → Outside) (s : option (list leased)) (q : Query) : outcome result :=
  x ← stats_per_name o 0 s q (FieldNames s (q_From q) (q_To q)) None;
  Ok (Some (List.map (λ nv, MkRow 0 [(s_name, nv.1); (s_hits, Itoa (zsum vc_Count nv.2))] true) x.1), x.2).
Definition runFacets (o : nat → Outside) (s : option (list leased)) (q : Query) (n : Z) : outcome result :=
  x ← stats_per_name o 0 s q (FieldNames s (q_From q) (q_To q)) None;
  Ok (non_nil (concat (List.map (λ nv, facetRows nv.1 nv.2 n) x.1)), x.2).
(** The groups the footers leave, up to the check that stops. *)
Definition s_rows : bytes := [114; 111; 119; 115].
Definition s_bytes : bytes := [98; 121; 116; 101; 115].
Definition s_columns : bytes := [99; 111; 108; 117; 109; 110; 115].
Fixpoint live_groups (o : Outside) (n : nat) (q : Query) (gs : list leased) : outcome (list leased * option Stop) :=
  match gs with
  | [] => Ok ([], None)
  | g :: gs' =>
      match exceeded q (o_clock o n) 0 with
      | Some e => Ok ([], Some e)
      | None =>
          c ← groupCanMatch (l_reader g) q;
          x ← live_groups o (S n) q gs';
          Ok (if (c : bool) then g :: x.1 else x.1, x.2)
      end
  end.
Definition footprint (f : ColumnFootprint) : Z := f_Index f + f_Postings f + f_Dict f + f_Bloom f + f_TimeCol f.
Definition block_row (g : leased) : Row :=
  let r := l_reader g in
  MkRow 0 [(s_rows, Itoa (r_Rows r)); (s_bytes, Itoa (zsum footprint (ColumnBytes r))); (s_columns, Itoa (len (ColumnNames r)))] true.
Definition runBlocksCount (o : Outside) (s : option (list leased)) (q : Query) : outcome result :=
  x ← live_groups o 0 q (snapshotOf s (q_From q) (q_To q));
  Ok (Some [MkRow 0 [(s_blocks_count, Itoa (len x.1))] false], x.2).
Definition runBlockStats (o : Outside) (s : option (list leased)) (q : Query) : outcome result :=
  x ← live_groups o 0 q (snapshotOf s (q_From q) (q_To q));
  Ok (non_nil (List.map block_row x.1), x.2).

(** [runStats]; [None] in front: a fan-out is still running. *)
Definition runStats (env : PipeEnv) (maxKeys : Z) (s : option (list leased)) (q : Query) (sp : StatsPipe) : outcome (option result) :=
  x ← runCountFast (pe_out env 0) (pe_workers env) (pe_csched env) sp s q;
  match x with
  | Some None => Ok None
  | Some (Some (rows, r)) => Ok (Some (Some rows, r))
  | None =>
      y ← runStats_scan (pe_out env 0) sp maxKeys (rangeSec q) s q;
      Ok (Some (y.1, match y.1 with None => stop y.2 ErrTooManyGroupKeys | Some _ => y.2 end))
  end.

(** The dispatch on the first pipe: what it answered, and whether it is done. *)
Definition leads (env : PipeEnv) (maxKeys : Z) (s : option (list leased)) (q : Query) (ps : list Pipe) : outcome (option (bool * result)) :=
  let done (x : result) : option (bool * result) := Some (true, x) in
  match ps with
  | Stats sp :: _ => x ← runStats env maxKeys s q sp; Ok (match x with Some x => done x | None => None end)
  | TopPipe [field] n :: _ => x ← runTopFast (pe_out env 0) s q field n maxKeys; Ok (done x)
  | UniqPipe [field] limit :: _ => x ← runUniqFast (pe_out env 0) s q field limit maxKeys; Ok (done x)
  | FieldValuesPipe field limit :: _ => x ← StatsByField (pe_out env 0) s q field; Ok (done (Some (valueCountRows x.1 limit), x.2))
  | FieldNamesPipe :: _ => x ← runFieldNames (pe_out env) s q; Ok (done x)
  | FacetsPipe n :: _ => x ← runFacets (pe_out env) s q n; Ok (done x)
  | BlocksCountPipe :: _ => x ← runBlocksCount (pe_out env 0) s q; Ok (done x)
  | BlockStatsPipe :: _ => x ← runBlockStats (pe_out env 0) s q; Ok (done x)
  | _ => Ok (Some (false, (None, None)))
  end.
(** The columns the scan reads: all of them for a bare pack, and the record's flag
    cleared for a chain that projects. *)
Definition mat_flags (q : Query) (ps : list Pipe) : Query :=
  if bool_decide (ps = []) then q
  else if pipesPackAll ps then with_mat q (q_Materialize q) (q_MatAll q) true
  else if PipesProject ps then with_mat q (q_Materialize q) false (q_MatCols q)
  else q.
(** [limit] is pushed into the scan. *)
Definition push_limit (q : Query) (ps : list Pipe) : Query :=
  match ps with
  | LimitPipe n :: _ => if bool_decide (0 ≤ n ∧ (q_Limit q = 0 ∨ n < q_Limit q)) then with_limit q n else q
  | _ => q
  end.

(** *** The pipes that run a subquery *)

(** [runSub]'s copy of the subquery under its parent's window and budget. *)
Definition sub_query (parent sub : Query) (ps : list Pipe) : Query :=
  MkQuery (q_From parent) (q_To parent) (q_Preds sub) (q_Filter sub) (q_Materialize sub) (q_Limit sub) (q_MaxRows sub) (q_MaxBytes parent)
    (q_LastN sub) (if PipesProject ps then q_MatAll sub else true) (q_MatCols sub) (q_maxGroups parent) (q_maxMemory parent)
    (q_ToSet parent) (q_Now parent) (q_NowSet parent).
(** [JoinPipe.run] over the rows of the subquery; [None]: past the ceiling. *)
Definition join_row (by_ : list bytes) (prefix : bytes) (r m : Row) : Row :=
  foldl (λ nr f, if bool_decide (f.1 ∈ by_) then nr else setRowField nr (prefix ++ f.1) f.2) (cloneRow r) (row_Fields m).
Fixpoint join_loop (by_ : list bytes) (prefix : bytes) (maxRows : Z) (sub rows : list Row) (n : Z) : option (list Row) :=
  match rows with
  | [] => Some []
  | r :: rows' =>
      match List.filter (λ m, str_eqb (rowKey m by_) (rowKey r by_)) sub with
      | [] => cons r <$> join_loop by_ prefix maxRows sub rows' (n + 1)
      | matches =>
          if bool_decide (0 < maxRows ∧ maxRows < n + len matches) then None
          else app (join_row by_ prefix r <$> matches) <$> join_loop by_ prefix maxRows sub rows' (n + len matches)
      end
  end.

(** [StreamContextPipe.run]. *)
Definition streamContextCap : Z := 2000000.
Definition row_identity (r : Row) : bytes :=
  Itoa (row_Time r) ++ concat ((λ f, [0] ++ Itoa (len f.1) ++ [58] ++ f.1 ++ [0] ++ Itoa (len f.2) ++ [58] ++ f.2) <$> row_Fields r).
Definition context_query (parent : Query) : Query :=
  MkQuery (q_From parent) (q_To parent) [] (Some (OpAnd [])) [] 0 0 (q_MaxBytes parent) 0 true false (q_maxGroups parent) (q_maxMemory parent)
    (q_ToSet parent) (q_Now parent) (q_NowSet parent).
(** The positions of a stream that a match puts in the answer. *)
Definition context_of (before after : Z) (wanted : gset bytes) (rows : list Row) (idxs : list nat) : gset nat :=
  foldl (λ inc pos,
    match idxs !! pos with
    | Some i =>
        if bool_decide ((row_identity <$> rows !! i) ∈ (Some <$> elements wanted)) then
          let lo := Z.max 0 (Z.of_nat pos - before) in
          let hi := Z.min (Z.of_nat pos + after) (len idxs - 1) in
          inc ∪ list_to_set (omap (λ k, idxs !! Z.to_nat k) (seqZ lo (hi - lo + 1)))
        else inc
    | None => inc
    end) ∅ (seq 0 (length idxs)).
Definition context_rows (before after : Z) (matches rows : list Row) : list Row :=
  let wanted : gset bytes := list_to_set (row_identity <$> matches) in
  let stream_of i := rowField (default (MkRow 0 [] false) (rows !! i)) s_stream in
  let by_stream := foldl (λ m i, <[stream_of i := default [] (m !! stream_of i) ++ [i]]> m) (∅ : gmap bytes (list nat)) (seq 0 (length rows)) in
  let include := foldl (λ inc kv, inc ∪ context_of before after wanted rows kv.2) (∅ : gset nat) (range_map by_stream) in
  omap (λ i, if bool_decide (i ∈ include) then rows !! i else None) (seq 0 (length rows)).
Definition stream_context (o : Outside) (now : Z) (s : option (list leased)) (parent : Query) (lim : PipeLimits) (before after : Z)
    (matches : list Row) : outcome (Stop + list Row) :=
  if bool_decide (matches = [] ∨ before = 0 ∧ after = 0) then Ok (inr matches) else
  let budget := if bool_decide (0 < maxPipeRows lim ∧ maxPipeRows lim < streamContextCap) then maxPipeRows lim else streamContextCap in
  x ← ScanPage o now s (context_query parent) None Oldest budget;
  match x with
  | inl (ErrStopped ErrRowLimit) => Ok (inl ErrPipeRowLimit)
  | inl (ErrStopped e) => Ok (inl e)
  | inl ErrRejected => Ok (inl ErrRowLimit)
  | inr page =>
      if pg_More page then Ok (inl ErrPipeRowLimit) else
      let out := context_rows before after matches (pg_Rows page) in
      if bool_decide (0 < maxPipeRows lim ∧ maxPipeRows lim < len out) then Ok (inl ErrPipeRowLimit) else Ok (inr out)
  end.

(** *** The pipeline *)

(** The rows a pipe makes of rows, and the reason as it stands after it. *)
Definition executor : Type := Pipe → (list nat → PipeEnv) → Query → option Stop → option (list Row) → outcome (option result).
Definition rows_of (x : option (list Row)) : list Row := default [] x.
Definition pipe_loop (exec : executor) (env : list nat → PipeEnv) (lim : PipeLimits) (q : Query) : nat → list Pipe → option Stop → option (list Row) → outcome (option result) :=
  fix loop (k : nat) (ps : list Pipe) (reason : option Stop) (rows : option (list Row)) {struct ps} :=
    match ps with
    | [] => Ok (Some (rows, reason))
    | p :: ps' =>
        match exceeded q (pe_between (env []) k) 0 with
        | Some e => Ok (Some (None, stop reason e))
        | None =>
            x ← exec p (λ path, env (k :: path)) q reason rows;
            match x with
            | None => Ok None
            | Some (rows, reason) =>
                if bool_decide (0 < maxPipeRows lim ∧ maxPipeRows lim < len (rows_of rows)) then Ok (Some (None, stop reason ErrPipeRowLimit))
                else if bool_decide (reason ≠ None) then Ok (Some (None, reason))
                else loop (S k) ps' reason rows
            end
        end
    end.
Definition pipeline_with (exec : executor) (env : list nat → PipeEnv) (lim : PipeLimits) (s : option (list leased)) (q : Query) (ps : list Pipe)
    (reason : option Stop) : outcome (option result) :=
  let q := mat_flags (resolveTimePreds q (pe_now (env []))) ps in
  x ← leads (env []) (maxGroupKeys lim) s q ps;
  match x with
  | None => Ok None
  | Some (done, (rows, r)) =>
      let reason := record_stop reason r in
      let q := push_limit q ps in
      let rest := if (done : bool) then tail ps else ps in
      y ← match rows with
          | Some _ => Ok (Some (rows, reason))
          | None =>
              let q := with_mat q (pipeFields rest) (q_MatAll q) (q_MatCols q) in
              z ← Run (pe_out (env []) 0) (pe_now (env [])) (pe_workers (env [])) (pe_sched (env [])) s q;
              Ok (match z with Some (rows, r) => Some (Some rows, record_stop reason r) | None => None end)
          end;
      match y with
      | None => Ok None
      | Some (rows, reason) =>
          match ps with
          | _ :: ps' => if (done : bool) then pipe_loop exec env lim q 0 ps' reason rows else pipe_loop exec env lim q 0 ps reason rows
          | [] => pipe_loop exec env lim q 0 ps reason rows
          end
      end
  end.
Fixpoint exec (lim : PipeLimits) (s : option (list leased)) (p : Pipe) (env : list nat → PipeEnv) (parent : Query) (reason : option Stop)
    (rows : option (list Row)) {struct p} : outcome (option result) :=
  match p with
  | JoinPipe by_ prefix sub subPipes =>
      x ← pipeline_with (exec lim s) env lim s (sub_query parent sub subPipes) subPipes reason;
      Ok (match x with
          | None => None
          | Some (subRows, reason) =>
              match join_loop by_ prefix (maxPipeRows lim) (rows_of subRows) (rows_of rows) 0 with
              | Some out => Some (Some out, reason)
              | None => Some (None, stop reason ErrPipeRowLimit)
              end
          end)
  | UnionPipe sub subPipes =>
      x ← pipeline_with (exec lim s) env lim s (sub_query parent sub subPipes) subPipes reason;
      Ok (match x with
          | None => None
          | Some (subRows, reason) =>
              let out := rows_of rows ++ rows_of subRows in
              if bool_decide (0 < maxPipeRows lim ∧ maxPipeRows lim < len out) then Some (None, stop reason ErrPipeRowLimit) else Some (Some out, reason)
          end)
  | StreamContextPipe before after =>
      x ← stream_context (pe_out (env []) 0) (pe_now (env [])) s parent lim before after (rows_of rows);
      Ok (Some (match x with inl e => (None, stop reason e) | inr out => (Some out, reason) end))
  | _ =>
      Ok (Some (match Pipes.apply p (maxGroupKeys lim) (rangeSec parent) (rows_of rows) with
                | Some out => (Some out, reason)
                | None => (None, stop reason ErrTooManyGroupKeys)
                end))
  end.
Definition RunPipeline (env : list nat → PipeEnv) (lim : PipeLimits) (s : option (list leased)) (q : Query) (ps : list Pipe) : outcome (option result) :=
  pipeline_with (exec lim s) env lim s q ps None.
End pipeline.
