(* ===== verification/StatsScanOk.v ===== *)
(** * Aggregating during the scan

    [runStats] aggregates a leading [stats] pipe while it scans: no row is built,
    the columns of each group are decoded once and the accumulators are fed from
    them. Its answer is that of the pipe over the rows the scan would have
    returned ([scan_stats_exact]), the order of the keys apart, which a map
    decides. *)

From Stdlib Require Import SpecFloat.
From S2P Require Import Prelude Digits GoLib Kernels Indices Timestamps DictSection DictLayout Postings Bloom Group Bitset Select.
From S2P Require Import Reader ReaderSafe ReaderOk Table Writer Filter FilterOk Engine EngineOk TimeFilter Scan ScanOk PagesOk KeySort Aggregate StatsOk.
From S2P Require Import Text Rows StatsPipe Pipes Pipeline PipesOk.
From stdpp Require Import list gmap sorting.
Local Open Scope Z_scope.

(** ** The loop over rows, without the order of its keys *)

Section loops.
Context {T : GoText} {P : GoPipes}.

Fixpoint row_loop (sp : StatsPipe) (maxKeys : Z) (rows : list Row) (acc : gmap bytes statEntry) : option (gmap bytes statEntry) :=
  match rows with
  | [] => Some acc
  | r :: rows' =>
      match acc !! rowKey r (st_By sp) with
      | Some _ => row_loop sp maxKeys rows' (stats_row sp r acc)
      | None => if tooManyKeys maxKeys (Z.of_nat (size acc) + 1) then None else row_loop sp maxKeys rows' (stats_row sp r acc)
      end
  end.
Lemma row_loop_app sp maxKeys a b acc :
  row_loop sp maxKeys (a ++ b) acc = match row_loop sp maxKeys a acc with Some acc => row_loop sp maxKeys b acc | None => None end.
Proof.
  revert acc. induction a as [|r a IH]; intros acc; [done|]. cbn [app row_loop]. destruct (acc !! rowKey r (st_By sp)); [apply IH|].
  destruct (tooManyKeys _ _); [done|apply IH].
Qed.
Definition ordered (acc : gmap bytes statEntry) (order : list bytes) : Prop :=
  NoDup order ∧ (∀ k, is_Some (acc !! k) ↔ k ∈ order) ∧ Z.of_nat (size acc) = len order.
Lemma stats_row_dom sp r acc k : is_Some (stats_row sp r acc !! k) ↔ rowKey r (st_By sp) = k ∨ is_Some (acc !! k).
Proof.
  unfold stats_row. destruct (decide (rowKey r (st_By sp) = k)) as [<-|]; [rewrite lookup_insert_eq; split; [by left|by eexists]|].
  rewrite lookup_insert_ne by done. tauto.
Qed.
Lemma stats_loop_rows sp maxKeys rows : ∀ acc order,
  ordered acc order →
  match stats_loop sp maxKeys rows acc order with
  | None => row_loop sp maxKeys rows acc = None
  | Some (acc', order') => row_loop sp maxKeys rows acc = Some acc' ∧ ordered acc' order'
  end.
Proof.
  induction rows as [|r rows IH]; intros acc order Ho; [done|]. destruct Ho as (Hnd & Hdom & Hsize). cbn [stats_loop row_loop].
  destruct (acc !! rowKey r (st_By sp)) as [e|] eqn:E.
  - apply IH. split_and!; [done| |].
    + intros k. rewrite stats_row_dom, Hdom. split; [intros [<-|?]; [|done]|by right]. apply Hdom. by eexists.
    + unfold stats_row. rewrite map_size_insert, E. exact Hsize.
  - rewrite len_app. change (len [rowKey r (st_By sp)]) with 1. rewrite Hsize. destruct (tooManyKeys _ _); [done|]. apply IH. split_and!.
    + apply NoDup_app. split_and!; [done| |by repeat constructor; apply not_elem_of_nil]. intros k Hk ->%list_elem_of_singleton. apply Hdom in Hk as [? Hk]. congruence.
    + intros k. rewrite stats_row_dom, Hdom, elem_of_app, list_elem_of_singleton. naive_solver.
    + unfold stats_row. rewrite map_size_insert, E, len_app. change (len [rowKey r (st_By sp)]) with 1. cbn. lia.
Qed.
Lemma ordered_empty : ordered ∅ [].
Proof. split_and!; [constructor| |by rewrite map_size_empty]. intros k. rewrite lookup_empty, elem_of_nil. split; [by intros [? ?]|done]. Qed.

(** *** What an accumulator looks at *)

(** Rendering the map and rendering the keys in their order give the same rows. *)
Lemma render_perm {R : MapRange} sp sec acc order :
  ordered acc order →
  (λ kv : bytes * statEntry, statEntryRow sp sec kv.2) <$> range_map acc ≡ₚ omap (λ k : bytes, statEntryRow sp sec <$> acc !! k) order.
Proof.
  intros (Hnd & Hdom & _). rewrite range_perm.
  assert (map_to_list acc ≡ₚ omap (λ k, (k,.) <$> acc !! k) order) as ->.
  { apply NoDup_Permutation; [apply NoDup_map_to_list| |].
    - clear Hdom. induction Hnd as [|k order Hk _ IH]; [constructor|]. cbn. destruct (acc !! k) as [e|] eqn:E; cbn; [|done].
      constructor; [|done]. intros (k' & Hk' & Hx)%list_elem_of_omap. destruct (acc !! k'); [|done]. cbn in Hx. injection Hx as -> _. done.
    - intros [k e]. rewrite elem_of_map_to_list, list_elem_of_omap. split.
      + intros E. exists k. split; [apply Hdom; by eexists|]. by rewrite E.
      + intros (k' & _ & Hx). destruct (acc !! k') eqn:E; [|done]. cbn in Hx. by injection Hx as -> ->. }
  clear. induction order as [|k order IH]; [done|]. cbn. destruct (acc !! k); cbn; [by constructor|done].
Qed.

(** The fields a filter names, and the empty name. *)
Definition reads_field (e : Expr) (f : bytes) : Prop := f = [] ∨ is_Some (filterFields e ∅ !! f).
Lemma filterFields_mono e : ∀ out f, is_Some (filterFields e out !! f) ↔ is_Some (out !! f) ∨ is_Some (filterFields e ∅ !! f).
Proof.
  assert (∀ (out : gmap bytes bool) k f, is_Some (<[k := true]> out !! f) ↔ k = f ∨ is_Some (out !! f)) as Hins.
  { intros out k f. destruct (decide (k = f)) as [->|]; [rewrite lookup_insert_eq; split; [by left|by eexists]|]. rewrite lookup_insert_ne by done. tauto. }
  induction e as [p|ks IH|ks IH|e IH] using Expr_tree_ind; intros out f; cbn [filterFields].
  - destruct (isTimePred (p_Kind p)); [rewrite lookup_empty; split; [by left|intros [?|[? ?]]; done]|].
    case_bool_decide; rewrite !Hins, !lookup_empty; split; try tauto; intros; repeat (destruct_or?; try tauto); by destruct (H0 : is_Some None) as [? ?] || tauto.
  - revert out. induction IH as [|k ks Hk _ IHk]; intros out; cbn; [rewrite lookup_empty; split; [by left|intros [?|[? ?]]; done]|].
    rewrite (IHk (filterFields k out)), (Hk out), (IHk (filterFields k ∅)). tauto.
  - revert out. induction IH as [|k ks Hk _ IHk]; intros out; cbn; [rewrite lookup_empty; split; [by left|intros [?|[? ?]]; done]|].
    rewrite (IHk (filterFields k out)), (Hk out), (IHk (filterFields k ∅)). tauto.
  - apply IH.
Qed.
Lemma predMatches_ext p get get' :
  (∀ f, reads_field (OpLeaf p) f → get f = get' f) → predMatchesRow p (lookupOf get) = predMatchesRow p (lookupOf get').
Proof.
  intros H. unfold predMatchesRow. cbn [src_stamp src_field].
  assert (isTimePred (p_Kind p) = false → get (p_Field p) = get' (p_Field p) ∧ get (p_Field2 p) = get' (p_Field2 p)) as H1.
  { intros Ht. split; apply H; unfold reads_field; cbn [filterFields]; rewrite Ht.
    - right. case_bool_decide; [by rewrite lookup_insert_eq; eexists|].
      destruct (decide (p_Field2 p = p_Field p)) as [->|]; [by rewrite lookup_insert_eq; eexists|]. rewrite lookup_insert_ne by done. rewrite lookup_insert_eq. by eexists.
    - case_bool_decide; [by left|]. right. rewrite lookup_insert_eq. by eexists. }
  destruct (p_Kind p) eqn:Ek; cbn [isTimePred isFieldCmp] in *; try done; destruct (H1 eq_refl) as [E1 E2]; by rewrite ?E1, ?E2.
Qed.
Lemma reads_kids k ks f (conj : list Expr → Expr) :
  conj = OpAnd ∨ conj = OpOr → k ∈ ks → reads_field k f → reads_field (conj ks) f.
Proof.
  intros Hc Hin [->|Hk]; [by left|right]. assert (filterFields (conj ks) ∅ = filterFields (OpAnd ks) ∅) as -> by by destruct Hc as [-> | ->].
  cbn [filterFields]. assert (∀ out, is_Some ((fix go (ks : list Expr) (out : gmap bytes bool) : gmap bytes bool :=
    match ks with [] => out | k :: ks' => go ks' (filterFields k out) end) ks out !! f)) as H; [|apply H].
  assert (∀ (ks : list Expr) (out : gmap bytes bool), is_Some (out !! f) → is_Some ((fix go (ks : list Expr) (out : gmap bytes bool) : gmap bytes bool :=
    match ks with [] => out | k :: ks' => go ks' (filterFields k out) end) ks out !! f)) as Hkeep.
  { clear. induction ks as [|k ks IH]; intros out Ho; [done|]. apply IH. apply filterFields_mono. by left. }
  induction ks as [|k' ks IH]; [by apply not_elem_of_nil in Hin|]. apply elem_of_cons in Hin as [->|Hin]; intros out.
  - apply Hkeep. apply filterFields_mono. by right.
  - by apply IH.
Qed.
Lemma exprMatches_ext e get get' :
  (∀ f, reads_field e f → get f = get' f) → exprMatchesRow e (lookupOf get) = exprMatchesRow e (lookupOf get').
Proof.
  induction e as [p|ks IH|ks IH|e IH] using Expr_tree_ind; intros H; cbn [exprMatchesRow].
  - by apply predMatches_ext.
  - assert (∀ k f, k ∈ ks → reads_field k f → get f = get' f) as Hk by (intros k f Hin Hr; eapply H, reads_kids; [by left|done|done]).
    clear H. induction IH as [|k ks Hkk _ IHk]; [done|]. rewrite Hkk by (intros f; apply Hk, elem_of_cons; by left).
    destruct (exprMatchesRow k (lookupOf get')); [|done]. apply IHk. intros k' f Hin. apply Hk, elem_of_cons. by right.
  - assert (∀ k f, k ∈ ks → reads_field k f → get f = get' f) as Hk by (intros k f Hin Hr; eapply H, reads_kids; [by right|done|done]).
    clear H. induction IH as [|k ks Hkk _ IHk]; [done|]. rewrite Hkk by (intros f; apply Hk, elem_of_cons; by left).
    destruct (exprMatchesRow k (lookupOf get')); [done|]. apply IHk. intros k' f Hin. apply Hk, elem_of_cons. by right.
  - rewrite IH; [done|]. intros f Hf. by apply H.
Qed.

Lemma if_fields_in aggs a e f : a ∈ aggs → a_If a = Some e → is_Some (filterFields e ∅ !! f) → is_Some (if_fields aggs !! f).
Proof.
  unfold if_fields. intros Hin He Hf.
  assert (∀ (aggs : list Agg) (m : gmap bytes bool), is_Some (m !! f) → is_Some (foldl (λ m a, match a_If a with Some e => filterFields e m | None => m end) m aggs !! f)) as Hkeep.
  { clear. induction aggs as [|a aggs IH]; intros m Hm; [done|]. cbn. apply IH. destruct (a_If a); [|done]. apply filterFields_mono. by left. }
  generalize (∅ : gmap bytes bool). induction aggs as [|a' aggs IH]; [by apply not_elem_of_nil in Hin|].
  apply elem_of_cons in Hin as [<-|Hin]; intros m; cbn; [|by apply IH]. rewrite He. apply Hkeep, filterFields_mono. by right.
Qed.
Lemma accSlot_ext a v v2 get get' sl :
  (∀ e f, a_If a = Some e → reads_field e f → get f = get' f) → accSlot a v v2 get sl = accSlot a v v2 get' sl.
Proof.
  intros H. unfold accSlot. destruct (a_If a) as [e|]; [|done]. rewrite (exprMatches_ext e get get'); [done|]. intros f. by apply H.
Qed.
Lemma accSample_ext e aggs valOf valOf' get get' :
  (∀ a, a ∈ aggs → valOf (a_Field a) = valOf' (a_Field a) ∧ valOf (a_Field2 a) = valOf' (a_Field2 a)
    ∧ ∀ c f, a_If a = Some c → reads_field c f → get f = get' f) →
  accSample e aggs valOf get = accSample e aggs valOf' get'.
Proof.
  intros H. unfold accSample. f_equal. revert H. generalize (se_slots e). induction aggs as [|a aggs IH]; intros sls H; [done|].
  destruct sls as [|sl sls]; [done|]. cbn. f_equal.
  - destruct (H a) as (-> & -> & Hg); [apply elem_of_cons; by left|]. by apply accSlot_ext.
  - apply IH. intros b Hb. apply H, elem_of_cons. by right.
Qed.
End loops.

(** ** One group *)

Section groups.
Context {T : GoText} {P : GoPipes} {R : MapRange} {K : Simd} {KL : SimdLaws K} {F : Flate} {FL : FlateLaws F}.
Context {B : BitOps} {BL : BitOpsLaws B} {M : MaskOps} {ML : MaskOpsLaws M}.
Context (sp : StatsPipe) (maxKeys : Z).

Lemma in_stat_names_if f : is_Some (if_fields (st_Aggs sp) !! f) → f ∈ stat_names sp.
Proof.
  intros [b Hb]. unfold stat_names. apply elem_of_app. left. apply list_elem_of_fmap. exists (f, b). split; [done|].
  rewrite range_perm. by apply elem_of_map_to_list.
Qed.
Lemma in_stat_names_by f : f ∈ st_By sp → f ∈ stat_names sp.
Proof. intros H. unfold stat_names. rewrite !elem_of_app. right. by left. Qed.
Lemma in_stat_names_agg a f : a ∈ st_Aggs sp → f = a_Field a ∨ f = a_Field2 a → f ≠ [] → f ∈ stat_names sp.
Proof.
  intros Ha Hf Hn. unfold stat_names. rewrite !elem_of_app. right. right. apply elem_of_concat. eexists. split; [apply list_elem_of_fmap; by exists a|].
  apply elem_of_app. destruct Hf as [-> | ->]; [left|right]; rewrite bool_decide_false by done; apply elem_of_cons; by left.
Qed.

(** The body of the scan is a step of the loop over rows. *)
Lemma scan_row_step vals r acc :
  (∀ f, f ∈ stat_names sp → vals !! f = Some (rowField r f)) → rowField r [] = [] →
  scan_row sp maxKeys vals acc = row_loop sp maxKeys [r] acc.
Proof.
  intros Hv Hnil. unfold scan_row. cbn [row_loop].
  assert (∀ f, f ∈ stat_names sp → default [] (vals !! f) = rowField r f) as Hval by (intros f Hf; by rewrite Hv).
  assert (concat ((λ f, default [] (vals !! f) ++ [0]) <$> st_By sp) = rowKey r (st_By sp)) as ->.
  { unfold rowKey. f_equal. apply list_fmap_ext. intros i f Hf. by rewrite Hval by (by eapply in_stat_names_by, list_elem_of_lookup_2). }
  assert ((λ f, default [] (vals !! f)) <$> st_By sp = (λ f, rowField r f) <$> st_By sp) as ->.
  { apply list_fmap_ext. intros i f Hf. by rewrite Hval by (by eapply in_stat_names_by, list_elem_of_lookup_2). }
  assert (∀ e, accSample e (st_Aggs sp) (λ f, if bool_decide (f = []) then [] else default [] (vals !! f))
      (λ f, if bool_decide (is_Some (if_fields (st_Aggs sp) !! f)) then default [] (vals !! f) else [])
    = accSample e (st_Aggs sp) (rowField r) (rowField r)) as Hacc.
  { intros e. apply accSample_ext. intros a Ha.
    assert (∀ f, f = a_Field a ∨ f = a_Field2 a → (if bool_decide (f = []) then [] else default [] (vals !! f)) = rowField r f) as Hf.
    { intros f Hf. case_bool_decide as E; [by rewrite E, Hnil|]. by apply Hval, (in_stat_names_agg a). }
    split; [apply Hf; by left|]. split; [apply Hf; by right|]. intros c f Hc [->|Hr].
    - case_bool_decide as E; [|done]. by apply Hval, in_stat_names_if.
    - pose proof (if_fields_in _ _ _ _ Ha Hc Hr) as Hi. rewrite bool_decide_true by done. by apply Hval, in_stat_names_if. }
  unfold stats_row. destruct (acc !! rowKey r (st_By sp)) as [e|]; [by rewrite Hacc|]. destruct (tooManyKeys _ _); [done|]. by rewrite Hacc.
Qed.

(** What a decoded column answers. *)
Definition col_sem (t : table) (f : bytes) (col : list Z * list bytes) : Prop :=
  (col.1 = [] → ∀ i, field_sem t f i = None) ∧
  (col.1 ≠ [] → ∀ i, 0 ≤ i < t_rows t → ∃ y u, col.1 !! Z.to_nat i = Some y ∧ 0 ≤ y ∧ col.2 !! Z.to_nat y = Some u ∧ field_sem t f (Z.to_nat i) = Some u).
Lemma column_value_spec t f col i : col_sem t f col → 0 ≤ i < t_rows t → column_value col i = Ok (default [] (field_sem t f (Z.to_nat i))).
Proof.
  intros [H1 H2] Hi. unfold column_value. case_bool_decide as E; [by rewrite H1|]. destruct (H2 E i Hi) as (y & u & Ey & Hy & Eu & ->).
  rewrite (index_Ok _ _ y), bind_Ok by (done || lia). by rewrite (index_Ok _ _ u) by (done || lia).
Qed.
Lemma decode_columns_spec x names : ∀ s cols,
  (∃ np ts, serves np (l_reader x.1) x.2 ts) → caches_ok (l_reader x.1) s → (∀ f col, cols !! f = Some col → col_sem x.2 f col) →
  ∃ cols' s', decode_columns (l_reader x.1) names s cols = Ok (cols', s') ∧ (∀ f col, cols' !! f = Some col → col_sem x.2 f col)
    ∧ ∀ f, is_Some (cols' !! f) ↔ is_Some (cols !! f) ∨ f ∈ names.
Proof.
  induction names as [|n names IH]; intros s cols Hx Hs Hc; cbn [decode_columns].
  { exists cols, s. split_and!; [done|done|]. intros f. split; [by left|intros [?|H]; [done|by apply not_elem_of_nil in H]]. }
  destruct (dictOrTime_spec n x s Hx Hs) as (idx & dict & s' & -> & Hs' & Hnil & Hval). rewrite bind_Ok. cbv beta iota.
  destruct (IH s' (<[n := (idx, dict)]> cols) Hx Hs') as (cols' & s2 & -> & H1 & H2).
  - intros f col Hf. apply (lookup_insert_Some (M:=gmap bytes)) in Hf as [[<- <-]|[_ Hf]]; [by split|by apply Hc].
  - exists cols', s2. split_and!; [done|done|]. intros f. rewrite H2, elem_of_cons.
    unfold columns in *. rewrite lookup_insert_is_Some. destruct (decide (n = f)) as [<-|]; naive_solver.
Qed.
Lemma row_values_spec t i cols :
  (∀ f col, (f, col) ∈ cols → col_sem t f col) → 0 ≤ i < t_rows t →
  ∃ vals, row_values cols i = Ok vals ∧ ∀ f, f ∈ cols.*1 → vals !! f = Some (default [] (field_sem t f (Z.to_nat i))).
Proof.
  intros Hc Hi. induction cols as [|[f col] cols IH]; [exists ∅; split; [done|]; intros f Hf; by apply not_elem_of_nil in Hf|].
  cbn [row_values]. rewrite (column_value_spec t f) by (done || (apply Hc, elem_of_cons; by left)). rewrite bind_Ok.
  destruct IH as (vals & -> & Hv); [intros g c Hg; apply Hc, elem_of_cons; by right|]. rewrite bind_Ok. eexists. split; [done|].
  intros g. rewrite fmap_cons, elem_of_cons. cbn. intros Hg. destruct (decide (f = g)) as [<-|]; [by rewrite lookup_insert_eq|].
  rewrite lookup_insert_ne by done. apply Hv. by destruct Hg.
Qed.

(** A materialized row has the field. *)
Lemma mat_row_field t fs i f : f ∈ fs → rowField (mat_row t fs i) f = default [] (field_sem t f i).
Proof.
  intros Hf. unfold rowField, rowFieldOK, mat_row. cbn [row_Fields]. induction fs as [|g fs IH]; [by apply not_elem_of_nil in Hf|].
  cbn [omap list_omap]. destruct (decide (g = f)) as [->|Hne].
  - destruct (field_sem t f i) as [v|] eqn:E; cbn.
    + by rewrite (bool_decide_eq_true_2 (f = f) eq_refl : str_eqb f f = true).
    + clear -E. induction fs as [|g fs IH]; [done|]. cbn. destruct (field_sem t g i) as [v|] eqn:Eg; cbn; [|done].
      assert (str_eqb g f = false) as -> by (apply bool_decide_eq_false; intros ->; congruence). done.
  - apply elem_of_cons in Hf as [?|Hf]; [congruence|]. destruct (field_sem t g i) as [v|]; cbn; [|by apply IH].
    assert (str_eqb g f = false) as -> by by apply bool_decide_eq_false. by apply IH.
Qed.
Lemma mat_row_absent t fs i f : field_sem t f i = None → rowField (mat_row t fs i) f = [].
Proof.
  intros E. unfold rowField, rowFieldOK, mat_row. cbn [row_Fields]. induction fs as [|g fs IH]; [done|]. cbn.
  destruct (field_sem t g i) as [v|] eqn:Eg; cbn; [|done].
  assert (str_eqb g f = false) as -> by (apply bool_decide_eq_false; intros ->; congruence). done.
Qed.
Definition named (t : table) : Prop := [] ∉ (t_cols t).*1.
Lemma named_nil t i : named t → field_sem t [] i = None.
Proof.
  intros Hn. unfold field_sem. assert (cell_at t [] i = None) as ->; [|done]. unfold cell_at.
  destruct (find_values (t_cols t) []) as [[vs|us|?]|] eqn:E; try done. exfalso. apply Hn. revert E. clear.
  induction (t_cols t) as [|[n v] cols IH]; [done|]. cbn. intros E. apply elem_of_cons.
  destruct (str_eqb n []) eqn:En; [left; symmetry; by apply bool_decide_eq_true in En|right; by apply IH].
Qed.

Lemma scan_rows_spec t fs cols rows : ∀ acc,
  (∀ f col, cols !! f = Some col → col_sem t f col) → (∀ f, f ∈ stat_names sp → is_Some (cols !! f)) → (∀ f, f ∈ stat_names sp → f ∈ fs) →
  named t → (∀ i, i ∈ rows → 0 ≤ i < t_rows t) →
  scan_rows sp maxKeys cols rows acc = Ok (row_loop sp maxKeys (mat_rows t fs rows) acc).
Proof.
  induction rows as [|i rows IH]; intros acc Hc Hn Hfs Hnm Hr; [done|]. cbn [scan_rows].
  destruct (row_values_spec t i (map_to_list cols)) as (vals & -> & Hv).
  { intros f col Hf. by apply Hc, elem_of_map_to_list. }
  { apply Hr, elem_of_cons. by left. }
  rewrite bind_Ok. rewrite (scan_row_step vals (mat_row t fs (Z.to_nat i))).
  - unfold mat_rows. rewrite fmap_cons. change (mat_row t fs (Z.to_nat i) :: ((λ i, mat_row t fs (Z.to_nat i)) <$> rows))
      with ([mat_row t fs (Z.to_nat i)] ++ mat_rows t fs rows). rewrite row_loop_app.
    destruct (row_loop sp maxKeys [_] acc); [|done]. apply IH; try done. intros j Hj. apply Hr, elem_of_cons. by right.
  - intros f Hf. rewrite mat_row_field by by apply Hfs. apply Hv. destruct (Hn f Hf) as [col Hcol].
    apply list_elem_of_fmap. exists (f, col). split; [done|]. by apply elem_of_map_to_list.
  - by apply mat_row_absent, named_nil.
Qed.

(** The rows of the scan that the pipe stands for: the query with the pipe's fields
    materialized. *)
Definition rows_query (q : Query) : Query := with_mat q (pipeFields [Stats sp]) (q_MatAll q) (q_MatCols q).
Lemma elem_addFields l fs f : f ∈ addFields l fs ↔ f ∈ fs ∨ f ∈ l.
Proof.
  unfold addFields. revert fs. induction l as [|g l IH]; intros fs; cbn; [split; [by left|intros [?|H]; [done|by apply not_elem_of_nil in H]]|].
  rewrite IH. unfold addField. case_bool_decide; rewrite ?elem_of_app, ?list_elem_of_singleton, elem_of_cons; [|tauto].
  split; [tauto|]. intros [?|[->|?]]; tauto.
Qed.
Lemma if_fields_from aggs f : is_Some (if_fields aggs !! f) → ∃ a e, a ∈ aggs ∧ a_If a = Some e ∧ is_Some (filterFields e ∅ !! f).
Proof.
  unfold if_fields. assert (∀ m : gmap bytes bool, is_Some (foldl (λ m a, match a_If a with Some e => filterFields e m | None => m end) m aggs !! f) →
    is_Some (m !! f) ∨ ∃ a e, a ∈ aggs ∧ a_If a = Some e ∧ is_Some (filterFields e ∅ !! f)) as H.
  { induction aggs as [|a aggs IH]; intros m Hm; [by left|]. cbn in Hm. destruct (IH _ Hm) as [Hl|(b & e & Hb & He)].
    - destruct (a_If a) as [e|] eqn:Ea; [|by left]. apply filterFields_mono in Hl as [?|?]; [by left|]. right. exists a, e. split_and!; [apply elem_of_cons; by left|done|done].
    - right. exists b, e. split; [apply elem_of_cons; by right|done]. }
  intros Hs. destruct (H ∅ Hs) as [[? Hx]|?]; [by rewrite lookup_empty in Hx|done].
Qed.
Lemma stat_names_materialized names q f : f ∈ stat_names sp → f ∈ query_fields names (rows_query q).
Proof.
  intros Hf. unfold query_fields.
  assert (f ∈ q_Materialize (rows_query q)) as Hm.
  { change (f ∈ pipeFields [Stats sp]). unfold pipeFields. rewrite distinct_elem. split; [|apply not_elem_of_nil].
    cbn [fmap list_fmap concat reads]. rewrite app_nil_r. unfold stat_names in Hf. apply elem_of_app in Hf as [Hf|[Hf|Hf]%elem_of_app]; apply elem_of_app; [|left; exact Hf|].
    - right. apply list_elem_of_fmap in Hf as ([g b] & -> & Hg). rewrite range_perm in Hg. apply elem_of_map_to_list in Hg.
      destruct (if_fields_from _ _ (ex_intro _ b Hg)) as (a & e & Ha & He & [b' Hb']). apply elem_of_concat. eexists. split; [apply list_elem_of_fmap; by exists a|].
      unfold agg_fields. rewrite !elem_of_app, He. right. right. apply list_elem_of_fmap. exists (g, b'). split; [done|].
      rewrite range_perm. by apply elem_of_map_to_list.
    - right. apply elem_of_concat in Hf as (l & Hl & Hfl). apply list_elem_of_fmap in Hl as (a & -> & Ha). apply elem_of_concat.
      eexists. split; [apply list_elem_of_fmap; by exists a|]. unfold agg_fields. rewrite !elem_of_app in *. tauto. }
  assert (f ∈ addFields (q_Materialize (rows_query q)) (match q_Filter (rows_query q) with
    | Some e => addFields (range_map (filterFields e ∅)).*1 [] | None => pred_fields (q_Preds (rows_query q)) [] end)) as Ha by (apply elem_addFields; by right).
  destruct (q_MatAll _ || q_MatCols _); [|exact Ha]. apply elem_addFields. by left.
Qed.

Lemma scan_group_spec x q acc :
  in_service x → named x.2 →
  scan_group sp maxKeys (l_reader x.1) (l_caches x.1) q acc = Ok (row_loop sp maxKeys (group_matches (rows_query q) x.2) acc).
Proof.
  intros [Hs (np & ts & Hv)] Hn. unfold scan_group.
  destruct (matchBitset_spec np _ _ ts Hv (l_caches x.1) q Hs) as (b & s' & -> & Hs' & Hb). rewrite bind_Ok. cbn [fst snd].
  rewrite (selects_Count _ _ _ Hb), (selects_ForEach _ _ _ Hb). fold (query_rows x.2 q).
  unfold group_matches. change (query_rows x.2 (rows_query q)) with (query_rows x.2 q). case_bool_decide as H0.
  { replace (query_rows x.2 q) with (@nil Z) by (symmetry; apply length_zero_iff_nil; unfold len in *; lia). done. }
  destruct (decode_columns_spec x (stat_names sp) s' ∅ ltac:(by exists np, ts) Hs') as (cols & s2 & -> & Hc & Hd); [by intros f col Hf%lookup_empty_Some|].
  rewrite bind_Ok. cbn [fst]. apply scan_rows_spec; [done|intros f Hf; apply Hd; by right|intros f; apply stat_names_materialized|done|].
  intros i [Hi _]%elem_matching. done.
Qed.

Lemma stats_groups_spec o q gts : ∀ n acc,
  Forall in_service gts → Forall (λ x, named x.2) gts →
  ∃ res r, stats_groups o n sp maxKeys q acc gts.*1 = Ok (res, r) ∧
    (r = None → res = row_loop sp maxKeys (matches (rows_query q) gts) acc) ∧ ((∀ k, o_clock o k = None) → r = None).
Proof.
  induction gts as [|x gts IH]; intros n acc Hin Hnm; cbn [stats_groups].
  { exists (Some acc), None. done. }
  apply Forall_cons_1 in Hin as [Hx Hin]. apply Forall_cons_1 in Hnm as [Hxn Hnm]. rewrite fmap_cons. cbn [stats_groups].
  destruct (exceeded q (o_clock o n) 0) as [e|] eqn:Ee.
  { exists (Some acc), (Some e). split_and!; try done. intros Hc. unfold exceeded in Ee. rewrite Hc in Ee. by rewrite !bool_decide_eq_false_2 in Ee by lia. }
  pose proof Hx as [_ (np & ts & Hv)]. destruct (groupCanMatch_spec np _ _ ts Hv q) as (c & -> & Hc). rewrite bind_Ok.
  rewrite matches_cons. destruct c.
  - rewrite scan_group_spec, bind_Ok by done. destruct (row_loop sp maxKeys (group_matches (rows_query q) x.2) acc) as [acc'|] eqn:El.
    + destruct (IH (S n) acc' Hin Hnm) as (res & r & -> & H1 & H2). exists res, r. split_and!; [done| |done].
      intros Hr. by rewrite (H1 Hr), row_loop_app, El.
    + exists None, None. split_and!; [done| |done]. intros _. by rewrite row_loop_app, El.
  - destruct (IH (S n) acc Hin Hnm) as (res & r & -> & H1 & H2). exists res, r. split_and!; [done| |done].
    intros Hr. rewrite (H1 Hr). assert (query_rows x.2 (rows_query q) = []) as Hz by by apply Hc.
    unfold group_matches. rewrite Hz. done.
Qed.

(** C14: Aggregating while scanning answers what the [stats] pipe answers over the
    rows the scan would have returned: the same rows, in the order a map is walked
    in, and the same refusal past the ceiling; it never panics, and without
    cancellation it is not stopped. The pipe is not a lone count by one field,
    which the footers answer. *)
Theorem scan_stats_exact o sec q gts :
  Forall in_service gts → Forall (λ x, named x.2) gts → is_count sp = None ∨ length (st_By sp) ≠ 1%nat →
  ∃ out r, runStats_scan o sp maxKeys sec (Some gts.*1) q = Ok (out, r) ∧
    (r = None → match stats_apply sp maxKeys sec (matches (rows_query q) gts), out with
                | Some rows, Some rows' => rows' ≡ₚ rows
                | None, None => True
                | _, _ => False
                end) ∧ ((∀ k, o_clock o k = None) → r = None).
Proof.
  intros Hin Hnm Hshape. unfold runStats_scan.
  destruct (snapshotOf_spec q gts Hin) as (kept & Hsnap & Hk & Hsub & Hh).
  assert (Forall (λ x, named x.2) kept) as Hkn. { rewrite Forall_forall in *. intros x Hx. apply Hnm. by eapply elem_of_sublist. }
  assert (matches (rows_query q) kept = matches (rows_query q) gts) as Hm by (apply same_hits_matches; exact Hh).
  destruct (stats_groups_spec o q kept 0 ∅ Hk Hkn) as (res & r & Hg & H1 & H2).
  assert (∀ A (a b : A), match is_count sp, st_By sp with Some _, [_] => a | _, _ => b end = b) as Hm2.
  { intros A a b. destruct (is_count sp), (st_By sp) as [|? [|]]; try done. by destruct Hshape. }
  destruct (is_count sp) as [alias|], (st_By sp) as [|by_ [|]] eqn:Eby; try (by destruct Hshape).
  all: rewrite Hsnap, Hg, bind_Ok; cbn [fst snd]; eexists _, r; split; [done|]; split; [|done]; intros Hr; specialize (H1 Hr); rewrite Hm in H1; subst res;
    unfold stats_apply; pose proof (stats_loop_rows sp maxKeys (matches (rows_query q) gts) ∅ [] ordered_empty) as Hl;
    destruct (stats_loop sp maxKeys (matches (rows_query q) gts) ∅ []) as [[acc order]|]; [|by rewrite Hl];
    destruct Hl as [-> Ho]; by apply render_perm.
Qed.
End groups.
