(* ===== verification/Distributed.v ===== *)
(** * Splitting a query between the shards and the coordinator

    [internal/query/distributed.go], [ApplyPipes] of [internal/query/pipes.go] and
    the planning half of [internal/api/cluster_plan.go]: where each pipe may run
    ([ClassifyPipe]), the prefix that is sent to the shards ([PlanDistributed],
    [planQuery]) and the coordinator's half over merged rows ([ApplyPipes]). The
    parse of the query text is an argument of [planQuery]. *)

From Stdlib Require Import SpecFloat.
From S2P Require Import Prelude Digits GoLib Kernels Indices Timestamps DictSection DictLayout Postings Bloom Group Bitset Select.
From S2P Require Import Reader ReaderSafe ReaderOk Table Writer Filter Engine TimeFilter Scan Aggregate Text Rows StatsPipe Pipes Pipeline.
From stdpp Require Import list gmap sorting.
Local Open Scope Z_scope.

(** ** Definitions *)

(** *** The classification *)

Inductive PipeClass := PipeRowLocal | PipeMergeableAggregate | PipeGlobalOrder | PipeCoordinatorOnly.
#[export] Instance PipeClass_eq_dec : EqDecision PipeClass.
Proof. solve_decision. Defined.

Definition mergeable_kind (k : AggKind) : bool :=
  match k with AggCount | AggSum | AggMin | AggMax | AggSumLen | AggCountEmpty => true | _ => false end.
Definition mergeableAggs (aggs : list Agg) : bool := forallb (λ a, mergeable_kind (a_Kind a)) aggs.
Definition ClassifyPipe (p : Pipe) : PipeClass :=
  match p with
  | FieldsPipe _ | RenamePipe _ _ | DeletePipe _ | CopyPipe _ _ | FilterPipe _ | FormatPipe _ _ | ExtractPipe _ _ | ExtractRegexpPipe _ _
  | MathPipe _ _ _ | LenPipe _ _ | UnpackJSONPipe _ _ | UnpackLogfmtPipe _ _ | UnpackSyslogPipe _ | UnpackWordsPipe _ _ | ReplacePipe _ _ _ _
  | HashPipe _ _ | DecolorizePipe _ | PackPipe _ _ _ | DropEmptyPipe | JSONArrayLenPipe _ _ | CollapseNumsPipe _ _ | UnrollPipe _ => PipeRowLocal
  | SamplePipe _ => PipeCoordinatorOnly
  | Stats sp => if mergeableAggs (st_Aggs sp) then PipeMergeableAggregate else PipeCoordinatorOnly
  | SortPipe _ _ _ | LimitPipe _ | OffsetPipe _ | TailPipe _ | TopPipe _ _ | UniqPipe _ _ | RankPipe _ _ => PipeGlobalOrder
  | JoinPipe _ _ _ _ | UnionPipe _ _ | StreamContextPipe _ _ => PipeCoordinatorOnly
  | FieldValuesPipe _ _ | FieldNamesPipe | FacetsPipe _ | BlocksCountPipe | BlockStatsPipe => PipeCoordinatorOnly
  end.

(** The texts [NonMergeableReason] gives, by what they are about; [None] for the
    empty one. *)
Inductive Reason := R_quantile | R_avg | R_uniq | R_histogram | R_rate | R_other (k : AggKind).
Fixpoint NonMergeableReason (aggs : list Agg) : option Reason :=
  match aggs with
  | [] => None
  | a :: aggs' =>
      match a_Kind a with
      | AggCount | AggSum | AggMin | AggMax | AggSumLen | AggCountEmpty => NonMergeableReason aggs'
      | AggQuantile => Some R_quantile
      | AggAvg => Some R_avg
      | AggUniq | AggCountUniq => Some R_uniq
      | AggHistogram => Some R_histogram
      | AggRate | AggRateSum => Some R_rate
      | k => Some (R_other k)
      end
  end.

(** *** The plan *)

Record Plan := MkPlan { ShardPipes : list Pipe; CoordinatorPipes : list Pipe; Reject : option Reason }.
Definition stripsTime (p : Pipe) : bool :=
  match p with
  | FieldsPipe keep => negb (bool_decide (s_time ∈ keep))
  | DeletePipe drop => bool_decide (s_time ∈ drop)
  | _ => false
  end.
Fixpoint rejectReason (shard : list Pipe) : option Reason :=
  match shard with
  | [] => None
  | Stats sp :: shard' => match NonMergeableReason (st_Aggs sp) with Some why => Some why | None => rejectReason shard' end
  | _ :: shard' => rejectReason shard'
  end.
(** Whether the loop of [PlanDistributed] keeps the pipe on the shards. *)
Definition pushed (p : Pipe) : bool := bool_decide (ClassifyPipe p = PipeRowLocal) && negb (stripsTime p).
Fixpoint plan_split (pipes : list Pipe) : list Pipe * list Pipe :=
  match pipes with
  | [] => ([], [])
  | p :: pipes' => if pushed p then let x := plan_split pipes' in (p :: x.1, x.2) else ([], pipes)
  end.
Definition PlanDistributed (pipes : list Pipe) : Plan :=
  let x := plan_split pipes in MkPlan x.1 x.2 (rejectReason x.1).
Definition Distributable (pipes : list Pipe) : bool * option Reason :=
  let p := PlanDistributed pipes in (match Reject p with None => true | Some _ => false end, Reject p).

Definition ChangesRowCount (p : Pipe) : bool :=
  match p with
  | FieldsPipe _ | RenamePipe _ _ | DeletePipe _ | CopyPipe _ _ | FormatPipe _ _ | ExtractPipe _ _ | ExtractRegexpPipe _ _ | MathPipe _ _ _
  | LenPipe _ _ | UnpackJSONPipe _ _ | UnpackLogfmtPipe _ _ | UnpackSyslogPipe _ | UnpackWordsPipe _ _ | ReplacePipe _ _ _ _ | HashPipe _ _
  | DecolorizePipe _ | PackPipe _ _ _ | JSONArrayLenPipe _ _ | CollapseNumsPipe _ _ => false
  | _ => true
  end.

(** *** Merging the values of an aggregate *)

Inductive MergeOp := MergeSum | MergeMin | MergeMax.
Definition mergeOpFor (k : AggKind) : option MergeOp :=
  match k with
  | AggCount | AggSum | AggSumLen | AggCountEmpty => Some MergeSum
  | AggMin => Some MergeMin
  | AggMax => Some MergeMax
  | _ => None
  end.
Definition last_stats (pipes : list Pipe) : option StatsPipe :=
  foldl (λ acc p, match p with Stats sp => Some sp | _ => acc end) None pipes.
Fixpoint ops_of (aggs : list Agg) (ops : gmap bytes MergeOp) : option (gmap bytes MergeOp) :=
  match aggs with
  | [] => Some ops
  | a :: aggs' => match mergeOpFor (a_Kind a) with Some op => ops_of aggs' (<[a_Alias a := op]> ops) | None => None end
  end.
(** [MergeOps] of the parsed pipes. *)
Definition MergeOps (pipes : list Pipe) : option (gmap bytes MergeOp) :=
  match last_stats pipes with Some sp => ops_of (st_Aggs sp) ∅ | None => None end.
Definition Combine (op : MergeOp) (acc v : spec_float) (first : bool) : spec_float :=
  if first then v else
  match op with
  | MergeMin => if SFltb v acc then v else acc
  | MergeMax => if SFltb acc v then v else acc
  | MergeSum => fadd acc v
  end.

(** *** The coordinator's half *)

Definition rowsBytes (rows : list Row) : Z := foldl (λ n r, n + rowBytes r) 0 rows.
Definition store_aware (p : Pipe) : bool :=
  match p with
  | JoinPipe _ _ _ _ | UnionPipe _ _ | StreamContextPipe _ _ | BlocksCountPipe | BlockStatsPipe
  | FieldNamesPipe | FieldValuesPipe _ _ | FacetsPipe _ => true
  | _ => false
  end.

Section coordinator.
Context {T : GoText} {P : GoPipes} {R : MapRange}.

(** The loop of [ApplyPipes]; [n] counts the budget checks. A size is measured
    when a budget asks for it. *)
Fixpoint apply_loop (clock : nat → option Stop) (n : nat) (lim : PipeLimits) (q : Query) (ps : list Pipe) (rows : list Row) (reason : option Stop) : result :=
  match ps with
  | [] => (Some rows, reason)
  | p :: ps' =>
      match exceeded q (clock n) (if countsBytes q then rowsBytes rows else 0) with
      | Some e => (None, stop reason e)
      | None =>
          if store_aware p then (None, stop reason ErrNotDistributable) else
          match Pipes.apply p (maxGroupKeys lim) (rangeSec q) rows with
          | None => (None, stop reason ErrTooManyGroupKeys)
          | Some out =>
              match (if countsBytes q then exceeded q (clock (S n)) (rowsBytes out) else None) with
              | Some e => (None, stop reason e)
              | None =>
                  if bool_decide (0 < maxPipeRows lim ∧ maxPipeRows lim < len out) then (None, stop reason ErrPipeRowLimit)
                  else if bool_decide (reason ≠ None) then (None, reason)
                  else apply_loop clock (S (S n)) lim q ps' out reason
              end
          end
      end
  end.
Definition ApplyPipes (clock : nat → option Stop) (lim : PipeLimits) (q : Query) (ps : list Pipe) (rows : list Row) : result :=
  apply_loop clock 0 lim q ps rows None.
End coordinator.

(** *** The text of the shard query *)

(** ["|"] with its spaces. *)
Definition s_pipe : bytes := [32; 124; 32].
(** The loop of [pipeSegments]: [skip] a byte after a backslash, [cur] the segment
    so far. *)
Fixpoint seg_loop (skip : bool) (quote : option Z) (depth : Z) (s cur : bytes) : list bytes :=
  match s with
  | [] => [TrimSpace cur]
  | c :: s' =>
      if skip then seg_loop false quote depth s' (cur ++ [c]) else
      match quote with
      | Some qc =>
          if bool_decide (c = 92) then seg_loop true quote depth s' (cur ++ [c])
          else seg_loop false (if bool_decide (c = qc) then None else quote) depth s' (cur ++ [c])
      | None =>
          if bool_decide (c = 34 ∨ c = 39 ∨ c = 96) then seg_loop false (Some c) depth s' (cur ++ [c])
          else if bool_decide (c = 40 ∨ c = 91 ∨ c = 123) then seg_loop false None (depth + 1) s' (cur ++ [c])
          else if bool_decide (c = 41 ∨ c = 93 ∨ c = 125) then seg_loop false None (depth - 1) s' (cur ++ [c])
          else if bool_decide (c = 124 ∧ depth = 0) then TrimSpace cur :: seg_loop false None depth s' []
          else seg_loop false None depth s' (cur ++ [c])
      end
  end.
Definition pipeSegments (raw : bytes) : list bytes := seg_loop false None 0 raw [].

(** [endpointLimit] of the [limit] parameter, empty when absent. *)
Definition endpointLimit (v : bytes) : Z :=
  if bool_decide (v = []) then 0 else match Atoi v with Some n => if bool_decide (n < 0) then 0 else n | None => 0 end.
Definition limitBoundsOutput (pipes : list Pipe) : bool :=
  match pipes with
  | (Stats _ | FieldValuesPipe _ _ | FieldNamesPipe | FacetsPipe _ | BlocksCountPipe | BlockStatsPipe) :: _ => false
  | TopPipe by_ _ :: _ | UniqPipe by_ _ :: _ => negb (bool_decide (len by_ = 1))
  | _ => true
  end.

(** The pipes before the first that may change the number of rows. *)
Fixpoint one_to_one (ps : list Pipe) : nat :=
  match ps with [] => O | p :: ps' => if ChangesRowCount p then O else S (one_to_one ps') end.
Definition push_count (limit : Z) (pipes shard : list Pipe) : nat :=
  if bool_decide (0 < limit) && limitBoundsOutput pipes then one_to_one shard else length shard.

Inductive planErr := MissingQuery | ParseFailed | Rejected (why : Reason) | Unsplit.
(** The shard query, and the pipes for the coordinator. *)
Definition planQuery (parse : bytes → option (list Pipe)) (raw : bytes) (limit : Z) : planErr + (bytes * list Pipe) :=
  if bool_decide (TrimSpace raw = []) then inl MissingQuery else
  match parse raw with
  | None => inl ParseFailed
  | Some pipes =>
      let plan := PlanDistributed pipes in
      match Reject plan with
      | Some why => inl (Rejected why)
      | None =>
          let segs := pipeSegments raw in
          if bool_decide (len segs ≠ len pipes + 1) then inl Unsplit else
          let push := push_count limit pipes (ShardPipes plan) in
          inr (default [] (head segs) ++ concat ((λ s, s_pipe ++ s) <$> take push (tail segs)),
               if bool_decide (push < length (ShardPipes plan))%nat then pipes else CoordinatorPipes plan)
      end
  end.
