(* ===== verification/Wire.v ===== *)
(** * Rows on the wire

    [internal/api/server.go] and [cluster_rowscan.go]: the line of JSON a storage
    node writes for a row ([appendRowJSON]), and the scanner a coordinator reads
    it back with ([jsonLineToRow]). An index into the line is the rest of the
    line here: the scanner never goes back. *)

From Stdlib Require Import SpecFloat String.
From S2P Require Import Prelude Digits GoLib Kernels Writer Filter Engine TimeFilter Text Rows.
From stdpp Require Import list gmap sorting.
Local Open Scope Z_scope.

(** ** Definitions *)

(** [json.Valid]. *)
Class GoJSON := { json_Valid : bytes → bool }.
(** [time.RFC3339Nano]. *)
Definition RFC3339Nano : string := "2006-01-02T15:04:05.999999999Z07:00".

(** *** Writing *)

Definition hexdig (n : Z) : Z := if bool_decide (n < 10) then 48 + n else 97 + n - 10.
Definition json_byte (c : Z) : bytes :=
  if bool_decide (c = 34) then [92; 34]
  else if bool_decide (c = 92) then [92; 92]
  else if bool_decide (c < 32) then [92; 117; 48; 48; hexdig (Z.shiftr c 4); hexdig (Z.land c 15)]
  else [c].
Definition appendJSONString (s : bytes) : bytes := concat (json_byte <$> s).
(** ["{}"]. *)
Definition EmptyStream : bytes := [123; 125].
(** The stream pair of a full record. *)
Definition stream_pair (fs : list (bytes * bytes)) : list (bytes * bytes) :=
  let stream := last_value fs s_stream in
  let stream := if bool_decide (stream = []) then EmptyStream else stream in
  let id := last_value fs s_stream_id in
  [(s_stream, stream); (s_stream_id, if bool_decide (id = []) then StreamID stream else id)].
(** The pairs after the time; they are those of a bare pack ([pack_fields]). *)
Definition row_pairs (r : Row) (withStream : bool) : list (bytes * bytes) :=
  pack_fields withStream (negb (row_NoTime r)) (row_Fields r) ++ (if withStream then stream_pair (row_Fields r) else []).
Definition json_pair (kv : bytes * bytes) : bytes := [34] ++ appendJSONString kv.1 ++ [34; 58; 34] ++ appendJSONString kv.2 ++ [34].
(** The time goes out as it was formatted. *)
Definition time_text {T : GoText} (t : Z) : bytes := [34] ++ s_time ++ [34; 58; 34] ++ formatTime t ++ [34].
Definition row_text {T : GoText} (r : Row) (withStream : bool) : bytes :=
  [123] ++ strings_Join ((if row_NoTime r then [] else [time_text (row_Time r)]) ++ (json_pair <$> row_pairs r withStream)) [44] ++ [125].
Definition appendRowJSON {T : GoText} (buf : bytes) (r : Row) (withStream : bool) : bytes := buf ++ row_text r withStream ++ [10].

(** *** Reading *)

Definition is_ws (c : Z) : bool := bool_decide (c = 32 ∨ c = 9 ∨ c = 10 ∨ c = 13).
Fixpoint skipWS (b : bytes) : bytes := match b with c :: b' => if is_ws c then skipWS b' else b | [] => [] end.
Definition rawRow (line : bytes) : Row := MkRow 0 [(s_msg, line)] false.

Definition hex_value (c : Z) : option Z :=
  if in_range 48 57 c then Some (c - 48) else if in_range 97 102 c then Some (c - 97 + 10) else if in_range 65 70 c then Some (c - 65 + 10) else None.
Definition hex4 (b : bytes) : option Z :=
  match b with
  | a :: c :: d :: e :: _ =>
      match hex_value a, hex_value c, hex_value d, hex_value e with
      | Some a, Some c, Some d, Some e => Some (((a * 16 + c) * 16 + d) * 16 + e)
      | _, _, _, _ => None
      end
  | _ => None
  end.
(** [utf16.IsSurrogate], [utf16.DecodeRune], [utf8.AppendRune] of a rune below
    0x110000. *)
Definition IsSurrogate (r : Z) : bool := in_range 0xd800 0xdfff r.
Definition RuneError : Z := 0xfffd.
Definition DecodeRune (r1 r2 : Z) : Z :=
  if in_range 0xd800 0xdbff r1 && in_range 0xdc00 0xdfff r2 then Z.lor (Z.shiftl (r1 - 0xd800) 10) (r2 - 0xdc00) + 0x10000 else RuneError.
Definition AppendRune (r : Z) : bytes :=
  let r := if IsSurrogate r then RuneError else r in
  if bool_decide (r < 0x80) then [r]
  else if bool_decide (r < 0x800) then [Z.lor 0xc0 (Z.shiftr r 6); Z.lor 0x80 (Z.land r 0x3f)]
  else if bool_decide (r < 0x10000) then [Z.lor 0xe0 (Z.shiftr r 12); Z.lor 0x80 (Z.land (Z.shiftr r 6) 0x3f); Z.lor 0x80 (Z.land r 0x3f)]
  else [Z.lor 0xf0 (Z.shiftr r 18); Z.lor 0x80 (Z.land (Z.shiftr r 12) 0x3f); Z.lor 0x80 (Z.land (Z.shiftr r 6) 0x3f); Z.lor 0x80 (Z.land r 0x3f)].
(** The rune and the bytes read after the [u]. *)
Definition scanUnicodeEscape (b : bytes) : option (Z * nat) :=
  match hex4 b with
  | None => None
  | Some r =>
      if negb (IsSurrogate r) then Some (r, 4%nat) else
      match drop 4 b with
      | 92 :: 117 :: b' =>
          match hex4 b' with
          | Some lo => let dec := DecodeRune r lo in if bool_decide (dec ≠ RuneError) then Some (dec, 10%nat) else Some (RuneError, 4%nat)
          | None => Some (RuneError, 4%nat)
          end
      | _ => Some (RuneError, 4%nat)
      end
  end.
(** The byte of a one-letter escape. *)
Definition simple_escape (c : Z) : option Z :=
  if bool_decide (c = 34 ∨ c = 92 ∨ c = 47) then Some c
  else if bool_decide (c = 98) then Some 8 else if bool_decide (c = 102) then Some 12
  else if bool_decide (c = 110) then Some 10 else if bool_decide (c = 114) then Some 13
  else if bool_decide (c = 116) then Some 9 else None.
(** The escaped path of [scanJSONString]: [acc] is the buffer since [off], [skip]
    counts the bytes of an escape already decoded. *)
Fixpoint unescape_loop (skip : nat) (b acc : bytes) : option (bytes * bytes) :=
  match b with
  | [] => None
  | c :: b' =>
      match skip with
      | S k => unescape_loop k b' acc
      | O =>
          if bool_decide (c = 34) then Some (acc, b')
          else if bool_decide (c < 32) then None
          else if negb (bool_decide (c = 92)) then unescape_loop 0 b' (acc ++ [c])
          else match b' with
          | [] => None
          | e :: b'' =>
              match simple_escape e with
              | Some x => unescape_loop 1 b' (acc ++ [x])
              | None =>
                  if bool_decide (e = 117) then
                    match scanUnicodeEscape b'' with
                    | Some (r, n) => unescape_loop (S n) b' (acc ++ AppendRune r)
                    | None => None
                    end
                  else None
              end
          end
      end
  end.
Definition is_plain (c : Z) : bool := negb (bool_decide (c = 34)) && negb (bool_decide (c = 92)) && bool_decide (32 ≤ c).
(** The text and what follows the closing quote. *)
Definition scanJSONString (b : bytes) : option (bytes * bytes) :=
  match b with
  | 34 :: b =>
      let '(pre, rest) := span is_plain b in
      match rest with
      | 34 :: rest => Some (pre, rest)
      | 92 :: _ => unescape_loop 0 rest pre
      | _ => None
      end
  | _ => None
  end.

Definition digits_rest (b : bytes) : bytes := (span (in_range 48 57) b).2.
Definition starts_digit (b : bytes) : bool := match b with c :: _ => in_range 48 57 c | [] => false end.
Definition scan_exponent (b : bytes) : option bytes :=
  match b with
  | c :: b' =>
      if bool_decide (c = 101 ∨ c = 69) then
        let b' := match b' with s :: b'' => if bool_decide (s = 43 ∨ s = 45) then b'' else b' | [] => b' end in
        if starts_digit b' then Some (digits_rest b') else None
      else Some b
  | [] => Some b
  end.
Definition scan_fraction (b : bytes) : option bytes :=
  match b with
  | 46 :: b' => if starts_digit b' then scan_exponent (digits_rest b') else None
  | _ => scan_exponent b
  end.
Definition scanNumber (b : bytes) : option bytes :=
  let b := match b with 45 :: b' => b' | _ => b end in
  match b with
  | c :: b' => if bool_decide (c = 48) then scan_fraction b' else if in_range 49 57 c then scan_fraction (digits_rest b') else None
  | [] => None
  end.
(** [scanComposite]: inside a string, and past a backslash there. *)
Fixpoint composite_loop (skip instr : bool) (depth : Z) (b : bytes) : option bytes :=
  match b with
  | [] => None
  | c :: b' =>
      if skip then composite_loop false instr depth b'
      else if instr then
        if bool_decide (c = 92) then composite_loop true true depth b'
        else composite_loop false (negb (bool_decide (c = 34))) depth b'
      else if bool_decide (c = 34) then composite_loop false true depth b'
      else if bool_decide (c = 123 ∨ c = 91) then composite_loop false false (depth + 1) b'
      else if bool_decide (c = 125 ∨ c = 93) then
        if bool_decide (depth - 1 = 0) then Some b' else if bool_decide (depth - 1 < 0) then None else composite_loop false false (depth - 1) b'
      else composite_loop false false depth b'
  end.
Definition scanComposite (b : bytes) : option bytes := composite_loop false false 0 b.
Definition looksLikeJSONObject (line : bytes) : bool :=
  match skipWS line with
  | 123 :: b => match scanComposite (123 :: b) with Some rest => bool_decide (skipWS rest = []) | None => false end
  | _ => false
  end.

Definition lit_true : bytes := [116; 114; 117; 101].
Definition lit_false : bytes := [102; 97; 108; 115; 101].
Definition lit_null : bytes := [110; 117; 108; 108].
(** The bytes read: from [b] to its suffix [rest]. *)
Definition upto (b rest : bytes) : bytes := take (length b - length rest) b.

Section scanner.
Context {T : GoText} {D : GoTime} {J : GoJSON}.

Definition scanJSONValue (b : bytes) : option (bytes * bytes) :=
  match b with
  | [] => None
  | c :: _ =>
      if bool_decide (c = 34) then scanJSONString b
      else if bool_decide (c = 116) then if starts_with b lit_true then Some (lit_true, drop 4 b) else None
      else if bool_decide (c = 102) then if starts_with b lit_false then Some (lit_false, drop 5 b) else None
      else if bool_decide (c = 110) then if starts_with b lit_null then Some ([], drop 4 b) else None
      else if bool_decide (c = 45) || in_range 48 57 c then
        match scanNumber b with Some rest => Some (upto b rest, rest) | None => None end
      else if bool_decide (c = 123 ∨ c = 91) then
        match scanComposite b with
        | Some rest => if json_Valid (upto b rest) then Some (upto b rest, rest) else None
        | None => None
        end
      else None
  end.
(** A pair joins the row; the first readable time is the row's. *)
Definition add_pair (r : Row) (key val : bytes) : Row :=
  let fs := row_Fields r ++ [(key, val)] in
  match (if str_eqb key s_time && row_NoTime r then time_Parse RFC3339Nano val else None) with
  | Some t => MkRow (SatNanos t) fs false
  | None => MkRow (row_Time r) fs (row_NoTime r)
  end.
(** The loop of [jsonLineToRow]; every round reads a pair, so the length of the
    line is fuel enough. [None]: the whole line is the row's message. *)
Fixpoint object_loop (fuel : nat) (first : bool) (b : bytes) (r : Row) : option Row :=
  match fuel with
  | O => None
  | S fuel =>
      match skipWS b with
      | [] => None
      | c :: b' =>
          if bool_decide (c = 125) then if bool_decide (skipWS b' = []) then Some r else None else
          match (if first then Some (c :: b')
                 else if bool_decide (c = 44) then match skipWS b' with [] => None | d :: b'' => if bool_decide (d = 125) then None else Some (d :: b'') end
                 else None) with
          | None => None
          | Some b =>
              match scanJSONString b with
              | None => None
              | Some (key, b) =>
                  match skipWS b with
                  | 58 :: b =>
                      match scanJSONValue (skipWS b) with
                      | Some (val, b) => object_loop fuel false b (add_pair r key val)
                      | None => None
                      end
                  | _ => None
                  end
              end
          end
      end
  end.
Definition jsonLineToRow (line : bytes) : Row :=
  match skipWS line with
  | 123 :: b => default (rawRow line) (object_loop (length line) true b (MkRow 0 [] true))
  | _ => rawRow line
  end.
End scanner.
