(* ===== verification/Cluster.v ===== *)
(** * Merging the rows of the shards

    [internal/api/cluster.go]: a coordinator splits the bodies the shards answered
    with into rows ([collectShardRows]), orders them by their time as it stands on
    the line ([rowLineTime], [fastRFC3339Nano]), and either writes the lines or
    runs its half of the plan over them ([mergeRows]). The goroutines of the split
    finish in any order, which is an argument. *)

From Stdlib Require Import SpecFloat.
From S2P Require Import Prelude Digits GoLib Kernels Indices Timestamps DictSection DictLayout Postings Bloom Group Bitset Select.
From S2P Require Import Reader ReaderSafe ReaderOk Table Writer Filter Engine TimeFilter Scan Aggregate Text Rows StatsPipe Pipes Pipeline Distributed Wire.
From stdpp Require Import list gmap sorting.
Local Open Scope Z_scope.

(** ** Definitions *)

(** *** The time of a line *)

Definition digit_at (s : bytes) (i : nat) : option Z := match s !! i with Some c => if in_range 48 57 c then Some (c - 48) else None | None => None end.
Definition d2 (s : bytes) (i : nat) : option Z :=
  match digit_at s i, digit_at s (S i) with Some a, Some b => Some (a * 10 + b) | _, _ => None end.
Definition byte_is (s : bytes) (i : nat) (c : Z) : bool := bool_decide (s !! i = Some c).
(** The fraction of a second: nine digits count, more are read. *)
Fixpoint fraction (s : bytes) (frac scale : Z) : option Z :=
  match s with
  | [] => Some frac
  | c :: s' => if in_range 48 57 c then fraction s' (frac + (c - 48) * scale) (Z.quot scale 10) else None
  end.
(** The days from the epoch to a civil date; Go's division truncates. *)
Definition civil_days (year mo dy : Z) : Z :=
  let yy := if bool_decide (mo ≤ 2) then year - 1 else year in
  let era := if bool_decide (yy < 0) then Z.quot (yy - 399) 400 else Z.quot yy 400 in
  let yoe := yy - era * 400 in
  let mp := Z.rem (mo + 9) 12 in
  let doy := Z.quot (153 * mp + 2) 5 + dy - 1 in
  let doe := yoe * 365 + Z.quot yoe 4 - Z.quot yoe 100 + doy in
  era * 146097 + doe - 719468.
Definition fastRFC3339Nano (s : bytes) : option Z :=
  if bool_decide (len s < 20) || negb (byte_is s (length s - 1) 90) || negb (byte_is s 4 45) || negb (byte_is s 7 45)
     || negb (byte_is s 10 84) || negb (byte_is s 13 58) || negb (byte_is s 16 58) then None else
  match d2 s 0, d2 s 2, d2 s 5, d2 s 8, d2 s 11, d2 s 14, d2 s 17 with
  | Some y1, Some y2, Some mo, Some dy, Some hh, Some mi, Some ss =>
      if bool_decide (mo < 1 ∨ 12 < mo) then None else
      let year := y1 * 100 + y2 in
      if bool_decide (year < 1678 ∨ 2261 < year) then None else
      let ns := i64 ((civil_days year mo dy * 86400 + hh * 3600 + mi * 60 + ss) * 10 ^ 9) in
      if bool_decide (20 < len s) then
        if negb (byte_is s 19 46) then None else
        match fraction (take (length s - 21) (drop 20 s)) 0 100000000 with Some f => Some (i64 (ns + f)) | None => None end
      else Some ns
  | _, _, _, _, _, _, _ => None
  end.
(** The key of the time, with the quotes and the colon up to its value. *)
Definition time_key : bytes := [34] ++ s_time ++ [34; 58; 34].

(** *** The rows of the shards *)

Record mergedRow := MkMerged { m_t : Z; m_line : bytes; m_shard : Z; m_seq : Z }.
Record shardAnswer := MkAnswer { sa_shard : Z; sa_body : bytes }.

Section lines.
Context {T : GoText} {D : GoTime}.

Definition rowLineTime (line : bytes) : Z :=
  match Index line time_key with
  | None => 0
  | Some i =>
      let rest := drop (i + length time_key) line in
      match Text.IndexByte rest 34 with
      | None => 0
      | Some j =>
          match fastRFC3339Nano (take j rest) with
          | Some ns => ns
          | None => match time_Parse RFC3339Nano (take j rest) with Some t => SatNanos t | None => 0 end
          end
      end
  end.

(** The loop over one body, [cur] the line so far: the rows, and the first line
    that is not one. *)
Definition take_line (shard : Z) (line : bytes) (acc : list mergedRow * option bytes) : list mergedRow * option bytes :=
  if bool_decide (line = []) then acc
  else if negb (looksLikeJSONObject line) then (acc.1, match acc.2 with Some bad => Some bad | None => Some line end)
  else (acc.1 ++ [MkMerged (rowLineTime line) line shard (len acc.1)], acc.2).
Fixpoint body_loop (shard : Z) (body cur : bytes) (acc : list mergedRow * option bytes) : list mergedRow * option bytes :=
  match body with
  | [] => take_line shard cur acc
  | c :: body' => if bool_decide (c = 10) then body_loop shard body' [] (take_line shard cur acc) else body_loop shard body' (cur ++ [c]) acc
  end.
Definition shard_rows (a : shardAnswer) : list mergedRow * option bytes := body_loop (sa_shard a) (sa_body a) [] ([], None).
(** The answers in the order their goroutines took the lock. *)
Fixpoint collect_loop (done : list shardAnswer) (all : list mergedRow) (bad : option (Z * bytes)) : list mergedRow * option (Z * bytes) :=
  match done with
  | [] => (all, bad)
  | a :: done' =>
      let x := shard_rows a in
      let bad := match x.2 with
        | Some line => match bad with Some (b, _) => if bool_decide (sa_shard a < b) then Some (sa_shard a, line) else bad | None => Some (sa_shard a, line) end
        | None => bad
        end in
      collect_loop done' (all ++ x.1) bad
  end.
Definition collectShardRows (done : list shardAnswer) : list mergedRow * option (Z * bytes) := collect_loop done [] None.
End lines.

(** The order of the merge, newest first or oldest first. *)
Definition merge_less (newest : bool) (a b : mergedRow) : bool :=
  if negb (bool_decide (m_t a = m_t b)) then (if newest then bool_decide (m_t b < m_t a) else bool_decide (m_t a < m_t b))
  else if negb (bool_decide (m_shard a = m_shard b)) then bool_decide (m_shard a < m_shard b)
  else bool_decide (m_seq a < m_seq b).
(** The comparison is total, so any sort gives the one order. *)
Definition sort_merged (newest : bool) (all : list mergedRow) : list mergedRow := stable_sort (merge_less newest) all.

Inductive mergeResult := NotARow (shard : Z) (line : bytes) | Stopped (e : Stop) | Written (body : bytes).

Section merge.
Context {T : GoText} {P : GoPipes} {R : MapRange} {D : GoTime} {J : GoJSON}.

(** The rows the coordinator's pipes see. *)
Definition pipe_input (bounded : Z) (all : list mergedRow) : list Row :=
  let all := sort_merged (bool_decide (0 < bounded)) all in
  let all := if bool_decide (0 < bounded ∧ bounded < len all) then take (Z.to_nat bounded) all else all in
  (λ m, jsonLineToRow (m_line m)) <$> all.
(** [limit] is the endpoint's, [q] the query the pipes run under. *)
Definition mergeRows (clock : nat → option Stop) (lim : PipeLimits) (q : Query) (limit : Z) (done : list shardAnswer) (coordPipes allPipes : list Pipe)
    : mergeResult :=
  let '(all, bad) := collectShardRows done in
  match bad with
  | Some (shard, line) => NotARow shard line
  | None =>
      if bool_decide (coordPipes ≠ []) then
        let bounded := if bool_decide (0 < limit) && limitBoundsOutput allPipes then limit else 0 in
        let '(out, reason) := ApplyPipes clock lim q coordPipes (pipe_input bounded all) in
        match reason with
        | Some e => Stopped e
        | None => Written (concat ((λ r, appendRowJSON [] r false) <$> rows_of out))
        end
      else
        let all := sort_merged (bool_decide (0 < limit)) all in
        let all := if bool_decide (0 < limit) then take (Z.to_nat limit) all else all in
        Written (concat ((λ m, m_line m ++ [10]) <$> all))
  end.
End merge.
