(* ===== verification/DistributedOk.v ===== *)
(** * The plan answers what the whole pipeline would

    A pipe classified row-local is a function of one row ([local_apply]), keeps
    the time it is merged by unless it strips it ([pushed_keeps]), and gives one
    row for one unless it says otherwise ([one_row]). Hence running the pushed
    prefix on every shard, merging by time, bounding and running the rest gives
    what the whole chain gives over the merged rows ([plan_exact]). *)

From Stdlib Require Import SpecFloat.
From S2P Require Import Prelude Digits GoLib Kernels Indices Timestamps DictSection DictLayout Postings Bloom Group Bitset Select.
From S2P Require Import Reader ReaderSafe ReaderOk Table Writer Filter Engine TimeFilter Scan PagesOk KeySort Aggregate Text Rows StatsPipe Pipes Pipeline Distributed.
From stdpp Require Import list gmap sorting.
Local Open Scope Z_scope.

(** ** Definitions *)

(** The time a row is merged by: the one on its line, 0 when it has none. *)
Definition row_stamp (r : Row) : Z := if row_NoTime r then 0 else row_Time r.
Definition stamp_key (newest : bool) (r : Row) : Z := if newest then - row_stamp r else row_stamp r.
(** The rows of the shards as a coordinator orders them: by time, those of one
    time in the order of the shards. *)
Definition merged (newest : bool) (shards : list (list Row)) : list Row := stable_sort (key_less (stamp_key newest)) (concat shards).
Definition bound (n : Z) (rows : list Row) : list Row := if bool_decide (0 < n) then take (Z.to_nat n) rows else rows.
Definition bounded_by (limit : Z) (pipes : list Pipe) : Z := if bool_decide (0 < limit) && limitBoundsOutput pipes then limit else 0.

Section local.
Context {T : GoText} {P : GoPipes} {R : MapRange}.

(** What a row-local pipe makes of one row. *)
Definition local_rows (p : Pipe) (r : Row) : list Row :=
  match p with
  | FilterPipe e => if matchRow r e then [r] else []
  | UnrollPipe field => unroll_row field r
  | _ => option_list (rewrite_row p r)
  end.
Definition local_all (ps : list Pipe) (rows : list Row) : list Row := foldl (λ rows p, concat (local_rows p <$> rows)) rows ps.
(** The pipes one after the other. *)
Fixpoint apply_each (maxKeys : Z) (sec : spec_float) (ps : list Pipe) (rows : list Row) : option (list Row) :=
  match ps with
  | [] => Some rows
  | p :: ps' => match Pipes.apply p maxKeys sec rows with Some out => apply_each maxKeys sec ps' out | None => None end
  end.

(** ** The classification is sound *)

Lemma filter_concat {A} (f : A → bool) l : List.filter f l = concat ((λ x, if f x then [x] else []) <$> l).
Proof. induction l as [|x l IH]; [done|]. cbn. rewrite IH. by destruct (f x). Qed.
Lemma omap_concat {A B} (f : A → option B) l : omap f l = concat ((λ x, option_list (f x)) <$> l).
Proof. induction l as [|x l IH]; [done|]. cbn. rewrite IH. by destruct (f x). Qed.

Lemma local_apply p maxKeys sec rows :
  ClassifyPipe p = PipeRowLocal → Pipes.apply p maxKeys sec rows = Some (concat (local_rows p <$> rows)).
Proof.
  destruct p; cbn [ClassifyPipe]; try done; intros H; cbn [Pipes.apply local_rows]; unfold filter_apply, unroll_apply;
    rewrite ?omap_concat, ?filter_concat; try done.
  by destruct (mergeableAggs (st_Aggs sp)).
Qed.
Lemma apply_each_local maxKeys sec ps rows :
  Forall (λ p, ClassifyPipe p = PipeRowLocal) ps → apply_each maxKeys sec ps rows = Some (local_all ps rows).
Proof.
  intros H. revert rows. induction H as [|p ps Hp _ IH]; intros rows; [done|]. cbn. rewrite local_apply by done. apply IH.
Qed.

(** A row of the scan carries its time. *)
Definition timed (r : Row) : Prop := row_NoTime r = false.
Definition same_time (r r' : Row) : Prop := row_Time r' = row_Time r ∧ row_NoTime r' = row_NoTime r.
Lemma same_time_set r k v : same_time r (setRowField r k v).
Proof. done. Qed.
Lemma same_time_trans r1 r2 r3 : same_time r1 r2 → same_time r2 r3 → same_time r1 r3.
Proof. intros [? ?] [? ?]. split; congruence. Qed.
Lemma same_time_foldl {A} (f : Row → A → Row) l r : (∀ r x, same_time r (f r x)) → same_time r (foldl f r l).
Proof.
  intros Hf. revert r. induction l as [|x l IH]; intros r; [done|]. cbn. eapply same_time_trans; [apply Hf|apply IH].
Qed.
Lemma same_time_extract toks src r : same_time r (extract_loop toks src r).
Proof.
  revert src r. induction toks as [|t toks IH]; intros src r; [done|]. cbn [extract_loop]. case_bool_decide.
  - destruct (Index src (tok_lit t)); [apply IH|done].
  - case_bool_decide; [eapply same_time_trans; [apply same_time_set|apply IH]|].
    destruct (Index _ _); [eapply same_time_trans; [apply same_time_set|apply IH]|apply same_time_set].
Qed.
Lemma same_time_groups names groups r : same_time r (set_groups names groups r).
Proof.
  revert groups r. induction names as [|n names IH]; intros [|g groups] r; try done. cbn.
  eapply same_time_trans; [|apply IH]. by case_bool_decide.
Qed.
#[local] Hint Resolve same_time_set same_time_extract same_time_groups : core.

Lemma rewrite_keeps p r r' : stripsTime p = false → timed r → rewrite_row p r = Some r' → same_time r r'.
Proof.
  intros Hs Ht. unfold timed in Ht.
  destruct p; cbn [rewrite_row]; intros Hr; try discriminate; unfold replace_row, extract_row, extract_regexp_row, decolorize_row, unpack_json_row in *;
    try (repeat case_match; simplify_eq; by auto);
    try (injection Hr as <-; apply same_time_foldl; intros; apply same_time_set).
  - injection Hr as <-. split; [done|]. cbn in Hs |- *. by rewrite Ht, Hs.
  - injection Hr as <-. split; [done|]. cbn in Hs |- *. by rewrite Ht, Hs.
  - injection Hr as <-. case_match; [|done]. apply same_time_foldl. intros. apply same_time_set.
Qed.
Lemma pushed_keeps p r r' : pushed p = true → timed r → r' ∈ local_rows p r → timed r' ∧ row_stamp r' = row_stamp r.
Proof.
  unfold pushed. rewrite andb_true_iff, bool_decide_eq_true, negb_true_iff. intros [Hc Hs] Ht Hin.
  assert (same_time r r') as [H1 H2]; [|unfold timed, row_stamp in *; by rewrite H1, H2].
  assert (∀ r'', rewrite_row p r = Some r'' → same_time r r'') as Hrw by (intros; by eapply rewrite_keeps).
  assert (r' ∈ option_list (rewrite_row p r) → same_time r r') as Hopt.
  { destruct (rewrite_row p r); [|by intros ?%not_elem_of_nil]. intros ->%list_elem_of_singleton. by apply Hrw. }
  destruct p; try done; try (by apply Hopt); cbn [local_rows] in Hin.
  - destruct (matchRow r expr); [|by apply not_elem_of_nil in Hin]. by apply list_elem_of_singleton in Hin as ->.
  - unfold unroll_row in Hin. destruct (unrollValues _); [by apply list_elem_of_singleton in Hin as ->|].
    apply list_elem_of_fmap in Hin as (e & -> & _). split; [done|]. by rewrite Ht.
Qed.
Lemma one_row p r : ClassifyPipe p = PipeRowLocal → ChangesRowCount p = false → ∃ r', local_rows p r = [r'].
Proof.
  destruct p; try done; intros _ _; cbn [local_rows rewrite_row]; repeat case_match; by eexists.
Qed.

(** ** Pushing the prefix *)

Definition timed_all (rows : list Row) : Prop := Forall timed rows.
Lemma local_all_cons p ps rows : local_all (p :: ps) rows = local_all ps (concat (local_rows p <$> rows)).
Proof. done. Qed.
Lemma local_all_timed ps rows : Forall (λ p, pushed p = true) ps → timed_all rows → timed_all (local_all ps rows).
Proof.
  intros H. revert rows. induction H as [|p ps Hp _ IH]; intros rows Hr; [done|]. rewrite local_all_cons. apply IH. apply Forall_concat, Forall_fmap.
  eapply Forall_impl; [exact Hr|]. intros r Ht. apply Forall_forall. intros r' Hr'. by apply (pushed_keeps p r r' Hp Ht).
Qed.
Lemma local_all_app ps a b : local_all ps (a ++ b) = local_all ps a ++ local_all ps b.
Proof. revert a b. induction ps as [|p ps IH]; intros a b; [done|]. by rewrite !local_all_cons, fmap_app, concat_app, IH. Qed.
Lemma local_all_concat ps rows : local_all ps (concat rows) = concat (local_all ps <$> rows).
Proof.
  induction rows as [|r rows IH]; cbn [concat fmap list_fmap]; [|by rewrite local_all_app, IH].
  induction ps as [|p ps IH]; [done|]. exact IH.
Qed.
(** The pushed pipes commute with the merge. *)
Lemma local_all_merged newest ps shards :
  Forall (λ p, pushed p = true) ps → Forall timed_all shards → local_all ps (merged newest shards) = merged newest (local_all ps <$> shards).
Proof.
  intros Hps Hs. unfold merged. rewrite <- local_all_concat. assert (timed_all (concat shards)) as Ht by by apply Forall_concat.
  revert Ht. generalize (concat shards). clear Hs shards. induction Hps as [|p ps Hp _ IH]; intros rows Ht; [done|]. rewrite !local_all_cons.
  rewrite <- IH by (apply (local_all_timed [p]); [by constructor|done]). f_equal. symmetry. apply sort_expand.
  eapply Forall_impl; [exact Ht|]. intros r Hr. apply Forall_forall. intros r' Hr'. unfold stamp_key.
  destruct (pushed_keeps p r r' Hp Hr Hr') as [_ ->]. done.
Qed.
(** One-to-one pipes commute with the bound. *)
Lemma local_all_bound n ps rows :
  Forall (λ p, ClassifyPipe p = PipeRowLocal ∧ ChangesRowCount p = false) ps → local_all ps (bound n rows) = bound n (local_all ps rows).
Proof.
  intros H. revert rows. induction H as [|p ps [Hp Hc] _ IH]; intros rows; [done|]. rewrite !local_all_cons.
  rewrite <- IH. f_equal. unfold bound. case_bool_decide; [|done]. generalize (Z.to_nat n). intros k. clear IH. revert k.
  induction rows as [|r rows IH]; intros [|k]; try done. cbn. destruct (one_row p r Hp Hc) as [r' ->]. cbn. by rewrite IH.
Qed.

(** ** The coordinator *)

Lemma apply_loop_local clock n lim q ps1 ps2 rows out :
  Forall (λ p, ClassifyPipe p = PipeRowLocal) ps1 →
  apply_loop clock n lim q (ps1 ++ ps2) rows None = (Some out, None) →
  apply_loop clock (n + 2 * length ps1) lim q ps2 (local_all ps1 rows) None = (Some out, None).
Proof.
  intros H. revert n rows. induction H as [|p ps Hp _ IH]; intros n rows; cbn [app apply_loop].
  - cbn. by rewrite Nat.add_0_r.
  - destruct (exceeded _ _ _); [done|]. destruct (store_aware p); [done|]. rewrite local_apply by done.
    destruct (if countsBytes q then _ else _); [done|]. case_bool_decide; [done|]. rewrite bool_decide_false by (intros Hx; by apply Hx).
    intros Ha. apply IH in Ha. cbn [length]. rewrite local_all_cons. by replace (n + 2 * S (length ps))%nat with (S (S n) + 2 * length ps)%nat by lia.
Qed.
Lemma apply_loop_clock clock clock' n m lim q ps rows reason :
  (∀ i, clock (n + i)%nat = clock' (m + i)%nat) → apply_loop clock n lim q ps rows reason = apply_loop clock' m lim q ps rows reason.
Proof.
  revert n m rows reason. induction ps as [|p ps IH]; intros n m rows reason H; [done|]. cbn [apply_loop].
  pose proof (H 0%nat) as H0. rewrite !Nat.add_0_r in H0. pose proof (H 1%nat) as H1. rewrite !Nat.add_1_r in H1. rewrite H0, H1.
  destruct (exceeded _ _ _); [done|]. destruct (store_aware p); [done|]. destruct (Pipes.apply _ _ _ _) as [out|]; [|done].
  destruct (if countsBytes q then _ else _); [done|]. case_bool_decide; [done|]. case_bool_decide; [done|].
  apply IH. intros i. specialize (H (S (S i))). by rewrite !Nat.add_succ_r in H.
Qed.

Lemma plan_split_spec ps : (plan_split ps).1 ++ (plan_split ps).2 = ps ∧ Forall (λ p, pushed p = true) (plan_split ps).1.
Proof.
  induction ps as [|p ps [IH1 IH2]]; [done|]. cbn [plan_split]. destruct (pushed p) eqn:E; [|done]. cbn. split; [by f_equal|by constructor].
Qed.
Lemma pushed_local ps : Forall (λ p, pushed p = true) ps → Forall (λ p, ClassifyPipe p = PipeRowLocal) ps.
Proof. intros H. eapply Forall_impl; [exact H|]. intros p. unfold pushed. rewrite andb_true_iff, bool_decide_eq_true. by intros [? _]. Qed.
Lemma one_to_one_all ps : Forall (λ p, pushed p = true) ps → one_to_one ps = length ps → Forall (λ p, ClassifyPipe p = PipeRowLocal ∧ ChangesRowCount p = false) ps.
Proof.
  intros H. induction (pushed_local ps H) as [|p ps Hp Hps IH]; [constructor|]. inversion H; subst. cbn [one_to_one length].
  destruct (ChangesRowCount p) eqn:E; [done|]. intros [= Hl]. constructor; [done|]. by apply IH.
Qed.

Lemma shards_run ps shards shards' keys sec :
  Forall (λ p, pushed p = true) ps → Forall2 (λ rows rows', apply_each keys sec ps rows = Some rows') shards shards' → shards' = local_all ps <$> shards.
Proof.
  intros Hps. induction 1 as [|rows rows' shards shards' Hr _ IH]; [done|]. rewrite apply_each_local in Hr by by apply pushed_local.
  injection Hr as <-. by rewrite fmap_cons, <- IH.
Qed.

(** C8: The rows a cluster answers a query with are those its whole pipeline gives
    over the rows of all shards in time order: the shards run the pipes whose text
    [planQuery] sends them, the coordinator merges by time, takes the newest rows
    when the endpoint's limit bounds the scan, and runs the pipes that are left;
    if the whole pipeline over the merged rows is answered then so is this, with
    the same rows. Every row carries its time, and one of three holds: no limit bounds
    the scan, or no pipe is pushed, or every pipe that can run on a shard is. Where a
    limit leaves only some of them pushed the statement is false, as
    [pushed_prefix_runs_twice] of PipeWitnesses evaluates. *)
Theorem plan_exact parse raw limit pipes sq coord shards shards' keys sec clock lim q out :
  parse raw = Some pipes → planQuery parse raw limit = inr (sq, coord) →
  Forall timed_all shards →
  let b := bounded_by limit pipes in
  let shard := ShardPipes (PlanDistributed pipes) in
  let k := push_count limit pipes shard in
  b = 0 ∨ k = 0%nat ∨ k = length shard →
  Forall2 (λ rows rows', apply_each keys sec (take k pipes) rows = Some rows') shards shards' →
  ApplyPipes clock lim q pipes (bound b (merged (bool_decide (0 < b)) shards)) = (Some out, None) →
  sq = default [] (head (pipeSegments raw)) ++ concat ((λ s, s_pipe ++ s) <$> take k (tail (pipeSegments raw))) ∧
  ∃ n, ApplyPipes (λ i, clock (n + i)%nat) lim q coord (bound b (merged (bool_decide (0 < b)) shards')) = (Some out, None).
Proof.
  intros Hparse Hplan. unfold planQuery in Hplan. rewrite Hparse in Hplan.
  case_bool_decide; [done|]. destruct (Reject _); [done|]. case_bool_decide; [done|].
  intros Hs b shard k Hk Hrun Hall.
  destruct (plan_split_spec pipes) as [Hsplit Hpush]. change ((plan_split pipes).1) with shard in *.
  fold shard in Hplan. fold k in Hplan. injection Hplan as <- <-. split; [done|].
  assert (k = length shard ∨ k = 0%nat ∧ (0 < length shard)%nat) as [Hkl|[Hk0 Hl]].
  { unfold k, push_count in *. unfold b, bounded_by in Hk. destruct (bool_decide (0 < limit) && limitBoundsOutput pipes) eqn:E.
    - apply andb_true_iff in E as [E _]. apply bool_decide_eq_true in E. destruct Hk as [Hk|[Hk|Hk]]; [lia| |by left].
      destruct shard; [by left|]. right. cbn in *. split; [done|lia].
    - by left. }
  - rewrite bool_decide_false by lia.
    assert (take k pipes = shard) as Htake by (rewrite Hkl; rewrite <- Hsplit at 1; by rewrite take_app_length).
    rewrite Htake in Hrun. pose proof (shards_run _ _ _ _ _ Hpush Hrun) as ->.
    rewrite <- (local_all_merged _ _ _ Hpush Hs). exists (2 * length shard)%nat.
    assert (local_all shard (bound b (merged (bool_decide (0 < b)) shards)) = bound b (local_all shard (merged (bool_decide (0 < b)) shards))) as <-.
    { unfold bound. destruct (decide (0 < b)) as [Hb|Hb]; [|by rewrite bool_decide_false].
      pose proof (local_all_bound b shard) as Hlb. unfold bound in Hlb. rewrite (bool_decide_true (0 < b)) in * by done. apply Hlb, one_to_one_all; [done|].
      unfold k, push_count in Hkl. unfold b, bounded_by in Hb. destruct (bool_decide (0 < limit) && limitBoundsOutput pipes); [done|lia]. }
    rewrite <- Hsplit in Hall at 1. unfold ApplyPipes in *. apply apply_loop_local in Hall; [|by apply pushed_local].
    rewrite (apply_loop_clock _ clock 0 (2 * length shard)) by done. exact Hall.
  - rewrite bool_decide_true by lia. rewrite Hk0 in Hrun. cbn in Hrun. exists 0%nat.
    assert (shards' = shards) as ->; [|exact Hall].
    clear -Hrun. induction Hrun as [|rows rows' shards shards' Hr _ IH]; [done|]. injection Hr as ->. by f_equal.
Qed.

(** [rejectReason] never refuses: no pipe a plan keeps on the shards
    aggregates, whatever the pipeline. *)
Theorem never_rejected pipes : Reject (PlanDistributed pipes) = None.
Proof.
  destruct (plan_split_spec pipes) as [_ H]. cbn. induction (pushed_local _ H) as [|p ps Hp _ IH]; [done|].
  inversion H; subst. destruct p; try (by apply IH). cbn in Hp. by destruct (mergeableAggs (st_Aggs sp)).
Qed.
End local.
