(* ===== verification/Rfc3339.v ===== *)
(** * The text of an instant

    [fastRFC3339Nano] of [internal/api/cluster.go] reads the time of every merged
    row with a parser of its own. The text of an instant is spelled out here, on
    the proleptic Gregorian calendar, and the parser is exact on it
    ([fast_exact]); beyond the years it refuses it gives no answer, never a wrong
    one. *)

From Stdlib Require Import SpecFloat.
From S2P Require Import Prelude Digits GoLib Kernels Writer Filter Engine TimeFilter Text Rows Pipes Pipeline Distributed Wire Cluster.
From stdpp Require Import list.
Local Open Scope Z_scope.

(** ** Definitions *)

(** The civil date of a day since the epoch, on 400-year eras of years that begin
    in March. *)
Record date := MkDate { dt_year : Z; dt_month : Z; dt_day : Z }.
Definition civil (day : Z) : date :=
  let z := day + 719468 in
  let doe := z mod 146097 in
  let yoe := (doe - doe / 1460 + doe / 36524 - doe / 146096) / 365 in
  let doy := doe - (365 * yoe + yoe / 4 - yoe / 100) in
  let mp := (5 * doy + 2) / 153 in
  let m := if bool_decide (mp < 10) then mp + 3 else mp - 9 in
  MkDate (yoe + z / 146097 * 400 + (if bool_decide (m ≤ 2) then 1 else 0)) m (doy - (153 * mp + 2) / 5 + 1).
Definition two (n : Z) : bytes := [48 + n / 10; 48 + n mod 10].
Definition four (n : Z) : bytes := two (n / 100) ++ two (n mod 100).
(** The digits of a fraction, the trailing zeros cut. *)
Fixpoint frac_text (k : nat) (n : Z) : bytes :=
  if bool_decide (n = 0) then [] else
  match k with O => [] | S k => (48 + n / 10 ^ Z.of_nat k) :: frac_text k (n mod 10 ^ Z.of_nat k) end.
(** [time.Unix(0, t).UTC().Format(time.RFC3339Nano)]. *)
Definition rfc3339 (t : Z) : bytes :=
  let s := t / 10 ^ 9 in
  let dt := civil (s / 86400) in
  let sec := s mod 86400 in
  let ns := t mod 10 ^ 9 in
  four (dt_year dt) ++ [45] ++ two (dt_month dt) ++ [45] ++ two (dt_day dt) ++ [84] ++ two (sec / 3600) ++ [58] ++ two (sec / 60 mod 60) ++ [58]
    ++ two (sec mod 60) ++ (if bool_decide (ns = 0) then [] else 46 :: frac_text 9 ns) ++ [90].

(** What a text of that shape says: the year, the second and the fraction. *)
Definition read_text (s : bytes) : option (Z * Z * Z) :=
  if bool_decide (len s < 20) || negb (byte_is s (length s - 1) 90) || negb (byte_is s 4 45) || negb (byte_is s 7 45)
     || negb (byte_is s 10 84) || negb (byte_is s 13 58) || negb (byte_is s 16 58) then None else
  match d2 s 0, d2 s 2, d2 s 5, d2 s 8, d2 s 11, d2 s 14, d2 s 17 with
  | Some y1, Some y2, Some mo, Some dy, Some hh, Some mi, Some ss =>
      if bool_decide (mo < 1 ∨ 12 < mo) then None else
      let year := y1 * 100 + y2 in
      let sec := civil_days year mo dy * 86400 + hh * 3600 + mi * 60 + ss in
      if bool_decide (20 < len s) then
        if negb (byte_is s 19 46) then None else
        match fraction (take (length s - 21) (drop 20 s)) 0 100000000 with Some f => Some (year, sec, f) | None => None end
      else Some (year, sec, 0)
  | _, _, _, _, _, _, _ => None
  end.
(** [time.Parse] of such a text. *)
Definition ref_Parse (s : bytes) : option Z := match read_text s with Some (_, sec, f) => Some (sec * 10 ^ 9 + f) | None => None end.
(** The documented behaviour of the time package on the texts of rows. *)
Class TimeText (T : GoText) (D : GoTime) : Prop := {
  Format_law t : is_i64 t → Format_RFC3339Nano t = rfc3339 t;
  Parse_law t : is_i64 t → time_Parse RFC3339Nano (rfc3339 t) = Some t }.

(** ** Lemmas *)

Lemma fast_read_text s :
  fastRFC3339Nano s = match read_text s with
    | Some (year, sec, f) => if bool_decide (year < 1678 ∨ 2261 < year) then None else Some (i64 (i64 (sec * 10 ^ 9) + f))
    | None => None
    end.
Proof.
  unfold fastRFC3339Nano, read_text. destruct (_ || _); [done|].
  destruct (d2 s 0) as [y1|], (d2 s 2) as [y2|], (d2 s 5) as [mo|], (d2 s 8) as [dy|], (d2 s 11) as [hh|], (d2 s 14) as [mi|], (d2 s 17) as [ss|];
    try done.
  destruct (bool_decide (mo < 1 ∨ 12 < mo)); [done|]. cbn zeta. destruct (bool_decide (20 < len s)).
  - destruct (negb _); [by destruct (bool_decide _)|]. destruct (fraction _ _ _); by destruct (bool_decide _).
  - rewrite Z.add_0_r. rewrite (i64_small (i64 _)) by apply i64_range. done.
Qed.
Lemma civil_ranges day :
  let dt := civil day in 1 ≤ dt_month dt ≤ 12 ∧ 1 ≤ dt_day dt ≤ 31.
Proof.
  unfold civil. cbn [dt_month dt_day dt_year]. set (z := day + 719468). set (doe := z mod 146097).
  assert (0 ≤ doe < 146097) as Hdoe by (apply Z.mod_pos_bound; lia). clearbody doe. clear z.
  set (yoe := (doe - doe / 1460 + doe / 36524 - doe / 146096) / 365).
  set (doy := doe - (365 * yoe + yoe / 4 - yoe / 100)).
  assert (0 ≤ doy ≤ 365) as Hdoy.
  { subst doy yoe. Z.to_euclidean_division_equations. lia. }
  clearbody doy. clear yoe.
  case_bool_decide; Z.to_euclidean_division_equations; lia.
Qed.

(** The days of a civil date are the day it is of. *)
Lemma civil_days_civil day :
  1 ≤ dt_year (civil day) → let dt := civil day in civil_days (dt_year dt) (dt_month dt) (dt_day dt) = day.
Proof.
  unfold civil, civil_days. cbn [dt_month dt_day dt_year]. set (z := day + 719468). set (doe := z mod 146097). set (era := z / 146097).
  assert (0 ≤ doe < 146097) as Hdoe by (apply Z.mod_pos_bound; lia).
  assert (z = era * 146097 + doe) as Hz by (subst era doe; pose proof (Z.div_mod z 146097); lia). clearbody doe era.
  set (yoe := (doe - doe / 1460 + doe / 36524 - doe / 146096) / 365).
  set (doy := doe - (365 * yoe + yoe / 4 - yoe / 100)).
  assert (0 ≤ yoe ≤ 399) as Hyoe.
  { subst yoe. Z.to_euclidean_division_equations. lia. }
  assert (0 ≤ doy ≤ 365) as Hdoy.
  { subst doy yoe. Z.to_euclidean_division_equations. lia. }
  assert (doe = doy + (365 * yoe + yoe / 4 - yoe / 100)) as Hdoe' by (subst doy; lia). clearbody doy yoe.
  set (mp := (5 * doy + 2) / 153). assert (0 ≤ mp ≤ 11) as Hmp by (subst mp; Z.to_euclidean_division_equations; lia). clearbody mp.
  set (m := if bool_decide (mp < 10) then mp + 3 else mp - 9).
  assert (Z.rem (m + 9) 12 = mp) as Hmp'.
  { subst m. case_bool_decide.
    - replace (mp + 3 + 9) with (mp + 1 * 12) by lia. rewrite Z.rem_mod_nonneg, Z.mod_add by lia. apply Z.mod_small. lia.
    - replace (mp - 9 + 9) with mp by lia. rewrite Z.rem_mod_nonneg by lia. apply Z.mod_small. lia. }
  clearbody m. intros Hyear.
  assert ((if bool_decide (m ≤ 2) then yoe + era * 400 + (if bool_decide (m ≤ 2) then 1 else 0) - 1
    else yoe + era * 400 + (if bool_decide (m ≤ 2) then 1 else 0)) = yoe + era * 400) as ->.
  { case_bool_decide; lia. }
  rewrite Hmp'. assert (0 ≤ era) as Hera. { destruct (bool_decide (m ≤ 2)); lia. }
  rewrite bool_decide_false by lia.
  rewrite !Z.quot_div_nonneg by lia.
  assert ((yoe + era * 400) / 400 = era) as -> by (Z.to_euclidean_division_equations; lia).
  replace (yoe + era * 400 - era * 400) with yoe by lia.
  rewrite !Z.quot_div_nonneg by lia. lia.
Qed.

(** *** Reading it back *)

Lemma in_range_digit d : 0 ≤ d ≤ 9 → in_range 48 57 (48 + d) = true.
Proof. intros H. unfold in_range. rewrite !bool_decide_true by lia. done. Qed.
Lemma two_digits n : 0 ≤ n < 100 → ∃ a b, two n = [48 + a; 48 + b] ∧ 0 ≤ a ≤ 9 ∧ 0 ≤ b ≤ 9 ∧ n = a * 10 + b.
Proof. intros H. exists (n / 10), (n mod 10). unfold two. split_and!; try done; Z.to_euclidean_division_equations; lia. Qed.
Lemma fraction_text k : ∀ n acc scale,
  0 ≤ n < 10 ^ Z.of_nat k → 10 * scale = 10 ^ Z.of_nat k ∨ n = 0 → fraction (frac_text k n) acc scale = Some (acc + n).
Proof.
  induction k as [|k IH]; intros n acc scale Hn Hs; cbn [frac_text].
  - change (10 ^ Z.of_nat 0) with 1 in Hn. rewrite bool_decide_true by lia. cbn. f_equal. lia.
  - case_bool_decide as E; [cbn; f_equal; lia|]. destruct Hs as [Hs|]; [|lia].
    replace (Z.of_nat (S k)) with (Z.of_nat k + 1) in * by lia. rewrite Z.pow_add_r in * by lia. change (10 ^ 1) with 10 in *.
    assert (0 < 10 ^ Z.of_nat k) as Hp by (apply Z.pow_pos_nonneg; lia). set (p := 10 ^ Z.of_nat k) in *.
    assert (scale = p) as -> by lia.
    pose proof (Z.div_mod n p ltac:(lia)) as Hdm. pose proof (Z.mod_pos_bound n p Hp) as Hm.
    assert (0 ≤ n / p ≤ 9) as Hd. { split; [apply Z.div_pos; lia|]. assert (n / p < 10); [|lia]. apply Z.div_lt_upper_bound; lia. }
    cbn [fraction]. rewrite in_range_digit by done. replace (48 + n / p - 48) with (n / p) by lia.
    rewrite (IH (n mod p)); [f_equal; lia|fold p; lia|].
    destruct k as [|k]; [right; subst p; cbn in *; Z.to_euclidean_division_equations; lia|]. left. fold p.
    subst p. replace (Z.of_nat (S k)) with (Z.of_nat k + 1) by lia. rewrite Z.pow_add_r by lia. change (10 ^ 1) with 10.
    rewrite Z.quot_div_nonneg by lia. rewrite Z.div_mul by lia. lia.
Qed.
Lemma frac_text_digits k n : 0 ≤ n < 10 ^ Z.of_nat k → Forall (λ c, 48 ≤ c ≤ 57) (frac_text k n).
Proof.
  revert n. induction k as [|k IH]; intros n Hn; cbn [frac_text]; case_bool_decide; try constructor.
  - replace (Z.of_nat (S k)) with (Z.of_nat k + 1) in * by lia. rewrite Z.pow_add_r in * by lia.
    assert (0 < 10 ^ Z.of_nat k) as Hp by (apply Z.pow_pos_nonneg; lia).
    assert (0 ≤ n / 10 ^ Z.of_nat k) by (apply Z.div_pos; lia). assert (n / 10 ^ Z.of_nat k < 10) by (apply Z.div_lt_upper_bound; lia). lia.
  - apply IH. apply Z.mod_pos_bound, Z.pow_pos_nonneg; lia.
Qed.

(** The parser on a text of the shape: the numbers it reads. *)
Lemma read_shape y1 y2 mo dy hh mi ss ns :
  0 ≤ y1 < 100 → 0 ≤ y2 < 100 → 1 ≤ mo ≤ 12 → 0 ≤ dy < 100 → 0 ≤ hh < 100 → 0 ≤ mi < 100 → 0 ≤ ss < 100 → 0 ≤ ns < 10 ^ 9 →
  read_text (two y1 ++ two y2 ++ [45] ++ two mo ++ [45] ++ two dy ++ [84] ++ two hh ++ [58] ++ two mi ++ [58] ++ two ss
    ++ (if bool_decide (ns = 0) then [] else 46 :: frac_text 9 ns) ++ [90])
  = Some (y1 * 100 + y2, civil_days (y1 * 100 + y2) mo dy * 86400 + hh * 3600 + mi * 60 + ss, ns).
Proof.
  intros Hy1 Hy2 Hmo Hdy Hhh Hmi Hss Hns.
  destruct (two_digits y1 Hy1) as (a1 & b1 & -> & ? & ? & ->). destruct (two_digits y2 Hy2) as (a2 & b2 & -> & ? & ? & ->).
  destruct (two_digits mo ltac:(lia)) as (a3 & b3 & -> & ? & ? & ->). destruct (two_digits dy Hdy) as (a4 & b4 & -> & ? & ? & ->).
  destruct (two_digits hh Hhh) as (a5 & b5 & -> & ? & ? & ->). destruct (two_digits mi Hmi) as (a6 & b6 & -> & ? & ? & ->).
  destruct (two_digits ss Hss) as (a7 & b7 & -> & ? & ? & ->).
  set (fr := if bool_decide (ns = 0) then [] else 46 :: frac_text 9 ns). cbn [app].
  set (s := 48 + a1 :: _).
  assert (length s = 20 + length fr)%nat as Hlen. { unfold s. cbn [length]. rewrite length_app. cbn. lia. }
  assert (∃ p, s = p ++ [90] ∧ length p = (19 + length fr)%nat) as (p & Hp & Hpl).
  { eexists (48 + a1 :: 48 + b1 :: 48 + a2 :: 48 + b2 :: 45 :: 48 + a3 :: 48 + b3 :: 45 :: 48 + a4 :: 48 + b4 :: 84 :: 48 + a5 :: 48 + b5
      :: 58 :: 48 + a6 :: 48 + b6 :: 58 :: 48 + a7 :: 48 + b7 :: fr). split; [done|]. cbn. lia. }
  unfold read_text. rewrite (bool_decide_false (len s < 20)) by (unfold len; lia).
  assert (byte_is s (length s - 1) 90 = true) as ->.
  { unfold byte_is. apply bool_decide_eq_true. rewrite Hp, length_app, lookup_app_r by (cbn; lia). cbn.
    by replace (length p + 1 - 1 - length p)%nat with 0%nat by lia. }
  assert (drop 20 s = tail (fr ++ [90])) as Hdrop. { unfold s. cbn. by destruct (fr ++ [90]). }
  assert (s !! 19%nat = head (fr ++ [90])) as H19. { unfold s. cbn. by destruct (fr ++ [90]). }
  assert (∀ i a b, s !! i = Some (48 + a) → s !! S i = Some (48 + b) → 0 ≤ a ≤ 9 → 0 ≤ b ≤ 9 → d2 s i = Some (a * 10 + b)) as Hd2.
  { intros i a b Ha Hb Hra Hrb. unfold d2, digit_at. rewrite Ha, Hb. rewrite !in_range_digit by done. f_equal. lia. }
  rewrite (Hd2 0%nat a1 b1), (Hd2 2%nat a2 b2), (Hd2 5%nat a3 b3), (Hd2 8%nat a4 b4), (Hd2 11%nat a5 b5), (Hd2 14%nat a6 b6), (Hd2 17%nat a7 b7) by done.
  assert (byte_is s 4 45 = true ∧ byte_is s 7 45 = true ∧ byte_is s 10 84 = true ∧ byte_is s 13 58 = true ∧ byte_is s 16 58 = true) as (-> & -> & -> & -> & ->).
  { unfold byte_is. split_and!; by apply bool_decide_eq_true. }
  cbn [negb orb]. rewrite (bool_decide_false (_ < 1 ∨ _)) by lia.
  destruct (decide (ns = 0)) as [Ens|Ens].
  - assert (fr = []) as Hfr by (unfold fr; by rewrite bool_decide_true). rewrite Hfr in Hlen. change (length []) with 0%nat in Hlen. rewrite bool_decide_false by (unfold len; lia). by subst ns.
  - assert (fr = 46 :: frac_text 9 ns) as Hfr by (unfold fr; by rewrite bool_decide_false). rewrite Hfr in Hlen, H19, Hdrop.
    change (length (46 :: frac_text 9 ns)) with (S (length (frac_text 9 ns))) in Hlen. rewrite bool_decide_true by (unfold len; lia). unfold byte_is. rewrite H19. cbn [head app].
    rewrite bool_decide_true by done. cbn [negb]. rewrite Hdrop. cbn [tail app]. rewrite Hlen, take_app_le by lia.
    rewrite take_ge by lia. rewrite (fraction_text 9); [by rewrite Z.add_0_l|done|by left].
Qed.

Definition year_of (t : Z) : Z := dt_year (civil (t / 10 ^ 9 / 86400)).
Lemma year_range t : is_i64 t → 1600 ≤ year_of t ≤ 2400.
Proof.
  unfold is_i64, year_of. intros Ht. assert (-106752 ≤ t / 10 ^ 9 / 86400 ≤ 106751) as Hd by (Z.to_euclidean_division_equations; lia).
  revert Hd. generalize (t / 10 ^ 9 / 86400). intros day Hd. unfold civil. cbn [dt_year].
  set (z := day + 719468). set (doe := z mod 146097). set (era := z / 146097).
  set (yoe := (doe - doe / 1460 + doe / 36524 - doe / 146096) / 365).
  assert (0 ≤ doe < 146097) as Hdoe by (apply Z.mod_pos_bound; lia).
  assert (day + 719468 = era * 146097 + doe) as Hz by (subst era doe z; pose proof (Z.div_mod (day + 719468) 146097); lia). clearbody doe era.
  assert (0 ≤ yoe ≤ 399) as Hy by (subst yoe; Z.to_euclidean_division_equations; lia). clearbody yoe.
  set (m := if bool_decide (_ < 10) then _ else _). assert (0 ≤ (if bool_decide (m ≤ 2) then 1 else 0) ≤ 1) as Hm by (case_bool_decide; lia). lia.
Qed.

Lemma rfc3339_shape t :
  let s := t / 10 ^ 9 in let dt := civil (s / 86400) in let sec := s mod 86400 in
  rfc3339 t = two (dt_year dt / 100) ++ two (dt_year dt mod 100) ++ [45] ++ two (dt_month dt) ++ [45] ++ two (dt_day dt) ++ [84] ++ two (sec / 3600)
    ++ [58] ++ two (sec / 60 mod 60) ++ [58] ++ two (sec mod 60) ++ (if bool_decide (t mod 10 ^ 9 = 0) then [] else 46 :: frac_text 9 (t mod 10 ^ 9)) ++ [90].
Proof. cbn zeta. unfold rfc3339, four. by rewrite <- !app_assoc. Qed.

Lemma read_rfc3339 t :
  is_i64 t → read_text (rfc3339 t) = Some (year_of t, t / 10 ^ 9, t mod 10 ^ 9).
Proof.
  intros Ht. pose proof (year_range t Ht) as Hy. rewrite rfc3339_shape. cbn zeta. unfold year_of in *.
  set (day := t / 10 ^ 9 / 86400) in *. set (sec := (t / 10 ^ 9) mod 86400).
  assert (0 ≤ sec < 86400) as Hsec by (apply Z.mod_pos_bound; lia).
  assert (0 ≤ t mod 10 ^ 9 < 10 ^ 9) as Hns by (apply Z.mod_pos_bound; lia).
  destruct (civil_ranges day) as [Hm Hd]. pose proof (civil_days_civil day ltac:(lia)) as Hdays. cbn zeta in Hdays.
  set (y := dt_year (civil day)) in *.
  rewrite read_shape by (first [done|lia|Z.to_euclidean_division_equations; lia]).
  replace (y / 100 * 100 + y mod 100) with y by (pose proof (Z.div_mod y 100); lia). rewrite Hdays. do 3 f_equal.
  pose proof (Z.div_mod (t / 10 ^ 9) 86400 ltac:(lia)) as Hdm. fold day sec in Hdm. clearbody day sec. Z.to_euclidean_division_equations. lia.
Qed.

Lemma fast_rfc3339 t :
  is_i64 t → fastRFC3339Nano (rfc3339 t) = if bool_decide (1678 ≤ year_of t ≤ 2261) then Some t else None.
Proof.
  intros Ht. rewrite fast_read_text, read_rfc3339 by done.
  destruct (decide (1678 ≤ year_of t ≤ 2261)); [rewrite bool_decide_false, bool_decide_true by lia|by rewrite bool_decide_true, bool_decide_false by lia].
  f_equal. rewrite i64_add_l. rewrite <- (i64_small t) at 3 by done. f_equal. pose proof (Z.div_mod t (10 ^ 9) ltac:(lia)). lia.
Qed.

(** C39: The router's own parser of timestamps reads every instant a row can carry
    back to the nanosecond from its text, for the years 1678 to 2261; of the days
    of the storable range outside those years it gives no answer, so the caller's
    fallback decides, and never a wrong one. *)
Theorem fast_exact t :
  is_i64 t → fastRFC3339Nano (rfc3339 t) = if bool_decide (1678 ≤ year_of t ≤ 2261) then Some t else None.
Proof. apply fast_rfc3339. Qed.
(** The law of [time.Parse] can be met. *)
Lemma ref_Parse_law t : is_i64 t → ref_Parse (rfc3339 t) = Some t.
Proof. intros Ht. unfold ref_Parse. rewrite read_rfc3339 by done. f_equal. pose proof (Z.div_mod t (10 ^ 9) ltac:(lia)). lia. Qed.

(** The text is digits and separators. *)
Lemma two_plain n : 0 ≤ n < 100 → Forall (λ c, 45 ≤ c ≤ 90) (two n).
Proof. intros H. destruct (two_digits n H) as (a & b & -> & ? & ? & _). repeat constructor; lia. Qed.
Lemma rfc3339_plain t : is_i64 t → Forall (λ c, 45 ≤ c ≤ 90) (rfc3339 t).
Proof.
  intros Ht. pose proof (year_range t Ht) as Hy. rewrite rfc3339_shape. cbn zeta. unfold year_of in Hy.
  set (day := t / 10 ^ 9 / 86400) in *. set (sec := (t / 10 ^ 9) mod 86400).
  assert (0 ≤ sec < 86400) as Hsec by (apply Z.mod_pos_bound; lia).
  destruct (civil_ranges day) as [Hm Hd].
  repeat (apply Forall_app; split); try (repeat constructor; lia); try (apply two_plain; first [lia|Z.to_euclidean_division_equations; lia]).
  case_bool_decide; [constructor|]. constructor; [lia|]. eapply Forall_impl; [apply frac_text_digits, Z.mod_pos_bound; lia|]. cbn. lia.
Qed.
