(* ===== verification/WireOk.v ===== *)
(** * A row survives the wire

    What a storage node writes for a row is one line, it is recognised as a row,
    and the coordinator's scanner reads the same row back: every byte of every key
    and value, in order, with the row's time ([row_roundtrip]). *)

From Stdlib Require Import SpecFloat.
From S2P Require Import Prelude Digits GoLib Kernels Indices Timestamps DictSection DictLayout Postings Bloom Group Bitset Select.
From S2P Require Import Reader ReaderSafe ReaderOk Table Writer Filter Engine TimeFilter Scan Aggregate Text Rows StatsPipe Pipes Pipeline Distributed.
From S2P Require Import Wire Cluster Rfc3339.
From stdpp Require Import list.
Local Open Scope Z_scope.

(** ** Definitions *)

(** The row a line is read back as, pair by pair. *)
Definition sent_pairs {T : GoText} (r : Row) (withStream : bool) : list (bytes * bytes) :=
  (if row_NoTime r then [] else [(s_time, formatTime (row_Time r))]) ++ row_pairs r withStream.
Definition received {T : GoText} {D : GoTime} (pairs : list (bytes * bytes)) : Row := foldl (λ r kv, add_pair r kv.1 kv.2) (MkRow 0 [] true) pairs.
(** Keys and values are bytes. *)
Definition pair_bytes (kv : bytes * bytes) : Prop := is_bytes kv.1 ∧ is_bytes kv.2.
Definition row_bytes (r : Row) : Prop := Forall pair_bytes (row_Fields r) ∧ is_i64 (row_Time r).

(** ** A string *)

Lemma json_byte_plain c : is_plain c = true → json_byte c = [c].
Proof.
  unfold is_plain, json_byte. rewrite !andb_true_iff, !negb_true_iff, !bool_decide_eq_false, bool_decide_eq_true. intros [[? ?] ?].
  by rewrite !bool_decide_false by lia.
Qed.
Lemma json_byte_escape c : 0 ≤ c → is_plain c = false → ∃ e, json_byte c = 92 :: e ∧ Forall (λ x, 47 < x < 123 ∨ x = 34) e ∧ (∀ rest acc,
  unescape_loop 0 (92 :: e ++ rest) acc = unescape_loop 0 rest (acc ++ [c])).
Proof.
  intros H0. unfold is_plain. rewrite !andb_false_iff, !negb_false_iff, !bool_decide_eq_true, bool_decide_eq_false. intros Hc.
  unfold json_byte. case_bool_decide as E1; [subst; by exists [34]; split_and!; [|repeat constructor; lia|]|].
  case_bool_decide as E2; [subst; by exists [92]; split_and!; [|repeat constructor; lia|]|].
  rewrite bool_decide_true by lia. eexists. split; [done|].
  assert (c ∈ seqZ 0 32) as Hin by (apply elem_of_seqZ; lia). clear -Hin. revert Hin.
  assert (Forall (λ c, Forall (λ x, 47 < x < 123 ∨ x = 34) [117; 48; 48; hexdig (Z.shiftr c 4); hexdig (Z.land c 15)] ∧ (∀ rest acc,
    unescape_loop 0 (92 :: [117; 48; 48; hexdig (Z.shiftr c 4); hexdig (Z.land c 15)] ++ rest) acc = unescape_loop 0 rest (acc ++ [c]))) (seqZ 0 32)) as H;
    [|by rewrite Forall_forall in H; apply H].
  repeat (constructor; [split; [repeat constructor; vm_compute; by (left; split) || (left; done) || (right; done)|intros rest acc; reflexivity]|]). constructor.
Qed.
Lemma appendJSONString_cons c s : appendJSONString (c :: s) = json_byte c ++ appendJSONString s.
Proof. done. Qed.
Lemma unescape_plain c rest acc : is_plain c = true → unescape_loop 0 (c :: rest) acc = unescape_loop 0 rest (acc ++ [c]).
Proof.
  unfold is_plain. rewrite !andb_true_iff, !negb_true_iff, !bool_decide_eq_false, bool_decide_eq_true. intros [[? ?] ?].
  cbn [unescape_loop]. by rewrite (bool_decide_false (c = 34)), (bool_decide_false (c < 32)), (bool_decide_false (c = 92)) by lia.
Qed.
Lemma unescape_string s rest acc : is_bytes s → unescape_loop 0 (appendJSONString s ++ 34 :: rest) acc = Some (acc ++ s, rest).
Proof.
  intros H. revert acc. induction H as [|c s Hc _ IH]; intros acc; [cbn; by rewrite app_nil_r|].
  rewrite appendJSONString_cons, <- app_assoc. destruct (is_plain c) eqn:E.
  - rewrite json_byte_plain by done. cbn [app]. rewrite unescape_plain, IH by done. by rewrite <- app_assoc.
  - apply (proj1 (is_byte_lt c)) in Hc. destruct (json_byte_escape c ltac:(lia) E) as (e & -> & _ & He). cbn [app]. rewrite He, IH. by rewrite <- app_assoc.
Qed.
(** The text of a string starts with its plain bytes, then a backslash if more
    are left. *)
Lemma append_plain s : Forall (λ c, is_plain c = true) s → appendJSONString s = s.
Proof. induction 1 as [|c s Hc _ IH]; [done|]. rewrite appendJSONString_cons, json_byte_plain by done. by rewrite IH. Qed.
Lemma append_app a b : appendJSONString (a ++ b) = appendJSONString a ++ appendJSONString b.
Proof. unfold appendJSONString. by rewrite fmap_app, concat_app. Qed.
Lemma scan_string s rest : is_bytes s → scanJSONString (34 :: appendJSONString s ++ 34 :: rest) = Some (s, rest).
Proof.
  intros Hs. cbn [scanJSONString]. pose proof (span_app is_plain s) as Hap. pose proof (span_all is_plain s) as Hall.
  pose proof (span_head is_plain s) as Hhd. destruct (span is_plain s) as [a t]. cbn [fst snd] in *. subst s.
  apply Forall_app in Hs as [_ Ht]. rewrite append_app, (append_plain a), <- app_assoc by done. destruct t as [|c t].
  - change (appendJSONString []) with (@nil Z). cbn [app]. rewrite span_stop by done. by rewrite app_nil_r.
  - rewrite appendJSONString_cons. inversion Ht as [|? ? Hc Ht']; subst. apply (proj1 (is_byte_lt c)) in Hc.
    destruct (json_byte_escape c ltac:(lia) Hhd) as (e & -> & _ & He). rewrite <- app_assoc. cbn [app].
    rewrite span_stop by done. rewrite He, unescape_string by done. by rewrite <- app_assoc.
Qed.

(** ** A pair and an object *)

Lemma json_pair_text k v rest :
  json_pair (k, v) ++ rest = 34 :: appendJSONString k ++ 34 :: 58 :: 34 :: appendJSONString v ++ 34 :: rest.
Proof. unfold json_pair. cbn [fst snd app]. rewrite <- app_assoc. cbn [app]. by rewrite <- app_assoc. Qed.
Definition join_tail (pairs : list (bytes * bytes)) : bytes := concat ((λ kv, 44 :: json_pair kv) <$> pairs).
Lemma join_pairs kv pairs : strings_Join (json_pair <$> kv :: pairs) [44] = json_pair kv ++ join_tail pairs.
Proof.
  revert kv. induction pairs as [|kv' pairs IH]; intros kv; [cbn; by rewrite app_nil_r|]. rewrite fmap_cons.
  change (strings_Join (json_pair kv :: (json_pair <$> kv' :: pairs)) [44])
    with (json_pair kv ++ [44] ++ strings_Join (json_pair <$> kv' :: pairs) [44]). rewrite IH. done.
Qed.

Section received.
Context {T : GoText} {D : GoTime} {J : GoJSON}.

Lemma object_pair first k v rest fuel r :
  pair_bytes (k, v) →
  object_loop (S fuel) first ((if first then [] else [44]) ++ json_pair (k, v) ++ rest) r = object_loop fuel false rest (add_pair r k v).
Proof.
  intros [Hk Hv]. cbn [fst snd] in *. rewrite json_pair_text.
  assert (∀ c b, is_ws c = false → skipWS (c :: b) = c :: b) as Hws by (intros c b Hc; cbn; by rewrite Hc).
  assert (∀ x, scanJSONValue (34 :: x) = scanJSONString (34 :: x)) as Hval by done.
  destruct first; cbn [app object_loop]; rewrite Hws by reflexivity; rewrite bool_decide_false by done.
  - rewrite scan_string by done. rewrite (Hws 58), (Hws 34) by reflexivity. by rewrite Hval, scan_string.
  - rewrite bool_decide_true by done. rewrite (Hws 34) by reflexivity. rewrite bool_decide_false by done.
    rewrite scan_string by done. rewrite (Hws 58), (Hws 34) by reflexivity. by rewrite Hval, scan_string.
Qed.
Lemma object_tail pairs r fuel :
  Forall pair_bytes pairs → (length pairs < fuel)%nat →
  object_loop fuel false (join_tail pairs ++ [125]) r = Some (foldl (λ r kv, add_pair r kv.1 kv.2) r pairs).
Proof.
  intros H. revert r fuel. induction H as [|[k v] pairs Hp _ IH]; intros r [|fuel] Hf; cbn [length] in Hf; try lia; [done|].
  unfold join_tail. rewrite fmap_cons. cbn [concat]. rewrite <- app_assoc. fold (join_tail pairs).
  pose proof (object_pair false k v (join_tail pairs ++ [125]) fuel r Hp) as He. cbn [app] in He |- *. rewrite He. apply IH. lia.
Qed.

(** ** A row *)

Lemma last_value_bytes fs key : Forall pair_bytes fs → is_bytes (last_value fs key).
Proof.
  intros H. unfold last_value.
  assert (∀ acc, is_bytes acc → is_bytes (foldl (λ acc f, if bool_decide (f.1 = key ∧ f.2 ≠ []) then f.2 else acc) acc fs)) as Hf; [|apply Hf; constructor].
  induction H as [|f fs [Hk Hv] _ IH]; intros acc Ha; [done|]. cbn. apply IH. by case_bool_decide.
Qed.
Lemma StreamID_bytes s : is_bytes (StreamID s).
Proof.
  apply Forall_app. split; [apply Forall_replicate; apply is_byte_lt; lia|]. apply flat_hex_bytes, Forall_rev, digits_range. lia.
Qed.
Lemma pack_fields_bytes hs em fs : Forall pair_bytes fs → Forall pair_bytes (pack_fields hs em fs).
Proof.
  intros H. revert em. induction H as [|[k v] fs Hp _ IH]; intros em; [constructor|]. cbn [pack_fields].
  repeat case_match; try apply IH; by constructor.
Qed.

Context {L : TimeText T D}.
Lemma sent_bytes r ws : row_bytes r → Forall pair_bytes (sent_pairs r ws).
Proof.
  intros [Hf Ht]. unfold sent_pairs, row_pairs. repeat (apply Forall_app; split).
  - destruct (row_NoTime r); [constructor|]. constructor; [|constructor]. split; cbn [fst snd].
    + repeat constructor; apply is_byte_lt; lia.
    + unfold formatTime. rewrite Format_law by done. eapply Forall_impl; [by apply rfc3339_plain|]. intros c Hc. apply is_byte_lt. cbv beta in Hc. lia.
  - by apply pack_fields_bytes.
  - destruct ws; [|constructor]. unfold stream_pair.
    assert (∀ k, is_bytes (last_value (row_Fields r) k)) as Hl by (intros; by apply last_value_bytes).
    assert (is_bytes EmptyStream ∧ is_bytes s_stream ∧ is_bytes s_stream_id) as (He & Hs & Hi) by (split_and!; repeat constructor; apply is_byte_lt; lia).
    constructor; [split; [done|]; cbn; by case_bool_decide|]. constructor; [|constructor]. split; [done|]. cbn [snd].
    case_bool_decide; [apply StreamID_bytes|apply Hl].
Qed.
(** The line is the object of the sent pairs. *)
Lemma time_text_pair t : is_i64 t → time_text t = json_pair (s_time, formatTime t).
Proof.
  intros Ht. unfold time_text, json_pair, formatTime. cbn [fst snd]. rewrite Format_law, (append_plain (rfc3339 t)); [done| |done].
  eapply Forall_impl; [by apply rfc3339_plain|]. intros c Hc. cbv beta in Hc. unfold is_plain.
  rewrite !bool_decide_false, bool_decide_true by lia. done.
Qed.
Lemma row_text_pairs r ws : is_i64 (row_Time r) → row_text r ws = 123 :: strings_Join (json_pair <$> sent_pairs r ws) [44] ++ [125].
Proof.
  intros Ht. unfold row_text, sent_pairs. rewrite fmap_app. destruct (row_NoTime r); [done|]. by rewrite time_text_pair.
Qed.

Lemma add_pairs_timed t l acc : foldl (λ r kv, add_pair r kv.1 kv.2) (MkRow t acc false) l = MkRow t (acc ++ l) false.
Proof.
  revert acc. induction l as [|[k v] l IH]; intros acc; cbn [foldl fst snd]; [by rewrite app_nil_r|].
  unfold add_pair at 2. cbn [row_NoTime row_Fields row_Time]. rewrite andb_false_r, IH. by rewrite <- app_assoc.
Qed.

Lemma row_roundtrip_pairs r ws :
  row_bytes r →
  jsonLineToRow (row_text r ws) = received (sent_pairs r ws) ∧
  (row_NoTime r = false → received (sent_pairs r ws) = MkRow (row_Time r) (sent_pairs r ws) false).
Proof.
  intros Hr. pose proof (sent_bytes r ws Hr) as Hp. destruct Hr as [_ Ht]. split.
  - rewrite row_text_pairs by done. unfold jsonLineToRow. 
    assert (∀ x, skipWS (123 :: x) = 123 :: x) as -> by done. unfold received.
    destruct (sent_pairs r ws) as [|[k v] pairs] eqn:E; [done|]. rewrite join_pairs.
    inversion Hp as [|? ? Hkv Hps]; subst. rewrite <- app_assoc. cbn [length].
    pose proof (object_pair true k v (join_tail pairs ++ [125]) (length (json_pair (k, v) ++ join_tail pairs ++ [125])) (MkRow 0 [] true) Hkv) as He.
    cbn [app] in He. rewrite He. rewrite object_tail; [done|done|].
    rewrite !length_app. assert (length pairs ≤ length (join_tail pairs))%nat; [|cbn; lia].
    clear. induction pairs as [|kv pairs IH]; [done|]. unfold join_tail. rewrite fmap_cons. cbn [concat]. rewrite length_app.
    fold (join_tail pairs). cbn [length]. lia.
  - intros Hn. unfold sent_pairs. rewrite Hn. unfold received. cbn [app foldl fst snd].
    assert (add_pair (MkRow 0 [] true) s_time (formatTime (row_Time r)) = MkRow (row_Time r) [(s_time, formatTime (row_Time r))] false) as ->.
    { unfold add_pair. cbn [row_NoTime row_Fields]. assert (str_eqb s_time s_time = true) as -> by by apply bool_decide_eq_true_2.
      cbn [andb]. unfold formatTime. rewrite Format_law, Parse_law by done. cbn [app]. f_equal.
      unfold SatNanos, is_i64, MaxInt64, MinInt64 in *. by rewrite !bool_decide_false by lia. }
    apply add_pairs_timed.
Qed.

(** C19: What a storage node writes for a row is read back by the coordinator's
    scanner as that row: the pairs that were sent, in their order, every byte of
    every key and value unchanged, whatever escapes they needed; and a row that
    carries its time comes back with it. *)
Theorem row_roundtrip r ws :
  row_bytes r →
  jsonLineToRow (row_text r ws) = received (sent_pairs r ws) ∧
  (row_NoTime r = false → received (sent_pairs r ws) = MkRow (row_Time r) (sent_pairs r ws) false).
Proof. apply row_roundtrip_pairs. Qed.
End received.
