(* ===== verification/ClusterOk.v ===== *)
(** * The merge of the shards is one order by time

    The lines of the shards are recognised, dated by their rows' times and merged
    in one order, whatever the order the goroutines finished in: time, then shard,
    then the shard's own order ([merge_exact]). A limit pushed to shards that
    answer newest first is not felt behind the merge ([limit_pushed]). *)

From Stdlib Require Import SpecFloat.
From S2P Require Import Prelude Digits GoLib Kernels Indices Timestamps DictSection DictLayout Postings Bloom Group Bitset Select.
From S2P Require Import Reader ReaderSafe ReaderOk Table Writer Filter Engine TimeFilter Scan PagesOk KeySort Aggregate Text Rows StatsPipe Pipes Pipeline.
From S2P Require Import Distributed Wire Cluster DistributedOk Rfc3339 WireOk.
From stdpp Require Import list sorting.
Local Open Scope Z_scope.

(** ** A line *)

Lemma composite_plain s d rest :
  Forall (λ c, c ≠ 34 ∧ c ≠ 92) s → composite_loop false true d (s ++ rest) = composite_loop false true d rest.
Proof.
  induction 1 as [|c s [H1 H2] _ IH]; [done|]. cbn [app composite_loop]. by rewrite (bool_decide_false (c = 92)), (bool_decide_false (c = 34)) by done.
Qed.
Lemma composite_string s d rest : is_bytes s → composite_loop false true d (appendJSONString s ++ 34 :: rest) = composite_loop false false d rest.
Proof.
  induction 1 as [|c s Hc _ IH]; [done|]. rewrite appendJSONString_cons, <- app_assoc. apply (proj1 (is_byte_lt c)) in Hc.
  destruct (is_plain c) eqn:E.
  - rewrite json_byte_plain by done. rewrite composite_plain; [exact IH|]. constructor; [|constructor].
    unfold is_plain in E. rewrite !andb_true_iff, !negb_true_iff, !bool_decide_eq_false in E. tauto.
  - unfold json_byte in *. case_bool_decide; [exact IH|]. case_bool_decide; [exact IH|].
    unfold is_plain in E. rewrite !bool_decide_false in E by done. cbn [negb andb] in E. apply bool_decide_eq_false in E.
    rewrite bool_decide_true by lia. change ([92; 117; 48; 48; hexdig (Z.shiftr c 4); hexdig (Z.land c 15)] ++ appendJSONString s ++ 34 :: rest)
      with (92 :: 117 :: [48; 48; hexdig (Z.shiftr c 4); hexdig (Z.land c 15)] ++ appendJSONString s ++ 34 :: rest).
    change (composite_loop false true d ([48; 48; hexdig (Z.shiftr c 4); hexdig (Z.land c 15)] ++ appendJSONString s ++ 34 :: rest)
      = composite_loop false false d rest).
    rewrite composite_plain; [exact IH|].
    assert (c ∈ seqZ 0 32) as Hin by (apply elem_of_seqZ; lia). clear -Hin.
    assert (Forall (λ c, Forall (λ x, x ≠ 34 ∧ x ≠ 92) [48; 48; hexdig (Z.shiftr c 4); hexdig (Z.land c 15)]) (seqZ 0 32)) as H; [|by rewrite Forall_forall in H; apply H].
    repeat (constructor; [repeat constructor; vm_compute; congruence|]). constructor.
Qed.
Lemma composite_pair kv d rest : pair_bytes kv → composite_loop false false d (json_pair kv ++ rest) = composite_loop false false d rest.
Proof.
  destruct kv as [k v]. intros [Hk Hv]. cbn [fst snd] in *. rewrite json_pair_text.
  change (composite_loop false true d (appendJSONString k ++ 34 :: 58 :: 34 :: appendJSONString v ++ 34 :: rest) = composite_loop false false d rest).
  rewrite composite_string by done.
  change (composite_loop false true d (appendJSONString v ++ 34 :: rest) = composite_loop false false d rest). by apply composite_string.
Qed.
Lemma composite_tail pairs d rest : Forall pair_bytes pairs → composite_loop false false d (join_tail pairs ++ rest) = composite_loop false false d rest.
Proof.
  induction 1 as [|kv pairs Hp _ IH]; [done|]. unfold join_tail. rewrite fmap_cons. cbn [concat]. fold (join_tail pairs). rewrite <- app_assoc. cbn [app].
  change (composite_loop false false d (json_pair kv ++ join_tail pairs ++ rest) = composite_loop false false d rest). by rewrite composite_pair.
Qed.

Section lines.
Context {T : GoText} {D : GoTime} {L : TimeText T D}.

Lemma line_recognised r ws : row_bytes r → looksLikeJSONObject (row_text r ws) = true.
Proof.
  intros Hr. pose proof (sent_bytes r ws Hr) as Hp. destruct Hr as [_ Ht]. rewrite row_text_pairs by done. unfold looksLikeJSONObject.
  assert (∀ x, skipWS (123 :: x) = 123 :: x) as -> by done. unfold scanComposite.
  assert (∀ x, composite_loop false false 0 (123 :: x) = composite_loop false false 1 x) as -> by done.
  destruct Hp as [|kv pairs Hkv Hps]; [done|]. rewrite join_pairs, <- app_assoc, composite_pair, composite_tail by done. done.
Qed.

Lemma json_no_newline s : is_bytes s → Forall (λ c, c ≠ 10) (appendJSONString s).
Proof.
  induction 1 as [|c s Hc _ IH]; [constructor|]. rewrite appendJSONString_cons. apply Forall_app. split; [|exact IH].
  apply (proj1 (is_byte_lt c)) in Hc. destruct (is_plain c) eqn:E.
  - rewrite json_byte_plain by done. constructor; [|constructor]. intros ->. done.
  - destruct (json_byte_escape c ltac:(lia) E) as (e & -> & He & _). constructor; [done|]. eapply Forall_impl; [exact He|]. cbv beta. lia.
Qed.
Lemma pair_no_newline kv : pair_bytes kv → Forall (λ c, c ≠ 10) (json_pair kv).
Proof.
  intros [Hk Hv]. unfold json_pair. repeat (apply Forall_app; split); try (by apply json_no_newline); repeat constructor; lia.
Qed.
Lemma line_no_newline r ws : row_bytes r → Forall (λ c, c ≠ 10) (row_text r ws).
Proof.
  intros Hr. pose proof (sent_bytes r ws Hr) as Hp. destruct Hr as [_ Ht]. rewrite row_text_pairs by done. constructor; [lia|].
  apply Forall_app. split; [|repeat constructor; lia]. destruct Hp as [|kv pairs Hkv Hps]; [constructor|]. rewrite join_pairs.
  apply Forall_app. split; [by apply pair_no_newline|]. unfold join_tail. apply Forall_concat, Forall_fmap.
  eapply Forall_impl; [exact Hps|]. intros kv' H. constructor; [lia|by apply pair_no_newline].
Qed.
(** The time of a line is its row's. *)
Lemma line_time r ws : row_bytes r → timed r → rowLineTime (row_text r ws) = row_Time r.
Proof.
  intros [_ Ht] Hn. unfold rowLineTime, row_text. unfold timed in Hn. rewrite Hn. cbn [app].
  assert (∃ rest, strings_Join (time_text (row_Time r) :: (json_pair <$> row_pairs r ws)) [44] ++ [125]
    = time_key ++ rfc3339 (row_Time r) ++ 34 :: rest) as [rest ->].
  { unfold time_text, formatTime. rewrite Format_law by done.
    destruct (json_pair <$> row_pairs r ws) as [|p ps]; cbn [strings_Join]; unfold time_key; rewrite <- !app_assoc; cbn [app];
      (eexists; repeat f_equal; rewrite <- ?app_assoc; reflexivity). }
  assert (Index (123 :: time_key ++ rfc3339 (row_Time r) ++ 34 :: rest) time_key = Some 1%nat) as -> by reflexivity.
  cbn [length]. assert (∀ x, drop (1 + length time_key) (123 :: time_key ++ x) = x) as -> by reflexivity.
  rewrite IndexByte_app.
  2: { intros Hin. pose proof (rfc3339_plain (row_Time r) Ht) as Hp. rewrite Forall_forall in Hp. specialize (Hp 34 Hin). cbv beta in Hp. lia. }
  rewrite take_app_length. rewrite fast_rfc3339 by done. case_bool_decide; [done|]. rewrite Parse_law by done.
  unfold SatNanos, is_i64, MaxInt64, MinInt64 in *. by rewrite !bool_decide_false by lia.
Qed.
End lines.

(** ** The rows of the shards, numbered *)

Definition numbered : Type := Row * Z * Z.
Fixpoint number (shard n : Z) (rows : list Row) : list numbered :=
  match rows with [] => [] | r :: rows' => (r, shard, n) :: number shard (n + 1) rows' end.
Fixpoint number_all (shard : Z) (shards : list (list Row)) : list numbered :=
  match shards with [] => [] | rows :: shards' => number shard 0 rows ++ number_all (shard + 1) shards' end.
Definition before (a b : numbered) : Prop := a.1.2 < b.1.2 ∨ a.1.2 = b.1.2 ∧ a.2 < b.2.

Lemma number_rows shard n rows : (number shard n rows).*1.*1 = rows.
Proof. revert n. induction rows as [|r rows IH]; intros n; [done|]. cbn. by rewrite IH. Qed.
Lemma number_all_rows shard shards : (number_all shard shards).*1.*1 = concat shards.
Proof. revert shard. induction shards as [|rows shards IH]; intros shard; [done|]. cbn. by rewrite !fmap_app, number_rows, IH. Qed.
Lemma number_shard shard n rows : Forall (λ x : numbered, x.1.2 = shard ∧ n ≤ x.2) (number shard n rows).
Proof.
  revert n. induction rows as [|r rows IH]; intros n; [constructor|]. constructor; [cbn; lia|]. eapply Forall_impl; [apply IH|]. cbv beta. lia.
Qed.
Lemma number_all_shard shard shards : Forall (λ x : numbered, shard ≤ x.1.2) (number_all shard shards).
Proof.
  revert shard. induction shards as [|rows shards IH]; intros shard; [constructor|]. cbn. apply Forall_app. split.
  - eapply Forall_impl; [apply number_shard|]. cbv beta. lia.
  - eapply Forall_impl; [apply IH|]. cbv beta. lia.
Qed.
Lemma number_sorted shard n rows : StronglySorted before (number shard n rows).
Proof.
  revert n. induction rows as [|r rows IH]; intros n; [constructor|]. constructor; [apply IH|].
  eapply Forall_impl; [apply number_shard|]. unfold before. cbn. lia.
Qed.
Lemma StronglySorted_join {A} (R : A → A → Prop) a b :
  StronglySorted R a → StronglySorted R b → Forall (λ x, Forall (R x) b) a → StronglySorted R (a ++ b).
Proof.
  induction 1 as [|x a Ha IH Hx]; intros Hb Hab; [done|]. inversion Hab; subst. cbn. constructor; [by apply IH|]. apply Forall_app. by split.
Qed.
Lemma number_all_sorted shard shards : StronglySorted before (number_all shard shards).
Proof.
  revert shard. induction shards as [|rows shards IH]; intros shard; [constructor|]. cbn. apply StronglySorted_join; [apply number_sorted|apply IH|].
  eapply Forall_impl; [apply number_shard|]. intros x [Hx _]. eapply Forall_impl; [apply number_all_shard|]. unfold before. cbv beta. lia.
Qed.
Lemma before_unique l a b : StronglySorted before l → a ∈ l → b ∈ l → a.1.2 = b.1.2 → a.2 = b.2 → a = b.
Proof.
  induction 1 as [|x l Hs IH Hx]; [by intros ?%not_elem_of_nil|]. rewrite Forall_forall in Hx.
  intros [->|Ha]%elem_of_cons [->|Hb]%elem_of_cons H1 H2; [done| | |by apply IH].
  - specialize (Hx b Hb). unfold before in Hx. lia.
  - specialize (Hx a Ha). unfold before in Hx. lia.
Qed.

(** *** The sort of the merge *)

Definition merge_time (newest : bool) (a : mergedRow) : Z := if newest then - m_t a else m_t a.
Lemma merge_less_spec newest a b :
  merge_less newest a b = bool_decide (merge_time newest a < merge_time newest b ∨ merge_time newest a = merge_time newest b ∧
    (m_shard a < m_shard b ∨ m_shard a = m_shard b ∧ m_seq a < m_seq b)).
Proof.
  unfold merge_less, merge_time. destruct (decide (m_t a = m_t b)) as [E|E].
  - rewrite (bool_decide_true (m_t a = m_t b)) by done. cbn [negb]. destruct (decide (m_shard a = m_shard b)) as [E'|E'].
    + rewrite (bool_decide_true (m_shard a = m_shard b)) by done. cbn [negb]. apply bool_decide_ext. destruct newest; lia.
    + rewrite (bool_decide_false (m_shard a = m_shard b)) by done. cbn [negb]. apply bool_decide_ext. destruct newest; lia.
  - rewrite (bool_decide_false (m_t a = m_t b)) by done. cbn [negb]. destruct newest; apply bool_decide_ext; lia.
Qed.
Lemma merge_less_asym newest a b : merge_less newest a b = true → merge_less newest b a = false.
Proof. rewrite !merge_less_spec, bool_decide_eq_true, bool_decide_eq_false. lia. Qed.
Lemma merge_less_trans newest a b c : le_by (merge_less newest) a b → le_by (merge_less newest) b c → le_by (merge_less newest) a c.
Proof. unfold le_by. rewrite !merge_less_spec, !bool_decide_eq_false. lia. Qed.

Section merging.
Context {T : GoText} {D : GoTime} {L : TimeText T D}.

Definition on_wire (ws : bool) (x : numbered) : mergedRow := MkMerged (row_Time x.1.1) (row_text x.1.1 ws) x.1.2 x.2.
Definition time_key_of (newest : bool) (x : numbered) : Z := if newest then - row_Time x.1.1 else row_Time x.1.1.
Definition answer_of (ws : bool) (shard : Z) (rows : list Row) : shardAnswer :=
  MkAnswer shard (concat ((λ r, appendRowJSON [] r ws) <$> rows)).
Fixpoint answers (ws : bool) (shard : Z) (shards : list (list Row)) : list shardAnswer :=
  match shards with [] => [] | rows :: shards' => answer_of ws shard rows :: answers ws (shard + 1) shards' end.
Definition wire_ok (r : Row) : Prop := row_bytes r ∧ timed r.

Lemma body_line shard line rest cur acc :
  Forall (λ c, c ≠ 10) line → body_loop shard (line ++ 10 :: rest) cur acc = body_loop shard rest [] (take_line shard (cur ++ line) acc).
Proof.
  intros H. revert cur. induction H as [|c line Hc _ IH]; intros cur; cbn [app body_loop].
  - by rewrite bool_decide_true, app_nil_r.
  - rewrite bool_decide_false by done. rewrite IH. by rewrite <- app_assoc.
Qed.
Lemma body_rows ws shard rows acc :
  Forall wire_ok rows →
  body_loop shard (concat ((λ r, appendRowJSON [] r ws) <$> rows)) [] (acc, None) = (acc ++ (on_wire ws <$> number shard (len acc) rows), None).
Proof.
  intros H. revert acc. induction H as [|r rows [Hr Ht] _ IH]; intros acc; [cbn; by rewrite app_nil_r|].
  rewrite fmap_cons. cbn [concat]. unfold appendRowJSON at 1. cbn [app]. rewrite <- app_assoc. cbn [app].
  rewrite body_line by by apply line_no_newline. cbn [app]. unfold take_line.
  rewrite bool_decide_false by (unfold row_text; done). rewrite line_recognised by done. cbn [negb fst snd].
  rewrite line_time by done. rewrite IH. cbn [number fmap list_fmap]. rewrite <- app_assoc. do 2 f_equal. cbn [app]. by rewrite len_app, len_cons.
Qed.
Lemma shard_rows_answer ws shard rows : Forall wire_ok rows → shard_rows (answer_of ws shard rows) = (on_wire ws <$> number shard 0 rows, None).
Proof. intros H. unfold shard_rows. cbn [answer_of sa_shard sa_body]. by rewrite body_rows. Qed.

Lemma collect_answers done all :
  Forall (λ a, (shard_rows a).2 = None) done → collect_loop done all None = (all ++ concat ((λ a, (shard_rows a).1) <$> done), None).
Proof.
  intros H. revert all. induction H as [|a done Ha _ IH]; intros all; [cbn; by rewrite app_nil_r|]. cbn [collect_loop]. rewrite Ha, IH.
  rewrite fmap_cons. cbn [concat]. by rewrite app_assoc.
Qed.
Lemma answers_rows ws shard shards :
  Forall (Forall wire_ok) shards →
  Forall (λ a, (shard_rows a).2 = None) (answers ws shard shards)
  ∧ concat ((λ a, (shard_rows a).1) <$> answers ws shard shards) = on_wire ws <$> number_all shard shards.
Proof.
  intros H. revert shard. induction H as [|rows shards Hr _ IH]; intros shard; [done|]. cbn [answers number_all]. destruct (IH (shard + 1)) as [IH1 IH2].
  split; [constructor; [by rewrite shard_rows_answer|done]|]. rewrite fmap_cons. cbn [concat]. by rewrite shard_rows_answer, IH2, fmap_app.
Qed.
Lemma collect_done ws shards done :
  Forall (Forall wire_ok) shards → done ≡ₚ answers ws 0 shards →
  ∃ all, collectShardRows done = (all, None) ∧ all ≡ₚ on_wire ws <$> number_all 0 shards.
Proof.
  intros Hs Hp. destruct (answers_rows ws 0 shards Hs) as [H1 H2]. rewrite <- Hp in H1. unfold collectShardRows.
  rewrite collect_answers by done. eexists. split; [done|]. rewrite <- H2. cbn [app]. by rewrite Hp.
Qed.

Lemma sort_on_wire newest ws l :
  StronglySorted before l → sort_merged newest (on_wire ws <$> l) = on_wire ws <$> stable_sort (key_less (time_key_of newest)) l.
Proof.
  intros Hs. unfold sort_merged. induction Hs as [|x l Hs IH Hx]; [done|]. rewrite fmap_cons. cbn [stable_sort foldr].
  fold (stable_sort (merge_less newest) (on_wire ws <$> l)). fold (stable_sort (key_less (time_key_of newest)) l). rewrite IH.
  rewrite <- (stable_sort_perm (key_less (time_key_of newest)) l) in Hx. revert Hx. generalize (stable_sort (key_less (time_key_of newest)) l). clear.
  intros s. induction 1 as [|y s Hy _ IH]; [done|]. rewrite fmap_cons. cbn [insert_by].
  assert (merge_less newest (on_wire ws y) (on_wire ws x) = key_less (time_key_of newest) y x) as ->.
  { rewrite merge_less_spec. unfold key_less, merge_time, time_key_of, on_wire, before in *. cbn [m_t m_shard m_seq].
    apply bool_decide_ext. destruct newest; lia. }
  destruct (key_less _ y x); [|done]. by rewrite fmap_cons, IH.
Qed.
Lemma sort_any ws newest shards all :
  all ≡ₚ on_wire ws <$> number_all 0 shards →
  sort_merged newest all = on_wire ws <$> stable_sort (key_less (time_key_of newest)) (number_all 0 shards).
Proof.
  intros Hp. rewrite <- sort_on_wire by apply number_all_sorted. apply sort_unique; [apply merge_less_asym|apply merge_less_trans|done|].
  intros a b. rewrite Hp. intros (x & -> & Hx)%list_elem_of_fmap (y & -> & Hy)%list_elem_of_fmap H1 H2. f_equal.
  unfold le_by in H1, H2. rewrite merge_less_spec, bool_decide_eq_false in H1, H2. unfold merge_time, on_wire in H1, H2. cbn [m_t m_shard m_seq] in H1, H2.
  apply (before_unique (number_all 0 shards)); [apply number_all_sorted|done|done|destruct newest; lia|destruct newest; lia].
Qed.
(** The rows under the numbers are the merge. *)
Lemma sorted_rows newest shards :
  Forall (Forall timed) shards →
  (stable_sort (key_less (time_key_of newest)) (number_all 0 shards)).*1.*1 = merged newest shards.
Proof.
  intros Ht. unfold merged. rewrite <- (number_all_rows 0 shards).
  assert (Forall (λ x : numbered, timed x.1.1) (number_all 0 shards)) as Hn.
  { assert (Forall timed (number_all 0 shards).*1.*1) as H by (rewrite number_all_rows; by apply Forall_concat).
    rewrite !Forall_fmap in H. exact H. }
  clear Ht. revert Hn. generalize (number_all 0 shards). intros l Hn.
  pose proof (sort_expand (time_key_of newest) (stamp_key newest) (λ x : numbered, [x.1.1]) l) as H.
  assert (∀ m : list numbered, concat ((λ x : numbered, [x.1.1]) <$> m) = m.*1.*1) as Hc.
  { induction m as [|x m IH]; [done|]. cbn. by rewrite IH. }
  rewrite !Hc in H. symmetry. apply H. eapply Forall_impl; [exact Hn|]. intros x Hx. constructor; [|constructor].
  unfold timed in Hx. unfold stamp_key, time_key_of, row_stamp. by rewrite Hx.
Qed.

Context {P : GoPipes} {R : MapRange} {J : GoJSON}.

Lemma received_rows ws rows :
  Forall wire_ok rows → (λ r, jsonLineToRow (row_text r ws)) <$> rows = (λ r, MkRow (row_Time r) (sent_pairs r ws) false) <$> rows.
Proof.
  intros H. apply list_fmap_ext. intros i r Hi. apply (Forall_lookup_1 _ _ _ _ H) in Hi as [Hr Ht].
  destruct (row_roundtrip_pairs r ws Hr) as [H1 H2]. cbv beta. rewrite H1. by apply H2.
Qed.
Lemma wire_merged newest shards : Forall (Forall wire_ok) shards → Forall wire_ok (merged newest shards).
Proof. intros H. unfold merged. rewrite stable_sort_perm. by apply Forall_concat. Qed.
Lemma bound_Forall (Q : Row → Prop) n rows : Forall Q rows → Forall Q (bound n rows).
Proof. intros H. unfold bound. case_bool_decide; [by apply Forall_take|done]. Qed.

Lemma merge_spec ws shards done clock lim q limit coord pipes :
  Forall (Forall wire_ok) shards → done ≡ₚ answers ws 0 shards →
  let b := bounded_by limit pipes in
  let read (r : Row) := MkRow (row_Time r) (sent_pairs r ws) false in
  mergeRows clock lim q limit done coord pipes =
    if bool_decide (coord = []) then Written (concat ((λ r, appendRowJSON [] r ws) <$> bound limit (merged (bool_decide (0 < limit)) shards)))
    else match ApplyPipes clock lim q coord (read <$> bound b (merged (bool_decide (0 < b)) shards)) with
         | (_, Some e) => Stopped e
         | (out, None) => Written (concat ((λ r, appendRowJSON [] r false) <$> rows_of out))
         end.
Proof.
  intros Hs Hp b read. destruct (collect_done ws shards done Hs Hp) as (all & Hc & Hall).
  assert (Forall (Forall timed) shards) as Ht.
  { eapply Forall_impl; [exact Hs|]. intros rows H. eapply Forall_impl; [exact H|]. by intros r [_ ?]. }
  assert (∀ newest, m_line <$> sort_merged newest all = (λ r, row_text r ws) <$> merged newest shards) as Hlines.
  { intros newest. rewrite (sort_any ws newest shards all Hall). rewrite <- (sorted_rows newest shards Ht).
    rewrite <- !list_fmap_compose. done. }
  assert (∀ newest, len (sort_merged newest all) = len (merged newest shards)) as Hlen.
  { intros newest. specialize (Hlines newest). apply (f_equal len) in Hlines. by rewrite !len_fmap in Hlines. }
  unfold mergeRows. rewrite Hc. destruct coord as [|p coord].
  - cbn zeta. rewrite (bool_decide_false ([] ≠ [])) by (intros Hx; by apply Hx). rewrite (bool_decide_true ([] = [])) by done. f_equal. f_equal.
    assert (∀ l, (λ m, m_line m ++ [10]) <$> l = (λ x, x ++ [10]) <$> (m_line <$> l)) as -> by (intros l; by rewrite <- list_fmap_compose).
    assert (m_line <$> (if bool_decide (0 < limit) then take (Z.to_nat limit) (sort_merged (bool_decide (0 < limit)) all) else sort_merged (bool_decide (0 < limit)) all)
      = (λ r, row_text r ws) <$> bound limit (merged (bool_decide (0 < limit)) shards)) as ->.
    { unfold bound. destruct (bool_decide (0 < limit)); [|by rewrite Hlines]. by rewrite fmap_take, Hlines, fmap_take. }
    rewrite <- list_fmap_compose. done.
  - rewrite (bool_decide_true (p :: coord ≠ [])), (bool_decide_false (p :: coord = [])) by done.
    change (if bool_decide (0 < limit) && limitBoundsOutput pipes then limit else 0) with b.
    assert (pipe_input b all = read <$> bound b (merged (bool_decide (0 < b)) shards)) as Hin.
    2: { rewrite Hin. destruct (ApplyPipes _ _ _ _ _) as [out [e|]]; done. }
    unfold pipe_input. assert (∀ l, (λ m, jsonLineToRow (m_line m)) <$> l = jsonLineToRow <$> (m_line <$> l)) as -> by (intros l; by rewrite <- list_fmap_compose).
    assert (m_line <$> (if bool_decide (0 < b ∧ b < len (sort_merged (bool_decide (0 < b)) all)) then take (Z.to_nat b) (sort_merged (bool_decide (0 < b)) all)
      else sort_merged (bool_decide (0 < b)) all) = (λ r, row_text r ws) <$> bound b (merged (bool_decide (0 < b)) shards)) as ->.
    { unfold bound. destruct (decide (0 < b)) as [Hb|Hb].
      - rewrite !(bool_decide_true (0 < b)) by done. rewrite fmap_take, <- Hlines. case_bool_decide as E; [by rewrite fmap_take|].
        rewrite take_ge; [done|]. rewrite length_fmap. unfold len in E. lia.
      - rewrite !(bool_decide_false (0 < b)) by done. rewrite bool_decide_false by tauto. by rewrite Hlines. }
    rewrite <- list_fmap_compose. apply received_rows, bound_Forall, wire_merged, Hs.
Qed.

(** C6: The coordinator merges what the shards sent into one order, whatever order the
    bodies were split in: by time, then shard, then the position in the shard's body,
    and with a bound the newest by that order, newest first. Without pipes of its own it
    writes the rows' lines in that order, bounded by the limit; with pipes it runs them
    over those rows, read back unchanged, bounded when the limit bounds the scan, and
    writes what they give or reports why they stopped. Every row sent carries its time. *)
Theorem merge_exact ws shards done clock lim q limit coord pipes :
  Forall (Forall wire_ok) shards → done ≡ₚ answers ws 0 shards →
  let b := bounded_by limit pipes in
  let read (r : Row) := MkRow (row_Time r) (sent_pairs r ws) false in
  mergeRows clock lim q limit done coord pipes =
    if bool_decide (coord = []) then Written (concat ((λ r, appendRowJSON [] r ws) <$> bound limit (merged (bool_decide (0 < limit)) shards)))
    else match ApplyPipes clock lim q coord (read <$> bound b (merged (bool_decide (0 < b)) shards)) with
         | (_, Some e) => Stopped e
         | (out, None) => Written (concat ((λ r, appendRowJSON [] r false) <$> rows_of out))
         end.
Proof. apply merge_spec. Qed.

End merging.

(** *** The limit at the shards *)

(** The order of the numbered rows: by a key, then by their numbers. *)
Definition total (k : numbered → Z) (a b : numbered) : Prop := k a < k b ∨ k a = k b ∧ before a b.
Lemma insert_total k x s :
  StronglySorted (total k) s → Forall (before x) s → StronglySorted (total k) (insert_by (key_less k) x s).
Proof.
  induction 1 as [|y s Hs IH Hy]; intros Hb; [by repeat constructor|]. inversion Hb as [|? ? Hxy Hxs]; subst. cbn [insert_by].
  unfold key_less at 1. case_bool_decide as E.
  - constructor; [by apply IH|]. rewrite insert_by_perm. constructor; [by left|done].
  - constructor; [by constructor|]. constructor.
    + unfold total. destruct (decide (k x = k y)); [by right|left; lia].
    + rewrite Forall_forall in *. intros z Hz. specialize (Hy z Hz). specialize (Hxs z Hz). unfold total in *. destruct (decide (k x = k z)); [by right|left; lia].
Qed.
Lemma sort_total k l : StronglySorted before l → StronglySorted (total k) (stable_sort (key_less k) l).
Proof.
  induction 1 as [|x l Hs IH Hx]; [constructor|].
  change (stable_sort (key_less k) (x :: l)) with (insert_by (key_less k) x (stable_sort (key_less k) l)).
  apply insert_total; [done|]. by rewrite stable_sort_perm.
Qed.
(** What is strictly less comes earlier. *)
Lemma total_earlier k s i x y : StronglySorted (total k) s → s !! i = Some x → y ∈ s → total k y x → y ∈ take i s.
Proof.
  intros Hs. revert i. induction Hs as [|z s Hs IH Hz]; intros i Hi Hy Hyx; [done|]. destruct i as [|i]; cbn in Hi.
  - injection Hi as ->. exfalso. apply elem_of_cons in Hy as [->|Hy]; [unfold total, before in Hyx; lia|].
    rewrite Forall_forall in Hz. specialize (Hz y Hy). unfold total, before in *. lia.
  - cbn [take]. apply elem_of_cons in Hy as [->|Hy]; apply elem_of_cons; [by left|right]. by apply IH.
Qed.

Lemma number_take shard n rows m : 0 ≤ n → number shard n (take m rows) = List.filter (λ x : numbered, bool_decide (x.2 < n + Z.of_nat m)) (number shard n rows).
Proof.
  intros Hn. revert n m Hn. induction rows as [|r rows IH]; intros n m Hn; [by destruct m|]. destruct m as [|m].
  - cbn [take number List.filter]. rewrite bool_decide_false by (cbn; lia). symmetry.
    assert (Forall (λ x : numbered, x.1.2 = shard ∧ n + 1 ≤ x.2) (number shard (n + 1) rows)) as H by apply number_shard.
    induction H as [|x l [_ Hx] _ IHl]; [done|]. cbn [List.filter]. rewrite bool_decide_false by lia. exact IHl.
  - cbn [take number List.filter]. rewrite bool_decide_true by (cbn; lia). f_equal. rewrite IH by lia. f_equal. 
    assert (n + 1 + Z.of_nat m = n + Z.of_nat (S m)) as -> by lia. done.
Qed.
Lemma number_all_take shard shards m :
  number_all shard (take m <$> shards) = List.filter (λ x : numbered, bool_decide (x.2 < Z.of_nat m)) (number_all shard shards).
Proof.
  revert shard. induction shards as [|rows shards IH]; intros shard; [done|]. cbn [number_all fmap list_fmap]. rewrite List.filter_app.
  f_equal; [rewrite number_take by lia; by rewrite Z.add_0_l|apply IH].
Qed.
Lemma number_in shard shards x :
  x ∈ number_all shard shards → ∃ rows, rows ∈ shards ∧ x ∈ number x.1.2 0 rows ∧ ∀ y, y ∈ number x.1.2 0 rows → y ∈ number_all shard shards.
Proof.
  revert shard. induction shards as [|rows shards IH]; intros shard; cbn [number_all]; [by intros ?%not_elem_of_nil|].
  intros [Hx|Hx]%elem_of_app.
  - pose proof (number_shard shard 0 rows) as Hs. rewrite Forall_forall in Hs. destruct (Hs x Hx) as [-> _].
    exists rows. split_and!; [apply elem_of_cons; by left|done|]. intros y Hy. apply elem_of_app. by left.
  - destruct (IH _ Hx) as (rows' & H1 & H2 & H3). exists rows'. split_and!; [apply elem_of_cons; by right|done|]. intros y Hy. apply elem_of_app. right. by apply H3.
Qed.
Lemma number_seq shard n rows x : x ∈ number shard n rows → n ≤ x.2 < n + len rows.
Proof.
  revert n. induction rows as [|r rows IH]; intros n; cbn [number]; [by intros ?%not_elem_of_nil|]. intros [->|Hx]%elem_of_cons; rewrite len_cons.
  - cbn. len_lia.
  - specialize (IH _ Hx). lia.
Qed.
Lemma number_ordered (Q : Row → Row → Prop) shard n rows x y :
  StronglySorted Q rows → x ∈ number shard n rows → y ∈ number shard n rows → y.2 < x.2 → Q y.1.1 x.1.1.
Proof.
  intros Hs. revert n. induction Hs as [|r rows Hs IH Hr]; intros n; cbn [number]; [by intros ?%not_elem_of_nil|].
  intros [->|Hx]%elem_of_cons [->|Hy]%elem_of_cons Hlt; [lia| | |by apply (IH (n + 1))].
  - apply number_seq in Hy. cbn in Hlt. lia.
  - cbn. rewrite Forall_forall in Hr. apply Hr. rewrite <- (number_rows shard (n + 1) rows). apply list_elem_of_fmap.
    exists x.1. split; [done|]. apply list_elem_of_fmap. by exists x.
Qed.

Lemma bound_merged n shards :
  0 < n → Forall (StronglySorted (λ a b, row_stamp b ≤ row_stamp a)) shards →
  bound n (merged true (bound n <$> shards)) = bound n (merged true shards).
Proof.
  intros Hn Hs. unfold bound. rewrite !(bool_decide_true (0 < n)) by done.
  change (λ rows : list Row, take (Z.to_nat n) rows) with (@take Row (Z.to_nat n)).
  set (m := Z.to_nat n). set (k := λ x : numbered, stamp_key true x.1.1).
  assert (∀ sh : list (list Row), merged true sh = (stable_sort (key_less k) (number_all 0 sh)).*1.*1) as Hm.
  { intros sh. unfold merged. rewrite <- (number_all_rows 0 sh).
    pose proof (sort_expand k (stamp_key true) (λ x : numbered, [x.1.1]) (number_all 0 sh)) as H.
    assert (∀ l : list numbered, concat ((λ x : numbered, [x.1.1]) <$> l) = l.*1.*1) as Hc by (induction l as [|x l IH]; [done|cbn; by rewrite IH]).
    rewrite !Hc in H. apply H. apply Forall_forall. intros x _. by repeat constructor. }
  rewrite !Hm, <- !fmap_take, number_all_take. do 2 f_equal.
  rewrite <- (filter_stable_sort (key_less k) (key_asym k) (key_trans k)). apply take_filter. intros i x Hi Hx. apply bool_decide_eq_false in Hx.
  set (s := stable_sort (key_less k) (number_all 0 shards)) in *.
  assert (∀ y, y ∈ s ↔ y ∈ number_all 0 shards) as Hin by (intros y; unfold s; by rewrite stable_sort_perm).
  assert (x ∈ number_all 0 shards) as Hxin by (apply Hin; by eapply list_elem_of_lookup_2).
  destruct (number_in _ _ _ Hxin) as (rows & Hrows & Hxr & Hall). rewrite Forall_forall in Hs. specialize (Hs rows Hrows).
  pose proof (number_seq _ _ _ _ Hxr) as Hseq.
  assert (length (number x.1.2 0 (take m rows)) = m) as Hl.
  { pose proof (f_equal length (number_rows x.1.2 0 (take m rows))) as Hlen.
    rewrite !length_fmap, length_take in Hlen. unfold len in Hseq. etrans; [exact Hlen|]. apply Nat.min_l.
    assert (Z.of_nat m ≤ x.2) as Hmx by (apply Z.nlt_ge; exact Hx). apply Nat2Z.inj_le. destruct Hseq as [_ Hseq]. eapply Z.lt_le_incl, Z.le_lt_trans; [exact Hmx|exact Hseq]. }
  rewrite <- Hl. apply submseteq_length, NoDup_submseteq.
  - eapply (NoDup_fmap_1 (λ x : numbered, x)). rewrite list_fmap_id.
    pose proof (number_sorted x.1.2 0 (take m rows)) as Hso. clear -Hso. induction Hso as [|y l Hs IH Hy]; [constructor|]. constructor; [|done].
    intros Hyl. rewrite Forall_forall in Hy. specialize (Hy y Hyl). unfold before in Hy. lia.
  - intros y Hy. rewrite number_take in Hy by lia. apply list_elem_of_In, filter_In in Hy as [Hy Hlt]. apply list_elem_of_In in Hy.
    apply bool_decide_eq_true in Hlt. apply list_elem_of_In, filter_In. split; [|apply bool_decide_eq_true; lia]. apply list_elem_of_In.
    apply (total_earlier k s i x y); [apply sort_total, number_all_sorted|done|by apply Hin, Hall|].
    assert (y.2 < x.2) as Hyx by lia. pose proof (number_ordered _ _ _ _ _ _ Hs Hxr Hy Hyx) as Ho. cbv beta in Ho.
    pose proof (number_shard x.1.2 0 rows) as Hsh. rewrite Forall_forall in Hsh. destruct (Hsh y Hy) as [Hys _].
    unfold total, before, k, stamp_key. lia.
Qed.

(** A limit that travels to the shards is not felt behind the merge: where every
    shard answers newest first, the coordinator gives the same answer from shards
    that stopped at their newest rows as from shards that sent all of theirs,
    however the answers came in, as long as the limit bounds what its pipes read. *)
Theorem limit_pushed {T : GoText} {D : GoTime} {L : TimeText T D} {P : GoPipes} {R : MapRange} {J : GoJSON}
    ws shards done done' clock lim q n coord pipes :
  0 < n → coord = [] ∨ limitBoundsOutput pipes = true →
  Forall (Forall wire_ok) shards → Forall (StronglySorted (λ a b, row_stamp b ≤ row_stamp a)) shards →
  done ≡ₚ answers ws 0 shards → done' ≡ₚ answers ws 0 (bound n <$> shards) →
  mergeRows clock lim q n done' coord pipes = mergeRows clock lim q n done coord pipes.
Proof.
  intros Hn Hc Hs Hso Hd Hd'.
  assert (Forall (Forall wire_ok) (bound n <$> shards)) as Hs'.
  { apply Forall_fmap. eapply Forall_impl; [exact Hs|]. intros rows. apply bound_Forall. }
  pose proof (merge_spec ws shards done clock lim q n coord pipes Hs Hd) as H1. pose proof (merge_spec ws _ done' clock lim q n coord pipes Hs' Hd') as H2.
  cbn zeta in H1, H2. rewrite H1, H2. rewrite (bool_decide_true (0 < n)) in * by done. rewrite !bound_merged by done. destruct Hc as [->|Hb]; [done|].
  unfold bounded_by. rewrite Hb, (bool_decide_true (0 < n)) by done. cbn [andb]. by rewrite (bool_decide_true (0 < n)), bound_merged.
Qed.
