(* ===== verification/PipeWitnesses.v ===== *)
(** * Witnesses and findings for the pipes and the cluster

    The sample group of [Witnesses] aggregated by a field, rows of two shards
    planned, sent and merged; the formatting the pipes pass through is a reference
    instance, the texts of times are the ones of [Rfc3339]. Then the inputs on which
    the code answers something its comments, or the same query on one node, do not. *)

From Stdlib Require Import SpecFloat.
From S2P Require Import Prelude Digits GoLib Kernels Indices Timestamps Compress DictSection DictLayout Postings Bloom Group GroupSafe.
From S2P Require Import GroupLayout Bitset Select Reader ReaderSafe ReaderOk Table Writer Ingest Recompact Batches Filter FilterOk.
From S2P Require Import Engine EngineOk TimeFilter Scan ScanOk PagesOk NewestOk Aggregate AggregateOk StatsOk Lifecycle Budget.
From S2P Require Import Findings Witnesses QueryWitnesses Text Rows StatsPipe Pipes Pipeline PipesOk StatsScanOk Distributed Wire.
From S2P Require Import Cluster DistributedOk Rfc3339 WireOk ClusterOk.
From stdpp Require Import list gmap sorting.
Local Open Scope Z_scope.

(** ** Reference instances *)

Definition pipe_text : GoText := {|
  ParseFloat := λ s, float_of_int <$> Atoi s; regexp_Compile := λ _, None; ToLower := λ s, s; uint32_of := λ _, 0;
  Format_RFC3339Nano := rfc3339 |}.
Definition pipe_time : GoTime := {| time_Parse := λ _ s, ref_Parse s; AddDate := λ t _ _ _, t |}.
Definition pipe_funcs : GoPipes := {|
  FormatFloat_f := λ f, match f with S754_finite false m e => Itoa (Z.shiftl (Z.pos m) e) | _ => [48] end; FormatFloat_g := λ _, [48];
  Quote := λ s, [34] ++ s ++ [34]; json_Marshal := λ s, [34] ++ s ++ [34]; json_object := λ _, None; json_unquote := λ _, None;
  json_array := λ _, None; json_printed := λ _, None; regexp_groups := λ _, None; regexp_replace := λ _, None;
  math_Log := λ f, f; math_Log10 := λ f, f; math_Pow := λ f _, f; int_of := λ _, 0; Sprintf_3e := λ _, [] |}.
Definition pipe_json : GoJSON := {| json_Valid := λ _, true |}.
#[local] Existing Instance pipe_text.
#[local] Existing Instance pipe_time.
#[local] Existing Instance pipe_funcs.
#[local] Existing Instance pipe_json.
#[local] Existing Instance ref_range.
Lemma pipe_time_text : TimeText pipe_text pipe_time.
Proof. constructor; [done|]. apply ref_Parse_law. Qed.
#[local] Existing Instance pipe_time_text.

(** ** Pipes *)

(** Rows of a stream: [a=1], [a=2], [a=1] at the given time. *)
Definition row_at (t : Z) (v : bytes) : Row := MkRow t [([97], v)] false.
Definition pipe_rows : list Row := [row_at 10 [49]; row_at 20 [50]; row_at 30 [49]].
Lemma top_witness :
  top_apply [[97]] 1 0 pipe_rows = Some [MkRow 0 [([97], [49]); (s_hits, [50])] true] ∧
  ∃ kvs, top_apply [[97]] 1 0 pipe_rows = Some (cut 1 (top_row [[97]] <$> kvs)) ∧ kvs ≡ₚ counted [[97]] pipe_rows <$> keys_of [[97]] pipe_rows.
Proof.
  split; [reflexivity|].
  pose proof (top_exact [[97]] 1 0 pipe_rows ltac:(by_eval) ltac:(by_eval)) as (kvs & H1 & H2 & _). by exists kvs.
Defined.
Lemma scan_stats_witness :
  let sp := MkStats [[118]] [MkAgg [] [] [110] None fzero AggCount; MkAgg [118] [] [117] None fzero AggCountUniq] in
  ∃ out, runStats_scan untimed sp 0 fzero (Some five.*1) whole = Ok (out, None).
Proof.
  intros sp. destruct (scan_stats_exact sp 0 untimed fzero whole five five_in_service) as (out & r & E & _ & Hr).
  - unfold five. apply Forall_fmap, Forall_true. intros id. by_eval.
  - left. reflexivity.
  - exists out. rewrite E. by rewrite Hr.
Defined.

(** ** The plan and the merge *)

(** [* | len(a) | limit 1] over two shards. *)
Definition pipe_chain : list Pipe := [LenPipe [97] [108]; LimitPipe 1].
Definition pipe_raw : bytes := [42; 32; 124; 32; 97; 32; 124; 32; 98].
Definition pipe_shards : list (list Row) := [[row_at 10 [49]; row_at 30 [49]]; [row_at 20 [50]]].
Definition pipe_measured : list (list Row) := (λ rows : list Row, len_row [97] [108] <$> rows) <$> pipe_shards.
Lemma plan_witness :
  ∃ sq coord n, planQuery (λ _, Some pipe_chain) pipe_raw 0 = inr (sq, coord) ∧
    ApplyPipes (λ i, (λ _, None) (n + i)%nat) (MkPipeLimits 0 0) whole coord
      (bound 0 (merged false pipe_measured)) = (Some [len_row [97] [108] (row_at 10 [49])], None).
Proof.
  destruct (planQuery (λ _, Some pipe_chain) pipe_raw 0) as [e|[sq coord]] eqn:E; [vm_compute in E; discriminate E|].
  destruct (plan_exact (λ _, Some pipe_chain) pipe_raw 0 pipe_chain sq coord pipe_shards pipe_measured 0 fzero
    (λ _, None) (MkPipeLimits 0 0) whole [len_row [97] [108] (row_at 10 [49])] eq_refl E) as (_ & n & Hn).
  - by repeat constructor.
  - by left.
  - repeat constructor.
  - reflexivity.
  - exists sq, coord, n. split; [done|exact Hn].
Defined.
Lemma pipe_rows_bytes : Forall (Forall wire_ok) pipe_shards.
Proof. repeat (constructor || split); by_eval. Qed.
Lemma row_roundtrip_witness :
  let r := MkRow (-1) [([34; 10; 200], [92; 0])] false in
  jsonLineToRow (row_text r false) = MkRow (-1) (sent_pairs r false) false.
Proof.
  intros r. assert (row_bytes r) as Hr by (split; [repeat constructor; by_eval|by_eval]).
  destruct (row_roundtrip r false Hr) as [H1 H2]. rewrite H1. by apply H2.
Defined.
Lemma fast_witness : fastRFC3339Nano (rfc3339 1785628800123456789) = Some 1785628800123456789.
Proof. rewrite (fast_exact 1785628800123456789); [reflexivity|by_eval]. Defined.
Lemma mergeRows_witness :
  mergeRows (λ _, None) (MkPipeLimits 0 0) whole 2 (rev (answers false 0 pipe_shards)) [] [] =
    Written (appendRowJSON [] (row_at 30 [49]) false ++ appendRowJSON [] (row_at 20 [50]) false).
Proof.
  pose proof (merge_exact false pipe_shards (rev (answers false 0 pipe_shards)) (λ _, None) (MkPipeLimits 0 0) whole 2 [] []
    pipe_rows_bytes (symmetry (Permutation_rev _))) as H. cbn zeta in H. rewrite H. vm_compute. reflexivity.
Defined.
(** Two shards newest first, each asked for its newest row. *)
Definition newest_shards : list (list Row) := [[row_at 30 [49]; row_at 10 [49]]; [row_at 20 [50]]].
Lemma limit_pushed_witness :
  mergeRows (λ _, None) (MkPipeLimits 0 0) whole 1 (answers false 0 (bound 1 <$> newest_shards)) [] [] =
    mergeRows (λ _, None) (MkPipeLimits 0 0) whole 1 (answers false 0 newest_shards) [] [].
Proof.
  apply (limit_pushed false newest_shards); [lia|by left|..|done|done].
  - repeat (constructor || split); by_eval.
  - repeat constructor; by_eval.
Defined.

(** ** What the pipes and the plan show on concrete rows *)


(** ** The plan *)

(** [* | len(a) as a | filter a:5] with a limit: the shards run the first pipe and
    the coordinator runs both, so the length is taken of the length. *)
Definition twice_chain : list Pipe := [LenPipe [97] [97]; FilterPipe (OpAnd [])].
Definition hello : Row := row_at 10 [104; 101; 108; 108; 111].
Lemma pushed_prefix_runs_twice :
  ∃ sq, planQuery (λ _, Some twice_chain) pipe_raw 5 = inr (sq, twice_chain) ∧ push_count 5 twice_chain twice_chain = 1%nat ∧
    apply_each 0 fzero twice_chain [hello] = Some [row_at 10 [53]] ∧
    (apply_each 0 fzero (take 1 twice_chain) [hello] ≫= apply_each 0 fzero twice_chain) = Some [row_at 10 [49]].
Proof. eexists. repeat split; reflexivity. Qed.
(** [drop_empty_fields] never removes a row, and [unroll] of an empty field gives
    one; the comment of [ChangesRowCount] says they remove it. *)
Lemma drop_empty_keeps_rows rows out : Pipes.apply DropEmptyPipe 0 fzero rows = Some out → length out = length rows.
Proof. intros [= <-]. induction rows as [|r rows IH]; [done|]. cbn. by f_equal. Qed.
Lemma unroll_empty_keeps_row : unroll_apply [97] [row_at 10 []] = [row_at 10 []].
Proof. reflexivity. Qed.

(** ** Rows *)

(** A row without a time gets the epoch when it is unrolled: [fields a | unroll (a)]. *)
Lemma unroll_gives_time : Pipes.apply (UnrollPipe [97]) 0 fzero [MkRow 0 [([97], [120; 32; 121])] true] = Some [row_at 0 [120]; row_at 0 [121]].
Proof. reflexivity. Qed.
(** [rename a as b] beside a field [b] gives two fields of one name. *)
Lemma rename_duplicates : rename_fields [[97]] [[98]] (MkRow 0 [([97], [49]); ([98], [50])] false) = MkRow 0 [([98], [49]); ([98], [50])] false.
Proof. reflexivity. Qed.
(** Distinct tuples of values with a NUL byte share a key. *)
Lemma rowKey_collides :
  rowKey (MkRow 0 [([97], [120; 0]); ([98], [])] false) [[97]; [98]] = rowKey (MkRow 0 [([97], [120]); ([98], [0])] false) [[97]; [98]].
Proof. reflexivity. Qed.
(** Values equal as numbers and not as text are each less than the other in a
    descending sort. *)
Lemma sort_desc_not_strict : sort_less [[97]] true (row_at 0 [49]) (row_at 0 [48; 49]) && sort_less [[97]] true (row_at 0 [48; 49]) (row_at 0 [49]) = true.
Proof. reflexivity. Qed.
(** The minimum of no numbers prints as 0, which a merge across shards then takes
    for the least of positive ones. *)
Definition min_agg : Agg := MkAgg [97] [] [109] None fzero AggMin.
Lemma min_of_none :
  stats_apply (MkStats [] [min_agg]) 0 fzero [row_at 0 [120]] = Some [MkRow 0 [([109], [48])] true] ∧
  mergeOpFor AggMin = Some MergeMin ∧ Combine MergeMin (float_of_int 5) fzero false = fzero.
Proof. repeat split; vm_compute; reflexivity. Qed.
(** An escaped quote ends the quoted value of the pair, and the rest of it is a key. *)
Lemma logfmt_escape : parseLogfmtPairs [107; 61; 34; 97; 92; 34; 98; 34] = [([107], [97; 92]); ([98; 34], [])].
Proof. reflexivity. Qed.
(** [top by (hits)] orders by the grouped value. *)
Lemma top_by_hits :
  top_apply [s_hits] 0 0 [MkRow 0 [(s_hits, [55])] false; MkRow 0 [(s_hits, [51])] false; MkRow 0 [(s_hits, [51])] false] =
    Some [MkRow 0 [(s_hits, [55]); (s_hits, [49])] true; MkRow 0 [(s_hits, [51]); (s_hits, [50])] true].
Proof. vm_compute. reflexivity. Qed.
(** The time of a line is read from the first [_time] in it, a key's text included:
    a row without a time whose key ends in a quote and [_time] holds one. *)
Lemma time_of_a_key : rowLineTime (row_text (MkRow 0 [([120; 34] ++ s_time, rfc3339 7)] true) false) = 7.
Proof. vm_compute. reflexivity. Qed.
