(* ===== verification/IngestWitnesses.v ===== *)
(** * Witnesses and findings of the ingest protocols

    Bodies of JSON lines and of logfmt on reference instances; and the inputs on
    which the code does something its comments say it does not. *)

From Stdlib Require Import Ascii String SpecFloat.
From S2P Require Import Prelude Digits GoLib Writer Batches Filter Engine TimeFilter Text Rows StatsPipe Pipes LogsQL LogsQLOk LogsQLText.
From S2P Require Import Records Jsonl JsonlOk TextLines Rfc3339 PipeWitnesses.
From stdpp Require Import list gmap.
Local Open Scope Z_scope.
#[local] Existing Instance pipe_text.
#[local] Existing Instance pipe_time.
#[local] Existing Instance pipe_funcs.
#[local] Existing Instance ref_range.

(** ** Reference instances *)

(** Capacities that double. *)
#[local] Instance doubling : GoSlices := {| ParseFloat32 := λ s, float_of_int <$> Filter.Atoi s; growslice := λ n, (2 * n)%nat |}.
(** Lines by name. *)
Definition num (n : Z) : jvalue := JNumber (Itoa n) (float_of_int n).
Definition named_lines : list (bytes * jvalue) :=
  [(lit "row", JObject [(lit "a", JString (lit "x")); (lit "n", num 7)]);
   (lit "late", JObject [(s_time, JString (lit "253402300800000000000"))]);
   (lit "two", JObject [(s_time, num 17); (lit "e1", JArray [num 1; num 2]); (lit "e2", JArray [num 3; num 4])]);
   (lit "three", JObject [(s_time, num 17); (lit "e1", JArray [num 1; num 2]); (lit "e2", JArray [num 3; num 4; num 5]); (lit "e3", JArray [num 6; num 7])]);
   (lit "text", JObject [(s_time, num 17); (lit "e1", JString (lit "none"))]);
   (lit "one", JObject [(s_time, num 17); (lit "host", JString (lit "h")); (lit "e1", JArray [num 1; num 2])]);
   (lit "big", JObject [(s_time, num 17); (lit "e1", JArray [num (10 ^ 39); num 2])])].
#[local] Instance named : Simdjson := {| simdjson_Parse := λ s, snd <$> List.find (λ kv, str_eqb kv.1 s) named_lines |}.
Definition vec_config (names : list bytes) (streams : list bytes) : settings :=
  Settings (Config streams (list_to_map ((λ n, (n, 2)) <$> names)) no_limits false) 0.

(** ** Witnesses *)

(** Two shards of a body with a line out of range and one that is not JSON. *)
Definition sample_cfg : ParallelConfig := MkParallel false [] 0 no_limits ∅ 2.
Definition sample_body : bytes := lit "row" ++ [10] ++ lit "late" ++ [10] ++ lit "junk" ++ [10] ++ lit "row".
(** The same lines with a megabyte of empty ones after them, which the two shards of
    the configuration share. *)
Definition big_body : bytes := sample_body ++ replicate (Z.to_nat MinParallelBytes) 10.
Lemma len_big_body : len big_body = len sample_body + MinParallelBytes.
Proof. unfold big_body. rewrite len_app, len_replicate, Z2Nat.id; [reflexivity|]. by vm_compute. Qed.
Lemma big_body_shards : ShardsFor 8 sample_cfg (len big_body) = 2.
Proof. rewrite len_big_body. vm_compute. reflexivity. Qed.
Lemma big_body_branch clock close first :
  IngestJSONLinesParallelResult 8 big_body sample_cfg None clock close first =
    sharded (apply_config sample_cfg new_writer) None (imap (λ i c, Shard c (clock i) (close i)) (splitLines big_body 2)) first.
Proof. unfold IngestJSONLinesParallelResult. rewrite big_body_shards. reflexivity. Qed.
Lemma sharded_exact_witness :
  MinParallelBytes ≤ len big_body ∧
  ∃ now,
    let y := IngestJSONLinesOpts (apply_config sample_cfg new_writer) big_body now None in
    let x := sharded (apply_config sample_cfg new_writer) None (imap (λ i c, Shard c (λ k, Z.of_nat (i + k)) None) (splitLines big_body 2)) 0 in
    Rejected x.1.1 = Rejected (i_res y) ∧ RejectedAt x.1.1 = RejectedAt (i_res y) ∧ concat x.2 = i_calls y ∧ x.1 = (i_res y, None).
Proof.
  split; [rewrite len_big_body; by vm_compute|].
  destruct (sharded_exact 8 big_body sample_cfg None (λ i k, Z.of_nat (i + k)) (λ _, None) 0) as (now & H1 & H2 & H3 & H4 & H5 & H6).
  - change (size (pc_VectorFields sample_cfg)) with 0%nat. lia.
  - rewrite len_big_body. by vm_compute.
  - rewrite big_body_branch in H1, H2, H3, H6. exists now. split; [exact H2|]. split; [exact H3|]. split; [exact H1|exact (H6 (λ _, eq_refl))].
Defined.
(** The shards of the same body, run as the branch above the threshold runs them. *)
Example sample_shards :
  let shards := imap (λ i c, Shard c (λ k, Z.of_nat (i + k)) None) (splitLines sample_body 2) in
  let x := sharded new_writer None shards 0 in
  (len shards, Rejected x.1.1, RejectedAt x.1.1, wn_Ordinal <$> Warnings x.1.1, length (concat x.2)) = (2, 2, [1; 2], [1], 2%nat).
Proof. vm_compute. reflexivity. Qed.
#[local] Instance no_floats : GoText :=
  {| ParseFloat := λ _, Some twoPow63; regexp_Compile := λ _, None; ToLower := λ s, s; uint32_of := λ _, 0; Format_RFC3339Nano := rfc3339 |}.
Lemma times_exact_witness :
  parseTime (lit "9223372036854775807") = inr (Some MaxInt64) ∧
  parseTime (lit "9223372036854775808") = inl (tsRange (lit "9223372036854775808") (lit "ns")) ∧
  ∀ raw t, numberTime raw = inr (Some t) → storable t.
Proof.
  destruct (@times_exact no_floats pipe_time ltac:(by intros s f [= <-])) as (H1 & _ & H3).
  split_and!; [by rewrite (H1 (lit "9223372036854775807"))|by rewrite (H1 (lit "9223372036854775808"))|exact H3].
Defined.
Definition logfmt_sample : list (list (bytes * bytes)) := [[([97], [120; 34; 32; 92]); ([98], [])]; [([97], [121])]].
Lemma logfmt_ingests_witness :
  l_calls (IngestLogfmtOpts new_writer (print_body logfmt_sample) (λ k, Z.of_nat k) None) =
  [Call 0 (last_wins [([97], [120; 34; 32; 92]); ([98], [])]) false ∅; Call 1 (last_wins [([97], [121])]) false ∅].
Proof.
  destruct (logfmt_ingests new_writer logfmt_sample (λ k, Z.of_nat k)) as [_ H].
  - reflexivity.
  - repeat constructor; cbn; try done; lia.
  - exact H.
Defined.

(** ** Findings *)

Definition vecs_of (k : bytes) (s : ingest) : list (option (list Z)) := (λ c, c_vecs c !! k) <$> i_calls s.
(** Two embeddings of a record share the scratch slice: the first is stored with the
    floats of the second, 3 and 4. *)
Lemma embeddings_share_scratch :
  let s := IngestJSONLinesOpts (vec_config [lit "e1"; lit "e2"] []) (lit "two") (λ _, 0) None in
  vecs_of (lit "e1") s = [Some [float32 (float_of_int 3); float32 (float_of_int 4)]] ∧ vecs_of (lit "e2") s = vecs_of (lit "e1") s.
Proof. vm_compute. split; reflexivity. Qed.
(** And then the floats it is stored with depend on the shards: of two records of three
    embeddings one pass stores the first embedding of the second as 6 and 7, which is
    where the scratch slice it grew for the first record was written last, and two
    shards, whose scratch slices are new, store it as 3 and 4. *)
Lemma embeddings_depend_on_shards :
  let w := Settings (Config [] (list_to_map [(lit "e1", 2); (lit "e2", 3); (lit "e3", 2)]) no_limits false) 0 in
  let body := lit "three" ++ [10] ++ lit "three" in
  let x := sharded w None (imap (λ i c, Shard c (λ k, 0) None) (splitLines body 2)) 0 in
  let floats l := float32 ∘ float_of_int <$> l in
  ((λ c, c_vecs c !! lit "e1") <$> i_calls (IngestJSONLinesOpts w body (λ _, 0) None), (λ c, c_vecs c !! lit "e1") <$> concat x.2) =
  ([Some (floats [3; 4]); Some (floats [6; 7])], [Some (floats [3; 4]); Some (floats [3; 4])]).
Proof. vm_compute. reflexivity. Qed.
(** A configured embedding that arrives as text: the record is counted accepted, and
    handed to no writer. *)
Lemma text_embedding_lost :
  let s := IngestJSONLinesOpts (vec_config [lit "e1"] []) (lit "text") (λ _, 0) None in
  Accepted (i_res s) = 1 ∧ Rejected (i_res s) = 0 ∧ i_calls s = [].
Proof. vm_compute. repeat split; reflexivity. Qed.
(** A request that names its stream fields, a record with an embedding: the call does
    not say that the label is the request's, and the deployment's fields label it. *)
Definition by_host : Options := MkOptions [] [] [lit "host"] [] [].
Lemma embedding_stream_not_overridden :
  c_override <$> i_calls (IngestJSONLinesOpts (vec_config [lit "e1"] [lit "app"]) (lit "one") (λ _, 0) (Some by_host)) = [false] ∧
  c_override <$> i_calls (IngestJSONLinesOpts (vec_config [] [lit "app"]) (lit "one") (λ _, 0) (Some by_host)) = [true].
Proof. vm_compute. split; reflexivity. Qed.
(** A component past the range of [float32] is stored as an infinity. *)
Lemma embedding_infinite :
  vecs_of (lit "e1") (IngestJSONLinesOpts (vec_config [lit "e1"] []) (lit "big") (λ _, 0) None) =
  [Some [Float32bits (S754_infinity false); float32 (float_of_int 2)]].
Proof. vm_compute. reflexivity. Qed.
(** [_time_field=ts] on logfmt: the time of the record is dropped and the clock stamps
    it. *)
Lemma logfmt_time_field_lost :
  l_calls (IngestLogfmtOpts new_writer (lit "ts=17 a=b") (λ _, 99) (Some (MkOptions (lit "ts") [] [] [] []))) =
  [Call 99 {[lit "a" := lit "b"]} false ∅].
Proof. vm_compute. reflexivity. Qed.
