(* ===== verification/LangWitnesses.v ===== *)
(** * Witnesses and findings of the query language

    A text that selects rows of the sample group; and the texts that the parser, or
    the planner over it, takes for something else. *)

From Stdlib Require Import Ascii String SpecFloat.
From S2P Require Import Prelude Digits GoLib Kernels Indices Timestamps DictSection DictLayout Postings Bloom Group Bitset Select.
From S2P Require Import Reader ReaderSafe ReaderOk Table Writer Filter FilterOk Engine EngineOk TimeFilter Findings Witnesses QueryWitnesses.
From S2P Require Import Text Rows StatsPipe Pipes Pipeline Distributed LogsQL LogsQLOk LogsQLText LogsQLTrip Lower.
From stdpp Require Import list gmap.
Local Open Scope Z_scope.

(** ** Reference instances *)

(** ASCII letters, whole numbers. *)
#[local] Instance lang_text : GoText :=
  {| ParseFloat := λ s, float_of_int <$> Filter.Atoi s; regexp_Compile := λ _, None; ToLower := ascii_lower; uint32_of := λ _, 0;
     Format_RFC3339Nano := λ _, [] |}.
#[local] Instance lang_time : GoTime := {| time_Parse := λ _ _, None; AddDate := λ t _ _ _, t |}.
#[local] Instance lang_fold : GoFold := {| EqualFold := λ a b, bool_decide (ascii_lower a = ascii_lower b) |}.
#[local] Instance lang_law : AsciiFold lang_text lang_fold.
Proof. by constructor. Qed.
#[local] Existing Instance ref_range.

(** ** Witness *)

(** The rows whose [v] is not one that the rows with [k] equal to [x] have. *)
Definition sub_text : bytes := lit "!v:in(k:=x | fields v)".
Definition sub_rows (_ : qexpr) (_ : list qpipe) : list Row := [MkRow 5 [([118], [98])] false; MkRow 7 [([118], [99])] false].

(** ** Findings *)

Definition parsed_preds (s : string) : option (list qexpr) :=
  match ParseLogsQL (lit s) with Done x _ => Some x.1.1 | _ => None end.
(** [a:!=5] is taken for [a:=] with no value, and the number is dropped. *)
Definition not_five : Pred := nums_pred (lit "a") KEq (float_of_int 5) fzero false.
Lemma not_equal_is_equal_empty :
  parsed_preds "a:!=5" = Some [QLeaf not_five] ∧
  predMatchesRow not_five (rowOf (MkRow 0 [(lit "a", lit "4")] false)) = false ∧ predMatchesRow not_five (rowOf (MkRow 0 [] false)) = true.
Proof. split_and!; vm_compute; reflexivity. Qed.
(** A parenthesis that closes a [_time] filter is read into its value. *)
Lemma time_takes_parenthesis : ∃ ts, lexLogsQL (lit "(_time:5m)") = Some ts ∧ Tok (lit "5m)") tTimeVal ∈ ts ∧ ParseLogsQL (lit "(_time:5m)") = Err (time_error bad_value).
Proof. eexists. split; [vm_compute; reflexivity|]. split; [|vm_compute; reflexivity]. vm_compute. set_solver. Qed.
(** A subquery inside a [filter] pipe is never run: the pipe keeps no row, whatever
    the subquery would answer. *)
Definition parsed_pipes (s : string) : list qpipe := match ParseLogsQL (lit s) with Done x _ => x.2 | _ => [] end.
Lemma filter_subquery_unresolved run_sub :
  lower_pipe run_sub <$> parsed_pipes "* | filter a:in(b:1 | fields a)" = [FilterPipe (OpLeaf (vals_pred (lit "a") KIn []))].
Proof. vm_compute. reflexivity. Qed.
(** A parenthesis inside a subquery of [in] ends the search for its colon, and the
    subquery is read as a list of values. *)
Lemma nested_subquery_refused : ParseLogsQL (lit "a:in((b or c) d:1)") = Err (bad_list_value (lit "in") (lit "(")).
Proof. vm_compute. reflexivity. Qed.
(** A quote that the splitter of segments takes for a string and the lexer for a
    letter hides one bar, and a bar inside a string makes up for it: the counts agree,
    and the shards are sent the aggregation as well as the pipe before it. *)
Definition fooled : string := "* | len(a) as b' | stats count() c' | filter d:e'".
Definition fooled_raw : bytes := lit fooled ++ [32; 34] ++ lit "x ' | y" ++ [34].
Definition parse_pipes (s : bytes) : option (list Pipe) := match ParseLogsQL s with Done x _ => Some (lower_pipe (λ _ _, []) <$> x.2) | _ => None end.
Lemma aggregated_twice :
  match planQuery parse_pipes fooled_raw 0 with
  | inr (sq, Stats st :: _) => sq = lit "* | len(a) as b' | stats count() c'" ∧ parse_pipes sq = Some [LenPipe (lit "a") (lit "b'"); Stats st]
  | _ => False
  end.
Proof. vm_compute. split; reflexivity. Qed.
