(* ===== verification/QueriedWitness.v ===== *)
(** * A body of lines, queried

    The whole chain on reference instances: two records printed as logfmt, one
    group, and the answer to a filter. *)

From Stdlib Require Import Ascii String SpecFloat.
From S2P Require Import Prelude Digits GoLib Kernels Indices Timestamps Compress DictSection DictLayout Postings Bloom Group GroupSafe GroupLayout Bitset Select.
From S2P Require Import Reader ReaderSafe ReaderOk Table Writer Ingest Batches Filter FilterOk Engine EngineOk TimeFilter Scan ScanOk Findings Witnesses QueryWitnesses.
From S2P Require Import Text Rows StatsPipe Pipes LogsQL LogsQLOk LogsQLText LogsQLTrip Lower Records Jsonl JsonlOk TextLines Batching Queried.
From S2P Require Import IngestWitnesses LangWitnesses.
From S2P Require Import Writer Filter.
From stdpp Require Import list sorting gmap.
Local Open Scope Z_scope.
#[local] Existing Instance lang_text.
#[local] Existing Instance lang_time.
#[local] Existing Instance lang_fold.
#[local] Existing Instance lang_law.
#[local] Existing Instance ref_range.
#[local] Existing Instance doubling.

Definition asked_tree : LogsQLText.tree := TNot (TAtom (AEq [97] [121])).
Definition in_ten : Query := with_window zero_query 0 10 true.
Definition sample_rows : list row := imap (λ i r, stored_row plain_config (Z.of_nat i) (last_wins r) false ∅) logfmt_sample.
Definition sample_run : sys :=
  flushLocked 1 (write_calls (newWriter plain_config 0)
    (zip [(0, 0); (0, 0)] (l_calls (IngestLogfmtOpts (Settings plain_config 0) (print_body logfmt_sample) Z.of_nat None)))).
Definition sample_job : job := default (MkJobState 0 (take_job plain_config no_rows) [] Queued) (s_jobs sample_run !! 0%nat).
Definition sample_group : Group := match worker_group (jb_job sample_job) with Ok (g, _) => g | _ => sample end.
Definition queried_reader : Reader := good_reader (Findings.result [] (Marshal sample_group)).
Definition sample_lease : leased := Lease queried_reader (new_caches queried_reader 100 0) 1.

Lemma sample_schema : schema plain_config [[97]; [98]].
Proof.
  constructor; [by vm_compute|apply map_Forall_empty| |by intros k _].
  split; [|done]. intros H. repeat (apply elem_of_cons in H as [H|H]; [done|]). by apply elem_of_nil in H.
Qed.
Lemma sample_rows_fit : Forall (fits_row [[97]; [98]]) sample_rows.
Proof. apply Forall_cons_2; [constructor; by_eval|]. apply Forall_cons_2; [constructor; by_eval|apply Forall_nil_2]. Qed.
Lemma sample_stored : stored_as (jb_job sample_job) sample_lease.
Proof.
  exists sample_group, (Findings.result [] (Marshal sample_group)). split_and!; [by vm_compute..|apply new_caches_ok].
Qed.
Lemma one_part {A} (parts : list (list A)) l : concat parts = l → length parts = 1%nat → parts = [l].
Proof. intros <-. destruct parts as [|p [|q ps]]; [done| |done]. cbn. by rewrite app_nil_r. Qed.
Lemma sample_jobs : s_jobs sample_run = [sample_job].
Proof. vm_compute. reflexivity. Qed.
(** [!a:="y"] answers with the first record. *)
Lemma lines_queried_witness :
  ∃ x, ParseLogsQL (tree_text asked_tree LOr) = Done x tt ∧
    Run untimed 500 2 (QueryWitnesses.turns 2 10) (Some [sample_lease]) (resolveSubqueries (λ _ _, []) in_ten x).1 =
      Ok (Some ([MkRow 0 [([97], [120; 34; 32; 92])] false], None)).
Proof.
  destruct (lines_queried plain_config 0 [[97]; [98]] logfmt_sample Z.of_nat 0 [(0, 0); (0, 0)] 1 (λ _ _, []) in_ten asked_tree) as (parts & Ep & El & _ & H).
  - done.
  - apply sample_schema.
  - repeat constructor; cbn; try done; lia.
  - done.
  - apply sample_rows_fit.
  - by vm_compute.
  - by vm_compute.
  - by vm_compute.
  - change (s_jobs _) with (s_jobs sample_run) in El, H. rewrite sample_jobs in El, H. change (imap _ _) with sample_rows in Ep.
    pose proof (one_part parts sample_rows Ep El) as ->.
    destruct (H [(sample_job, sample_rows)] [sample_lease]) as (x & Ex & Hr); [reflexivity|apply Forall2_cons; split; [apply sample_stored|apply Forall2_nil_2]|].
    assert (ParseLogsQL (tree_text asked_tree LOr) = Done (split_filter (tree_expr asked_tree)) tt) as E by (vm_compute; reflexivity).
    assert (x = split_filter (tree_expr asked_tree)) as -> by congruence. exists (split_filter (tree_expr asked_tree)). split; [exact E|].
    destruct (Hr untimed 500 2%nat (QueryWitnesses.turns 2 10) ltac:(lia)) as (res & -> & H1 & H2 & H3).
    destruct res as [[answer r]|]; [|by destruct (H1 (QueryWitnesses.turns_enough 2 1))].
    assert (r = None) as -> by (refine (H3 _ (λ _, eq_refl) _ answer r eq_refl); by_eval).
    rewrite (H2 answer eq_refl). vm_compute. reflexivity.
Defined.
