(* ===== verification/Backup.v ===== *)
(** * Backup and restore

    [internal/storage/backup.go], [backup_manifest.go] and [restore.go]: the archive
    of a store, read back under its manifest ([readBackup]), and the staged restore
    that puts it in place with one rename. [archive/tar] is the list of its entries.
    [readRestore] bounds what an archive may place; [Restore] touches its destination
    and the siblings it derives, every system call it makes is a step, which may fail,
    and a run keeps every state of the directories between two of them: the states a
    kill leaves. Another process at the same paths is not part of the model; the lock
    it would hold is one of the calls that fail. *)

From Stdlib Require Import Ascii String.
From S2P Require Import Prelude Digits GoLib Kernels Group Filter TimeFilter Text.
From stdpp Require Import list gmap sorting.
Local Open Scope Z_scope.

(** ** Definitions *)

(** *** Names *)

(** [filepath.Base]. *)
Definition filepath_Base (path : bytes) : bytes :=
  if bool_decide (path = []) then [46] else
  let rest := (span (λ c, bool_decide (c = 47)) (rev path)).2 in
  let base := rev (span (λ c, negb (bool_decide (c = 47))) rest).1 in
  if bool_decide (base = []) then [47] else base.
Definition group_name (id : Z) : bytes := lit "group-" ++ Itoa id ++ lit ".bin".
Definition groupIDFromName (name : bytes) : option Z :=
  let base := filepath_Base name in
  if negb (HasPrefix base (lit "group-")) then None else
  let ds := (span (λ c, bool_decide (48 ≤ c ≤ 57)) (drop 6 base)).1 in
  let id := foldl (λ n c, 10 * n + (c - 48)) 0 ds in
  if bool_decide (ds = []) || negb (bool_decide (id < 2 ^ 64)) then None
  else if bool_decide (base = group_name id) then Some id else None.
Definition backupManifestName : bytes := lit "BACKUP-MANIFEST".
Definition backupCompleteName : bytes := lit "BACKUP-COMPLETE".
Definition clusterManifestName : bytes := lit "cluster.json".

(** *** The manifest of an archive *)

Definition BackupFormat : Z := 1.
Definition maxUnverifiedGroupBytes : Z := Z.shiftl 1 30.
Definition maxBackupManifestBytes : Z := Z.shiftl 64 20.
Record BackupGroup := BGroup { bg_Name : bytes; bg_ID : Z; bg_Version : Z; bg_Rows : Z; bg_Bytes : Z; bg_CRC32C : Z }.
Record BackupManifest := BManifest { bm_Format : Z; bm_CreatedUnix : Z; bm_Tenant : bytes; bm_ManifestSeq : Z; bm_Groups : list BackupGroup }.
#[export] Instance BackupGroup_eq_dec : EqDecision BackupGroup.
Proof. solve_decision. Defined.
#[export] Instance BackupManifest_eq_dec : EqDecision BackupManifest.
Proof. solve_decision. Defined.

(** [encoding/json] at this type: [Marshal]; [Unmarshal] of the [format] field alone;
    a [Decoder] that refuses unknown fields. *)
Class BackupJson := { json_Marshal : BackupManifest → bytes; json_format : bytes → option Z; json_Decode : bytes → option BackupManifest }.
Definition plain_text (s : bytes) : Prop := Forall (λ c, 32 ≤ c < 127) s.
Class BackupJsonLaws (J : BackupJson) : Prop := {
  json_format_law m : json_format (json_Marshal m) = Some (bm_Format m);
  json_Decode_law m : plain_text (bm_Tenant m) → Forall (λ g, plain_text (bg_Name g)) (bm_Groups m) → json_Decode (json_Marshal m) = Some m }.

Inductive backupErr :=
| ManifestUnreadable | BadFormat (n : Z) | GroupUnnamed | NamedTwice (name : bytes) | NotAGroup (name : bytes) | NegativeSize (name : bytes)
| TwoManifests | ManifestOver (n : Z) | GroupsFirst | TooManyGroups (n : Z) | AfterTerminator (name : bytes) | TwoTerminators
| ErrClusterArchive | ClusterArchive (manifest : bytes) | CarriedTwice (name : bytes) | EntryOver (name : bytes) (n : Z) | ArchiveUnreadable
| DoesNotParse (name : bytes) | NotNamed (name : bytes) | SizeDiffers (name : bytes) (n want : Z) | BadGroupSize (name : bytes) (n want : Z)
| BadGroupChecksum (name : bytes) (got want : Z) | ErrBackupUnverified | ErrBackupTruncated (absent : option bytes)
| ErrWrongTenant | TooManyFiles | FileOver (name : bytes) (n : Z) | TotalOver (n : Z) | WriteFailed (name : bytes).

Definition bg_le (a b : BackupGroup) : Prop := bg_ID a ≤ bg_ID b.
#[export] Instance bg_le_dec a b : Decision (bg_le a b).
Proof. unfold bg_le. apply _. Defined.
(** The loop of [decodeBackupManifest]. *)
Fixpoint check_groups (seen : list bytes) (gs : list BackupGroup) : option backupErr :=
  match gs with
  | [] => None
  | g :: gs =>
      let name := bg_Name g in
      if bool_decide (name = []) then Some GroupUnnamed
      else if bool_decide (name ∈ seen) then Some (NamedTwice name)
      else match groupIDFromName name with
      | None => Some (NotAGroup name)
      | Some _ => if bool_decide (bg_Bytes g < 0) then Some (NegativeSize name) else check_groups (name :: seen) gs
      end
  end.
Definition verifyGroupBytes (g : BackupGroup) (b : bytes) : option backupErr :=
  if bool_decide (len b ≠ bg_Bytes g) then Some (BadGroupSize (bg_Name g) (len b) (bg_Bytes g))
  else if bool_decide (Checksum b ≠ bg_CRC32C g) then Some (BadGroupChecksum (bg_Name g) (Checksum b) (bg_CRC32C g))
  else None.
(** A blob of eight bytes or more has a version word. *)
Definition backupGroupOf (name : bytes) (id rows : Z) (blob : bytes) : BackupGroup :=
  BGroup name id (match get32 blob 4 with Ok v => if bool_decide (8 ≤ len blob) then v else 0 | Panic => 0 end) rows (len blob) (Checksum blob).

(** *** Archives *)

(** An entry: its header's name, whether it is a regular file, its declared size,
    and its bytes, unless reading them fails. An archive ends, or breaks off. *)
Record entry := Entry { en_name : bytes; en_reg : bool; en_size : Z; en_data : option bytes }.
Record archive := Archive { ar_entries : list entry; ar_ends : bool }.
Definition regular (name data : bytes) : entry := Entry name true (len data) (Some data).

(** A leased group: its id, its rows and its mapped bytes. *)
Record snapGroup := SnapGroup { sg_id : Z; sg_rows : Z; sg_blob : bytes }.

Record backupReadLimits := Limits { maxManifestBytes : Z; maxGroups : Z; maxEntryBytes : Z }.
Definition entryBytes (l : backupReadLimits) : Z :=
  if bool_decide (0 < maxEntryBytes l ∧ maxEntryBytes l < maxUnverifiedGroupBytes) then maxEntryBytes l else maxUnverifiedGroupBytes.
Definition manifestBytes (l : backupReadLimits) : Z := if bool_decide (0 < maxManifestBytes l) then maxManifestBytes l else maxBackupManifestBytes.
(** [io.ReadAll(io.LimitReader(tr, n))]. *)
Definition read_limited (e : entry) (n : Z) : option bytes := take (Z.to_nat n) <$> en_data e.

Section archives.
Context {K : Simd} {F : Flate} {J : BackupJson}.

Definition decodeBackupManifest (b : bytes) : backupErr + BackupManifest :=
  match json_format b with
  | None => inl ManifestUnreadable
  | Some f =>
      if bool_decide (f ≠ BackupFormat) then inl (BadFormat f) else
      match json_Decode b with
      | None => inl ManifestUnreadable
      | Some m => match check_groups [] (bm_Groups m) with Some e => inl e | None => inr m end
      end
  end.
(** [encode]: the groups by id, then the bytes. *)
Definition backup_encode (m : BackupManifest) : BackupManifest * bytes :=
  let m := BManifest (bm_Format m) (bm_CreatedUnix m) (bm_Tenant m) (bm_ManifestSeq m) (merge_sort bg_le (bm_Groups m)) in (m, json_Marshal m).
(** [BackupTarWith] over the snapshot taken with the manifest's sequence number:
    the entries it writes; [None]: the manifest names a group that is not held. *)
Definition BackupTarWith (tenant : bytes) (now seq : Z) (snap : list snapGroup) : option (list entry) :=
  let name g := filepath_Base (group_name (sg_id g)) in
  let x := backup_encode (BManifest BackupFormat now tenant seq ((λ g, backupGroupOf (name g) (sg_id g) (sg_rows g) (sg_blob g)) <$> snap)) in
  let byName : gmap bytes bytes := foldl (λ m g, <[name g := sg_blob g]> m) ∅ snap in
  blobs ← mapM (λ g, (λ b, regular (bg_Name g) b) <$> byName !! bg_Name g) (bm_Groups x.1);
  Some (regular backupManifestName x.2 :: blobs ++ [regular backupCompleteName []]).

(** *** Reading an archive *)

Section read.
(** What the callbacks keep. *)
Context {E : Type} (onManifest : BackupManifest → E → option backupErr * E) (emit : bytes → bytes → E → option backupErr * E).

Record rstate := RState {
  r_man : option BackupManifest; r_restored : list bytes; r_byName : gmap bytes BackupGroup; r_seen : gset bytes;
  r_complete : bool; r_before : bool; r_env : E }.
(** [man], [restored], what the callbacks kept, and the error. *)
Definition rresult : Type := option BackupManifest * list bytes * E * option backupErr.
Definition stops (s : rstate) (e : backupErr) : rresult + rstate := inl (r_man s, r_restored s, r_env s, Some e).
(** The [return nil, restored, err] of the manifest. *)
Definition stops_nil (s : rstate) (e : backupErr) : rresult + rstate := inl (None, r_restored s, r_env s, Some e).

Definition manifest_entry (lim : backupReadLimits) (e : entry) (s : rstate) : rresult + rstate :=
  if r_complete s then stops s (AfterTerminator backupManifestName)
  else if bool_decide (is_Some (r_man s)) then stops s TwoManifests
  else if bool_decide (manifestBytes lim < en_size e) then stops_nil s (ManifestOver (en_size e))
  else match read_limited e (manifestBytes lim + 1) with
  | None => stops_nil s ArchiveUnreadable
  | Some b =>
      if bool_decide (manifestBytes lim < len b) then stops_nil s (ManifestOver (len b))
      else if r_before s then stops_nil s GroupsFirst
      else match decodeBackupManifest b with
      | inl e => stops_nil s e
      | inr m =>
          if bool_decide (0 < maxGroups lim ∧ maxGroups lim < len (bm_Groups m)) then
            inl (Some m, r_restored s, r_env s, Some (TooManyGroups (len (bm_Groups m))))
          else
            let byName := foldl (λ t g, <[bg_Name g := g]> t) (r_byName s) (bm_Groups m) in
            let '(err, env) := onManifest m (r_env s) in
            match err with
            | Some e => inl (Some m, r_restored s, env, Some e)
            | None => inr (RState (Some m) (r_restored s) byName (r_seen s) (r_complete s) (r_before s) env)
            end
      end
  end.
(** The bytes of a group entry: read before any manifest, or checked against it. *)
Definition group_bytes (lim : backupReadLimits) (name : bytes) (e : entry) (s : rstate) : backupErr + bytes :=
  let parses (data : bytes) := match ReadGroup data with Good _ => inr data | _ => inl (DoesNotParse name) end in
  match r_man s with
  | None =>
      if bool_decide (entryBytes lim < en_size e) then inl (EntryOver name (en_size e)) else
      match read_limited e (entryBytes lim + 1) with
      | None => inl ArchiveUnreadable
      | Some data => if bool_decide (maxUnverifiedGroupBytes < len data) then inl (EntryOver name (len data)) else parses data
      end
  | Some _ =>
      match r_byName s !! name with
      | None => inl (NotNamed name)
      | Some g =>
          if bool_decide (en_size e ≠ bg_Bytes g) then inl (SizeDiffers name (en_size e) (bg_Bytes g))
          else if bool_decide (entryBytes lim < bg_Bytes g) then inl (EntryOver name (bg_Bytes g))
          else match read_limited e (bg_Bytes g + 1) with
          | None => inl ArchiveUnreadable
          | Some data => match verifyGroupBytes g data with Some e => inl e | None => parses data end
          end
      end
  end.
Definition group_entry (lim : backupReadLimits) (name : bytes) (e : entry) (s : rstate) : rresult + rstate :=
  if bool_decide (name ∈ r_seen s) then stops s (CarriedTwice name) else
  let before := r_before s || bool_decide (r_man s = None) in
  match group_bytes lim name e s with
  | inl e => stops s e
  | inr data =>
      let '(err, env) := emit name data (r_env s) in
      match err with
      | Some e => inl (r_man s, r_restored s, env, Some e)
      | None => inr (RState (r_man s) (r_restored s ++ [name]) (r_byName s) ({[name]} ∪ r_seen s) (r_complete s) before env)
      end
  end.
(** One turn of the loop of [readBackup]. *)
Definition read_entry (lim : backupReadLimits) (e : entry) (s : rstate) : rresult + rstate :=
  if negb (en_reg e) then inr s else
  let name := filepath_Base (en_name e) in
  if str_eqb name backupManifestName then manifest_entry lim e s
  else if str_eqb name backupCompleteName then
    if r_complete s then stops s TwoTerminators
    else inr (RState (r_man s) (r_restored s) (r_byName s) (r_seen s) true (r_before s) (r_env s))
  else if str_eqb name clusterManifestName then
    match read_limited e (manifestBytes lim + 1) with None => stops s ErrClusterArchive | Some b => stops s (ClusterArchive b) end
  else match groupIDFromName name with
  | None => inr s
  | Some _ => if r_complete s then stops s (AfterTerminator name) else group_entry lim name e s
  end.
Fixpoint read_entries (lim : backupReadLimits) (l : list entry) (s : rstate) : rresult + rstate :=
  match l with
  | [] => inr s
  | e :: l => match read_entry lim e s with inl r => inl r | inr s => read_entries lim l s end
  end.
Definition read_end (ends : bool) (s : rstate) : rresult :=
  let r (err : option backupErr) := (r_man s, r_restored s, r_env s, err) in
  if negb ends then r (Some ArchiveUnreadable) else
  match r_man s with
  | None => r (Some ErrBackupUnverified)
  | Some m =>
      match List.find (λ g, negb (bool_decide (bg_Name g ∈ r_seen s))) (bm_Groups m) with
      | Some g => r (Some (ErrBackupTruncated (Some (bg_Name g))))
      | None => r (if r_complete s then None else Some (ErrBackupTruncated None))
      end
  end.
Definition readBackup (lim : backupReadLimits) (a : archive) (env : E) : rresult :=
  match read_entries lim (ar_entries a) (RState None [] ∅ ∅ false false env) with inl r => r | inr s => read_end (ar_ends a) s end.
End read.

(** No callbacks, no limits but the built-in ones. *)
Definition VerifyBackup (a : archive) : option BackupManifest * option backupErr :=
  let r := readBackup (λ _ s, (None, s)) (λ _ _ s, (None, s)) (Limits 0 0 0) a tt in (r.1.1.1, r.2).
End archives.
Definition TotalRows (m : BackupManifest) : Z := foldl Z.add 0 (bg_Rows <$> bm_Groups m).

(** ** The staged restore *)

Record RestoreOptions := MkRestoreOptions {
  MaxFiles : Z; MaxBytes : Z; MaxFileBytes : Z; MaxManifestBytes : Z; RequireTenant : bytes; AllowUnverified : bool; DryRun : bool }.
Definition DefaultMaxRestoreFiles : Z := 100000.
Definition DefaultMaxRestoreBytes : Z := Z.shiftl 1 40.
Definition DefaultMaxRestoreFileBytes : Z := Z.shiftl 1 30.
Definition or_default (v d : Z) : Z := if bool_decide (0 < v) then v else d.
Definition maxFiles (o : RestoreOptions) : Z := or_default (MaxFiles o) DefaultMaxRestoreFiles.
Definition maxBytes (o : RestoreOptions) : Z := or_default (MaxBytes o) DefaultMaxRestoreBytes.
Definition maxFileBytes (o : RestoreOptions) : Z := or_default (MaxFileBytes o) DefaultMaxRestoreFileBytes.
Definition readLimits (o : RestoreOptions) : backupReadLimits := Limits (MaxManifestBytes o) (maxFiles o) (maxFileBytes o).
(** [RestoreOptions.check]. *)
Definition options_ok (o : RestoreOptions) : bool :=
  bool_decide (0 ≤ MaxFiles o ∧ 0 ≤ MaxBytes o ∧ 0 ≤ MaxFileBytes o ∧ 0 ≤ MaxManifestBytes o).
Definition checkRestoreTenant (m : BackupManifest) (o : RestoreOptions) : option backupErr :=
  if bool_decide (RequireTenant o = []) || bool_decide (bm_Tenant m = RequireTenant o) then None else Some ErrWrongTenant.

Section reading.
Context {K : Simd} {F : Flate} {J : BackupJson}.

(** The variables of [readRestore], and what [write] changes. *)
Record renv (W : Type) := REnv { re_files : Z; re_total : Z; re_saw : bool; re_world : W }.
Arguments REnv {W}. Arguments re_files {W}. Arguments re_total {W}. Arguments re_saw {W}. Arguments re_world {W}.
(** [write]; [None]: a dry run. The flag: the write succeeded. *)
Definition restore_emit {W} (o : RestoreOptions) (write : option (bytes → bytes → W → bool * W)) (name data : bytes) (s : renv W) : option backupErr * renv W :=
  if negb (bool_decide (RequireTenant o = [])) && negb (re_saw s) then (Some ErrWrongTenant, s) else
  let files := re_files s + 1 in
  let s := REnv files (re_total s) (re_saw s) (re_world s) in
  if bool_decide (maxFiles o < files) then (Some TooManyFiles, s)
  else if bool_decide (maxFileBytes o < len data) then (Some (FileOver name (len data)), s)
  else
    let total := re_total s + len data in
    let s := REnv files total (re_saw s) (re_world s) in
    if bool_decide (maxBytes o < total) then (Some (TotalOver total), s) else
    match write with
    | None => (None, s)
    | Some write =>
        let '(ok, w) := write name data (re_world s) in
        (if ok then None else Some (WriteFailed name), REnv files total (re_saw s) w)
    end.
Definition restore_manifest {W} (o : RestoreOptions) (m : BackupManifest) (s : renv W) : option backupErr * renv W :=
  (checkRestoreTenant m o, REnv (re_files s) (re_total s) true (re_world s)).
(** The manifest, whether the archive carried none, the error, and the world after
    the writes. *)
Definition readRestore {W} (a : archive) (write : option (bytes → bytes → W → bool * W)) (o : RestoreOptions) (w : W)
    : (option BackupManifest * bool * option backupErr) * W :=
  let '(man, _, s, err) := readBackup (restore_manifest o) (restore_emit o write) (readLimits o) a (REnv 0 0 false w) in
  (match err with
   | Some ErrBackupUnverified =>
       if negb (bool_decide (RequireTenant o = [])) then (man, true, Some ErrWrongTenant)
       else if AllowUnverified o then (man, true, None) else (man, true, Some ErrBackupUnverified)
   | Some e => (man, false, Some e)
   | None => (man, false, None)
   end, re_world s).
End reading.
#[global] Arguments REnv {W}.
#[global] Arguments re_files {W}.
#[global] Arguments re_total {W}.
#[global] Arguments re_saw {W}.
#[global] Arguments re_world {W}.

(** *** Directories *)

(** A directory: its files, its [LOCK], its mode. *)
Record dir := MkDir { d_files : gmap bytes bytes; d_lock : bool; d_mode : Z }.
Definition no_files (mode : Z) : dir := MkDir ∅ false mode.
(** The destination, [.restoring], [.restoring.old] and [.restoring.marker]. *)
Record fs := MkFS { f_dst : option dir; f_staging : option dir; f_displaced : option dir; f_marker : bool }.
Definition set_dst (d : option dir) (s : fs) : fs := MkFS d (f_staging s) (f_displaced s) (f_marker s).
Definition set_staging (d : option dir) (s : fs) : fs := MkFS (f_dst s) d (f_displaced s) (f_marker s).
Definition set_displaced (d : option dir) (s : fs) : fs := MkFS (f_dst s) (f_staging s) d (f_marker s).
Definition set_marker (b : bool) (s : fs) : fs := MkFS (f_dst s) (f_staging s) (f_displaced s) b.

(** The state now, and every state before it. *)
Record run := Run { cur : fs; past : list fs }.
Definition act (f : fs → fs) (s : run) : run := Run (f (cur s)) (cur s :: past s).

(** What the system calls answer. A [RemoveAll] that fails leaves something. *)
Record restore_env := RestoreEnv {
  e_symlink : bool; e_readdir : bool; e_mkdir_dst : bool; e_open_lock : bool; e_flock : bool;
  e_clear_staging : option (option dir); e_clear_displaced : option (option dir); e_clear_marker : bool;
  e_marker : bool; e_marker_left : bool; e_mkdir_staging : bool; e_writes : nat → bool; e_chmod : bool; e_sync_staging : bool;
  e_lock_staging : bool; e_flock_staging : bool; e_readdir2 : bool; e_rename_dst : bool; e_rename_staging : bool; e_sync1 : bool; e_release : bool; e_sync2 : bool;
  e_rm_staging : option (option dir); e_rm_displaced : option (option dir); e_rm_marker : bool }.
Definition removed (left : option (option dir)) : option dir := default None left.

Inductive restoreErr :=
| BadOptions | ErrRestoreDestination | ErrDestinationNotEmpty | ErrLocked | SystemError | ForeignStaging | ReadFailed (e : backupErr)
| ErrRestoredButUnsynced (unverified : bool) | RestoreUnverified.

(** [checkRestoreDir]: only a [LOCK] may be there. *)
Definition checkRestoreDir (readdir : bool) (d : option dir) : option restoreErr :=
  match d with
  | None => None
  | Some d => if negb readdir then Some SystemError else if bool_decide (d_files d = ∅) then None else Some ErrDestinationNotEmpty
  end.
(** One directory of [clearStaging]. *)
Definition clear_dir (get : fs → option dir) (set : option dir → fs → fs) (marked : bool) (left : option (option dir)) (s : run) : option restoreErr * run :=
  match get (cur s) with
  | None => (None, s)
  | Some _ =>
      if negb marked then (Some ForeignStaging, s)
      else (if bool_decide (left = None) then None else Some SystemError, act (set (removed left)) s)
  end.
Definition clearStaging (e : restore_env) (s : run) : option restoreErr * run :=
  let marked := f_marker (cur s) in
  let '(err, s) := clear_dir f_staging set_staging marked (e_clear_staging e) s in
  match err with
  | Some err => (Some err, s)
  | None =>
      let '(err, s) := clear_dir f_displaced set_displaced marked (e_clear_displaced e) s in
      match err with
      | Some err => (Some err, s)
      | None =>
          if negb (f_marker (cur s)) then (None, s)
          else if negb (e_clear_marker e) then (Some SystemError, s) else (None, act (set_marker false) s)
      end
  end.
(** The [write] of a restore: [writeFileAtomic] into the staging directory, for the
    [n]-th time. *)
Definition stage_file (e : restore_env) (name data : bytes) (x : nat * run) : bool * (nat * run) :=
  let '(n, s) := x in
  if negb (e_writes e n) then (false, (S n, s)) else
  let add d := MkDir (<[name := data]> (d_files d)) (d_lock d) (d_mode d) in
  (true, (S n, act (λ f, set_staging (add <$> f_staging f) f) s)).

(** The deferred calls, last registered first. *)
Definition drop_marker (e : restore_env) (s : run) : run := if e_rm_marker e then act (set_marker false) s else s.
Definition drop_staging (e : restore_env) (s : run) : run := drop_marker e (act (set_staging (removed (e_rm_staging e))) s).
Definition drop_displaced (e : restore_env) (s : run) : run := act (set_displaced (removed (e_rm_displaced e))) s.

Definition rreturn : Type := option BackupManifest * option restoreErr.

Section restore.
Context {K : Simd} {F : Flate} {J : BackupJson}.

Definition dryRunRestore (a : archive) (o : RestoreOptions) : rreturn :=
  let '((man, unverified, err), _) := readRestore a None o tt in
  match err with Some err => (man, Some (ReadFailed err)) | None => (man, if unverified then Some RestoreUnverified else None) end.

(** After the second rename. *)
Definition restore_landed (e : restore_env) (man : option BackupManifest) (unverified : bool) (s : run) : rreturn * run :=
  let s := drop_marker e (drop_displaced e s) in
  if negb (e_sync1 e && e_release e && e_sync2 e) then ((man, Some (ErrRestoredButUnsynced unverified)), s)
  else ((man, if unverified then Some RestoreUnverified else None), s).
(** From the staged groups to the second rename. *)
Definition restore_swap (e : restore_env) (man : option BackupManifest) (unverified made : bool) (mode : Z) (s : run) : rreturn * run :=
  let fails err s := ((man, Some err), drop_staging e s) in
  let chmod f := set_staging ((λ d, MkDir (d_files d) (d_lock d) mode) <$> f_staging f) f in
  if negb made && negb (e_chmod e) then fails SystemError s else
  let s := if made then s else act chmod s in
  if negb (e_sync_staging e) then fails SystemError s
  else if negb (e_lock_staging e) then fails SystemError s
  else
    let s := act (λ f, set_staging ((λ d, MkDir (d_files d) true (d_mode d)) <$> f_staging f) f) s in
    if negb (e_flock_staging e) then fails ErrLocked s else
    match checkRestoreDir (e_readdir2 e) (f_dst (cur s)) with
    | Some err => fails err s
    | None =>
        if negb (e_rename_dst e) then fails SystemError s else
        let s := act (λ f, set_displaced (f_dst f) (set_dst None f)) s in
        if negb (e_rename_staging e) then ((man, Some SystemError), drop_staging e (drop_displaced e s))
        else restore_landed e man unverified (act (λ f, set_dst (f_staging f) (set_staging None f)) s)
    end.
(** With the destination locked. *)
Definition restore_locked (e : restore_env) (o : RestoreOptions) (a : archive) (made : bool) (mode : Z) (s : run) : rreturn * run :=
  let '(err, s) := clearStaging e s in
  match err with
  | Some err => ((None, Some err), s)
  | None =>
      if negb (e_marker e) then ((None, Some SystemError), if e_marker_left e then act (set_marker true) s else s) else
      let s := act (set_marker true) s in
      if negb (e_mkdir_staging e) then ((None, Some SystemError), drop_marker e s) else
      let s := act (set_staging (Some (no_files mode))) s in
      let '((man, unverified, err), (_, s)) := readRestore a (Some (stage_file e)) o (0%nat, s) in
      match err with
      | Some err => ((man, Some (ReadFailed err)), drop_staging e s)
      | None => restore_swap e man unverified made mode s
      end
  end.
(** [Restore] to the cleaned path [dst]. *)
Definition Restore (e : restore_env) (a : archive) (dst : bytes) (o : RestoreOptions) (s : run) : rreturn * run :=
  if negb (options_ok o) then ((None, Some BadOptions), s)
  else if DryRun o then (dryRunRestore a o, s)
  else if bool_decide (filepath_Base dst ∈ [[46]; [46; 46]; [47]]) || e_symlink e then ((None, Some ErrRestoreDestination), s)
  else match checkRestoreDir (e_readdir e) (f_dst (cur s)) with
  | Some err => ((None, Some err), s)
  | None =>
      let made := bool_decide (f_dst (cur s) = None) in
      let mode := match f_dst (cur s) with Some d => d_mode d | None => 493 end in
      if made && negb (e_mkdir_dst e) then ((None, Some SystemError), s) else
      let s := if made then act (set_dst (Some (no_files mode))) s else s in
      if negb (e_open_lock e) then ((None, Some SystemError), if made then act (set_dst None) s else s) else
      let s := act (λ f, set_dst ((λ d, MkDir (d_files d) true (d_mode d)) <$> f_dst f) f) s in
      if negb (e_flock e) then ((None, Some ErrLocked), s)
      else restore_locked e o a made mode s
  end.
End restore.

(** Every call answers. *)
Definition no_failure : restore_env :=
  RestoreEnv false true true true true None None true true false true (λ _, true) true true true true true true true true true true None None true.
