(* ===== verification/BackupOk.v ===== *)
(** * An archive is read back whole or refused

    What [readBackup] accepts is what the manifest says ([accepted_whole]); and the
    archive of a store reads back as its groups, while no part of it does
    ([backup_roundtrip]). *)

From Stdlib Require Import Ascii String.
From S2P Require Import Prelude Digits GoLib Kernels Group Filter TimeFilter Text Records PipesOk Backup.
From stdpp Require Import list gmap fin_maps sorting.
Local Open Scope Z_scope.

(** ** Names *)

Lemma Itoa_digits n : 0 ≤ n → Itoa n ≠ [] ∧ Forall (λ c, 48 ≤ c ≤ 57) (Itoa n) ∧ foldl (λ n c, 10 * n + (c - 48)) 0 (Itoa n) = n.
Proof.
  intros Hn. unfold Itoa. rewrite bool_decide_eq_false_2 by lia. set (fuel := S _).
  assert (n < 10 ^ Z.of_nat fuel) as Hf.
  { unfold fuel. destruct (decide (n = 0)) as [->|]; [apply Z.pow_pos_nonneg; lia|]. destruct (Z.log2_spec n) as [_ H]; [lia|].
    eapply Z.lt_le_trans; [exact H|]. rewrite Nat2Z.inj_succ, Z2Nat.id by apply Z.log2_nonneg. apply Z.pow_le_mono_l. lia. }
  split; [apply dec_digits_nil; lia|]. assert (Forall (λ c, 48 ≤ c ≤ 57) (dec_digits fuel n [])) as Hd by (apply dec_digits_range; [done|constructor]).
  split; [done|]. pose proof (dec_digits_atoi fuel n [] ltac:(lia) ltac:(unfold fuel; lia)) as H.
  rewrite atoi_digits_value in H; [by injection H|]. apply forallb_forall. intros c Hc%list_elem_of_In. rewrite Forall_forall in Hd.
  apply bool_decide_eq_true. by apply Hd.
Qed.
Lemma Base_plain s : s ≠ [] → Forall (λ c, c ≠ 47) s → filepath_Base s = s.
Proof.
  intros Hs Hf. unfold filepath_Base. rewrite bool_decide_eq_false_2 by done.
  assert (Forall (λ c, c ≠ 47) (rev s)) as Hr by (apply Forall_rev in Hf; by rewrite <- rev_alt || exact Hf).
  assert (rev s ≠ []) as Hn by (intros E; apply Hs; by rewrite <- (rev_involutive s), E).
  assert ((span (λ c, bool_decide (c = 47)) (rev s)).2 = rev s) as ->.
  { destruct (rev s) as [|c r]; [done|]. apply Forall_cons in Hr as [Hc _]. cbn. by rewrite bool_decide_eq_false_2. }
  pose proof (span_stop (λ c, negb (bool_decide (c = 47))) (rev s) []) as E. rewrite app_nil_r in E. rewrite E; [|eapply Forall_impl; [exact Hr|]|done].
  - cbn. rewrite rev_involutive. by rewrite bool_decide_eq_false_2.
  - intros c Hc. cbn. by rewrite bool_decide_eq_false_2.
Qed.
Lemma group_name_ok id : 0 ≤ id < 2 ^ 64 →
  filepath_Base (group_name id) = group_name id ∧ groupIDFromName (group_name id) = Some id.
Proof.
  intros [H0 H1]. destruct (Itoa_digits id H0) as (Hn & Hd & Hv).
  assert (filepath_Base (group_name id) = group_name id) as Hb.
  { apply Base_plain; [done|]. unfold group_name. rewrite !Forall_app. split_and!; [by repeat constructor| |by repeat constructor].
    eapply Forall_impl; [exact Hd|]. cbn. lia. }
  assert (HasPrefix (group_name id) (lit "group-") = true) as Hp by (unfold HasPrefix, group_name; apply bool_decide_eq_true; by rewrite take_app_length).
  assert ((span (λ c, bool_decide (48 ≤ c ≤ 57)) (drop 6 (group_name id))).1 = Itoa id) as Hs.
  { change (drop 6 (group_name id)) with (Itoa id ++ lit ".bin"). rewrite (span_stop _ (Itoa id) (lit ".bin")); [done| |done].
    eapply Forall_impl; [exact Hd|]. intros c Hc. by apply bool_decide_eq_true. }
  split; [done|]. unfold groupIDFromName. rewrite Hb, Hp. cbv zeta. rewrite Hs, Hv. cbn [negb].
  rewrite (bool_decide_eq_false_2 (Itoa id = [])), (bool_decide_eq_true_2 (id < 2 ^ 64)) by done.
  cbn [negb orb]. by rewrite bool_decide_eq_true_2.
Qed.

(** ** What an accepted archive holds *)

Section accepted.
Context {K : Simd} {F : Flate} {J : BackupJson}.

(** These bytes are the group that [g] describes, and parse. *)
Record is_group (g : BackupGroup) (data : bytes) : Prop := {
  ig_size : len data = bg_Bytes g; ig_sum : Checksum data = bg_CRC32C g; ig_parses : ∃ r, ReadGroup data = Good r }.
(** The files are the groups of the manifest: each of them, and nothing else. *)
Definition holds_manifest (m : BackupManifest) (files : gmap bytes bytes) : Prop :=
  (∀ g, g ∈ bm_Groups m → is_Some (files !! bg_Name g)) ∧
  ∀ name data, files !! name = Some data → ∃ g, g ∈ bm_Groups m ∧ bg_Name g = name ∧ is_group g data.

Lemma groups_verified seen gs : check_groups seen gs ≠ Some ErrBackupUnverified.
Proof. revert seen. induction gs as [|g gs IH]; intros seen; [done|]. cbn. repeat first [done | case_match]. Qed.
Lemma byName_spec gs : ∀ (t : gmap bytes BackupGroup) name g,
  foldl (λ t g, <[bg_Name g := g]> t) t gs !! name = Some g → (g ∈ gs ∧ bg_Name g = name) ∨ t !! name = Some g.
Proof.
  induction gs as [|x gs IH]; intros t name g H; [by right|]. apply IH in H as [[H1 H2]|H]; [left; split; [by right|done]|].
  destruct (decide (bg_Name x = name)) as [<-|Hn]; [rewrite lookup_insert_eq in H; injection H as <-; left; split; [by left|done]|].
  rewrite lookup_insert_ne in H by done. by right.
Qed.

Context {E : Type} (onManifest : BackupManifest → E → option backupErr * E) (emit : bytes → bytes → E → option backupErr * E).
(** The callbacks keep [Inv] whatever they answer, and the files they say they wrote. *)
Context (Inv : E → Prop) (files : E → gmap bytes bytes).
Context (Hman : ∀ m s, Inv s → Inv (onManifest m s).2 ∧ files (onManifest m s).2 = files s).
Context (Hemit : ∀ name data s, Inv s → Inv (emit name data s).2).
Context (Hfiles : ∀ name data s s', Inv s → emit name data s = (None, s') → files s' = <[name := data]> (files s)).
Context (Herr : ∀ name data s m, (emit name data s).1 ≠ Some ErrBackupUnverified ∧ (onManifest m s).1 ≠ Some ErrBackupUnverified).

Record reading (s : rstate (E := E)) : Prop := {
  rd_inv : Inv (r_env s);
  rd_seen name : is_Some (files (r_env s) !! name) ↔ name ∈ r_seen s;
  rd_parses name data : files (r_env s) !! name = Some data → ∃ r, ReadGroup data = Good r;
  rd_man m : r_man s = Some m → (∃ env, (onManifest m env).1 = None) ∧ r_before s = false ∧ (∀ name g, r_byName s !! name = Some g → g ∈ bm_Groups m ∧ bg_Name g = name) ∧
    ∀ name data, files (r_env s) !! name = Some data → ∃ g, g ∈ bm_Groups m ∧ bg_Name g = name ∧ is_group g data;
  rd_none : r_man s = None → r_byName s = ∅ ∧ (r_before s = false → r_seen s = ∅) }.

Lemma manifest_reads lim e s s' : reading s → manifest_entry onManifest lim e s = inr s' → reading s'.
Proof.
  intros [HI H1 H2 H3 H4] Hs. unfold manifest_entry in Hs. destruct (r_complete s); [done|]. case_bool_decide as Hm; [done|].
  case_bool_decide; [done|]. destruct (read_limited e _) as [b|]; [|done]. case_bool_decide; [done|]. destruct (r_before s) eqn:Eb; [done|].
  destruct (decodeBackupManifest b) as [|m]; [done|]. case_bool_decide; [done|]. cbv zeta in Hs.
  destruct (Hman m (r_env s) HI) as [HI' Hf]. destruct (onManifest m (r_env s)) as [[err|] env] eqn:Eo; [done|]. injection Hs as <-. cbn in Hf, HI'.
  assert (r_man s = None) as En by (destruct (r_man s); [by destruct Hm|done]). destruct (H4 En) as [Eby Hseen].
  assert (∀ name, files (r_env s) !! name = None) as Hempty.
  { intros name. apply eq_None_not_Some. rewrite H1, Hseen by done. by apply not_elem_of_empty. }
  constructor; cbn; rewrite ?Hf; try done. intros m' [= <-]. split; [exists (r_env s); by rewrite Eo|]. split; [done|]. split.
  - intros name g Hg. rewrite Eby in Hg. apply byName_spec in Hg as [?|Hg]; [done|by rewrite lookup_empty in Hg].
  - intros name data Hd. by rewrite Hempty in Hd.
Qed.
Lemma group_bytes_ok lim name e s data : reading s → group_bytes lim name e s = inr data →
  (∃ r, ReadGroup data = Good r) ∧ ∀ m, r_man s = Some m → ∃ g, g ∈ bm_Groups m ∧ bg_Name g = name ∧ is_group g data.
Proof.
  intros [HI H1 H2 H3 H4] Hb. unfold group_bytes in Hb. destruct (r_man s) as [m|] eqn:Em.
  - destruct (r_byName s !! name) as [g|] eqn:Eg; [|done]. case_bool_decide; [done|]. case_bool_decide; [done|].
    destruct (read_limited e _) as [b|]; [|done]. unfold verifyGroupBytes in Hb. case_bool_decide; [done|]. case_bool_decide; [done|].
    destruct (ReadGroup b) as [r| |] eqn:Er; [|done|done]. injection Hb as <-. split; [by exists r|]. intros m' [= <-].
    destruct (H3 m eq_refl) as (_ & _ & Hg & _). apply Hg in Eg as [? ?]. exists g. split_and!; [done|done|].
    constructor; [lia|lia|by exists r].
  - case_bool_decide; [done|]. destruct (read_limited e _) as [b|]; [|done]. case_bool_decide; [done|].
    destruct (ReadGroup b) as [r| |] eqn:Er; [|done|done]. injection Hb as <-. split; [by exists r|done].
Qed.
Lemma group_reads lim name e s s' : reading s → group_entry emit lim name e s = inr s' → reading s'.
Proof.
  intros Hr Hs. unfold group_entry in Hs. case_bool_decide as Hin; [done|]. destruct (group_bytes lim name e s) as [|data] eqn:Eb; [done|].
  pose proof (Hemit name data (r_env s) (rd_inv s Hr)) as HI. destruct (emit name data (r_env s)) as [[err|] env] eqn:Ee; [done|].
  injection Hs as <-. apply Hfiles in Ee; [|by apply rd_inv]. destruct (group_bytes_ok _ _ _ _ _ Hr Eb) as [Hp Hg]. destruct Hr as [_ H1 H2 H3 H4].
  constructor; cbn; rewrite ?Ee; [done|..].
  - intros n. rewrite lookup_insert_is_Some, elem_of_union, elem_of_singleton, H1. destruct (decide (name = n)); naive_solver.
  - intros n d [[<- <-]|[_ Hd]]%lookup_insert_Some; [done|by apply (H2 n)].
  - intros m Em. destruct (H3 m Em) as (Ho & Eb1 & Hby & Hfs). split; [done|]. split; [rewrite Eb1; by rewrite bool_decide_eq_false_2 by (by rewrite Em)|].
    split; [done|]. intros n d [[<- <-]|[_ Hd]]%lookup_insert_Some; [by apply Hg|by apply Hfs].
  - intros En. destruct (H4 En) as [Eby _]. split; [done|]. rewrite bool_decide_eq_true_2 by done. by rewrite orb_true_r.
Qed.
Lemma entries_read lim l : ∀ s s', reading s → read_entries onManifest emit lim l s = inr s' → reading s'.
Proof.
  induction l as [|e l IH]; intros s s' Hr; cbn; [by intros [= <-]|]. destruct (read_entry onManifest emit lim e s) as [|s1] eqn:Es; [done|].
  apply IH. unfold read_entry in Es. destruct (en_reg e); [|by injection Es as <-]. cbn [negb] in Es. cbv zeta in Es.
  destruct (str_eqb _ backupManifestName); [by eapply manifest_reads|]. destruct (str_eqb _ backupCompleteName).
  { destruct (r_complete s); [done|]. injection Es as <-. by destruct Hr. }
  destruct (str_eqb _ clusterManifestName); [by destruct (read_limited _ _)|]. destruct (groupIDFromName _); [|by injection Es as <-].
  destruct (r_complete s); [done|]. by eapply group_reads.
Qed.
Lemma entry_stops lim e s x : read_entry onManifest emit lim e s = inl x → x.2 ≠ None.
Proof.
  unfold read_entry, manifest_entry, group_entry, stops, stops_nil.
  repeat first [done | case_match]; by intros [= <-].
Qed.
Lemma entries_stop lim l : ∀ s x, read_entries onManifest emit lim l s = inl x → x.2 ≠ None.
Proof.
  induction l as [|e l IH]; intros s x; cbn; [done|]. destruct (read_entry onManifest emit lim e s) as [y|s1] eqn:Es; [|apply IH].
  intros [= <-]. by eapply entry_stops.
Qed.
(** Without its terminator an archive is refused, wherever it was cut. *)
Definition terminates (e : entry) : bool := en_reg e && str_eqb (filepath_Base (en_name e)) backupCompleteName.
Lemma entry_incomplete lim e s s' : terminates e = false → read_entry onManifest emit lim e s = inr s' → r_complete s' = r_complete s.
Proof.
  unfold terminates, read_entry, manifest_entry, group_entry, stops, stops_nil. cbv zeta. intros Ht.
  destruct (en_reg e); [|by intros [= <-]]. cbn [negb andb] in *. rewrite Ht. repeat first [done | case_match]; by intros [= <-].
Qed.
Lemma entries_incomplete lim l : ∀ s s', Forall (λ e, terminates e = false) l → read_entries onManifest emit lim l s = inr s' → r_complete s' = r_complete s.
Proof.
  induction l as [|e l IH]; intros s s' Hl; cbn; [by intros [= <-]|]. apply Forall_cons in Hl as [He Hl].
  destruct (read_entry onManifest emit lim e s) as [|s1] eqn:Es; [done|]. intros H. rewrite (IH _ _ Hl H). by eapply entry_incomplete.
Qed.
Lemma truncated_refused lim a env : Forall (λ e, terminates e = false) (ar_entries a) → (readBackup onManifest emit lim a env).2 ≠ None.
Proof.
  intros Ha. unfold readBackup. destruct (read_entries onManifest emit lim (ar_entries a) _) as [x|s] eqn:Es; [by eapply entries_stop|].
  apply entries_incomplete in Es; [|done]. cbn in Es. unfold read_end. rewrite Es. by repeat case_match.
Qed.
Lemma entry_inv lim e s : Inv (r_env s) → match read_entry onManifest emit lim e s with inl x => Inv x.1.2 | inr s => Inv (r_env s) end.
Proof.
  intros HI. unfold read_entry, manifest_entry, group_entry, stops, stops_nil. cbv zeta.
  repeat first [done | match goal with
  | |- context [onManifest ?m (r_env s)] => pose proof (proj1 (Hman m _ HI)); destruct (onManifest m (r_env s)) as [[]]
  | |- context [emit ?n ?d (r_env s)] => pose proof (Hemit n d _ HI); destruct (emit n d (r_env s)) as [[]]
  | |- context [match ?x with _ => _ end] => lazymatch x with context [match _ with _ => _ end] => fail | _ => destruct x end end].
Qed.
Lemma entries_inv lim l : ∀ s, Inv (r_env s) → match read_entries onManifest emit lim l s with inl x => Inv x.1.2 | inr s => Inv (r_env s) end.
Proof.
  induction l as [|e l IH]; intros s HI; [done|]. cbn. pose proof (entry_inv lim e s HI) as H.
  destruct (read_entry onManifest emit lim e s) as [|s1]; [done|]. by apply IH.
Qed.
(** Whatever is read, and wherever it stops. *)
Lemma readBackup_inv lim a env : Inv env → Inv (readBackup onManifest emit lim a env).1.2.
Proof.
  intros HI. unfold readBackup. pose proof (entries_inv lim (ar_entries a) (RState None [] ∅ ∅ false false env) HI) as H.
  destruct (read_entries _ _ _ _ _) as [|s]; [done|]. unfold read_end. by repeat case_match.
Qed.
Lemma reading_start env : Inv env → files env = ∅ → reading (RState None [] ∅ ∅ false false env).
Proof.
  intros HI He. constructor; cbn; rewrite ?He; try done. intros name. split; [by intros [? ?]|by intros ?%not_elem_of_empty].
Qed.
(** What is accepted is what the manifest names, each group once, whole and
    readable, and the manifest was accepted. *)
Lemma accepted_whole lim a env man restored env' :
  Inv env → files env = ∅ → readBackup onManifest emit lim a env = (man, restored, env', None) →
  ∃ m, man = Some m ∧ (∃ env, (onManifest m env).1 = None) ∧ holds_manifest m (files env').
Proof.
  intros HI He Hr. unfold readBackup in Hr.
  destruct (read_entries onManifest emit lim (ar_entries a) _) as [x|s] eqn:Es.
  - exfalso. apply entries_stop in Es. by subst x.
  - apply entries_read in Es; [|by apply reading_start].
    unfold read_end in Hr. destruct (ar_ends a); [|done]. cbn [negb] in Hr. destruct (r_man s) as [m|] eqn:Em; [|done].
    destruct (List.find _ _) as [g|] eqn:Ef; [done|]. injection Hr as <- <- <- Hc. exists m. split; [done|].
    destruct Es as [_ H1 _ H3 _]. destruct (H3 m Em) as (Ho & _ & _ & H). split; [done|]. split; [|done]. intros g Hg. apply H1.
    apply list_elem_of_In in Hg. eapply List.find_none in Ef; [|exact Hg]. cbn in Ef. apply negb_false_iff, bool_decide_eq_true in Ef. done.
Qed.
Lemma entry_verified lim e s x : read_entry onManifest emit lim e s = inl x → x.2 ≠ Some ErrBackupUnverified.
Proof.
  unfold read_entry, manifest_entry, group_entry, stops, stops_nil, group_bytes, verifyGroupBytes, decodeBackupManifest. cbv zeta.
  repeat first [done | match goal with
  | |- context [onManifest ?m (r_env s)] => pose proof (proj2 (Herr [] [] (r_env s) m)); destruct (onManifest m (r_env s)) as [[]]
  | |- context [emit ?n ?d (r_env s)] => pose proof (proj1 (Herr n d (r_env s) (BManifest 0 0 [] 0 []))); destruct (emit n d (r_env s)) as [[]]
  | |- context [check_groups ?a ?b] => pose proof (groups_verified a b); destruct (check_groups a b)
  | |- context [match ?x with _ => _ end] => lazymatch x with context [match _ with _ => _ end] => fail | _ => destruct x end end]; by intros [= <-].
Qed.
Lemma entries_verified lim l : ∀ s x, read_entries onManifest emit lim l s = inl x → x.2 ≠ Some ErrBackupUnverified.
Proof.
  induction l as [|e l IH]; intros s x; cbn; [done|]. destruct (read_entry onManifest emit lim e s) as [y|s1] eqn:Es; [|apply IH].
  intros [= <-]. by eapply entry_verified.
Qed.
(** An archive without a manifest hands over groups that parse. *)
Lemma unverified_parses lim a env man restored env' :
  Inv env → files env = ∅ → readBackup onManifest emit lim a env = (man, restored, env', Some ErrBackupUnverified) →
  man = None ∧ ∀ name data, files env' !! name = Some data → ∃ r, ReadGroup data = Good r.
Proof.
  intros HI He Hr. unfold readBackup in Hr.
  destruct (read_entries onManifest emit lim (ar_entries a) _) as [x|s] eqn:Es.
  - exfalso. apply entries_verified in Es. by subst x.
  - apply entries_read in Es; [|by apply reading_start].
    unfold read_end in Hr. destruct (ar_ends a); [|done]. cbn [negb] in Hr. destruct (r_man s) as [m|] eqn:Em.
    + destruct (List.find _ _) as [g|]; [done|]. by destruct (r_complete s).
    + injection Hr as <- <- <-. split; [done|]. by destruct Es.
Qed.
End accepted.

(** ** The archive of a store *)

Section roundtrip.
Context {K : Simd} {F : Flate} {J : BackupJson} {JL : BackupJsonLaws J}.

(** [readBackup] handing every group to a map. *)
Definition collected (lim : backupReadLimits) (a : archive) : rresult (E := gmap bytes bytes) :=
  readBackup (λ _ s, (None, s)) (λ name data s, (None, <[name := data]> s)) lim a ∅.

(** A snapshot whose groups fit the limits, and parse. *)
Record snapshot_ok (lim : backupReadLimits) (snap : list snapGroup) : Prop := {
  sn_nodup : NoDup (sg_id <$> snap);
  sn_ids : Forall (λ g, 0 ≤ sg_id g < 2 ^ 64) snap;
  sn_small : Forall (λ g, len (sg_blob g) ≤ entryBytes lim) snap;
  sn_parses : Forall (λ g, ∃ r, ReadGroup (sg_blob g) = Good r) snap;
  sn_count : maxGroups lim ≤ 0 ∨ len snap ≤ maxGroups lim }.

Definition described (g : snapGroup) : BackupGroup := backupGroupOf (group_name (sg_id g)) (sg_id g) (sg_rows g) (sg_blob g).
Definition group_entry_of (g : snapGroup) : entry := regular (group_name (sg_id g)) (sg_blob g).
Definition files_of (snap : list snapGroup) : gmap bytes bytes := list_to_map ((λ g, (group_name (sg_id g), sg_blob g)) <$> snap).

Lemma group_name_inj a b : 0 ≤ a < 2 ^ 64 → 0 ≤ b < 2 ^ 64 → group_name a = group_name b → a = b.
Proof. intros Ha Hb E. apply group_name_ok in Ha as [_ H1]. apply group_name_ok in Hb as [_ H2]. rewrite E, H2 in H1. by injection H1. Qed.
Lemma names_NoDup snap : NoDup (sg_id <$> snap) → Forall (λ g, 0 ≤ sg_id g < 2 ^ 64) snap → NoDup ((λ g, group_name (sg_id g)) <$> snap).
Proof.
  induction snap as [|g snap IH]; intros Hn Hr; [constructor|]. rewrite fmap_cons in *. apply NoDup_cons in Hn as [Hn Hnd]. apply Forall_cons in Hr as [Hg Hr].
  apply NoDup_cons. split; [|by apply IH]. intros ([x] & E & Hx)%list_elem_of_fmap. apply Hn. rewrite Forall_forall in Hr.
  apply list_elem_of_fmap. eexists. split; [|exact Hx]. apply group_name_inj; [done|by apply Hr|done].
Qed.
Lemma special_names id : 0 ≤ id < 2 ^ 64 → let n := group_name id in
  str_eqb n backupManifestName = false ∧ str_eqb n backupCompleteName = false ∧ str_eqb n clusterManifestName = false.
Proof. intros _. unfold str_eqb, group_name. split_and!; apply bool_decide_eq_false_2; by intros [=]. Qed.
Lemma check_groups_ok snap : ∀ seen, NoDup (sg_id <$> snap) → Forall (λ g, 0 ≤ sg_id g < 2 ^ 64) snap →
  (∀ g, g ∈ snap → group_name (sg_id g) ∉ seen) → check_groups seen (described <$> snap) = None.
Proof.
  induction snap as [|g snap IH]; intros seen Hn Hr Hs; [done|]. rewrite fmap_cons in Hn. apply NoDup_cons in Hn as [Hn Hnd]. apply Forall_cons in Hr as [Hg Hr].
  cbn [fmap list_fmap check_groups]. cbv zeta. change (bg_Name (described g)) with (group_name (sg_id g)). rewrite bool_decide_eq_false_2 by done.
  rewrite bool_decide_eq_false_2 by (apply Hs; by left). destruct (group_name_ok _ Hg) as [_ ->].
  change (bg_Bytes (described g)) with (len (sg_blob g)). rewrite bool_decide_eq_false_2 by (len_facts; lia). apply IH; [done|done|].
  intros x Hx [E|?]%elem_of_cons; [|apply (Hs x); [by right|done]]. apply Hn. rewrite Forall_forall in Hr.
  apply list_elem_of_fmap. exists x. split; [|done]. apply group_name_inj; [done|by apply Hr|done].
Qed.
Lemma lookup_described (snap : list snapGroup) : ∀ (t : gmap bytes bytes) g,
  NoDup ((λ g, group_name (sg_id g)) <$> snap) → g ∈ snap → (∀ x, x ∈ snap → 0 ≤ sg_id x < 2 ^ 64) →
  foldl (λ m g, <[filepath_Base (group_name (sg_id g)) := sg_blob g]> m) t snap !! group_name (sg_id g) = Some (sg_blob g).
Proof.
  induction snap as [|x snap IH] using rev_ind; intros t g Hn Hin Hr; [by apply elem_of_nil in Hin|]. rewrite fmap_app, NoDup_app in Hn.
  destruct Hn as (Hn & Hx & _). rewrite foldl_snoc. destruct (group_name_ok (sg_id x)) as [-> _]; [apply Hr, elem_of_app; right; by left|].
  apply elem_of_app in Hin as [Hin|Hin].
  - rewrite lookup_insert_ne; [apply IH; [done|done|]; intros y Hy; apply Hr, elem_of_app; by left|].
    intros E. apply (Hx (group_name (sg_id g))); [apply list_elem_of_fmap; by exists g|]. rewrite <- E. by left.
  - apply list_elem_of_singleton in Hin as ->. apply lookup_insert_eq.
Qed.
Lemma backup_entries tenant now seq snap lim : snapshot_ok lim snap → ∃ snap' m,
  snap' ≡ₚ snap ∧ bm_Groups m = described <$> snap' ∧ bm_Format m = BackupFormat ∧ bm_Tenant m = tenant ∧
  m = (backup_encode (BManifest BackupFormat now tenant seq (described <$> snap))).1 ∧
  BackupTarWith tenant now seq snap = Some (regular backupManifestName (json_Marshal m) :: (group_entry_of <$> snap') ++ [regular backupCompleteName []]).
Proof.
  intros [Hn Hr _ _ _]. pose proof (merge_sort_Permutation bg_le (described <$> snap)) as Hp.
  apply Permutation_map_inv in Hp as (snap' & Es & Hp). symmetry in Hp. exists snap'. eexists (BManifest BackupFormat now tenant seq (merge_sort bg_le (described <$> snap))).
  split; [done|]. split; [exact Es|]. split_and!; [done..|]. unfold BackupTarWith. cbv zeta.
  assert (((λ g, backupGroupOf (filepath_Base (group_name (sg_id g))) (sg_id g) (sg_rows g) (sg_blob g)) <$> snap) = described <$> snap) as ->.
  { apply list_fmap_ext. intros i g Hg. apply list_elem_of_lookup_2 in Hg. rewrite Forall_forall in Hr. by destruct (group_name_ok _ (Hr g Hg)) as [-> _]. }
  unfold backup_encode. cbn [fst snd bm_Groups bm_Format bm_CreatedUnix bm_Tenant bm_ManifestSeq]. rewrite Es.
  assert (mapM (λ g, (λ b, regular (bg_Name g) b) <$> foldl (λ m g, <[filepath_Base (group_name (sg_id g)) := sg_blob g]> m) ∅ snap !! bg_Name g) (map described snap')
    = Some (group_entry_of <$> snap')) as ->; [|done].
  apply mapM_Some. clear Es. assert (∀ g, g ∈ snap' → g ∈ snap) as Hsub by (intros g; by rewrite Hp). clear Hp.
  induction snap' as [|g snap' IH]; [constructor|]. constructor; [|apply IH; intros x Hx; apply Hsub; by right].
  change (bg_Name (described g)) with (group_name (sg_id g)). rewrite Forall_forall in Hr. rewrite lookup_described; [done|by apply names_NoDup, Forall_forall| |done].
  apply Hsub. by left.
Qed.

Lemma special_entries :
  filepath_Base backupManifestName = backupManifestName ∧ filepath_Base backupCompleteName = backupCompleteName.
Proof. split; by vm_compute. Qed.
Lemma byName_described (snap : list snapGroup) : ∀ (t : gmap bytes BackupGroup) g,
  NoDup ((λ g, group_name (sg_id g)) <$> snap) → g ∈ snap →
  foldl (λ t g, <[bg_Name g := g]> t) t (described <$> snap) !! group_name (sg_id g) = Some (described g).
Proof.
  induction snap as [|x snap IH] using rev_ind; intros t g Hn Hin; [by apply elem_of_nil in Hin|]. rewrite fmap_app, NoDup_app in Hn.
  destruct Hn as (Hn & Hx & _). rewrite fmap_app, foldl_app. cbn [foldl fmap list_fmap]. change (bg_Name (described x)) with (group_name (sg_id x)).
  apply elem_of_app in Hin as [Hin|Hin].
  - rewrite lookup_insert_ne; [by apply IH|]. intros E. apply (Hx (group_name (sg_id g))); [apply list_elem_of_fmap; by exists g|].
    rewrite <- E. by left.
  - apply list_elem_of_singleton in Hin as ->. apply lookup_insert_eq.
Qed.

(** The reader over an archive of this store, whatever its callbacks keep, as long
    as they accept. *)
Section accepting.
Context {E : Type} (onManifest : BackupManifest → E → option backupErr * E) (emit : bytes → bytes → E → option backupErr * E).
Fixpoint emitted (env : E) (l : list snapGroup) (env' : E) : Prop :=
  match l with
  | [] => env' = env
  | g :: l => ∃ env1, emit (group_name (sg_id g)) (sg_blob g) env = (None, env1) ∧ emitted env1 l env'
  end.
Lemma read_manifest lim env env' (snap snap' : list snapGroup) m :
  snapshot_ok lim snap → plain_text (bm_Tenant m) → snap' ≡ₚ snap → bm_Groups m = described <$> snap' → bm_Format m = BackupFormat →
  len (json_Marshal m) ≤ manifestBytes lim → onManifest m env = (None, env') →
  read_entry onManifest emit lim (regular backupManifestName (json_Marshal m)) (RState None [] ∅ ∅ false false env) =
    inr (RState (Some m) [] (foldl (λ t g, <[bg_Name g := g]> t) ∅ (bm_Groups m)) ∅ false false env').
Proof.
  intros [Hn Hr _ _ Hc] Ht Hp Hg Hf Hl Ho. unfold read_entry. cbn [en_reg regular negb en_name]. rewrite (proj1 special_entries).
  change (str_eqb backupManifestName backupManifestName) with true. cbv zeta. unfold manifest_entry. cbn [r_complete r_man en_size regular].
  rewrite (bool_decide_eq_false_2 (is_Some None)) by (by intros [? ?]). rewrite bool_decide_eq_false_2 by lia.
  unfold read_limited. cbn [en_data regular fmap option_fmap option_map].
  rewrite take_ge by (unfold len in *; lia). rewrite bool_decide_eq_false_2 by lia. cbn [r_before].
  unfold decodeBackupManifest. rewrite json_format_law, Hf, bool_decide_eq_false_2 by (intros H; by apply H).
  assert (Forall (λ g, 0 ≤ sg_id g < 2 ^ 64) snap') as Hr' by (by rewrite Hp).
  rewrite json_Decode_law; [|done|].
  - rewrite Hg, (check_groups_ok snap'); [|by rewrite Hp|done|intros; apply not_elem_of_nil].
    rewrite bool_decide_eq_false_2; [cbn; by rewrite Ho, Hg|]. rewrite Hg, len_fmap. apply Permutation_length in Hp. unfold len in *. lia.
  - rewrite Hg. apply Forall_fmap. eapply Forall_impl; [exact Hr'|]. intros g [Hid _]. change (plain_text (group_name (sg_id g))). unfold plain_text, group_name.
    destruct (Itoa_digits (sg_id g) Hid) as (_ & Hd & _). rewrite !Forall_app. split_and!; [by repeat constructor| |by repeat constructor].
    eapply Forall_impl; [exact Hd|]. cbn. lia.
Qed.
Lemma read_group (lim : backupReadLimits) (m : BackupManifest) (g : snapGroup) (names : list bytes) (byName : gmap bytes BackupGroup) (seen : gset bytes) env env' :
  0 ≤ sg_id g < 2 ^ 64 → len (sg_blob g) ≤ entryBytes lim → (∃ r, ReadGroup (sg_blob g) = Good r) →
  byName !! group_name (sg_id g) = Some (described g) → group_name (sg_id g) ∉ seen → emit (group_name (sg_id g)) (sg_blob g) env = (None, env') →
  read_entry onManifest emit lim (group_entry_of g) (RState (Some m) names byName seen false false env) =
    inr (RState (Some m) (names ++ [group_name (sg_id g)]) byName ({[group_name (sg_id g)]} ∪ seen) false false env').
Proof.
  intros Hid Hsz [r Hpr] Hby Hseen He. destruct (group_name_ok _ Hid) as [Hb Hgid]. destruct (special_names _ Hid) as (N1 & N2 & N3).
  unfold read_entry, group_entry_of. cbn [en_reg regular negb en_name]. cbv zeta. rewrite Hb, N1, N2, N3, Hgid. cbn [r_complete].
  unfold group_entry. cbn [r_seen]. rewrite bool_decide_eq_false_2 by done. cbv zeta. unfold group_bytes. cbn [r_man r_byName]. rewrite Hby. cbn [en_size regular].
  change (bg_Bytes (described g)) with (len (sg_blob g)).
  rewrite (bool_decide_eq_false_2 (len (sg_blob g) ≠ len (sg_blob g))), (bool_decide_eq_false_2 (entryBytes lim < len (sg_blob g))) by lia.
  unfold read_limited. cbn [en_data regular fmap option_fmap option_map]. rewrite take_ge by (unfold len; lia).
  unfold verifyGroupBytes. change (bg_Bytes (described g)) with (len (sg_blob g)). change (bg_CRC32C (described g)) with (Checksum (sg_blob g)).
  rewrite !bool_decide_eq_false_2 by (intros H; by apply H). rewrite Hpr. cbn [r_env]. by rewrite He.
Qed.
Lemma read_groups (lim : backupReadLimits) (m : BackupManifest) (l : list snapGroup) : ∀ (names : list bytes) (byName : gmap bytes BackupGroup) (seen : gset bytes) env env',
  NoDup ((λ g, group_name (sg_id g)) <$> l) → Forall (λ g, 0 ≤ sg_id g < 2 ^ 64) l → Forall (λ g, len (sg_blob g) ≤ entryBytes lim) l →
  Forall (λ g, ∃ r, ReadGroup (sg_blob g) = Good r) l → (∀ g, g ∈ l → byName !! group_name (sg_id g) = Some (described g) ∧ group_name (sg_id g) ∉ seen) →
  emitted env l env' →
  ∃ seen', (∀ n, n ∈ seen' ↔ n ∈ ((λ g, group_name (sg_id g)) <$> l) ∨ n ∈ seen) ∧
  read_entries onManifest emit lim (group_entry_of <$> l) (RState (Some m) names byName seen false false env) =
    inr (RState (Some m) (names ++ ((λ g, group_name (sg_id g)) <$> l)) byName seen' false false env').
Proof.
  induction l as [|g l IH]; intros names byName seen env env' Hn Hr Hs Hp Hl He.
  { cbn in He. subst env'. exists seen. cbn. rewrite app_nil_r. split; [set_solver|done]. }
  rewrite fmap_cons in Hn. apply NoDup_cons in Hn as [Hng Hn]. apply Forall_cons in Hr as [Hid Hr]. apply Forall_cons in Hs as [Hsz Hs].
  apply Forall_cons in Hp as [Hpr Hp]. destruct (Hl g ltac:(by left)) as [Hby Hseen]. destruct He as (env1 & He & Hes).
  cbn [fmap list_fmap read_entries]. erewrite read_group by done.
  destruct (IH (names ++ [group_name (sg_id g)]) byName ({[group_name (sg_id g)]} ∪ seen) env1 env') as (seen' & Hs' & Es); [done..| |done|].
  - intros x Hx. destruct (Hl x ltac:(by right)) as [H1 H2]. split; [done|]. rewrite not_elem_of_union, not_elem_of_singleton. split; [|done].
    intros Ex. apply Hng. rewrite <- Ex. apply list_elem_of_fmap. by exists x.
  - exists seen'. split; [|by rewrite Es, <- app_assoc]. intros n. rewrite Hs', elem_of_union, elem_of_singleton, elem_of_cons. tauto.
Qed.
Lemma read_entries_app lim a b s :
  read_entries onManifest emit lim (a ++ b) s = match read_entries onManifest emit lim a s with inl x => inl x | inr s => read_entries onManifest emit lim b s end.
Proof. revert s. induction a as [|e a IH]; intros s; [done|]. cbn. destruct (read_entry onManifest emit lim e s); [done|apply IH]. Qed.

(** The entries of a backup, accepted. *)
Lemma backup_accepted lim snap snap' m env env1 env2 :
  snapshot_ok lim snap → plain_text (bm_Tenant m) → snap' ≡ₚ snap → bm_Groups m = described <$> snap' → bm_Format m = BackupFormat →
  len (json_Marshal m) ≤ manifestBytes lim → onManifest m env = (None, env1) → emitted env1 snap' env2 →
  readBackup onManifest emit lim (Archive (regular backupManifestName (json_Marshal m) :: (group_entry_of <$> snap') ++ [regular backupCompleteName []]) true) env
    = (Some m, (λ g, group_name (sg_id g)) <$> snap', env2, None).
Proof.
  intros Hs Ht Hp Hg Hf Hm Ho He. pose proof (read_manifest lim env env1 snap snap' m Hs Ht Hp Hg Hf Hm Ho) as R1. destruct Hs as [Hn Hr Hsm Hpa Hc].
  assert (NoDup ((λ g, group_name (sg_id g)) <$> snap')) as Hnn by (apply names_NoDup; by rewrite Hp).
  destruct (read_groups lim m snap' [] (foldl (λ t g, <[bg_Name g := g]> t) ∅ (bm_Groups m)) ∅ env1 env2 Hnn) as (seen & Hseen & R2); [by rewrite Hp..| |done|].
  { intros g Hin. split; [|apply not_elem_of_empty]. rewrite Hg. by apply byName_described. }
  unfold readBackup. cbn [ar_entries ar_ends]. cbn [read_entries]. rewrite R1, read_entries_app, R2. cbn [read_entries].
  unfold read_entry. cbn [en_reg regular negb en_name]. cbv zeta. rewrite (proj2 special_entries). cbn [r_complete].
  change (str_eqb backupCompleteName backupManifestName) with false. change (str_eqb backupCompleteName backupCompleteName) with true. cbv iota.
  unfold read_end. cbn [negb r_man r_seen r_complete r_restored r_env]. rewrite Hg.
  destruct (List.find _ _) as [g|] eqn:Ef; [|done].
  exfalso. apply List.find_some in Ef as [Hin Hg']. apply negb_true_iff, bool_decide_eq_false in Hg'. apply Hg', Hseen. left.
  apply list_elem_of_In, list_elem_of_fmap in Hin as (x & -> & Hx). apply list_elem_of_fmap. by exists x.
Qed.
End accepting.

Lemma files_fold (l : list snapGroup) : ∀ t : gmap bytes bytes, NoDup ((λ g, group_name (sg_id g)) <$> l) →
  emitted (λ name data s, (None, <[name := data]> s)) t l (files_of l ∪ t).
Proof.
  induction l as [|g l IH]; intros t Hn; [unfold files_of; cbn; by rewrite map_empty_union|]. rewrite fmap_cons in Hn. apply NoDup_cons in Hn as [Hng Hn].
  eexists. split; [done|]. replace (files_of (g :: l) ∪ t) with (files_of l ∪ <[group_name (sg_id g) := sg_blob g]> t); [by apply IH|].
  change (files_of (g :: l)) with (<[group_name (sg_id g) := sg_blob g]> (files_of l)).
  rewrite <- insert_union_l, insert_union_r; [done|]. unfold files_of. apply not_elem_of_list_to_map. by rewrite <- list_fmap_compose.
Qed.
Lemma files_of_perm l l' : NoDup ((λ g, group_name (sg_id g)) <$> l) → l ≡ₚ l' → files_of l = files_of l'.
Proof. intros Hn Hp. apply list_to_map_proper; [by rewrite <- list_fmap_compose|by rewrite Hp]. Qed.
Lemma backup_cut m snap' k : Forall (λ g, 0 ≤ sg_id g < 2 ^ 64) snap' →
  let entries := regular backupManifestName (json_Marshal m) :: (group_entry_of <$> snap') ++ [regular backupCompleteName []] in
  (k < length entries)%nat → Forall (λ e, terminates e = false) (take k entries).
Proof.
  intros Hr entries Hk. subst entries. rewrite app_comm_cons in *. rewrite length_app in Hk. cbn [length] in Hk.
  rewrite take_app_le by (cbn [length] in *; lia). apply Forall_take. constructor; [by vm_compute|]. apply Forall_fmap.
  eapply Forall_impl; [exact Hr|]. intros g Hg. unfold compose, terminates, group_entry_of. cbn [en_reg regular en_name andb].
  destruct (group_name_ok _ Hg) as [-> _]. by destruct (special_names _ Hg) as (_ & -> & _).
Qed.

(** C16: The backup of a store reads back as its groups under its manifest, whatever
    order they were held in, and no proper part of it, broken off or ended, is
    accepted. *)
Theorem backup_roundtrip lim tenant now seq snap :
  snapshot_ok lim snap → plain_text tenant →
  (let m := (backup_encode (BManifest BackupFormat now tenant seq (described <$> snap))).1 in len (json_Marshal m) ≤ manifestBytes lim) →
  ∃ entries m names, BackupTarWith tenant now seq snap = Some entries ∧ bm_Groups m ≡ₚ described <$> snap ∧ bm_Tenant m = tenant ∧ bm_ManifestSeq m = seq ∧
    collected lim (Archive entries true) = (Some m, names, files_of snap, None) ∧
    ∀ k ends, (k < length entries)%nat → (collected lim (Archive (take k entries) ends)).2 ≠ None.
Proof.
  intros Hs Ht Hm. destruct (backup_entries tenant now seq snap lim Hs) as (snap' & m & Hp & Hg & Hf & Htn & Em & Eb). cbv zeta in Hm. rewrite <- Em in Hm.
  assert (NoDup ((λ g, group_name (sg_id g)) <$> snap')) as Hnn by (destruct Hs; apply names_NoDup; by rewrite Hp).
  eexists _, m, _. split; [exact Eb|]. split; [rewrite Hg; by apply fmap_Permutation|]. split; [done|]. split; [by rewrite Em|]. split.
  - apply (backup_accepted _ _ lim snap snap' m ∅ ∅ (files_of snap)); try done; [by rewrite Htn|].
    rewrite <- (files_of_perm snap' snap) by done. pose proof (files_fold snap' ∅ Hnn) as H. by rewrite map_union_empty in H.
  - intros k ends Hk. apply truncated_refused. apply backup_cut; [|done]. rewrite Hp. by destruct Hs.
Qed.
End roundtrip.
