(* ===== verification/RestoreOk.v ===== *)
(** * A restore lands whole or leaves the destination empty

    Every state a restore visits, the ones a kill leaves included, has either nothing
    at the destination or the whole archive ([restore_atomic]); what a kill leaves
    beside it the next restore clears and replaces ([restore_retried]). *)

From Stdlib Require Import Ascii String.
From S2P Require Import Prelude Digits GoLib Kernels Group Filter TimeFilter Text Backup BackupOk.
From stdpp Require Import list gmap fin_maps sorting.
Local Open Scope Z_scope.

(** ** States *)

Definition vacant (f : fs) : Prop := ∀ d, f_dst f = Some d → d_files d = ∅.
(** Whatever is beside the destination is marked as a restore's. *)
Definition residue (f : fs) : Prop := f_marker f = true ∨ (f_staging f = None ∧ f_displaced f = None).
Definition visited (s : run) (f : fs) : Prop := f = cur s ∨ f ∈ past s.
Definition always (P : fs → Prop) (s : run) : Prop := ∀ f, visited s f → P f.

Lemma always_start P f : P f → always P (Run f []).
Proof. intros H g [->|Hg]; [done|by apply not_elem_of_nil in Hg]. Qed.
Lemma always_cur P s : always P s → P (cur s).
Proof. intros H. apply H. by left. Qed.
Lemma always_act P f s : always P s → P (f (cur s)) → always P (act f s).
Proof. intros H Hf g [->|[->|Hg]%elem_of_cons]; [done|by apply always_cur|by apply H; right]. Qed.
Lemma always_impl (P Q : fs → Prop) s : (∀ f, P f → Q f) → always P s → always Q s.
Proof. intros H Hs f Hf. by apply H, Hs. Qed.

Section restored.
Context {K : Simd} {F : Flate} {J : BackupJson}.

(** The files are an archive's: those its manifest describes, of the tenant asked
    for, or groups that at least parse, when that was allowed. *)
Definition archived (o : RestoreOptions) (man : option BackupManifest) (files : gmap bytes bytes) : Prop :=
  match man with
  | Some m => holds_manifest m files ∧ (RequireTenant o = [] ∨ bm_Tenant m = RequireTenant o)
  | None => AllowUnverified o = true ∧ RequireTenant o = [] ∧ ∀ name data, files !! name = Some data → ∃ r, ReadGroup data = Good r
  end.
Definition landed (o : RestoreOptions) (man : option BackupManifest) (f : fs) : Prop :=
  ∃ d, f_dst f = Some d ∧ d_lock d = true ∧ archived o man (d_files d).
(** The errors after which the store is in place. *)
Definition in_place (err : option restoreErr) : bool :=
  match err with None | Some (ErrRestoredButUnsynced _) | Some RestoreUnverified => true | _ => false end.

(** A state on the way: nothing at the destination, and, under [R], only marked
    residue beside it. *)
Definition pending (R : Prop) (f : fs) : Prop := vacant f ∧ (R → residue f).

Lemma clear_dir_ok get set marked left s R :
  (get = f_staging ∧ set = set_staging) ∨ (get = f_displaced ∧ set = set_displaced) →
  marked = f_marker (cur s) → always (pending R) s →
  let '(err, s') := clear_dir get set marked left s in
  always (pending R) s' ∧ f_marker (cur s') = f_marker (cur s) ∧ f_dst (cur s') = f_dst (cur s) ∧
  (get = f_displaced → f_staging (cur s') = f_staging (cur s)) ∧ (err = None → get (cur s') = None) ∧
  (f_marker (cur s) = false → s' = s ∧ (is_Some (get (cur s)) → err ≠ None)).
Proof.
  intros Hg -> Hs. unfold clear_dir. destruct (get (cur s)) as [d|] eqn:Ed; [|split_and!; naive_solver].
  destruct (f_marker (cur s)) eqn:Em; cbn [negb]; [|split_and!; try done; naive_solver].
  destruct (always_cur _ _ Hs) as [Hv _]. split_and!.
  - apply always_act; [done|]. destruct Hg as [[_ ->]|[_ ->]]; (split; [exact Hv|intros _; left; exact Em]).
  - by destruct Hg as [[_ ->]|[_ ->]].
  - by destruct Hg as [[_ ->]|[_ ->]].
  - intros E. destruct Hg as [[-> _]|[_ ->]]; [|done]. by apply (f_equal (λ g, g (MkFS None (Some (no_files 0)) None false))) in E.
  - case_bool_decide as El; [|done]. intros _. rewrite El. by destruct Hg as [[-> ->]|[-> ->]].
  - done.
Qed.
Lemma clear_dir_refuses get set marked left s : (clear_dir get set marked left s).1 ≠ None → in_place (clear_dir get set marked left s).1 = false.
Proof. unfold clear_dir. by repeat case_match. Qed.
Lemma clearStaging_refuses e s : (clearStaging e s).1 ≠ None → in_place (clearStaging e s).1 = false.
Proof.
  unfold clearStaging. cbv zeta. match goal with |- context [clear_dir ?a ?b ?c ?d ?x] => pose proof (clear_dir_refuses a b c d x) end.
  destruct (clear_dir f_staging _ _ _ _) as [[] s1]; [by apply H|].
  match goal with |- context [clear_dir ?a ?b ?c ?d ?x] => pose proof (clear_dir_refuses a b c d x) as H1 end.
  destruct (clear_dir f_displaced _ _ _ _) as [[] s2]; [by apply H1|]. by repeat case_match.
Qed.
(** Cleared, or refused having touched nothing that is not marked. *)
Lemma clearStaging_ok e s R : always (pending R) s →
  let '(err, s') := clearStaging e s in
  always (pending R) s' ∧ f_dst (cur s') = f_dst (cur s) ∧
  (err = None → cur s' = MkFS (f_dst (cur s)) None None false) ∧
  (f_marker (cur s) = false → s' = s ∧ (is_Some (f_staging (cur s)) ∨ is_Some (f_displaced (cur s)) → err ≠ None)).
Proof.
  intros Hs. unfold clearStaging. cbv zeta.
  pose proof (clear_dir_ok f_staging set_staging (f_marker (cur s)) (e_clear_staging e) s R (or_introl (conj eq_refl eq_refl)) eq_refl Hs) as H1.
  destruct (clear_dir f_staging _ _ _ s) as [err1 s1]. destruct H1 as (A1 & M1 & D1 & _ & N1 & F1).
  destruct err1 as [err1|]; [split_and!; [done|done|done|]; intros Em; by destruct (F1 Em)|].
  pose proof (clear_dir_ok f_displaced set_displaced (f_marker (cur s)) (e_clear_displaced e) s1 R (or_intror (conj eq_refl eq_refl)) ltac:(done) A1) as H2.
  destruct (clear_dir f_displaced _ _ _ s1) as [err2 s2]. destruct H2 as (A2 & M2 & D2 & S2 & N2 & F2). specialize (N1 eq_refl). specialize (S2 eq_refl).
  assert (f_marker (cur s) = false → s2 = s ∧ (is_Some (f_staging (cur s)) ∨ is_Some (f_displaced (cur s)) → err2 ≠ None)) as HF.
  { intros Em. destruct (F1 Em) as [-> Hn1]. destruct (F2 Em) as [-> Hn2]. split; [done|]. intros [H|H]; [by apply Hn1 in H|by apply Hn2]. }
  destruct err2 as [err2|]; [split_and!; [done|congruence|done|]; intros Em; by destruct (HF Em)|]. specialize (N2 eq_refl).
  destruct (f_marker (cur s2)) eqn:Em2; cbn [negb].
  - destruct (e_clear_marker e); cbn [negb].
    + split_and!; [|cbn; congruence| |intros Em; congruence].
      * apply always_act; [done|]. destruct (always_cur _ _ A2) as [Hv _]. split; [exact Hv|]. intros _. right. cbn. split; congruence.
      * intros _. cbn. unfold set_marker. f_equal; congruence.
    + split_and!; [done|congruence|done|intros Em; congruence].
  - split_and!; [done|congruence| |done]. intros _. destruct (cur s2) as [fd fst fdis fm]. cbn in *. congruence.
Qed.

(** *** While the archive is read *)

(** The state of the callbacks of a restore, of which the staging directory has this
    mode and the destination is as it was. *)
Record staging_inv (R : Prop) (dst : option dir) (mode : Z) (x : renv (nat * run)) : Prop := {
  st_always : always (pending R) (re_world x).2;
  st_dst : f_dst (cur (re_world x).2) = dst;
  st_marker : f_marker (cur (re_world x).2) = true;
  st_displaced : f_displaced (cur (re_world x).2) = None;
  st_dir : ∃ files, f_staging (cur (re_world x).2) = Some (MkDir files false mode) }.
Definition staged_files (x : renv (nat * run)) : gmap bytes bytes := from_option d_files ∅ (f_staging (cur (re_world x).2)).

Lemma restore_emit_ok e o R dst mode name data x : staging_inv R dst mode x →
  let r := restore_emit o (Some (stage_file e)) name data x in
  staging_inv R dst mode r.2 ∧ (r.1 = None → staged_files r.2 = <[name := data]> (staged_files x)) ∧ r.1 ≠ Some ErrBackupUnverified.
Proof.
  intros H. unfold restore_emit. destruct (_ && _); [done|]. cbv zeta.
  assert (∀ a b c, staging_inv R dst mode (REnv a b c (re_world x))) as Hx by (intros; by destruct H).
  repeat (case_bool_decide; [split; [apply Hx|done]|]; cbn [re_total re_saw re_world re_files]).
  destruct x as [nf tot saw [n s]]. cbn [re_world] in *. destruct H as [HA HD HM HO (fl & HS)]. cbn [re_world snd] in *.
  unfold stage_file. destruct (e_writes e n); cbn [negb]; [|split_and!; [|done|done]; by apply Build_staging_inv; cbn; try exists fl].
  split_and!; [|intros _; unfold staged_files; cbn; by rewrite HS|done].
  constructor; cbn; try done; [|rewrite HS; by eexists]. apply always_act; [done|].
  destruct (always_cur _ _ HA) as [Hv Hr]. split; [exact Hv|]. intros _. by left.
Qed.
Lemma readRestore_ok e a o R dst mode s : always (pending R) s → cur s = MkFS dst (Some (no_files mode)) None true →
  let '((man, unverified, err), (n, s')) := readRestore a (Some (stage_file e)) o (0%nat, s) in
  staging_inv R dst mode (REnv 0 0 false (n, s')) ∧ (err = None → archived o man (staged_files (REnv 0 0 false (n, s')))).
Proof.
  intros Hs Hc. set (env0 := REnv 0 0 false (0%nat, s)).
  assert (staging_inv R dst mode env0) as H0 by (constructor; cbn; rewrite ?Hc; try done; by exists ∅).
  set (onM := restore_manifest (W := nat * run) o). set (em := restore_emit o (Some (stage_file e))).
  assert (∀ m x, staging_inv R dst mode x → staging_inv R dst mode (onM m x).2 ∧ staged_files (onM m x).2 = staged_files x) as HM by (intros m x Hx; split; [by destruct Hx|done]).
  assert (∀ name data x, staging_inv R dst mode x → staging_inv R dst mode (em name data x).2) as HE by (intros; by apply (restore_emit_ok e o)).
  assert (∀ name data x x', staging_inv R dst mode x → em name data x = (None, x') → staged_files x' = <[name := data]> (staged_files x)) as HF.
  { intros name data x x' Hx Ex. pose proof (restore_emit_ok e o R dst mode name data x Hx) as (_ & H & _). fold em in H. rewrite Ex in H. by apply H. }
  assert (∀ name data x m, (em name data x).1 ≠ Some ErrBackupUnverified ∧ (onM m x).1 ≠ Some ErrBackupUnverified) as HV.
  { intros name data x m. split; [|cbn; unfold checkRestoreTenant; by destruct (_ || _)]. subst em. unfold restore_emit, stage_file. cbv zeta.
    by repeat first [done | case_match]. }
  assert (staged_files env0 = ∅) as Hempty by (unfold staged_files; cbn; by rewrite Hc).
  unfold readRestore. fold onM em. fold env0.
  pose proof (readBackup_inv onM em _ _ HM HE (readLimits o) a env0 H0) as HI.
  destruct (readBackup onM em (readLimits o) a env0) as [[[man names] x] err] eqn:Er. cbn [fst snd] in HI.
  destruct (re_world x) as [n s'] eqn:Ew.
  assert (staging_inv R dst mode (REnv 0 0 false (n, s')) ∧ staged_files (REnv 0 0 false (n, s')) = staged_files x) as [HI' HSt].
  { destruct x as [nf tot saw w]. cbn in Ew. subst w. split; [by destruct HI|done]. }
  destruct err as [err|].
  - destruct err; try (split; [exact HI'|done]).
    destruct (bool_decide (RequireTenant o = [])) eqn:Eq; cbn [negb]; [|by split]. apply bool_decide_eq_true in Eq.
    destruct (AllowUnverified o) eqn:Ea; [|by split]. split; [exact HI'|].
    destruct (unverified_parses onM em _ _ HM HE HF HV _ _ _ _ _ _ H0 Hempty Er) as [-> Hp]. intros _. rewrite HSt. by cbn.
  - split; [exact HI'|]. intros _. destruct (accepted_whole onM em _ _ HM HE HF HV _ _ _ _ _ _ H0 Hempty Er) as (m & -> & [x1 Ho] & Hw).
    rewrite HSt. split; [done|]. subst onM. cbn in Ho. unfold checkRestoreTenant in Ho.
    destruct (_ || _) eqn:Eo in Ho; [|done]. apply orb_true_iff in Eo as [H%bool_decide_eq_true|H%bool_decide_eq_true]; [by left|by right].
Qed.

(** *** The swap *)

(** A state before the second rename, or the store in place. *)
Definition swapped (R : Prop) (o : RestoreOptions) (man : option BackupManifest) (f : fs) : Prop :=
  (vacant f ∨ landed o man f) ∧ (R → residue f).
Lemma pending_swapped R o man f : pending R f → swapped R o man f.
Proof. intros [H1 H2]. split; [by left|done]. Qed.
(** The removals of the deferred calls leave nothing. *)
Definition removals (e : restore_env) : Prop := removed (e_rm_staging e) = None ∧ removed (e_rm_displaced e) = None.

Lemma drop_staging_ok e R s : (R → removals e) → always (pending R) s → f_marker (cur s) = true → f_displaced (cur s) = None →
  always (pending R) (drop_staging e s).
Proof.
  intros HR Hs Hm Hd. destruct (always_cur _ _ Hs) as [Hv _].
  assert (always (pending R) (act (set_staging (removed (e_rm_staging e))) s)) as H1 by (apply always_act; [done|]; split; [exact Hv|by left]).
  unfold drop_staging, drop_marker. destruct (e_rm_marker e); [|done]. apply always_act; [done|]. split; [exact Hv|]. intros Hr. right.
  cbn. by destruct (HR Hr) as [-> _].
Qed.
Lemma restore_landed_ok e o R man unverified s : (R → removals e) → always (swapped R o man) s → landed o man (cur s) → f_staging (cur s) = None → f_marker (cur s) = true →
  let '((man', err), s') := restore_landed e man unverified s in
  man' = man ∧ in_place err = true ∧ always (swapped R o man) s' ∧ landed o man (cur s').
Proof.
  intros HR Hs Hl Hst Hm. unfold restore_landed, drop_marker, drop_displaced.
  assert (always (swapped R o man) (act (set_displaced (removed (e_rm_displaced e))) s)) as H1.
  { apply always_act; [done|]. split; [by right|by left]. }
  destruct (e_rm_marker e).
  - assert (always (swapped R o man) (act (set_marker false) (act (set_displaced (removed (e_rm_displaced e))) s))) as H2.
    { apply always_act; [done|]. split; [by right|]. intros Hr. right. cbn. rewrite Hst. by destruct (HR Hr) as [_ ->]. }
    destruct (negb _); [|by destruct unverified]. done.
  - destruct (negb _); [|by destruct unverified]. done.
Qed.
Lemma restore_swap_ok e o R dst man unverified made mode s :
  (R → removals e) → (∃ n a b c, staging_inv R dst mode (REnv a b c (n, s))) → (∀ a b c n, archived o man (staged_files (REnv a b c (n, s)))) →
  let '((man', err), s') := restore_swap e man unverified made mode s in
  man' = man ∧ (if in_place err then always (swapped R o man) s' ∧ landed o man (cur s') else always (pending R) s').
Proof.
  intros HR (n & a & b & c & [HA HD HM HO (fl & HS)]) Har. specialize (Har a b c n). cbn [re_world snd] in *. unfold staged_files in Har. cbn [re_world snd] in Har.
  rewrite HS in Har. cbn in Har.
  assert (∀ s', always (pending R) s' → f_marker (cur s') = true → f_displaced (cur s') = None → always (pending R) (drop_staging e s')) as Hdrop
    by (intros; by apply drop_staging_ok).
  unfold restore_swap. destruct (negb made && _); [by split; [|apply Hdrop]|].
  match goal with |- context [if made then s else ?x] => set (s1 := if made then s else x) end.
  assert (always (pending R) s1 ∧ f_dst (cur s1) = dst ∧ f_marker (cur s1) = true ∧ f_displaced (cur s1) = None ∧ f_staging (cur s1) = Some (MkDir fl false mode))
    as (A1 & D1 & M1 & O1 & S1).
  { subst s1. destruct made; [done|]. split_and!; cbn; [|done|done|done|by rewrite HS]. apply always_act; [done|]. destruct (always_cur _ _ HA) as [Hv Hr].
    split; [exact Hv|]. by left. }
  clearbody s1. clear HA HD HM HO HS. destruct (e_sync_staging e); cbn [negb]; [|by split; [|apply Hdrop]]. destruct (e_lock_staging e); cbn [negb]; [|by split; [|apply Hdrop]].
  set (s2 := act _ s1). assert (always (pending R) s2) as A2.
  { apply always_act; [done|]. destruct (always_cur _ _ A1) as [Hv Hr]. split; [exact Hv|by left]. }
  destruct (e_flock_staging e); cbn [negb]; [|by split; [|apply Hdrop]].
  destruct (checkRestoreDir _ _) eqn:Ec.
  { unfold checkRestoreDir in Ec. split; [done|]. destruct (f_dst (cur s2)); [|done]. destruct (negb _); [injection Ec as <-; by apply Hdrop|]. case_bool_decide; [done|]. injection Ec as <-. by apply Hdrop. }
  destruct (e_rename_dst e); cbn [negb]; [|by split; [|apply Hdrop]].
  set (s3 := act _ s2). assert (always (pending R) s3) as A3 by (apply always_act; [done|]; split; [by intros d|by left]).
  destruct (e_rename_staging e); cbn [negb].
  2:{ split; [done|]. cbn [in_place]. assert (always (pending R) (drop_displaced e s3)) as A4 by (apply always_act; [done|]; split; [by intros d|by left]).
      unfold drop_staging, drop_marker. assert (always (pending R) (act (set_staging (removed (e_rm_staging e))) (drop_displaced e s3))) as A5 by (apply always_act; [done|]; split; [by intros d|by left]).
      destruct (e_rm_marker e); [|done]. apply always_act; [done|]. split; [by intros d|]. intros Hr. right. cbn. by destruct (HR Hr) as [-> ->]. }
  set (s4 := act _ s3). assert (landed o man (cur s4)) as L4 by (eexists; split; [cbn; by rewrite S1|done]).
  assert (always (swapped R o man) s4) as A4.
  { apply always_act; [by eapply always_impl; [apply pending_swapped|]|]. split; [by right|by left]. }
  pose proof (restore_landed_ok e o R man unverified s4 HR A4 L4 eq_refl M1) as H. destruct (restore_landed e man unverified s4) as [[man' err] s'].
  destruct H as (-> & -> & H1 & H2). done.
Qed.

(** What a run has done to a destination that was empty. *)
Definition done_right (R : Prop) (o : RestoreOptions) (r : rreturn * run) : Prop :=
  if in_place r.1.2 then always (swapped R o r.1.1) r.2 ∧ landed o r.1.1 (cur r.2) else always (pending R) r.2.
Lemma restore_locked_ok e o a R made mode s : (R → removals e) → always (pending R) s → done_right R o (restore_locked e o a made mode s).
Proof.
  intros HR Hs. unfold restore_locked. pose proof (clearStaging_ok e s R Hs) as H. pose proof (clearStaging_refuses e s) as Href.
  destruct (clearStaging e s) as [err s1].
  destruct H as (A1 & D1 & C1 & _). destruct err as [err|]; [|specialize (C1 eq_refl)].
  { unfold done_right. cbn [fst snd] in *. by rewrite Href. }
  destruct (always_cur _ _ A1) as [Hv _].
  assert (always (pending R) (act (set_marker true) s1)) as A2 by (apply always_act; [done|]; split; [exact Hv|by left]).
  destruct (e_marker e); cbn [negb]; [|unfold done_right; cbn; by destruct (e_marker_left e)].
  destruct (e_mkdir_staging e); cbn [negb].
  2:{ unfold done_right, drop_marker. cbn. destruct (e_rm_marker e); [|done]. apply always_act; [done|]. split; [exact Hv|]. right. cbn. by rewrite C1. }
  set (s3 := act (set_staging (Some (no_files mode))) _). assert (always (pending R) s3) as A3 by (apply always_act; [done|]; split; [exact Hv|by left]).
  pose proof (readRestore_ok e a o R (f_dst (cur s)) mode s3 A3 ltac:(subst s3; cbn; by rewrite C1)) as H.
  destruct (readRestore a _ o _) as [[[man unverified] err] [n s4]]. destruct H as [HI Har].
  destruct err as [err|].
  - unfold done_right. cbn. destruct HI as [HA HD HM HO _]. by apply drop_staging_ok.
  - pose proof (restore_swap_ok e o R (f_dst (cur s)) man unverified made mode s4 HR ltac:(by do 4 eexists) ltac:(intros; by apply Har)) as H.
    unfold done_right. destruct (restore_swap e man unverified made mode s4) as [[man' err'] s']. destruct H as [-> H]. exact H.
Qed.
Lemma Restore_ok e o a dst R s0 : (R → removals e) → DryRun o = false → vacant s0 → (R → residue s0) → done_right R o (Restore e a dst o (Run s0 [])).
Proof.
  intros HR Hd Hv Hr. assert (always (pending R) (Run s0 [])) as A0 by (by apply always_start).
  unfold Restore. rewrite Hd. destruct (negb (options_ok o)); [done|]. destruct (_ || _); [done|]. cbn [cur].
  destruct (checkRestoreDir _ _) as [err|] eqn:Ec.
  { unfold checkRestoreDir in Ec. destruct (f_dst s0); [|done]. destruct (negb _); [by injection Ec as <-|]. case_bool_decide; [done|]. by injection Ec as <-. }
  set (mode := match f_dst s0 with Some d => d_mode d | None => 493 end). destruct (_ && _); [done|].
  set (s1 := if bool_decide (f_dst s0 = None) then act (set_dst (Some (no_files mode))) (Run s0 []) else Run s0 []).
  assert (always (pending R) s1) as A1.
  { subst s1. case_bool_decide; [|done]. apply always_act; [done|]. split; [by intros d [= <-]|exact Hr]. }
  destruct (e_open_lock e); cbn [negb].
  2:{ unfold done_right. cbn. case_bool_decide; [|done]. apply always_act; [done|]. destruct (always_cur _ _ A1) as [_ Hr1]. split; [by intros d|exact Hr1]. }
  set (s2 := act _ s1). assert (always (pending R) s2) as A2.
  { apply always_act; [done|]. destruct (always_cur _ _ A1) as [Hv1 Hr1]. split; [|exact Hr1]. intros d Hd1. cbn in Hd1.
    destruct (f_dst (cur s1)) as [d1|] eqn:E1; [|done]. injection Hd1 as <-. cbn. by apply Hv1. }
  destruct (e_flock e); cbn [negb]; [|done]. by apply restore_locked_ok.
Qed.

(** *** What is not a restore's *)

Definition untouched (s0 f : fs) : Prop := f_staging f = f_staging s0 ∧ f_displaced f = f_displaced s0 ∧ f_marker f = f_marker s0.
Lemma Restore_foreign e o a dst s0 : DryRun o = false → f_marker s0 = false → is_Some (f_staging s0) ∨ is_Some (f_displaced s0) →
  always (untouched s0) (Restore e a dst o (Run s0 [])).2.
Proof.
  intros Hd Hm Hf. assert (always (untouched s0) (Run s0 [])) as A0 by (by apply always_start).
  unfold Restore. rewrite Hd. destruct (negb (options_ok o)); [done|]. destruct (_ || _); [done|]. cbn [cur].
  destruct (checkRestoreDir _ _) as [err|]; [done|]. destruct (_ && _); [done|].
  match goal with |- context [if bool_decide (f_dst s0 = None) then act ?g (Run s0 []) else Run s0 []] => set (s1 := if bool_decide (f_dst s0 = None) then act g (Run s0 []) else Run s0 []) end.
  assert (always (untouched s0) s1) as A1 by (subst s1; case_bool_decide; [by apply always_act|done]).
  destruct (e_open_lock e); cbn [negb]; [|case_bool_decide; [apply always_act; [done|]; by apply (always_cur _ _ A1)|done]].
  set (s2 := act _ s1). assert (always (untouched s0) s2) as A2 by (apply always_act; [done|]; by apply (always_cur _ _ A1)).
  destruct (e_flock e); cbn [negb]; [|done]. unfold restore_locked.
  destruct (always_cur _ _ A2) as (U1 & U2 & U3). rewrite <- U1, <- U2 in Hf. rewrite Hm in U3.
  assert (clearStaging e s2 = (Some ForeignStaging, s2)) as ->; [|done].
  unfold clearStaging, clear_dir. cbv zeta. rewrite U3. destruct (f_staging (cur s2)); [done|]. destruct Hf as [[? [=]]|Hf]. by destruct Hf as [d ->].
Qed.
Lemma Restore_occupied e o a dst s0 : DryRun o = false → ¬ vacant s0 → let r := Restore e a dst o (Run s0 []) in r.2 = Run s0 [] ∧ in_place r.1.2 = false.
Proof.
  intros Hd Hv. unfold Restore. rewrite Hd. destruct (negb (options_ok o)); [done|]. destruct (_ || _); [done|]. cbn [cur].
  unfold checkRestoreDir. destruct (f_dst s0) as [d|] eqn:Ed; [|by exfalso; apply Hv; intros d; rewrite Ed].
  destruct (e_readdir e); cbn [negb]; [|done]. case_bool_decide as Hf; [|done]. exfalso. apply Hv. intros d'. rewrite Ed. by intros [= <-].
Qed.

(** *** A restore nothing stops *)

Context {JL : BackupJsonLaws J}.
Definition snap_bytes (snap : list snapGroup) : Z := foldr Z.add 0 ((λ g, len (sg_blob g)) <$> snap).
Lemma snap_bytes_perm l l' : l ≡ₚ l' → snap_bytes l = snap_bytes l'.
Proof. intros H. unfold snap_bytes. induction H; cbn; unfold snap_bytes in *; lia. Qed.
Lemma entryBytes_file o : entryBytes (readLimits o) ≤ maxFileBytes o.
Proof.
  unfold entryBytes. cbn [maxEntryBytes readLimits].
  assert (0 < maxFileBytes o) by (unfold maxFileBytes, or_default; case_bool_decide; [done|by vm_compute]).
  case_bool_decide; lia.
Qed.
Lemma stage_emitted o mode dst (l : list snapGroup) : ∀ nf tot n s files,
  cur s = MkFS dst (Some (MkDir files false mode)) None true → NoDup ((λ g, group_name (sg_id g)) <$> l) →
  nf + len l ≤ maxFiles o → Forall (λ g, len (sg_blob g) ≤ maxFileBytes o) l → tot + snap_bytes l ≤ maxBytes o →
  ∃ env, emitted (restore_emit o (Some (stage_file no_failure))) (REnv nf tot true (n, s)) l env ∧
    cur (re_world env).2 = MkFS dst (Some (MkDir (files_of l ∪ files) false mode)) None true.
Proof.
  induction l as [|g l IH]; intros nf tot n s files Hc Hn Hnf Hl Ht; [eexists; split; [done|]; cbn; unfold files_of; cbn; by rewrite map_empty_union|].
  rewrite fmap_cons in Hn. apply NoDup_cons in Hn as [Hng Hn]. apply Forall_cons in Hl as [Hg Hl].
  assert (0 ≤ snap_bytes l) as Hpos by (clear; induction l as [|g l IH]; cbn; unfold snap_bytes in *; cbn; len_facts; lia).
  change (snap_bytes (g :: l)) with (len (sg_blob g) + snap_bytes l) in Ht. rewrite len_cons in Hnf. len_facts.
  edestruct (IH (nf + 1) (tot + len (sg_blob g)) (S n)) as (env & He & Hw); [| |lia|done|lia|].
  3:{ exists env. split; [eexists; split; [|exact He]|].
      - unfold restore_emit. cbn [re_saw negb]. rewrite andb_false_r. cbv zeta. cbn [re_files re_total re_saw re_world].
        rewrite !bool_decide_eq_false_2 by lia. unfold stage_file. cbn [e_writes no_failure negb]. reflexivity.
      - rewrite Hw. do 3 f_equal. change (files_of (g :: l)) with (<[group_name (sg_id g) := sg_blob g]> (files_of l)).
        rewrite <- insert_union_l, insert_union_r; [done|]. unfold files_of. apply not_elem_of_list_to_map. by rewrite <- list_fmap_compose. }
  - cbn. by rewrite Hc.
  - done.
Qed.
Definition restored_mode (s0 : fs) : Z := match f_dst s0 with Some d => d_mode d | None => 493 end.
Lemma clear_lands s : residue (cur s) → ∃ s', clearStaging no_failure s = (None, s') ∧ cur s' = MkFS (f_dst (cur s)) None None false.
Proof.
  destruct s as [[fd fst fo fm] p]. intros [H|[H1 H2]]; cbn in *; subst; [|destruct fm; by eexists].
  destruct fst, fo; by eexists.
Qed.
Lemma swap_lands man mode made s fl d : cur s = MkFS (Some d) (Some (MkDir fl false mode)) None true → d_files d = ∅ →
  ∃ s', restore_swap no_failure man false made mode s = ((man, None), s') ∧ cur s' = MkFS (Some (MkDir fl true mode)) None None false.
Proof.
  intros Hc Hd. unfold restore_swap. cbn [e_chmod no_failure e_sync_staging e_lock_staging e_flock_staging e_readdir2 e_rename_dst e_rename_staging negb]. rewrite andb_false_r.
  set (s1 := act _ (if made then _ else _)). assert (cur s1 = MkFS (Some d) (Some (MkDir fl true mode)) None true) as H1 by (subst s1; destruct made; cbn; by rewrite Hc).
  clearbody s1. rewrite H1. unfold checkRestoreDir. cbn [f_dst negb]. rewrite bool_decide_eq_true_2 by done.
  unfold restore_landed. cbn. eexists. split; [done|]. cbn. by rewrite H1.
Qed.
Lemma Restore_lands o dst s0 snap tenant now seq :
  options_ok o = true → DryRun o = false → filepath_Base dst ∉ [[46]; [46; 46]; [47]] → vacant s0 → residue s0 →
  snapshot_ok (readLimits o) snap → plain_text tenant → RequireTenant o = [] ∨ tenant = RequireTenant o → snap_bytes snap ≤ maxBytes o →
  (let m := (backup_encode (BManifest BackupFormat now tenant seq (described <$> snap))).1 in len (json_Marshal m) ≤ manifestBytes (readLimits o)) →
  ∃ entries m, BackupTarWith tenant now seq snap = Some entries ∧ bm_Groups m ≡ₚ described <$> snap ∧ bm_Tenant m = tenant ∧
    let '(r, s) := Restore no_failure (Archive entries true) dst o (Run s0 []) in
    r = (Some m, None) ∧ cur s = MkFS (Some (MkDir (files_of snap) true (restored_mode s0))) None None false.
Proof.
  intros Hok Hd Hb Hv Hr Hs Ht Htn Hbytes Hm.
  destruct (backup_entries tenant now seq snap _ Hs) as (snap' & m & Hp & Hg & Hf & Htm & Em & Eb). cbv zeta in Hm. rewrite <- Em in Hm.
  eexists _, m. split; [exact Eb|]. split; [rewrite Hg; by apply fmap_Permutation|]. split; [done|].
  unfold Restore. rewrite Hok, Hd. cbn [negb]. rewrite bool_decide_eq_false_2 by done. cbn [e_symlink no_failure orb cur].
  assert (checkRestoreDir (e_readdir no_failure) (f_dst s0) = None) as ->.
  { unfold checkRestoreDir. destruct (f_dst s0) as [d|] eqn:Ed; [|done]. cbn. by rewrite bool_decide_eq_true_2 by by apply Hv. }
  cbn [e_mkdir_dst e_open_lock e_flock no_failure negb]. rewrite andb_false_r. fold (restored_mode s0).
  set (s2 := act _ _). assert (∃ d, f_dst (cur s2) = Some d ∧ d_files d = ∅ ∧ f_staging (cur s2) = f_staging s0 ∧ f_displaced (cur s2) = f_displaced s0 ∧ f_marker (cur s2) = f_marker s0) as (d & E1 & E2 & E3 & E4 & E5).
  { subst s2. case_bool_decide as Hn; cbn; [by eexists|]. destruct (f_dst s0) as [d|] eqn:Ed; [|done]. eexists. split; [done|]. split; [exact (Hv d Ed)|done]. }
  clearbody s2. unfold restore_locked.
  destruct (clear_lands s2) as (s3 & -> & Hc3); [unfold residue; by rewrite E3, E4, E5|]. rewrite E1 in Hc3.
  cbn [e_marker e_mkdir_staging no_failure negb]. set (s4 := act _ (act _ s3)).
  assert (cur s4 = MkFS (Some d) (Some (no_files (restored_mode s0))) None true) as H4 by (subst s4; cbn; by rewrite Hc3). clearbody s4.
  assert (NoDup ((λ g, group_name (sg_id g)) <$> snap')) as Hnn by (destruct Hs; apply names_NoDup; by rewrite Hp).
  assert (0 < maxFiles o) as Hmf by (unfold maxFiles, or_default; case_bool_decide; [done|by vm_compute]).
  destruct (stage_emitted o (restored_mode s0) (Some d) snap' 0 0 0%nat s4 ∅) as (env & He & Hcur); [done|done| | |by rewrite (snap_bytes_perm _ _ Hp)|].
  { destruct Hs as [_ _ _ _ Hc]. cbn [maxGroups readLimits] in Hc. apply Permutation_length in Hp. unfold len in *. lia. }
  { rewrite Hp. pose proof (entryBytes_file o). destruct Hs as [_ _ Hsm _ _]. eapply Forall_impl; [exact Hsm|]. cbn. lia. }
  assert (checkRestoreTenant m o = None) as Hten.
  { unfold checkRestoreTenant. rewrite Htm. destruct Htn as [E|E]; rewrite E; [by rewrite bool_decide_eq_true_2|]. by rewrite (bool_decide_eq_true_2 (RequireTenant o = RequireTenant o)), orb_true_r. }
  unfold readRestore.
  rewrite (backup_accepted (restore_manifest o) (restore_emit o (Some (stage_file no_failure))) (readLimits o) snap snap' m (REnv 0 0 false (0%nat, s4)) (REnv 0 0 true (0%nat, s4)) env);
    [|done|by rewrite Htm|done|done|done|done|unfold restore_manifest; by rewrite Hten|done].
  cbn [re_world]. destruct (re_world env) as [n s5]. cbn [snd] in Hcur. rewrite map_union_empty, (files_of_perm snap' snap) in Hcur by done.
  destruct (swap_lands (Some m) (restored_mode s0) (bool_decide (f_dst s0 = None)) s5 (files_of snap) d Hcur E2) as (s6 & -> & Hc6). done.
Qed.

(** *** What a restore promises *)

(** C11: In every state a restore visits, whichever call fails and wherever it is
    killed, the destination has no file of the archive or is the whole of it, locked,
    under a manifest whose tenant is the one required; it is in place exactly when the
    answer says so, an occupied destination is left as it was, and so is a directory
    beside it that no restore marked. *)
Theorem restore_atomic e a dst o s0 :
  DryRun o = false →
  let '((man, err), s) := Restore e a dst o (Run s0 []) in
  (¬ vacant s0 → in_place err = false ∧ always (eq s0) s) ∧
  (vacant s0 → always (λ f, vacant f ∨ landed o man f) s ∧ if in_place err then landed o man (cur s) else always vacant s) ∧
  (f_marker s0 = false → is_Some (f_staging s0) ∨ is_Some (f_displaced s0) → always (untouched s0) s).
Proof.
  intros Hd. pose proof (Restore_ok e o a dst False s0 ltac:(done) Hd) as H1. pose proof (Restore_foreign e o a dst s0 Hd) as H2.
  pose proof (Restore_occupied e o a dst s0 Hd) as H3. destruct (Restore e a dst o (Run s0 [])) as [[man err] s]. cbn [fst snd] in *. unfold done_right in H1. cbn [fst snd] in H1.
  split_and!; [|intros Hv|done].
  - intros Hv. destruct (H3 Hv) as [-> ->]. split; [done|]. by apply always_start.
  - specialize (H1 Hv ltac:(done)). destruct (in_place err).
    + destruct H1 as [H1 Hl]. split; [|done]. eapply always_impl; [|exact H1]. by intros f [Hf _].
    + split; (eapply always_impl; [|exact H1]); intros f [Hf _]; [by left|done].
Qed.
Lemma Restore_residue e o a dst s0 : removals e → DryRun o = false → vacant s0 → residue s0 → always residue (Restore e a dst o (Run s0 [])).2.
Proof.
  intros HR Hd Hv Hr. pose proof (Restore_ok e o a dst True s0 (λ _, HR) Hd Hv (λ _, Hr)) as H. unfold done_right in H.
  destruct (in_place _); [destruct H as [H _]|]; (eapply always_impl; [|exact H]); intros f [_ Hf]; by apply Hf.
Qed.
(** C17: Killed anywhere before it landed, a restore leaves a state from which
    restoring the backup of a store puts its groups, and nothing else, at the
    destination, and leaves nothing beside it. Any call of the killed restore may have
    failed but the deferred removals of its staging and displaced directories, which
    remove the marker after them ([residue_unmarked] below). The backup is within the
    limits of the restore, and what was beside the destination before is marked. *)
Theorem restore_retried e1 a1 o1 o dst s0 f snap tenant now seq :
  vacant s0 → residue s0 → removals e1 → DryRun o1 = false → visited (Restore e1 a1 dst o1 (Run s0 [])).2 f → vacant f →
  options_ok o = true → DryRun o = false → filepath_Base dst ∉ [[46]; [46; 46]; [47]] →
  snapshot_ok (readLimits o) snap → plain_text tenant → RequireTenant o = [] ∨ tenant = RequireTenant o → snap_bytes snap ≤ maxBytes o →
  (let m := (backup_encode (BManifest BackupFormat now tenant seq (described <$> snap))).1 in len (json_Marshal m) ≤ manifestBytes (readLimits o)) →
  ∃ entries m, BackupTarWith tenant now seq snap = Some entries ∧ bm_Groups m ≡ₚ described <$> snap ∧ bm_Tenant m = tenant ∧
    let '(r, s) := Restore no_failure (Archive entries true) dst o (Run f []) in
    r = (Some m, None) ∧ cur s = MkFS (Some (MkDir (files_of snap) true (restored_mode f))) None None false.
Proof.
  intros Hv Hr He Hd Hf Hvf Hok Hd2 Hb Hs Ht Htn Hby Hm. apply Restore_lands; try done. by apply (Restore_residue e1 o1 a1 dst s0).
Qed.

(** *** Where it falls short *)

(** A removal that fails on the way out leaves a directory whose marker is then
    removed: every later restore takes it for somebody else's. *)
Definition stuck_env : restore_env :=
  RestoreEnv false true true true true None None true true false true (λ _, true) true true true true true true true true true true (Some (Some (no_files 493))) None true.
Lemma residue_unmarked dst o o2 a :
  options_ok o = true → DryRun o = false → AllowUnverified o = false → options_ok o2 = true → DryRun o2 = false → filepath_Base dst ∉ [[46]; [46; 46]; [47]] →
  let f := cur (Restore stuck_env (Archive [] true) dst o (Run (MkFS None None None false) [])).2 in
  f_marker f = false ∧ is_Some (f_staging f) ∧ (Restore no_failure a dst o2 (Run f [])).1 = (None, Some ForeignStaging).
Proof.
  intros H1 H2 H3 H4 H5 Hb f. assert (f = MkFS (Some (MkDir ∅ true 493)) (Some (no_files 493)) None false) as ->.
  { subst f. unfold Restore. rewrite H1, H2, bool_decide_eq_false_2 by done. cbn. unfold readRestore. cbn. rewrite H3. by case_bool_decide. }
  split; [done|]. split; [by eexists|]. unfold Restore. rewrite H4, H5, bool_decide_eq_false_2 by done. done.
Qed.
(** Killed between its two renames, a restore into a directory of mode 0700 leaves no
    destination, and the next one makes it 0755. *)
Lemma mode_forgotten dst o s : options_ok o = true → DryRun o = false → AllowUnverified o = true → RequireTenant o = [] → filepath_Base dst ∉ [[46]; [46; 46]; [47]] →
  s = (Restore no_failure (Archive [] true) dst o (Run (MkFS (Some (no_files 448)) None None false) [])).2 →
  d_mode <$> f_dst (cur s) = Some 448 ∧
  ∃ f, visited s f ∧ f_dst f = None ∧ d_mode <$> f_dst (cur (Restore no_failure (Archive [] true) dst o (Run f [])).2) = Some 493.
Proof.
  intros H1 H2 H3 H4 Hb Hs. 
  assert (∀ f, (f = MkFS (Some (no_files 448)) None None false ∨ f = MkFS None (Some (MkDir ∅ true 448)) (Some (MkDir ∅ true 448)) true) →
    Restore no_failure (Archive [] true) dst o (Run f []) = restore_locked no_failure o (Archive [] true) (bool_decide (f_dst f = None)) (restored_mode f)
      (act (λ f, set_dst ((λ d, MkDir (d_files d) true (d_mode d)) <$> f_dst f) f) (if bool_decide (f_dst f = None) then act (set_dst (Some (no_files (restored_mode f)))) (Run f []) else Run f []))) as HR.
  { intros f Hf. unfold Restore. rewrite H1, H2, bool_decide_eq_false_2 by done. by destruct Hf as [->| ->]. }
  rewrite HR in Hs by by left. unfold restore_locked, readRestore in Hs. cbn in Hs. rewrite H3, H4 in Hs. cbn in Hs. subst s. split; [done|].
  exists (MkFS None (Some (MkDir ∅ true 448)) (Some (MkDir ∅ true 448)) true). split; [right; cbn; set_solver|]. split; [done|].
  rewrite HR by by right. unfold restore_locked, readRestore. cbn. rewrite H3, H4. done.
Qed.
End restored.
