(* ===== verification/RestoreWitness.v ===== *)
(** * Backups and restores on reference instances

    Two groups backed up, restored over what a killed restore left, and read back. *)

From Stdlib Require Import Ascii String.
From S2P Require Import Prelude Digits GoLib Kernels Group Filter TimeFilter Text Witnesses Backup BackupOk RestoreOk.
From stdpp Require Import list gmap countable sorting.
Local Open Scope Z_scope.

(** The JSON of a manifest stood for by the bits of its number. *)
Fixpoint bits_of (p : positive) : bytes := match p with xH => [] | xO p => 48 :: bits_of p | xI p => 49 :: bits_of p end.
Fixpoint of_bits (b : bytes) : positive := match b with [] => xH | c :: b => if bool_decide (c = 48) then xO (of_bits b) else xI (of_bits b) end.
Lemma of_bits_of p : of_bits (bits_of p) = p.
Proof. induction p as [p IH|p IH|]; cbn; [by rewrite IH..|done]. Qed.
Definition fields_of (m : BackupManifest) : Z * Z * bytes * Z * list (bytes * Z * Z * Z * Z * Z) :=
  (bm_Format m, bm_CreatedUnix m, bm_Tenant m, bm_ManifestSeq m,
   (λ g, (bg_Name g, bg_ID g, bg_Version g, bg_Rows g, bg_Bytes g, bg_CRC32C g)) <$> bm_Groups m).
Definition of_fields (x : Z * Z * bytes * Z * list (bytes * Z * Z * Z * Z * Z)) : BackupManifest :=
  let '(f, c, t, s, gs) := x in BManifest f c t s ((λ g, let '(n, i, v, r, b, k) := g in BGroup n i v r b k) <$> gs).
Lemma of_fields_of m : of_fields (fields_of m) = m.
Proof.
  destruct m as [f c t s gs]. cbn. f_equal. rewrite <- list_fmap_compose. induction gs as [|[] gs IH]; [done|]. cbn. by f_equal.
Qed.
#[local] Instance bit_json : BackupJson := {|
  json_Marshal m := bits_of (encode (fields_of m));
  json_format b := bm_Format ∘ of_fields <$> decode (of_bits b);
  json_Decode b := of_fields <$> decode (of_bits b) |}.
#[local] Instance bit_json_laws : BackupJsonLaws bit_json.
Proof.
  constructor; intros m; cbn -[fields_of of_fields encode]; rewrite of_bits_of, decode_encode; [|intros _ _]; cbn -[fields_of of_fields];
    by rewrite ?of_fields_of.
Qed.

Definition held : list snapGroup := [SnapGroup 7 2 sample_blob; SnapGroup 3 2 sample_blob].
Definition tenant0 : bytes := [48; 45; 48].
Definition no_limits : backupReadLimits := Limits 0 0 0.
Definition plain_options : RestoreOptions := MkRestoreOptions 0 0 0 0 tenant0 false false.

Lemma held_ok lim : 0 ≤ maxGroups lim → (maxGroups lim = 0 ∨ 2 ≤ maxGroups lim) → 4096 ≤ entryBytes lim → snapshot_ok lim held.
Proof.
  intros H0 Hm He. assert (∃ r, ReadGroup sample_blob = Good r) as Hp by (eexists; vm_compute; reflexivity).
  assert (len sample_blob ≤ 4096) as Hl by (by vm_compute). constructor.
  - by_eval.
  - by repeat constructor.
  - repeat constructor; cbn -[sample_blob]; lia.
  - by repeat constructor.
  - destruct Hm; [left; lia|right; done].
Qed.
(** The archive carries the groups in the order of their ids. *)
Lemma backup_roundtrip_witness :
  ∃ entries m names, BackupTarWith tenant0 1700000000 5 held = Some entries ∧ bm_Groups m ≡ₚ described <$> held ∧
    (en_name <$> entries) = [backupManifestName; group_name 3; group_name 7; backupCompleteName] ∧
    collected no_limits (Archive entries true) = (Some m, names, files_of held, None) ∧
    (collected no_limits (Archive (take 3 entries) true)).2 ≠ None.
Proof.
  destruct (backup_roundtrip no_limits tenant0 1700000000 5 held) as (entries & m & names & E & Hg & Ht & Hs & Hr & Hc).
  - apply held_ok; [done|by left|by vm_compute].
  - by repeat constructor.
  - by vm_compute.
  - assert ((λ l : list entry, en_name <$> l) <$> BackupTarWith tenant0 1700000000 5 held =
      Some [backupManifestName; group_name 3; group_name 7; backupCompleteName]) as Hn by (vm_compute; reflexivity).
    rewrite E in Hn. injection Hn as Hn. exists entries, m, names. split_and!; [done|done|done|done|].
    apply (Hc 3%nat true). rewrite <- (length_fmap en_name), Hn. cbn. lia.
Defined.

Definition sample_archive : archive := Archive (default [] (BackupTarWith tenant0 1700000000 5 held)) true.
Definition nothing_there : fs := MkFS None None None false.
Definition killed_run : run := (Restore no_failure sample_archive [100] plain_options (Run nothing_there [])).2.

(** A restore that nothing stops lands after eleven states with nothing at the
    destination or beside it. *)
Lemma restore_atomic_witness :
  let r := Restore no_failure sample_archive [100] plain_options (Run nothing_there []) in
  in_place r.1.2 = true ∧ length (past r.2) = 11%nat ∧ always (λ f, vacant f ∨ landed plain_options r.1.1 f) r.2 ∧ landed plain_options r.1.1 (cur r.2).
Proof.
  pose proof (restore_atomic no_failure sample_archive [100] plain_options nothing_there eq_refl) as H.
  assert (in_place (Restore no_failure sample_archive [100] plain_options (Run nothing_there [])).1.2 = true) as E by (vm_compute; reflexivity).
  assert (length (past killed_run) = 11%nat) as El by (vm_compute; reflexivity). unfold killed_run in El. cbv zeta.
  destruct (Restore no_failure sample_archive [100] plain_options (Run nothing_there [])) as [[man err] s]. cbn [fst snd] in *.
  destruct H as (_ & H & _). destruct (H ltac:(by intros d)) as [H1 H2]. rewrite E in H2. done.
Defined.
(** Killed with one group staged, restored again. *)
Lemma restore_retried_witness :
  ∃ f entries m, f ∈ past killed_run ∧ f_marker f = true ∧ (d_files <$> f_staging f) = Some {[ group_name 3 := sample_blob ]} ∧
    BackupTarWith tenant0 1700000000 5 held = Some entries ∧
    let '(r, s) := Restore no_failure (Archive entries true) [100] plain_options (Run f []) in
    r = (Some m, None) ∧ cur s = MkFS (Some (MkDir (files_of held) true (restored_mode f))) None None false.
Proof.
  set (f := default nothing_there (past killed_run !! 5%nat)).
  assert (past killed_run !! 5%nat = Some f) as Hf by (vm_compute; reflexivity). apply list_elem_of_lookup_2 in Hf.
  assert ((d_files <$> f_dst f) = Some ∅) as Hv by (vm_compute; reflexivity).
  assert (f_marker f = true) as Hm by (vm_compute; reflexivity).
  assert ((d_files <$> f_staging f) = Some {[ group_name 3 := sample_blob ]}) as Hst by (vm_compute; reflexivity).
  clearbody f.
  destruct (restore_retried no_failure sample_archive plain_options plain_options [100] nothing_there f held tenant0 1700000000 5) as (entries & m & E & _ & _ & H).
  - by intros d.
  - right. split; reflexivity.
  - split; reflexivity.
  - reflexivity.
  - right. exact Hf.
  - intros d Hd. rewrite Hd in Hv. by injection Hv.
  - reflexivity.
  - reflexivity.
  - intros H. repeat (apply elem_of_cons in H as [H|H]; [done|]). by apply elem_of_nil in H.
  - apply held_ok; [done|right; by vm_compute|by vm_compute].
  - by repeat constructor.
  - right. reflexivity.
  - by vm_compute.
  - by vm_compute.
  - by exists f, entries, m.
Defined.
